(* ===== verification/_CoqProject ===== *)
-Q . S2P
Prelude.v
PyOrd.v
PyJson.v
PyStr.v
PyDict.v
RoomVersions.v
Identifiers.v
Event.v
EventAuth.v
EventAuthProps.v
StateFilter.v
TopoSort.v
StateResV2.v
StateResV2Props.v
StateResV2Sort.v
StateResV2AuthDiff.v
StateResV2Resolve.v
StateResV1.v
StateResV1Props.v
StreamChangeCache.v
StreamChangeCacheProps.v
IdGenerators.v
IdGeneratorsProps.v
StreamTokens.v
StreamTokensProps.v
EventUtils.v
EventUtilsProps.v
FrozenEvent.v
RedactionProps.v
RedactionAuth.v
Visibility.v
VisibilityProps.v
ServerVisibility.v
ServerVisibilityProps.v
LinkedList.v
LruCache.v
LruCacheProps.v
TreeCache.v
TreeCacheProps.v
DictionaryCache.v
WheelTimer.v
PresenceStore.v
Presence.v
PresenceProps.v
PresenceInv.v
PresenceOps.v
PresenceTimeouts.v
PresenceTheorems.v
Commands.v
PresenceQueue.v
PresenceWorker.v
ChainLinks.v
ChainIndex.v
ChainCover.v
ChainQuery.v
ChainQueryProps.v
ChainFixup.v
ChainTopo.v
ChainAllocate.v
ChainLinking.v
ChainFetch.v
ChainBuild.v
ChainPersist.v
ChainSearch.v
ChainWalk.v
ChainTheorems.v
Linearizer.v
ReadWriteLock.v
Filtering.v
FilteringProps.v
Samples.v
Witnesses.v
StreamWitnesses.v
EventWitnesses.v
VisibilityWitnesses.v
CacheWitnesses.v
PresenceWitnesses.v
ReplicationWitnesses.v
ChainWitnesses.v
LockWitnesses.v
