(* ===== verification/Prelude.v ===== *)
(** * Synapse: a verification development of the homeserver's core logic

    A Matrix homeserver stores rooms as graphs of events and computes the
    state of a room from them. This library models the parts of the server
    that decide, in Python and without I/O, what the state of a room is, which
    events are accepted, what a redaction removes, who sees an event, how
    the positions of the replicated streams of events advance, who is online,
    how the index of auth chains is built and read, and what the caches hold;
    and it proves what makes them correct. File and function names below are
    those under [src/synapse/].

    ** The parts and how they interact

    - Events ([events/__init__.py]) are dicts with a room version
      ([api/room_versions.py]) that selects the rules. Redaction
      ([events/utils.py]) defines the part of an event that its id and its
      signatures cover ([crypto/event_signing.py]).
    - Authorisation ([event_auth.py]) accepts an event given the part of the
      room state that [auth_types_for_event] selects: power levels,
      memberships, join rules, the create event.
    - State resolution ([state/v2.py], [state/v1.py]) merges the states of the
      branches of the event graph. It sorts the conflicting events (a
      topological sort by the senders' power, then by the mainline of power
      levels events) and applies the authorisation rules to each in turn. It
      reads events through a store, which is an interface with laws.
    - Auth chains: each state event that is persisted gets a chain and a number
      in it, and links between the chains
      ([storage/databases/main/events.py]), from which
      [storage/databases/main/event_federation.py] answers which events are in
      the auth chains of others; without such an index it searches.
    - Visibility ([visibility.py]) decides from the state at an event, which it
      fetches through a state filter, whether a user, or another server, may see it.
    - State filters ([types/state.py]) describe which part of a state a caller
      wants; identifiers ([types/__init__.py], [util/stringutils.py]) are the
      user, room and event ids all of these handle.
    - Streams: the id generator ([storage/util/id_generators.py]) hands out
      positions to several writers and reports up to where everything is
      persisted; tokens ([types/__init__.py]) are the vectors of such positions
      clients hold; the stream change cache
      ([util/caches/stream_change_cache.py]) answers what changed after one.
    - Caches: an LRU cache ([util/caches/lrucache.py]) keeps its entries in a
      circular list of nodes ([util/linked_list.py]) and in a dict, which is a
      tree ([util/caches/treecache.py]) where keys are dropped by prefix. A cache
      of dicts ([util/caches/dictionary_cache.py]) is one of these.
    - Presence ([handlers/presence.py]): one process holds the presence of all
      users and checks timers ([util/wheel_timer.py]); the others count syncs
      and tell it by commands ([replication/tcp/commands.py]), and fetch what
      they must send to other servers from its queue.
    - Filters of clients ([api/filtering.py]) select the events, ephemeral events,
      account data and presence a sync returns.
    - Locks ([util/async_helpers.py]): tasks queue for a key, or share it as
      readers and writers.

    ** Files

    - [Prelude]: exceptions ([exn]), the error monad [res] and the state and
      error monad [SE] with their notations, the tactics [inv_bind], [inv_SE],
      [bind_cong], [real] and the hint database [real] (a computation that does
      not stop for lack of fuel), lemmas on loops. [PyOrd]: Python's
      ordering, stable sort and heap. [PyJson], [PyDict], [PyStr]: JSON values
      and the operations Python has on them, dict updates, printing and
      splitting of strings.
    - [RoomVersions]: every room version with its flags, constants and error
      codes. [Identifiers]: [DomainSpecificString] and its subclasses, server
      names, [map_username_to_mxid_localpart]. [Event]: the attributes of
      [EventBase].
    - [EventAuth], [EventAuthProps]: [event_auth.py], one definition per
      function, the long ones cut at their branches.
    - [StateFilter]: the class [StateFilter].
    - [TopoSort], [StateResV2]: [state/v2.py]; [StateResV2Props] (separation of
      conflicts, the event cache, the auth checks), [StateResV2Sort] (the two
      sorts), [StateResV2AuthDiff] (the auth chain difference),
      [StateResV2Resolve] (the whole algorithm). [StateResV1],
      [StateResV1Props]: [state/v1.py], with SHA-1 for its tie break.
    - [StreamChangeCache], [StreamChangeCacheProps]: the cache, over an
      interface of [sortedcontainers.SortedDict].
    - [IdGenerators], [IdGeneratorsProps]: [MultiWriterIdGenerator], and the
      state machine of its threads, its sequence and the other writers.
    - [StreamTokens], [StreamTokensProps]: [RoomStreamToken],
      [MultiWriterStreamToken], [StreamToken], [SlidingSyncStreamToken].
    - [EventUtils], [EventUtilsProps]: [events/utils.py]; [FrozenEvent]: event
      objects over their dicts and [crypto/event_signing.py];
      [RedactionProps], [RedactionAuth]: what a redaction keeps.
    - [Visibility], [VisibilityProps]: [visibility.py] for users;
      [ServerVisibility], [ServerVisibilityProps]: for other servers.
    - [LinkedList]: [ListNode] over a heap of references. [LruCache],
      [LruCacheProps]: the cache over an interface of its dict; [TreeCache],
      [TreeCacheProps]: the tree, and that it is such a dict. [DictionaryCache]:
      the cache of dicts over an interface of [LruCache], with the proof that
      [LruCache] over a tree has it.
    - [WheelTimer]: timers in buckets. [PresenceStore]: the states and their
      table. [Presence]: [PresenceHandler], its operations in a state and
      error monad that keeps the state when an exception is raised;
      [PresenceProps] (single operations), [PresenceInv] (the invariant),
      [PresenceOps] and [PresenceTimeouts] (each operation keeps it),
      [PresenceTheorems] (the transition system). [PresenceQueue]:
      [PresenceFederationQueue]. [Commands]: the replication commands.
      [PresenceWorker]: [WorkerPresenceHandler], and the system of a worker,
      its channel and the writer.
    - [ChainLinks]: links between chains, with their searches; [ChainCover]: the
      tables, the allocation of chains, the links of new events, persisting;
      [ChainQuery]: the queries on the index; [ChainSearch]: those without it.
      [ChainIndex] (paths over links, and what an index means),
      [ChainQueryProps], [ChainFixup] (the queries), [ChainTopo],
      [ChainAllocate], [ChainLinking], [ChainFetch], [ChainBuild],
      [ChainPersist] (the steps of persisting a batch), [ChainWalk] (the
      searches), [ChainTheorems].
    - [Linearizer], [ReadWriteLock]: the locks, as transition systems of the tasks
      that use them, with what they promise.
    - [Filtering], [FilteringProps]: filters, their schemas, their table, and the
      theorems at sample filters.
    - [Samples], [Witnesses], [StreamWitnesses], [EventWitnesses],
      [VisibilityWitnesses], [CacheWitnesses], [PresenceWitnesses],
      [ReplicationWitnesses], [ChainWitnesses], [LockWitnesses]: a sample room and
      the theorems with hypotheses applied to concrete data, with concrete
      functions for the code the model takes as parameters.

    ** What the theorems show

    - Authorisation: no accepted power levels event raises anyone above its
      sender or touches a peer; accepted joins, removals and messages satisfy
      the rules of the specification; the auth events selected for an event
      suffice to decide it; the size limits and the shape errors.
    - State resolution: the code implements the algorithm as a relation
      ([resolves]) between state sets, events and resolved state that has one
      result; on an acyclic graph some amount of fuel is enough; the result
      depends neither on the order of the state sets nor on the order in which
      sets are visited; the sorts are the ones of the specification; the auth
      chain difference is the difference of the auth chains.
    - Auth chains: whatever batches are persisted (of events that name no auth
      event twice or in another room), the index is one of the auth
      graph and holds every event whose auth chain is there; the queries then
      answer what a search of the graph would, also with events that are not
      indexed yet. The search for one auth chain is exact; that for a
      difference finds all of it, and stops too early to find only that.
    - Streams: no token of the id generator reaches an id whose transaction
      has not ended, none goes back, and the generator catches up; the change
      cache never misses a change; tokens form a lattice, advance forward and
      read back from their text.
    - Event dicts: redaction keeps the identity of an event and the verdicts
      of the authorisation rules; the accepted JSON is canonical JSON; levels
      survive their conversion; [only_fields] copies what was asked for.
    - Visibility: a client is sent exactly the events it is entitled to, in the
      form it is entitled to, where entitlement is said in the fields of the
      events; the batch version for many users agrees; so does
      another server.
    - Caches: the LRU cache behaves as a list of entries in order of use, of
      bounded size, whose callbacks run when entries go; the tree as a map,
      whose size also counts keys that were set again; the cache of dicts never answers with what was read before a change, once the
      change is invalidated, however reads and changes interleave.
    - Presence: nobody stays online without activity, a syncing device is not
      timed out, a user's presence is that of its best device, a restart keeps
      it unless the database pool stopped first; timers come back on time; the writer learns of the syncs of a
      worker; commands read back; the queue for federation senders loses
      nothing for five minutes.
    - Locks: a [Linearizer] runs at most its limit of tasks for a key, first
      come first served; a writer of a [ReadWriteLock] is alone, nobody
      overtakes it, and there is no deadlock.
    - Filters of clients (the experimental MSC3874 being off): the filters for
      rooms of an accepted filter are well-typed, never fail on events with
      sensible labels, select what their fields describe, and block all of a
      kind only when they select none; stored filters read back.
    - State filters and identifiers: what a filter selects, its SQL clause, its
      conversions; identifiers parse back.

    ** Conventions

    A Python function that may raise is a function into [res]; a message is the
    format string of the source. A [str] is its UTF-8 encoding. An [int] is a
    [Z], as Python's are unbounded. A dict is a [gmap] where its order is never
    observed and the list of its items where it is; where the code iterates
    over a set the order is an argument ([SetOrder] in state resolution) or the
    result is shown not to depend on it. [with self._lock] bodies are atomic steps. The presence handlers run
    to their end one after the other, at one time each ([now] is an argument,
    and the clock does not go back between handlers); the float division of
    the wheel timer is exact for times below 2^52. The presence table is the list
    of its rows. The tables of auth chains are a record, a query is the filter
    its SQL describes, and the order in which a set of new objects is iterated
    over is an argument ([object_order]). A task of a lock is named by the order
    of its arrival, and so is its deferred; between two [await]s it runs without
    interruption. Firing the deferred of a [Linearizer] runs the task it wakes
    within the call; with a [ReadWriteLock], whose deferreds have several tasks
    waiting, these are steps of their own, in any order.

    Loops that are not structural have fuel: the graph walks of state
    resolution have it as an argument, and [resolve_terminates] shows that on
    an acyclic graph there is an amount from which on they never run out (the
    bound it constructs is not part of the statement); the heap loops take the length of the heap, each iteration popping
    an element; the eviction loop of the LRU cache takes one more than the
    nodes of its list, each iteration removing one, and fetching the presence
    queue one more than its entries. A search over links takes as fuel the
    numbers it can visit each chain with, a round for missing auth events finds
    an event of the table, and a search of the auth graph expands each event
    once. Running out is the exception [OutOfFuel], which no Python code
    raises or catches.

    Code outside the repository is a class or a section variable:
    [canonicaljson], [signedjson], [unpaddedbase64] and [hashlib] (classes
    [SignedJson], [EventCrypto], [FilterJson]), [jsonschema] ([JsonSchema]),
    [netaddr], [sortedcontainers], and the stores
    ([StateResolutionStore], [InstanceStore]). What is assumed of them is in the
    laws of the class or in the hypotheses of the theorem.

    ** Not modelled

    SQL storage other than the presence table, the tables of auth chains and the
    table of filters, handlers other than presence,
    REST servlets, federation and replication transport, media and push: I/O
    and asynchronous orchestration around the logic above.
    The Rust extension (push rules, internal metadata, server ACLs).
    Logging, metrics and the cooperative yields of long loops, which do not
    change results. Of the modelled files, [serialize_event] with its bundled
    aggregations and the event builder; the eviction of cache entries by age
    and the asynchronous wrapper of the LRU cache; of presence, the event
    source for syncs and the choice of whom to notify; of the helpers for
    deferreds, all but the two locks. *)

From stdpp Require Export base gmap strings list fin_maps sets sorting.
From Stdlib Require Export ZArith Lia.

#[global] Open Scope Z_scope.

(** Sets of strings, and dicts keyed by strings. *)
Abbreviation StrSet := (@gset string String.eq_dec String.countable).
Abbreviation StrMap := (@gmap string String.eq_dec String.countable).

(** ** Python exceptions

    [exn] lists the exceptions the modelled code raises or lets through. A
    message is the source's format string, without the interpolated
    arguments; [errcode] is the Matrix error code where the source sets one,
    the class's default otherwise. *)

Inductive exn :=
  | AuthError (code : Z) (msg : string) (errcode : string)
  | SynapseError (code : Z) (msg : string) (errcode : string)
  | EventSizeError (msg : string) (unpersistable : bool)
  | KeyError
  | AttributeError (name : string)
  | TypeError
  | ValueError
  | OverflowError
  | IndexError
  | NameError (name : string)
  | AssertionError
  | RuntimeError (msg : string)
  | PlainException (msg : string)
  | SignatureVerifyException
  | OutOfFuel.

#[global] Instance exn_eq_dec : EqDecision exn.
Proof. solve_decision. Defined.

(** [except AuthError]: the only exceptions such a handler catches. *)
Definition is_AuthError (e : exn) : bool :=
  match e with AuthError _ _ _ => true | _ => false end.

(** ** The error monad *)

Inductive res (A : Type) :=
  | Ok (a : A)
  | Raise (e : exn).
Arguments Ok {A} a.
Arguments Raise {A} e.

#[global] Instance Ok_inj A : Inj (=) (=) (@Ok A).
Proof. by intros x y [=]. Qed.

#[global] Instance res_ret : MRet res := λ A a, Ok a.
#[global] Instance res_bind : MBind res := λ A B f m,
  match m with Ok a => f a | Raise e => Raise e end.
#[global] Instance res_fmap : FMap res := λ A B f m,
  match m with Ok a => Ok (f a) | Raise e => Raise e end.

#[global] Instance res_eq_dec `{EqDecision A} : EqDecision (res A).
Proof. solve_decision. Defined.

Definition is_ok {A} (m : res A) : bool :=
  match m with Ok _ => true | Raise _ => false end.

(** [try: m except ...: h e]. *)
Definition catch {A} (m : res A) (h : exn → res A) : res A :=
  match m with Ok a => Ok a | Raise e => h e end.

(** [if c: raise e]. *)
Definition raise_if (c : bool) (e : exn) : res unit :=
  if c then Raise e else Ok tt.

(** [for x in l: f(x)], with state threaded through. *)
Fixpoint foldM {A S} (f : S → A → res S) (s : S) (l : list A) : res S :=
  match l with
  | [] => Ok s
  | x :: l => s' ← f s x; foldM f s' l
  end.

(** [for x in l: f(x)], without state. *)
Fixpoint iterM {A} (f : A → res unit) (l : list A) : res unit :=
  match l with
  | [] => Ok tt
  | x :: l => f x;; iterM f l
  end.

(** [[f(x) for x in l]]. *)
Fixpoint traverse {A B} (f : A → res B) (l : list A) : res (list B) :=
  match l with
  | [] => Ok []
  | x :: l => y ← f x; ys ← traverse f l; Ok (y :: ys)
  end.

(** ** The state and error monad

    For code that mutates a shared object of type [St] and may raise. *)

Definition SE (St A : Type) : Type := St → res (A * St).

#[global] Instance SE_ret St : MRet (SE St) := λ A a s, Ok (a, s).
#[global] Instance SE_bind St : MBind (SE St) := λ A B f m s,
  match m s with Ok (a, s') => f a s' | Raise e => Raise e end.

(** A computation that only raises or returns. *)
Definition lift {St A} (m : res A) : SE St A := λ s,
  match m with Ok a => Ok (a, s) | Raise e => Raise e end.
Definition get_state {St} : SE St St := λ s, Ok (s, s).
Definition put_state {St} (s : St) : SE St unit := λ _, Ok (tt, s).

(** [for x in l: f(x)] with local variables of type [S]. *)
Fixpoint foldS {St A S} (f : S → A → SE St S) (s : S) (l : list A) : SE St S :=
  match l with
  | [] => mret s
  | x :: l => s' ← f s x; foldS f s' l
  end.

(** ** Tactics *)

Create HintDb synapse.
Create Rewrite HintDb synapse.

(** Unfold the monad operations in the goal and the hypotheses. *)
Ltac unfold_res :=
  unfold mbind, mret, fmap, res_bind, res_ret, res_fmap in *.

(** ** Lemmas on the error monad *)


Lemma bind_Ok {A B} (m : res A) (f : A → res B) b :
  m ≫= f = Ok b ↔ ∃ a, m = Ok a ∧ f a = Ok b.
Proof. destruct m; unfold_res; naive_solver. Qed.

Lemma bind_Raise {A B} (m : res A) (f : A → res B) e :
  m ≫= f = Raise e ↔ m = Raise e ∨ ∃ a, m = Ok a ∧ f a = Raise e.
Proof. destruct m; unfold_res; naive_solver. Qed.

Lemma bind_ext {A B} (m m' : res A) (f g : A → res B) :
  m = m' → (∀ a, m = Ok a → f a = g a) → m ≫= f = m' ≫= g.
Proof. intros <-. destruct m; unfold_res; auto. Qed.

Lemma raise_if_Ok c e u : raise_if c e = Ok u ↔ c = false.
Proof. destruct c, u; naive_solver. Qed.

Lemma iterM_Ok {A} (f : A → res unit) l u :
  iterM f l = Ok u ↔ ∀ x, x ∈ l → f x = Ok tt.
Proof.
  destruct u. induction l as [|x l IH]; simpl; [set_solver|].
  rewrite bind_Ok. setoid_rewrite elem_of_cons. split.
  - intros ([] & Hx & Hl) y [->|Hy]; [done|]. by apply IH.
  - intros H. exists tt. split; [by apply H; left|]. apply IH. eauto.
Qed.

Lemma iterM_Raise {A} (f : A → res unit) l e :
  iterM f l = Raise e → ∃ x, x ∈ l ∧ f x = Raise e.
Proof.
  induction l as [|x l IH]; simpl; [done|].
  rewrite bind_Raise. intros [H|(? & _ & H)].
  - exists x. split; [left|done].
  - destruct (IH H) as (y & ? & ?). exists y. split; [by right|done].
Qed.

Lemma iterM_ext {A} (f g : A → res unit) l :
  (∀ x, x ∈ l → f x = g x) → iterM f l = iterM g l.
Proof.
  induction l as [|x l IH]; intros H; simpl; [done|].
  rewrite (H x ltac:(left)), IH; [done|]. intros y Hy. apply H. by right.
Qed.

(** An iteration raises the same way whatever the order, up to which of the
    failing elements comes first; whether it succeeds does not depend on it. *)
Lemma iterM_perm_ok {A} (f : A → res unit) l k :
  l ≡ₚ k → is_ok (iterM f l) = is_ok (iterM f k).
Proof.
  intros Hp.
  assert (iterM f l = Ok tt ↔ iterM f k = Ok tt) as Hiff.
  { rewrite !iterM_Ok. by setoid_rewrite Hp. }
  destruct (iterM f l) as [[]|], (iterM f k) as [[]|]; naive_solver.
Qed.

Lemma foldM_app {A S} (f : S → A → res S) s l k :
  foldM f s (l ++ k) = (s' ← foldM f s l; foldM f s' k).
Proof.
  revert s; induction l as [|x l IH]; intros s; simpl; [done|].
  destruct (f s x); unfold_res; [apply IH|done].
Qed.

(** Invariant rule for loops: an invariant that every iteration preserves
    holds at the end. *)
Lemma foldM_ind {A S} (P : S → Prop) (f : S → A → res S) s l s' :
  P s → (∀ s x s', x ∈ l → P s → f s x = Ok s' → P s') →
  foldM f s l = Ok s' → P s'.
Proof.
  revert s. induction l as [|x l IH]; simpl; intros s HP Hstep H; [by simplify_eq|].
  apply bind_Ok in H as (s1 & H1 & H2).
  eapply IH; [|intros; eapply Hstep; [by right|..]; eauto|done].
  eapply Hstep; eauto. by left.
Qed.

(** As [foldM_ind], with the invariant stated of the elements processed. *)
Lemma foldM_ind_prefix {A S} (P : list A → S → Prop) (f : S → A → res S) s l s' :
  P [] s →
  (∀ pre x post s s', l = pre ++ x :: post → P pre s → f s x = Ok s' → P (pre ++ [x]) s') →
  foldM f s l = Ok s' → P l s'.
Proof.
  intros H0 Hstep. cut (∀ post pre s1, l = pre ++ post → P pre s1 →
    foldM f s1 post = Ok s' → P l s').
  { intros Hcut. by apply (Hcut l []). }
  induction post as [|x post IH]; simpl; intros pre s1 -> HP Hf.
  - simplify_eq. by rewrite app_nil_r.
  - apply bind_Ok in Hf as (s2 & H1 & H2).
    apply (IH (pre ++ [x]) s2); [by rewrite <-(assoc_L (++))| |done].
    by eapply Hstep.
Qed.

(** A loop whose body never raises terminates normally. *)
Lemma foldM_total {A S} (P : S → Prop) (f : S → A → res S) s l :
  P s → (∀ s x, x ∈ l → P s → ∃ s', f s x = Ok s' ∧ P s') →
  ∃ s', foldM f s l = Ok s' ∧ P s'.
Proof.
  revert s. induction l as [|x l IH]; simpl; intros s HP Hstep; [eauto|].
  destruct (Hstep s x ltac:(left) HP) as (s1 & -> & HP1). simpl.
  apply IH; [done|]. intros s2 y Hy. apply Hstep. by right.
Qed.

(** The same with the elements processed so far. *)
Lemma foldM_total_prefix {A S} (P : list A → S → Prop) (f : S → A → res S) s l :
  P [] s →
  (∀ pre x post s, l = pre ++ x :: post → P pre s → ∃ s', f s x = Ok s' ∧ P (pre ++ [x]) s') →
  ∃ s', foldM f s l = Ok s' ∧ P l s'.
Proof.
  intros H0 Hstep. cut (∀ post pre s1, l = pre ++ post → P pre s1 →
    ∃ s', foldM f s1 post = Ok s' ∧ P l s').
  { intros Hcut. by apply (Hcut l []). }
  induction post as [|x post IH]; simpl; intros pre s1 -> HP.
  - rewrite app_nil_r. eauto.
  - destruct (Hstep pre x post s1 eq_refl HP) as (s2 & -> & HP2). simpl.
    apply (IH (pre ++ [x])); [by rewrite <-(assoc_L (++))|done].
Qed.

Lemma traverse_Ok {A B} (f : A → res B) l k :
  traverse f l = Ok k ↔ Forall2 (λ x y, f x = Ok y) l k.
Proof.
  revert k; induction l as [|x l IH]; intros k; simpl.
  - split; [intros; simplify_eq; constructor|by inversion_clear 1].
  - rewrite bind_Ok. split.
    + intros (y & Hy & H). apply bind_Ok in H as (ys & Hys & ?).
      simplify_eq. constructor; [done|]. by apply IH.
    + inversion_clear 1 as [|? y ? ys Hy Hys]. exists y. split; [done|].
      apply bind_Ok. exists ys. split; [by apply IH|done].
Qed.

(** ** Lemmas on the state and error monad *)

Lemma SE_bind_Ok {St A B} (m : SE St A) (f : A → SE St B) s r :
  (m ≫= f) s = Ok r ↔ ∃ a s', m s = Ok (a, s') ∧ f a s' = Ok r.
Proof. unfold mbind, SE_bind. destruct (m s) as [[a s']|]; naive_solver. Qed.

Lemma lift_Ok {St A} (m : res A) (s : St) r :
  lift m s = Ok r ↔ ∃ a, m = Ok a ∧ r = (a, s).
Proof. unfold lift. destruct m; naive_solver. Qed.

(** A loop keeps an invariant of the shared state and the local variables. *)
Lemma foldS_ind {St A S} (P : S → St → Prop) (f : S → A → SE St S) s l st r :
  P s st →
  (∀ s st x s' st', x ∈ l → P s st → f s x st = Ok (s', st') → P s' st') →
  foldS f s l st = Ok r → P r.1 r.2.
Proof.
  revert s st. induction l as [|x l IH]; simpl; intros s st HP Hstep H.
  { unfold mret, SE_ret in H. by simplify_eq. }
  apply SE_bind_Ok in H as (s1 & st1 & H1 & H2).
  eapply IH; [|intros; eapply Hstep; [by right|..]; eauto|done].
  eapply Hstep; eauto. by left.
Qed.

Lemma foldS_app {St A S} (f : S → A → SE St S) s l k st :
  foldS f s (l ++ k) st = (s' ← foldS f s l; foldS f s' k) st.
Proof.
  revert s st; induction l as [|x l IH]; intros s st; simpl; [done|].
  unfold mbind, SE_bind in *. destruct (f s x st) as [[s' st']|]; [apply IH|done].
Qed.

(** Walk through a computation known to succeed, step by step. *)
Ltac inv_bind H :=
  repeat (lazymatch type of H with
          | _ ≫= _ = Ok _ =>
              apply bind_Ok in H;
              let a := fresh "a" in let E := fresh "E" in destruct H as (a & E & H)
          end).

Ltac inv_SE H :=
  repeat (lazymatch type of H with
          | (_ ≫= _) _ = Ok _ =>
              apply SE_bind_Ok in H;
              let a := fresh "a" in let s := fresh "s" in let E := fresh "E" in
              destruct H as (a & s & E & H)
          | lift _ _ = Ok _ =>
              apply lift_Ok in H; let a := fresh "a" in let E := fresh "E" in
              destruct H as (a & E & H)
          end).

(** Prove two computations equal by following their common structure. *)
Ltac bind_cong :=
  repeat first
    [ reflexivity
    | solve [auto]
    | apply bind_ext; [|intros]
    | case_match; simplify_eq; try reflexivity ].

(** ** Running out of fuel

    A result that is a value or an exception of the program. *)

Definition real_exn {A} (m : res A) : Prop := m ≠ Raise OutOfFuel.

Create HintDb real.

Lemma real_Ok {A} (a : A) : real_exn (Ok a).
Proof. done. Qed.
Lemma real_bind {A B} (m : res A) (f : A → res B) :
  real_exn m → (∀ a, real_exn (f a)) → real_exn (m ≫= f).
Proof. intros Hm Hf. destruct m; unfold_res; [apply Hf|]. unfold real_exn in *. congruence. Qed.
Lemma real_raise_if c e : e ≠ OutOfFuel → real_exn (raise_if c e).
Proof. destruct c; unfold real_exn; cbn; congruence. Qed.
Lemma real_foldM {A S} (f : S → A → res S) s l :
  (∀ s x, real_exn (f s x)) → real_exn (foldM f s l).
Proof. intros Hf. revert s. induction l; intros s; cbn; [done|]. by apply real_bind. Qed.
Lemma real_iterM {A} (f : A → res unit) l : (∀ x, real_exn (f x)) → real_exn (iterM f l).
Proof. intros Hf. induction l; cbn; [done|]. by apply real_bind. Qed.

Lemma real_catch {A} (m : res A) h :
  real_exn m → (∀ e, e ≠ OutOfFuel → real_exn (h e)) → real_exn (catch m h).
Proof. intros Hm Hh. destruct m as [|e]; cbn; [done|]. apply Hh. by intros ->. Qed.

(** Follow the structure of a computation, using what [real] knows. *)
Ltac real :=
  repeat first
    [ apply real_Ok
    | apply real_bind; [|intros]
    | apply real_raise_if; discriminate
    | apply real_foldM; intros
    | apply real_iterM; intros
    | apply real_catch; [|intros]
    | solve [auto with real]
    | discriminate
    | solve [unfold real_exn in *; congruence]
    | progress cbv zeta
    | case_match ].

(** ** Booleans and propositions *)

Lemma bool_decide_negb P `{Decision P} :
  negb (bool_decide P) = bool_decide (¬ P).
Proof. by rewrite bool_decide_not. Qed.

#[export] Hint Resolve iterM_ext : synapse.
#[export] Hint Rewrite @bind_Ok @bind_Raise @raise_if_Ok @iterM_Ok : synapse.

(** ** Strings *)

Lemma string_app_assoc (a b c : string) : (a ++ (b ++ c))%string = ((a ++ b) ++ c)%string.
Proof. induction a as [|x a IH]; [done|]. apply (f_equal (String x)), IH. Qed.

(** ** Filters of lists *)

Lemma filter_none {A} (P : A → Prop) `{!∀ x, Decision (P x)} (l : list A) : (∀ x, x ∈ l → ¬ P x) → filter P l = [].
Proof.
  induction l as [|x l IH]; intros Hl; [done|].
  rewrite filter_cons_False by (apply Hl; set_solver). apply IH. set_solver.
Qed.

Lemma filter_all {A} (P : A → Prop) `{!∀ x, Decision (P x)} (l : list A) : (∀ x, x ∈ l → P x) → filter P l = l.
Proof.
  induction l as [|x l IH]; intros Hl; [done|].
  rewrite filter_cons_True by (apply Hl; set_solver). f_equal. apply IH. set_solver.
Qed.

Lemma filter_one {A} (P : A → Prop) `{!∀ x, Decision (P x)} (l1 : list A) x l2 :
  P x → (∀ y, y ∈ l1 ++ l2 → ¬ P y) →
  filter P (l1 ++ x :: l2) = [x] ∧ filter (λ y, ¬ P y) (l1 ++ x :: l2) = l1 ++ l2.
Proof.
  intros HP Hn. rewrite !filter_app, filter_cons_True, filter_cons_False by (done || intros Hx; by apply Hx). split.
  - by rewrite !filter_none by (intros y Hy; apply Hn; set_solver).
  - by rewrite !filter_all by (intros y Hy; apply Hn; set_solver).
Qed.

Lemma filter_ext_in {A} (P Q : A → Prop) `{!∀ x, Decision (P x), !∀ x, Decision (Q x)} (l : list A) :
  (∀ x, x ∈ l → P x ↔ Q x) → filter P l = filter Q l.
Proof.
  induction l as [|x l IH]; intros Hl; [done|]. rewrite !filter_cons.
  rewrite IH by (intros y Hy; apply Hl; by right).
  assert (P x ↔ Q x) by (apply Hl; left). by repeat case_decide; tauto.
Qed.

Lemma size_list_to_set_le {A} `{Countable A} (l : list A) : (size (list_to_set l : gset A) ≤ length l)%nat.
Proof.
  induction l as [|x l IH]; cbn [list_to_set length]; [by rewrite size_empty|].
  rewrite size_union_alt, size_singleton.
  pose proof (subseteq_size (list_to_set l ∖ {[x]} : gset A) (list_to_set l) ltac:(set_solver)). lia.
Qed.
