(* ===== verification/PyOrd.v ===== *)
(** * Ordering, sorting and priority queues of Python

    Python compares integers, strings and tuples of them with [<=]; [PyOrd]
    is the interface the sorting code relies on, with the instances the
    modelled code uses. [list.sort(key=...)] is the stable insertion sort by
    key, [heapq] a list from which [heappop] takes the least element. *)

From S2P Require Import Prelude.

Class PyOrd (A : Type) := {
  py_leb : A → A → bool;
  py_leb_total x y : py_leb x y = true ∨ py_leb y x = true;
  py_leb_trans x y z : py_leb x y = true → py_leb y z = true → py_leb x z = true;
  py_leb_antisym x y : py_leb x y = true → py_leb y x = true → x = y
}.

#[global] Hint Mode PyOrd ! : typeclass_instances.

Section facts.
Context `{PyOrd A}.

Lemma py_leb_refl (x : A) : py_leb x x = true.
Proof. by destruct (py_leb_total x x). Qed.

Lemma py_leb_false (x y : A) : py_leb x y = false → py_leb y x = true.
Proof. destruct (py_leb_total x y); congruence. Qed.
End facts.

(** ** Integers, strings, tuples *)

#[export] Program Instance PyOrd_Z : PyOrd Z := {| py_leb := Z.leb |}.
Next Obligation. intros; lia. Qed.
Next Obligation. intros; lia. Qed.
Next Obligation. intros; lia. Qed.

(** Comparison of strings: by code points, which is the order of the bytes of
    their UTF-8 encodings. *)
Fixpoint str_leb (a b : string) : bool :=
  match a, b with
  | EmptyString, _ => true
  | String _ _, EmptyString => false
  | String x a, String y b =>
      let nx := Ascii.N_of_ascii x in
      let ny := Ascii.N_of_ascii y in
      if (nx <? ny)%N then true else if (ny <? nx)%N then false else str_leb a b
  end.

Lemma N_of_ascii_inj x y : Ascii.N_of_ascii x = Ascii.N_of_ascii y → x = y.
Proof. intros E. by rewrite <-(Ascii.ascii_N_embedding x), <-(Ascii.ascii_N_embedding y), E. Qed.

#[export] Program Instance PyOrd_string : PyOrd string := {| py_leb := str_leb |}.
Next Obligation.
  intros x. induction x as [|a x IH]; intros [|b y]; cbn; auto.
  destruct (N.ltb_spec (Ascii.N_of_ascii a) (Ascii.N_of_ascii b)); [auto|].
  destruct (N.ltb_spec (Ascii.N_of_ascii b) (Ascii.N_of_ascii a)); [auto|]. apply IH.
Qed.
Next Obligation.
  intros x. induction x as [|a x IH]; intros [|b y] [|c z]; cbn; try done.
  destruct (N.ltb_spec (Ascii.N_of_ascii a) (Ascii.N_of_ascii b)),
    (N.ltb_spec (Ascii.N_of_ascii b) (Ascii.N_of_ascii c)),
    (N.ltb_spec (Ascii.N_of_ascii a) (Ascii.N_of_ascii c)),
    (N.ltb_spec (Ascii.N_of_ascii b) (Ascii.N_of_ascii a)),
    (N.ltb_spec (Ascii.N_of_ascii c) (Ascii.N_of_ascii b)),
    (N.ltb_spec (Ascii.N_of_ascii c) (Ascii.N_of_ascii a)); try done; try lia; apply IH.
Qed.
Next Obligation.
  intros x. induction x as [|a x IH]; intros [|b y]; cbn; try done.
  destruct (N.ltb_spec (Ascii.N_of_ascii a) (Ascii.N_of_ascii b)),
    (N.ltb_spec (Ascii.N_of_ascii b) (Ascii.N_of_ascii a)); try done; try lia.
  intros H1 H2. f_equal; [apply N_of_ascii_inj; lia|auto].
Qed.

(** Tuples compare lexicographically. *)
#[export] Program Instance PyOrd_prod `{PyOrd A, PyOrd B} : PyOrd (A * B) :=
  {| py_leb p q := py_leb p.1 q.1 && (negb (py_leb q.1 p.1) || py_leb p.2 q.2) |}.
Next Obligation.
  intros A ? B ? [a b] [a' b']; cbn.
  destruct (py_leb a a') eqn:E1, (py_leb a' a) eqn:E2; cbn; auto.
  - apply py_leb_total.
  - apply py_leb_false in E1. congruence.
Qed.
Next Obligation.
  intros A ? B ? [a b] [a' b'] [a'' b'']; cbn.
  rewrite !andb_true_iff, !orb_true_iff, !negb_true_iff. intros [H1 H1'] [H2 H2'].
  split; [by eapply py_leb_trans|].
  destruct (py_leb a'' a) eqn:E; [|by left]. right.
  assert (a = a') as -> by (apply py_leb_antisym; [done|by eapply py_leb_trans]).
  rewrite H1 in H1'. destruct H1' as [?|H1']; [done|].
  rewrite E in H2'. destruct H2' as [?|H2']; [done|]. by eapply py_leb_trans.
Qed.
Next Obligation.
  intros A ? B ? [a b] [a' b']; cbn.
  rewrite !andb_true_iff, !orb_true_iff, !negb_true_iff. intros [H1 H1'] [H2 H2'].
  rewrite H2 in H1'. rewrite H1 in H2'. destruct H1', H2'; try done.
  f_equal; by apply py_leb_antisym.
Qed.

(** ** [list.sort(key=...)] *)

Section sorting.
Context {A K : Type} `{PyOrd K} (key : A → K).

Fixpoint insert_by (x : A) (l : list A) : list A :=
  match l with
  | [] => [x]
  | y :: l => if py_leb (key x) (key y) then x :: y :: l else y :: insert_by x l
  end.

Definition py_sort (l : list A) : list A := foldr insert_by [] l.

(** Ordered by key. *)
Definition key_le (x y : A) : Prop := py_leb (key x) (key y) = true.

Lemma insert_by_perm x l : insert_by x l ≡ₚ x :: l.
Proof.
  induction l as [|y l IH]; cbn; [done|]. case_match; [done|]. rewrite IH. constructor.
Qed.

Lemma py_sort_perm l : py_sort l ≡ₚ l.
Proof. induction l as [|x l IH]; cbn; [done|]. by rewrite insert_by_perm, IH. Qed.

Lemma insert_by_sorted x l : StronglySorted key_le l → StronglySorted key_le (insert_by x l).
Proof.
  induction 1 as [|y l Hl IH Hy]; cbn; [repeat constructor|].
  destruct (py_leb (key x) (key y)) eqn:E.
  - constructor; [by constructor|]. constructor; [done|].
    eapply Forall_impl; [done|]. intros z Hz. unfold key_le in *. by eapply py_leb_trans.
  - constructor; [done|]. rewrite insert_by_perm. constructor; [|done].
    by apply py_leb_false.
Qed.

Lemma py_sort_sorted l : StronglySorted key_le (py_sort l).
Proof. induction l; cbn; [constructor|by apply insert_by_sorted]. Qed.

(** With keys that tell elements apart the sorted list is determined by the
    elements, whatever order they were given in. *)
Lemma sorted_unique l k :
  (∀ x y, x ∈ l → y ∈ l → key x = key y → x = y) →
  StronglySorted key_le l → StronglySorted key_le k → l ≡ₚ k → l = k.
Proof.
  intros Hinj Hl. revert k. induction Hl as [|x l Hl IH Hx]; intros k Hk Hp.
  { by apply Permutation_nil_l in Hp. }
  destruct Hk as [|y k Hk Hy]; [by apply Permutation_nil_r in Hp|].
  rewrite Forall_forall in Hx, Hy.
  assert (x = y) as ->.
  { apply Hinj; [left|rewrite Hp; left|].
    assert (x ∈ y :: k) as Hxk by (rewrite <-Hp; left).
    assert (y ∈ x :: l) as Hyl by (rewrite Hp; left).
    apply elem_of_cons in Hxk as [->|Hxk]; [done|].
    apply elem_of_cons in Hyl as [->|Hyl]; [done|].
    apply py_leb_antisym; [by apply Hx|by apply Hy]. }
  f_equal. apply IH; [|done|by apply Permutation_cons_inv in Hp].
  intros a b Ha Hb. apply Hinj; by right.
Qed.

Lemma py_sort_unique l k :
  (∀ x y, x ∈ l → y ∈ l → key x = key y → x = y) → l ≡ₚ k → py_sort l = py_sort k.
Proof.
  intros Hinj Hp. apply sorted_unique; try apply py_sort_sorted.
  - setoid_rewrite py_sort_perm. done.
  - by rewrite !py_sort_perm.
Qed.
End sorting.

(** Sortedness only depends on the keys of the elements. *)
Lemma sorted_key_ext {A K} `{PyOrd K} (key key' : A → K) (l : list A) :
  (∀ x, x ∈ l → key x = key' x) → StronglySorted (key_le key) l → StronglySorted (key_le key') l.
Proof.
  intros Hk Hl. induction Hl as [|x l Hl IH Hx]; [constructor|].
  constructor; [apply IH; intros; apply Hk; by right|].
  rewrite Forall_forall in Hx |- *. intros y Hy. unfold key_le.
  rewrite <-!Hk by (by constructor || by right). by apply Hx.
Qed.

(** Sorting pairs of a key and an element by key, as [list.sort] does, is
    sorting the elements by key. *)
Lemma py_sort_decorate {A K} `{PyOrd K} (key : A → K) (l : list A) :
  (py_sort (λ p : K * A, p.1) ((λ x, (key x, x)) <$> l)).*2 = py_sort key l.
Proof.
  assert (py_sort (λ p : K * A, p.1) ((λ x, (key x, x)) <$> l) =
          (λ x, (key x, x)) <$> py_sort key l) as ->.
  { induction l as [|x l IH]; [done|]. rewrite fmap_cons. unfold py_sort in *. cbn [foldr].
    rewrite IH. generalize (foldr (insert_by key) [] l). clear. intros l.
    induction l as [|y l IH]; cbn; [done|]. destruct (py_leb (key x) (key y)); cbn; [done|].
    f_equal. apply IH. }
  rewrite <-list_fmap_compose. apply list_fmap_id.
Qed.

(** ** [heapq] *)

Section heap.
Context `{PyOrd A}.

(** The least of [x] and the elements of [l], and the others. *)
Fixpoint extract_min (x : A) (l : list A) : A * list A :=
  match l with
  | [] => (x, [])
  | y :: l =>
      let '(m, rest) := extract_min y l in
      if py_leb x m then (x, m :: rest) else (m, x :: rest)
  end.

(** [heapq.heappop(h)]; [None] when the heap is empty. *)
Definition heappop (h : list A) : option (A * list A) :=
  match h with [] => None | x :: l => Some (extract_min x l) end.

Definition heappush (h : list A) (x : A) : list A := x :: h.

Lemma extract_min_spec x l :
  x :: l ≡ₚ (extract_min x l).1 :: (extract_min x l).2 ∧
  ∀ y, y ∈ x :: l → py_leb (extract_min x l).1 y = true.
Proof.
  revert x. induction l as [|y l IH]; intros x; cbn.
  { split; [done|]. intros y ->%list_elem_of_singleton. apply py_leb_refl. }
  specialize (IH y). destruct (extract_min y l) as [m rest]. cbn in *.
  destruct IH as [Hp Hle]. destruct (py_leb x m) eqn:E; cbn.
  - split; [by rewrite Hp|]. intros z [->|Hz]%elem_of_cons; [apply py_leb_refl|].
    eapply py_leb_trans; eauto.
  - split; [rewrite Hp; constructor|]. intros z [->|Hz]%elem_of_cons; [by apply py_leb_false|].
    eauto.
Qed.

Lemma heappop_Some h m h' :
  heappop h = Some (m, h') → h ≡ₚ m :: h' ∧ ∀ y, y ∈ h → py_leb m y = true.
Proof.
  destruct h as [|x l]; cbn; [done|]. pose proof (extract_min_spec x l) as Hs.
  intros E. injection E as E. rewrite E in Hs. done.
Qed.
End heap.
