(* ===== verification/PyJson.v ===== *)
(** * Python values: strings, JSON, and the operations the sources use on them

    A Python [str] is represented by its UTF-8 encoding, a Rocq [string]. The
    ASCII characters the sources search for (a sigil, [':'], ['.']) never
    occur inside the encoding of another character, so searching and slicing
    at them agree on bytes and on code points. [str_len] counts code points,
    [str_bytes] the bytes of [s.encode("utf-8")].

    A JSON value as [json.loads] builds it is a [json]. A float is an IEEE 754
    datum of [SpecFloat]. An object is the list of its items in insertion
    order. *)

From S2P Require Import Prelude.
From Stdlib Require Import Floats.SpecFloat Ascii.

(** ** Strings *)

Definition is_continuation (c : ascii) : bool :=
  let n := N_of_ascii c in (128 <=? n)%N && (n <? 192)%N.

(** [len(s)], in code points. *)
Fixpoint str_len (s : string) : nat :=
  match s with
  | EmptyString => 0
  | String c s => if is_continuation c then str_len s else S (str_len s)
  end.

(** [len(s.encode("utf-8"))]. *)
Definition str_bytes (s : string) : nat := String.length s.

(** [s.find(c)] for a one-character ASCII [c]: the index of its first
    occurrence, [None] standing for [-1]. *)
Fixpoint str_find (c : ascii) (s : string) : option nat :=
  match s with
  | EmptyString => None
  | String d s => if Ascii.eqb c d then Some 0%nat else S <$> str_find c s
  end.

(** [s[n:]] *)
Fixpoint str_drop (n : nat) (s : string) : string :=
  match n, s with
  | O, _ => s
  | S n, String _ s => str_drop n s
  | S _, EmptyString => EmptyString
  end.

Arguments str_drop !n !s.

(** [s[:n]] *)
Fixpoint str_take (n : nat) (s : string) : string :=
  match n, s with
  | S n, String c s => String c (str_take n s)
  | _, _ => EmptyString
  end.

Arguments str_take !n !s.

(** [s.startswith(p)] *)
Fixpoint str_startswith (p s : string) : bool :=
  match p, s with
  | EmptyString, _ => true
  | String a p, String b s => Ascii.eqb a b && str_startswith p s
  | String _ _, EmptyString => false
  end.

(** [p in s] for strings. *)
Fixpoint str_contains (p s : string) : bool :=
  str_startswith p s ||
  match s with EmptyString => false | String _ s => str_contains p s end.

(** [c.isspace()] on ASCII. *)
Definition is_space (c : ascii) : bool :=
  let n := N_of_ascii c in
  ((9 <=? n)%N && (n <=? 13)%N) || ((28 <=? n)%N && (n <=? 32)%N).

Definition digit_value (c : ascii) : option Z :=
  let n := Z.of_N (N_of_ascii c) in
  if (48 <=? n) && (n <=? 57) then Some (n - 48) else None.

Fixpoint str_lstrip (s : string) : string :=
  match s with
  | String c s' => if is_space c then str_lstrip s' else s
  | EmptyString => EmptyString
  end.

(** Characters of a string, as the list [list(s)] before they are turned back
    into strings. *)
Fixpoint str_chars (s : string) : list ascii :=
  match s with
  | EmptyString => []
  | String c s => c :: str_chars s
  end.

Fixpoint str_of_chars (l : list ascii) : string :=
  match l with
  | [] => EmptyString
  | c :: l => String c (str_of_chars l)
  end.

Definition str_rev (s : string) : string := str_of_chars (reverse (str_chars s)).

(** [s.strip()] *)
Definition str_strip (s : string) : string := str_rev (str_lstrip (str_rev (str_lstrip s))).

(** Digits of a base-10 literal with single underscores between digits.
    [acc] is the value read so far, [after_digit] whether the previous
    character was a digit. *)
Fixpoint parse_digits (acc : Z) (after_digit : bool) (s : string) : option Z :=
  match s with
  | EmptyString => if after_digit then Some acc else None
  | String c s =>
      match digit_value c with
      | Some d => parse_digits (10 * acc + d) true s
      | None =>
          if Ascii.eqb c "_" && after_digit
          then match s with
               | String c' _ => if digit_value c' is Some _ then parse_digits acc false s else None
               | EmptyString => None
               end
          else None
      end
  end.

(** [int(s)] of a string: surrounding white space, an optional sign, digits. *)
Definition py_int_of_str (s : string) : res Z :=
  let s := str_strip s in
  let r := match s with
           | String "+" t => parse_digits 0 false t
           | String "-" t => Z.opp <$> parse_digits 0 false t
           | _ => parse_digits 0 false s
           end in
  match r with Some z => Ok z | None => Raise ValueError end.

(** ** JSON values *)

#[warnings="-register-all"]
Inductive json :=
  | JNull
  | JBool (b : bool)
  | JInt (z : Z)
  | JFloat (f : spec_float)
  | JStr (s : string)
  | JList (l : list json)
  | JObj (kvs : list (string * json)).

(** A JSON object: the dict's items. *)
Abbreviation jobj := (list (string * json)).

(** [d.get(k)], [None] when the key is absent. *)
Fixpoint obj_get (k : string) (d : jobj) : option json :=
  match d with
  | [] => None
  | (k', v) :: d => if String.eqb k k' then Some v else obj_get k d
  end.

(** [k in d] *)
Definition obj_in (k : string) (d : jobj) : bool :=
  match obj_get k d with Some _ => true | None => false end.

(** [d[k]] *)
Definition obj_getitem (k : string) (d : jobj) : res json :=
  match obj_get k d with Some v => Ok v | None => Raise KeyError end.

(** [d.get(k, default)] *)
Definition obj_get_default (k : string) (default : json) (d : jobj) : json :=
  match obj_get k d with Some v => v | None => default end.

(** [v.get(k)] where [v] is any value: only dicts have the method. *)
Definition py_get (k : string) (v : json) : res (option json) :=
  match v with
  | JObj d => Ok (obj_get k d)
  | _ => Raise (AttributeError "get")
  end.

(** [v is None], for the result of a [.get]. *)
Definition is_none (v : option json) : bool :=
  match v with None | Some JNull => true | _ => false end.

(** [v == s] for a string [s]. *)
Definition py_eq_str (v : json) (s : string) : bool :=
  match v with JStr s' => String.eqb s' s | _ => false end.

(** Value of a finite float as an integer, truncated towards zero. *)
Definition float_trunc (f : spec_float) : option Z :=
  match f with
  | S754_zero _ => Some 0
  | S754_finite s m e =>
      let a := if 0 <=? e then Z.pos m * 2 ^ e else Z.pos m / 2 ^ (- e) in
      Some (if s then - a else a)
  | S754_infinity _ | S754_nan => None
  end.

(** [int(v)] *)
Definition py_int (v : json) : res Z :=
  match v with
  | JInt z => Ok z
  | JBool b => Ok (if b then 1 else 0)
  | JStr s => py_int_of_str s
  | JFloat f =>
      match float_trunc f with
      | Some z => Ok z
      | None => match f with S754_nan => Raise ValueError | _ => Raise OverflowError end
      end
  | JNull | JList _ | JObj _ => Raise TypeError
  end.

(** [type(v) is int]: excludes booleans. *)
Definition is_int (v : json) : bool := match v with JInt _ => true | _ => false end.

(** [f == z] for a float and an integer. *)
Definition float_eq_Z (f : spec_float) (z : Z) : bool :=
  match f with
  | S754_zero _ => z =? 0
  | S754_finite s m e =>
      let v := if s then Z.neg m else Z.pos m in
      if 0 <=? e then v * 2 ^ e =? z else v =? z * 2 ^ (- e)
  | _ => false
  end.

(** Integer value of the numbers that are not floats. *)
Definition num_value (v : json) : option Z :=
  match v with JInt z => Some z | JBool b => Some (if b then 1 else 0) | _ => None end.

(** [a == b] where [a] is hashable (not a list, not a dict). *)
Definition py_eq_scalar (a b : json) : bool :=
  match a, b with
  | JNull, JNull => true
  | JStr s, JStr t => String.eqb s t
  | JFloat f, JFloat g => SFeqb f g
  | JFloat f, _ => match num_value b with Some z => float_eq_Z f z | None => false end
  | _, JFloat g => match num_value a with Some z => float_eq_Z g z | None => false end
  | _, _ =>
      match num_value a, num_value b with
      | Some x, Some y => x =? y
      | _, _ => false
      end
  end.

Definition is_hashable (v : json) : bool :=
  match v with JList _ | JObj _ => false | _ => true end.

(** [list(v)]: keys of a dict, elements of a list, characters of a string. *)
Definition py_list (v : json) : res (list json) :=
  match v with
  | JObj d => Ok ((λ kv, JStr kv.1) <$> d)
  | JList l => Ok l
  | JStr s => Ok ((λ c, JStr (String c EmptyString)) <$> str_chars s)
  | _ => Raise TypeError
  end.

(** Keep the first of equal elements. *)
Fixpoint dedup_scalars (l : list json) : list json :=
  match l with
  | [] => []
  | v :: l => v :: List.filter (λ w, negb (py_eq_scalar v w)) (dedup_scalars l)
  end.

(** [set(l)], as the list of its elements: unhashable elements are refused. *)
Definition py_set (l : list json) : res (list json) :=
  if forallb is_hashable l then Ok (dedup_scalars l) else Raise TypeError.

(** [k in loc] for a hashable [k]. *)
Definition py_in (k loc : json) : res bool :=
  match loc with
  | JObj d => Ok (match k with JStr s => obj_in s d | _ => false end)
  | JList l => Ok (existsb (py_eq_scalar k) l)
  | JStr s => match k with JStr p => Ok (str_contains p s) | _ => Raise TypeError end
  | _ => Raise TypeError
  end.

(** [l[i]] with Python's negative indices. *)
Definition list_index {A} (l : list A) (i : Z) : res A :=
  let i := if i <? 0 then i + Z.of_nat (length l) else i in
  if i <? 0 then Raise IndexError
  else match l !! Z.to_nat i with Some x => Ok x | None => Raise IndexError end.

(** [loc[k]] for a hashable [k]. *)
Definition py_getitem (k loc : json) : res json :=
  match loc with
  | JObj d => match k with JStr s => obj_getitem s d | _ => Raise KeyError end
  | JList l => match num_value k with Some i => list_index l i | None => Raise TypeError end
  | JStr s =>
      match num_value k with
      | Some i => c ← list_index (str_chars s) i; Ok (JStr (String c EmptyString))
      | None => Raise TypeError
      end
  | _ => Raise TypeError
  end.

(** [v.items()] *)
Definition py_items (v : json) : res jobj :=
  match v with JObj d => Ok d | _ => Raise (AttributeError "items") end.

(** ** Lemmas on strings *)

Lemma str_len_le_bytes s : (str_len s ≤ str_bytes s)%nat.
Proof.
  unfold str_bytes. induction s as [|c s IH]; simpl; [done|].
  destruct (is_continuation c); lia.
Qed.

Lemma str_find_spec c s n :
  str_find c s = Some n →
  s = String.append (str_take n s) (String c (str_drop (S n) s)) ∧ str_find c (str_take n s) = None.
Proof.
  revert n; induction s as [|d s IH]; intros n H; [done|].
  cbn [str_find] in H. destruct (Ascii.eqb_spec c d) as [->|Hne].
  - simplify_eq. done.
  - destruct (str_find c s) as [m|] eqn:E; simplify_eq/=.
    destruct (IH m eq_refl) as [H1 H2]. split.
    + exact (f_equal (String d) H1).
    + rewrite H2. by destruct (Ascii.eqb_spec c d).
Qed.

Lemma append_nil_l t : String.append EmptyString t = t.
Proof. done. Qed.

Lemma append_cons d s t : String.append (String d s) t = String d (String.append s t).
Proof. done. Qed.

Lemma str_find_append c s t :
  str_find c s = None → str_find c (String.append s (String c t)) = Some (String.length s).
Proof.
  induction s as [|d s IH].
  - intros _. rewrite append_nil_l. cbn. by rewrite Ascii.eqb_refl.
  - rewrite append_cons. cbn. destruct (Ascii.eqb_spec c d); [done|].
    destruct (str_find c s); [done|]. by rewrite IH.
Qed.

Lemma str_drop_append s c t :
  str_drop (S (String.length s)) (String.append s (String c t)) = t.
Proof. induction s as [|d s IH]; [done|]. exact IH. Qed.

Lemma str_take_append s t : str_take (String.length s) (String.append s t) = s.
Proof.
  induction s as [|d s IH]; [by destruct t|]. exact (f_equal (String d) IH).
Qed.

(** ** Lemmas on JSON objects *)

Lemma obj_get_elem k v d : obj_get k d = Some v → (k, v) ∈ d.
Proof.
  induction d as [|[k' v'] d IH]; cbn; [done|].
  destruct (String.eqb_spec k k') as [->|]; intros; simplify_eq; [by left|].
  right. auto.
Qed.

Lemma obj_get_None k d : obj_get k d = None ↔ k ∉ d.*1.
Proof.
  induction d as [|[k' v'] d IH]; cbn; [set_solver|].
  destruct (String.eqb_spec k k') as [->|]; set_solver.
Qed.

Lemma obj_get_elem_nodup k v d :
  NoDup d.*1 → (k, v) ∈ d → obj_get k d = Some v.
Proof.
  induction d as [|[k' v'] d IH]; cbn; [set_solver|].
  rewrite NoDup_cons. intros [Hk Hd] Hin.
  destruct (String.eqb_spec k k') as [->|].
  - apply elem_of_cons in Hin as [?|Hin]; [by simplify_eq|].
    destruct Hk. by apply (list_elem_of_fmap_2 fst _ (k', v)).
  - apply elem_of_cons in Hin as [?|Hin]; [by simplify_eq|]. auto.
Qed.

Lemma py_eq_str_true v s : py_eq_str v s = true ↔ v = JStr s.
Proof.
  destruct v; cbn; try naive_solver. rewrite String.eqb_eq. naive_solver.
Qed.

Lemma py_eq_scalar_str s v : py_eq_scalar (JStr s) v = py_eq_str v s.
Proof. destruct v; cbn; try done. apply String.eqb_sym. Qed.

Lemma py_eq_scalar_str_r v s : py_eq_scalar v (JStr s) = py_eq_str v s.
Proof. by destruct v. Qed.

Lemma dedup_scalars_subset l v : v ∈ dedup_scalars l → v ∈ l.
Proof.
  induction l as [|w l IH]; cbn; [done|].
  rewrite !elem_of_cons. intros [->|H]; [by left|right].
  apply IH. apply list_elem_of_In in H. apply filter_In in H as [H _].
  by apply list_elem_of_In.
Qed.

(** A string in the list survives deduplication: only an equal string can
    stand in for it. *)
Lemma dedup_scalars_str l s : JStr s ∈ dedup_scalars l ↔ JStr s ∈ l.
Proof.
  split; [apply dedup_scalars_subset|].
  induction l as [|w l IH]; cbn; [done|].
  rewrite !elem_of_cons. intros [->|H]; [by left|].
  destruct (py_eq_str w s) eqn:E.
  - apply py_eq_str_true in E as ->. by left.
  - right. apply list_elem_of_In, filter_In. split; [by apply list_elem_of_In, IH|].
    by rewrite py_eq_scalar_str_r, E.
Qed.

Lemma py_set_Ok_str l k s : py_set l = Ok k → JStr s ∈ k ↔ JStr s ∈ l.
Proof.
  unfold py_set. destruct (forallb _ _); intros; simplify_eq. apply dedup_scalars_str.
Qed.
