(* ===== verification/PyStr.v ===== *)
(** * Printing, splitting and joining strings

    [str(n)] and ["%d" % n] of an integer, [s.split(c)] and [c.join(l)], with
    what connects them: an integer reads back from its text, and the parts of
    a joined string split apart again when none of them has the separator.
    As in [PyJson], [int] reads ASCII digits. *)

From S2P Require Import Prelude PyJson.
From Stdlib Require Import Ascii.

(** ** [str(n)] *)

Definition digit_char (d : Z) : ascii := ascii_of_N (Z.to_N (48 + d)).

(** The decimal digits of [n] before [acc]. *)
Fixpoint digits_before (fuel : nat) (n : Z) (acc : string) : string :=
  match fuel with
  | O => acc
  | S fuel =>
      let acc := String (digit_char (n mod 10)) acc in
      if n <? 10 then acc else digits_before fuel (n / 10) acc
  end.

(** A number has at most as many decimal digits as binary ones. *)
Definition nat_digits (n : Z) : string := digits_before (S (Z.to_nat (Z.log2 n))) n "".

Definition py_str_int (n : Z) : string :=
  if n <? 0 then String "-" (nat_digits (- n)) else nat_digits n.

(** ** [s.split(c)], [s.split(c, 1)], [c.join(l)] *)

Fixpoint str_split (c : ascii) (s : string) : list string :=
  match s with
  | EmptyString => [""]
  | String d s' =>
      if Ascii.eqb c d then "" :: str_split c s'
      else match str_split c s' with
           | [] => [String d ""]
           | p :: ps => String d p :: ps
           end
  end.

(** The parts around the first separator, if there is one. *)
Fixpoint str_split1 (c : ascii) (s : string) : option (string * string) :=
  match s with
  | EmptyString => None
  | String d s' =>
      if Ascii.eqb c d then Some ("", s')
      else prod_map (String d) id <$> str_split1 c s'
  end.

Fixpoint str_join (c : ascii) (l : list string) : string :=
  match l with
  | [] => ""
  | [s] => s
  | s :: l => String.append s (String c (str_join c l))
  end.

(** ** Characters *)

(** No character of [s] satisfies [f]. *)
Definition none_of (f : ascii → bool) (s : string) : Prop := Forall (λ c, f c = false) (str_chars s).

Lemma str_chars_append a b : str_chars (String.append a b) = str_chars a ++ str_chars b.
Proof. induction a as [|c a IH]; cbn; [done|]. by rewrite append_cons, <-IH. Qed.

Lemma str_chars_of l : str_chars (str_of_chars l) = l.
Proof. induction l; cbn; congruence. Qed.

Lemma str_of_chars_of s : str_of_chars (str_chars s) = s.
Proof. induction s; cbn; congruence. Qed.

Lemma none_of_append f a b : none_of f (String.append a b) ↔ none_of f a ∧ none_of f b.
Proof. unfold none_of. by rewrite str_chars_append, Forall_app. Qed.

Lemma none_of_cons f c s : none_of f (String c s) ↔ f c = false ∧ none_of f s.
Proof. unfold none_of. cbn. by rewrite Forall_cons. Qed.

Lemma none_of_nil f : none_of f "".
Proof. constructor. Qed.

Lemma lstrip_none s : none_of is_space s → str_lstrip s = s.
Proof. destruct s as [|c s]; [done|]. rewrite none_of_cons. cbn. by intros [-> _]. Qed.

Lemma strip_none s : none_of is_space s → str_strip s = s.
Proof.
  intros H. unfold str_strip. rewrite (lstrip_none s H). rewrite lstrip_none.
  - unfold str_rev. by rewrite str_chars_of, reverse_involutive, str_of_chars_of.
  - unfold none_of, str_rev. rewrite str_chars_of. by apply Forall_reverse.
Qed.

(** ** Integers read back *)

Lemma digit_value_char d : 0 ≤ d < 10 → digit_value (digit_char d) = Some d.
Proof.
  intros Hd. assert (d ∈ [0; 1; 2; 3; 4; 5; 6; 7; 8; 9]) as Hin.
  { rewrite !elem_of_cons. lia. }
  clear Hd. revert d Hin. apply Forall_forall. repeat constructor.
Qed.

Lemma parse_digits_before fuel n acc b :
  0 ≤ n < 10 ^ Z.of_nat fuel → (0 < fuel)%nat →
  parse_digits 0 b (digits_before fuel n acc) = parse_digits n true acc.
Proof.
  revert n acc. induction fuel as [|fuel IH]; intros n acc Hn Hf; [lia|]. cbn [digits_before].
  pose proof (Z.mod_pos_bound n 10). pose proof (Z.div_mod n 10).
  destruct (Z.ltb_spec n 10).
  - cbn [parse_digits]. rewrite digit_value_char by lia. f_equal. rewrite Z.mod_small; lia.
  - rewrite Nat2Z.inj_succ, Z.pow_succ_r in Hn by lia.
    assert (0 < fuel)%nat by (destruct fuel; [cbn in Hn; lia|lia]).
    rewrite IH; [|split; [apply Z.div_pos; lia|apply Z.div_lt_upper_bound; lia]|done].
    cbn [parse_digits]. rewrite digit_value_char by lia. f_equal. lia.
Qed.

Lemma nat_digits_fuel n : 0 ≤ n → n < 10 ^ Z.of_nat (S (Z.to_nat (Z.log2 n))).
Proof.
  intros Hn. rewrite Nat2Z.inj_succ, Z2Nat.id by apply Z.log2_nonneg.
  destruct (decide (n = 0)) as [->|]; [done|].
  pose proof (Z.log2_spec n). pose proof (Z.log2_nonneg n).
  assert (2 ^ Z.succ (Z.log2 n) ≤ 10 ^ Z.succ (Z.log2 n)) by (apply Z.pow_le_mono_l; lia). lia.
Qed.

Lemma parse_nat_digits n : 0 ≤ n → parse_digits 0 false (nat_digits n) = Some n.
Proof.
  intros Hn. unfold nat_digits. rewrite parse_digits_before; [done| |lia].
  split; [done|]. by apply nat_digits_fuel.
Qed.

(** The characters of the text of a natural number. *)
Lemma digits_before_all (f : ascii → bool) fuel n acc :
  (∀ d, 0 ≤ d < 10 → f (digit_char d) = false) → none_of f acc →
  none_of f (digits_before fuel n acc).
Proof.
  intros Hf. revert n acc. induction fuel as [|fuel IH]; intros n acc Hacc; cbn [digits_before]; [done|].
  pose proof (Z.mod_pos_bound n 10).
  destruct (n <? 10); [|apply IH]; apply none_of_cons; (split; [apply Hf; lia|done]).
Qed.

Lemma digit_char_forall (P : ascii → bool) :
  forallb (λ d, P (digit_char d)) [0; 1; 2; 3; 4; 5; 6; 7; 8; 9] = true →
  ∀ d, 0 ≤ d < 10 → P (digit_char d) = true.
Proof.
  rewrite forallb_forall. intros H d Hd. apply H. cbn. lia.
Qed.

Lemma py_str_int_none (f : ascii → bool) n :
  f "-"%char = false → forallb (λ d, negb (f (digit_char d))) [0; 1; 2; 3; 4; 5; 6; 7; 8; 9] = true →
  none_of f (py_str_int n).
Proof.
  intros Hm Hd. assert (∀ n, none_of f (nat_digits n)) as Hn.
  { intros k. apply digits_before_all; [|apply none_of_nil]. intros d Hd'.
    apply negb_true_iff. by apply (digit_char_forall (λ c, negb (f c)) Hd). }
  unfold py_str_int. destruct (n <? 0); [|done]. by apply none_of_cons.
Qed.

Lemma nat_digits_none (f : ascii → bool) n :
  forallb (λ d, negb (f (digit_char d))) [0; 1; 2; 3; 4; 5; 6; 7; 8; 9] = true →
  none_of f (nat_digits n).
Proof.
  intros Hd. apply digits_before_all; [|apply none_of_nil]. intros d Hd'.
  apply negb_true_iff. by apply (digit_char_forall (λ c, negb (f c)) Hd).
Qed.

(** [int(str(n)) = n] *)
Lemma int_of_str_int n : py_int_of_str (py_str_int n) = Ok n.
Proof.
  unfold py_int_of_str. rewrite strip_none by (by apply py_str_int_none).
  unfold py_str_int. destruct (Z.ltb_spec n 0).
  - rewrite parse_nat_digits by lia. cbn. f_equal. lia.
  - pose proof (parse_nat_digits n ltac:(lia)) as Hp.
    pose proof (nat_digits_none (λ c, Ascii.eqb c "+" || Ascii.eqb c "-") n eq_refl) as Hc.
    destruct (nat_digits n) as [|c s]; [done|]. apply none_of_cons in Hc as [Hc _].
    assert (c ≠ "+"%char ∧ c ≠ "-"%char) as [H1 H2].
    { split; intros ->; done. }
    by destruct c as [[] [] [] [] [] [] [] []]; rewrite ?Hp.
Qed.

(** ** Splitting *)

Lemma str_split_none c s : none_of (Ascii.eqb c) s → str_split c s = [s].
Proof.
  induction s as [|d s IH]; cbn; [done|]. rewrite none_of_cons. intros [-> Hs]. by rewrite IH.
Qed.

Lemma str_split_append c s t :
  none_of (Ascii.eqb c) s → str_split c (String.append s (String c t)) = s :: str_split c t.
Proof.
  induction s as [|d s IH]; intros Hs.
  - rewrite append_nil_l. cbn. by rewrite Ascii.eqb_refl.
  - apply none_of_cons in Hs as [Hd Hs]. rewrite append_cons. cbn. by rewrite Hd, IH.
Qed.

Lemma str_split_join c l :
  l ≠ [] → Forall (none_of (Ascii.eqb c)) l → str_split c (str_join c l) = l.
Proof.
  intros Hne Hl. induction Hl as [|s l Hs Hl IH]; [done|]. destruct l as [|s' l].
  - by apply str_split_none.
  - cbn [str_join]. rewrite str_split_append by done. f_equal. by apply IH.
Qed.

Lemma str_split1_append c s t :
  none_of (Ascii.eqb c) s → str_split1 c (String.append s (String c t)) = Some (s, t).
Proof.
  induction s as [|d s IH]; intros Hs.
  - rewrite append_nil_l. cbn. by rewrite Ascii.eqb_refl.
  - apply none_of_cons in Hs as [Hd Hs]. rewrite append_cons. cbn. by rewrite Hd, IH.
Qed.
