(* ===== verification/PyDict.v ===== *)
(** * Updating JSON objects

    Assignment, deletion and [update] on a Python dict, whose items keep the
    order of insertion. *)

From S2P Require Import Prelude PyJson.

(** [d[k] = v]: in place when the key is there, at the end otherwise. *)
Fixpoint dict_set (k : string) (v : json) (d : jobj) : jobj :=
  match d with
  | [] => [(k, v)]
  | (k', v') :: d => if String.eqb k k' then (k, v) :: d else (k', v') :: dict_set k v d
  end.

(** [d.pop(k, None)], [del d[k]] *)
Definition dict_pop (k : string) (d : jobj) : jobj := filter (λ kv, kv.1 ≠ k) d.

(** [d.update(e)] *)
Definition dict_update (d e : jobj) : jobj := foldl (λ d kv, dict_set kv.1 kv.2 d) d e.

(** [d.setdefault(k, v)]: the dict afterwards. *)
Definition dict_setdefault (k : string) (v : json) (d : jobj) : jobj :=
  if obj_in k d then d else dict_set k v d.

(** [isinstance(v, collections.abc.Mapping)] *)
Definition is_mapping (v : json) : bool := match v with JObj _ => true | _ => false end.

(** [bool(v)] *)
Definition truthy (v : json) : bool :=
  match v with
  | JNull => false
  | JBool b => b
  | JInt z => negb (z =? 0)
  | JFloat f => negb (float_eq_Z f 0)
  | JStr s => negb (String.eqb s "")
  | JList l => match l with [] => false | _ => true end
  | JObj d => match d with [] => false | _ => true end
  end.

(** ** Lemmas *)

Lemma obj_get_set k v d k' :
  obj_get k' (dict_set k v d) = if String.eqb k' k then Some v else obj_get k' d.
Proof.
  induction d as [|[k0 v0] d IH]; cbn; [done|].
  destruct (String.eqb_spec k k0) as [->|Hk]; cbn; [by destruct (String.eqb_spec k' k0)|].
  rewrite IH. destruct (String.eqb_spec k' k0) as [->|]; [|done].
  by destruct (String.eqb_spec k0 k) as [->|].
Qed.

Lemma obj_get_set_eq k v d : obj_get k (dict_set k v d) = Some v.
Proof. by rewrite obj_get_set, String.eqb_refl. Qed.

Lemma obj_get_set_ne k v d k' : k' ≠ k → obj_get k' (dict_set k v d) = obj_get k' d.
Proof. intros Hk. rewrite obj_get_set. by apply String.eqb_neq in Hk as ->. Qed.

Lemma obj_get_filter (P : string → Prop) `{∀ k, Decision (P k), ∀ kv : string * json, Decision (P kv.1)} d k :
  obj_get k (filter (λ kv, P kv.1) d) = if decide (P k) then obj_get k d else None.
Proof.
  induction d as [|[k0 v0] d IH]; [by case_decide|]. cbn [obj_get].
  destruct (decide (P k0)) as [Hp|Hp].
  - rewrite filter_cons_True by done. cbn [obj_get]. rewrite IH.
    destruct (String.eqb_spec k k0) as [->|]; [by rewrite decide_True|done].
  - rewrite filter_cons_False by done. rewrite IH.
    destruct (String.eqb_spec k k0) as [->|]; [by rewrite !decide_False|done].
Qed.

Lemma obj_get_pop k d k' : obj_get k' (dict_pop k d) = if String.eqb k' k then None else obj_get k' d.
Proof.
  unfold dict_pop. rewrite (obj_get_filter (λ x, x ≠ k)).
  destruct (String.eqb_spec k' k) as [->|]; case_decide; naive_solver.
Qed.

Lemma dict_set_fresh k v d : obj_get k d = None → dict_set k v d = d ++ [(k, v)].
Proof.
  induction d as [|[k0 v0] d IH]; cbn; [done|]. destruct (String.eqb k k0); [done|].
  intros Hd. by rewrite IH.
Qed.

Lemma dict_set_same k v d : obj_get k d = Some v → dict_set k v d = d.
Proof.
  induction d as [|[k0 v0] d IH]; cbn; [done|].
  destruct (String.eqb_spec k k0) as [->|]; [by intros [= ->]|]. intros Hd. by rewrite IH.
Qed.

Lemma dict_set_set k v w d : dict_set k v (dict_set k w d) = dict_set k v d.
Proof.
  induction d as [|[k0 v0] d IH]; cbn; [by rewrite String.eqb_refl|].
  destruct (String.eqb k k0) eqn:E; cbn; [by rewrite String.eqb_refl|]. by rewrite E, IH.
Qed.

Lemma dict_set_keys k v d k' : k' ∈ (dict_set k v d).*1 ↔ k' = k ∨ k' ∈ d.*1.
Proof.
  induction d as [|[k0 v0] d IH]; cbn; [set_solver|].
  destruct (String.eqb_spec k k0) as [->|]; cbn; rewrite !elem_of_cons, ?IH; naive_solver.
Qed.

Lemma dict_set_nodup k v d : NoDup d.*1 → NoDup (dict_set k v d).*1.
Proof.
  induction d as [|[k0 v0] d IH]; cbn; [intros _; apply NoDup_singleton|].
  rewrite NoDup_cons. intros [Hk Hd]. destruct (String.eqb_spec k k0) as [->|]; cbn.
  - by apply NoDup_cons.
  - apply NoDup_cons. split; [|auto]. rewrite dict_set_keys. naive_solver.
Qed.

Lemma dict_pop_set k v d : dict_pop k (dict_set k v d) = dict_pop k d.
Proof.
  unfold dict_pop. induction d as [|[k0 v0] d IH]; cbn [dict_set].
  - by rewrite filter_cons_False by (cbn; naive_solver).
  - destruct (String.eqb_spec k k0) as [->|]; [by rewrite !filter_cons_False by (cbn; naive_solver)|].
    rewrite !filter_cons_True by (cbn; naive_solver). by rewrite IH.
Qed.

Lemma dict_pop_absent k d : obj_get k d = None → dict_pop k d = d.
Proof.
  rewrite obj_get_None. intros Hk. unfold dict_pop. induction d as [|kv d IH]; [done|].
  rewrite fmap_cons, not_elem_of_cons in Hk. destruct Hk as [Hk Hd].
  rewrite filter_cons_True by (cbn in *; congruence). by rewrite IH.
Qed.

Lemma filter_set_false (P : string → Prop) `{∀ kv : string * json, Decision (P kv.1)} k v d :
  ¬ P k → filter (λ kv, P kv.1) (dict_set k v d) = filter (λ kv, P kv.1) d.
Proof.
  intros Hk. induction d as [|[k0 v0] d IH]; cbn [dict_set].
  - by rewrite filter_cons_False.
  - destruct (String.eqb_spec k k0) as [->|]; [by rewrite !filter_cons_False|].
    destruct (decide (P (k0, v0).1)); [rewrite !filter_cons_True|rewrite !filter_cons_False]; by rewrite ?IH.
Qed.

Lemma filter_set_true (P : string → Prop) `{∀ kv : string * json, Decision (P kv.1)} k v d :
  P k → filter (λ kv, P kv.1) (dict_set k v d) = dict_set k v (filter (λ kv, P kv.1) d).
Proof.
  intros Hk. induction d as [|[k0 v0] d IH]; cbn [dict_set].
  - by rewrite filter_cons_True.
  - destruct (String.eqb_spec k k0) as [->|Hne].
    + rewrite !filter_cons_True by done. cbn [dict_set]. by rewrite String.eqb_refl.
    + destruct (decide (P (k0, v0).1)); [rewrite !filter_cons_True by done|by rewrite !filter_cons_False].
      cbn [dict_set]. apply String.eqb_neq in Hne as ->. by rewrite IH.
Qed.

Lemma filter_again (P : string * json → Prop) `{∀ kv, Decision (P kv)} (d : jobj) :
  filter P (filter P d) = filter P d.
Proof. rewrite list_filter_filter. apply list_filter_iff. naive_solver. Qed.
