(* ===== verification/RoomVersions.v ===== *)
(** * Constants and room versions

    The string constants of [synapse/api/constants.py] that the modelled code
    compares against, and [synapse/api/room_versions.py]: the feature flags of
    each room version and the versions the server knows. *)

From S2P Require Import Prelude.

(** ** [synapse/api/constants.py] *)

Module Membership.
Definition INVITE := "invite".
Definition JOIN := "join".
Definition KNOCK := "knock".
Definition LEAVE := "leave".
Definition BAN := "ban".
End Membership.

Module JoinRules.
Definition PUBLIC := "public".
Definition KNOCK := "knock".
Definition INVITE := "invite".
Definition PRIVATE := "private".
Definition RESTRICTED := "restricted".
Definition KNOCK_RESTRICTED := "knock_restricted".
End JoinRules.

Module EventTypes.
Definition Member := "m.room.member".
Definition Create := "m.room.create".
Definition JoinRules := "m.room.join_rules".
Definition PowerLevels := "m.room.power_levels".
Definition Aliases := "m.room.aliases".
Definition Redaction := "m.room.redaction".
Definition ThirdPartyInvite := "m.room.third_party_invite".
Definition RoomHistoryVisibility := "m.room.history_visibility".
Definition Dummy := "org.matrix.dummy_event".
End EventTypes.

Module HistoryVisibility.
Definition INVITED := "invited".
Definition JOINED := "joined".
Definition SHARED := "shared".
Definition WORLD_READABLE := "world_readable".
End HistoryVisibility.

Module EventContentFields.
Definition FEDERATE := "m.federate".
Definition ROOM_CREATOR := "creator".
Definition AUTHORISING_USER := "join_authorised_via_users_server".
End EventContentFields.

(** [synapse/api/errors.py], class [Codes]. *)
Module Codes.
Definition UNAUTHORIZED := "M_UNAUTHORIZED".
Definition FORBIDDEN := "M_FORBIDDEN".
Definition UNKNOWN := "M_UNKNOWN".
Definition BAD_JSON := "M_BAD_JSON".
Definition INVALID_PARAM := "M_INVALID_PARAM".
Definition NOT_JOINED := "ORG.MATRIX.MSC3848.NOT_JOINED".
Definition ALREADY_JOINED := "ORG.MATRIX.MSC3848.ALREADY_JOINED".
Definition INSUFFICIENT_POWER := "ORG.MATRIX.MSC3848.INSUFFICIENT_POWER".
End Codes.

Definition MAX_PDU_SIZE : nat := Z.to_nat 65536.

(** ** [synapse/api/room_versions.py] *)

(** The values of [EventFormatVersions], under their Python names. *)
Inductive EventFormatVersions := ROOM_V1_V2 | ROOM_V3 | ROOM_V4_PLUS.

(** The values of [StateResolutionVersions]. *)
Inductive StateResolutionVersions := StateResV1 | StateResV2.

Inductive RoomDisposition := STABLE | UNSTABLE.

Module PushRuleRoomFlag.
Definition EXTENSIBLE_EVENTS := "org.matrix.msc3932.extensible_events".
End PushRuleRoomFlag.

#[global] Instance EventFormatVersions_eq_dec : EqDecision EventFormatVersions.
Proof. solve_decision. Defined.
#[global] Instance StateResolutionVersions_eq_dec : EqDecision StateResolutionVersions.
Proof. solve_decision. Defined.
#[global] Instance RoomDisposition_eq_dec : EqDecision RoomDisposition.
Proof. solve_decision. Defined.

Record RoomVersion := {
  identifier : string;
  disposition : RoomDisposition;
  event_format : EventFormatVersions;
  state_res : StateResolutionVersions;
  enforce_key_validity : bool;
  special_case_aliases_auth : bool;
  strict_canonicaljson : bool;
  limit_notifications_power_levels : bool;
  implicit_room_creator : bool;
  updated_redaction_rules : bool;
  restricted_join_rule : bool;
  restricted_join_rule_fix : bool;
  knock_join_rule : bool;
  msc3389_relation_redactions : bool;
  knock_restricted_join_rule : bool;
  enforce_int_power_levels : bool;
  msc3931_push_features : list string;
  msc3757_enabled : bool
}.

#[global] Instance RoomVersion_eq_dec : EqDecision RoomVersion.
Proof. solve_decision. Defined.

Module RoomVersions.
Definition V1 : RoomVersion := {|
  identifier := "1";
  disposition := STABLE;
  event_format := ROOM_V1_V2;
  state_res := StateResV1;
  enforce_key_validity := false;
  special_case_aliases_auth := true;
  strict_canonicaljson := false;
  limit_notifications_power_levels := false;
  implicit_room_creator := false;
  updated_redaction_rules := false;
  restricted_join_rule := false;
  restricted_join_rule_fix := false;
  knock_join_rule := false;
  msc3389_relation_redactions := false;
  knock_restricted_join_rule := false;
  enforce_int_power_levels := false;
  msc3931_push_features := [];
  msc3757_enabled := false
|}.

Definition V2 : RoomVersion := {|
  identifier := "2";
  disposition := STABLE;
  event_format := ROOM_V1_V2;
  state_res := StateResV2;
  enforce_key_validity := false;
  special_case_aliases_auth := true;
  strict_canonicaljson := false;
  limit_notifications_power_levels := false;
  implicit_room_creator := false;
  updated_redaction_rules := false;
  restricted_join_rule := false;
  restricted_join_rule_fix := false;
  knock_join_rule := false;
  msc3389_relation_redactions := false;
  knock_restricted_join_rule := false;
  enforce_int_power_levels := false;
  msc3931_push_features := [];
  msc3757_enabled := false
|}.

Definition V3 : RoomVersion := {|
  identifier := "3";
  disposition := STABLE;
  event_format := ROOM_V3;
  state_res := StateResV2;
  enforce_key_validity := false;
  special_case_aliases_auth := true;
  strict_canonicaljson := false;
  limit_notifications_power_levels := false;
  implicit_room_creator := false;
  updated_redaction_rules := false;
  restricted_join_rule := false;
  restricted_join_rule_fix := false;
  knock_join_rule := false;
  msc3389_relation_redactions := false;
  knock_restricted_join_rule := false;
  enforce_int_power_levels := false;
  msc3931_push_features := [];
  msc3757_enabled := false
|}.

Definition V4 : RoomVersion := {|
  identifier := "4";
  disposition := STABLE;
  event_format := ROOM_V4_PLUS;
  state_res := StateResV2;
  enforce_key_validity := false;
  special_case_aliases_auth := true;
  strict_canonicaljson := false;
  limit_notifications_power_levels := false;
  implicit_room_creator := false;
  updated_redaction_rules := false;
  restricted_join_rule := false;
  restricted_join_rule_fix := false;
  knock_join_rule := false;
  msc3389_relation_redactions := false;
  knock_restricted_join_rule := false;
  enforce_int_power_levels := false;
  msc3931_push_features := [];
  msc3757_enabled := false
|}.

Definition V5 : RoomVersion := {|
  identifier := "5";
  disposition := STABLE;
  event_format := ROOM_V4_PLUS;
  state_res := StateResV2;
  enforce_key_validity := true;
  special_case_aliases_auth := true;
  strict_canonicaljson := false;
  limit_notifications_power_levels := false;
  implicit_room_creator := false;
  updated_redaction_rules := false;
  restricted_join_rule := false;
  restricted_join_rule_fix := false;
  knock_join_rule := false;
  msc3389_relation_redactions := false;
  knock_restricted_join_rule := false;
  enforce_int_power_levels := false;
  msc3931_push_features := [];
  msc3757_enabled := false
|}.

Definition V6 : RoomVersion := {|
  identifier := "6";
  disposition := STABLE;
  event_format := ROOM_V4_PLUS;
  state_res := StateResV2;
  enforce_key_validity := true;
  special_case_aliases_auth := false;
  strict_canonicaljson := true;
  limit_notifications_power_levels := true;
  implicit_room_creator := false;
  updated_redaction_rules := false;
  restricted_join_rule := false;
  restricted_join_rule_fix := false;
  knock_join_rule := false;
  msc3389_relation_redactions := false;
  knock_restricted_join_rule := false;
  enforce_int_power_levels := false;
  msc3931_push_features := [];
  msc3757_enabled := false
|}.

Definition V7 : RoomVersion := {|
  identifier := "7";
  disposition := STABLE;
  event_format := ROOM_V4_PLUS;
  state_res := StateResV2;
  enforce_key_validity := true;
  special_case_aliases_auth := false;
  strict_canonicaljson := true;
  limit_notifications_power_levels := true;
  implicit_room_creator := false;
  updated_redaction_rules := false;
  restricted_join_rule := false;
  restricted_join_rule_fix := false;
  knock_join_rule := true;
  msc3389_relation_redactions := false;
  knock_restricted_join_rule := false;
  enforce_int_power_levels := false;
  msc3931_push_features := [];
  msc3757_enabled := false
|}.

Definition V8 : RoomVersion := {|
  identifier := "8";
  disposition := STABLE;
  event_format := ROOM_V4_PLUS;
  state_res := StateResV2;
  enforce_key_validity := true;
  special_case_aliases_auth := false;
  strict_canonicaljson := true;
  limit_notifications_power_levels := true;
  implicit_room_creator := false;
  updated_redaction_rules := false;
  restricted_join_rule := true;
  restricted_join_rule_fix := false;
  knock_join_rule := true;
  msc3389_relation_redactions := false;
  knock_restricted_join_rule := false;
  enforce_int_power_levels := false;
  msc3931_push_features := [];
  msc3757_enabled := false
|}.

Definition V9 : RoomVersion := {|
  identifier := "9";
  disposition := STABLE;
  event_format := ROOM_V4_PLUS;
  state_res := StateResV2;
  enforce_key_validity := true;
  special_case_aliases_auth := false;
  strict_canonicaljson := true;
  limit_notifications_power_levels := true;
  implicit_room_creator := false;
  updated_redaction_rules := false;
  restricted_join_rule := true;
  restricted_join_rule_fix := true;
  knock_join_rule := true;
  msc3389_relation_redactions := false;
  knock_restricted_join_rule := false;
  enforce_int_power_levels := false;
  msc3931_push_features := [];
  msc3757_enabled := false
|}.

Definition V10 : RoomVersion := {|
  identifier := "10";
  disposition := STABLE;
  event_format := ROOM_V4_PLUS;
  state_res := StateResV2;
  enforce_key_validity := true;
  special_case_aliases_auth := false;
  strict_canonicaljson := true;
  limit_notifications_power_levels := true;
  implicit_room_creator := false;
  updated_redaction_rules := false;
  restricted_join_rule := true;
  restricted_join_rule_fix := true;
  knock_join_rule := true;
  msc3389_relation_redactions := false;
  knock_restricted_join_rule := true;
  enforce_int_power_levels := true;
  msc3931_push_features := [];
  msc3757_enabled := false
|}.

Definition MSC1767v10 : RoomVersion := {|
  identifier := "org.matrix.msc1767.10";
  disposition := UNSTABLE;
  event_format := ROOM_V4_PLUS;
  state_res := StateResV2;
  enforce_key_validity := true;
  special_case_aliases_auth := false;
  strict_canonicaljson := true;
  limit_notifications_power_levels := true;
  implicit_room_creator := false;
  updated_redaction_rules := false;
  restricted_join_rule := true;
  restricted_join_rule_fix := true;
  knock_join_rule := true;
  msc3389_relation_redactions := false;
  knock_restricted_join_rule := true;
  enforce_int_power_levels := true;
  msc3931_push_features := [PushRuleRoomFlag.EXTENSIBLE_EVENTS];
  msc3757_enabled := false
|}.

Definition MSC3757v10 : RoomVersion := {|
  identifier := "org.matrix.msc3757.10";
  disposition := UNSTABLE;
  event_format := ROOM_V4_PLUS;
  state_res := StateResV2;
  enforce_key_validity := true;
  special_case_aliases_auth := false;
  strict_canonicaljson := true;
  limit_notifications_power_levels := true;
  implicit_room_creator := false;
  updated_redaction_rules := false;
  restricted_join_rule := true;
  restricted_join_rule_fix := true;
  knock_join_rule := true;
  msc3389_relation_redactions := false;
  knock_restricted_join_rule := true;
  enforce_int_power_levels := true;
  msc3931_push_features := [];
  msc3757_enabled := true
|}.

Definition V11 : RoomVersion := {|
  identifier := "11";
  disposition := STABLE;
  event_format := ROOM_V4_PLUS;
  state_res := StateResV2;
  enforce_key_validity := true;
  special_case_aliases_auth := false;
  strict_canonicaljson := true;
  limit_notifications_power_levels := true;
  implicit_room_creator := true;
  updated_redaction_rules := true;
  restricted_join_rule := true;
  restricted_join_rule_fix := true;
  knock_join_rule := true;
  msc3389_relation_redactions := false;
  knock_restricted_join_rule := true;
  enforce_int_power_levels := true;
  msc3931_push_features := [];
  msc3757_enabled := false
|}.

Definition MSC3757v11 : RoomVersion := {|
  identifier := "org.matrix.msc3757.11";
  disposition := UNSTABLE;
  event_format := ROOM_V4_PLUS;
  state_res := StateResV2;
  enforce_key_validity := true;
  special_case_aliases_auth := false;
  strict_canonicaljson := true;
  limit_notifications_power_levels := true;
  implicit_room_creator := true;
  updated_redaction_rules := true;
  restricted_join_rule := true;
  restricted_join_rule_fix := true;
  knock_join_rule := true;
  msc3389_relation_redactions := false;
  knock_restricted_join_rule := true;
  enforce_int_power_levels := true;
  msc3931_push_features := [];
  msc3757_enabled := true
|}.

End RoomVersions.

(** [KNOWN_ROOM_VERSIONS], as the list the dict comprehension runs over. *)
Definition KNOWN_ROOM_VERSIONS_list : list RoomVersion :=
  [RoomVersions.V1; RoomVersions.V2; RoomVersions.V3; RoomVersions.V4;
   RoomVersions.V5; RoomVersions.V6; RoomVersions.V7; RoomVersions.V8;
   RoomVersions.V9; RoomVersions.V10; RoomVersions.V11;
   RoomVersions.MSC3757v10; RoomVersions.MSC3757v11].

(** [{v.identifier: v for v in (...)}] *)
Definition KNOWN_ROOM_VERSIONS : gmap string RoomVersion :=
  list_to_map ((λ v, (identifier v, v)) <$> reverse KNOWN_ROOM_VERSIONS_list).

(** ** Well-formed room versions

    The relations between flags that the auth rules rely on without testing
    them. *)

Record room_version_wf (v : RoomVersion) : Prop := {
  wf_knock_restricted :
    knock_restricted_join_rule v = true → restricted_join_rule v = true;
  wf_knock : knock_restricted_join_rule v = true → knock_join_rule v = true;
  wf_fix : restricted_join_rule_fix v = true → restricted_join_rule v = true;
  wf_v1_format : state_res v = StateResV1 → event_format v = ROOM_V1_V2
}.

Lemma known_room_version_elem k v :
  KNOWN_ROOM_VERSIONS !! k = Some v → v ∈ KNOWN_ROOM_VERSIONS_list ∧ identifier v = k.
Proof.
  intros H. apply elem_of_list_to_map_2 in H.
  apply list_elem_of_fmap in H as (w & ? & Hw). simplify_eq.
  split; [|done]. by apply elem_of_reverse.
Qed.

Lemma room_version_wf_of_list v : v ∈ KNOWN_ROOM_VERSIONS_list → room_version_wf v.
Proof.
  unfold KNOWN_ROOM_VERSIONS_list. rewrite !elem_of_cons, elem_of_nil.
  intros H. repeat destruct H as [->|H]; [..|done]; by split.
Qed.
