(* ===== verification/Identifiers.v ===== *)
(** * Matrix identifiers

    The identifier functions of [synapse/types/__init__.py] (domain and
    localpart of an id, [DomainSpecificString] and its subclasses, the mapping
    of arbitrary user names to localparts) and the server-name parsing of
    [synapse/util/stringutils.py] that their validation calls. *)

From S2P Require Import Prelude PyJson RoomVersions.
From Stdlib Require Import Ascii.

(** [netaddr.valid_ipv6], called by [parse_and_validate_server_name]. *)
Class Netaddr := valid_ipv6 : string → bool.

(** ** [get_domain_from_id], [get_localpart_from_id] *)

Definition get_domain_from_id (s : string) : res string :=
  match str_find ":" s with
  | None => Raise (SynapseError 400 "Invalid ID: %r" Codes.UNKNOWN)
  | Some idx => Ok (str_drop (S idx) s)
  end.

(** [s[1:]], by code points: the first byte and its continuation bytes. *)
Fixpoint drop_continuation (s : string) : string :=
  match s with
  | String c s' => if is_continuation c then drop_continuation s' else s
  | EmptyString => EmptyString
  end.

Definition str_tail (s : string) : string :=
  match s with String _ s => drop_continuation s | EmptyString => EmptyString end.

Definition get_localpart_from_id (s : string) : res string :=
  match str_find ":" s with
  | None => Raise (SynapseError 400 "Invalid ID: %r" Codes.UNKNOWN)
  | Some idx => Ok (str_tail (str_take idx s))
  end.

(** ** Server names ([synapse/util/stringutils.py]) *)

Definition str_last (s : string) : option ascii := last (str_chars s).

(** [s.rsplit(":", 1)]: the part before the last colon and the part after it,
    if there is a colon. *)
Definition rsplit_colon (s : string) : string * option string :=
  match str_find ":" (str_rev s) with
  | None => (s, None)
  | Some idx => (str_rev (str_drop (S idx) (str_rev s)), Some (str_rev (str_take idx (str_rev s))))
  end.

Definition parse_server_name (server_name : string) : res (string * option Z) :=
  match str_last server_name with
  | Some "]"%char => Ok (server_name, None)
  | _ =>
      let '(domain, rest) := rsplit_colon server_name in
      match rest with
      | None => Ok (domain, None)
      | Some p =>
          match py_int_of_str p with
          | Ok port => Ok (domain, Some port)
          | Raise _ => Raise ValueError
          end
      end
  end.

Definition is_host_char (c : ascii) : bool :=
  let n := N_of_ascii c in
  ((48 <=? n) && (n <=? 57) || (65 <=? n) && (n <=? 90) ||
   (97 <=? n) && (n <=? 122) || (n =? 45))%N.

(** [VALID_HOST_REGEX]: non-empty labels of host characters separated by
    dots. [seen] tells whether the current label has a character yet. *)
Fixpoint valid_host_from (seen : bool) (s : string) : bool :=
  match s with
  | EmptyString => seen
  | String c s =>
      if is_host_char c then valid_host_from true s
      else if Ascii.eqb c "." then seen && valid_host_from false s
      else false
  end.

Definition VALID_HOST_REGEX_match (s : string) : bool := valid_host_from false s.

Section ServerName.
Context `{Netaddr}.

Definition parse_and_validate_server_name (server_name : string) : res (string * option Z) :=
  '(host, port) ← parse_server_name server_name;
  match host with
  | String "[" rest =>
      match str_last host with
      | Some "]"%char =>
          (* host[1:-1] *)
          let ipv6_address := str_take (String.length rest - 1) rest in
          raise_if (String.eqb ipv6_address "" || negb (valid_ipv6 ipv6_address)) ValueError;;
          Ok (host, port)
      | _ => Raise ValueError
      end
  | _ =>
      raise_if (negb (VALID_HOST_REGEX_match host)) ValueError;;
      Ok (host, port)
  end.

End ServerName.

(** ** [DomainSpecificString] *)

Record DomainSpecificString := { localpart : string; domain : string }.

(** The [SIGIL] of each subclass. *)
Definition UserID_SIGIL : ascii := "@".
Definition RoomAlias_SIGIL : ascii := "#".
Definition RoomID_SIGIL : ascii := "!".
Definition EventID_SIGIL : ascii := "$".

Definition from_string (sigil : ascii) (s : string) : res DomainSpecificString :=
  match s with
  | String c rest =>
      if Ascii.eqb c sigil then
        match str_find ":" rest with
        | Some i => Ok {| localpart := str_take i rest; domain := str_drop (S i) rest |}
        | None =>
            Raise (SynapseError 400 "Expected %s of the form '%slocalname:domain'"
                     Codes.INVALID_PARAM)
        end
      else Raise (SynapseError 400 "Expected %s string to start with '%s'" Codes.INVALID_PARAM)
  | EmptyString =>
      Raise (SynapseError 400 "Expected %s string to start with '%s'" Codes.INVALID_PARAM)
  end.

Definition to_string (sigil : ascii) (x : DomainSpecificString) : string :=
  String sigil (String.append (localpart x) (String ":" (domain x))).

Definition is_valid `{Netaddr} (sigil : ascii) (s : string) : bool :=
  is_ok (obj ← from_string sigil s; parse_and_validate_server_name (domain obj)).

(** ** User names to localparts *)

Definition is_lower (c : ascii) : bool :=
  let n := N_of_ascii c in ((97 <=? n) && (n <=? 122))%N.
Definition is_upper (c : ascii) : bool :=
  let n := N_of_ascii c in ((65 <=? n) && (n <=? 90))%N.
Definition is_digit (c : ascii) : bool :=
  let n := N_of_ascii c in ((48 <=? n) && (n <=? 57))%N.

(** [bytes.lower] of one byte. *)
Definition lower_char (c : ascii) : ascii :=
  if is_upper c then ascii_of_N (N_of_ascii c + 32) else c.

(** Membership in [MXID_LOCALPART_ALLOWED_CHARACTERS]. *)
Definition mxid_allowed (c : ascii) : bool :=
  is_lower c || is_digit c ||
  match c with "_" | "-" | "." | "/" | "=" | "+" => true | _ => false end%char.

Definition contains_invalid_mxid_characters (localpart : string) : bool :=
  existsb (λ c, negb (mxid_allowed c)) (str_chars localpart).

Definition hex_digit (n : N) : ascii :=
  if (n <? 10)%N then ascii_of_N (48 + n) else ascii_of_N (87 + n).

(** [b"=%02x" % (b,)] *)
Definition hex_escape (c : ascii) : list ascii :=
  let n := N_of_ascii c in ["="%char; hex_digit (n / 16); hex_digit (n mod 16)].

(** [UPPER_CASE_PATTERN.sub(f1, username)] *)
Definition mark_upper (c : ascii) : list ascii :=
  if is_upper c || Ascii.eqb c "_" then ["_"%char; lower_char c] else [c].

(** [NON_MXID_CHARACTER_PATTERN.sub(f2, username)]: ['='] is escaped too. *)
Definition escape_non_mxid (c : ascii) : list ascii :=
  if mxid_allowed c && negb (Ascii.eqb c "=") then [c] else hex_escape c.

Definition map_username_to_mxid_localpart (username : string) (case_sensitive : bool) : string :=
  let u := str_chars username in
  let u := if case_sensitive then u ≫= mark_upper else lower_char <$> u in
  let u := u ≫= escape_non_mxid in
  (* re.sub(b"^_", b"=5f", username) *)
  let u := match u with "_"%char :: t => ["="; "5"; "f"]%char ++ t | _ => u end in
  str_of_chars u.

(** ** Lemmas *)

Lemma str_of_chars_chars s : str_of_chars (str_chars s) = s.
Proof. induction s as [|c s IH]; cbn; congruence. Qed.

Lemma str_chars_of_chars l : str_chars (str_of_chars l) = l.
Proof. induction l as [|c l IH]; cbn; congruence. Qed.

#[export] Hint Rewrite str_of_chars_chars str_chars_of_chars : synapse.

(** Inverse of the two byte-level substitutions; only used in proofs. *)
Definition hex_value (c : ascii) : N :=
  if is_digit c then (N_of_ascii c - 48)%N else (N_of_ascii c - 87)%N.

Fixpoint unescape (l : list ascii) : list ascii :=
  match l with
  | "="%char :: x :: y :: t => ascii_of_N (16 * hex_value x + hex_value y) :: unescape t
  | c :: t => c :: unescape t
  | [] => []
  end.

Definition upper_char (c : ascii) : ascii :=
  if is_lower c then ascii_of_N (N_of_ascii c - 32) else c.

Fixpoint unmark (l : list ascii) : list ascii :=
  match l with
  | "_"%char :: c :: t => upper_char c :: unmark t
  | c :: t => c :: unmark t
  | [] => []
  end.

(** Decide a statement on bytes by running through all of them. *)
Ltac all_bytes c := destruct c as [[] [] [] [] [] [] [] []]; try reflexivity.

Lemma unescape_escape c t : unescape (escape_non_mxid c ++ t) = c :: unescape t.
Proof. all_bytes c. Qed.

Lemma unmark_mark c t : unmark (mark_upper c ++ t) = c :: unmark t.
Proof. all_bytes c. Qed.

Lemma unescape_bind l : unescape (l ≫= escape_non_mxid) = l.
Proof.
  induction l as [|c l IH]; [done|]. rewrite bind_cons, unescape_escape. by f_equal.
Qed.

Lemma unmark_bind l : unmark (l ≫= mark_upper) = l.
Proof. induction l as [|c l IH]; [done|]. rewrite bind_cons, unmark_mark. by f_equal. Qed.

(** The final substitution of a leading underscore is also undone by
    [unescape]. *)
Definition escape_leading (l : list ascii) : list ascii :=
  match l with "_"%char :: t => ["="; "5"; "f"]%char ++ t | _ => l end.

Lemma unescape_leading l : unescape (escape_leading l) = unescape l.
Proof. destruct l as [|c t]; [done|]. all_bytes c. Qed.

Lemma escape_non_mxid_allowed c : Forall (λ d, mxid_allowed d = true) (escape_non_mxid c).
Proof. all_bytes c; repeat constructor. Qed.

Lemma escape_leading_allowed l :
  Forall (λ d, mxid_allowed d = true) l → Forall (λ d, mxid_allowed d = true) (escape_leading l).
Proof.
  destruct l as [|c t]; [done|]. intros [Hc Ht]%Forall_cons.
  all_bytes c; cbn in *; try discriminate Hc; repeat constructor; done.
Qed.

(** Parsing the string of an identifier whose localpart has no colon gives it back, and
    any string that parses is the string of what it parses to. *)
Theorem from_string_to_string_roundtrip sigil :
  (∀ x, str_find ":" (localpart x) = None → from_string sigil (to_string sigil x) = Ok x) ∧
  (∀ s x, from_string sigil s = Ok x → to_string sigil x = s).
Proof.
  split.
  - intros [l d] Hl. unfold to_string, from_string; cbn in *.
    rewrite Ascii.eqb_refl, (str_find_append ":" l d Hl).
    by rewrite str_take_append, str_drop_append.
  - intros [|c rest] x; cbn; [done|].
    destruct (Ascii.eqb_spec c sigil) as [->|]; [|done].
    destruct (str_find ":" rest) as [i|] eqn:E; [|done].
    intros; simplify_eq. unfold to_string; cbn. f_equal.
    symmetry. by apply str_find_spec.
Qed.

(** map_username_to_mxid_localpart gives only characters allowed in a user id, and with
    case_sensitive maps different user names to different localparts. *)
Theorem map_username_valid_and_injective :
  (∀ u b, contains_invalid_mxid_characters (map_username_to_mxid_localpart u b) = false) ∧
  (∀ u v, map_username_to_mxid_localpart u true = map_username_to_mxid_localpart v true → u = v).
Proof.
  split.
  - intros u b. unfold contains_invalid_mxid_characters, map_username_to_mxid_localpart.
    rewrite str_chars_of_chars. set (l := if b then _ else _).
    fold (escape_leading (l ≫= escape_non_mxid)).
    apply not_true_is_false. intros (c & Hin & Hc)%existsb_exists.
    assert (Forall (λ d, mxid_allowed d = true) (escape_leading (l ≫= escape_non_mxid))) as Hall.
    { apply escape_leading_allowed, Forall_bind, Forall_true.
      intros; apply escape_non_mxid_allowed. }
    rewrite Forall_forall in Hall.
    rewrite (Hall c) in Hc; [done|]. by apply list_elem_of_In.
  - intros u v H. unfold map_username_to_mxid_localpart in H.
    apply (f_equal str_chars) in H. rewrite !str_chars_of_chars in H.
    apply (f_equal unescape) in H.
    fold (escape_leading ((str_chars u ≫= mark_upper) ≫= escape_non_mxid)) in H.
    fold (escape_leading ((str_chars v ≫= mark_upper) ≫= escape_non_mxid)) in H.
    rewrite !unescape_leading, !unescape_bind in H.
    apply (f_equal unmark) in H. rewrite !unmark_bind in H.
    rewrite <-(str_of_chars_chars u), <-(str_of_chars_chars v). congruence.
Qed.
