(* ===== verification/Event.v ===== *)
(** * Events

    [EventBase] of [synapse/events/__init__.py], as the record of the
    attributes the modelled code reads. An attribute that is a [DictProperty]
    and may be absent from the event's dict ([room_id], [state_key]) is
    optional, and its accessor raises [AttributeError] as the descriptor does.
    [type], [sender], [content], [prev_events], [auth_events], [depth] and
    [origin_server_ts] are present with the types the class declares. The
    concrete classes differ in how [event_id] and the two id lists are stored;
    the record has their values. [ev_pdu_json] is the value of
    [event.get_pdu_json()], which only the size check reads. *)

From S2P Require Import Prelude PyJson RoomVersions.

Record EventBase := mkEvent {
  event_id : string;
  ev_type : string;
  sender : string;
  ev_room_id : option string;
  ev_state_key : option string;
  content : jobj;
  depth : Z;
  origin_server_ts : Z;
  prev_event_ids : list string;
  auth_event_ids : list string;
  signatures : gmap string (list (string * string));
  ev_redacts : option json;
  room_version : RoomVersion;
  rejected_reason : option string;
  ev_pdu_json : json
}.

(** [DictProperty.__get__] *)
Definition dict_property {A} (name : string) (v : option A) : res A :=
  match v with Some a => Ok a | None => Raise (AttributeError name) end.

Definition room_id (e : EventBase) : res string := dict_property "room_id" (ev_room_id e).
Definition state_key (e : EventBase) : res string := dict_property "state_key" (ev_state_key e).

(** [user_id] is an alias of [sender]. *)
Definition user_id (e : EventBase) : string := sender e.

Definition get_state_key (e : EventBase) : option string := ev_state_key e.

Definition is_state (e : EventBase) : bool :=
  match get_state_key e with Some _ => true | None => false end.

(** [event.membership] *)
Definition membership (e : EventBase) : res json := obj_getitem "membership" (content e).

(** [event.redacts]: MSC2176 moved the field into the content. *)
Definition redacts (e : EventBase) : option json :=
  if updated_redaction_rules (room_version e) then obj_get "redacts" (content e)
  else ev_redacts e.

Definition format_version (e : EventBase) : EventFormatVersions := event_format (room_version e).

(** [StateMap[T]]: a dict keyed by type and state key. *)
Abbreviation StateKey := (string * string)%type.
Abbreviation StateMap :=
  (@gmap StateKey (@prod_eq_dec _ String.eq_dec _ String.eq_dec)
     (@prod_countable _ _ String.countable _ _ String.countable)).

(** Sets of state keys. *)
Abbreviation StateKeys :=
  (@gset StateKey (@prod_eq_dec _ String.eq_dec _ String.eq_dec)
     (@prod_countable _ _ String.countable _ _ String.countable)).

(** [m.get((typ, v))] where [v] is any JSON value: dicts and lists are not
    hashable, other non-strings are keys no state map has. *)
Definition state_map_get_json {A} (m : StateMap A) (typ : string) (v : json) : res (option A) :=
  match v with
  | JStr s => Ok (m !! (typ, s))
  | JList _ | JObj _ => Raise TypeError
  | _ => Ok None
  end.

(** [caller and caller.membership == m] *)
Definition membership_is (e : option EventBase) (m : string) : res bool :=
  match e with
  | None => Ok false
  | Some e => v ← membership e; Ok (py_eq_str v m)
  end.
