(* ===== verification/EventAuth.v ===== *)
(** * Event authorisation: [synapse/event_auth.py]

    The checks every event goes through, function by function. A check that
    raises in Python is a computation in [res]; evaluation order, and with it
    which exception wins, is the source's.

    Two deliberate representations:
    - [check_redaction] also sets [event.internal_metadata.recheck_redaction];
      it returns its result together with whether it set that flag, and
      [check_state_dependent_auth_rules] returns whether the flag was set;
    - the sets a [for] loop runs over are lists; the order does not decide
      acceptance (see [EventAuthProps]). *)

From S2P Require Import Prelude PyJson RoomVersions Identifiers Event.
From Stdlib Require Import Ascii.

(** ** Code outside the repository *)

(** [canonicaljson], [signedjson] and [unpaddedbase64]. *)
Class SignedJson := {
  VerifyKey : Type;
  encode_canonical_json : json → string;
  decode_base64 : json → res string;
  decode_verify_key_bytes : string → string → res VerifyKey;
  verify_signed_json : jobj → string → VerifyKey → res unit
}.

(** [AuthError(403, msg)] and [UnstableSpecAuthError(403, msg, errcode)]. *)
Definition auth403 (msg : string) : exn := AuthError 403 msg Codes.FORBIDDEN.
Definition unstable403 (msg errcode : string) : exn := AuthError 403 msg errcode.

(** ** Power levels *)

Definition get_power_level_event (auth_events : StateMap EventBase) : option EventBase :=
  auth_events !! (EventTypes.PowerLevels, "").

Definition get_user_power_level (user_id : string) (auth_events : StateMap EventBase) : res Z :=
  match get_power_level_event auth_events with
  | Some power_level_event =>
      let c := content power_level_event in
      level ← py_get user_id (obj_get_default "users" (JObj []) c);
      let level := if is_none level then Some (obj_get_default "users_default" (JInt 0) c)
                   else level in
      if is_none level then Ok 0
      else match level with Some v => py_int v | None => Ok 0 end
  | None =>
      match auth_events !! (EventTypes.Create, "") with
      | Some create_event =>
          creator ← (if implicit_room_creator (room_version create_event)
                     then Ok (JStr (sender create_event))
                     else obj_getitem EventContentFields.ROOM_CREATOR (content create_event));
          if py_eq_str creator user_id then Ok 100 else Ok 0
      | None => Ok 0
      end
  end.

Definition get_named_level (auth_events : StateMap EventBase) (name : string) (default : Z) : res Z :=
  match get_power_level_event auth_events with
  | None => Ok default
  | Some power_level_event =>
      match obj_get name (content power_level_event) with
      | None | Some JNull => Ok default
      | Some level => py_int level
      end
  end.

Definition get_send_level (etype : string) (state_key : option string)
    (power_levels_event : option EventBase) : res Z :=
  let c := match power_levels_event with Some e => content e | None => [] end in
  send_level ← py_get etype (obj_get_default "events" (JObj []) c);
  if is_none send_level then
    py_int (match state_key with
            | Some _ => obj_get_default "state_default" (JInt 50) c
            | None => obj_get_default "events_default" (JInt 0) c
            end)
  else match send_level with Some v => py_int v | None => Ok 0 end.

(** ** Membership of the sender *)

Definition _check_joined_room (member : option EventBase) (user_id : json) (room_id : string) :
    res unit :=
  joined ← membership_is member Membership.JOIN;
  raise_if (negb joined) (auth403 "User %s not in room %s (%s)").

Definition _check_event_sender_in_room (event : EventBase) (auth_events : StateMap EventBase) :
    res unit :=
  let member_event := auth_events !! (EventTypes.Member, user_id event) in
  rid ← room_id event;
  _check_joined_room member_event (JStr (user_id event)) rid.

Definition _can_federate (auth_events : StateMap EventBase) : bool :=
  match auth_events !! (EventTypes.Create, "") with
  | None => false
  | Some creation_event =>
      match obj_get_default EventContentFields.FEDERATE (JBool true) (content creation_event) with
      | JBool true => true
      | _ => false
      end
  end.

(** ** [_can_send_event] *)

(** The owner named by a state key under MSC3757: the user id before the
    first underscore that follows the domain's colon. *)
Definition state_key_owner (sk : string) : res string :=
  match str_find ":" (str_drop 1 sk) with
  | None => Raise ValueError
  | Some i =>
      let colon_idx := S i in
      match str_find "_" (str_drop (S colon_idx) sk) with
      | Some j => Ok (str_take (S colon_idx + j) sk)
      | None => Ok sk
      end
  end.

Definition _can_send_event `{Netaddr} (event : EventBase) (auth_events : StateMap EventBase) :
    res bool :=
  let state_key := get_state_key event in
  let power_levels_event := get_power_level_event auth_events in
  send_level ← get_send_level (ev_type event) state_key power_levels_event;
  user_level ← get_user_power_level (user_id event) auth_events;
  raise_if (user_level <? send_level)
    (unstable403 "You don't have permission to post that to the room. user_level (%d) < send_level (%d)"
       Codes.INSUFFICIENT_POWER);;
  match state_key with
  | Some sk =>
      if str_startswith "@" sk && negb (String.eqb sk (user_id event)) then
        allowed ←
          (if msc3757_enabled (room_version event) then
             owner ← catch
               (o ← state_key_owner sk;
                raise_if (negb (is_valid UserID_SIGIL o)) ValueError;; Ok o)
               (λ e, match e with
                     | ValueError =>
                         Raise (SynapseError 400 "State key neither equals a valid user ID, nor starts with one plus an underscore" Codes.BAD_JSON)
                     | _ => Raise e
                     end);
             if String.eqb owner (user_id event) then Ok true
             else owner_level ← get_user_power_level owner auth_events;
                  Ok (owner_level <? user_level)
           else Ok false);
        if (allowed : bool) then Ok true
        else Raise (auth403 "You are not allowed to set others state")
      else Ok true
  | None => Ok true
  end.

(** ** Redactions *)

(** The result, and whether [recheck_redaction] was set on the event. *)
Definition check_redaction (room_version_obj : RoomVersion) (event : EventBase)
    (auth_events : StateMap EventBase) : res (bool * bool) :=
  user_level ← get_user_power_level (user_id event) auth_events;
  redact_level ← get_named_level auth_events "redact" 50;
  if redact_level <=? user_level then Ok (false, false)
  else if decide (event_format room_version_obj = ROOM_V1_V2) then
    redacter_domain ← get_domain_from_id (event_id event);
    match redacts event with
    | Some (JStr target) =>
        redactee_domain ← get_domain_from_id target;
        if String.eqb redacter_domain redactee_domain then Ok (true, false)
        else Raise (auth403 "You don't have permission to redact events")
    | _ => Ok (false, false)
    end
  else Ok (true, true).

(** ** Third-party invites *)

(** [v.keys()] *)
Definition py_keys (v : json) : res (list string) :=
  match v with JObj d => Ok d.*1 | _ => Raise (AttributeError "keys") end.

Definition get_public_keys (invite_event : EventBase) : res (list json) :=
  let c := content invite_event in
  let public_keys :=
    match obj_get "public_key" c with
    | Some pk =>
        [JObj (("public_key", pk) ::
               match obj_get "key_validity_url" c with
               | Some u => [("key_validity_url", u)]
               | None => []
               end)]
    | None => []
    end in
  more ← py_list (obj_get_default "public_keys" (JList []) c);
  Ok (public_keys ++ more).

Section ThirdParty.
Context `{SignedJson}.

(** The inner loops of [_verify_third_party_invite] for one public key: the
    first [ed25519:] signature decides; [Ok false] when there is none. *)
Fixpoint try_key_names (public_key : json) (signed : jobj) (server : string)
    (key_names : list string) : res bool :=
  match key_names with
  | [] => Ok false
  | key_name :: rest =>
      if str_startswith "ed25519:" key_name then
        raw ← decode_base64 public_key;
        verify_key ← decode_verify_key_bytes key_name raw;
        verify_signed_json signed server verify_key;;
        Ok true
      else try_key_names public_key signed server rest
  end.

Fixpoint try_signatures (public_key : json) (signed : jobj) (blocks : jobj) : res bool :=
  match blocks with
  | [] => Ok false
  | (server, signature_block) :: rest =>
      key_names ← py_keys signature_block;
      found ← try_key_names public_key signed server key_names;
      if (found : bool) then Ok true else try_signatures public_key signed rest
  end.

Fixpoint try_public_keys (signed : jobj) (keys : list json) : res bool :=
  match keys with
  | [] => Ok false
  | public_key_object :: rest =>
      public_key ← py_getitem (JStr "public_key") public_key_object;
      match
        (sigs ← obj_getitem "signatures" signed;
         blocks ← py_items sigs;
         try_signatures public_key signed blocks)
      with
      | Ok true => Ok true
      | Ok false | Raise KeyError | Raise SignatureVerifyException => try_public_keys signed rest
      | Raise e => Raise e
      end
  end.

Definition _verify_third_party_invite (event : EventBase) (auth_events : StateMap EventBase) :
    res bool :=
  match obj_get "third_party_invite" (content event) with
  | Some (JObj third_party_invite) =>
      match obj_get "signed" third_party_invite with
      | Some (JObj signed) =>
          if forallb (λ key, obj_in key signed) ["mxid"; "token"; "signatures"] then
            token ← obj_getitem "token" signed;
            invite ← state_map_get_json auth_events EventTypes.ThirdPartyInvite token;
            match invite with
            | None => Ok false
            | Some invite_event =>
                if negb (String.eqb (sender invite_event) (sender event)) then Ok false
                else if negb (String.eqb (user_id event) (user_id invite_event)) then Ok false
                else
                  mxid ← obj_getitem "mxid" signed;
                  sk ← state_key event;
                  if negb (py_eq_str mxid sk) then Ok false
                  else keys ← get_public_keys invite_event; try_public_keys signed keys
            end
          else Ok false
      | _ => Ok false
      end
  | _ => Ok false
  end.

End ThirdParty.

(** ** Power level events *)

Definition int_level_keys : list string :=
  ["users_default"; "events_default"; "state_default"; "ban"; "redact"; "kick"; "invite"].
Definition dict_level_keys : list string := ["events"; "notifications"; "users"].

(** [for k, v in user_list.items()]: the first loop of
    [_check_power_levels]. *)
Definition check_user_entry (kv : string * json) : res unit :=
  match from_string UserID_SIGIL kv.1 with
  | Raise _ => Raise (SynapseError 400 "Not a valid user_id: %s" Codes.UNKNOWN)
  | Ok _ =>
      match py_int kv.2 with
      | Raise _ => Raise (SynapseError 400 "Not a valid power level: %s" Codes.UNKNOWN)
      | Ok _ => Ok tt
      end
  end.

(** [for k, v in event.content.items()] under [enforce_int_power_levels]. *)
Definition check_content_entry (kv : string * json) : res unit :=
  let '(k, v) := kv in
  raise_if (bool_decide (k ∈ int_level_keys) && negb (is_int v))
    (SynapseError 400 "%r must be an integer." Codes.UNKNOWN);;
  raise_if (bool_decide (k ∈ dict_level_keys) &&
            negb (match v with JObj d => forallb (λ kv, is_int kv.2) d | _ => false end))
    (SynapseError 400 "%r must be a dict wherein all the values are integers." Codes.UNKNOWN).

(** The level under [level_to_check], [None] when it is absent. *)
Definition level_at (loc : json) (level_to_check : json) : res (option Z) :=
  present ← py_in level_to_check loc;
  if (present : bool) then
    v ← py_getitem level_to_check loc; z ← py_int v; Ok (Some z)
  else Ok None.

(** [old_loc.get(dir, {})] when [dir] is set. *)
Definition level_loc (dir : option string) (state : jobj) : json :=
  match dir with
  | None => JObj state
  | Some d => obj_get_default d (JObj []) state
  end.

(** One iteration of [for level_to_check, dir in levels_to_check]. *)
Definition check_level (sender : string) (user_level : Z) (old_state new_state : jobj)
    (entry : json * option string) : res unit :=
  let '(level_to_check, dir) := entry in
  old_level ← level_at (level_loc dir old_state) level_to_check;
  new_level ← level_at (level_loc dir new_state) level_to_check;
  if match new_level, old_level with Some n, Some o => n =? o | _, _ => false end then Ok tt
  else
    raise_if (bool_decide (dir = Some "users") && negb (py_eq_str level_to_check sender)
              && match old_level with Some o => o =? user_level | None => false end)
      (auth403 "You don't have permission to remove ops level equal to your own");;
    raise_if (match old_level with Some o => user_level <? o | None => false end
              || match new_level with Some n => user_level <? n | None => false end)
      (auth403 "You don't have permission to add ops level greater than your own").

(** [set(list(old_list) + list(new_list))] paired with [dir]. *)
Definition levels_of (dir : string) (old_state new_state : jobj) :
    res (list (json * option string)) :=
  olds ← py_list (obj_get_default dir (JObj []) old_state);
  news ← py_list (obj_get_default dir (JObj []) new_state);
  ks ← py_set (olds ++ news);
  Ok (map (λ k, (k, Some dir)) ks).

Definition levels_to_check (room_version_obj : RoomVersion) (old_state new_state : jobj) :
    res (list (json * option string)) :=
  users ← levels_of "users" old_state new_state;
  events ← levels_of "events" old_state new_state;
  notifications ← (if limit_notifications_power_levels room_version_obj
                   then levels_of "notifications" old_state new_state else Ok []);
  Ok (map (λ k, (JStr k, None)) int_level_keys ++ users ++ events ++ notifications).

Definition _check_power_levels (room_version_obj : RoomVersion) (event : EventBase)
    (auth_events : StateMap EventBase) : res unit :=
  user_list ← py_items (obj_get_default "users" (JObj []) (content event));
  iterM check_user_entry user_list;;
  (if String.eqb (ev_type event) EventTypes.PowerLevels && enforce_int_power_levels room_version_obj
   then iterM check_content_entry (content event) else Ok tt);;
  sk ← state_key event;
  match auth_events !! (ev_type event, sk) with
  | None => Ok tt
  | Some current_state =>
      user_level ← get_user_power_level (user_id event) auth_events;
      levels ← levels_to_check room_version_obj (content current_state) (content event);
      iterM (check_level (user_id event) user_level (content current_state) (content event)) levels
  end.

(** ** Membership changes *)

(** [get_user_power_level] of a value read from an event's content. A value
    that is not a string has no member event, so [_check_joined_room] has
    raised before it gets here. *)
Definition get_user_power_level_json (user_id : json) (auth_events : StateMap EventBase) : res Z :=
  match user_id with
  | JStr s => get_user_power_level s auth_events
  | _ => Raise TypeError
  end.

(** The early return for the creator's own join. *)
Definition is_creator_join (room_version : RoomVersion) (event : EventBase)
    (auth_events : StateMap EventBase) (membership : json) : res bool :=
  match prev_event_ids event with
  | [prev] =>
      if py_eq_str membership Membership.JOIN then
        match auth_events !! (EventTypes.Create, "") with
        | Some create =>
            if String.eqb prev (event_id create) then
              creator ← (if implicit_room_creator room_version then Ok (JStr (sender create))
                         else obj_getitem EventContentFields.ROOM_CREATOR (content create));
              sk ← state_key event;
              Ok (py_eq_str creator sk)
            else Ok false
        | None => Ok false
        end
      else Ok false
  | _ => Ok false
  end.

(** What [_is_membership_change_allowed] looks up before it decides. *)
Record membership_info := {
  mi_membership : json;
  mi_target : string;
  mi_caller_in_room : bool;
  mi_caller_invited : bool;
  mi_caller_knocked : bool;
  mi_target_in_room : bool;
  mi_target_banned : bool;
  mi_join_rule : json;
  mi_user_level : Z;
  mi_target_level : Z;
  mi_invite_level : Z;
  mi_ban_level : Z
}.

Definition membership_lookup (room_version : RoomVersion) (event : EventBase)
    (auth_events : StateMap EventBase) (membership : json) : res membership_info :=
  target_user_id ← state_key event;
  rid ← room_id event;
  creating_domain ← get_domain_from_id rid;
  target_domain ← get_domain_from_id target_user_id;
  raise_if (negb (String.eqb creating_domain target_domain) && negb (_can_federate auth_events))
    (auth403 "This room has been marked as unfederatable.");;
  let caller := auth_events !! (EventTypes.Member, user_id event) in
  caller_in_room ← membership_is caller Membership.JOIN;
  caller_invited ← membership_is caller Membership.INVITE;
  caller_knocked ← (if knock_join_rule room_version then membership_is caller Membership.KNOCK
                    else Ok false);
  let target := auth_events !! (EventTypes.Member, target_user_id) in
  target_in_room ← membership_is target Membership.JOIN;
  target_banned ← membership_is target Membership.BAN;
  let join_rule :=
    match auth_events !! (EventTypes.JoinRules, "") with
    | Some join_rule_event =>
        obj_get_default "join_rule" (JStr JoinRules.INVITE) (content join_rule_event)
    | None => JStr JoinRules.INVITE
    end in
  user_level ← get_user_power_level (user_id event) auth_events;
  target_level ← get_user_power_level target_user_id auth_events;
  invite_level ← get_named_level auth_events "invite" 0;
  ban_level ← get_named_level auth_events "ban" 50;
  Ok {| mi_membership := membership; mi_target := target_user_id;
        mi_caller_in_room := caller_in_room; mi_caller_invited := caller_invited;
        mi_caller_knocked := caller_knocked; mi_target_in_room := target_in_room;
        mi_target_banned := target_banned; mi_join_rule := join_rule;
        mi_user_level := user_level; mi_target_level := target_level;
        mi_invite_level := invite_level; mi_ban_level := ban_level |}.

(** [elif Membership.JOIN == membership] *)
Definition check_join (room_version : RoomVersion) (event : EventBase)
    (auth_events : StateMap EventBase) (i : membership_info) : res unit :=
  if negb (String.eqb (user_id event) (mi_target i)) then
    Raise (auth403 "Cannot force another user to join.")
  else if mi_target_banned i then Raise (auth403 "You are banned from this room")
  else if py_eq_str (mi_join_rule i) JoinRules.PUBLIC then Ok tt
  else if (restricted_join_rule room_version && py_eq_str (mi_join_rule i) JoinRules.RESTRICTED)
       || (knock_restricted_join_rule room_version
           && py_eq_str (mi_join_rule i) JoinRules.KNOCK_RESTRICTED) then
    if negb (mi_caller_in_room i) && negb (mi_caller_invited i) then
      let authorising_user := obj_get EventContentFields.AUTHORISING_USER (content event) in
      match authorising_user with
      | None | Some JNull => Raise (auth403 "Join event is missing authorising user.")
      | Some au =>
          member_event ← state_map_get_json auth_events EventTypes.Member au;
          rid ← room_id event;
          _check_joined_room member_event au rid;;
          authorising_user_level ← get_user_power_level_json au auth_events;
          raise_if (authorising_user_level <? mi_invite_level i)
            (auth403 "Join event authorised by invalid server.")
      end
    else Ok tt
  else if py_eq_str (mi_join_rule i) JoinRules.INVITE
       || (knock_join_rule room_version && py_eq_str (mi_join_rule i) JoinRules.KNOCK)
       || (knock_restricted_join_rule room_version
           && py_eq_str (mi_join_rule i) JoinRules.KNOCK_RESTRICTED) then
    raise_if (negb (mi_caller_in_room i || mi_caller_invited i))
      (auth403 "You are not invited to this room.")
  else Raise (auth403 "You are not allowed to join this room").

(** The final [if]/[elif] chain on the requested membership. *)
Definition check_membership_branch (room_version : RoomVersion) (event : EventBase)
    (auth_events : StateMap EventBase) (i : membership_info) : res unit :=
  let m := mi_membership i in
  if py_eq_str m Membership.INVITE then
    if mi_target_banned i then Raise (auth403 "%s is banned from the room")
    else if mi_target_in_room i then
      Raise (unstable403 "%s is already in the room." Codes.ALREADY_JOINED)
    else raise_if (mi_user_level i <? mi_invite_level i)
           (unstable403 "You don't have permission to invite users" Codes.INSUFFICIENT_POWER)
  else if py_eq_str m Membership.JOIN then check_join room_version event auth_events i
  else if py_eq_str m Membership.LEAVE then
    if mi_target_banned i && (mi_user_level i <? mi_ban_level i) then
      Raise (unstable403 "You cannot unban user %s." Codes.INSUFFICIENT_POWER)
    else if negb (String.eqb (mi_target i) (user_id event)) then
      kick_level ← get_named_level auth_events "kick" 50;
      raise_if ((mi_user_level i <? kick_level) || (mi_user_level i <=? mi_target_level i))
        (unstable403 "You cannot kick user %s." Codes.INSUFFICIENT_POWER)
    else Ok tt
  else if py_eq_str m Membership.BAN then
    if mi_user_level i <? mi_ban_level i then
      Raise (unstable403 "You don't have permission to ban" Codes.INSUFFICIENT_POWER)
    else raise_if (mi_user_level i <=? mi_target_level i)
           (unstable403 "You don't have permission to ban this user" Codes.INSUFFICIENT_POWER)
  else if knock_join_rule room_version && py_eq_str m Membership.KNOCK then
    if negb (py_eq_str (mi_join_rule i) JoinRules.KNOCK)
       && (negb (knock_restricted_join_rule room_version)
           || negb (py_eq_str (mi_join_rule i) JoinRules.KNOCK_RESTRICTED)) then
      Raise (auth403 "You don't have permission to knock")
    else if negb (String.eqb (mi_target i) (user_id event)) then
      Raise (auth403 "You cannot knock for other users")
    else if mi_target_in_room i then
      Raise (unstable403 "You cannot knock on a room you are already in" Codes.ALREADY_JOINED)
    else if mi_caller_invited i then Raise (auth403 "You are already invited to this room")
    else raise_if (mi_target_banned i) (auth403 "You are banned from this room")
  else Raise (AuthError 500 "Unknown membership %s" Codes.FORBIDDEN).

Definition _is_membership_change_allowed `{SignedJson} (room_version : RoomVersion)
    (event : EventBase) (auth_events : StateMap EventBase) : res unit :=
  m ← obj_getitem "membership" (content event);
  creator_join ← is_creator_join room_version event auth_events m;
  if (creator_join : bool) then Ok tt
  else
    i ← membership_lookup room_version event auth_events m;
    if py_eq_str m Membership.INVITE && obj_in "third_party_invite" (content event) then
      verified ← _verify_third_party_invite event auth_events;
      raise_if (negb verified) (auth403 "You are not invited to this room.");;
      raise_if (mi_target_banned i) (auth403 "%s is banned from the room")
    else if negb (py_eq_str m Membership.JOIN) && negb (py_eq_str m Membership.KNOCK) then
      if (mi_caller_invited i || mi_caller_knocked i) && py_eq_str m Membership.LEAVE
         && String.eqb (mi_target i) (user_id event) then Ok tt
      else if negb (mi_caller_in_room i) then
        Raise (unstable403 "%s not in room %s." Codes.NOT_JOINED)
      else check_membership_branch room_version event auth_events i
    else check_membership_branch room_version event auth_events i.

(** ** Auth event selection *)

(** Add the key [(typ, v)] to a set of auth types. A string gives a state
    key; a dict or list cannot be hashed; another value gives a key that
    equals no state key of any room and is left out. *)
Definition add_auth_type (typ : string) (v : json) (s : StateKeys) : res (StateKeys) :=
  match v with
  | JStr k => Ok ({[(typ, k)]} ∪ s)
  | JList _ | JObj _ => Raise TypeError
  | _ => Ok s
  end.

Definition auth_types_for_event (room_version : RoomVersion) (event : EventBase) :
    res (StateKeys) :=
  if String.eqb (ev_type event) EventTypes.Create then Ok ∅
  else
    let auth_types : StateKeys :=
      {[(EventTypes.PowerLevels, ""); (EventTypes.Member, sender event); (EventTypes.Create, "")]} in
    if String.eqb (ev_type event) EventTypes.Member then
      m ← obj_getitem "membership" (content event);
      let auth_types :=
        if existsb (py_eq_str m) [Membership.JOIN; Membership.INVITE; Membership.KNOCK]
        then {[(EventTypes.JoinRules, "")]} ∪ auth_types else auth_types in
      sk ← state_key event;
      let auth_types := {[(EventTypes.Member, sk)]} ∪ auth_types in
      auth_types ←
        (if py_eq_str m Membership.INVITE then
           match obj_get "third_party_invite" (content event) with
           | Some third_party_invite =>
               signed ← py_getitem (JStr "signed") third_party_invite;
               token ← py_getitem (JStr "token") signed;
               add_auth_type EventTypes.ThirdPartyInvite token auth_types
           | None => Ok auth_types
           end
         else Ok auth_types);
      if restricted_join_rule room_version && py_eq_str m Membership.JOIN then
        match obj_get EventContentFields.AUTHORISING_USER (content event) with
        | Some au => add_auth_type EventTypes.Member au auth_types
        | None => Ok auth_types
        end
      else Ok auth_types
    else Ok auth_types.

(** ** State-independent checks *)

Definition _check_create (event : EventBase) : res unit :=
  raise_if (negb (String.eqb (ev_type event) EventTypes.Create)) AssertionError;;
  raise_if (match prev_event_ids event with [] => false | _ => true end)
    (auth403 "Create event has prev events");;
  sender_domain ← get_domain_from_id (sender event);
  rid ← room_id event;
  room_id_domain ← get_domain_from_id rid;
  raise_if (negb (String.eqb room_id_domain sender_domain))
    (auth403 "Creation event's room_id domain does not match sender's");;
  known ← match obj_get_default "room_version" (JStr "1") (content event) with
          | JStr v => Ok (bool_decide (is_Some (KNOWN_ROOM_VERSIONS !! v)))
          | JList _ | JObj _ => Raise TypeError
          | _ => Ok false
          end;
  raise_if (negb known) (auth403 "room appears to have unsupported version %s");;
  raise_if (negb (implicit_room_creator (room_version event))
            && negb (obj_in EventContentFields.ROOM_CREATOR (content event)))
    (auth403 "Create event lacks a 'creator' property").

(** The events [auth_events.get] searches: the fetched ones first, then the
    batch ([ChainMap.new_child]). [get_events] is the store's. *)
Definition fetch_auth_events (get_events : list string → res (gmap string EventBase))
    (event : EventBase) (batched : option (gmap string EventBase)) :
    res (gmap string EventBase) :=
  match batched with
  | Some b =>
      if decide (b = ∅) then get_events (auth_event_ids event)
      else
        let needed := filter (λ id, b !! id = None) (auth_event_ids event) in
        match needed with
        | [] => Ok b
        | _ => fetched ← get_events needed; Ok (fetched ∪ b)
        end
  | None => get_events (auth_event_ids event)
  end.

(** One iteration of the loop over [event.auth_event_ids()]. *)
Definition check_auth_event (auth_events : gmap string EventBase) (room : string)
    (expected_auth_types : StateKeys) (auth_dict : StateMap string) (auth_event_id : string) :
    res (StateMap string) :=
  match auth_events !! auth_event_id with
  | None => Raise (RuntimeError "Event %s has unknown auth event %s")
  | Some auth_event =>
      rid ← room_id auth_event;
      raise_if (negb (String.eqb rid room))
        (auth403 "During auth for event %s in room %s, found event %s in the state which is in room %s");;
      sk ← state_key auth_event;
      let k := (ev_type auth_event, sk) in
      raise_if (bool_decide (is_Some (auth_dict !! k)))
        (auth403 "Event %s has duplicate auth_events for %s: %s and %s");;
      raise_if (bool_decide (k ∉ expected_auth_types))
        (auth403 "Event %s has unexpected auth_event for %s: %s");;
      raise_if (match rejected_reason auth_event with
                | Some r => negb (String.eqb r "")
                | None => false
                end)
        (auth403 "During auth for event %s: found rejected event %s in the state");;
      Ok (<[k := auth_event_id]> auth_dict)
  end.

Definition check_state_independent_auth_rules
    (get_events : list string → res (gmap string EventBase))
    (event : EventBase) (batched : option (gmap string EventBase)) : res unit :=
  if String.eqb (ev_type event) EventTypes.Create then _check_create event
  else
    auth_events ← fetch_auth_events get_events event batched;
    room ← room_id event;
    expected_auth_types ← auth_types_for_event (room_version event) event;
    auth_dict ← foldM (check_auth_event auth_events room expected_auth_types) ∅
                  (auth_event_ids event);
    raise_if (match auth_dict !! (EventTypes.Create, "") with
              | Some creation_event => String.eqb creation_event ""
              | None => true
              end)
      (auth403 "No create event in auth events").

(** ** State-dependent checks *)

(** [{(e.type, e.state_key): e for e in auth_events}] *)
Definition auth_dict_of (auth_events : list EventBase) : res (StateMap EventBase) :=
  foldM (λ d e, sk ← state_key e; Ok (<[(ev_type e, sk) := e]> d)) ∅ auth_events.

Section Rules.
Context `{Netaddr} `{SignedJson}.

(** [check_state_dependent_auth_rules] once [auth_dict] is built. *)
Definition check_rules_dict (event : EventBase) (auth_dict : StateMap EventBase) : res bool :=
  rid ← room_id event;
  creating_domain ← get_domain_from_id rid;
  originating_domain ← get_domain_from_id (sender event);
  raise_if (negb (String.eqb creating_domain originating_domain) && negb (_can_federate auth_dict))
    (auth403 "This room has been marked as unfederatable.");;
  if String.eqb (ev_type event) EventTypes.Aliases
     && special_case_aliases_auth (room_version event) then
    raise_if (negb (is_state event)) (auth403 "Alias event must be a state event");;
    sk ← state_key event;
    raise_if (String.eqb sk "") (auth403 "Alias event must have non-empty state_key");;
    sender_domain ← get_domain_from_id (sender event);
    raise_if (negb (String.eqb sk sender_domain))
      (auth403 "Alias event's state_key does not match sender's domain");;
    Ok false
  else if String.eqb (ev_type event) EventTypes.Member then
    _is_membership_change_allowed (room_version event) event auth_dict;;
    Ok false
  else
    _check_event_sender_in_room event auth_dict;;
    if String.eqb (ev_type event) EventTypes.ThirdPartyInvite then
      user_level ← get_user_power_level (user_id event) auth_dict;
      invite_level ← get_named_level auth_dict "invite" 0;
      raise_if (user_level <? invite_level)
        (unstable403 "You don't have permission to invite users" Codes.INSUFFICIENT_POWER);;
      Ok false
    else
      _can_send_event event auth_dict;;
      (if String.eqb (ev_type event) EventTypes.PowerLevels
       then _check_power_levels (room_version event) event auth_dict else Ok tt);;
      if String.eqb (ev_type event) EventTypes.Redaction
      then r ← check_redaction (room_version event) event auth_dict; Ok r.2
      else Ok false.

Definition check_state_dependent_auth_rules (event : EventBase) (auth_events : list EventBase) :
    res bool :=
  if String.eqb (ev_type event) EventTypes.Create then Ok false
  else auth_dict ← auth_dict_of auth_events; check_rules_dict event auth_dict.

End Rules.

(** ** Event format checks *)

Definition LENIENT_EVENT_BYTE_LIMITS_ROOM_VERSIONS : list RoomVersion :=
  [RoomVersions.V1; RoomVersions.V2; RoomVersions.V3; RoomVersions.V4; RoomVersions.V5;
   RoomVersions.V6; RoomVersions.V7; RoomVersions.V8; RoomVersions.V9; RoomVersions.V10;
   RoomVersions.MSC1767v10; RoomVersions.MSC3757v10].

(** [if len(s) > 255: raise EventSizeError(msg, unpersistable)] *)
Definition size_check (len : string → nat) (unpersistable : bool) (msg : string) (s : string) :
    res unit :=
  raise_if (255 <? len s)%nat (EventSizeError msg unpersistable).

(** The five field checks, with the length function of one of the two
    passes. *)
Definition check_field_sizes (len : string → nat) (unpersistable : bool) (event : EventBase) :
    res unit :=
  size_check len unpersistable "'user_id' too large" (user_id event);;
  rid ← room_id event;
  size_check len unpersistable "'room_id' too large" rid;;
  (if is_state event
   then sk ← state_key event; size_check len unpersistable "'state_key' too large" sk
   else Ok tt);;
  size_check len unpersistable "'type' too large" (ev_type event);;
  size_check len unpersistable "'event_id' too large" (event_id event).

Definition _check_size_limits `{SignedJson} (event : EventBase) : res unit :=
  raise_if (MAX_PDU_SIZE <? str_bytes (encode_canonical_json (ev_pdu_json event)))%nat
    (EventSizeError "event too large" true);;
  check_field_sizes str_len true event;;
  let strict_byte_limits :=
    bool_decide (room_version event ∉ LENIENT_EVENT_BYTE_LIMITS_ROOM_VERSIONS) in
  check_field_sizes str_bytes strict_byte_limits event.

(** [not event.signatures.get(domain)] *)
Definition not_signed_by (event : EventBase) (domain : string) : bool :=
  match signatures event !! domain with Some (_ :: _) => false | _ => true end.

(** [get_domain_from_id] of a content value: only strings have [find]. *)
Definition get_domain_from_id_json (v : json) : res string :=
  match v with JStr s => get_domain_from_id s | _ => Raise (AttributeError "find") end.

(** [event.type == EventTypes.Member and event.membership == m and k in event.content] *)
Definition member_with (event : EventBase) (m k : string) : res bool :=
  if String.eqb (ev_type event) EventTypes.Member then
    v ← membership event; Ok (py_eq_str v m && obj_in k (content event))
  else Ok false.

Definition validate_event_for_room_version `{SignedJson} (event : EventBase) : res unit :=
  _check_size_limits event;;
  raise_if (match ev_room_id event with Some _ => false | None => true end)
    (AuthError 500 "Event has no room_id: %s" Codes.FORBIDDEN);;
  sender_domain ← get_domain_from_id (sender event);
  is_invite_via_3pid ← member_with event Membership.INVITE "third_party_invite";
  raise_if (not_signed_by event sender_domain && negb is_invite_via_3pid)
    (auth403 "Event not signed by sender's server");;
  (if decide (format_version event = ROOM_V1_V2) then
     event_id_domain ← get_domain_from_id (event_id event);
     raise_if (not_signed_by event event_id_domain) (auth403 "Event not signed by sending server")
   else Ok tt);;
  is_invite_via_allow_rule ←
    (if restricted_join_rule (room_version event)
     then member_with event Membership.JOIN EventContentFields.AUTHORISING_USER else Ok false);
  if (is_invite_via_allow_rule : bool) then
    au ← obj_getitem EventContentFields.AUTHORISING_USER (content event);
    authoriser_domain ← get_domain_from_id_json au;
    raise_if (not_signed_by event authoriser_domain)
      (auth403 "Event not signed by authorising server")
  else Ok tt.
