(* ===== verification/EventAuthProps.v ===== *)
(** * Theorems about event authorisation

    What the checks of [EventAuth] guarantee: which state they read, what an
    accepted event implies about the room's state, and when they raise. *)

From S2P Require Import Prelude PyJson RoomVersions Identifiers Event EventAuth.

(** ** Which state the rules read

    Two states that agree on the auth types of an event give the same
    verdict. *)

Definition agree_on (ts : StateKeys) (d d' : StateMap EventBase) : Prop :=
  ∀ k, k ∈ ts → d !! k = d' !! k.

#[global] Instance agree_on_equiv ts : Equivalence (agree_on ts).
Proof.
  split; unfold agree_on.
  - done.
  - intros d d' Hd k Hk. by rewrite Hd.
  - intros d1 d2 d3 H1 H2 k Hk. by rewrite H1, H2.
Qed.

Lemma agree_on_filter (ts : StateKeys) (d : StateMap EventBase) : agree_on ts (filter (λ kv, kv.1 ∈ ts) d) d.
Proof.
  intros k Hk. destruct (d !! k) as [e|] eqn:E.
  - by apply map_lookup_filter_Some_2.
  - rewrite map_lookup_filter_None. by left.
Qed.

Section Agree.
Context (ts : StateKeys).
Context (HPL : (EventTypes.PowerLevels, "") ∈ ts) (HCR : (EventTypes.Create, "") ∈ ts).

#[local] Instance get_power_level_event_proper :
  Proper (agree_on ts ==> eq) get_power_level_event.
Proof. intros d d' Hd. unfold get_power_level_event. by apply Hd. Qed.

#[local] Instance can_federate_proper : Proper (agree_on ts ==> eq) _can_federate.
Proof. intros d d' Hd. unfold _can_federate. by rewrite (Hd _ HCR). Qed.

#[local] Instance get_user_power_level_proper u :
  Proper (agree_on ts ==> eq) (get_user_power_level u).
Proof.
  intros d d' Hd. unfold get_user_power_level. rewrite (Hd _ HCR).
  by rewrite (get_power_level_event_proper _ _ Hd).
Qed.

#[local] Instance get_named_level_proper :
  Proper (agree_on ts ==> eq ==> eq ==> eq) get_named_level.
Proof.
  intros d d' Hd ? n -> ? z ->. unfold get_named_level.
  by rewrite (get_power_level_event_proper _ _ Hd).
Qed.

#[local] Instance can_send_event_proper `{NA : Netaddr} e :
  Proper (agree_on ts ==> eq) (_can_send_event e).
Proof.
  intros d d' Hd. unfold _can_send_event.
  rewrite (get_power_level_event_proper _ _ Hd).
  pose proof (λ u, get_user_power_level_proper u _ _ Hd). bind_cong.
Qed.

#[local] Instance check_redaction_proper rv e :
  Proper (agree_on ts ==> eq) (check_redaction rv e).
Proof.
  intros d d' Hd. unfold check_redaction.
  by rewrite (get_user_power_level_proper _ _ _ Hd), (get_named_level_proper _ _ Hd _ _ eq_refl _ _ eq_refl).
Qed.

(** *** Membership changes *)

Definition forget_join_rule (i : membership_info) : membership_info :=
  {| mi_membership := mi_membership i; mi_target := mi_target i;
     mi_caller_in_room := mi_caller_in_room i; mi_caller_invited := mi_caller_invited i;
     mi_caller_knocked := mi_caller_knocked i; mi_target_in_room := mi_target_in_room i;
     mi_target_banned := mi_target_banned i; mi_join_rule := JNull;
     mi_user_level := mi_user_level i; mi_target_level := mi_target_level i;
     mi_invite_level := mi_invite_level i; mi_ban_level := mi_ban_level i |}.

Context (event : EventBase) (d d' : StateMap EventBase).
Context (Hd : agree_on ts d d') (Hsender : (EventTypes.Member, sender event) ∈ ts).
Context (Htarget : ∀ sk, state_key event = Ok sk → (EventTypes.Member, sk) ∈ ts).

Lemma membership_lookup_agree rv m :
  (EventTypes.JoinRules, "") ∈ ts →
  membership_lookup rv event d m = membership_lookup rv event d' m.
Proof.
  intros HJR. unfold membership_lookup, user_id.
  rewrite (Hd _ HJR), (Hd _ Hsender), (can_federate_proper _ _ Hd).
  pose proof (λ u, get_user_power_level_proper u _ _ Hd).
  pose proof (λ n z, get_named_level_proper _ _ Hd n n eq_refl z z eq_refl).
  apply bind_ext; [done|]. intros sk Hsk. rewrite (Hd _ (Htarget _ Hsk)). bind_cong.
Qed.

Lemma membership_lookup_forget rv m :
  forget_join_rule <$> membership_lookup rv event d m =
  forget_join_rule <$> membership_lookup rv event d' m.
Proof.
  unfold membership_lookup, user_id.
  rewrite (Hd _ Hsender), (can_federate_proper _ _ Hd).
  pose proof Htarget as Ht. destruct (state_key event) as [sk|]; [|done].
  unfold mbind at 1 3, res_bind at 1 3. rewrite (Hd _ (Ht _ eq_refl)).
  rewrite !(get_user_power_level_proper _ _ _ Hd),
    !(get_named_level_proper _ _ Hd _ _ eq_refl _ _ eq_refl).
  unfold_res. repeat (case_match; simplify_eq/=; try done).
Qed.

Lemma membership_lookup_membership rv m i :
  membership_lookup rv event d m = Ok i → mi_membership i = m.
Proof. unfold membership_lookup. intros H. inv_bind H. by simplify_eq. Qed.

Lemma check_join_agree rv i :
  room_version_wf rv →
  (restricted_join_rule rv = true → ∀ a,
    obj_get EventContentFields.AUTHORISING_USER (content event) = Some (JStr a) →
    (EventTypes.Member, a) ∈ ts) →
  check_join rv event d i = check_join rv event d' i.
Proof.
  intros Hwf Hau. unfold check_join.
  do 3 (case_match; [done|]). case_match eqn:Hr; [|done]. case_match; [|done].
  assert (restricted_join_rule rv = true) as Hrj.
  { apply orb_true_iff in Hr as [[? _]%andb_true_iff|[? _]%andb_true_iff]; [done|].
    by apply (wf_knock_restricted _ Hwf). }
  destruct (obj_get _ _) as [au|] eqn:E; [|done].
  destruct au as [| | | |a| |]; try done; simpl.
  rewrite (Hd _ (Hau Hrj a eq_refl)), (get_user_power_level_proper _ _ _ Hd). done.
Qed.

Lemma check_membership_branch_agree rv i :
  room_version_wf rv →
  (restricted_join_rule rv = true → mi_membership i = JStr Membership.JOIN → ∀ a,
    obj_get EventContentFields.AUTHORISING_USER (content event) = Some (JStr a) →
    (EventTypes.Member, a) ∈ ts) →
  check_membership_branch rv event d i = check_membership_branch rv event d' i.
Proof.
  intros Hwf Hau. unfold check_membership_branch.
  rewrite !(get_named_level_proper _ _ Hd _ _ eq_refl _ _ eq_refl).
  case_match; [done|]. case_match eqn:Hj; [|done].
  apply check_join_agree; [done|]. intros; eapply Hau; eauto. by apply py_eq_str_true.
Qed.

Lemma check_membership_branch_forget (rv : RoomVersion) (dd : StateMap EventBase) i :
  py_eq_str (mi_membership i) Membership.JOIN = false →
  py_eq_str (mi_membership i) Membership.KNOCK = false →
  check_membership_branch rv event dd i =
  check_membership_branch rv event dd (forget_join_rule i).
Proof.
  intros HJ HK. unfold check_membership_branch. cbn. rewrite HJ, HK, andb_false_r. done.
Qed.
End Agree.

(** The auth types of an event contain the keys the rules look up. *)
Record covers (event : EventBase) (ts : StateKeys) : Prop := {
  cov_pl : (EventTypes.PowerLevels, "") ∈ ts;
  cov_create : (EventTypes.Create, "") ∈ ts;
  cov_sender : (EventTypes.Member, sender event) ∈ ts;
  cov_target : ev_type event = EventTypes.Member →
    ∀ sk, state_key event = Ok sk → (EventTypes.Member, sk) ∈ ts;
  cov_join_rules : ev_type event = EventTypes.Member → ∀ m,
    obj_getitem "membership" (content event) = Ok m →
    existsb (py_eq_str m) [Membership.JOIN; Membership.INVITE; Membership.KNOCK] = true →
    (EventTypes.JoinRules, "") ∈ ts;
  cov_token : ev_type event = EventTypes.Member →
    obj_getitem "membership" (content event) = Ok (JStr Membership.INVITE) →
    ∀ tpi signed t,
    obj_get "third_party_invite" (content event) = Some (JObj tpi) →
    obj_get "signed" tpi = Some (JObj signed) →
    obj_get "token" signed = Some (JStr t) → (EventTypes.ThirdPartyInvite, t) ∈ ts;
  cov_authorising : ev_type event = EventTypes.Member →
    restricted_join_rule (room_version event) = true →
    obj_getitem "membership" (content event) = Ok (JStr Membership.JOIN) → ∀ a,
    obj_get EventContentFields.AUTHORISING_USER (content event) = Some (JStr a) →
    (EventTypes.Member, a) ∈ ts
}.

Lemma add_auth_type_mono (typ : string) (v : json) (s s' : StateKeys) :
  add_auth_type typ v s = Ok s' → s ⊆ s'.
Proof. destruct v; cbn; intros; simplify_eq; set_solver. Qed.

Lemma auth_types_cover event ts :
  ev_type event ≠ EventTypes.Create →
  auth_types_for_event (room_version event) event = Ok ts → covers event ts.
Proof.
  intros Hnc H. unfold auth_types_for_event in H.
  destruct (String.eqb_spec (ev_type event) EventTypes.Create) as [|_]; [done|].
  destruct (String.eqb_spec (ev_type event) EventTypes.Member) as [Hm|Hnm].
  2: { simplify_eq. split; try done; set_solver. }
  apply bind_Ok in H as (m & Hmem & H). apply bind_Ok in H as (sk & Hsk & H).
  set (base := {[(EventTypes.Member, sk)]} ∪ _ : StateKeys) in H.
  assert ((EventTypes.PowerLevels, "") ∈ base ∧ (EventTypes.Create, "") ∈ base ∧
    (EventTypes.Member, sender event) ∈ base ∧ (EventTypes.Member, sk) ∈ base ∧
    (existsb (py_eq_str m) [Membership.JOIN; Membership.INVITE; Membership.KNOCK] = true →
     (EventTypes.JoinRules, "") ∈ base)) as (Hpl & Hcr & Hse & Htg & Hjr).
  { unfold base. clear -event. destruct (existsb _ _); split_and!; set_solver. }
  clearbody base. apply bind_Ok in H as (ts1 & H1 & H2).
  assert (base ⊆ ts1) as Hb1.
  { clear H2. case_match; [|by simplify_eq]. case_match; [|by simplify_eq].
    inv_bind H1. by eapply add_auth_type_mono. }
  assert (ts1 ⊆ ts) as Hb2.
  { clear H1. case_match; [|by simplify_eq]. case_match; [|by simplify_eq].
    by eapply add_auth_type_mono. }
  split; [by apply Hb2, Hb1..| | | |].
  - intros _ sk' Hsk'. rewrite Hsk in Hsk'. simplify_eq. by apply Hb2, Hb1.
  - intros _ m' Hm' Hex. rewrite Hmem in Hm'. simplify_eq. apply Hb2, Hb1, Hjr, Hex.
  - intros _ Hinv tpi signed t Ht Hs Htok. apply Hb2. rewrite Hmem in Hinv. simplify_eq.
    rewrite Ht in H1. cbn in H1. unfold obj_getitem in H1. rewrite Hs in H1. cbn in H1.
    unfold obj_getitem in H1. rewrite Htok in H1. cbn in H1. simplify_eq. apply elem_of_union_l, elem_of_singleton_2. done.
  - intros _ Hr Hj a Ha. rewrite Hmem in Hj. simplify_eq.
    rewrite Hr, Ha in H2. cbn in H2. simplify_eq. apply elem_of_union_l, elem_of_singleton_2. done.
Qed.

Lemma verify_third_party_invite_agree `{SJ : SignedJson} event ts (d d' : StateMap EventBase) :
  (∀ tpi signed t,
    obj_get "third_party_invite" (content event) = Some (JObj tpi) →
    obj_get "signed" tpi = Some (JObj signed) →
    obj_get "token" signed = Some (JStr t) → (EventTypes.ThirdPartyInvite, t) ∈ ts) →
  agree_on ts d d' →
  _verify_third_party_invite event d = _verify_third_party_invite event d'.
Proof.
  intros Ht Hd. unfold _verify_third_party_invite.
  destruct (obj_get "third_party_invite" _) as [[| | | | | |tpi]|]; try done.
  specialize (Ht tpi). destruct (obj_get "signed" tpi) as [[| | | | | |signed]|]; try done.
  case_match; [|done]. unfold obj_getitem. specialize (Ht signed).
  destruct (obj_get "token" signed) as [[| | | |t| |]|]; try done; cbn.
  by rewrite (Hd _ (Ht t eq_refl eq_refl eq_refl)).
Qed.

Lemma is_membership_change_allowed_agree `{SJ : SignedJson} event ts (d d' : StateMap EventBase) :
  room_version_wf (room_version event) → ev_type event = EventTypes.Member →
  covers event ts → agree_on ts d d' →
  _is_membership_change_allowed (room_version event) event d =
  _is_membership_change_allowed (room_version event) event d'.
Proof.
  intros Hwf Hm Hcov Hd. unfold _is_membership_change_allowed.
  apply bind_ext; [done|]. intros m Hmem.
  apply bind_ext.
  { unfold is_creator_join. by rewrite (Hd _ (cov_create _ _ Hcov)). }
  intros b _. destruct b; [done|].
  assert (∀ i, mi_membership i = m → check_membership_branch (room_version event) event d i =
                    check_membership_branch (room_version event) event d' i) as Hbranch.
  { intros i Hi. apply check_membership_branch_agree with ts; [apply Hcov..|done|done|].
    intros Hr Hj. apply (cov_authorising _ _ Hcov Hm Hr). congruence. }
  destruct (existsb (py_eq_str m) [Membership.JOIN; Membership.INVITE; Membership.KNOCK]) eqn:Hex.
  - apply bind_ext.
    { apply (membership_lookup_agree ts); [apply Hcov..|done|apply Hcov|by apply Hcov|].
      by apply (cov_join_rules _ _ Hcov Hm m). }
    intros i Hi. apply membership_lookup_membership in Hi.
    case_match eqn:Hinv.
    + rewrite (verify_third_party_invite_agree event ts d d'); [done| |done].
      apply andb_true_iff in Hinv as [Hinv _]. apply py_eq_str_true in Hinv.
      apply (cov_token _ _ Hcov Hm). by rewrite Hmem, Hinv.
    + by rewrite Hbranch.
  - apply orb_false_iff in Hex as [HJ [HI [HK _]%orb_false_iff]%orb_false_iff].
    rewrite HI, HJ, HK. cbn [andb negb].
    assert (forget_join_rule <$> membership_lookup (room_version event) event d m =
            forget_join_rule <$> membership_lookup (room_version event) event d' m) as Hlk.
    { apply (membership_lookup_forget ts); [apply Hcov..|done|apply Hcov|by apply Hcov]. }
    pose proof (membership_lookup_membership event d (room_version event) m) as Hm1.
    pose proof (membership_lookup_membership event d' (room_version event) m) as Hm2.
    destruct (membership_lookup _ event d m) as [i|], (membership_lookup _ event d' m) as [i'|];
      unfold_res; simplify_eq/=; [|done].
    specialize (Hm1 i eq_refl). specialize (Hm2 i' eq_refl).
    rewrite (Hbranch i Hm1), (check_membership_branch_forget event (room_version event) d' i),
      (check_membership_branch_forget event (room_version event) d' i') by congruence.
    destruct i, i'; unfold forget_join_rule in *; simplify_eq/=. done.
Qed.

Lemma check_rules_dict_agree `{NA : Netaddr} `{SJ : SignedJson} event ts (d d' : StateMap EventBase) :
  room_version_wf (room_version event) →
  (ev_type event = EventTypes.PowerLevels → ∀ sk, ev_state_key event = Some sk → sk = "") →
  covers event ts → agree_on ts d d' →
  check_rules_dict event d = check_rules_dict event d'.
Proof.
  intros Hwf Hpl Hcov Hd. unfold check_rules_dict.
  pose proof (cov_pl _ _ Hcov) as HPL. pose proof (cov_create _ _ Hcov) as HCR.
  rewrite (can_federate_proper ts HCR d d' Hd).
  do 4 (apply bind_ext; [done|intros]).
  case_match; [done|]. destruct (String.eqb_spec (ev_type event) EventTypes.Member) as [Hm|Hm].
  { by rewrite (is_membership_change_allowed_agree event ts d d'). }
  unfold _check_event_sender_in_room, user_id. rewrite (Hd _ (cov_sender _ _ Hcov)).
  rewrite (get_user_power_level_proper ts HPL HCR _ _ _ Hd).
  rewrite (get_named_level_proper ts HPL _ _ Hd _ _ eq_refl _ _ eq_refl).
  rewrite (can_send_event_proper ts HPL HCR event _ _ Hd).
  rewrite (check_redaction_proper ts HPL HCR _ _ _ _ Hd).
  apply bind_ext; [done|intros _ _]. case_match; [done|].
  apply bind_ext; [done|intros _ _]. apply bind_ext; [|done].
  destruct (String.eqb_spec (ev_type event) EventTypes.PowerLevels) as [HP|]; [|done].
  specialize (Hpl HP). unfold _check_power_levels, state_key, dict_property, user_id.
  rewrite (get_user_power_level_proper ts HPL HCR _ _ _ Hd).
  do 3 (apply bind_ext; [done|intros]).
  destruct (ev_state_key event) as [sk|]; [|done]. rewrite (Hpl sk eq_refl), HP. cbn.
  by rewrite (Hd _ HPL).
Qed.

(** The key under which an event is state. *)
Definition auth_key (e : EventBase) : option StateKey := (λ sk, (ev_type e, sk)) <$> ev_state_key e.

Lemma auth_dict_filter (ts : StateKeys) (l : list EventBase) :
  Forall (λ e, is_Some (auth_key e)) l → ∀ acc acc' : StateMap EventBase,
  agree_on ts acc' acc →
  let ins d e := (sk ← state_key e; Ok (<[(ev_type e, sk) := e]> d)) in
  ∃ d d', foldM ins acc l = Ok d ∧
    foldM ins acc' (filter (λ e, default ("", "") (auth_key e) ∈ ts) l) = Ok d' ∧ agree_on ts d' d.
Proof.
  intros Hl. induction Hl as [|e l [key He] Hl IH]; intros acc acc' Hacc ins.
  { exists acc, acc'. done. }
  unfold auth_key in He. destruct (ev_state_key e) as [sk|] eqn:Hsk; simplify_eq/=.
  assert (∀ d, ins d e = Ok (<[(ev_type e, sk) := e]> d)) as Hins.
  { intros d. unfold ins, state_key. by rewrite Hsk. }
  assert (default ("", "") (auth_key e) = (ev_type e, sk)) as Hkey.
  { unfold auth_key. by rewrite Hsk. }
  rewrite filter_cons. cbn [foldM]. rewrite Hins. cbn [mbind res_bind].
  case_decide as Hin; rewrite Hkey in Hin.
  - cbn [foldM]. rewrite Hins. cbn [mbind res_bind]. apply IH. intros k Hk.
    destruct (decide (k = (ev_type e, sk))) as [->|]; [by rewrite !lookup_insert_eq|].
    rewrite !lookup_insert_ne by done. by apply Hacc.
  - apply IH. intros k Hk. rewrite lookup_insert_ne by congruence. by apply Hacc.
Qed.

(** C5: check_state_dependent_auth_rules gives the same result, exceptions included, on the
    full room state and on the state restricted to the keys auth_types_for_event selects,
    for every known room version (power levels events having the empty state key). *)
Theorem auth_types_sufficient `{NA : Netaddr} `{SJ : SignedJson} event ts (state : list EventBase) :
  room_version_wf (room_version event) →
  (ev_type event = EventTypes.PowerLevels → ∀ sk, ev_state_key event = Some sk → sk = "") →
  Forall (λ e, is_Some (auth_key e)) state →
  auth_types_for_event (room_version event) event = Ok ts →
  check_state_dependent_auth_rules event
    (filter (λ e, default ("", "") (auth_key e) ∈ ts) state) =
  check_state_dependent_auth_rules event state.
Proof.
  intros Hwf Hpl Hst Hts. unfold check_state_dependent_auth_rules.
  destruct (String.eqb_spec (ev_type event) EventTypes.Create) as [|Hnc]; [done|].
  destruct (auth_dict_filter ts state Hst ∅ ∅) as (d & d' & H1 & H2 & Hag); [done|].
  unfold auth_dict_of. rewrite H1, H2. cbn.
  apply check_rules_dict_agree with ts; auto using auth_types_cover.
Qed.

(** ** Power level changes *)

(** What a sender of level [ul] may do to one level: leave it as it is, or
    replace a level not above its own (strictly below, for the level of
    another user) by one not above its own. *)
Definition level_change_allowed (other_user : bool) (ul : Z) (old new : option Z) : Prop :=
  (∃ l, old = Some l ∧ new = Some l) ∨
  (∀ o, old = Some o → if other_user then o < ul else o ≤ ul) ∧ (∀ n, new = Some n → n ≤ ul).

(** The levels a change of which is controlled. *)
Definition governed (rv : RoomVersion) (dir : option string) (k : string) : Prop :=
  match dir with
  | None => k ∈ int_level_keys
  | Some d => d = "users" ∨ d = "events" ∨
              (d = "notifications" ∧ limit_notifications_power_levels rv = true)
  end.

Lemma level_at_obj d k :
  level_at (JObj d) (JStr k) =
  match obj_get k d with None => Ok None | Some v => z ← py_int v; Ok (Some z) end.
Proof.
  unfold level_at, py_in, py_getitem, obj_in, obj_getitem. cbn.
  by destruct (obj_get k d).
Qed.

Lemma check_level_Ok sender ul old new k dir u :
  check_level sender ul old new (k, dir) = Ok u →
  ∃ o n, level_at (level_loc dir old) k = Ok o ∧ level_at (level_loc dir new) k = Ok n ∧
    level_change_allowed (bool_decide (dir = Some "users") && negb (py_eq_str k sender)) ul o n.
Proof.
  unfold check_level. intros H. apply bind_Ok in H as (o & Ho & H).
  apply bind_Ok in H as (n & Hn & H). exists o, n. split_and!; [done..|].
  unfold level_change_allowed.
  destruct (match n, o with Some _, Some _ => _ | _, _ => _ end) eqn:E.
  { left. destruct n, o; try done. apply Z.eqb_eq in E. eauto with congruence. }
  right. inv_bind H. rewrite raise_if_Ok in E0, H. apply orb_false_iff in H as [H1 H2].
  split.
  - intros o' ->. apply Z.ltb_ge in H1. destruct (bool_decide _ && negb _); [|lia].
    rewrite andb_true_l in E0. apply Z.eqb_neq in E0. lia.
  - intros n' ->. apply Z.ltb_ge in H2. lia.
Qed.

Lemma levels_of_elem dir old new od nd ls k :
  levels_of dir old new = Ok ls →
  obj_get_default dir (JObj []) old = JObj od → obj_get_default dir (JObj []) new = JObj nd →
  k ∈ od.*1 ∨ k ∈ nd.*1 → (JStr k, Some dir) ∈ ls.
Proof.
  unfold levels_of. intros H Ho Hn Hk. rewrite Ho, Hn in H. inv_bind H. simplify_eq/=.
  apply list_elem_of_fmap. exists (JStr k). split; [done|].
  apply (py_set_Ok_str _ _ _ E1), elem_of_app. rewrite !list_elem_of_fmap.
  destruct Hk as [Hk|Hk]; [left|right]; apply list_elem_of_fmap in Hk as (kv & -> & ?); eauto.
Qed.

Lemma levels_to_check_governed rv old new ls dir k od nd :
  levels_to_check rv old new = Ok ls → governed rv dir k →
  level_loc dir old = JObj od → level_loc dir new = JObj nd →
  k ∈ od.*1 ∨ k ∈ nd.*1 → (JStr k, dir) ∈ ls.
Proof.
  unfold levels_to_check. intros H Hg Ho Hn Hk. inv_bind H.
  apply (inj Ok) in H as <-. rewrite !elem_of_app. destruct dir as [dir|]; cbn in Hg.
  - right. destruct Hg as [->|[->|[-> Hl]]]; [left|right; left|right; right].
    + by eapply levels_of_elem.
    + by eapply levels_of_elem.
    + rewrite Hl in E1. by eapply levels_of_elem.
  - left. apply list_elem_of_fmap. eauto.
Qed.

(** Every governed level obeys [level_change_allowed]. *)
Lemma check_power_levels_rule rv event (auth : StateMap EventBase) sk cur ul dir k od nd :
  _check_power_levels rv event auth = Ok tt →
  state_key event = Ok sk → auth !! (ev_type event, sk) = Some cur →
  get_user_power_level (user_id event) auth = Ok ul → governed rv dir k →
  level_loc dir (content cur) = JObj od → level_loc dir (content event) = JObj nd →
  ∃ o n, level_at (JObj od) (JStr k) = Ok o ∧ level_at (JObj nd) (JStr k) = Ok n ∧
    level_change_allowed (bool_decide (dir = Some "users") && negb (String.eqb k (sender event)))
      ul o n.
Proof.
  intros H Hsk Hcur Hul Hg Ho Hn. unfold _check_power_levels in H.
  apply bind_Ok in H as (? & _ & H). apply bind_Ok in H as (? & _ & H).
  apply bind_Ok in H as (? & _ & H). rewrite Hsk in H. cbn in H.
  rewrite Hcur, Hul in H. cbn in H. apply bind_Ok in H as (ls & Hls & H).
  destruct (decide (k ∈ od.*1 ∨ k ∈ nd.*1)) as [Hk|Hk].
  - rewrite iterM_Ok in H.
    specialize (H _ (levels_to_check_governed _ _ _ _ _ _ _ _ Hls Hg Ho Hn Hk)).
    apply check_level_Ok in H. by rewrite Ho, Hn in H.
  - exists None, None. rewrite !level_at_obj.
    rewrite (proj2 (obj_get_None k od)), (proj2 (obj_get_None k nd)) by tauto.
    split_and!; [done..|]. by right.
Qed.

(** A user's level as the power level event's content gives it, when the
    [level_at] lookups of the change rule succeed. *)
Lemma get_user_power_level_content u (auth : StateMap EventBase) pl ud lu ld :
  get_power_level_event auth = Some pl →
  obj_get_default "users" (JObj []) (content pl) = JObj ud →
  level_at (JObj ud) (JStr u) = Ok lu →
  level_at (JObj (content pl)) (JStr "users_default") = Ok ld →
  get_user_power_level u auth = Ok (default (default 0 ld) lu).
Proof.
  intros Hpl Hud Hlu Hld. unfold get_user_power_level. rewrite Hpl, Hud.
  rewrite level_at_obj in Hlu, Hld. unfold obj_get_default. cbn.
  destruct (obj_get u ud) as [v|].
  - apply bind_Ok in Hlu as (z & Hz & ?). simplify_eq/=. by destruct v.
  - simplify_eq/=. destruct (obj_get "users_default" _) as [v|]; simplify_eq/=; [|done].
    apply bind_Ok in Hld as (z & Hz & ?). simplify_eq/=. by destruct v.
Qed.

(** When _check_power_levels accepts, every level it governs (the named levels, users,
    events, and notifications where the room version limits them) is either unchanged, or
    its old value was not above the sender's level (strictly below it for another user's
    level) and its new value is not above the sender's level. *)
Theorem power_levels_change_rule rv event (auth : StateMap EventBase) sk cur ul :
  _check_power_levels rv event auth = Ok tt →
  state_key event = Ok sk → auth !! (ev_type event, sk) = Some cur →
  get_user_power_level (user_id event) auth = Ok ul →
  ∀ dir k od nd, governed rv dir k →
  level_loc dir (content cur) = JObj od → level_loc dir (content event) = JObj nd →
  ∃ o n, level_at (JObj od) (JStr k) = Ok o ∧ level_at (JObj nd) (JStr k) = Ok n ∧
    level_change_allowed (bool_decide (dir = Some "users") && negb (String.eqb k (sender event)))
      ul o n.
Proof. intros. by eapply check_power_levels_rule. Qed.

(** C1: When _check_power_levels accepts a power levels event on a room that has one (with
    well-formed old levels), every user has a level before and after; no user's new level
    exceeds the larger of the sender's level, its own old level, the old default and 0, and
    a user other than the sender who is listed with a level at least the sender's keeps
    exactly that level. *)
Theorem power_levels_no_escalation rv event (auth : StateMap EventBase) cur ul od dflt :
  ev_type event = EventTypes.PowerLevels → state_key event = Ok "" →
  _check_power_levels rv event auth = Ok tt →
  get_power_level_event auth = Some cur →
  get_user_power_level (user_id event) auth = Ok ul →
  obj_get_default "users" (JObj []) (content cur) = JObj od →
  level_at (JObj (content cur)) (JStr "users_default") = Ok dflt →
  ∀ u, ∃ old new,
    get_user_power_level u auth = Ok old ∧
    get_user_power_level u (<[(EventTypes.PowerLevels, "") := event]> auth) = Ok new ∧
    new ≤ Z.max (Z.max 0 ul) (Z.max old (default 0 dflt)) ∧
    (u ≠ sender event → is_Some (obj_get u od) → ul ≤ old → new = old).
Proof.
  intros Htype Hsk Hchk Hcur Hul Hod Hdflt u.
  assert (∃ nd, obj_get_default "users" (JObj []) (content event) = JObj nd) as [nd Hnd].
  { unfold _check_power_levels in Hchk. apply bind_Ok in Hchk as (nd & Hnd & _).
    destruct (obj_get_default _ _ _); try done. eauto. }
  assert (auth !! (ev_type event, "") = Some cur) as Hauth by (by rewrite Htype).
  destruct (check_power_levels_rule rv event auth "" cur ul (Some "users") u od nd)
    as (lu & lu' & Hlu & Hlu' & Hu); [done..|by left|done|done|].
  destruct (check_power_levels_rule rv event auth "" cur ul None "users_default"
    (content cur) (content event)) as (ld & ld' & Hld & Hld' & Hd); [done..|by left|done|done|].
  rewrite Hdflt in Hld. simplify_eq.
  exists (default (default 0 ld) lu), (default (default 0 ld') lu').
  split_and!.
  - by eapply get_user_power_level_content.
  - eapply get_user_power_level_content; [|done..]. apply lookup_insert_eq.
  - destruct Hu as [(l & -> & ->)|[_ Hu]]; [cbn; lia|].
    destruct lu' as [n|]; cbn; [specialize (Hu n eq_refl); lia|].
    destruct Hd as [(l & -> & ->)|[_ Hd]]; [cbn; lia|].
    destruct ld' as [n|]; cbn; [specialize (Hd n eq_refl); lia|lia].
  - intros Hne [v Hv] Hle. destruct Hu as [(l & -> & ->)|[Hu _]]; [done|].
    rewrite level_at_obj, Hv in Hlu. apply bind_Ok in Hlu as (z & _ & ?). simplify_eq/=.
    specialize (Hu z eq_refl). destruct (String.eqb_spec u (sender event)); [done|]. cbn in Hu. lia.
Qed.

(** ** What an accepted membership change implies *)

(** [m] is the membership recorded for [u] in a state. *)
Definition member_is (d : StateMap EventBase) (u m : string) : Prop :=
  ∃ e, d !! (EventTypes.Member, u) = Some e ∧ membership e = Ok (JStr m).

Lemma membership_is_true o m :
  membership_is o m = Ok true ↔ ∃ e, o = Some e ∧ membership e = Ok (JStr m).
Proof.
  destruct o as [e|]; cbn; [|naive_solver]. rewrite bind_Ok. split.
  - intros (v & Hv & H). simplify_eq. apply py_eq_str_true in H as ->. eauto.
  - intros (? & [= <-] & H). exists (JStr m). split; [done|]. cbn. by rewrite String.eqb_refl.
Qed.

Lemma membership_is_false o m :
  membership_is o m = Ok false → ¬ ∃ e, o = Some e ∧ membership e = Ok (JStr m).
Proof. intros H Hm. apply membership_is_true in Hm. congruence. Qed.

(** What the lookups mean in terms of the state. *)
Record lookup_meaning (rv : RoomVersion) (event : EventBase) (d : StateMap EventBase)
    (i : membership_info) : Prop := {
  lm_target : state_key event = Ok (mi_target i);
  lm_caller_joined :
    mi_caller_in_room i = true ↔ member_is d (sender event) Membership.JOIN;
  lm_caller_invited :
    mi_caller_invited i = true ↔ member_is d (sender event) Membership.INVITE;
  lm_caller_knocked :
    mi_caller_knocked i = true → member_is d (sender event) Membership.KNOCK;
  lm_target_joined : mi_target_in_room i = true ↔ member_is d (mi_target i) Membership.JOIN;
  lm_target_banned : mi_target_banned i = true ↔ member_is d (mi_target i) Membership.BAN;
  lm_user_level : get_user_power_level (sender event) d = Ok (mi_user_level i);
  lm_target_level : get_user_power_level (mi_target i) d = Ok (mi_target_level i);
  lm_invite_level : get_named_level d "invite" 0 = Ok (mi_invite_level i);
  lm_ban_level : get_named_level d "ban" 50 = Ok (mi_ban_level i);
  lm_join_rule : mi_join_rule i =
    match d !! (EventTypes.JoinRules, "") with
    | Some e => obj_get_default "join_rule" (JStr JoinRules.INVITE) (content e)
    | None => JStr JoinRules.INVITE
    end
}.

Lemma membership_is_iff (o : option EventBase) m b :
  membership_is o m = Ok b → b = true ↔ ∃ e, o = Some e ∧ membership e = Ok (JStr m).
Proof.
  destruct b; intros H; [by apply membership_is_true in H|].
  apply membership_is_false in H. naive_solver.
Qed.

Lemma membership_lookup_meaning rv event d m i :
  membership_lookup rv event d m = Ok i → lookup_meaning rv event d i ∧ mi_membership i = m.
Proof.
  unfold membership_lookup. intros H.
  apply bind_Ok in H as (tgt & Htgt & H). apply bind_Ok in H as (rid & _ & H).
  apply bind_Ok in H as (? & _ & H). apply bind_Ok in H as (? & _ & H).
  apply bind_Ok in H as (? & _ & H). apply bind_Ok in H as (cj & Hcj & H).
  apply bind_Ok in H as (ci & Hci & H). apply bind_Ok in H as (ck & Hck & H).
  apply bind_Ok in H as (tj & Htj & H). apply bind_Ok in H as (tb & Htb & H).
  apply bind_Ok in H as (ul & Hul & H). apply bind_Ok in H as (tl & Htl & H).
  apply bind_Ok in H as (il & Hil & H). apply bind_Ok in H as (bl & Hbl & H).
  simplify_eq. split; [|done]. split; try done; cbn.
  - by apply membership_is_iff.
  - by apply membership_is_iff.
  - destruct (knock_join_rule rv); intros ->; [|done]. by apply membership_is_true in Hck.
  - by apply membership_is_iff.
  - by apply membership_is_iff.
Qed.

(** An accepted membership event that is not the creator's first join went
    through the lookups and one of the three exits. *)
Lemma membership_change_cases `{SJ : SignedJson} rv event d m :
  _is_membership_change_allowed rv event d = Ok tt →
  membership event = Ok m → is_creator_join rv event d m = Ok false →
  ∃ i, lookup_meaning rv event d i ∧ mi_membership i = m ∧
    ((m = JStr Membership.INVITE ∧ obj_in "third_party_invite" (content event) = true ∧
      _verify_third_party_invite event d = Ok true ∧ mi_target_banned i = false) ∨
     (m = JStr Membership.LEAVE ∧ mi_target i = sender event ∧
      (mi_caller_invited i = true ∨ mi_caller_knocked i = true)) ∨
     ((m = JStr Membership.JOIN ∨ m = JStr Membership.KNOCK ∨ mi_caller_in_room i = true) ∧
      (m = JStr Membership.INVITE → obj_in "third_party_invite" (content event) = false) ∧
      check_membership_branch rv event d i = Ok tt)).
Proof.
  unfold _is_membership_change_allowed, membership. intros H Hm Hc.
  rewrite Hm in H. cbn in H. rewrite Hc in H. cbn in H.
  apply bind_Ok in H as (i & Hi & H). apply membership_lookup_meaning in Hi as [Hi Him].
  exists i. split_and!; [done..|].
  destruct (py_eq_str m Membership.INVITE && _) eqn:Hinv.
  { apply andb_true_iff in Hinv as [Hinv Htp]. apply py_eq_str_true in Hinv.
    apply bind_Ok in H as (v & Hv & H). apply bind_Ok in H as ([] & H1 & H2).
    rewrite raise_if_Ok in H1, H2. destruct v; [|done]. by left. }
  right. destruct (negb (py_eq_str m Membership.JOIN) && _) eqn:HJK.
  - destruct (_ && String.eqb _ _) eqn:Hlv.
    + left. apply andb_true_iff in Hlv as [[Hcall Hlv]%andb_true_iff Htgt].
      apply orb_true_iff in Hcall. apply String.eqb_eq in Htgt. apply py_eq_str_true in Hlv. done.
    + destruct (mi_caller_in_room i) eqn:Hj; [|done]. cbn in H. right. split_and!; [by auto| |done].
      intros ->. by rewrite andb_true_l in Hinv.
  - right. apply andb_false_iff in HJK as [HJ|HK].
    + apply negb_false_iff, py_eq_str_true in HJ as ->. split_and!; [by left|done|done].
    + apply negb_false_iff, py_eq_str_true in HK as ->. split_and!; [by auto|done|done].
Qed.

Lemma accepted_member `{NA : Netaddr} `{SJ : SignedJson} event state (d : StateMap EventBase) b :
  check_state_dependent_auth_rules event state = Ok b → auth_dict_of state = Ok d →
  ev_type event = EventTypes.Member →
  _is_membership_change_allowed (room_version event) event d = Ok tt.
Proof.
  unfold check_state_dependent_auth_rules, check_rules_dict. intros H Hd Ht.
  rewrite Ht, Hd in H. cbn in H.
  do 4 (apply bind_Ok in H as (? & _ & H)). by apply bind_Ok in H as ([] & H & _).
Qed.

Lemma is_creator_join_not_join (rv : RoomVersion) event (d : StateMap EventBase) m :
  py_eq_str m Membership.JOIN = false → is_creator_join rv event d m = Ok false.
Proof.
  intros Hm. unfold is_creator_join. rewrite Hm.
  by destruct (prev_event_ids event) as [|? []].
Qed.

(** The join rule in force in a state. *)
Definition join_rule_of (d : StateMap EventBase) : json :=
  match d !! (EventTypes.JoinRules, "") with
  | Some e => obj_get_default "join_rule" (JStr JoinRules.INVITE) (content e)
  | None => JStr JoinRules.INVITE
  end.

(** The join carries the consent of a member who could have invited. *)
Definition authorised_by_member (event : EventBase) (d : StateMap EventBase) : Prop :=
  ∃ a level invite,
    obj_get EventContentFields.AUTHORISING_USER (content event) = Some (JStr a) ∧
    member_is d a Membership.JOIN ∧
    get_user_power_level a d = Ok level ∧ get_named_level d "invite" 0 = Ok invite ∧
    invite ≤ level.

Lemma check_join_Ok rv event (d : StateMap EventBase) i :
  lookup_meaning rv event d i → check_join rv event d i = Ok tt →
  mi_target i = sender event ∧ mi_target_banned i = false ∧
  (mi_join_rule i = JStr JoinRules.PUBLIC ∨ mi_caller_in_room i = true ∨
   mi_caller_invited i = true ∨
   (mi_join_rule i = JStr JoinRules.RESTRICTED ∨ mi_join_rule i = JStr JoinRules.KNOCK_RESTRICTED) ∧
   authorised_by_member event d).
Proof.
  intros Hi H. unfold check_join in H.
  destruct (String.eqb_spec (user_id event) (mi_target i)) as [Ht|]; [|done]. cbn in H.
  destruct (mi_target_banned i); [done|]. split_and!; [done..|].
  destruct (py_eq_str _ JoinRules.PUBLIC) eqn:Hp; [left; by apply py_eq_str_true|right].
  destruct (mi_caller_in_room i); [by left|right].
  destruct (mi_caller_invited i); [by left|right]. cbn in H.
  destruct (_ || _ && py_eq_str _ JoinRules.KNOCK_RESTRICTED) eqn:Hr; [|by case_match].
  split.
  { apply orb_true_iff in Hr as [[_ Hr]%andb_true_iff|[_ Hr]%andb_true_iff];
      apply py_eq_str_true in Hr; auto. }
  destruct (obj_get _ (content event)) as [[| | | |a| |]|] eqn:Ha; try done; cbn in H;
    try (by inv_bind H).
  apply bind_Ok in H as (rid & _ & H). apply bind_Ok in H as ([] & Hj & H).
  apply bind_Ok in H as (lv & Hlv & H). rewrite raise_if_Ok, Z.ltb_ge in H.
  unfold _check_joined_room in Hj. apply bind_Ok in Hj as (j & Hj & Hj').
  rewrite raise_if_Ok, negb_false_iff in Hj'. subst j. apply membership_is_true in Hj.
  exists a, lv, (mi_invite_level i). split_and!; try done. apply Hi.
Qed.

(** C2: A join that check_state_dependent_auth_rules accepts, other than the creator's first
    join, is sent by the user it is about, who is not banned, and is authorised: the room is
    public, or the user is already joined or invited, or the join rule is restricted or
    knock_restricted and the event names an authorising user who is joined and has the level
    to invite. *)
Theorem accepted_join_authorised `{NA : Netaddr} `{SJ : SignedJson} event state
    (d : StateMap EventBase) b :
  check_state_dependent_auth_rules event state = Ok b → auth_dict_of state = Ok d →
  ev_type event = EventTypes.Member → membership event = Ok (JStr Membership.JOIN) →
  is_creator_join (room_version event) event d (JStr Membership.JOIN) = Ok false →
  state_key event = Ok (sender event) ∧ ¬ member_is d (sender event) Membership.BAN ∧
  (join_rule_of d = JStr JoinRules.PUBLIC ∨
   member_is d (sender event) Membership.JOIN ∨ member_is d (sender event) Membership.INVITE ∨
   (join_rule_of d = JStr JoinRules.RESTRICTED ∨ join_rule_of d = JStr JoinRules.KNOCK_RESTRICTED) ∧
   authorised_by_member event d).
Proof.
  intros Hchk Hd Ht Hm Hc.
  pose proof (accepted_member _ _ _ _ Hchk Hd Ht) as Hallow.
  destruct (membership_change_cases _ _ _ _ Hallow Hm Hc)
    as (i & Hi & Him & [[? _]|[[? _]|(_ & _ & Hb)]]); [done..|].
  unfold check_membership_branch in Hb. rewrite Him in Hb. cbn in Hb.
  destruct (check_join_Ok _ _ _ _ Hi Hb) as (Htgt & Hban & Hwhy).
  pose proof (lm_target _ _ _ _ Hi) as Hsk. rewrite Htgt in Hsk. split_and!; [done| |].
  - rewrite <-Htgt, <-(lm_target_banned _ _ _ _ Hi). congruence.
  - fold (join_rule_of d) in *. rewrite (lm_join_rule _ _ _ _ Hi) in Hwhy.
    rewrite (lm_caller_joined _ _ _ _ Hi), (lm_caller_invited _ _ _ _ Hi) in Hwhy. done.
Qed.

(** C3: An accepted ban, or an accepted leave of another user (a kick or an unban), is sent
    by a joined user whose level reaches the ban or kick level and is strictly above the
    target's; removing a banned user further needs the ban level. *)
Theorem accepted_removal_outranks_target `{NA : Netaddr} `{SJ : SignedJson} event state
    (d : StateMap EventBase) b target m :
  check_state_dependent_auth_rules event state = Ok b → auth_dict_of state = Ok d →
  ev_type event = EventTypes.Member → state_key event = Ok target →
  membership event = Ok (JStr m) →
  m = Membership.BAN ∨ m = Membership.LEAVE ∧ target ≠ sender event →
  member_is d (sender event) Membership.JOIN ∧
  ∃ level target_level needed,
    get_user_power_level (sender event) d = Ok level ∧
    get_user_power_level target d = Ok target_level ∧
    get_named_level d (if String.eqb m Membership.BAN then "ban" else "kick") 50 = Ok needed ∧
    needed ≤ level ∧ target_level < level ∧
    (member_is d target Membership.BAN →
     ∃ ban_level, get_named_level d "ban" 50 = Ok ban_level ∧ ban_level ≤ level).
Proof.
  intros Hchk Hd Ht Hsk Hm Hcase.
  pose proof (accepted_member _ _ _ _ Hchk Hd Ht) as Hallow.
  destruct (membership_change_cases _ _ _ _ Hallow Hm) as (i & Hi & Him & Hex).
  { apply is_creator_join_not_join. by destruct Hcase as [->|[-> _]]. }
  pose proof (lm_target _ _ _ _ Hi) as Htgt. rewrite Hsk in Htgt. simplify_eq.
  destruct Hex as [[? _]|[(? & ? & _)|(Hj & _ & Hb)]].
  1,2: by destruct Hcase as [->|[-> ?]].
  assert (mi_caller_in_room i = true) as Hin.
  { by destruct Hcase as [->|[-> _]], Hj as [?|[?|?]]. }
  split; [by apply Hi|].
  exists (mi_user_level i), (mi_target_level i).
  unfold check_membership_branch in Hb. rewrite Him in Hb.
  destruct Hcase as [->|[-> Hne]]; cbn in Hb.
  - exists (mi_ban_level i). destruct (Z.ltb_spec (mi_user_level i) (mi_ban_level i)); [done|].
    rewrite raise_if_Ok, Z.leb_gt in Hb. split_and!; try apply Hi; try done.
    intros _. exists (mi_ban_level i). split; [apply Hi|done].
  - destruct (mi_target_banned i && _) eqn:Hban; [done|].
    destruct (String.eqb_spec (mi_target i) (user_id event)); [done|]. cbn in Hb.
    apply bind_Ok in Hb as (kl & Hkl & Hb). rewrite raise_if_Ok in Hb.
    apply orb_false_iff in Hb as [Hb1%Z.ltb_ge Hb2%Z.leb_gt].
    exists kl. split_and!; try apply Hi; try done.
    intros Hbm%(lm_target_banned _ _ _ _ Hi). rewrite Hbm in Hban. apply Z.ltb_ge in Hban.
    exists (mi_ban_level i). split; [apply Hi|done].
Qed.

Lemma check_joined_room_Ok o u r :
  _check_joined_room o u r = Ok tt → ∃ e, o = Some e ∧ membership e = Ok (JStr Membership.JOIN).
Proof.
  unfold _check_joined_room. intros H. apply bind_Ok in H as (j & Hj & H).
  rewrite raise_if_Ok, negb_false_iff in H. subst j. by apply membership_is_true.
Qed.

(** C4: An accepted event that is not a create, membership, third-party invite or specially
    treated aliases event is sent by a user joined to the room whose level reaches the level
    required for its type, and where the room has no MSC3757 a state key starting with @ is
    the sender's own id. *)
Theorem accepted_message_sender_joined_with_power `{NA : Netaddr} `{SJ : SignedJson} event state
    (d : StateMap EventBase) b :
  check_state_dependent_auth_rules event state = Ok b → auth_dict_of state = Ok d →
  ev_type event ∉ [EventTypes.Create; EventTypes.Member; EventTypes.ThirdPartyInvite] →
  (ev_type event = EventTypes.Aliases → special_case_aliases_auth (room_version event) = false) →
  member_is d (sender event) Membership.JOIN ∧
  ∃ level needed, get_user_power_level (sender event) d = Ok level ∧
    get_send_level (ev_type event) (ev_state_key event) (get_power_level_event d) = Ok needed ∧
    needed ≤ level ∧
    (∀ sk, ev_state_key event = Some sk → str_startswith "@" sk = true →
      msc3757_enabled (room_version event) = false → sk = sender event).
Proof.
  intros H Hd Ht Ha. rewrite !not_elem_of_cons in Ht. destruct Ht as (Hc & Hm & Htp & _).
  unfold check_state_dependent_auth_rules, check_rules_dict in H. rewrite Hd in H.
  rewrite (proj2 (String.eqb_neq _ _) Hc) in H. cbn in H.
  do 4 (apply bind_Ok in H as (? & _ & H)).
  destruct (String.eqb _ EventTypes.Aliases && _) eqn:Hal.
  { apply andb_true_iff in Hal as [Hal%String.eqb_eq Hsp]. rewrite Ha in Hsp; done. }
  rewrite (proj2 (String.eqb_neq _ _) Hm), (proj2 (String.eqb_neq _ _) Htp) in H.
  apply bind_Ok in H as ([] & Hj & H). apply bind_Ok in H as (? & Hs & _).
  split.
  { unfold _check_event_sender_in_room in Hj. apply bind_Ok in Hj as (? & _ & Hj).
    by apply check_joined_room_Ok in Hj. }
  unfold _can_send_event, user_id, get_state_key in Hs.
  apply bind_Ok in Hs as (sl & Hsl & Hs). apply bind_Ok in Hs as (ul & Hul & Hs).
  apply bind_Ok in Hs as (? & Hlt & Hs). rewrite raise_if_Ok, Z.ltb_ge in Hlt.
  exists ul, sl. split_and!; [done..|]. intros sk Hsk Hat Hmsc.
  rewrite Hsk, Hat, Hmsc in Hs. cbn in Hs.
  by destruct (String.eqb_spec sk (sender event)).
Qed.

(** ** State-independent rules *)

(** The auth events of [event] are all known, in its room, not rejected,
    selected by [auth_types_for_event], and no two have the same key. *)
Record auth_events_ok (auth_events : gmap string EventBase) (room : string)
    (expected : StateKeys) (ids : list string) (dict : StateMap string) : Prop := {
  ae_each : ∀ id, id ∈ ids → ∃ e sk, auth_events !! id = Some e ∧
    ev_room_id e = Some room ∧ ev_state_key e = Some sk ∧ (ev_type e, sk) ∈ expected ∧
    (rejected_reason e = None ∨ rejected_reason e = Some "") ∧
    dict !! (ev_type e, sk) = Some id;
  ae_dict : ∀ k id, dict !! k = Some id → id ∈ ids ∧
    ∃ e, auth_events !! id = Some e ∧ auth_key e = Some k;
  ae_nodup : NoDup ids
}.

Lemma check_auth_event_Ok auth_events room expected (dict dict' : StateMap string) id :
  check_auth_event auth_events room expected dict id = Ok dict' →
  ∃ e sk, auth_events !! id = Some e ∧ ev_room_id e = Some room ∧ ev_state_key e = Some sk ∧
    (ev_type e, sk) ∈ expected ∧ (rejected_reason e = None ∨ rejected_reason e = Some "") ∧
    dict !! (ev_type e, sk) = None ∧ dict' = <[(ev_type e, sk) := id]> dict.
Proof.
  unfold check_auth_event. destruct (auth_events !! id) as [e|]; [|done].
  unfold room_id, state_key. intros H. exists e.
  destruct (ev_room_id e) as [r|]; [|done]. destruct (ev_state_key e) as [sk|]; cbn in H.
  2: { by inv_bind H. }
  inv_bind H. autorewrite with synapse in *. apply (inj Ok) in H as <-.
  apply negb_false_iff, String.eqb_eq in E as ->. apply bool_decide_eq_false in E0, E1.
  exists sk. split_and!; try done.
  - by destruct (decide ((ev_type e, sk) ∈ expected)).
  - destruct (rejected_reason e) as [rr|]; [right|by left].
    by apply negb_false_iff, String.eqb_eq in E2 as ->.
  - by apply eq_None_not_Some.
Qed.

Lemma auth_events_ok_snoc auth_events room expected ids (dict : StateMap string) id e sk :
  auth_events_ok auth_events room expected ids dict →
  auth_events !! id = Some e → ev_room_id e = Some room → ev_state_key e = Some sk →
  (ev_type e, sk) ∈ expected → rejected_reason e = None ∨ rejected_reason e = Some "" →
  dict !! (ev_type e, sk) = None →
  auth_events_ok auth_events room expected (ids ++ [id]) (<[(ev_type e, sk) := id]> dict).
Proof.
  intros [Heach Hdict Hnd] He Hr Hsk Hexp Hrej Hnew.
  assert (id ∉ ids) as Hnin.
  { intros Hin. destruct (Heach id Hin) as (e' & sk' & ? & ? & ? & ? & ? & Hd'). simplify_eq. }
  split.
  - intros id' [Hin|Hin]%elem_of_app.
    + destruct (Heach id' Hin) as (e' & sk' & ? & ? & ? & ? & ? & Hd'). exists e', sk'.
      split_and!; try done. rewrite lookup_insert_ne; [done|]. congruence.
    + apply list_elem_of_singleton in Hin as ->. exists e, sk. split_and!; try done.
      by rewrite lookup_insert_eq.
  - intros k id' Hk. destruct (decide (k = (ev_type e, sk))) as [->|Hne].
    + rewrite lookup_insert_eq in Hk. simplify_eq. split; [set_solver|].
      exists e. split; [done|]. unfold auth_key. by rewrite Hsk.
    + rewrite lookup_insert_ne in Hk by done. destruct (Hdict _ _ Hk) as [? ?].
      split; [set_solver|done].
  - apply NoDup_app. split_and!; [done| |apply NoDup_singleton].
    intros x Hx ->%list_elem_of_singleton. done.
Qed.

(** When check_state_independent_auth_rules accepts an event that is not a create event,
    each of its auth events was found, is in the event's room, has a state key selected by
    auth_types_for_event and not shared with another auth event, and was not rejected; and
    one of them is the create event. *)
Theorem state_independent_rules_accept `{SJ : SignedJson} get_events event batched evs room expected :
  ev_type event ≠ EventTypes.Create →
  fetch_auth_events get_events event batched = Ok evs → ev_room_id event = Some room →
  auth_types_for_event (room_version event) event = Ok expected →
  check_state_independent_auth_rules get_events event batched = Ok tt →
  ∃ dict, auth_events_ok evs room expected (auth_event_ids event) dict ∧
    ∃ create, dict !! (EventTypes.Create, "") = Some create ∧ create ≠ "".
Proof.
  intros Hc Hf Hr Hts H. unfold check_state_independent_auth_rules in H.
  rewrite (proj2 (String.eqb_neq _ _) Hc), Hf in H. unfold room_id in H. rewrite Hr in H. cbn in H.
  rewrite Hts in H. cbn in H. apply bind_Ok in H as (dict & Hfold & H).
  exists dict. split.
  - revert Hfold. apply (foldM_ind_prefix (λ pre dct, auth_events_ok evs room expected pre dct)).
    { split; [set_solver| |constructor]. intros k id. by rewrite lookup_empty. }
    intros pre id post dct dct' _ Hok Hstep.
    apply check_auth_event_Ok in Hstep as (e & sk & ? & ? & ? & ? & ? & ? & ->).
    by apply auth_events_ok_snoc.
  - rewrite raise_if_Ok in H. destruct (dict !! _) as [c|]; [|done].
    exists c. split; [done|]. by apply String.eqb_neq.
Qed.

(** ** Size limits *)

(** The size-limited fields of an event. *)
Definition size_fields (event : EventBase) (rid : string) : list string :=
  [sender event; rid] ++ option_list (ev_state_key event) ++ [ev_type event; event_id event].

Lemma size_check_Ok len up msg s u : size_check len up msg s = Ok u ↔ (len s ≤ 255)%nat.
Proof. unfold size_check. by rewrite raise_if_Ok, Nat.ltb_ge. Qed.

Lemma size_check_Raise len up msg s e : size_check len up msg s = Raise e → e = EventSizeError msg up.
Proof. unfold size_check, raise_if. case_match; naive_solver. Qed.

Lemma check_field_sizes_Ok len up event u :
  check_field_sizes len up event = Ok u ↔
  ∃ rid, ev_room_id event = Some rid ∧ Forall (λ s, (len s ≤ 255)%nat) (size_fields event rid).
Proof.
  unfold check_field_sizes, room_id, state_key, is_state, get_state_key, size_fields, user_id.
  destruct u.
  destruct (ev_room_id event) as [rid|]; cbn.
  2: { split; [|naive_solver]. intros H. by inv_bind H. }
  destruct (ev_state_key event) as [sk|]; cbn; split.
  1,3: intros H; inv_bind H; rewrite !size_check_Ok in *; eauto 10 using Forall_cons_2.
  all: intros (? & [= <-] & H); repeat (apply Forall_cons in H as [? H]);
    repeat (rewrite (proj2 (size_check_Ok _ _ _ _ tt)) by done; cbn); done.
Qed.

Lemma check_field_sizes_Raise len up event e :
  check_field_sizes len up event = Raise e →
  e = AttributeError "room_id" ∧ ev_room_id event = None ∨ ∃ msg, e = EventSizeError msg up.
Proof.
  unfold check_field_sizes, room_id, state_key, is_state, get_state_key.
  intros [H|(? & _ & H)]%bind_Raise; [right; eauto using size_check_Raise|].
  destruct (ev_room_id event) as [rid|]; [right|left; by simplify_eq/=].
  rewrite bind_Raise in H. destruct H as [?|(? & _ & H)]; [done|].
  repeat (apply bind_Raise in H as [H|(? & _ & H)]); eauto using size_check_Raise.
  destruct (ev_state_key event); cbn in H; [|done]. eauto using size_check_Raise.
Qed.

(** _check_size_limits accepts exactly the events whose encoding is at most 65536 bytes
    and whose user, room, type, event id and state key are at most 255 bytes; it raises the
    persistable size error only in the lenient room versions, for events within the code
    point limits. *)
Theorem size_limits_spec `{SJ : SignedJson} event :
  (_check_size_limits event = Ok tt ↔
    (str_bytes (encode_canonical_json (ev_pdu_json event)) ≤ MAX_PDU_SIZE)%nat ∧
    ∃ rid, ev_room_id event = Some rid ∧
      Forall (λ s, (str_bytes s ≤ 255)%nat) (size_fields event rid)) ∧
  (∀ msg, _check_size_limits event = Raise (EventSizeError msg false) →
    room_version event ∈ LENIENT_EVENT_BYTE_LIMITS_ROOM_VERSIONS ∧
    (str_bytes (encode_canonical_json (ev_pdu_json event)) ≤ MAX_PDU_SIZE)%nat ∧
    ∃ rid, ev_room_id event = Some rid ∧
      Forall (λ s, (str_len s ≤ 255)%nat) (size_fields event rid)).
Proof.
  unfold _check_size_limits. split.
  - rewrite bind_Ok. setoid_rewrite raise_if_Ok. setoid_rewrite Nat.ltb_ge.
    setoid_rewrite bind_Ok. setoid_rewrite check_field_sizes_Ok. split.
    + intros (_ & Hp & _ & _ & Hb). done.
    + intros (Hp & rid & Hr & Hb). exists tt. split; [done|]. exists tt. split; [|eauto].
      exists rid. split; [done|]. eapply Forall_impl; [done|]. intros s Hs.
      pose proof (str_len_le_bytes s). cbn in *. lia.
  - intros msg [H|(? & Hp & H)]%bind_Raise; [by destruct (_ <? _)%nat|].
    rewrite raise_if_Ok, Nat.ltb_ge in Hp.
    apply bind_Raise in H as [H|(? & Hc & H)].
    + apply check_field_sizes_Raise in H as [[? _]|[? ?]]; done.
    + apply check_field_sizes_Ok in Hc.
      apply check_field_sizes_Raise in H as [[? _]|[m Hm]]; [done|].
      injection Hm as -> Hbd. symmetry in Hbd. apply bool_decide_eq_false in Hbd.
      split_and!; [|done|done].
      by destruct (decide (room_version event ∈ LENIENT_EVENT_BYTE_LIMITS_ROOM_VERSIONS)).
Qed.

(** For an event without a room_id, validate_event_for_room_version raises
    AttributeError or a size error from the size check it runs first: the AuthError its
    hasattr test is meant to raise is never reached. *)
Theorem validate_missing_room_id `{SJ : SignedJson} event :
  ev_room_id event = None →
  validate_event_for_room_version event = Raise (AttributeError "room_id") ∨
  ∃ msg up, validate_event_for_room_version event = Raise (EventSizeError msg up).
Proof.
  intros Hr. unfold validate_event_for_room_version.
  destruct (_check_size_limits event) as [[]|e] eqn:E.
  - unfold _check_size_limits in E. inv_bind E. apply check_field_sizes_Ok in E1 as (? & ? & _).
    congruence.
  - assert (e = AttributeError "room_id" ∨ ∃ msg up, e = EventSizeError msg up) as [->|(m & u & ->)];
      [|by left|by eauto].
    unfold _check_size_limits in E. apply bind_Raise in E as [E|(? & _ & E)].
    { destruct (_ <? _)%nat; simplify_eq/=; eauto. }
    apply bind_Raise in E as [E|(? & _ & E)];
      apply check_field_sizes_Raise in E as [[-> _]|[m ->]]; eauto.
Qed.
