(* ===== verification/StateFilter.v ===== *)
(** * State filters: [synapse/types/state.py]

    [StateFilter] selects part of a room's state. [types] maps a type to the
    set of its wanted state keys, [None] meaning all of them. The methods are
    translated one by one; [keys_for] gives each filter its meaning, against
    which they are specified. *)

From S2P Require Import Prelude PyJson RoomVersions Event.

Abbreviation TypesMap := (@gmap string String.eq_dec String.countable (option StrSet)).

Record StateFilter := { types : TypesMap; include_others : bool }.

(** ** Construction *)

(** [StateFilter(types, include_others)]: the constructor with its
    [__attrs_post_init__], which drops wildcards when [include_others] is set
    and empty sets otherwise. *)
Definition mkStateFilter (ts : TypesMap) (others : bool) : StateFilter :=
  if others then
    {| types := filter (λ kv, kv.2 ≠ None) ts; include_others := true |}
  else
    {| types := filter (λ kv, kv.2 ≠ Some ∅) ts; include_others := false |}.

Definition _ALL_STATE_FILTER : StateFilter := mkStateFilter ∅ true.
Definition _ALL_NON_MEMBER_STATE_FILTER : StateFilter :=
  mkStateFilter {[ EventTypes.Member := Some ∅ ]} true.
Definition _NONE_STATE_FILTER : StateFilter := mkStateFilter ∅ false.

(** [StateFilter.all()], [StateFilter.none()] *)
Definition sf_all : StateFilter := _ALL_STATE_FILTER.
Definition sf_none : StateFilter := _NONE_STATE_FILTER.

(** One iteration of the loop of [from_types]. *)
Definition from_types_step (type_dict : TypesMap) (ts : string * option string) : TypesMap :=
  let '(typ, s) := ts in
  match type_dict !! typ with
  | Some None => type_dict
  | entry =>
      match s with
      | None => <[typ := None]> type_dict
      | Some s => <[typ := Some ({[s]} ∪ default ∅ (mjoin entry))]> type_dict
      end
  end.

Definition from_types (l : list (string * option string)) : StateFilter :=
  mkStateFilter (foldl from_types_step ∅ l) false.

Definition to_types (f : StateFilter) : list (string * option string) :=
  map_to_list (types f) ≫= λ kv,
    match kv.2 with
    | None => [(kv.1, None)]
    | Some ks => (λ s, (kv.1, Some s)) <$> elements ks
    end.

Definition from_lazy_load_member_list (members : list string) : StateFilter :=
  mkStateFilter {[ EventTypes.Member := Some (list_to_set members) ]} true.

Definition freeze (ts : TypesMap) (others : bool) : StateFilter := mkStateFilter ts others.

(** ** Queries *)

Definition is_full (f : StateFilter) : bool := include_others f && bool_decide (types f = ∅).

(** [any(state_keys is None for ...)] *)
Definition any_wildcard (ts : TypesMap) : bool :=
  existsb (λ kv, match kv.2 with None => true | Some _ => false end) (map_to_list ts).

Definition has_wildcards (f : StateFilter) : bool := include_others f || any_wildcard (types f).

Definition concrete_types (f : StateFilter) : list (string * string) :=
  map_to_list (types f) ≫= λ kv,
    match kv.2 with None => [] | Some ks => (λ s, (kv.1, s)) <$> elements ks end.

Definition wildcard_types (f : StateFilter) : list string :=
  map_to_list (types f) ≫= λ kv, match kv.2 with None => [kv.1] | Some _ => [] end.

Definition max_entries_returned (f : StateFilter) : option nat :=
  if has_wildcards f then None else Some (length (concrete_types f)).

(** [__contains__], on a pair of strings. *)
Definition contains (f : StateFilter) (key : StateKey) : bool :=
  let '(typ, state_key) := key in
  match types f !! typ with
  | Some None => true
  | Some (Some ks) => bool_decide (state_key ∈ ks)
  | None => include_others f
  end.

(** [__bool__] *)
Definition sf_bool (f : StateFilter) : bool :=
  if include_others f then true else negb (bool_decide (types f = ∅)).

Definition filter_state {T} (f : StateFilter) (state_dict : StateMap T) : StateMap T :=
  if is_full f then state_dict
  else
    map_fold (λ k v filtered_state,
      let '(typ, state_key) := k in
      match types f !! typ with
      | Some None => <[k := v]> filtered_state
      | Some (Some ks) =>
          if decide (state_key ∈ ks) then <[k := v]> filtered_state else filtered_state
      | None => if include_others f then <[k := v]> filtered_state else filtered_state
      end) ∅ state_dict.

Definition must_await_full_state (f : StateFilter) (is_mine_id : string → bool) : bool :=
  match types f !! EventTypes.Member with
  | None => include_others f
  | Some None => true
  | Some (Some ks) => existsb (λ state_key, negb (is_mine_id state_key)) (elements ks)
  end.

(** The clauses and their arguments for one type of [types]. *)
Definition sql_clauses_for (etype : string) (state_keys : option StrSet) : list (string * list string) :=
  match state_keys with
  | None => [("(type = ?)", [etype])]
  | Some ks => (λ s, ("(type = ? AND state_key = ?)", [etype; s])) <$> elements ks
  end.

(** [make_sql_filter_clause]: the SQL text and its positional arguments. *)
Definition make_sql_filter_clause (f : StateFilter) : string * list string :=
  if is_full f then ("", [])
  else if negb (include_others f) && bool_decide (types f = ∅) then ("1 = 2", [])
  else
    let clauses := map_to_list (types f) ≫= λ kv, sql_clauses_for kv.1 kv.2 in
    let where_args := clauses ≫= snd in
    let where_clause := String.concat " OR " (clauses.*1) in
    if include_others f then
      let where_clause :=
        if String.eqb where_clause "" then where_clause else (where_clause ++ " OR ")%string in
      let keys := (map_to_list (types f)).*1 in
      ((where_clause ++ "type NOT IN (" ++ String.concat "," ((λ _, "?") <$> keys) ++ ")")%string,
       where_args ++ keys)
    else (where_clause, where_args).

(** ** Derived filters *)

Definition return_expanded (f : StateFilter) : StateFilter :=
  if is_full f then f
  else if negb (has_wildcards f) then f
  else
    let get_all_members :=
      match types f !! EventTypes.Member with
      | Some None => true
      | Some (Some _) => false
      | None => include_others f
      end in
    let has_non_member_wildcard :=
      include_others f || any_wildcard (filter (λ kv, kv.1 ≠ EventTypes.Member) (types f)) in
    if negb has_non_member_wildcard then f
    else if get_all_members then sf_all
    else
      match types f !! EventTypes.Member with
      | Some ks => mkStateFilter {[ EventTypes.Member := ks ]} true
      | None => _ALL_NON_MEMBER_STATE_FILTER
      end.

Definition get_member_split (f : StateFilter) : StateFilter * StateFilter :=
  let member_filter :=
    match types f !! EventTypes.Member with
    | Some None => sf_all
    | Some (Some ks) => mkStateFilter {[ EventTypes.Member := Some ks ]} false
    | None => if include_others f then sf_all else sf_none
    end in
  let non_member_filter :=
    mkStateFilter (filter (λ kv, kv.1 ≠ EventTypes.Member) (types f)) (include_others f) in
  (member_filter, non_member_filter).

Definition _decompose_into_four_parts (f : StateFilter) :
    (bool * StrSet) * (StrSet * StateKeys) :=
  let is_all := include_others f in
  let excluded_types : StrSet := if is_all then dom (types f) else ∅ in
  let wildcards : StrSet := dom (filter (λ kv, kv.2 = None) (types f)) in
  let concrete_keys : StateKeys := list_to_set (concrete_types f) in
  ((is_all, excluded_types), (wildcards, concrete_keys)).

(** One iteration of [for state_type, state_key in plus_state_keys]. *)
Definition recompose_step (all_part : bool) (new_types : TypesMap) (key : StateKey) : TypesMap :=
  let '(state_type, state_key) := key in
  match new_types !! state_type with
  | Some (Some entry) => <[state_type := Some ({[state_key]} ∪ entry)]> new_types
  | Some None => new_types
  | None => if all_part then new_types else <[state_type := Some {[state_key]}]> new_types
  end.

Definition _recompose_from_four_parts (all_part : bool) (minus_wildcards plus_wildcards : StrSet)
    (plus_state_keys : StateKeys) : StateFilter :=
  let new_types : TypesMap :=
    if all_part then gset_to_gmap (Some (∅ : StrSet)) minus_wildcards else ∅ in
  let new_types := gset_to_gmap None plus_wildcards ∪ new_types in
  let new_types := foldl (recompose_step all_part) new_types (elements plus_state_keys) in
  freeze new_types all_part.

Definition approx_difference (self other : StateFilter) : StateFilter :=
  let '((self_all, self_excludes), (self_wildcards, self_concrete_keys)) :=
    _decompose_into_four_parts self in
  let '((other_all, other_excludes), (other_wildcards, other_concrete_keys)) :=
    _decompose_into_four_parts other in
  let new_all := self_all in
  let new_excludes := self_excludes ∪ other_wildcards in
  let new_wildcards := self_wildcards ∖ other_wildcards in
  let new_concrete_keys :=
    filter (λ k : StateKey, k.1 ∉ other_wildcards) self_concrete_keys ∖ other_concrete_keys in
  if other_all then
    let new_wildcards :=
      if self_all then new_wildcards ∪ (other_excludes ∖ self_excludes) else new_wildcards in
    let new_wildcards := new_wildcards ∩ other_excludes in
    let new_concrete_keys :=
      filter (λ k : StateKey, k.1 ∈ other_excludes) new_concrete_keys in
    _recompose_from_four_parts false ∅ new_wildcards new_concrete_keys
  else _recompose_from_four_parts new_all new_excludes new_wildcards new_concrete_keys.

(** ** Meaning *)

(** The state keys a filter selects for a type; [None]: all of them. *)
Definition keys_for (f : StateFilter) (t : string) : option StrSet :=
  match types f !! t with
  | Some ks => ks
  | None => if include_others f then None else Some ∅
  end.

Lemma keys_for_eq f t :
  keys_for f t = match types f !! t with
                 | Some ks => ks
                 | None => if include_others f then None else Some ∅
                 end.
Proof. done. Qed.

(** Filters as the constructor leaves them. *)
Definition canonical (f : StateFilter) : Prop :=
  ∀ t, types f !! t ≠ Some (if include_others f then None else Some ∅).

Lemma contains_keys_for f t k :
  contains f (t, k) = match keys_for f t with None => true | Some ks => bool_decide (k ∈ ks) end.
Proof.
  unfold contains, keys_for. destruct (types f !! t) as [[ks|]|]; [done..|].
  destruct (include_others f); [done|]. by rewrite bool_decide_eq_false_2 by set_solver.
Qed.

Lemma mkStateFilter_canonical ts b : canonical (mkStateFilter ts b).
Proof.
  intros t. unfold mkStateFilter.
  destruct b; cbn; rewrite map_lookup_filter_Some; naive_solver.
Qed.

Lemma mkStateFilter_keys ts b t :
  keys_for (mkStateFilter ts b) t = default (if b then None else Some ∅) (ts !! t).
Proof.
  unfold keys_for, mkStateFilter.
  assert (∀ (P : string * option StrSet → Prop) `{!∀ x, Decision (P x)},
    filter P ts !! t = match ts !! t with
                       | Some v => if decide (P (t, v)) then Some v else None
                       | None => None end) as Hf.
  { intros P HP. rewrite map_lookup_filter. destruct (ts !! t); cbn; [|done].
    by case_guard. }
  destruct b; cbn; rewrite Hf; destruct (ts !! t) as [v|]; cbn; try done;
    case_decide as Hv; try done; cbn in Hv; by destruct (dec_stable Hv).
Qed.

Lemma mkStateFilter_others ts b : include_others (mkStateFilter ts b) = b.
Proof. by destruct b. Qed.

(** Canonical filters with the same meaning are equal. *)
Lemma canonical_ext f g :
  canonical f → canonical g → include_others f = include_others g →
  (∀ t, keys_for f t = keys_for g t) → f = g.
Proof.
  intros Hf Hg Ho Hk. destruct f as [ft fo], g as [gt go]; cbn in *; subst go.
  f_equal. apply map_eq. intros t. specialize (Hf t). specialize (Hg t). specialize (Hk t).
  unfold keys_for in Hk. cbn in *.
  destruct (ft !! t), (gt !! t); naive_solver.
Qed.

Lemma canonical_make f : canonical f → f = mkStateFilter (types f) (include_others f).
Proof.
  intros Hf. apply canonical_ext; [done|apply mkStateFilter_canonical|by rewrite mkStateFilter_others|].
  intros t. rewrite mkStateFilter_keys. unfold keys_for. by destruct (types f !! t).
Qed.

#[export] Hint Resolve mkStateFilter_canonical : synapse.

(** ** Parts of a filter *)

Lemma elem_of_concrete_types f t k :
  (t, k) ∈ concrete_types f ↔ ∃ ks, types f !! t = Some (Some ks) ∧ k ∈ ks.
Proof.
  unfold concrete_types. rewrite list_elem_of_bind. split.
  - intros ([t' v] & Hk & Hin). apply elem_of_map_to_list in Hin. cbn in Hk.
    destruct v as [ks|]; [|by apply elem_of_nil in Hk].
    apply list_elem_of_fmap in Hk as (? & ? & Hk). simplify_eq. apply elem_of_elements in Hk. eauto.
  - intros (ks & Ht & Hk). exists (t, Some ks). split; [|by apply elem_of_map_to_list].
    cbn. apply list_elem_of_fmap. exists k. split; [done|]. by apply elem_of_elements.
Qed.

Lemma any_wildcard_true ts : any_wildcard ts = true ↔ ∃ t, ts !! t = Some None.
Proof.
  unfold any_wildcard. rewrite existsb_exists. split.
  - intros ([t v] & Hin & Hv). cbn in Hv. exists t.
    apply list_elem_of_In, elem_of_map_to_list in Hin. by destruct v.
  - intros [t Ht]. exists (t, None). split; [|done].
    by apply list_elem_of_In, elem_of_map_to_list.
Qed.

Lemma any_wildcard_false ts : any_wildcard ts = false ↔ ∀ t, ts !! t ≠ Some None.
Proof. rewrite <-not_true_iff_false, any_wildcard_true. naive_solver. Qed.

(** The state keys paired with a type in a list. *)
Definition keys_of (t : string) (l : list StateKey) : StrSet :=
  list_to_set (snd <$> filter (λ k : StateKey, k.1 = t) l).

Lemma elem_of_keys_of t k l : k ∈ keys_of t l ↔ (t, k) ∈ l.
Proof.
  unfold keys_of. rewrite elem_of_list_to_set, list_elem_of_fmap. split.
  - intros ([t' k'] & -> & Hin). apply list_elem_of_filter in Hin as [? ?]. by simplify_eq/=.
  - intros Hin. exists (t, k). split; [done|]. by apply list_elem_of_filter.
Qed.

Lemma keys_of_cons t key l :
  keys_of t (key :: l) = (if decide (key.1 = t) then {[key.2]} else ∅) ∪ keys_of t l.
Proof.
  apply set_eq. intros k. rewrite elem_of_union, !elem_of_keys_of. destruct key.
  case_decide; cbn in *; set_solver.
Qed.

Lemma recompose_fold_lookup (all : bool) (l : list StateKey) (m : TypesMap) t :
  default (if all then None else Some ∅) (foldl (recompose_step all) m l !! t) =
  match m !! t with
  | Some None => None
  | Some (Some e) => Some (e ∪ keys_of t l)
  | None => if all then None else Some (keys_of t l)
  end.
Proof.
  revert m. induction l as [|[t' k'] l IH]; intros m; cbn [foldl].
  { unfold keys_of; cbn. destruct (m !! t) as [[e|]|]; cbn; [by rewrite union_empty_r_L|done..]. }
  rewrite IH, keys_of_cons. cbn [fst snd]. unfold recompose_step.
  destruct (decide (t' = t)) as [->|Hne].
  - destruct (m !! t) as [[e|]|] eqn:Hm; [| |destruct all];
      rewrite ?lookup_insert_eq, ?Hm; try done; apply (f_equal Some); set_solver.
  - rewrite union_empty_l_L.
    destruct (m !! t') as [[e|]|]; [| |destruct all]; by rewrite ?lookup_insert_ne.
Qed.

Lemma lookup_gset_to_gmap_dec {A} (x : A) (X : StrSet) i :
  gset_to_gmap x X !! i = if bool_decide (i ∈ X) then Some x else None.
Proof. rewrite lookup_gset_to_gmap. case_guard; by case_bool_decide. Qed.

(** The state keys a set of keys has for a type. *)
Definition kof (t : string) (ck : StateKeys) : StrSet := keys_of t (elements ck).

Lemma elem_of_kof t ck k : k ∈ kof t ck ↔ (t, k) ∈ ck.
Proof. unfold kof. by rewrite elem_of_keys_of, elem_of_elements. Qed.

Lemma kof_difference t (A B : StateKeys) : kof t (A ∖ B) = kof t A ∖ kof t B.
Proof.
  apply set_eq. intros k. by rewrite elem_of_difference, !elem_of_kof, elem_of_difference.
Qed.

Lemma kof_filter_in t (W : StrSet) (A : StateKeys) :
  kof t (filter (λ k : StateKey, k.1 ∈ W) A) = if bool_decide (t ∈ W) then kof t A else ∅.
Proof.
  apply set_eq. intros k. rewrite elem_of_kof, elem_of_filter. cbn.
  case_bool_decide; rewrite ?elem_of_kof, ?elem_of_empty; naive_solver.
Qed.

Lemma kof_filter_notin t (W : StrSet) (A : StateKeys) :
  kof t (filter (λ k : StateKey, k.1 ∉ W) A) = if bool_decide (t ∈ W) then ∅ else kof t A.
Proof.
  apply set_eq. intros k. rewrite elem_of_kof, elem_of_filter. cbn.
  case_bool_decide; rewrite ?elem_of_kof, ?elem_of_empty; naive_solver.
Qed.

Lemma recompose_keys (all : bool) (ex wl : StrSet) (ck : StateKeys) t :
  keys_for (_recompose_from_four_parts all ex wl ck) t =
  if bool_decide (t ∈ wl) then None
  else if all then (if bool_decide (t ∈ ex) then Some (kof t ck) else None)
  else Some (kof t ck).
Proof.
  unfold _recompose_from_four_parts, freeze. rewrite mkStateFilter_keys, recompose_fold_lookup.
  rewrite lookup_union, lookup_gset_to_gmap_dec. fold (kof t ck).
  destruct all; [rewrite lookup_gset_to_gmap_dec|rewrite lookup_empty].
  - do 2 destruct (bool_decide _); try done. cbn. by rewrite union_empty_l_L.
  - by destruct (bool_decide _).
Qed.

(** What the parts of a filter say about one type. *)
Record parts_at (f : StateFilter) (t : string) (ex wl : StrSet) (ck : StateKeys) : Prop := {
  pa_ex : bool_decide (t ∈ ex) = include_others f && if types f !! t is Some _ then true else false;
  pa_wl : bool_decide (t ∈ wl) = if types f !! t is Some None then true else false;
  pa_ck : kof t ck = match types f !! t with Some (Some ks) => ks | _ => ∅ end
}.

Lemma decompose_spec f :
  ∃ ex wl ck, _decompose_into_four_parts f = ((include_others f, ex), (wl, ck)) ∧
    ∀ t, parts_at f t ex wl ck.
Proof.
  eexists _, _, _. split; [done|]. intros t. split.
  - destruct (include_others f); [|by apply bool_decide_eq_false_2; set_solver].
    destruct (types f !! t) eqn:E; [apply bool_decide_eq_true_2|apply bool_decide_eq_false_2].
    + by apply elem_of_dom_2 in E.
    + by apply not_elem_of_dom.
  - case_bool_decide as H.
    + apply elem_of_dom in H as [v Hv]. apply map_lookup_filter_Some in Hv as [Hv ?].
      cbn in *. subst v. by rewrite Hv.
    + destruct (types f !! t) as [[ks|]|] eqn:E; try done. destruct H.
      apply elem_of_dom. exists None. by apply map_lookup_filter_Some.
  - apply set_eq. intros k. rewrite elem_of_kof, elem_of_list_to_set, elem_of_concrete_types.
    destruct (types f !! t) as [[ks|]|]; set_solver.
Qed.

(** The difference, type by type: exact where it can be expressed, a
    wildcard where [self] has one and [other] only has some keys. *)
Definition keys_difference (self other : option StrSet) : option StrSet :=
  match self, other with
  | _, None => Some ∅
  | None, Some _ => None
  | Some s, Some o => Some (s ∖ o)
  end.

Lemma bool_decide_union (t : string) (A B : StrSet) :
  bool_decide (t ∈ A ∪ B) = bool_decide (t ∈ A) || bool_decide (t ∈ B).
Proof. rewrite <-bool_decide_or. apply bool_decide_ext. set_solver. Qed.
Lemma bool_decide_inter (t : string) (A B : StrSet) :
  bool_decide (t ∈ A ∩ B) = bool_decide (t ∈ A) && bool_decide (t ∈ B).
Proof. rewrite <-bool_decide_and. apply bool_decide_ext. set_solver. Qed.
Lemma bool_decide_diff (t : string) (A B : StrSet) :
  bool_decide (t ∈ A ∖ B) = bool_decide (t ∈ A) && negb (bool_decide (t ∈ B)).
Proof. rewrite <-bool_decide_not, <-bool_decide_and. apply bool_decide_ext. set_solver. Qed.

Lemma approx_difference_keys self other t :
  canonical self → canonical other →
  keys_for (approx_difference self other) t =
  keys_difference (keys_for self t) (keys_for other t).
Proof.
  intros Hs Ho. specialize (Hs t). specialize (Ho t). unfold approx_difference.
  destruct (decompose_spec self) as (ex & wl & ck & -> & Hp).
  destruct (decompose_spec other) as (ex' & wl' & ck' & -> & Hp').
  destruct (Hp t) as [Hex Hwl Hck], (Hp' t) as [Hex' Hwl' Hck'].
  rewrite (keys_for_eq self), (keys_for_eq other). clear Hp Hp'.
  destruct (include_others self), (include_others other); cbv beta iota zeta;
    rewrite recompose_keys, ?kof_filter_in, kof_difference, kof_filter_notin,
      ?bool_decide_inter, ?bool_decide_union, !bool_decide_diff, Hck, Hck', Hwl, Hwl', ?Hex, ?Hex';
    destruct (types self !! t) as [[s|]|], (types other !! t) as [[o|]|]; try done; cbn;
    f_equal; set_solver.
Qed.

(** approx_difference selects, for each type, the difference of what the two filters
    select, or all of the first where a difference is not expressible: it keeps every state
    key the first filter selects and the second does not, and nothing outside the first. *)
Theorem approx_difference_spec self other :
  canonical self → canonical other →
  (∀ t, keys_for (approx_difference self other) t =
        keys_difference (keys_for self t) (keys_for other t)) ∧
  (∀ k, contains self k = true → contains other k = false →
        contains (approx_difference self other) k = true) ∧
  (∀ k, contains (approx_difference self other) k = true → contains self k = true).
Proof.
  intros Hs Ho. split; [intros; by apply approx_difference_keys|].
  split; intros [t k]; rewrite !contains_keys_for, approx_difference_keys by done;
    unfold keys_difference; destruct (keys_for self t) as [s|], (keys_for other t) as [o|];
    rewrite ?bool_decide_eq_true, ?bool_decide_eq_false; set_solver.
Qed.

(** Decomposing a state filter into its four parts and recomposing it gives the same
    filter. *)
Theorem recompose_decompose f :
  canonical f →
  let '((all, ex), (wl, ck)) := _decompose_into_four_parts f in
  _recompose_from_four_parts all ex wl ck = f.
Proof.
  intros Hf. destruct (decompose_spec f) as (ex & wl & ck & -> & Hp).
  apply canonical_ext; [apply mkStateFilter_canonical|done|apply mkStateFilter_others|].
  intros t. destruct (Hp t) as [Hex Hwl Hck]. specialize (Hf t).
  rewrite recompose_keys, Hwl, Hex, Hck, keys_for_eq.
  destruct (include_others f), (types f !! t) as [[ks|]|]; done.
Qed.

(** ** Filtering a state map *)

Lemma filter_state_lookup {T} f (m : StateMap T) k :
  filter_state f m !! k = if contains f k then m !! k else None.
Proof.
  unfold filter_state. destruct (is_full f) eqn:Hfull.
  { apply andb_true_iff in Hfull as [Ho Ht%bool_decide_eq_true]. destruct k as [t s].
    unfold contains. rewrite Ht, lookup_empty. by rewrite Ho. }
  revert k. apply (map_fold_weak_ind (λ (r m : StateMap T),
    ∀ k, r !! k = if contains f k then m !! k else None)); clear m.
  { intros k. rewrite lookup_empty. by case_match. }
  intros k v m r Hk IH k'. destruct k as [t s].
  assert (∀ r', r' = (if contains f (t, s) then <[(t, s) := v]> r else r) →
    r' !! k' = if contains f k' then <[(t, s) := v]> m !! k' else None) as Hr.
  { intros r' ->. destruct (decide (k' = (t, s))) as [->|Hne].
    - rewrite lookup_insert_eq. destruct (contains f (t, s)) eqn:Hc; [apply lookup_insert_eq|].
      rewrite IH, Hc. done.
    - rewrite (lookup_insert_ne m) by done.
      destruct (contains f (t, s)); [rewrite lookup_insert_ne by done|]; apply IH. }
  apply Hr. unfold contains. destruct (types f !! t) as [[ks|]|]; try done.
  by case_bool_decide; case_decide.
Qed.

(** ** [from_types] and [to_types] *)

(** The filter a list of pairs asks for, type by type. *)
Definition wanted_keys (l : list (string * option string)) (t : string) : option StrSet :=
  if decide ((t, None) ∈ l) then None
  else Some (list_to_set (omap (λ p, if decide (p.1 = t) then p.2 else None) l)).

Lemma wanted_keys_spec l t k :
  match wanted_keys l t with None => True | Some ks => k ∈ ks end ↔
  (t, None) ∈ l ∨ (t, Some k) ∈ l.
Proof.
  unfold wanted_keys. case_decide as Hn; [naive_solver|].
  rewrite elem_of_list_to_set, list_elem_of_omap. split.
  - intros ([t' o] & Hin & Ho). cbn in Ho. case_decide; simplify_eq/=. by right.
  - intros [?|Hin]; [done|]. exists (t, Some k). split; [done|]. cbn. by case_decide.
Qed.

Lemma wanted_keys_snoc l t p :
  wanted_keys (l ++ [p]) t =
  if decide (p.1 = t) then
    match wanted_keys l t, p.2 with
    | None, _ | _, None => None
    | Some ks, Some k => Some ({[k]} ∪ ks)
    end
  else wanted_keys l t.
Proof.
  unfold wanted_keys. destruct p as [t' o]. cbn [fst snd].
  assert ((t, None) ∈ l ++ [(t', o)] ↔ (t, None) ∈ l ∨ t' = t ∧ o = None) as Hin.
  { rewrite elem_of_app, list_elem_of_singleton. naive_solver. }
  rewrite omap_app. cbn.
  destruct (decide ((t, None) ∈ l)) as [H1|H1].
  { rewrite decide_True by tauto. by case_decide. }
  destruct (decide (t' = t)) as [->|Hne]; cbn.
  - destruct o as [k|]; [rewrite decide_False by naive_solver|by rewrite decide_True by naive_solver].
    apply (f_equal Some). set_solver.
  - rewrite decide_False by naive_solver. apply (f_equal Some). by rewrite app_nil_r.
Qed.

Lemma from_types_fold l t :
  default (Some ∅) (foldl from_types_step ∅ l !! t) = wanted_keys l t.
Proof.
  induction l as [|[t' o] l IH] using rev_ind; [done|].
  rewrite foldl_app, wanted_keys_snoc, <-IH. cbn [foldl fst snd].
  generalize (foldl from_types_step ∅ l). intros m. unfold from_types_step.
  destruct (decide (t' = t)) as [->|Hne].
  - destruct (m !! t) as [[ks|]|] eqn:E, o as [k|]; cbn;
      rewrite ?lookup_insert_eq, ?E; cbn; try done.
  - destruct (m !! t') as [[ks|]|] eqn:E, o as [k|]; cbn; by rewrite ?lookup_insert_ne.
Qed.

Lemma from_types_keys l t : keys_for (from_types l) t = wanted_keys l t.
Proof. unfold from_types. by rewrite mkStateFilter_keys, from_types_fold. Qed.

Lemma elem_of_to_types f t o :
  (t, o) ∈ to_types f ↔
  match o with
  | None => types f !! t = Some None
  | Some k => ∃ ks, types f !! t = Some (Some ks) ∧ k ∈ ks
  end.
Proof.
  unfold to_types. rewrite list_elem_of_bind. split.
  - intros ([t' v] & Hk & Hin). apply elem_of_map_to_list in Hin. cbn in Hk.
    destruct v as [ks|].
    + apply list_elem_of_fmap in Hk as (k & ? & Hk). simplify_eq.
      apply elem_of_elements in Hk. eauto.
    + apply list_elem_of_singleton in Hk. by simplify_eq.
  - destruct o as [k|].
    + intros (ks & Ht & Hk). exists (t, Some ks). split; [|by apply elem_of_map_to_list].
      cbn. apply list_elem_of_fmap. exists k. split; [done|]. by apply elem_of_elements.
    + intros Ht. exists (t, None). split; [|by apply elem_of_map_to_list].
      cbn. by apply list_elem_of_singleton.
Qed.

(** from_types selects exactly the listed types and state keys, and rebuilds from
    to_types any filter that does not include other types. *)
Theorem from_types_roundtrip :
  (∀ l t k, contains (from_types l) (t, k) = true ↔ (t, None) ∈ l ∨ (t, Some k) ∈ l) ∧
  (∀ f, canonical f → include_others f = false → from_types (to_types f) = f).
Proof.
  split.
  - intros l t k. rewrite contains_keys_for, from_types_keys, <-wanted_keys_spec.
    destruct (wanted_keys l t); [by rewrite bool_decide_eq_true|done].
  - intros f Hf Ho.
    apply canonical_ext; [apply mkStateFilter_canonical|done|done|].
    intros t. specialize (Hf t). rewrite Ho in Hf. rewrite from_types_keys, keys_for_eq, Ho.
    unfold wanted_keys. destruct (types f !! t) as [[ks|]|] eqn:E.
    + rewrite decide_False by (rewrite elem_of_to_types; congruence).
      apply (f_equal Some), set_eq. intros k.
      rewrite elem_of_list_to_set, list_elem_of_omap. split.
      * intros ([t' o] & Hin & Hd). cbn in Hd. case_decide; simplify_eq/=.
        apply elem_of_to_types in Hin as (ks' & ? & ?). by simplify_eq.
      * intros Hk. exists (t, Some k). split; [apply elem_of_to_types; eauto|].
        cbn. by case_decide.
    + by rewrite decide_True by (by apply elem_of_to_types).
    + rewrite decide_False by (rewrite elem_of_to_types; congruence).
      apply (f_equal Some), set_eq. intros k.
      rewrite elem_of_list_to_set, list_elem_of_omap. split; [|set_solver].
      intros ([t' o] & Hin & Hd). cbn in Hd. case_decide; simplify_eq/=.
      apply elem_of_to_types in Hin as (ks' & ? & ?). by simplify_eq.
Qed.

(** ** Filtering and bounds *)

Lemma has_wildcards_false f :
  has_wildcards f = false → include_others f = false ∧ ∀ t, types f !! t ≠ Some None.
Proof. intros [? Hw]%orb_false_iff. rewrite any_wildcard_false in Hw. done. Qed.

Lemma concrete_types_complete f k :
  has_wildcards f = false → contains f k = true → k ∈ concrete_types f.
Proof.
  intros [Ho Hw]%has_wildcards_false Hc. destruct k as [t k].
  apply elem_of_concrete_types. unfold contains in Hc.
  specialize (Hw t). destruct (types f !! t) as [[ks|]|]; [|done|congruence].
  apply bool_decide_eq_true in Hc. eauto.
Qed.

(** filter_state keeps exactly the entries whose key the filter contains, at most
    max_entries_returned of them where that is a number. *)
Theorem filter_state_spec {T} (f : StateFilter) (m : StateMap T) :
  (∀ k, filter_state f m !! k = if contains f k then m !! k else None) ∧
  (∀ n, max_entries_returned f = Some n → (size (filter_state f m) ≤ n)%nat).
Proof.
  split; [intros; apply filter_state_lookup|].
  unfold max_entries_returned. intros n Hn.
  destruct (has_wildcards f) eqn:Hw; [done|]. injection Hn as <-.
  rewrite <-size_dom. etrans; [|apply size_list_to_set_le].
  apply subseteq_size. intros k [v Hv]%elem_of_dom.
  rewrite filter_state_lookup in Hv. destruct (contains f k) eqn:Hc; [|done].
  by apply elem_of_list_to_set, concrete_types_complete.
Qed.

(** ** Derived filters *)

Lemma sf_all_contains k : contains sf_all k = true.
Proof. destruct k. done. Qed.

Lemma sf_none_contains k : contains sf_none k = false.
Proof. destruct k. done. Qed.

(** Whether a wildcard of [f] covers a type other than members. *)
Definition non_member_wildcard (f : StateFilter) : Prop :=
  include_others f = true ∨ ∃ t, t ≠ EventTypes.Member ∧ types f !! t = Some None.

Lemma non_member_wildcard_spec f :
  include_others f || any_wildcard (filter (λ kv, kv.1 ≠ EventTypes.Member) (types f)) = true
  ↔ non_member_wildcard f.
Proof.
  rewrite orb_true_iff, any_wildcard_true. unfold non_member_wildcard.
  setoid_rewrite map_lookup_filter_Some. cbn. naive_solver.
Qed.

Lemma contains_singleton_others ks k :
  contains (mkStateFilter {[ EventTypes.Member := Some ks ]} true) k =
  if decide (k.1 = EventTypes.Member) then bool_decide (k.2 ∈ ks) else true.
Proof.
  destruct k as [t k]. rewrite contains_keys_for, mkStateFilter_keys. cbn [fst snd].
  case_decide as H; [subst t; by rewrite lookup_singleton_eq|by rewrite lookup_singleton_ne].
Qed.

(** What [return_expanded] returns: everything that is not a member event is
    added as soon as one wildcard covers some of it. *)
Lemma return_expanded_contains f k :
  canonical f →
  contains (return_expanded f) k =
  contains f k || (if decide (k.1 = EventTypes.Member) then false
                   else include_others f ||
                     any_wildcard (filter (λ kv, kv.1 ≠ EventTypes.Member) (types f))).
Proof.
  intros Hf. unfold return_expanded.
  destruct (is_full f) eqn:Hfull.
  { apply andb_true_iff in Hfull as [Ho Ht%bool_decide_eq_true]. destruct k as [t s].
    unfold contains. by rewrite Ht, lookup_empty, Ho. }
  set (nmw := include_others f || any_wildcard _).
  destruct (has_wildcards f) eqn:Hw; cbn [negb].
  2:{ apply has_wildcards_false in Hw as [Ho Hw].
      assert (nmw = false) as ->.
      { unfold nmw. rewrite Ho. cbn. apply any_wildcard_false. intros t.
        rewrite map_lookup_filter_Some. naive_solver. }
      case_decide; by rewrite orb_false_r. }
  destruct nmw eqn:Hn; cbn [negb]; [|case_decide; by rewrite orb_false_r].
  destruct k as [t k]. cbn [fst].
  specialize (Hf EventTypes.Member).
  destruct (types f !! EventTypes.Member) as [[ks|]|] eqn:Hm; cbv iota.
  - rewrite contains_singleton_others. cbn. case_decide as Ht.
    + subst t. unfold contains. rewrite Hm. by rewrite orb_false_r.
    + by rewrite orb_true_r.
  - case_decide as Ht; [subst t; unfold contains; by rewrite Hm|by rewrite orb_true_r].
  - destruct (include_others f) eqn:Ho.
    + case_decide as Ht; [subst t; unfold contains; by rewrite Hm, Ho|by rewrite orb_true_r].
    + unfold _ALL_NON_MEMBER_STATE_FILTER. rewrite contains_singleton_others. cbn.
      case_decide as Ht; [subst t; unfold contains; by rewrite Hm, Ho|by rewrite orb_true_r].
Qed.

(** return_expanded selects at least what the filter selects and the same memberships;
    it selects all state of other types when the filter has a wildcard outside memberships,
    and otherwise is the same filter. *)
Theorem return_expanded_spec f :
  canonical f →
  (∀ k, contains f k = true → contains (return_expanded f) k = true) ∧
  (∀ u, contains (return_expanded f) (EventTypes.Member, u) = contains f (EventTypes.Member, u)) ∧
  (non_member_wildcard f →
     ∀ t s, t ≠ EventTypes.Member → contains (return_expanded f) (t, s) = true) ∧
  (¬ non_member_wildcard f → ∀ k, contains (return_expanded f) k = contains f k).
Proof.
  intros Hf. split_and!.
  - intros k Hk. by rewrite return_expanded_contains, Hk.
  - intros u. rewrite return_expanded_contains by done. apply orb_false_r.
  - intros Hn%non_member_wildcard_spec t s Ht. rewrite return_expanded_contains, Hn by done.
    cbn. rewrite decide_False by done. apply orb_true_r.
  - intros Hn k. rewrite <-non_member_wildcard_spec in Hn. apply not_true_is_false in Hn.
    rewrite return_expanded_contains, Hn by done. case_decide; apply orb_false_r.
Qed.

(** get_member_split splits a filter into one that agrees with it on memberships and
    one that agrees with it on all other types. *)
Theorem get_member_split_spec f t s :
  contains (if decide (t = EventTypes.Member) then (get_member_split f).1
            else (get_member_split f).2) (t, s) = contains f (t, s).
Proof.
  unfold get_member_split. cbn [fst snd]. case_decide as Ht.
  - subst t. rewrite (contains_keys_for f). unfold keys_for.
    destruct (types f !! EventTypes.Member) as [[ks|]|]; [|done|].
    + rewrite contains_keys_for, mkStateFilter_keys. by rewrite lookup_singleton_eq.
    + destruct (include_others f); [done|]. cbn. by rewrite bool_decide_eq_false_2 by set_solver.
  - rewrite !contains_keys_for, mkStateFilter_keys. unfold keys_for.
    rewrite map_lookup_filter. destruct (types f !! t); cbn; [by case_guard|done].
Qed.

(** must_await_full_state is false exactly when every membership the filter selects is
    of a local user (there being a remote user at all). *)
Theorem must_await_full_state_spec f is_mine_id :
  (must_await_full_state f is_mine_id = false →
   ∀ u, contains f (EventTypes.Member, u) = true → is_mine_id u = true) ∧
  ((∃ r, is_mine_id r = false) →
   (∀ u, contains f (EventTypes.Member, u) = true → is_mine_id u = true) →
   must_await_full_state f is_mine_id = false).
Proof.
  unfold must_await_full_state, contains.
  destruct (types f !! EventTypes.Member) as [[ks|]|].
  - split.
    + intros He u Hu%bool_decide_eq_true. apply dec_stable. intros Hm%not_true_is_false.
      apply not_true_iff_false in He. destruct He. apply existsb_exists. exists u.
      rewrite Hm. split; [by apply list_elem_of_In, elem_of_elements|done].
    + intros _ Hu. apply not_true_iff_false. intros (u & Hin & Hm)%existsb_exists.
      apply list_elem_of_In, elem_of_elements in Hin.
      by rewrite Hu in Hm by (by apply bool_decide_eq_true_2).
  - split; [done|]. intros [r Hr] Hu. rewrite Hu in Hr; done.
  - split; [by intros ->|]. intros [r Hr] Hu. destruct (include_others f); [|done].
    rewrite Hu in Hr; done.
Qed.

(** ** The SQL clause *)

(** The fragment of SQL conditions the clauses are written in: a disjunction
    of atoms with [?] placeholders, read against a row's type and state key. *)
Inductive sql_atom := TypeIs | TypeAndKeyAre | TypeNotIn (n : nat) | OneIsTwo.

Definition render_atom (a : sql_atom) : string :=
  match a with
  | TypeIs => "(type = ?)"
  | TypeAndKeyAre => "(type = ? AND state_key = ?)"
  | TypeNotIn n => "type NOT IN (" ++ String.concat "," (replicate n "?") ++ ")"
  | OneIsTwo => "1 = 2"
  end.

Definition render_sql (c : list sql_atom) : string := String.concat " OR " (render_atom <$> c).

(** The value of a disjunction on a row, its placeholders filled from [args]
    in order; [None] when the number of arguments is wrong. *)
Fixpoint eval_sql (c : list sql_atom) (args : list string) (row : StateKey) : option bool :=
  match c with
  | [] => match args with [] => Some false | _ => None end
  | TypeIs :: c =>
      match args with
      | t :: args => orb (bool_decide (row.1 = t)) <$> eval_sql c args row
      | _ => None
      end
  | TypeAndKeyAre :: c =>
      match args with
      | t :: s :: args => orb (bool_decide (row = (t, s))) <$> eval_sql c args row
      | _ => None
      end
  | TypeNotIn n :: c =>
      if decide (length args < n)%nat then None
      else orb (bool_decide (row.1 ∉ take n args)) <$> eval_sql c (drop n args) row
  | OneIsTwo :: c => eval_sql c args row
  end.

(** Whether a row is selected by a clause; the empty text is no restriction. *)
Definition sql_selects (sql : string) (c : list sql_atom) (args : list string) (row : StateKey) :
    option bool :=
  if String.eqb sql "" then Some true else eval_sql c args row.

Definition atoms_for (state_keys : option StrSet) : list sql_atom :=
  match state_keys with
  | None => [TypeIs]
  | Some ks => (λ _, TypeAndKeyAre) <$> elements ks
  end.

Lemma concat_snoc sep (l : list string) (x : string) :
  String.concat sep (l ++ [x]) =
  match l with [] => x | _ => (String.concat sep l ++ sep ++ x)%string end.
Proof.
  destruct l as [|a l]; [done|]. revert a. induction l as [|b l IH]; intros a; [done|].
  specialize (IH b). cbn in *. rewrite IH.
  by rewrite <-!string_app_assoc.
Qed.

Lemma concat_empty sep (l : list string) :
  (∀ x, x ∈ l → x ≠ ""%string) → String.concat sep l = ""%string → l = [].
Proof.
  destruct l as [|a [|b l]]; intros Hne; cbn; [done| |].
  - intros ->. by destruct (Hne ""%string (list_elem_of_here _ _)).
  - pose proof (Hne a (list_elem_of_here _ _)). by destruct a.
Qed.

(** Clauses that come from atoms: same text, and the arguments they read. *)
Lemma sql_clauses_for_atoms t ks :
  (sql_clauses_for t ks).*1 = render_atom <$> atoms_for ks.
Proof. destruct ks as [ks|]; [|done]. cbn. by rewrite <-!list_fmap_compose. Qed.

Lemma eval_sql_clauses_for t ks c args row :
  eval_sql (atoms_for ks ++ c) ((sql_clauses_for t ks ≫= snd) ++ args) row =
  orb (match ks with
       | None => bool_decide (row.1 = t)
       | Some ks => bool_decide (row.1 = t ∧ row.2 ∈ ks)
       end) <$> eval_sql c args row.
Proof.
  destruct ks as [ks|]; [|done]. cbn.
  rewrite (bool_decide_ext _ (row.1 = t ∧ row.2 ∈ elements ks)) by (by rewrite elem_of_elements).
  induction (elements ks) as [|s l IH]; cbn.
  - rewrite bool_decide_eq_false_2 by set_solver. by destruct (eval_sql c args row).
  - rewrite IH. destruct (eval_sql c args row); [cbn; f_equal|done].
    rewrite orb_assoc. f_equal. rewrite <-bool_decide_or. apply bool_decide_ext.
    destruct row; cbn. set_solver.
Qed.

(** Whether an entry of [types] selects a row. *)
Definition entry_selects (row : StateKey) (kv : string * option StrSet) : bool :=
  match kv.2 with
  | None => bool_decide (row.1 = kv.1)
  | Some ks => bool_decide (row.1 = kv.1 ∧ row.2 ∈ ks)
  end.

Lemma eval_sql_entries l c args row :
  eval_sql ((l ≫= λ kv, atoms_for kv.2) ++ c)
           (((l ≫= λ kv, sql_clauses_for kv.1 kv.2) ≫= snd) ++ args) row =
  orb (existsb (entry_selects row) l) <$> eval_sql c args row.
Proof.
  induction l as [|[t ks] l IH]; [cbn; by destruct (eval_sql c args row)|].
  cbn. rewrite bind_app, <-!app_assoc, eval_sql_clauses_for, IH.
  destruct (eval_sql c args row); [cbn; f_equal|done]. by rewrite orb_assoc.
Qed.

Lemma existsb_entry_selects f row :
  existsb (entry_selects row) (map_to_list (types f)) =
  match types f !! row.1 with
  | Some None => true
  | Some (Some ks) => bool_decide (row.2 ∈ ks)
  | None => false
  end.
Proof.
  apply eq_true_iff_eq. rewrite existsb_exists. split.
  - intros ([t ks] & Hin%list_elem_of_In%elem_of_map_to_list & Hs).
    unfold entry_selects in Hs. cbn in Hs.
    destruct ks; apply bool_decide_eq_true in Hs; [destruct Hs as [-> ?]|subst t]; rewrite Hin; [|done].
    by apply bool_decide_eq_true_2.
  - intros H. destruct (types f !! row.1) as [ks|] eqn:E; [|done].
    exists (row.1, ks). split; [by apply list_elem_of_In, elem_of_map_to_list|].
    unfold entry_selects; cbn. destruct ks; apply bool_decide_eq_true_2; [|done].
    by apply bool_decide_eq_true in H.
Qed.

(** The condition [make_sql_filter_clause] writes. *)
Definition sql_of_filter (f : StateFilter) : list sql_atom :=
  if negb (include_others f) && bool_decide (types f = ∅) then [OneIsTwo]
  else (map_to_list (types f) ≫= λ kv, atoms_for kv.2) ++
       if include_others f then [TypeNotIn (size (types f))] else [].

Lemma clauses_text l :
  (l ≫= λ kv, sql_clauses_for kv.1 kv.2).*1 = render_atom <$> (l ≫= λ kv, atoms_for kv.2).
Proof.
  induction l as [|[t ks] l IH]; [done|].
  cbn. by rewrite !fmap_app, sql_clauses_for_atoms, IH.
Qed.

Lemma render_atom_ne a : render_atom a ≠ ""%string.
Proof. by destruct a. Qed.

Lemma make_sql_render f :
  is_full f = false → (make_sql_filter_clause f).1 = render_sql (sql_of_filter f).
Proof.
  unfold make_sql_filter_clause, sql_of_filter, render_sql. intros ->.
  destruct (negb (include_others f) && _); [done|]. cbv zeta.
  rewrite clauses_text. set (l := _ ≫= _). clearbody l.
  destruct (include_others f); [|by rewrite app_nil_r].
  rewrite fmap_app. cbn [fmap list_fmap fst]. rewrite concat_snoc.
  replace ((λ _, "?"%string) <$> (map_to_list (types f)).*1)
    with (replicate (size (types f)) "?"%string).
  2:{ rewrite <-length_map_to_list. induction (map_to_list (types f)); cbn; by f_equal. }
  destruct (String.eqb_spec (String.concat " OR " (render_atom <$> l)) "") as [He|He].
  - rewrite He. apply concat_empty in He; [by destruct l|].
    intros x (a & -> & _)%list_elem_of_fmap. apply render_atom_ne.
  - destruct l; [done|]. cbn [render_atom fmap list_fmap]. by rewrite <-!string_app_assoc.
Qed.

Lemma sql_of_filter_ne f : canonical f → sql_of_filter f ≠ [].
Proof.
  unfold sql_of_filter. intros Hf Hnil.
  destruct (include_others f) eqn:Ho; cbn in Hnil; [by destruct (_ ≫= _)|].
  case_bool_decide as Ht; [done|]. rewrite app_nil_r in Hnil.
  apply map_choose in Ht as (t & ks & Hin). destruct (Hf t). rewrite Hin, Ho. f_equal.
  apply elem_of_map_to_list, list_elem_of_split in Hin as (l1 & l2 & Hl).
  rewrite Hl, bind_app in Hnil. apply app_nil in Hnil as [_ Hnil]. cbn in Hnil.
  apply app_nil in Hnil as [Hks _]. destruct ks as [ks|]; [|done].
  f_equal. apply fmap_nil_inv, elements_empty_inv in Hks. by apply leibniz_equiv.
Qed.

(** The SQL clause and arguments of make_sql_filter_clause select a row exactly when
    the filter contains its type and state key, and the text is the rendering of that
    condition. *)
Theorem make_sql_filter_clause_spec f :
  canonical f →
  (is_full f = false → (make_sql_filter_clause f).1 = render_sql (sql_of_filter f)) ∧
  (∀ row, sql_selects (make_sql_filter_clause f).1 (sql_of_filter f)
            (make_sql_filter_clause f).2 row = Some (contains f row)).
Proof.
  intros Hf. split; [apply make_sql_render|]. intros row.
  destruct (is_full f) eqn:Hfull.
  { unfold make_sql_filter_clause. rewrite Hfull. cbn. destruct row.
    apply andb_true_iff in Hfull as [Ho Ht%bool_decide_eq_true].
    unfold contains. by rewrite Ht, lookup_empty, Ho. }
  unfold sql_selects. rewrite make_sql_render by done.
  pose proof (sql_of_filter_ne f Hf) as Hne.
  destruct (String.eqb_spec (render_sql (sql_of_filter f)) "") as [He|_].
  { apply concat_empty in He; [by apply fmap_nil_inv in He|].
    intros x (a & -> & _)%list_elem_of_fmap. apply render_atom_ne. }
  unfold make_sql_filter_clause, sql_of_filter. rewrite Hfull.
  destruct row as [t s].
  destruct (include_others f) eqn:Ho; cbn [negb andb].
  - cbn [snd]. rewrite eval_sql_entries, existsb_entry_selects. cbn [eval_sql fst snd].
    rewrite decide_False by (rewrite length_fmap, length_map_to_list; lia).
    rewrite take_ge, drop_ge by (rewrite length_fmap, length_map_to_list; lia).
    cbn. f_equal. rewrite orb_false_r.
    unfold contains. rewrite Ho. destruct (types f !! t) as [[ks|]|] eqn:E; [| done |].
    + rewrite (bool_decide_eq_false_2 (t ∉ _)); [by rewrite orb_false_r|].
      intros []. apply list_elem_of_fmap. eexists (t, _). split; [done|].
      by apply elem_of_map_to_list.
    + cbn. apply bool_decide_eq_true_2. intros ([t' ks] & -> & Hin)%list_elem_of_fmap.
      apply elem_of_map_to_list in Hin. cbn in *. congruence.
  - case_bool_decide as Ht; cbn [snd].
    + cbn. unfold contains. by rewrite Ht, lookup_empty, Ho.
    + rewrite app_nil_r. rewrite <-(app_nil_r (_ ≫= snd)), <-(app_nil_r (_ ≫= λ kv, atoms_for _)).
      rewrite eval_sql_entries, existsb_entry_selects. cbn. rewrite orb_false_r. f_equal.
      unfold contains. by rewrite Ho.
Qed.
