(* ===== verification/TopoSort.v ===== *)
(** * [lexicographical_topological_sort] of [synapse/state/v2.py]

    Kahn's algorithm on the nodes without outgoing edges, with a heap that
    breaks ties. The graph is mutated while the sort runs: [outdegree_map] is
    the part of the loop's state that stands for it. Python does not fix the
    order of a set: [SetOrder] is that order. *)

From S2P Require Import Prelude PyOrd.

(** A node and the nodes it references. *)
Abbreviation Graph := (StrMap StrSet).

(** The order in which [for x in s] visits a Python set: the elements of [s],
    each once, in an order the language does not fix. *)
Class SetOrder := {
  iter_set {A} `{Countable A} : gset A → list A;
  iter_set_perm {A} `{Countable A} (X : gset A) : iter_set X ≡ₚ elements X
}.

Section sort.
Context {K : Type} `{PyOrd K} `{Order : SetOrder} (key : string → res K).

(** [reverse_graph.setdefault(edge, set()).add(node)] for each edge, after
    [reverse_graph.setdefault(node, set())]. *)
Definition reverse_node (node : string) (edges : StrSet) (reverse_graph : Graph) : Graph :=
  foldl (λ rg edge, <[edge := {[node]} ∪ default ∅ (rg !! edge)]> rg)
    (<[node := default ∅ (reverse_graph !! node)]> reverse_graph) (iter_set edges).

(** The first loop: [reverse_graph] and the nodes that have no edges. *)
Definition build_reverse (graph : Graph) : Graph := map_fold reverse_node ∅ graph.

Definition initial_heap (graph : Graph) : res (list (K * string)) :=
  traverse (λ node, k ← key node; Ok (k, node))
    (filter (λ kv : string * StrSet, kv.2 = ∅) (map_to_list graph)).*1.

(** [for parent in reverse_graph[node]]: one iteration. *)
Definition visit_parent (node : string) (st : Graph * list (K * string)) (parent : string) :
    res (Graph * list (K * string)) :=
  let '(outdegree_map, heap) := st in
  match outdegree_map !! parent with
  | None => Raise KeyError
  | Some out =>
      let out := out ∖ {[node]} in
      let outdegree_map := <[parent := out]> outdegree_map in
      if decide (out = ∅) then
        k ← key parent; Ok (outdegree_map, heappush heap (k, parent))
      else Ok (outdegree_map, heap)
  end.

(** [while zero_outdegree]; the result lists the nodes in the order they
    are yielded. *)
Fixpoint sort_loop (fuel : nat) (reverse_graph outdegree_map : Graph)
    (zero_outdegree : list (K * string)) : res (list string) :=
  match heappop zero_outdegree with
  | None => Ok []
  | Some ((_, node), zero_outdegree) =>
      match fuel with
      | O => Raise OutOfFuel
      | S fuel =>
          match reverse_graph !! node with
          | None => Raise KeyError
          | Some parents =>
              st ← foldM (visit_parent node) (outdegree_map, zero_outdegree) (iter_set parents);
              rest ← sort_loop fuel reverse_graph st.1 st.2;
              Ok (node :: rest)
          end
      end
  end.

(** Every node is popped at most once: the number of nodes is enough fuel. *)
Definition lexicographical_topological_sort (graph : Graph) : res (list string) :=
  zero_outdegree ← initial_heap graph;
  sort_loop (size graph) (build_reverse graph) graph zero_outdegree.
End sort.

(** ** Specification *)

Lemma elem_of_iter_set `{SetOrder} {A} `{Countable A} (X : gset A) x : x ∈ iter_set X ↔ x ∈ X.
Proof. by rewrite iter_set_perm, elem_of_elements. Qed.

Lemma iter_set_NoDup `{SetOrder} {A} `{Countable A} (X : gset A) : NoDup (iter_set X).
Proof. rewrite iter_set_perm. apply NoDup_elements. Qed.

Lemma iter_set_orders (O O' : SetOrder) {A} `{Countable A} (X : gset A) :
  @iter_set O _ _ _ X ≡ₚ @iter_set O' _ _ _ X.
Proof. by rewrite !iter_set_perm. Qed.

(** [n] can come next once the nodes of [done] have been output. *)
Definition available (graph : Graph) (done : list string) (n : string) : Prop :=
  (n ∉ done) ∧ ∃ edges, graph !! n = Some edges ∧ ∀ e, e ∈ edges → e ∈ done.

(** The greedy order: every node is the least available one when it is
    output, and nothing is available at the end. *)
Record lex_topological {K} `{PyOrd K} (rank : string → K) (graph : Graph) (l : list string) : Prop := {
  lt_greedy pre n post : l = pre ++ n :: post →
    available graph pre n ∧
    (∀ m, available graph pre m → py_leb (rank n, n) (rank m, m) = true);
  lt_complete n : ¬ available graph l n
}.

(** ** The reversed graph *)

Lemma reverse_edges_lookup node (l : list string) (rg : Graph) e n :
  n ∈ default ∅ (foldl (λ rg edge, <[edge := {[node]} ∪ default ∅ (rg !! edge)]> rg) rg l !! e) ↔
  n ∈ default ∅ (rg !! e) ∨ (e ∈ l ∧ n = node).
Proof.
  revert rg. induction l as [|e' l IH]; intros rg; cbn; [set_solver|].
  rewrite IH. destruct (decide (e = e')) as [->|Hne].
  - rewrite lookup_insert_eq. cbn. set_solver.
  - rewrite lookup_insert_ne by done. set_solver.
Qed.

Lemma reverse_edges_dom node (l : list string) (rg : Graph) e :
  is_Some (rg !! e) →
  is_Some (foldl (λ rg edge, <[edge := {[node]} ∪ default ∅ (rg !! edge)]> rg) rg l !! e).
Proof.
  revert rg. induction l as [|e' l IH]; intros rg; cbn; [done|].
  intros He. apply IH. rewrite lookup_insert_is_Some. destruct (decide (e' = e)); auto.
Qed.

(** [m] references [n]. *)
Definition references (graph : Graph) (m n : string) : Prop :=
  ∃ edges, graph !! m = Some edges ∧ n ∈ edges.

Lemma build_reverse_spec `{Order : SetOrder} (graph : Graph) :
  (∀ n, is_Some (graph !! n) → is_Some (build_reverse graph !! n)) ∧
  (∀ n m, m ∈ default ∅ (build_reverse graph !! n) ↔ references graph m n).
Proof.
  unfold build_reverse, references.
  apply (map_fold_weak_ind (λ (rg g : Graph),
    (∀ n, is_Some (g !! n) → is_Some (rg !! n)) ∧
    ∀ n m, m ∈ default ∅ (rg !! n) ↔ ∃ edges, g !! m = Some edges ∧ n ∈ edges)).
  { split; [by intros n [? ?]|]. intros n m. rewrite lookup_empty. cbn. set_solver. }
  intros node edges g rg Hnew [IHd IHe]. unfold reverse_node. split.
  - intros n Hn. apply reverse_edges_dom. rewrite lookup_insert_is_Some.
    rewrite lookup_insert_is_Some in Hn. destruct (decide (node = n)); [by left|].
    right. split; [done|]. apply IHd. naive_solver.
  - intros n m. rewrite reverse_edges_lookup, elem_of_iter_set.
    assert (default ∅ (<[node := default ∅ (rg !! node)]> rg !! n) = default ∅ (rg !! n)) as ->.
    { destruct (decide (n = node)) as [->|]; [by rewrite lookup_insert_eq|].
      by rewrite lookup_insert_ne. }
    rewrite IHe. destruct (decide (m = node)) as [->|Hne].
    + rewrite lookup_insert_eq. naive_solver.
    + rewrite lookup_insert_ne by done. naive_solver.
Qed.

(** Which nodes are available after one more. *)
Lemma available_snoc graph done node n :
  n ≠ node → available graph done n → available graph (done ++ [node]) n.
Proof.
  intros Hne (Hn & es & Hes & Hsub). split; [set_solver|]. exists es. set_solver.
Qed.

Lemma available_unsnoc graph done node n :
  available graph (done ++ [node]) n → ¬ references graph n node →
  n ≠ node ∧ available graph done n.
Proof.
  intros (Hn & es & Hes & Hsub) Hr. split; [set_solver|]. split; [set_solver|].
  exists es. split; [done|]. intros e He. specialize (Hsub e He).
  apply elem_of_app in Hsub as [?| ->%list_elem_of_singleton]; [done|].
  destruct Hr. by exists es.
Qed.

(** ** The loops *)

Section correctness.
Context {K : Type} `{PyOrd K} `{Order : SetOrder} (key : string → res K) (rank : string → K) (graph : Graph).
Hypothesis key_rank : ∀ n, is_Some (graph !! n) → key n = Ok (rank n).

(** Between two iterations of the main loop, [done] having been output. *)
Record loop_inv (done : list string) (od : Graph) (heap : list (K * string)) : Prop := {
  li_od n : od !! n = (λ es, es ∖ list_to_set done) <$> graph !! n;
  li_heap k n : (k, n) ∈ heap ↔ k = rank n ∧ available graph done n;
  li_heap_nodup : NoDup heap;
  li_closed n : n ∈ done → ∃ es, graph !! n = Some es ∧ ∀ e, e ∈ es → e ∈ done;
  li_nodup : NoDup done
}.

(** While [node]'s parents are visited, [pre] having been. *)
Record visit_inv (done : list string) (node : string) (pre : list string)
    (st : Graph * list (K * string)) : Prop := {
  vi_od n : st.1 !! n =
    (λ es, es ∖ list_to_set (if decide (n ∈ pre) then done ++ [node] else done)) <$> graph !! n;
  vi_heap k n : (k, n) ∈ st.2 ↔ k = rank n ∧
    ((n ≠ node ∧ available graph done n) ∨ (n ∈ pre ∧ available graph (done ++ [node]) n));
  vi_nodup : NoDup st.2
}.

Lemma available_graph done n : available graph done n → is_Some (graph !! n).
Proof. intros (_ & es & -> & _). eauto. Qed.

(** A parent of the node being output has not been output yet. *)
Lemma parent_fresh done node p :
  (∀ n, n ∈ done → ∃ es, graph !! n = Some es ∧ ∀ e, e ∈ es → e ∈ done) →
  available graph done node → references graph p node → p ∉ done ++ [node].
Proof.
  intros Hclosed (Hnode & es & Hes & Hsub) (es' & Hes' & Hin).
  rewrite elem_of_app, list_elem_of_singleton. intros [Hp| ->].
  - destruct (Hclosed p Hp) as (es'' & ? & Hsub'). simplify_eq. by apply Hnode, Hsub'.
  - simplify_eq. by apply Hnode, Hsub.
Qed.

Lemma visit_parent_step done node pre p st :
  (∀ n, n ∈ done → ∃ es, graph !! n = Some es ∧ ∀ e, e ∈ es → e ∈ done) →
  available graph done node → references graph p node → p ∉ pre →
  visit_inv done node pre st →
  ∃ st', visit_parent key node st p = Ok st' ∧ visit_inv done node (pre ++ [p]) st'.
Proof.
  intros Hclosed Hnode Hp Hpre [Hod Hheap Hnd].
  pose proof (parent_fresh _ _ _ Hclosed Hnode Hp) as Hfresh.
  destruct Hp as (es & Hes & Hin). destruct st as [od heap]; cbn in *.
  unfold visit_parent. rewrite (Hod p), Hes, decide_False by done. cbn.
  set (out := es ∖ list_to_set done ∖ {[node]}).
  assert (out = es ∖ list_to_set (done ++ [node])) as Hout.
  { unfold out. rewrite list_to_set_app_L. cbn. set_solver. }
  assert (∀ n, <[p := out]> od !! n = (λ es, es ∖ list_to_set
    (if decide (n ∈ pre ++ [p]) then done ++ [node] else done)) <$> graph !! n) as Hod'.
  { intros n. destruct (decide (n = p)) as [->|Hne].
    - rewrite lookup_insert_eq, Hes, decide_True by set_solver. cbn. by rewrite Hout.
    - rewrite lookup_insert_ne, Hod by done.
      by destruct (decide (n ∈ pre)), (decide (n ∈ pre ++ [p])); set_solver. }
  assert (available graph (done ++ [node]) p ↔ out = ∅) as Hav.
  { rewrite Hout. unfold available. split.
    - intros (_ & es' & ? & Hsub). simplify_eq. apply set_eq. set_solver.
    - intros He. split; [done|]. exists es. split; [done|]. intros e He'.
      apply dec_stable. intros Hn. assert (e ∈ es ∖ list_to_set (done ++ [node])) by set_solver.
      set_solver. }
  case_decide as Ho.
  - rewrite key_rank by eauto. cbn. eexists. split; [done|]. split; cbn; [done| |].
    + intros k n. unfold heappush. rewrite elem_of_cons, Hheap, elem_of_app, list_elem_of_singleton.
      rewrite pair_equal_spec. split; [|naive_solver].
      intros [[-> ->]|Hk]; [|naive_solver]. split; [done|]. right. tauto.
    + constructor; [|done]. rewrite Hheap. intros [_ [[_ Ha]|[? _]]]; [|done].
      destruct Ha as (_ & es' & ? & Hsub). simplify_eq. by apply Hnode, Hsub.
  - eexists. split; [done|]. split; cbn; [done| |done].
    intros k n. rewrite Hheap, elem_of_app, list_elem_of_singleton.
    split; [naive_solver|]. intros [-> [?|[[?| ->] ?]]]; tauto.
Qed.

Lemma visit_parents_spec done od heap k node heap' parents :
  loop_inv done od heap → heap ≡ₚ (k, node) :: heap' →
  (∀ p, p ∈ parents ↔ references graph p node) → NoDup parents →
  ∃ st, foldM (visit_parent key node) (od, heap') parents = Ok st ∧
        loop_inv (done ++ [node]) st.1 st.2.
Proof.
  intros [Hod Hheap Hnd Hclosed Hdone] Hp Hpar Hndp.
  assert (k = rank node ∧ available graph done node) as [-> Hnode].
  { apply Hheap. rewrite Hp. left. }
  destruct (foldM_total_prefix (visit_inv done node) (visit_parent key node) (od, heap') parents)
    as (st & Hst & [Vod Vheap Vnd]).
  - split; cbn.
    + intros n. rewrite decide_False by set_solver. apply Hod.
    + intros k' n. rewrite Hp in Hnd. apply NoDup_cons in Hnd as [Hk _].
      specialize (Hheap k' n). rewrite Hp, elem_of_cons in Hheap.
      split.
      * intros Hin. destruct Hheap as [[-> Ha] _]; [by right|]. split; [done|]. left.
        split; [|done]. by intros ->.
      * intros (-> & [[Hne Ha]|[Hin _]]); [|by apply elem_of_nil in Hin].
        destruct Hheap as [_ [?|?]]; [done|naive_solver|done].
    + rewrite Hp in Hnd. by apply NoDup_cons in Hnd as [_ ?].
  - intros pre p post st -> Hinv. apply visit_parent_step; try done.
    + apply Hpar. set_solver.
    + apply NoDup_app in Hndp as (_ & Hd & _). intros Hin. apply (Hd p Hin). left.
  - exists st. split; [done|]. split; try done.
    + intros n. rewrite Vod. destruct (graph !! n) as [es|] eqn:E; [|done]. cbn. f_equal.
      case_decide as Hn; [done|]. rewrite list_to_set_app_L. cbn.
      assert (node ∉ es) by (intros ?; apply Hn, Hpar; exists es; done). set_solver.
    + intros k n. rewrite Vheap. apply and_iff_compat_l. split.
      * intros [[Hne Ha]|[_ ?]]; [|done]. by apply available_snoc.
      * intros Ha. destruct (decide (n ∈ parents)) as [?|Hn]; [by right|left].
        by apply (available_unsnoc graph done node n); [|rewrite <-Hpar].
    + intros n [Hn| ->%list_elem_of_singleton]%elem_of_app.
      * destruct (Hclosed n Hn) as (es & ? & ?). exists es. set_solver.
      * destruct Hnode as (_ & es & ? & ?). exists es. set_solver.
    + apply NoDup_app. split; [done|]. split; [|apply NoDup_singleton].
      destruct Hnode. set_solver.
Qed.

(** ** The main loop *)

(** What remains to be output after [done]. *)
Definition sorts_after (done l : list string) : Prop :=
  (∀ pre n post, l = pre ++ n :: post →
    available graph (done ++ pre) n ∧
    ∀ m, available graph (done ++ pre) m → py_leb (rank n, n) (rank m, m) = true) ∧
  ∀ n, ¬ available graph (done ++ l) n.

Lemma done_bound done od heap :
  loop_inv done od heap → (length done ≤ size graph)%nat.
Proof.
  intros [_ _ _ Hclosed Hnd]. rewrite <-size_dom, <-(size_list_to_set (C:=StrSet) done Hnd).
  apply subseteq_size. intros n Hn%elem_of_list_to_set.
  destruct (Hclosed n Hn) as (es & ? & _). apply elem_of_dom. eauto.
Qed.

Lemma sort_loop_spec fuel done od heap :
  loop_inv done od heap → (size graph ≤ fuel + length done)%nat →
  ∃ l, sort_loop key fuel (build_reverse graph) od heap = Ok l ∧ sorts_after done l.
Proof.
  destruct (build_reverse_spec graph) as [Hrdom Hrev].
  revert done od heap. induction fuel as [|fuel IH]; intros done od heap Hinv Hfuel.
  all: destruct (heappop heap) as [[[k node] heap']|] eqn:Epop; cbn; rewrite Epop.
  2,4: exists []; split; [done|]; split; [by intros [] |]; intros n Hn; rewrite app_nil_r in Hn;
    destruct heap; [|done]; destruct Hinv as [_ Hheap _ _ _];
    by apply (elem_of_nil (rank n, n)), Hheap.
  all: apply heappop_Some in Epop as [Hp Hmin].
  all: assert (k = rank node ∧ available graph done node) as [-> Hnode]
    by (apply (li_heap _ _ _ Hinv); rewrite Hp; left).
  all: destruct (Hrdom node (available_graph _ _ Hnode)) as [parents Hpar].
  all: destruct (visit_parents_spec done od heap (rank node) node heap' (iter_set parents))
    as ([od' heap''] & Hfold & Hinv'); [done|done| |apply iter_set_NoDup|].
  1,3: intros p; rewrite elem_of_iter_set, <-Hrev, Hpar; done.
  - apply done_bound in Hinv'. rewrite length_app in Hinv'. cbn in Hinv'. lia.
  - rewrite Hpar, Hfold. cbn in *.
    destruct (IH _ _ _ Hinv') as (l & -> & Hgreedy & Hcompl).
    { rewrite length_app. cbn. lia. }
    exists (node :: l). cbn. split; [done|]. split.
    + intros [|a pre] n post E; injection E as -> E; rewrite ?app_nil_r.
      * split; [done|]. intros m Hm. apply Hmin, (li_heap _ _ _ Hinv). done.
      * specialize (Hgreedy pre n post E). by rewrite <-app_assoc in Hgreedy.
    + intros n. specialize (Hcompl n). by rewrite <-app_assoc in Hcompl.
Qed.
End correctness.

(** ** The whole sort *)

Section results.
Context {K : Type} `{PyOrd K} `{Order : SetOrder} (key : string → res K) (rank : string → K) (graph : Graph).
Hypothesis key_rank : ∀ n, is_Some (graph !! n) → key n = Ok (rank n).

Lemma initial_heap_spec :
  ∃ heap, initial_heap key graph = Ok heap ∧ loop_inv rank graph [] graph heap.
Proof.
  set (ns := (filter (λ kv : string * StrSet, kv.2 = ∅) (map_to_list graph)).*1).
  assert (∀ n, n ∈ ns ↔ graph !! n = Some ∅) as Hns.
  { intros n. unfold ns. rewrite list_elem_of_fmap. split.
    - intros ([n' es] & -> & [Hes Hin]%list_elem_of_filter).
      apply elem_of_map_to_list in Hin. cbn in *. by subst es.
    - intros Hn. exists (n, ∅). split; [done|].
      by rewrite list_elem_of_filter, elem_of_map_to_list. }
  assert (NoDup ns) as Hnd.
  { apply (sublist_NoDup _ (map_to_list graph).*1); [apply NoDup_fst_map_to_list|].
    apply fmap_sublist, sublist_filter. }
  exists ((λ n, (rank n, n)) <$> ns). split.
  - apply traverse_Ok, Forall2_fmap_r, Forall_Forall2_diag, Forall_forall.
    intros n Hn%Hns. by rewrite key_rank by eauto.
  - split; try done; [| |apply NoDup_fmap_2; [|done]; by intros ?? [=]|by intros ? ?%elem_of_nil|constructor].
    + intros n. destruct (graph !! n); [|done]. cbn. f_equal. set_solver.
    + intros k n. rewrite list_elem_of_fmap. unfold available. split.
      * intros (n' & [= -> ->] & Hn%Hns). split; [done|]. split; [apply not_elem_of_nil|].
        exists ∅. set_solver.
      * intros (-> & _ & es & Hes & Hsub). exists n. split; [done|]. apply Hns.
        rewrite Hes. f_equal. apply set_eq. set_solver.
Qed.

Lemma sort_correct :
  ∃ l, lexicographical_topological_sort key graph = Ok l ∧ lex_topological rank graph l.
Proof.
  unfold lexicographical_topological_sort.
  destruct initial_heap_spec as (heap & -> & Hinv). cbn.
  destruct (sort_loop_spec key rank graph key_rank (size graph) [] graph heap Hinv)
    as (l & -> & Hg & Hc); [cbn; lia|].
  exists l. split; [done|]. by split.
Qed.
End results.

(** Consequences of the greedy order that do not depend on the tie-break. *)
Section greedy.
Context {K : Type} `{PyOrd K} (rank : string → K) (graph : Graph).

Lemma lex_topological_prefix_closed l :
  lex_topological rank graph l →
  ∀ pre n post, l = pre ++ n :: post →
    (n ∉ pre) ∧ ∃ es, graph !! n = Some es ∧ ∀ e, e ∈ es → e ∈ pre.
Proof. intros [Hg _] pre n post E. apply (Hg pre n post E). Qed.

Lemma lex_topological_nodup l : lex_topological rank graph l → NoDup l.
Proof.
  intros Hl. cut (∀ post pre, l = pre ++ post → NoDup pre → NoDup l).
  { intros Hcut. apply (Hcut l []); [done|constructor]. }
  induction post as [|n post IH]; intros pre -> Hnd; [by rewrite app_nil_r|].
  apply (IH (pre ++ [n])); [by rewrite <-app_assoc|].
  apply NoDup_app. split; [done|]. split; [|apply NoDup_singleton].
  destruct (lex_topological_prefix_closed _ Hl pre n post eq_refl) as [? _]. set_solver.
Qed.

(** The nodes whose references can be followed only finitely far, within
    the graph: the ones that can be output. *)
Inductive grounded : string → Prop :=
  grounded_intro n es : graph !! n = Some es → (∀ e, e ∈ es → grounded e) → grounded n.

Lemma lex_topological_elem l n : lex_topological rank graph l → n ∈ l ↔ grounded n.
Proof.
  intros Hl. split.
  - cut (∀ post pre, l = pre ++ post → (∀ m, m ∈ pre → grounded m) → ∀ m, m ∈ l → grounded m).
    { intros Hcut. apply (Hcut l []); [done|]. intros ? ?%elem_of_nil. done. }
    induction post as [|m post IH]; intros pre -> Hpre; [by rewrite app_nil_r|].
    apply (IH (pre ++ [m])); [by rewrite <-app_assoc|].
    intros m' [?| ->%list_elem_of_singleton]%elem_of_app; [auto|].
    destruct (lex_topological_prefix_closed _ Hl pre m post eq_refl) as (_ & es & ? & ?).
    econstructor; eauto.
  - induction 1 as [n es Hes Hsub IH]. apply dec_stable. intros Hn.
    apply (lt_complete _ _ _ Hl n). split; [done|]. eauto.
Qed.

(** There is only one greedy order. *)
Lemma lex_topological_unique l k :
  lex_topological rank graph l → lex_topological rank graph k → l = k.
Proof.
  intros Hl Hk.
  cut (∀ post pre post', l = pre ++ post → k = pre ++ post' → post = post').
  { intros Hcut. by apply (Hcut l []). }
  induction post as [|n post IH]; intros pre post' El Ek.
  - destruct post' as [|m post']; [done|]. rewrite app_nil_r in El. subst pre.
    destruct (lt_greedy _ _ _ Hk _ _ _ Ek) as [Ha _]. by destruct (lt_complete _ _ _ Hl m).
  - destruct (lt_greedy _ _ _ Hl _ _ _ El) as [Ha Hmin].
    destruct post' as [|m post'].
    { rewrite app_nil_r in Ek. subst pre. by destruct (lt_complete _ _ _ Hk n). }
    destruct (lt_greedy _ _ _ Hk _ _ _ Ek) as [Ha' Hmin'].
    assert ((rank n, n) = (rank m, m)) as [= _ <-].
    { apply py_leb_antisym; [by apply Hmin|by apply Hmin']. }
    f_equal. apply (IH (pre ++ [n])); rewrite <-app_assoc; done.
Qed.
End greedy.

(** C14: lexicographical_topological_sort returns the one sequence that at each step takes
    the least node by key among those whose edges have all been output, without repetition
    and with exactly the nodes that do not depend on a cycle or a missing node, in whatever
    order the sets of the graph are visited. *)
Theorem topological_sort_greedy {K} `{PyOrd K} `{Order : SetOrder} (key : string → res K) (rank : string → K)
    (graph : Graph) :
  (∀ n, is_Some (graph !! n) → key n = Ok (rank n)) →
  ∃ l, lexicographical_topological_sort key graph = Ok l ∧ lex_topological rank graph l ∧
       NoDup l ∧ (∀ n, n ∈ l ↔ grounded graph n) ∧
       (∀ l', lex_topological rank graph l' → l' = l).
Proof.
  intros Hkey. destruct (sort_correct key rank graph Hkey) as (l & -> & Hl).
  exists l. split_and!; [done|done|by eapply lex_topological_nodup| |].
  - intros n. by eapply lex_topological_elem.
  - intros l' Hl'. by eapply lex_topological_unique.
Qed.

Lemma grounded_of_depth (graph : Graph) (depth : string → nat) :
  (∀ m n, references graph m n → is_Some (graph !! n) ∧ (depth n < depth m)%nat) →
  ∀ n, is_Some (graph !! n) → grounded graph n.
Proof.
  intros Hd n. remember (depth n) as d eqn:E. revert n E.
  induction d as [d IH] using lt_wf_ind. intros n -> [es Hes].
  econstructor; [done|]. intros e He. destruct (Hd n e) as [Hin Hlt]; [by exists es|].
  by eapply IH.
Qed.

(** On an acyclic graph lexicographical_topological_sort outputs every node once, each
    after all the nodes it has an edge to. *)
Theorem topological_sort_dag {K} `{PyOrd K} `{Order : SetOrder} (key : string → res K) (rank : string → K)
    (graph : Graph) (depth : string → nat) :
  (∀ n, is_Some (graph !! n) → key n = Ok (rank n)) →
  (∀ m n, references graph m n → is_Some (graph !! n) ∧ (depth n < depth m)%nat) →
  ∃ l, lexicographical_topological_sort key graph = Ok l ∧
       l ≡ₚ (map_to_list graph).*1 ∧
       (∀ pre m post n, l = pre ++ m :: post → references graph m n → n ∈ pre).
Proof.
  intros Hkey Hd. destruct (sort_correct key rank graph Hkey) as (l & -> & Hl).
  exists l. split_and!; [done| |].
  - apply NoDup_Permutation; [by eapply lex_topological_nodup|apply NoDup_fst_map_to_list|].
    intros n. rewrite (lex_topological_elem rank graph l n Hl), list_elem_of_fmap. split.
    + intros [n' es Hes _]. exists (n', es). by rewrite elem_of_map_to_list.
    + intros ([n' es] & -> & Hin%elem_of_map_to_list).
      eapply grounded_of_depth; [done|]. eauto.
  - intros pre m post n E (es & Hes & Hin).
    destruct (lex_topological_prefix_closed _ _ _ Hl pre m post E) as (_ & es' & ? & Hsub).
    simplify_eq. auto.
Qed.
