(* ===== verification/StateResV2.v ===== *)
(** * State resolution, version 2: [synapse/state/v2.py]

    [event_map] is a dict that every function of the module shares and that
    [_get_event] fills from the store as it goes: it is the state of the [SE]
    monad. The store is not part of the module: [StateResolutionStore] is its
    interface. Python does not fix the order of a set: [SetOrder] is that order. [clock.sleep(0)] only yields to the reactor and has no effect
    on the result. Loops that follow auth events have fuel. *)

From S2P Require Import Prelude PyOrd PyJson RoomVersions Identifiers Event EventAuth TopoSort.

Abbreviation EventMap := (StrMap EventBase).

(** The protocol class [StateResolutionStore]; [get_events] is called with
    [allow_rejected=True] everywhere. *)
Class StateResolutionStore := {
  get_events : list string → EventMap;
  get_auth_chain_difference : string → list StrSet → StrSet
}.

Section StateRes.
Context `{Netaddr} `{SignedJson} `{StateResolutionStore} `{Order : SetOrder}.

(** ** Looking events up *)

(** [event_map.update(events)] *)
Definition update_event_map (events : EventMap) : SE EventMap unit :=
  λ event_map, Ok (tt, events ∪ event_map).

Definition _get_event (room_id event_id : string) (allow_none : bool) :
    SE EventMap (option EventBase) :=
  event_map ← get_state;
  (if event_map !! event_id is Some _ then mret tt
   else update_event_map (get_events [event_id]));;
  event_map ← get_state;
  match event_map !! event_id with
  | None =>
      if allow_none then mret None else lift (Raise (PlainException "Unknown event %s"))
  | Some event =>
      r ← lift (Event.room_id event);
      if String.eqb r room_id then mret (Some event)
      else lift (Raise (PlainException "In state res for room %s, event %s is in %s"))
  end.

(** [_get_event] with [allow_none=False], whose result is never [None]. *)
Definition _get_event_required (room_id event_id : string) : SE EventMap EventBase :=
  event ← _get_event room_id event_id false;
  lift (match event with Some e => Ok e | None => Raise AssertionError end).

(** [event_map[event_id]] *)
Definition event_map_getitem (event_id : string) : SE EventMap EventBase :=
  event_map ← get_state;
  lift (match event_map !! event_id with Some e => Ok e | None => Raise KeyError end).

(** [(ev.type, ev.state_key)] *)
Definition type_and_key (ev : EventBase) : res StateKey :=
  sk ← state_key ev; Ok (ev_type ev, sk).

(** The loop [for aid in ids: aev = await _get_event(..., allow_none=True); if
    aev and (aev.type, aev.state_key) == (typ, ""): ...; break]. *)
Fixpoint find_auth_event (room_id typ : string) (ids : list string) :
    SE EventMap (option (string * EventBase)) :=
  match ids with
  | [] => mret None
  | aid :: ids =>
      aev ← _get_event room_id aid true;
      match aev with
      | None => find_auth_event room_id typ ids
      | Some aev =>
          k ← lift (type_and_key aev);
          if decide (k = (typ, "")) then mret (Some (aid, aev))
          else find_auth_event room_id typ ids
      end
  end.

Definition _get_power_level_for_sender (room_id event_id : string) : SE EventMap Z :=
  event ← _get_event_required room_id event_id;
  pl ← find_auth_event room_id EventTypes.PowerLevels (auth_event_ids event);
  match pl with
  | None =>
      create ← find_auth_event room_id EventTypes.Create (auth_event_ids event);
      match create with
      | Some (_, aev) =>
          match obj_get "creator" (content aev) with
          | Some creator => mret (if py_eq_str creator (sender event) then 100 else 0)
          | None => mret 0
          end
      | None => mret 0
      end
  | Some (_, pl) =>
      level ← lift (py_get (sender event) (obj_get_default "users" (JObj []) (content pl)));
      let level := if is_none level then Some (obj_get_default "users_default" (JInt 0) (content pl))
                   else level in
      lift (match level with
            | None | Some JNull => Ok 0
            | Some level => py_int level
            end)
  end.

(** ** The auth chain difference *)

(** [while to_search], for one unpersisted event. [to_search] has the end of
    the Python list first. *)
Fixpoint search_chain (fuel : nat) (unpersisted_events : EventMap)
    (to_search : list EventBase) (chain : StrSet) : res StrSet :=
  match to_search with
  | [] => Ok chain
  | event :: to_search =>
      match fuel with
      | O => Raise OutOfFuel
      | S fuel =>
          let '(chain, to_search) :=
            foldl (λ '(chain, to_search) auth_id,
                ({[auth_id]} ∪ chain,
                 if unpersisted_events !! auth_id is Some auth_event
                 then auth_event :: to_search else to_search))
              (chain, to_search) (auth_event_ids event) in
          search_chain fuel unpersisted_events to_search chain
      end
  end.

Definition events_to_auth_chain (fuel : nat) (unpersisted_events : EventMap) :
    res (StrMap StrSet) :=
  foldM (λ chains event,
      chain ← search_chain fuel unpersisted_events [event] {[event_id event]};
      Ok (<[event_id event := chain]> chains))
    ∅ (map_to_list unpersisted_events).*2.

(** One iteration of [for state_set in state_sets]: [set_ids] and
    [unpersisted_ids]. *)
Definition split_state_set (unpersisted_events : EventMap) (chains : StrMap StrSet)
    (state_set : StateMap string) : StrSet * StrSet :=
  foldl (λ '(set_ids, unpersisted_ids) event_id,
      match chains !! event_id with
      | Some event_chain =>
          (set_ids ∪ filter (λ e, unpersisted_events !! e = None) event_chain,
           unpersisted_ids ∪ filter (λ e, is_Some (unpersisted_events !! e)) event_chain)
      | None => ({[event_id]} ∪ set_ids, unpersisted_ids)
      end) (∅, ∅) (map_to_list state_set).*2.

Definition _get_auth_chain_difference (fuel : nat) (room_id : string)
    (state_sets : list (StateMap string)) (unpersisted_events : EventMap) : res StrSet :=
  chains ← events_to_auth_chain fuel unpersisted_events;
  if decide (unpersisted_events = ∅) then
    Ok (get_auth_chain_difference room_id
          ((λ s : StateMap string, list_to_set (map_to_list s).*2) <$> state_sets))
  else
    let split := split_state_set unpersisted_events chains <$> state_sets in
    match split.*2 with
    | [] => Raise IndexError
    | first :: others =>
        let union := foldl (∪) first others in
        let intersection := foldl (∩) first others in
        Ok (get_auth_chain_difference room_id split.*1 ∪ (union ∖ intersection))
    end.

(** ** Conflicted state *)

(** One iteration of [for key in set(...)]. The set of the events the state
    sets have for a key is never [{None}]: the key is in one of them. *)
Definition seperate_key (state_sets : list (StateMap string))
    (acc : StateMap string * StateMap StrSet) (key : StateKey) :
    StateMap string * StateMap StrSet :=
  let '(unconflicted_state, conflicted_state) := acc in
  let event_ids : gset (option string) := list_to_set ((λ s : StateMap string, s !! key) <$> state_sets) in
  match elements event_ids with
  | [Some event_id] => (<[key := event_id]> unconflicted_state, conflicted_state)
  | [None] => acc
  | event_ids => (unconflicted_state, <[key := list_to_set (omap id event_ids)]> conflicted_state)
  end.

Definition all_keys (state_sets : list (StateMap string)) : StateKeys :=
  ⋃ ((λ s : StateMap string, dom s) <$> state_sets).

Definition _seperate (state_sets : list (StateMap string)) : StateMap string * StateMap StrSet :=
  foldl (seperate_key state_sets) (∅, ∅) (iter_set (all_keys state_sets)).

Definition _is_power_event (event : EventBase) : res bool :=
  k ← type_and_key event;
  if decide (k ∈ [(EventTypes.PowerLevels, ""); (EventTypes.JoinRules, ""); (EventTypes.Create, "")])
  then Ok true
  else if String.eqb (ev_type event) EventTypes.Member then
    m ← membership event;
    if py_eq_str m "leave" || py_eq_str m "ban"
    then sk ← state_key event; Ok (negb (String.eqb (sender event) sk))
    else Ok false
  else Ok false.

(** ** Sorting by power *)

(** [for aid in event.auth_event_ids()] for the event [eid]; [state] is the
    stack, its top first. *)
Definition add_auth_edges (full_conflicted_set : StrSet) (eid : string)
    (acc : Graph * list string) (aid : string) : Graph * list string :=
  let '(graph, state) := acc in
  if decide (aid ∈ full_conflicted_set) then
    let state := if graph !! aid is Some _ then state else aid :: state in
    (<[eid := {[aid]} ∪ default ∅ (graph !! eid)]> graph, state)
  else (graph, state).

(** [while state] *)
Fixpoint add_chain_loop (fuel : nat) (room_id : string) (full_conflicted_set : StrSet)
    (graph : Graph) (state : list string) : SE EventMap Graph :=
  match state with
  | [] => mret graph
  | eid :: state =>
      match fuel with
      | O => lift (Raise OutOfFuel)
      | S fuel =>
          let graph := <[eid := default ∅ (graph !! eid)]> graph in
          event ← _get_event_required room_id eid;
          let '(graph, state) :=
            foldl (add_auth_edges full_conflicted_set eid) (graph, state) (auth_event_ids event) in
          add_chain_loop fuel room_id full_conflicted_set graph state
      end
  end.

Definition _add_event_and_auth_chain_to_graph (fuel : nat) (room_id : string)
    (full_conflicted_set : StrSet) (graph : Graph) (event_id : string) : SE EventMap Graph :=
  add_chain_loop fuel room_id full_conflicted_set graph [event_id].

(** [_get_power_order] *)
Definition _get_power_order (event_map : EventMap) (event_to_pl : StrMap Z) (event_id : string) :
    res (Z * Z * string) :=
  match event_map !! event_id, event_to_pl !! event_id with
  | Some ev, Some pl => Ok (- pl, origin_server_ts ev, event_id)
  | _, _ => Raise KeyError
  end.

(** One iteration of the loop that fills [event_to_pl]. *)
Definition add_power_level (room_id : string) (event_to_pl : StrMap Z) (event_id : string) :
    SE EventMap (StrMap Z) :=
  pl ← _get_power_level_for_sender room_id event_id;
  mret (<[event_id := pl]> event_to_pl).

Definition _reverse_topological_power_sort (fuel : nat) (room_id : string)
    (event_ids : list string) (full_conflicted_set : StrSet) : SE EventMap (list string) :=
  graph ← foldS (_add_event_and_auth_chain_to_graph fuel room_id full_conflicted_set) ∅ event_ids;
  event_to_pl ← foldS (add_power_level room_id) ∅ (map_to_list graph).*1;
  event_map ← get_state;
  lift (lexicographical_topological_sort (_get_power_order event_map event_to_pl) graph).

(** ** Iterative auth checks *)

(** The auth events named by the event itself. *)
Definition own_auth_events (room_id : string) (event : EventBase) :
    SE EventMap (StateMap EventBase) :=
  foldS (λ (auth_events : StateMap EventBase) aid,
      ev ← _get_event room_id aid true;
      match ev with
      | None => mret auth_events
      | Some ev =>
          if rejected_reason ev is None then
            k ← lift (type_and_key ev); mret (<[k := ev]> auth_events)
          else mret auth_events
      end) ∅ (auth_event_ids event).

(** The loop over [auth_types_for_event], which prefers the resolved state:
    one iteration, and the loop. *)
Definition resolved_auth_step (room_id : string) (resolved_state : StateMap string)
    (auth_events : StateMap EventBase) (key : StateKey) : SE EventMap (StateMap EventBase) :=
  match resolved_state !! key with
  | None => mret auth_events
  | Some ev_id =>
      ev ← _get_event_required room_id ev_id;
      if rejected_reason ev is None then
        e ← event_map_getitem ev_id; mret (<[key := e]> auth_events)
      else mret auth_events
  end.

Definition resolved_auth_events (room_id : string) (resolved_state : StateMap string)
    (auth_events : StateMap EventBase) (keys : StateKeys) : SE EventMap (StateMap EventBase) :=
  foldS (resolved_auth_step room_id resolved_state) auth_events (iter_set keys).

(** One iteration of [for event_id in event_ids]. *)
Definition iterative_auth_check (room_id : string) (room_version : RoomVersion)
    (resolved_state : StateMap string) (event_id : string) : SE EventMap (StateMap string) :=
  event ← event_map_getitem event_id;
  auth_events ← own_auth_events room_id event;
  keys ← lift (auth_types_for_event room_version event);
  auth_events ← resolved_auth_events room_id resolved_state auth_events keys;
  if rejected_reason event is None then
    lift (catch
      (check_state_dependent_auth_rules event (map_to_list auth_events).*2;;
       k ← type_and_key event;
       Ok (<[k := event_id]> resolved_state))
      (λ e, if is_AuthError e then Ok resolved_state else Raise e))
  else mret resolved_state.

Definition _iterative_auth_checks (room_id : string) (room_version : RoomVersion)
    (event_ids : list string) (base_state : StateMap string) : SE EventMap (StateMap string) :=
  foldS (iterative_auth_check room_id room_version) base_state event_ids.

(** ** Sorting by the mainline *)

(** [while pl]: the ids appended to [mainline], in order. *)
Fixpoint mainline_loop (fuel : nat) (room_id : string) (pl : option string) :
    SE EventMap (list string) :=
  match pl with
  | None | Some "" => mret []
  | Some pl =>
      match fuel with
      | O => lift (Raise OutOfFuel)
      | S fuel =>
          pl_ev ← _get_event_required room_id pl;
          found ← find_auth_event room_id EventTypes.PowerLevels (auth_event_ids pl_ev);
          rest ← mainline_loop fuel room_id (fst <$> found);
          mret (pl :: rest)
      end
  end.

(** [{ev_id: i + 1 for i, ev_id in enumerate(reversed(mainline))}] *)
Definition mainline_map_of (mainline : list string) : StrMap Z :=
  foldl (λ m '(i, ev_id), <[ev_id := i + 1]> m) ∅
    (imap (λ i ev_id, (Z.of_nat i, ev_id)) (reverse mainline)).

(** [while tmp_event] *)
Fixpoint mainline_depth_loop (fuel : nat) (room_id : string) (mainline_map : StrMap Z)
    (tmp_event : option EventBase) : SE EventMap Z :=
  match tmp_event with
  | None => mret 0
  | Some tmp_event =>
      match mainline_map !! event_id tmp_event with
      | Some depth => mret depth
      | None =>
          match fuel with
          | O => lift (Raise OutOfFuel)
          | S fuel =>
              found ← find_auth_event room_id EventTypes.PowerLevels (auth_event_ids tmp_event);
              mainline_depth_loop fuel room_id mainline_map (snd <$> found)
          end
      end
  end.

Definition _get_mainline_depth_for_event (fuel : nat) (event : EventBase)
    (mainline_map : StrMap Z) : SE EventMap Z :=
  room_id ← lift (Event.room_id event);
  mainline_depth_loop fuel room_id mainline_map (Some event).

(** [event_ids.sort(key=lambda ev_id: order_map[ev_id])] *)
Definition sort_by_order_map (order_map : StrMap (Z * Z * string)) (event_ids : list string) :
    res (list string) :=
  keyed ← traverse (λ ev_id, match order_map !! ev_id with
                             | Some k => Ok (k, ev_id)
                             | None => Raise KeyError
                             end) event_ids;
  Ok (py_sort (λ p : (Z * Z * string) * string, p.1) keyed).*2.

(** One iteration of the loop that fills [order_map]. *)
Definition add_order (fuel : nat) (mainline_map : StrMap Z)
    (order_map : StrMap (Z * Z * string)) (ev_id : string) :
    SE EventMap (StrMap (Z * Z * string)) :=
  event ← event_map_getitem ev_id;
  depth ← _get_mainline_depth_for_event fuel event mainline_map;
  event ← event_map_getitem ev_id;
  mret (<[ev_id := (depth, origin_server_ts event, ev_id)]> order_map).

Definition _mainline_sort (fuel : nat) (room_id : string) (event_ids : list string)
    (resolved_power_event_id : option string) : SE EventMap (list string) :=
  match event_ids with
  | [] => mret []
  | _ =>
      mainline ← mainline_loop fuel room_id resolved_power_event_id;
      order_map ← foldS (add_order fuel (mainline_map_of mainline)) ∅ event_ids;
      lift (sort_by_order_map order_map event_ids)
  end.

(** ** The algorithm *)

(** [for event in event_map.values(): if event.room_id != room_id: raise] *)
Definition check_rooms (room_id : string) (event_map : EventMap) : res unit :=
  iterM (λ event,
      r ← Event.room_id event;
      raise_if (negb (String.eqb r room_id))
        (PlainException "Attempting to state-resolve for room %s with event %s which is in %s"))
    (map_to_list event_map).*2.

(** [(eid for eid in full_conflicted_set if _is_power_event(event_map[eid]))].
    The generator runs while [event_map] grows; entries never change, so that
    evaluating it first gives the same ids (when two steps would raise, which
    of them does first may differ). *)
Definition power_events_of (full_conflicted_set : StrSet) : SE EventMap (list string) :=
  foldS (λ acc eid,
      event ← event_map_getitem eid;
      b ← lift (_is_power_event event);
      mret (if (b : bool) then acc ++ [eid] else acc)) [] (iter_set full_conflicted_set).

(** From the full conflicted set on. *)
Definition resolve_conflicted (fuel : nat) (room_id : string) (room_version : RoomVersion)
    (unconflicted_state : StateMap string) (full_conflicted_set : StrSet) :
    SE EventMap (StateMap string) :=
  power_events ← power_events_of full_conflicted_set;
  sorted_power_events ←
    _reverse_topological_power_sort fuel room_id power_events full_conflicted_set;
  resolved_state ←
    _iterative_auth_checks room_id room_version sorted_power_events unconflicted_state;
  let leftover_events :=
    filter (λ ev_id, ev_id ∉ sorted_power_events) (iter_set full_conflicted_set) in
  let pl := resolved_state !! (EventTypes.PowerLevels, "") in
  leftover_events ← _mainline_sort fuel room_id leftover_events pl;
  resolved_state ← _iterative_auth_checks room_id room_version leftover_events resolved_state;
  mret (unconflicted_state ∪ resolved_state).

(** [event_map] is the state: the caller's dict, or a new one for [None]. *)
Definition resolve_events_with_store (fuel : nat) (room_id : string) (room_version : RoomVersion)
    (state_sets : list (StateMap string)) : SE EventMap (StateMap string) :=
  let '(unconflicted_state, conflicted_state) := _seperate state_sets in
  if decide (conflicted_state = ∅) then mret unconflicted_state
  else
    event_map ← get_state;
    auth_diff ← lift (_get_auth_chain_difference fuel room_id state_sets event_map);
    let full_conflicted_set := ⋃ (map_to_list conflicted_state).*2 ∪ auth_diff in
    update_event_map
      (get_events (filter (λ eid, event_map !! eid = None) (iter_set full_conflicted_set)));;
    event_map ← get_state;
    lift (check_rooms room_id event_map);;
    resolve_conflicted fuel room_id room_version unconflicted_state
      (filter (λ eid, is_Some (event_map !! eid)) full_conflicted_set).

End StateRes.
