(* ===== verification/StateResV2Props.v ===== *)
(** * Properties of state resolution v2: conflicts, the event map, auth checks

    [_seperate] and its independence of the order of the state sets; the event
    map as a cache of the store, which only grows; the auth events an event is
    checked against and the sequence of checks as a step relation, which is a
    function of the events and of the state the checks start from. *)

From S2P Require Import Prelude PyOrd PyJson RoomVersions Identifiers Event EventAuth TopoSort.
From S2P Require Import StateResV2.

(** ** Conflicted and unconflicted state *)

(** The events the state sets have for a key, [None] for a set without it. *)
Definition ids_at (state_sets : list (StateMap string)) (key : StateKey) : gset (option string) :=
  list_to_set ((λ s : StateMap string, s !! key) <$> state_sets).

Lemma elem_of_ids_at ss key o : o ∈ ids_at ss key ↔ ∃ s, s ∈ ss ∧ s !! key = o.
Proof.
  unfold ids_at. rewrite elem_of_list_to_set, list_elem_of_fmap. naive_solver.
Qed.

(** Every state set has [v] for the key. *)
Definition agreed (ss : list (StateMap string)) (key : StateKey) (v : string) : Prop :=
  ss ≠ [] ∧ ∀ s, s ∈ ss → s !! key = Some v.

(** What [_seperate] puts under a key, from the elements of [ids_at]. *)
Definition key_verdict (ids : list (option string)) : option string * option StrSet :=
  match ids with
  | [Some v] => (Some v, None)
  | [None] => (None, None)
  | ids => (None, Some (list_to_set (omap id ids)))
  end.

Lemma seperate_fold ss (keys : list StateKey) (acc : StateMap string * StateMap StrSet) key :
  NoDup keys →
  let r := foldl (seperate_key ss) acc keys in
  if decide (key ∈ keys) then
    r.1 !! key = (match (key_verdict (elements (ids_at ss key))).1 with
                  | Some v => Some v | None => acc.1 !! key end) ∧
    r.2 !! key = (match (key_verdict (elements (ids_at ss key))).2 with
                  | Some v => Some v | None => acc.2 !! key end)
  else r.1 !! key = acc.1 !! key ∧ r.2 !! key = acc.2 !! key.
Proof.
  revert acc. induction keys as [|k keys IH]; intros [u c] Hnd; [done|].
  apply NoDup_cons in Hnd as [Hk Hnd]. cbn [foldl].
  specialize (IH (seperate_key ss (u, c) k) Hnd). cbn zeta in *.
  assert (∀ k', (seperate_key ss (u, c) k).1 !! k' =
    (if decide (k' = k) then match (key_verdict (elements (ids_at ss k))).1 with
      | Some v => Some v | None => u !! k' end else u !! k') ∧
    (seperate_key ss (u, c) k).2 !! k' =
    (if decide (k' = k) then match (key_verdict (elements (ids_at ss k))).2 with
      | Some v => Some v | None => c !! k' end else c !! k')) as Hstep.
  { clear IH. intros k'. unfold seperate_key. fold (ids_at ss k).
    destruct (elements (ids_at ss k)) as [|[v|] [|y l]]; cbn [key_verdict fst snd];
      case_decide; subst; rewrite ?lookup_insert_eq, ?lookup_insert_ne by done; done. }
  destruct (decide (key ∈ k :: keys)) as [Hin|Hin]; cbn [fst snd] in *.
  - destruct (decide (key ∈ keys)) as [Hin'|Hin'].
    + destruct (Hstep key) as [H1 H2]. rewrite decide_False in H1 by (by intros ->); rewrite decide_False in H2 by (by intros ->).
      by rewrite H1, H2 in IH.
    + assert (key = k) as -> by set_solver. destruct (Hstep k) as [H1 H2].
      rewrite decide_True in H1 by done. rewrite decide_True in H2 by done. destruct IH as [-> ->]. done.
  - rewrite decide_False in IH by set_solver. destruct (Hstep key) as [H1 H2].
    rewrite decide_False in H1 by set_solver. rewrite decide_False in H2 by set_solver.
    destruct IH as [-> ->]. done.
Qed.

Lemma elem_of_all_keys ss key : key ∈ all_keys ss ↔ ∃ s v, s ∈ ss ∧ s !! key = Some v.
Proof.
  unfold all_keys. rewrite elem_of_union_list. setoid_rewrite list_elem_of_fmap. split.
  - intros (X & (s & -> & Hs) & [v Hv]%elem_of_dom). eauto.
  - intros (s & v & Hs & Hv). eexists. split; [by exists s|]. apply elem_of_dom. eauto.
Qed.

Section seperate.
Context `{SetOrder}.

Lemma seperate_lookup ss key :
  (_seperate ss).1 !! key = (if decide (key ∈ all_keys ss)
    then (key_verdict (elements (ids_at ss key))).1 else None) ∧
  (_seperate ss).2 !! key = (if decide (key ∈ all_keys ss)
    then (key_verdict (elements (ids_at ss key))).2 else None).
Proof.
  pose proof (seperate_fold ss (iter_set (all_keys ss)) (∅, ∅) key (iter_set_NoDup _)) as Hf.
  unfold _seperate. cbn zeta in Hf. cbn [fst snd] in Hf. rewrite !lookup_empty in Hf.
  destruct (decide (key ∈ all_keys ss)) as [Hin|Hin].
  - rewrite decide_True in Hf by (by apply elem_of_iter_set).
    destruct Hf as [-> ->]. split; by case_match.
  - rewrite decide_False in Hf by (by rewrite elem_of_iter_set). done.
Qed.

Lemma elements_singleton_inv (X : gset (option string)) o :
  elements X = [o] ↔ X = {[o]}.
Proof.
  split; [|intros ->; apply elements_singleton].
  intros E. apply set_eq. intros x. rewrite <-elem_of_elements, E. set_solver.
Qed.

Lemma ids_at_agreed ss key v : ids_at ss key = {[Some v]} ↔ agreed ss key v.
Proof.
  unfold agreed. split.
  - intros E. split.
    + intros ->. assert (Some v ∈ ids_at [] key) as Hin by (rewrite E; set_solver).
      by apply elem_of_ids_at in Hin as (? & ?%elem_of_nil & _).
    + intros s Hs. assert (s !! key ∈ ids_at ss key) as Hin by (apply elem_of_ids_at; eauto).
      rewrite E in Hin. set_solver.
  - intros [Hne Hall]. apply set_eq. intros o. rewrite elem_of_ids_at, elem_of_singleton. split.
    + intros (s & Hs & <-). auto.
    + intros ->. destruct ss as [|s ss]; [done|]. exists s. split; [left|]. apply Hall. left.
Qed.

Lemma seperate_unconflicted ss key v :
  (_seperate ss).1 !! key = Some v ↔ agreed ss key v.
Proof.
  destruct (seperate_lookup ss key) as [-> _]. rewrite <-ids_at_agreed. split.
  - case_decide; [|done]. intros Hv. apply elements_singleton_inv.
    destruct (elements (ids_at ss key)) as [|[w|] [|y l]]; cbn in Hv; try done. by simplify_eq.
  - intros E. pose proof E as E'. apply ids_at_agreed in E' as [Hne Hall].
    rewrite decide_True.
    + apply elements_singleton_inv in E. by rewrite E.
    + apply elem_of_all_keys. destruct ss as [|s ss]; [done|]. exists s, v.
      split; [left|]. apply Hall. left.
Qed.

Lemma seperate_conflicted ss key ids :
  (_seperate ss).2 !! key = Some ids ↔
  key ∈ all_keys ss ∧ (∀ v, ¬ agreed ss key v) ∧
  ids = list_to_set (omap id (elements (ids_at ss key))).
Proof.
  destruct (seperate_lookup ss key) as [_ ->]. setoid_rewrite <-ids_at_agreed.
  setoid_rewrite <-elements_singleton_inv.
  case_decide as Hin; [|naive_solver].
  apply elem_of_all_keys in Hin as Hin'. destruct Hin' as (s & w & Hs & Hw).
  assert (Some w ∈ elements (ids_at ss key)) as Hel
    by (apply elem_of_elements, elem_of_ids_at; eauto).
  destruct (elements (ids_at ss key)) as [|[x|] [|y l]]; cbn [key_verdict snd];
    [by apply elem_of_nil in Hel| | | |]; try (split; [intros [= <-]; naive_solver|naive_solver]).
  apply list_elem_of_singleton in Hel. done.
Qed.

Lemma elem_of_conflicted_ids ss key v :
  v ∈ (list_to_set (omap id (elements (ids_at ss key))) : StrSet) ↔
  ∃ s, s ∈ ss ∧ s !! key = Some v.
Proof.
  rewrite elem_of_list_to_set, list_elem_of_omap. setoid_rewrite elem_of_elements.
  setoid_rewrite elem_of_ids_at. unfold id. naive_solver.
Qed.

(** _seperate puts in the unconflicted map exactly the keys for which every state set
    has the same event, and in the conflicted map exactly the other keys of any set, with
    the set of events they have. *)
Theorem seperate_spec ss :
  (∀ key v, (_seperate ss).1 !! key = Some v ↔ agreed ss key v) ∧
  (∀ key, is_Some ((_seperate ss).2 !! key) ↔
     (∃ s v, s ∈ ss ∧ s !! key = Some v) ∧ ∀ v, ¬ agreed ss key v) ∧
  (∀ key ids v, (_seperate ss).2 !! key = Some ids →
     v ∈ ids ↔ ∃ s, s ∈ ss ∧ s !! key = Some v).
Proof.
  split_and!; [apply seperate_unconflicted| |].
  - intros key. unfold is_Some. setoid_rewrite seperate_conflicted.
    setoid_rewrite elem_of_all_keys. naive_solver.
  - intros key ids v (_ & _ & ->)%seperate_conflicted. apply elem_of_conflicted_ids.
Qed.
End seperate.

(** ** The order of the state sets does not matter *)

Lemma elem_of_foldl_union (x : string) (X : StrSet) (l : list StrSet) :
  x ∈ foldl (∪) X l ↔ ∃ Y, Y ∈ X :: l ∧ x ∈ Y.
Proof.
  revert X. induction l as [|Y l IH]; intros X; cbn; [set_solver|]. rewrite IH.
  setoid_rewrite elem_of_cons. split.
  - intros (Z & [->|?] & HZ); [apply elem_of_union in HZ as [?|?]|]; eauto using list_elem_of_here, list_elem_of_further.
  - intros (Z & [->|[->|?]%elem_of_cons] & HZ); [exists (X ∪ Y)..|]; rewrite ?elem_of_union; eauto.
Qed.

Lemma elem_of_foldl_intersection (x : string) (X : StrSet) (l : list StrSet) :
  x ∈ foldl (∩) X l ↔ ∀ Y, Y ∈ X :: l → x ∈ Y.
Proof.
  revert X. induction l as [|Y l IH]; intros X; cbn; [set_solver|]. rewrite IH.
  setoid_rewrite elem_of_cons. split.
  - intros Hall Z HZ. pose proof (Hall (X ∩ Y) ltac:(auto)) as [??]%elem_of_intersection.
    destruct HZ as [->|[->|?]%elem_of_cons]; auto.
  - intros Hall Z [->|HZ]; [apply elem_of_intersection; split|]; apply Hall; auto using list_elem_of_here, list_elem_of_further.
Qed.

Section order.
Context `{Netaddr} `{SignedJson} `{Store : StateResolutionStore} (room : string).

(** The store's answer does not depend on the order of the sets. *)
Hypothesis store_difference_perm : ∀ sets sets',
  sets ≡ₚ sets' → get_auth_chain_difference room sets = get_auth_chain_difference room sets'.

Lemma seperate_perm (O O' : SetOrder) ss ss' :
  ss ≡ₚ ss' → @_seperate O ss = @_seperate O' ss'.
Proof.
  intros Hp.
  assert (all_keys ss = all_keys ss') as Hk.
  { apply set_eq. intros k. rewrite !elem_of_all_keys. by setoid_rewrite Hp. }
  assert (∀ key, ids_at ss key = ids_at ss' key) as Hi.
  { intros key. apply set_eq. intros o. rewrite !elem_of_ids_at. by setoid_rewrite Hp. }
  rewrite (surjective_pairing (@_seperate O ss)), (surjective_pairing (@_seperate O' ss')).
  f_equal; apply map_eq; intros key;
    destruct (@seperate_lookup O ss key) as [E1 E2], (@seperate_lookup O' ss' key) as [E1' E2'].
  - by rewrite E1, E1', Hk, Hi.
  - by rewrite E2, E2', Hk, Hi.
Qed.

Lemma auth_chain_difference_perm fuel ss ss' em :
  ss ≡ₚ ss' →
  _get_auth_chain_difference fuel room ss em = _get_auth_chain_difference fuel room ss' em.
Proof.
  intros Hp. unfold _get_auth_chain_difference. apply bind_ext; [done|]. intros chains _.
  case_decide.
  { f_equal. apply store_difference_perm. by rewrite Hp. }
  set (f := split_state_set em chains).
  assert ((f <$> ss).*1 ≡ₚ (f <$> ss').*1) as Hp1 by (by rewrite Hp).
  assert ((f <$> ss).*2 ≡ₚ (f <$> ss').*2) as Hp2 by (by rewrite Hp).
  rewrite (store_difference_perm _ _ Hp1).
  destruct ((f <$> ss).*2) as [|X l] eqn:E, ((f <$> ss').*2) as [|X' l'] eqn:E'; try done.
  - by apply Permutation_nil_l in Hp2.
  - by apply Permutation_nil_r in Hp2.
  - do 2 f_equal. apply set_eq. intros x. rewrite !elem_of_difference.
    rewrite !elem_of_foldl_union, !elem_of_foldl_intersection. by setoid_rewrite Hp2.
Qed.

End order.

(** ** The event map as a cache of the store *)

(** What the resolution relies on: the store is a fixed table of events, of
    which [get_events] returns the requested part. *)
Class StoreLaws `{StateResolutionStore} := {
  store_db : string → option EventBase;
  get_events_lookup ids i : get_events ids !! i = if decide (i ∈ ids) then store_db i else None
}.

Create HintDb caches.

Section cache.
Context `{NA : Netaddr} `{SJ : SignedJson} `{Laws : StoreLaws} `{Order : SetOrder}.

(** The event an id stands for: an entry of the map, or else of the store. *)
Definition view (em : EventMap) (i : string) : option EventBase :=
  match em !! i with Some e => Some e | None => store_db i end.

(** [em'] is [em] with events of the store added. *)
Definition grows (em em' : EventMap) : Prop :=
  em ⊆ em' ∧ ∀ i e, em' !! i = Some e → view em i = Some e.

Lemma grows_view em em' i : grows em em' → view em' i = view em i.
Proof.
  intros [Hsub Hnew]. unfold view at 1. destruct (em' !! i) as [e|] eqn:E.
  - symmetry. by apply Hnew.
  - unfold view. by rewrite (lookup_weaken_None em em' i E Hsub).
Qed.

#[export] Instance grows_preorder : PreOrder grows.
Proof.
  split.
  - intros em. split; [done|]. intros i e E. unfold view. by rewrite E.
  - intros em1 em2 em3 H1 H2. split; [by etrans; [apply H1|apply H2]|].
    intros i e E. rewrite <-(grows_view em1 em2 i H1). by apply H2.
Qed.

Lemma grows_lookup em em' i e : grows em em' → em !! i = Some e → em' !! i = Some e.
Proof. intros [Hsub _] Hi. by apply (lookup_weaken em). Qed.

(** A computation that only adds events of the store. *)
Definition caches {A} (m : SE EventMap A) : Prop :=
  ∀ em a em', m em = Ok (a, em') → grows em em'.

Lemma caches_ret {A} (a : A) : caches (mret a).
Proof. intros em ? ? E. unfold mret, SE_ret in E. by simplify_eq. Qed.

Lemma caches_lift {A} (m : res A) : caches (lift m).
Proof. intros em ? ? (? & _ & ?)%lift_Ok. by simplify_eq. Qed.

Lemma caches_get : caches get_state.
Proof. intros em ? ? E. unfold get_state in E. by simplify_eq. Qed.

Lemma caches_bind {A B} (m : SE EventMap A) (f : A → SE EventMap B) :
  caches m → (∀ a, caches (f a)) → caches (m ≫= f).
Proof.
  intros Hm Hf em b em' (a & em1 & H1 & H2)%SE_bind_Ok. etrans; [by eapply Hm|by eapply Hf].
Qed.

Lemma caches_foldS {A S} (f : S → A → SE EventMap S) s l :
  (∀ s x, caches (f s x)) → caches (foldS f s l).
Proof.
  intros Hf. revert s. induction l as [|x l IH]; intros s; cbn; [apply caches_ret|].
  apply caches_bind; auto.
Qed.

#[local] Hint Resolve caches_ret caches_lift caches_get caches_foldS : caches.
#[local] Hint Extern 2 (caches (_ ≫= _)) => apply caches_bind; [|intros] : caches.
#[local] Hint Extern 3 (caches (match ?x with _ => _ end)) => destruct x : caches.

(** [_get_event] returns what the id stands for, and remembers it. *)
Lemma get_event_Ok room i allow em o em' :
  _get_event room i allow em = Ok (o, em') →
  grows em em' ∧ o = view em i ∧ em' !! i = o ∧
  (∀ e, o = Some e → ev_room_id e = Some room) ∧ (o = None → allow = true).
Proof.
  unfold _get_event. intros Hg. inv_SE Hg.
  unfold get_state in E. simplify_eq. unfold get_state in E1. simplify_eq.
  assert (grows s s1 ∧ s1 !! i = view s i) as [Hgr Hv].
  { destruct (s !! i) as [e|] eqn:Ei.
    - unfold mret, SE_ret in E0. simplify_eq. split; [done|]. unfold view. by rewrite Ei.
    - unfold update_event_map in E0. simplify_eq.
      assert (∀ j, (get_events [i] ∪ s) !! j = if decide (j = i) then store_db i else s !! j) as Hj.
      { intros j. rewrite lookup_union, get_events_lookup.
        destruct (decide (j = i)) as [->|Hne].
        - rewrite decide_True by set_solver. rewrite Ei. by destruct (store_db i).
        - rewrite decide_False by set_solver. by destruct (s !! j). }
      split; [split|].
      + apply map_subseteq_spec. intros j e Hs. rewrite Hj. by case_decide; [congruence|].
      + intros j e. rewrite Hj. unfold view. case_decide as Hd; [subst j; by rewrite Ei|].
        by intros ->.
      + rewrite Hj, decide_True by done. unfold view. by rewrite Ei. }
  destruct (s1 !! i) as [e|] eqn:E2.
  - apply SE_bind_Ok in Hg as (r & s' & Hr & Hg). apply lift_Ok in Hr as (r' & Hr & [= -> ->]).
    destruct (String.eqb r' room) eqn:Er; [|by apply lift_Ok in Hg as (? & ? & ?)].
    apply (inj Ok) in Hg as [= <- <-]. split_and!; try done.
    intros e' [= <-]. apply String.eqb_eq in Er as ->.
    unfold Event.room_id, dict_property in Hr. by destruct (ev_room_id e); simplify_eq.
  - destruct allow; [|by apply lift_Ok in Hg as (? & ? & ?)].
    by apply (inj Ok) in Hg as [= <- <-].
Qed.

Lemma caches_get_event room i allow : caches (_get_event room i allow).
Proof. intros em o em' Hg. by apply get_event_Ok in Hg as [? _]. Qed.
#[local] Hint Resolve caches_get_event : caches.

Lemma caches_get_event_required room i : caches (_get_event_required room i).
Proof. unfold _get_event_required. eauto with caches. Qed.
#[local] Hint Resolve caches_get_event_required : caches.

Lemma get_event_required_Ok room i em e em' :
  _get_event_required room i em = Ok (e, em') →
  grows em em' ∧ view em i = Some e ∧ em' !! i = Some e ∧ ev_room_id e = Some room.
Proof.
  unfold _get_event_required. intros Hg. inv_SE Hg.
  apply get_event_Ok in E as (Hgr & -> & Hi & Hr & _). simplify_eq.
  destruct (view em i) as [e'|] eqn:Ev; [|done]. simplify_eq. eauto.
Qed.

Lemma event_map_getitem_Ok i em e em' :
  event_map_getitem i em = Ok (e, em') → em' = em ∧ em !! i = Some e.
Proof.
  unfold event_map_getitem. intros Hg. inv_SE Hg. unfold get_state in E. simplify_eq.
  case_match; by simplify_eq.
Qed.

Lemma caches_getitem i : caches (event_map_getitem i).
Proof. unfold event_map_getitem. eauto with caches. Qed.
#[local] Hint Resolve caches_getitem : caches.

Lemma caches_find_auth_event room typ ids : caches (find_auth_event room typ ids).
Proof. induction ids; cbn; eauto 10 with caches. Qed.
#[local] Hint Resolve caches_find_auth_event : caches.

Lemma caches_power_level room i : caches (_get_power_level_for_sender room i).
Proof. unfold _get_power_level_for_sender. eauto 20 with caches. Qed.
#[local] Hint Resolve caches_power_level : caches.
Lemma caches_add_power_level room m i : caches (add_power_level room m i).
Proof. unfold add_power_level. eauto with caches. Qed.
#[local] Hint Resolve caches_add_power_level : caches.

Lemma caches_add_chain fuel room fcs graph stack : caches (add_chain_loop fuel room fcs graph stack).
Proof.
  revert graph stack. induction fuel; intros graph [|eid stack]; cbn; eauto with caches.
Qed.
#[local] Hint Resolve caches_add_chain : caches.

Lemma caches_power_sort fuel room ids fcs : caches (_reverse_topological_power_sort fuel room ids fcs).
Proof.
  unfold _reverse_topological_power_sort, _add_event_and_auth_chain_to_graph. eauto 20 with caches.
Qed.

Lemma caches_own room e : caches (own_auth_events room e).
Proof. unfold own_auth_events. eauto 20 with caches. Qed.
Lemma caches_resolved room rs auth keys : caches (resolved_auth_events room rs auth keys).
Proof. unfold resolved_auth_events, resolved_auth_step. eauto 20 with caches. Qed.
#[local] Hint Resolve caches_power_sort caches_own caches_resolved : caches.

Lemma caches_check room rv rs i : caches (iterative_auth_check room rv rs i).
Proof. unfold iterative_auth_check. eauto 20 with caches. Qed.
#[local] Hint Resolve caches_check : caches.

Lemma caches_checks room rv ids rs : caches (_iterative_auth_checks room rv ids rs).
Proof. unfold _iterative_auth_checks. eauto with caches. Qed.

Lemma caches_mainline_loop fuel room pl : caches (mainline_loop fuel room pl).
Proof. revert pl. induction fuel; intros [[]|]; cbn; eauto 20 with caches. Qed.

Lemma caches_depth_loop fuel room mm o : caches (mainline_depth_loop fuel room mm o).
Proof. revert o. induction fuel; intros [|]; cbn; eauto 20 with caches. Qed.
#[local] Hint Resolve caches_checks caches_mainline_loop caches_depth_loop : caches.

Lemma caches_add_order fuel mm om i : caches (add_order fuel mm om i).
Proof. unfold add_order, _get_mainline_depth_for_event. eauto 20 with caches. Qed.
#[local] Hint Resolve caches_add_order : caches.

Lemma caches_mainline_sort fuel room ids pl : caches (_mainline_sort fuel room ids pl).
Proof. unfold _mainline_sort. eauto 20 with caches. Qed.
Lemma caches_power_events fcs : caches (power_events_of fcs).
Proof. unfold power_events_of. eauto 20 with caches. Qed.
#[local] Hint Resolve caches_mainline_sort caches_power_events : caches.

(** ** Which auth events an event is checked against *)

(** The event's own auth events: for a key, the last of them that is known,
    was not rejected and has that type and state key. *)
Definition own_selection (em : EventMap) (e : EventBase) (own : StateMap EventBase) : Prop :=
  ∀ k, own !! k = last (filter (λ a, rejected_reason a = None ∧ type_and_key a = Ok k)
                          (omap (view em) (auth_event_ids e))).

Lemma own_auth_events_spec room e em auth em' :
  own_auth_events room e em = Ok (auth, em') → own_selection em e auth.
Proof.
  unfold own_auth_events, own_selection. generalize (auth_event_ids e) as ids. intros ids Hf k.
  assert (∀ auth0 em0, grows em em0 →
    foldS (λ (auth_events : StateMap EventBase) aid,
      ev ← _get_event room aid true;
      match ev with
      | None => mret auth_events
      | Some ev =>
          if rejected_reason ev is None then
            k ← lift (type_and_key ev); mret (<[k := ev]> auth_events)
          else mret auth_events
      end) auth0 ids em0 = Ok (auth, em') →
    auth !! k = match last (filter (λ a, rejected_reason a = None ∧ type_and_key a = Ok k)
                              (omap (view em) ids)) with
                | Some a => Some a | None => auth0 !! k end) as Hgen.
  { clear Hf. induction ids as [|aid ids IH]; intros auth0 em0 Hg Hf; cbn [foldS] in Hf.
    { by apply (inj Ok) in Hf as [= <- <-]. }
    apply SE_bind_Ok in Hf as (auth1 & em1 & Hs & Hf).
    apply SE_bind_Ok in Hs as (o & em2 & Hev & Hs). apply get_event_Ok in Hev as (Hg' & -> & _).
    rewrite (grows_view _ _ _ Hg) in Hs. cbn [omap list_omap].
    destruct (view em aid) as [ev|] eqn:Ev; cbn iota.
    2:{ apply (inj Ok) in Hs as [= <- <-]. eapply IH; [|done]. by etrans. }
    rewrite filter_cons. destruct (rejected_reason ev) eqn:Er.
    { apply (inj Ok) in Hs as [= <- <-]. rewrite decide_False by naive_solver.
      eapply IH; [|done]. by etrans. }
    apply SE_bind_Ok in Hs as (k1 & em4 & (k' & Hk & [= -> ->])%lift_Ok & Hs).
    apply (inj Ok) in Hs as [= <- <-]. rewrite (IH _ _ ltac:(by etrans) Hf).
    destruct (decide (k = k')) as [->|Hne].
    - rewrite decide_True, last_cons, lookup_insert_eq by done. by case_match.
    - rewrite decide_False by (intros [_ Hk2]; rewrite Hk in Hk2; by simplify_eq). by rewrite lookup_insert_ne. }
  rewrite (Hgen ∅ em ltac:(done) Hf). by case_match.
Qed.

(** The resolved state takes precedence, for the types the event needs. *)
Definition preferred (em : EventMap) (rs : StateMap string) (own : StateMap EventBase)
    (keys : StateKeys) (auth : StateMap EventBase) : Prop :=
  ∀ k, auth !! k =
    match (if decide (k ∈ keys) then rs !! k ≫= view em else None) with
    | Some a => if rejected_reason a is None then Some a else own !! k
    | None => own !! k
    end.

Lemma resolved_auth_step_spec room rs own (dn : StateKeys) key em em0 auth0 auth1 em1 :
  preferred em rs own dn auth0 → key ∉ dn → grows em em0 →
  resolved_auth_step room rs auth0 key em0 = Ok (auth1, em1) →
  preferred em rs own (dn ∪ {[key]}) auth1 ∧ grows em em1.
Proof.
  intros Hpref Hfresh Hg Hs. unfold resolved_auth_step in Hs.
  assert (∀ k, k ≠ key → auth1 !! k = auth0 !! k → auth1 !! k =
    match (if decide (k ∈ dn ∪ {[key]}) then rs !! k ≫= view em else None) with
    | Some a => if rejected_reason a is None then Some a else own !! k
    | None => own !! k
    end) as Hother.
  { intros k Hne ->. rewrite (Hpref k).
    by destruct (decide (k ∈ dn)), (decide (k ∈ dn ∪ {[key]})); set_solver. }
  assert (auth0 !! key = own !! key) as Hkey.
  { rewrite (Hpref key). by rewrite decide_False. }
  destruct (rs !! key) as [i|] eqn:Ers.
  2:{ apply (inj Ok) in Hs as [= <- <-]. split; [|done]. intros k.
      destruct (decide (k = key)) as [->|Hne]; [|by apply Hother].
      rewrite decide_True by set_solver. by rewrite Ers. }
  apply SE_bind_Ok in Hs as (ev & em2 & (Hg2 & Hv & Hi & _)%get_event_required_Ok & Hs).
  rewrite (grows_view _ _ _ Hg) in Hv.
  destruct (rejected_reason ev) eqn:Er.
  - apply (inj Ok) in Hs as [= <- <-]. split; [|by etrans]. intros k.
    destruct (decide (k = key)) as [->|Hne]; [|by apply Hother].
    rewrite decide_True by set_solver. rewrite Ers. cbn. by rewrite Hv, Er.
  - apply SE_bind_Ok in Hs as (e & em3 & [-> He]%event_map_getitem_Ok & Hs).
    simplify_eq. apply (inj Ok) in Hs as [= <- <-]. split; [|by etrans]. intros k.
    destruct (decide (k = key)) as [->|Hne]; [|by apply Hother; [|rewrite lookup_insert_ne]].
    rewrite lookup_insert_eq, decide_True by set_solver. rewrite Ers. cbn. by rewrite Hv, Er.
Qed.

Lemma resolved_auth_events_spec room rs own (keys : StateKeys) em auth em' :
  resolved_auth_events room rs own keys em = Ok (auth, em') → preferred em rs own keys auth.
Proof.
  assert (∀ (l : list StateKey) (dn : StateKeys) auth0 em0,
    NoDup l → (∀ k, k ∈ l → k ∉ dn) → preferred em rs own dn auth0 → grows em em0 →
    foldS (resolved_auth_step room rs) auth0 l em0 = Ok (auth, em') →
    preferred em rs own (dn ∪ list_to_set l) auth) as Hloop.
  { induction l as [|key l IH]; intros dn auth0 em0 Hnd Hfresh Hpref Hg Hf.
    { apply (inj Ok) in Hf as [= <- <-]. cbn. by rewrite union_empty_r_L. }
    apply NoDup_cons in Hnd as [Hk Hnd]. cbn [foldS] in Hf.
    apply SE_bind_Ok in Hf as (auth1 & em1 & Hs & Hf).
    eapply resolved_auth_step_spec in Hs as [Hpref' Hg']; [|done|apply Hfresh; left|done].
    cbn [list_to_set]. rewrite (assoc_L (∪)).
    eapply IH; try done. intros k Hin. specialize (Hfresh k). set_solver. }
  intros Hf. rewrite <-(union_empty_l_L keys).
  replace keys with (list_to_set (iter_set keys) : StateKeys) by (apply set_eq; intros k;
    by rewrite elem_of_list_to_set, elem_of_iter_set).
  eapply (Hloop (iter_set keys) ∅ own em); [apply iter_set_NoDup|set_solver| |done|done].
  intros k. by rewrite decide_False by set_solver.
Qed.

(** ** One check *)

(** The auth events [e] is checked against when the state is [rs]: its own
    ones, with those of [rs] in their place where there are any. They are a
    function of [em], [rs] and [e]: [auth_for_functional]. *)
Definition auth_for (rv : RoomVersion) (em : EventMap) (rs : StateMap string) (e : EventBase)
    (auth : StateMap EventBase) : Prop :=
  ∃ (own : StateMap EventBase) (keys : StateKeys),
    own_selection em e own ∧ auth_types_for_event rv e = Ok keys ∧ preferred em rs own keys auth.

(** What one check does to the state: an event that was not rejected before
    and passes replaces the entry of its key; otherwise nothing changes. *)
Inductive check_step (rv : RoomVersion) (em : EventMap) (rs : StateMap string) (i : string)
    (e : EventBase) : StateMap string → Prop :=
  | step_rejected : rejected_reason e ≠ None → check_step rv em rs i e rs
  | step_denied auth ex : rejected_reason e = None → auth_for rv em rs e auth →
      check_state_dependent_auth_rules e (map_to_list auth).*2 = Raise ex → is_AuthError ex = true →
      check_step rv em rs i e rs
  | step_accepted auth b k : rejected_reason e = None → auth_for rv em rs e auth →
      check_state_dependent_auth_rules e (map_to_list auth).*2 = Ok b → type_and_key e = Ok k →
      check_step rv em rs i e (<[k := i]> rs).

Lemma view_preferred em em' rs own keys auth :
  grows em em' → preferred em' rs own keys auth → preferred em rs own keys auth.
Proof.
  intros Hg Hp k. rewrite (Hp k). destruct (decide (k ∈ keys)), (rs !! k); cbn; try done.
  by rewrite (grows_view _ _ _ Hg).
Qed.

Lemma auth_for_grows rv em em' rs e auth :
  grows em em' → auth_for rv em' rs e auth → auth_for rv em rs e auth.
Proof.
  intros Hg (own & keys & Hown & Hk & Hp). exists own, keys. split_and!; [|done|].
  - intros k. rewrite (Hown k). f_equal. f_equal.
    induction (auth_event_ids e) as [|a ids IH]; [done|]. cbn [omap list_omap].
    by rewrite (grows_view _ _ _ Hg), IH.
  - by eapply view_preferred.
Qed.

Lemma auth_for_functional rv em rs e auth auth' :
  auth_for rv em rs e auth → auth_for rv em rs e auth' → auth = auth'.
Proof.
  intros (own & keys & Hown & Hk & Hp) (own' & keys' & Hown' & Hk' & Hp').
  assert (own = own') as <- by (apply map_eq; intros k; by rewrite (Hown k), (Hown' k)).
  rewrite Hk in Hk'. simplify_eq. apply map_eq. intros k. by rewrite (Hp k), (Hp' k).
Qed.

Lemma check_step_functional rv em rs i e rs1 rs2 :
  check_step rv em rs i e rs1 → check_step rv em rs i e rs2 → rs1 = rs2.
Proof.
  intros [?|auth ex ? Ha ??|auth b k ? Ha ??] [?|auth' ex' ? Ha' ??|auth' b' k' ? Ha' ??];
    try done; pose proof (auth_for_functional _ _ _ _ _ _ Ha Ha') as <-; congruence.
Qed.

Lemma check_step_grows rv em em' rs i e rs' :
  grows em em' → check_step rv em' rs i e rs' → check_step rv em rs i e rs'.
Proof.
  intros Hg [? | | ]; [by apply step_rejected|eapply step_denied|eapply step_accepted];
    eauto using auth_for_grows.
Qed.

Lemma iterative_auth_check_spec room rv rs i em rs' em' :
  iterative_auth_check room rv rs i em = Ok (rs', em') →
  ∃ e, em !! i = Some e ∧ check_step rv em rs i e rs'.
Proof.
  unfold iterative_auth_check. intros Hc.
  apply SE_bind_Ok in Hc as (e & em1 & [-> He]%event_map_getitem_Ok & Hc).
  exists e. split; [done|].
  apply SE_bind_Ok in Hc as (own & em2 & Hown & Hc).
  pose proof (caches_own _ _ _ _ _ Hown) as Hg.
  apply own_auth_events_spec in Hown.
  apply SE_bind_Ok in Hc as (? & ? & (keys & Hkeys & [= -> ->])%lift_Ok & Hc).
  apply SE_bind_Ok in Hc as (auth & em3 & Hauth%resolved_auth_events_spec & Hc).
  apply (view_preferred _ _ _ _ _ _ Hg) in Hauth.
  destruct (rejected_reason e) eqn:Er.
  { apply (inj Ok) in Hc as [= <- <-]. apply step_rejected. by rewrite Er. }
  apply lift_Ok in Hc as (r & Hc & [= -> ->]). unfold catch in Hc.
  destruct (check_state_dependent_auth_rules e _) as [b|ex] eqn:Echeck; cbn in Hc.
  - unfold type_and_key, state_key, dict_property in Hc.
    destruct (ev_state_key e) as [sk|] eqn:Ek; cbn in Hc; [|done].
    apply (inj Ok) in Hc as <-. eapply step_accepted; [done|by exists own, keys|done|].
    unfold type_and_key, state_key, dict_property. by rewrite Ek.
  - destruct (is_AuthError ex) eqn:Ex; simplify_eq.
    eapply step_denied; [done|by exists own, keys|done|done].
Qed.

(** ** The sequence of checks *)

(** The checks of a list of events, one after the other. *)
Inductive check_steps (rv : RoomVersion) (em : EventMap) : StateMap string → list string → StateMap string → Prop :=
  | steps_nil rs : check_steps rv em rs [] rs
  | steps_cons rs i e rs1 ids rs2 :
      view em i = Some e → check_step rv em rs i e rs1 → check_steps rv em rs1 ids rs2 →
      check_steps rv em rs (i :: ids) rs2.

Lemma iterative_auth_checks_spec room rv ids base em rs em' :
  _iterative_auth_checks room rv ids base em = Ok (rs, em') → check_steps rv em base ids rs.
Proof.
  unfold _iterative_auth_checks.
  assert (∀ em0, grows em em0 → foldS (iterative_auth_check room rv) base ids em0 = Ok (rs, em') →
    check_steps rv em base ids rs) as Hgen; [|by apply Hgen].
  revert base. induction ids as [|i ids IH]; intros base em0 Hg Hf.
  { apply (inj Ok) in Hf as [= <- <-]. constructor. }
  cbn in Hf. apply SE_bind_Ok in Hf as (rs1 & em1 & Hs & Hf).
  pose proof (caches_check _ _ _ _ _ _ _ Hs) as Hg1.
  apply iterative_auth_check_spec in Hs as (e & He & Hstep).
  econstructor; [|by eapply check_step_grows|].
  - rewrite <-(grows_view _ _ _ Hg). unfold view. by rewrite He.
  - eapply IH; [|done]. by etrans.
Qed.

Lemma check_steps_functional rv em rs ids rs1 rs2 :
  check_steps rv em rs ids rs1 → check_steps rv em rs ids rs2 → rs1 = rs2.
Proof.
  intros H1. revert rs2. induction H1 as [rs|rs i e rs1 ids rs1' Hv Hs _ IH]; intros rs2 H2;
    inversion H2 as [|? ? e' rs2' ? ? Hv' Hs']; simplify_eq; [done|].
  pose proof (check_step_functional _ _ _ _ _ _ _ Hs Hs') as <-. by apply IH.
Qed.

Lemma check_steps_grows rv em em' rs ids rs' :
  grows em em' → check_steps rv em' rs ids rs' → check_steps rv em rs ids rs'.
Proof.
  intros Hg. induction 1 as [|rs i e rs1 ids rs2 Hv Hs _ IH]; [constructor|].
  rewrite (grows_view _ _ _ Hg) in Hv. econstructor; [done|by eapply check_step_grows|done].
Qed.

(** Where the entries of the final state come from. *)
Lemma check_steps_entry rv em base ids rs k i :
  check_steps rv em base ids rs → rs !! k = Some i →
  base !! k = Some i ∨
  (i ∈ ids ∧ ∃ e rs0 auth b, view em i = Some e ∧ type_and_key e = Ok k ∧
     rejected_reason e = None ∧ auth_for rv em rs0 e auth ∧
     check_state_dependent_auth_rules e (map_to_list auth).*2 = Ok b).
Proof.
  induction 1 as [rs|rs j e rs1 ids rs2 Hv Hstep Hsteps IH]; [by left|].
  intros Hk. destruct (IH Hk) as [Hb|(Hin & Hrest)]; [|right; split; [by right|done]].
  destruct Hstep as [?|auth ex ???? |auth b k' ???? ]; [by left..|].
  destruct (decide (k' = k)) as [->|Hne].
  - rewrite lookup_insert_eq in Hb. simplify_eq. right. split; [left|]. by exists e, rs, auth, b.
  - rewrite lookup_insert_ne in Hb by done. by left.
Qed.
End cache.

#[export] Hint Resolve caches_ret caches_lift caches_get caches_foldS caches_get_event
  caches_get_event_required caches_getitem caches_find_auth_event caches_power_level caches_add_power_level
  caches_add_chain caches_power_sort caches_own caches_resolved caches_check caches_checks
  caches_mainline_loop caches_depth_loop caches_add_order caches_mainline_sort
  caches_power_events : caches.
#[export] Hint Extern 2 (caches (_ ≫= _)) => apply caches_bind; [|intros] : caches.
#[export] Hint Extern 3 (caches (match ?x with _ => _ end)) => destruct x : caches.
