(* ===== verification/StateResV2Sort.v ===== *)
(** * Properties of state resolution v2: the two sorts

    The graph of conflicted auth events and the order [_reverse_topological_power_sort]
    puts it in; the mainline, the depth of an event on it and the order of
    [_mainline_sort]. Both orders are functions of the events. *)

From S2P Require Import Prelude PyOrd PyJson RoomVersions Identifiers Event EventAuth TopoSort.
From S2P Require Import StateResV2 StateResV2Props.

Section sorts.
Context `{NA : Netaddr} `{SJ : SignedJson} `{Laws : StoreLaws} `{Order : SetOrder}.

(** ** The graph of conflicted auth events *)

(** The auth events of [n] that are conflicted. *)
Definition conflicted_auth (em : EventMap) (fcs : StrSet) (n : string) : StrSet :=
  match view em n with
  | Some e => filter (λ a, a ∈ fcs) (list_to_set (auth_event_ids e))
  | None => ∅
  end.

Lemma conflicted_auth_grows em em' fcs n :
  grows em em' → conflicted_auth em' fcs n = conflicted_auth em fcs n.
Proof. intros Hg. unfold conflicted_auth. by rewrite (grows_view em em'). Qed.

Lemma conflicted_auth_sub em fcs n a : a ∈ conflicted_auth em fcs n → a ∈ fcs.
Proof. unfold conflicted_auth. destruct (view em n); set_solver. Qed.

(** What the inner loop does for [eid]: edges to its conflicted auth events,
    the new ones pushed. *)
Lemma add_auth_edges_spec fcs eid ids graph stack :
  is_Some (graph !! eid) →
  let r := foldl (add_auth_edges fcs eid) (graph, stack) ids in
  let new := filter (λ a, a ∈ fcs) (list_to_set ids) in
  r.1 = <[eid := new ∪ default ∅ (graph !! eid)]> graph ∧
  (∃ pushed, r.2 = pushed ++ stack ∧ (length pushed ≤ length ids)%nat ∧
     ∀ a, a ∈ pushed ↔ a ∈ new ∧ graph !! a = None).
Proof.
  revert graph stack. induction ids as [|a ids IH]; intros graph stack [es Hes].
  { cbn. split; [|by exists []; set_solver].
    replace (filter _ ∅ ∪ _) with es; [by rewrite insert_id|]. rewrite Hes. cbn. set_solver. }
  cbn [foldl]. destruct (decide (a ∈ fcs)) as [Ha|Ha].
  - replace (add_auth_edges fcs eid (graph, stack) a) with
      (<[eid := {[a]} ∪ es]> graph, if graph !! a is Some _ then stack else a :: stack)
      by (unfold add_auth_edges; by rewrite decide_True, Hes).
    destruct (IH (<[eid := {[a]} ∪ es]> graph)
      (if graph !! a is Some _ then stack else a :: stack)) as (H1 & pushed & H2 & Hlen & H3).
    { rewrite lookup_insert_eq. eauto. }
    rewrite lookup_insert_eq in H1. cbn [default] in H1. unfold id in H1. split.
    + rewrite H1, insert_insert_eq. f_equal. rewrite Hes. cbn.
      clear -Ha. set_solver.
    + assert (∀ b, <[eid:={[a]} ∪ es]> graph !! b = None ↔ graph !! b = None) as Hb.
      { intros b. destruct (decide (b = eid)) as [->|Hne];
          [rewrite lookup_insert_eq|rewrite lookup_insert_ne by done]; naive_solver. }
      destruct (graph !! a) as [x|] eqn:Ea.
      * exists pushed. split; [done|]. split; [cbn; lia|]. intros b. rewrite H3, Hb. split.
        -- set_solver.
        -- intros [Hin Hn]. split; [|done]. assert (b ≠ a) by congruence. set_solver.
      * exists (pushed ++ [a]). rewrite <-app_assoc. split; [done|].
        rewrite length_app. split; [cbn; lia|]. intros b.
        rewrite elem_of_app, list_elem_of_singleton, H3, Hb. cbn.
        clear -Ha Ea. set_solver.
  - replace (add_auth_edges fcs eid (graph, stack) a) with (graph, stack)
      by (unfold add_auth_edges; by rewrite decide_False).
    destruct (IH graph stack) as (H1 & pushed & H2 & Hlen & H3); [eauto|].
    assert (filter (λ a0, a0 ∈ fcs) (list_to_set (a :: ids)) =@{StrSet}
            filter (λ a0, a0 ∈ fcs) (list_to_set ids)) as ->.
    { cbn. clear -Ha. set_solver. }
    split; [done|]. exists pushed. split; [done|]. split; [cbn; lia|done].
Qed.

(** Every node has its conflicted auth events as edges, and these are nodes
    or still to be added. *)
Definition graph_inv (em : EventMap) (fcs : StrSet) (graph : Graph) (stack : list string) : Prop :=
  ∀ n es, graph !! n = Some es →
    es = conflicted_auth em fcs n ∧ ∀ a, a ∈ es → is_Some (graph !! a) ∨ a ∈ stack.

(** A node that is on the stack again has its missing auth events above it. *)
Definition stack_inv (em : EventMap) (fcs : StrSet) (graph : Graph) (stack : list string) : Prop :=
  ∀ pre n post, stack = pre ++ n :: post → is_Some (graph !! n) →
    ∀ a, a ∈ conflicted_auth em fcs n → is_Some (graph !! a) ∨ a ∈ pre.

(** The number of auth events of the events of a set. *)
Definition auth_count (em : EventMap) (n : string) : nat :=
  match view em n with Some e => length (auth_event_ids e) | None => 0 end.
Definition total_auth (em : EventMap) (X : StrSet) : nat := sum_list_with (auth_count em) (elements X).

Lemma total_auth_remove em (X : StrSet) n :
  n ∈ X → total_auth em X = (auth_count em n + total_auth em (X ∖ {[n]}))%nat.
Proof.
  intros Hn. unfold total_auth.
  assert (elements X ≡ₚ n :: elements (X ∖ {[n]})) as Hp.
  { rewrite <-elements_union_singleton by set_solver. apply elements_proper.
    intros x. destruct (decide (x = n)); set_solver. }
  by rewrite Hp.
Qed.

(** The effect of one iteration of [while state]. *)
Record chain_step (em : EventMap) (fcs : StrSet) (graph : Graph) (eid : string)
    (stack : list string) (r : Graph * list string) (pushed : list string) : Prop := {
  cs_graph : r.1 = <[eid := conflicted_auth em fcs eid]> graph;
  cs_stack : r.2 = pushed ++ stack;
  cs_again : is_Some (graph !! eid) → pushed = [];
  cs_length : (length pushed ≤ auth_count em eid)%nat;
  cs_pushed a : a ∈ pushed → a ∈ conflicted_auth em fcs eid;
  cs_graph_inv : graph_inv em fcs r.1 r.2;
  cs_stack_inv : stack_inv em fcs r.1 r.2
}.

Lemma chain_step_spec em fcs graph eid stack e :
  graph_inv em fcs graph (eid :: stack) → stack_inv em fcs graph (eid :: stack) →
  view em eid = Some e →
  ∃ pushed, chain_step em fcs graph eid stack
    (foldl (add_auth_edges fcs eid) (<[eid := default ∅ (graph !! eid)]> graph, stack)
       (auth_event_ids e)) pushed.
Proof.
  intros Hg Hs Hv.
  destruct (add_auth_edges_spec fcs eid (auth_event_ids e)
    (<[eid := default ∅ (graph !! eid)]> graph) stack) as (H1 & pushed & H2 & Hlen & H3).
  { rewrite lookup_insert_eq. eauto. }
  set (r := foldl _ _ _) in *. clearbody r. exists pushed.
  set (ca := conflicted_auth em fcs eid).
  assert (filter (λ a, a ∈ fcs) (list_to_set (auth_event_ids e)) = ca) as Hca.
  { unfold ca, conflicted_auth. by rewrite Hv. }
  rewrite lookup_insert_eq, insert_insert_eq, Hca in H1. rewrite Hca in H3.
  replace (ca ∪ default ∅ (Some (default ∅ (graph !! eid)))) with ca in H1.
  2:{ cbn. destruct (graph !! eid) as [es|] eqn:E; cbn; [|set_solver].
      destruct (Hg _ _ E) as [-> _]. unfold ca. set_solver. }
  assert (∀ a, a ∈ pushed ↔ a ∈ ca ∧ a ≠ eid ∧ graph !! a = None) as H3'.
  { intros a. rewrite H3. destruct (decide (a = eid)) as [->|];
      [rewrite lookup_insert_eq|rewrite lookup_insert_ne by done]; naive_solver. }
  assert (∀ a, a ∈ ca → is_Some (<[eid := ca]> graph !! a) ∨ a ∈ pushed) as Hcover.
  { intros a Ha. destruct (decide (a = eid)) as [->|Hne]; [left; rewrite lookup_insert_eq; eauto|].
    rewrite lookup_insert_ne by done. destruct (graph !! a) eqn:E; [left; eauto|right].
    by apply H3'. }
  split; try done.
  - intros Hin. destruct pushed as [|a l]; [done|].
    destruct (H3' a) as [(Ha & Hne & Hn) _]; [left|].
    destruct (Hs [] eid stack eq_refl Hin a Ha) as [[??]|?%elem_of_nil]; [congruence|done].
  - unfold auth_count. by rewrite Hv.
  - by intros a (Ha & _)%H3'.
  - rewrite H1, H2. intros n es. destruct (decide (n = eid)) as [->|Hne].
    + rewrite lookup_insert_eq. intros [= <-]. split; [done|].
      intros a Ha. rewrite elem_of_app. destruct (Hcover a Ha); auto.
    + rewrite lookup_insert_ne by done. intros Hn. destruct (Hg n es Hn) as [-> Hsub].
      split; [done|]. intros a Ha. rewrite lookup_insert_is_Some, elem_of_app.
      destruct (Hsub a Ha) as [?|[->|?]%elem_of_cons]; [|by left; left|by right; right].
      destruct (decide (eid = a)); auto.
  - rewrite H1, H2. intros pre n post E Hn a Ha.
    destruct (decide (n = eid)) as [->|Hne].
    + destruct (Hcover a Ha) as [?|Hp]; [by left|]. right.
      apply app_eq_inv in E as [(k & -> & E)|(k & Hk & E)]; [|].
      * destruct k as [|x k]; cbn in E.
        { by rewrite app_nil_r in Hp. }
        injection E as Hx E. subst x. exfalso.
        destruct (H3' eid) as [(_ & ? & _) _]; [set_solver|done].
      * subst pre. set_solver.
    + rewrite lookup_insert_ne in Hn by done.
      apply app_eq_inv in E as [(k & -> & E)|(k & -> & E)].
      * destruct k as [|x k]; cbn in E.
        -- rewrite lookup_insert_is_Some.
           destruct (Hs [eid] n post) with a as [?|?%list_elem_of_singleton]; try done.
           { by rewrite <-E. }
           { destruct (decide (eid = a)); auto. }
           { subst a. auto. }
        -- injection E as Hx E. subst x. destruct (H3' n) as [(_ & _ & Hx) _]; [set_solver|].
           destruct Hn. congruence.
      * rewrite lookup_insert_is_Some, elem_of_app.
        destruct (Hs (eid :: k) n post) with a as [?|[->|?]%elem_of_cons]; try done; auto.
        { by rewrite E. }
        destruct (decide (eid = a)); auto.
Qed.

(** [U] bounds the nodes; the weight of a loop state decreases with every
    iteration. *)
Definition chain_weight (em : EventMap) (U : StrSet) (graph : Graph) (stack : list string) : nat :=
  length stack + total_auth em (U ∖ dom graph).

Lemma chain_weight_step em fcs U graph eid stack r pushed :
  eid ∈ U → chain_step em fcs graph eid stack r pushed →
  (chain_weight em U r.1 r.2 < chain_weight em U graph (eid :: stack))%nat.
Proof.
  intros Heid [Hg Hs Hagain Hlen _ _ _]. unfold chain_weight. rewrite Hg, Hs, length_app, dom_insert_L.
  destruct (graph !! eid) as [es|] eqn:E.
  - rewrite Hagain by eauto. apply elem_of_dom_2 in E.
    replace ({[eid]} ∪ dom graph) with (dom graph) by set_solver. cbn. lia.
  - apply not_elem_of_dom in E. cbn.
    rewrite (total_auth_remove em (U ∖ dom graph) eid) by set_solver.
    replace (U ∖ dom graph ∖ {[eid]}) with (U ∖ ({[eid]} ∪ dom graph)) by set_solver. lia.
Qed.

Lemma get_event_real room i allow em : real_exn (_get_event room i allow em).
Proof.
  unfold real_exn, _get_event, mbind, SE_bind, get_state, update_event_map, Event.room_id,
    dict_property, lift, mret, SE_ret.
  repeat case_match; simplify_eq; try done.
Qed.

Lemma get_event_required_real room i em : real_exn (_get_event_required room i em).
Proof.
  pose proof (get_event_real room i false em) as Hr.
  unfold real_exn, _get_event_required, mbind, SE_bind, lift in *.
  destruct (_get_event room i false em) as [[[]]|]; try done. congruence.
Qed.

(** [n] stands for an event of the room, so that [_get_event] returns one. *)
Definition known_in (em : EventMap) (room n : string) : Prop :=
  ∃ e, view em n = Some e ∧ ev_room_id e = Some room.

Lemma get_event_required_known room n em em0 :
  grows em em0 → (∃ r, _get_event_required room n em0 = Ok r) ↔ known_in em room n.
Proof.
  intros Hg. unfold known_in. rewrite <-(grows_view _ _ _ Hg). split.
  - intros [[e em1] (_ & ? & _ & ?)%get_event_required_Ok]. eauto.
  - intros (e & Hv & Hr). unfold _get_event_required, _get_event, mbind, SE_bind, get_state.
    assert (∃ em1, (if em0 !! n is Some _ then mret tt else update_event_map (get_events [n])) em0 =
      Ok (tt, em1) ∧ em1 !! n = Some e) as (em1 & -> & ->).
    { unfold view in Hv. destruct (em0 !! n) as [e'|] eqn:E.
      - exists em0. by simplify_eq.
      - eexists. split; [done|]. apply lookup_union_Some_l. by rewrite get_events_lookup, decide_True by set_solver. }
    unfold Event.room_id, dict_property. rewrite Hr. cbn. rewrite String.eqb_refl. cbn. eauto.
Qed.

(** What the traversal from a stack establishes; [P] holds of the stack and
    is kept by conflicted auth events. *)
Record chain_post (em : EventMap) (room : string) (fcs : StrSet) (P : string → Prop) (graph : Graph)
    (stack : list string) (g : Graph) (em' : EventMap) : Prop := {
  cp_inv : graph_inv em fcs g [];
  cp_keeps n : is_Some (graph !! n) ∨ n ∈ stack → is_Some (g !! n);
  cp_within n : is_Some (g !! n) → is_Some (graph !! n) ∨ P n;
  cp_cached n : is_Some (g !! n) → is_Some (graph !! n) ∨ is_Some (em' !! n) ∧ known_in em room n
}.

Lemma add_chain_loop_spec fuel room em fcs (U : StrSet) (P : string → Prop) graph stack em0 :
  graph_inv em fcs graph stack → stack_inv em fcs graph stack →
  (∀ n, P n → n ∈ U) → (∀ n, n ∈ stack → P n) →
  (∀ m n, P m → n ∈ conflicted_auth em fcs m → P n) → grows em em0 →
  match add_chain_loop fuel room fcs graph stack em0 with
  | Ok (g, em') => chain_post em room fcs P graph stack g em'
  | Raise ex => ((chain_weight em U graph stack ≤ fuel)%nat → ex ≠ OutOfFuel) ∧
                (ex = OutOfFuel ∨ ∃ n, P n ∧ ¬ known_in em room n)
  end.
Proof.
  intros Hg Hs HU Hstack HP Hgr. revert graph stack em0 Hg Hs Hstack Hgr.
  induction fuel as [|fuel IH]; intros graph [|eid stack] em0 Hg Hs Hstack Hgr; cbn.
  1,3: split; [done|set_solver|by left|by left].
  { split; [|by left]. intros Hw. unfold chain_weight in Hw. cbn in Hw. lia. }
  unfold mbind, SE_bind.
  pose proof (get_event_required_real room eid em0) as Hreal.
  pose proof (get_event_required_known room eid em em0 Hgr) as Hknown.
  destruct (_get_event_required room eid em0) as [[e em1]|ex] eqn:Ev.
  2:{ split; [intros _; unfold real_exn in Hreal; congruence|]. right. exists eid. split; [apply Hstack; left|].
      intros [? ?]%Hknown. done. }
  apply get_event_required_Ok in Ev as (Hgr1 & Hv & Hem1 & _).
  assert (known_in em room eid) as Hk by (apply Hknown; by eexists).
  rewrite (grows_view _ _ _ Hgr) in Hv.
  destruct (chain_step_spec em fcs graph eid stack e Hg Hs Hv) as [pushed Hstep].
  destruct (foldl _ _ _) as [g2 stack2] eqn:Ef.
  assert (P eid) as Heid by (apply Hstack; left).
  pose proof (chain_weight_step em fcs U _ _ _ _ _ (HU _ Heid) Hstep) as Hlt.
  destruct Hstep as [Hg2 Hst2 _ _ Hpushed Hginv Hsinv]; cbn in *.
  assert (∀ n, n ∈ stack2 → P n) as Hstack2.
  { intros n. rewrite Hst2. intros [?|?]%elem_of_app; [by eapply HP, Hpushed|].
    apply Hstack. by right. }
  specialize (IH g2 stack2 em1 Hginv Hsinv Hstack2 ltac:(by etrans)).
  destruct (add_chain_loop fuel room fcs g2 stack2 em1) as [[g em']|ex] eqn:El.
  - destruct IH as [H1 H2 H3 H4].
    pose proof (caches_add_chain _ _ _ _ _ _ _ _ El) as Hgr2.
    assert (∀ n, is_Some (g2 !! n) ↔ n = eid ∨ is_Some (graph !! n)) as Hdom.
    { intros n. rewrite Hg2, lookup_insert_is_Some. destruct (decide (eid = n)); naive_solver. }
    split; [done| | |].
    + intros n Hn. apply H2. rewrite Hdom, Hst2, elem_of_app.
      destruct Hn as [?|[->|?]%elem_of_cons]; auto.
    + intros n Hn. destruct (H3 n Hn) as [[->|?]%Hdom|?]; auto.
    + intros n Hn. destruct (H4 n Hn) as [[->|?]%Hdom|?]; auto.
      right. split; [|done]. exists e. by eapply grows_lookup.
  - destruct IH as [IH1 IH2]. split; [|done]. intros Hw. apply IH1. unfold chain_weight in *. lia.
Qed.

(** ** [_reverse_topological_power_sort] *)

(** The events reached from [ids] through conflicted auth events. *)
Inductive reached (em : EventMap) (fcs : StrSet) (ids : list string) : string → Prop :=
  | reached_start n : n ∈ ids → reached em fcs ids n
  | reached_auth m n : reached em fcs ids m → n ∈ conflicted_auth em fcs m → reached em fcs ids n.

Lemma reached_within em fcs ids n : reached em fcs ids n → n ∈ fcs ∨ n ∈ ids.
Proof. destruct 1 as [|m n _ Hn%conflicted_auth_sub]; auto. Qed.

Lemma reached_mono em fcs ids ids' n :
  (∀ i, i ∈ ids → i ∈ ids') → reached em fcs ids n → reached em fcs ids' n.
Proof. induction 2; [apply reached_start; auto|by eapply reached_auth]. Qed.

(** The graph that is sorted: the events reached from [ids], each with its
    conflicted auth events as edges. *)
Definition power_graph (em : EventMap) (fcs : StrSet) (ids : list string) (g : Graph) : Prop :=
  ∀ n es, g !! n = Some es ↔ reached em fcs ids n ∧ es = conflicted_auth em fcs n.

Lemma power_graph_functional em fcs ids ids' g g' :
  (∀ i, i ∈ ids ↔ i ∈ ids') → power_graph em fcs ids g → power_graph em fcs ids' g' → g = g'.
Proof.
  intros Hids Hg Hg'. apply map_eq. intros n. apply option_eq. intros es. rewrite (Hg n), (Hg' n).
  assert (reached em fcs ids n ↔ reached em fcs ids' n) as ->; [|done].
  split; apply reached_mono; intros i; by rewrite Hids.
Qed.

Lemma power_graph_of em fcs ids g :
  graph_inv em fcs g [] → (∀ n, n ∈ ids → is_Some (g !! n)) →
  (∀ n, is_Some (g !! n) → reached em fcs ids n) → power_graph em fcs ids g.
Proof.
  intros Hinv Hids Hr n es. split.
  - intros Hn. destruct (Hinv n es Hn) as [-> _]. split; [|done]. apply Hr. eauto.
  - intros [Hn ->]. assert (is_Some (g !! n)) as [es Hes].
    { induction Hn as [n Hn|m n _ [es Hes] Hn]; [by apply Hids|].
      destruct (Hinv m es Hes) as [-> Hsub]. by destruct (Hsub n Hn) as [?|?%elem_of_nil]. }
    destruct (Hinv n es Hes) as [-> _]. done.
Qed.

(** Fuel for the traversals from events of [ids]. *)
Definition power_fuel (em : EventMap) (fcs : StrSet) (ids : list string) : nat :=
  1 + total_auth em (fcs ∪ list_to_set ids).

Lemma total_auth_mono em (X Y : StrSet) : X ⊆ Y → (total_auth em X ≤ total_auth em Y)%nat.
Proof.
  intros Hsub. unfold total_auth.
  assert (elements Y ≡ₚ elements X ++ elements (Y ∖ X)) as ->.
  { rewrite <-elements_disj_union by set_solver. apply elements_proper.
    intros x. destruct (decide (x ∈ X)); set_solver. }
  rewrite sum_list_with_app. lia.
Qed.

Lemma closed_graph_invs em fcs g stack :
  graph_inv em fcs g [] → graph_inv em fcs g stack ∧ stack_inv em fcs g stack.
Proof.
  intros Hg. split.
  - intros n es Hn. destruct (Hg n es Hn) as [? Hsub]. split; [done|].
    intros a Ha. left. by destruct (Hsub a Ha) as [?|?%elem_of_nil].
  - intros pre n post _ [es Hn] a Ha. left. destruct (Hg n es Hn) as [-> Hsub].
    by destruct (Hsub a Ha) as [?|?%elem_of_nil].
Qed.

Lemma build_graph_spec fuel room em fcs ids all g em0 :
  (∀ n, n ∈ ids → n ∈ all) → grows em em0 → graph_inv em fcs g [] →
  match foldS (_add_event_and_auth_chain_to_graph fuel room fcs) g ids em0 with
  | Ok (g', em') =>
      graph_inv em fcs g' [] ∧
      (∀ n, is_Some (g !! n) ∨ n ∈ ids → is_Some (g' !! n)) ∧
      (∀ n, is_Some (g' !! n) → is_Some (g !! n) ∨ reached em fcs all n) ∧
      (∀ n, is_Some (g' !! n) → is_Some (g !! n) ∨ is_Some (em' !! n) ∧ known_in em room n)
  | Raise ex => ((power_fuel em fcs all ≤ fuel)%nat → ex ≠ OutOfFuel) ∧
                (ex = OutOfFuel ∨ ∃ n, reached em fcs all n ∧ ¬ known_in em room n)
  end.
Proof.
  revert g em0. induction ids as [|i ids IH]; intros g em0 Hall Hgr Hg; cbn.
  { split_and!; [done|set_solver|by left|by left]. }
  unfold mbind, SE_bind, _add_event_and_auth_chain_to_graph.
  destruct (closed_graph_invs em fcs g [i] Hg) as [Hg' Hs'].
  pose proof (add_chain_loop_spec fuel room em fcs (fcs ∪ list_to_set all) (reached em fcs all) g [i] em0
    Hg' Hs') as Hl.
  ospecialize (Hl _ _ _ _).
  { intros n [?|?]%reached_within; [set_solver|]. apply elem_of_union_r. by apply elem_of_list_to_set. }
  { intros n ->%list_elem_of_singleton. apply reached_start, Hall. left. }
  { intros m n. apply reached_auth. }
  { done. }
  destruct (add_chain_loop fuel room fcs g [i] em0) as [[g1 em1]|ex] eqn:E.
  - destruct Hl as [H1 H2 H3 H4].
    pose proof (caches_add_chain _ _ _ _ _ _ _ _ E) as Hgr1.
    specialize (IH g1 em1). unfold _add_event_and_auth_chain_to_graph in IH.
    ospecialize (IH _ _ _); [set_solver|by etrans|done|].
    destruct (foldS _ g1 ids em1) as [[g2 em2]|ex] eqn:E2; [|done].
    destruct IH as (J1 & J2 & J3 & J4).
    assert (grows em1 em2) as Hgr2.
    { eapply (caches_foldS _ _ _ (λ s x, caches_add_chain _ _ _ _ _) em1); done. }
    split_and!; [done|set_solver| |].
    + intros n Hn. destruct (J3 n Hn) as [Hn1|?]; [|by right]. apply (H3 n Hn1).
    + intros n Hn. destruct (J4 n Hn) as [Hn1|?]; [|by right].
      destruct (H4 n Hn1) as [?|[[e ?] ?]]; [by left|]. right. split; [|done].
      exists e. by eapply grows_lookup.
  - destruct Hl as [Hl1 Hl2]. split; [|done]. intros Hf. apply Hl1.
    unfold chain_weight, power_fuel in *. cbn.
    assert ((fcs ∪ list_to_set all) ∖ dom g ⊆ fcs ∪ list_to_set all) as Hsub by set_solver.
    pose proof (total_auth_mono em _ _ Hsub). lia.
Qed.

(** The first auth event of a type, among the events the ids stand for. *)
Fixpoint first_auth (em : EventMap) (typ : string) (ids : list string) : option (string * EventBase) :=
  match ids with
  | [] => None
  | a :: ids =>
      match view em a with
      | Some e => if decide (type_and_key e = Ok (typ, "")) then Some (a, e) else first_auth em typ ids
      | None => first_auth em typ ids
      end
  end.

Lemma find_auth_event_Ok room typ ids em em0 o em' :
  grows em em0 → find_auth_event room typ ids em0 = Ok (o, em') → o = first_auth em typ ids.
Proof.
  revert em0. induction ids as [|a ids IH]; intros em0 Hg Hf; cbn in Hf.
  { by apply (inj Ok) in Hf as [= <- <-]. }
  apply SE_bind_Ok in Hf as (o1 & em1 & (Hg1 & -> & _)%get_event_Ok & Hf). cbn.
  rewrite (grows_view _ _ _ Hg) in Hf. destruct (view em a) as [e|].
  - apply SE_bind_Ok in Hf as (? & ? & (k & Hk & [= -> ->])%lift_Ok & Hf). rewrite Hk.
    destruct (decide (k = (typ, ""))) as [->|Hne].
    + rewrite decide_True by done. by apply (inj Ok) in Hf as [= <- <-].
    + rewrite decide_False by (by intros [= ?]). eapply IH; [|done]. by etrans.
  - eapply IH; [|done]. by etrans.
Qed.

(** The power level of an event's sender, according to its auth events. *)
Definition sender_level (em : EventMap) (i : string) : res Z :=
  match view em i with
  | None => Raise (PlainException "Unknown event %s")
  | Some e =>
      match first_auth em EventTypes.PowerLevels (auth_event_ids e) with
      | Some (_, pl) =>
          level ← py_get (sender e) (obj_get_default "users" (JObj []) (content pl));
          match (if is_none level then Some (obj_get_default "users_default" (JInt 0) (content pl))
                 else level) with
          | None | Some JNull => Ok 0
          | Some level => py_int level
          end
      | None =>
          Ok (match first_auth em EventTypes.Create (auth_event_ids e) with
              | Some (_, create) =>
                  if obj_get "creator" (content create) is Some c
                  then (if py_eq_str c (sender e) then 100 else 0) else 0
              | None => 0
              end)
      end
  end.

Lemma power_level_Ok room i em em0 pl em' :
  grows em em0 → _get_power_level_for_sender room i em0 = Ok (pl, em') → sender_level em i = Ok pl.
Proof.
  intros Hg Hp. unfold _get_power_level_for_sender in Hp.
  apply SE_bind_Ok in Hp as (e & em1 & (Hg1 & Hv & _)%get_event_required_Ok & Hp).
  rewrite (grows_view _ _ _ Hg) in Hv. unfold sender_level. rewrite Hv.
  assert (grows em em1) as Hg' by (by etrans).
  apply SE_bind_Ok in Hp as (o & em2 & Hf & Hp).
  pose proof (caches_find_auth_event _ _ _ _ _ _ Hf) as Hg2.
  apply (find_auth_event_Ok _ _ _ em) in Hf as ->; [|done].
  destruct (first_auth em EventTypes.PowerLevels _) as [[a pl_ev]|].
  - apply SE_bind_Ok in Hp as (? & ? & (level & Hl & [= -> ->])%lift_Ok & Hp).
    rewrite Hl. cbn. apply lift_Ok in Hp as (z & Hz & [= -> ->]). done.
  - apply SE_bind_Ok in Hp as (o & em3 & Hf & Hp).
    apply (find_auth_event_Ok _ _ _ em) in Hf as ->; [|by etrans].
    destruct (first_auth em EventTypes.Create _) as [[a create]|].
    + destruct (obj_get "creator" (content create)); by apply (inj Ok) in Hp as [= <- <-].
    + by apply (inj Ok) in Hp as [= <- <-].
Qed.

(** The order [_get_power_order] puts events in. *)
Definition power_order (em : EventMap) (i : string) : Z * Z * string :=
  (match sender_level em i with Ok pl => - pl | Raise _ => 0 end,
   match view em i with Some e => origin_server_ts e | None => 0 end, i).

Lemma event_to_pl_spec room (l : list string) em em0 pls em' :
  grows em em0 →
  foldS (add_power_level room) ∅ l em0 = Ok (pls, em') →
  ∀ i, i ∈ l → ∃ pl, pls !! i = Some pl ∧ sender_level em i = Ok pl.
Proof.
  intros Hg Hf.
  assert (∀ (pls0 : StrMap Z) em0, grows em em0 →
    (∀ i pl, pls0 !! i = Some pl → sender_level em i = Ok pl) →
    foldS (add_power_level room) pls0 l em0 = Ok (pls, em') →
    (∀ i pl, pls !! i = Some pl → sender_level em i = Ok pl) ∧
    (∀ i, is_Some (pls0 !! i) ∨ i ∈ l → is_Some (pls !! i))) as Hgen.
  { clear. induction l as [|j l IH]; intros pls0 em0 Hg Hpls Hf; cbn in Hf.
    { apply (inj Ok) in Hf as [= <- <-]. split; [done|]. set_solver. }
    apply SE_bind_Ok in Hf as (pls1 & em1 & Hs & Hf).
    apply SE_bind_Ok in Hs as (pl & em2 & Hpl & Hs). apply (inj Ok) in Hs as [= <- <-].
    pose proof (caches_power_level _ _ _ _ _ Hpl) as Hg1.
    apply (power_level_Ok _ _ em) in Hpl; [|done].
    apply IH in Hf as [H1 H2]; [|by etrans|].
    - split; [done|]. intros i Hi. apply H2. rewrite lookup_insert_is_Some.
      destruct (decide (j = i)); [by left; left|].
      destruct Hi as [?|[->|?]%elem_of_cons]; auto.
    - intros i p. destruct (decide (i = j)) as [->|Hne];
        [rewrite lookup_insert_eq; by intros [= <-]|rewrite lookup_insert_ne by done; auto]. }
  apply Hgen in Hf as [H1 H2]; [|done|by intros ??; rewrite lookup_empty].
  intros i Hi. destruct (H2 i) as [pl Hpl]; [by right|]. eauto.
Qed.

(** Once the graph and the levels are there, the sort succeeds. *)
Lemma power_sort_last fuel room ids fcs em em0 g em1 pls em2 :
  grows em em0 →
  foldS (_add_event_and_auth_chain_to_graph fuel room fcs) ∅ ids em0 = Ok (g, em1) →
  foldS (add_power_level room) ∅ (map_to_list g).*1 em1 = Ok (pls, em2) →
  ∃ l, lexicographical_topological_sort (_get_power_order em2 pls) g = Ok l ∧
    power_graph em fcs ids g ∧ lex_topological (power_order em) g l.
Proof.
  intros Hgr0 Hg Hpl.
  assert (grows em em1) as Hgr1.
  { etrans; [done|]. eapply (caches_foldS _ _ _ (λ s x, caches_add_chain _ _ _ _ _) em0); done. }
  pose proof (build_graph_spec fuel room em fcs ids ids ∅ em0) as Hb. rewrite Hg in Hb.
  destruct Hb as (H1 & H2 & H3 & H4); [done|done|by intros ??; rewrite lookup_empty|].
  assert (grows em1 em2) as Hgr2 by (eapply caches_foldS, Hpl; eauto with caches).
  pose proof (event_to_pl_spec _ _ em _ _ _ Hgr1 Hpl) as Hlevels.
  assert (∀ n, is_Some (g !! n) → is_Some (em2 !! n)) as Hcached.
  { intros n Hn. destruct (H4 n Hn) as [[? He]|[[e He] _]]; [by rewrite lookup_empty in He|].
    exists e. by eapply grows_lookup. }
  destruct (sort_correct (_get_power_order em2 pls) (power_order em) g) as (l & Hl & Hlex).
  { intros n Hn. destruct (Hcached n Hn) as [e He].
    destruct (Hlevels n) as (pl & Hpln & Hlev).
    { destruct Hn as [es Hn]. apply list_elem_of_fmap. exists (n, es).
      by rewrite elem_of_map_to_list. }
    unfold _get_power_order, power_order. rewrite He, Hpln, Hlev.
    assert (view em n = Some e) as ->; [|done].
    rewrite <-(grows_view em em2) by (by etrans). unfold view. by rewrite He. }
  exists l. split_and!; [done| |done].
  apply power_graph_of; [done|by auto|]. intros n Hn. destruct (H3 n Hn) as [[? He]|?]; [|done].
  by rewrite lookup_empty in He.
Qed.

Lemma power_sort_graph fuel room ids fcs em em0 l em' :
  grows em em0 → _reverse_topological_power_sort fuel room ids fcs em0 = Ok (l, em') →
  ∃ g, power_graph em fcs ids g ∧ lex_topological (power_order em) g l.
Proof.
  unfold _reverse_topological_power_sort. intros Hgr Hs.
  apply SE_bind_Ok in Hs as (g & em1 & Hg & Hs). exists g.
  apply SE_bind_Ok in Hs as (pls & em2 & Hpl & Hs).
  apply SE_bind_Ok in Hs as (? & ? & Hget & Hs). apply (inj Ok) in Hget as [= <- <-].
  apply lift_Ok in Hs as (l' & Hsort & [= -> ->]).
  destruct (power_sort_last _ _ _ _ em _ _ _ _ _ Hgr Hg Hpl) as (k & Hk & Hpg & Hlex).
  rewrite Hk in Hsort. apply (inj Ok) in Hsort as <-. done.
Qed.

(** ** [_mainline_sort] *)

(** The chain of power level events from [pl] down. *)
Inductive pl_chain (em : EventMap) : option string → list string → Prop :=
  | chain_none : pl_chain em None []
  | chain_empty : pl_chain em (Some "") []
  | chain_cons pl e l : pl ≠ "" → view em pl = Some e →
      pl_chain em (fst <$> first_auth em EventTypes.PowerLevels (auth_event_ids e)) l →
      pl_chain em (Some pl) (pl :: l).

(** The place of an event on the mainline, counted from its oldest event,
    which has place 1; the mainline lists the newest first. *)
Definition on_mainline (ml : list string) (i : string) (d : Z) : Prop :=
  ∃ pre post, ml = pre ++ i :: post ∧ (i ∉ pre) ∧ d = Z.of_nat (length post) + 1.

(** The mainline depth of an event: the place of the first event of its own
    chain of power levels which is on the mainline, or 0. *)
Inductive mainline_depth (em : EventMap) (ml : list string) : EventBase → Z → Prop :=
  | depth_here e d : on_mainline ml (event_id e) d → mainline_depth em ml e d
  | depth_none e : event_id e ∉ ml →
      first_auth em EventTypes.PowerLevels (auth_event_ids e) = None → mainline_depth em ml e 0
  | depth_next e a e' d : event_id e ∉ ml →
      first_auth em EventTypes.PowerLevels (auth_event_ids e) = Some (a, e') →
      mainline_depth em ml e' d → mainline_depth em ml e d.

Lemma mainline_map_cons i ml :
  mainline_map_of (i :: ml) = <[i := Z.of_nat (length ml) + 1]> (mainline_map_of ml).
Proof.
  unfold mainline_map_of. rewrite reverse_cons, imap_app, foldl_app. cbn.
  by rewrite Nat.add_0_r, length_reverse.
Qed.

Lemma mainline_map_lookup ml i :
  match mainline_map_of ml !! i with Some d => on_mainline ml i d | None => i ∉ ml end.
Proof.
  induction ml as [|j ml IH]; [apply not_elem_of_nil|]. rewrite mainline_map_cons.
  destruct (decide (i = j)) as [->|Hne].
  { rewrite lookup_insert_eq. exists [], ml. split_and!; [done|set_solver|done]. }
  rewrite lookup_insert_ne by done. destruct (mainline_map_of ml !! i) as [d|]; [|set_solver].
  destruct IH as (pre & post & -> & Hpre & ->). exists (j :: pre), post. set_solver.
Qed.

Lemma mainline_loop_Ok fuel room pl em em0 l em' :
  grows em em0 → mainline_loop fuel room pl em0 = Ok (l, em') → pl_chain em pl l.
Proof.
  revert pl em0 l em'. induction fuel as [|fuel IH]; intros [[|c pl]|] em0 l em' Hg Hl; cbn in Hl;
    try (apply (inj Ok) in Hl as [= <- <-]; constructor); [done|].
  apply SE_bind_Ok in Hl as (e & em1 & (Hg1 & Hv & _)%get_event_required_Ok & Hl).
  rewrite (grows_view _ _ _ Hg) in Hv.
  apply SE_bind_Ok in Hl as (o & em2 & Hf & Hl).
  pose proof (caches_find_auth_event _ _ _ _ _ _ Hf) as Hg2.
  apply (find_auth_event_Ok _ _ _ em) in Hf as ->; [|by etrans].
  apply SE_bind_Ok in Hl as (rest & em3 & Hrest & Hl). apply (inj Ok) in Hl as [= <- <-].
  econstructor; [done|done|]. eapply IH; [|done]. by do 2 (etrans; [done|]).
Qed.

Lemma depth_loop_Ok fuel room ml e em em0 d em' :
  grows em em0 → mainline_depth_loop fuel room (mainline_map_of ml) (Some e) em0 = Ok (d, em') →
  mainline_depth em ml e d.
Proof.
  revert e em0. induction fuel as [|fuel IH]; intros e em0 Hg Hl; cbn in Hl;
    pose proof (mainline_map_lookup ml (event_id e)) as Hm;
    (destruct (mainline_map_of ml !! event_id e) as [d'|] eqn:Em;
      [apply (inj Ok) in Hl as [= <- <-]; by apply depth_here|]); [done|].
  apply SE_bind_Ok in Hl as (o & em2 & Hf & Hl).
  pose proof (caches_find_auth_event _ _ _ _ _ _ Hf) as Hg2.
  apply (find_auth_event_Ok _ _ _ em) in Hf as ->; [|done].
  destruct (first_auth em EventTypes.PowerLevels (auth_event_ids e)) as [[a e']|] eqn:Ef.
  - eapply depth_next; [done|done|]. eapply IH; [|done]. by etrans.
  - destruct fuel; apply (inj Ok) in Hl as [= <- <-]; by apply depth_none.
Qed.

(** The entries of [order_map]. *)
Definition order_entry (em : EventMap) (ml : list string) (i : string) (o : Z * Z * string) : Prop :=
  ∃ e d, view em i = Some e ∧ mainline_depth em ml e d ∧ o = (d, origin_server_ts e, i).

Lemma add_order_spec fuel ml ids em em0 (om om' : StrMap (Z * Z * string)) em' :
  grows em em0 → (∀ i o, om !! i = Some o → order_entry em ml i o) →
  foldS (add_order fuel (mainline_map_of ml)) om ids em0 = Ok (om', em') →
  (∀ i o, om' !! i = Some o → order_entry em ml i o).
Proof.
  revert om em0. induction ids as [|i ids IH]; intros om em0 Hg Hom Hf; cbn in Hf.
  { by apply (inj Ok) in Hf as [= <- <-]. }
  apply SE_bind_Ok in Hf as (om1 & em1 & Hs & Hf).
  pose proof (caches_add_order _ _ _ _ _ _ _ Hs) as Hg1.
  eapply IH; [by etrans| |done]. intros j o.
  apply SE_bind_Ok in Hs as (e & ? & [-> He]%event_map_getitem_Ok & Hs).
  apply SE_bind_Ok in Hs as (d & em2 & Hd & Hs).
  apply SE_bind_Ok in Hs as (e' & ? & [-> He']%event_map_getitem_Ok & Hs).
  apply (inj Ok) in Hs as [= <- <-].
  apply SE_bind_Ok in Hd as (? & ? & (room & Hr & [= -> ->])%lift_Ok & Hd).
  pose proof (caches_depth_loop _ _ _ _ _ _ _ Hd) as Hg2.
  apply (grows_lookup _ _ _ _ Hg2) in He as He2. simplify_eq.
  apply (depth_loop_Ok _ _ _ _ em) in Hd; [|done].
  destruct (decide (j = i)) as [->|Hne]; [|rewrite lookup_insert_ne by done; apply Hom].
  rewrite lookup_insert_eq. intros [= <-]. exists e', d. split_and!; try done.
  rewrite <-(grows_view _ _ _ Hg). unfold view. by rewrite He.
Qed.

(** [l] is [ids] sorted by mainline depth, then timestamp, then id, where the
    mainline starts at [pl]. *)
Definition mainline_sorted (em : EventMap) (pl : option string) (ids l : list string) : Prop :=
  l ≡ₚ ids ∧
  (ids ≠ [] → ∃ mainline (key : string → Z * Z * string),
     pl_chain em pl mainline ∧
     (∀ i, i ∈ ids → order_entry em mainline i (key i)) ∧
     StronglySorted (key_le key) l).

Lemma mainline_sort_Ok fuel room ids pl em l em' :
  _mainline_sort fuel room ids pl em = Ok (l, em') → mainline_sorted em pl ids l.
Proof.
  unfold _mainline_sort. destruct ids as [|i0 ids0] eqn:Eids; rewrite <-?Eids.
  { intros Hs. apply (inj Ok) in Hs as [= <- <-]. done. }
  intros Hs. apply SE_bind_Ok in Hs as (mainline & em1 & Hm & Hs).
  pose proof (caches_mainline_loop _ _ _ _ _ _ Hm) as Hg1.
  apply (mainline_loop_Ok _ _ _ em) in Hm; [|done].
  apply SE_bind_Ok in Hs as (om & em2 & Ho & Hs).
  pose proof (λ H0, add_order_spec _ _ _ em _ _ _ _ Hg1 H0 Ho) as Hentry.
  specialize (Hentry ltac:(by intros ??; rewrite lookup_empty)).
  apply lift_Ok in Hs as (l' & Hs & [= -> ->]). unfold sort_by_order_map in Hs.
  apply bind_Ok in Hs as (keyed & Hk & Hs). apply (inj Ok) in Hs as <-.
  apply traverse_Ok in Hk.
  set (key := λ i, default (0, 0, i) (om !! i)).
  assert (keyed = (λ i, (key i, i)) <$> ids ∧ ∀ i, i ∈ ids → is_Some (om !! i)) as [-> Hin].
  { clear -Hk. subst key. induction Hk as [|i p ids keyed Hp _ [-> IH]].
    { split; [done|]. by intros ? ?%elem_of_nil. }
    destruct (om !! i) as [o|] eqn:E; [|done]. apply (inj Ok) in Hp as <-. split.
    - cbn. by rewrite E.
    - intros j [->|?]%elem_of_cons; eauto. }
  rewrite py_sort_decorate. split; [apply py_sort_perm|].
  intros _. exists mainline, key. split_and!; [done| |apply py_sort_sorted].
  intros i Hi. destruct (Hin i Hi) as [o Ho']. unfold key. rewrite Ho'. by apply Hentry.
Qed.
End sorts.

(** _reverse_topological_power_sort returns distinct events of the conflicted set or of
    the given ones, each after its conflicted auth events, ties broken by descending sender
    power level, then timestamp, then event id; all the given events appear when the auth
    events are acyclic. *)
Theorem power_sort_spec `{NA : Netaddr} `{SJ : SignedJson} `{Laws : StoreLaws} `{Order : SetOrder}
    fuel room ids fcs em l em' :
  _reverse_topological_power_sort fuel room ids fcs em = Ok (l, em') →
  NoDup l ∧ (∀ n, n ∈ l → n ∈ fcs ∨ n ∈ ids) ∧
  (∀ pre n post, l = pre ++ n :: post →
     (∀ a, a ∈ conflicted_auth em fcs n → a ∈ pre) ∧
     (∀ m, m ∈ post → (∀ a, a ∈ conflicted_auth em fcs m → a ∈ pre) →
        py_leb (power_order em n) (power_order em m) = true)) ∧
  (∀ depth : string → nat,
     (∀ i a, a ∈ conflicted_auth em fcs i → (depth a < depth i)%nat) → ∀ i, i ∈ ids → i ∈ l).
Proof.
  intros Hs. apply (power_sort_graph _ _ _ _ em) in Hs as (g & Hg & Hlex); [|done].
  pose proof (lex_topological_nodup _ _ _ Hlex) as Hnd.
  pose proof (λ n, lex_topological_elem _ _ _ n Hlex) as Hel.
  assert (∀ n, n ∈ l → g !! n = Some (conflicted_auth em fcs n)) as Hedges.
  { intros n Hn. apply Hel in Hn as [n' es Hes _]. by destruct (proj1 (Hg n' es) Hes) as [_ <-]. }
  split_and!; [done| | |].
  - intros n [Hn _]%Hedges%Hg. by apply (reached_within em).
  - intros pre n post E. destruct (lt_greedy _ _ _ Hlex pre n post E) as [(_ & es & Hes & Hsub) Hmin].
    rewrite Hedges in Hes by (subst l; set_solver). simplify_eq. split; [done|].
    intros m Hm Ha. assert (py_leb (power_order em n, n) (power_order em m, m) = true) as Hle.
    { apply Hmin. split.
      - apply NoDup_app in Hnd as (_ & Hd & _). intros Hp. apply (Hd m Hp). by right.
      - exists (conflicted_auth em fcs m). split; [apply Hedges; set_solver|done]. }
    cbn in Hle. apply andb_true_iff in Hle as [Hle _]. done.
  - intros depth Hd i Hi. apply Hel. apply (grounded_of_depth g depth).
    + intros m n (es & Hes & Hn). apply (Hg m) in Hes as [Hr ->].
      split; [|by apply Hd]. eexists. apply (Hg n). split; [by eapply reached_auth|done].
    + eexists. apply (Hg i). split; [by apply reached_start|done].
Qed.

(** ** The mainline order is a function of the events *)

Section mainline_functional.
Context `{NA : Netaddr} `{SJ : SignedJson} `{Laws : StoreLaws}.

Lemma pl_chain_functional em pl l l' : pl_chain em pl l → pl_chain em pl l' → l = l'.
Proof.
  intros Hl. revert l'. induction Hl as [| |pl e l Hne Hv Hl IH]; intros l' Hl';
    inversion Hl'; simplify_eq; try done. f_equal. by apply IH.
Qed.

Lemma on_mainline_elem ml i d : on_mainline ml i d → i ∈ ml.
Proof. intros (pre & post & -> & _). set_solver. Qed.

Lemma on_mainline_functional ml i d d' : on_mainline ml i d → on_mainline ml i d' → d = d'.
Proof.
  intros (pre & post & -> & Hpre & ->) (pre' & post' & E & Hpre' & ->).
  apply app_eq_inv in E as [(k & -> & E)|(k & -> & E)]; destruct k as [|x k]; simplify_eq/=;
    try done; set_solver.
Qed.

Lemma mainline_depth_functional em ml e d d' :
  mainline_depth em ml e d → mainline_depth em ml e d' → d = d'.
Proof.
  intros Hd. revert d'. induction Hd; intros d' Hd'; inversion Hd'; simplify_eq;
    eauto using on_mainline_functional; try done; exfalso; eauto using on_mainline_elem.
Qed.

Lemma order_entry_functional em ml i o o' : order_entry em ml i o → order_entry em ml i o' → o = o'.
Proof.
  intros (e & d & Hv & Hd & ->) (e' & d' & Hv' & Hd' & ->). simplify_eq.
  f_equal. f_equal. by eapply mainline_depth_functional.
Qed.

Lemma mainline_sorted_functional em pl ids ids' l l' :
  ids ≡ₚ ids' → mainline_sorted em pl ids l → mainline_sorted em pl ids' l' → l' = l.
Proof.
  intros Hids [Hp Hsort] [Hp' Hsort'].
  destruct (decide (ids = [])) as [->|Hne].
  { apply Permutation_nil_r in Hp as ->. rewrite <-Hids in Hp'.
    by apply Permutation_nil_r in Hp' as ->. }
  destruct (Hsort Hne) as (ml & key & Hml & Hkey & Hss).
  destruct Hsort' as (ml' & key' & Hml' & Hkey' & Hss').
  { intros ->. by apply Permutation_nil_r in Hids. }
  rewrite (pl_chain_functional em pl ml' ml) in Hkey' by done.
  assert (∀ i, i ∈ ids → key' i = key i) as Hsame.
  { intros i Hi. eapply order_entry_functional; [|by apply Hkey]. apply Hkey'. by rewrite <-Hids. }
  assert (l' ≡ₚ l) as Hll by (by rewrite Hp, Hp', Hids).
  apply (sorted_unique key' l' l); [|done| |done].
  - intros x y Hx Hy Heq. rewrite Hp', <-Hids in Hx, Hy.
    destruct (Hkey x Hx) as (e & d & _ & _ & E), (Hkey y Hy) as (e' & d' & _ & _ & E').
    rewrite <-Hsame in E, E' by done. congruence.
  - eapply sorted_key_ext, Hss. intros x Hx. symmetry. apply Hsame. by rewrite <-Hp.
Qed.

(** The events of [grows] maps are the same, so the order is. *)
Lemma first_auth_grows em em' typ ids : grows em em' → first_auth em' typ ids = first_auth em typ ids.
Proof.
  intros Hg. induction ids as [|a ids IH]; [done|]. cbn. by rewrite (grows_view _ _ _ Hg), IH.
Qed.

Lemma pl_chain_grows em em' pl l : grows em em' → pl_chain em' pl l → pl_chain em pl l.
Proof.
  intros Hg. induction 1 as [| |pl e l Hne Hv _ IH]; [constructor..|].
  rewrite (first_auth_grows _ _ _ _ Hg) in IH. rewrite (grows_view _ _ _ Hg) in Hv.
  by econstructor.
Qed.

Lemma mainline_depth_grows em em' ml e d :
  grows em em' → mainline_depth em' ml e d → mainline_depth em ml e d.
Proof.
  intros Hg. induction 1 as [|e Hn Hf|e a e' d Hn Hf _ IH]; [by constructor|..];
    rewrite (first_auth_grows _ _ _ _ Hg) in Hf; [by apply depth_none|by eapply depth_next].
Qed.

Lemma mainline_sorted_grows em em' pl ids l :
  grows em em' → mainline_sorted em' pl ids l → mainline_sorted em pl ids l.
Proof.
  intros Hg [Hp Hs]. split; [done|]. intros Hne. destruct (Hs Hne) as (ml & key & Hml & Hkey & Hss).
  exists ml, key. split_and!; [by eapply pl_chain_grows| |done].
  intros i Hi. destruct (Hkey i Hi) as (e & d & Hv & Hd & E). exists e, d.
  rewrite (grows_view _ _ _ Hg) in Hv. split_and!; [done|by eapply mainline_depth_grows|done].
Qed.
End mainline_functional.

(** C15: _mainline_sort returns a permutation of its events sorted by mainline depth, then
    timestamp, then event id. The mainline is the chain of power levels events from the
    resolved one down; its oldest event has depth 1 and each newer one more, and any other
    event has the depth of the first mainline event on its own chain of power levels events,
    or 0. The result does not depend on the input order nor on the fuel. The store is a
    fixed table of events. *)
Theorem mainline_sort_spec `{NA : Netaddr} `{SJ : SignedJson} `{Laws : StoreLaws}
    fuel room ids pl em l em' :
  _mainline_sort fuel room ids pl em = Ok (l, em') →
  l ≡ₚ ids ∧
  (ids ≠ [] → ∃ mainline (key : string → Z * Z * string),
     pl_chain em pl mainline ∧
     (∀ i, i ∈ ids → order_entry em mainline i (key i)) ∧
     StronglySorted (key_le key) l) ∧
  (∀ fuel' ids' l' em'', ids ≡ₚ ids' →
     _mainline_sort fuel' room ids' pl em = Ok (l', em'') → l' = l).
Proof.
  intros Hs%mainline_sort_Ok. pose proof Hs as [Hp Hsort]. split_and!; [done|done|].
  intros fuel' ids' l' em'' Hids Hs'%mainline_sort_Ok. by eapply mainline_sorted_functional.
Qed.
