(* ===== verification/StateResV2AuthDiff.v ===== *)
(** * The auth chain difference of state resolution v2

    [_get_auth_chain_difference] combines a search through the events that
    are not persisted yet with the store's answer for the persisted ones. The
    result is the difference of the full auth chains, and the search
    terminates on an acyclic set of events. *)

From S2P Require Import Prelude PyOrd PyJson RoomVersions Identifiers Event EventAuth TopoSort.
From S2P Require Import StateResV2 StateResV2Props.
From stdpp Require Import relations.

(** ** The search through unpersisted events *)

(** [x] is found from [e]: an auth event of [e], or found from one of its auth
    events that is unpersisted. *)
Inductive chain_of (em : EventMap) : EventBase → string → Prop :=
  | chain_auth e a : a ∈ auth_event_ids e → chain_of em e a
  | chain_next e a e' x : a ∈ auth_event_ids e → em !! a = Some e' → chain_of em e' x →
      chain_of em e x.

(** Searching [l] takes [k] iterations and adds [C] to the chain. *)
Definition search_adds (em : EventMap) (l : list EventBase) (k : nat) (C : StrSet) : Prop :=
  (∀ fuel rest chain, search_chain (k + fuel) em (l ++ rest) chain =
                      search_chain fuel em rest (C ∪ chain)) ∧
  ∀ x, x ∈ C ↔ ∃ e, e ∈ l ∧ chain_of em e x.

Lemma search_adds_app em l1 l2 k1 k2 C1 C2 :
  search_adds em l1 k1 C1 → search_adds em l2 k2 C2 →
  search_adds em (l1 ++ l2) (k1 + k2) (C2 ∪ C1).
Proof.
  intros [H1 E1] [H2 E2]. split.
  - intros fuel rest chain.
    rewrite <-app_assoc, <-Nat.add_assoc, H1, H2. by rewrite (assoc_L (∪)).
  - intros x. rewrite elem_of_union, E1, E2. setoid_rewrite elem_of_app. naive_solver.
Qed.

Lemma search_adds_nil em : search_adds em [] 0 ∅.
Proof.
  split; [|set_solver]. intros fuel rest chain. by rewrite union_empty_l_L.
Qed.

Lemma search_adds_list em l :
  (∀ e, e ∈ l → ∃ k C, search_adds em [e] k C) → ∃ k C, search_adds em l k C.
Proof.
  induction l as [|e l IH]; intros Hl; [eauto using search_adds_nil|].
  destruct (Hl e) as (k1 & C1 & H1); [left|].
  destruct IH as (k2 & C2 & H2); [intros; apply Hl; by right|].
  exists (k1 + k2)%nat, (C2 ∪ C1). by apply (search_adds_app _ [e]).
Qed.

(** The auth events of one event that are themselves searched. *)
Definition known (em : EventMap) (ids : list string) : list EventBase :=
  omap (λ a, em !! a) ids.

Lemma search_push (em : EventMap) ids (chain : StrSet) (to_search : list EventBase) :
  foldl (λ '(chain, to_search) auth_id,
      ({[auth_id]} ∪ chain,
       if em !! auth_id is Some auth_event then auth_event :: to_search else to_search))
    (chain, to_search) ids = (list_to_set ids ∪ chain, reverse (known em ids) ++ to_search).
Proof.
  revert chain to_search. induction ids as [|a ids IH]; intros chain to_search; cbn [foldl].
  { cbn. by rewrite union_empty_l_L. }
  rewrite IH. f_equal; [set_solver|].
  change (known em (a :: ids)) with
    (match em !! a with Some y => y :: known em ids | None => known em ids end).
  destruct (em !! a) as [e|]; [|done]. by rewrite reverse_cons, <-app_assoc.
Qed.

Section difference.
Context `{NA : Netaddr} `{SJ : SignedJson} `{Laws : StoreLaws}.
Context (em : EventMap) (depth : string → nat) (room : string).

(** The dict maps ids to the events that have them, the auth events form no
    cycle, and a persisted event has persisted auth events. *)
Hypothesis em_keys : ∀ i e, em !! i = Some e → event_id e = i.
Hypothesis em_acyclic : ∀ i e a, em !! i = Some e → a ∈ auth_event_ids e →
  is_Some (em !! a) → (depth a < depth i)%nat.
Hypothesis em_unpersisted : ∀ i e a, em !! i = None → store_db i = Some e →
  a ∈ auth_event_ids e → em !! a = None.

Lemma search_event i e : em !! i = Some e → ∃ k C, search_adds em [e] k C.
Proof.
  remember (depth i) as d eqn:Ed. revert i e Ed.
  induction d as [d IH] using lt_wf_ind. intros i e -> Hi.
  destruct (search_adds_list em (reverse (known em (auth_event_ids e)))) as (k & C & Hk & HC).
  { intros e' He'. apply elem_of_reverse, list_elem_of_omap in He' as (a & Ha & Hea).
    eapply IH; [eapply em_acyclic; [done|done|eauto]|done|done]. }
  exists (S k), (C ∪ list_to_set (auth_event_ids e)). split.
  - intros fuel rest chain. cbn. rewrite search_push, Hk. by rewrite (assoc_L (∪)).
  - intros x. rewrite elem_of_union, HC, elem_of_list_to_set. split.
    + intros [(e' & He' & Hx)|Hx].
      * apply elem_of_reverse, list_elem_of_omap in He' as (a & Ha & Hea).
        exists e. split; [left|]. by eapply chain_next.
      * exists e. split; [left|]. by apply chain_auth.
    + intros (e0 & ->%list_elem_of_singleton & Hx).
      destruct Hx as [e a Ha|e a e' x Ha Hea Hx]; [by right|left].
      exists e'. split; [|done]. apply elem_of_reverse, list_elem_of_omap. eauto.
Qed.

(** The chain of an unpersisted event: itself and what is found from it. *)
Definition is_chain (i : string) (C : StrSet) : Prop :=
  ∀ e, em !! i = Some e → ∀ x, x ∈ C ↔ x = i ∨ chain_of em e x.

Lemma search_terminates i e :
  em !! i = Some e →
  ∃ k C, is_chain i C ∧
    ∀ fuel, (k ≤ fuel)%nat → search_chain fuel em [e] {[event_id e]} = Ok C.
Proof.
  intros Hi. destruct (search_event i e Hi) as (k & C & Hk & HC).
  exists k, (C ∪ {[i]}). split.
  - intros e' ? x. simplify_eq. rewrite elem_of_union, HC, elem_of_singleton.
    setoid_rewrite list_elem_of_singleton. naive_solver.
  - intros fuel Hle. rewrite (em_keys _ _ Hi).
    replace fuel with (k + (fuel - k))%nat by lia.
    specialize (Hk (fuel - k)%nat [] {[i]}). rewrite app_nil_r in Hk. rewrite Hk.
    by destruct (fuel - k)%nat.
Qed.

Lemma chains_fold (l : list EventBase) :
  (∀ e, e ∈ l → em !! event_id e = Some e) →
  ∃ k, ∀ chains0 : StrMap StrSet,
    (∀ i C, chains0 !! i = Some C → is_Some (em !! i) ∧ is_chain i C) →
    ∃ chains : StrMap StrSet, (∀ fuel, (k ≤ fuel)%nat → foldM (λ chains event,
        chain ← search_chain fuel em [event] {[event_id event]};
        Ok (<[event_id event := chain]> chains)) chains0 l = Ok chains) ∧
      (∀ i C, chains !! i = Some C → is_Some (em !! i) ∧ is_chain i C) ∧
      (∀ i, is_Some (chains0 !! i) ∨ i ∈ event_id <$> l → is_Some (chains !! i)).
Proof.
  clear em_unpersisted. induction l as [|e l IH]; intros Hl.
  { exists 0%nat. intros chains0 H0. exists chains0. split_and!; [done|done|]. set_solver. }
  destruct IH as [k1 H1]; [intros; apply Hl; by right|].
  destruct (search_terminates (event_id e) e) as (k2 & C & HC & H2); [apply Hl; left|].
  exists (k1 `max` k2)%nat. intros chains0 H0.
  destruct (H1 (<[event_id e := C]> chains0)) as (chains & H3 & H4 & H5).
  { intros i C'. destruct (decide (i = event_id e)) as [->|Hne];
      [rewrite lookup_insert_eq|rewrite lookup_insert_ne by done; apply H0].
    intros [= <-]. split; [|done]. exists e. apply Hl. left. }
  exists chains. split_and!; [|done|].
  - intros fuel Hf. cbn. rewrite H2 by lia. cbn. apply H3. lia.
  - intros i Hi. apply H5.
    rewrite lookup_insert_is_Some. destruct (decide (event_id e = i)); [by left; left|].
    destruct Hi as [?|[->|?]%elem_of_cons]; auto.
Qed.

Lemma chains_terminate :
  ∃ k chains, (∀ fuel, (k ≤ fuel)%nat → events_to_auth_chain fuel em = Ok chains) ∧
    (∀ i C, chains !! i = Some C → is_Some (em !! i) ∧ is_chain i C) ∧
    (∀ i, is_Some (em !! i) → is_Some (chains !! i)).
Proof.
  clear em_unpersisted. destruct (chains_fold (map_to_list em).*2) as [k Hk].
  { intros e ([i e'] & -> & Hin%elem_of_map_to_list)%list_elem_of_fmap. cbn.
    by rewrite (em_keys _ _ Hin). }
  destruct (Hk ∅) as (chains & H1 & H2 & H3).
  { intros i C. by rewrite lookup_empty. }
  exists k, chains. split_and!; [done|done|]. intros i [e Hi]. apply H3. right.
  apply list_elem_of_fmap. exists e. split; [by rewrite (em_keys _ _ Hi)|].
  apply list_elem_of_fmap. exists (i, e). by rewrite elem_of_map_to_list.
Qed.

(** The difference does not depend on the fuel, once there is enough. *)
Lemma auth_difference_terminates ss :
  ∃ k r, real_exn r ∧ ∀ fuel, (k ≤ fuel)%nat → _get_auth_chain_difference fuel room ss em = r.
Proof.
  clear em_unpersisted. destruct chains_terminate as (k & chains & Hk & _ & _).
  eexists k, _. split; [|intros fuel Hf; unfold _get_auth_chain_difference; by rewrite Hk].
  cbn. real.
Qed.

(** ** Full auth chains *)

(** [a] is an auth event of [i], for the persisted events and for all. *)
Definition db_auth (i a : string) : Prop := ∃ e, store_db i = Some e ∧ a ∈ auth_event_ids e.
Definition full_auth (i a : string) : Prop := ∃ e, view em i = Some e ∧ a ∈ auth_event_ids e.

Lemma persisted_reach v x :
  em !! v = None → rtc full_auth v x → em !! x = None ∧ rtc db_auth v x.
Proof.
  intros Hv Hr. revert Hv. induction Hr as [v|v y x (e & He & Hy) _ IH]; intros Hv; [done|].
  unfold view in He. rewrite Hv in He. destruct IH as [? ?]; [by eapply em_unpersisted|].
  split; [done|]. eapply rtc_l; [|done]. by exists e.
Qed.

Lemma db_reach v x :
  em !! v = None → rtc db_auth v x → em !! x = None ∧ rtc full_auth v x.
Proof.
  intros Hv Hr. revert Hv. induction Hr as [v|v y x (e & He & Hy) _ IH]; intros Hv; [done|].
  destruct IH as [? ?]; [by eapply em_unpersisted|]. split; [done|].
  eapply rtc_l; [|done]. exists e. split; [|done]. unfold view. by rewrite Hv.
Qed.

Lemma chain_of_reach v e x : em !! v = Some e → chain_of em e x → rtc full_auth v x.
Proof.
  intros Hv Hc. revert v Hv. induction Hc as [e a Ha|e a e' x Ha Hea _ IH]; intros v Hv.
  - apply rtc_once. exists e. split; [|done]. unfold view. by rewrite Hv.
  - eapply rtc_l; [|by apply IH]. exists e. split; [|done]. unfold view. by rewrite Hv.
Qed.

Lemma unpersisted_reach v e x :
  em !! v = Some e → rtc full_auth v x →
  (is_Some (em !! x) → x = v ∨ chain_of em e x) ∧
  (em !! x = None → ∃ y, chain_of em e y ∧ em !! y = None ∧ rtc db_auth y x).
Proof.
  intros Hv Hr. revert e Hv. induction Hr as [v|v y x (e' & He' & Hy) Hyx IH]; intros e Hv.
  { split; [by left|congruence]. }
  unfold view in He'. rewrite Hv in He'. simplify_eq.
  destruct (em !! y) as [ey|] eqn:Ey.
  - destruct (IH ey eq_refl) as [IH1 IH2]. split.
    + intros Hx. right. destruct (IH1 Hx) as [->|Hc]; [by apply chain_auth|by eapply chain_next].
    + intros Hx. destruct (IH2 Hx) as (z & Hz & ? & ?). exists z. split; [|done]. by eapply chain_next.
  - apply (persisted_reach y x Ey) in Hyx as [Hx Hyx]. split; [intros [??]; congruence|].
    intros _. exists y. split; [by apply chain_auth|done].
Qed.

(** ** The state sets passed to the store *)

Lemma split_state_fold (chains : StrMap StrSet) (vs : list string) (A0 B0 : StrSet) x :
  let r := foldl (λ '(set_ids, unpersisted_ids) event_id,
      match chains !! event_id with
      | Some event_chain =>
          (set_ids ∪ filter (λ e, em !! e = None) event_chain,
           unpersisted_ids ∪ filter (λ e, is_Some (em !! e)) event_chain)
      | None => ({[event_id]} ∪ set_ids, unpersisted_ids)
      end) (A0, B0) vs in
  (x ∈ r.1 ↔ x ∈ A0 ∨ ∃ v, v ∈ vs ∧
     match chains !! v with Some C => x ∈ C ∧ em !! x = None | None => x = v end) ∧
  (x ∈ r.2 ↔ x ∈ B0 ∨ ∃ v C, v ∈ vs ∧ chains !! v = Some C ∧ x ∈ C ∧ is_Some (em !! x)).
Proof.
  revert A0 B0. induction vs as [|v vs IH]; intros A0 B0; cbn zeta; cbn [foldl].
  { cbn. set_solver. }
  destruct (chains !! v) as [C|] eqn:Ev.
  - destruct (IH (A0 ∪ filter (λ e, em !! e = None) C) (B0 ∪ filter (λ e, is_Some (em !! e)) C))
      as [-> ->]. rewrite !elem_of_union, !elem_of_filter. setoid_rewrite elem_of_cons.
    split; split.
    + intros [[?|[? ?]]|(w & ? & ?)]; [by left|right; exists v; rewrite Ev; auto|right; eauto].
    + intros [?|(w & [->|?] & Hw)]; [auto| |eauto]. rewrite Ev in Hw. naive_solver.
    + intros [[?|[? ?]]|(w & C' & ? & ?)]; [by left|right; exists v, C; auto|right; eauto 6].
    + intros [?|(w & C' & [->|?] & Hw & ? & ?)]; [auto| |eauto 8].
      simplify_eq. auto.
  - destruct (IH ({[v]} ∪ A0) B0) as [-> ->]. rewrite elem_of_union, elem_of_singleton.
    setoid_rewrite elem_of_cons. split; split.
    + intros [[->|?]|(w & ? & ?)]; [right; exists v; rewrite Ev; auto|by left|right; eauto].
    + intros [?|(w & [->|?] & Hw)]; [auto| |eauto]. rewrite Ev in Hw. auto.
    + intros [?|(w & C' & ? & ?)]; [by left|right; eauto 6].
    + intros [?|(w & C' & [->|?] & Hw & ? & ?)]; [auto|congruence|eauto 8].
Qed.

(** The ids of a state set. *)
Definition set_values (s : StateMap string) (v : string) : Prop := ∃ k, s !! k = Some v.

Lemma elem_of_values (s : StateMap string) v : v ∈ (map_to_list s).*2 ↔ set_values s v.
Proof.
  rewrite list_elem_of_fmap. split.
  - intros ([k v'] & -> & Hin%elem_of_map_to_list). by exists k.
  - intros [k Hk]. exists (k, v). by rewrite elem_of_map_to_list.
Qed.

(** [x] is in the auth chain of a state set, its own events included. *)
Definition in_chain (s : StateMap string) (x : string) : Prop :=
  ∃ v, set_values s v ∧ rtc full_auth v x.

Lemma split_state_set_spec chains s x :
  (∀ i C, chains !! i = Some C → is_Some (em !! i) ∧ is_chain i C) →
  (∀ i, is_Some (em !! i) → is_Some (chains !! i)) →
  ((∃ v, v ∈ (split_state_set em chains s).1 ∧ rtc db_auth v x) ↔ em !! x = None ∧ in_chain s x) ∧
  (x ∈ (split_state_set em chains s).2 ↔ is_Some (em !! x) ∧ in_chain s x).
Proof.
  intros Hch Hdom.
  assert (∀ v, chains !! v = None → em !! v = None) as Hnone.
  { intros v Hv. destruct (em !! v) eqn:E; [|done]. destruct (Hdom v) as [? ?]; [eauto|congruence]. }
  unfold split_state_set, in_chain. split.
  - setoid_rewrite (λ y, proj1 (split_state_fold chains (map_to_list s).*2 ∅ ∅ y)).
    setoid_rewrite elem_of_values. split.
    + intros (y & [?|(v & Hv & Hy)] & Hyx); [set_solver|].
      destruct (chains !! v) as [C|] eqn:Ev.
      * destruct Hy as [Hy Hny]. destruct (Hch v C Ev) as [[e He] HC].
        destruct (db_reach y x Hny Hyx) as [Hx Hyx']. split; [done|]. exists v. split; [done|].
        apply (HC e He) in Hy as [->|Hc]; [congruence|].
        etrans; [by eapply chain_of_reach|done].
      * subst y. destruct (db_reach v x (Hnone v Ev) Hyx) as [Hx Hyx']. eauto.
    + intros [Hx (v & Hv & Hr)]. destruct (chains !! v) as [C|] eqn:Ev.
      * destruct (Hch v C Ev) as [[e He] HC].
        destruct (unpersisted_reach v e x He Hr) as [_ Hr2].
        destruct (Hr2 Hx) as (y & Hy & Hny & Hyx). exists y. split; [|done].
        right. exists v. split; [done|]. rewrite Ev. split; [|done]. apply (HC e He). by right.
      * exists v. split; [right; exists v; by rewrite Ev|].
        by apply (persisted_reach v x (Hnone v Ev)).
  - rewrite (proj2 (split_state_fold chains (map_to_list s).*2 ∅ ∅ x)).
    setoid_rewrite elem_of_values. split.
    + intros [?|(v & C & Hv & Ev & Hx & Hem)]; [set_solver|]. split; [done|]. exists v.
      split; [done|]. destruct (Hch v C Ev) as [[e He] HC].
      apply (HC e He) in Hx as [->|Hc]; [done|]. by eapply chain_of_reach.
    + intros [Hx (v & Hv & Hr)]. right. destruct (em !! v) as [e|] eqn:Ev.
      * destruct (Hdom v) as [C HC]; [eauto|]. exists v, C. split_and!; try done.
        destruct (Hch v C HC) as [_ HC']. apply (HC' e Ev).
        by apply (unpersisted_reach v e x Ev Hr).
      * apply (persisted_reach v x Ev) in Hr as [? _]. destruct Hx. congruence.
Qed.

(** What the store promises: the events in the auth chains of some but not all
    of the sets of (persisted) events it is given. *)
Hypothesis store_difference : ∀ (sets : list StrSet) x,
  x ∈ get_auth_chain_difference room sets ↔
  (∃ S, S ∈ sets ∧ ∃ v, v ∈ S ∧ rtc db_auth v x) ∧
  (∃ S, S ∈ sets ∧ ¬ ∃ v, v ∈ S ∧ rtc db_auth v x).

(** The store's answer, when the sets stand for the state sets. *)
Lemma store_difference_fmap (f : StateMap string → StrSet) (P : StateMap string → Prop) ss x :
  (∀ s, s ∈ ss → (∃ v, v ∈ f s ∧ rtc db_auth v x) ↔ P s) →
  x ∈ get_auth_chain_difference room (f <$> ss) ↔
  (∃ s, s ∈ ss ∧ P s) ∧ (∃ s, s ∈ ss ∧ ¬ P s).
Proof.
  intros Hf. rewrite store_difference. setoid_rewrite list_elem_of_fmap. split.
  - intros [(S & (s & -> & Hs) & HS) (S' & (s' & -> & Hs') & HS')].
    apply (Hf s Hs) in HS. rewrite (Hf s' Hs') in HS'.
    split; [by exists s|by exists s'].
  - intros [(s & Hs & HP) (s' & Hs' & HP')]. apply (Hf s Hs) in HP.
    rewrite <-(Hf s' Hs') in HP'. split; [exists (f s)|exists (f s')]; eauto.
Qed.

(** Union minus intersection: in some of the sets but not in all. *)
Lemma union_minus_intersection (f : StateMap string → StrSet) (P : StateMap string → Prop)
    ss first others x :
  f <$> ss = first :: others → (∀ s, s ∈ ss → x ∈ f s ↔ P s) →
  x ∈ foldl (∪) first others ∖ foldl (∩) first others ↔
  (∃ s, s ∈ ss ∧ P s) ∧ (∃ s, s ∈ ss ∧ ¬ P s).
Proof.
  intros E Hf. rewrite elem_of_difference, elem_of_foldl_union, elem_of_foldl_intersection, <-E.
  setoid_rewrite list_elem_of_fmap. split.
  - intros [(Y & (s & -> & Hs) & HY) Hn]. split; [rewrite Hf in HY by done; eauto|].
    destruct (decide (Forall (λ s, x ∈ f s) ss)) as [Ha|Ha].
    + destruct Hn. intros Y (s' & -> & Hs'). rewrite Forall_forall in Ha. auto.
    + apply not_Forall_Exists, Exists_exists in Ha as (s' & Hs' & Hx); [|apply _].
      exists s'. split; [done|]. by rewrite <-Hf.
  - intros [(s & Hs & HP) (s' & Hs' & HP')]. split.
    + exists (f s). rewrite Hf by done. eauto.
    + intros Ha. apply HP'. rewrite <-Hf by done. apply Ha. eauto.
Qed.

Lemma auth_difference_correct ss :
  ss ≠ [] →
  ∃ k D, (∀ fuel, (k ≤ fuel)%nat → _get_auth_chain_difference fuel room ss em = Ok D) ∧
    ∀ x, x ∈ D ↔ (∃ s, s ∈ ss ∧ in_chain s x) ∧ (∃ s, s ∈ ss ∧ ¬ in_chain s x).
Proof.
  intros Hss. destruct chains_terminate as (k & chains & Ech & Hch & Hdom). exists k.
  unfold _get_auth_chain_difference. destruct (decide (em = ∅)) as [Hem|Hem].
  - eexists. split; [intros fuel Hf; rewrite Ech by done; done|]. intros x. apply store_difference_fmap. intros s _.
    setoid_rewrite elem_of_list_to_set. setoid_rewrite elem_of_values. unfold in_chain.
    assert (∀ v, em !! v = None) as Hv by (intros v; by rewrite Hem).
    split; intros (v & ? & Hvx); exists v; (split; [done|]);
      [by apply (db_reach v x)|by apply (persisted_reach v x)].
  - set (f := split_state_set em chains).
    assert (f <$> ss ≠ []) as Hne by (by destruct ss).
    destruct ((f <$> ss).*2) as [|first others] eqn:E; [by destruct (f <$> ss)|].
    eexists. split; [intros fuel Hf; rewrite Ech by done; cbn; fold f; by rewrite E|].
    intros x. rewrite elem_of_union, <-list_fmap_compose.
    rewrite <-list_fmap_compose in E.
    pose proof (λ s, split_state_set_spec chains s x Hch Hdom) as Hsp.
    rewrite (store_difference_fmap _ (λ s, em !! x = None ∧ in_chain s x))
      by (intros; apply Hsp).
    rewrite (union_minus_intersection _ (λ s, is_Some (em !! x) ∧ in_chain s x) ss _ _ _ E)
      by (intros; apply Hsp).
    destruct (em !! x) as [e|]; [|].
    + split; [intros [[(? & ? & ? & ?) _]|[(s & ? & _ & ?) (s' & ? & Hn)]]; [done|]|].
      * split; [eauto|]. exists s'. split; [done|]. intros ?. apply Hn. eauto.
      * intros [(s & ? & ?) (s' & ? & Hn)]. right. split; [eauto 6|]. exists s'. naive_solver.
    + split; [intros [[(s & ? & _ & ?) (s' & ? & Hn)]|[(? & ? & [? ?] & ?) _]]; [|done]|].
      * split; [eauto|]. exists s'. split; [done|]. intros ?. apply Hn. eauto.
      * intros [(s & ? & ?) (s' & ? & Hn)]. left. split; [eauto 6|]. exists s'. naive_solver.
Qed.
End difference.

(** C9: _get_auth_chain_difference, which searches the unpersisted events itself and asks
    the store for the rest, returns with enough fuel exactly the events that are in the full
    auth chain of some but not all of the state sets, provided auth events are acyclic,
    persisted events cite only persisted ones and the store's own difference is right. *)
Theorem auth_chain_difference_correct `{Laws : StoreLaws} (em : EventMap) (depth : string → nat)
    (room : string) (ss : list (StateMap string)) :
  (∀ i e, em !! i = Some e → event_id e = i) →
  (∀ i e a, em !! i = Some e → a ∈ auth_event_ids e → is_Some (em !! a) → (depth a < depth i)%nat) →
  (∀ i e a, em !! i = None → store_db i = Some e → a ∈ auth_event_ids e → em !! a = None) →
  (∀ (sets : list StrSet) x, x ∈ get_auth_chain_difference room sets ↔
     (∃ S, S ∈ sets ∧ ∃ v, v ∈ S ∧ rtc db_auth v x) ∧
     (∃ S, S ∈ sets ∧ ¬ ∃ v, v ∈ S ∧ rtc db_auth v x)) →
  ss ≠ [] →
  ∃ k D, (∀ fuel, (k ≤ fuel)%nat → _get_auth_chain_difference fuel room ss em = Ok D) ∧
    ∀ x, x ∈ D ↔ (∃ s, s ∈ ss ∧ in_chain em s x) ∧ (∃ s, s ∈ ss ∧ ¬ in_chain em s x).
Proof. intros. by eapply auth_difference_correct. Qed.
