(* ===== verification/StateResV2Resolve.v ===== *)
(** * State resolution v2: the whole algorithm

    Termination (the fuelled loops finish on an acyclic room); the algorithm as
    a relation between the state sets, the events and the resolved state, which
    the code implements and which has one result; and that neither the order of
    the state sets nor the order Python visits sets in changes it. *)

From S2P Require Import Prelude PyOrd PyJson RoomVersions Identifiers Event EventAuth TopoSort.
From S2P Require Import StateResV2 StateResV2Props StateResV2Sort StateResV2AuthDiff.

(** ** The auth rules do not use fuel *)

Section auth_real.
Context `{NA : Netaddr} `{SJ : SignedJson}.
Hypothesis decode_real : ∀ v, real_exn (decode_base64 v).
Hypothesis decode_key_real : ∀ n k, real_exn (decode_verify_key_bytes n k).
Hypothesis verify_real : ∀ o s k, real_exn (verify_signed_json o s k).
#[local] Hint Resolve decode_real decode_key_real verify_real : real.

Lemma py_int_real v : real_exn (py_int v).
Proof. unfold py_int, py_int_of_str. real. Qed.
Lemma py_get_real k v : real_exn (py_get k v).
Proof. unfold py_get. real. Qed.
Lemma py_items_real v : real_exn (py_items v).
Proof. unfold py_items. real. Qed.
Lemma py_list_real v : real_exn (py_list v).
Proof. unfold py_list. real. Qed.
Lemma py_set_real l : real_exn (py_set l).
Proof. unfold py_set. real. Qed.
Lemma obj_getitem_real k d : real_exn (obj_getitem k d).
Proof. unfold obj_getitem. real. Qed.
Lemma list_index_real {A} (l : list A) i : real_exn (list_index l i).
Proof. unfold list_index. real. Qed.
#[local] Hint Resolve py_int_real py_get_real py_items_real py_list_real py_set_real
  obj_getitem_real list_index_real : real.
Lemma py_getitem_real k v : real_exn (py_getitem k v).
Proof. unfold py_getitem. real. Qed.
Lemma py_in_real k v : real_exn (py_in k v).
Proof. unfold py_in. real. Qed.
Lemma state_key_real e : real_exn (state_key e).
Proof. unfold state_key, dict_property. real. Qed.
Lemma room_id_real e : real_exn (Event.room_id e).
Proof. unfold Event.room_id, dict_property. real. Qed.
Lemma membership_real e : real_exn (membership e).
Proof. unfold membership. real. Qed.
#[local] Hint Resolve py_getitem_real py_in_real state_key_real room_id_real membership_real : real.
Lemma type_and_key_real e : real_exn (type_and_key e).
Proof. unfold type_and_key. real. Qed.
Lemma membership_is_real e m : real_exn (membership_is e m).
Proof. unfold membership_is. real. Qed.
Lemma user_power_level_real u a : real_exn (get_user_power_level u a).
Proof. unfold get_user_power_level. real. Qed.
Lemma named_level_real a n d : real_exn (get_named_level a n d).
Proof. unfold get_named_level. real. Qed.
Lemma send_level_real t k p : real_exn (get_send_level t k p).
Proof. unfold get_send_level. real. Qed.
Lemma domain_real s : real_exn (get_domain_from_id s).
Proof. unfold get_domain_from_id. real. Qed.
#[local] Hint Resolve type_and_key_real membership_is_real user_power_level_real named_level_real
  send_level_real domain_real : real.

Lemma auth_types_real rv e : real_exn (auth_types_for_event rv e).
Proof. unfold auth_types_for_event, add_auth_type. real. Qed.
Lemma auth_dict_real l : real_exn (auth_dict_of l).
Proof. unfold auth_dict_of. real. Qed.
Lemma state_map_get_real {A} (m : StateMap A) t v : real_exn (state_map_get_json m t v).
Proof. unfold state_map_get_json. real. Qed.
Lemma redaction_real rv e a : real_exn (check_redaction rv e a).
Proof. unfold check_redaction. real. Qed.
Lemma joined_room_real m u r : real_exn (_check_joined_room m u r).
Proof. unfold _check_joined_room. real. Qed.
#[local] Hint Resolve auth_types_real auth_dict_real state_map_get_real redaction_real
  joined_room_real : real.

Lemma state_key_owner_real sk : real_exn (state_key_owner sk).
Proof. unfold state_key_owner. real. Qed.
#[local] Hint Resolve state_key_owner_real : real.
Lemma can_send_event_real e a : real_exn (_can_send_event e a).
Proof. unfold _can_send_event. real. Qed.

Lemma py_keys_real v : real_exn (py_keys v).
Proof. unfold py_keys. real. Qed.
Lemma public_keys_real e : real_exn (get_public_keys e).
Proof. unfold get_public_keys. real. Qed.
#[local] Hint Resolve can_send_event_real py_keys_real public_keys_real : real.
Lemma try_key_names_real pk s server names : real_exn (try_key_names pk s server names).
Proof. induction names; cbn; real. Qed.
#[local] Hint Resolve try_key_names_real : real.
Lemma try_signatures_real pk s blocks : real_exn (try_signatures pk s blocks).
Proof. induction blocks as [|[server block] blocks IH]; cbn; real. Qed.
#[local] Hint Resolve try_signatures_real : real.

Lemma try_public_keys_real s keys : real_exn (try_public_keys s keys).
Proof.
  induction keys as [|k keys IH]; cbn; [done|]. apply real_bind; [auto with real|]. intros pk.
  assert (real_exn (sigs ← obj_getitem "signatures" s; blocks ← py_items sigs;
    try_signatures pk s blocks)) as Hr by real.
  destruct (_ ≫= _) as [[|]|ex]; [done|done|]. destruct ex; done.
Qed.
#[local] Hint Resolve try_public_keys_real : real.
Lemma third_party_real e a : real_exn (_verify_third_party_invite e a).
Proof. unfold _verify_third_party_invite. real. Qed.

Lemma check_user_entry_real kv : real_exn (check_user_entry kv).
Proof. unfold check_user_entry. real. Qed.
Lemma level_at_real loc l : real_exn (level_at loc l).
Proof. unfold level_at. real. Qed.
Lemma levels_of_real d o n : real_exn (levels_of d o n).
Proof. unfold levels_of. real. Qed.
#[local] Hint Resolve third_party_real check_user_entry_real level_at_real levels_of_real : real.
Lemma check_level_real u l o n en : real_exn (check_level u l o n en).
Proof. unfold check_level. real. Qed.
Lemma levels_to_check_real rv o n : real_exn (levels_to_check rv o n).
Proof. unfold levels_to_check. real. Qed.
Lemma check_content_entry_real kv : real_exn (check_content_entry kv).
Proof. unfold check_content_entry. real. Qed.
#[local] Hint Resolve check_level_real levels_to_check_real check_content_entry_real : real.
Lemma check_power_levels_real rv e a : real_exn (_check_power_levels rv e a).
Proof. unfold _check_power_levels. real. Qed.

Lemma creator_join_real rv e a m : real_exn (is_creator_join rv e a m).
Proof. unfold is_creator_join. real. Qed.
Lemma membership_lookup_real rv e a m : real_exn (membership_lookup rv e a m).
Proof. unfold membership_lookup. real. Qed.
Lemma check_join_real rv e a i : real_exn (check_join rv e a i).
Proof. unfold check_join, get_user_power_level_json. real. Qed.
#[local] Hint Resolve check_power_levels_real creator_join_real membership_lookup_real
  check_join_real : real.
Lemma membership_branch_real rv e a i : real_exn (check_membership_branch rv e a i).
Proof. unfold check_membership_branch. real. Qed.
#[local] Hint Resolve membership_branch_real : real.
Lemma membership_change_real rv e a : real_exn (_is_membership_change_allowed rv e a).
Proof. unfold _is_membership_change_allowed. real. Qed.
#[local] Hint Resolve membership_change_real : real.

Lemma rules_dict_real e a : real_exn (check_rules_dict e a).
Proof. unfold check_rules_dict, _check_event_sender_in_room. real. Qed.
#[local] Hint Resolve rules_dict_real : real.
Lemma auth_rules_real e l : real_exn (check_state_dependent_auth_rules e l).
Proof. unfold check_state_dependent_auth_rules. real. Qed.
End auth_real.

#[export] Hint Resolve py_int_real py_get_real py_items_real py_list_real py_set_real
  obj_getitem_real list_index_real py_getitem_real py_in_real state_key_real room_id_real
  membership_real type_and_key_real auth_types_real : real.

(** ** The power events *)

(** The events the algorithm resolves first: power levels, join rules and
    create events, and the memberships that remove somebody else. *)
Definition power_event (e : EventBase) : Prop :=
  ∃ sk, ev_state_key e = Some sk ∧
    ((ev_type e = EventTypes.PowerLevels ∨ ev_type e = EventTypes.JoinRules ∨
      ev_type e = EventTypes.Create) ∧ sk = "" ∨
     ev_type e = EventTypes.Member ∧ sender e ≠ sk ∧
     (obj_get "membership" (content e) = Some (JStr "leave") ∨
      obj_get "membership" (content e) = Some (JStr "ban"))).

Lemma is_power_event_spec e b : _is_power_event e = Ok b → b = true ↔ power_event e.
Proof.
  unfold _is_power_event, type_and_key, state_key, dict_property, power_event. intros Hb.
  destruct (ev_state_key e) as [sk|] eqn:Ek; [|done]. cbn in Hb.
  destruct (decide ((ev_type e, sk) ∈ _)) as [Hin|Hin].
  { apply (inj Ok) in Hb as <-. split; [|done]. intros _. exists sk. split; [done|left].
    set_solver. }
  destruct (String.eqb_spec (ev_type e) EventTypes.Member) as [Et|Et].
  2:{ apply (inj Ok) in Hb as <-. split; [done|].
      intros (sk' & [= <-] & [[Ht ->]|[? _]]); [|done]. destruct Hin.
      destruct Ht as [->|[->| ->]]; set_solver. }
  apply bind_Ok in Hb as (m & Hm & Hb). unfold membership, obj_getitem in Hm.
  destruct (obj_get "membership" (content e)) as [m'|]; [|done]. apply (inj Ok) in Hm as ->.
  assert (py_eq_str m "leave" || py_eq_str m "ban" = true ↔ m = JStr "leave" ∨ m = JStr "ban") as Hlb.
  { rewrite orb_true_iff. unfold py_eq_str.
    destruct m; rewrite ?String.eqb_eq; split; naive_solver. }
  destruct (_ || _).
  - apply (inj Ok) in Hb as <-. rewrite negb_true_iff, String.eqb_neq. split.
    + intros Hne. exists sk. split; [done|right]. split_and!; [done..|].
      destruct Hlb as [[->| ->] _]; auto.
    + intros (sk' & [= <-] & [[Ht ->]|(_ & ? & _)]); [|done].
      rewrite Et in Ht. destruct Ht as [?|[?|?]]; done.
  - apply (inj Ok) in Hb as <-. split; [done|].
    intros (sk' & [= <-] & [[Ht ->]|(_ & _ & Hm)]).
    + rewrite Et in Ht. destruct Ht as [?|[?|?]]; done.
    + apply Hlb. destruct Hm as [[= ->]|[= ->]]; auto.
Qed.

Lemma power_events_Ok `{Order : SetOrder} (fcs : StrSet) em ids em' :
  power_events_of fcs em = Ok (ids, em') →
  em' = em ∧ ∀ i, i ∈ ids ↔ i ∈ fcs ∧ ∃ e, em !! i = Some e ∧ power_event e.
Proof.
  unfold power_events_of. setoid_rewrite <-elem_of_iter_set. generalize (iter_set fcs) as l.
  assert (∀ l acc, foldS (λ acc eid, event ← event_map_getitem eid; b ← lift (_is_power_event event);
      mret (if (b : bool) then acc ++ [eid] else acc)) acc l em = Ok (ids, em') →
    em' = em ∧ ∀ i, i ∈ ids ↔ i ∈ acc ∨ i ∈ l ∧ ∃ e, em !! i = Some e ∧ power_event e) as Hgen.
  2:{ intros l [-> Hl]%Hgen. split; [done|]. intros i. rewrite (Hl i), elem_of_nil. naive_solver. }
  induction l as [|j l IH]; intros acc Hf; cbn [foldS] in Hf.
  { apply (inj Ok) in Hf as [= <- <-]. split; [done|]. intros i. rewrite elem_of_nil. naive_solver. }
  apply SE_bind_Ok in Hf as (acc1 & em1 & Hs & Hf).
  apply SE_bind_Ok in Hs as (e & ? & [-> He]%event_map_getitem_Ok & Hs).
  apply SE_bind_Ok in Hs as (? & ? & (b & Hb%is_power_event_spec & [= -> ->])%lift_Ok & Hs).
  apply (inj Ok) in Hs as [= <- <-]. apply IH in Hf as [-> Hf]. split; [done|].
  intros i. rewrite (Hf i), elem_of_cons. destruct b.
  - rewrite elem_of_app, list_elem_of_singleton. naive_solver.
  - assert (¬ power_event e) by (rewrite <-Hb; done). naive_solver.
Qed.

Lemma power_events_sub `{Order : SetOrder} (fcs : StrSet) em ids em' :
  power_events_of fcs em = Ok (ids, em') → ∀ i, i ∈ ids → i ∈ fcs.
Proof. intros [_ Hids]%power_events_Ok i. rewrite (Hids i). by intros [? _]. Qed.

(** ** Termination *)

Section termination.
Context `{NA : Netaddr} `{SJ : SignedJson} `{Laws : StoreLaws} `{Order : SetOrder}.
Hypothesis decode_real : ∀ v, real_exn (decode_base64 v).
Hypothesis decode_key_real : ∀ n k, real_exn (decode_verify_key_bytes n k).
Hypothesis verify_real : ∀ o s k, real_exn (verify_signed_json o s k).

(** The events known to the resolution have an acyclic auth relation. *)
Context (em : EventMap) (depth : string → nat) (bound : nat).
Hypothesis depth_bound : ∀ i, (depth i < bound)%nat.
Hypothesis view_acyclic : ∀ i e a, view em i = Some e → a ∈ auth_event_ids e →
  is_Some (view em a) → (depth a < depth i)%nat.

(** [m] does not run out of fuel, however far the map has been filled. *)
Definition finishes {A} (m : SE EventMap A) : Prop := ∀ em0, grows em em0 → real_exn (m em0).

Lemma finishes_bind_Ok {A B} (m : SE EventMap A) (f : A → SE EventMap B) :
  caches m → finishes m →
  (∀ a em0 em1, grows em em0 → m em0 = Ok (a, em1) → finishes (f a)) → finishes (m ≫= f).
Proof.
  intros Hc Hm Hf em0 Hg. unfold mbind, SE_bind. specialize (Hm em0 Hg).
  destruct (m em0) as [[a em1]|ex] eqn:E.
  - eapply Hf; [done|done|]. etrans; [done|by eapply Hc].
  - unfold real_exn in *. congruence.
Qed.

Lemma finishes_bind {A B} (m : SE EventMap A) (f : A → SE EventMap B) :
  caches m → finishes m → (∀ a, finishes (f a)) → finishes (m ≫= f).
Proof. intros ?? Hf. apply finishes_bind_Ok; eauto. Qed.

Lemma finishes_lift {A} (m : res A) : real_exn m → finishes (lift m).
Proof. intros Hm em0 _. unfold lift, real_exn in *. destruct m; congruence. Qed.

Lemma finishes_ret {A} (a : A) : finishes (mret a).
Proof. by intros em0 _. Qed.
Lemma finishes_get : finishes get_state.
Proof. by intros em0 _. Qed.
Lemma finishes_get_event room i allow : finishes (_get_event room i allow).
Proof. intros em0 _. apply get_event_real. Qed.
Lemma finishes_required room i : finishes (_get_event_required room i).
Proof. intros em0 _. apply get_event_required_real. Qed.

Lemma finishes_foldS {A S} (f : S → A → SE EventMap S) s l :
  (∀ s x, caches (f s x)) → (∀ s x, finishes (f s x)) → finishes (foldS f s l).
Proof.
  intros Hc Hf. revert s. induction l as [|x l IH]; intros s; cbn; [apply finishes_ret|].
  apply finishes_bind; auto.
Qed.

Create HintDb finishes.
#[local] Hint Resolve finishes_ret finishes_get finishes_get_event finishes_required : finishes.
#[local] Hint Extern 2 (finishes (_ ≫= _)) => apply finishes_bind; [eauto 20 with caches| |intros] : finishes.
#[local] Hint Extern 2 (finishes (lift _)) => apply finishes_lift : finishes.
#[local] Hint Extern 3 (finishes (foldS _ _ _)) =>
  apply finishes_foldS; [intros; eauto 20 with caches|intros] : finishes.
#[local] Hint Extern 4 (finishes (match ?x with _ => _ end)) => destruct x : finishes.
#[local] Hint Resolve type_and_key_real auth_types_real py_get_real py_int_real room_id_real : finishes.
#[local] Hint Extern 6 (real_exn _) => (real; fail) : finishes.

Lemma finishes_getitem i : finishes (event_map_getitem i).
Proof. unfold event_map_getitem. eauto with finishes. Qed.
#[local] Hint Resolve finishes_getitem : finishes.
Lemma finishes_find room typ ids : finishes (find_auth_event room typ ids).
Proof. induction ids; cbn; eauto 10 with finishes. Qed.
#[local] Hint Resolve finishes_find : finishes.

Lemma finishes_power_level room i : finishes (_get_power_level_for_sender room i).
Proof. unfold _get_power_level_for_sender. eauto 20 with finishes. Qed.
#[local] Hint Resolve finishes_power_level : finishes.
Lemma finishes_add_power_level room m i : finishes (add_power_level room m i).
Proof. unfold add_power_level. eauto with finishes. Qed.
#[local] Hint Resolve finishes_add_power_level : finishes.

Lemma finishes_power_sort fuel room ids fcs :
  (power_fuel em fcs ids ≤ fuel)%nat → finishes (_reverse_topological_power_sort fuel room ids fcs).
Proof.
  intros Hf em0 Hg. unfold _reverse_topological_power_sort, mbind, SE_bind.
  pose proof (build_graph_spec fuel room em fcs ids ids ∅ em0) as Hb.
  destruct (foldS _ ∅ ids em0) as [[g em1]|ex] eqn:Eg.
  2:{ assert (ex ≠ OutOfFuel); [|by unfold real_exn; congruence].
      apply Hb; [done|done|by intros ??; rewrite lookup_empty|done]. }
  assert (grows em0 em1) as Hg1.
  { eapply (caches_foldS _ _ _ (λ s x, caches_add_chain _ _ _ _ _) em0); done. }
  pose proof (finishes_foldS (add_power_level room) ∅ (map_to_list g).*1
    ltac:(eauto with caches) ltac:(eauto with finishes) em1 ltac:(by etrans)) as Hpl.
  destruct (foldS (add_power_level room) ∅ (map_to_list g).*1 em1) as [[pls em2]|ex] eqn:Ep;
    [|by unfold real_exn in *; congruence].
  destruct (power_sort_last _ _ _ _ em _ _ _ _ _ Hg Eg Ep) as (l & Hl & _).
  cbn. by rewrite Hl.
Qed.

(** ** The mainline *)

Lemma first_auth_Some typ ids a e :
  first_auth em typ ids = Some (a, e) → a ∈ ids ∧ view em a = Some e.
Proof.
  induction ids as [|b ids IH]; cbn; [done|].
  destruct (view em b) as [e'|] eqn:Ev; [case_decide|].
  - intros [= <- <-]. split; [left|done].
  - intros [? ?]%IH. split; [by right|done].
  - intros [? ?]%IH. split; [by right|done].
Qed.

Lemma finishes_mainline fuel room pl :
  (if pl is Some p then depth p < fuel else True)%nat → finishes (mainline_loop fuel room pl).
Proof.
  revert pl. induction fuel as [|fuel IH]; intros [[|c p]|] Hd; try (intros em0 Hg; done); [lia|].
  cbn. apply finishes_bind_Ok; [eauto with caches..|eauto with finishes|].
  intros e em0 em1 Hg (Hg1 & Hv & _)%get_event_required_Ok. rewrite (grows_view _ _ _ Hg) in Hv.
  apply finishes_bind_Ok; [eauto with caches..|eauto with finishes|].
  intros o em2 em3 Hg2 Ef. apply (find_auth_event_Ok _ _ _ em) in Ef as ->; [|done].
  apply finishes_bind; [eauto with caches| |eauto with finishes].
  apply IH. destruct (first_auth _ _ _) as [[a e']|] eqn:Ea; cbn; [|done].
  apply first_auth_Some in Ea as [Ha Hva].
  pose proof (view_acyclic (String c p) e a Hv Ha ltac:(eauto)). lia.
Qed.

Lemma finishes_depth fuel room mm i e :
  view em i = Some e → (depth i < fuel)%nat → finishes (mainline_depth_loop fuel room mm (Some e)).
Proof.
  revert i e. induction fuel as [|fuel IH]; intros i e Hv Hd; cbn; [lia|].
  destruct (mm !! event_id e); [eauto with finishes|].
  apply finishes_bind_Ok; [eauto with caches|eauto with finishes|].
  intros o em2 em3 Hg2 Ef. apply (find_auth_event_Ok _ _ _ em) in Ef as ->; [|done].
  destruct (first_auth _ _ _) as [[a e']|] eqn:Ea; cbn; [|destruct fuel; eauto with finishes].
  apply first_auth_Some in Ea as [Ha Hva].
  pose proof (view_acyclic i e a Hv Ha ltac:(eauto)). eapply (IH a e'); [done|lia].
Qed.

Lemma finishes_add_order fuel mm om i :
  (bound ≤ fuel)%nat → finishes (add_order fuel mm om i).
Proof.
  intros Hb. unfold add_order, _get_mainline_depth_for_event.
  apply finishes_bind_Ok; [eauto with caches|eauto with finishes|].
  intros e em0 em1 Hg [-> He]%event_map_getitem_Ok.
  apply finishes_bind; [eauto with caches| |eauto with finishes].
  apply finishes_bind; [eauto with caches|apply finishes_lift; real|]. intros room.
  apply (finishes_depth _ _ _ i).
  - rewrite <-(grows_view _ _ _ Hg). unfold view. by rewrite He.
  - pose proof (depth_bound i). lia.
Qed.

Lemma finishes_mainline_sort fuel room ids pl :
  (bound ≤ fuel)%nat → finishes (_mainline_sort fuel room ids pl).
Proof.
  intros Hb. unfold _mainline_sort. destruct ids as [|i0 ids0] eqn:E; [eauto with finishes|].
  rewrite <-E. apply finishes_bind; [eauto with caches| |intros mainline].
  { apply finishes_mainline. destruct pl as [p|]; [|done]. pose proof (depth_bound p). lia. }
  apply finishes_bind; [eauto with caches| |intros om].
  - apply finishes_foldS; [eauto with caches|]. intros. by apply finishes_add_order.
  - apply finishes_lift. unfold sort_by_order_map. apply real_bind; [|done].
    clear. induction ids; cbn; real.
Qed.

(** ** The checks and the whole *)

Lemma finishes_check room rv rs i : finishes (iterative_auth_check room rv rs i).
Proof.
  unfold iterative_auth_check, own_auth_events, resolved_auth_events, resolved_auth_step.
  apply finishes_bind; [eauto with caches|eauto with finishes|intros e].
  apply finishes_bind; [eauto 20 with caches|eauto 20 with finishes|intros own].
  apply finishes_bind; [eauto with caches|eauto with finishes|intros keys].
  apply finishes_bind; [eauto 20 with caches|eauto 20 with finishes|intros auth].
  destruct (rejected_reason e); [eauto with finishes|]. apply finishes_lift.
  apply real_catch; [|intros; real].
  apply real_bind; [by apply auth_rules_real|]. intros; real.
Qed.

Lemma finishes_checks room rv ids rs : finishes (_iterative_auth_checks room rv ids rs).
Proof. apply finishes_foldS; [eauto with caches|intros; apply finishes_check]. Qed.

Lemma is_power_event_real e : real_exn (_is_power_event e).
Proof. unfold _is_power_event. real. Qed.

Lemma finishes_power_events fcs : finishes (power_events_of fcs).
Proof.
  unfold power_events_of. apply finishes_foldS; [intros; eauto 20 with caches|intros acc i].
  apply finishes_bind; [eauto with caches|eauto with finishes|intros e].
  apply finishes_bind; [eauto with caches|apply finishes_lift, is_power_event_real|].
  eauto with finishes.
Qed.

Lemma finishes_resolve_conflicted fuel room rv u (fcs : StrSet) :
  (bound ≤ fuel)%nat → (1 + total_auth em fcs ≤ fuel)%nat →
  finishes (resolve_conflicted fuel room rv u fcs).
Proof.
  intros Hb Hf. unfold resolve_conflicted.
  apply finishes_bind_Ok; [eauto with caches|apply finishes_power_events|].
  intros ids em0 em1 Hg Hids. pose proof (power_events_sub _ _ _ _ Hids) as Hsub.
  apply finishes_bind; [eauto with caches| |intros sorted].
  { apply finishes_power_sort. unfold power_fuel.
    replace (fcs ∪ list_to_set ids) with fcs by set_solver. done. }
  apply finishes_bind; [eauto with caches|apply finishes_checks|intros rs].
  apply finishes_bind; [eauto with caches|by apply finishes_mainline_sort|intros leftover].
  apply finishes_bind; [eauto with caches|apply finishes_checks|eauto with finishes].
Qed.
End termination.

Section whole.
Context `{NA : Netaddr} `{SJ : SignedJson} `{Laws : StoreLaws} `{Order : SetOrder}.

Lemma grows_update (em : EventMap) (ids : list string) :
  (∀ i, i ∈ ids → em !! i = None) → grows em (get_events ids ∪ em).
Proof.
  intros Hids.
  assert (∀ j, (get_events ids ∪ em) !! j =
    if decide (j ∈ ids) then store_db j else em !! j) as Hj.
  { intros j. rewrite lookup_union, get_events_lookup. case_decide as Hd.
    - rewrite (Hids j Hd). by destruct (store_db j).
    - by destruct (em !! j). }
  split.
  - apply map_subseteq_spec. intros j e Hs. rewrite Hj. case_decide as Hd; [|done].
    rewrite (Hids j Hd) in Hs. done.
  - intros j e. rewrite Hj. unfold view. case_decide as Hd; [by rewrite (Hids j Hd)|].
    by intros ->.
Qed.

(** The full conflicted set, before it is restricted to known events. *)
Definition conflicted_set (c : StateMap StrSet) (auth_diff : StrSet) : StrSet :=
  ⋃ (map_to_list c).*2 ∪ auth_diff.

(** The steps of [resolve_events_with_store] when there is a conflict. *)
Lemma resolve_unfold fuel room rv ss (em : EventMap) :
  (_seperate ss).2 ≠ ∅ →
  resolve_events_with_store fuel room rv ss em =
  match _get_auth_chain_difference fuel room ss em with
  | Raise ex => Raise ex
  | Ok diff =>
      let fcs := conflicted_set (_seperate ss).2 diff in
      let em1 := get_events (filter (λ eid, em !! eid = None) (iter_set fcs)) ∪ em in
      match check_rooms room em1 with
      | Raise ex => Raise ex
      | Ok _ => resolve_conflicted fuel room rv (_seperate ss).1
                  (filter (λ eid, is_Some (em1 !! eid)) fcs) em1
      end
  end.
Proof.
  intros Hc. unfold resolve_events_with_store. destruct (_seperate ss) as [u c]. cbn in Hc.
  rewrite decide_False by done. unfold mbind, SE_bind, get_state, lift, update_event_map.
  destruct (_get_auth_chain_difference fuel room ss em) as [diff|]; [|done].
  cbn [fst snd]. fold (conflicted_set c diff).
  by destruct (check_rooms room _).
Qed.

Lemma resolve_no_conflict fuel room rv ss em :
  (_seperate ss).2 = ∅ →
  resolve_events_with_store fuel room rv ss em = Ok ((_seperate ss).1, em).
Proof.
  intros Hc. unfold resolve_events_with_store. destruct (_seperate ss) as [u c]. cbn in Hc.
  by rewrite decide_True.
Qed.

(** ** The algorithm as a relation *)

(** [i] is in a state set, under a key the state sets do not agree on. *)
Definition conflicted_id (ss : list (StateMap string)) (i : string) : Prop :=
  ∃ s k, s ∈ ss ∧ s !! k = Some i ∧ ∀ v, ¬ agreed ss k v.

(** The order of the power events: [sorted] is the greedy topological order of
    the events reached from the power events of [fcs]. *)
Definition power_sorted (em : EventMap) (fcs : StrSet) (sorted : list string) : Prop :=
  ∃ ids g, (∀ i, i ∈ ids ↔ i ∈ fcs ∧ ∃ e, view em i = Some e ∧ power_event e) ∧
    power_graph em fcs ids g ∧ lex_topological (power_order em) g sorted.

(** What [resolve_events_with_store] is to return, for the auth chain
    difference [D]. *)
Inductive resolves (rv : RoomVersion) (em : EventMap) (ss : list (StateMap string)) (D : StrSet) :
    StateMap string → Prop :=
  | resolves_agreed u :
      (∀ i, ¬ conflicted_id ss i) → (∀ k v, u !! k = Some v ↔ agreed ss k v) →
      resolves rv em ss D u
  | resolves_conflict u fcs sorted rs1 leftover rs2 :
      (∃ i, conflicted_id ss i) → (∀ k v, u !! k = Some v ↔ agreed ss k v) →
      (∀ i, i ∈ fcs ↔ is_Some (view em i) ∧ (conflicted_id ss i ∨ i ∈ D)) →
      power_sorted em fcs sorted →
      check_steps rv em u sorted rs1 →
      mainline_sorted em (rs1 !! (EventTypes.PowerLevels, "")) (elements (fcs ∖ list_to_set sorted))
        leftover →
      check_steps rv em rs1 leftover rs2 →
      resolves rv em ss D (u ∪ rs2).

Lemma power_sorted_functional em fcs l l' :
  power_sorted em fcs l → power_sorted em fcs l' → l = l'.
Proof.
  intros (ids & g & Hids & Hg & Hl) (ids' & g' & Hids' & Hg' & Hl').
  assert (g = g') as <-.
  { eapply power_graph_functional; [|done|done]. intros i. by rewrite (Hids i), (Hids' i). }
  by eapply lex_topological_unique.
Qed.

Lemma resolves_functional rv em ss D rs rs' :
  resolves rv em ss D rs → resolves rv em ss D rs' → rs = rs'.
Proof.
  intros [u Hno Hu|u fcs sorted rs1 lo rs2 [i Hi] Hu Hfcs Hs Hc1 Hm Hc2]
    [u' Hno' Hu'|u' fcs' sorted' rs1' lo' rs2' [i' Hi'] Hu' Hfcs' Hs' Hc1' Hm' Hc2'];
    [|by destruct (Hno i')|by destruct (Hno' i)|];
    assert (u = u') as <- by (apply map_eq; intros k; apply option_eq; intros v; by rewrite (Hu k), (Hu' k));
    [done|].
  assert (fcs = fcs') as <- by (apply set_eq; intros j; by rewrite (Hfcs j), (Hfcs' j)).
  pose proof (power_sorted_functional _ _ _ _ Hs Hs') as <-.
  pose proof (check_steps_functional _ _ _ _ _ _ Hc1 Hc1') as <-.
  pose proof (mainline_sorted_functional _ _ _ _ _ _ (reflexivity _) Hm Hm') as ->.
  by pose proof (check_steps_functional _ _ _ _ _ _ Hc2 Hc2') as <-.
Qed.

Lemma check_rooms_Ok room em u i e :
  check_rooms room em = Ok u → em !! i = Some e → ev_room_id e = Some room.
Proof.
  unfold check_rooms. intros Hc Hi. rewrite iterM_Ok in Hc. specialize (Hc e).
  rewrite bind_Ok in Hc. destruct Hc as (r & Hr & Hb).
  { apply list_elem_of_fmap. exists (i, e). by rewrite elem_of_map_to_list. }
  apply raise_if_Ok in Hb. apply negb_false_iff, String.eqb_eq in Hb as ->.
  unfold Event.room_id, dict_property in Hr. by destruct (ev_room_id e); simplify_eq.
Qed.

Lemma elem_of_conflicted_set ss diff i :
  i ∈ conflicted_set (_seperate ss).2 diff ↔ conflicted_id ss i ∨ i ∈ diff.
Proof.
  unfold conflicted_set, conflicted_id. rewrite elem_of_union, elem_of_union_list.
  assert ((∃ X, X ∈ (map_to_list (_seperate ss).2).*2 ∧ i ∈ X) ↔
    ∃ s k, s ∈ ss ∧ s !! k = Some i ∧ ∀ v, ¬ agreed ss k v) as ->; [|done].
  setoid_rewrite list_elem_of_fmap. split.
  - intros (X & ([k X'] & -> & HX%elem_of_map_to_list) & Hi). cbn in *.
    apply seperate_conflicted in HX as (_ & Hno & ->).
    apply elem_of_conflicted_ids in Hi as (s & ? & ?). eauto.
  - intros (s & k & Hs & Hk & Hno). eexists. split.
    + exists (k, list_to_set (omap id (elements (ids_at ss k)))). split; [done|].
      apply elem_of_map_to_list, seperate_conflicted. split_and!; [|done|done].
      apply elem_of_all_keys. eauto.
    + apply elem_of_conflicted_ids. eauto.
Qed.

Lemma seperate_no_conflict ss : (_seperate ss).2 = ∅ → ∀ i, ¬ conflicted_id ss i.
Proof.
  intros Hc i Hi. assert (i ∈ conflicted_set (_seperate ss).2 ∅) as Hin
    by (apply elem_of_conflicted_set; auto).
  rewrite Hc in Hin. unfold conflicted_set in Hin. rewrite map_to_list_empty in Hin. set_solver.
Qed.

Lemma seperate_conflict ss : (_seperate ss).2 ≠ ∅ → ∃ i, conflicted_id ss i.
Proof.
  intros (k & X & (Hk & Hno & _)%seperate_conflicted)%map_choose.
  apply elem_of_all_keys in Hk as (s & i & Hs & Hi). by exists i, s, k.
Qed.

Lemma power_sorted_sub em fcs sorted i : power_sorted em fcs sorted → i ∈ sorted → i ∈ fcs.
Proof.
  intros (ids & g & Hids & Hg & Hl) Hi. apply (lex_topological_elem _ _ _ _ Hl) in Hi as [i' es Hes _].
  apply (Hg i') in Hes as [Hr%reached_within _]. destruct Hr as [?|Hr]; [done|]. by apply Hids in Hr as [? _].
Qed.

(** The steps from the full conflicted set on. *)
Lemma resolve_conflicted_Ok fuel room rv u fcs em em0 rs em' :
  grows em em0 → (∀ i, i ∈ fcs → is_Some (em0 !! i)) →
  resolve_conflicted fuel room rv u fcs em0 = Ok (rs, em') →
  ∃ sorted rs1 leftover rs2, power_sorted em fcs sorted ∧ check_steps rv em u sorted rs1 ∧
    mainline_sorted em (rs1 !! (EventTypes.PowerLevels, "")) (elements (fcs ∖ list_to_set sorted))
      leftover ∧
    check_steps rv em rs1 leftover rs2 ∧ rs = u ∪ rs2.
Proof.
  unfold resolve_conflicted. intros Hg0 Hfcs Hr.
  apply SE_bind_Ok in Hr as (ids & em1 & [-> Hids]%power_events_Ok & Hr).
  apply SE_bind_Ok in Hr as (sorted & em2 & Hs & Hr).
  pose proof (caches_power_sort _ _ _ _ _ _ _ Hs) as Hg2.
  apply (power_sort_graph _ _ _ _ em) in Hs as (g & Hg & Hlex); [|done].
  apply SE_bind_Ok in Hr as (rs1 & em3 & Hc1 & Hr).
  pose proof (caches_checks _ _ _ _ _ _ _ Hc1) as Hg3.
  apply SE_bind_Ok in Hr as (leftover & em4 & Hm & Hr).
  pose proof (caches_mainline_sort _ _ _ _ _ _ _ Hm) as Hg4.
  apply SE_bind_Ok in Hr as (rs2 & em5 & Hc2 & Hr). apply (inj Ok) in Hr as [= <- <-].
  assert (grows em em2) as Hg12 by (etrans; eassumption).
  assert (grows em em3) as Hg13 by (etrans; [exact Hg12|done]).
  assert (grows em em4) as Hg14 by (etrans; [exact Hg13|done]).
  exists sorted, rs1, leftover, rs2. split_and!; [| | | |done].
  - exists ids, g. split_and!; [|done|done]. intros i. rewrite (Hids i).
    split; intros [Hi (e & He & Hp)]; (split; [done|exists e; split; [|done]]).
    + rewrite <-(grows_view _ _ _ Hg0). unfold view. by rewrite He.
    + destruct (Hfcs i Hi) as [e' He']. rewrite <-(grows_view _ _ _ Hg0) in He. unfold view in He.
      rewrite He' in He. by simplify_eq.
  - apply iterative_auth_checks_spec in Hc1. by eapply (check_steps_grows _ em em2).
  - apply mainline_sort_Ok in Hm. eapply (mainline_sorted_grows em) in Hm as [Hp Hs]; [|done].
    assert (filter (λ ev_id, ev_id ∉ sorted) (iter_set fcs) ≡ₚ
      elements (fcs ∖ list_to_set sorted)) as Hperm.
    { apply NoDup_Permutation; [apply NoDup_filter, iter_set_NoDup|apply NoDup_elements|].
      intros i. rewrite list_elem_of_filter, elem_of_iter_set, elem_of_elements, elem_of_difference,
        elem_of_list_to_set. naive_solver. }
    split; [by rewrite <-Hperm|]. intros Hne. destruct Hs as (ml & key & ? & Hkey & ?).
    { intros E. rewrite E in Hperm. by apply Permutation_nil_l in Hperm. }
    exists ml, key. split_and!; [done| |done]. intros i. rewrite <-Hperm. apply Hkey.
  - apply iterative_auth_checks_spec in Hc2. by eapply (check_steps_grows _ em em4).
Qed.

(** The events of the full conflicted set that are known. *)
Lemma known_fcs ss D (em : EventMap) i :
  let fcs := conflicted_set (_seperate ss).2 D in
  let em1 := get_events (filter (λ eid, em !! eid = None) (iter_set fcs)) ∪ em in
  i ∈ filter (λ eid, is_Some (em1 !! eid)) fcs ↔
  is_Some (view em i) ∧ (conflicted_id ss i ∨ i ∈ D).
Proof.
  intros fcs em1. rewrite elem_of_filter, <-elem_of_conflicted_set. fold fcs.
  assert (i ∈ fcs → em1 !! i = view em i) as Hv; [|by split; intros [Hs Hi]; rewrite Hv in *].
  intros Hi. unfold em1, view. rewrite lookup_union, get_events_lookup.
  destruct (em !! i) as [e|] eqn:E.
  - rewrite decide_False; [done|]. rewrite list_elem_of_filter. naive_solver.
  - rewrite decide_True; [by destruct (store_db i)|]. by rewrite list_elem_of_filter, elem_of_iter_set.
Qed.

Lemma resolve_Ok fuel room rv ss em rs em' :
  resolve_events_with_store fuel room rv ss em = Ok (rs, em') →
  ∃ D, ((∃ i, conflicted_id ss i) → _get_auth_chain_difference fuel room ss em = Ok D) ∧
    resolves rv em ss D rs ∧
    (∀ i, conflicted_id ss i ∨ i ∈ D → is_Some (view em i) → known_in em room i).
Proof.
  intros Hr. destruct (decide ((_seperate ss).2 = ∅)) as [Hc|Hc].
  { rewrite resolve_no_conflict in Hr by done. apply (inj Ok) in Hr as [= <- <-].
    pose proof (seperate_no_conflict ss Hc) as Hno. exists ∅. split_and!.
    - by intros [i ?%Hno].
    - apply resolves_agreed; [done|apply seperate_unconflicted].
    - intros i [?%Hno|?]; set_solver. }
  rewrite resolve_unfold in Hr by done.
  destruct (_get_auth_chain_difference fuel room ss em) as [D|] eqn:Ed; [|done].
  cbn zeta in Hr. exists D. pose proof (known_fcs ss D em) as Hknown. cbn zeta in Hknown.
  set (em1 := get_events _ ∪ em) in *.
  assert (grows em em1) as Hg.
  { apply grows_update. intros i. by rewrite list_elem_of_filter; intros [? _]. }
  clearbody em1. set (fcs := filter _ _) in *.
  destruct (check_rooms room em1) as [[]|] eqn:Ec; [|done].
  assert (∀ i, i ∈ fcs → is_Some (em1 !! i)) as Hfcs by (intros i [? _]%elem_of_filter; done).
  eapply (resolve_conflicted_Ok _ _ _ _ _ em) in Hr as (sorted & rs1 & lo & rs2 & Hs & Hc1 & Hm & Hc2 & ->); [|done|done].
  split_and!; [done| |].
  - eapply resolves_conflict with (fcs := fcs); try done; [|apply seperate_unconflicted].
    by apply seperate_conflict.
  - intros i Hi Hv. destruct (Hfcs i) as [e He]; [by apply Hknown|]. exists e. split.
    + rewrite <-(grows_view _ _ _ Hg). unfold view. by rewrite He.
    + by eapply check_rooms_Ok.
Qed.

(** Where the entries of the resolved state come from. *)
Lemma resolves_entry rv em ss D rs k i :
  resolves rv em ss D rs → rs !! k = Some i → agreed ss k i ∨
  (conflicted_id ss i ∨ i ∈ D) ∧
  ∃ e, view em i = Some e ∧ type_and_key e = Ok k ∧ rejected_reason e = None.
Proof.
  intros [u _ Hu|u fcs sorted rs1 lo rs2 _ Hu Hfcs Hs Hc1 [Hp _] Hc2]; [rewrite (Hu k i); by left|].
  rewrite lookup_union_Some_raw. intros [Hk%Hu|[_ Hk]]; [by left|].
  assert (∀ j, j ∈ lo → j ∈ fcs) as Hleft by (intros j; rewrite Hp; set_solver).
  assert (∀ j e, j ∈ fcs → view em j = Some e → conflicted_id ss j ∨ j ∈ D) as Hin.
  { intros j e Hj _. by apply Hfcs in Hj as [_ ?]. }
  destruct (check_steps_entry _ _ _ _ _ _ _ Hc2 Hk) as
    [Hk1|(Hi & e & rs0 & auth & b & Hv & Ht & Hr & _)]; [|right; eauto 10].
  destruct (check_steps_entry _ _ _ _ _ _ _ Hc1 Hk1) as
    [Hk0%Hu|(Hi & e & rs0 & auth & b & Hv & Ht & Hr & _)]; [by left|right].
  pose proof (power_sorted_sub _ _ _ _ Hs Hi). eauto 10.
Qed.
End whole.

(** C6: When state resolution v2 returns a state it is the one the algorithm describes, and
    the description leaves no choice. What all state sets agree on is kept. If they disagree
    on anything, the conflicted events and the auth chain difference, as far as known, are
    taken: first the power events and the conflicted auth events they reach, in the
    topological order that yields the smallest event by descending sender level, timestamp
    and id; each is checked against the auth rules, the events of the state resolved so far
    taking the place of its own auth events (for a key, the last that is known and not
    rejected), and replaces the entry of its key when it passes; then the rest, by mainline
    depth, timestamp and id. Every other entry is an event of the room with that type and
    state key that was not rejected. The store is a fixed table of events; the auth chain
    difference is the one the code computes. *)
Theorem resolve_sound `{NA : Netaddr} `{SJ : SignedJson} `{Laws : StoreLaws} `{Order : SetOrder}
    fuel room rv ss em rs em' :
  resolve_events_with_store fuel room rv ss em = Ok (rs, em') →
  ∃ D, ((∃ i, conflicted_id ss i) → _get_auth_chain_difference fuel room ss em = Ok D) ∧
    resolves rv em ss D rs ∧ (∀ rs', resolves rv em ss D rs' → rs' = rs) ∧
    (∀ k i, rs !! k = Some i → agreed ss k i ∨ ∃ e, view em i = Some e ∧
       type_and_key e = Ok k ∧ rejected_reason e = None ∧ ev_room_id e = Some room).
Proof.
  intros (D & HD & Hr & Hroom)%resolve_Ok. exists D. split_and!; [done|done| |].
  - intros rs' Hr'. by eapply resolves_functional.
  - intros k i Hk. destruct (resolves_entry _ _ _ _ _ _ _ Hr Hk) as [?|(Hi & e & Hv & ? & ?)];
      [by left|right].
    destruct (Hroom i Hi) as (e' & He' & ?); [eauto|]. simplify_eq. eauto 10.
Qed.

(** C7: When the auth events of the room form a graph without cycles (of bounded depth),
    there is an amount of fuel from which resolve_events_with_store never runs out of it:
    every loop that follows auth events ends, and the result is a resolved state or an
    exception the code raises. *)
Theorem resolve_terminates `{NA : Netaddr} `{SJ : SignedJson} `{Laws : StoreLaws} `{Order : SetOrder}
    room rv ss (em : EventMap) (depth : string → nat) (bound : nat) :
  (∀ v, real_exn (decode_base64 v)) → (∀ n k, real_exn (decode_verify_key_bytes n k)) →
  (∀ o s k, real_exn (verify_signed_json o s k)) →
  (∀ i e, em !! i = Some e → event_id e = i) →
  (∀ i, (depth i < bound)%nat) →
  (∀ i e a, view em i = Some e → a ∈ auth_event_ids e → is_Some (view em a) →
     (depth a < depth i)%nat) →
  ∃ k, ∀ fuel, (k ≤ fuel)%nat → real_exn (resolve_events_with_store fuel room rv ss em).
Proof.
  intros Hd1 Hd2 Hd3 Hkeys Hbound Hacyc.
  destruct (decide ((_seperate ss).2 = ∅)) as [Hc|Hc].
  { exists 0%nat. intros fuel _. by rewrite resolve_no_conflict. }
  assert (∀ i e a, em !! i = Some e → a ∈ auth_event_ids e → is_Some (em !! a) →
    (depth a < depth i)%nat) as Hac.
  { intros i e a Hi Ha [e' He']. eapply Hacyc; [|done|exists e']; unfold view; by rewrite ?Hi, ?He'. }
  destruct (auth_difference_terminates em depth room Hkeys Hac ss) as (k & r & Hr & Hk).
  destruct r as [diff|ex].
  2:{ exists k. intros fuel Hf. rewrite resolve_unfold, Hk by done. unfold real_exn in *. congruence. }
  set (fcs := conflicted_set (_seperate ss).2 diff).
  exists (k `max` (bound `max` (1 + total_auth em fcs)))%nat. intros fuel Hf.
  rewrite resolve_unfold, Hk by (done || lia). cbn zeta. fold fcs.
  set (em1 := get_events _ ∪ em).
  assert (grows em em1) as Hg.
  { apply grows_update. intros i. by rewrite list_elem_of_filter; intros [? _]. }
  assert (real_exn (check_rooms room em1)) as Hrooms.
  { unfold check_rooms. real. }
  destruct (check_rooms room em1); [|by unfold real_exn in *; congruence].
  eapply (finishes_resolve_conflicted Hd1 Hd2 Hd3 em depth bound); [done|done|lia| |done].
  pose proof (total_auth_mono em (filter (λ eid, is_Some (em1 !! eid)) fcs) fcs). set_solver by lia.
Qed.

(** ** Two runs

    The order in which sets are visited decides which events are loaded when,
    in which order the graph is built and how much fuel that takes. Two runs
    are related by what they return. *)

Create HintDb agrees.

Section two_runs.
Context `{NA : Netaddr} `{SJ : SignedJson} `{Laws : StoreLaws} (em : EventMap).

(** When [m] returns, [m'] returns a related result or runs out of fuel,
    whatever either has loaded from the store before. *)
Definition agrees {A B} (R : A → B → Prop) (m : SE EventMap A) (m' : SE EventMap B) : Prop :=
  ∀ em0 em0' a em1, grows em em0 → grows em em0' → m em0 = Ok (a, em1) →
    match m' em0' with Ok (a', _) => R a a' | Raise ex => ex = OutOfFuel end.

Definition any {A B} (_ : A) (_ : B) : Prop := True.

Lemma agrees_bind {A A' B B'} (R : A → A' → Prop) (Q : B → B' → Prop) m m' f f' :
  caches m → caches m' → agrees R m m' → (∀ a a', R a a' → agrees Q (f a) (f' a')) →
  agrees Q (m ≫= f) (m' ≫= f').
Proof.
  intros Hc Hc' Hm Hf em0 em0' b em1 Hg Hg' (a & em2 & Ha & Hb)%SE_bind_Ok.
  specialize (Hm em0 em0' a em2 Hg Hg' Ha). unfold mbind at 1, SE_bind at 1.
  destruct (m' em0') as [[a' em2']|ex] eqn:Em; [|done].
  eapply (Hf a a' Hm em2 em2'); [etrans; [exact Hg|by eapply Hc]|etrans; [exact Hg'|by eapply Hc']|done].
Qed.

Lemma agrees_ret {A B} (R : A → B → Prop) a b : R a b → agrees R (mret a) (mret b).
Proof. intros HR em0 em0' a' em1 _ _ E. by apply (inj Ok) in E as [= <- <-]. Qed.

Lemma agrees_lift {A} (r : res A) : agrees eq (lift r) (lift r).
Proof. intros em0 em0' a em1 _ _ (a' & Hr & [= -> ->])%lift_Ok. unfold lift. by rewrite Hr. Qed.

Lemma agrees_weaken {A B} (R Q : A → B → Prop) m m' :
  (∀ a b, R a b → Q a b) → agrees R m m' → agrees Q m m'.
Proof.
  intros HR Hm em0 em0' a em1 Hg Hg' E. specialize (Hm _ _ _ _ Hg Hg' E).
  destruct (m' em0') as [[a' ?]|]; auto.
Qed.

(** What is known of the results relates them. *)
Lemma agrees_by {A B} (R : A → B → Prop) m m' :
  agrees any m m' →
  (∀ em0 em0' a a' em1 em1', grows em em0 → grows em em0' →
     m em0 = Ok (a, em1) → m' em0' = Ok (a', em1') → R a a') → agrees R m m'.
Proof.
  intros Hm HR em0 em0' a em1 Hg Hg' E. specialize (Hm _ _ _ _ Hg Hg' E).
  destruct (m' em0') as [[a' em1']|] eqn:E'; [|done]. eapply HR; [exact Hg|exact Hg'|done|done].
Qed.

Lemma agrees_foldS {A S} (f f' : S → A → SE EventMap S) s l :
  (∀ s x, caches (f s x)) → (∀ s x, caches (f' s x)) →
  (∀ s x, x ∈ l → agrees eq (f s x) (f' s x)) → agrees eq (foldS f s l) (foldS f' s l).
Proof.
  intros Hc Hc'. revert s. induction l as [|x l IH]; intros s Hf; cbn; [by apply agrees_ret|].
  apply (agrees_bind eq); [done|done|apply Hf; left|]. intros s1 ? <-. apply IH. intros; apply Hf. by right.
Qed.

(** The same steps in another order, or fewer of them. *)
Lemma agrees_foldS_any {A S S'} (f : S → A → SE EventMap S) (f' : S' → A → SE EventMap S') s s' l l' :
  (∀ s x, caches (f s x)) → (∀ s x, caches (f' s x)) → (∀ x, x ∈ l' → x ∈ l) →
  (∀ s s' x, x ∈ l → agrees any (f s x) (f' s' x)) → agrees any (foldS f s l) (foldS f' s' l').
Proof.
  intros Hc Hc' Hsub Hf em0 em0' r em1 Hg Hg' Hr.
  assert (∀ x, x ∈ l → ∃ s1 em2 r2, grows em em2 ∧ f s1 x em2 = Ok r2) as Hok.
  { clear -Hr Hg Hc. revert s em0 Hr Hg. induction l as [|y l IH]; intros s em0 Hr Hg x Hx;
      [by apply elem_of_nil in Hx|]. cbn in Hr. apply SE_bind_Ok in Hr as (s1 & em2 & Hs & Hr).
    apply elem_of_cons in Hx as [->|Hx]; [eauto|].
    eapply IH; [done| |done]. etrans; [exact Hg|by eapply Hc]. }
  clear Hr. revert s' em0' Hg'. induction l' as [|x l' IH]; intros s' em0' Hg'; [done|].
  cbn. unfold mbind, SE_bind. destruct (Hok x) as (s1 & em2 & [r2 em3] & Hg2 & Hr2).
  { apply Hsub. left. }
  pose proof (Hf s1 s' x ltac:(apply Hsub; left) _ _ _ _ Hg2 Hg' Hr2) as Hx.
  destruct (f' s' x em0') as [[s2 em4]|ex] eqn:E; [|done].
  apply IH; [intros; apply Hsub; by right|]. etrans; [exact Hg'|by eapply Hc'].
Qed.

Lemma get_event_result room i allow em0 : ∃ em1, _get_event room i allow em0 =
  match view em0 i with
  | None => if allow then Ok (None, em1) else Raise (PlainException "Unknown event %s")
  | Some e => r ← Event.room_id e;
      if String.eqb r room then Ok (Some e, em1)
      else Raise (PlainException "In state res for room %s, event %s is in %s")
  end.
Proof.
  unfold _get_event, mbind, SE_bind, get_state.
  assert (∃ em1, (if em0 !! i is Some _ then mret tt else update_event_map (get_events [i])) em0 =
    Ok (tt, em1) ∧ em1 !! i = view em0 i) as (em1 & -> & ->).
  { unfold view. destruct (em0 !! i) as [e|] eqn:E; [by exists em0|]. eexists. split; [done|].
    rewrite lookup_union, E, get_events_lookup, decide_True by set_solver. by destruct (store_db i). }
  exists em1. destruct (view em0 i) as [e|]; [|by destruct allow].
  destruct (Event.room_id e) as [r|]; cbn; [|done]. by destruct (String.eqb r room).
Qed.

Lemma agrees_get_event room i allow : agrees eq (_get_event room i allow) (_get_event room i allow).
Proof.
  intros em0 em0' o em1 Hg Hg' E.
  destruct (get_event_result room i allow em0) as [em2 E2].
  destruct (get_event_result room i allow em0') as [em2' ->]. rewrite E2 in E.
  rewrite (grows_view _ _ _ Hg) in E. rewrite (grows_view _ _ _ Hg').
  destruct (view em i) as [e|]; [|destruct allow; by simplify_eq].
  destruct (Event.room_id e) as [r|]; cbn in *; [|done]. destruct (String.eqb r room); by simplify_eq.
Qed.

#[local] Hint Resolve agrees_lift agrees_get_event : agrees.
#[local] Hint Extern 2 (agrees _ (mret _) (mret _)) => apply agrees_ret; (done || congruence) : agrees.
#[local] Hint Extern 2 (agrees _ (_ ≫= _) (_ ≫= _)) =>
  apply (agrees_bind eq); [eauto 20 with caches|eauto 20 with caches| |intros ? ? <-] : agrees.
#[local] Hint Extern 3 (agrees _ (match ?x with _ => _ end) _) => destruct x : agrees.
#[local] Hint Extern 4 (agrees any _ _) => apply (agrees_weaken eq); [done|] : agrees.

Lemma agrees_required room i : agrees eq (_get_event_required room i) (_get_event_required room i).
Proof. unfold _get_event_required. eauto with agrees. Qed.
#[local] Hint Resolve agrees_required : agrees.

Lemma agrees_getitem i : is_Some (em !! i) → agrees eq (event_map_getitem i) (event_map_getitem i).
Proof.
  intros [e He] em0 em0' a em1 Hg Hg' [_ Ha]%event_map_getitem_Ok.
  apply (grows_lookup _ _ _ _ Hg) in He as He0. apply (grows_lookup _ _ _ _ Hg') in He as He0'.
  simplify_eq. unfold event_map_getitem, mbind, SE_bind, get_state. by rewrite He0'.
Qed.
#[local] Hint Resolve agrees_getitem : agrees.

Lemma agrees_find room typ ids : agrees eq (find_auth_event room typ ids) (find_auth_event room typ ids).
Proof. induction ids; cbn; eauto 10 with agrees. Qed.
#[local] Hint Resolve agrees_find : agrees.

Lemma agrees_power_level room i :
  agrees eq (_get_power_level_for_sender room i) (_get_power_level_for_sender room i).
Proof. unfold _get_power_level_for_sender. eauto 20 with agrees. Qed.
#[local] Hint Resolve agrees_power_level : agrees.

Lemma agrees_own room e : agrees eq (own_auth_events room e) (own_auth_events room e).
Proof.
  unfold own_auth_events. apply agrees_foldS; [eauto 20 with caches..|]. eauto 20 with agrees.
Qed.

Lemma agrees_mainline fuel room pl : agrees eq (mainline_loop fuel room pl) (mainline_loop fuel room pl).
Proof. revert pl. induction fuel; intros [[|c pl]|]; cbn; eauto 20 with agrees. Qed.

Lemma agrees_depth fuel room mm o :
  agrees eq (mainline_depth_loop fuel room mm o) (mainline_depth_loop fuel room mm o).
Proof. revert o. induction fuel; intros [e|]; cbn; eauto 20 with agrees. Qed.
#[local] Hint Resolve agrees_own agrees_mainline agrees_depth : agrees.

(** Which steps of the selection of auth events succeed depends on the
    resolved state alone. *)
Lemma resolved_step_Ok room rs auth key em0 :
  grows em em0 →
  (∃ r, resolved_auth_step room rs auth key em0 = Ok r) ↔
  ∀ i, rs !! key = Some i → known_in em room i.
Proof.
  intros Hg. unfold resolved_auth_step. destruct (rs !! key) as [i|]; [|split; [done|by eexists]].
  pose proof (get_event_required_known room i em em0 Hg) as Hk. unfold mbind, SE_bind.
  destruct (_get_event_required room i em0) as [[e em1]|ex] eqn:E.
  - apply get_event_required_Ok in E as (_ & _ & Hi & _). split.
    + intros _ j [= <-]. apply Hk. by eexists.
    + intros _. destruct (rejected_reason e); [by eexists|].
      unfold event_map_getitem, mbind, SE_bind, get_state. rewrite Hi. by eexists.
  - split; [by intros [? ?]|]. intros [? ?]%(λ H, proj2 Hk (H i eq_refl)). done.
Qed.

Lemma agrees_resolved (O O' : SetOrder) room rs auth keys :
  agrees eq (resolved_auth_events (Order := O) room rs auth keys)
    (resolved_auth_events (Order := O') room rs auth keys).
Proof.
  apply agrees_by.
  - unfold resolved_auth_events.
    apply agrees_foldS_any; [intros; unfold resolved_auth_step; eauto 20 with caches..| |].
    + intros k. by rewrite (iter_set_orders O' O).
    + intros s s' k _ em0 em0' a em1 Hg Hg' E. destruct (resolved_auth_step room rs s' k em0') as [[]|] eqn:E';
        [done|].
      destruct (proj2 (resolved_step_Ok room rs s' k em0' Hg')) as [r Hr]; [|congruence].
      apply (resolved_step_Ok room rs s k em0 Hg). by eexists.
  - intros em0 em0' a a' em1 em1' Hg Hg' Ha%resolved_auth_events_spec Ha'%resolved_auth_events_spec.
    apply (view_preferred _ _ _ _ _ _ Hg) in Ha. apply (view_preferred _ _ _ _ _ _ Hg') in Ha'.
    apply map_eq. intros k. by rewrite (Ha k), (Ha' k).
Qed.
#[local] Hint Resolve agrees_resolved : agrees.

Lemma agrees_checks (O O' : SetOrder) room rv ids base :
  (∀ i, i ∈ ids → is_Some (em !! i)) →
  agrees eq (_iterative_auth_checks (Order := O) room rv ids base)
    (_iterative_auth_checks (Order := O') room rv ids base).
Proof.
  intros Hids. unfold _iterative_auth_checks.
  apply agrees_foldS; [eauto with caches..|]. intros rs i Hi%Hids. unfold iterative_auth_check.
  eauto 20 with agrees.
Qed.

Lemma agrees_power_sort (O O' : SetOrder) fuel room fcs ids ids' :
  (∀ i, i ∈ ids ↔ i ∈ ids') →
  agrees eq (_reverse_topological_power_sort (Order := O) fuel room ids fcs)
    (_reverse_topological_power_sort (Order := O') fuel room ids' fcs).
Proof.
  intros Hids. apply agrees_by.
  2:{ intros em0 em0' l l' em1 em1' Hg Hg' (g & HG & Hl)%(power_sort_graph _ _ _ _ em)
        (g' & HG' & Hl')%(power_sort_graph _ _ _ _ em); [|done|done].
      rewrite (power_graph_functional em fcs ids ids' g g') in Hl by done.
      by eapply lex_topological_unique. }
  intros em0 em0' l em1 Hg Hg' (g & em2 & HG & Hl)%SE_bind_Ok.
  pose proof (build_graph_spec fuel room em fcs ids ids ∅ em0) as Hb. rewrite HG in Hb.
  destruct Hb as (H1 & H2 & H3 & H4); [done|done|by intros ??; rewrite lookup_empty|].
  assert (power_graph em fcs ids g) as Hpg.
  { apply power_graph_of; [done|by auto|]. intros n Hn. destruct (H3 n Hn) as [[? He]|?]; [|done].
    by rewrite lookup_empty in He. }
  pose proof (build_graph_spec fuel room em fcs ids' ids' ∅ em0') as Hb.
  unfold _reverse_topological_power_sort. unfold mbind at 1, SE_bind at 1.
  destruct (foldS _ ∅ ids' em0') as [[g' em2']|ex] eqn:HG'.
  2:{ destruct Hb as [_ [?|(n & Hn & Hk)]]; [done|done|by intros ??; rewrite lookup_empty|done|].
      destruct Hk. apply (reached_mono _ _ _ ids) in Hn; [|intros i; by rewrite Hids].
      destruct (H4 n) as [[? He]|[_ ?]]; [|by rewrite lookup_empty in He|done].
      eexists. by apply Hpg. }
  destruct Hb as (J1 & J2 & J3 & J4); [done|done|by intros ??; rewrite lookup_empty|].
  assert (power_graph em fcs ids' g') as Hpg'.
  { apply power_graph_of; [done|by auto|]. intros n Hn. destruct (J3 n Hn) as [[? He]|?]; [|done].
    by rewrite lookup_empty in He. }
  rewrite (power_graph_functional em fcs ids ids' g g') in Hl by done.
  assert (grows em em2) as Hg2.
  { etrans; [exact Hg|]. eapply (caches_foldS _ _ _ (λ s x, caches_add_chain _ _ _ _ _) em0); done. }
  assert (grows em em2') as Hg2'.
  { etrans; [exact Hg'|]. eapply (caches_foldS _ _ _ (λ s x, caches_add_chain _ _ _ _ _) em0'); done. }
  apply SE_bind_Ok in Hl as (pls & em3 & Hpl & _).
  assert (agrees any (foldS (add_power_level room) ∅ (map_to_list g').*1)
    (foldS (add_power_level room) ∅ (map_to_list g').*1)) as Ha.
  { apply agrees_foldS_any; [eauto with caches..|done|]. intros. unfold add_power_level.
    apply (agrees_bind eq); [eauto with caches..|eauto with agrees|]. intros. by apply agrees_ret. }
  specialize (Ha _ _ _ _ Hg2 Hg2' Hpl). unfold mbind at 1, SE_bind at 1.
  destruct (foldS (add_power_level room) ∅ _ em2') as [[pls' em3']|ex] eqn:Hpl'; [|done].
  destruct (power_sort_last _ _ _ _ em _ _ _ _ _ Hg' HG' Hpl') as (l' & Hl' & _).
  unfold mbind, SE_bind, get_state, lift. by rewrite Hl'.
Qed.

Lemma add_order_dom fuel mm ids om em0 om' em1 :
  foldS (add_order fuel mm) om ids em0 = Ok (om', em1) →
  ∀ i, is_Some (om !! i) ∨ i ∈ ids → is_Some (om' !! i).
Proof.
  revert om em0. induction ids as [|j ids IH]; intros om em0 Hf i Hi; cbn in Hf.
  { apply (inj Ok) in Hf as [= <- <-]. rewrite elem_of_nil in Hi. naive_solver. }
  apply SE_bind_Ok in Hf as (om1 & em2 & Hs & Hf). eapply IH; [done|].
  apply SE_bind_Ok in Hs as (? & ? & _ & Hs). apply SE_bind_Ok in Hs as (? & ? & _ & Hs).
  apply SE_bind_Ok in Hs as (? & ? & _ & Hs). apply (inj Ok) in Hs as [= <- _].
  rewrite lookup_insert_is_Some. destruct (decide (j = i)); [by left; left|].
  destruct Hi as [?|[->|?]%elem_of_cons]; auto.
Qed.

Lemma sort_by_order_map_total (om : StrMap (Z * Z * string)) ids :
  (∀ i, i ∈ ids → is_Some (om !! i)) → ∃ l, sort_by_order_map om ids = Ok l.
Proof.
  intros Hom. unfold sort_by_order_map.
  assert (∃ keyed, traverse (λ ev_id, match om !! ev_id with
    | Some k => Ok (k, ev_id) | None => Raise KeyError end) ids = Ok keyed) as [keyed ->]; [|by eexists].
  induction ids as [|i ids IH]; [by eexists|]. destruct (Hom i) as [k Hk]; [left|].
  destruct IH as [keyed Hkeyed]; [intros; apply Hom; by right|]. cbn. rewrite Hk. cbn.
  rewrite Hkeyed. by eexists.
Qed.

Lemma agrees_mainline_sort fuel room ids ids' pl :
  ids ≡ₚ ids' → (∀ i, i ∈ ids → is_Some (em !! i)) →
  agrees eq (_mainline_sort fuel room ids pl) (_mainline_sort fuel room ids' pl).
Proof.
  intros Hp Hids. apply agrees_by.
  2:{ intros em0 em0' l l' em1 em1' Hg Hg' Hl%mainline_sort_Ok Hl'%mainline_sort_Ok.
      apply (mainline_sorted_grows _ _ _ _ _ Hg) in Hl. apply (mainline_sorted_grows _ _ _ _ _ Hg') in Hl'.
      symmetry. by eapply mainline_sorted_functional. }
  unfold _mainline_sort. destruct ids as [|i l] eqn:E, ids' as [|i' l'] eqn:E'; rewrite <-?E, <-?E' in *.
  - by apply agrees_ret.
  - subst. by apply Permutation_nil_l in Hp.
  - subst. by apply Permutation_nil_r in Hp.
  - apply (agrees_bind eq); [eauto with caches..|eauto with agrees|]. intros ml ? <-.
    assert (agrees any (foldS (add_order fuel (mainline_map_of ml)) ∅ ids)
      (foldS (add_order fuel (mainline_map_of ml)) ∅ ids')) as Ha.
    { apply agrees_foldS_any; [eauto with caches..|intros x; by rewrite Hp|].
      intros om om' x Hx%Hids. unfold add_order, _get_mainline_depth_for_event.
      apply (agrees_bind eq); [eauto 20 with caches..|eauto with agrees|intros ? ? <-].
      apply (agrees_bind eq); [eauto 20 with caches..|eauto with agrees|intros ? ? <-].
      apply (agrees_bind eq); [eauto 20 with caches..|eauto with agrees|intros ? ? <-].
      by apply agrees_ret. }
    intros em0 em0' r em1 Hg Hg' (om & em2 & Hom & _)%SE_bind_Ok.
    specialize (Ha _ _ _ _ Hg Hg' Hom). unfold mbind at 1, SE_bind at 1.
    destruct (foldS _ ∅ ids' em0') as [[om' em2']|] eqn:Hf; [|done].
    destruct (sort_by_order_map_total om' ids') as [k Hk]; [|unfold lift; by rewrite Hk].
    intros j Hj. eapply add_order_dom; [done|]. by right.
Qed.

Lemma agrees_power_events (O O' : SetOrder) (fcs : StrSet) :
  (∀ i, i ∈ fcs → is_Some (em !! i)) →
  agrees (λ ids ids', ∀ i, i ∈ ids ↔ i ∈ ids') (power_events_of (Order := O) fcs)
    (power_events_of (Order := O') fcs).
Proof.
  intros Hfcs. apply agrees_by.
  - unfold power_events_of. apply agrees_foldS_any; [intros; eauto 20 with caches..| |].
    + intros i. by rewrite (iter_set_orders O' O).
    + intros acc acc' i Hi%elem_of_iter_set%Hfcs.
      apply (agrees_bind eq); [eauto 20 with caches..|eauto with agrees|intros ? ? <-].
      apply (agrees_bind eq); [eauto 20 with caches..|eauto with agrees|intros ? ? <-].
      by apply agrees_ret.
  - intros em0 em0' ids ids' em1 em1' Hg Hg' [_ Hi]%power_events_Ok [_ Hi']%power_events_Ok i.
    rewrite (Hi i), (Hi' i).
    split; intros [Hin (e & He & Hp)]; (split; [done|exists e; split; [|done]]);
      destruct (Hfcs i Hin) as [e' He'];
      apply (grows_lookup _ _ _ _ Hg) in He' as H1; apply (grows_lookup _ _ _ _ Hg') in He' as H2;
      congruence.
Qed.

Lemma agrees_keep {A B} (R : A → B → Prop) (P : A → Prop) m m' :
  agrees R m m' → (∀ em0 a em1, grows em em0 → m em0 = Ok (a, em1) → P a) →
  agrees (λ a a', R a a' ∧ P a) m m'.
Proof.
  intros Hm HP em0 em0' a em1 Hg Hg' E. specialize (Hm _ _ _ _ Hg Hg' E).
  destruct (m' em0') as [[a' ?]|]; [|done]. split; [done|]. exact (HP _ _ _ Hg E).
Qed.

Lemma agrees_resolve_conflicted (O O' : SetOrder) fuel room rv u (fcs : StrSet) :
  (∀ i, i ∈ fcs → is_Some (em !! i)) →
  agrees eq (resolve_conflicted (Order := O) fuel room rv u fcs)
    (resolve_conflicted (Order := O') fuel room rv u fcs).
Proof.
  intros Hfcs. unfold resolve_conflicted.
  eapply agrees_bind; [eauto with caches..| |].
  { eapply (agrees_keep _ (λ ids, ∀ i, i ∈ ids → i ∈ fcs)); [by apply agrees_power_events|].
    intros em0 ids em1 _. apply power_events_sub. }
  intros ids ids' [Hids Hsub]. eapply agrees_bind; [eauto with caches..| |].
  { eapply (agrees_keep _ (λ l, ∀ i, i ∈ l → i ∈ fcs)); [by apply agrees_power_sort|].
    intros em0 l em1 Hg (g & Hpg & Hl)%(power_sort_graph _ _ _ _ em) i Hi; [|done].
    apply (lex_topological_elem _ _ _ _ Hl) in Hi as [i' es Hes _].
    apply (Hpg i') in Hes as [[?|?]%reached_within _]; auto. }
  intros sorted ? [<- Hsorted].
  apply (agrees_bind eq); [eauto with caches..|apply agrees_checks; auto|intros rs ? <-].
  eapply agrees_bind; [eauto with caches..| |].
  { eapply (agrees_keep _ (λ l, ∀ i, i ∈ l → i ∈ fcs)).
    - apply agrees_mainline_sort; [by rewrite (iter_set_orders O O')|].
      intros i [_ Hi%elem_of_iter_set]%list_elem_of_filter. auto.
    - intros em0 l em1 _ [Hp _]%mainline_sort_Ok i. rewrite Hp, list_elem_of_filter, elem_of_iter_set.
      by intros [_ ?]. }
  intros lo ? [<- Hlo].
  apply (agrees_bind eq); [eauto with caches..|apply agrees_checks; auto|intros rs' ? <-].
  by apply agrees_ret.
Qed.
End two_runs.

(** C8: The resolved state depends neither on the order of the state sets nor on the orders
    in which Python visits sets: when resolution returns a state, then with the state sets
    in any order and every set visited in any other order it returns the same state or stops
    for lack of fuel (which it does not when there is enough, resolve_terminates). The store
    is a fixed table whose auth chain difference does not depend on the order of the sets it
    is given; the order of a set is a function of its elements. *)
Theorem resolve_order_independent `{NA : Netaddr} `{SJ : SignedJson} `{Laws : StoreLaws}
    (O O' : SetOrder) fuel room rv ss ss' em rs em1 :
  (∀ sets sets', sets ≡ₚ sets' →
     get_auth_chain_difference room sets = get_auth_chain_difference room sets') →
  ss ≡ₚ ss' →
  resolve_events_with_store (Order := O) fuel room rv ss em = Ok (rs, em1) →
  match resolve_events_with_store (Order := O') fuel room rv ss' em with
  | Ok (rs', _) => rs' = rs
  | Raise ex => ex = OutOfFuel
  end.
Proof.
  intros Hstore Hp Hr. pose proof (seperate_perm O O' ss ss' Hp) as Hsep.
  destruct (decide ((_seperate (Order := O) ss).2 = ∅)) as [Hc|Hc].
  { rewrite (resolve_no_conflict (Order := O)) in Hr by done. rewrite Hsep in Hc, Hr.
    rewrite (resolve_no_conflict (Order := O')) by done. by apply (inj Ok) in Hr as [= <- <-]. }
  rewrite (resolve_unfold (Order := O)) in Hr by done. rewrite Hsep in Hc, Hr.
  rewrite (resolve_unfold (Order := O')) by done.
  rewrite (auth_chain_difference_perm room Hstore fuel ss ss') in Hr by done.
  destruct (_get_auth_chain_difference fuel room ss' em) as [D|]; [|done]. cbn zeta in *.
  set (fcs := conflicted_set _ _) in *.
  assert (get_events (filter (λ eid, em !! eid = None) (iter_set (SetOrder := O) fcs)) =
    get_events (filter (λ eid, em !! eid = None) (iter_set (SetOrder := O') fcs))) as Hev.
  { apply map_eq. intros i. rewrite !get_events_lookup. apply decide_ext.
    by rewrite (iter_set_orders O O' fcs). }
  rewrite Hev in Hr. set (emd := get_events _ ∪ em) in *. clearbody emd.
  destruct (check_rooms room emd) as [|]; [|done].
  specialize (agrees_resolve_conflicted emd O O' fuel room rv) as Ha.
  eapply Ha in Hr; [|by intros i [? _]%elem_of_filter|reflexivity|reflexivity].
  by destruct (resolve_conflicted _ _ _ _ _ emd) as [[]|].
Qed.
