(* ===== verification/StateResV1.v ===== *)
(** * State resolution, version 1: [synapse/state/v1.py]

    [state_map_factory], which the caller passes in, is an argument. Dicts the
    code updates in place ([auth_events], [unconflicted_state_ids]) are local
    to the resolution and are passed on explicitly. *)

From S2P Require Import Prelude PyOrd PyJson RoomVersions Identifiers Event EventAuth.
From Stdlib Require Import Ascii.

(** ** [hashlib.sha1(...).hexdigest()]

    The digest the v1 algorithm orders events by, on the bytes of a string:
    32-bit words as integers with the wrap-around written out. *)

Definition mask32 : Z := 4294967295.
Definition add32 (a b : Z) : Z := Z.land (a + b) mask32.
Definition not32 (a : Z) : Z := Z.lxor a mask32.
Definition rotl32 (n a : Z) : Z :=
  Z.lor (Z.land (Z.shiftl a n) mask32) (Z.shiftr a (32 - n)).

(** The bytes of a string. *)
Fixpoint bytes_of (s : string) : list Z :=
  match s with
  | EmptyString => []
  | String c s => Z.of_N (N_of_ascii c) :: bytes_of s
  end.

(** [n] as [k] bytes, most significant first. *)
Fixpoint be_bytes (k : nat) (n : Z) : list Z :=
  match k with
  | O => []
  | S k => Z.land (Z.shiftr n (8 * Z.of_nat k)) 255 :: be_bytes k n
  end.

(** A one bit, zeros up to 56 modulo 64 bytes, and the length in bits. *)
Definition pad (m : list Z) : list Z :=
  let len := Z.of_nat (length m) in
  m ++ 128 :: replicate (Z.to_nat ((55 - len) mod 64)) 0 ++ be_bytes 8 (8 * len).

(** Four bytes at a time. *)
Fixpoint words_of (m : list Z) : list Z :=
  match m with
  | a :: b :: c :: d :: m =>
      Z.lor (Z.shiftl a 24) (Z.lor (Z.shiftl b 16) (Z.lor (Z.shiftl c 8) d)) :: words_of m
  | _ => []
  end.

(** Words 16 to 79 of the schedule; [ws] has the latest word first. *)
Fixpoint extend_schedule (n : nat) (ws : list Z) : list Z :=
  match n with
  | O => ws
  | S n =>
      let w i := nth i ws 0 in
      extend_schedule n (rotl32 1 (Z.lxor (w 2%nat) (Z.lxor (w 7%nat) (Z.lxor (w 13%nat) (w 15%nat)))) :: ws)
  end.

Record digest := { h0 : Z; h1 : Z; h2 : Z; h3 : Z; h4 : Z }.

Definition initial_digest : digest :=
  {| h0 := 1732584193; h1 := 4023233417; h2 := 2562383102; h3 := 271733878; h4 := 3285377520 |}.

Definition round (t : nat) (d : digest) (w : Z) : digest :=
  let '(f, k) :=
    if (t <? 20)%nat then
      (Z.lor (Z.land (h1 d) (h2 d)) (Z.land (not32 (h1 d)) (h3 d)), 1518500249)
    else if (t <? 40)%nat then (Z.lxor (h1 d) (Z.lxor (h2 d) (h3 d)), 1859775393)
    else if (t <? 60)%nat then
      (Z.lor (Z.land (h1 d) (h2 d)) (Z.lor (Z.land (h1 d) (h3 d)) (Z.land (h2 d) (h3 d))), 2400959708)
    else (Z.lxor (h1 d) (Z.lxor (h2 d) (h3 d)), 3395469782) in
  {| h0 := add32 (rotl32 5 (h0 d)) (add32 f (add32 (h4 d) (add32 k w)));
     h1 := h0 d; h2 := rotl32 30 (h1 d); h3 := h2 d; h4 := h3 d |}.

Fixpoint rounds (t : nat) (d : digest) (ws : list Z) : digest :=
  match ws with [] => d | w :: ws => rounds (S t) (round t d w) ws end.

Definition block (d : digest) (ws : list Z) : digest :=
  let r := rounds 0 d (reverse (extend_schedule 64 (reverse ws))) in
  {| h0 := add32 (h0 d) (h0 r); h1 := add32 (h1 d) (h1 r); h2 := add32 (h2 d) (h2 r);
     h3 := add32 (h3 d) (h3 r); h4 := add32 (h4 d) (h4 r) |}.

(** Sixteen words at a time; [n] bounds the number of blocks. *)
Fixpoint blocks (n : nat) (d : digest) (ws : list Z) : digest :=
  match n, ws with
  | S n, _ :: _ => blocks n (block d (take 16 ws)) (drop 16 ws)
  | _, _ => d
  end.

Definition hex_digit (n : Z) : ascii :=
  ascii_of_N (Z.to_N (if n <? 10 then 48 + n else 87 + n)).

Fixpoint hex_of (bs : list Z) : string :=
  match bs with
  | [] => EmptyString
  | b :: bs => String (hex_digit (Z.shiftr b 4)) (String (hex_digit (Z.land b 15)) (hex_of bs))
  end.

Definition sha1_hexdigest (s : string) : string :=
  let ws := words_of (pad (bytes_of s)) in
  let d := blocks (length ws) initial_digest ws in
  hex_of (be_bytes 4 (h0 d) ++ be_bytes 4 (h1 d) ++ be_bytes 4 (h2 d) ++ be_bytes 4 (h3 d)
          ++ be_bytes 4 (h4 d)).

(** The test vectors of FIPS 180. *)
Example sha1_empty : sha1_hexdigest "" = "da39a3ee5e6b4b0d3255bfef95601890afd80709"%string.
Proof. vm_compute. reflexivity. Qed.
Example sha1_abc : sha1_hexdigest "abc" = "a9993e364706816aba3e25717850c26c9cd0d89d"%string.
Proof. vm_compute. reflexivity. Qed.
Example sha1_two_blocks :
  sha1_hexdigest "abcdbcdecdefdefgefghfghighijhijkijkljklmklmnlmnomnopnopq" =
  "84983e441c3bd26ebaae4aa1f95129e5e54670f1"%string.
Proof. vm_compute. reflexivity. Qed.

(** ** The algorithm *)

Abbreviation EventMap := (StrMap EventBase).

Definition POWER_KEY : StateKey := (EventTypes.PowerLevels, "").

(** ** Conflicted state *)

(** One [for key, value in state_set.items()]. *)
Definition seperate_entry (acc : StateMap string * StateMap StrSet) (kv : StateKey * string) :
    StateMap string * StateMap StrSet :=
  let '(unconflicted_state, conflicted_state) := acc in
  let '(key, value) := kv in
  match unconflicted_state !! key with
  | None =>
      match conflicted_state !! key with
      | None => (<[key := value]> unconflicted_state, conflicted_state)
      | Some ls => (unconflicted_state, <[key := {[value]} ∪ ls]> conflicted_state)
      end
  | Some unconflicted_value =>
      if String.eqb unconflicted_value value then acc
      else (delete key unconflicted_state,
            <[key := {[value; unconflicted_value]}]> conflicted_state)
  end.

(** [next] on an empty iterator raises [StopIteration], which a coroutine
    turns into [RuntimeError]. *)
Definition _seperate (state_sets : list (StateMap string)) :
    res (StateMap string * StateMap StrSet) :=
  match state_sets with
  | [] => Raise (RuntimeError "coroutine raised StopIteration")
  | first :: others =>
      Ok (foldl (λ acc (state_set : StateMap string), foldl seperate_entry acc (map_to_list state_set))
            (first, ∅) others)
  end.

(** ** Auth events for the conflicted state *)

(** [for key in keys] *)
Definition add_auth_event_ids (unconflicted_state auth_events : StateMap string) (keys : StateKeys) :
    StateMap string :=
  foldl (λ (auth_events : StateMap string) (key : StateKey),
      match auth_events !! key with
      | Some _ => auth_events
      | None =>
          match unconflicted_state !! key with
          | Some auth_event_id =>
              if String.eqb auth_event_id "" then auth_events
              else <[key := auth_event_id]> auth_events
          | None => auth_events
          end
      end) auth_events (elements keys).

Definition _create_auth_events_from_maps (room_version : RoomVersion)
    (unconflicted_state : StateMap string) (conflicted_state : StateMap StrSet)
    (state_map : EventMap) : res (StateMap string) :=
  foldM (λ auth_events event_ids,
      foldM (λ auth_events event_id,
          match state_map !! event_id with
          | Some event =>
              keys ← auth_types_for_event room_version event;
              Ok (add_auth_event_ids unconflicted_state auth_events keys)
          | None => Ok auth_events
          end) auth_events (elements (event_ids : StrSet)))
    ∅ (map_to_list conflicted_state).*2.

Section Resolve.
Context `{Netaddr} `{SignedJson}.

(** ** Choosing between events *)

(** [key_func] *)
Definition key_func (e : EventBase) : Z * string := (- depth e, sha1_hexdigest (event_id e)).

Definition _ordered_events (events : list EventBase) : list EventBase := py_sort key_func events.

(** [for event in reverse[1:]]: [prev_event] is the last event accepted. *)
Fixpoint resolve_auth_loop (auth_events : StateMap EventBase) (prev_event : EventBase)
    (events : list EventBase) : res EventBase :=
  match events with
  | [] => Ok prev_event
  | event :: events =>
      sk ← state_key prev_event;
      let auth_events := <[(ev_type prev_event, sk) := prev_event]> auth_events in
      match check_state_dependent_auth_rules event (map_to_list auth_events).*2 with
      | Ok _ => resolve_auth_loop auth_events event events
      | Raise e => if is_AuthError e then Ok prev_event else Raise e
      end
  end.

(** [{key for event in events for key in auth_types_for_event(...)}] *)
Definition auth_keys_of (room_version : RoomVersion) (events : list EventBase) : res StateKeys :=
  foldM (λ (keys : StateKeys) event,
      ks ← auth_types_for_event room_version event; Ok (keys ∪ ks)) ∅ events.

(** With a single event the loop does not run and [event] is unbound; the
    callers only pass several. *)
Definition _resolve_auth_events (room_version : RoomVersion) (events : list EventBase)
    (auth_events : StateMap EventBase) : res EventBase :=
  let reverse_events := reverse (_ordered_events events) in
  auth_keys ← auth_keys_of room_version events;
  let new_auth_events := filter (λ kv, kv.1 ∈ auth_keys) auth_events in
  match reverse_events with
  | [] => Raise IndexError
  | [_] => Raise (PlainException "UnboundLocalError: event")
  | prev_event :: rest => resolve_auth_loop new_auth_events prev_event rest
  end.

(** The first event that passes; [last] when all of them fail. *)
Fixpoint first_passing (auth_events : StateMap EventBase) (last : res EventBase)
    (events : list EventBase) : res EventBase :=
  match events with
  | [] => last
  | event :: events =>
      match check_state_dependent_auth_rules event (map_to_list auth_events).*2 with
      | Ok _ => Ok event
      | Raise e => if is_AuthError e then first_passing auth_events (Ok event) events else Raise e
      end
  end.

Definition _resolve_normal_events (events : list EventBase) (auth_events : StateMap EventBase) :
    res EventBase :=
  first_passing auth_events (Raise (PlainException "UnboundLocalError: event"))
    (_ordered_events events).

(** ** All conflicts *)

(** One pass over the conflicted state, for the keys that satisfy [sel]. *)
Definition resolve_pass (sel : StateMap EventBase → StateKey → bool)
    (resolve : list EventBase → res EventBase)
    (conflicted_state : StateMap (list EventBase)) (resolved_state : StateMap EventBase) :
    res (StateMap EventBase) :=
  foldM (λ (resolved_state : StateMap EventBase) kv,
      if sel resolved_state kv.1 then
        e ← resolve kv.2; Ok (<[kv.1 := e]> resolved_state)
      else Ok resolved_state) resolved_state (map_to_list conflicted_state).

Definition _resolve_state_events (room_version : RoomVersion)
    (conflicted_state : StateMap (list EventBase)) (auth_events : StateMap EventBase) :
    res (StateMap EventBase) :=
  resolved_state ←
    match conflicted_state !! POWER_KEY with
    | Some events =>
        e ← _resolve_auth_events room_version events auth_events; Ok {[POWER_KEY := e]}
    | None => Ok ∅
    end;
  let auth_events := resolved_state ∪ auth_events in
  resolved_state ←
    resolve_pass (λ _ key, String.eqb key.1 EventTypes.JoinRules)
      (λ events, _resolve_auth_events room_version events auth_events) conflicted_state resolved_state;
  let auth_events := resolved_state ∪ auth_events in
  resolved_state ←
    resolve_pass (λ _ key, String.eqb key.1 EventTypes.Member)
      (λ events, _resolve_auth_events room_version events auth_events) conflicted_state resolved_state;
  let auth_events := resolved_state ∪ auth_events in
  resolve_pass (λ resolved_state key, bool_decide (resolved_state !! key = None))
    (λ events, _resolve_normal_events events auth_events) conflicted_state resolved_state.

(** [events = [state_map[ev_id] for ev_id in event_ids if ev_id in state_map]] *)
Definition known_events (state_map : EventMap) (event_ids : StrSet) : list EventBase :=
  omap (λ ev_id, state_map !! ev_id) (elements event_ids).

(** The first loop of [_resolve_with_state]: one iteration, and the loop. *)
Definition split_step (state_map : EventMap)
    (acc : StateMap (list EventBase) * StateMap string) (kv : StateKey * StrSet) :
    StateMap (list EventBase) * StateMap string :=
  let '(conflicted_state, unconflicted_state_ids) := acc in
  match known_events state_map kv.2 with
  | [] => (conflicted_state, unconflicted_state_ids)
  | [e] => (conflicted_state, <[kv.1 := event_id e]> unconflicted_state_ids)
  | events => (<[kv.1 := events]> conflicted_state, unconflicted_state_ids)
  end.

Definition split_conflicts (state_map : EventMap) (conflicted_state_ids : StateMap StrSet)
    (unconflicted_state_ids : StateMap string) : StateMap (list EventBase) * StateMap string :=
  foldl (split_step state_map) (∅, unconflicted_state_ids) (map_to_list conflicted_state_ids).

Definition _resolve_with_state (room_version : RoomVersion)
    (unconflicted_state_ids : StateMap string) (conflicted_state_ids : StateMap StrSet)
    (auth_event_ids : StateMap string) (state_map : EventMap) : res (StateMap string) :=
  let '(conflicted_state, unconflicted_state_ids) :=
    split_conflicts state_map conflicted_state_ids unconflicted_state_ids in
  let auth_events : StateMap EventBase := omap (λ ev_id, state_map !! ev_id) auth_event_ids in
  resolved_state ← _resolve_state_events room_version conflicted_state auth_events;
  Ok ((event_id <$> resolved_state) ∪ unconflicted_state_ids).

(** The room check, on a dict of events. *)
Definition check_rooms (room_id : string) (events : EventMap) : res unit :=
  iterM (λ event,
      r ← Event.room_id event;
      raise_if (negb (String.eqb r room_id))
        (PlainException "Attempting to state-resolve for room %s with event %s which is in %s"))
    (map_to_list events).*2.

(** [resolve_events_with_store], past the test for a single state set. *)
Definition resolve_state_sets (room_id : string) (room_version : RoomVersion)
    (state_sets : list (StateMap string)) (event_map : option EventMap)
    (state_map_factory : StrSet → EventMap) : res (StateMap string) :=
  '(unconflicted_state, conflicted_state) ← _seperate state_sets;
  let in_flight : StrSet := if event_map is Some m then dom m else ∅ in
  let needed_events : StrSet := ⋃ (map_to_list conflicted_state).*2 ∖ in_flight in
  let state_map := default ∅ event_map ∪ state_map_factory needed_events in
  check_rooms room_id state_map;;
  auth_events ← _create_auth_events_from_maps room_version unconflicted_state
                  conflicted_state state_map;
  let new_needed_events : StrSet :=
    list_to_set (map_to_list auth_events).*2 ∖ needed_events ∖ in_flight in
  let state_map_new := state_map_factory new_needed_events in
  check_rooms room_id state_map_new;;
  let state_map := state_map_new ∪ state_map in
  _resolve_with_state room_version unconflicted_state conflicted_state auth_events state_map.

Definition resolve_events_with_store (room_id : string) (room_version : RoomVersion)
    (state_sets : list (StateMap string)) (event_map : option EventMap)
    (state_map_factory : StrSet → EventMap) : res (StateMap string) :=
  match state_sets with
  | [state_set] => Ok state_set
  | _ => resolve_state_sets room_id room_version state_sets event_map state_map_factory
  end.
End Resolve.
