(* ===== verification/StateResV1Props.v ===== *)
(** * Properties of state resolution v1 *)

From S2P Require Import Prelude PyOrd PyJson RoomVersions Identifiers Event EventAuth StateResV1.

(** ** Conflicted and unconflicted state *)

(** The values a list of entries has for a key. *)
Definition vals (l : list (StateKey * string)) (k : StateKey) : StrSet :=
  list_to_set (snd <$> filter (λ kv : StateKey * string, kv.1 = k) l).

Lemma elem_of_vals l k v : v ∈ vals l k ↔ (k, v) ∈ l.
Proof.
  unfold vals. rewrite elem_of_list_to_set, list_elem_of_fmap. split.
  - intros ([k' v'] & -> & [? ?]%list_elem_of_filter). by simplify_eq/=.
  - intros Hin. exists (k, v). split; [done|]. by apply list_elem_of_filter.
Qed.

(** What the two dicts hold once the entries of [l] have been processed. *)
Definition seperated (l : list (StateKey * string)) (acc : StateMap string * StateMap StrSet) : Prop :=
  ∀ k, match acc.1 !! k, acc.2 !! k with
       | Some v, None => vals l k = {[v]}
       | None, Some X => X = vals l k ∧ ∃ a b, a ∈ X ∧ b ∈ X ∧ a ≠ b
       | None, None => vals l k = ∅
       | Some _, Some _ => False
       end.

Lemma vals_snoc l k v k' :
  vals (l ++ [(k, v)]) k' = if decide (k = k') then {[v]} ∪ vals l k' else vals l k'.
Proof.
  apply set_eq. intros x. rewrite elem_of_vals, elem_of_app, list_elem_of_singleton.
  case_decide; [rewrite elem_of_union, elem_of_singleton|]; rewrite elem_of_vals; naive_solver.
Qed.

Lemma seperate_entry_spec l acc kv :
  seperated l acc → seperated (l ++ [kv]) (seperate_entry acc kv).
Proof.
  destruct acc as [u c], kv as [key value]. intros Hs k. specialize (Hs k) as Hk.
  rewrite vals_snoc. unfold seperate_entry. cbn in Hk.
  destruct (decide (key = k)) as [->|Hne].
  - destruct (u !! k) as [w|] eqn:Eu.
    + destruct (c !! k) eqn:Ec; [done|]. destruct (String.eqb_spec w value) as [->|Hw]; cbn.
      * rewrite Eu, Ec, Hk. set_solver.
      * rewrite lookup_delete_eq, lookup_insert_eq, Hk. split; [set_solver|].
        exists w, value. set_solver.
    + destruct (c !! k) as [ls|] eqn:Ec; cbn; rewrite ?Eu, ?Ec, ?lookup_insert_eq.
      * destruct Hk as [-> (a & b & Ha & Hb & Hab)]. split; [done|]. exists a, b. set_solver.
      * rewrite Hk. set_solver.
  - destruct (u !! key) as [w|] eqn:Eu.
    + destruct (String.eqb_spec w value) as [->|Hw]; cbn; [done|].
      by rewrite lookup_delete_ne, lookup_insert_ne.
    + destruct (c !! key) as [ls|] eqn:Ec; cbn; by rewrite lookup_insert_ne.
Qed.

Lemma seperate_fold_spec l k acc :
  seperated l acc → seperated (l ++ k) (foldl seperate_entry acc k).
Proof.
  revert l acc. induction k as [|kv k IH]; intros l acc Hs; cbn; [by rewrite app_nil_r|].
  rewrite (cons_middle kv), app_assoc. apply IH. by apply seperate_entry_spec.
Qed.

Lemma seperated_first (s : StateMap string) : seperated (map_to_list s) (s, ∅).
Proof.
  intros k. cbn. rewrite lookup_empty. destruct (s !! k) as [v|] eqn:E; apply set_eq; intros x;
    rewrite elem_of_vals, elem_of_map_to_list, E; set_solver.
Qed.

(** All the entries of the state sets. *)
Definition entries (ss : list (StateMap string)) : list (StateKey * string) := ss ≫= map_to_list.

Lemma elem_of_entries ss k v : (k, v) ∈ entries ss ↔ ∃ s, s ∈ ss ∧ s !! k = Some v.
Proof.
  unfold entries. rewrite list_elem_of_bind. setoid_rewrite elem_of_map_to_list. naive_solver.
Qed.

Lemma seperate_seperated ss u c : _seperate ss = Ok (u, c) → seperated (entries ss) (u, c).
Proof.
  destruct ss as [|first others]; [done|]. intros Hs. apply (inj Ok) in Hs.
  assert (∀ l acc, seperated l acc → seperated (l ++ entries others)
    (foldl (λ acc (s : StateMap string), foldl seperate_entry acc (map_to_list s)) acc others)) as Hf.
  { clear Hs. induction others as [|s others IH]; intros l acc Hacc; cbn; [by rewrite app_nil_r|].
    rewrite app_assoc. apply IH. by apply seperate_fold_spec. }
  specialize (Hf _ _ (seperated_first first)). rewrite Hs in Hf. done.
Qed.

(** The state sets that have the key all have [v] for it. *)
Definition unanimous (ss : list (StateMap string)) (k : StateKey) (v : string) : Prop :=
  (∃ s, s ∈ ss ∧ s !! k = Some v) ∧ ∀ s w, s ∈ ss → s !! k = Some w → w = v.

Lemma unanimous_vals ss k v : vals (entries ss) k = {[v]} ↔ unanimous ss k v.
Proof.
  unfold unanimous. split.
  - intros E. assert (∀ w, (∃ s, s ∈ ss ∧ s !! k = Some w) ↔ w = v) as Hw.
    { intros w. rewrite <-elem_of_entries, <-elem_of_vals, E. set_solver. }
    split; [by apply Hw|]. intros s w Hs Hk. apply Hw. eauto.
  - intros [Hex Hall]. apply set_eq. intros w.
    rewrite elem_of_vals, elem_of_entries, elem_of_singleton. split.
    + intros (s & Hs & Hk). eauto.
    + by intros ->.
Qed.

Lemma seperate_v1_lookup ss u c :
  _seperate ss = Ok (u, c) →
  (∀ k v, u !! k = Some v ↔ unanimous ss k v) ∧
  (∀ k X, c !! k = Some X → ∀ v, v ∈ X ↔ ∃ s, s ∈ ss ∧ s !! k = Some v) ∧
  (∀ k, is_Some (c !! k) ↔
     ∃ s s' v w, s ∈ ss ∧ s' ∈ ss ∧ s !! k = Some v ∧ s' !! k = Some w ∧ v ≠ w).
Proof.
  intros Hs%seperate_seperated. split_and!.
  - intros k v. rewrite <-unanimous_vals. specialize (Hs k). cbn in Hs.
    destruct (u !! k) as [w|], (c !! k) as [X|]; [done| | |].
    + rewrite Hs. split; [by intros [= ->]|]. intros E. f_equal.
      assert (w ∈ ({[v]} : StrSet)) by (rewrite <-E; set_solver). set_solver.
    + destruct Hs as [-> (a & b & Ha & Hb & Hab)]. split; [done|].
      intros E. rewrite E in Ha, Hb. set_solver.
    + rewrite Hs. split; [done|]. intros E. assert (v ∈ (∅ : StrSet)) by (rewrite E; set_solver). set_solver.
  - intros k X Hk v. specialize (Hs k). cbn in Hs. rewrite Hk in Hs.
    destruct (u !! k); [done|]. destruct Hs as [-> _]. by rewrite elem_of_vals, elem_of_entries.
  - intros k. specialize (Hs k). cbn in Hs.
    assert (∀ v, v ∈ vals (entries ss) k ↔ ∃ s, s ∈ ss ∧ s !! k = Some v) as Hv.
    { intros v. by rewrite elem_of_vals, elem_of_entries. }
    split.
    + intros [X HX]. rewrite HX in Hs. destruct (u !! k); [done|].
      destruct Hs as [-> (a & b & Ha & Hb & Hab)].
      apply Hv in Ha as (s & ? & ?), Hb as (s' & ? & ?). by exists s, s', a, b.
    + intros (s & s' & v & w & Hsin & Hsin' & Hk & Hk' & Hne).
      assert (v ∈ vals (entries ss) k) as H1 by (apply Hv; eauto).
      assert (w ∈ vals (entries ss) k) as H2 by (apply Hv; eauto).
      destruct (u !! k), (c !! k); [done| |eauto|]; rewrite Hs in H1, H2; set_solver.
Qed.

(** State resolution v1's _seperate maps a key to an unconflicted event exactly when
    the sets that have the key agree, and to its set of events exactly when two of them
    disagree. *)
Theorem v1_seperate_spec ss u c :
  _seperate ss = Ok (u, c) →
  (∀ k v, u !! k = Some v ↔ unanimous ss k v) ∧
  (∀ k X, c !! k = Some X → ∀ v, v ∈ X ↔ ∃ s, s ∈ ss ∧ s !! k = Some v) ∧
  (∀ k, is_Some (c !! k) ↔
     ∃ s s' v w, s ∈ ss ∧ s' ∈ ss ∧ s !! k = Some v ∧ s' !! k = Some w ∧ v ≠ w).
Proof. apply seperate_v1_lookup. Qed.

(** ** Choosing an event *)

Section choice.
Context `{NA : Netaddr} `{SJ : SignedJson}.

(** [event] passes or fails the auth checks against [auth]. *)
Definition passes (auth : StateMap EventBase) (event : EventBase) : Prop :=
  ∃ b, check_state_dependent_auth_rules event (map_to_list auth).*2 = Ok b.
Definition denied (auth : StateMap EventBase) (event : EventBase) : Prop :=
  ∃ ex, check_state_dependent_auth_rules event (map_to_list auth).*2 = Raise ex ∧
        is_AuthError ex = true.

Lemma first_passing_spec auth last l e :
  first_passing auth last l = Ok e →
  (∃ pre post, l = pre ++ e :: post ∧ Forall (denied auth) pre ∧ passes auth e) ∨
  (Forall (denied auth) l ∧
   match List.rev l with [] => last = Ok e | x :: _ => e = x end).
Proof.
  revert last. induction l as [|x l IH]; intros last; cbn; [by right|].
  destruct (check_state_dependent_auth_rules x _) as [b|ex] eqn:Ex.
  - intros [= <-]. left. exists [], l. split_and!; [done|constructor|by exists b].
  - destruct (is_AuthError ex) eqn:Ea; [|done]. intros He.
    assert (denied auth x) as Hd by (by exists ex).
    destruct (IH _ He) as [(pre & post & -> & Hpre & Hp)|[Hl Hlast]].
    + left. exists (x :: pre), post. split_and!; [done|by constructor|done].
    + right. split; [by constructor|]. destruct (List.rev l); cbn in *; [by simplify_eq|done].
Qed.

Lemma normal_events_elem events auth e :
  _resolve_normal_events events auth = Ok e → e ∈ events.
Proof.
  unfold _resolve_normal_events. intros He. unfold _ordered_events in He.
  rewrite <-(py_sort_perm key_func events).
  apply first_passing_spec in He as [(pre & post & -> & _)|[_ Hlast]]; [set_solver|].
  destruct (List.rev (py_sort key_func events)) as [|x l] eqn:E; [done|]. subst x.
  apply list_elem_of_In, in_rev. rewrite E. left. done.
Qed.

Lemma resolve_auth_loop_elem auth prev l e :
  resolve_auth_loop auth prev l = Ok e → e ∈ prev :: l.
Proof.
  revert auth prev. induction l as [|x l IH]; intros auth prev; cbn; [intros [= <-]; left|].
  intros (sk & _ & Hm)%bind_Ok. destruct (check_state_dependent_auth_rules x _) as [b|ex].
  - right. by eapply IH.
  - destruct (is_AuthError ex); [|done]. simplify_eq. left.
Qed.

Lemma auth_events_elem rv events auth e :
  _resolve_auth_events rv events auth = Ok e → e ∈ events.
Proof.
  unfold _resolve_auth_events. intros (keys & _ & Hm)%bind_Ok.
  rewrite <-(py_sort_perm key_func events). fold (_ordered_events events).
  rewrite <-(reverse_Permutation (_ordered_events events)).
  destruct (reverse (_ordered_events events)) as [|x [|y l]]; [done|done|].
  by eapply resolve_auth_loop_elem.
Qed.

(** ** The passes *)

(** Every resolved event is one of the conflicting ones. *)
Definition chosen (cs : StateMap (list EventBase)) (rs : StateMap EventBase) : Prop :=
  ∀ k e, rs !! k = Some e → ∃ events, cs !! k = Some events ∧ e ∈ events.

Lemma resolve_pass_chosen sel resolve cs rs rs' :
  (∀ events e, resolve events = Ok e → e ∈ events) →
  chosen cs rs → resolve_pass sel resolve cs rs = Ok rs' → chosen cs rs'.
Proof.
  intros Hr Hrs Hp. unfold resolve_pass in Hp.
  refine (foldM_ind (chosen cs) _ _ _ _ Hrs _ Hp). clear Hp Hrs rs rs'.
  intros rs [k events] rs' Hin%elem_of_map_to_list Hrs Hs. cbn in Hs.
  destruct (sel rs k); [|by simplify_eq]. apply bind_Ok in Hs as (e & He & Hs). simplify_eq.
  intros k' e'. destruct (decide (k' = k)) as [->|Hne];
    [rewrite lookup_insert_eq; intros [= <-]; eauto|rewrite lookup_insert_ne by done; apply Hrs].
Qed.

Lemma resolve_pass_keeps sel resolve cs rs rs' :
  resolve_pass sel resolve cs rs = Ok rs' →
  (∀ k, is_Some (rs !! k) → is_Some (rs' !! k)) ∧
  (∀ k, is_Some (cs !! k) → (∀ rs, sel rs k = bool_decide (rs !! k = None)) → is_Some (rs' !! k)).
Proof.
  unfold resolve_pass. intros Hp.
  pose proof (λ H0 H1, foldM_ind_prefix (λ pre rs1,
    (∀ k, is_Some (rs !! k) → is_Some (rs1 !! k)) ∧
    (∀ k, k ∈ pre.*1 → (∀ rs, sel rs k = bool_decide (rs !! k = None)) → is_Some (rs1 !! k)))
    _ _ _ _ H0 H1 Hp) as [H1 H2].
  - split; [done|]. by intros k ?%elem_of_nil.
  - intros pre [k events] post rs1 rs2 _ [Ha Hb] Hs. cbn in Hs.
    assert (∀ k', is_Some (rs1 !! k') → is_Some (rs2 !! k')) as Hmono.
    { destruct (sel rs1 k); [|by simplify_eq]. apply bind_Ok in Hs as (e & _ & Hs). simplify_eq.
      intros k' Hk'. rewrite lookup_insert_is_Some. destruct (decide (k = k')); auto. }
    split; [auto|]. intros k' Hk' Hsel. rewrite fmap_app, elem_of_app in Hk'.
    destruct Hk' as [?|Hk'%list_elem_of_singleton]; [auto|]. cbn in Hk'. subst k'.
    rewrite Hsel in Hs. case_bool_decide as Hn.
    + apply bind_Ok in Hs as (e & _ & Hs). simplify_eq. rewrite lookup_insert_eq. eauto.
    + simplify_eq. apply not_eq_None_Some in Hn. done.
  - split; [done|]. intros k [events Hk] Hsel. apply H2; [|done].
    apply list_elem_of_fmap. exists (k, events). by rewrite elem_of_map_to_list.
Qed.

Lemma resolve_state_events_spec rv cs auth rs :
  _resolve_state_events rv cs auth = Ok rs →
  chosen cs rs ∧ ∀ k, is_Some (cs !! k) → is_Some (rs !! k).
Proof.
  unfold _resolve_state_events. intros (rs0 & H0 & Hr)%bind_Ok.
  assert (chosen cs rs0) as Hc0.
  { destruct (cs !! POWER_KEY) as [events|] eqn:Ep.
    - apply bind_Ok in H0 as (e & He & H0). simplify_eq. intros k e'.
      destruct (decide (k = POWER_KEY)) as [->|Hne].
      + rewrite lookup_singleton_eq. intros [= <-]. eauto using auth_events_elem.
      + by rewrite lookup_singleton_ne.
    - simplify_eq. intros k e. by rewrite lookup_empty. }
  apply bind_Ok in Hr as (rs1 & H1 & Hr). apply bind_Ok in Hr as (rs2 & H2 & Hr).
  apply resolve_pass_chosen in H1; [|by intros ?? ?%auth_events_elem|done].
  apply resolve_pass_chosen in H2; [|by intros ?? ?%auth_events_elem|done].
  split; [by eapply resolve_pass_chosen, Hr; [intros ?? ?%normal_events_elem|]|].
  intros k Hk. by apply (resolve_pass_keeps _ _ _ _ _ Hr).
Qed.
End choice.

(** ** The whole resolution *)

(** What becomes of a key whose candidate events are [events]. *)
Definition conflict_of (events : list EventBase) : option (list EventBase) :=
  match events with [] | [_] => None | _ => Some events end.
Definition single_of (events : list EventBase) : option string :=
  match events with [e] => Some (event_id e) | _ => None end.

Lemma split_conflicts_fold sm (l : list (StateKey * StrSet)) acc k :
  NoDup l.*1 →
  let r := foldl (split_step sm) acc l in
  (∀ ids, (k, ids) ∈ l →
     r.1 !! k = (if conflict_of (known_events sm ids) is Some evs then Some evs else acc.1 !! k) ∧
     r.2 !! k = (if single_of (known_events sm ids) is Some i then Some i else acc.2 !! k)) ∧
  (k ∉ l.*1 → r.1 !! k = acc.1 !! k ∧ r.2 !! k = acc.2 !! k).
Proof.
  revert acc. induction l as [|[k' ids'] l IH]; intros [cs u] Hnd; cbn zeta.
  { split; [by intros ids ?%elem_of_nil|done]. }
  cbn in Hnd. apply NoDup_cons in Hnd as [Hk' Hnd]. cbn [foldl].
  destruct (IH (split_step sm (cs, u) (k', ids')) Hnd) as [IH1 IH2].
  assert (∀ k, (split_step sm (cs, u) (k', ids')).1 !! k =
      (if decide (k = k') then
         (if conflict_of (known_events sm ids') is Some evs then Some evs else cs !! k)
       else cs !! k) ∧
     (split_step sm (cs, u) (k', ids')).2 !! k =
      (if decide (k = k') then
         (if single_of (known_events sm ids') is Some i then Some i else u !! k)
       else u !! k)) as Hstep.
  { clear. intros k. unfold split_step. cbn [fst snd].
    destruct (known_events sm ids') as [|e [|e' evs]]; cbn;
      case_decide; subst; rewrite ?lookup_insert_eq, ?lookup_insert_ne by done; done. }
  destruct (Hstep k) as [H1 H2]. cbn [fst snd] in *. split.
  - intros ids [Heq|Hin]%elem_of_cons.
    + injection Heq as <- <-. rewrite decide_True in H1 by done. rewrite decide_True in H2 by done.
      destruct (IH2 Hk') as [-> ->]. done.
    + assert (k ≠ k') as Hne.
      { intros ->. apply Hk', list_elem_of_fmap. by exists (k', ids). }
      rewrite decide_False in H1 by done. rewrite decide_False in H2 by done.
      destruct (IH1 ids Hin) as [-> ->]. by rewrite H1, H2.
  - intros Hk. rewrite fmap_cons, not_elem_of_cons in Hk. destruct Hk as [Hne Hk].
    rewrite decide_False in H1 by done. rewrite decide_False in H2 by done.
    destruct (IH2 Hk) as [-> ->]. done.
Qed.

Lemma split_conflicts_lookup sm (c : StateMap StrSet) u k :
  (split_conflicts sm c u).1 !! k =
    (c !! k ≫= λ ids, conflict_of (known_events sm ids)) ∧
  (split_conflicts sm c u).2 !! k =
    (if c !! k ≫= (λ ids, single_of (known_events sm ids)) is Some i then Some i else u !! k).
Proof.
  destruct (split_conflicts_fold sm (map_to_list c) (∅, u) k (NoDup_fst_map_to_list c)) as [H1 H2].
  unfold split_conflicts.
  destruct (c !! k) as [ids|] eqn:Ek.
  - destruct (H1 ids) as [-> ->]; [by apply elem_of_map_to_list|]. cbn. rewrite lookup_empty.
    split; by case_match.
  - destruct H2 as [-> ->]; [|done].
    intros ([k' ids] & -> & Hin%elem_of_map_to_list)%list_elem_of_fmap. cbn in Ek. congruence.
Qed.

Lemma elem_of_known_events sm ids e :
  e ∈ known_events sm ids ↔ ∃ i, i ∈ ids ∧ sm !! i = Some e.
Proof. unfold known_events. rewrite list_elem_of_omap. by setoid_rewrite elem_of_elements. Qed.

Section whole.
Context `{NA : Netaddr} `{SJ : SignedJson}.

(** The entries of the result, for given conflicts and events. *)
Lemma resolve_with_state_spec rv u c aids sm rs :
  (∀ i e, sm !! i = Some e → event_id e = i) →
  (∀ k, is_Some (c !! k) → u !! k = None) →
  _resolve_with_state rv u c aids sm = Ok rs →
  (∀ k v, u !! k = Some v → rs !! k = Some v) ∧
  (∀ k v, rs !! k = Some v → u !! k = Some v ∨ ∃ ids, c !! k = Some ids ∧ v ∈ ids) ∧
  (∀ k ids v e, c !! k = Some ids → v ∈ ids → sm !! v = Some e → is_Some (rs !! k)).
Proof.
  intros Hsm Hdisj. unfold _resolve_with_state.
  pose proof (split_conflicts_lookup sm c u) as Hsplit.
  destruct (split_conflicts sm c u) as [cs u']. cbn [fst snd] in Hsplit.
  intros (rst & Hr & Hrs)%bind_Ok. apply (inj Ok) in Hrs as <-.
  apply resolve_state_events_spec in Hr as [Hch Htot].
  assert (∀ k events, cs !! k = Some events →
    ∃ ids, c !! k = Some ids ∧ ∀ e, e ∈ events → event_id e ∈ ids) as Hcs.
  { intros k events Hk. destruct (Hsplit k) as [H1 _]. rewrite H1 in Hk.
    destruct (c !! k) as [ids|]; cbn in Hk; [|done]. exists ids. split; [done|].
    assert (events = known_events sm ids) as ->
      by (destruct (known_events sm ids) as [|? [|??]]; cbn in Hk; by simplify_eq).
    intros e (i & Hi & He)%elem_of_known_events. by rewrite (Hsm _ _ He). }
  split_and!.
  - intros k v Hk. rewrite lookup_union_r.
    + destruct (Hsplit k) as [_ ->].
      assert (c !! k = None) as ->; [|done].
      destruct (c !! k) eqn:E; [|done]. rewrite Hdisj in Hk by eauto. done.
    + rewrite lookup_fmap. destruct (rst !! k) as [e|] eqn:E; [|done].
      destruct (Hch k e E) as (events & Hev & _). destruct (Hcs k events Hev) as (ids & Hc & _).
      rewrite Hdisj in Hk by eauto. done.
  - intros k v Hk. apply lookup_union_Some_raw in Hk as [Hk|[_ Hk]].
    + rewrite lookup_fmap in Hk. apply fmap_Some in Hk as (e & E & ->).
      destruct (Hch k e E) as (events & Hev & He). destruct (Hcs k events Hev) as (ids & Hc & Hin). eauto.
    + destruct (Hsplit k) as [_ H2]. rewrite H2 in Hk.
      destruct (c !! k) as [ids|] eqn:Ec; cbn in Hk; [|by left]. right. exists ids. split; [done|].
      destruct (known_events sm ids) as [|e [|??]] eqn:Ek; cbn in Hk;
        try (rewrite Hdisj in Hk by eauto; done). simplify_eq.
      assert (e ∈ known_events sm ids) as (i & Hi & He)%elem_of_known_events by (rewrite Ek; left).
      by rewrite (Hsm _ _ He).
  - intros k ids v e Hc Hv He. rewrite lookup_union_is_Some, lookup_fmap, fmap_is_Some.
    destruct (Hsplit k) as [H1 H2]. rewrite Hc in H1, H2. cbn in H1, H2.
    assert (e ∈ known_events sm ids) as Hin by (apply elem_of_known_events; eauto).
    destruct (known_events sm ids) as [|e1 [|e2 l]]; [by apply elem_of_nil in Hin| |]; cbn in *.
    + right. rewrite H2. eauto.
    + left. apply Htot. rewrite H1. eauto.
Qed.
End whole.

(** When state resolution v1 returns, entries on which the state sets do not disagree
    are kept, every entry of the result is an entry of a state set, and if the store knows
    all the events no key of a state set is lost. *)
Theorem v1_resolve_spec `{NA : Netaddr} `{SJ : SignedJson}
    room rv ss event_map factory rs :
  (∀ X i e, factory X !! i = Some e → event_id e = i) →
  (∀ m i e, event_map = Some m → m !! i = Some e → event_id e = i) →
  resolve_events_with_store room rv ss event_map factory = Ok rs →
  (∀ k v, unanimous ss k v → rs !! k = Some v) ∧
  (∀ k v, rs !! k = Some v → ∃ s, s ∈ ss ∧ s !! k = Some v) ∧
  ((∀ X i, i ∈ X → is_Some (factory X !! i)) →
   ∀ k s, s ∈ ss → is_Some (s !! k) → is_Some (rs !! k)).
Proof.
  intros Hfac Hem Hres0.
  assert (ss = [rs] ∨ resolve_state_sets room rv ss event_map factory = Ok rs) as [->|Hres].
  { destruct ss as [|s [|s' ss]]; [by right| |by right]. left.
    by apply (inj Ok) in Hres0 as <-. }
  { clear Hres0. split_and!.
    - intros k v [(s' & ->%list_elem_of_singleton & Hk) _]. done.
    - intros k v Hk. exists rs. set_solver.
    - intros _ k s' ->%list_elem_of_singleton Hk. done. }
  clear Hres0. unfold resolve_state_sets in Hres.
  apply bind_Ok in Hres as ([u c] & Hsep & Hres). cbn zeta in Hres.
  set (needed := ⋃ (map_to_list c).*2 ∖ _) in Hres. set (sm := default ∅ event_map ∪ _) in Hres.
  apply bind_Ok in Hres as (? & _ & Hres). apply bind_Ok in Hres as (auth & _ & Hres).
  apply bind_Ok in Hres as (? & _ & Hres). set (new := factory _) in Hres.
  apply seperate_v1_lookup in Hsep as (Hu & Hc & Hconf).
  apply resolve_with_state_spec in Hres as (R1 & R2 & R3).
  - split_and!.
    + intros k v Hk. by apply R1, Hu.
    + intros k v [Hk%Hu|(ids & Hk & Hv)]%R2; [by destruct Hk|]. by apply (Hc k ids Hk).
    + intros Htot k s Hs [v Hv]. destruct (c !! k) as [ids|] eqn:Ek.
      * assert (v ∈ ids) as Hin by (apply (Hc k ids Ek); eauto).
        assert (is_Some ((new ∪ sm) !! v)) as [e He].
        { rewrite lookup_union_is_Some. right. unfold sm. rewrite lookup_union_is_Some.
          assert (v ∈ ⋃ (map_to_list c).*2) as Hall.
          { apply elem_of_union_list. exists ids. split; [|done].
            apply list_elem_of_fmap. exists (k, ids). by rewrite elem_of_map_to_list. }
          destruct event_map as [m|]; cbn; [|by right; apply Htot; set_solver].
          destruct (m !! v) eqn:Em; [by left; eauto|]. right. apply Htot.
          apply elem_of_difference. split; [done|]. by apply not_elem_of_dom. }
        by eapply R3.
      * exists v. apply R1, Hu. split; [eauto|]. intros s' w Hs' Hw.
        apply dec_stable. intros Hne. assert (is_Some (c !! k)) as [? ?]; [|congruence].
        apply Hconf. by exists s, s', v, w.
  - intros i e He. apply lookup_union_Some_raw in He as [He|[_ He]]; [by eapply Hfac|].
    apply lookup_union_Some_raw in He as [He|[_ He]]; [|by eapply Hfac].
    destruct event_map as [m|]; cbn in He; [by eapply Hem|]. by rewrite lookup_empty in He.
  - intros k Hk. destruct (u !! k) as [v|] eqn:Eu; [|done].
    apply Hconf in Hk as (s & s' & a & b & Hs & Hs' & Ha & Hb & Hne).
    apply Hu in Eu as [_ Hall]. destruct Hne. by rewrite (Hall s a), (Hall s' b).
Qed.

Lemma first_passing_total `{NA : Netaddr} `{SJ : SignedJson} auth last l :
  (∀ e, e ∈ l → passes auth e ∨ denied auth e) → (l ≠ [] ∨ ∃ e, last = Ok e) →
  ∃ e, first_passing auth last l = Ok e.
Proof.
  revert last. induction l as [|x l IH]; intros last Hl Hne; cbn; [by destruct Hne as [[]|]|].
  destruct (Hl x) as [[b ->]|(ex & -> & ->)]; [left|eauto|].
  apply IH; [intros; apply Hl; by right|eauto].
Qed.

(** _resolve_normal_events orders the events by decreasing depth and hash and returns
    the first that passes the auth rules, or the last one when all are denied. *)
Theorem v1_normal_choice `{NA : Netaddr} `{SJ : SignedJson} events auth :
  events ≠ [] → (∀ e, e ∈ events → passes auth e ∨ denied auth e) →
  _ordered_events events ≡ₚ events ∧ StronglySorted (key_le key_func) (_ordered_events events) ∧
  ∃ e pre post, _resolve_normal_events events auth = Ok e ∧
    _ordered_events events = pre ++ e :: post ∧ Forall (denied auth) pre ∧
    (passes auth e ∨ post = [] ∧ denied auth e).
Proof.
  intros Hne Hall. split_and!; [apply py_sort_perm|apply py_sort_sorted|].
  unfold _resolve_normal_events.
  destruct (first_passing_total auth (Raise (PlainException "UnboundLocalError: event"))
    (_ordered_events events)) as [e He].
  { intros e. unfold _ordered_events. rewrite py_sort_perm. apply Hall. }
  { left. intros E. apply Hne, Permutation_nil_r. rewrite <-(py_sort_perm key_func events).
    unfold _ordered_events in E. by rewrite E. }
  rewrite He. exists e. apply first_passing_spec in He as [(pre & post & -> & ? & ?)|[Hd Hlast]].
  - exists pre, post. split_and!; try done. by left.
  - destruct (List.rev (_ordered_events events)) as [|x l] eqn:E; [done|]. subst x.
    assert (_ordered_events events = List.rev l ++ [e]) as El.
    { by rewrite <-(rev_involutive (_ordered_events events)), E. }
    rewrite El in Hd. apply Forall_app in Hd as [Hpre He]. rewrite Forall_singleton in He.
    exists (List.rev l), []. split_and!; [done|done|done|]. right. split; done.
Qed.
