(* ===== verification/StreamChangeCache.v ===== *)
(** * [StreamChangeCache] of [synapse/util/caches/stream_change_cache.py]

    The positions of the latest change of each entity, with the oldest ones
    evicted. [sortedcontainers.SortedDict] is a third-party package:
    [SortedDict] is the interface the cache relies on, the theorems are proved
    against it. The metrics of the cache are left out. *)

From S2P Require Import Prelude.

Abbreviation ZMap := (gmap Z).

(** ** The interface of [SortedDict[int, Set[str]]] *)

Class SortedDict (D : Type) := {
  sd_new : D;
  sd_map : D → ZMap StrSet;                       (* the items *)
  sd_setitem : Z → StrSet → D → D;                (* d[k] = v *)
  sd_delitem : Z → D → D;                         (* del d[k] *)
  sd_len : D → nat;                               (* len(d) *)
  sd_popitem0 : D → option ((Z * StrSet) * D);    (* d.popitem(0) *)
  sd_peekitem : D → option (Z * StrSet);          (* d.peekitem() *)
  sd_after : Z → D → list Z;                      (* d.islice(start=d.bisect_right(k)) *)
  sd_new_map : sd_map sd_new = ∅;
  sd_setitem_map k v d : sd_map (sd_setitem k v d) = <[k := v]> (sd_map d);
  sd_delitem_map k d : sd_map (sd_delitem k d) = delete k (sd_map d);
  sd_len_size d : sd_len d = size (sd_map d);
  sd_popitem0_None d : sd_popitem0 d = None ↔ sd_map d = ∅;
  sd_popitem0_Some d k v d' : sd_popitem0 d = Some ((k, v), d') →
    sd_map d !! k = Some v ∧ sd_map d' = delete k (sd_map d) ∧
    (∀ k', is_Some (sd_map d !! k') → k ≤ k');
  sd_peekitem_None d : sd_peekitem d = None ↔ sd_map d = ∅;
  sd_peekitem_Some d k v : sd_peekitem d = Some (k, v) →
    sd_map d !! k = Some v ∧ (∀ k', is_Some (sd_map d !! k') → k' ≤ k);
  sd_after_elem k d k' : k' ∈ sd_after k d ↔ k < k' ∧ is_Some (sd_map d !! k');
  sd_after_sorted k d : StronglySorted Z.lt (sd_after k d)
}.
#[global] Hint Mode SortedDict ! : typeclass_instances.

Section Cache.
Context {D : Type} `{SortedDict D}.

Record StreamChangeCache := mkCache {
  _original_max_size : Z;
  _max_size : Z;
  _cache : D;
  _entity_to_key : StrMap Z;
  _earliest_known_stream_pos : Z
}.

Definition set_cache (c : StreamChangeCache) (d : D) (m : StrMap Z) (earliest : Z) : StreamChangeCache :=
  mkCache (_original_max_size c) (_max_size c) d m earliest.

(** ** Updates *)

(** [while len(self._cache) > self._max_size]; the size of the dict is enough
    fuel, one entry being removed by every iteration. *)
Fixpoint evict_loop (fuel : nat) (c : StreamChangeCache) : res StreamChangeCache :=
  if Z.of_nat (sd_len (_cache c)) <=? _max_size c then Ok c
  else
    match fuel with
    | O => Raise OutOfFuel
    | S fuel =>
        match sd_popitem0 (_cache c) with
        | None => Raise KeyError
        | Some ((k, r), d) =>
            evict_loop fuel
              (set_cache c d
                 (foldl (λ (m : StrMap Z) entity, delete entity m) (_entity_to_key c) (elements r))
                 (Z.max k (_earliest_known_stream_pos c)))
        end
    end.

Definition _evict (c : StreamChangeCache) : res StreamChangeCache :=
  evict_loop (S (sd_len (_cache c))) c.

(** [e = self._cache[old_pos]; e.remove(entity); if not e: del ...] *)
Definition forget_old (entity : string) (old_pos : Z) (d : D) : res D :=
  match sd_map d !! old_pos with
  | None => Raise KeyError
  | Some e =>
      if decide (entity ∈ e) then
        let e := e ∖ {[entity]} in
        if decide (e = ∅) then Ok (sd_delitem old_pos d) else Ok (sd_setitem old_pos e d)
      else Raise KeyError
  end.

(** The rest of [entity_has_changed], once the old entry is gone. *)
Definition record_change (c : StreamChangeCache) (entity : string) (stream_pos : Z) (d : D) :
    res StreamChangeCache :=
  let e1 := default ∅ (sd_map d !! stream_pos) in
  _evict (set_cache c (sd_setitem stream_pos ({[entity]} ∪ e1) d)
            (<[entity := stream_pos]> (_entity_to_key c)) (_earliest_known_stream_pos c)).

Definition entity_has_changed (c : StreamChangeCache) (entity : string) (stream_pos : Z) :
    res StreamChangeCache :=
  if stream_pos <=? _earliest_known_stream_pos c then Ok c
  else
    match _entity_to_key c !! entity with
    | Some old_pos =>
        if stream_pos <=? old_pos then Ok c
        else d ← forget_old entity old_pos (_cache c); record_change c entity stream_pos d
    | None => record_change c entity stream_pos (_cache c)
    end.

Definition all_entities_changed (c : StreamChangeCache) (stream_pos : Z) : StreamChangeCache :=
  set_cache c sd_new ∅ stream_pos.

(** [set_cache_factor]; the factor enters through [scaled], which maps a size
    [n] to [math.floor(n * factor)]. *)
Definition set_cache_factor (c : StreamChangeCache) (scaled : Z → Z) : res (bool * StreamChangeCache) :=
  let new_size := scaled (_original_max_size c) in
  if negb (new_size =? _max_size c) then
    c ← _evict (mkCache (_original_max_size c) new_size (_cache c) (_entity_to_key c)
                  (_earliest_known_stream_pos c));
    Ok (true, c)
  else Ok (false, c).

(** [__init__]. [register_cache] calls the resize callback at once when the
    configuration has been read, with the factor of this cache: [factor] is
    [None] before that. [prefilled_cache] has its items in insertion order. *)
Definition init (current_stream_pos max_size : Z) (factor : option (Z → Z))
    (prefilled_cache : list (string * Z)) : res StreamChangeCache :=
  let c := mkCache max_size max_size sd_new ∅ current_stream_pos in
  c ← match factor with
      | Some scaled => r ← set_cache_factor c scaled; Ok r.2
      | None => Ok c
      end;
  foldM (λ c kv, entity_has_changed c kv.1 kv.2) c prefilled_cache.

(** ** Queries *)

Definition has_entity_changed (c : StreamChangeCache) (entity : string) (stream_pos : Z) : bool :=
  if stream_pos <? _earliest_known_stream_pos c then true
  else
    match _entity_to_key c !! entity with
    | None => false
    | Some latest_entity_change_pos => stream_pos <? latest_entity_change_pos
    end.

(** [AllEntitiesChangedResult]: [None] is a miss. *)
Definition get_all_entities_changed (c : StreamChangeCache) (stream_pos : Z) : option (list string) :=
  if stream_pos <? _earliest_known_stream_pos c then None
  else Some (sd_after stream_pos (_cache c) ≫= λ k, elements (default ∅ (sd_map (_cache c) !! k))).

(** [entities] is a set or another collection; it only decides how the
    intersection is computed. *)
Definition get_entities_changed (c : StreamChangeCache) (is_set : bool) (entities : list string)
    (stream_pos _perf_factor : Z) : StrSet :=
  match sd_peekitem (_cache c) with
  | None => list_to_set entities
  | Some (max_stream_pos, _) =>
      if stream_pos <? _earliest_known_stream_pos c then list_to_set entities
      else if _perf_factor * Z.of_nat (length entities) <? max_stream_pos - stream_pos then
        filter (λ entity, stream_pos < default (-1) (_entity_to_key c !! entity))
          (list_to_set entities)
      else
        match get_all_entities_changed c stream_pos with
        | Some changed =>
            if is_set then list_to_set entities ∩ list_to_set changed
            else if decide (length changed < length entities)%nat
            then list_to_set changed ∩ list_to_set entities
            else list_to_set entities ∩ list_to_set changed
        | None => list_to_set entities
        end
  end.

Definition has_any_entity_changed (c : StreamChangeCache) (stream_pos : Z) : bool :=
  if stream_pos <? _earliest_known_stream_pos c then true
  else
    match sd_peekitem (_cache c) with
    | None => false
    | Some (k, _) => stream_pos <? k
    end.

Definition get_max_pos_of_last_change (c : StreamChangeCache) (entity : string) : option Z :=
  _entity_to_key c !! entity.

Definition get_earliest_known_position (c : StreamChangeCache) : Z := _earliest_known_stream_pos c.
End Cache.
Arguments StreamChangeCache : clear implicits.
Arguments _evict : simpl never.
