(* ===== verification/StreamChangeCacheProps.v ===== *)
(** * Properties of [StreamChangeCache]

    The specification is the log of the changes the cache has been told of.
    The cache represents the log: it answers exactly for positions it still
    covers, and never misses a change. *)

From S2P Require Import Prelude StreamChangeCache.

Section props.
Context {D : Type} `{SD : SortedDict D}.
Implicit Types c : StreamChangeCache D.

(** [_cache] and [_entity_to_key] are in sync; entries are not empty and later
    than the earliest known position. *)
Record cache_inv c : Prop := {
  ci_sync e k : _entity_to_key c !! e = Some k ↔
    ∃ S, sd_map (_cache c) !! k = Some S ∧ e ∈ S;
  ci_nonempty k S : sd_map (_cache c) !! k = Some S → S ≠ ∅;
  ci_later k S : sd_map (_cache c) !! k = Some S → _earliest_known_stream_pos c < k
}.

(** Every logged change is covered, and every entry is a logged change. *)
Record represents (log : list (string * Z)) c : Prop := {
  rp_inv : cache_inv c;
  rp_covers e p : (e, p) ∈ log →
    p ≤ _earliest_known_stream_pos c ∨ ∃ k, _entity_to_key c !! e = Some k ∧ p ≤ k;
  rp_logged e k : _entity_to_key c !! e = Some k → (e, k) ∈ log
}.

(** An entity of the log changed after a position. *)
Definition changed_since (log : list (string * Z)) (e : string) (pos : Z) : Prop :=
  ∃ p, (e, p) ∈ log ∧ pos < p.

Lemma lookup_foldl_delete (m : StrMap Z) l e :
  foldl (λ (m : StrMap Z) x, delete x m) m l !! e = if decide (e ∈ l) then None else m !! e.
Proof.
  revert m. induction l as [|x l IH]; intros m; cbn.
  { by rewrite decide_False by (apply not_elem_of_nil). }
  rewrite IH. destruct (decide (e = x)) as [->|Hne].
  - rewrite (decide_True _ _ (list_elem_of_here _ _)). case_decide; [done|]. apply lookup_delete_eq.
  - rewrite lookup_delete_ne by done.
    destruct (decide (e ∈ l)), (decide (e ∈ x :: l)); set_solver.
Qed.

(** ** Eviction *)

Lemma evict_step log c k r d :
  represents log c → sd_popitem0 (_cache c) = Some ((k, r), d) →
  represents log (set_cache c d
    (foldl (λ (m : StrMap Z) entity, delete entity m) (_entity_to_key c) (elements r))
    (Z.max k (_earliest_known_stream_pos c))).
Proof.
  intros [[Hsync Hne Hlater] Hcov Hlog] (Hk & Hd & Hmin)%sd_popitem0_Some.
  pose proof (Hlater _ _ Hk) as Hk0.
  assert (∀ e, e ∈ r ↔ _entity_to_key c !! e = Some k) as Hr.
  { intros e. rewrite Hsync. split; [eauto|]. intros (S & ? & ?). by simplify_eq. }
  split; [split|..]; unfold set_cache; cbn.
  - intros e k'. rewrite lookup_foldl_delete, Hd. setoid_rewrite lookup_delete_Some.
    case_decide as He; rewrite elem_of_elements in He.
    + split; [done|]. intros (S & [Hkk HS] & HeS). exfalso. apply Hkk.
      apply Hr in He. assert (_entity_to_key c !! e = Some k') by (apply Hsync; eauto). by simplify_eq.
    + rewrite Hsync. split; [|naive_solver].
      intros (S & HS & HeS). exists S. split; [|done]. split; [|done].
      intros <-. apply He, Hr, Hsync. eauto.
  - intros k' S. rewrite Hd, lookup_delete_Some. intros [_ ?]. eauto.
  - intros k' S. rewrite Hd, lookup_delete_Some. intros [Hkk HS].
    pose proof (Hmin k' ltac:(eauto)). lia.
  - intros e p Hin. rewrite lookup_foldl_delete. destruct (Hcov e p Hin) as [?|(k0 & Hk' & Hp)].
    + left. lia.
    + case_decide as He; rewrite elem_of_elements in He; [|by right; eauto].
      apply Hr in He. simplify_eq. left. lia.
  - intros e k'. rewrite lookup_foldl_delete. case_decide; [done|]. apply Hlog.
Qed.

Lemma evict_loop_spec log fuel c :
  represents log c → 0 ≤ _max_size c → (size (sd_map (_cache c)) ≤ fuel)%nat →
  ∃ c', evict_loop fuel c = Ok c' ∧ represents log c' ∧
    Z.of_nat (sd_len (_cache c')) ≤ _max_size c' ∧ _max_size c' = _max_size c ∧
    _original_max_size c' = _original_max_size c.
Proof.
  revert c. induction fuel as [|fuel IH]; intros c Hr Hm Hf; cbn [evict_loop];
    rewrite sd_len_size; destruct (Z.leb_spec (Z.of_nat (size (sd_map (_cache c)))) (_max_size c)).
  1,3: exists c; rewrite sd_len_size; done.
  { lia. }
  destruct (sd_popitem0 (_cache c)) as [[[k r] d]|] eqn:Ep.
  - pose proof (evict_step log c k r d Hr Ep) as Hr'.
    apply sd_popitem0_Some in Ep as (Hk & Hd & _).
    destruct (IH _ Hr') as (c' & -> & ? & ? & ? & ?); [done| |by exists c'].
    cbn. rewrite Hd, map_size_delete_Some by eauto. lia.
  - apply sd_popitem0_None in Ep. rewrite Ep, map_size_empty in *. lia.
Qed.

Lemma evict_spec log c :
  represents log c → 0 ≤ _max_size c →
  ∃ c', _evict c = Ok c' ∧ represents log c' ∧
    Z.of_nat (sd_len (_cache c')) ≤ _max_size c' ∧ _max_size c' = _max_size c ∧
    _original_max_size c' = _original_max_size c.
Proof. intros Hr Hm. apply evict_loop_spec; [done|done|]. rewrite sd_len_size. lia. Qed.

(** ** Recording a change *)

(** [d] is the dict of [c] without the entity. *)
Definition without (e : string) c (d : D) : Prop :=
  ∀ k S', sd_map d !! k = Some S' ↔
    S' ≠ ∅ ∧ ∃ S, sd_map (_cache c) !! k = Some S ∧ S' = S ∖ {[e]}.

Lemma forget_old_spec c e old :
  cache_inv c → _entity_to_key c !! e = Some old →
  ∃ d, forget_old e old (_cache c) = Ok d ∧ without e c d.
Proof.
  intros [Hsync Hne Hlater] He. unfold forget_old, without.
  apply Hsync in He as Hold. destruct Hold as (S & HS & HeS).
  rewrite HS, decide_True by done.
  assert (∀ k S', k ≠ old → sd_map (_cache c) !! k = Some S' → S' = S' ∖ {[e]}) as Hother.
  { intros k S' Hk HS'. assert (e ∉ S'); [|set_solver]. intros HeS'.
    apply Hk. assert (_entity_to_key c !! e = Some k) by (apply Hsync; eauto). by simplify_eq. }
  case_decide as Hemp; eexists; (split; [done|]); intros k S'.
  - rewrite sd_delitem_map, lookup_delete_Some. split.
    + intros [Hk HS']. split; [by eapply Hne|]. exists S'. split; [done|]. eauto.
    + intros (HS'ne & T & HT & ->). split; [intros <-; by simplify_eq|].
      rewrite <-(Hother k T); [done| |done]. intros ->. by simplify_eq.
  - rewrite sd_setitem_map, lookup_insert_Some. split.
    + intros [[<- <-]|[Hk HS']]; [eauto|]. split; [by eapply Hne|]. exists S'. eauto.
    + intros (HS'ne & T & HT & ->). destruct (decide (old = k)) as [<-|Hk];
        [left; by simplify_eq|right]. rewrite <-(Hother k T); done.
Qed.

Lemma without_unknown c e : cache_inv c → _entity_to_key c !! e = None → without e c (_cache c).
Proof.
  intros [Hsync Hne _] He k S'.
  assert (∀ T, sd_map (_cache c) !! k = Some T → T ∖ {[e]} = T) as Hsame.
  { intros T HT. assert (e ∉ T); [|set_solver]. intros HeT.
    assert (_entity_to_key c !! e = Some k) by (apply Hsync; eauto). congruence. }
  split.
  - intros HS'. split; [by eapply Hne|]. exists S'. split; [done|]. symmetry. auto.
  - intros (_ & T & HT & ->). by rewrite Hsame.
Qed.

Lemma record_change_represents log c e p d :
  represents log c → without e c d → _earliest_known_stream_pos c < p →
  (∀ k, _entity_to_key c !! e = Some k → k < p) →
  represents (log ++ [(e, p)])
    (set_cache c (sd_setitem p ({[e]} ∪ default ∅ (sd_map d !! p)) d)
       (<[e := p]> (_entity_to_key c)) (_earliest_known_stream_pos c)).
Proof.
  intros [[Hsync Hne Hlater] Hcov Hlog] Hd Hp Hold. split; [split|..]; unfold set_cache; cbn.
  - intros e' k. rewrite sd_setitem_map. setoid_rewrite lookup_insert_Some.
    rewrite Hsync. split.
    + intros [[<- <-]|[Hee (S & HS & HeS)]]; [eexists; split; [by left|set_solver]|].
      destruct (decide (p = k)) as [<-|Hk].
      * eexists. split; [by left|]. apply elem_of_union_r.
        assert (sd_map d !! p = Some (S ∖ {[e]})) as -> by (apply Hd; set_solver). set_solver.
      * exists (S ∖ {[e]}). split; [right; split; [done|]; apply Hd; set_solver|set_solver].
    + intros (S' & [[<- <-]|[Hk HS']] & HeS').
      * destruct (decide (e = e')) as [<-|Hee]; [by left|right]. split; [done|].
        destruct (sd_map d !! p) as [T|] eqn:ET; [|set_solver].
        apply Hd in ET as (_ & S & HS & ->). cbn in HeS'. set_solver.
      * apply Hd in HS' as (_ & S & HS & ->). right. set_solver.
  - intros k S. rewrite sd_setitem_map, lookup_insert_Some.
    intros [[_ <-]|[_ HS]]; [set_solver|]. by apply Hd in HS as [? _].
  - intros k S. rewrite sd_setitem_map, lookup_insert_Some.
    intros [[<- _]|[_ HS]]; [done|]. apply Hd in HS as (_ & T & HT & _). eauto.
  - intros e' q [Hin|[= -> ->]%list_elem_of_singleton]%elem_of_app.
    + destruct (Hcov e' q Hin) as [?|(k & Hk & Hq)]; [by left|right].
      destruct (decide (e' = e)) as [->|Hee];
        [rewrite lookup_insert_eq|rewrite lookup_insert_ne by done; eauto].
      exists p. split; [done|]. specialize (Hold k Hk). lia.
    + right. exists p. rewrite lookup_insert_eq. split; [done|lia].
  - intros e' k. rewrite lookup_insert_Some, elem_of_app, list_elem_of_singleton.
    intros [[<- <-]|[_ Hk]]; [by right|left; auto].
Qed.

(** ** Operations *)

Definition bounded c : Prop :=
  0 ≤ _original_max_size c ∧ 0 ≤ _max_size c ∧ Z.of_nat (sd_len (_cache c)) ≤ _max_size c.

Lemma represents_log_mono log e p c :
  represents log c →
  (p ≤ _earliest_known_stream_pos c ∨ ∃ k, _entity_to_key c !! e = Some k ∧ p ≤ k) →
  represents (log ++ [(e, p)]) c.
Proof.
  intros [Hinv Hcov Hlog] Hp. split; [done| |].
  - intros e' q [?|[= -> ->]%list_elem_of_singleton]%elem_of_app; auto.
  - intros e' k ?%Hlog. apply elem_of_app. by left.
Qed.

Lemma entity_has_changed_spec log c e p :
  represents log c → bounded c →
  ∃ c', entity_has_changed c e p = Ok c' ∧ represents (log ++ [(e, p)]) c' ∧ bounded c'.
Proof.
  intros Hr (Hm0 & Hm & Hb). unfold entity_has_changed, record_change.
  destruct (Z.leb_spec p (_earliest_known_stream_pos c)) as [Hp|Hp].
  { exists c. split; [done|]. split; [apply represents_log_mono; auto|done]. }
  destruct (_entity_to_key c !! e) as [old|] eqn:Ee.
  - destruct (Z.leb_spec p old) as [Ho|Ho].
    { exists c. split; [done|]. split; [apply represents_log_mono; eauto|done]. }
    destruct (forget_old_spec c e old (rp_inv _ _ Hr) Ee) as (d & -> & Hd).
    unfold mbind, res_bind. cbv beta iota zeta.
    destruct (evict_spec (log ++ [(e, p)]) _ (record_change_represents log c e p d Hr Hd Hp
      ltac:(intros k Hk; by simplify_eq))) as (c' & -> & ? & ? & Hmax & Horig); [done|].
    exists c'. split; [done|]. split; [done|]. unfold bounded. rewrite Horig, Hmax in *. done.
  - pose proof (without_unknown c e (rp_inv _ _ Hr) Ee) as Hd.
    destruct (evict_spec (log ++ [(e, p)]) _ (record_change_represents log c e p _ Hr Hd Hp
      ltac:(intros k Hk; by simplify_eq))) as (c' & -> & ? & ? & Hmax & Horig); [done|].
    exists c'. split; [done|]. split; [done|]. unfold bounded. rewrite Horig, Hmax in *. done.
Qed.

(** The calls that change the cache. *)
Inductive op :=
  | Changed (e : string) (p : Z)
  | AllChanged (p : Z)
  | Resize (scaled : Z → Z).

Definition run_op c (o : op) : res (StreamChangeCache D) :=
  match o with
  | Changed e p => entity_has_changed c e p
  | AllChanged p => Ok (all_entities_changed c p)
  | Resize scaled => r ← set_cache_factor c scaled; Ok r.2
  end.

Definition log_op (log : list (string * Z)) (o : op) : list (string * Z) :=
  match o with Changed e p => log ++ [(e, p)] | _ => log end.

(** What the callers respect: everything is marked as changed at a position
    no earlier than the changes reported so far, and sizes are not negative. *)
Definition op_ok (log : list (string * Z)) (o : op) : Prop :=
  match o with
  | Changed _ _ => True
  | AllChanged p => ∀ e q, (e, q) ∈ log → q ≤ p
  | Resize scaled => ∀ n, 0 ≤ n → 0 ≤ scaled n
  end.

Fixpoint ops_ok (log : list (string * Z)) (ops : list op) : Prop :=
  match ops with
  | [] => True
  | o :: ops => op_ok log o ∧ ops_ok (log_op log o) ops
  end.

Lemma run_op_spec log c o :
  represents log c → bounded c → op_ok log o →
  ∃ c', run_op c o = Ok c' ∧ represents (log_op log o) c' ∧ bounded c'.
Proof.
  intros Hr Hb Ho. destruct o as [e p|p|scaled]; cbn.
  - by apply entity_has_changed_spec.
  - eexists. split; [done|]. destruct Hb as (Hm0 & Hm & _).
    split; [|split_and!; cbn; [done..|]; rewrite sd_len_size, sd_new_map, map_size_empty; lia].
    split; [split|..]; cbn; rewrite ?sd_new_map.
    + intros e k. rewrite lookup_empty. setoid_rewrite lookup_empty. naive_solver.
    + intros k S. by rewrite lookup_empty.
    + intros k S. by rewrite lookup_empty.
    + intros e q Hin. left. by eapply Ho.
    + intros e k. by rewrite lookup_empty.
  - unfold set_cache_factor. cbn in Ho. case_match; cbn; [|eauto].
    destruct Hr as [[Hsync Hne Hl] Hcov Hlog].
    destruct (evict_spec log (mkCache (_original_max_size c) (scaled (_original_max_size c))
      (_cache c) (_entity_to_key c) (_earliest_known_stream_pos c)))
      as (c' & -> & ? & ? & Hmax & Horig); [by split|by apply Ho, Hb|].
    exists c'. split; [done|]. split; [done|]. unfold bounded. rewrite Horig, Hmax in *. cbn in *.
    split_and!; [apply Hb|apply Ho, Hb|done].
Qed.

Lemma run_ops_spec log c ops :
  represents log c → bounded c → ops_ok log ops →
  ∃ c', foldM run_op c ops = Ok c' ∧ represents (foldl log_op log ops) c' ∧ bounded c'.
Proof.
  revert log c. induction ops as [|o ops IH]; intros log c Hr Hb Ho; cbn; [eauto|].
  destruct Ho as [Ho Hops].
  destruct (run_op_spec log c o Hr Hb Ho) as (c1 & -> & Hr1 & Hb1). cbn. by apply IH.
Qed.

Lemma empty_represents pos max_size :
  0 ≤ max_size → let c := mkCache max_size max_size sd_new ∅ pos in
  represents [] c ∧ bounded c.
Proof.
  intros Hm. cbn. split.
  - split; [split|..]; cbn; rewrite ?sd_new_map.
    + intros e k. rewrite lookup_empty. setoid_rewrite lookup_empty. naive_solver.
    + intros k S. by rewrite lookup_empty.
    + intros k S. by rewrite lookup_empty.
    + by intros e q ?%elem_of_nil.
    + intros e k. by rewrite lookup_empty.
  - split_and!; cbn; [done..|]. rewrite sd_len_size, sd_new_map, map_size_empty. lia.
Qed.

(** The constructor is a resize followed by the changes it is prefilled with. *)
Lemma init_run_ops pos max_size factor prefilled :
  init pos max_size factor prefilled =
  foldM run_op (mkCache max_size max_size sd_new ∅ pos)
    (match factor with Some s => [Resize s] | None => [] end ++
     map (λ kv, Changed kv.1 kv.2) prefilled).
Proof.
  unfold init. assert (∀ c, foldM (λ c kv, entity_has_changed c kv.1 kv.2) c prefilled =
    foldM run_op c (map (λ kv, Changed kv.1 kv.2) prefilled)) as Hf.
  { intros c. revert c. induction prefilled as [|kv l IH]; intros c; cbn; [done|].
    destruct (entity_has_changed c kv.1 kv.2); cbn; [apply IH|done]. }
  destruct factor as [s|]; cbn; [|apply Hf].
  destruct (set_cache_factor _ s) as [r|]; cbn; [apply Hf|done].
Qed.

Lemma ops_ok_app log ops ops' :
  ops_ok log ops → ops_ok (foldl log_op log ops) ops' → ops_ok log (ops ++ ops').
Proof. revert log. induction ops as [|o ops IH]; cbn; [done|]. intros log [? ?] ?. auto. Qed.

Lemma log_prefilled log prefilled :
  foldl log_op log (map (λ kv, Changed kv.1 kv.2) prefilled) = log ++ prefilled.
Proof.
  revert log. induction prefilled as [|[e p] l IH]; intros log; cbn; [by rewrite app_nil_r|].
  rewrite IH. by rewrite <-app_assoc.
Qed.

(** ** Queries *)

Lemma changed_since_iff log c e pos :
  represents log c → _earliest_known_stream_pos c ≤ pos →
  changed_since log e pos ↔ ∃ k, _entity_to_key c !! e = Some k ∧ pos < k.
Proof.
  intros [_ Hcov Hlog] Hpos. split.
  - intros (p & Hin & Hp). destruct (Hcov e p Hin) as [?|(k & Hk & ?)]; [lia|].
    exists k. split; [done|lia].
  - intros (k & Hk%Hlog & Hp). by exists k.
Qed.

Lemma has_entity_changed_spec log c e pos :
  represents log c →
  has_entity_changed c e pos = true ↔ pos < _earliest_known_stream_pos c ∨ changed_since log e pos.
Proof.
  intros Hr. unfold has_entity_changed.
  destruct (Z.ltb_spec pos (_earliest_known_stream_pos c)) as [Hp|Hp]; [split; [by left|done]|].
  rewrite (changed_since_iff log c e pos Hr Hp).
  destruct (_entity_to_key c !! e) as [k|]; [rewrite Z.ltb_lt|]; split;
    [right; eauto|intros [?|(? & [= <-] & ?)]; lia|done|intros [?|(? & ? & ?)]; [lia|done]].
Qed.

Lemma get_all_spec log c pos l :
  represents log c → get_all_entities_changed c pos = Some l →
  _earliest_known_stream_pos c ≤ pos ∧ (∀ e, e ∈ l ↔ changed_since log e pos) ∧
  NoDup l ∧
  (∀ i j e e' k k', (i < j)%nat → l !! i = Some e → l !! j = Some e' →
     _entity_to_key c !! e = Some k → _entity_to_key c !! e' = Some k' → k ≤ k').
Proof.
  intros Hr. unfold get_all_entities_changed.
  destruct (Z.ltb_spec pos (_earliest_known_stream_pos c)) as [Hp|Hp]; [done|]. intros [= <-].
  split; [done|].
  assert (∀ k e, e ∈ elements (default ∅ (sd_map (_cache c) !! k)) ↔
    _entity_to_key c !! e = Some k) as Hel.
  { intros k e. rewrite elem_of_elements, (ci_sync _ (rp_inv _ _ Hr)).
    destruct (sd_map (_cache c) !! k) as [S|]; cbn; set_solver. }
  split; [|split].
  - intros e. rewrite (changed_since_iff log c e pos Hr Hp), list_elem_of_bind. split.
    + intros (k & He%Hel & (Hk & _)%sd_after_elem). eauto.
    + intros (k & Hk & Hpk). exists k. rewrite Hel. split; [done|]. apply sd_after_elem.
      apply (ci_sync _ (rp_inv _ _ Hr)) in Hk as (S & HS & _). eauto.
  - pose proof (sd_after_sorted pos (_cache c)) as Hs.
    induction Hs as [|k l Hs IH Hk]; cbn; [constructor|]. apply NoDup_app.
    split; [apply NoDup_elements|]. split; [|done].
    intros e He%Hel (k' & He'%Hel & Hk')%list_elem_of_bind. simplify_eq.
    rewrite Forall_forall in Hk. specialize (Hk k Hk'). lia.
  - pose proof (sd_after_sorted pos (_cache c)) as Hs.
    induction Hs as [|k l Hs IH Hk]; [by intros i j e e' ke ke' _ Hi; cbn in Hi|].
    intros i j e e' ke ke' Hij. cbn. rewrite !lookup_app_Some.
    intros [Hi|[Hli Hi]] [Hj|[Hlj Hj]] He He'.
    + apply list_elem_of_lookup_2, Hel in Hi, Hj. simplify_eq. lia.
    + apply list_elem_of_lookup_2, Hel in Hi. apply list_elem_of_lookup_2 in Hj.
      apply list_elem_of_bind in Hj as (k' & Hj%Hel & Hk'). simplify_eq.
      rewrite Forall_forall in Hk. specialize (Hk _ Hk'). lia.
    + apply lookup_lt_Some in Hj. lia.
    + eapply (IH _ _ e e'); [|done|done|done|done]. lia.
Qed.

Lemma get_entities_spec log c is_set entities pos perf :
  represents log c →
  (∀ e, e ∈ get_entities_changed c is_set entities pos perf → e ∈ entities) ∧
  (∀ e, e ∈ entities → changed_since log e pos → e ∈ get_entities_changed c is_set entities pos perf) ∧
  (_earliest_known_stream_pos c ≤ pos → -1 ≤ pos → sd_map (_cache c) ≠ ∅ →
   ∀ e, e ∈ get_entities_changed c is_set entities pos perf → changed_since log e pos).
Proof.
  intros Hr. unfold get_entities_changed.
  destruct (sd_peekitem (_cache c)) as [[k S]|] eqn:Ep.
  2:{ apply sd_peekitem_None in Ep. split_and!; [set_solver..|done]. }
  destruct (Z.ltb_spec pos (_earliest_known_stream_pos c)) as [Hp|Hp].
  { split_and!; [set_solver..|lia]. }
  case_match.
  - assert (∀ e, pos < default (-1) (_entity_to_key c !! e) ↔
      changed_since log e pos ∨ (_entity_to_key c !! e = None ∧ pos < -1)) as He.
    { intros e. rewrite (changed_since_iff log c e pos Hr Hp).
      destruct (_entity_to_key c !! e); cbn; naive_solver. }
    setoid_rewrite elem_of_filter. setoid_rewrite elem_of_list_to_set. setoid_rewrite He.
    split_and!; [naive_solver..|]. intros _ Hpos _ e [[?|[_ ?]] _]; [done|lia].
  - destruct (get_all_entities_changed c pos) as [l|] eqn:El.
    + apply (get_all_spec log) in El as (_ & Hl & _); [|done].
      assert (∀ e, e ∈ (if is_set then list_to_set entities ∩ list_to_set l
        else if decide (length l < length entities)%nat then list_to_set l ∩ list_to_set entities
             else list_to_set entities ∩ list_to_set l : StrSet) ↔
        e ∈ entities ∧ changed_since log e pos) as Hres.
      { intros e. rewrite <-Hl. destruct is_set; [set_solver|]. case_decide; set_solver. }
      setoid_rewrite Hres. naive_solver.
    + unfold get_all_entities_changed in El.
      destruct (Z.ltb_spec pos (_earliest_known_stream_pos c)); [lia|done].
Qed.

Lemma has_any_spec log c pos :
  represents log c →
  has_any_entity_changed c pos = true ↔
  pos < _earliest_known_stream_pos c ∨ ∃ e, changed_since log e pos.
Proof.
  intros Hr. unfold has_any_entity_changed.
  destruct (Z.ltb_spec pos (_earliest_known_stream_pos c)) as [Hp|Hp]; [split; [by left|done]|].
  setoid_rewrite (λ e, changed_since_iff log c e pos Hr Hp).
  setoid_rewrite (ci_sync _ (rp_inv _ _ Hr)).
  destruct (sd_peekitem (_cache c)) as [[k S]|] eqn:Ep.
  - apply sd_peekitem_Some in Ep as [Hk Hmax]. rewrite Z.ltb_lt. split.
    + intros Hlt. right. pose proof (ci_nonempty _ (rp_inv _ _ Hr) _ _ Hk) as Hne.
      apply set_choose_L in Hne as [e He]. eauto 8.
    + intros [?|(e & k' & (S' & HS' & _) & Hlt)]; [lia|]. pose proof (Hmax k' ltac:(eauto)). lia.
  - apply sd_peekitem_None in Ep. rewrite Ep. setoid_rewrite lookup_empty.
    split; [done|]. intros [?|(e & k & (S & ? & _) & _)]; [lia|done].
Qed.
End props.

(** ** An implementation of the interface *)

(** The least and greatest keys, and the keys in order, of a plain map. *)
Definition zmap_keys (m : ZMap StrSet) : list Z := merge_sort Z.le (map_to_list m).*1.

Lemma elem_of_zmap_keys m k : k ∈ zmap_keys m ↔ is_Some (m !! k).
Proof.
  unfold zmap_keys. rewrite merge_sort_Permutation, list_elem_of_fmap. split.
  - intros ([k' v] & -> & Hin%elem_of_map_to_list). eauto.
  - intros [v Hv]. exists (k, v). by rewrite elem_of_map_to_list.
Qed.

Lemma zmap_keys_sorted m : StronglySorted Z.lt (zmap_keys m).
Proof.
  assert (StronglySorted Z.le (zmap_keys m)) as Hs.
  { apply StronglySorted_merge_sort; [intros ???; lia|intros ??; lia]. }
  assert (NoDup (zmap_keys m)) as Hnd.
  { unfold zmap_keys. rewrite merge_sort_Permutation. apply NoDup_fst_map_to_list. }
  induction Hs as [|k l Hs IH Hk]; [constructor|]. apply NoDup_cons in Hnd as [Hn Hnd].
  constructor; [auto|]. rewrite Forall_forall in Hk |- *. intros k' Hk'.
  specialize (Hk k' Hk'). assert (k ≠ k') by (by intros ->). lia.
Qed.

Definition zmap_popitem0 (m : ZMap StrSet) : option ((Z * StrSet) * ZMap StrSet) :=
  match zmap_keys m with
  | [] => None
  | k :: _ => Some ((k, default ∅ (m !! k)), delete k m)
  end.
Definition zmap_peekitem (m : ZMap StrSet) : option (Z * StrSet) :=
  match last (zmap_keys m) with
  | None => None
  | Some k => Some (k, default ∅ (m !! k))
  end.

#[global] Program Instance zmap_SortedDict : SortedDict (ZMap StrSet) := {|
  sd_new := ∅;
  sd_map m := m;
  sd_setitem k v m := <[k := v]> m;
  sd_delitem k m := delete k m;
  sd_len m := size m;
  sd_popitem0 := zmap_popitem0;
  sd_peekitem := zmap_peekitem;
  sd_after pos m := filter (λ k, pos < k) (zmap_keys m)
|}.
Solve Obligations with (try done).
Next Obligation.
  intros m. unfold zmap_popitem0. split.
  - destruct (zmap_keys m) eqn:E; [|done]. intros _. apply map_empty. intros k.
    destruct (m !! k) as [v|] eqn:Ek; [|done].
    assert (k ∈ zmap_keys m) as Hk by (apply elem_of_zmap_keys; eauto).
    rewrite E in Hk. by apply elem_of_nil in Hk.
  - intros ->. done.
Qed.
Next Obligation.
  intros m k v d. unfold zmap_popitem0. pose proof (zmap_keys_sorted m) as Hs.
  destruct (zmap_keys m) as [|k' l] eqn:E; [done|]. intros [= <- <- <-].
  assert (is_Some (m !! k')) as [v Hv] by (apply elem_of_zmap_keys; rewrite E; left).
  rewrite Hv. split_and!; try done. intros k. rewrite <-elem_of_zmap_keys, E.
  apply StronglySorted_inv in Hs as [_ Hs]. rewrite Forall_forall in Hs.
  intros [->|Hk]%elem_of_cons; [lia|]. specialize (Hs k Hk). lia.
Qed.
Next Obligation.
  intros m. unfold zmap_peekitem. destruct (last (zmap_keys m)) as [k|] eqn:E.
  - split; [done|]. intros ->. apply last_Some in E as [l E].
    assert (k ∈ zmap_keys ∅) as Hk by (rewrite E; set_solver).
    apply elem_of_zmap_keys in Hk as [v Hv]. by rewrite lookup_empty in Hv.
  - apply last_None in E. split; [|done]. intros _. apply map_empty. intros k.
    destruct (m !! k) as [v|] eqn:Ek; [|done].
    assert (k ∈ zmap_keys m) as Hk by (apply elem_of_zmap_keys; eauto).
    rewrite E in Hk. by apply elem_of_nil in Hk.
Qed.
Next Obligation.
  intros m k v. unfold zmap_peekitem. pose proof (zmap_keys_sorted m) as Hs.
  destruct (last (zmap_keys m)) as [k'|] eqn:E; [|done]. intros [= <- <-].
  apply last_Some in E as [l E].
  assert (is_Some (m !! k')) as [v Hv] by (apply elem_of_zmap_keys; rewrite E; set_solver).
  rewrite Hv. split; [done|]. intros k. rewrite <-elem_of_zmap_keys, E. rewrite E in Hs.
  intros [Hk| ->%list_elem_of_singleton]%elem_of_app; [|lia].
  pose proof (StronglySorted_app_1_elem_of _ _ _ _ _ Hs Hk (list_elem_of_here k' [])). lia.
Qed.
Next Obligation. intros pos m k. by rewrite list_elem_of_filter, elem_of_zmap_keys. Qed.
Next Obligation.
  intros pos m. cbn. pose proof (zmap_keys_sorted m) as Hs. revert Hs.
  generalize (zmap_keys m). intros ks Hs. induction Hs as [|k l Hs IH Hk]; [constructor|]. rewrite filter_cons. case_decide; [|done].
  constructor; [done|]. rewrite Forall_forall in Hk |- *. intros x [_ Hx]%list_elem_of_filter. auto.
Qed.

(** C16: A StreamChangeCache constructed with any prefilled entries and taken through any
    sequence of changes, resizes and all-changed marks (at positions not before the recorded
    changes) never raises, keeps its two maps in step with the log of changes, and holds at
    most max_size positions. *)
Theorem stream_cache_run {D} `{SD : SortedDict D} (pos max_size : Z) (factor : option (Z → Z))
    (prefilled : list (string * Z)) (ops : list op) :
  0 ≤ max_size → (∀ scaled n, factor = Some scaled → 0 ≤ n → 0 ≤ scaled n) → ops_ok prefilled ops →
  ∃ c c' : StreamChangeCache D, init pos max_size factor prefilled = Ok c ∧
    foldM run_op c ops = Ok c' ∧ represents (foldl log_op prefilled ops) c' ∧ bounded c'.
Proof.
  intros Hm Hf Hok. destruct (empty_represents (D := D) pos max_size Hm) as [Hr Hb].
  rewrite init_run_ops.
  destruct (run_ops_spec [] _ (match factor with Some s => [Resize s] | None => [] end ++
    map (λ kv, Changed kv.1 kv.2) prefilled) Hr Hb) as (c & -> & Hr' & Hb').
  { apply ops_ok_app.
    - destruct factor; cbn; [|done]. split; [|done]. intros n Hn. by apply Hf.
    - clear. generalize (foldl log_op [] (match factor with Some s => [Resize s] | None => [] end)).
      induction prefilled; cbn; auto. }
  exists c. rewrite foldl_app, log_prefilled in Hr'. replace (foldl _ _ _) with ([] : list (string * Z))
    in Hr' by (by destruct factor).
  destruct (run_ops_spec prefilled c ops Hr' Hb' Hok) as (c' & ? & ? & ?). eauto.
Qed.

(** On a cache that represents a log of changes, has_entity_changed and
    has_any_entity_changed answer exactly by the log from the earliest known position on and
    true before it, and get_all_entities_changed returns each entity changed since the
    position once, in order of last change. *)
Theorem stream_cache_queries {D} `{SD : SortedDict D} log (c : StreamChangeCache D) pos :
  represents log c →
  (∀ e, has_entity_changed c e pos = true ↔
        pos < _earliest_known_stream_pos c ∨ changed_since log e pos) ∧
  (has_any_entity_changed c pos = true ↔
     pos < _earliest_known_stream_pos c ∨ ∃ e, changed_since log e pos) ∧
  (∀ l, get_all_entities_changed c pos = Some l →
     NoDup l ∧ (∀ e, e ∈ l ↔ changed_since log e pos) ∧
     (∀ i j e e' k k', (i < j)%nat → l !! i = Some e → l !! j = Some e' →
        get_max_pos_of_last_change c e = Some k → get_max_pos_of_last_change c e' = Some k' →
        k ≤ k')).
Proof.
  intros Hr. split_and!.
  - intros e. by apply has_entity_changed_spec.
  - by apply has_any_spec.
  - intros l Hl. apply (get_all_spec log) in Hl as (_ & ? & ? & ?); done.
Qed.

(** get_entities_changed returns a subset of the given entities that misses no entity
    changed since the position and, when the position is known and the cache is not empty,
    has only such entities: an entity unknown to the cache is not returned. *)
Theorem get_entities_changed_spec {D} `{SD : SortedDict D} log (c : StreamChangeCache D)
    is_set entities pos perf :
  represents log c →
  (∀ e, e ∈ get_entities_changed c is_set entities pos perf → e ∈ entities) ∧
  (∀ e, e ∈ entities → changed_since log e pos → e ∈ get_entities_changed c is_set entities pos perf) ∧
  (_earliest_known_stream_pos c ≤ pos → -1 ≤ pos → sd_map (_cache c) ≠ ∅ →
   ∀ e, e ∈ get_entities_changed c is_set entities pos perf → changed_since log e pos).
Proof. apply get_entities_spec. Qed.
