(* ===== verification/IdGenerators.v ===== *)
(** * Stream id generators: [synapse/storage/util/id_generators.py]

    [MultiWriterIdGenerator] hands out the ids of a stream several processes
    write to, and tracks up to which id everything has been persisted. All
    ids are stored as positive numbers; a negative stream negates them when
    they are returned.

    Every method body under [with self._lock] is one definition on the state:
    threads interleave between them, not inside. What reads the database
    takes the results of its queries as arguments; [sortedcontainers] is an
    interface with the laws the class relies on. *)

From S2P Require Import Prelude PyOrd.

Abbreviation ZSet := (gset Z).

(** ** The interfaces of [SortedSet[int]] and [SortedList[int]] *)

Class SortedSet (SS : Type) := {
  ss_new : SS;
  ss_items : SS → list Z;                    (* list(s) *)
  ss_update : list Z → SS → SS;              (* s.update(l) *)
  ss_difference_update : list Z → SS → SS;   (* s.difference_update(l) *)
  ss_new_items : ss_items ss_new = [];
  ss_sorted s : StronglySorted Z.lt (ss_items s);
  ss_update_elem l s x : x ∈ ss_items (ss_update l s) ↔ x ∈ l ∨ x ∈ ss_items s;
  ss_difference_update_elem l s x :
    x ∈ ss_items (ss_difference_update l s) ↔ (x ∉ l) ∧ x ∈ ss_items s
}.
#[global] Hint Mode SortedSet ! : typeclass_instances.

Class SortedList (SL : Type) := {
  sl_new : SL;
  sl_items : SL → list Z;                    (* list(l) *)
  sl_add : Z → SL → SL;                      (* l.add(x) *)
  sl_remove : Z → SL → option SL;            (* l.remove(x), None: ValueError *)
  sl_new_items : sl_items sl_new = [];
  sl_sorted l : StronglySorted Z.le (sl_items l);
  sl_add_items x l : sl_items (sl_add x l) ≡ₚ x :: sl_items l;
  sl_remove_Some x l l' : sl_remove x l = Some l' → sl_items l ≡ₚ x :: sl_items l';
  sl_remove_None x l : sl_remove x l = None ↔ x ∉ sl_items l
}.
#[global] Hint Mode SortedList ! : typeclass_instances.

(** [min(l, default=None)], [max(l, default=None)] *)
Definition min_of (l : list Z) : option Z :=
  match l with [] => None | x :: l => Some (foldl Z.min x l) end.
Definition max_of (l : list Z) : option Z :=
  match l with [] => None | x :: l => Some (foldl Z.max x l) end.

Section Generator.
Context {SS SL : Type} `{SortedSet SS} `{SortedList SL}.

(** ** State *)

Record MultiWriterIdGenerator := mkGen {
  _instance_name : string;
  _positive : bool;
  _writers : list string;
  _current_positions : StrMap Z;
  _unfinished_ids : SS;
  _in_flight_fetches : SL;
  _finished_ids : ZSet;
  _persisted_upto_position : Z;
  _known_persisted_positions : list Z;
  _max_seen_allocated_stream_id : Z;
  _max_position_of_local_instance : Z
}.

Definition _return_factor (g : MultiWriterIdGenerator) : Z := if _positive g then 1 else -1.

Definition set_positions (m : StrMap Z) (g : MultiWriterIdGenerator) : MultiWriterIdGenerator :=
  mkGen (_instance_name g) (_positive g) (_writers g) m (_unfinished_ids g) (_in_flight_fetches g)
    (_finished_ids g) (_persisted_upto_position g) (_known_persisted_positions g)
    (_max_seen_allocated_stream_id g) (_max_position_of_local_instance g).
Definition set_ids (u : SS) (f : ZSet) (g : MultiWriterIdGenerator) : MultiWriterIdGenerator :=
  mkGen (_instance_name g) (_positive g) (_writers g) (_current_positions g) u
    (_in_flight_fetches g) f (_persisted_upto_position g) (_known_persisted_positions g)
    (_max_seen_allocated_stream_id g) (_max_position_of_local_instance g).
Definition set_in_flight (l : SL) (g : MultiWriterIdGenerator) : MultiWriterIdGenerator :=
  mkGen (_instance_name g) (_positive g) (_writers g) (_current_positions g) (_unfinished_ids g) l
    (_finished_ids g) (_persisted_upto_position g) (_known_persisted_positions g)
    (_max_seen_allocated_stream_id g) (_max_position_of_local_instance g).
Definition set_persisted (p : Z) (h : list Z) (g : MultiWriterIdGenerator) :
    MultiWriterIdGenerator :=
  mkGen (_instance_name g) (_positive g) (_writers g) (_current_positions g) (_unfinished_ids g)
    (_in_flight_fetches g) (_finished_ids g) p h (_max_seen_allocated_stream_id g)
    (_max_position_of_local_instance g).
Definition set_max_seen (m : Z) (g : MultiWriterIdGenerator) : MultiWriterIdGenerator :=
  mkGen (_instance_name g) (_positive g) (_writers g) (_current_positions g) (_unfinished_ids g)
    (_in_flight_fetches g) (_finished_ids g) (_persisted_upto_position g)
    (_known_persisted_positions g) m (_max_position_of_local_instance g).
Definition set_max_local (m : Z) (g : MultiWriterIdGenerator) : MultiWriterIdGenerator :=
  mkGen (_instance_name g) (_positive g) (_writers g) (_current_positions g) (_unfinished_ids g)
    (_in_flight_fetches g) (_finished_ids g) (_persisted_upto_position g)
    (_known_persisted_positions g) (_max_seen_allocated_stream_id g) m.

(** ** Persisted positions *)

(** [self._unfinished_ids or self._in_flight_fetches] *)
Definition busy (g : MultiWriterIdGenerator) : bool :=
  match ss_items (_unfinished_ids g), sl_items (_in_flight_fetches g) with
  | [], [] => false
  | _, _ => true
  end.

(** The tokens of the other instances. *)
Definition other_positions (g : MultiWriterIdGenerator) : list Z :=
  (filter (λ kv, kv.1 ≠ _instance_name g) (map_to_list (_current_positions g))).*2.

(** [while self._known_persisted_positions]: every iteration but the last
    pops an element, so the length of the heap is enough fuel. *)
Fixpoint drain (fuel : nat) (heap : list Z) (pos : Z) : Z * list Z :=
  match fuel with
  | O => (pos, heap)
  | S fuel =>
      match heappop heap with
      | None => (pos, heap)
      | Some (lowest, rest) =>
          if lowest <=? pos then drain fuel rest pos
          else if lowest =? pos + 1 then drain fuel rest (pos + 1)
          else (pos, heap)
      end
  end.

Definition our_position (g : MultiWriterIdGenerator) : Z :=
  default 0 (_current_positions g !! _instance_name g).

(** [min_curr] *)
Definition min_current (g : MultiWriterIdGenerator) : Z :=
  let our_current_position := our_position g in
  let min_curr := default our_current_position (min_of (other_positions g)) in
  if negb (our_current_position =? 0) && busy g then Z.min min_curr our_current_position
  else min_curr.

Definition _add_persisted_position (new_id : Z) (g : MultiWriterIdGenerator) :
    MultiWriterIdGenerator :=
  let heap := heappush (_known_persisted_positions g) new_id in
  let persisted := Z.max (min_current g) (_persisted_upto_position g) in
  let max_local := Z.max (_max_position_of_local_instance g) persisted in
  let max_local :=
    if busy g then max_local else Z.max (_max_seen_allocated_stream_id g) max_local in
  let '(persisted, heap) := drain (length heap) heap persisted in
  set_persisted persisted heap (set_max_local max_local g).

(** ** Allocating ids *)

(** The three sections of [_load_next_mult_id_txn] under the lock. *)
Definition fetch_begin (g : MultiWriterIdGenerator) : Z * MultiWriterIdGenerator :=
  let current_max := _max_seen_allocated_stream_id g in
  (current_max, set_in_flight (sl_add current_max (_in_flight_fetches g)) g).

(** [self._unfinished_ids[-1]] raises on an empty set, after the update. *)
Definition fetch_record (stream_ids : list Z) (g : MultiWriterIdGenerator) :
    res MultiWriterIdGenerator :=
  let unfinished := ss_update stream_ids (_unfinished_ids g) in
  let g := set_ids unfinished (_finished_ids g) g in
  match last (ss_items unfinished) with
  | Some m => Ok (set_max_seen (Z.max (_max_seen_allocated_stream_id g) m) g)
  | None => Raise IndexError
  end.

Definition fetch_end (current_max : Z) (g : MultiWriterIdGenerator) :
    res MultiWriterIdGenerator :=
  match sl_remove current_max (_in_flight_fetches g) with
  | Some l => Ok (set_in_flight l g)
  | None => Raise ValueError
  end.

(** The whole of [_load_next_mult_id_txn] when no other thread interferes.
    [fetched] is what [self._sequence_gen.get_next_mult_txn] returns or
    raises. The state survives an exception, which is raised again after the
    [finally] clause. *)
Definition _load_next_mult_id_txn (fetched : res (list Z)) (g : MultiWriterIdGenerator) :
    res (list Z) * MultiWriterIdGenerator :=
  let '(current_max, g) := fetch_begin g in
  let '(r, g) :=
    match fetched with
    | Raise e => (Raise e, g)
    | Ok ids =>
        match fetch_record ids g with
        | Ok g => (Ok ids, g)
        | Raise e => (Raise e, set_ids (ss_update ids (_unfinished_ids g)) (_finished_ids g) g)
        end
    end in
  match fetch_end current_max g with
  | Ok g => (r, g)
  | Raise e => (Raise e, g)
  end.

Definition _load_next_id_txn (fetched : res (list Z)) (g : MultiWriterIdGenerator) :
    res Z * MultiWriterIdGenerator :=
  let '(r, g) := _load_next_mult_id_txn fetched g in
  (ids ← r; match ids with i :: _ => Ok i | [] => Raise IndexError end, g).

(** [if self._writers and self._instance_name not in self._writers: raise] *)
Definition check_writer (g : MultiWriterIdGenerator) : res unit :=
  raise_if (match _writers g with
            | [] => false
            | ws => negb (bool_decide (_instance_name g ∈ ws))
            end)
    (PlainException "Tried to allocate stream ID on non-writer").

(** ** Finishing ids *)

(** [min_unfinished]: the least id that is not finished or may be handed out
    to a fetch in flight. *)
Definition min_unfinished (g : MultiWriterIdGenerator) : option Z :=
  match ss_items (_unfinished_ids g), sl_items (_in_flight_fetches g) with
  | u :: _, f :: _ => Some (Z.min u (f + 1))
  | [], f :: _ => Some (f + 1)
  | u :: _, [] => Some u
  | [], [] => None
  end.

(** The new position of this instance and the finished ids that stay. *)
Definition new_current (g : MultiWriterIdGenerator) : res (option Z * ZSet) :=
  match min_unfinished g with
  | Some m =>
      Ok (max_of (elements (filter (λ s, s < m) (_finished_ids g))),
          filter (λ s, ¬ s < m) (_finished_ids g))
  | None =>
      match max_of (elements (_finished_ids g)) with
      | Some m => Ok (Some m, ∅)
      | None => Raise ValueError
      end
  end.

Definition advance_local (new_cur : option Z) (g : MultiWriterIdGenerator) :
    MultiWriterIdGenerator :=
  match new_cur with
  | Some c =>
      if c =? 0 then g
      else
        let curr := our_position g in
        set_max_local (Z.max (Z.max curr c) (_max_position_of_local_instance g))
          (set_positions (<[_instance_name g := Z.max curr c]> (_current_positions g)) g)
  | None => g
  end.

Definition _mark_ids_as_finished (next_ids : list Z) (g : MultiWriterIdGenerator) :
    res MultiWriterIdGenerator :=
  let g := set_ids (ss_difference_update next_ids (_unfinished_ids g))
             (list_to_set next_ids ∪ _finished_ids g) g in
  '(new_cur, finished) ← new_current g;
  let g := advance_local new_cur (set_ids (_unfinished_ids g) finished g) in
  Ok (foldl (λ g i, _add_persisted_position i g) g next_ids).

(** ** Replication *)

Definition advance (instance_name : string) (new_id : Z) (g : MultiWriterIdGenerator) :
    MultiWriterIdGenerator :=
  let new_id := new_id * _return_factor g in
  let g := set_positions
    (<[instance_name := Z.max new_id (default 0 (_current_positions g !! instance_name))]>
       (_current_positions g)) g in
  let g := set_max_seen (Z.max (_max_seen_allocated_stream_id g) new_id) g in
  _add_persisted_position new_id g.

(** ** Queries *)

Definition get_persisted_upto_position (g : MultiWriterIdGenerator) : Z :=
  _return_factor g * _persisted_upto_position g.

Definition get_current_token (g : MultiWriterIdGenerator) : Z := get_persisted_upto_position g.

Definition get_current_token_for_writer (instance_name : string) (g : MultiWriterIdGenerator) : Z :=
  if String.eqb (_instance_name g) instance_name
  then _return_factor g * _max_position_of_local_instance g
  else
    let pos := default (_persisted_upto_position g) (_current_positions g !! instance_name) in
    _return_factor g * Z.max pos (_persisted_upto_position g).

Definition get_minimal_local_current_token (g : MultiWriterIdGenerator) : Z :=
  _return_factor g *
  default (_persisted_upto_position g) (_current_positions g !! _instance_name g).

Definition get_positions (g : MultiWriterIdGenerator) : StrMap Z :=
  (λ i, _return_factor g * i) <$> _current_positions g.

(** [_update_stream_positions_table_txn], on the rows of this stream in the
    [stream_positions] table. *)
Definition _update_stream_positions_table_txn (table : StrMap Z) (g : MultiWriterIdGenerator) :
    StrMap Z :=
  match _writers g with
  | [] => table
  | _ =>
      let pos := get_current_token_for_writer (_instance_name g) g in
      <[_instance_name g :=
          match table !! _instance_name g with
          | Some old => if _positive g then Z.max old pos else Z.min old pos
          | None => pos
          end]> table
  end.

(** ** Transactions and context managers *)

(** What a transaction runs when it ends. *)
Inductive callback :=
  | MarkFinished (ids : list Z)
  | NotifyReplication
  | UpdateTable.

Record LoggingTransaction := { after_callbacks : list callback; exception_callbacks : list callback }.

Definition get_next_mult_txn (fetched : res (list Z)) (txn : LoggingTransaction)
    (g : MultiWriterIdGenerator) : res (list Z * LoggingTransaction) * MultiWriterIdGenerator :=
  match check_writer g with
  | Raise e => (Raise e, g)
  | Ok _ =>
      let '(r, g) := _load_next_mult_id_txn fetched g in
      (next_ids ← r;
       Ok (map (λ i, _return_factor g * i) next_ids,
           {| after_callbacks := after_callbacks txn ++ [MarkFinished next_ids; NotifyReplication]
                ++ match _writers g with [] => [] | _ => [UpdateTable] end;
              exception_callbacks := exception_callbacks txn ++ [MarkFinished next_ids] |}), g)
  end.

Definition get_next_txn (fetched : res (list Z)) (txn : LoggingTransaction)
    (g : MultiWriterIdGenerator) : res (Z * LoggingTransaction) * MultiWriterIdGenerator :=
  match check_writer g with
  | Raise e => (Raise e, g)
  | Ok _ =>
      let '(r, g) := _load_next_id_txn fetched g in
      (next_id ← r;
       Ok (_return_factor g * next_id,
           {| after_callbacks := after_callbacks txn ++ [MarkFinished [next_id]; NotifyReplication]
                ++ match _writers g with [] => [] | _ => [UpdateTable] end;
              exception_callbacks := exception_callbacks txn ++ [MarkFinished [next_id]] |}), g)
  end.

(** [_MultiWriterCtxManager.__aexit__], given the rows of the stream in
    [stream_positions] and whether the body raised. *)
Definition ctx_aexit (stream_ids : list Z) (raised : bool) (table : StrMap Z)
    (g : MultiWriterIdGenerator) : res (StrMap Z * MultiWriterIdGenerator) :=
  g ← _mark_ids_as_finished stream_ids g;
  if raised then Ok (table, g)
  else Ok (match _writers g with [] => table | _ => _update_stream_positions_table_txn table g end, g).

(** ** Loading from the database *)

(** What the queries of [_load_current_ids] return: the rows of
    [stream_positions] of this stream, the last value of the sequence (on
    PostgreSQL), the greatest id of each table, and the rows of the tables
    from a given id on. *)
Record StreamTables := {
  db_stream_positions : list (string * Z);
  db_last_value : option Z;
  db_max_ids : list Z;
  db_rows_from : Z → list (option string * Z)
}.

(** One row of the loop under the lock. *)
Definition load_row (g : MultiWriterIdGenerator) (row : option string * Z) :
    MultiWriterIdGenerator :=
  let stream_id := _return_factor g * row.2 in
  let g := _add_persisted_position stream_id g in
  if bool_decide (row.1 = Some (_instance_name g))
  then set_positions (<[_instance_name g := stream_id]> (_current_positions g)) g
  else g.

(** The positions found in [stream_positions] and the sequence. *)
Definition loaded_positions (db : StreamTables) (g : MultiWriterIdGenerator) : StrMap Z :=
  let positions : StrMap Z :=
    match _writers g with
    | [] => _current_positions g
    | ws =>
        foldl (λ (m : StrMap Z) (kv : string * Z), <[kv.1 := kv.2 * _return_factor g]> m) ∅
          (filter (λ kv, kv.1 ∈ ws) (db_stream_positions db))
    end in
  if bool_decide (_instance_name g ∈ _writers g) then
    match db_last_value db with
    | Some v => <[_instance_name g := v]> positions
    | None => positions
    end
  else positions.

Definition _load_current_ids (db : StreamTables) (g : MultiWriterIdGenerator) :
    MultiWriterIdGenerator :=
  let g := set_positions (loaded_positions db g) g in
  let g :=
    match min_of (map_to_list (_current_positions g)).*2 with
    | None =>
        set_persisted (foldl Z.max 1 (db_max_ids db)) (_known_persisted_positions g) g
    | Some min_stream_id =>
        let g := set_persisted min_stream_id (_known_persisted_positions g) g in
        foldl load_row g (py_sort snd (db_rows_from db (min_stream_id * _return_factor g)))
    end in
  set_positions
    (foldl (λ (m : StrMap Z) w,
        match m !! w with Some _ => m | None => <[w := _persisted_upto_position g]> m end)
       (_current_positions g) (_writers g)) g.

(** [__init__] *)
Definition init (instance_name : string) (writers : list string) (positive : bool)
    (db : StreamTables) : MultiWriterIdGenerator :=
  let g := mkGen instance_name positive writers ∅ ss_new sl_new ∅ 1 [] 1 1 in
  let g := _load_current_ids db g in
  let max_seen := default 1 (max_of (map_to_list (_current_positions g)).*2) in
  let max_seen := Z.max max_seen (_persisted_upto_position g) in
  let g := set_max_local max_seen (set_max_seen max_seen g) in
  match writers with
  | [] => set_positions (<[instance_name := _persisted_upto_position g]> (_current_positions g)) g
  | _ => g
  end.
End Generator.
Arguments MultiWriterIdGenerator : clear implicits.
