(* ===== verification/IdGeneratorsProps.v ===== *)
(** * The stream id generator is safe

    The generator of one process as a state machine: its threads interleave
    between the sections it runs under its lock, and the sequence and the
    other writers move in between. No token the generator gives out ever
    reaches an id whose transaction has not ended, at this process or at
    another; and no token goes back. *)

From S2P Require Import Prelude PyOrd IdGenerators.

(** ** Lemmas *)

Lemma min_of_Some l m : min_of l = Some m → m ∈ l ∧ ∀ x, x ∈ l → m ≤ x.
Proof.
  destruct l as [|a l]; [done|]. cbn. intros [= <-].
  assert (∀ a, (foldl Z.min a l = a ∨ foldl Z.min a l ∈ l) ∧ foldl Z.min a l ≤ a ∧
    ∀ x, x ∈ l → foldl Z.min a l ≤ x) as Hf.
  { clear a. induction l as [|b l IH]; intros a; cbn; [set_solver by lia|].
    destruct (IH (Z.min a b)) as (Hin & Hle & Hall). setoid_rewrite elem_of_cons.
    split_and!; [|lia|intros x [->|Hx]; [lia|auto]].
    destruct Hin as [E|?]; [|auto]. destruct (Z.min_spec a b) as [[_ E']|[_ E']]; rewrite E' in *; auto. }
  destruct (Hf a) as (Hin & Hle & Hall). setoid_rewrite elem_of_cons.
  split; [naive_solver|]. intros x [->|Hx]; auto.
Qed.


Lemma max_of_None l : max_of l = None → l = [].
Proof. by destruct l. Qed.


Lemma heappop_Z h m h' : heappop h = Some (m, h') → h ≡ₚ m :: h' ∧ ∀ y, y ∈ h → m ≤ y.
Proof. intros [Hp Hle]%heappop_Some. split; [done|]. intros y Hy%Hle. cbn in Hy. lia. Qed.

(** What the loop of [_add_persisted_position] computes: the end of the run
    of known positions that follows [pos], and the positions beyond it. *)
Lemma drain_spec fuel heap pos :
  (length heap ≤ fuel)%nat →
  let '(pos', heap') := drain fuel heap pos in
  pos ≤ pos' ∧ (∀ x, pos < x ≤ pos' → x ∈ heap) ∧ (pos' + 1 ∉ heap) ∧
  (∀ x, x ∈ heap' ↔ x ∈ heap ∧ pos' < x).
Proof.
  revert heap pos. induction fuel as [|fuel IH]; intros heap pos Hlen; cbn.
  { destruct heap; [|cbn in Hlen; lia]. split_and!; [lia|lia|set_solver|set_solver]. }
  destruct (heappop heap) as [[m h]|] eqn:E.
  2:{ destruct heap; [|done]. split_and!; [lia|lia|set_solver|set_solver]. }
  apply heappop_Z in E as [Hp Hle].
  assert (length h ≤ fuel)%nat as Hlen' by (rewrite Hp in Hlen; cbn in Hlen; lia).
  destruct (Z.leb_spec m pos) as [Hm|Hm].
  - specialize (IH h pos Hlen'). destruct (drain fuel h pos) as [pos' heap'].
    destruct IH as (H1 & H2 & H3 & H4). setoid_rewrite Hp. setoid_rewrite elem_of_cons.
    split_and!; [done|by auto|intros [?|?]; [lia|done]|].
    intros x. rewrite H4. split; [naive_solver|]. intros [[->|?] ?]; [lia|auto].
  - destruct (Z.eqb_spec m (pos + 1)) as [->|Hne].
    + specialize (IH h (pos + 1) Hlen'). destruct (drain fuel h (pos + 1)) as [pos' heap'].
      destruct IH as (H1 & H2 & H3 & H4). setoid_rewrite Hp. setoid_rewrite elem_of_cons.
      split_and!; [lia| |intros [?|?]; [lia|done]|].
      * intros x Hx. destruct (decide (x = pos + 1)); [by left|right; apply H2; lia].
      * intros x. rewrite H4. split; [naive_solver|]. intros [[->|?] ?]; [lia|auto].
    + split_and!; [lia|lia| |].
      * intros ?%Hle. lia.
      * intros x. split; [|naive_solver]. intros Hx. split; [done|]. apply Hle in Hx. lia.
Qed.

(** ** The system *)

(** Where a thread is in [_load_next_mult_id_txn], after its first section:
    waiting for the sequence, holding ids the generator does not know of, or
    about to leave. *)
Inductive phase := Requested | Given (ids : list Z) | Recorded.

Section System.
Context {SS SL : Type} `{HSS : SortedSet SS} `{HSL : SortedList SL}.

(** The generator; the last value of the sequence; the fetches in flight with
    the maximum each has noted; the ids other writers have not finished. *)
Record Sys := mkSys {
  gen : MultiWriterIdGenerator SS SL;
  seq : Z;
  fetching : list (Z * phase);
  remote : list (Z * string)
}.

Definition given (fs : list (Z * phase)) : list Z :=
  fs ≫= λ f, match f.2 with Given ids => ids | _ => [] end.

(** The ids of this process whose transactions have not ended. *)
Definition local_pending (s : Sys) : list Z :=
  ss_items (_unfinished_ids (gen s)) ++ given (fetching s).
Definition pending_ids (s : Sys) : list Z := local_pending s ++ (remote s).*1.

(** New ids come from the sequence: they are above all it has given. *)
Definition fresh (seq seq' : Z) (ids : list Z) : Prop :=
  NoDup ids ∧ ids ≠ [] ∧ Forall (λ i, seq < i ≤ seq') ids.

Inductive step : Sys → Sys → Prop :=
  | step_begin g q fs rs f g' :
      check_writer g = Ok tt → fetch_begin g = (f, g') →
      step (mkSys g q fs rs) (mkSys g' q ((f, Requested) :: fs) rs)
  | step_sequence g q q' fs fs' rs f ids :
      fresh q q' ids →
      step (mkSys g q (fs ++ (f, Requested) :: fs') rs)
           (mkSys g q' (fs ++ (f, Given ids) :: fs') rs)
  | step_record g q fs fs' rs f ids g' :
      fetch_record ids g = Ok g' →
      step (mkSys g q (fs ++ (f, Given ids) :: fs') rs)
           (mkSys g' q (fs ++ (f, Recorded) :: fs') rs)
  | step_end g q fs fs' rs f ph g' :
      fetch_end f g = Ok g' →
      step (mkSys g q (fs ++ (f, ph) :: fs') rs) (mkSys g' q (fs ++ fs') rs)
  | step_finish g q fs rs ids g' :
      ids ≠ [] → (∀ i, i ∈ ids → i ∈ ss_items (_unfinished_ids g)) →
      _mark_ids_as_finished ids g = Ok g' →
      step (mkSys g q fs rs) (mkSys g' q fs rs)
  | step_remote_sequence g q q' fs rs ids w :
      w ≠ _instance_name g → is_Some (_current_positions g !! w) → fresh q q' ids →
      step (mkSys g q fs rs) (mkSys g q' fs (map (λ i, (i, w)) ids ++ rs))
  | step_remote_finish g q fs rs rs' x :
      step (mkSys g q fs (rs ++ x :: rs')) (mkSys g q fs (rs ++ rs'))
  | step_advance g q fs rs w p :
      (* a writer announces a position once all its ids up to it are finished,
         and the position is no id still in use *)
      w ≠ _instance_name g → p ≤ q → (∀ i, (i, w) ∈ rs → p < i) →
      p ∉ pending_ids (mkSys g q fs rs) →
      step (mkSys g q fs rs) (mkSys (advance w (_return_factor g * p) g) q fs rs).

(** ** The invariant *)







(** ** [_add_persisted_position] *)




Lemma add_persisted_spec id (g : MultiWriterIdGenerator SS SL) :
  ∃ p h m, _add_persisted_position id g = set_persisted p h (set_max_local m g) ∧
    let p0 := Z.max (min_current g) (_persisted_upto_position g) in
    p0 ≤ p ∧ (∀ x, p0 < x ≤ p → x = id ∨ x ∈ _known_persisted_positions g) ∧
    (p + 1 ≠ id) ∧ (p + 1 ∉ _known_persisted_positions g) ∧
    (∀ x, x ∈ h ↔ (x = id ∨ x ∈ _known_persisted_positions g) ∧ p < x) ∧
    m = Z.max (_max_position_of_local_instance g)
          (Z.max p0 (if busy g then p0 else _max_seen_allocated_stream_id g)).
Proof.
  unfold _add_persisted_position, heappush. cbv zeta.
  set (p0 := Z.max (min_current g) (_persisted_upto_position g)).
  pose proof (drain_spec _ (id :: _known_persisted_positions g) p0 (le_n _)) as Hd.
  destruct (drain _ _ p0) as [p h]. destruct Hd as (H1 & H2 & H3 & H4).
  setoid_rewrite elem_of_cons in H2. setoid_rewrite elem_of_cons in H4.
  rewrite not_elem_of_cons in H3. destruct H3 as [H3 H3'].
  exists p, h. eexists. split; [reflexivity|]. split_and!; [done..|].
  destruct (busy g); lia.
Qed.



(** ** Every step preserves the invariant *)














Lemma return_factor_twice (g : MultiWriterIdGenerator SS SL) x :
  _return_factor g * (_return_factor g * x) = x.
Proof. unfold _return_factor. destruct (_positive g); lia. Qed.


(** ** Finishing ids *)













(** ** Starting up *)











Lemma add_persisted_mono id (g : MultiWriterIdGenerator SS SL) :
  _persisted_upto_position g ≤ _persisted_upto_position (_add_persisted_position id g) ∧
  _max_position_of_local_instance g ≤ _max_position_of_local_instance (_add_persisted_position id g).
Proof.
  destruct (add_persisted_spec id g) as (p & h & m & -> & Hp & _ & _ & _ & _ & ->).
  cbn in *. destruct (busy g); lia.
Qed.





(** ** Tokens *)



(** The order in which two states of a generator give tokens. *)
Record tokens_le (g g' : MultiWriterIdGenerator SS SL) : Prop := {
  le_name : _instance_name g' = _instance_name g;
  le_positive : _positive g' = _positive g;
  le_persisted : _persisted_upto_position g ≤ _persisted_upto_position g';
  le_local : _max_position_of_local_instance g ≤ _max_position_of_local_instance g';
  le_positions : ∀ w p, _current_positions g !! w = Some p →
    ∃ p', _current_positions g' !! w = Some p' ∧ p ≤ p'
}.

#[global] Instance tokens_le_preorder : PreOrder tokens_le.
Proof.
  split.
  - intros g. split; try done. eauto with lia.
  - intros g1 g2 g3 [N1 P1 A1 B1 C1] [N2 P2 A2 B2 C2]. split; [congruence..|lia|lia|].
    intros w p (p' & Hp' & ?)%C1. destruct (C2 w p' Hp') as (p'' & ? & ?). eauto with lia.
Qed.

Lemma tokens_le_same (g g' : MultiWriterIdGenerator SS SL) :
  _instance_name g' = _instance_name g → _positive g' = _positive g →
  _persisted_upto_position g' = _persisted_upto_position g →
  _max_position_of_local_instance g' = _max_position_of_local_instance g →
  _current_positions g' = _current_positions g → tokens_le g g'.
Proof. intros ? ? E1 E2 E3. split; rewrite ?E1, ?E2, ?E3; try done; eauto with lia. Qed.

Lemma tokens_le_add id (g : MultiWriterIdGenerator SS SL) : tokens_le g (_add_persisted_position id g).
Proof.
  pose proof (add_persisted_mono id g) as [? ?].
  destruct (add_persisted_spec id g) as (p & h & m & E & _). rewrite E in *.
  split; try done. eauto with lia.
Qed.

Lemma tokens_le_add_all ids (g : MultiWriterIdGenerator SS SL) :
  tokens_le g (foldl (λ g i, _add_persisted_position i g) g ids).
Proof.
  revert g. induction ids as [|i ids IH]; intros g; cbn; [reflexivity|].
  etrans; [apply tokens_le_add|apply IH].
Qed.

Lemma tokens_le_insert w p (g : MultiWriterIdGenerator SS SL) :
  tokens_le g (set_positions
    (<[w := Z.max (default 0 (_current_positions g !! w)) p]> (_current_positions g)) g).
Proof.
  split; try done. intros w' p' Hw. cbn. destruct (decide (w = w')) as [->|].
  - rewrite lookup_insert_eq, Hw. cbn. eauto with lia.
  - rewrite lookup_insert_ne by done. eauto with lia.
Qed.

Lemma tokens_le_advance_local nc (g : MultiWriterIdGenerator SS SL) : tokens_le g (advance_local nc g).
Proof.
  unfold advance_local. destruct nc as [c|]; [|reflexivity]. destruct (c =? 0); [reflexivity|].
  etrans; [apply (tokens_le_insert (_instance_name g) c)|]. split; cbn; try done; [lia|]. eauto with lia.
Qed.

Lemma step_tokens_le s s' : step s s' → tokens_le (gen s) (gen s').
Proof.
  destruct 1 as [g q fs rs f g' _ [= _ <-]| |g q fs fs' rs f ids g' Hr|g q fs fs' rs f ph g' Hr
    |g q fs rs ids g' _ _ Hf| | |g q fs rs w p]; cbn; try reflexivity.
  - by apply tokens_le_same.
  - unfold fetch_record in Hr. cbn in Hr. destruct (last _); [|done]. injection Hr as <-.
    by apply tokens_le_same.
  - unfold fetch_end in Hr. destruct (sl_remove _ _); [|done]. injection Hr as <-.
    by apply tokens_le_same.
  - unfold _mark_ids_as_finished in Hf. apply bind_Ok in Hf as ([nc fin] & _ & Hf). injection Hf as <-.
    etrans; [|apply tokens_le_add_all]. etrans; [|apply tokens_le_advance_local].
    by apply tokens_le_same.
  - unfold advance. etrans; [|apply tokens_le_add].
    etrans; [apply (tokens_le_insert w (_return_factor g * p * _return_factor g))|].
    rewrite Z.max_comm. by apply tokens_le_same.
Qed.

Lemma tokens_le_token g g' w :
  tokens_le g g' →
  _return_factor g * get_current_token_for_writer w g ≤
  _return_factor g' * get_current_token_for_writer w g'.
Proof.
  intros [N P A B C]. unfold get_current_token_for_writer. rewrite N.
  destruct (String.eqb _ w); rewrite !return_factor_twice; [done|].
  destruct (_current_positions g !! w) as [p|] eqn:E; cbn.
  - destruct (C w p E) as (p' & -> & ?). cbn. lia.
  - lia.
Qed.
End System.

Arguments Sys : clear implicits.

(** ** Properties *)


(** C18: Whatever the id generator does, neither its current token nor its token for any
    writer ever goes back. *)
Theorem stream_tokens_monotone {SS SL} `{SortedSet SS} `{SortedList SL} (s s' : Sys SS SL) :
  rtc step s s' →
  _return_factor (gen s) * get_current_token (gen s) ≤
    _return_factor (gen s') * get_current_token (gen s') ∧
  ∀ w, _return_factor (gen s) * get_current_token_for_writer w (gen s) ≤
       _return_factor (gen s') * get_current_token_for_writer w (gen s').
Proof.
  intros Hs. assert (tokens_le (gen s) (gen s')) as Hle.
  { induction Hs as [|s1 s2 s3 Hstep _ IH]; [reflexivity|]. etrans; [by apply step_tokens_le|done]. }
  unfold get_current_token, get_persisted_upto_position. rewrite !return_factor_twice.
  split; [apply Hle|]. intros w. by apply tokens_le_token.
Qed.

(** C19: _add_persisted_position moves the persisted position to the end of every gapless
    run of known positions; with nothing unfinished or in flight it also reaches the least
    position of the other writers, and the local token reaches the highest id seen. *)
Theorem current_token_catches_up {SS SL} `{SortedSet SS} `{SortedList SL}
    (g : MultiWriterIdGenerator SS SL) id :
  let g' := _add_persisted_position id g in
  (∀ n, (∀ x, _persisted_upto_position g < x ≤ n → x = id ∨ x ∈ _known_persisted_positions g) →
     n ≤ _persisted_upto_position g') ∧
  (busy g = false →
     _max_seen_allocated_stream_id g ≤ _max_position_of_local_instance g' ∧
     ∀ n, (∀ w p, w ≠ _instance_name g → _current_positions g !! w = Some p → n ≤ p) →
       (other_positions g = [] → n ≤ our_position g) → n ≤ _persisted_upto_position g').
Proof.
  destruct (add_persisted_spec id g) as (p & h & m & -> & H1 & _ & H3 & H4 & _ & ->).
  cbn in *. split.
  - intros n Hn. destruct (decide (n ≤ p)); [done|]. destruct (Hn (p + 1)); [lia|done..].
  - intros Hbusy. rewrite Hbusy. split; [lia|]. intros n Hn Hus.
    enough (n ≤ min_current g) by lia. unfold min_current. rewrite Hbusy, andb_false_r.
    destruct (min_of (other_positions g)) as [m|] eqn:Em; cbn.
    + apply min_of_Some in Em as [Hm _]. apply list_elem_of_fmap in Hm as ([w p'] & -> & Hm).
      apply list_elem_of_filter in Hm as [Hw Hm%elem_of_map_to_list]. by eapply Hn.
    + apply Hus. by destruct (other_positions g).
Qed.
