(* ===== verification/StreamTokens.v ===== *)
(** * Stream tokens: the token classes of [synapse/types/__init__.py]

    [RoomStreamToken], [MultiWriterStreamToken] (with their common base class)
    and [StreamToken]. An [immutabledict] is a finite map; where the code
    iterates over its items the order is an argument, as for any dict whose
    order does not matter. The names of the writers are stored as numbers by
    the database: [InstanceStore] is that interface. *)

From S2P Require Import Prelude PyJson RoomVersions PyStr.
From Stdlib Require Import Ascii.

(** [get_id_for_instance] and [get_name_from_instance_id] of the store. *)
Class InstanceStore := {
  get_id_for_instance : string → Z;
  get_name_from_instance_id : Z → res string
}.

(** ** [AbstractMultiWriterStreamToken] *)

Record MultiWriterStreamToken := { stream : Z; instance_map : StrMap Z }.

(** The constructor, with the check of [__attrs_post_init__]. *)
Definition mkToken (stream : Z) (instance_map : StrMap Z) : res MultiWriterStreamToken :=
  raise_if (existsb (λ kv, kv.2 <=? stream) (map_to_list instance_map)) ValueError;;
  Ok {| stream := stream; instance_map := instance_map |}.

Definition get_stream_pos_for_instance (t : MultiWriterStreamToken) (instance_name : string) : Z :=
  default (stream t) (instance_map t !! instance_name).

(** The instances either token has an entry for. *)
Definition instances (t t' : MultiWriterStreamToken) : StrSet :=
  dom (instance_map t) ∪ dom (instance_map t').

Definition copy_and_advance (self other : MultiWriterStreamToken) : res MultiWriterStreamToken :=
  let max_stream := Z.max (stream self) (stream other) in
  let instance_map : StrMap Z :=
    set_to_map (λ i, (i, Z.max (get_stream_pos_for_instance self i)
                               (get_stream_pos_for_instance other i))) (instances self other) in
  mkToken max_stream (filter (λ kv, max_stream < kv.2) instance_map).

Definition get_max_stream_pos (t : MultiWriterStreamToken) : Z :=
  match (map_to_list (instance_map t)).*2 with
  | [] => stream t
  | v :: vs => foldl Z.max v vs
  end.

Definition is_before_or_eq (self other_token : MultiWriterStreamToken) : bool :=
  if stream other_token <? stream self then false
  else forallb (λ i, negb (get_stream_pos_for_instance other_token i <?
                           get_stream_pos_for_instance self i))
         (elements (instances self other_token)).

Definition bound_stream_token (t : MultiWriterStreamToken) (max_stream : Z) :
    res MultiWriterStreamToken :=
  let min_pos := Z.min (stream t) max_stream in
  mkToken min_pos
    (filter (λ kv, min_pos < kv.2) ((λ s, Z.min s max_stream) <$> instance_map t)).

(** [is_stream_position_in_range] *)
Definition position_at (t : MultiWriterStreamToken) (instance_name : option string) : Z :=
  match instance_name with
  | Some n => if String.eqb n "" then stream t else get_stream_pos_for_instance t n
  | None => stream t
  end.

Definition is_stream_position_in_range (low high : option MultiWriterStreamToken)
    (instance_name : option string) (pos : Z) : bool :=
  match low with
  | Some low => negb (pos <=? position_at low instance_name)
  | None => true
  end &&
  match high with
  | Some high => negb (position_at high instance_name <? pos)
  | None => true
  end.

Section Text.
Context `{InstanceStore}.

(** [f"{instance_id}.{pos}"] for the writers ahead of [stream]. *)
Definition token_entries (stream : Z) (items : list (string * Z)) : list string :=
  map (λ kv, String.append (py_str_int (get_id_for_instance kv.1)) (String "." (py_str_int kv.2)))
    (filter (λ kv, ¬ kv.2 ≤ stream) items).

(** [f"m{self.stream}~{encoded_map}"], or [plain] without entries. *)
Definition encode_map (stream : Z) (items : list (string * Z)) (plain : string) : string :=
  match token_entries stream items with
  | [] => plain
  | entries => String "m" (String.append (py_str_int stream) (String "~" (str_join "~" entries)))
  end.

(** One [part] of the text of an instance map. *)
Definition parse_entry (instance_map : StrMap Z) (part : string) : res (StrMap Z) :=
  if String.eqb part "" then Ok instance_map
  else
    match str_split "." part with
    | [key; value] =>
        instance_id ← py_int_of_str key;
        pos ← py_int_of_str value;
        instance_name ← get_name_from_instance_id instance_id;
        Ok (<[instance_name := pos]> instance_map)
    | _ => Raise ValueError
    end.

(** The text after ["m"]. *)
Definition parse_map (s : string) : res (Z * StrMap Z) :=
  match str_split "~" s with
  | [] => Raise IndexError
  | first :: parts =>
      stream ← py_int_of_str first;
      m ← foldM parse_entry ∅ parts;
      Ok (stream, m)
  end.

(** [try: ... except Exception: ...] followed by the [SynapseError]. *)
Definition or_invalid {A} (msg : string) (m : res A) : res A :=
  catch m (λ _, Raise (SynapseError 400 msg Codes.UNKNOWN)).

(** ** [MultiWriterStreamToken] *)

Definition to_string (t : MultiWriterStreamToken) (items : list (string * Z)) : string :=
  encode_map (stream t) items (py_str_int (stream t)).

Definition parse (s : string) : res MultiWriterStreamToken :=
  or_invalid "Invalid stream token %r"
    (match s with
     | String c rest =>
         if digit_value c is Some _ then n ← py_int_of_str s; mkToken n ∅
         else if Ascii.eqb c "m" then '(n, m) ← parse_map rest; mkToken n m
         else Raise ValueError
     | EmptyString => Raise IndexError
     end).

(** ** [RoomStreamToken] *)

Record RoomStreamToken := { room_base : MultiWriterStreamToken; topological : option Z }.

(** [if self.topological]: zero counts as unset. *)
Definition topological_set (t : option Z) : bool :=
  match t with Some z => negb (z =? 0) | None => false end.

Definition mkRoomToken (topological : option Z) (stream : Z) (instance_map : StrMap Z) :
    res RoomStreamToken :=
  raise_if (negb (bool_decide (instance_map = ∅)) && topological_set topological) ValueError;;
  base ← mkToken stream instance_map;
  Ok {| room_base := base; topological := topological |}.

(** An unknown first character: the message [f"... {string:!r}"] is itself
    ill-formed, so building it raises [ValueError]. *)
Definition room_parse (s : string) : res RoomStreamToken :=
  match s with
  | EmptyString => Raise ValueError
  | String c rest =>
      if negb (Ascii.eqb c "s" || Ascii.eqb c "t" || Ascii.eqb c "m") then Raise ValueError
      else
        or_invalid "Invalid room stream token %r"
          (if Ascii.eqb c "s" then n ← py_int_of_str rest; mkRoomToken None n ∅
           else if Ascii.eqb c "t" then
             match str_split1 "-" rest with
             | Some (a, b) =>
                 t ← py_int_of_str a;
                 n ← py_int_of_str b;
                 mkRoomToken (Some t) n ∅
             | None => t ← py_int_of_str rest; Raise IndexError
             end
           else '(n, m) ← parse_map rest; mkRoomToken None n m)
  end.

Definition parse_stream_token (s : string) : res RoomStreamToken :=
  or_invalid "Invalid room stream token %r"
    (match s with
     | String c rest =>
         if Ascii.eqb c "s" then n ← py_int_of_str rest; mkRoomToken None n ∅
         else Raise ValueError
     | EmptyString => Raise IndexError
     end).

Definition room_to_string (t : RoomStreamToken) (items : list (string * Z)) : string :=
  match topological t with
  | Some top =>
      String "t" (String.append (py_str_int top) (String "-" (py_str_int (stream (room_base t)))))
  | None => encode_map (stream (room_base t)) items (String "s" (py_str_int (stream (room_base t))))
  end.

Definition room_copy_and_advance (self other : RoomStreamToken) : res RoomStreamToken :=
  raise_if (topological_set (topological self) || topological_set (topological other))
    (PlainException "Can't advance topological tokens");;
  base ← copy_and_advance (room_base self) (room_base other);
  mkRoomToken (topological self) (stream base) (instance_map base).

Definition as_historical_tuple (t : RoomStreamToken) : res (Z * Z) :=
  match topological t with
  | Some top => Ok (top, stream (room_base t))
  | None =>
      Raise (PlainException "Cannot call `RoomStreamToken.as_historical_tuple` on live token")
  end.

Definition room_get_stream_pos_for_instance (t : RoomStreamToken) (instance_name : string) : res Z :=
  match topological t with
  | None => Ok (get_stream_pos_for_instance (room_base t) instance_name)
  | Some _ => Raise AssertionError
  end.

(** [type(self)(stream=..., instance_map=...)] leaves [topological] unset. *)
Definition room_bound_stream_token (t : RoomStreamToken) (max_stream : Z) : res RoomStreamToken :=
  match topological t with
  | None =>
      base ← bound_stream_token (room_base t) max_stream;
      mkRoomToken None (stream base) (instance_map base)
  | Some _ => Raise AssertionError
  end.

(** ** [StreamToken] *)

Inductive StreamKeyType :=
  | ROOM | PRESENCE | TYPING | RECEIPT | ACCOUNT_DATA | PUSH_RULES | TO_DEVICE | DEVICE_LIST
  | UN_PARTIAL_STATED_ROOMS.

Record StreamToken := {
  room_key : RoomStreamToken;
  presence_key : Z;
  typing_key : Z;
  receipt_key : MultiWriterStreamToken;
  account_data_key : Z;
  push_rules_key : Z;
  to_device_key : Z;
  device_list_key : Z;
  groups_key : Z;
  un_partial_stated_rooms_key : Z
}.

(** [while len(keys) < len(attr.fields(cls)): keys.append("0")] *)
Definition pad_keys (keys : list string) : list string := keys ++ repeat "0" (10 - length keys).

Definition stream_from_string (s : string) : res StreamToken :=
  or_invalid "Invalid stream token"
    (match pad_keys (str_split "_" s) with
     | [room; presence; typing; receipt; account_data; push_rules; to_device; device_list;
        groups; un_partial] =>
         room ← room_parse room;
         presence ← py_int_of_str presence;
         typing ← py_int_of_str typing;
         receipt ← parse receipt;
         account_data ← py_int_of_str account_data;
         push_rules ← py_int_of_str push_rules;
         to_device ← py_int_of_str to_device;
         device_list ← py_int_of_str device_list;
         groups ← py_int_of_str groups;
         un_partial ← py_int_of_str un_partial;
         Ok {| room_key := room; presence_key := presence; typing_key := typing;
               receipt_key := receipt; account_data_key := account_data;
               push_rules_key := push_rules; to_device_key := to_device;
               device_list_key := device_list; groups_key := groups;
               un_partial_stated_rooms_key := un_partial |}
     | _ => Raise ValueError
     end).

Definition stream_to_string (t : StreamToken) (room_items receipt_items : list (string * Z)) :
    string :=
  str_join "_"
    [room_to_string (room_key t) room_items; py_str_int (presence_key t);
     py_str_int (typing_key t); to_string (receipt_key t) receipt_items;
     py_str_int (account_data_key t); py_str_int (push_rules_key t);
     py_str_int (to_device_key t); py_str_int (device_list_key t); py_str_int (groups_key t);
     py_str_int (un_partial_stated_rooms_key t)].

(** What a key names: an integer or one of the two kinds of tokens. *)
Inductive key_value :=
  | IntKey (z : Z)
  | RoomKey (t : RoomStreamToken)
  | MultiKey (t : MultiWriterStreamToken).

Definition get_field (t : StreamToken) (key : StreamKeyType) : key_value :=
  match key with
  | ROOM => RoomKey (room_key t)
  | PRESENCE => IntKey (presence_key t)
  | TYPING => IntKey (typing_key t)
  | RECEIPT => MultiKey (receipt_key t)
  | ACCOUNT_DATA => IntKey (account_data_key t)
  | PUSH_RULES => IntKey (push_rules_key t)
  | TO_DEVICE => IntKey (to_device_key t)
  | DEVICE_LIST => IntKey (device_list_key t)
  | UN_PARTIAL_STATED_ROOMS => IntKey (un_partial_stated_rooms_key t)
  end.

(** [attr.evolve(self, **{key.value: new_value})], whose validators accept
    tokens of the right class for the two token fields. *)
Definition copy_and_replace (t : StreamToken) (key : StreamKeyType) (new_value : key_value) :
    res StreamToken :=
  let '(Build_StreamToken room presence typing receipt account push device list groups un) := t in
  match key, new_value with
  | ROOM, RoomKey v => Ok (Build_StreamToken v presence typing receipt account push device list groups un)
  | RECEIPT, MultiKey v => Ok (Build_StreamToken room presence typing v account push device list groups un)
  | PRESENCE, IntKey v => Ok (Build_StreamToken room v typing receipt account push device list groups un)
  | TYPING, IntKey v => Ok (Build_StreamToken room presence v receipt account push device list groups un)
  | ACCOUNT_DATA, IntKey v => Ok (Build_StreamToken room presence typing receipt v push device list groups un)
  | PUSH_RULES, IntKey v => Ok (Build_StreamToken room presence typing receipt account v device list groups un)
  | TO_DEVICE, IntKey v => Ok (Build_StreamToken room presence typing receipt account push v list groups un)
  | DEVICE_LIST, IntKey v => Ok (Build_StreamToken room presence typing receipt account push device v groups un)
  | UN_PARTIAL_STATED_ROOMS, IntKey v =>
      Ok (Build_StreamToken room presence typing receipt account push device list groups v)
  | _, _ => Raise TypeError
  end.

Definition stream_copy_and_advance (t : StreamToken) (key : StreamKeyType) (new_value : key_value) :
    res StreamToken :=
  match key, new_value with
  | ROOM, RoomKey v => r ← room_copy_and_advance (room_key t) v; copy_and_replace t ROOM (RoomKey r)
  | RECEIPT, MultiKey v =>
      r ← copy_and_advance (receipt_key t) v; copy_and_replace t RECEIPT (MultiKey r)
  | ROOM, _ | RECEIPT, _ => Raise (AttributeError "stream")
  | _, IntKey new_id =>
      new_token ← copy_and_replace t key new_value;
      match get_field t key with
      | IntKey old_id => if old_id <? new_id then Ok new_token else Ok t
      | _ => Raise TypeError
      end
  | _, _ => Raise TypeError
  end.

(** The keys in the order of [StreamKeyType.__members__]. *)
Definition stream_keys : list StreamKeyType :=
  [ROOM; PRESENCE; TYPING; RECEIPT; ACCOUNT_DATA; PUSH_RULES; TO_DEVICE; DEVICE_LIST;
   UN_PARTIAL_STATED_ROOMS].

Definition key_before_or_eq (self other_token : StreamToken) (key : StreamKeyType) : bool :=
  match key with
  | TYPING => true
  | _ =>
      match get_field self key, get_field other_token key with
      | RoomKey a, RoomKey b => is_before_or_eq (room_base a) (room_base b)
      | MultiKey a, MultiKey b => is_before_or_eq a b
      | IntKey a, IntKey b => negb (b <? a)
      | _, _ => false
      end
  end.

Definition stream_is_before_or_eq (self other_token : StreamToken) : bool :=
  forallb (key_before_or_eq self other_token) stream_keys.
End Text.

(** [StreamToken.START] *)
Definition START : StreamToken :=
  let zero := {| stream := 0; instance_map := ∅ |} in
  {| room_key := {| room_base := zero; topological := None |}; presence_key := 0; typing_key := 0;
     receipt_key := zero; account_data_key := 0; push_rules_key := 0; to_device_key := 0;
     device_list_key := 0; groups_key := 0; un_partial_stated_rooms_key := 0 |}.

(** ** [SlidingSyncStreamToken] *)

Record SlidingSyncStreamToken := { stream_token : StreamToken; connection_position : Z }.

Definition sliding_from_string `{InstanceStore} (s : string) : res SlidingSyncStreamToken :=
  or_invalid "Invalid stream token"
    (match str_split1 "/" s with
     | Some (connection_position_str, stream_token_str) =>
         connection_position ← py_int_of_str connection_position_str;
         stream_token ← stream_from_string stream_token_str;
         Ok {| stream_token := stream_token; connection_position := connection_position |}
     | None => Raise ValueError
     end).

Definition sliding_to_string `{InstanceStore} (t : SlidingSyncStreamToken)
    (room_items receipt_items : list (string * Z)) : string :=
  String.append (py_str_int (connection_position t))
    (String "/" (stream_to_string (stream_token t) room_items receipt_items)).

(** ** [PersistedPosition] and [PersistedEventPosition] *)

Record PersistedPosition := { instance_name : string; position : Z }.

Definition persisted_after (p : PersistedPosition) (token : MultiWriterStreamToken) : bool :=
  get_stream_pos_for_instance token (instance_name p) <? position p.

Definition to_room_stream_token (p : PersistedPosition) : res RoomStreamToken :=
  mkRoomToken None (position p) ∅.
