(* ===== verification/StreamTokensProps.v ===== *)
(** * Stream tokens: order, advancing and the text form

    A token stands for the vector of the positions of all writers. Comparison
    is the pointwise order of the vectors, advancing is their least upper
    bound, and a token reads back from its text. *)

From S2P Require Import Prelude PyJson RoomVersions PyStr StreamTokens.
From Stdlib Require Import Ascii.

(** ** Positions *)

(** What the constructor checks: entries are ahead of the stream. *)
Definition valid (t : MultiWriterStreamToken) : Prop :=
  ∀ i p, instance_map t !! i = Some p → stream t < p.

Lemma mkToken_Ok n m t :
  mkToken n m = Ok t ↔ t = {| stream := n; instance_map := m |} ∧ valid t.
Proof.
  unfold mkToken. rewrite bind_Ok. setoid_rewrite raise_if_Ok. split.
  - intros (_ & Hex & [= <-]). split; [done|]. intros i p Hp. cbn in *.
    destruct (Z.leb_spec p n) as [Hle|]; [|done]. exfalso.
    rewrite <-not_true_iff_false, existsb_exists in Hex. apply Hex. exists (i, p). split; [|cbn; lia].
    by apply list_elem_of_In, elem_of_map_to_list.
  - intros [-> Hv]. exists tt. split; [|done]. apply not_true_iff_false. rewrite existsb_exists.
    intros ([i p] & Hin%list_elem_of_In%elem_of_map_to_list & Hle). apply Hv in Hin. cbn in *. lia.
Qed.

Lemma pos_ge t i : valid t → stream t ≤ get_stream_pos_for_instance t i.
Proof.
  intros Hv. unfold get_stream_pos_for_instance. destruct (_ !! _) eqn:E; cbn; [|lia].
  apply Hv in E. lia.
Qed.

Lemma pos_outside t i : i ∉ dom (instance_map t) → get_stream_pos_for_instance t i = stream t.
Proof. intros Hi%not_elem_of_dom. unfold get_stream_pos_for_instance. by rewrite Hi. Qed.

(** Two tokens with the same positions are the same. *)
Lemma token_ext t t' :
  valid t → valid t' → stream t = stream t' →
  (∀ i, get_stream_pos_for_instance t i = get_stream_pos_for_instance t' i) → t = t'.
Proof.
  destruct t as [n m], t' as [n' m']. unfold valid, get_stream_pos_for_instance. cbn.
  intros Hv Hv' <- Hpos. f_equal. apply map_eq. intros i. specialize (Hpos i).
  specialize (Hv i). specialize (Hv' i). destruct (m !! i) as [p|], (m' !! i) as [p'|]; cbn in *; auto.
  - congruence.
  - specialize (Hv p eq_refl). lia.
  - specialize (Hv' p' eq_refl). lia.
Qed.

Lemma before_iff t t' :
  is_before_or_eq t t' = true ↔
  stream t ≤ stream t' ∧
  ∀ i, get_stream_pos_for_instance t i ≤ get_stream_pos_for_instance t' i.
Proof.
  unfold is_before_or_eq. destruct (Z.ltb_spec (stream t') (stream t)); [split; [done|lia]|].
  rewrite forallb_forall. split.
  - intros Hall. split; [done|]. intros i. destruct (decide (i ∈ instances t t')) as [Hi|Hi].
    + specialize (Hall i). rewrite negb_true_iff, Z.ltb_ge in Hall.
      by apply Hall, list_elem_of_In, elem_of_elements.
    + unfold instances in Hi. apply not_elem_of_union in Hi as [Hi Hi']. by rewrite !pos_outside.
  - intros [_ Hall] i _. rewrite negb_true_iff, Z.ltb_ge. apply Hall.
Qed.

Lemma advance_spec a b :
  valid a → valid b →
  ∃ c, copy_and_advance a b = Ok c ∧ valid c ∧ stream c = Z.max (stream a) (stream b) ∧
    ∀ i, get_stream_pos_for_instance c i =
         Z.max (get_stream_pos_for_instance a i) (get_stream_pos_for_instance b i).
Proof.
  intros Ha Hb. unfold copy_and_advance.
  set (n := Z.max (stream a) (stream b)).
  set (f := λ i, Z.max (get_stream_pos_for_instance a i) (get_stream_pos_for_instance b i)).
  set (m := set_to_map (λ i, (i, f i)) (instances a b) : StrMap Z).
  assert (∀ i, m !! i = if decide (i ∈ instances a b) then Some (f i) else None) as Hm.
  { intros i. unfold m. case_decide as Hi.
    - apply lookup_set_to_map; [naive_solver|]. by exists i.
    - apply eq_None_not_Some. intros [p Hp]. apply lookup_set_to_map in Hp; naive_solver. }
  set (c := {| stream := n; instance_map := filter (λ kv, n < kv.2) m |}).
  assert (valid c) as Hv.
  { intros i p. cbn. rewrite map_lookup_filter_Some. by intros [_ ?]. }
  exists c. split; [by apply mkToken_Ok|]. split; [done|]. split; [done|]. intros i.
  assert (n ≤ f i) as Hle.
  { unfold n, f. pose proof (pos_ge a i Ha). pose proof (pos_ge b i Hb). lia. }
  change (get_stream_pos_for_instance c i = f i).
  unfold get_stream_pos_for_instance. cbn. rewrite map_lookup_filter, Hm.
  destruct (decide (i ∈ instances a b)) as [Hi|Hi]; cbn.
  - case_guard; cbn; [done|lia].
  - unfold instances in Hi. apply not_elem_of_union in Hi as [Hi Hi']. unfold f. by rewrite !pos_outside.
Qed.

Lemma bound_spec t n :
  valid t → ∃ c, bound_stream_token t n = Ok c ∧ valid c ∧ stream c = Z.min (stream t) n ∧
    ∀ i, get_stream_pos_for_instance c i = Z.min (get_stream_pos_for_instance t i) n.
Proof.
  intros Ht. unfold bound_stream_token.
  set (c := {| stream := Z.min (stream t) n; instance_map :=
    filter (λ kv, Z.min (stream t) n < kv.2) ((λ s, Z.min s n) <$> instance_map t) |}).
  assert (valid c) as Hv.
  { intros i p. cbn. rewrite map_lookup_filter_Some. by intros [_ ?]. }
  exists c. split; [by apply mkToken_Ok|]. split; [done|]. split; [done|].
  - intros i. pose proof (pos_ge t i Ht) as Hge. unfold get_stream_pos_for_instance in *. cbn.
    rewrite map_lookup_filter, lookup_fmap. destruct (_ !! i) as [p|] eqn:E; cbn in *; [|done].
    case_guard; cbn; lia.
Qed.

(** C20: A multi-writer token stands for the vector of all writers' positions:
    is_before_or_eq is the pointwise order of the vectors, antisymmetric on tokens, and
    copy_and_advance succeeds and is the least upper bound. *)
Theorem token_order_lattice a b :
  valid a → valid b →
  (is_before_or_eq a b = true ↔
     stream a ≤ stream b ∧
     ∀ i, get_stream_pos_for_instance a i ≤ get_stream_pos_for_instance b i) ∧
  (is_before_or_eq a b = true → is_before_or_eq b a = true → a = b) ∧
  ∃ c, copy_and_advance a b = Ok c ∧ valid c ∧
    is_before_or_eq a c = true ∧ is_before_or_eq b c = true ∧
    ∀ d, is_before_or_eq a d = true → is_before_or_eq b d = true → is_before_or_eq c d = true.
Proof.
  intros Ha Hb. split; [apply before_iff|]. split.
  - rewrite !before_iff. intros [H1 H2] [H3 H4]. apply token_ext; [done..|lia|].
    intros i. specialize (H2 i). specialize (H4 i). lia.
  - destruct (advance_spec a b Ha Hb) as (c & Hc & Hv & Hs & Hp). exists c.
    setoid_rewrite before_iff. split_and!; [done|done|lia| |lia| |].
    + intros i. rewrite Hp. lia.
    + intros i. rewrite Hp. lia.
    + intros d [H1 H2] [H3 H4]. split; [lia|]. intros i. rewrite Hp. specialize (H2 i).
      specialize (H4 i). lia.
Qed.

(** ** Advancing a [StreamToken] *)

#[global] Instance StreamKeyType_eq_dec : EqDecision StreamKeyType.
Proof. solve_decision. Defined.

Record stream_valid (t : StreamToken) : Prop := {
  sv_room : valid (room_base (room_key t));
  sv_receipt : valid (receipt_key t)
}.

Definition value_valid (v : key_value) : Prop :=
  match v with IntKey _ => True | RoomKey t => valid (room_base t) | MultiKey t => valid t end.

Lemma before_refl t : is_before_or_eq t t = true.
Proof. apply before_iff. split; [lia|]. intros; lia. Qed.

Lemma key_before_same t t' k : get_field t' k = get_field t k → key_before_or_eq t t' k = true.
Proof.
  unfold key_before_or_eq. intros ->. destruct k; cbn; rewrite ?before_refl, ?Z.ltb_irrefl; done.
Qed.

Lemma stream_before_iff t t' :
  stream_is_before_or_eq t t' = true ↔ ∀ k, key_before_or_eq t t' k = true.
Proof.
  unfold stream_is_before_or_eq. rewrite forallb_forall. split; [|auto]. intros H k. apply H.
  destruct k; cbn; tauto.
Qed.

Lemma replace_field t key v t' :
  copy_and_replace t key v = Ok t' →
  get_field t' key = v ∧ ∀ k, k ≠ key → get_field t' k = get_field t k.
Proof.
  destruct t. destruct key, v; cbn; intros [= <-]; (split; [done|]); by intros [].
Qed.

Lemma stream_valid_iff t : stream_valid t ↔ ∀ k, value_valid (get_field t k).
Proof.
  split; [intros [? ?] []; done|]. intros H. split; [apply (H ROOM)|apply (H RECEIPT)].
Qed.

Lemma mkRoomToken_Ok top n m t :
  mkRoomToken top n m = Ok t →
  t = {| room_base := {| stream := n; instance_map := m |}; topological := top |} ∧
  valid (room_base t).
Proof.
  unfold mkRoomToken. rewrite bind_Ok. intros (_ & _ & H). apply bind_Ok in H as (b & Hb & [= <-]).
  apply mkToken_Ok in Hb as [-> ?]. done.
Qed.

Lemma before_after_advance a b c :
  valid a → valid b → copy_and_advance a b = Ok c → is_before_or_eq a c = true.
Proof.
  intros Ha Hb Hc. destruct (advance_spec a b Ha Hb) as (c' & Hc' & _ & Hs & Hp).
  rewrite Hc in Hc'. simplify_eq. apply before_iff. split; [lia|]. intros i. rewrite Hp. lia.
Qed.

(** The part of [v'] that a key compares is not before that of [v]. *)
Definition value_le (v v' : key_value) : Prop :=
  match v, v' with
  | RoomKey a, RoomKey b => is_before_or_eq (room_base a) (room_base b) = true
  | MultiKey a, MultiKey b => is_before_or_eq a b = true
  | IntKey a, IntKey b => a ≤ b
  | _, _ => False
  end.

Lemma key_before_le t t' k :
  value_le (get_field t k) (get_field t' k) → key_before_or_eq t t' k = true.
Proof. destruct k; cbn; try done; intros ?; apply negb_true_iff; lia. Qed.

Lemma stream_advance_cases t key v t' :
  stream_valid t → value_valid v → stream_copy_and_advance t key v = Ok t' →
  t' = t ∨ ∃ w, copy_and_replace t key w = Ok t' ∧ value_valid w ∧ value_le (get_field t key) w.
Proof.
  intros [Hr Hm] Hv H. destruct key, v as [z|r|m]; cbn [stream_copy_and_advance] in *; try done.
  1: { apply bind_Ok in H as (r' & Hr' & H). right. exists (RoomKey r'). split; [done|].
    unfold room_copy_and_advance in Hr'. apply bind_Ok in Hr' as (_ & _ & Hr').
    apply bind_Ok in Hr' as (b & Hb & Hr'). pose proof (before_after_advance _ _ _ Hr Hv Hb).
    apply mkRoomToken_Ok in Hr' as [-> Hv']. by destruct b. }
  3: { apply bind_Ok in H as (r' & Hr' & H). right. exists (MultiKey r'). split; [done|].
    destruct (advance_spec _ _ Hm Hv) as (c & Hc & Hvc & _). rewrite Hr' in Hc. injection Hc as <-.
    split; [done|].
    by apply (before_after_advance (receipt_key t) m). }
  all: apply bind_Ok in H as (t1 & Ht1 & H); cbn [get_field] in H; case_match; simplify_eq; [right|by left];
    exists (IntKey z); split; [done|]; split; [done|]; cbn; lia.
Qed.

(** StreamToken.copy_and_advance never moves a token back, keeps it well formed, and
    changes only the key it was given. *)
Theorem stream_advance_forward t key v t' :
  stream_valid t → value_valid v → stream_copy_and_advance t key v = Ok t' →
  stream_is_before_or_eq t t' = true ∧ stream_valid t' ∧
  ∀ k, k ≠ key → get_field t' k = get_field t k.
Proof.
  intros Ht Hv H. destruct (stream_advance_cases t key v t' Ht Hv H) as [->|(w & Hw & Hwv & Hle)].
  { split_and!; [|done..]. apply stream_before_iff. intros k. by apply key_before_same. }
  apply replace_field in Hw as [Hf Ho]. split_and!; [| |done].
  - apply stream_before_iff. intros k. destruct (decide (k = key)) as [->|]; [|by apply key_before_same, Ho].
    apply key_before_le. by rewrite Hf.
  - apply stream_valid_iff. intros k. destruct (decide (k = key)) as [->|]; [by rewrite Hf|].
    rewrite Ho by done. by apply stream_valid_iff.
Qed.

(** ** The text form *)

Section Text.
Context `{Store : InstanceStore}.

(** A name reads back from its number. *)
Context (names : ∀ n, get_name_from_instance_id (get_id_for_instance n) = Ok n).

Definition insert_item (m : StrMap Z) (kv : string * Z) : StrMap Z := <[kv.1 := kv.2]> m.

Definition entry_text (kv : string * Z) : string :=
  String.append (py_str_int (get_id_for_instance kv.1)) (String "." (py_str_int kv.2)).

Lemma parse_entry_text m kv : parse_entry m (entry_text kv) = Ok (insert_item m kv).
Proof.
  unfold parse_entry, entry_text. destruct (String.eqb_spec (String.append
    (py_str_int (get_id_for_instance kv.1)) (String "." (py_str_int kv.2))) "") as [E|_].
  { apply (f_equal str_chars) in E. rewrite str_chars_append in E. cbn in E. by destruct (str_chars _). }
  rewrite str_split_append by (by apply py_str_int_none).
  rewrite str_split_none by (by apply py_str_int_none).
  rewrite !int_of_str_int. cbn. by rewrite names.
Qed.

Lemma parse_entries m items :
  foldM parse_entry m (map entry_text items) = Ok (foldl insert_item m items).
Proof.
  revert m. induction items as [|kv items IH]; intros m; cbn [map foldM foldl]; [done|].
  rewrite parse_entry_text. cbn. apply IH.
Qed.

Lemma insert_items m items :
  items ≡ₚ map_to_list m → foldl insert_item ∅ items = m.
Proof.
  intros Hp. transitivity (list_to_map (reverse items) : StrMap Z).
  - clear Hp. induction items as [|kv items IH] using rev_ind; [done|].
    rewrite foldl_app, reverse_app. cbn. by rewrite IH.
  - rewrite <-(list_to_map_to_list m). apply list_to_map_proper.
    + rewrite reverse_Permutation, Hp. apply NoDup_fst_map_to_list.
    + by rewrite reverse_Permutation, Hp.
Qed.

Lemma list_filter_all {A} (P : A → Prop) `{∀ x, Decision (P x)} (l : list A) :
  (∀ x, x ∈ l → P x) → filter P l = l.
Proof.
  induction l as [|x l IH]; [done|]. intros HP. rewrite filter_cons_True by (apply HP; by left).
  f_equal. apply IH. intros y Hy. apply HP. by right.
Qed.

(** All the entries of a valid token are written. *)
Lemma token_entries_all t items :
  valid t → items ≡ₚ map_to_list (instance_map t) →
  token_entries (stream t) items = map entry_text items.
Proof.
  intros Hv Hp. unfold token_entries. rewrite list_filter_all; [done|].
  intros [i p] Hin. rewrite Hp, elem_of_map_to_list in Hin. apply Hv in Hin. cbn. lia.
Qed.

(** [~] and [_] separate: no part has them. *)
Lemma entry_text_none f kv :
  f "-"%char = false → f "."%char = false →
  forallb (λ d, negb (f (digit_char d))) [0; 1; 2; 3; 4; 5; 6; 7; 8; 9] = true →
  none_of f (entry_text kv).
Proof.
  intros H1 H2 H3. apply none_of_append. split; [by apply py_str_int_none|].
  apply none_of_cons. split; [done|by apply py_str_int_none].
Qed.

Lemma parse_map_text t items :
  valid t → items ≡ₚ map_to_list (instance_map t) → items ≠ [] →
  parse_map (String.append (py_str_int (stream t))
    (String "~" (str_join "~" (map entry_text items)))) = Ok (stream t, instance_map t).
Proof.
  intros Hv Hp Hne. unfold parse_map. rewrite str_split_append by (by apply py_str_int_none).
  rewrite str_split_join; [| |].
  - rewrite int_of_str_int. cbn [mbind res_bind]. rewrite parse_entries. cbn. by rewrite (insert_items (instance_map t) items Hp).
  - by destruct items.
  - apply Forall_fmap, Forall_true. intros kv. by apply entry_text_none.
Qed.

Lemma encode_map_cases t items plain :
  valid t → items ≡ₚ map_to_list (instance_map t) →
  (instance_map t = ∅ ∧ encode_map (stream t) items plain = plain) ∨
  (items ≠ [] ∧ encode_map (stream t) items plain =
    String "m" (String.append (py_str_int (stream t))
      (String "~" (str_join "~" (map entry_text items))))).
Proof.
  intros Hv Hp. unfold encode_map. rewrite token_entries_all by done.
  destruct items as [|kv items]; [left|by right]. split; [|done].
  apply Permutation_nil_l in Hp. by apply map_to_list_empty_iff.
Qed.

Lemma valid_eta t : valid t → mkToken (stream t) (instance_map t) = Ok t.
Proof. intros Hv. apply mkToken_Ok. by destruct t. Qed.

(** The first character of the text of a natural number. *)
Lemma nat_text_head n : 0 ≤ n → ∃ c s, py_str_int n = String c s ∧ is_Some (digit_value c).
Proof.
  intros Hn. pose proof (int_of_str_int n) as Hi.
  pose proof (nat_digits_none (λ c, negb (bool_decide (is_Some (digit_value c)))) n eq_refl) as Hd.
  unfold py_str_int in *. destruct (Z.ltb_spec n 0); [lia|].
  destruct (nat_digits n) as [|c s]; [done|]. exists c, s. split; [done|].
  apply none_of_cons in Hd as [Hd _]. by apply negb_false_iff, bool_decide_eq_true in Hd.
Qed.

Lemma multi_roundtrip t items :
  valid t → items ≡ₚ map_to_list (instance_map t) → 0 ≤ stream t →
  parse (to_string t items) = Ok t.
Proof.
  intros Hv Hp Hs. unfold to_string.
  destruct (encode_map_cases t items (py_str_int (stream t)) Hv Hp) as [[Hm ->]|[Hne ->]].
  - destruct (nat_text_head (stream t) Hs) as (c & s & E & [d Hd]).
    unfold parse. rewrite E, Hd, <-E, int_of_str_int. cbn. rewrite <-Hm, valid_eta by done. done.
  - unfold parse. cbn [digit_value]. rewrite (parse_map_text t) by done. cbn. by rewrite valid_eta.
Qed.

(** What can be written as the text of a [RoomStreamToken]. *)
Record room_printable (t : RoomStreamToken) : Prop := {
  rp_valid : valid (room_base t);
  rp_topological : ∀ top, topological t = Some top → 0 ≤ top ∧ instance_map (room_base t) = ∅
}.

Lemma mkRoomToken_eta t :
  valid (room_base t) → (∀ top, topological t = Some top → instance_map (room_base t) = ∅) →
  mkRoomToken (topological t) (stream (room_base t)) (instance_map (room_base t)) = Ok t.
Proof.
  intros Hv Ht. unfold mkRoomToken. rewrite valid_eta by done. destruct t as [b [top|]]; cbn in *.
  - rewrite (Ht top eq_refl). by rewrite bool_decide_eq_true_2.
  - by rewrite andb_false_r.
Qed.

Lemma room_roundtrip t items :
  room_printable t → items ≡ₚ map_to_list (instance_map (room_base t)) →
  room_parse (room_to_string t items) = Ok t.
Proof.
  intros [Hv Ht] Hp. pose proof (mkRoomToken_eta t Hv (λ top E, proj2 (Ht top E))) as Heta.
  unfold room_to_string. destruct (topological t) as [top|] eqn:E.
  - destruct (Ht top eq_refl) as [Htop Hm]. rewrite Hm in Heta. unfold room_parse. cbn [negb orb Ascii.eqb].
    cbn. rewrite str_split1_append.
    + rewrite !int_of_str_int. cbn. by rewrite Heta.
    + unfold py_str_int. destruct (Z.ltb_spec top 0); [lia|]. by apply nat_digits_none.
  - destruct (encode_map_cases (room_base t) items (String "s" (py_str_int (stream (room_base t)))) Hv Hp)
      as [[Hm ->]|[Hne ->]]; unfold room_parse; cbn [negb orb Ascii.eqb Bool.eqb].
    + rewrite Hm in Heta. cbn. rewrite int_of_str_int. cbn. by rewrite Heta.
    + cbn. rewrite (parse_map_text (room_base t)) by done. cbn. by rewrite Heta.
Qed.

(** No text of a token has an underscore. *)
Lemma encode_map_none f n items plain :
  f "-"%char = false → f "."%char = false → f "m"%char = false → f "~"%char = false →
  forallb (λ d, negb (f (digit_char d))) [0; 1; 2; 3; 4; 5; 6; 7; 8; 9] = true →
  none_of f plain → none_of f (encode_map n items plain).
Proof.
  intros H1 H2 H3 H4 H5 Hp. unfold encode_map.
  destruct (token_entries n items) as [|e es] eqn:E; [done|]. rewrite <-E.
  rewrite none_of_cons, none_of_append, none_of_cons. split_and!; [done|by apply py_str_int_none|done|].
  assert (Forall (none_of f) (token_entries n items)) as Hall.
  { apply Forall_fmap, Forall_true. intros kv. by apply entry_text_none. }
  clear E. induction Hall as [|x l Hx Hl IH]; [apply none_of_nil|]. destruct l as [|y l]; [done|].
  cbn [str_join]. apply none_of_append. split; [done|]. by apply none_of_cons.
Qed.

Lemma stream_roundtrip t room_items receipt_items :
  room_printable (room_key t) → valid (receipt_key t) → 0 ≤ stream (receipt_key t) →
  room_items ≡ₚ map_to_list (instance_map (room_base (room_key t))) →
  receipt_items ≡ₚ map_to_list (instance_map (receipt_key t)) →
  stream_from_string (stream_to_string t room_items receipt_items) = Ok t.
Proof.
  intros Hr Hm Hs Hri Hmi. unfold stream_from_string, stream_to_string.
  rewrite str_split_join; [|done|].
  - cbn [pad_keys length app repeat Nat.sub]. rewrite room_roundtrip by done.
    rewrite multi_roundtrip by done. rewrite !int_of_str_int. by destruct t.
  - repeat constructor; try (by apply py_str_int_none).
    + unfold room_to_string. destruct (topological _).
      * rewrite none_of_cons, none_of_append, none_of_cons.
        split_and!; [done|by apply py_str_int_none|done|by apply py_str_int_none].
      * apply encode_map_none; try done. apply none_of_cons. split; [done|by apply py_str_int_none].
    + apply encode_map_none; try done. by apply py_str_int_none.
Qed.
End Text.

(** The text of a room token, a multi-writer token, a stream token and a sliding sync
    token parses back to the same token, in whatever order the writers' entries are written,
    when the store reads back the names it numbers. *)
Theorem stream_token_roundtrip `{InstanceStore} t room_items receipt_items :
  (∀ n, get_name_from_instance_id (get_id_for_instance n) = Ok n) →
  room_printable (room_key t) → valid (receipt_key t) → 0 ≤ stream (receipt_key t) →
  room_items ≡ₚ map_to_list (instance_map (room_base (room_key t))) →
  receipt_items ≡ₚ map_to_list (instance_map (receipt_key t)) →
  room_parse (room_to_string (room_key t) room_items) = Ok (room_key t) ∧
  parse (to_string (receipt_key t) receipt_items) = Ok (receipt_key t) ∧
  stream_from_string (stream_to_string t room_items receipt_items) = Ok t ∧
  ∀ n, sliding_from_string
         (sliding_to_string {| stream_token := t; connection_position := n |} room_items receipt_items) =
       Ok {| stream_token := t; connection_position := n |}.
Proof.
  intros Hn Hr Hm Hs Hri Hmi.
  split_and!; [by apply room_roundtrip|by apply multi_roundtrip|by apply stream_roundtrip|].
  intros n. unfold sliding_from_string, sliding_to_string. cbn [stream_token connection_position].
  rewrite str_split1_append by (by apply py_str_int_none). by rewrite int_of_str_int, stream_roundtrip.
Qed.

(** A position is after the join of two tokens when it is after both. *)
Theorem persisted_after_spec a b p :
  valid a → valid b → is_before_or_eq a b = true →
  (persisted_after p b = true → persisted_after p a = true) ∧
  ∃ c, copy_and_advance a b = Ok c ∧
    (persisted_after p c = true ↔ persisted_after p a = true ∧ persisted_after p b = true).
Proof.
  intros Ha Hb Hab. destruct (advance_spec a b Ha Hb) as (c & Hc & _ & _ & Hp).
  apply before_iff in Hab as [_ Hab]. specialize (Hab (instance_name p)). specialize (Hp (instance_name p)).
  unfold persisted_after. split; [|exists c; split; [done|]; rewrite Hp]; lia.
Qed.
