(* ===== verification/EventUtils.v ===== *)
(** * Event dicts: [synapse/events/utils.py]

    Redaction of an event's dict, selection of fields for clients, the checks
    and conversions of event contents. An event dict is a [jobj]; where the
    code indexes a value the dict may hold with any type, so does the model,
    and the exceptions Python raises are values of [res]. *)

From S2P Require Import Prelude PyJson PyDict PyStr RoomVersions Event.
From Stdlib Require Import Ascii.

(** ** Redaction *)

Definition allowed_keys (room_version : RoomVersion) : list string :=
  ["event_id"; "sender"; "room_id"; "hashes"; "signatures"; "content"; "type"; "state_key";
   "depth"; "prev_events"; "auth_events"; "origin_server_ts"]
  ++ (if updated_redaction_rules room_version then [] else ["prev_state"; "membership"; "origin"]).

(** One iteration of [add_fields]: [event_dict["content"]] is read again for
    each field, and may be anything that has [in]. *)
Definition add_field (event_dict new_content : jobj) (field : string) : res jobj :=
  c ← obj_getitem "content" event_dict;
  present ← py_in (JStr field) c;
  if (present : bool)
  then v ← py_getitem (JStr field) c; Ok (dict_set field v new_content)
  else Ok new_content.

Definition add_fields (event_dict : jobj) (fields : list string) (new_content : jobj) : res jobj :=
  foldM (add_field event_dict) new_content fields.

(** [new_content["third_party_invite"]]: the signed part of the invite. *)
Definition keep_signed (third_party_invite : jobj) : json :=
  JObj (match obj_get "signed" third_party_invite with
        | Some signed => [("signed", signed)]
        | None => []
        end).

Definition prune_member (room_version : RoomVersion) (event_dict : jobj) : res jobj :=
  new_content ← add_fields event_dict ["membership"] [];
  new_content ← (if restricted_join_rule_fix room_version
                 then add_fields event_dict [EventContentFields.AUTHORISING_USER] new_content
                 else Ok new_content);
  if updated_redaction_rules room_version then
    c ← obj_getitem "content" event_dict;
    third_party_invite ← py_get "third_party_invite" c;
    match third_party_invite with
    | Some (JObj t) => Ok (dict_set "third_party_invite" (keep_signed t) new_content)
    | _ => Ok new_content
    end
  else Ok new_content.

(** The [if]/[elif] chain on the type of the event. *)
Definition prune_content (room_version : RoomVersion) (event_type : json) (event_dict : jobj) :
    res json :=
  if py_eq_str event_type EventTypes.Member then JObj <$> prune_member room_version event_dict
  else if py_eq_str event_type EventTypes.Create then
    if updated_redaction_rules room_version then obj_getitem "content" event_dict
    else if negb (implicit_room_creator room_version)
    then JObj <$> add_fields event_dict ["creator"] []
    else Ok (JObj [])
  else if py_eq_str event_type EventTypes.JoinRules then
    JObj <$> (new_content ← add_fields event_dict ["join_rule"] [];
              if restricted_join_rule room_version
              then add_fields event_dict ["allow"] new_content else Ok new_content)
  else if py_eq_str event_type EventTypes.PowerLevels then
    JObj <$> (new_content ← add_fields event_dict
                ["users"; "users_default"; "events"; "events_default"; "state_default"; "ban";
                 "kick"; "redact"] [];
              if updated_redaction_rules room_version
              then add_fields event_dict ["invite"] new_content else Ok new_content)
  else if py_eq_str event_type EventTypes.Aliases && special_case_aliases_auth room_version then
    JObj <$> add_fields event_dict ["aliases"] []
  else if py_eq_str event_type EventTypes.RoomHistoryVisibility then
    JObj <$> add_fields event_dict ["history_visibility"] []
  else if py_eq_str event_type EventTypes.Redaction && updated_redaction_rules room_version then
    JObj <$> add_fields event_dict ["redacts"] []
  else Ok (JObj []).

(** [{field: relates_to[field] for field in ("rel_type", "event_id") ...}] *)
Definition keep_relation (relates_to : jobj) : jobj :=
  omap (λ f, (λ v, (f, v)) <$> obj_get f relates_to) ["rel_type"; "event_id"].
Arguments keep_relation : simpl never.

(** [new_content[k] = v]: where it runs, [new_content] is a dict. *)
Definition set_content (k : string) (v : json) (new_content : json) : res json :=
  match new_content with
  | JObj d => Ok (JObj (dict_set k v d))
  | _ => Raise TypeError
  end.

(** Protect the [rel_type] and [event_id] fields under [m.relates_to]. *)
Definition prune_relation (room_version : RoomVersion) (event_dict : jobj) (new_content : json) :
    res json :=
  if msc3389_relation_redactions room_version then
    c ← obj_getitem "content" event_dict;
    relates_to ← py_get "m.relates_to" c;
    match relates_to with
    | Some (JObj r) =>
        match keep_relation r with
        | [] => Ok new_content
        | new_relates_to => set_content "m.relates_to" (JObj new_relates_to) new_content
        end
    | _ => Ok new_content
    end
  else Ok new_content.

(** One of the fields of [unsigned] that stay. *)
Definition keep_unsigned (event_unsigned : json) (unsigned : jobj) (k : string) : res jobj :=
  present ← py_in (JStr k) event_unsigned;
  if (present : bool)
  then v ← py_getitem (JStr k) event_unsigned; Ok (dict_set k v unsigned)
  else Ok unsigned.

Definition prune_event_dict (room_version : RoomVersion) (event_dict : jobj) : res jobj :=
  event_type ← obj_getitem "type" event_dict;
  new_content ← prune_content room_version event_type event_dict;
  new_content ← prune_relation room_version event_dict new_content;
  let allowed_fields := filter (λ kv, kv.1 ∈ allowed_keys room_version) event_dict in
  let allowed_fields := dict_set "content" new_content allowed_fields in
  let event_unsigned := obj_get_default "unsigned" (JObj []) event_dict in
  unsigned ← foldM (keep_unsigned event_unsigned) [] ["age_ts"; "replaces_state"];
  Ok (dict_set "unsigned" (JObj unsigned) allowed_fields).

(** ** Selecting fields *)

(** The first loop of [_copy_field]: drill down to the parent of the key. *)
Fixpoint drill_down (sub_dict : jobj) (field : list string) : option jobj :=
  match field with
  | [] => Some sub_dict
  | sub_field :: field =>
      match obj_get sub_field sub_dict with
      | Some (JObj d) => drill_down d field
      | _ => None
      end
  end.

(** The second: [sub_out_dict.setdefault(sub_field, {})] down the path, then
    the assignment. A value on the path that is no dict has no [setdefault]
    or refuses the assignment. *)
Fixpoint insert_at (dst : jobj) (field : list string) (key_to_move : string) (v : json) : res jobj :=
  match field with
  | [] => Ok (dict_set key_to_move v dst)
  | sub_field :: field =>
      match obj_get sub_field dst with
      | None => d ← insert_at [] field key_to_move v; Ok (dict_set sub_field (JObj d) dst)
      | Some (JObj d) => d ← insert_at d field key_to_move v; Ok (dict_set sub_field (JObj d) dst)
      | Some _ =>
          match field with [] => Raise TypeError | _ => Raise (AttributeError "setdefault") end
      end
  end.

Definition _copy_field (src dst : jobj) (field : list string) : res jobj :=
  match reverse field with
  | [] => Ok dst
  | [f] => match obj_get f src with Some v => Ok (dict_set f v dst) | None => Ok dst end
  | key_to_move :: path =>
      match drill_down src (reverse path) with
      | None => Ok dst
      | Some sub_dict =>
          match obj_get key_to_move sub_dict with
          | None => Ok dst
          | Some v => insert_at dst (reverse path) key_to_move v
          end
      end
  end.

(** [ESCAPE_SEQUENCE_PATTERN.sub(_escape_slash, s)]: a backslash and the
    character after it are one match; the pair is replaced by its second
    character when that is a backslash or a dot. A dot in the pattern does not
    match a newline. *)
Fixpoint unescape_slashes (s : string) : string :=
  match s with
  | String "\" (String c s') =>
      if Ascii.eqb c "010" then String "\" (String c (unescape_slashes s'))
      else if Ascii.eqb c "\" || Ascii.eqb c "." then String c (unescape_slashes s')
      else String "\" (String c (unescape_slashes s'))
  | String c s' => String c (unescape_slashes s')
  | EmptyString => EmptyString
  end.

(** Put a character in front of the first part. *)
Definition attach (c : ascii) (parts : list string) : list string :=
  match parts with
  | [] => [String c EmptyString]
  | p :: parts => String c p :: parts
  end.

(** Cut at the matches of [SPLIT_FIELD_REGEX] of odd length: the dots after an
    even number of backslashes ([escaped]: an odd number precedes). *)
Fixpoint split_unescaped (escaped : bool) (s : string) : list string :=
  match s with
  | EmptyString => [EmptyString]
  | String "." s' =>
      if escaped then attach "." (split_unescaped false s')
      else EmptyString :: split_unescaped false s'
  | String "\" s' => attach "\" (split_unescaped (negb escaped) s')
  | String c s' => attach c (split_unescaped false s')
  end.

Definition _split_field (field : string) : list string :=
  map unescape_slashes (split_unescaped false field).

Definition only_fields (dictionary : jobj) (fields : list string) : res jobj :=
  match fields with
  | [] => Ok dictionary
  | _ => foldM (λ output f, _copy_field dictionary output (_split_field f)) [] fields
  end.

(** ** Formats for clients *)

Definition format_event_for_client_v2 (d : jobj) : jobj :=
  foldl (λ d k, dict_pop k d) d
    ["auth_events"; "prev_events"; "hashes"; "signatures"; "depth"; "origin"; "prev_state"].

Definition format_event_for_client_v1 (d : jobj) : res jobj :=
  let d := format_event_for_client_v2 d in
  let d := match obj_get "sender" d with
           | None | Some JNull => d
           | Some sender => dict_set "user_id" sender d
           end in
  foldM (λ d key,
      unsigned ← obj_getitem "unsigned" d;
      present ← py_in (JStr key) unsigned;
      if (present : bool)
      then v ← py_getitem (JStr key) unsigned; Ok (dict_set key v d)
      else Ok d) d
    ["age"; "redacted_because"; "replaces_state"; "prev_content"; "invite_room_state";
     "knock_room_state"].

Definition format_event_for_client_v2_without_room_id (d : jobj) : jobj :=
  dict_pop "room_id" (format_event_for_client_v2 d).

(** ** Power levels *)

Definition _copy_power_level_value_as_integer (old_value : json) (power_levels : jobj) (key : string) :
    res jobj :=
  match old_value with
  | JInt z => Ok (dict_set key (JInt z) power_levels)
  | JStr s =>
      match py_int_of_str s with
      | Ok z => Ok (dict_set key (JInt z) power_levels)
      | Raise ValueError => Raise TypeError
      | Raise e => Raise e
      end
  | _ => Raise TypeError
  end.

(** One iteration of the loop over the old content. *)
Definition copy_power_level (power_levels : jobj) (kv : string * json) : res jobj :=
  match kv.2 with
  | JObj v =>
      h ← foldM (λ h kv1, _copy_power_level_value_as_integer kv1.2 h kv1.1) [] v;
      Ok (dict_set kv.1 (JObj h) power_levels)
  | v => _copy_power_level_value_as_integer v power_levels kv.1
  end.

Definition copy_and_fixup_power_levels_contents (old_power_levels : json) : res jobj :=
  match old_power_levels with
  | JObj old => foldM copy_power_level [] old
  | _ => Raise TypeError
  end.

(** ** Canonical JSON *)

Definition CANONICALJSON_MAX_INT : Z := 2 ^ 53 - 1.
Definition CANONICALJSON_MIN_INT : Z := - CANONICALJSON_MAX_INT.

Fixpoint validate_canonicaljson (value : json) : res unit :=
  match value with
  | JInt z =>
      raise_if ((z <? CANONICALJSON_MIN_INT) || (CANONICALJSON_MAX_INT <? z))
        (SynapseError 400 "JSON integer out of range" Codes.BAD_JSON)
  | JFloat _ => Raise (SynapseError 400 "Bad JSON value: float" Codes.BAD_JSON)
  | JObj d =>
      (fix go (d : jobj) : res unit :=
         match d with [] => Ok tt | (_, v) :: d => validate_canonicaljson v;; go d end) d
  | JList l =>
      (fix go (l : list json) : res unit :=
         match l with [] => Ok tt | v :: l => validate_canonicaljson v;; go l end) l
  | JBool _ | JStr _ | JNull => Ok tt
  end.

(** ** Stripped state *)

Record StrippedStateEvent := {
  ss_type : string;
  ss_state_key : string;
  ss_sender : string;
  ss_content : jobj
}.

Definition strip_event (event : EventBase) : res jobj :=
  sk ← state_key event;
  Ok [("type", JStr (ev_type event)); ("state_key", JStr sk); ("content", JObj (content event));
      ("sender", JStr (sender event))].

Definition parse_stripped_state_event (raw_stripped_event : json) : option StrippedStateEvent :=
  match raw_stripped_event with
  | JObj raw =>
      match obj_get "type" raw, obj_get "state_key" raw, obj_get "sender" raw, obj_get "content" raw with
      | Some (JStr type), Some (JStr state_key), Some (JStr sender), Some (JObj content) =>
          Some {| ss_type := type; ss_state_key := state_key; ss_sender := sender;
                  ss_content := content |}
      | _, _, _, _ => None
      end
  | _ => None
  end.

(** ** Relations, of [synapse/events/__init__.py] *)

Record _EventRelation := { parent_id : string; rel_type : string; aggregation_key : option string }.

Definition relation_from_event (event : EventBase) : option _EventRelation :=
  match obj_get "m.relates_to" (content event) with
  | Some (JObj relation) =>
      if negb (truthy (JObj relation)) then None
      else
        match obj_get "rel_type" relation, obj_get "event_id" relation with
        | Some (JStr rel_type), Some (JStr parent_id) =>
            Some {| parent_id := parent_id; rel_type := rel_type;
                    aggregation_key :=
                      if String.eqb rel_type "m.annotation"
                      then match obj_get "key" relation with Some (JStr k) => Some k | _ => None end
                      else None |}
        | _, _ => None
        end
  | _ => None
  end.
