(* ===== verification/EventUtilsProps.v ===== *)
(** * Properties of the operations on event dicts

    Redacting a dict twice is redacting it once; the accepted JSON is exactly
    canonical JSON; power levels keep their values when strings are turned
    into integers; [only_fields] copies exactly the requested paths. *)

From S2P Require Import Prelude PyJson PyDict PyStr RoomVersions Event EventUtils.
From Stdlib Require Import Ascii.

(** ** Redaction *)

(** The fields of the content that [add_fields] keeps. *)
Definition content_fields (v : RoomVersion) (t : json) : list string :=
  if py_eq_str t EventTypes.Member then
    ["membership"] ++ (if restricted_join_rule_fix v then [EventContentFields.AUTHORISING_USER] else [])
  else if py_eq_str t EventTypes.Create then (if implicit_room_creator v then [] else ["creator"])
  else if py_eq_str t EventTypes.JoinRules then
    ["join_rule"] ++ (if restricted_join_rule v then ["allow"] else [])
  else if py_eq_str t EventTypes.PowerLevels then
    ["users"; "users_default"; "events"; "events_default"; "state_default"; "ban"; "kick"; "redact"]
    ++ (if updated_redaction_rules v then ["invite"] else [])
  else if py_eq_str t EventTypes.Aliases && special_case_aliases_auth v then ["aliases"]
  else if py_eq_str t EventTypes.RoomHistoryVisibility then ["history_visibility"]
  else if py_eq_str t EventTypes.Redaction && updated_redaction_rules v then ["redacts"]
  else [].

(** Create events keep their whole content since MSC2176. *)
Definition keeps_all (v : RoomVersion) (t : json) : bool :=
  py_eq_str t EventTypes.Create && updated_redaction_rules v.

(** Member events keep the signed part of a third party invite. *)
Definition keeps_invite (v : RoomVersion) (t : json) : bool :=
  py_eq_str t EventTypes.Member && updated_redaction_rules v.

Definition prune_invite (event_dict new_content : jobj) : res jobj :=
  c ← obj_getitem "content" event_dict;
  third_party_invite ← py_get "third_party_invite" c;
  match third_party_invite with
  | Some (JObj t) => Ok (dict_set "third_party_invite" (keep_signed t) new_content)
  | _ => Ok new_content
  end.

Lemma add_fields_app d fs fs' acc :
  add_fields d (fs ++ fs') acc = add_fields d fs acc ≫= add_fields d fs'.
Proof. apply foldM_app. Qed.

Lemma prune_content_fields v t d :
  prune_content v t d =
  if keeps_all v t then obj_getitem "content" d
  else new_content ← add_fields d (content_fields v t) [];
       JObj <$> (if keeps_invite v t then prune_invite d new_content else Ok new_content).
Proof.
  assert (∀ s, py_eq_str t s = true → ∀ s', s ≠ s' → py_eq_str t s' = false) as Hne.
  { intros s ->%py_eq_str_true s' Hs. cbn. by apply String.eqb_neq. }
  unfold prune_content, keeps_all, keeps_invite, content_fields, prune_member.
  fold (prune_invite d).
  destruct (py_eq_str t EventTypes.Member) eqn:Em.
  { rewrite (Hne _ Em EventTypes.Create) by done. cbn [andb].
    rewrite add_fields_app.
    destruct (add_fields d ["membership"] []) as [nc|]; [|done]. cbn [mbind res_bind].
    destruct (restricted_join_rule_fix v); [destruct (add_fields d _ nc); [|done]|]; cbn;
      by destruct (updated_redaction_rules v). }
  destruct (py_eq_str t EventTypes.Create) eqn:Ec.
  { destruct (updated_redaction_rules v), (implicit_room_creator v); cbn [andb negb]; done. }
  cbn [andb]. destruct (py_eq_str t EventTypes.JoinRules) eqn:Ej.
  { rewrite add_fields_app.
    destruct (add_fields d ["join_rule"] []) as [nc|]; [|done]. cbn [mbind res_bind].
    by destruct (restricted_join_rule v); [destruct (add_fields d _ nc)|]. }
  destruct (py_eq_str t EventTypes.PowerLevels) eqn:Ep.
  { rewrite add_fields_app. destruct (add_fields d _ []) as [nc|]; [|done]. cbn [mbind res_bind].
    by destruct (updated_redaction_rules v); [destruct (add_fields d _ nc)|]. }
  repeat case_match; cbn; try done; by destruct (add_field _ _ _).
Qed.

Lemma content_fields_nodup v t : NoDup (content_fields v t) ∧
  ("m.relates_to" ∉ content_fields v t) ∧
  (keeps_invite v t = true → "third_party_invite" ∉ content_fields v t).
Proof.
  unfold content_fields, keeps_invite.
  repeat case_match; split_and!; try done;
    solve [by apply (bool_decide_unpack _) | intros _; by apply (bool_decide_unpack _)].
Qed.

Lemma py_in_getitem f c v :
  py_in (JStr f) c = Ok true → py_getitem (JStr f) c = Ok v → ∃ d, c = JObj d ∧ obj_get f d = Some v.
Proof.
  destruct c; cbn; try done. unfold obj_in, obj_getitem. destruct (obj_get f kvs) eqn:E; [|done].
  intros _ [= ->]. by eexists.
Qed.

Lemma add_field_Ok d acc f acc' :
  add_field d acc f = Ok acc' →
  (∃ c v, obj_get "content" d = Some (JObj c) ∧ obj_get f c = Some v ∧ acc' = dict_set f v acc) ∨
  acc' = acc ∧ ∀ c, obj_get "content" d = Some (JObj c) → obj_get f c = None.
Proof.
  unfold add_field, obj_getitem. destruct (obj_get "content" d) as [c|] eqn:Ed; [|done]. cbn [mbind res_bind].
  destruct (py_in (JStr f) c) as [[]|] eqn:Ei; cbn [mbind res_bind]; [| |done].
  - destruct (py_getitem (JStr f) c) as [v|] eqn:Eg; [|done]. intros [= <-].
    destruct (py_in_getitem f c v Ei Eg) as (d' & -> & Hv). left. by exists d', v.
  - intros [= <-]. right. split; [done|]. intros d' [= ->]. cbn in Ei. unfold obj_in in Ei.
    by destruct (obj_get f d').
Qed.

Lemma add_field_obj d c acc f :
  obj_get "content" d = Some (JObj c) →
  add_field d acc f = Ok (match obj_get f c with Some v => dict_set f v acc | None => acc end).
Proof.
  intros Hd. unfold add_field, obj_getitem. rewrite Hd. cbn. unfold obj_in, obj_getitem.
  by destruct (obj_get f c).
Qed.

(** Fields that are not asked for stay as they are. *)
Lemma add_fields_other d fs acc acc' k :
  add_fields d fs acc = Ok acc' → k ∉ fs → obj_get k acc' = obj_get k acc.
Proof.
  intros Hadd Hk. unfold add_fields in Hadd.
  revert acc Hadd. induction fs as [|f fs IH]; cbn; intros acc Hadd; [by simplify_eq|].
  apply not_elem_of_cons in Hk as [Hk Hks].
  apply bind_Ok in Hadd as (acc1 & H1 & H2). rewrite (IH Hks _ H2).
  apply add_field_Ok in H1 as [(c & v & _ & _ & ->)|[-> _]]; [by apply obj_get_set_ne|done].
Qed.

(** Adding the fields from a content that agrees with the result gives the
    result again. *)
Lemma add_fields_again d d' c' fs acc nc :
  add_fields d fs acc = Ok nc → NoDup fs → (∀ f, f ∈ fs → obj_get f acc = None) →
  obj_get "content" d' = Some (JObj c') → (∀ f, f ∈ fs → obj_get f c' = obj_get f nc) →
  add_fields d' fs acc = Ok nc.
Proof.
  intros Hadd Hnd Hacc Hc Hagree. revert acc Hadd Hacc.
  induction fs as [|f fs IH]; intros acc Hadd Hacc; [done|].
  apply NoDup_cons in Hnd as [Hf Hnd]. cbn in *. apply bind_Ok in Hadd as (acc1 & H1 & H2).
  pose proof (add_fields_other d fs acc1 nc f H2 Hf) as Hother.
  rewrite (add_field_obj d' c' acc f Hc), (Hagree f) by apply list_elem_of_here. rewrite Hother.
  assert (∀ acc2, acc2 = acc1 → (∀ f', f' ∈ fs → obj_get f' acc2 = None) →
    foldM (add_field d') acc2 fs = Ok nc) as Hrec.
  { intros acc2 -> Hacc2. apply IH; [done| |done|done]. intros f' Hf'. apply Hagree. by right. }
  apply add_field_Ok in H1 as [(c & v & _ & _ & ->)|[-> _]].
  - rewrite obj_get_set_eq. cbn. apply Hrec; [done|]. intros f' Hf'.
    rewrite obj_get_set_ne by (by intros ->). apply Hacc. by right.
  - rewrite Hacc by apply list_elem_of_here. cbn. apply Hrec; [done|]. intros f' Hf'. apply Hacc. by right.
Qed.

Lemma prune_invite_Ok d nc nc' :
  prune_invite d nc = Ok nc' →
  nc' = nc ∨ ∃ t, nc' = dict_set "third_party_invite" (keep_signed t) nc.
Proof.
  unfold prune_invite. intros H. inv_bind H. repeat case_match; simplify_eq; eauto.
Qed.

Lemma keep_signed_again t t' : keep_signed t = JObj t' → keep_signed t' = JObj t'.
Proof. unfold keep_signed. destruct (obj_get "signed" t) eqn:E; intros [= <-]; done. Qed.

(** A content that agrees with that of a redacted event, relations apart, has
    the same redaction. *)
Lemma prune_content_again v t d nc :
  prune_content v t d = Ok nc → keeps_all v t = false →
  ∃ c, nc = JObj c ∧ obj_get "m.relates_to" c = None ∧
    ∀ d' c', obj_get "content" d' = Some (JObj c') →
      (∀ f, f ≠ "m.relates_to" → obj_get f c' = obj_get f c) → prune_content v t d' = Ok nc.
Proof.
  intros H Hall. rewrite prune_content_fields, Hall in H. setoid_rewrite prune_content_fields.
  rewrite Hall. destruct (content_fields_nodup v t) as (Hnd & Hrel & Hinv).
  apply bind_Ok in H as (nc0 & Hnc0 & H). pose proof (add_fields_other _ _ _ _ "m.relates_to" Hnc0 Hrel) as Hnone.
  destruct (keeps_invite v t).
  - destruct (prune_invite d nc0) as [nc1|] eqn:Ei; [|done]. cbn in H. injection H as <-. exists nc1.
    apply prune_invite_Ok in Ei as Hcase. split; [done|]. split.
    { destruct Hcase as [->|[tp ->]]; [done|]. by rewrite obj_get_set_ne. }
    intros d' c' Hd' Hag.
    assert (∀ f, f ∈ content_fields v t → obj_get f c' = obj_get f nc0) as Hf.
    { intros f Hf. rewrite Hag by (by intros ->). destruct Hcase as [->|[tp ->]]; [done|].
      apply obj_get_set_ne. intros ->. by apply Hinv. }
    erewrite add_fields_again; [|done..]. cbn.
    unfold prune_invite, obj_getitem. rewrite Hd'. cbn. rewrite Hag by done. destruct Hcase as [->|[tp ->]].
    + by rewrite (add_fields_other _ _ _ _ "third_party_invite" Hnc0) by auto.
    + rewrite obj_get_set_eq. unfold keep_signed at 1. by rewrite (keep_signed_again tp _ eq_refl).
  - cbn in H. injection H as <-. exists nc0. split_and!; [done..|]. intros d' c' Hd' Hag.
    erewrite add_fields_again; [done|done..|]. intros f Hf. apply Hag. by intros ->.
Qed.

Lemma keep_relation_again r : keep_relation (keep_relation r) = keep_relation r.
Proof.
  unfold keep_relation. cbn [omap list_omap]. destruct (obj_get "rel_type" r) eqn:E1, (obj_get "event_id" r) eqn:E2; done.
Qed.

Lemma prune_relation_Ok v d nc nc' :
  prune_relation v d nc = Ok nc' →
  nc' = nc ∧ (msc3389_relation_redactions v = true → ∃ c, obj_get "content" d = Some (JObj c)) ∨
  ∃ c r, nc = JObj c ∧ nc' = JObj (dict_set "m.relates_to" (JObj (keep_relation r)) c) ∧
    keep_relation r ≠ [] ∧ msc3389_relation_redactions v = true.
Proof.
  unfold prune_relation, obj_getitem. destruct (msc3389_relation_redactions v); [|intros [= <-]; by left].
  destruct (obj_get "content" d) as [c|]; [|done]. destruct c as [| | | | | |c]; try done. cbn.
  assert (nc' = nc → nc' = nc ∧ (true = true → ∃ c0, Some (JObj c) = Some (JObj c0)) ∨
    ∃ c0 r, nc = JObj c0 ∧ nc' = JObj (dict_set "m.relates_to" (JObj (keep_relation r)) c0) ∧
      keep_relation r ≠ [] ∧ true = true) as Hsame by (left; split; eauto).
  destruct (obj_get "m.relates_to" c) as [[| | | | | |r]|]; try (intros Heq; cbn in Heq; apply Hsame; congruence).
  destruct (keep_relation r) as [|kv kr] eqn:Ek;
    [intros Heq; cbn in Heq; apply Hsame; congruence|].
  destruct nc as [| | | | | |c0]; try done. cbn. intros [= <-]. right. exists c0, r. by rewrite Ek.
Qed.

Lemma prune_relation_none v d c :
  obj_get "content" d = Some (JObj c) → obj_get "m.relates_to" c = None →
  ∀ nc, prune_relation v d nc = Ok nc.
Proof.
  intros Hd Hc nc. unfold prune_relation, obj_getitem. rewrite Hd. cbn. rewrite Hc. by case_match.
Qed.

Lemma prune_relation_set v d c r :
  obj_get "content" d = Some (JObj c) → obj_get "m.relates_to" c = Some (JObj (keep_relation r)) →
  keep_relation r ≠ [] → ∀ c0, dict_set "m.relates_to" (JObj (keep_relation r)) c0 = c →
  msc3389_relation_redactions v = true →
  prune_relation v d (JObj c0) = Ok (JObj c).
Proof.
  intros Hd Hc Hr c0 <- Hv. unfold prune_relation, obj_getitem. rewrite Hd, Hv. cbn. rewrite Hc.
  rewrite keep_relation_again. destruct (keep_relation r); [done|]. done.
Qed.

(** The two steps that compute the content give it back from their result. *)
Lemma prune_steps_again v t d nc nc' d' :
  prune_content v t d = Ok nc → prune_relation v d nc = Ok nc' → obj_get "content" d' = Some nc' →
  prune_content v t d' ≫= prune_relation v d' = Ok nc'.
Proof.
  intros Hc Hr Hd'. destruct (keeps_all v t) eqn:Hall.
  - rewrite prune_content_fields, Hall in Hc |- *. unfold obj_getitem in *. rewrite Hd'. cbn.
    destruct (obj_get "content" d) as [c|] eqn:Hd; [|done]. injection Hc as ->.
    pose proof Hr as Hcase. apply prune_relation_Ok in Hcase as [[-> Hm]|(c & r & -> & -> & Hne & Hv)].
    + unfold prune_relation, obj_getitem in *. by rewrite Hd', Hd in *.
    + eapply prune_relation_set; try done; [by rewrite obj_get_set_eq|by rewrite dict_set_set].
  - destruct (prune_content_again v t d nc Hc Hall) as (c & -> & Hnone & Hagain).
    pose proof Hr as Hcase. apply prune_relation_Ok in Hcase as [[-> Hm]|(c0 & r & [= <-] & -> & Hne & Hv)].
    + rewrite (Hagain d' c) by done. by eapply prune_relation_none.
    + rewrite (Hagain d' _ Hd') by (intros f Hf; by apply obj_get_set_ne). cbn.
      eapply prune_relation_set; try done. by rewrite obj_get_set_eq.
Qed.

(** [keep_unsigned] is [add_field] on another dict. *)
Lemma keep_unsigned_again u acc :
  foldM (keep_unsigned u) [] ["age_ts"; "replaces_state"] = Ok acc →
  foldM (keep_unsigned (JObj acc)) [] ["age_ts"; "replaces_state"] = Ok acc.
Proof.
  intros H.
  apply (add_fields_again [("content", u)] [("content", JObj acc)] acc ["age_ts"; "replaces_state"] [] acc);
    try done.
  by apply (bool_decide_unpack _).
Qed.

(** What is in a redacted dict. *)
Lemma prune_get v d d' :
  prune_event_dict v d = Ok d' →
  ∃ t nc nc' u, obj_get "type" d = Some t ∧ prune_content v t d = Ok nc ∧
    prune_relation v d nc = Ok nc' ∧
    foldM (keep_unsigned (obj_get_default "unsigned" (JObj []) d)) [] ["age_ts"; "replaces_state"] = Ok u ∧
    d' = dict_set "unsigned" (JObj u)
           (dict_set "content" nc' (filter (λ kv, kv.1 ∈ allowed_keys v) d)) ∧
    ∀ k, obj_get k d' =
      if String.eqb k "unsigned" then Some (JObj u)
      else if String.eqb k "content" then Some nc'
      else if decide (k ∈ allowed_keys v) then obj_get k d else None.
Proof.
  unfold prune_event_dict, obj_getitem. intros H. destruct (obj_get "type" d) as [t|]; [|done].
  cbn [mbind res_bind] in H. apply bind_Ok in H as (nc & Hnc & H). apply bind_Ok in H as (nc' & Hnc' & H).
  apply bind_Ok in H as (u & Hu & [= <-]). exists t, nc, nc', u. split_and!; [done..|].
  intros k. rewrite !obj_get_set. by rewrite (obj_get_filter (λ x, x ∈ allowed_keys v)).
Qed.

Lemma allowed_type v : "type" ∈ allowed_keys v ∧ "content" ∈ allowed_keys v ∧ ("unsigned" ∉ allowed_keys v).
Proof. unfold allowed_keys. case_match; split_and!; by apply (bool_decide_unpack _). Qed.

(** A dict with the type and the content of a redacted one, and no other
    fields than those that are kept, is its own redaction. *)
Lemma prune_fixed v d t nc nc' u d' :
  prune_content v t d = Ok nc → prune_relation v d nc = Ok nc' →
  foldM (keep_unsigned (obj_get_default "unsigned" (JObj []) d)) [] ["age_ts"; "replaces_state"] = Ok u →
  obj_get "type" d' = Some t → obj_get "content" d' = Some nc' → obj_get "unsigned" d' = Some (JObj u) →
  d' = filter (λ kv, kv.1 ∈ allowed_keys v) d' ++ [("unsigned", JObj u)] →
  prune_event_dict v d' = Ok d'.
Proof.
  intros Hnc Hnc' Hun Ht Hc Hu Hd'. destruct (allowed_type v) as (_ & Hca & Hua).
  unfold prune_event_dict, obj_getitem, obj_get_default. rewrite Ht, Hu. cbn [mbind res_bind].
  pose proof (prune_steps_again v t d nc nc' d' Hnc Hnc' Hc) as Hsteps.
  apply bind_Ok in Hsteps as (nc3 & -> & Hrel). cbn [mbind res_bind]. rewrite Hrel.
  cbn [mbind res_bind]. rewrite (keep_unsigned_again _ _ Hun). cbn [mbind res_bind].
  rewrite (dict_set_same "content").
  2:{ rewrite (obj_get_filter (λ x, x ∈ allowed_keys v)). by rewrite decide_True. }
  rewrite dict_set_fresh; [by rewrite <-Hd'|].
  rewrite (obj_get_filter (λ x, x ∈ allowed_keys v)). by rewrite decide_False.
Qed.

Lemma prune_again v d d' : prune_event_dict v d = Ok d' → prune_event_dict v d' = Ok d'.
Proof.
  intros H. destruct (allowed_type v) as (Ht & Hc & Hu).
  destruct (prune_get v d d' H) as (t & nc & nc' & u & Hd & Hnc & Hnc' & Hun & Hd' & Hget).
  eapply (prune_fixed v d); try done; [|by rewrite Hget..|].
  { rewrite Hget. cbn. by rewrite decide_True. }
  rewrite Hd' at 2. rewrite (filter_set_false (λ x, x ∈ allowed_keys v)) by done.
  rewrite (filter_set_true (λ x, x ∈ allowed_keys v)) by done.
  rewrite filter_again, Hd'. apply dict_set_fresh. rewrite obj_get_set_ne by done.
  rewrite (obj_get_filter (λ x, x ∈ allowed_keys v)). by rewrite decide_False.
Qed.

(** ** Canonical JSON *)

Section JsonInd.
Context (P : json → Prop).
Context (Hnull : P JNull) (Hbool : ∀ b, P (JBool b)) (Hint : ∀ z, P (JInt z)) (Hfloat : ∀ f, P (JFloat f)).
Context (Hstr : ∀ s, P (JStr s)) (Hlist : ∀ l, Forall P l → P (JList l)).
Context (Hobj : ∀ d, Forall (λ kv, P kv.2) d → P (JObj d)).

Fixpoint json_induction (j : json) : P j :=
  match j with
  | JNull => Hnull
  | JBool b => Hbool b
  | JInt z => Hint z
  | JFloat f => Hfloat f
  | JStr s => Hstr s
  | JList l =>
      Hlist l ((fix go (l : list json) : Forall P l :=
        match l with [] => Forall_nil_2 _ | v :: l => Forall_cons_2 _ v l (json_induction v) (go l) end) l)
  | JObj d =>
      Hobj d ((fix go (d : jobj) : Forall (λ kv, P kv.2) d :=
        match d with [] => Forall_nil_2 _ | kv :: d => Forall_cons_2 _ kv d (json_induction kv.2) (go d) end) d)
  end.
End JsonInd.

(** [inside w j]: the value [w] occurs in [j]. *)
Inductive inside (w : json) : json → Prop :=
  | inside_here : inside w w
  | inside_list v l : v ∈ l → inside w v → inside w (JList l)
  | inside_obj k v d : (k, v) ∈ d → inside w v → inside w (JObj d).

(** What the values of canonical JSON may be. *)
Definition canonical_value (w : json) : Prop :=
  match w with JFloat _ => False | JInt z => - 2 ^ 53 < z < 2 ^ 53 | _ => True end.

Definition canonical (j : json) : Prop := ∀ w, inside w j → canonical_value w.

Lemma validate_list l : validate_canonicaljson (JList l) = iterM validate_canonicaljson l.
Proof. induction l as [|v l IH]; [done|]. cbn [iterM]. rewrite <-IH. done. Qed.

Lemma validate_obj d : validate_canonicaljson (JObj d) = iterM validate_canonicaljson d.*2.
Proof. induction d as [|[k v] d IH]; [done|]. rewrite fmap_cons. cbn [iterM snd]. rewrite <-IH. done. Qed.

Lemma canonical_list l : canonical (JList l) ↔ ∀ v, v ∈ l → canonical v.
Proof.
  split; [intros Hl v Hv w Hw; apply Hl; by eapply inside_list|].
  intros Hl w Hw. inversion Hw as [|v l' Hv Hin|]; subst; [done|]. by apply (Hl v).
Qed.

Lemma canonical_obj (d : jobj) : canonical (JObj d) ↔ ∀ v, v ∈ d.*2 → canonical v.
Proof.
  split.
  - intros Hd v Hv w Hw. apply list_elem_of_fmap in Hv as ([k v'] & -> & Hv). apply Hd. by eapply inside_obj.
  - intros Hd w Hw. inversion Hw as [| |k v d' Hv Hin]; subst; [done|]. apply (Hd v); [|done].
    by apply (list_elem_of_fmap_2 snd _ (k, v)).
Qed.

Lemma canonical_scalar j :
  match j with JList _ | JObj _ => False | _ => True end → canonical j ↔ canonical_value j.
Proof. intros Hj. split; [intros H; apply H; constructor|]. intros H w Hw. by destruct Hw. Qed.

Definition bad_json (e : exn) : Prop := ∃ msg, e = SynapseError 400 msg Codes.BAD_JSON.

Lemma iterM_validate l :
  Forall (λ j, (validate_canonicaljson j = Ok tt ↔ canonical j) ∧
               ∀ e, validate_canonicaljson j = Raise e → bad_json e) l →
  (iterM validate_canonicaljson l = Ok tt ↔ ∀ v, v ∈ l → canonical v) ∧
  ∀ e, iterM validate_canonicaljson l = Raise e → bad_json e.
Proof.
  intros Hl. rewrite Forall_forall in Hl. split.
  - rewrite iterM_Ok. split; intros H v Hv; apply Hl; auto.
  - intros e (v & Hv & He)%iterM_Raise. by eapply Hl.
Qed.

Lemma validate_spec j :
  (validate_canonicaljson j = Ok tt ↔ canonical j) ∧
  ∀ e, validate_canonicaljson j = Raise e → bad_json e.
Proof.
  induction j as [| | | | |l IH|d IH] using json_induction;
    rewrite ?canonical_scalar by done; cbn [canonical_value];
    rewrite ?validate_list, ?validate_obj, ?canonical_list, ?canonical_obj.
  1, 2, 5: split; [done|by intros e].
  - cbn [validate_canonicaljson]. rewrite raise_if_Ok. unfold CANONICALJSON_MIN_INT, CANONICALJSON_MAX_INT.
    split; [lia|]. unfold raise_if. case_match; intros e [= <-]. by eexists.
  - cbn. split; [done|]. intros e [= <-]. by eexists.
  - by apply iterM_validate.
  - apply iterM_validate. by apply Forall_fmap.
Qed.

(** C23: validate_canonicaljson accepts exactly the JSON values in which no float and no
    integer outside (-2^53, 2^53) occurs at any depth, and refuses the others with a 400
    M_BAD_JSON error. *)
Theorem validate_canonicaljson_spec j :
  (validate_canonicaljson j = Ok tt ↔ canonical j) ∧
  (¬ canonical j → ∃ msg, validate_canonicaljson j = Raise (SynapseError 400 msg Codes.BAD_JSON)).
Proof.
  destruct (validate_spec j) as [Hok Hbad]. split; [done|]. intros Hn.
  destruct (validate_canonicaljson j) as [[]|e] eqn:E; [by destruct Hn; apply Hok|].
  destruct (Hbad e eq_refl) as [msg ->]. by exists msg.
Qed.

(** ** Power levels *)

(** The integer a level stands for. *)
Definition level_value (v : json) : res json :=
  match v with
  | JInt z => Ok (JInt z)
  | JStr s => match py_int_of_str s with Ok z => Ok (JInt z) | Raise _ => Raise TypeError end
  | _ => Raise TypeError
  end.

Definition fixup_value (v : json) : res json :=
  match v with
  | JObj d => ws ← traverse level_value d.*2; Ok (JObj (zip d.*1 ws))
  | _ => level_value v
  end.

(** The keys of Python dicts are distinct. *)
Definition distinct_keys (d : jobj) : Prop :=
  NoDup d.*1 ∧ ∀ k h, (k, JObj h) ∈ d → NoDup h.*1.

Lemma int_of_str_error s e : py_int_of_str s = Raise e → e = ValueError.
Proof. unfold py_int_of_str. case_match; intros; simplify_eq. done. Qed.

Lemma copy_value_eq v h k :
  _copy_power_level_value_as_integer v h k = (w ← level_value v; Ok (dict_set k w h)).
Proof.
  destruct v; cbn; try done. destruct (py_int_of_str s) as [z|e] eqn:E; [done|].
  by apply int_of_str_error in E as ->.
Qed.

(** Assigning under new keys appends. *)
Lemma foldM_assign (f : json → res json) (l acc : jobj) :
  NoDup (acc.*1 ++ l.*1) →
  foldM (λ acc kv, w ← f kv.2; Ok (dict_set kv.1 w acc)) acc l =
  (ws ← traverse f l.*2; Ok (acc ++ zip l.*1 ws)).
Proof.
  revert acc. induction l as [|[k v] l IH]; intros acc Hnd; [cbn; by rewrite app_nil_r|].
  change (((k, v) :: l).*1) with (k :: l.*1) in *. change (((k, v) :: l).*2) with (v :: l.*2).
  cbn [foldM traverse fst snd]. destruct (f v) as [w|e]; [|done]. cbn [mbind res_bind].
  rewrite dict_set_fresh.
  2:{ apply obj_get_None. apply NoDup_app in Hnd as (_ & Hd & _). intros Hk. apply (Hd k Hk). by left. }
  rewrite IH.
  2:{ rewrite fmap_app, <-app_assoc. exact Hnd. }
  destruct (traverse f l.*2) as [ws|]; [|done]. cbn. by rewrite <-app_assoc.
Qed.

Lemma foldM_ext {A S} (f g : S → A → res S) s l :
  (∀ s x, x ∈ l → f s x = g s x) → foldM f s l = foldM g s l.
Proof.
  revert s. induction l as [|x l IH]; intros s H; [done|]. cbn. rewrite H by apply list_elem_of_here.
  destruct (g s x); [|done]. cbn. apply IH. intros s' y Hy. apply H. by right.
Qed.

(** [copy_and_fixup_power_levels_contents] maps [fixup_value] over the items. *)
Lemma fixup_eq old :
  distinct_keys old →
  copy_and_fixup_power_levels_contents (JObj old) =
  (ws ← traverse fixup_value old.*2; Ok (zip old.*1 ws)).
Proof.
  intros [Hnd Hin]. cbn [copy_and_fixup_power_levels_contents].
  etrans; [|exact (foldM_assign fixup_value old [] Hnd)]. apply foldM_ext. intros acc [k v] Hkv.
  unfold copy_power_level. destruct v as [| | | | | |d]; cbn [fixup_value fst snd]; try apply copy_value_eq.
  rewrite (foldM_ext _ (λ acc kv, w ← level_value kv.2; Ok (dict_set kv.1 w acc)))
    by (intros; apply copy_value_eq).
  rewrite (foldM_assign level_value d []) by (cbn; by eapply Hin).
  by destruct (traverse level_value d.*2).
Qed.

Lemma level_value_again v w : level_value v = Ok w → level_value w = Ok w.
Proof. destruct v; cbn; try done; [intros [= <-]; done|]. case_match; intros [= <-]. done. Qed.

Lemma traverse_again (f : json → res json) l ws :
  (∀ v w, f v = Ok w → f w = Ok w) → traverse f l = Ok ws → traverse f ws = Ok ws.
Proof. rewrite !traverse_Ok. intros Hf. induction 1; constructor; eauto. Qed.

Lemma zip_keys {A} (ks : list string) (ws : list A) :
  length ks = length ws → (zip ks ws).*1 = ks ∧ (zip ks ws).*2 = ws.
Proof. intros Hl. split; [apply fst_zip|apply snd_zip]; lia. Qed.

Lemma traverse_length {A B} (f : A → res B) l k : traverse f l = Ok k → length l = length k.
Proof. rewrite traverse_Ok. apply Forall2_length. Qed.

Lemma fixup_value_again v w : fixup_value v = Ok w → fixup_value w = Ok w.
Proof.
  destruct v as [| | | | | |d]; cbn; try done; try (intros [= <-]; done).
  - case_match; intros [= <-]. done.
  - destruct (traverse level_value d.*2) as [ws|] eqn:E; [|done]. intros [= <-]. cbn.
    apply traverse_length in E as Hl. rewrite !length_fmap in Hl.
    destruct (zip_keys d.*1 ws) as [-> ->]; [by rewrite length_fmap|].
    by rewrite (traverse_again _ _ _ level_value_again E).
Qed.

Lemma fixup_distinct old new :
  distinct_keys old → copy_and_fixup_power_levels_contents (JObj old) = Ok new →
  new.*1 = old.*1 ∧ Forall2 (λ v w, fixup_value v = Ok w) old.*2 new.*2 ∧ distinct_keys new.
Proof.
  intros Hd. rewrite fixup_eq by done. intros H. apply bind_Ok in H as (ws & Hws & [= <-]).
  apply traverse_length in Hws as Hl. rewrite !length_fmap in Hl. apply traverse_Ok in Hws.
  destruct (zip_keys old.*1 ws) as [-> ->]; [by rewrite length_fmap|]. split_and!; [done..|].
  split; [|].
  - destruct (zip_keys old.*1 ws) as [-> _]; [by rewrite length_fmap|]. apply Hd.
  - intros k h Hin. destruct Hd as [_ Hd]. revert Hws Hl Hd Hin. clear. revert ws.
    induction old as [|[k0 v] old IH]; intros ws Hws Hl Hd Hin; [by apply not_elem_of_nil in Hin|].
    destruct ws as [|w ws]; [done|]. rewrite !fmap_cons in *. cbn [zip zip_with] in Hin.
    apply Forall2_cons in Hws as [Hw Hws]. apply elem_of_cons in Hin as [[= -> <-]|Hin].
    + destruct v as [| | | | | |d]; cbn in Hw; try done; [by repeat case_match|].
      apply bind_Ok in Hw as (us & Hus & [= <-]). apply traverse_length in Hus. rewrite !length_fmap in Hus.
      destruct (zip_keys d.*1 us) as [-> _]; [by rewrite length_fmap|]. eapply Hd. apply list_elem_of_here.
    + eapply (IH ws); [done|cbn in Hl; lia| |done]. intros k' h' Hin'. eapply Hd. by right.
Qed.

Lemma fixup_again old new :
  distinct_keys old → copy_and_fixup_power_levels_contents (JObj old) = Ok new →
  copy_and_fixup_power_levels_contents (JObj new) = Ok new.
Proof.
  intros Hd H. destruct (fixup_distinct old new Hd H) as (Hk & Hv & Hd').
  rewrite (fixup_eq new Hd'). apply traverse_Ok in Hv.
  rewrite (traverse_again _ _ _ fixup_value_again Hv). cbn. f_equal.
  clear. induction new as [|[k v] new IH]; [done|]. rewrite !fmap_cons. cbn. by rewrite IH.
Qed.

(** ** Selecting fields *)

(** The value at a path. *)
Fixpoint json_get (v : json) (p : list string) : option json :=
  match p with
  | [] => Some v
  | k :: p => match v with JObj d => obj_get k d ≫= λ w, json_get w p | _ => None end
  end.

Lemma json_get_app v p q : json_get v (p ++ q) = json_get v p ≫= λ w, json_get w q.
Proof.
  revert v. induction p as [|k p IH]; intros v; [done|]. cbn. destruct v; try done.
  destruct (obj_get k kvs); [|done]. apply IH.
Qed.

Lemma drill_down_get d p : drill_down d p = json_get (JObj d) p ≫= λ w, match w with JObj d' => Some d' | _ => None end.
Proof.
  revert d. induction p as [|k p IH]; intros d; [done|]. cbn.
  destruct (obj_get k d) as [w|]; [|done]. cbn.
  destruct w as [| | | | | |d']; try done; by destruct p.
Qed.

Lemma copy_field_eq src dst p :
  _copy_field src dst p =
  match reverse p with
  | [] => Ok dst
  | key :: path =>
      match json_get (JObj src) p with
      | Some v => insert_at dst (reverse path) key v
      | None => Ok dst
      end
  end.
Proof.
  unfold _copy_field. destruct (reverse p) as [|key path] eqn:E; [done|].
  assert (p = reverse path ++ [key]) as ->.
  { apply (f_equal reverse) in E. by rewrite reverse_involutive, reverse_cons in E. }
  rewrite json_get_app, drill_down_get. destruct path as [|k path].
  - cbn. by destruct (obj_get key src).
  - destruct (json_get (JObj src) (reverse (k :: path))) as [w|]; [|done]. cbn.
    destruct w as [| | | | | |d]; try done. by destruct (obj_get key d).
Qed.

(** The assignment at the end of a path does nothing when the value is there. *)
Lemma insert_at_same dst path key v :
  json_get (JObj dst) (path ++ [key]) = Some v → insert_at dst path key v = Ok dst.
Proof.
  revert dst. induction path as [|k path IH]; intros dst; cbn.
  - destruct (obj_get key dst) eqn:E; [|done]. cbn. intros [= ->]. by rewrite dict_set_same.
  - destruct (obj_get k dst) as [w|] eqn:E; [|done]. cbn.
    destruct w as [| | | | | |d]; try (by destruct path). intros H. rewrite (IH d H). cbn.
    by rewrite dict_set_same.
Qed.

(** It succeeds when the values on the path are dicts. *)
Lemma insert_at_total dst path key v :
  (∀ q r w, path = q ++ r → json_get (JObj dst) q = Some w → is_mapping w = true) →
  ∃ out, insert_at dst path key v = Ok out.
Proof.
  revert dst. induction path as [|k path IH]; intros dst Hmap; cbn; [eauto|].
  destruct (obj_get k dst) as [w|] eqn:E.
  - pose proof (Hmap [k] path w eq_refl ltac:(cbn; by rewrite E)) as Hw.
    destruct w as [| | | | | |d]; try done.
    destruct (IH d) as [out ->]; [|by eexists].
    intros q r w -> Hq. apply (Hmap (k :: q) r w eq_refl). cbn. by rewrite E.
  - destruct (IH []) as [out ->]; [|by eexists].
    intros [|k' q] r w -> Hq; cbn in Hq; [by injection Hq as <-|done].
Qed.

(** What is at the paths below, above and beside the one assigned. *)
Lemma insert_at_below dst path key v out r :
  insert_at dst path key v = Ok out → json_get (JObj out) ((path ++ [key]) ++ r) = json_get v r.
Proof.
  rewrite <-app_assoc. cbn [app].
  revert dst out. induction path as [|k path IH]; intros dst out; cbn.
  - intros [= <-]. by rewrite obj_get_set_eq.
  - intros H. assert (∃ d0 d, insert_at d0 path key v = Ok d ∧ out = dict_set k (JObj d) dst) as (d0 & d & Hd & ->).
    { repeat case_match; simplify_eq; apply bind_Ok in H as (d & Hd & [= <-]); eauto. }
    rewrite obj_get_set_eq. cbn. by apply (IH d0).
Qed.

Lemma insert_at_above dst path key v out q r :
  insert_at dst path key v = Ok out → path = q ++ r → ∃ o, json_get (JObj out) q = Some (JObj o).
Proof.
  revert dst out q. induction path as [|k path IH]; intros dst out q; cbn.
  - intros [= <-] Hq. destruct q; [|done]. cbn. by eexists.
  - intros H Hq. destruct q as [|k' q]; [by eexists|]. injection Hq as <- Hq.
    assert (∃ d0 d, insert_at d0 path key v = Ok d ∧ out = dict_set k (JObj d) dst) as (d0 & d & Hd & ->).
    { repeat case_match; simplify_eq; apply bind_Ok in H as (d & Hd & [= <-]); eauto. }
    cbn. rewrite obj_get_set_eq. cbn. by apply (IH d0 d q).
Qed.

Lemma insert_at_beside dst path key v out q :
  insert_at dst path key v = Ok out → ¬ (path ++ [key]) `prefix_of` q → ¬ q `prefix_of` (path ++ [key]) →
  json_get (JObj out) q = json_get (JObj dst) q.
Proof.
  revert dst out q. induction path as [|k path IH]; intros dst out q; cbn.
  - intros [= <-] Hn1 Hn2. destruct q as [|k' q]; [by destruct Hn2; apply prefix_nil|]. cbn.
    rewrite obj_get_set_ne; [done|]. intros ->. apply Hn1. by apply prefix_cons, prefix_nil.
  - intros H Hn1 Hn2. destruct q as [|k' q]; [by destruct Hn2; apply prefix_nil|]. cbn.
    destruct (decide (k' = k)) as [->|Hne].
    2:{ assert (∃ d, out = dict_set k (JObj d) dst) as (d & ->).
        { repeat case_match; simplify_eq; apply bind_Ok in H as (d & Hd & [= <-]); eauto. }
        by rewrite obj_get_set_ne. }
    assert (¬ (path ++ [key]) `prefix_of` q) as Hq1 by (intros Hp; apply Hn1; by apply prefix_cons).
    assert (¬ q `prefix_of` (path ++ [key])) as Hq2 by (intros Hp; apply Hn2; by apply prefix_cons).
    destruct (obj_get k dst) as [w|].
    + destruct w as [| | | | | |d]; try (by destruct path). apply bind_Ok in H as (d' & Hd & [= <-]).
      rewrite obj_get_set_eq. cbn. by apply (IH d).
    + apply bind_Ok in H as (d' & Hd & [= <-]). rewrite obj_get_set_eq. cbn.
      rewrite (IH [] d' q Hd Hq1 Hq2). destruct q; [by destruct Hq2; apply prefix_nil|done].
Qed.

(** The value at [p] was copied with a requested field, or is a dict that
    leads to one. *)
Definition covered (src : jobj) (fields : list (list string)) (p : list string) (v : json) : Prop :=
  (∃ f, f ∈ fields ∧ f `prefix_of` p ∧ json_get (JObj src) p = Some v) ∨
  (∃ f, f ∈ fields ∧ p `prefix_of` f ∧ p ≠ f ∧ is_Some (json_get (JObj src) f) ∧ is_mapping v = true).

(** The output has the requested fields, and nothing but what lies on or
    under a requested field. *)
Record selected (src : jobj) (fields : list (list string)) (out : jobj) : Prop := {
  sel_has : ∀ f v, f ∈ fields → json_get (JObj src) f = Some v → json_get (JObj out) f = Some v;
  sel_only : ∀ p v, p ≠ [] → json_get (JObj out) p = Some v → covered src fields p v
}.

Lemma covered_mono src fields fields' p v :
  fields ⊆ fields' → covered src fields p v → covered src fields' p v.
Proof. intros Hs [(g & Hg & ?)|(g & Hg & ?)]; [left|right]; exists g; (split; [by apply Hs|done]). Qed.

(** A field that is absent or already there. *)
Lemma selected_snoc src fields out f :
  selected src fields out → json_get (JObj src) f = None ∨ json_get (JObj out) f = json_get (JObj src) f →
  selected src (fields ++ [f]) out.
Proof.
  intros Hsel Hf. split.
  - intros g v [Hg| ->%list_elem_of_singleton]%elem_of_app Hgv; [by eapply sel_has|].
    destruct Hf as [Hf|Hf]; congruence.
  - intros p v Hne Hp. eapply covered_mono; [|by eapply sel_only]. set_solver.
Qed.

(** Copying a field whose parent is already there whole changes nothing. *)
Lemma selected_same src fields out f v f0 :
  selected src fields out → f ∈ fields → f `prefix_of` f0 → json_get (JObj src) f0 = Some v →
  json_get (JObj out) f0 = Some v.
Proof.
  intros Hsel Hf [r ->] Hv. rewrite json_get_app in Hv |- *.
  destruct (json_get (JObj src) f) as [w|] eqn:E; [|done]. by rewrite (sel_has _ _ _ Hsel f w Hf E).
Qed.

Lemma exists_last' (l : list string) : l ≠ [] → ∃ l' k, l = l' ++ [k].
Proof. intros Hl. destruct (exists_last Hl) as (l' & k & ->). eauto. Qed.

Lemma copy_field_selected src fields out f :
  f ≠ [] → selected src fields out →
  ∃ out', _copy_field src out f = Ok out' ∧ selected src (fields ++ [f]) out'.
Proof.
  intros Hf0 Hsel. rewrite copy_field_eq.
  destruct (reverse f) as [|key path'] eqn:Er.
  { apply (f_equal reverse) in Er. rewrite reverse_involutive in Er. done. }
  apply (f_equal reverse) in Er. rewrite reverse_involutive, reverse_cons in Er.
  set (path := reverse path') in *. clearbody path. subst f. set (f := path ++ [key]) in *.
  destruct (json_get (JObj src) f) as [v|] eqn:Ev; [|exists out; split; [done|]; apply selected_snoc; auto].
  destruct (decide (Exists (λ g, g `prefix_of` f) fields)) as [Hex|Hex].
  { apply Exists_exists in Hex as (g & Hg & Hpre).
    pose proof (selected_same _ _ _ _ _ _ Hsel Hg Hpre Ev) as Hthere.
    exists out. rewrite insert_at_same by done. split; [done|].
    apply selected_snoc; [done|right; congruence]. }
  assert (∀ g, g ∈ fields → ¬ g `prefix_of` f) as Hnew by (intros g Hg Hp; apply Hex, Exists_exists; eauto).
  destruct (insert_at_total out path key v) as [out' Hout].
  { intros q r w -> Hq. destruct q as [|k q]; [cbn in Hq; by injection Hq as <-|].
    destruct (sel_only _ _ _ Hsel (k :: q) w) as [(g & Hg & Hpre & _)|(g & _ & _ & _ & _ & Hm)]; [done|done| |done].
    exfalso. apply (Hnew g Hg). etrans; [done|]. exists (r ++ [key]). by rewrite app_assoc. }
  exists out'. rewrite Hout. split; [done|].
  assert (∀ r, json_get (JObj out') (f ++ r) = json_get v r) as Hbelow by (intros; by eapply insert_at_below).
  assert (∀ r, json_get (JObj src) (f ++ r) = json_get v r) as Hsrc by (intros; by rewrite json_get_app, Ev).
  assert (∀ q, ¬ f `prefix_of` q → ¬ q `prefix_of` f → json_get (JObj out') q = json_get (JObj out) q) as Hbeside
    by (intros; by eapply insert_at_beside).
  split.
  - intros g w [Hg| ->%list_elem_of_singleton]%elem_of_app Hgw.
    + destruct (decide (f `prefix_of` g)) as [[r ->]|Hn]; [by rewrite Hbelow, <-Hsrc|].
      rewrite Hbeside by auto. by eapply sel_has.
    + rewrite <-(app_nil_r f) in Hgw |- *. by rewrite Hbelow, <-Hsrc.
  - intros p w Hp Hpw. destruct (decide (f `prefix_of` p)) as [[r ->]|Hn].
    { left. exists f. split_and!; [apply elem_of_app; right; apply list_elem_of_here|by exists r|].
      by rewrite Hsrc, <-Hbelow. }
    destruct (decide (p `prefix_of` f)) as [Hpre|Hn'].
    + right. exists f. split_and!; [apply elem_of_app; right; apply list_elem_of_here|done|by intros ->|by eexists|].
      destruct Hpre as [r Hr]. destruct (exists_last' r) as (r' & k & ->).
      { intros ->. rewrite app_nil_r in Hr. by rewrite Hr in Hn. }
      rewrite app_assoc in Hr. apply app_inj_tail in Hr as [Hr _].
      destruct (insert_at_above out path key v out' p r' Hout Hr) as [o Ho]. rewrite Ho in Hpw. by injection Hpw as <-.
    + rewrite Hbeside in Hpw by done. eapply covered_mono; [|by eapply sel_only]. set_solver.
Qed.

Lemma split_nonempty b s : split_unescaped b s ≠ [].
Proof.
  revert b. induction s as [|c s IH]; intros b; [done|].
  assert (∀ c parts, attach c parts ≠ []) as Ha by (by intros ? []).
  destruct c as [[] [] [] [] [] [] [] []]; cbn; try apply Ha. destruct b; [apply Ha|done].
Qed.

Lemma split_field_nonempty f : _split_field f ≠ [].
Proof. unfold _split_field. pose proof (split_nonempty false f). by destruct (split_unescaped false f). Qed.

Lemma only_fields_selected d fields :
  fields ≠ [] → ∃ out, only_fields d fields = Ok out ∧ selected d (map _split_field fields) out.
Proof.
  intros Hne. unfold only_fields. destruct fields as [|f fs]; [done|]. clear Hne.
  assert (∀ done out, selected d done out →
    ∃ out', foldM (λ output f, _copy_field d output (_split_field f)) out (f :: fs) = Ok out' ∧
      selected d (done ++ map _split_field (f :: fs)) out') as Hloop.
  { induction (f :: fs) as [|g gs IH]; intros dn out Hsel; [exists out; by rewrite app_nil_r|].
    destruct (copy_field_selected d dn out (_split_field g) (split_field_nonempty g) Hsel) as (out1 & H1 & H2).
    destruct (IH _ _ H2) as (out2 & H3 & H4). exists out2. cbn [foldM map]. rewrite H1. cbn [mbind res_bind].
    split; [done|]. by rewrite <-app_assoc in H4. }
  apply (Hloop []). split; [intros ? ? []%not_elem_of_nil|]. intros [|k p] v; [done|]. by cbn.
Qed.

(** *** Writing a path *)

Fixpoint escape_field (s : string) : string :=
  match s with
  | EmptyString => EmptyString
  | String c s =>
      if Ascii.eqb c "\" || Ascii.eqb c "." then String "\" (String c (escape_field s))
      else String c (escape_field s)
  end.

Definition prepend (s : string) (parts : list string) : list string :=
  match parts with [] => [s] | p :: parts => String.append s p :: parts end.

Lemma attach_prepend c s parts : attach c (prepend s parts) = prepend (String c s) parts.
Proof. by destruct parts. Qed.

Lemma split_plain c s b :
  Ascii.eqb c "\" || Ascii.eqb c "." = false → split_unescaped b (String c s) = attach c (split_unescaped false s).
Proof. by destruct c as [[] [] [] [] [] [] [] []]. Qed.

Lemma unescape_plain c s :
  Ascii.eqb c "\" || Ascii.eqb c "." = false → unescape_slashes (String c s) = String c (unescape_slashes s).
Proof. by destruct c as [[] [] [] [] [] [] [] []]. Qed.

Lemma split_escaped s t :
  split_unescaped false (String.append (escape_field s) t) = prepend (escape_field s) (split_unescaped false t).
Proof.
  induction s as [|c s IH].
  { cbn [escape_field]. rewrite append_nil_l. pose proof (split_nonempty false t).
    by destruct (split_unescaped false t). }
  cbn [escape_field]. destruct (Ascii.eqb c "\" || Ascii.eqb c ".") eqn:E.
  - rewrite !append_cons, <-!attach_prepend, <-IH. apply orb_true_iff in E as [->%Ascii.eqb_eq| ->%Ascii.eqb_eq]; done.
  - by rewrite append_cons, split_plain, IH, attach_prepend.
Qed.

Lemma unescape_escape_field s : unescape_slashes (escape_field s) = s.
Proof.
  induction s as [|c s IH]; [done|]. cbn [escape_field].
  destruct (Ascii.eqb c "\" || Ascii.eqb c ".") eqn:E.
  - apply orb_true_iff in E as [->%Ascii.eqb_eq| ->%Ascii.eqb_eq]; cbn; by rewrite IH.
  - by rewrite unescape_plain, IH.
Qed.

Lemma append_nil_r s : String.append s EmptyString = s.
Proof. induction s as [|c s IH]; [done|]. by rewrite append_cons, IH. Qed.

Lemma split_field_escape parts :
  parts ≠ [] → _split_field (str_join "." (map escape_field parts)) = parts.
Proof.
  intros Hne. unfold _split_field.
  assert (split_unescaped false (str_join "." (map escape_field parts)) = map escape_field parts) as ->.
  { induction parts as [|s parts IH]; [done|]. destruct parts as [|s' parts].
    - cbn. pose proof (split_escaped s EmptyString) as Hs.
      rewrite append_nil_r in Hs. rewrite Hs. cbn. by rewrite append_nil_r.
    - change (str_join "." (map escape_field (s :: s' :: parts))) with
        (String.append (escape_field s) (String "." (str_join "." (map escape_field (s' :: parts))))).
      rewrite split_escaped. cbn [split_unescaped]. rewrite IH by done. cbn. by rewrite append_nil_r. }
  rewrite map_map. rewrite <-(map_id parts) at 2. apply map_ext, unescape_escape_field.
Qed.

(** only_fields, given paths written with their dots and backslashes escaped, never
    fails, copies every requested field that exists, and outputs nothing but requested
    fields and the dicts that lead to them. *)
Theorem only_fields_spec d paths :
  paths ≠ [] → Forall (λ p, p ≠ []) paths →
  ∃ out, only_fields d (map (λ p, str_join "." (map escape_field p)) paths) = Ok out ∧
    (∀ p v, p ∈ paths → json_get (JObj d) p = Some v → json_get (JObj out) p = Some v) ∧
    (∀ p v, p ≠ [] → json_get (JObj out) p = Some v → covered d paths p v).
Proof.
  intros Hne Hall.
  assert (map _split_field (map (λ p, str_join "." (map escape_field p)) paths) = paths) as Hsplit.
  { rewrite map_map. rewrite <-(map_id paths) at 2. apply map_ext_in. intros p Hp.
    apply split_field_escape. rewrite Forall_forall in Hall. by apply Hall, list_elem_of_In. }
  destruct (only_fields_selected d (map (λ p, str_join "." (map escape_field p)) paths)) as (out & Hout & Hsel).
  { by destruct paths. }
  rewrite Hsplit in Hsel. exists out. split; [done|]. split; apply Hsel.
Qed.
