(* ===== verification/FrozenEvent.v ===== *)
(** * Event objects and their signatures

    The concrete event classes of [synapse/events/__init__.py] over their
    dicts, [prune_event] and [clone_event] of [synapse/events/utils.py], and
    [synapse/crypto/event_signing.py]. Canonical JSON, SHA-256, base 64 and
    the signature scheme are parameters.

    [internal_metadata] is implemented in Rust: it is its dict of known fields
    and the three attributes kept outside of it. *)

From S2P Require Import Prelude PyJson PyDict RoomVersions EventAuth EventUtils.
From Stdlib Require Import Floats.SpecFloat Ascii.

(** [hashlib.sha256], [unpaddedbase64.encode_base64], [signedjson.sign]. *)
Class EventCrypto := {
  SigningKey : Type;
  sha256 : string → string;
  encode_base64 : bool → string → string;           (* urlsafe *)
  sign_json : jobj → string → SigningKey → jobj
}.

(** ** The classes *)

Record EventInternalMetadata := mkMetadata {
  md_data : jobj;
  stream_ordering : option Z;
  md_instance_name : option string;
  outlier : bool
}.

Record FrozenEvent := mkFrozen {
  fe_room_version : RoomVersion;
  fe_signatures : jobj;
  fe_unsigned : jobj;
  fe_rejected_reason : option string;
  fe_dict : jobj;
  internal_metadata : EventInternalMetadata
}.

(** [event_dict.pop("signatures", {})], copied. *)
Definition pop_signatures (event_dict : jobj) : res jobj :=
  items ← py_items (obj_get_default "signatures" (JObj []) event_dict);
  traverse (λ kv, sigs ← py_items kv.2; Ok (kv.1, JObj sigs)) items.

(** [dict(event_dict.pop("unsigned", {}))] of a dict. (A list of pairs, which
    [dict] takes as well, is refused.) *)
Definition pop_unsigned (event_dict : jobj) : res jobj :=
  match obj_get_default "unsigned" (JObj []) event_dict with
  | JObj d => Ok d
  | _ => Raise TypeError
  end.

(** [FrozenEvent], [FrozenEventV2] and [FrozenEventV3] differ in the event id:
    the first has it in the dict, the others refuse it there. *)
Definition check_event_id (room_version : RoomVersion) (event_dict : jobj) : res unit :=
  match event_format room_version with
  | ROOM_V1_V2 => obj_getitem "event_id" event_dict;; Ok tt
  | ROOM_V3 | ROOM_V4_PLUS => raise_if (obj_in "event_id" event_dict) AssertionError
  end.

Definition make_event_from_dict (event_dict : jobj) (room_version : RoomVersion)
    (internal_metadata_dict : jobj) (rejected_reason : option string) : res FrozenEvent :=
  signatures ← pop_signatures event_dict;
  unsigned ←
    (if event_format room_version is ROOM_V1_V2
     then unsigned ← pop_unsigned event_dict; check_event_id room_version event_dict;; Ok unsigned
     else check_event_id room_version event_dict;; pop_unsigned event_dict);
  Ok (mkFrozen room_version signatures unsigned rejected_reason
        (dict_pop "unsigned" (dict_pop "signatures" event_dict))
        (mkMetadata internal_metadata_dict None None false)).

Definition get_dict (e : FrozenEvent) : jobj :=
  dict_update (fe_dict e) [("signatures", JObj (fe_signatures e)); ("unsigned", JObj (fe_unsigned e))].
Arguments get_dict : simpl never.

(** [a - v] for an integer [a]: a float makes it a float. *)
Definition int_minus (a : Z) (v : json) : res json :=
  match v with
  | JInt z => Ok (JInt (a - z))
  | JBool b => Ok (JInt (a - if b then 1 else 0))
  | JFloat f =>
      match binary_normalize 53 1024 a 0 false with
      | S754_infinity _ => Raise OverflowError
      | g => Ok (JFloat (SFsub 53 1024 g f))
      end
  | _ => Raise TypeError
  end.

Definition get_pdu_json (time_now : option Z) (e : FrozenEvent) : res jobj :=
  unsigned ←
    match time_now, obj_get "age_ts" (fe_unsigned e) with
    | Some time_now, Some age_ts =>
        age ← int_minus time_now age_ts;
        age ← py_int age;
        Ok (dict_pop "age_ts" (dict_set "age" (JInt age) (fe_unsigned e)))
    | _, _ => Ok (fe_unsigned e)
    end;
  Ok (dict_set "unsigned" (JObj (dict_pop "redacted_because" unsigned)) (get_dict e)).

Definition get_templated_pdu_json (e : FrozenEvent) : res jobj :=
  if obj_in "hashes" (fe_dict e) then Ok (dict_pop "hashes" (fe_dict e)) else Raise KeyError.

(** ** Redacting and cloning events *)

(** Copy the bits of [internal_metadata] that [get_dict] does not return. *)
Definition copy_metadata (data : jobj) (old new : FrozenEvent) : FrozenEvent :=
  mkFrozen (fe_room_version new) (fe_signatures new) (fe_unsigned new) (fe_rejected_reason new)
    (fe_dict new)
    (mkMetadata data (stream_ordering (internal_metadata old))
       (md_instance_name (internal_metadata old)) (outlier (internal_metadata old))).

Definition prune_event (event : FrozenEvent) : res FrozenEvent :=
  pruned_event_dict ← prune_event_dict (fe_room_version event) (get_dict event);
  pruned_event ← make_event_from_dict pruned_event_dict (fe_room_version event)
    (md_data (internal_metadata event)) None;
  Ok (copy_metadata
        (dict_set "redacted" (JBool true) (md_data (internal_metadata pruned_event)))
        event pruned_event).

Definition clone_event (event : FrozenEvent) : res FrozenEvent :=
  new_event ← make_event_from_dict (get_dict event) (fe_room_version event)
    (md_data (internal_metadata event)) None;
  Ok (copy_metadata (md_data (internal_metadata new_event)) event new_event).

(** ** Hashes and signatures *)

Section Signing.
Context `{SignedJson} `{EventCrypto}.

(** The name of the hash is ["sha256"], the default of every caller. *)
Definition compute_content_hash (event_dict : jobj) : string * string :=
  let event_dict := foldl (λ d k, dict_pop k d) event_dict
    ["age_ts"; "unsigned"; "signatures"; "hashes"; "outlier"; "destinations"] in
  ("sha256", sha256 (encode_canonical_json (JObj event_dict))).

Definition compute_event_reference_hash (event : FrozenEvent) : res (string * string) :=
  tmp_event ← prune_event event;
  event_dict ← get_pdu_json None tmp_event;
  let event_dict := foldl (λ d k, dict_pop k d) event_dict ["signatures"; "age_ts"; "unsigned"] in
  Ok ("sha256", sha256 (encode_canonical_json (JObj event_dict))).

Definition frozen_event_id (e : FrozenEvent) : res json :=
  match event_format (fe_room_version e) with
  | ROOM_V1_V2 => obj_getitem "event_id" (fe_dict e)
  | ROOM_V3 =>
      h ← compute_event_reference_hash e; Ok (JStr (String "$" (encode_base64 false h.2)))
  | ROOM_V4_PLUS =>
      h ← compute_event_reference_hash e; Ok (JStr (String "$" (encode_base64 true h.2)))
  end.

Definition check_event_content_hash (event : FrozenEvent) : res bool :=
  pdu_json ← get_pdu_json None event;
  let '(name, expected_hash) := compute_content_hash pdu_json in
  match obj_get "hashes" (fe_dict event) with
  | Some (JObj hashes) =>
      match obj_get name hashes with
      | None => Raise (SynapseError 400 "Algorithm %s not in hashes %s" Codes.UNAUTHORIZED)
      | Some message_hash_base64 =>
          message_hash_bytes ←
            catch (decode_base64 message_hash_base64)
              (λ _, Raise (SynapseError 400 "Invalid base64: %s" Codes.UNAUTHORIZED));
          Ok (String.eqb message_hash_bytes expected_hash)
      end
  | _ => Raise (SynapseError 400 "Malformed 'hashes': %s" Codes.UNAUTHORIZED)
  end.

Definition compute_event_signature (room_version : RoomVersion) (event_dict : jobj)
    (signature_name : string) (signing_key : SigningKey) : res json :=
  redact_json ← prune_event_dict room_version event_dict;
  let redact_json := dict_pop "unsigned" (dict_pop "age_ts" redact_json) in
  obj_getitem "signatures" (sign_json redact_json signature_name signing_key).

(** The dict afterwards. *)
Definition add_hashes_and_signatures (room_version : RoomVersion) (event_dict : jobj)
    (signature_name : string) (signing_key : SigningKey) : res jobj :=
  let '(name, digest) := compute_content_hash event_dict in
  event_dict ←
    match obj_get_default "hashes" (JObj []) event_dict with
    | JObj hashes =>
        Ok (dict_set "hashes" (JObj (dict_set name (JStr (encode_base64 false digest)) hashes)) event_dict)
    | _ => Raise TypeError
    end;
  signatures ← compute_event_signature room_version event_dict signature_name signing_key;
  Ok (dict_set "signatures" signatures event_dict).
End Signing.
