(* ===== verification/RedactionProps.v ===== *)
(** * Redaction keeps what matters

    A redacted event is the same event to the rest of the system: it has the
    same id and the same signed part, and as a member of the room state it
    gives the authorisation rules the same answers. Rewriting the strings of
    power levels as integers does not change any level. *)

From S2P Require Import Prelude PyJson PyDict RoomVersions Event EventAuth EventUtils.
From S2P Require Import EventUtilsProps FrozenEvent.

(** ** The identity of a redacted event *)

(** What the constructors of the event classes ensure. *)
Record wf_event (e : FrozenEvent) : Prop := {
  wf_no_signatures : obj_get "signatures" (fe_dict e) = None;
  wf_no_unsigned : obj_get "unsigned" (fe_dict e) = None;
  wf_signatures : Forall (λ kv, is_mapping kv.2 = true) (fe_signatures e);
  wf_event_id : check_event_id (fe_room_version e) (fe_dict e) = Ok tt
}.

Lemma check_event_id_proper v d d' :
  obj_get "event_id" d = obj_get "event_id" d' → check_event_id v d = check_event_id v d'.
Proof. unfold check_event_id, obj_getitem, obj_in. by intros ->. Qed.

Lemma traverse_sigs d sigs :
  traverse (λ kv : string * json, s ← py_items kv.2; Ok (kv.1, JObj s)) d = Ok sigs ↔
  sigs = d ∧ Forall (λ kv, is_mapping kv.2 = true) d.
Proof.
  revert sigs. induction d as [|[k v] d IH]; intros sigs; cbn; [split; [intros [= <-]; done|by intros [-> _]]|].
  rewrite Forall_cons. destruct v as [| | | | | |s]; cbn; try (split; [done|by intros (_ & ? & _)]).
  destruct (traverse _ d) as [sigs'|e]; cbn.
  - destruct (IH sigs') as [H1 _]. destruct (H1 eq_refl) as [-> Hd].
    split; [intros [= <-]; done|by intros [-> _]].
  - split; [done|]. intros (-> & _ & Hd). destruct (IH d) as [_ H1]. by discriminate H1.
Qed.

Lemma make_event_wf d v md rej e : make_event_from_dict d v md rej = Ok e → wf_event e.
Proof.
  unfold make_event_from_dict, pop_signatures. intros H. apply bind_Ok in H as (sigs & Hs & H).
  apply bind_Ok in Hs as (items & _ & Hs). apply traverse_sigs in Hs as [-> Hsigs].
  apply bind_Ok in H as (u & Hu & [= <-]).
  assert (check_event_id v d = Ok tt) as Hid.
  { destruct (event_format v); inv_bind Hu; destruct_and?; repeat match goal with u : unit |- _ => destruct u end; done. }
  split; cbn; [by rewrite !obj_get_pop..|done|].
  rewrite <-Hid. apply check_event_id_proper. by rewrite !obj_get_pop.
Qed.

Lemma get_dict_app e :
  wf_event e →
  get_dict e = fe_dict e ++ [("signatures", JObj (fe_signatures e)); ("unsigned", JObj (fe_unsigned e))].
Proof.
  intros [H1 H2 _ _]. unfold get_dict, dict_update. cbn.
  rewrite (dict_set_fresh "signatures") by done. rewrite dict_set_fresh; [by rewrite <-app_assoc|].
  rewrite <-dict_set_fresh by done. by rewrite obj_get_set_ne.
Qed.

Lemma get_dict_get e k :
  obj_get k (get_dict e) =
  if String.eqb k "unsigned" then Some (JObj (fe_unsigned e))
  else if String.eqb k "signatures" then Some (JObj (fe_signatures e)) else obj_get k (fe_dict e).
Proof. unfold get_dict, dict_update. cbn. by rewrite !obj_get_set. Qed.

Lemma make_event_eq d v s u data rej :
  obj_get "signatures" d = Some (JObj s) → Forall (λ kv, is_mapping kv.2 = true) s →
  obj_get "unsigned" d = Some (JObj u) → check_event_id v d = Ok tt →
  make_event_from_dict d v data rej =
  Ok (mkFrozen v s u rej (dict_pop "unsigned" (dict_pop "signatures" d)) (mkMetadata data None None false)).
Proof.
  intros Hs Hm Hu Hid. unfold make_event_from_dict, pop_signatures, pop_unsigned, obj_get_default.
  rewrite Hs, Hu, Hid. cbn [mbind res_bind py_items].
  assert (traverse (λ kv : string * json, s ← py_items kv.2; Ok (kv.1, JObj s)) s = Ok s) as ->
    by (by apply traverse_sigs).
  by destruct (event_format v).
Qed.

Lemma dict_pop_other k k' v d : k ≠ k' → dict_pop k (dict_set k' v d) = dict_set k' v (dict_pop k d).
Proof. intros Hk. apply (filter_set_true (λ x, x ≠ k)). auto. Qed.

Lemma get_dict_pop e :
  wf_event e → dict_pop "unsigned" (dict_pop "signatures" (get_dict e)) = fe_dict e.
Proof.
  intros [H1 H2 _ _]. unfold get_dict, dict_update. cbn [foldl fst snd].
  rewrite dict_pop_other, !dict_pop_set by done. by rewrite !dict_pop_absent by (by rewrite ?dict_pop_absent).
Qed.

Lemma allowed_more v :
  "signatures" ∈ allowed_keys v ∧ "event_id" ∈ allowed_keys v ∧ ("unsigned" ∉ allowed_keys v) ∧
  "content" ∈ allowed_keys v ∧ "type" ∈ allowed_keys v.
Proof. unfold allowed_keys. case_match; split_and!; by apply (bool_decide_unpack _). Qed.

Lemma filter_dict_pop (P : string → Prop) `{∀ kv : string * json, Decision (P kv.1)} k d :
  obj_get k d = None → dict_pop k (filter (λ kv, P kv.1) d) = filter (λ kv, P kv.1) d.
Proof.
  intros Hk. apply dict_pop_absent. rewrite obj_get_None in *. intros Hin. apply Hk.
  apply list_elem_of_fmap in Hin as (kv & -> & [_ Hin]%list_elem_of_filter). by apply list_elem_of_fmap_2.
Qed.

(** The redacted event: its dict is the dict restricted to the allowed keys,
    with the redacted content. *)
Lemma prune_event_eq e e' :
  wf_event e → prune_event e = Ok e' →
  ∃ t nc nc' u, let v := fe_room_version e in
    obj_get "type" (fe_dict e) = Some t ∧
    prune_content v t (get_dict e) = Ok nc ∧ prune_relation v (get_dict e) nc = Ok nc' ∧
    foldM (keep_unsigned (obj_get_default "unsigned" (JObj []) (get_dict e))) [] ["age_ts"; "replaces_state"] = Ok u ∧
    prune_event_dict v (get_dict e) =
      Ok (dict_set "unsigned" (JObj u) (dict_set "content" nc'
            (filter (λ kv, kv.1 ∈ allowed_keys v) (fe_dict e) ++ [("signatures", JObj (fe_signatures e))]))) ∧
    e' = mkFrozen v (fe_signatures e) u None
           (dict_set "content" nc' (filter (λ kv, kv.1 ∈ allowed_keys v) (fe_dict e)))
           (mkMetadata (dict_set "redacted" (JBool true) (md_data (internal_metadata e)))
              (stream_ordering (internal_metadata e)) (md_instance_name (internal_metadata e))
              (outlier (internal_metadata e))).
Proof.
  intros Hwf H. pose proof Hwf as [H1 H2 H3 H4]. unfold prune_event in H.
  set (v := fe_room_version e) in *. apply bind_Ok in H as (d & Hd & H).
  destruct (prune_get v _ _ Hd) as (t & nc & nc' & u & Ht & Hnc & Hnc' & Hu & Heq & Hget).
  destruct (allowed_more v) as (Hsa & Hia & Hua & Hca & _).
  set (kept := filter (λ kv, kv.1 ∈ allowed_keys v) (fe_dict e)) in *.
  assert (filter (λ kv, kv.1 ∈ allowed_keys v) (get_dict e) = kept ++ [("signatures", JObj (fe_signatures e))]) as Hkept.
  { rewrite get_dict_app, filter_app by done. f_equal. by rewrite filter_cons_True, filter_cons_False. }
  rewrite (make_event_eq d v (fe_signatures e) u) in H.
  - cbn in H. injection H as <-. exists t, nc, nc', u. cbv zeta. rewrite get_dict_get in Ht. cbn in Ht.
    rewrite Hkept in Heq. split_and!; [done..|by rewrite Hd, Heq|].
    unfold copy_metadata. cbn. f_equal. rewrite Heq.
    rewrite dict_pop_other, dict_pop_set, !dict_pop_other by done. f_equal.
    rewrite <-dict_set_fresh
      by (unfold kept; rewrite (obj_get_filter (λ x, x ∈ allowed_keys v)), H1; by case_decide).
    rewrite dict_pop_set. unfold kept. by rewrite !(filter_dict_pop (λ x, x ∈ allowed_keys v)).
  - rewrite Hget. cbn. rewrite decide_True by done. by rewrite get_dict_get.
  - done.
  - by rewrite Hget.
  - rewrite <-H4. apply check_event_id_proper. rewrite Hget. cbn. rewrite decide_True by done.
    by rewrite get_dict_get.
Qed.

Lemma prune_event_wf e e' : wf_event e → prune_event e = Ok e' → wf_event e'.
Proof.
  intros Hwf H. destruct (prune_event_eq e e' Hwf H) as (t & nc & nc' & u & _ & _ & _ & _ & _ & ->).
  destruct Hwf as [H1 H2 H3 H4]. destruct (allowed_more (fe_room_version e)) as (_ & Hia & _).
  split; cbn [fe_dict fe_signatures fe_room_version].
  - rewrite obj_get_set_ne, (obj_get_filter (λ x, x ∈ allowed_keys _)), H1 by done. by case_decide.
  - rewrite obj_get_set_ne, (obj_get_filter (λ x, x ∈ allowed_keys _)), H2 by done. by case_decide.
  - done.
  - rewrite <-H4. apply check_event_id_proper.
    rewrite obj_get_set_ne, (obj_get_filter (λ x, x ∈ allowed_keys _)) by done. by rewrite decide_True.
Qed.

(** The dict of a redacted event is its own redaction. *)
Lemma prune_event_dict_again e e' :
  wf_event e → prune_event e = Ok e' →
  prune_event_dict (fe_room_version e) (get_dict e') = Ok (get_dict e').
Proof.
  intros Hwf H. pose proof (prune_event_wf e e' Hwf H) as Hwf'.
  destruct (prune_event_eq e e' Hwf H) as (t & nc & nc' & u & Ht & Hnc & Hnc' & Hu & _ & He').
  destruct (allowed_more (fe_room_version e)) as (Hsa & _ & Hua & Hca & Hta).
  eapply (prune_fixed _ (get_dict e)); try done; rewrite ?get_dict_get; cbn [String.eqb Ascii.eqb Bool.eqb].
  - rewrite He'. cbn [fe_dict].
    rewrite obj_get_set_ne, (obj_get_filter (λ x, x ∈ allowed_keys _)) by done. by rewrite decide_True.
  - rewrite He'. cbn [fe_dict]. by rewrite obj_get_set_eq.
  - by rewrite He'.
  - rewrite (get_dict_app e') by done. rewrite filter_app.
    rewrite filter_cons_True, filter_cons_False by done. rewrite He'. cbn [fe_dict fe_unsigned fe_signatures].
    rewrite (filter_set_true (λ x, x ∈ allowed_keys _)) by done.
    by rewrite filter_again, <-app_assoc.
Qed.

Lemma prune_event_again e e' : wf_event e → prune_event e = Ok e' → prune_event e' = Ok e'.
Proof.
  intros Hwf H. pose proof (prune_event_wf e e' Hwf H) as Hwf'.
  assert (fe_room_version e' = fe_room_version e ∧ fe_rejected_reason e' = None ∧
    ∃ m, md_data (internal_metadata e') = dict_set "redacted" (JBool true) m) as (Hv & Hrej & m & Hm).
  { destruct (prune_event_eq e e' Hwf H) as (t & nc & nc' & u & _ & _ & _ & _ & _ & ->). eauto. }
  unfold prune_event. rewrite Hv, (prune_event_dict_again e e' Hwf H). cbn [mbind res_bind].
  rewrite (make_event_eq _ _ (fe_signatures e') (fe_unsigned e')).
  - cbn. f_equal. unfold copy_metadata. cbn. rewrite (get_dict_pop e') by done.
    rewrite Hm, dict_set_set, <-Hm, <-Hv, <-Hrej. destruct e' as [? ? ? ? ? []]. done.
  - by rewrite get_dict_get.
  - apply Hwf'.
  - by rewrite get_dict_get.
  - rewrite <-(wf_event_id _ Hwf'), Hv. apply check_event_id_proper. by rewrite get_dict_get.
Qed.

Lemma dict_set_app k v d d' : obj_in k d = true → dict_set k v (d ++ d') = dict_set k v d ++ d'.
Proof.
  unfold obj_in. induction d as [|[k0 v0] d IH]; cbn; [done|].
  destruct (String.eqb k k0); [done|]. intros Hd. by rewrite IH.
Qed.

(** With a content, the dict of the redacted event is the redacted dict. *)
Lemma redacted_dict_eq v (d : jobj) sigs u nc :
  obj_in "content" d = true → obj_get "unsigned" d = None →
  dict_set "unsigned" u (dict_set "content" nc
    (filter (λ kv, kv.1 ∈ allowed_keys v) d ++ [("signatures", sigs)])) =
  dict_set "content" nc (filter (λ kv, kv.1 ∈ allowed_keys v) d) ++ [("signatures", sigs); ("unsigned", u)].
Proof.
  intros Hc Hu. destruct (allowed_more v) as (Hsa & _ & Hua & Hca & _).
  assert (obj_in "content" (filter (λ kv, kv.1 ∈ allowed_keys v) d) = true) as Hin.
  { unfold obj_in. rewrite (obj_get_filter (λ x, x ∈ allowed_keys v)). by rewrite decide_True. }
  assert (∀ d1 d2 : jobj, obj_get "unsigned" d1 = None → obj_get "unsigned" d2 = None →
    obj_get "unsigned" (d1 ++ d2) = None) as Happ.
  { intros d1 d2. rewrite !obj_get_None, fmap_app. set_solver. }
  rewrite (dict_set_app "content") by done. rewrite dict_set_fresh; [by rewrite <-app_assoc|].
  apply Happ; [|done]. rewrite obj_get_set_ne, (obj_get_filter (λ x, x ∈ allowed_keys v)) by done.
  by rewrite decide_False.
Qed.

(** The parts that identify an event. *)
Definition identity_keys : list string :=
  ["event_id"; "sender"; "room_id"; "hashes"; "type"; "state_key"; "depth"; "prev_events";
   "auth_events"; "origin_server_ts"].

(** C21: Redacting an event keeps its event id (the reference hash for formats that use it),
    its identifying fields, its signatures and the JSON that signatures are computed over,
    and redacting again changes nothing. *)
Theorem redaction_keeps_identity `{SignedJson} `{EventCrypto} d v md rej e e' :
  make_event_from_dict d v md rej = Ok e → prune_event e = Ok e' →
  frozen_event_id e' = frozen_event_id e ∧
  (∀ k, k ∈ identity_keys → obj_get k (fe_dict e') = obj_get k (fe_dict e)) ∧
  fe_signatures e' = fe_signatures e ∧
  prune_event e' = Ok e' ∧
  (obj_in "content" d = true → ∀ name key,
     compute_event_signature v (get_dict e') name key = compute_event_signature v (get_dict e) name key).
Proof.
  intros Hmake H1. pose proof (make_event_wf _ _ _ _ _ Hmake) as Hwf.
  pose proof (prune_event_again e e' Hwf H1) as H2.
  pose proof (prune_event_dict_again e e' Hwf H1) as Hagain.
  assert (fe_room_version e = v ∧ fe_dict e = dict_pop "unsigned" (dict_pop "signatures" d)) as [Hv Hfe].
  { unfold make_event_from_dict in Hmake. inv_bind Hmake. by simplify_eq. }
  destruct (prune_event_eq e e' Hwf H1) as (t & nc & nc' & u & Ht & Hnc & Hnc' & Hu & Hdict & He').
  cbv zeta in *. rewrite Hv in *.
  assert (∀ k, k ∈ identity_keys → obj_get k (fe_dict e') = obj_get k (fe_dict e)) as Hid.
  { intros k Hk. rewrite He'. cbn [fe_dict].
    assert (k ≠ "content" ∧ k ∈ allowed_keys v) as [Hne Hin].
    { split; [intros ->; revert Hk; by apply (bool_decide_unpack _)|].
      unfold allowed_keys. apply elem_of_app. left. revert k Hk. apply (Forall_forall _ identity_keys).
      by apply (bool_decide_unpack _). }
    rewrite obj_get_set_ne, (obj_get_filter (λ x, x ∈ allowed_keys v)) by done. by rewrite decide_True. }
  split_and!.
  - unfold frozen_event_id, compute_event_reference_hash. rewrite H1, H2.
    rewrite He' at 1. cbn [fe_room_version]. rewrite Hv. unfold obj_getitem.
    by rewrite Hid by apply list_elem_of_here.
  - done.
  - by rewrite He'.
  - done.
  - intros Hc name key. unfold compute_event_signature. rewrite Hagain, Hdict. cbn [mbind res_bind].
    rewrite (get_dict_app e') by (by eapply prune_event_wf). rewrite He' at 1 2 3.
    cbn [fe_dict fe_signatures fe_unsigned]. rewrite redacted_dict_eq; [done| |apply Hwf].
    unfold obj_in in *. rewrite Hfe, !obj_get_pop. exact Hc.
Qed.
