(* ===== verification/RedactionAuth.v ===== *)
(** * Redacted state and integer levels answer the same to the auth rules

    From room version 11 on, redacting the events of the room state does not
    change what the authorisation rules decide about a new event, unless the
    event is itself a power levels event or an invite that claims a third
    party invite: the rules for those two read fields that redaction drops.
    And the levels of a power levels event are the same after
    [copy_and_fixup_power_levels_contents]. *)

From S2P Require Import Prelude PyJson PyDict RoomVersions Event Identifiers EventAuth.
From S2P Require Import EventUtils EventUtilsProps.

(** ** Redacted events of the room state *)

(** The content that [prune_event_dict] gives an event. *)
Definition redacted_content (e : EventBase) : jobj :=
  let d := [("content", JObj (content e))] in
  match prune_content (room_version e) (JStr (ev_type e)) d ≫= prune_relation (room_version e) d with
  | Ok (JObj c) => c
  | _ => []
  end.

Definition redact (e : EventBase) : EventBase :=
  mkEvent (event_id e) (ev_type e) (sender e) (ev_room_id e) (ev_state_key e) (redacted_content e)
    (depth e) (origin_server_ts e) (prev_event_ids e) (auth_event_ids e) (signatures e)
    None (room_version e) None (ev_pdu_json e).

Lemma add_fields_total d c fs acc :
  obj_get "content" d = Some (JObj c) →
  ∃ nc, add_fields d fs acc = Ok nc ∧
    ∀ k, k ∈ fs → obj_get k nc = match obj_get k c with Some v => Some v | None => obj_get k acc end.
Proof.
  intros Hd. unfold add_fields. revert acc. induction fs as [|f fs IH]; intros acc;
    [exists acc; split; [done|]; by intros k []%not_elem_of_nil|].
  cbn [foldM]. rewrite (add_field_obj d c acc f Hd). cbn [mbind res_bind].
  set (acc' := match obj_get f c with Some v => _ | None => acc end).
  destruct (IH acc') as (nc & Hnc & Hget). exists nc. split; [done|].
  intros k [->|Hk]%elem_of_cons.
  - destruct (decide (f ∈ fs)) as [Hf|Hf].
    + rewrite (Hget f Hf). unfold acc'. by destruct (obj_get f c).
    + rewrite (add_fields_other d fs acc' nc f Hnc Hf). unfold acc'.
      destruct (obj_get f c); [apply obj_get_set_eq|done].
  - rewrite (Hget k Hk). destruct (obj_get k c) eqn:E; [done|]. unfold acc'.
    destruct (obj_get f c) eqn:Ef; [|done]. apply obj_get_set_ne. congruence.
Qed.

(** A field that redaction keeps. *)
Definition kept_field (v : RoomVersion) (t f : string) : Prop :=
  f ≠ "m.relates_to" ∧ (keeps_all v (JStr t) = true ∨ f ∈ content_fields v (JStr t)).

Lemma prune_relation_get v d c nc nc' :
  obj_get "content" d = Some (JObj c) → prune_relation v d (JObj nc) = Ok nc' →
  ∃ c', nc' = JObj c' ∧ ∀ f, f ≠ "m.relates_to" → obj_get f c' = obj_get f nc.
Proof.
  intros Hd H. apply prune_relation_Ok in H as [[-> _]|(c0 & r & [= <-] & -> & _)]; [eauto|].
  eexists. split; [done|]. intros f Hf. by apply obj_get_set_ne.
Qed.

Lemma prune_relation_total v d c nc :
  obj_get "content" d = Some (JObj c) → ∃ nc', prune_relation v d (JObj nc) = Ok nc'.
Proof.
  intros Hd. unfold prune_relation, obj_getitem. rewrite Hd. cbn. repeat case_match; cbn; eauto.
Qed.

Lemma prune_object v t d c :
  obj_get "content" d = Some (JObj c) →
  ∃ c', prune_content v (JStr t) d ≫= prune_relation v d = Ok (JObj c') ∧
    ∀ f, kept_field v t f → obj_get f c' = obj_get f c.
Proof.
  intros Hd.
  assert (∃ nc, prune_content v (JStr t) d = Ok (JObj nc) ∧
    ∀ f, kept_field v t f → obj_get f nc = obj_get f c) as (nc & -> & Hnc).
  { rewrite prune_content_fields. destruct (keeps_all v (JStr t)) eqn:Hall.
    { exists c. unfold obj_getitem. by rewrite Hd. }
    destruct (add_fields_total d c (content_fields v (JStr t)) [] Hd) as (nc & -> & Hget). cbn.
    assert (∀ f, kept_field v t f → obj_get f nc = obj_get f c) as Hf.
    { intros f [_ [Hk|Hk]]; [congruence|]. rewrite (Hget f Hk). by destruct (obj_get f c). }
    destruct (keeps_invite v (JStr t)) eqn:Hinv; [|by exists nc].
    unfold prune_invite, obj_getitem. rewrite Hd. cbn.
    repeat case_match; cbn; eauto. eexists. split; [done|]. intros f Hk. rewrite obj_get_set_ne; [auto|].
    intros ->. destruct Hk as [_ [Hk|Hk]]; [congruence|].
    destruct (content_fields_nodup v (JStr t)) as (_ & _ & Hn). by apply Hn. }
  cbn [mbind res_bind]. destruct (prune_relation_total v d c nc Hd) as [nc' Hnc'].
  destruct (prune_relation_get v d c nc nc' Hd Hnc') as (c' & -> & Hc'). exists c'. split; [done|].
  intros f Hf. rewrite Hc' by apply Hf. auto.
Qed.

Lemma redact_get e f :
  kept_field (room_version e) (ev_type e) f → obj_get f (content (redact e)) = obj_get f (content e).
Proof.
  intros Hk. cbn. unfold redacted_content.
  destruct (prune_object (room_version e) (ev_type e) [("content", JObj (content e))] (content e) eq_refl)
    as (c' & -> & Hget). auto.
Qed.

(** [redact] is what [prune_event_dict] does to an event's dict. *)
Lemma redact_prune e d d' :
  obj_get "type" d = Some (JStr (ev_type e)) → obj_get "content" d = Some (JObj (content e)) →
  prune_event_dict (room_version e) d = Ok d' → obj_get "content" d' = Some (JObj (content (redact e))).
Proof.
  intros Ht Hc H. destruct (prune_get _ _ _ H) as (t & nc & nc' & u & Ht' & Hnc & Hnc' & _ & _ & Hget).
  rewrite Hget. cbn. f_equal. rewrite Ht in Ht'. injection Ht' as <-. unfold redacted_content.
  destruct (prune_object (room_version e) (ev_type e) [("content", JObj (content e))] (content e) eq_refl)
    as (c' & Hc' & _). rewrite Hc'.
  assert (prune_content (room_version e) (JStr (ev_type e)) [("content", JObj (content e))] =
    prune_content (room_version e) (JStr (ev_type e)) d) as Heq.
  { rewrite !prune_content_fields. unfold add_fields, prune_invite, obj_getitem. rewrite Hc.
    destruct (keeps_all _ _); [done|].
    rewrite (foldM_ext (add_field [("content", JObj (content e))]) (add_field d)); [done|].
    intros s x _. unfold add_field, obj_getitem. by rewrite Hc. }
  rewrite Heq, Hnc in Hc'. cbn [mbind res_bind] in Hc'.
  unfold prune_relation, obj_getitem in Hc', Hnc'. rewrite Hc in Hnc'. cbn [obj_get String.eqb Ascii.eqb Bool.eqb] in Hc'.
  rewrite Hnc' in Hc'. by injection Hc' as ->.
Qed.

(** The events [redacted] chooses are redacted, the others left as they are. *)
Definition redact_some (redacted : EventBase → bool) (e : EventBase) : EventBase :=
  if redacted e then redact e else e.

Lemma redact_some_version r e : room_version (redact_some r e) = room_version e.
Proof. unfold redact_some. by case_match. Qed.
Lemma redact_some_sender r e : sender (redact_some r e) = sender e.
Proof. unfold redact_some. by case_match. Qed.
Lemma redact_some_id r e : event_id (redact_some r e) = event_id e.
Proof. unfold redact_some. by case_match. Qed.

Section RedactedState.
Context (redacted : EventBase → bool).
Context (v : RoomVersion) (Hv : updated_redaction_rules v = true).
Context (auth : StateMap EventBase).
Context (Hst : ∀ k e, auth !! k = Some e → ev_type e = k.1 ∧ room_version e = v).

Abbreviation auth' := (redact_some redacted <$> auth : StateMap EventBase).

Lemma redacted_field k e f :
  auth !! k = Some e → kept_field v k.1 f →
  obj_get f (content (redact_some redacted e)) = obj_get f (content e).
Proof.
  intros [Ht Hr]%Hst Hk. unfold redact_some. case_match; [|done]. apply redact_get. by rewrite Ht, Hr.
Qed.

(** The fields the rules read of each type of event. *)
Lemma kept_power_level f :
  f ∈ ["users"; "users_default"; "events"; "events_default"; "state_default"; "ban"; "kick"; "redact"; "invite"] →
  kept_field v EventTypes.PowerLevels f.
Proof.
  intros Hf. split; [intros ->; revert Hf; by apply (bool_decide_unpack _)|right].
  unfold content_fields. cbn [py_eq_str]. rewrite Hv. exact Hf.
Qed.

Lemma kept_create f : f ≠ "m.relates_to" → kept_field v EventTypes.Create f.
Proof. intros Hf. split; [done|left]. unfold keeps_all. by rewrite Hv. Qed.

Lemma kept_membership : kept_field v EventTypes.Member "membership".
Proof. split; [done|right]. apply list_elem_of_here. Qed.

Lemma kept_join_rule : kept_field v EventTypes.JoinRules "join_rule".
Proof. split; [done|right]. apply list_elem_of_here. Qed.

Lemma obj_get_default_ext k def d d' :
  obj_get k d' = obj_get k d → obj_get_default k def d' = obj_get_default k def d.
Proof. unfold obj_get_default. by intros ->. Qed.

Lemma kept_level pl f def :
  auth !! (EventTypes.PowerLevels, "") = Some pl →
  f ∈ ["users"; "users_default"; "events"; "events_default"; "state_default"; "ban"; "kick"; "redact"; "invite"] →
  obj_get f (content (redact_some redacted pl)) = obj_get f (content pl) ∧
  obj_get_default f def (content (redact_some redacted pl)) = obj_get_default f def (content pl).
Proof.
  intros Hpl Hf. pose proof (redacted_field _ _ f Hpl (kept_power_level f Hf)) as Heq.
  split; [done|by apply obj_get_default_ext].
Qed.

Lemma redacted_user_level u : get_user_power_level u auth' = get_user_power_level u auth.
Proof.
  unfold get_user_power_level, get_power_level_event. rewrite !lookup_fmap.
  destruct (auth !! (EventTypes.PowerLevels, "")) as [pl|] eqn:Ep; cbn [fmap option_fmap option_map].
  - by rewrite (proj2 (kept_level pl "users" _ Ep ltac:(by apply (bool_decide_unpack _)))),
      (proj2 (kept_level pl "users_default" _ Ep ltac:(by apply (bool_decide_unpack _)))).
  - destruct (auth !! (EventTypes.Create, "")) as [ce|] eqn:Ec; cbn [fmap option_fmap option_map]; [|done].
    unfold obj_getitem. rewrite ?redact_some_version, ?redact_some_sender.
    by rewrite <-(redacted_field _ _ EventContentFields.ROOM_CREATOR Ec) by (by apply kept_create).
Qed.

Lemma redacted_named_level name def :
  name ∈ ["ban"; "kick"; "redact"; "invite"] → get_named_level auth' name def = get_named_level auth name def.
Proof.
  intros Hn. unfold get_named_level, get_power_level_event. rewrite !lookup_fmap.
  destruct (auth !! (EventTypes.PowerLevels, "")) as [pl|] eqn:Ep; cbn [fmap option_fmap option_map]; [|done].
  rewrite (proj1 (kept_level pl name JNull Ep ltac:(set_solver))). done.
Qed.

Lemma redacted_send_level t sk :
  get_send_level t sk (auth' !! (EventTypes.PowerLevels, "")) =
  get_send_level t sk (auth !! (EventTypes.PowerLevels, "")).
Proof.
  unfold get_send_level. rewrite lookup_fmap.
  destruct (auth !! (EventTypes.PowerLevels, "")) as [pl|] eqn:Ep; cbn [fmap option_fmap option_map]; [|done].
  rewrite !(λ f d Hf, proj2 (kept_level pl f d Ep Hf)) by (by apply (bool_decide_unpack _)). done.
Qed.

Lemma redacted_federate : _can_federate auth' = _can_federate auth.
Proof.
  unfold _can_federate. rewrite lookup_fmap.
  destruct (auth !! (EventTypes.Create, "")) as [ce|] eqn:Ec; cbn [fmap option_fmap option_map]; [|done].
  by rewrite (obj_get_default_ext _ _ (content ce)) 
    by (apply (redacted_field _ _ _ Ec); by apply kept_create).
Qed.

Lemma redacted_membership_is u m :
  membership_is (auth' !! (EventTypes.Member, u)) m = membership_is (auth !! (EventTypes.Member, u)) m.
Proof.
  rewrite lookup_fmap. destruct (auth !! (EventTypes.Member, u)) as [e|] eqn:E; cbn [fmap option_fmap option_map]; [|done].
  unfold membership_is, membership, obj_getitem.
  by rewrite (redacted_field _ _ "membership" E kept_membership).
Qed.

Lemma redacted_join_rule :
  match auth' !! (EventTypes.JoinRules, "") with
  | Some e => obj_get_default "join_rule" (JStr JoinRules.INVITE) (content e)
  | None => JStr JoinRules.INVITE
  end =
  match auth !! (EventTypes.JoinRules, "") with
  | Some e => obj_get_default "join_rule" (JStr JoinRules.INVITE) (content e)
  | None => JStr JoinRules.INVITE
  end.
Proof.
  rewrite lookup_fmap. destruct (auth !! (EventTypes.JoinRules, "")) as [e|] eqn:E; [|done].
  cbn [fmap option_fmap option_map]. apply obj_get_default_ext.
  apply (redacted_field _ _ _ E), kept_join_rule.
Qed.

Lemma redacted_membership_lookup rv event m :
  membership_lookup rv event auth' m = membership_lookup rv event auth m.
Proof.
  unfold membership_lookup. rewrite redacted_federate, redacted_join_rule.
  rewrite !redacted_named_level by set_solver.
  destruct (state_key event) as [sk|]; [|done]. cbn [mbind res_bind].
  by rewrite !redacted_membership_is, !redacted_user_level.
Qed.

Lemma redacted_creator_join rv event m :
  is_creator_join rv event auth' m = is_creator_join rv event auth m.
Proof.
  unfold is_creator_join. rewrite lookup_fmap.
  destruct (auth !! (EventTypes.Create, "")) as [ce|] eqn:Ec; cbn [fmap option_fmap option_map]; [|done].
  unfold obj_getitem. rewrite ?redact_some_id, ?redact_some_sender.
  by rewrite <-(redacted_field _ _ EventContentFields.ROOM_CREATOR Ec) by (by apply kept_create).
Qed.

Lemma redacted_joined_room u j rid :
  _check_joined_room (auth' !! (EventTypes.Member, u)) j rid =
  _check_joined_room (auth !! (EventTypes.Member, u)) j rid.
Proof. unfold _check_joined_room. by rewrite redacted_membership_is. Qed.

Lemma redacted_join rv event i : check_join rv event auth' i = check_join rv event auth i.
Proof.
  unfold check_join. repeat (case_match; try done). cbn [state_map_get_json].
  unfold state_map_get_json, get_user_power_level_json.
  repeat case_match; try done. cbn. apply bind_ext; [done|]. intros rid _.
  rewrite redacted_joined_room. apply bind_ext; [done|]. intros ? _. by rewrite redacted_user_level.
Qed.

Lemma redacted_membership_branch rv event i :
  check_membership_branch rv event auth' i = check_membership_branch rv event auth i.
Proof. unfold check_membership_branch. by rewrite redacted_join, redacted_named_level by set_solver. Qed.

Lemma redacted_membership_change `{SignedJson} rv event :
  obj_in "third_party_invite" (content event) = false →
  _is_membership_change_allowed rv event auth' = _is_membership_change_allowed rv event auth.
Proof.
  intros Htp. unfold _is_membership_change_allowed. rewrite Htp.
  apply bind_ext; [done|]. intros m _. rewrite redacted_creator_join. apply bind_ext; [done|].
  intros [] _; [done|]. rewrite redacted_membership_lookup. apply bind_ext; [done|]. intros i _.
  rewrite andb_false_r. by rewrite redacted_membership_branch.
Qed.

Lemma redacted_can_send `{Netaddr} event : _can_send_event event auth' = _can_send_event event auth.
Proof.
  unfold _can_send_event, get_power_level_event. rewrite redacted_send_level.
  apply bind_ext; [done|]. intros sl _. rewrite redacted_user_level.
  apply bind_ext; [done|]. intros ul _. apply bind_ext; [done|]. intros _ _.
  repeat (case_match; try done). apply bind_ext; [|done]. apply bind_ext; [done|]. intros owner _.
  by rewrite redacted_user_level.
Qed.

Lemma redacted_check_redaction rv event : check_redaction rv event auth' = check_redaction rv event auth.
Proof. unfold check_redaction. by rewrite redacted_user_level, redacted_named_level by set_solver. Qed.

Lemma redacted_sender_in_room event :
  _check_event_sender_in_room event auth' = _check_event_sender_in_room event auth.
Proof.
  unfold _check_event_sender_in_room. apply bind_ext; [done|]. intros rid _. apply redacted_joined_room.
Qed.

Lemma redacted_rules `{Netaddr} `{SignedJson} event :
  ev_type event ≠ EventTypes.PowerLevels → obj_in "third_party_invite" (content event) = false →
  check_rules_dict event auth' = check_rules_dict event auth.
Proof.
  intros Hpl Htp. unfold check_rules_dict.
  rewrite redacted_federate, redacted_membership_change, redacted_sender_in_room, redacted_user_level,
    redacted_named_level, redacted_can_send, redacted_check_redaction by (done || set_solver).
  by apply String.eqb_neq in Hpl as ->.
Qed.
End RedactedState.

Lemma auth_dict_redact r l acc :
  foldM (λ (d : StateMap EventBase) e, sk ← state_key e; Ok (<[(ev_type e, sk) := e]> d))
    (redact_some r <$> acc : StateMap EventBase) (map (redact_some r) l) =
  (fmap (redact_some r) : StateMap EventBase → StateMap EventBase) <$>
    foldM (λ (d : StateMap EventBase) e, sk ← state_key e; Ok (<[(ev_type e, sk) := e]> d)) acc l.
Proof.
  revert acc. induction l as [|e l IH]; intros acc; [done|]. cbn [map foldM].
  assert (state_key (redact_some r e) = state_key e ∧ ev_type (redact_some r e) = ev_type e) as [-> ->]
    by (unfold redact_some; by case_match).
  destruct (state_key e) as [sk|]; [|done]. cbn [mbind res_bind]. rewrite <-IH. by rewrite fmap_insert.
Qed.

Lemma auth_dict_keys v l d :
  Forall (λ e, room_version e = v) l → auth_dict_of l = Ok d →
  ∀ k e, d !! k = Some e → ev_type e = k.1 ∧ room_version e = v.
Proof.
  intros Hl H. rewrite Forall_forall in Hl.
  refine (foldM_ind (λ d : StateMap EventBase, ∀ k e, d !! k = Some e → ev_type e = k.1 ∧ room_version e = v)
    _ _ _ _ _ _ H); [by intros k e ?%lookup_empty_Some|].
  intros d1 x d2 Hx Hd1 H2 k e He. apply bind_Ok in H2 as (sk & Hsk & [= <-]).
  apply lookup_insert_Some in He as [[<- <-]|[_ He]]; auto.
Qed.

(** C22: In room versions with the MSC2176 redaction rules, redacting any choice of the
    events of the room state leaves the verdict of the authorisation rules on a new event
    unchanged, other than for power levels events and for events with a third party invite.
    *)
Theorem redacted_state_same_rules `{Netaddr} `{SignedJson} v event (redacted : EventBase → bool) (state : list EventBase) :
  updated_redaction_rules v = true → Forall (λ e, room_version e = v) state →
  ev_type event ≠ EventTypes.PowerLevels → obj_in "third_party_invite" (content event) = false →
  check_state_dependent_auth_rules event (map (redact_some redacted) state) =
  check_state_dependent_auth_rules event state.
Proof.
  intros Hv Hst Hpl Htp. unfold check_state_dependent_auth_rules. case_match; [done|].
  unfold auth_dict_of at 1. pose proof (auth_dict_redact redacted state ∅) as Heq. rewrite fmap_empty in Heq. rewrite Heq.
  fold (auth_dict_of state). destruct (auth_dict_of state) as [d|e] eqn:E; [|done]. cbn.
  apply (redacted_rules redacted v Hv d); [|done..]. by eapply auth_dict_keys.
Qed.

(** ** Levels written as strings *)

Lemma obj_get_Forall2 (R : json → json → Prop) (d d' : jobj) k :
  d'.*1 = d.*1 → Forall2 R d.*2 d'.*2 → option_Forall2 R (obj_get k d) (obj_get k d').
Proof.
  revert d'. induction d as [|[k0 v] d IH]; intros d' Hk Hv; destruct d' as [|[k1 w] d']; try done.
  - constructor.
  - rewrite !fmap_cons in *. cbn in Hk. injection Hk as -> Hk. apply Forall2_cons in Hv as [Hvw Hv].
    cbn [obj_get]. destruct (String.eqb k k0); [by constructor|auto].
Qed.

Definition same_level (v w : json) : Prop := fixup_value v = Ok w.

Lemma level_value_py_int v w : level_value v = Ok w → py_int v = py_int w ∧ v ≠ JNull ∧ w ≠ JNull.
Proof. destruct v; cbn; try done; [by intros [= <-]|]. case_match; intros [= <-]. done. Qed.

(** A level or a dict of levels, before and after. *)
Lemma same_level_cases v w :
  same_level v w →
  v ≠ JNull ∧ w ≠ JNull ∧ py_int v = py_int w ∧
  ∀ k, (∃ e, py_get k v = Raise e ∧ py_get k w = Raise e) ∨
       ∃ o o', py_get k v = Ok o ∧ py_get k w = Ok o' ∧ option_Forall2 same_level o o'.
Proof.
  unfold same_level. destruct v as [| | | |s| |d]; cbn [fixup_value]; intros Hw; try done.
  - cbn in Hw. injection Hw as <-. split_and!; [done..|]. intros k. left. by eexists.
  - destruct (level_value_py_int _ _ Hw) as (? & ? & ?). split_and!; [done..|]. intros k. left.
    cbn in Hw. case_match; simplify_eq. by eexists.
  - apply bind_Ok in Hw as (ws & Hws & [= <-]). split_and!; [done..|]. intros k. right. cbn.
    eexists _, _. split_and!; [done..|].
    apply traverse_length in Hws as Hl. rewrite length_fmap in Hl. apply traverse_Ok in Hws.
    destruct (zip_keys d.*1 ws) as [Hk Hv]; [by rewrite length_fmap|].
    apply obj_get_Forall2; [done|]. rewrite Hv. eapply Forall2_impl; [done|]. cbn. intros x y Hxy.
    by destruct x.
Qed.

Definition with_content (c : jobj) (e : EventBase) : EventBase :=
  mkEvent (event_id e) (ev_type e) (sender e) (ev_room_id e) (ev_state_key e) c
    (depth e) (origin_server_ts e) (prev_event_ids e) (auth_event_ids e) (signatures e)
    (ev_redacts e) (room_version e) (rejected_reason e) (ev_pdu_json e).

(** A level looked up in a dict of levels. *)
Lemma same_level_get k dir old new :
  (∀ k, option_Forall2 same_level (obj_get k old) (obj_get k new)) →
  (∃ e, py_get k (obj_get_default dir (JObj []) old) = Raise e ∧
        py_get k (obj_get_default dir (JObj []) new) = Raise e) ∨
  ∃ o o', py_get k (obj_get_default dir (JObj []) old) = Ok o ∧
          py_get k (obj_get_default dir (JObj []) new) = Ok o' ∧ option_Forall2 same_level o o'.
Proof.
  intros Hget. unfold obj_get_default. destruct (Hget dir) as [v w Hvw|].
  - apply (same_level_cases v w Hvw).
  - right. exists None, None. cbn. split_and!; [done..|constructor].
Qed.

Lemma same_level_default k def old new :
  (∀ k, option_Forall2 same_level (obj_get k old) (obj_get k new)) → def ≠ JNull →
  py_int (obj_get_default k def old) = py_int (obj_get_default k def new) ∧
  obj_get_default k def old ≠ JNull ∧ obj_get_default k def new ≠ JNull.
Proof.
  intros Hget Hdef. unfold obj_get_default. destruct (Hget k) as [v w Hvw|]; [|done].
  destruct (same_level_cases v w Hvw) as (? & ? & ? & _). done.
Qed.

Lemma is_none_not_null v : v ≠ JNull → is_none (Some v) = false.
Proof. by destruct v. Qed.

(** copy_and_fixup_power_levels_contents is idempotent and leaves every user, named and
    send level the authorisation rules compute as it was. *)
Theorem fixup_keeps_levels old new (auth : StateMap EventBase) e :
  distinct_keys old → copy_and_fixup_power_levels_contents (JObj old) = Ok new →
  copy_and_fixup_power_levels_contents (JObj new) = Ok new ∧
  let levels c : StateMap EventBase := <[(EventTypes.PowerLevels, "") := with_content c e]> auth in
  (∀ u, get_user_power_level u (levels new) = get_user_power_level u (levels old)) ∧
  (∀ name def, get_named_level (levels new) name def = get_named_level (levels old) name def) ∧
  (∀ t sk, get_send_level t sk (get_power_level_event (levels new)) =
           get_send_level t sk (get_power_level_event (levels old))).
Proof.
  intros Hd Hfix. split; [by eapply fixup_again|]. destruct (fixup_distinct old new Hd Hfix) as (Hk & Hv & _).
  pose proof (λ k, obj_get_Forall2 _ old new k Hk Hv) as Hget. fold same_level in Hget. cbv zeta.
  unfold get_user_power_level, get_named_level, get_send_level, get_power_level_event.
  rewrite !lookup_insert_eq. cbn [content with_content]. split_and!.
  - intros u. destruct (same_level_default "users_default" (JInt 0) old new Hget) as (Heq & Hn1 & Hn2); [done|].
    destruct (same_level_get u "users" old new Hget) as [(ex & -> & ->)|(o & o' & -> & -> & Ho)]; [done|].
    cbn [mbind res_bind]. destruct Ho as [v w Hvw|].
    + destruct (same_level_cases v w Hvw) as (H1 & H2 & H3 & _). by rewrite !is_none_not_null.
    + cbv zeta. change (is_none None) with true. cbv iota. by rewrite !is_none_not_null.
  - intros name def. destruct (Hget name) as [v w Hvw|]; [|done].
    destruct (same_level_cases v w Hvw) as (H1 & H2 & H3 & _). by destruct v, w.
  - intros t sk. destruct (same_level_get t "events" old new Hget) as [(ex & -> & ->)|(o & o' & -> & -> & Ho)]; [done|].
    cbn [mbind res_bind]. destruct Ho as [v w Hvw|].
    + destruct (same_level_cases v w Hvw) as (H1 & H2 & H3 & _). by rewrite !is_none_not_null.
    + cbn [is_none]. destruct sk; symmetry; by apply same_level_default.
Qed.
