(* ===== verification/Visibility.v ===== *)
(** * Visibility of events: [synapse/visibility.py]

    Which events a user may see, and which users may see an event. Events are
    event objects over their dicts ([FrozenEvent]); what the functions fetch
    from the database (the state at the events, ignored and erased users,
    retention policies, the time) is an argument. *)

From S2P Require Import Prelude PyJson PyDict RoomVersions Event EventAuth StateFilter EventUtils FrozenEvent.
From Stdlib Require Import Floats.SpecFloat Ascii.

(** ** Attributes *)

(** [event.k] for a [DictProperty] *)
Definition event_attr (k : string) (e : FrozenEvent) : res json :=
  match obj_get k (fe_dict e) with Some v => Ok v | None => Raise (AttributeError k) end.

(** [event.is_state()] *)
Definition event_is_state (e : FrozenEvent) : bool := negb (is_none (obj_get "state_key" (fe_dict e))).

(** [event.membership] *)
Definition event_membership (e : FrozenEvent) : res json :=
  c ← event_attr "content" e; py_getitem (JStr "membership") c.

(** [event.internal_metadata.is_soft_failed()] *)
Definition is_soft_failed (e : FrozenEvent) : bool :=
  match obj_get "soft_failed" (md_data (internal_metadata e)) with Some (JBool b) => b | _ => false end.

(** [event.type == EventTypes.Member and event.state_key == user_id] *)
Definition is_own_membership (user_id : string) (e : FrozenEvent) : res bool :=
  t ← event_attr "type" e;
  if py_eq_str t EventTypes.Member
  then sk ← event_attr "state_key" e; Ok (py_eq_str sk user_id)
  else Ok false.

(** [v < z] for an integer [z]. *)
Definition py_lt_int (v : json) (z : Z) : res bool :=
  match v with
  | JInt x => Ok (x <? z)
  | JBool b => Ok ((if b then 1 else 0) <? z)
  | JFloat (S754_zero _) => Ok (0 <? z)
  | JFloat (S754_infinity s) => Ok s
  | JFloat S754_nan => Ok false
  | JFloat (S754_finite s m e) =>
      let x := if s then Z.neg m else Z.pos m in
      Ok (if 0 <=? e then x * 2 ^ e <? z else x <? z * 2 ^ (- e))
  | _ => Raise TypeError
  end.

(** ** Priorities *)

Definition VISIBILITY_PRIORITY : list string :=
  [HistoryVisibility.WORLD_READABLE; HistoryVisibility.SHARED; HistoryVisibility.INVITED;
   HistoryVisibility.JOINED].

Definition MEMBERSHIP_PRIORITY : list string :=
  [Membership.JOIN; Membership.INVITE; Membership.KNOCK; Membership.LEAVE; Membership.BAN].

Definition _HISTORY_VIS_KEY : StateKey := (EventTypes.RoomHistoryVisibility, "").

(** [l.index(s)] *)
Fixpoint tuple_index (l : list string) (s : string) : res nat :=
  match l with
  | [] => Raise ValueError
  | x :: l => if String.eqb x s then Ok O else S <$> tuple_index l s
  end.

(** [if v not in priorities: v = default], for a value that may be anything. *)
Definition normalise (priorities : list string) (default : string) (v : option json) : string :=
  match v with
  | Some (JStr s) => if existsb (String.eqb s) priorities then s else default
  | _ => default
  end.

(** ** The checks *)

Definition get_effective_room_visibility_from_state (state : StateMap FrozenEvent) : res string :=
  match state !! _HISTORY_VIS_KEY with
  | None => Ok HistoryVisibility.SHARED
  | Some visibility_event =>
      c ← event_attr "content" visibility_event;
      visibility ← py_get "history_visibility" c;
      Ok (normalise VISIBILITY_PRIORITY HistoryVisibility.SHARED visibility)
  end.

Inductive _CheckVisibility := ALLOWED | MAYBE_DENIED.
Inductive _CheckFilter := MAYBE_ALLOWED | DENIED.

Definition _check_history_visibility (event : FrozenEvent) (visibility : string) (is_peeking : bool) :
    res _CheckVisibility :=
  t ← event_attr "type" event;
  visibility ←
    (if py_eq_str t EventTypes.RoomHistoryVisibility then
       prev_visibility ←
         py_get "history_visibility" (obj_get_default "prev_content" (JObj []) (fe_unsigned event));
       let prev_visibility := normalise VISIBILITY_PRIORITY HistoryVisibility.SHARED prev_visibility in
       new_priority ← tuple_index VISIBILITY_PRIORITY visibility;
       old_priority ← tuple_index VISIBILITY_PRIORITY prev_visibility;
       Ok (if (old_priority <? new_priority)%nat then prev_visibility else visibility)
     else Ok visibility);
  if String.eqb visibility HistoryVisibility.SHARED && negb is_peeking then Ok ALLOWED
  else if String.eqb visibility HistoryVisibility.WORLD_READABLE then Ok ALLOWED
  else Ok MAYBE_DENIED.

Record _CheckMembershipReturn := { allowed : bool; joined : bool }.

(** The membership that decides for the user's own membership event: the more
    joined of the old and the new one. [None]: the early return for leaving. *)
Definition own_membership (event : FrozenEvent) : res (option string) :=
  c ← event_attr "content" event;
  membership ← py_get "membership" c;
  let membership := normalise MEMBERSHIP_PRIORITY "leave" membership in
  prev_membership ← py_get "membership" (obj_get_default "prev_content" (JObj []) (fe_unsigned event));
  let prev_membership := normalise MEMBERSHIP_PRIORITY "leave" prev_membership in
  if String.eqb membership "leave"
     && (String.eqb prev_membership "join" || String.eqb prev_membership "invite")
  then Ok None
  else
    new_priority ← tuple_index MEMBERSHIP_PRIORITY membership;
    old_priority ← tuple_index MEMBERSHIP_PRIORITY prev_membership;
    Ok (Some (if (old_priority <? new_priority)%nat then prev_membership else membership)).

(** The end of [_check_membership]. *)
Definition membership_allows (membership : option json) (visibility : string) (is_peeking : bool) :
    _CheckMembershipReturn :=
  let is_m m := match membership with Some v => py_eq_str v m | None => false end in
  if is_m Membership.JOIN then {| allowed := true; joined := true |}
  else if String.eqb visibility HistoryVisibility.JOINED then {| allowed := false; joined := false |}
  else if String.eqb visibility HistoryVisibility.INVITED then
    {| allowed := is_m Membership.INVITE; joined := false |}
  else if String.eqb visibility HistoryVisibility.SHARED && is_peeking then
    {| allowed := false; joined := false |}
  else {| allowed := true; joined := false |}.

Definition _check_membership (user_id : string) (event : FrozenEvent) (visibility : string)
    (state : StateMap FrozenEvent) (is_peeking : bool) : res _CheckMembershipReturn :=
  own ← is_own_membership user_id event;
  if (own : bool) then
    m ← own_membership event;
    match m with
    | None => Ok {| allowed := true; joined := false |}
    | Some m => Ok (membership_allows (Some (JStr m)) visibility is_peeking)
    end
  else
    match state !! (EventTypes.Member, user_id) with
    | Some membership_event =>
        m ← event_membership membership_event;
        Ok (membership_allows (Some m) visibility is_peeking)
    | None => Ok (membership_allows None visibility is_peeking)
    end.

Definition _check_filter_send_to_client (event : FrozenEvent) (time_msec : Z)
    (max_lifetime : option Z) (sender_ignored : bool) : res _CheckFilter :=
  t ← event_attr "type" event;
  if py_eq_str t EventTypes.Dummy then Ok DENIED
  else if negb (event_is_state event) && sender_ignored then Ok DENIED
  else if py_eq_str t EventTypes.Aliases then Ok DENIED
  else if negb (event_is_state event) then
    match max_lifetime with
    | Some max_lifetime =>
        ts ← event_attr "origin_server_ts" event;
        expired ← py_lt_int ts (time_msec - max_lifetime);
        Ok (if (expired : bool) then DENIED else MAYBE_ALLOWED)
    | None => Ok MAYBE_ALLOWED
    end
  else Ok MAYBE_ALLOWED.

(** ** Events for a user *)

(** The checks of [_check_client_allowed_to_see_event] that need the state. *)
Definition check_with_state (user_id : string) (event : FrozenEvent) (is_peeking : bool)
    (state : StateMap FrozenEvent) (sender_erased : bool) : res (option FrozenEvent) :=
  visibility ← get_effective_room_visibility_from_state state;
  lax ← (if sender_erased then Ok MAYBE_DENIED
         else _check_history_visibility event visibility is_peeking);
  if lax is ALLOWED then Ok (Some event)
  else
    membership_result ← _check_membership user_id event visibility state is_peeking;
    if negb (allowed membership_result) then Ok None
    else if sender_erased && negb (joined membership_result)
    then event ← prune_event event; Ok (Some event)
    else Ok (Some event).

Section Client.
Context `{SignedJson} `{EventCrypto}.

(** [event.event_id in ids] for a set of strings. *)
Definition event_id_in (e : FrozenEvent) (ids : StrSet) : res bool :=
  i ← frozen_event_id e;
  match i with
  | JStr s => Ok (bool_decide (s ∈ ids))
  | JList _ | JObj _ => Raise TypeError
  | _ => Ok false
  end.

Definition _check_client_allowed_to_see_event (user_id : string) (event : FrozenEvent)
    (time_msec : Z) (filter_send_to_client is_peeking : bool) (always_include_ids : StrSet)
    (sender_ignored : bool) (max_lifetime : option Z) (state : option (StateMap FrozenEvent))
    (sender_erased : bool) : res (option FrozenEvent) :=
  filtered ← (if filter_send_to_client
              then _check_filter_send_to_client event time_msec max_lifetime sender_ignored
              else Ok MAYBE_ALLOWED);
  if filtered is DENIED then Ok None
  else
    always ← event_id_in event always_include_ids;
    if (always : bool) then Ok (Some event)
    else if outlier (internal_metadata event) then
      own ← is_own_membership user_id event;
      Ok (if (own : bool) then Some event else None)
    else
      match state with
      | None => Raise (PlainException "Missing state for non-outlier event")
      | Some state => check_with_state user_id event is_peeking state sender_erased
      end.

(** What [filter_events_for_client] reads from the stores: the state at each
    event that is no outlier, the users the requester ignores, the erased
    senders, the retention policies of the rooms (not read, and the name
    unbound, when events are not sent to clients), and the time. *)
Record ClientStore := {
  event_id_to_state : string → option (StateMap FrozenEvent);
  ignore_list : StrSet;
  erased_senders : string → bool;
  retention_policies : string → option Z;
  clock_msec : Z
}.

(** [d.get(v)] of a dict keyed by strings, [v in s] of a set of them. *)
Definition as_key (v : json) : res (option string) :=
  match v with JStr s => Ok (Some s) | JList _ | JObj _ => Raise TypeError | _ => Ok None end.

(** [allowed], the body of the loop. *)
Definition allowed_event (store : ClientStore) (user_id : string) (is_peeking : bool)
    (always_include_ids : StrSet) (filter_send_to_client : bool) (event : FrozenEvent) :
    res (option FrozenEvent) :=
  i ← frozen_event_id event;
  i ← as_key i;
  let state_after_event := i ≫= event_id_to_state store in
  sender ← event_attr "sender" event;
  sender ← as_key sender;
  max_lifetime ←
    (if filter_send_to_client
     then room ← event_attr "room_id" event; room ← as_key room; Ok (room ≫= retention_policies store)
     else Raise (NameError "retention_policies"));
  filtered ← _check_client_allowed_to_see_event user_id event (clock_msec store)
    filter_send_to_client is_peeking always_include_ids
    (match sender with Some s => bool_decide (s ∈ ignore_list store) | None => false end)
    max_lifetime state_after_event
    (match sender with Some s => erased_senders store s | None => false end);
  match filtered with
  | None => Ok None
  | Some filtered =>
      own ← is_own_membership user_id event;
      user_membership ←
        (if (own : bool) then event_membership event
         else
           match state_after_event with
           | Some state =>
               match state !! (EventTypes.Member, user_id) with
               | Some m => event_membership m
               | None => Ok (JStr Membership.LEAVE)
               end
           | None =>
               Raise (PlainException "Missing state for event that is not user's own membership")
           end);
      cloned ← clone_event filtered;
      Ok (Some (mkFrozen (fe_room_version cloned) (fe_signatures cloned)
                  (dict_set "membership" user_membership (fe_unsigned cloned))
                  (fe_rejected_reason cloned) (fe_dict cloned) (internal_metadata cloned)))
  end.

(** [{f(e) for e in events}] with its attribute reads and hashing. *)
Definition keys_of_events (f : FrozenEvent → res json) (events : list FrozenEvent) :
    res (list (option string)) :=
  traverse (λ e, v ← f e; as_key v) events.

Definition filter_events_for_client (store : ClientStore) (user_id : string)
    (events : list FrozenEvent) (is_peeking : bool) (always_include_ids : StrSet)
    (filter_send_to_client : bool) : res (list FrozenEvent) :=
  let events := List.filter (λ e, negb (is_soft_failed e)) events in
  _ ← keys_of_events frozen_event_id (List.filter (λ e, negb (outlier (internal_metadata e))) events);
  _ ← keys_of_events (event_attr "sender") events;
  _ ← (if filter_send_to_client then keys_of_events (event_attr "room_id") events else Ok []);
  filtered ← traverse (allowed_event store user_id is_peeking always_include_ids filter_send_to_client)
    events;
  Ok (omap (λ e : option FrozenEvent, e) (filtered : list (option FrozenEvent))).
End Client.

(** ** Users for an event *)

(** [context.get_prev_state_ids(f)] gives the entries of the state before the
    event ([prev_state_ids]) that the filter contains; [get_event] is what the
    store has for an event id. *)
Definition _get_state_map (get_event : string → option FrozenEvent) (prev_state_ids : StateMap string)
    (event : FrozenEvent) (state_filter : StateFilter) : res (StateMap FrozenEvent) :=
  let state_map := filter_state state_filter prev_state_ids in
  let updated_state_map := omap get_event state_map in
  if event_is_state event then
    t ← event_attr "type" event;
    sk ← event_attr "state_key" event;
    match t, sk with
    | JStr t, JStr sk => Ok (<[(t, sk) := event]> updated_state_map)
    | (JList _ | JObj _), _ | _, (JList _ | JObj _) => Raise TypeError
    | _, _ => Ok updated_state_map
    end
  else Ok updated_state_map.

(** The loop over the users under [if filter_send_to_client]. *)
Definition discard_denied (event : FrozenEvent) (time_msec : Z) (max_lifetime : option Z)
    (ignored_by : StrSet) (allowed_user_ids : StrSet) (user_id : string) : res StrSet :=
  r ← _check_filter_send_to_client event time_msec max_lifetime (bool_decide (user_id ∈ ignored_by));
  Ok (if r is DENIED then allowed_user_ids ∖ {[user_id]} else allowed_user_ids).

Definition visibility_type : string * option string := (EventTypes.RoomHistoryVisibility, Some "").

(** [ignored_by]: the users who ignore the sender, [max_lifetime]: the retention
    policy of the room, both read from the store. *)
Definition filter_event_for_clients_with_state (user_ids : list string) (event : FrozenEvent)
    (get_event : string → option FrozenEvent) (prev_state_ids : StateMap string)
    (ignored_by : StrSet) (max_lifetime : option Z)
    (time_msec : Z) (is_peeking filter_send_to_client : bool) : res StrSet :=
  if is_soft_failed event then Ok ∅
  else
    match user_ids with
    | [] => Ok ∅
    | _ =>
        let allowed_user_ids : StrSet := list_to_set user_ids in
        allowed_user_ids ←
          (if filter_send_to_client
           then
             _ ← event_attr "sender" event;
             _ ← event_attr "room_id" event;
             foldM (discard_denied event time_msec max_lifetime ignored_by) allowed_user_ids user_ids
           else Ok allowed_user_ids);
        if outlier (internal_metadata event) then
          t ← event_attr "type" event;
          if py_eq_str t EventTypes.Member then
            sk ← event_attr "state_key" event;
            match sk with
            | JStr sk => Ok (if decide (sk ∈ allowed_user_ids) then {[sk]} else ∅)
            | JList _ | JObj _ => Raise TypeError
            | _ => Ok ∅
            end
          else Ok ∅
        else
          visibility_state_map ←
            _get_state_map get_event prev_state_ids event (from_types [visibility_type]);
          visibility ← get_effective_room_visibility_from_state visibility_state_map;
          lax ← _check_history_visibility event visibility is_peeking;
          if lax is ALLOWED then Ok allowed_user_ids
          else
            let filter_list :=
              ((λ u, (EventTypes.Member, Some u)) <$> elements allowed_user_ids) ++ [visibility_type] in
            state_map ← _get_state_map get_event prev_state_ids event (from_types filter_list);
            foldM (λ (acc : StrSet) user_id,
                r ← _check_membership user_id event visibility state_map is_peeking;
                Ok (if allowed r then {[user_id]} ∪ acc else acc)) ∅ (elements allowed_user_ids)
    end.
