(* ===== verification/VisibilityProps.v ===== *)
(** * Who sees an event

    Who may see an event is said in terms of the fields of the events alone
    ([entitled], [sendable], [may_see]). The checks of [visibility.py] are cut
    into a lax test of the history visibility and a strict test of the
    membership; together they decide exactly [entitled]. The version for many users of one event decides the
    same for each user. *)

From S2P Require Import Prelude PyJson PyDict RoomVersions Event EventAuth StateFilter EventUtils FrozenEvent.
From S2P Require Import RedactionProps Visibility.

(** ** Entitlement *)

(** A field of a JSON object, of an event's content, of its previous content. *)
Definition json_field (k : string) (c : option json) : option json :=
  match c with Some (JObj o) => obj_get k o | _ => None end.
Definition content_field (k : string) (e : FrozenEvent) : option json :=
  json_field k (obj_get "content" (fe_dict e)).
Definition previous_field (k : string) (e : FrozenEvent) : option json :=
  json_field k (obj_get "prev_content" (fe_unsigned e)).

(** The field [v] says one of [names], or stands for [default]. *)
Definition stated (names : list string) (default : string) (v : option json) (s : string) : Prop :=
  v = Some (JStr s) ∧ s ∈ names ∨ s = default ∧ ∀ s', v = Some (JStr s') → s' ∉ names.

Definition states_visibility : option json → string → Prop :=
  stated [HistoryVisibility.SHARED; HistoryVisibility.JOINED; HistoryVisibility.INVITED;
          HistoryVisibility.WORLD_READABLE] HistoryVisibility.SHARED.
Definition states_membership : option json → string → Prop :=
  stated [Membership.JOIN; Membership.LEAVE; Membership.INVITE; Membership.BAN; Membership.KNOCK]
    Membership.LEAVE.

(** The history visibility at an event: shared when there is no event that
    says otherwise. *)
Definition visibility_at (state : StateMap FrozenEvent) (v : string) : Prop :=
  match state !! (EventTypes.RoomHistoryVisibility, "") with
  | Some e => states_visibility (content_field "history_visibility" e) v
  | None => v = HistoryVisibility.SHARED
  end.

(** The event is a membership of the user. *)
Definition own_event (user : string) (e : FrozenEvent) : Prop :=
  obj_get "type" (fe_dict e) = Some (JStr EventTypes.Member) ∧
  obj_get "state_key" (fe_dict e) = Some (JStr user).

(** The user leaves the room, or rejects an invite. *)
Definition leaving (new old : string) : Prop :=
  new = Membership.LEAVE ∧ (old = Membership.JOIN ∨ old = Membership.INVITE).
Definition own_leave (user : string) (e : FrozenEvent) : Prop :=
  own_event user e ∧
  ∃ new old, states_membership (content_field "membership" e) new ∧
    states_membership (previous_field "membership" e) old ∧ leaving new old.

(** How far into the room a membership is. *)
Definition standing (m : string) : Z :=
  if decide (m = Membership.JOIN) then 4 else if decide (m = Membership.INVITE) then 3
  else if decide (m = Membership.KNOCK) then 2 else if decide (m = Membership.LEAVE) then 1 else 0.

(** The membership of the user that counts for an event: that at the event;
    when the event is itself a membership of the user, the one of the old and
    the new membership that is further into the room. *)
Definition counts_as (user : string) (e : FrozenEvent) (state : StateMap FrozenEvent) (m : string) : Prop :=
  own_event user e ∧
    (∃ new old, states_membership (content_field "membership" e) new ∧
       states_membership (previous_field "membership" e) old ∧ ¬ leaving new old ∧
       m = if standing new <? standing old then old else new) ∨
  ¬ own_event user e ∧
    ∃ me, state !! (EventTypes.Member, user) = Some me ∧ content_field "membership" me = Some (JStr m).

(** A history visibility that shows events to users who were not there. *)
Definition lax (visibility : string) (is_peeking : bool) : Prop :=
  visibility = HistoryVisibility.WORLD_READABLE ∨
  visibility = HistoryVisibility.SHARED ∧ is_peeking = false.

(** On the boundary, the laxer of two visibilities counts. *)
Definition boundary_lax (e : FrozenEvent) (is_peeking : bool) : Prop :=
  obj_get "type" (fe_dict e) = Some (JStr EventTypes.RoomHistoryVisibility) ∧
  ∃ v, states_visibility (previous_field "history_visibility" e) v ∧ lax v is_peeking.

(** The user may see the event, or its redacted form. *)
Definition entitled (erased : bool) (user : string) (e : FrozenEvent) (state : StateMap FrozenEvent)
    (is_peeking : bool) : Prop :=
  ∃ visibility, visibility_at state visibility ∧
    (counts_as user e state Membership.JOIN ∨ own_leave user e ∨ lax visibility is_peeking ∨
     (visibility = HistoryVisibility.INVITED ∧ counts_as user e state Membership.INVITE) ∨
     (erased = false ∧ boundary_lax e is_peeking)).

(** ** The fields the code reads *)

Lemma event_attr_Ok k e v : event_attr k e = Ok v ↔ obj_get k (fe_dict e) = Some v.
Proof. unfold event_attr. case_match; split; congruence. Qed.

Lemma normalise_in l d v : d ∈ l → normalise l d v ∈ l.
Proof.
  intros Hd. unfold normalise. repeat case_match; try done.
  apply existsb_exists in H1 as (x & Hx & ->%String.eqb_eq). by apply list_elem_of_In.
Qed.

Lemma stated_normalise names priorities default v s :
  (∀ x, x ∈ names ↔ x ∈ priorities) → stated names default v s ↔ s = normalise priorities default v.
Proof.
  intros Hn. unfold stated, normalise. destruct v as [[]|]; try naive_solver.
  setoid_rewrite Hn. destruct (existsb _ _) eqn:E.
  - apply existsb_exists in E as (x & Hx%list_elem_of_In & ->%String.eqb_eq). naive_solver.
  - assert (s0 ∉ priorities) as Hs.
    { intros Hs%list_elem_of_In. assert (existsb (String.eqb s0) priorities = true); [|congruence].
      apply existsb_exists. exists s0. by rewrite String.eqb_refl. }
    naive_solver.
Qed.

Lemma states_visibility_iff v s :
  states_visibility v s ↔ s = normalise VISIBILITY_PRIORITY HistoryVisibility.SHARED v.
Proof. apply stated_normalise. unfold VISIBILITY_PRIORITY. set_solver. Qed.

Lemma states_membership_iff v s : states_membership v s ↔ s = normalise MEMBERSHIP_PRIORITY "leave" v.
Proof. apply stated_normalise. unfold MEMBERSHIP_PRIORITY. set_solver. Qed.

Lemma get_prev_field k e v :
  py_get k (obj_get_default "prev_content" (JObj []) (fe_unsigned e)) = Ok v → v = previous_field k e.
Proof.
  unfold previous_field, obj_get_default. destruct (obj_get "prev_content" (fe_unsigned e)) as [c|]; cbn.
  - destruct c; cbn; congruence.
  - congruence.
Qed.

Lemma get_content_field k e c v :
  event_attr "content" e = Ok c → py_get k c = Ok v → v = content_field k e.
Proof. unfold content_field. intros ->%event_attr_Ok. destruct c; cbn; congruence. Qed.

Lemma visibility_at_iff s v v' :
  get_effective_room_visibility_from_state s = Ok v → visibility_at s v' ↔ v' = v.
Proof.
  unfold get_effective_room_visibility_from_state, visibility_at, _HISTORY_VIS_KEY. intros H.
  case_match; [|by injection H as <-].
  apply bind_Ok in H as (c & Hc & H). apply bind_Ok in H as (x & Hx & [= <-]).
  by rewrite states_visibility_iff, (get_content_field _ _ _ _ Hc Hx).
Qed.

Lemma is_own_iff user e b : is_own_membership user e = Ok b → b = true ↔ own_event user e.
Proof.
  unfold is_own_membership, own_event. intros H. apply bind_Ok in H as (t & Ht%event_attr_Ok & H).
  rewrite Ht. destruct (py_eq_str t EventTypes.Member) eqn:E.
  - apply py_eq_str_true in E as ->. apply bind_Ok in H as (sk & ->%event_attr_Ok & [= <-]).
    rewrite py_eq_str_true. naive_solver.
  - injection H as <-. split; [done|]. intros [[= ->] _]. by rewrite (proj2 (py_eq_str_true _ _)) in E.
Qed.

Lemma membership_field me m : event_membership me = Ok m → content_field "membership" me = Some m.
Proof.
  unfold event_membership, content_field. intros H. apply bind_Ok in H as (c & ->%event_attr_Ok & H).
  destruct c; cbn in *; try done. unfold obj_getitem in H. case_match; congruence.
Qed.

Lemma own_membership_iff e r :
  own_membership e = Ok r →
  ∃ new old, (∀ m, states_membership (content_field "membership" e) m ↔ m = new) ∧
    (∀ m, states_membership (previous_field "membership" e) m ↔ m = old) ∧
    (r = None ∧ leaving new old ∨
     r = Some (if standing new <? standing old then old else new) ∧ ¬ leaving new old).
Proof.
  unfold own_membership. intros H. apply bind_Ok in H as (c & Hc & H). apply bind_Ok in H as (n & Hn & H).
  apply bind_Ok in H as (o & ->%get_prev_field & H). rewrite (get_content_field _ _ _ _ Hc Hn) in H.
  do 2 eexists. split_and!; [intros m; apply states_membership_iff..|]. cbv zeta in H.
  assert (∀ v, normalise MEMBERSHIP_PRIORITY "leave" v ∈ MEMBERSHIP_PRIORITY) as Hin
    by (intros v; apply normalise_in; by apply (bool_decide_unpack _)).
  pose proof (Hin (content_field "membership" e)) as H1. pose proof (Hin (previous_field "membership" e)) as H2.
  revert H1 H2 H. generalize (normalise MEMBERSHIP_PRIORITY "leave" (content_field "membership" e)) as new.
  generalize (normalise MEMBERSHIP_PRIORITY "leave" (previous_field "membership" e)) as old.
  intros old new H1 H2 H. unfold MEMBERSHIP_PRIORITY in H1, H2.
  rewrite !elem_of_cons, elem_of_nil in H1. rewrite !elem_of_cons, elem_of_nil in H2.
  unfold leaving.
  destruct H1 as [->|[->|[->|[->|[->|[]]]]]], H2 as [->|[->|[->|[->|[->|[]]]]]]; cbn in H;
    injection H as <-; naive_solver.
Qed.

(** ** The two checks *)

Lemma visibility_known s v : get_effective_room_visibility_from_state s = Ok v → v ∈ VISIBILITY_PRIORITY.
Proof.
  unfold get_effective_room_visibility_from_state. intros H. case_match.
  - apply bind_Ok in H as (c & _ & H). apply bind_Ok in H as (x & _ & [= <-]).
    apply normalise_in. by apply (bool_decide_unpack _).
  - injection H as <-. by apply (bool_decide_unpack _).
Qed.

Lemma known_visibilities v :
  v ∈ VISIBILITY_PRIORITY →
  v = HistoryVisibility.WORLD_READABLE ∨ v = HistoryVisibility.SHARED ∨
  v = HistoryVisibility.INVITED ∨ v = HistoryVisibility.JOINED.
Proof. unfold VISIBILITY_PRIORITY. set_solver. Qed.

Lemma history_check e v peek r :
  v ∈ VISIBILITY_PRIORITY → _check_history_visibility e v peek = Ok r →
  (r = ALLOWED ↔ lax v peek ∨ boundary_lax e peek).
Proof.
  intros Hv%known_visibilities H. unfold _check_history_visibility in H.
  apply bind_Ok in H as (t & Ht%event_attr_Ok & H). apply bind_Ok in H as (v' & Hv' & H).
  assert (r = ALLOWED ↔ lax v' peek) as ->.
  { unfold lax. destruct (String.eqb_spec v' HistoryVisibility.SHARED) as [->|Hns]; cbn in H.
    - destruct peek; injection H as <-; naive_solver.
    - destruct (String.eqb_spec v' HistoryVisibility.WORLD_READABLE) as [->|Hnw];
        injection H as <-; naive_solver. }
  unfold boundary_lax. rewrite Ht. destruct (py_eq_str t EventTypes.RoomHistoryVisibility) eqn:Et.
  2:{ injection Hv' as ->. split; [by left|]. intros [|[[= ->] _]]; [done|]. by rewrite (proj2 (py_eq_str_true _ _)) in Et. }
  apply py_eq_str_true in Et as ->. setoid_rewrite states_visibility_iff.
  apply bind_Ok in Hv' as (pv & ->%get_prev_field & Hv').
  set (p := normalise VISIBILITY_PRIORITY HistoryVisibility.SHARED _) in *.
  assert (p ∈ VISIBILITY_PRIORITY) as Hp%known_visibilities by (apply normalise_in; by apply (bool_decide_unpack _)).
  clearbody p. unfold lax.
  destruct Hv as [-> | [-> | [-> | ->]]], Hp as [-> | [-> | [-> | ->]]]; cbn in Hv'; injection Hv' as <-;
    destruct peek; naive_solver.
Qed.

Lemma membership_allows_spec m v peek :
  v ∈ VISIBILITY_PRIORITY →
  let r := membership_allows m v peek in
  (joined r = true ↔ m = Some (JStr Membership.JOIN)) ∧
  (allowed r = true ↔ m = Some (JStr Membership.JOIN) ∨ lax v peek ∨
     (v = HistoryVisibility.INVITED ∧ m = Some (JStr Membership.INVITE))).
Proof.
  intros Hv%known_visibilities. cbv zeta. unfold membership_allows, lax.
  assert (∀ s, match m with Some x => py_eq_str x s | None => false end = true ↔ m = Some (JStr s)) as Hm.
  { intros s. destruct m as [x|]; [|done]. rewrite py_eq_str_true. naive_solver. }
  destruct (match m with Some x => py_eq_str x Membership.JOIN | None => false end) eqn:Ej.
  { apply Hm in Ej as ->. cbn. naive_solver. }
  assert (m ≠ Some (JStr Membership.JOIN)) as Hnj by (intros Hx%Hm; congruence).
  pose proof (Hm Membership.INVITE) as Hi.
  destruct (match m with Some x => py_eq_str x Membership.INVITE | None => false end);
    clear Ej Hm; destruct Hv as [-> | [-> | [-> | ->]]], peek; cbn;
    (split; [split; [done|by intros ?]|]); split; try done; try tauto;
    intros Hx; destruct_or? Hx; destruct_and? Hx; solve [done | by apply Hi].
Qed.

Lemma membership_check user e v s peek r :
  v ∈ VISIBILITY_PRIORITY → _check_membership user e v s peek = Ok r →
  (joined r = true ↔ counts_as user e s Membership.JOIN) ∧
  (allowed r = true ↔ counts_as user e s Membership.JOIN ∨ own_leave user e ∨ lax v peek ∨
     (v = HistoryVisibility.INVITED ∧ counts_as user e s Membership.INVITE)).
Proof.
  intros Hv H. unfold _check_membership in H. apply bind_Ok in H as (own & Hown & H).
  assert (∀ o r', membership_allows o v peek = r' →
    (∀ x, counts_as user e s x ↔ o = Some (JStr x)) → (own_leave user e ↔ False) →
    (joined r' = true ↔ counts_as user e s Membership.JOIN) ∧
    (allowed r' = true ↔ counts_as user e s Membership.JOIN ∨ own_leave user e ∨ lax v peek ∨
       (v = HistoryVisibility.INVITED ∧ counts_as user e s Membership.INVITE))) as Hallows.
  { intros o r' <- Hc Hl. rewrite !Hc, Hl. destruct (membership_allows_spec o v peek Hv) as [-> ->]. tauto. }
  pose proof (is_own_iff _ _ _ Hown) as Hiff. destruct own.
  - assert (own_event user e) as He by (by apply Hiff). apply bind_Ok in H as (m & Hm & H).
    apply own_membership_iff in Hm as (new & old & Hnew & Hold & Hcase).
    assert (∀ x, counts_as user e s x ↔ m = Some x) as Hc.
    { intros x. unfold counts_as. setoid_rewrite Hnew. setoid_rewrite Hold.
      destruct Hcase as [[-> ?]|[-> ?]]; naive_solver. }
    assert (own_leave user e ↔ m = None) as Hl.
    { unfold own_leave. setoid_rewrite Hnew. setoid_rewrite Hold.
      destruct Hcase as [[-> ?]|[-> ?]]; naive_solver. }
    destruct m as [m|]; injection H as <-.
    + eapply Hallows; [done| |by rewrite Hl]. intros x. rewrite Hc. naive_solver.
    + rewrite !Hc, Hl. cbn. naive_solver.
  - assert (¬ own_event user e) as He by (intros Hx%Hiff; done).
    assert (own_leave user e ↔ False) as Hl by (unfold own_leave; naive_solver).
    destruct (s !! (EventTypes.Member, user)) as [me|] eqn:Es.
    + apply bind_Ok in H as (m & Hm & [= <-]). eapply Hallows; [done| |done].
      intros x. unfold counts_as. rewrite Es. apply membership_field in Hm. naive_solver.
    + injection H as <-. eapply Hallows; [done| |done]. intros x. unfold counts_as. rewrite Es. naive_solver.
Qed.

(** ** Sending to clients *)

(** The event is of a kind that goes to clients, its sender is not ignored and
    it has not expired; the latter two do not concern state events. *)
Definition sendable (e : FrozenEvent) (now : Z) (max_lifetime : option Z) (ignored : bool) : Prop :=
  obj_get "type" (fe_dict e) ≠ Some (JStr EventTypes.Dummy) ∧
  obj_get "type" (fe_dict e) ≠ Some (JStr EventTypes.Aliases) ∧
  (obj_get "state_key" (fe_dict e) = None ∨ obj_get "state_key" (fe_dict e) = Some JNull →
   ignored = false ∧
   ∀ l ts, max_lifetime = Some l → obj_get "origin_server_ts" (fe_dict e) = Some ts →
     py_lt_int ts (now - l) = Ok false).

Lemma not_state_iff e :
  obj_get "state_key" (fe_dict e) = None ∨ obj_get "state_key" (fe_dict e) = Some JNull ↔
  event_is_state e = false.
Proof. unfold event_is_state. destruct (obj_get "state_key" (fe_dict e)) as [[]|]; naive_solver. Qed.

Lemma filter_send_check e now life ign r :
  _check_filter_send_to_client e now life ign = Ok r → (r = MAYBE_ALLOWED ↔ sendable e now life ign).
Proof.
  unfold _check_filter_send_to_client, sendable. rewrite not_state_iff. intros H.
  apply bind_Ok in H as (t & ->%event_attr_Ok & H).
  assert (∀ s, Some t ≠ Some (JStr s) ↔ py_eq_str t s = false) as Ht.
  { intros s. rewrite <-not_true_iff_false, py_eq_str_true. split; intros Hn Hx; apply Hn; congruence. }
  rewrite !Ht. clear Ht.
  destruct (py_eq_str t EventTypes.Dummy); [injection H as <-; split; [done|by intros [? _]]|].
  destruct (event_is_state e) eqn:Es; cbn [negb andb] in H.
  { destruct (py_eq_str t EventTypes.Aliases); injection H as <-; (split; [done|]); [by intros (_ & ? & _)|done]. }
  destruct ign; [injection H as <-; split; [done|]; intros (_ & _ & Hx); by destruct (Hx eq_refl)|].
  destruct (py_eq_str t EventTypes.Aliases); [injection H as <-; split; [done|by intros (_ & ? & _)]|].
  destruct life as [l|]; [|injection H as <-; done].
  apply bind_Ok in H as (ts & Hts%event_attr_Ok & H). apply bind_Ok in H as (expired & Hx & [= <-]). split.
  - intros Hr. split_and!; [done..|]. intros _. split; [done|]. intros l' ts' [= <-] Hts'.
    rewrite Hts in Hts'. injection Hts' as <-. by destruct expired.
  - intros (_ & _ & Hs). destruct (Hs eq_refl) as [_ Hs']. specialize (Hs' l ts eq_refl Hts). rewrite Hx in Hs'. by destruct expired.
Qed.

(** The event itself, or its redaction when its sender is erased and the user
    was not in the room. *)
Definition form_shown (erased : bool) (user : string) (e : FrozenEvent) (s : StateMap FrozenEvent)
    (e' : FrozenEvent) : Prop :=
  e' = e ∧ (erased = true → counts_as user e s Membership.JOIN) ∨
  erased = true ∧ ¬ counts_as user e s Membership.JOIN ∧ prune_event e = Ok e'.

Lemma state_check user e peek s erased r :
  check_with_state user e peek s erased = Ok r →
  (is_Some r ↔ entitled erased user e s peek) ∧ ∀ e', r = Some e' → form_shown erased user e s e'.
Proof.
  unfold check_with_state, entitled, form_shown. intros Hr.
  apply bind_Ok in Hr as (v & Hv & Hr). pose proof (visibility_known s v Hv) as Hk.
  assert (∀ P : string → Prop, (∃ v', visibility_at s v' ∧ P v') ↔ P v) as Hex.
  { intros P. setoid_rewrite (visibility_at_iff s v _ Hv). naive_solver. }
  rewrite Hex. clear Hex. apply bind_Ok in Hr as (l & Hl & Hr).
  assert (l = ALLOWED ↔ erased = false ∧ (lax v peek ∨ boundary_lax e peek)) as Hlax.
  { destruct erased; [injection Hl as <-; split; [done|by intros [[=] _]]|].
    rewrite (history_check e v peek l Hk Hl). tauto. }
  destruct l.
  { injection Hr as <-. destruct (proj1 Hlax eq_refl) as [-> Hcase]. split; [split; [tauto|done]|].
    intros e' [= <-]. by left. }
  apply bind_Ok in Hr as (m & Hm & Hr). destruct (membership_check user e v s peek m Hk Hm) as [Hj Ha].
  assert (erased = false → ¬ lax v peek ∧ ¬ boundary_lax e peek) as Hstrict.
  { intros ->. split; intros Hx; by discriminate (proj2 Hlax ltac:(auto)). }
  destruct (allowed m) eqn:Eallowed; cbn [negb] in Hr.
  2:{ injection Hr as <-. split; [|done]. split; [by intros []|]. intros Hx. exfalso.
      assert (¬ false = true) as Hf by done. rewrite Ha in Hf. destruct erased; naive_solver. }
  pose proof (proj1 Ha eq_refl) as Hent.
  destruct erased, (joined m) eqn:Ej; cbn [andb negb] in Hr.
  - injection Hr as <-. split; [split; [tauto|done]|]. intros e' [= <-]. left. split; [done|]. intros _. by apply Hj.
  - apply bind_Ok in Hr as (e1 & He1 & [= <-]). split; [split; [tauto|done]|]. intros e' [= <-]. right.
    split_and!; [done| |done]. by intros ?%Hj.
  - injection Hr as <-. split; [split; [tauto|done]|]. intros e' [= <-]. by left.
  - injection Hr as <-. split; [split; [tauto|done]|]. intros e' [= <-]. by left.
Qed.

Section Client.
Context `{SJ : SignedJson} `{EC : EventCrypto}.

(** When an event that may be sent is shown to a user. *)
Definition in_ids (e : FrozenEvent) (ids : StrSet) : Prop := ∃ i, frozen_event_id e = Ok (JStr i) ∧ i ∈ ids.

Lemma in_ids_iff e ids b : event_id_in e ids = Ok b → b = true ↔ in_ids e ids.
Proof.
  unfold event_id_in, in_ids. intros H. apply bind_Ok in H as (v & -> & H).
  destruct v; try done; injection H as <-; rewrite ?bool_decide_eq_true; naive_solver.
Qed.

Definition may_see (erased : bool) (user : string) (e : FrozenEvent) (state : option (StateMap FrozenEvent))
    (always : StrSet) (is_peeking : bool) : Prop :=
  in_ids e always ∨
  (outlier (internal_metadata e) = true ∧ own_event user e) ∨
  (outlier (internal_metadata e) = false ∧ ∃ s, state = Some s ∧ entitled erased user e s is_peeking).

Lemma client_check user e now fs peek always ign life state erased r :
  _check_client_allowed_to_see_event user e now fs peek always ign life state erased = Ok r →
  (is_Some r ↔ (fs = true → sendable e now life ign) ∧ may_see erased user e state always peek) ∧
  ∀ e', r = Some e' →
    (in_ids e always ∨ outlier (internal_metadata e) = true) ∧ e' = e ∨
    ∃ s, state = Some s ∧ form_shown erased user e s e'.
Proof.
  unfold _check_client_allowed_to_see_event, may_see. intros Hr. apply bind_Ok in Hr as (f & Hf & Hr).
  assert (f = MAYBE_ALLOWED ↔ (fs = true → sendable e now life ign)) as <-.
  { destruct fs; [apply filter_send_check in Hf; rewrite Hf; tauto|]. injection Hf as <-. done. }
  destruct f; [|injection Hr as <-; by split; [split; [by intros []|by intros [[=] _]]|]].
  apply bind_Ok in Hr as (b & Hid%in_ids_iff & Hr). setoid_rewrite <-Hid. clear Hid. destruct b.
  { injection Hr as <-. split; [split; [intros _; by auto|by eexists]|]. intros e' [= <-]. left. auto. }
  destruct (outlier (internal_metadata e)).
  { apply bind_Ok in Hr as (own & Hown%is_own_iff & [= <-]). rewrite <-Hown. split.
    - destruct own; [by split; [auto|eauto]|]. split; [by intros []|]. by intros (_ & [[=]|[[_ [=]]|[[=] _]]]).
    - intros e' He'. left. destruct own; [injection He' as <-|done]. auto. }
  destruct state as [s|]; [|done]. destruct (state_check user e peek s erased r Hr) as [-> Hform]. split.
  - split; [intros He; split; [done|]; right; right; by eauto|]. intros [_ Hx]. destruct Hx as [Hx|[[Hx _]|(_ & s' & Hs & He)]]; [done..|].
    by injection Hs as <-.
  - intros e' He'. right. eauto.
Qed.








End Client.

(** ** Many users *)

Lemma discard_denied_spec e now life ignored_by (acc : StrSet) l (out : StrSet) u :
  foldM (discard_denied e now life ignored_by) acc l = Ok out →
  u ∈ out ↔ u ∈ acc ∧ (u ∈ l → sendable e now life (bool_decide (u ∈ ignored_by))).
Proof.
  revert acc. induction l as [|x l IH]; intros acc Hout; cbn [foldM] in Hout.
  { injection Hout as <-. set_solver. }
  apply bind_Ok in Hout as (acc1 & Hx & Hout). apply bind_Ok in Hx as (f & Hf & [= <-]).
  apply filter_send_check in Hf. rewrite (IH _ Hout), elem_of_cons. clear IH Hout.
  destruct (decide (u = x)) as [->|Hne].
  - destruct f; [tauto|]. rewrite elem_of_difference, elem_of_singleton. intuition congruence.
  - assert (u ∈ (if f is DENIED then acc ∖ {[x]} else acc) ↔ u ∈ acc) as -> by (destruct f; set_solver).
    intuition.
Qed.

Lemma collect_allowed (P : string → Prop) (f : string → res _CheckMembershipReturn) l (acc out : StrSet) :
  (∀ u r, u ∈ l → f u = Ok r → allowed r = true ↔ P u) →
  foldM (λ (acc : StrSet) u, r ← f u; Ok (if allowed r then {[u]} ∪ acc else acc)) acc l = Ok out →
  ∀ u, u ∈ out ↔ u ∈ acc ∨ u ∈ l ∧ P u.
Proof.
  revert acc. induction l as [|x l IH]; intros acc Hf Hout u; cbn [foldM] in Hout.
  { injection Hout as <-. set_solver. }
  apply bind_Ok in Hout as (acc1 & Hx & Hout). apply bind_Ok in Hx as (r & Hr & [= <-]).
  pose proof (λ w r H, Hf w r (proj2 (elem_of_cons _ _ _) (or_intror H))) as Hf'.
  specialize (Hf x r ltac:(apply list_elem_of_here) Hr). rewrite (IH _ Hf' Hout), elem_of_cons. destruct (allowed r).
  - rewrite elem_of_union, elem_of_singleton. naive_solver.
  - naive_solver.
Qed.

Lemma from_types_contains l t k : contains (from_types l) (t, k) = true ↔ (t, None) ∈ l ∨ (t, Some k) ∈ l.
Proof.
  rewrite <-wanted_keys_spec, <-from_types_keys, contains_keys_for.
  destruct (keys_for (from_types l) t); [apply bool_decide_eq_true|done].
Qed.

(** A filtered fetch of the state agrees with the whole state where the filter
    looks. *)
Lemma state_map_agree ge ids e f m m' k :
  _get_state_map ge ids e f = Ok m → _get_state_map ge ids e sf_all = Ok m' →
  contains f k = true → m !! k = m' !! k.
Proof.
  unfold _get_state_map. intros Hm Hm' Hk.
  assert (omap ge (filter_state f ids) !! k = omap ge (filter_state sf_all ids) !! k) as Heq.
  { by rewrite !lookup_omap, !filter_state_lookup, Hk, sf_all_contains. }
  destruct (event_is_state e); [|congruence].
  apply bind_Ok in Hm as (t & Ht & Hm). apply bind_Ok in Hm as (sk & Hsk & Hm).
  rewrite Ht in Hm'. cbn [mbind res_bind] in Hm'. rewrite Hsk in Hm'. cbn [mbind res_bind] in Hm'.
  destruct t, sk; try done; injection Hm as <-; injection Hm' as <-; try done.
  match goal with |- <[?i := _]> _ !! _ = _ => destruct (decide (k = i)) as [->|Hne] end.
  - by rewrite !lookup_insert_eq.
  - by rewrite !lookup_insert_ne.
Qed.

(** The users left by the checks of events sent to clients. *)
Lemma sendable_users e now life ignored_by fs us (S : StrSet) :
  (if fs : bool
   then _ ← event_attr "sender" e; _ ← event_attr "room_id" e; foldM (discard_denied e now life ignored_by) (list_to_set us) us
   else Ok (list_to_set us)) = Ok S →
  ∀ u, u ∈ S ↔ u ∈ us ∧ (fs = true → sendable e now life (bool_decide (u ∈ ignored_by))).
Proof.
  intros HS u. destruct fs; [apply bind_Ok in HS as (? & _ & HS); apply bind_Ok in HS as (? & _ & HS)|].
  - rewrite (discard_denied_spec _ _ _ _ _ _ _ u HS), elem_of_list_to_set. tauto.
  - injection HS as <-. rewrite elem_of_list_to_set. split; [by intros|by intros []].
Qed.

(** The users of an outlier. *)
Lemma outlier_users e (S out : StrSet) :
  (t ← event_attr "type" e;
   if py_eq_str t EventTypes.Member then
     sk ← event_attr "state_key" e;
     match sk with
     | JStr sk => Ok (if decide (sk ∈ S) then {[sk]} else ∅)
     | JList _ | JObj _ => Raise TypeError
     | _ => Ok ∅
     end
   else Ok ∅) = Ok out →
  ∀ u, u ∈ out ↔ u ∈ S ∧ own_event u e.
Proof.
  intros Hout u. apply bind_Ok in Hout as (t & Ht%event_attr_Ok & Hout). unfold own_event. rewrite Ht.
  destruct (py_eq_str t EventTypes.Member) eqn:Et.
  2:{ injection Hout as <-. split; [set_solver|]. intros [_ [[= ->] _]].
      by rewrite (proj2 (py_eq_str_true _ _)) in Et. }
  apply py_eq_str_true in Et as ->. apply bind_Ok in Hout as (sk & ->%event_attr_Ok & Hout).
  destruct sk as [| | | |sk| |]; cbn in Hout; try done; injection Hout as <-; try set_solver.
  case_decide; set_solver.
Qed.

(** The users of an event that is no outlier. *)
Lemma users_by_state ge ids e state peek (S out : StrSet) :
  _get_state_map ge ids e sf_all = Ok state →
  (visibility_state_map ← _get_state_map ge ids e (from_types [visibility_type]);
   visibility ← get_effective_room_visibility_from_state visibility_state_map;
   lax ← _check_history_visibility e visibility peek;
   if lax is ALLOWED then Ok S
   else
     let filter_list := ((λ u, (EventTypes.Member, Some u)) <$> elements S) ++ [visibility_type] in
     state_map ← _get_state_map ge ids e (from_types filter_list);
     foldM (λ (acc : StrSet) user_id,
         r ← _check_membership user_id e visibility state_map peek;
         Ok (if allowed r then {[user_id]} ∪ acc else acc)) ∅ (elements S)) = Ok out →
  ∀ u, u ∈ out ↔ u ∈ S ∧ entitled false u e state peek.
Proof.
  intros Hst Hout u. apply bind_Ok in Hout as (vs & Hvs & Hout). apply bind_Ok in Hout as (v & Hv & Hout).
  assert (get_effective_room_visibility_from_state state = Ok v) as Hv'.
  { unfold get_effective_room_visibility_from_state in *. rewrite <-(state_map_agree _ _ _ _ _ _ _ Hvs Hst); [done|].
    apply from_types_contains. right. apply list_elem_of_here. }
  pose proof (visibility_known _ _ Hv) as Hk. apply bind_Ok in Hout as (l & Hl & Hout).
  pose proof (history_check e v peek l Hk Hl) as Hlax. unfold entitled. setoid_rewrite (visibility_at_iff state v _ Hv'). destruct l.
  { injection Hout as <-. split; [|tauto]. intros Hin. split; [done|]. exists v. split; [done|]. tauto. }
  assert (¬ lax v peek ∧ ¬ boundary_lax e peek) as [Hn1 Hn2].
  { split; intros Hx; by discriminate (proj2 Hlax ltac:(auto)). }
  cbv zeta in Hout. apply bind_Ok in Hout as (m & Hm & Hout).
  apply (collect_allowed (λ u, counts_as u e state Membership.JOIN ∨ own_leave u e ∨
    (v = HistoryVisibility.INVITED ∧ counts_as u e state Membership.INVITE))) with (u := u) in Hout.
  - rewrite Hout, elem_of_elements, elem_of_empty.
    split; [intros [[]|[? Hx]]; split; [done|]; exists v; split; [done|]; tauto|].
    intros (? & v' & -> & Hx). right. split; [done|]. tauto.
  - intros w r Hw Hr. assert (_check_membership w e v state peek = Ok r) as Hr'.
    { rewrite <-Hr. unfold _check_membership. rewrite <-(state_map_agree _ _ _ _ _ _ (EventTypes.Member, w) Hm Hst); [done|].
      apply from_types_contains. right. apply elem_of_app. left. by apply (list_elem_of_fmap_2 (λ u, (EventTypes.Member, Some u))). }
    rewrite (proj2 (membership_check w e v state peek r Hk Hr')). tauto.
Qed.

(** ** Properties *)


(** filter_event_for_clients_with_state, which fetches only the history visibility and
    then the memberships of the users left, allows a user exactly when
    _check_client_allowed_to_see_event on the whole state shows the user the event, for a
    sender who is not erased. *)
Theorem event_for_clients_agrees `{SignedJson} `{EventCrypto} users e get_event prev_state_ids state ignored_by
    life now is_peeking fs out :
  is_soft_failed e = false → _get_state_map get_event prev_state_ids e sf_all = Ok state →
  filter_event_for_clients_with_state users e get_event prev_state_ids ignored_by life now is_peeking fs = Ok out →
  ∀ user r, user ∈ users →
    _check_client_allowed_to_see_event user e now fs is_peeking ∅ (bool_decide (user ∈ ignored_by)) life
      (Some state) false = Ok r →
    (user ∈ out ↔ is_Some r).
Proof.
  intros Hsoft Hst Hout user r Hu Hr. unfold filter_event_for_clients_with_state in Hout. rewrite Hsoft in Hout.
  assert (¬ in_ids e ∅) as Hid by (intros (i & _ & []%not_elem_of_empty)).
  apply client_check in Hr as [-> _]. unfold may_see. destruct users as [|u0 users]; [by apply not_elem_of_nil in Hu|].
  apply bind_Ok in Hout as (S & HS & Hout). pose proof (sendable_users _ _ _ _ _ _ _ HS) as HS'.
  destruct (outlier (internal_metadata e)).
  - rewrite (outlier_users _ _ _ Hout user), HS'. naive_solver.
  - rewrite (users_by_state _ _ _ _ _ _ _ Hst Hout user), HS'. split; [|naive_solver].
    intros [[_ ?] ?]. split; [done|]. right; right. eauto.
Qed.
