(* ===== verification/ServerVisibility.v ===== *)
(** * Events that other servers see: [filter_events_for_server]

    The rest of [synapse/visibility.py], with [event_visible_to_server], which
    it calls in the Rust extension ([rust/src/events/filter.rs]). A state is
    the list of its items, since the order of the memberships decides which
    errors are met. *)

From S2P Require Import Prelude PyJson PyDict RoomVersions Identifiers Event EventAuth StateFilter EventUtils.
From S2P Require Import FrozenEvent Visibility.
From Stdlib Require Import Ascii.

(** [d.get(k)] for the items of a dict keyed by state keys. *)
Fixpoint items_get {V} (k : StateKey) (items : list (StateKey * V)) : option V :=
  match items with
  | [] => None
  | (k', v) :: items => if decide (k' = k) then Some v else items_get k items
  end.

(** ** What is read from the stores *)

Record ServerStore := {
  users_erased : string → bool;
  is_partial_state_room : string → bool;
  (** The state after an event; raises for outliers and unknown events. *)
  state_ids_after : string → res (list (StateKey * string));
  get_event : string → option FrozenEvent
}.

(** [storage.state.get_state_ids_for_events(frozenset(ids), state_filter)] *)
Definition get_state_ids_for_events (store : ServerStore) (ids : list string) (f : StateFilter) :
    res (list (string * list (StateKey * string))) :=
  traverse (λ i, s ← state_ids_after store i; Ok (i, List.filter (λ kv, contains f kv.1) s))
    (elements (list_to_set ids : StrSet)).

(** ** [rust/src/events/filter.rs] *)

(** [UserID::try_from], then [server_name()] *)
Definition user_id_server_name (s : string) : res string :=
  match s with
  | String "@" _ => match str_find ":" s with Some i => Ok (str_drop (S i) s) | None => Raise ValueError end
  | _ => Raise ValueError
  end.

Fixpoint memberships_visible (target_server_name history_visibility : string)
    (memberships : list (string * string)) : res bool :=
  match memberships with
  | [] => Ok false
  | (state_key, membership) :: memberships =>
      server_name ← user_id_server_name state_key;
      if negb (String.eqb server_name target_server_name) then Raise ValueError
      else if String.eqb membership Membership.INVITE && String.eqb history_visibility HistoryVisibility.INVITED
      then Ok true
      else if String.eqb membership Membership.JOIN then Ok true
      else memberships_visible target_server_name history_visibility memberships
  end.

Definition event_visible_to_server (sender target_server_name history_visibility : string)
    (erased_sender partial_state_invisible : bool) (memberships : list (string * string)) : res bool :=
  if erased_sender then Ok false
  else if partial_state_invisible then Ok false
  else if negb (String.eqb history_visibility HistoryVisibility.INVITED)
          && negb (String.eqb history_visibility HistoryVisibility.JOINED)
  then Ok true
  else memberships_visible target_server_name history_visibility memberships.

(** The conversion of an argument of type [String]. *)
Definition as_string (v : json) : res string :=
  match v with JStr s => Ok s | _ => Raise TypeError end.

Section Server.
Context `{SignedJson} `{EventCrypto}.

(** [e.event_id], a string. *)
Definition event_id_str (e : FrozenEvent) : res string := i ← frozen_event_id e; as_string i.

Definition vis_of_event (vis_event : FrozenEvent) : res string :=
  c ← event_attr "content" vis_event;
  vis ← py_get "history_visibility" c;
  match vis with
  | None => Ok HistoryVisibility.SHARED
  | Some (JStr vis) => Ok vis
  | Some _ => Raise AssertionError
  end.

Definition _event_to_history_vis (store : ServerStore) (events : list FrozenEvent) : res (StrMap string) :=
  ids ← traverse event_id_str (List.filter (λ e, negb (outlier (internal_metadata e))) events);
  event_to_state_ids ←
    get_state_ids_for_events store ids (from_types [(EventTypes.RoomHistoryVisibility, Some "")]);
  foldM (λ result event,
      i ← event_id_str event;
      let visibility_id :=
        state_ids ← (list_to_map event_to_state_ids : StrMap _) !! i; items_get _HISTORY_VIS_KEY state_ids in
      vis ← match visibility_id with
            | None | Some "" => Ok HistoryVisibility.SHARED
            | Some visibility_id =>
                match get_event store visibility_id with
                | Some vis_event => vis_of_event vis_event
                | None => Raise KeyError
                end
            end;
      Ok (<[i := vis]> result)) ∅ events.

(** [include], the test on the state key. *)
Definition include_key (server_name state_key : string) : bool :=
  match str_find ":" state_key with
  | None => false
  | Some idx => String.eqb (str_drop (S idx) state_key) server_name
  end.

(** [event_map.get(e_id)]: the events of the included state keys that the store
    has. *)
Definition included_event (store : ServerStore) (server_name : string)
    (event_id_to_state_key : StrMap StateKey) (e_id : string) : option FrozenEvent :=
  key ← event_id_to_state_key !! e_id;
  if include_key server_name key.2 then get_event store e_id else None.

Fixpoint memberships_of (event_map : string → option FrozenEvent) (key_to_eid : list (StateKey * string)) :
    res (list (json * json)) :=
  match key_to_eid with
  | [] => Ok []
  | (_, inner_e_id) :: key_to_eid =>
      match event_map inner_e_id with
      | None => memberships_of event_map key_to_eid
      | Some e =>
          sk ← event_attr "state_key" e;
          m ← event_membership e;
          rest ← memberships_of event_map key_to_eid;
          Ok ((sk, m) :: rest)
      end
  end.

(** The values of the inner dicts. *)
Definition _event_to_memberships (store : ServerStore) (events : list FrozenEvent) (server_name : string) :
    res (StrMap (list (json * json))) :=
  match events with
  | [] => Ok ∅
  | _ =>
      ids ← traverse event_id_str events;
      event_to_state_ids ← get_state_ids_for_events store ids (from_types [(EventTypes.Member, None)]);
      let event_id_to_state_key : StrMap StateKey :=
        foldl (λ d kv, <[kv.2 := kv.1]> d) ∅ (event_to_state_ids ≫= snd) in
      let event_map := included_event store server_name event_id_to_state_key in
      l ← traverse (λ kv : string * _, m ← memberships_of event_map kv.2; Ok (kv.1, m)) event_to_state_ids;
      Ok (list_to_map l)
  end.

(** The ids of the events of remote senders in partial state rooms. *)
Definition add_partial_state_invisible (store : ServerStore) (local_server_name : string)
    (ids : StrSet) (e : FrozenEvent) : res StrSet :=
  sender ← event_attr "sender" e;
  sender_domain ← get_domain_from_id_json sender;
  if String.eqb sender_domain local_server_name then Ok ids
  else
    room ← event_attr "room_id" e;
    room ← as_string room;
    if is_partial_state_room store room then i ← event_id_str e; Ok ({[i]} ∪ ids) else Ok ids.

(** [d[k]] *)
Definition dict_index {V} (d : StrMap V) (k : string) : res V :=
  match d !! k with Some v => Ok v | None => Raise KeyError end.

(** The body of the loop that builds [to_return]. *)
Definition event_for_server (store : ServerStore) (target_server_name : string)
    (redact filter_out_erased_senders : bool) (invisible : StrSet) (event_to_history_vis : StrMap string)
    (event_to_memberships : StrMap (list (json * json))) (e : FrozenEvent) : res (list FrozenEvent) :=
  sender ← event_attr "sender" e;
  i ← event_id_str e;
  vis ← dict_index event_to_history_vis i;
  let memberships := default [] (event_to_memberships !! i) in
  sender ← as_string sender;
  memberships ← traverse (λ sm, sk ← as_string sm.1; m ← as_string sm.2; Ok (sk, m)) memberships;
  visible ← event_visible_to_server sender target_server_name vis
    (filter_out_erased_senders && users_erased store sender) (bool_decide (i ∈ invisible)) memberships;
  if (visible : bool) then Ok [e]
  else if redact then e' ← prune_event e; Ok [e']
  else Ok [].

Definition restricted (vis : string) : bool :=
  negb (String.eqb vis HistoryVisibility.SHARED) && negb (String.eqb vis HistoryVisibility.WORLD_READABLE).

(** [[e for e in events if event_to_history_vis[e.event_id] not in ...]] *)
Fixpoint restricted_events (event_to_history_vis : StrMap string) (events : list FrozenEvent) :
    res (list FrozenEvent) :=
  match events with
  | [] => Ok []
  | e :: events =>
      i ← event_id_str e;
      vis ← dict_index event_to_history_vis i;
      rest ← restricted_events event_to_history_vis events;
      Ok (if restricted vis then e :: rest else rest)
  end.

Definition filter_events_for_server (store : ServerStore) (target_server_name local_server_name : string)
    (events : list FrozenEvent)
    (redact filter_out_erased_senders filter_out_remote_partial_state_events : bool) :
    res (list FrozenEvent) :=
  _ ← (if filter_out_erased_senders then keys_of_events (event_attr "sender") events
       else Ok ([] : list (option string)));
  invisible ←
    (if filter_out_remote_partial_state_events
     then foldM (add_partial_state_invisible store local_server_name) ∅ events else Ok ∅);
  event_to_history_vis ← _event_to_history_vis store events;
  to_check ← restricted_events event_to_history_vis events;
  event_to_memberships ← _event_to_memberships store to_check target_server_name;
  to_return ← traverse (event_for_server store target_server_name redact filter_out_erased_senders
    invisible event_to_history_vis event_to_memberships) events;
  Ok (mjoin (to_return : list (list FrozenEvent))).
End Server.
