(* ===== verification/ServerVisibilityProps.v ===== *)
(** * What servers see

    The filter for servers fetches the visibilities and the memberships of all
    events at once; event by event it decides [visible_to_server]. *)

From S2P Require Import Prelude PyJson PyDict RoomVersions Identifiers Event EventAuth StateFilter EventUtils.
From S2P Require Import FrozenEvent Visibility VisibilityProps ServerVisibility.
From Stdlib Require Import Ascii.

(** ** Batches *)

Lemma items_get_filter {V} (p : StateKey → bool) k (l : list (StateKey * V)) :
  p k = true → items_get k (List.filter (λ kv, p kv.1) l) = items_get k l.
Proof.
  intros Hk. induction l as [|[k' v] l IH]; [done|]. cbn. destruct (decide (k' = k)) as [->|Hne].
  - rewrite Hk. cbn. by rewrite decide_True.
  - destruct (p k'); cbn; [by rewrite decide_False|done].
Qed.

Lemma state_ids_batch store ids f l :
  get_state_ids_for_events store ids f = Ok l →
  (∀ x, x ∈ l ↔ ∃ i s, i ∈ ids ∧ state_ids_after store i = Ok s ∧ x = (i, List.filter (λ kv, contains f kv.1) s)) ∧
  NoDup l.*1.
Proof.
  unfold get_state_ids_for_events. intros Hl. apply traverse_Ok in Hl.
  assert (Forall2 (λ i y, ∃ s, state_ids_after store i = Ok s ∧ y = (i, List.filter (λ kv, contains f kv.1) s))
    (elements (list_to_set ids : StrSet)) l) as Hl'.
  { eapply Forall2_impl; [exact Hl|]. intros i y (s & Hs & [= <-])%bind_Ok. eauto. }
  clear Hl. split.
  - intros x. split.
    + intros (n & Hx)%list_elem_of_lookup. destruct (Forall2_lookup_r _ _ _ _ _ Hl' Hx) as (i & Hi & s & Hs & ->).
      exists i, s. split_and!; [|done|done].
      by apply list_elem_of_lookup_2, elem_of_elements, elem_of_list_to_set in Hi.
    + intros (i & s & Hi & Hs & ->). assert (i ∈ elements (list_to_set ids : StrSet)) as (n & Hn)%list_elem_of_lookup.
      { by apply elem_of_elements, elem_of_list_to_set. }
      destruct (Forall2_lookup_l _ _ _ _ _ Hl' Hn) as (y & Hy & s' & Hs' & ->).
      rewrite Hs in Hs'. injection Hs' as <-. by eapply list_elem_of_lookup_2.
  - assert (l.*1 = elements (list_to_set ids : StrSet)) as ->; [|apply NoDup_elements].
    revert Hl'. generalize (elements (list_to_set ids : StrSet)). induction 1 as [|? ? ? ? (s & _ & ->)]; [done|].
    rewrite fmap_cons. by f_equal.
Qed.

Lemma state_ids_batch_lookup store ids f l i :
  get_state_ids_for_events store ids f = Ok l →
  (i ∈ ids → ∃ s, state_ids_after store i = Ok s ∧
     (list_to_map l : StrMap _) !! i = Some (List.filter (λ kv, contains f kv.1) s)) ∧
  (i ∉ ids → (list_to_map l : StrMap (list (StateKey * string))) !! i = None).
Proof.
  intros Hl. destruct (state_ids_batch store ids f l Hl) as [Hin Hnd]. split.
  - intros Hi. assert (∃ s, state_ids_after store i = Ok s) as [s Hs].
    { unfold get_state_ids_for_events in Hl. apply traverse_Ok in Hl.
      assert (i ∈ elements (list_to_set ids : StrSet)) as (n & Hn)%list_elem_of_lookup.
      { by apply elem_of_elements, elem_of_list_to_set. }
      destruct (Forall2_lookup_l _ _ _ _ _ Hl Hn) as (y & _ & (s & Hs & _)%bind_Ok). eauto. }
    exists s. split; [done|]. apply elem_of_list_to_map_1; [done|]. apply Hin. eauto.
  - intros Hi. apply not_elem_of_list_to_map_1. intros ([i' x] & -> & Hx)%list_elem_of_fmap.
    apply Hin in Hx as (? & ? & ? & _ & [= <- _]). done.
Qed.

(** The dict from event ids to state keys, when an event has one key. *)
Lemma state_key_of (l : list (StateKey * string)) :
  (∀ k k' x, (k, x) ∈ l → (k', x) ∈ l → k = k') →
  ∀ x k, (foldl (λ d kv, <[kv.2 := kv.1]> d) ∅ l : StrMap StateKey) !! x = Some k ↔ (k, x) ∈ l.
Proof.
  induction l as [|[k0 x0] l IH] using rev_ind; intros Huniq x k.
  { cbn. rewrite lookup_empty. set_solver. }
  rewrite foldl_app. cbn [foldl fst snd].
  specialize (IH ltac:(intros k1 k2 x1 H1 H2; apply (Huniq k1 k2 x1); apply elem_of_app; by left)).
  rewrite elem_of_app, list_elem_of_singleton. destruct (decide (x0 = x)) as [->|Hne].
  - rewrite lookup_insert_eq. split; [intros [= ->]; by right|].
    intros [Hk|[= ->]]; [|done]. f_equal. apply (Huniq _ _ x); apply elem_of_app; [right|by left].
    by apply list_elem_of_singleton.
  - rewrite lookup_insert_ne by done. rewrite IH. naive_solver.
Qed.

Lemma memberships_of_spec event_map l ms :
  memberships_of event_map l = Ok ms →
  ∀ m, (∃ sk, (sk, m) ∈ ms) ↔ ∃ k x e, (k, x) ∈ l ∧ event_map x = Some e ∧ event_membership e = Ok m.
Proof.
  revert ms. induction l as [|[k x] l IH]; intros ms Hms m; cbn [memberships_of] in Hms.
  { injection Hms as <-. set_solver. }
  assert (∀ ms, memberships_of event_map l = Ok ms → (∃ k' x' e, (k', x') ∈ (k, x) :: l ∧ event_map x' = Some e ∧ event_membership e = Ok m) ↔
    (∃ e, event_map x = Some e ∧ event_membership e = Ok m) ∨ ∃ sk, (sk, m) ∈ ms) as Hcons.
  { intros ms' Hms'. rewrite (IH ms' Hms' m). setoid_rewrite elem_of_cons. naive_solver. }
  destruct (event_map x) as [e|] eqn:Ex.
  - inv_bind Hms. injection Hms as <-. rewrite (Hcons _ E1). setoid_rewrite elem_of_cons. split.
    + intros (sk & [[= -> ->]|Hin]); eauto.
    + intros [(e' & [= <-] & He)|(sk & Hsk)]; [|eauto]. rewrite He in E0. injection E0 as <-. eauto.
  - rewrite (Hcons _ Hms). naive_solver.
Qed.

(** The values of a dict mapped. *)
Lemma map_values_lookup {A B} (f : A → res B) (l : list (string * A)) (ms : list (string * B)) i a :
  NoDup l.*1 → traverse (λ kv : string * A, m ← f kv.2; Ok (kv.1, m)) l = Ok ms →
  (list_to_map l : StrMap A) !! i = Some a →
  ∃ b, (list_to_map ms : StrMap B) !! i = Some b ∧ f a = Ok b.
Proof.
  intros Hnd Hms%traverse_Ok Hls%elem_of_list_to_map_2.
  assert (ms.*1 = l.*1) as Hfst.
  { clear -Hms. induction Hms as [|? ? ? ? (z & _ & [= <-])%bind_Ok]; [done|]. rewrite !fmap_cons. by f_equal. }
  apply list_elem_of_lookup in Hls as [n Hn]. destruct (Forall2_lookup_l _ _ _ _ _ Hms Hn) as (y & Hy & Hyi).
  apply bind_Ok in Hyi as (b & Hb & [= <-]). exists b. split; [|done].
  apply elem_of_list_to_map_1; [by rewrite Hfst|]. by eapply list_elem_of_lookup_2.
Qed.

Lemma include_key_true server sk : include_key server sk = true ↔ get_domain_from_id sk = Ok server.
Proof.
  unfold include_key, get_domain_from_id. destruct (str_find ":"%char sk) as [i|]; [|done].
  rewrite String.eqb_eq. split; [by intros ->|by intros [= ->]].
Qed.

Lemma memberships_visible_spec target vis ms b :
  memberships_visible target vis ms = Ok b →
  b = true ↔ (∃ sk, (sk, Membership.JOIN) ∈ ms) ∨ vis = HistoryVisibility.INVITED ∧ ∃ sk, (sk, Membership.INVITE) ∈ ms.
Proof.
  induction ms as [|[sk m] ms IH]; cbn [memberships_visible]; intros H.
  { injection H as <-. set_solver. }
  apply bind_Ok in H as (srv & _ & H). destruct (String.eqb srv target); [|done]. cbn [negb] in H.
  setoid_rewrite elem_of_cons.
  destruct (String.eqb_spec m Membership.INVITE) as [->|Hni]; cbn [andb] in H.
  { destruct (String.eqb_spec vis HistoryVisibility.INVITED) as [->|Hv].
    - injection H as <-. split; [|done]. intros _. right. eauto.
    - cbn in H. rewrite (IH H). split; [intros [[? ?]|[? _]]; eauto; done|].
      intros [[? [[=]|?]]|[? _]]; [eauto|done]. }
  destruct (String.eqb_spec m Membership.JOIN) as [->|Hnj].
  - injection H as <-. split; [|done]. intros _. left. eauto.
  - rewrite (IH H). naive_solver.
Qed.

(** ** Visibility to a server *)

Section Server.
Context `{SJ : SignedJson} `{EC : EventCrypto}.

(** The history visibility at one event. *)
Definition history_vis_at (store : ServerStore) (e : FrozenEvent) : res string :=
  i ← event_id_str e;
  if outlier (internal_metadata e) then Ok HistoryVisibility.SHARED
  else
    s ← state_ids_after store i;
    match items_get _HISTORY_VIS_KEY s with
    | None | Some "" => Ok HistoryVisibility.SHARED
    | Some visibility_id =>
        match get_event store visibility_id with
        | Some vis_event => vis_of_event vis_event
        | None => Raise KeyError
        end
    end.

(** A user of the server has the membership after the event. *)
Definition server_has_member (store : ServerStore) (server i : string) (m : string) : Prop :=
  ∃ s state_key x e, state_ids_after store i = Ok s ∧ ((EventTypes.Member, state_key), x) ∈ s ∧
    get_domain_from_id state_key = Ok server ∧ get_event store x = Some e ∧
    event_membership e = Ok (JStr m).

Definition visible_to_server (store : ServerStore) (target local : string) (erased_out partial_out : bool)
    (e : FrozenEvent) : Prop :=
  ∃ i sender vis, event_id_str e = Ok i ∧ event_attr "sender" e = Ok (JStr sender) ∧
    history_vis_at store e = Ok vis ∧
    (erased_out = true → users_erased store sender = false) ∧
    (partial_out = true → get_domain_from_id sender = Ok local ∨
       ∃ room, event_attr "room_id" e = Ok (JStr room) ∧ is_partial_state_room store room = false) ∧
    ((vis ≠ HistoryVisibility.INVITED ∧ vis ≠ HistoryVisibility.JOINED) ∨
     server_has_member store target i Membership.JOIN ∨
     vis = HistoryVisibility.INVITED ∧ server_has_member store target i Membership.INVITE).

(** Events with the same id are the same event. *)
Definition ids_distinct (events : list FrozenEvent) : Prop :=
  ∀ e e' i, e ∈ events → e' ∈ events → event_id_str e = Ok i → event_id_str e' = Ok i → e = e'.

(** A state event has one type and state key, in whatever state it is. *)
Definition state_keys_fixed (store : ServerStore) : Prop :=
  ∀ i i' s s' k k' x, state_ids_after store i = Ok s → state_ids_after store i' = Ok s' →
    (k, x) ∈ s → (k', x) ∈ s' → k = k'.

Lemma history_vis_batch store events d :
  ids_distinct events → _event_to_history_vis store events = Ok d →
  ∀ e, e ∈ events → ∃ i vis, event_id_str e = Ok i ∧ history_vis_at store e = Ok vis ∧ d !! i = Some vis.
Proof.
  intros Hd Hh. unfold _event_to_history_vis in Hh. apply bind_Ok in Hh as (ids & Hids & Hh).
  apply bind_Ok in Hh as (l & Hl & Hh). apply traverse_Ok in Hids.
  refine (foldM_ind_prefix (λ pre d, ∀ e, e ∈ pre → ∃ i vis,
    event_id_str e = Ok i ∧ history_vis_at store e = Ok vis ∧ d !! i = Some vis) _ _ _ _ _ _ Hh); [set_solver|].
  intros pre x post r r' Hev IH Hx e He. apply bind_Ok in Hx as (i & Hi & Hx).
  apply bind_Ok in Hx as (vis & Hvis & [= <-]).
  assert (x ∈ events) as Hxin by (rewrite Hev; set_solver).
  assert (history_vis_at store x = Ok vis) as Hat.
  { rewrite <-Hvis. unfold history_vis_at. rewrite Hi. cbn [mbind res_bind].
    destruct (state_ids_batch_lookup _ _ _ _ i Hl) as [Hin Hout].
    destruct (outlier (internal_metadata x)) eqn:Eo.
    - rewrite Hout; [done|]. intros (n & Hn)%list_elem_of_lookup.
      destruct (Forall2_lookup_r _ _ _ _ _ Hids Hn) as (y & Hy%list_elem_of_lookup_2 & Hyi).
      apply list_elem_of_In, filter_In in Hy as [Hy%list_elem_of_In Hyo].
      rewrite (Hd y x i Hy Hxin Hyi Hi), Eo in Hyo. done.
    - assert (x ∈ List.filter (λ e, negb (outlier (internal_metadata e))) events) as (n & Hn)%list_elem_of_lookup.
      { apply list_elem_of_In, filter_In. split; [by apply list_elem_of_In|by rewrite Eo]. }
      destruct (Forall2_lookup_l _ _ _ _ _ Hids Hn) as (j & Hj%list_elem_of_lookup_2 & Hxj).
      rewrite Hi in Hxj. injection Hxj as <-. destruct (Hin Hj) as (s & -> & ->). cbn [mbind option_bind res_bind].
      rewrite items_get_filter; [done|]. by vm_compute. }
  apply elem_of_app in He as [He|He%list_elem_of_singleton]; [|subst e].
  - destruct (IH e He) as (j & v & Hj & Hv & Hr). exists j, v. split_and!; [done..|].
    destruct (decide (i = j)) as [->|Hne]; [|by rewrite lookup_insert_ne].
    assert (e = x) as -> by (apply (Hd e x j); [rewrite Hev; set_solver|done..]).
    rewrite lookup_insert_eq. congruence.
  - exists i, vis. by rewrite lookup_insert_eq.
Qed.

Lemma memberships_batch store events server d :
  state_keys_fixed store → _event_to_memberships store events server = Ok d →
  ∀ e i m, e ∈ events → event_id_str e = Ok i →
    (∃ sk, (sk, JStr m) ∈ default [] (d !! i)) ↔ server_has_member store server i m.
Proof.
  intros Hfix Hd e i m He Hi. destruct events as [|e0 events]; [by apply not_elem_of_nil in He|].
  set (evs := e0 :: events) in *. unfold _event_to_memberships in Hd. fold evs in Hd.
  apply bind_Ok in Hd as (ids & Hids & Hd). apply traverse_Ok in Hids.
  apply bind_Ok in Hd as (l & Hl & Hd). apply bind_Ok in Hd as (ms & Hms & [= <-]).
  assert (i ∈ ids) as Hin.
  { apply list_elem_of_lookup in He as [n Hn]. destruct (Forall2_lookup_l _ _ _ _ _ Hids Hn) as (j & Hj & Hj').
    rewrite Hi in Hj'. injection Hj' as <-. by eapply list_elem_of_lookup_2. }
  destruct (state_ids_batch _ _ _ _ Hl) as [Hlin Hnd].
  destruct (proj1 (state_ids_batch_lookup _ _ _ _ i Hl) Hin) as (s & Hs & Hls).
  assert (∀ key x, (key, x) ∈ l ≫= snd → ∃ i' s', state_ids_after store i' = Ok s' ∧ (key, x) ∈ s') as Hfrom.
  { intros key x (y & Hx & Hy)%list_elem_of_bind. apply Hlin in Hy as (i' & s' & _ & Hs' & ->). cbn in Hx.
    apply list_elem_of_In, filter_In in Hx as [Hx%list_elem_of_In _]. eauto. }
  assert (∀ k k' x, (k, x) ∈ l ≫= snd → (k', x) ∈ l ≫= snd → k = k') as Huniq.
  { intros k k' x (i1 & s1 & H1 & Hk)%Hfrom (i2 & s2 & H2 & Hk')%Hfrom. exact (Hfix _ _ _ _ _ _ _ H1 H2 Hk Hk'). }
  pose proof (state_key_of _ Huniq) as Hkey. set (keys := foldl _ _ _) in *. clearbody keys.
  assert (∀ sk x, ((EventTypes.Member, sk), x) ∈ s →
    included_event store server keys x = if include_key server sk then get_event store x else None) as Hincl.
  { intros sk x Hx. unfold included_event. rewrite (proj2 (Hkey x (EventTypes.Member, sk))); [done|].
    apply list_elem_of_bind. eexists (i, _). split; [|apply Hlin; by eauto]. cbn.
    apply list_elem_of_In, filter_In. split; [by apply list_elem_of_In|by vm_compute]. }
  destruct (map_values_lookup _ _ _ _ _ Hnd Hms Hls) as (mi & -> & Hmi). cbn [default from_option id].
  rewrite (memberships_of_spec _ _ _ Hmi). unfold server_has_member. split.
  - intros (k & x & e' & Hk & Hx & Hm). apply list_elem_of_In, filter_In in Hk as [Hk%list_elem_of_In Hc].
    destruct k as [t sk]. apply from_types_contains in Hc as [[= ->]%list_elem_of_singleton|[=]%list_elem_of_singleton].
    rewrite (Hincl sk x Hk) in Hx. destruct (include_key server sk) eqn:Ei; [|done].
    exists s, sk, x, e'. split_and!; try done. by apply include_key_true.
  - intros (s' & sk & x & e' & Hs' & Hx & Hdom & Hget & Hm). rewrite Hs in Hs'. injection Hs' as <-.
    exists (EventTypes.Member, sk), x, e'. split_and!; [|rewrite (Hincl sk x Hx); by rewrite (proj2 (include_key_true _ _) Hdom)|done].
    apply list_elem_of_In, filter_In. split; [by apply list_elem_of_In|by vm_compute].
Qed.

(** Whether the partial state of its room hides an event. *)
Definition partial_hidden (store : ServerStore) (local : string) (e : FrozenEvent) : Prop :=
  ∃ sender room, event_attr "sender" e = Ok (JStr sender) ∧ get_domain_from_id sender ≠ Ok local ∧
    event_attr "room_id" e = Ok (JStr room) ∧ is_partial_state_room store room = true.

Lemma partial_invisible store local ids e ids' :
  add_partial_state_invisible store local ids e = Ok ids' →
  (partial_hidden store local e ∧ ∃ i, event_id_str e = Ok i ∧ ids' = {[i]} ∪ ids) ∨
  ids' = ids ∧ ∃ sender, event_attr "sender" e = Ok (JStr sender) ∧
    (get_domain_from_id sender = Ok local ∨
     ∃ room, event_attr "room_id" e = Ok (JStr room) ∧ is_partial_state_room store room = false).
Proof.
  unfold add_partial_state_invisible, partial_hidden. intros H. apply bind_Ok in H as (sd & Hsd & H).
  apply bind_Ok in H as (dom & Hdom & H). destruct sd as [| | | |sd| |]; try done. cbn in Hdom.
  rewrite Hsd. destruct (String.eqb_spec dom local) as [->|Hne].
  { injection H as <-. right. eauto 10. }
  apply bind_Ok in H as (room & Hroom & H). apply bind_Ok in H as (room' & Hr & H).
  destruct room as [| | | |room| |]; try done. injection Hr as <-. destruct (is_partial_state_room store room) eqn:Ep.
  - apply bind_Ok in H as (i & Hi & [= <-]). left. split; [|eauto]. exists sd, room. split_and!; [done| |done..]. congruence.
  - injection H as <-. right. split; [done|]. exists sd. split; [done|]. right. eauto.
Qed.

Lemma partial_invisible_batch store local events ids :
  ids_distinct events → foldM (add_partial_state_invisible store local) ∅ events = Ok ids →
  ∀ e i sender, e ∈ events → event_id_str e = Ok i → event_attr "sender" e = Ok (JStr sender) →
    (i ∉ ids ↔ get_domain_from_id sender = Ok local ∨
       ∃ room, event_attr "room_id" e = Ok (JStr room) ∧ is_partial_state_room store room = false).
Proof.
  intros Hd Hf. set (shown := λ e, ∃ sender, event_attr "sender" e = Ok (JStr sender) ∧
    (get_domain_from_id sender = Ok local ∨
     ∃ room, event_attr "room_id" e = Ok (JStr room) ∧ is_partial_state_room store room = false)).
  assert ((∀ j, j ∈ ids → ∃ x, x ∈ events ∧ event_id_str x = Ok j ∧ partial_hidden store local x) ∧
    (∀ x, x ∈ events → shown x ∨ ∃ j, event_id_str x = Ok j ∧ j ∈ ids)) as [Hids Hall].
  { refine (foldM_ind_prefix (λ pre ids, (∀ j, j ∈ ids → ∃ x, x ∈ pre ∧ event_id_str x = Ok j ∧ partial_hidden store local x) ∧
      (∀ x, x ∈ pre → shown x ∨ ∃ j, event_id_str x = Ok j ∧ j ∈ ids)) _ _ _ _ _ _ Hf); [set_solver|].
    intros pre x post S S' _ [IH1 IH2] [(Hh & i & Hi & ->)|(-> & Hs)]%partial_invisible; split.
    - intros j [->%elem_of_singleton|Hj]%elem_of_union; [exists x; set_solver|].
      destruct (IH1 j Hj) as (y & ? & ? & ?). exists y. set_solver.
    - intros y [Hy|Hy%list_elem_of_singleton]%elem_of_app; [|subst y; right; set_solver].
      destruct (IH2 y Hy) as [?|(j & ? & ?)]; [by left|right; set_solver].
    - intros j Hj. destruct (IH1 j Hj) as (y & ? & ? & ?). exists y. set_solver.
    - intros y [Hy|Hy%list_elem_of_singleton]%elem_of_app; [by apply IH2|subst y; by left]. }
  intros e i sender He Hi Hsd. split.
  - intros Hni. destruct (Hall e He) as [(sd & Hsd' & Hsh)|(j & Hj & Hjin)].
    + rewrite Hsd in Hsd'. by injection Hsd' as <-.
    + rewrite Hi in Hj. by injection Hj as <-.
  - intros Hsh (x & Hx & Hxi & sd & room & Hsd' & Hdom & Hroom & Hp)%Hids. rewrite (Hd x e i Hx He Hxi Hi) in *.
    rewrite Hsd in Hsd'. injection Hsd' as <-. destruct Hsh as [?|(room' & Hroom' & Hp')]; [done|]. congruence.
Qed.



Lemma restricted_events_elem d events l e i vis :
  restricted_events d events = Ok l → e ∈ events → event_id_str e = Ok i → d !! i = Some vis →
  restricted vis = true → e ∈ l.
Proof.
  revert l. induction events as [|x events IH]; intros l Hl He Hi Hv Hr; [by apply not_elem_of_nil in He|].
  cbn in Hl. apply bind_Ok in Hl as (j & Hj & Hl). apply bind_Ok in Hl as (v & Hjv & Hl).
  apply bind_Ok in Hl as (rest & Hrest & [= <-]). apply elem_of_cons in He as [<-|He].
  - rewrite Hi in Hj. injection Hj as <-. unfold dict_index in Hjv. rewrite Hv in Hjv. injection Hjv as <-.
    rewrite Hr. apply list_elem_of_here.
  - destruct (restricted v); [apply elem_of_cons; right|]; by apply IH.
Qed.

Lemma strings_elem (l : list (json * json)) ms m :
  traverse (λ sm : json * json, sk ← as_string sm.1; m ← as_string sm.2; Ok (sk, m)) l = Ok ms →
  (∃ sk, (sk, m) ∈ ms) ↔ ∃ sk, (sk, JStr m) ∈ l.
Proof.
  intros H%traverse_Ok. induction H as [|[a b] y l ms Hy _ IH]; [set_solver|].
  apply bind_Ok in Hy as (a' & Ha & Hy). apply bind_Ok in Hy as (b' & Hb & [= <-]).
  destruct b as [| | | |b| |]; try done. injection Hb as <-. setoid_rewrite elem_of_cons.
  destruct a as [| | | |a| |]; try done. injection Ha as <-. split.
  - intros (sk & [[= -> ->]|Hin]); [eauto|]. destruct (proj1 IH ltac:(by exists sk)) as [sk' ?]. eauto.
  - intros (sk & [[= -> ->]|Hin]); [eauto|]. destruct (proj2 IH ltac:(by exists sk)) as [sk' ?]. eauto.
Qed.

(** One event, given what the batches fetched. *)
Lemma event_for_server_spec store target local redact erased_out partial_out invisible d dm e i vis part :
  event_id_str e = Ok i → history_vis_at store e = Ok vis → d !! i = Some vis →
  (∀ sender, event_attr "sender" e = Ok (JStr sender) →
     i ∉ invisible ↔ (partial_out = true → get_domain_from_id sender = Ok local ∨
       ∃ room, event_attr "room_id" e = Ok (JStr room) ∧ is_partial_state_room store room = false)) →
  (restricted vis = true → ∀ m, (∃ sk, (sk, JStr m) ∈ default [] (dm !! i)) ↔ server_has_member store target i m) →
  event_for_server store target redact erased_out invisible d dm e = Ok part →
  (visible_to_server store target local erased_out partial_out e ∧ part = [e]) ∨
  (¬ visible_to_server store target local erased_out partial_out e ∧
   if redact then ∃ e', prune_event e = Ok e' ∧ part = [e'] else part = []).
Proof.
  intros Hi Hvis Hd Hpart Hmem H. unfold event_for_server in H. apply bind_Ok in H as (sd & Hsd & H).
  rewrite Hi in H. cbn [mbind res_bind] in H. unfold dict_index in H. rewrite Hd in H. cbn [mbind res_bind] in H.
  apply bind_Ok in H as (s & Hs & H). destruct sd as [| | | |sd| |]; try done. injection Hs as <-.
  apply bind_Ok in H as (ms & Hms & H). apply bind_Ok in H as (b & Hb & H).
  assert (b = true ↔ visible_to_server store target local erased_out partial_out e) as Hiff.
  2:{ destruct b; [injection H as <-; left; tauto|]. right. split; [by intros ?%Hiff|].
      destruct redact; [|by injection H as <-]. apply bind_Ok in H as (e' & He' & [= <-]). eauto. }
  clear H. assert (visible_to_server store target local erased_out partial_out e ↔
    (erased_out = true → users_erased store sd = false) ∧ (i ∉ invisible) ∧
    ((vis ≠ HistoryVisibility.INVITED ∧ vis ≠ HistoryVisibility.JOINED) ∨
     server_has_member store target i Membership.JOIN ∨
     vis = HistoryVisibility.INVITED ∧ server_has_member store target i Membership.INVITE)) as ->.
  { rewrite (Hpart sd Hsd). unfold visible_to_server. rewrite Hi, Hsd, Hvis. split.
    - intros (i' & s' & v' & [= <-] & [= <-] & [= <-] & ?). done.
    - intros ?. exists i, sd, vis. done. }
  clear Hpart. unfold event_visible_to_server in Hb.
  destruct (erased_out && users_erased store sd) eqn:Ee.
  { injection Hb as <-. apply andb_true_iff in Ee as [-> ->]. split; [done|]. intros [Hx _]. by specialize (Hx eq_refl). }
  assert (erased_out = true → users_erased store sd = false) as He by (intros ->; done).
  destruct (bool_decide_reflect (i ∈ invisible)) as [Hin|Hnin].
  { injection Hb as <-. split; [done|]. tauto. }
  destruct (String.eqb_spec vis HistoryVisibility.INVITED) as [Ev|Hn1], (String.eqb_spec vis HistoryVisibility.JOINED) as [Ev'|Hn2];
    cbn [negb andb] in Hb; [by rewrite Ev in Ev'|..|injection Hb as <-; tauto].
  all: rewrite (memberships_visible_spec _ _ _ _ Hb), !(strings_elem _ _ _ Hms), !Hmem by (subst vis; done); tauto.
Qed.
End Server.

(** C25: filter_events_for_server, which fetches visibilities and memberships for all events
    at once, returns event by event the event itself exactly when its sender is not erased
    (if asked), its room is not a partial state room of a remote sender (if asked) and its
    history visibility is open or a user of the server is joined (or invited, where invited
    users may see) at it; the other events are left out or redacted. Events with one id are
    one event, and a state event has one state key. *)
Theorem server_sees_what_it_may `{SignedJson} `{EventCrypto} store target local events redact erased_out partial_out out :
  ids_distinct events → state_keys_fixed store →
  filter_events_for_server store target local events redact erased_out partial_out = Ok out →
  ∃ parts, out = mjoin parts ∧
    Forall2 (λ e part,
      (visible_to_server store target local erased_out partial_out e ∧ part = [e]) ∨
      (¬ visible_to_server store target local erased_out partial_out e ∧
       if redact then ∃ e', prune_event e = Ok e' ∧ part = [e'] else part = [])) events parts.
Proof.
  intros Hd Hfix Hf. unfold filter_events_for_server in Hf. apply bind_Ok in Hf as (? & _ & Hf).
  apply bind_Ok in Hf as (inv & Hinv & Hf). apply bind_Ok in Hf as (d & Hhv & Hf).
  apply bind_Ok in Hf as (chk & Hchk & Hf). apply bind_Ok in Hf as (dm & Hdm & Hf).
  apply bind_Ok in Hf as (parts & Hparts & [= <-]). exists parts. split; [done|].
  apply traverse_Ok in Hparts. pose proof (history_vis_batch _ _ _ Hd Hhv) as Hhv'.
  apply Forall2_same_length_lookup. split; [by eapply Forall2_length|]. intros n e part Hn Hp.
  pose proof (Forall2_lookup_lr _ _ _ _ _ _ Hparts Hn Hp) as Hpart. apply list_elem_of_lookup_2 in Hn.
  destruct (Hhv' e Hn) as (i & vis & Hi & Hvis & Hdi).
  refine (event_for_server_spec _ _ _ _ _ _ _ _ _ _ _ _ _ Hi Hvis Hdi _ _ Hpart).
  - intros sender Hsd. destruct partial_out; [|injection Hinv as <-; split; [done|intros _; apply not_elem_of_empty]].
    rewrite (partial_invisible_batch _ _ _ _ Hd Hinv e i sender Hn Hi Hsd). tauto.
  - intros Hr m. apply (memberships_batch _ _ _ _ Hfix Hdm e); [|done].
    by apply (restricted_events_elem _ _ _ _ _ _ Hchk Hn Hi Hdi).
Qed.
