(* ===== verification/LinkedList.v ===== *)
(** * Circular doubly linked lists: [synapse/util/linked_list.py]

    Nodes are objects with identity: a heap maps references to them, and the
    operations update it in the order of the source. [ring] is the list a heap
    holds. *)

From S2P Require Import Prelude.

(** ** [ListNode] *)

Record ListNode (P : Type) := mkListNode {
  cache_entry : option P;
  prev_node : option nat;
  next_node : option nat
}.
Arguments mkListNode {P}.
Arguments cache_entry {P}.
Arguments prev_node {P}.
Arguments next_node {P}.

Abbreviation Heap P := (gmap nat (ListNode P)).

Section List.
Context {P : Type}.

(** Every reference has an object; the default is never met. *)
Definition node_at (h : Heap P) (x : nat) : ListNode P := default (mkListNode None None None) (h !! x).

Definition set_prev (x : nat) (p : option nat) (h : Heap P) : Heap P :=
  <[x := mkListNode (cache_entry (node_at h x)) p (next_node (node_at h x))]> h.
Definition set_next (x : nat) (n : option nat) (h : Heap P) : Heap P :=
  <[x := mkListNode (cache_entry (node_at h x)) (prev_node (node_at h x)) n]> h.
Definition set_entry (x : nat) (e : option P) (h : Heap P) : Heap P :=
  <[x := mkListNode e (prev_node (node_at h x)) (next_node (node_at h x))]> h.

Definition is_none_node (o : option nat) : bool := match o with None => true | Some _ => false end.

(** [assert b] *)
Definition py_assert (b : bool) : res unit := raise_if (negb b) AssertionError.

(** The references of new objects are given. *)
Definition create_root_node (root : nat) (h : Heap P) : Heap P :=
  set_next root (Some root) (set_prev root (Some root) (<[root := mkListNode None None None]> h)).

Definition _refs_insert_after (self node : nat) (h : Heap P) : res (Heap P) :=
  py_assert (is_none_node (prev_node (node_at h self)));;
  py_assert (is_none_node (next_node (node_at h self)));;
  match next_node (node_at h node), prev_node (node_at h node) with
  | Some next, Some _ =>
      Ok (set_prev next (Some self) (set_next node (Some self)
           (set_next self (Some next) (set_prev self (Some node) h))))
  | _, _ => Raise AssertionError
  end.

Definition _refs_remove_node_from_list (self : nat) (h : Heap P) : Heap P :=
  match prev_node (node_at h self), next_node (node_at h self) with
  | Some prev, Some next =>
      set_next self None (set_prev self None (set_prev next (Some prev) (set_next prev (Some next) h)))
  | _, _ => h
  end.

Definition insert_after (new_node : nat) (entry : P) (node : nat) (h : Heap P) : res (Heap P) :=
  _refs_insert_after new_node node (<[new_node := mkListNode (Some entry) None None]> h).

Definition remove_from_list (self : nat) (h : Heap P) : Heap P :=
  set_entry self None (_refs_remove_node_from_list self h).

Definition move_after (self node : nat) (h : Heap P) : res (Heap P) :=
  py_assert (negb (is_none_node (prev_node (node_at h self))));;
  py_assert (negb (is_none_node (next_node (node_at h self))));;
  py_assert (negb (is_none_node (prev_node (node_at h node))));;
  py_assert (negb (is_none_node (next_node (node_at h node))));;
  py_assert (negb (Nat.eqb self node));;
  _refs_insert_after self node (_refs_remove_node_from_list self h).

Definition get_cache_entry (self : nat) (h : Heap P) : option P := cache_entry (node_at h self).

(** ** Rings *)

Definition nxt (h : Heap P) (x : nat) : option nat := next_node (node_at h x).
Definition prv (h : Heap P) (x : nat) : option nat := prev_node (node_at h x).

(** From [x] the links lead through [l] to [y], in both directions. *)
Fixpoint linked (h : Heap P) (x : nat) (l : list nat) (y : nat) : Prop :=
  match l with
  | [] => nxt h x = Some y ∧ prv h y = Some x
  | z :: l => nxt h x = Some z ∧ prv h z = Some x ∧ linked h z l y
  end.

(** The nodes after the root, in order. *)
Definition ring (h : Heap P) (root : nat) (l : list nat) : Prop :=
  NoDup (root :: l) ∧ linked h root l root.

Lemma node_at_insert h x n y : node_at (<[x := n]> h) y = if decide (x = y) then n else node_at h y.
Proof. unfold node_at. case_decide; subst; [by rewrite lookup_insert_eq|by rewrite lookup_insert_ne]. Qed.

Lemma nxt_set_prev x p h y : nxt (set_prev x p h) y = nxt h y.
Proof. unfold nxt, set_prev. rewrite node_at_insert. case_decide; by subst. Qed.
Lemma nxt_set_entry x p h y : nxt (set_entry x p h) y = nxt h y.
Proof. unfold nxt, set_entry. rewrite node_at_insert. case_decide; by subst. Qed.
Lemma nxt_set_next x p h y : nxt (set_next x p h) y = if decide (x = y) then p else nxt h y.
Proof. unfold nxt, set_next. rewrite node_at_insert. case_decide; by subst. Qed.
Lemma prv_set_next x p h y : prv (set_next x p h) y = prv h y.
Proof. unfold prv, set_next. rewrite node_at_insert. case_decide; by subst. Qed.
Lemma prv_set_entry x p h y : prv (set_entry x p h) y = prv h y.
Proof. unfold prv, set_entry. rewrite node_at_insert. case_decide; by subst. Qed.
Lemma prv_set_prev x p h y : prv (set_prev x p h) y = if decide (x = y) then p else prv h y.
Proof. unfold prv, set_prev. rewrite node_at_insert. case_decide; by subst. Qed.
Lemma entry_set_next x p h y : get_cache_entry y (set_next x p h) = get_cache_entry y h.
Proof. unfold get_cache_entry, set_next. rewrite node_at_insert. case_decide; by subst. Qed.
Lemma entry_set_prev x p h y : get_cache_entry y (set_prev x p h) = get_cache_entry y h.
Proof. unfold get_cache_entry, set_prev. rewrite node_at_insert. case_decide; by subst. Qed.
Lemma entry_set_entry x p h y :
  get_cache_entry y (set_entry x p h) = if decide (x = y) then p else get_cache_entry y h.
Proof. unfold get_cache_entry, set_entry. rewrite node_at_insert. case_decide; by subst. Qed.

Lemma linked_app h x l1 z l2 y : linked h x (l1 ++ z :: l2) y ↔ linked h x l1 z ∧ linked h z l2 y.
Proof. revert x. induction l1 as [|w l1 IH]; intros x; cbn; [tauto|]. rewrite IH. tauto. Qed.

(** Writes elsewhere do not matter. *)
Lemma linked_frame h h' x l y :
  (∀ z, z ∈ x :: l → nxt h' z = nxt h z) → (∀ z, z ∈ l ∨ z = y → prv h' z = prv h z) →
  linked h x l y → linked h' x l y.
Proof.
  revert x. induction l as [|w l IH]; intros x Hn Hp; cbn.
  - intros [H1 H2]. rewrite Hn, Hp by set_solver. done.
  - intros (H1 & H2 & H3). rewrite Hn, Hp by set_solver. split_and!; [done..|].
    apply IH; [|intros; apply Hp; set_solver|done]. intros; apply Hn. set_solver.
Qed.
End List.

#[export] Hint Rewrite @nxt_set_prev @nxt_set_next @nxt_set_entry @prv_set_prev @prv_set_next @prv_set_entry
  @entry_set_prev @entry_set_next @entry_set_entry : synapse.

(** Read through the writes; distinct references are told apart by the list. *)
Ltac heap_read :=
  autorewrite with synapse; repeat (first [rewrite decide_True by done | rewrite decide_False by set_solver]).

Section Ring.
Context {P : Type}.
Implicit Types h : Heap P.

Lemma ring_frame h h' r l :
  (∀ z, z ∈ r :: l → nxt h' z = nxt h z ∧ prv h' z = prv h z) → ring h r l → ring h' r l.
Proof.
  intros Hz [Hnd Hl]. split; [done|]. eapply linked_frame; [| |exact Hl]; intros z Hin; apply Hz; set_solver.
Qed.

Lemma create_root_ring r h : ring (create_root_node r h) r [].
Proof.
  split; [apply NoDup_singleton|]. unfold create_root_node. cbn. heap_read. done.
Qed.

(** The root has two neighbours. *)
Lemma linked_ends h x l y : linked h x l y → is_Some (nxt h x) ∧ is_Some (prv h y).
Proof.
  revert x. induction l as [|z l IH]; intros x; cbn; [by intros [-> ->]|].
  intros (-> & _ & [_ Hy]%IH). done.
Qed.

Lemma refs_insert_ring h r l x :
  ring h r l → x ∉ r :: l → prv h x = None → nxt h x = None →
  ∃ h', _refs_insert_after x r h = Ok h' ∧ ring h' r (x :: l) ∧
    ∀ y, get_cache_entry y h' = get_cache_entry y h.
Proof.
  intros [Hnd Hl] Hx Hp Hn. destruct (linked_ends _ _ _ _ Hl) as [[n En] [p Ep]].
  unfold _refs_insert_after. unfold nxt in En, Hn. unfold prv in Ep, Hp. rewrite Hp, Hn, En, Ep. cbn.
  eexists. split; [done|]. split; [|intros y; heap_read; done]. split; [apply NoDup_cons in Hnd as [? ?]; rewrite !NoDup_cons; set_solver|].
  apply not_elem_of_cons in Hx as [Hxr Hxl]. apply NoDup_cons in Hnd as [Hrl Hnd]. destruct l as [|z l]; cbn in Hl |- *.
  - destruct Hl as [Hl _]. unfold nxt in Hl. rewrite Hl in En. injection En as <-. heap_read. done.
  - destruct Hl as (Hl & Hl' & Hrest). unfold nxt in Hl. rewrite Hl in En. injection En as <-.
    apply NoDup_cons in Hnd as [Hzl Hnd]. heap_read. split_and!; [done..|].
    eapply linked_frame; [| |exact Hrest]; intros w Hw; heap_read; done.
Qed.

Lemma refs_remove_ring h r l1 x l2 :
  ring h r (l1 ++ x :: l2) →
  let h' := _refs_remove_node_from_list x h in
  ring h' r (l1 ++ l2) ∧ prv h' x = None ∧ nxt h' x = None ∧ ∀ y, get_cache_entry y h' = get_cache_entry y h.
Proof.
  intros [Hnd Hl]. cbv zeta. apply linked_app in Hl as [H1 H2].
  assert (∃ p, (l1 = [] ∧ p = r ∨ ∃ l1', l1 = l1' ++ [p] ∧ linked h r l1' p) ∧ nxt h p = Some x ∧ prv h x = Some p) as (p & Hp & Hpn & Hxp).
  { destruct l1 as [|p l1 _] using rev_ind; [exists r; cbn in H1; tauto|].
    apply linked_app in H1 as [H1 H3]. cbn in H3. exists p. split; [right; eauto|done]. }
  assert (∃ n, (l2 = [] ∧ n = r ∨ ∃ l2', l2 = n :: l2' ∧ linked h n l2' r) ∧ nxt h x = Some n ∧ prv h n = Some x) as (n & Hn & Hxn & Hnp).
  { destruct l2 as [|n l2]; [exists r; cbn in H2; tauto|]. destruct H2 as (? & ? & ?). exists n. split; [right; eauto|done]. }
  clear H1 H2. unfold _refs_remove_node_from_list. fold (prv h x) (nxt h x). rewrite Hxp, Hxn.
  split_and!; [split| heap_read; done | heap_read; done | intros y; heap_read; done].
  { rewrite NoDup_cons in *. destruct Hnd as [Hr Hnd]. split; [set_solver|].
    rewrite NoDup_app in *. rewrite NoDup_cons in Hnd. set_solver. }
  set (h' := set_next x None _).
  assert (x ≠ p ∧ x ≠ n) as [Hxp' Hxn'].
  { rewrite NoDup_cons, NoDup_app, NoDup_cons in Hnd.
    split; intros <-; [destruct Hp as [[_ ->]|(l1' & -> & _)]|destruct Hn as [[_ ->]|(l2' & -> & _)]]; set_solver. }
  assert (nxt h' p = Some n) as Hp' by (unfold h'; heap_read; done).
  assert (prv h' n = Some p) as Hn' by (unfold h'; heap_read; done).
  assert (∀ z, z ≠ x → z ≠ p → nxt h' z = nxt h z) as Hnxt by (intros; unfold h'; heap_read; done).
  assert (∀ z, z ≠ x → z ≠ n → prv h' z = prv h z) as Hprv by (intros; unfold h'; heap_read; done).
  clearbody h'. destruct Hp as [[-> ->]|(l1' & -> & Hl1)], Hn as [[-> ->]|(l2' & -> & Hl2)]; cbn [app].
  - done.
  - assert (NoDup (r :: x :: n :: l2')) as Hd by exact Hnd. rewrite !NoDup_cons in Hd. split_and!; [done..|].
    eapply linked_frame; [| |exact Hl2]; intros z Hz; [apply Hnxt|apply Hprv]; clear -Hd Hz; set_solver.
  - rewrite app_nil_r. apply linked_app. split; [|done].
    assert (NoDup (r :: p :: x :: l1')) as Hd by (eapply NoDup_Permutation_proper; [|exact Hnd]; solve_Permutation).
    rewrite !NoDup_cons in Hd.
    eapply linked_frame; [| |exact Hl1]; intros z Hz; [apply Hnxt|apply Hprv]; clear -Hd Hz; set_solver.
  - rewrite <-(assoc_L (++)). apply linked_app.
    assert (NoDup (r :: p :: x :: n :: l1' ++ l2')) as Hd by (eapply NoDup_Permutation_proper; [|exact Hnd]; solve_Permutation).
    rewrite !NoDup_cons in Hd. split; [|split_and!; [done..|]].
    + eapply linked_frame; [| |exact Hl1]; intros z Hz; [apply Hnxt|apply Hprv]; clear -Hd Hz; set_solver.
    + eapply linked_frame; [| |exact Hl2]; intros z Hz; [apply Hnxt|apply Hprv]; clear -Hd Hz; set_solver.
Qed.

(** ** The operations on rings *)

Lemma insert_after_ring h r l x e :
  ring h r l → x ∉ r :: l →
  ∃ h', insert_after x e r h = Ok h' ∧ ring h' r (x :: l) ∧ get_cache_entry x h' = Some e ∧
    ∀ y, y ≠ x → get_cache_entry y h' = get_cache_entry y h.
Proof.
  intros Hr Hx. unfold insert_after. set (h0 := <[x := _]> h).
  assert (∀ y, y ≠ x → node_at h0 y = node_at h y) as Hy by (intros; unfold h0; rewrite node_at_insert; by case_decide).
  assert (node_at h0 x = mkListNode (Some e) None None) as Hx0 by (unfold h0; rewrite node_at_insert; by case_decide).
  destruct (refs_insert_ring h0 r l x) as (h' & Heq & Hr' & He).
  - eapply ring_frame; [|exact Hr]. intros z Hz. unfold nxt, prv. rewrite Hy by set_solver. done.
  - done.
  - unfold prv. by rewrite Hx0.
  - unfold nxt. by rewrite Hx0.
  - exists h'. split_and!; [done..| |].
    + rewrite He. unfold get_cache_entry. by rewrite Hx0.
    + intros y Hne. rewrite He. unfold get_cache_entry. by rewrite Hy.
Qed.

Lemma remove_from_list_ring h r l1 x l2 :
  ring h r (l1 ++ x :: l2) →
  ring (remove_from_list x h) r (l1 ++ l2) ∧
  ∀ y, y ≠ x → get_cache_entry y (remove_from_list x h) = get_cache_entry y h.
Proof.
  intros Hr. unfold remove_from_list. destruct (refs_remove_ring _ _ _ _ _ Hr) as (Hr' & _ & _ & He). split.
  - eapply ring_frame; [|exact Hr']. intros z _. by autorewrite with synapse.
  - intros y Hy. heap_read. done.
Qed.

Lemma ring_alive h r l x : ring h r l → x ∈ r :: l → is_Some (prv h x) ∧ is_Some (nxt h x).
Proof.
  intros [_ Hl] [->|Hx]%elem_of_cons; [apply linked_ends in Hl; tauto|].
  apply list_elem_of_split in Hx as (l1 & l2 & ->). apply linked_app in Hl as [H1 H2].
  apply linked_ends in H1, H2. tauto.
Qed.

Lemma move_after_ring h r l1 x l2 :
  ring h r (l1 ++ x :: l2) →
  ∃ h', move_after x r h = Ok h' ∧ ring h' r (x :: l1 ++ l2) ∧
    ∀ y, get_cache_entry y h' = get_cache_entry y h.
Proof.
  intros Hr. destruct (ring_alive h r _ x Hr) as [[p Hp] [n Hn]]; [set_solver|].
  destruct (ring_alive h r _ r Hr) as [[pr Hpr] [nr Hnr]]; [set_solver|].
  assert (NoDup (r :: x :: l1 ++ l2)) as Hnd.
  { eapply NoDup_Permutation_proper; [|apply Hr]. solve_Permutation. }
  apply NoDup_cons in Hnd as [Hrx Hnd]. apply NoDup_cons in Hnd as [Hx _].
  unfold move_after. unfold prv in Hp, Hpr. unfold nxt in Hn, Hnr. rewrite Hp, Hn, Hpr, Hnr.
  replace (Nat.eqb x r) with false by (symmetry; apply Nat.eqb_neq; intros ->; set_solver). cbn [py_assert].
  destruct (refs_remove_ring _ _ _ _ _ Hr) as (Hr' & Hp' & Hn' & He).
  destruct (refs_insert_ring _ _ _ x Hr' ltac:(set_solver) Hp' Hn') as (h' & -> & Hr'' & He').
  exists h'. split_and!; [done..|]. intros y. by rewrite He', He.
Qed.

(** The oldest node. *)
Lemma ring_last h r l x : ring h r (l ++ [x]) → prv h r = Some x.
Proof. intros [_ [_ [_ H]]%linked_app]. done. Qed.
End Ring.
