(* ===== verification/LruCache.v ===== *)
(** * Least recently used caches: [synapse/util/caches/lrucache.py]

    [LruCache] with its dict of nodes, its linked list, its size and its second
    index. The dict is a plain one or a [TreeCache]: an interface. Time based
    eviction, which threads the nodes through a second list of all caches, is
    off unless it is configured and is not modelled; nor are metrics. *)

From S2P Require Import Prelude LinkedList.

(** ** The dict of nodes *)

(** What [LruCache] uses of its [cache_type], for keys [K] and nodes [N]. A key
    of a [TreeCache] may be the beginning of a key, which names a subtree:
    [get] is for whole keys, [pop] gives the nodes it removed. *)
Class CacheType (K N : Type) := {
  Cache : Type;
  cache_new : Cache;
  cache_lookup : K → Cache → res (option N);
  cache_lookup_multi : K → Cache → res (option (list (K * N)));
  cache_in : K → Cache → res bool;
  cache_setitem : K → N → Cache → res Cache;
  cache_remove : K → Cache → res (list N * Cache);
  cache_length : Cache → Z;
  cache_nodes : Cache → list N
}.

Section Lru.
Context {K V C : Type} `{Countable K} `{EqDecision C} {CT : CacheType K nat}.

(** ** State *)

(** [_Node]: its [ListNode], and the callbacks ([None] is []). *)
Record _Node := mkNode { _list_node : nat; key : K; value : V; callbacks : list C }.

(** The objects of the nodes and of the linked list have references; [ran] are
    the callbacks that have been called. *)
Record LruCache := mkLru {
  _original_max_size : Z;
  max_size : Z;
  cache : Cache;
  nodes : gmap nat _Node;
  heap : Heap nat;
  list_root : nat;
  next_ref : nat;
  cached_cache_len : Z;
  extra_index : gmap K (gset K);
  ran : list C
}.

(** The arguments of the constructor that are functions, [value != other], and
    the order in which a set lists its elements. *)
Context (size_callback : option (V → Z)) (extra_index_cb : option (K → V → K)).
Context (py_ne : V → V → bool) (set_order : list C → list C).

(** Assignments to the fields. *)
Definition with_cache (t : Cache) (c : LruCache) : LruCache :=
  mkLru (_original_max_size c) (max_size c) t (nodes c) (heap c) (list_root c) (next_ref c)
    (cached_cache_len c) (extra_index c) (ran c).
Definition with_node (i : nat) (n : _Node) (c : LruCache) : LruCache :=
  mkLru (_original_max_size c) (max_size c) (cache c) (<[i := n]> (nodes c)) (heap c) (list_root c) (next_ref c)
    (cached_cache_len c) (extra_index c) (ran c).
Definition with_heap (h : Heap nat) (c : LruCache) : LruCache :=
  mkLru (_original_max_size c) (max_size c) (cache c) (nodes c) h (list_root c) (next_ref c)
    (cached_cache_len c) (extra_index c) (ran c).
Definition with_len (n : Z) (c : LruCache) : LruCache :=
  mkLru (_original_max_size c) (max_size c) (cache c) (nodes c) (heap c) (list_root c) (next_ref c)
    n (extra_index c) (ran c).
Definition with_index (x : gmap K (gset K)) (c : LruCache) : LruCache :=
  mkLru (_original_max_size c) (max_size c) (cache c) (nodes c) (heap c) (list_root c) (next_ref c)
    (cached_cache_len c) x (ran c).
Definition with_max (n : Z) (c : LruCache) : LruCache :=
  mkLru (_original_max_size c) n (cache c) (nodes c) (heap c) (list_root c) (next_ref c)
    (cached_cache_len c) (extra_index c) (ran c).
Definition with_ran (l : list C) (c : LruCache) : LruCache :=
  mkLru (_original_max_size c) (max_size c) (cache c) (nodes c) (heap c) (list_root c) (next_ref c)
    (cached_cache_len c) (extra_index c) l.

(** A reference in the dict or the list is to a node. *)
Definition the_node (c : LruCache) (i : nat) : res _Node :=
  match nodes c !! i with Some n => Ok n | None => Raise AssertionError end.

(** ** [_Node] *)

(** [add_callbacks]: the list afterwards. *)
Definition add_callbacks (cbs new : list C) : list C :=
  foldl (λ l cb, if decide (cb ∈ l) then l else l ++ [cb]) cbs new.

Definition run_and_clear_callbacks (i : nat) (c : LruCache) : res LruCache :=
  n ← the_node c i;
  Ok (with_ran (ran c ++ callbacks n) (with_node i (mkNode (_list_node n) (key n) (value n) []) c)).

Definition drop_from_lists (i : nat) (c : LruCache) : res LruCache :=
  n ← the_node c i;
  Ok (with_heap (remove_from_list (_list_node n) (heap c)) c).

Definition move_to_front (i : nat) (c : LruCache) : res LruCache :=
  n ← the_node c i;
  h ← move_after (_list_node n) (list_root c) (heap c);
  Ok (with_heap h c).

(** ** The closures of [__init__] *)

Definition cache_len (c : LruCache) : Z :=
  match size_callback with Some _ => cached_cache_len c | None => cache_length (cache c) end.

(** [_Node(...)] and its [ListNode] get the next reference. *)
Definition add_node (k : K) (v : V) (cbs : list C) (c : LruCache) : res LruCache :=
  let i := next_ref c in
  h ← insert_after i i (list_root c) (heap c);
  t ← cache_setitem k i (cache c);
  let len := match size_callback with Some f => cached_cache_len c + f v | None => cached_cache_len c end in
  let index := match extra_index_cb with
               | Some cb => <[cb k v := {[k]} ∪ default ∅ (extra_index c !! cb k v)]> (extra_index c)
               | None => extra_index c
               end in
  Ok (mkLru (_original_max_size c) (max_size c) t (<[i := mkNode i k v (add_callbacks [] cbs)]> (nodes c)) h
        (list_root c) (S i) len index (ran c)).

(** [mapped_keys.discard(key)], and the removal of an empty set. *)
Definition index_discard (ik k : K) (x : gmap K (gset K)) : gmap K (gset K) :=
  match x !! ik with
  | None => x
  | Some mapped_keys =>
      if decide (mapped_keys ∖ {[k]} = ∅) then delete ik x else <[ik := mapped_keys ∖ {[k]}]> x
  end.

Definition delete_node (i : nat) (c : LruCache) : res (Z * LruCache) :=
  c ← drop_from_lists i c;
  n ← the_node c i;
  let deleted_len := match size_callback with Some f => f (value n) | None => 1 end in
  let c := match size_callback with Some _ => with_len (cached_cache_len c - deleted_len) c | None => c end in
  c ← run_and_clear_callbacks i c;
  let c := match extra_index_cb with
           | Some cb => with_index (index_discard (cb (key n) (value n)) (key n) (extra_index c)) c
           | None => c
           end in
  Ok (deleted_len, c).

(** The body of the loop of [evict]. *)
Definition evict_one (c : LruCache) : res LruCache :=
  match prev_node (node_at (heap c) (list_root c)) with
  | None => Raise AssertionError
  | Some todelete =>
      match get_cache_entry todelete (heap c) with
      | None => Raise AssertionError
      | Some i =>
          dc ← delete_node i c;
          n ← the_node dc.2 i;
          t ← cache_remove (key n) (cache dc.2);
          Ok (with_cache t.2 dc.2)
      end
  end.

Fixpoint lru_evict_loop (fuel : nat) (c : LruCache) : res LruCache :=
  if max_size c <? cache_len c then
    match fuel with
    | O => Raise OutOfFuel
    | S fuel => c ← evict_one c; lru_evict_loop fuel c
    end
  else Ok c.

(** Each iteration takes a node away: one more than there are is enough. *)
Definition evict (c : LruCache) : res LruCache := lru_evict_loop (S (length (cache_nodes (cache c)))) c.

(** [__init__]; [scaled] maps a size [n] to [int(n * factor)] for the default
    factor, [None] when the factor of the configuration is not applied.
    [register_cache] calls [set_cache_factor] at once with the factor of a named
    cache when the configuration has been read ([factor]). *)
Definition lru_init (size : Z) (scaled factor : option (Z → Z)) : LruCache :=
  let max := match scaled, factor with
             | Some _, Some f => f size
             | Some f, None => f size
             | None, _ => size
             end in
  mkLru size max cache_new ∅ (create_root_node O ∅) O 1 0 ∅ [].

Definition cache_get (k : K) (cbs : list C) (update_last_access : bool) (c : LruCache) :
    res (option V * LruCache) :=
  node ← cache_lookup k (cache c);
  match node with
  | Some i =>
      c ← (if update_last_access then move_to_front i c else Ok c);
      n ← the_node c i;
      Ok (Some (value n), with_node i (mkNode (_list_node n) (key n) (value n) (add_callbacks (callbacks n) cbs)) c)
  | None => Ok (None, c)
  end.

Definition cache_get_multi (k : K) (c : LruCache) : res (option (list (K * V))) :=
  node ← cache_lookup_multi k (cache c);
  match node with
  | Some l => l ← traverse (λ kn : K * nat, n ← the_node c kn.2; Ok (kn.1, value n)) l; Ok (Some l)
  | None => Ok None
  end.

(** The branch of [cache_set] for a key in the cache. *)
Definition set_existing (i : nat) (v : V) (cbs : list C) (c : LruCache) : res LruCache :=
  n ← the_node c i;
  c ← (if py_ne v (value n) then run_and_clear_callbacks i c else Ok c);
  let c := match size_callback with
           | Some f => with_len (cached_cache_len c - f (value n) + f v) c
           | None => c
           end in
  n ← the_node c i;
  let c := with_node i (mkNode (_list_node n) (key n) (value n) (add_callbacks (callbacks n) cbs)) c in
  c ← move_to_front i c;
  n ← the_node c i;
  Ok (with_node i (mkNode (_list_node n) (key n) v (callbacks n)) c).

Definition cache_set (k : K) (v : V) (cbs : list C) (c : LruCache) : res LruCache :=
  node ← cache_lookup k (cache c);
  c ← match node with
      | Some i => set_existing i v cbs c
      | None => add_node k v (set_order cbs) c
      end;
  evict c.

Definition cache_set_default (k : K) (v : V) (c : LruCache) : res (V * LruCache) :=
  node ← cache_lookup k (cache c);
  match node with
  | Some i => n ← the_node c i; Ok (value n, c)
  | None => c ← add_node k v [] c; c ← evict c; Ok (v, c)
  end.

Definition cache_pop (k : K) (c : LruCache) : res (option V * LruCache) :=
  node ← cache_lookup k (cache c);
  match node with
  | Some i =>
      dc ← delete_node i c;
      n ← the_node dc.2 i;
      t ← cache_remove (key n) (cache dc.2);
      Ok (Some (value n), with_cache t.2 dc.2)
  | None => Ok (None, c)
  end.

Definition cache_del_multi (k : K) (c : LruCache) : res LruCache :=
  popped ← cache_remove k (cache c);
  foldM (λ c leaf, dc ← delete_node leaf c; Ok dc.2) (with_cache popped.2 c) popped.1.

Definition cache_clear (c : LruCache) : res LruCache :=
  c ← foldM (λ c i, c ← run_and_clear_callbacks i c; drop_from_lists i c) c (cache_nodes (cache c));
  py_assert (bool_decide (next_node (node_at (heap c) (list_root c)) = Some (list_root c)));;
  py_assert (bool_decide (prev_node (node_at (heap c) (list_root c)) = Some (list_root c)));;
  let c := with_cache cache_new c in
  let c := match size_callback with Some _ => with_len 0 c | None => c end in
  Ok (with_index ∅ c).

Definition cache_contains (k : K) (c : LruCache) : res bool := cache_in k (cache c).

Definition cache_invalidate_on_extra_index (index_key : K) (c : LruCache) : res LruCache :=
  match extra_index_cb with
  | None => Raise AssertionError
  | Some _ =>
      match extra_index c !! index_key with
      | None => Ok c
      | Some keys =>
          foldM (λ c k,
              popped ← cache_remove k (cache c);
              match popped.1 with
              | [] => Ok c
              | i :: _ => dc ← delete_node i (with_cache popped.2 c); Ok dc.2
              end) (with_index (delete index_key (extra_index c)) c) (elements keys)
      end
  end.

(** [set_cache_factor], for a cache that applies the factor. *)
Definition lru_set_cache_factor (scaled : Z → Z) (c : LruCache) : res LruCache :=
  let new_size := scaled (_original_max_size c) in
  if negb (new_size =? max_size c) then evict (with_max new_size c) else Ok c.

(** ** [__getitem__], [__delitem__] *)

Definition lru_getitem (k : K) (c : LruCache) : res (V * LruCache) :=
  r ← cache_get k [] true c;
  match r.1 with Some v => Ok (v, r.2) | None => Raise KeyError end.

Definition lru_delitem (k : K) (c : LruCache) : res LruCache :=
  r ← cache_pop k c;
  match r.1 with Some _ => Ok r.2 | None => Raise KeyError end.
End Lru.
Arguments _Node : clear implicits.
Arguments LruCache K V C {_ _ CT}.
