(* ===== verification/LruCacheProps.v ===== *)
(** * The LRU cache refines a list of entries in order of use

    The dict, the linked list, the size and the second index of a cache all
    represent one list, the entry used last first. Each operation does to it
    what its abstract version does, runs the callbacks of the entries that go,
    and never fails. *)

From S2P Require Import Prelude LinkedList LruCache.

(** ** What is assumed of the dict *)

Class CacheLaws {K N : Type} `{Countable K} (CT : CacheType K N) := {
  (** A whole key; a key or the beginning of one; and the keys it names. *)
  full : K → Prop;
  part : K → Prop;
  under : K → K → Prop;
  under_dec : RelDecision under;
  cache_valid : Cache → Prop;
  entries : Cache → gmap K N;
  full_part k : full k → part k;
  under_full k k' : full k → full k' → under k k' ↔ k = k';
  entries_full t k n : cache_valid t → entries t !! k = Some n → full k;
  new_law : cache_valid cache_new ∧ entries cache_new = ∅;
  lookup_law t k : cache_valid t → full k → cache_lookup k t = Ok (entries t !! k);
  in_law t k : cache_valid t → full k → cache_in k t = Ok (bool_decide (is_Some (entries t !! k)));
  setitem_law t k n : cache_valid t → full k → entries t !! k = None →
    ∃ t', cache_setitem k n t = Ok t' ∧ cache_valid t' ∧ entries t' = <[k := n]> (entries t);
  remove_law t p : cache_valid t → part p →
    ∃ l t', cache_remove p t = Ok (l, t') ∧ cache_valid t' ∧
      entries t' = filter (λ kn, ¬ under p kn.1) (entries t) ∧
      l ≡ₚ (map_to_list (filter (λ kn, under p kn.1) (entries t))).*2;
  length_law t : cache_valid t → cache_length t = Z.of_nat (size (entries t));
  nodes_law t : cache_valid t → cache_nodes t ≡ₚ (map_to_list (entries t)).*2
}.
#[export] Existing Instance under_dec.

Section Refinement.
Context {K V C : Type} `{Countable K} `{EqDecision C} {CT : CacheType K nat} {CL : CacheLaws CT}.
Context (size_callback : option (V → Z)) (extra_index_cb : option (K → V → K)).
Context (py_ne : V → V → bool) (set_order : list C → list C).

(** ** The abstract cache *)

Record Entry := mkEntry { e_key : K; e_value : V; e_callbacks : list C }.

Definition entry_size (e : Entry) : Z := match size_callback with Some f => f (e_value e) | None => 1 end.
Definition total (l : list Entry) : Z := foldr (λ e n, entry_size e + n) 0 l.

(** The most recent entries that fit. *)
Fixpoint fit (room : Z) (l : list Entry) : list Entry :=
  match l with
  | [] => []
  | e :: l => if entry_size e <=? room then e :: fit (room - entry_size e) l else []
  end.

Record AbsCache := mkAbs { a_original : Z; a_max : Z; a_entries : list Entry; a_ran : list C }.

(** The entries that go run their callbacks. *)
Definition a_drop (a : AbsCache) (kept gone : list Entry) : AbsCache :=
  mkAbs (a_original a) (a_max a) kept (a_ran a ++ (gone ≫= e_callbacks)).
Definition a_shrink (a : AbsCache) : AbsCache :=
  let kept := fit (a_max a) (a_entries a) in a_drop a kept (drop (length kept) (a_entries a)).
Definition a_remove (P : Entry → Prop) `{!∀ e, Decision (P e)} (a : AbsCache) : AbsCache :=
  a_drop a (filter (λ e, ¬ P e) (a_entries a)) (filter P (a_entries a)).

Definition a_find (k : K) (a : AbsCache) : option Entry := head (filter (λ e, e_key e = k) (a_entries a)).
Definition a_others (k : K) (a : AbsCache) : list Entry := filter (λ e, e_key e ≠ k) (a_entries a).
Definition a_with (l : list Entry) (a : AbsCache) : AbsCache := mkAbs (a_original a) (a_max a) l (a_ran a).

Definition a_get (k : K) (cbs : list C) (update_last_access : bool) (a : AbsCache) : option V * AbsCache :=
  match a_find k a with
  | None => (None, a)
  | Some e =>
      let e' := mkEntry k (e_value e) (add_callbacks (e_callbacks e) cbs) in
      (Some (e_value e),
       a_with (if update_last_access then e' :: a_others k a
               else (λ f, if decide (e_key f = k) then e' else f) <$> a_entries a) a)
  end.

Definition a_set (k : K) (v : V) (cbs : list C) (a : AbsCache) : AbsCache :=
  a_shrink
    match a_find k a with
    | None => a_with (mkEntry k v (add_callbacks [] (set_order cbs)) :: a_entries a) a
    | Some e =>
        let changed := py_ne v (e_value e) in
        let e' := mkEntry k v (add_callbacks (if changed then [] else e_callbacks e) cbs) in
        mkAbs (a_original a) (a_max a) (e' :: a_others k a)
          (if changed then a_ran a ++ e_callbacks e else a_ran a)
    end.

Definition a_set_default (k : K) (v : V) (a : AbsCache) : V * AbsCache :=
  match a_find k a with
  | Some e => (e_value e, a)
  | None => (v, a_shrink (a_with (mkEntry k v [] :: a_entries a) a))
  end.

Definition a_pop (k : K) (a : AbsCache) : option V * AbsCache :=
  (e_value <$> a_find k a, a_remove (λ e, e_key e = k) a).

Definition a_resize (n : Z) (a : AbsCache) : AbsCache :=
  if n =? a_max a then a else a_shrink (mkAbs (a_original a) n (a_entries a) (a_ran a)).

(** ** Representation *)

Implicit Types z : list (nat * Entry).

(** The second index lists the keys of the entries with an index key. *)
Definition index_ok (x : gmap K (gset K)) (l : list Entry) : Prop :=
  ∀ cb, extra_index_cb = Some cb →
    (∀ ik, x !! ik ≠ Some ∅) ∧
    ∀ ik k, k ∈ default ∅ (x !! ik) ↔ ∃ e, e ∈ l ∧ e_key e = k ∧ cb (e_key e) (e_value e) = ik.

(** The nodes and the list, given the references. *)
Record rep_nodes (c : LruCache K V C) z : Prop := {
  rep_ring : ring (heap c) (list_root c) z.*1;
  rep_node : ∀ i e, (i, e) ∈ z →
    nodes c !! i = Some (mkNode i (e_key e) (e_value e) (e_callbacks e)) ∧
    get_cache_entry i (heap c) = Some i;
  rep_fresh : ∀ i, i ∈ list_root c :: z.*1 → (i < next_ref c)%nat;
  rep_keys : NoDup (e_key <$> z.*2);
  rep_len : ∀ f, size_callback = Some f → cached_cache_len c = total z.*2;
  rep_index : index_ok (extra_index c) z.*2
}.

Record rep_dict (t : Cache) z : Prop := {
  rep_valid : cache_valid t;
  rep_entries : ∀ k i, entries t !! k = Some i ↔ ∃ e, (i, e) ∈ z ∧ e_key e = k
}.

Definition represents (c : LruCache K V C) (a : AbsCache) : Prop :=
  ∃ z, z.*2 = a_entries a ∧ rep_nodes c z ∧ rep_dict (cache c) z ∧ max_size c = a_max a ∧
    _original_max_size c = a_original a ∧ ran c ≡ₚ a_ran a.

(** ** Deleting a node *)

Lemma total_app l1 l2 : total (l1 ++ l2) = total l1 + total l2.
Proof. unfold total. induction l1 as [|e l1 IH]; cbn; [done|]. rewrite IH. lia. Qed.

Lemma total_cons e l : total (e :: l) = entry_size e + total l.
Proof. done. Qed.

Lemma total_perm l l' : l ≡ₚ l' → total l = total l'.
Proof. unfold total. induction 1; cbn; lia. Qed.

Lemma index_discard_spec (x : gmap K (gset K)) ik k ik' k' :
  (∀ ik, x !! ik ≠ Some ∅) →
  (∀ ik, index_discard ik' k' x !! ik ≠ Some ∅) ∧
  (k ∈ default ∅ (index_discard ik' k' x !! ik) ↔ k ∈ default ∅ (x !! ik) ∧ ¬ (ik = ik' ∧ k = k')).
Proof.
  intros Hne. unfold index_discard. destruct (x !! ik') as [s|] eqn:Ex; [case_decide as Hs|].
  - split.
    + intros j. destruct (decide (j = ik')) as [->|Hj]; [by rewrite lookup_delete_eq|].
      rewrite lookup_delete_ne by done. apply Hne.
    + destruct (decide (ik = ik')) as [->|Hj]; [rewrite lookup_delete_eq, Ex; cbn|rewrite lookup_delete_ne by done; naive_solver].
      split; [set_solver|]. intros [Hk Hn]. assert (k ∈ s ∖ {[k']}) by set_solver. set_solver.
  - split.
    + intros j. destruct (decide (j = ik')) as [->|Hj]; [rewrite lookup_insert_eq; congruence|].
      rewrite lookup_insert_ne by done. apply Hne.
    + destruct (decide (ik = ik')) as [->|Hj]; [rewrite lookup_insert_eq, Ex; cbn|rewrite lookup_insert_ne by done; naive_solver].
      rewrite elem_of_difference, elem_of_singleton. naive_solver.
  - split; [done|]. destruct (decide (ik = ik')) as [->|Hj]; [rewrite Ex; cbn; set_solver|naive_solver].
Qed.

(** A pair of the representation, and what it leaves. *)
Lemma rep_split c z1 i e z2 :
  rep_nodes c (z1 ++ (i, e) :: z2) →
  i ≠ list_root c ∧ (∀ j f, (j, f) ∈ z1 ++ z2 → j ≠ i ∧ e_key f ≠ e_key e).
Proof.
  intros Hr. destruct (rep_ring _ _ Hr) as [Hnd _]. pose proof (rep_keys _ _ Hr) as Hk.
  rewrite fmap_app, fmap_cons in Hnd. rewrite !fmap_app, !fmap_cons in Hk. cbn [fst snd] in Hnd, Hk.
  assert (NoDup (list_root c :: i :: z1.*1 ++ z2.*1)) as Hd.
  { eapply NoDup_Permutation_proper; [|exact Hnd]. solve_Permutation. }
  assert (NoDup (e_key e :: (e_key <$> z1.*2) ++ (e_key <$> z2.*2))) as Hd'.
  { eapply NoDup_Permutation_proper; [|exact Hk]. solve_Permutation. }
  rewrite !NoDup_cons in Hd. apply NoDup_cons in Hd' as [Hd' _]. destruct Hd as (Hd1 & Hd2 & _).
  rewrite <-fmap_app in Hd2. rewrite <-!fmap_app in Hd'. split; [intros ->; set_solver|]. intros j f Hin. split.
  - intros ->. apply Hd2. apply list_elem_of_fmap. exists (i, f). done.
  - intros Heq. apply Hd'. rewrite <-Heq. apply list_elem_of_fmap. exists f. split; [done|].
    apply list_elem_of_fmap. by exists (j, f).
Qed.

Lemma delete_node_eq i n (c : LruCache K V C) :
  nodes c !! i = Some n →
  delete_node size_callback extra_index_cb i c =
  Ok (match size_callback with Some f => f (value n) | None => 1 end,
      mkLru (_original_max_size c) (max_size c) (cache c)
        (<[i := mkNode (_list_node n) (key n) (value n) []]> (nodes c))
        (remove_from_list (_list_node n) (heap c)) (list_root c) (next_ref c)
        (match size_callback with Some f => cached_cache_len c - f (value n) | None => cached_cache_len c end)
        (match extra_index_cb with
         | Some cb => index_discard (cb (key n) (value n)) (key n) (extra_index c)
         | None => extra_index c
         end)
        (ran c ++ callbacks n)).
Proof.
  intros Hn. unfold delete_node, drop_from_lists, run_and_clear_callbacks, the_node. rewrite Hn. cbn. rewrite Hn.
  cbn. destruct size_callback, extra_index_cb; cbn; by rewrite Hn.
Qed.

Lemma delete_node_rep c z1 i e z2 :
  rep_nodes c (z1 ++ (i, e) :: z2) →
  ∃ c', delete_node size_callback extra_index_cb i c = Ok (entry_size e, c') ∧ rep_nodes c' (z1 ++ z2) ∧
    cache c' = cache c ∧ ran c' = ran c ++ e_callbacks e ∧ max_size c' = max_size c ∧
    _original_max_size c' = _original_max_size c ∧
    nodes c' !! i = Some (mkNode i (e_key e) (e_value e) []).
Proof.
  intros Hr. destruct (rep_split _ _ _ _ _ Hr) as [Hroot Hother].
  destruct (rep_node _ _ Hr i e) as [Hn He]; [set_solver|].
  assert (ring (heap c) (list_root c) (z1.*1 ++ i :: z2.*1)) as Hring.
  { pose proof (rep_ring _ _ Hr) as Hx. by rewrite fmap_app, fmap_cons in Hx. }
  destruct (remove_from_list_ring _ _ _ _ _ Hring) as [Hring' Hentries].
  rewrite (delete_node_eq _ _ _ Hn). cbn [_list_node key value callbacks]. eexists. split; [done|].
  split_and!; try done; [|cbn; by rewrite lookup_insert_eq]. split; cbn -[total].
  - by rewrite fmap_app.
  - intros j f Hj. destruct (Hother j f Hj) as [Hji _]. rewrite lookup_insert_ne, Hentries by done.
    apply (rep_node _ _ Hr). set_solver.
  - intros j Hj. apply (rep_fresh _ _ Hr). rewrite fmap_app, fmap_cons. rewrite fmap_app in Hj. set_solver.
  - pose proof (rep_keys _ _ Hr) as Hk. eapply sublist_NoDup; [exact Hk|]. rewrite !fmap_app, !fmap_cons.
    apply sublist_app; [done|]. by constructor.
  - intros f Hf. rewrite Hf. rewrite (rep_len _ _ Hr f Hf), !fmap_app, fmap_cons, !total_app.
    unfold total. cbn. unfold entry_size. rewrite Hf. lia.
  - intros cb Hcb. destruct (rep_index _ _ Hr cb Hcb) as [Hne Hix]. rewrite Hcb. split.
    + apply (index_discard_spec _ (cb (e_key e) (e_value e)) (e_key e) _ _ Hne).
    + intros ik k. rewrite (proj2 (index_discard_spec _ ik k _ _ Hne)), Hix, !fmap_app, fmap_cons.
      setoid_rewrite elem_of_app. setoid_rewrite elem_of_cons. cbn [snd]. split.
      * intros [(f & Hf & <- & <-) Hn']. exists f. split_and!; [|done..]. destruct Hf as [|[->|]]; [by left|tauto|by right].
      * intros (f & Hf & <- & <-). split; [exists f; split_and!; [destruct Hf; auto|done..]|].
        intros [_ Hk]. rewrite <-elem_of_app, <-fmap_app in Hf. apply list_elem_of_fmap in Hf as ([j g] & -> & Hg).
        by apply (Hother j g Hg).
Qed.

(** ** The dict *)

Lemma dict_items c t z :
  rep_nodes c z → rep_dict t z → map_to_list (entries t) ≡ₚ (λ x : nat * Entry, (e_key x.2, x.1)) <$> z.
Proof.
  intros Hr Hd. apply NoDup_Permutation.
  - apply NoDup_map_to_list.
  - pose proof (rep_keys _ _ Hr) as Hk. apply (NoDup_fmap_1 fst). rewrite <-list_fmap_compose in Hk. rewrite <-list_fmap_compose. exact Hk.
  - intros [k i]. rewrite elem_of_map_to_list, (rep_entries _ _ Hd), list_elem_of_fmap. split.
    + intros (e & He & <-). by exists (i, e).
    + intros ([j e] & [= -> ->] & He). eauto.
Qed.

Lemma dict_length c t z : rep_nodes c z → rep_dict t z → cache_length t = Z.of_nat (length z).
Proof.
  intros Hr Hd. rewrite (length_law t (rep_valid _ _ Hd)). f_equal.
  by rewrite <-length_map_to_list, (dict_items _ _ _ Hr Hd), length_fmap.
Qed.

Lemma dict_nodes c t z : rep_nodes c z → rep_dict t z → cache_nodes t ≡ₚ z.*1.
Proof.
  intros Hr Hd. rewrite (nodes_law t (rep_valid _ _ Hd)), (dict_items _ _ _ Hr Hd), <-list_fmap_compose. done.
Qed.

Lemma dict_full t z i e : rep_dict t z → (i, e) ∈ z → full (e_key e).
Proof. intros Hd Hin. eapply entries_full; [apply Hd|]. apply (rep_entries _ _ Hd). eauto. Qed.

(** Removing what is under a key. *)
Lemma dict_remove c t z p :
  rep_nodes c z → rep_dict t z → part p →
  ∃ l t', cache_remove p t = Ok (l, t') ∧ rep_dict t' (filter (λ x, ¬ under p (e_key x.2)) z) ∧
    l ≡ₚ (filter (λ x, under p (e_key x.2)) z).*1.
Proof.
  intros Hr Hd Hp. destruct (remove_law t p (rep_valid _ _ Hd) Hp) as (l & t' & Heq & Hv & He & Hl).
  exists l, t'. split_and!; [done| |].
  - split; [done|]. intros k i. rewrite He, map_lookup_filter_Some, (rep_entries _ _ Hd). cbn [fst]. split.
    + intros [(e & Hin & <-) Hu]. exists e. by rewrite list_elem_of_filter.
    + intros (e & [Hu Hin]%list_elem_of_filter & <-). eauto.
  - rewrite Hl. etrans.
    2:{ apply (fmap_Permutation fst (filter (λ x : nat * Entry, under p (e_key x.2)) z)). reflexivity. }
    etrans; [apply (fmap_Permutation snd), (NoDup_Permutation _ ((λ x : nat * Entry, (e_key x.2, x.1)) <$> filter (λ x : nat * Entry, under p (e_key x.2)) z))|].
    + apply NoDup_map_to_list.
    + apply (sublist_NoDup _ ((λ x : nat * Entry, (e_key x.2, x.1)) <$> z)); [|apply fmap_sublist, sublist_filter].
      rewrite <-(dict_items _ _ _ Hr Hd). apply NoDup_map_to_list.
    + intros [k i]. rewrite elem_of_map_to_list, map_lookup_filter_Some, (rep_entries _ _ Hd), list_elem_of_fmap. cbn [fst]. split.
      * intros [(e & Hin & <-) Hu]. exists (i, e). by rewrite list_elem_of_filter.
      * intros ([j e] & [= -> ->] & [Hu Hin]%list_elem_of_filter). eauto.
    + by rewrite <-list_fmap_compose.
Qed.

(** An entry goes from the dict with its key. *)
Lemma dict_remove_entry c t z1 i e z2 :
  rep_nodes c (z1 ++ (i, e) :: z2) → rep_dict t (z1 ++ (i, e) :: z2) →
  ∃ t', cache_remove (e_key e) t = Ok ([i], t') ∧ rep_dict t' (z1 ++ z2).
Proof.
  intros Hr Hd. destruct (rep_split _ _ _ _ _ Hr) as [_ Hother].
  assert (∀ j f, (j, f) ∈ z1 ++ (i, e) :: z2 → full (e_key f)) as Hfull by (intros j f; by eapply dict_full).
  assert (full (e_key e)) as He by (apply (Hfull i); set_solver).
  destruct (dict_remove _ _ _ (e_key e) Hr Hd (full_part _ He)) as (l & t' & Heq & Hd' & Hl).
  destruct (filter_one (λ x : nat * Entry, under (e_key e) (e_key x.2)) z1 (i, e) z2) as [Hf1 Hf2].
  { by apply under_full. }
  { intros [j f] Hj Hu. apply under_full in Hu; [|done|apply (Hfull j); set_solver]. by apply (Hother j f Hj). }
  rewrite Hf1 in Hl. rewrite Hf2 in Hd'. apply Permutation_singleton_r in Hl as ->. eauto.
Qed.

(** Deleting several nodes. *)
Lemma delete_nodes_rep ids c z :
  rep_nodes c z → NoDup ids → ids ⊆ z.*1 →
  ∃ c', foldM (λ c leaf, dc ← delete_node size_callback extra_index_cb leaf c; Ok dc.2) c ids = Ok c' ∧
    rep_nodes c' (filter (λ x, x.1 ∉ ids) z) ∧ cache c' = cache c ∧ max_size c' = max_size c ∧
    _original_max_size c' = _original_max_size c ∧
    ran c' ≡ₚ ran c ++ ((filter (λ x, x.1 ∈ ids) z).*2 ≫= e_callbacks).
Proof.
  revert c z. induction ids as [|i ids IH]; intros c z Hr Hnd Hin.
  { exists c. cbn [foldM]. rewrite filter_all by (intros; apply not_elem_of_nil).
    rewrite filter_none by (intros ? ? []%elem_of_nil). cbn. rewrite app_nil_r. done. }
  apply NoDup_cons in Hnd as [Hi Hnd].
  assert (i ∈ z.*1) as ([j e] & -> & Hje)%list_elem_of_fmap by (apply Hin; set_solver). cbn [fst] in *.
  apply list_elem_of_split in Hje as (z1 & z2 & ->). destruct (rep_split _ _ _ _ _ Hr) as [_ Hother].
  destruct (delete_node_rep _ _ _ _ _ Hr) as (c1 & Hc1 & Hr1 & Ec & Eran & Em & Eo & _).
  destruct (IH c1 (z1 ++ z2) Hr1 Hnd) as (c' & Hc' & Hr' & Ec' & Em' & Eo' & Eran').
  { intros k Hk. assert (k ∈ (z1 ++ (j, e) :: z2).*1) as Hk' by (apply Hin; set_solver).
    rewrite fmap_app, fmap_cons in Hk'. rewrite fmap_app. set_solver. }
  exists c'. cbn [foldM]. rewrite Hc1. cbn [mbind res_bind snd]. split_and!; try congruence.
  - rewrite filter_app, filter_cons_False by set_solver. rewrite filter_app in Hr'.
    rewrite !(filter_ext_in (λ x : nat * Entry, x.1 ∉ j :: ids) (λ x, x.1 ∉ ids)); [done|..];
      intros [k f] Hk; destruct (Hother k f ltac:(set_solver)); set_solver.
  - rewrite Eran', Eran, <-(assoc_L (++)). f_equiv. rewrite !filter_app, filter_cons_True by set_solver.
    rewrite !(filter_ext_in (λ x : nat * Entry, x.1 ∈ j :: ids) (λ x, x.1 ∈ ids)).
    2-3: intros [k f] Hk; destruct (Hother k f ltac:(set_solver)); set_solver.
    rewrite !fmap_app, fmap_cons, !bind_app, bind_cons. solve_Permutation.
Qed.

(** ** Changing an entry, and moving it to the front *)

Lemma rep_update c z1 i e z2 e' z' c' :
  rep_nodes c (z1 ++ (i, e) :: z2) → z' ≡ₚ (i, e') :: z1 ++ z2 → e_key e' = e_key e →
  (∀ cb, extra_index_cb = Some cb → cb (e_key e) (e_value e') = cb (e_key e) (e_value e)) →
  ring (heap c') (list_root c') z'.*1 →
  (∀ j, get_cache_entry j (heap c') = get_cache_entry j (heap c)) →
  nodes c' = <[i := mkNode i (e_key e') (e_value e') (e_callbacks e')]> (nodes c) →
  list_root c' = list_root c → next_ref c' = next_ref c → extra_index c' = extra_index c →
  (∀ f, size_callback = Some f → cached_cache_len c' = cached_cache_len c - f (e_value e) + f (e_value e')) →
  rep_nodes c' z'.
Proof.
  intros Hr Hz Hk Hcb Hring Hent Hnodes Hroot Hnext Hidx Hlen. destruct (rep_split _ _ _ _ _ Hr) as [_ Hother].
  assert (z'.*2 ≡ₚ e' :: z1.*2 ++ z2.*2) as Hz2.
  { rewrite Hz, fmap_cons, fmap_app. done. }
  split.
  - done.
  - intros j f Hj. rewrite Hnodes, Hent. rewrite Hz in Hj. apply elem_of_cons in Hj as [[= -> ->]|Hj].
    + rewrite lookup_insert_eq. split; [done|]. apply (rep_node _ _ Hr i e). set_solver.
    + rewrite lookup_insert_ne by (symmetry; apply (Hother j f Hj)). apply (rep_node _ _ Hr). set_solver.
  - intros j. rewrite Hroot, Hnext, Hz. intros Hj. apply (rep_fresh _ _ Hr). rewrite fmap_app, fmap_cons.
    rewrite fmap_cons, fmap_app in Hj. set_solver.
  - rewrite Hz2. pose proof (rep_keys _ _ Hr) as Hnd. rewrite !fmap_app, !fmap_cons in Hnd.
    rewrite fmap_cons, fmap_app, Hk. eapply NoDup_Permutation_proper; [|exact Hnd]. cbn [snd]. solve_Permutation.
  - intros f Hf. rewrite (Hlen f Hf), (rep_len _ _ Hr f Hf), (total_perm _ _ Hz2), fmap_app, fmap_cons, total_app.
    rewrite !total_cons, total_app. unfold entry_size. rewrite Hf. cbn [snd]. lia.
  - intros cb Hcb'. destruct (rep_index _ _ Hr cb Hcb') as [Hne Hix]. rewrite Hidx. split; [done|]. intros ik k.
    rewrite Hix. setoid_rewrite Hz2. rewrite fmap_app, fmap_cons. setoid_rewrite elem_of_app. setoid_rewrite elem_of_cons.
    setoid_rewrite elem_of_app. cbn [snd]. pose proof (Hcb cb Hcb') as Hsame. split.
    + intros (f & [Hf|[->|Hf]] & <- & <-); [exists f; tauto|exists e'|exists f; tauto]. rewrite Hk, Hsame. auto.
    + intros (f & [->|[Hf|Hf]] & <- & <-); [exists e|exists f; tauto|exists f; tauto]. rewrite Hk, Hsame. auto.
Qed.

Lemma rep_dict_update t z1 i e z2 e' z' :
  rep_dict t (z1 ++ (i, e) :: z2) → z' ≡ₚ (i, e') :: z1 ++ z2 → e_key e' = e_key e → rep_dict t z'.
Proof.
  intros Hd Hz Hk. split; [apply Hd|]. intros k j. rewrite (rep_entries _ _ Hd). setoid_rewrite Hz.
  setoid_rewrite elem_of_app. setoid_rewrite elem_of_cons. setoid_rewrite elem_of_app. split.
  - intros (f & [Hf|[[= -> ->]|Hf]] & <-); [exists f; tauto|exists e'; auto|exists f; tauto].
  - intros (f & [[= -> ->]|[Hf|Hf]] & <-); [exists e; auto|exists f; tauto|exists f; tauto].
Qed.

Lemma move_to_front_eq c z1 i e z2 :
  rep_nodes c (z1 ++ (i, e) :: z2) →
  ∃ h, move_to_front i c = Ok (with_heap h c) ∧ ring h (list_root c) (i :: (z1 ++ z2).*1) ∧
    ∀ j, get_cache_entry j h = get_cache_entry j (heap c).
Proof.
  intros Hr. destruct (rep_node _ _ Hr i e) as [Hn _]; [set_solver|].
  pose proof (rep_ring _ _ Hr) as Hring. rewrite fmap_app, fmap_cons in Hring.
  destruct (move_after_ring _ _ _ _ _ Hring) as (h & Hh & Hring' & He). exists h.
  unfold move_to_front, the_node. rewrite Hn. cbn [mbind res_bind _list_node fst] in *. rewrite Hh. by rewrite fmap_app.
Qed.

(** ** Eviction *)

Context (size_nonneg : ∀ f v, size_callback = Some f → 0 ≤ f v).

Lemma entry_size_nonneg e : 0 ≤ entry_size e.
Proof. unfold entry_size. destruct size_callback as [f|] eqn:E; [by apply (size_nonneg f)|lia]. Qed.

Lemma total_nonneg l : 0 ≤ total l.
Proof. induction l as [|e l IH]; [done|]. rewrite total_cons. pose proof (entry_size_nonneg e). lia. Qed.

Lemma fit_all room l : total l ≤ room → fit room l = l.
Proof.
  revert room. induction l as [|e l IH]; intros room; [done|]. rewrite total_cons. intros Ht. cbn.
  pose proof (total_nonneg l). replace (entry_size e <=? room) with true by lia. f_equal. apply IH. lia.
Qed.

Lemma fit_snoc room l e : room < total (l ++ [e]) → fit room (l ++ [e]) = fit room l.
Proof.
  revert room. induction l as [|x l IH]; intros room; cbn [app]; rewrite total_cons; intros Ht; cbn.
  - unfold total in Ht. cbn in Ht. by replace (entry_size e <=? room) with false by lia.
  - destruct (entry_size x <=? room); [|done]. f_equal. apply IH. lia.
Qed.

Lemma fit_bound room l : 0 ≤ room → total (fit room l) ≤ room.
Proof.
  revert room. induction l as [|e l IH]; intros room Hr; cbn [fit]; [done|].
  destruct (Z.leb_spec (entry_size e) room); [|done]. rewrite total_cons. specialize (IH (room - entry_size e) ltac:(lia)). lia.
Qed.

Lemma fit_length room l : (length (fit room l) ≤ length l)%nat.
Proof. revert room. induction l as [|e l IH]; intros room; cbn; [done|]. destruct (_ <=? _); cbn; [|lia]. specialize (IH (room - entry_size e)). lia. Qed.

Lemma cache_len_total c z : rep_nodes c z → rep_dict (cache c) z → cache_len size_callback c = total z.*2.
Proof.
  intros Hr Hd. unfold cache_len. destruct size_callback as [f|] eqn:E; [by apply (rep_len _ _ Hr f)|].
  rewrite (dict_length _ _ _ Hr Hd). clear -E. induction z as [|x z IH]; [done|].
  rewrite fmap_cons, total_cons, <-IH. unfold entry_size. rewrite E. cbn. lia.
Qed.

Lemma evict_one_rep c z i e :
  rep_nodes c (z ++ [(i, e)]) → rep_dict (cache c) (z ++ [(i, e)]) →
  ∃ c', evict_one size_callback extra_index_cb c = Ok c' ∧ rep_nodes c' z ∧ rep_dict (cache c') z ∧
    ran c' = ran c ++ e_callbacks e ∧ max_size c' = max_size c ∧ _original_max_size c' = _original_max_size c.
Proof.
  intros Hr Hd. destruct (rep_node _ _ Hr i e) as [Hn He]; [set_solver|].
  assert (prev_node (node_at (heap c) (list_root c)) = Some i) as Hlast.
  { apply (ring_last _ _ z.*1). pose proof (rep_ring _ _ Hr) as Hx. by rewrite fmap_app in Hx. }
  destruct (delete_node_rep _ _ _ _ _ Hr) as (c1 & Hc1 & Hr1 & Ec & Eran & Em & Eo & Hn1).
  destruct (dict_remove_entry _ _ _ _ _ _ Hr Hd) as (t & Ht & Hd'). rewrite app_nil_r in Hr1, Hd'.
  exists (with_cache t c1). unfold evict_one. rewrite Hlast, He, Hc1. cbn [mbind res_bind snd]. unfold the_node.
  rewrite Hn1. cbn [mbind res_bind key]. rewrite Ec, Ht. split_and!; try done. destruct Hr1; split; done.
Qed.

Lemma lru_evict_loop_rep fuel c z :
  rep_nodes c z → rep_dict (cache c) z → 0 ≤ max_size c → (length z < fuel)%nat →
  ∃ c' z', lru_evict_loop size_callback extra_index_cb fuel c = Ok c' ∧ rep_nodes c' z' ∧ rep_dict (cache c') z' ∧
    z'.*2 = fit (max_size c) z.*2 ∧ max_size c' = max_size c ∧ _original_max_size c' = _original_max_size c ∧
    ran c' ≡ₚ ran c ++ (drop (length (fit (max_size c) z.*2)) z.*2 ≫= e_callbacks).
Proof.
  revert c z. induction fuel as [|fuel IH]; intros c z Hr Hd Hmax Hfuel; [lia|]. cbn [lru_evict_loop].
  rewrite (cache_len_total c z Hr Hd). destruct (Z.ltb_spec (max_size c) (total z.*2)) as [Hlt|Hle].
  2:{ exists c, z. rewrite fit_all by done. rewrite drop_all. cbn. rewrite app_nil_r. split_and!; done. }
  destruct z as [|[i e] z _] using rev_ind; [cbn in Hlt; lia|].
  destruct (evict_one_rep _ _ _ _ Hr Hd) as (c1 & -> & Hr1 & Hd1 & Eran & Em & Eo). cbn [mbind res_bind].
  destruct (IH c1 z Hr1 Hd1 ltac:(congruence)) as (c' & z' & Hc' & Hr' & Hd' & Hz' & Em' & Eo' & Eran').
  { rewrite length_app in Hfuel. cbn in Hfuel. lia. }
  exists c', z'. rewrite fmap_app in *. cbn [fmap list_fmap snd] in *.
  assert (fit (max_size c) (z.*2 ++ [e]) = fit (max_size c) z.*2) as Hfit by (by apply fit_snoc).
  rewrite Hfit, <-Em. split_and!; try done; try congruence.
  rewrite Eran', Eran, drop_app_le by (apply fit_length).
  rewrite bind_app. cbn. rewrite app_nil_r. solve_Permutation.
Qed.

Lemma evict_represents c a :
  represents c a → 0 ≤ a_max a →
  ∃ c', evict size_callback extra_index_cb c = Ok c' ∧ represents c' (a_shrink a).
Proof.
  intros (z & Hz & Hr & Hd & Em & Eo & Eran) Hmax. unfold evict.
  destruct (lru_evict_loop_rep (S (length (cache_nodes (cache c)))) c z Hr Hd) as (c' & z' & -> & Hr' & Hd' & Hz' & Em' & Eo' & Eran').
  { lia. }
  { rewrite (dict_nodes _ _ _ Hr Hd), length_fmap. lia. }
  exists c'. split; [done|]. exists z'. rewrite Em, Hz in *. cbn. split_and!; try done; try congruence.
  rewrite Eran', Eran. done.
Qed.

(** ** Finding and adding entries *)

Lemma find_split c a z1 i e z2 :
  rep_nodes c (z1 ++ (i, e) :: z2) → (z1 ++ (i, e) :: z2).*2 = a_entries a →
  filter (λ f, e_key f = e_key e) (a_entries a) = [e] ∧ a_find (e_key e) a = Some e ∧
  a_others (e_key e) a = (z1 ++ z2).*2.
Proof.
  intros Hr Ha. destruct (rep_split _ _ _ _ _ Hr) as [_ Hother]. unfold a_find, a_others. rewrite <-Ha.
  rewrite fmap_app, fmap_cons. cbn [snd]. destruct (filter_one (λ f, e_key f = e_key e) z1.*2 e z2.*2) as [-> ->]; [done| |by rewrite fmap_app].
  intros f Hf. rewrite <-fmap_app in Hf. apply list_elem_of_fmap in Hf as ([j g] & -> & Hg). by apply (Hother j g).
Qed.

Lemma lookup_cases c a k :
  represents c a → full k →
  (∃ z1 i e z2, (z1 ++ (i, e) :: z2).*2 = a_entries a ∧ rep_nodes c (z1 ++ (i, e) :: z2) ∧
     rep_dict (cache c) (z1 ++ (i, e) :: z2) ∧ e_key e = k ∧ cache_lookup k (cache c) = Ok (Some i) ∧
     nodes c !! i = Some (mkNode i k (e_value e) (e_callbacks e)) ∧
     a_find k a = Some e ∧ a_others k a = (z1 ++ z2).*2 ∧
     max_size c = a_max a ∧ _original_max_size c = a_original a ∧ ran c ≡ₚ a_ran a) ∨
  (cache_lookup k (cache c) = Ok None ∧ a_find k a = None ∧ entries (cache c) !! k = None ∧
   ∀ e, e ∈ a_entries a → e_key e ≠ k).
Proof.
  intros (z & Hz & Hr & Hd & Hrest) Hk. rewrite (lookup_law _ _ (rep_valid _ _ Hd) Hk).
  destruct (entries (cache c) !! k) as [i|] eqn:Ei.
  - left. apply (rep_entries _ _ Hd) in Ei as (e & He & <-). apply list_elem_of_split in He as (z1 & z2 & ->).
    destruct (find_split _ _ _ _ _ _ Hr Hz) as (_ & ? & ?). destruct (rep_node _ _ Hr i e); [set_solver|].
    exists z1, i, e, z2. split_and!; done || apply Hrest.
  - right. assert (∀ e, e ∈ a_entries a → e_key e ≠ k) as Hn.
    { rewrite <-Hz. intros e ([j f] & -> & Hf)%list_elem_of_fmap Heq.
      assert (entries (cache c) !! k = Some j) by (apply (rep_entries _ _ Hd); eauto). congruence. }
    split_and!; try done. unfold a_find. by rewrite filter_none.
Qed.

Lemma add_node_represents c a k v cbs :
  represents c a → full k → (∀ e, e ∈ a_entries a → e_key e ≠ k) → entries (cache c) !! k = None →
  ∃ c', add_node size_callback extra_index_cb k v cbs c = Ok c' ∧
    represents c' (a_with (mkEntry k v (add_callbacks [] cbs) :: a_entries a) a).
Proof.
  intros (z & Hz & Hr & Hd & Em & Eo & Eran) Hk Hnew Hnone. unfold add_node.
  assert (next_ref c ∉ list_root c :: z.*1) as Hfresh by (intros Hx%(rep_fresh _ _ Hr); lia).
  destruct (insert_after_ring _ _ _ _ (next_ref c) (rep_ring _ _ Hr) Hfresh) as (h & -> & Hring & Hent & Hents).
  destruct (setitem_law _ k (next_ref c) (rep_valid _ _ Hd) Hk Hnone) as (t & -> & Ht & Het). cbn [mbind res_bind].
  eexists. split; [done|]. exists ((next_ref c, mkEntry k v (add_callbacks [] cbs)) :: z).
  split_and!; [cbn; by rewrite Hz| | |done..].
  - split; cbn -[total].
    + done.
    + intros j f [[= -> ->]|Hj]%elem_of_cons; [rewrite lookup_insert_eq; done|].
      assert (j ≠ next_ref c). { intros ->. apply Hfresh, elem_of_cons. right. apply list_elem_of_fmap. by exists (next_ref c, f). }
      rewrite lookup_insert_ne, Hents by done. by apply (rep_node _ _ Hr).
    + intros j Hj. cut (j = next_ref c ∨ j ∈ list_root c :: z.*1); [|set_solver]. intros [->|Hx%(rep_fresh _ _ Hr)]; lia.
    + apply NoDup_cons. split; [|apply Hr]. intros (e & -> & He)%list_elem_of_fmap. rewrite Hz in He. by apply (Hnew e He).
    + intros f Hf. rewrite Hf, (rep_len _ _ Hr f Hf), total_cons. unfold entry_size. rewrite Hf. cbn. lia.
    + intros cb Hcb. destruct (rep_index _ _ Hr cb Hcb) as [Hne Hix]. rewrite Hcb. split.
      * intros ik. destruct (decide (ik = cb k v)) as [->|Hn]; [rewrite lookup_insert_eq|by rewrite lookup_insert_ne].
        intros [= Hx]. set_solver.
      * intros ik k'. setoid_rewrite elem_of_cons. specialize (Hix ik k').
        destruct (decide (ik = cb k v)) as [->|Hn].
        -- rewrite lookup_insert_eq. cbn [default from_option id]. rewrite elem_of_union, elem_of_singleton, Hix. split.
           ++ intros [->|(e & ? & ? & ?)]; [eexists; split_and!; [by left|done..]|exists e; auto].
           ++ intros (e & [->|He] & <- & He2); [by left|right; eauto].
        -- rewrite lookup_insert_ne by done. rewrite Hix. split; [intros (e & ? & ? & ?); exists e; auto|].
           intros (e & [->|He] & <- & He2); [cbn in He2; congruence|eauto].
  - split; [done|]. intros k' j. cbn [cache]. rewrite Het. setoid_rewrite elem_of_cons.
    destruct (decide (k' = k)) as [->|Hn].
    + rewrite lookup_insert_eq. split; [intros [= <-]; eexists; split; [by left|done]|].
      intros (e & [[= -> ->]|He] & He2); [done|]. exfalso. apply (Hnew e); [|done]. rewrite <-Hz. apply list_elem_of_fmap. by exists (j, e).
    + rewrite lookup_insert_ne, (rep_entries _ _ Hd) by done. split; [intros (e & ? & ?); eauto|].
      intros (e & [[= -> ->]|He] & He2); [by cbn in He2|eauto].
Qed.

(** ** The operations *)

Lemma init_represents size scaled factor :
  let c := lru_init size scaled factor in represents c (mkAbs size (max_size c) [] []).
Proof.
  cbv zeta. exists []. destruct new_law as [Hv He]. split_and!; try done.
  - split; cbn; try done.
    + apply create_root_ring.
    + set_solver.
    + intros i ->%list_elem_of_singleton. lia.
    + apply NoDup_nil_2.
    + intros cb _. split; [done|]. intros ik k. rewrite lookup_empty. set_solver.
  - split; [done|]. intros k i. cbn. rewrite He, lookup_empty. set_solver.
Qed.

Lemma get_represents c a k cbs upd :
  represents c a → full k →
  ∃ c', cache_get k cbs upd c = Ok ((a_get k cbs upd a).1, c') ∧ represents c' (a_get k cbs upd a).2.
Proof.
  intros Ha Hk. unfold cache_get, a_get.
  destruct (lookup_cases c a k Ha Hk) as [(z1 & i & e & z2 & Hz & Hr & Hd & Hek & -> & Hn & -> & Ho & Em & Eo & Eran)|(-> & -> & _)].
  2:{ eexists. done. }
  cbn [mbind res_bind fst snd]. set (e' := mkEntry k (e_value e) (add_callbacks (e_callbacks e) cbs)). destruct upd.
  - destruct (move_to_front_eq _ _ _ _ _ Hr) as (h & -> & Hring & Hent). cbn [mbind res_bind]. unfold the_node. cbn [nodes with_heap].
    rewrite Hn. cbn [mbind res_bind]. eexists. split; [done|]. exists ((i, e') :: z1 ++ z2).
    split_and!; [by rewrite fmap_cons, <-Ho| |by eapply rep_dict_update|done..].
    eapply rep_update; try done. intros f Hf. cbn. lia.
  - cbn [mbind res_bind]. unfold the_node. rewrite Hn. cbn [mbind res_bind]. eexists. split; [done|]. exists (z1 ++ (i, e') :: z2).
    assert (z1 ++ (i, e') :: z2 ≡ₚ (i, e') :: z1 ++ z2) as Hperm by solve_Permutation.
    split_and!; [|eapply rep_update; try done|by eapply rep_dict_update|done..].
    + destruct (rep_split _ _ _ _ _ Hr) as [_ Hother]. cbn [a_entries a_with]. rewrite <-Hz, !fmap_app, !fmap_cons. cbn [snd].
      rewrite decide_True by done. assert (∀ w, w ⊆ z1 ++ z2 → (λ f, if decide (e_key f = k) then e' else f) <$> w.*2 = w.*2) as Hid.
      { intros w Hw. rewrite <-(list_fmap_id (w.*2)) at 2. apply list_fmap_ext. intros n f ([j g] & -> & Hg)%list_lookup_fmap_Some.
        rewrite decide_False; [done|]. rewrite <-Hek. apply (Hother j g), Hw. by eapply list_elem_of_lookup_2. }
      rewrite !Hid by set_solver. done.
    + cbn. pose proof (rep_ring _ _ Hr) as Hring. by rewrite !fmap_app, !fmap_cons in *.
    + intros f Hf. cbn. lia.
Qed.

Lemma set_existing_eq i k w cs v cbs (c : LruCache K V C) h :
  nodes c !! i = Some (mkNode i k w cs) → move_after i (list_root c) (heap c) = Ok h →
  set_existing size_callback py_ne i v cbs c =
  Ok (let changed := py_ne v w in
      let cs' := add_callbacks (if changed then [] else cs) cbs in
      mkLru (_original_max_size c) (max_size c) (cache c)
        (<[i := mkNode i k v cs']> (<[i := mkNode i k w cs']>
           (if changed then <[i := mkNode i k w []]> (nodes c) else nodes c)))
        h (list_root c) (next_ref c)
        (match size_callback with Some f => cached_cache_len c - f w + f v | None => cached_cache_len c end)
        (extra_index c) (if changed then ran c ++ cs else ran c)).
Proof.
  intros Hn Hm. unfold set_existing, run_and_clear_callbacks, move_to_front, the_node. rewrite Hn. cbn [mbind res_bind value callbacks _list_node key].
  destruct (py_ne v w), size_callback; cbn; rewrite ?lookup_insert_eq, ?Hn; cbn; rewrite ?lookup_insert_eq; cbn;
    rewrite Hm; cbn; rewrite ?lookup_insert_eq; done.
Qed.

Lemma set_represents c a k v cbs :
  represents c a → full k → 0 ≤ a_max a →
  (∀ e cb, a_find k a = Some e → extra_index_cb = Some cb → cb k v = cb k (e_value e)) →
  ∃ c', cache_set size_callback extra_index_cb py_ne set_order k v cbs c = Ok c' ∧
    represents c' (a_set k v cbs a).
Proof.
  intros Ha Hk Hmax Hstable. unfold cache_set, a_set.
  destruct (lookup_cases c a k Ha Hk) as [(z1 & i & e & z2 & Hz & Hr & Hd & Hek & -> & Hn & Hfind & Ho & Em & Eo & Eran)|(-> & -> & Hnone & Hnew)].
  - rewrite Hfind in *. cbn [mbind res_bind].
    destruct (move_after_ring (heap c) (list_root c) z1.*1 i z2.*1) as (h & Hm & Hring & Hent).
    { pose proof (rep_ring _ _ Hr) as Hx. by rewrite fmap_app, fmap_cons in Hx. }
    rewrite (set_existing_eq _ _ _ _ _ _ _ _ Hn Hm). cbn [mbind res_bind]. cbv zeta.
    set (e' := mkEntry k v _). set (a' := mkAbs _ _ _ _). apply evict_represents; [|done].
    exists ((i, e') :: z1 ++ z2).
    split_and!; [by rewrite fmap_cons, <-Ho| |by eapply rep_dict_update|done..|by cbn; destruct (py_ne _ _); rewrite Eran].
    eapply rep_update; try done; cbn.
    + intros cb Hcb. rewrite Hek. by apply (Hstable e).
    + by rewrite fmap_app.
    + destruct (py_ne _ _); by rewrite !insert_insert_eq.
    + intros f Hf. by rewrite Hf.
  - cbn [mbind res_bind]. destruct (add_node_represents c a k v (set_order cbs) Ha Hk Hnew Hnone) as (c' & -> & Hc').
    cbn [mbind res_bind]. by apply evict_represents.
Qed.

Lemma set_default_represents c a k v :
  represents c a → full k → 0 ≤ a_max a →
  ∃ c', cache_set_default size_callback extra_index_cb k v c = Ok ((a_set_default k v a).1, c') ∧
    represents c' (a_set_default k v a).2.
Proof.
  intros Ha Hk Hmax. unfold cache_set_default, a_set_default.
  destruct (lookup_cases c a k Ha Hk) as [(z1 & i & e & z2 & Hz & Hr & Hd & Hek & -> & Hn & Hfind & _)|(-> & -> & Hnone & Hnew)].
  - rewrite Hfind in *. cbn [mbind res_bind]. unfold the_node. rewrite Hn. cbn. eauto.
  - cbn [mbind res_bind]. destruct (add_node_represents c a k v [] Ha Hk Hnew Hnone) as (c' & -> & Hc'). cbn [mbind res_bind].
    destruct (evict_represents _ _ Hc' Hmax) as (c'' & -> & Hc''). cbn. eauto.
Qed.

Lemma pop_represents c a k :
  represents c a → full k →
  ∃ c', cache_pop size_callback extra_index_cb k c = Ok ((a_pop k a).1, c') ∧ represents c' (a_pop k a).2.
Proof.
  intros Ha Hk. unfold cache_pop, a_pop.
  destruct (lookup_cases c a k Ha Hk) as [(z1 & i & e & z2 & Hz & Hr & Hd & Hek & -> & Hn & -> & Ho & Em & Eo & Eran)|(-> & -> & _ & Hnew)].
  - cbn [mbind res_bind]. destruct (delete_node_rep _ _ _ _ _ Hr) as (c1 & -> & Hr1 & Ec & Eran1 & Em1 & Eo1 & Hn1).
    cbn [mbind res_bind snd]. unfold the_node. rewrite Hn1. cbn [mbind res_bind key]. rewrite Ec.
    destruct (dict_remove_entry _ _ _ _ _ _ Hr Hd) as (t & -> & Hd'). cbn. eexists. split; [done|]. exists (z1 ++ z2).
    subst k. destruct (find_split _ _ _ _ _ _ Hr Hz) as (Hf & _). unfold a_others in Ho.
    split_and!; cbn; try congruence; [destruct Hr1; split; done|]. rewrite Eran1, Eran, Hf. cbn. by rewrite app_nil_r.
  - cbn. eexists. split; [done|]. unfold a_remove, a_drop. rewrite (filter_none (λ e, e_key e = k)), filter_all by done.
    destruct a. cbn. by rewrite app_nil_r.
Qed.

(** ** Removing several entries *)

Lemma ref_inj c z i e f : rep_nodes c z → (i, e) ∈ z → (i, f) ∈ z → e = f.
Proof.
  intros Hr (z1 & z2 & ->)%list_elem_of_split Hf. destruct (rep_split _ _ _ _ _ Hr) as [_ Hother].
  apply elem_of_app in Hf as [Hf|[[= ->]|Hf]%elem_of_cons]; [|done|].
  all: destruct (Hother i f ltac:(set_solver)); done.
Qed.

Lemma filter_snd (P : Entry → Prop) `{!∀ e, Decision (P e)} z : (filter (λ x : nat * Entry, P x.2) z).*2 = filter P z.*2.
Proof.
  induction z as [|x z IH]; [done|]. rewrite fmap_cons, !filter_cons. case_decide; [rewrite fmap_cons|]; by rewrite IH.
Qed.

Lemma refs_under c z l (P : Entry → Prop) `{!∀ e, Decision (P e)} :
  rep_nodes c z → l ≡ₚ (filter (λ x : nat * Entry, P x.2) z).*1 →
  filter (λ x, x.1 ∉ l) z = filter (λ x, ¬ P x.2) z ∧
  (filter (λ x, x.1 ∈ l) z).*2 = filter P z.*2 ∧ NoDup l ∧ l ⊆ z.*1.
Proof.
  intros Hr Hl. assert (∀ x, x ∈ z → x.1 ∈ l ↔ P x.2) as Hx.
  { intros [i e] Hin. rewrite Hl, list_elem_of_fmap. setoid_rewrite list_elem_of_filter. split.
    - intros ([j f] & Heq & HP & Hf). cbn in Heq. subst j. by rewrite (ref_inj _ _ _ _ _ Hr Hin Hf).
    - intros HP. by exists (i, e). }
  split_and!.
  - apply filter_ext_in. intros x Hin. by rewrite (Hx x Hin).
  - rewrite <-filter_snd. f_equal. by apply filter_ext_in.
  - rewrite Hl. apply (sublist_NoDup _ z.*1); [|apply fmap_sublist, sublist_filter].
    destruct (rep_ring _ _ Hr) as [Hnd _]. by apply NoDup_cons in Hnd as [_ ?].
  - intros i. rewrite Hl. intros (x & -> & Hin)%list_elem_of_fmap. apply list_elem_of_filter in Hin as [_ Hin].
    apply list_elem_of_fmap. eauto.
Qed.

Lemma del_multi_represents c a p :
  represents c a → part p →
  ∃ c', cache_del_multi size_callback extra_index_cb p c = Ok c' ∧
    represents c' (a_remove (λ e, under p (e_key e)) a).
Proof.
  intros (z & Hz & Hr & Hd & Em & Eo & Eran) Hp. unfold cache_del_multi.
  destruct (dict_remove _ _ _ p Hr Hd Hp) as (l & t & -> & Hd' & Hl). cbn [mbind res_bind fst snd].
  destruct (refs_under c z l (λ e, under p (e_key e)) Hr Hl) as (Hf1 & Hf2 & Hnd & Hin).
  assert (rep_nodes (with_cache t c) z) as Hr' by (destruct Hr; split; done).
  destruct (delete_nodes_rep l (with_cache t c) z Hr' Hnd Hin) as (c' & -> & Hr1 & Ec & Em1 & Eo1 & Eran1).
  eexists. split; [done|]. exists (filter (λ x, ¬ under p (e_key x.2)) z). rewrite Hf1 in Hr1. rewrite Hf2 in Eran1.
  unfold a_remove, a_drop. cbn [a_entries a_max a_original a_ran]. rewrite <-Hz. split_and!; try done.
  - refine (filter_snd _ z).
  - by rewrite Ec.
  - rewrite Em1. done.
  - rewrite Eo1. done.
  - rewrite Eran1. cbn. by rewrite Eran.
Qed.

(** [clear] empties the list node by node. *)
Lemma clear_loop ids (c : LruCache K V C) z :
  ring (heap c) (list_root c) z.*1 → NoDup ids → ids ⊆ z.*1 →
  (∀ i e, (i, e) ∈ z → nodes c !! i = Some (mkNode i (e_key e) (e_value e) (e_callbacks e))) →
  ∃ c', foldM (λ c i, c ← run_and_clear_callbacks i c; drop_from_lists i c) c ids = Ok c' ∧
    ring (heap c') (list_root c') (filter (λ i, i ∉ ids) z.*1) ∧ list_root c' = list_root c ∧
    next_ref c' = next_ref c ∧ max_size c' = max_size c ∧ _original_max_size c' = _original_max_size c ∧
    ran c' ≡ₚ ran c ++ ((filter (λ x, x.1 ∈ ids) z).*2 ≫= e_callbacks).
Proof.
  revert c z. induction ids as [|i ids IH]; intros c z Hring Hnd Hin Hn.
  { exists c. cbn [foldM]. rewrite filter_all by (intros; apply not_elem_of_nil).
    rewrite filter_none by (intros ? ? []%elem_of_nil). cbn. rewrite app_nil_r. done. }
  apply NoDup_cons in Hnd as [Hi Hnd].
  assert (i ∈ z.*1) as ([j e] & -> & Hje)%list_elem_of_fmap by (apply Hin; set_solver). cbn [fst] in *.
  pose proof (Hn j e Hje) as Hnj. apply list_elem_of_split in Hje as (z1 & z2 & ->).
  rewrite fmap_app, fmap_cons in Hring. cbn [fst] in Hring. destruct Hring as [Hd Hl].
  assert (NoDup (j :: z1.*1 ++ z2.*1)) as Hd'.
  { apply NoDup_cons in Hd as [_ Hd]. eapply NoDup_Permutation_proper; [|exact Hd]. solve_Permutation. }
  apply NoDup_cons in Hd' as [Hj _]. rewrite <-fmap_app in Hj.
  destruct (remove_from_list_ring (heap c) (list_root c) z1.*1 j z2.*1 (conj Hd Hl)) as [Hring' _].
  set (c1 := with_heap (remove_from_list j (heap c)) (with_ran (ran c ++ e_callbacks e)
    (with_node j (mkNode j (e_key e) (e_value e) []) c))).
  assert (run_and_clear_callbacks j c ≫= drop_from_lists j = Ok c1) as Hstep.
  { unfold run_and_clear_callbacks, drop_from_lists, the_node. rewrite Hnj. cbn. by rewrite lookup_insert_eq. }
  cbn [foldM]. change (λ c0, drop_from_lists j c0) with (@drop_from_lists K V C _ _ CT j). rewrite Hstep. cbn [mbind res_bind].
  destruct (IH c1 (z1 ++ z2)) as (c' & Hc' & Hr' & ? & ? & ? & ? & Eran').
  { by rewrite fmap_app. }
  { done. }
  { intros k Hk. assert (k ∈ (z1 ++ (j, e) :: z2).*1) as Hk' by (apply Hin; set_solver).
    rewrite fmap_app, fmap_cons in Hk'. rewrite fmap_app. set_solver. }
  { intros k f Hf. cbn. rewrite lookup_insert_ne; [apply Hn; set_solver|]. intros <-. apply Hj, list_elem_of_fmap. by exists (j, f). }
  exists c'. split_and!; try done.
  - rewrite fmap_app, fmap_cons, filter_app, filter_cons_False by set_solver. rewrite fmap_app, filter_app in Hr'. rewrite fmap_app in Hj.
    rewrite !(filter_ext_in (λ i, i ∉ j :: ids) (λ i, i ∉ ids)); [done|..]; intros k Hk; set_solver.
  - rewrite Eran'. cbn. rewrite <-(assoc_L (++)). f_equiv. rewrite !filter_app, filter_cons_True by set_solver.
    rewrite !(filter_ext_in (λ x : nat * Entry, x.1 ∈ j :: ids) (λ x, x.1 ∈ ids)).
    2-3: intros x Hx; assert (x.1 ≠ j) by (intros <-; apply Hj, list_elem_of_fmap; exists x; set_solver); set_solver.
    rewrite !fmap_app, fmap_cons, !bind_app, bind_cons. solve_Permutation.
Qed.

Lemma clear_represents c a :
  represents c a →
  ∃ c', cache_clear size_callback c = Ok c' ∧ represents c' (a_remove (λ _, True) a).
Proof.
  intros (z & Hz & Hr & Hd & Em & Eo & Eran). unfold cache_clear.
  pose proof (dict_nodes _ _ _ Hr Hd) as Hids. pose proof (rep_ring _ _ Hr) as Hring.
  destruct (clear_loop (cache_nodes (cache c)) c z) as (c1 & -> & Hring' & Eroot & Enext & Em1 & Eo1 & Eran1).
  { done. }
  { rewrite Hids. destruct Hring as [Hnd _]. by apply NoDup_cons in Hnd as [_ ?]. }
  { intros i. by rewrite Hids. }
  { intros i e Hin. by apply (rep_node _ _ Hr). }
  rewrite filter_none in Hring' by (intros i Hi Hn; apply Hn; by rewrite Hids).
  rewrite filter_all in Eran1 by (intros x Hx; rewrite Hids; apply list_elem_of_fmap; eauto).
  destruct (Hring') as [_ [Hnx Hpv]]. unfold nxt in Hnx. unfold prv in Hpv. cbn [mbind res_bind]. rewrite Hnx, Hpv.
  rewrite !bool_decide_true by done. cbn. eexists. split; [done|]. exists []. destruct new_law as [Hv He].
  unfold a_remove, a_drop. rewrite filter_none, filter_all by (done || intros ? _ Hx; by apply Hx). rewrite <-Hz.
  assert (∀ c2, c2 = match size_callback with Some _ => with_len 0 (with_cache cache_new c1) | None => with_cache cache_new c1 end →
    rep_nodes (with_index ∅ c2) [] ∧ rep_dict (cache (with_index ∅ c2)) [] ∧ max_size c2 = a_max a ∧
    _original_max_size c2 = a_original a ∧ ran c2 ≡ₚ a_ran a ++ (z.*2 ≫= e_callbacks)) as Hgoal.
  { intros c2 ->. split_and!; [split| |destruct size_callback; cbn; congruence..|destruct size_callback; cbn; by rewrite Eran1, Eran].
    - destruct size_callback; done.
    - set_solver.
    - intros i ->%list_elem_of_singleton. assert (list_root c1 < next_ref c1)%nat by (rewrite Eroot, Enext; apply (rep_fresh _ _ Hr); set_solver).
      destruct size_callback; done.
    - apply NoDup_nil_2.
    - intros f Hf. by destruct size_callback.
    - intros cb _. split; [by destruct size_callback|]. intros ik k. destruct size_callback; cbn; rewrite lookup_empty; set_solver.
    - split; [by destruct size_callback|]. intros k i. destruct size_callback; cbn; rewrite He, lookup_empty; set_solver. }
  destruct (Hgoal _ eq_refl) as (? & ? & ? & ? & ?). split_and!; done.
Qed.

Lemma contains_represents c a k :
  represents c a → full k → cache_contains k c = Ok (bool_decide (is_Some (a_find k a))).
Proof.
  intros Ha Hk. unfold cache_contains. destruct (Ha) as (z & Hz & Hr & Hd & _). rewrite (in_law _ _ (rep_valid _ _ Hd) Hk).
  f_equal. apply bool_decide_ext.
  destruct (lookup_cases c a k Ha Hk) as [(z1 & i & e & z2 & _ & _ & Hd' & Hek & Hl & _ & -> & _)|(_ & -> & -> & _)]; [|done].
  rewrite (lookup_law _ _ (rep_valid _ _ Hd) Hk) in Hl. injection Hl as ->. done.
Qed.

(** The loop of the invalidation: the set of keys is gone from the index, and
    stays gone. *)
Lemma invalidate_loop cb ik y ks c z :
  extra_index_cb = Some cb → y !! ik = None → rep_nodes c z → rep_dict (cache c) z → NoDup ks →
  (∀ k, k ∈ ks → ∃ i e, (i, e) ∈ z ∧ e_key e = k ∧ cb (e_key e) (e_value e) = ik) →
  ∃ c', foldM (λ c k,
              popped ← cache_remove k (cache c);
              match popped.1 with
              | [] => Ok c
              | i :: _ => dc ← delete_node size_callback extra_index_cb i (with_cache popped.2 c); Ok dc.2
              end) (with_index y c) ks = Ok (with_index y c') ∧
    rep_nodes c' (filter (λ x, e_key x.2 ∉ ks) z) ∧ rep_dict (cache c') (filter (λ x, e_key x.2 ∉ ks) z) ∧
    max_size c' = max_size c ∧ _original_max_size c' = _original_max_size c ∧
    ran c' ≡ₚ ran c ++ ((filter (λ x, e_key x.2 ∈ ks) z).*2 ≫= e_callbacks).
Proof.
  intros Hcb Hy. revert c z. induction ks as [|k ks IH]; intros c z Hr Hd Hnd Hks.
  { exists c. cbn [foldM]. rewrite filter_all by (intros; apply not_elem_of_nil).
    rewrite filter_none by (intros ? ? []%elem_of_nil). cbn. rewrite app_nil_r. done. }
  apply NoDup_cons in Hnd as [Hk Hnd]. destruct (Hks k ltac:(left)) as (i & e & Hin & <- & Hik).
  apply list_elem_of_split in Hin as (z1 & z2 & ->). destruct (rep_split _ _ _ _ _ Hr) as [_ Hother].
  destruct (dict_remove_entry _ _ _ _ _ _ Hr Hd) as (t & Ht & Hd').
  assert (rep_nodes (with_cache t c) (z1 ++ (i, e) :: z2)) as Hr' by (destruct Hr; split; done).
  destruct (delete_node_rep _ _ _ _ _ Hr') as (c1 & Hc1 & Hr1 & Ec & Eran & Em & Eo & _).
  destruct (rep_node _ _ Hr i e) as [Hn _]; [set_solver|].
  assert (delete_node size_callback extra_index_cb i (with_cache t (with_index y c)) = Ok (entry_size e, with_index y c1)) as Hstep.
  { rewrite (delete_node_eq i _ (with_cache t c) Hn) in Hc1.
    rewrite (delete_node_eq i _ (with_cache t (with_index y c)) Hn). injection Hc1 as <-. rewrite Hcb. cbn [key value]. unfold with_index. cbn.
    rewrite Hik. unfold index_discard. rewrite Hy. done. }
  destruct (IH c1 (z1 ++ z2)) as (c' & Hc' & Hr2 & Hd2 & Em2 & Eo2 & Eran2); [done|by rewrite Ec|done| |].
  { intros k Hkin. destruct (Hks k ltac:(by right)) as (j & f & Hf & <- & Hfk). exists j, f. split_and!; [|done..].
    apply elem_of_app in Hf as [Hf|[[= -> ->]|Hf]%elem_of_cons]; [set_solver| |set_solver]. done. }
  exists c'. cbn [foldM]. change (cache (with_index y c)) with (cache c). rewrite Ht. cbn [mbind res_bind fst snd]. rewrite Hstep.
  cbn [mbind res_bind snd]. rewrite Hc'.
  assert (filter (λ x : nat * Entry, e_key x.2 ∉ e_key e :: ks) (z1 ++ (i, e) :: z2) = filter (λ x, e_key x.2 ∉ ks) (z1 ++ z2)) as ->.
  { rewrite !filter_app, filter_cons_False by set_solver.
    f_equal; apply filter_ext_in; intros [j f] Hf; destruct (Hother j f ltac:(set_solver)); set_solver. }
  split_and!; try done; [by rewrite Em2, Em|by rewrite Eo2, Eo|].
  rewrite Eran2, Eran. cbn. rewrite <-(assoc_L (++)). f_equiv. rewrite !filter_app, filter_cons_True by set_solver.
  rewrite !(filter_ext_in (λ x : nat * Entry, e_key x.2 ∈ e_key e :: ks) (λ x, e_key x.2 ∈ ks)).
  2-3: intros [j f] Hf; destruct (Hother j f ltac:(set_solver)); set_solver.
  rewrite !fmap_app, fmap_cons, !bind_app, bind_cons. solve_Permutation.
Qed.

Lemma invalidate_represents cb c a ik :
  extra_index_cb = Some cb → represents c a →
  ∃ c', cache_invalidate_on_extra_index size_callback extra_index_cb ik c = Ok c' ∧
    represents c' (a_remove (λ e, cb (e_key e) (e_value e) = ik) a).
Proof.
  intros Hcb (z & Hz & Hr & Hd & Em & Eo & Eran). unfold cache_invalidate_on_extra_index. rewrite Hcb, <-Hcb.
  destruct (rep_index _ _ Hr cb Hcb) as [Hne Hix]. unfold a_remove, a_drop. rewrite <-Hz.
  destruct (extra_index c !! ik) as [ks|] eqn:Eik.
  2:{ exists c. split; [done|]. exists z. cbn [a_entries a_max a_original a_ran].
      assert (∀ e, e ∈ z.*2 → cb (e_key e) (e_value e) ≠ ik) as Hno.
      { intros e He Hik. assert (e_key e ∈ default ∅ (extra_index c !! ik)) as Hx by (apply Hix; eauto). rewrite Eik in Hx. set_solver. }
      rewrite filter_all, filter_none by done. cbn. by rewrite app_nil_r. }
  assert (∀ x, x ∈ z → e_key x.2 ∈ elements ks ↔ cb (e_key x.2) (e_value x.2) = ik) as Hkeys.
  { intros [i e] Hin. cbn [snd]. rewrite elem_of_elements. specialize (Hix ik (e_key e)). rewrite Eik in Hix. cbn in Hix. rewrite Hix. split.
    - intros (f & Hf & Hfk & <-). apply list_elem_of_fmap in Hf as ([j g] & -> & Hg). cbn [snd] in *.
      assert (entries (cache c) !! e_key e = Some i) as H1 by (apply (rep_entries _ _ Hd); eauto).
      assert (entries (cache c) !! e_key e = Some j) as H2 by (apply (rep_entries _ _ Hd); eauto).
      rewrite H1 in H2. injection H2 as <-. by rewrite (ref_inj _ _ _ _ _ Hr Hin Hg).
    - intros <-. exists e. split_and!; [|done..]. apply list_elem_of_fmap. by exists (i, e). }
  destruct (invalidate_loop cb ik (delete ik (extra_index c)) (elements ks) c z) as (c' & -> & Hr' & Hd' & Em' & Eo' & Eran').
  - done.
  - apply lookup_delete_eq.
  - done.
  - done.
  - apply NoDup_elements.
  - intros k Hk%elem_of_elements. specialize (Hix ik k). rewrite Eik in Hix. cbn in Hix. apply Hix in Hk as (e & He & Hek & Hik).
    apply list_elem_of_fmap in He as ([i f] & -> & Hf). exists i, f. done.
  - rewrite (filter_ext_in _ (λ x : nat * Entry, ¬ cb (e_key x.2) (e_value x.2) = ik)) in Hr', Hd' by (intros x Hx; by rewrite (Hkeys x Hx)).
    assert ((filter (λ x : nat * Entry, e_key x.2 ∈ elements ks) z).*2 = filter (λ e, cb (e_key e) (e_value e) = ik) z.*2) as Hgone.
    { rewrite <-filter_snd. f_equal. by apply filter_ext_in. }
    assert ((filter (λ x : nat * Entry, ¬ cb (e_key x.2) (e_value x.2) = ik) z).*2 = filter (λ e, ¬ cb (e_key e) (e_value e) = ik) z.*2)
      as Hkept by exact (filter_snd _ z).
    rewrite Hgone in Eran'.
    eexists. split; [done|]. eexists. cbn [a_entries a_max a_original a_ran]. split_and!; cbn; try congruence.
    + refine (filter_snd _ z).
    + destruct Hr'. split; try done. cbn. intros cb' Hcb'. assert (cb' = cb) as -> by congruence. split.
      * intros ik'. destruct (decide (ik' = ik)) as [->|Hn]; [by rewrite lookup_delete_eq|by rewrite lookup_delete_ne].
      * intros ik' k. rewrite Hkept. setoid_rewrite list_elem_of_filter.
        destruct (decide (ik' = ik)) as [->|Hn]; [rewrite lookup_delete_eq; cbn; set_solver|].
        rewrite lookup_delete_ne by done. rewrite Hix. naive_solver.
    + done.
    + rewrite Eran', Eran. done.
Qed.

Lemma resize_represents c a scaled :
  represents c a → 0 ≤ scaled (a_original a) →
  ∃ c', lru_set_cache_factor size_callback extra_index_cb scaled c = Ok c' ∧
    represents c' (a_resize (scaled (a_original a)) a).
Proof.
  intros (z & Hz & Hr & Hd & Em & Eo & Eran) Hn. unfold lru_set_cache_factor, a_resize. rewrite Eo, Em.
  destruct (scaled (a_original a) =? a_max a) eqn:E; cbn [negb].
  - exists c. split; [done|]. exists z. done.
  - apply evict_represents; [|done]. exists z. split_and!; try done. destruct Hr; split; done.
Qed.

(** ** Sequences of operations *)

Inductive LruOp :=
  | OGet (k : K) (cbs : list C) (update_last_access : bool)
  | OSet (k : K) (v : V) (cbs : list C)
  | OSetDefault (k : K) (v : V)
  | OPop (k : K)
  | ODelMulti (k : K)
  | OClear
  | OContains (k : K)
  | OInvalidate (index_key : K)
  | OResize (scaled : Z → Z).

Inductive LruOut := RValue (o : option V) | RBool (b : bool) | RNone.

Definition lru_op (o : LruOp) (c : LruCache K V C) : res (LruOut * LruCache K V C) :=
  match o with
  | OGet k cbs upd => r ← cache_get k cbs upd c; Ok (RValue r.1, r.2)
  | OSet k v cbs => c ← cache_set size_callback extra_index_cb py_ne set_order k v cbs c; Ok (RNone, c)
  | OSetDefault k v => r ← cache_set_default size_callback extra_index_cb k v c; Ok (RValue (Some r.1), r.2)
  | OPop k => r ← cache_pop size_callback extra_index_cb k c; Ok (RValue r.1, r.2)
  | ODelMulti k => c ← cache_del_multi size_callback extra_index_cb k c; Ok (RNone, c)
  | OClear => c ← cache_clear size_callback c; Ok (RNone, c)
  | OContains k => b ← cache_contains k c; Ok (RBool b, c)
  | OInvalidate ik => c ← cache_invalidate_on_extra_index size_callback extra_index_cb ik c; Ok (RNone, c)
  | OResize f => c ← lru_set_cache_factor size_callback extra_index_cb f c; Ok (RNone, c)
  end.

Definition a_op (o : LruOp) (a : AbsCache) : LruOut * AbsCache :=
  match o with
  | OGet k cbs upd => let r := a_get k cbs upd a in (RValue r.1, r.2)
  | OSet k v cbs => (RNone, a_set k v cbs a)
  | OSetDefault k v => let r := a_set_default k v a in (RValue (Some r.1), r.2)
  | OPop k => let r := a_pop k a in (RValue r.1, r.2)
  | ODelMulti k => (RNone, a_remove (λ e, under k (e_key e)) a)
  | OClear => (RNone, a_remove (λ _, True) a)
  | OContains k => (RBool (bool_decide (is_Some (a_find k a))), a)
  | OInvalidate ik =>
      match extra_index_cb with
      | Some cb => (RNone, a_remove (λ e, cb (e_key e) (e_value e) = ik) a)
      | None => (RNone, a)
      end
  | OResize f => (RNone, a_resize (f (a_original a)) a)
  end.

(** Keys are whole keys (parts of them for [del_multi]); a value that replaces
    another has its index key; the second index is only used when there is one;
    sizes are not negative. *)
Definition admissible (o : LruOp) (a : AbsCache) : Prop :=
  match o with
  | OGet k _ _ | OSetDefault k _ | OPop k | OContains k => full k
  | OSet k v _ =>
      full k ∧ ∀ e cb, a_find k a = Some e → extra_index_cb = Some cb → cb k v = cb k (e_value e)
  | ODelMulti k => part k
  | OClear => True
  | OInvalidate _ => is_Some extra_index_cb
  | OResize f => 0 ≤ f (a_original a)
  end.

Fixpoint lru_run (ops : list LruOp) (c : LruCache K V C) : res (list LruOut * LruCache K V C) :=
  match ops with
  | [] => Ok ([], c)
  | o :: ops => r ← lru_op o c; rs ← lru_run ops r.2; Ok (r.1 :: rs.1, rs.2)
  end.
Fixpoint a_run (ops : list LruOp) (a : AbsCache) : list LruOut * AbsCache :=
  match ops with
  | [] => ([], a)
  | o :: ops => let r := a_op o a in let rs := a_run ops r.2 in (r.1 :: rs.1, rs.2)
  end.
Fixpoint admissible_run (ops : list LruOp) (a : AbsCache) : Prop :=
  match ops with
  | [] => True
  | o :: ops => admissible o a ∧ admissible_run ops (a_op o a).2
  end.

Lemma op_represents o c a :
  represents c a → 0 ≤ a_max a → admissible o a →
  ∃ c', lru_op o c = Ok ((a_op o a).1, c') ∧ represents c' (a_op o a).2.
Proof.
  intros Ha Hmax Hadm. destruct o; cbn [lru_op a_op admissible] in *.
  - destruct (get_represents c a k cbs update_last_access Ha Hadm) as (c' & -> & Hc'). cbn. eauto.
  - destruct (set_represents c a k v cbs Ha (proj1 Hadm) Hmax (proj2 Hadm)) as (c' & -> & Hc'). cbn. eauto.
  - destruct (set_default_represents c a k v Ha Hadm Hmax) as (c' & -> & Hc'). cbn. eauto.
  - destruct (pop_represents c a k Ha Hadm) as (c' & -> & Hc'). cbn. eauto.
  - destruct (del_multi_represents c a k Ha Hadm) as (c' & -> & Hc'). cbn. eauto.
  - destruct (clear_represents c a Ha) as (c' & -> & Hc'). cbn. eauto.
  - rewrite (contains_represents c a k Ha Hadm). cbn. eauto.
  - destruct Hadm as [cb Hcb]. rewrite Hcb, <-Hcb.
    destruct (invalidate_represents cb c a index_key Hcb Ha) as (c' & -> & Hc'). cbn. eauto.
  - destruct (resize_represents c a scaled Ha Hadm) as (c' & -> & Hc'). cbn. eauto.
Qed.

(** ** The bound *)

Lemma total_filter (P : Entry → Prop) `{!∀ e, Decision (P e)} l : total l = total (filter P l) + total (filter (λ e, ¬ P e) l).
Proof. by rewrite <-total_app, (total_perm _ _ (filter_app_complement P l)). Qed.

Lemma shrink_bound a : 0 ≤ a_max a → total (a_entries (a_shrink a)) ≤ a_max (a_shrink a).
Proof. apply fit_bound. Qed.

Lemma remove_bound (P : Entry → Prop) `{!∀ e, Decision (P e)} a :
  total (a_entries a) ≤ a_max a → total (a_entries (a_remove P a)) ≤ a_max (a_remove P a).
Proof. unfold a_remove, a_drop. cbn [a_entries a_max]. rewrite (total_filter P (a_entries a)). pose proof (total_nonneg (filter P (a_entries a))). lia. Qed.

Lemma get_bound c a k cbs upd :
  represents c a → total (a_entries a) ≤ a_max a →
  total (a_entries (a_get k cbs upd a).2) ≤ a_max (a_get k cbs upd a).2.
Proof.
  intros (z & Hz & Hr & _) Hle. unfold a_get. destruct (a_find k a) as [e|] eqn:Ef; [|done].
  unfold a_with. cbn [snd a_entries a_max].
  assert (∃ rest, filter (λ f, e_key f = k) (a_entries a) = e :: rest) as [rest Hrest].
  { unfold a_find in Ef. destruct (filter _ _) as [|x rest]; [done|]. injection Ef as ->. eauto. }
  destruct upd.
  - rewrite (total_filter (λ f, e_key f = k) (a_entries a)), Hrest, total_cons in Hle.
    rewrite total_cons. change (entry_size (mkEntry k _ _)) with (entry_size e).
    pose proof (total_nonneg rest). unfold a_others. lia.
  - etrans; [|exact Hle]. assert (∀ f, f ∈ a_entries a → e_key f = k → f = e) as Huniq.
    { assert (e ∈ a_entries a ∧ e_key e = k) as [He <-].
      { assert (e ∈ filter (λ f, e_key f = k) (a_entries a)) as [? ?]%list_elem_of_filter by (rewrite Hrest; left). done. }
      rewrite <-Hz in He |- *. apply list_elem_of_fmap in He as ([i x] & -> & Hi).
      apply list_elem_of_split in Hi as (z1 & z2 & ->). intros f Hf Hk.
      apply list_elem_of_fmap in Hf as ([j g] & -> & Hg).
      destruct (rep_split _ _ _ _ _ Hr) as [_ Hother]. apply elem_of_app in Hg as [Hg|[[= -> ->]|Hg]%elem_of_cons]; [|done|].
      all: destruct (Hother j g ltac:(set_solver)); done. }
    clear -Huniq. induction (a_entries a) as [|f l IH]; [done|]. rewrite fmap_cons, !total_cons.
    specialize (IH ltac:(intros; apply Huniq; [by right|done])). case_decide as Hk; [|lia].
    rewrite (Huniq f ltac:(left) Hk). change (entry_size (mkEntry k _ _)) with (entry_size e). lia.
Qed.

Lemma op_bound o c a :
  represents c a → 0 ≤ a_max a → total (a_entries a) ≤ a_max a → admissible o a →
  0 ≤ a_max (a_op o a).2 ∧ total (a_entries (a_op o a).2) ≤ a_max (a_op o a).2.
Proof.
  intros Ha Hmax Hle Hadm. destruct o; cbn [a_op snd admissible] in *.
  - split; [unfold a_get; by destruct (a_find k a)|by eapply get_bound].
  - unfold a_set. split; [by destruct (a_find k a)|]. apply shrink_bound. by destruct (a_find k a).
  - unfold a_set_default. destruct (a_find k a); [done|]. split; [done|]. by apply shrink_bound.
  - split; [done|]. by apply remove_bound.
  - split; [done|]. by apply remove_bound.
  - split; [done|]. by apply remove_bound.
  - done.
  - destruct extra_index_cb; [|done]. split; [done|]. by apply remove_bound.
  - unfold a_resize. destruct (_ =? _); [done|]. split; [done|]. by apply shrink_bound.
Qed.

Lemma run_represents ops c a :
  represents c a → 0 ≤ a_max a → total (a_entries a) ≤ a_max a → admissible_run ops a →
  ∃ c', lru_run ops c = Ok ((a_run ops a).1, c') ∧ represents c' (a_run ops a).2 ∧
    total (a_entries (a_run ops a).2) ≤ a_max (a_run ops a).2.
Proof.
  revert c a. induction ops as [|o ops IH]; intros c a Ha Hmax Hle Hadm; [cbn; eauto|]. destruct Hadm as [Hadm Hrun].
  destruct (op_represents o c a Ha Hmax Hadm) as (c1 & Hc1 & Ha1).
  destruct (op_bound o c a Ha Hmax Hle Hadm) as [Hmax1 Hle1].
  destruct (IH c1 _ Ha1 Hmax1 Hle1 Hrun) as (c' & Hc' & Ha' & Hle').
  exists c'. cbn [lru_run a_run]. rewrite Hc1. cbn [mbind res_bind snd]. rewrite Hc'. done.
Qed.
End Refinement.

(** C26: An LruCache, with its linked list in a heap, its dict, its size counter and its
    second index, taken through any sequence of operations (whole keys, replacing values
    that keep their index key, a size callback that is not negative) never raises or runs
    out of fuel, answers as a list of entries in order of use does, runs the callbacks of
    exactly the entries that go, and never holds more than max_size. *)
Theorem lru_cache_refines_list {K V C} `{Countable K} `{EqDecision C} {CT : CacheType K nat} {CL : CacheLaws CT}
    size_callback extra_index_cb py_ne set_order size scaled factor (ops : list (@LruOp K V C)) :
  (∀ f v, size_callback = Some f → 0 ≤ f v) →
  let c := lru_init size scaled factor in
  let a := mkAbs size (max_size c) [] [] in
  0 ≤ max_size c → admissible_run size_callback extra_index_cb py_ne set_order ops a →
  let r := a_run size_callback extra_index_cb py_ne set_order ops a in
  ∃ c', lru_run size_callback extra_index_cb py_ne set_order ops c = Ok (r.1, c') ∧
    represents size_callback extra_index_cb c' r.2 ∧ cache_len size_callback c' ≤ max_size c'.
Proof.
  intros Hsize c a Hmax Hadm r.
  destruct (run_represents size_callback extra_index_cb py_ne set_order Hsize ops c a) as (c' & Hc' & Ha' & Hle).
  - by apply init_represents.
  - done.
  - done.
  - done.
  - exists c'. split_and!; [done..|]. destruct Ha' as (z & Hz & Hr & Hd & Em & _).
    rewrite (cache_len_total _ _ Hsize c' z Hr Hd), Hz, Em. done.
Qed.
