(* ===== verification/TreeCache.v ===== *)
(** * Tree caches: [synapse/util/caches/treecache.py]

    A trie of dicts keyed by the elements of tuples, whose subtrees can be
    deleted at once. With keys of one length it is a map from tuples to
    values: it meets what [LruCache] asks of its dict, as a plain dict does. *)

From S2P Require Import Prelude LruCache LruCacheProps.

(** ** The tree *)

(** A value, or a [TreeCacheNode] with the items of the dict it is. *)
#[warnings="-register-all"]
Inductive Tree (A V : Type) :=
  | Leaf (v : V)
  | TreeCacheNode (items : list (A * Tree A V)).
Arguments Leaf {A V} v.
Arguments TreeCacheNode {A V} items.

Section Tree.
Context {A : Type} `{Countable A} {V : Type}.
Implicit Types d : list (A * Tree A V).

(** Dicts: [d.get(k)], [d[k] = t] and [del d[k]]. *)
Fixpoint d_get (k : A) d : option (Tree A V) :=
  match d with
  | [] => None
  | (k', t) :: d => if decide (k' = k) then Some t else d_get k d
  end.
Fixpoint d_set (k : A) (t : Tree A V) d : list (A * Tree A V) :=
  match d with
  | [] => [(k, t)]
  | (k', t') :: d => if decide (k' = k) then (k, t) :: d else (k', t') :: d_set k t d
  end.
Definition d_del (k : A) d : list (A * Tree A V) := filter (λ kt, kt.1 ≠ k) d.

(** The loops down the tree, for the items of the node they have reached. *)
Fixpoint tree_set (key : list A) (v : V) d : res (list (A * Tree A V)) :=
  match key with
  | [] => Raise IndexError
  | [k] => Ok (d_set k (Leaf v) d)
  | k :: key =>
      match d_get k d with
      | None => sub ← tree_set key v []; Ok (d_set k (TreeCacheNode sub) d)
      | Some (TreeCacheNode sub) => sub ← tree_set key v sub; Ok (d_set k (TreeCacheNode sub) d)
      | Some (Leaf _) => Raise ValueError
      end
  end.

Fixpoint tree_get (key : list A) d : res (option (Tree A V)) :=
  match key with
  | [] => Raise IndexError
  | [k] => Ok (d_get k d)
  | k :: key =>
      match d_get k d with
      | None => Ok None
      | Some (TreeCacheNode sub) => tree_get key sub
      | Some (Leaf _) => Raise (AttributeError "get")
      end
  end.

(** What was popped, and the items left; nodes left empty are removed. *)
Fixpoint tree_pop (key : list A) d : res (option (Tree A V * list (A * Tree A V))) :=
  match key with
  | [] => Raise IndexError
  | [k] => Ok match d_get k d with None => None | Some t => Some (t, d_del k d) end
  | k :: key =>
      match d_get k d with
      | None => Ok None
      | Some (Leaf _) => Raise ValueError
      | Some (TreeCacheNode sub) =>
          r ← tree_pop key sub;
          Ok match r with
             | None => None
             | Some (t, []) => Some (t, d_del k d)
             | Some (t, sub) => Some (t, d_set k (TreeCacheNode sub) d)
             end
      end
  end.

(** [iterate_tree_cache_items], with the keys below the given one. *)
Fixpoint tree_items (t : Tree A V) : list (list A * V) :=
  match t with
  | Leaf v => [([], v)]
  | TreeCacheNode d => d ≫= λ kt, (λ kv, (kt.1 :: kv.1, kv.2)) <$> tree_items kt.2
  end.

Definition iterate_tree_cache_items (key : list A) (t : Tree A V) : list (list A * V) :=
  (λ kv, (key ++ kv.1, kv.2)) <$> tree_items t.

Fixpoint iterate_tree_cache_entry (t : Tree A V) : list V :=
  match t with
  | Leaf v => [v]
  | TreeCacheNode d => d ≫= λ kt, iterate_tree_cache_entry kt.2
  end.

(** ** [TreeCache] *)

Record TreeCache := mkTreeCache { size : Z; root : list (A * Tree A V) }.

Definition tc_new : TreeCache := mkTreeCache 0 [].
Definition tc_set (key : list A) (v : V) (c : TreeCache) : res TreeCache :=
  r ← tree_set key v (root c); Ok (mkTreeCache (size c + 1) r).
Definition tc_get (key : list A) (c : TreeCache) : res (option (Tree A V)) := tree_get key (root c).
Definition tc_contains (key : list A) (c : TreeCache) : res bool :=
  t ← tc_get key c; Ok (match t with Some _ => true | None => false end).
Definition tc_pop (key : list A) (c : TreeCache) : res (option (Tree A V) * TreeCache) :=
  r ← tree_pop key (root c);
  Ok match r with
     | None => (None, c)
     | Some (t, d) =>
         (Some t, mkTreeCache (size c - Z.of_nat (length (iterate_tree_cache_entry t))) d)
     end.
Definition tc_clear (c : TreeCache) : TreeCache := mkTreeCache 0 [].
Definition tc_values (c : TreeCache) : list V := iterate_tree_cache_entry (TreeCacheNode (root c)).
Definition tc_items (c : TreeCache) : list (list A * V) :=
  iterate_tree_cache_items [] (TreeCacheNode (root c)).

(** ** As the dict of an [LruCache] *)

(** A node under part of a key has none of the methods of [_Node]. *)
Definition tc_lookup (k : list A) (c : TreeCache) : res (option V) :=
  t ← tc_get k c;
  match t with
  | None => Ok None
  | Some (Leaf n) => Ok (Some n)
  | Some (TreeCacheNode _) => Raise (AttributeError "value")
  end.
Definition tc_lookup_multi (k : list A) (c : TreeCache) : res (option (list (list A * V))) :=
  t ← tc_get k c;
  Ok match t with Some t => Some (iterate_tree_cache_items k t) | None => None end.
Definition tc_remove (k : list A) (c : TreeCache) : res (list V * TreeCache) :=
  r ← tc_pop k c;
  Ok (match r.1 with Some t => iterate_tree_cache_entry t | None => [] end, r.2).
End Tree.
Arguments TreeCache : clear implicits.

Definition tree_cache_type A `{Countable A} N : CacheType (list A) N := {|
  Cache := TreeCache A N;
  cache_new := tc_new;
  cache_lookup := tc_lookup;
  cache_lookup_multi := tc_lookup_multi;
  cache_in := tc_contains;
  cache_setitem := tc_set;
  cache_remove := tc_remove;
  cache_length c := size c;
  cache_nodes c := tc_values c
|}.

(** [dict], which has no subtrees. *)
Definition dict_cache_type K `{Countable K} N : CacheType K N := {|
  Cache := gmap K N;
  cache_new := ∅;
  cache_lookup k c := Ok (c !! k);
  cache_lookup_multi k c := Raise AssertionError;
  cache_in k c := Ok (bool_decide (is_Some (c !! k)));
  cache_setitem k n c := Ok (<[k := n]> c);
  cache_remove k c := Ok (match c !! k with Some n => [n] | None => [] end, delete k c);
  cache_length c := Z.of_nat (base.size c);
  cache_nodes c := (map_to_list c).*2
|}.
