(* ===== verification/TreeCacheProps.v ===== *)
(** * A tree cache is a map from tuples

    With keys of one length the tree, the size and the deletion of subtrees
    implement a map from tuples to values: the laws of [CacheLaws]. *)

From S2P Require Import Prelude LruCache LruCacheProps TreeCache.

Section Tree.
Context {A : Type} `{Countable A} {V : Type}.
Implicit Types d : list (A * Tree A V).

(** ** Dicts *)

Lemma d_get_elem k t d : NoDup d.*1 → d_get k d = Some t ↔ (k, t) ∈ d.
Proof.
  induction d as [|[k' t'] d IH]; cbn; [set_solver|]. intros [Hk Hnd]%NoDup_cons. rewrite elem_of_cons.
  case_decide as Hd; subst.
  - split; [intros [= ->]; by left|]. intros [[= ->]|Hin]; [done|]. exfalso. apply Hk, list_elem_of_fmap. by exists (k, t).
  - rewrite (IH Hnd). naive_solver.
Qed.

Lemma d_get_set k t d k' : d_get k' (d_set k t d) = if decide (k = k') then Some t else d_get k' d.
Proof.
  induction d as [|[k1 t1] d IH]; cbn; [done|]. destruct (decide (k1 = k)) as [->|Hne]; cbn; repeat case_decide; congruence.
Qed.

Lemma d_get_del k d k' : d_get k' (d_del k d) = if decide (k = k') then None else d_get k' d.
Proof.
  unfold d_del. induction d as [|[k1 t1] d IH]; cbn -[filter]; [by case_decide|]. rewrite filter_cons. cbn [fst].
  destruct (decide (k1 ≠ k)) as [Hne|Heq%dec_stable]; cbn; rewrite IH; repeat case_decide; congruence.
Qed.

Lemma d_set_keys k t d : NoDup d.*1 → NoDup (d_set k t d).*1 ∧ ∀ x, x ∈ (d_set k t d).*1 ↔ x = k ∨ x ∈ d.*1.
Proof.
  induction d as [|[k1 t1] d IH]; cbn; [intros _; split; [apply NoDup_singleton|set_solver]|].
  intros [Hk Hnd]%NoDup_cons. destruct (IH Hnd) as [IH1 IH2]. case_decide; subst; cbn.
  - split; [by apply NoDup_cons|]. intros x. rewrite !elem_of_cons. tauto.
  - split; [apply NoDup_cons; split; [rewrite IH2; by intros [?|?]|done]|]. intros x. rewrite !elem_of_cons, IH2. tauto.
Qed.

Lemma d_del_keys k d : NoDup d.*1 → NoDup (d_del k d).*1.
Proof. intros Hnd. eapply sublist_NoDup; [exact Hnd|]. apply fmap_sublist, sublist_filter. Qed.

Lemma d_set_nonempty k t d : d_set k t d ≠ [].
Proof. destruct d as [|[k' t'] d]; cbn; [done|]. by case_decide. Qed.

(** ** Trees with keys of one length *)

(** The items of a node over keys of length [S m]. *)
Fixpoint wf (m : nat) d : Prop :=
  NoDup d.*1 ∧
  ∀ k t, (k, t) ∈ d →
    match m with
    | O => ∃ v, t = Leaf v
    | S m => ∃ sub, t = TreeCacheNode sub ∧ sub ≠ [] ∧ wf m sub
    end.

(** A tree over keys of length [n]. *)
Definition wf_tree (n : nat) (t : Tree A V) : Prop :=
  match n with
  | O => ∃ v, t = Leaf v
  | S m => ∃ sub, t = TreeCacheNode sub ∧ sub ≠ [] ∧ wf m sub
  end.

Lemma wf_iff m d : wf m d ↔ NoDup d.*1 ∧ ∀ k t, d_get k d = Some t → wf_tree m t.
Proof.
  destruct m; cbn; split; intros [Hnd Ht]; (split; [done|]); intros k t Hk; apply (Ht k t), (d_get_elem k t d Hnd), Hk.
Qed.

#[local] Opaque wf.

Lemma wf_nil m : wf m [].
Proof. apply wf_iff. split; [apply NoDup_nil_2|done]. Qed.

Lemma wf_set m k t d : wf m d → wf_tree m t → wf m (d_set k t d).
Proof.
  rewrite !wf_iff. intros [Hnd Hd] Ht. split; [by apply d_set_keys|]. intros k' t'. rewrite d_get_set.
  case_decide; [by intros [= <-]|apply Hd].
Qed.

Lemma wf_del m k d : wf m d → wf m (d_del k d).
Proof.
  rewrite !wf_iff. intros [Hnd Hd]. split; [by apply d_del_keys|]. intros k' t'. rewrite d_get_del.
  case_decide; [done|apply Hd].
Qed.

(** The value under a key. *)
Fixpoint at_key (p : list A) (t : Tree A V) : option V :=
  match p, t with
  | [], Leaf v => Some v
  | k :: p, TreeCacheNode d => d_get k d ≫= at_key p
  | _, _ => None
  end.

Lemma items_at n t :
  wf_tree n t →
  (∀ p v, (p, v) ∈ tree_items t ↔ at_key p t = Some v) ∧ NoDup (tree_items t).*1 ∧
  (∀ p v, at_key p t = Some v → length p = n) ∧ iterate_tree_cache_entry t = (tree_items t).*2.
Proof.
  revert t. induction n as [|n IH]; intros t; cbn.
  { intros [v ->]. cbn. split_and!; [|apply NoDup_singleton| |done].
    - intros p w. rewrite list_elem_of_singleton. destruct p; naive_solver.
    - intros p w. by destruct p. }
  intros (d & -> & _ & [Hnd Hd]%wf_iff). cbn.
  assert (∀ k t, (k, t) ∈ d → wf_tree n t) as Hsub by (intros k t Hk; by apply (Hd k), d_get_elem).
  split_and!.
  - intros p v. rewrite list_elem_of_bind. split.
    + intros ([k t] & ([q w] & [= -> ->] & Hq)%list_elem_of_fmap & Hk). cbn in *.
      rewrite (proj2 (d_get_elem k t d Hnd) Hk). by apply (IH t (Hsub k t Hk)).
    + destruct p as [|k p]; [done|]. cbn [at_key]. destruct (d_get k d) as [t|] eqn:Ek; [|done]. cbn. intros Hv.
      apply d_get_elem in Ek; [|done]. exists (k, t). split; [|done]. apply list_elem_of_fmap. exists (p, v). split; [done|].
      by apply (IH t (Hsub k t Ek)).
  - clear Hd. induction d as [|[k t] d IHd]; [apply NoDup_nil_2|]. cbn. apply NoDup_cons in Hnd as [Hk Hnd].
    rewrite fmap_app. apply NoDup_app. split_and!.
    + rewrite <-list_fmap_compose. destruct (IH t) as (_ & Hn & _); [apply (Hsub k); left|].
      apply (NoDup_fmap_2 (cons k)) in Hn. by rewrite <-list_fmap_compose in Hn.
    + intros p (x & -> & Hx)%list_elem_of_fmap ([p' w] & Heq & Hy)%list_elem_of_fmap.
      apply list_elem_of_fmap in Hx as ([q v] & -> & _). cbn in Heq. subst p'.
      apply list_elem_of_bind in Hy as ([k' t'] & ([q' v'] & [= <- _ _]%eq_sym & _)%list_elem_of_fmap & Hin).
      apply Hk, list_elem_of_fmap. by exists (k', t').
    + apply IHd; [done|]. intros k' t' Hin. apply (Hsub k'). by right.
  - intros p v. destruct p as [|k p]; [done|]. cbn [at_key]. destruct (d_get k d) as [t|] eqn:Ek; [|done]. cbn. intros Hv. f_equal.
    eapply (IH t); [by apply (Hd k)|done].
  - clear Hd Hnd. induction d as [|[k t] d IHd]; [done|]. cbn. rewrite fmap_app, <-list_fmap_compose. f_equal.
    + destruct (IH t) as (_ & _ & _ & ->); [apply (Hsub k); left|]. done.
    + apply IHd. intros k' t' Hin. apply (Hsub k'). by right.
Qed.

(** ** The operations *)

Lemma at_cons k p d : at_key (k :: p) (TreeCacheNode d) = d_get k d ≫= at_key p.
Proof. done. Qed.

Lemma tree_set_spec m key v d :
  wf m d → length key = S m →
  ∃ d', tree_set key v d = Ok d' ∧ wf m d' ∧ d' ≠ [] ∧
    ∀ p, at_key p (TreeCacheNode d') = if decide (p = key) then Some v else at_key p (TreeCacheNode d).
Proof.
  revert key d. induction m as [|m IH]; intros key d Hwf Hlen.
  - destruct key as [|k [|k1 key]]; try done. cbn. eexists. split_and!; [done| |apply d_set_nonempty|].
    + apply wf_set; [done|]. by exists v.
    + intros [|k' p]; [by rewrite decide_False|]. rewrite !at_cons, d_get_set.
      destruct (decide (k = k')) as [<-|Hne]; cbn; [|by rewrite decide_False by congruence].
      destruct p as [|x p]; cbn; [by rewrite decide_True|]. rewrite decide_False by congruence.
      destruct (d_get k d) as [t|] eqn:Ek; [|done]. apply wf_iff in Hwf as [_ Hd]. by destruct (Hd k t Ek) as [w ->].
  - destruct key as [|k [|k1 key]]; try done. set (key' := k1 :: key) in *.
    assert (∃ sub sub', default (TreeCacheNode []) (d_get k d) = TreeCacheNode sub ∧ tree_set key' v sub = Ok sub' ∧
      tree_set (k :: key') v d = Ok (d_set k (TreeCacheNode sub') d) ∧ wf m sub' ∧ sub' ≠ [] ∧
      ∀ p, at_key p (TreeCacheNode sub') = if decide (p = key') then Some v else at_key p (TreeCacheNode sub))
      as (sub & sub' & Hsub & Hset & Heq & Hwf' & Hne & Hat).
    { destruct (d_get k d) as [t|] eqn:Ek.
      - apply wf_iff in Hwf as [_ Hd]. destruct (Hd k t Ek) as (sub & -> & _ & Hs).
        destruct (IH key' sub Hs) as (sub' & Hset & ?); [cbn in *; lia|]. exists sub, sub'. cbn [tree_set].
        unfold key' at 2. fold key'. rewrite Ek, Hset. done.
      - destruct (IH key' []) as (sub' & Hset & ?); [apply wf_nil|cbn in *; lia|].
        exists [], sub'. cbn [tree_set]. unfold key' at 2. fold key'. rewrite Ek, Hset. done. }
    exists (d_set k (TreeCacheNode sub') d). split_and!; [done| |apply d_set_nonempty|].
    + apply wf_set; [done|]. by exists sub'.
    + intros [|k' p]; [by rewrite decide_False|]. rewrite !at_cons, d_get_set.
      destruct (decide (k = k')) as [<-|Hk]; [|by rewrite decide_False by congruence]. cbn [mbind option_bind]. rewrite Hat.
      destruct (decide (p = key')) as [->|Hp]; [by rewrite decide_True|]. rewrite decide_False by congruence.
      destruct (d_get k d) as [t|]; cbn in *; [by subst t|]. injection Hsub as <-. by destruct p.
Qed.

Lemma tree_get_spec m p d :
  wf m d → p ≠ [] → (length p ≤ S m)%nat →
  ∃ o, tree_get p d = Ok o ∧ (∀ t, o = Some t → wf_tree (S m - length p) t) ∧
    ∀ q, at_key (p ++ q) (TreeCacheNode d) = o ≫= at_key q.
Proof.
  revert p d. induction m as [|m IH]; intros p d Hwf Hne Hlen; (destruct p as [|k p]; [done|]); apply wf_iff in Hwf as [_ Hd].
  - destruct p as [|k1 p]; [|cbn in Hlen; lia]. exists (d_get k d). split_and!; [done|by apply Hd|done].
  - destruct p as [|k1 p].
    { exists (d_get k d). split_and!; [done| |done]. intros t Ht. by apply (Hd k). }
    set (p' := k1 :: p) in *. assert (tree_get (k :: p') d = match d_get k d with
      | None => Ok None | Some (TreeCacheNode sub) => tree_get p' sub | Some (Leaf _) => Raise (AttributeError "get") end) as -> by done.
    destruct (d_get k d) as [t|] eqn:Ek.
    + destruct (Hd k t Ek) as (sub & -> & _ & Hs). destruct (IH p' sub Hs) as (o & Ho & Hwo & Hat); [done|cbn in *; lia|].
      exists o. split_and!; [done|done|]. intros q. cbn [app]. by rewrite at_cons, Ek, <-Hat.
    + exists None. split_and!; try done. intros q. cbn [app]. by rewrite at_cons, Ek.
Qed.

(** Keys that begin with [p]. *)
Lemma tree_pop_spec m p d :
  wf m d → p ≠ [] → (length p ≤ S m)%nat →
  (tree_pop p d = Ok None ∧ ∀ q, at_key (p ++ q) (TreeCacheNode d) = None) ∨
  ∃ t d', tree_pop p d = Ok (Some (t, d')) ∧ wf m d' ∧ wf_tree (S m - length p) t ∧
    (∀ q, at_key (p ++ q) (TreeCacheNode d) = at_key q t) ∧
    ∀ q, at_key q (TreeCacheNode d') = if decide (p `prefix_of` q) then None else at_key q (TreeCacheNode d).
Proof.
  assert (∀ k d t, d_get k d = Some t → ∀ q,
    at_key q (TreeCacheNode (d_del k d)) = if decide ([k] `prefix_of` q) then None else at_key q (TreeCacheNode d)) as Hlast.
  { intros k d0 t Ek [|k' q]; [by case_decide|]. rewrite !at_cons, d_get_del. destruct (decide (k = k')) as [->|Hk].
    - rewrite decide_True; [done|]. by exists q.
    - rewrite decide_False; [done|]. by intros [? [= -> _]]. }
  revert p d. induction m as [|m IH]; intros p d Hwf Hne Hlen; (destruct p as [|k p]; [done|]); pose proof Hwf as [Hnd Hd]%wf_iff.
  - destruct p as [|k1 p]; [|cbn in Hlen; lia]. cbn [tree_pop]. destruct (d_get k d) as [t|] eqn:Ek.
    + right. exists t, (d_del k d). split_and!; [done|by apply wf_del|by apply (Hd k)|intros q; cbn [app]; by rewrite at_cons, Ek|by eapply Hlast].
    + left. split; [done|]. intros q. cbn [app]. by rewrite at_cons, Ek.
  - destruct p as [|k1 p].
    { cbn [tree_pop]. destruct (d_get k d) as [t|] eqn:Ek.
      + right. exists t, (d_del k d). split_and!; [done|by apply wf_del| |intros q; cbn [app]; by rewrite at_cons, Ek|by eapply Hlast].
        by apply (Hd k).
      + left. split; [done|]. intros q. cbn [app]. by rewrite at_cons, Ek. }
    set (p' := k1 :: p) in *. assert (tree_pop (k :: p') d = match d_get k d with
      | None => Ok None | Some (Leaf _) => Raise ValueError
      | Some (TreeCacheNode sub) => r ← tree_pop p' sub;
          Ok match r with None => None | Some (t, []) => Some (t, d_del k d) | Some (t, sub) => Some (t, d_set k (TreeCacheNode sub) d) end
      end) as -> by done.
    destruct (d_get k d) as [t|] eqn:Ek.
    2:{ left. split; [done|]. intros q. cbn [app]. by rewrite at_cons, Ek. }
    destruct (Hd k t Ek) as (sub & -> & Hsne & Hs).
    destruct (IH p' sub Hs) as [[-> Hat]|(t & sub' & -> & Hws & Hwt & Hat & Hrest)]; [done|cbn in *; lia|..].
    { left. split; [done|]. intros q. cbn [app]. by rewrite at_cons, Ek, <-(Hat q). }
    right. cbn [mbind res_bind]. set (d' := match sub' with [] => d_del k d | _ => d_set k (TreeCacheNode sub') d end).
    exists t, d'. split_and!.
    + unfold d'. by destruct sub'.
    + unfold d'. destruct sub' as [|x sub1] eqn:Es; [by apply wf_del|]. apply wf_set; [done|]. by exists (x :: sub1).
    + done.
    + intros q. cbn [app]. by rewrite at_cons, Ek, <-(Hat q).
    + assert (∀ x q, at_key (x :: q) (TreeCacheNode d') = if decide (x = k) then at_key q (TreeCacheNode sub') else at_key (x :: q) (TreeCacheNode d)) as Hd'.
      { intros x q. rewrite !at_cons. unfold d'. destruct sub' as [|y sub1] eqn:Es.
        - rewrite d_get_del. repeat case_decide; subst; try done. by destruct q.
        - rewrite d_get_set. repeat case_decide; subst; done. }
      intros [|x q]; [rewrite decide_False by (by intros [? [=]]); done|]. rewrite Hd', Hrest.
      destruct (decide (x = k)) as [->|Hx].
      * rewrite at_cons, Ek. cbn [mbind option_bind]. assert (k :: p' `prefix_of` k :: q ↔ p' `prefix_of` q) as Hpre.
        { split; [apply prefix_cons_inv_2|apply prefix_cons]. }
        destruct (decide (p' `prefix_of` q)), (decide (k :: p' `prefix_of` k :: q)); tauto || done.
      * rewrite decide_False; [done|]. intros [? [= <- _]]. done.
Qed.
End Tree.

(** ** The laws *)

Section Laws.
Context {A : Type} `{Countable A} {V : Type} (m : nat).
Implicit Types d : list (A * Tree A V).

Lemma items_root d :
  wf m d →
  (∀ p v, (p, v) ∈ tree_items (TreeCacheNode d) ↔ at_key p (TreeCacheNode d) = Some v) ∧
  NoDup (tree_items (TreeCacheNode d)).*1 ∧
  (∀ p v, at_key p (TreeCacheNode d) = Some v → length p = S m) ∧
  iterate_tree_cache_entry (TreeCacheNode d) = (tree_items (TreeCacheNode d)).*2.
Proof.
  intros Hwf. destruct d as [|x d]; [|apply (items_at (S m)); by eexists].
  split_and!; [|apply NoDup_nil_2| |done]; intros [|k p] v; cbn; set_solver.
Qed.

(** All keys have length [S m]; the size counts [x] entries too many. *)
Definition tc_valid (x : Z) (c : TreeCache A V) : Prop :=
  wf m (root c) ∧ TreeCache.size c = Z.of_nat (length (tree_items (TreeCacheNode (root c)))) + x.
Definition tc_entries (c : TreeCache A V) : gmap (list A) V := list_to_map (tree_items (TreeCacheNode (root c))).

Lemma tc_entries_at x c p : tc_valid x c → tc_entries c !! p = at_key p (TreeCacheNode (root c)).
Proof.
  intros [Hwf _]. destruct (items_root _ Hwf) as (Hin & Hnd & _). apply option_eq. intros v.
  unfold tc_entries. by rewrite <-elem_of_list_to_map, Hin.
Qed.

Lemma tc_entries_size x c : tc_valid x c → TreeCache.size c = Z.of_nat (base.size (tc_entries c)) + x.
Proof.
  intros [Hwf Hsize]. destruct (items_root _ Hwf) as (_ & Hnd & _). rewrite Hsize. unfold tc_entries.
  by rewrite <-length_map_to_list, map_to_list_to_map.
Qed.

(** A key that is set again is counted again. *)
Definition again (k : list A) (c : TreeCache A V) : Z := if tc_entries c !! k is Some _ then 1 else 0.

Lemma tc_set_any x c k v :
  tc_valid x c → length k = S m →
  ∃ c', tc_set k v c = Ok c' ∧ tc_valid (x + again k c) c' ∧ tc_entries c' = <[k := v]> (tc_entries c).
Proof.
  intros Hv Hk. destruct (Hv) as [Hwf _]. destruct (tree_set_spec m k v _ Hwf Hk) as (d & Hset & Hwf' & _ & Hat).
  exists (mkTreeCache (TreeCache.size c + 1) d). unfold tc_set. rewrite Hset. split; [done|].
  assert (tc_entries (mkTreeCache (TreeCache.size c + 1) d) = <[k := v]> (tc_entries c)) as Heq.
  { apply map_eq. intros p. unfold tc_entries at 1. cbn [root]. destruct (items_root _ Hwf') as (Hin & Hnd & _).
    apply option_eq. intros w. rewrite <-elem_of_list_to_map, Hin, Hat by done.
    destruct (decide (p = k)) as [->|Hp]; [by rewrite lookup_insert_eq|]. by rewrite lookup_insert_ne, (tc_entries_at x). }
  split; [|done]. split; [done|]. cbn [TreeCache.size root]. rewrite (tc_entries_size x c Hv).
  destruct (items_root _ Hwf') as (_ & Hnd & _).
  assert (length (tree_items (TreeCacheNode d)) = base.size (<[k := v]> (tc_entries c))) as ->.
  { rewrite <-Heq. unfold tc_entries. cbn [root]. by rewrite <-length_map_to_list, map_to_list_to_map. }
  unfold again. rewrite map_size_insert. destruct (tc_entries c !! k); cbn; lia.
Qed.

Lemma tc_set_law c k v :
  tc_valid 0 c → length k = S m → tc_entries c !! k = None →
  ∃ c', tc_set k v c = Ok c' ∧ tc_valid 0 c' ∧ tc_entries c' = <[k := v]> (tc_entries c).
Proof.
  intros Hv Hk Hnone. destruct (tc_set_any 0 c k v Hv Hk) as (c' & H1 & H2 & H3).
  unfold again in H2. rewrite Hnone in H2. eauto.
Qed.

Lemma tc_remove_law x c p :
  tc_valid x c → p ≠ [] ∧ (length p ≤ S m)%nat →
  ∃ l c', tc_remove p c = Ok (l, c') ∧ tc_valid x c' ∧
    tc_entries c' = filter (λ kn, ¬ p `prefix_of` kn.1) (tc_entries c) ∧
    l ≡ₚ (map_to_list (filter (λ kn, p `prefix_of` kn.1) (tc_entries c))).*2.
Proof.
  intros Hv [Hne Hlen]. destruct (Hv) as [Hwf Hsize]. unfold tc_remove, tc_pop.
  destruct (tree_pop_spec m p _ Hwf Hne Hlen) as [[-> Hat]|(t & d & -> & Hwf' & Hwt & Hat & Hrest)].
  - exists [], c. assert (∀ k v, tc_entries c !! k = Some v → ¬ p `prefix_of` k) as Hno.
    { intros k v Hk [q ->]. rewrite (tc_entries_at x) in Hk by done. by rewrite Hat in Hk. }
    split_and!; [done|apply Hv..| |].
    + symmetry. apply map_filter_id. intros k v Hk. by eapply Hno.
    + assert (filter (λ kn, p `prefix_of` kn.1) (tc_entries c) = ∅) as ->; [|by rewrite map_to_list_empty].
      apply map_empty. intros k. apply map_lookup_filter_None. right. intros v Hk. by eapply Hno.
  - destruct (items_at _ _ Hwt) as (Hint & Hndt & _ & Hent).
    destruct (items_root _ Hwf) as (Hin & Hnd & _). destruct (items_root _ Hwf') as (Hin' & Hnd' & _).
    eexists _, _. split; [done|]. cbn [fst snd]. set (c' := mkTreeCache _ d).
    assert (tree_items (TreeCacheNode (root c)) ≡ₚ iterate_tree_cache_items p t ++ tree_items (TreeCacheNode d)) as Hperm.
    { unfold iterate_tree_cache_items. apply NoDup_Permutation.
      - by apply (NoDup_fmap_1 fst).
      - apply (NoDup_fmap_1 fst). rewrite fmap_app, <-list_fmap_compose. apply NoDup_app. split_and!; [| |done].
        + apply (NoDup_fmap_2 (app p)) in Hndt. by rewrite <-list_fmap_compose in Hndt.
        + intros q ([q1 v1] & -> & _)%list_elem_of_fmap ([q2 v2] & Heq & Hq)%list_elem_of_fmap. cbn in Heq. subst q2.
          apply Hin' in Hq. rewrite Hrest, decide_True in Hq; [done|]. by exists q1.
      - intros [q v]. rewrite elem_of_app, Hin, Hin', Hrest, list_elem_of_fmap. split.
        + intros Hq. destruct (decide (p `prefix_of` q)) as [[q1 ->]|Hp]; [|by right]. left. exists (q1, v). split; [done|].
          apply Hint. by rewrite <-Hat.
        + intros [([q1 v1] & [= -> ->] & Hq%Hint)|Hq]; [by rewrite Hat|]. by case_decide. }
    assert (tc_valid x c') as Hv'.
    { split; [done|]. cbn. rewrite Hsize, Hperm, length_app. unfold iterate_tree_cache_items. rewrite Hent, !length_fmap. cbn. lia. }
    split; [done|]. split.
    + apply map_eq. intros k. rewrite (tc_entries_at x) by done. cbn [root c']. rewrite Hrest. symmetry.
      destruct (decide (p `prefix_of` k)).
      * apply map_lookup_filter_None. right. naive_solver.
      * rewrite <-(tc_entries_at x c k) by done. destruct (tc_entries c !! k) eqn:Ek; [by apply map_lookup_filter_Some|].
        apply map_lookup_filter_None. by left.
    + rewrite Hent. assert ((iterate_tree_cache_items p t).*2 = (tree_items t).*2) as <-.
      { unfold iterate_tree_cache_items. by rewrite <-list_fmap_compose. }
      apply (fmap_Permutation snd), NoDup_Permutation.
      * apply (NoDup_fmap_1 fst). rewrite Hperm, fmap_app in Hnd. by apply NoDup_app in Hnd as (? & _).
      * apply NoDup_map_to_list.
      * intros [q v]. rewrite elem_of_map_to_list, map_lookup_filter_Some, (tc_entries_at x), <-Hin by done.
        rewrite Hperm, elem_of_app. cbn [fst]. unfold iterate_tree_cache_items. split.
        -- intros Hq. split; [by left|]. apply list_elem_of_fmap in Hq as ([q1 v1] & [= -> ->] & _). by exists q1.
        -- intros [[Hq|Hq] Hp]; [done|]. apply Hin' in Hq. by rewrite Hrest, decide_True in Hq.
Qed.

Lemma tc_get_law x c p :
  tc_valid x c → p ≠ [] ∧ (length p ≤ S m)%nat →
  ∃ o, tc_get p c = Ok o ∧
    (∀ t, o = Some t → wf_tree (S m - length p) t) ∧ ∀ q, tc_entries c !! (p ++ q) = o ≫= at_key q.
Proof.
  intros Hv [Hne Hlen]. destruct (tree_get_spec m p _ (proj1 Hv) Hne Hlen) as (o & Ho & Hw & Hat). exists o.
  split_and!; [done..|]. intros q. by rewrite (tc_entries_at x).
Qed.

(** A whole key. *)
Lemma tc_get_full x c k :
  tc_valid x c → length k = S m → tc_get k c = Ok (Leaf <$> tc_entries c !! k).
Proof.
  intros Hv Hk. destruct (tc_get_law x c k Hv) as (o & -> & Hw & Hat); [split; [by intros ->|lia]|].
  specialize (Hat []). rewrite app_nil_r in Hat. rewrite Hat, Hk, Nat.sub_diag in *. destruct o as [t|]; [|done].
  by destruct (Hw t eq_refl) as [v ->].
Qed.

End Laws.

(** For keys of length [S m]. *)
Definition tree_cache_laws A `{Countable A} N (m : nat) : CacheLaws (tree_cache_type A N).
Proof.
  refine (@Build_CacheLaws (list A) N _ _ (tree_cache_type A N)
    (λ k, length k = S m) (λ p, p ≠ [] ∧ (length p ≤ S m)%nat) prefix _ (tc_valid m 0) tc_entries
    _ _ _ _ _ _ _ _ _ _).
  - intros k Hk. split; [by intros ->|lia].
  - intros k k' Hk Hk'. split; [|by intros ->]. intros Hp. apply prefix_length_eq; [done|lia].
  - intros t k n Hv Hk. rewrite (tc_entries_at m 0) in Hk by done. by apply (items_root m _ (proj1 Hv)) in Hk.
  - split; [|done]. split; [apply wf_nil|done].
  - intros t k Hv Hk. change (tc_lookup k t = Ok (tc_entries t !! k)). unfold tc_lookup.
    rewrite (tc_get_full m 0) by done. by destruct (tc_entries t !! k).
  - intros t k Hv Hk. change (tc_contains k t = Ok (bool_decide (is_Some (tc_entries t !! k)))). unfold tc_contains.
    rewrite (tc_get_full m 0) by done. by destruct (tc_entries t !! k).
  - intros t k n. apply tc_set_law.
  - intros t p. apply tc_remove_law.
  - intros t Hv. rewrite <-(Z.add_0_r (Z.of_nat _)). by apply (tc_entries_size m 0).
  - intros t [Hwf _]. change (tc_values t ≡ₚ (map_to_list (tc_entries t)).*2). unfold tc_values, tc_entries. destruct (items_root m _ Hwf) as (_ & Hnd & _ & ->).
    by rewrite map_to_list_to_map.
Defined.

Definition dict_cache_laws K `{Countable K} N : CacheLaws (dict_cache_type K N).
Proof.
  refine (@Build_CacheLaws K N _ _ (dict_cache_type K N)
    (λ _, True) (λ _, True) eq _ (λ _, True) (λ c, c) _ _ _ _ _ _ _ _ _ _).
  - done.
  - done.
  - done.
  - done.
  - done.
  - done.
  - cbn. eauto.
  - intros t p _ _. change (gmap K N) in t. cbn. eexists _, _. split; [done|]. split; [done|]. split.
    + apply map_eq. intros k. destruct (decide (p = k)) as [->|Hk].
      * rewrite lookup_delete_eq. symmetry. apply map_lookup_filter_None. right. naive_solver.
      * rewrite lookup_delete_ne by done. symmetry. destruct (t !! k) eqn:Ek; [by apply map_lookup_filter_Some|].
        apply map_lookup_filter_None. by left.
    + destruct (t !! p) as [n|] eqn:Ep.
      * assert (filter (λ kn, p = kn.1) t = {[p := n]}) as ->; [|by rewrite map_to_list_singleton].
        apply map_eq. intros k. apply option_eq. intros v. rewrite map_lookup_filter_Some, lookup_singleton_Some. cbn.
        split; [intros [? <-]|intros [<- <-]]; naive_solver.
      * assert (filter (λ kn, p = kn.1) t = ∅) as ->; [|by rewrite map_to_list_empty].
        apply map_empty. intros k. apply map_lookup_filter_None. right. intros v Hv. cbn. congruence.
  - done.
  - done.
Defined.

