(* ===== verification/DictionaryCache.v ===== *)
(** * [DictionaryCache] of [synapse/util/caches/dictionary_cache.py]

    A cache of dicts, whole or by some of their keys, over an [LruCache]. What it
    needs of the latter is an interface, [EntryCache], which the modelled
    [LruCache] over a tree is shown to have. The cache is right when a dict read
    from the database before a change is not kept after the change: the
    theorem is about all interleavings of reads, changes and invalidations. *)

From S2P Require Import Prelude LinkedList LruCache LruCacheProps TreeCache TreeCacheProps.
From stdpp Require Import relations.
#[local] Open Scope Z_scope.

(** A cached value: that of a key of the dict, [None] when the dict is known not
    to have it, or the dict. *)
Inductive dc_value (DKT DV : Type) `{Countable DKT} := PerKeyValue (v : option DV) | FullDict (d : gmap DKT DV).
Arguments PerKeyValue {_ _ _ _} v.
Arguments FullDict {_ _ _ _} d.

(** [size_callback=len] *)
Definition value_len {DKT DV} `{Countable DKT} (v : dc_value DKT DV) : Z :=
  match v with PerKeyValue _ => 1 | FullDict d => Z.of_nat (size d) end.

(** ** What it uses of [LruCache]

    A key is that of the dict with a key in it, [None] for the whole dict
    ([_FullCacheKey.KEY]). Entries may go at any time, but those that are there
    were set and not deleted since: whatever holds of all entries goes on to
    hold. *)
Class EntryCache (S KT DKT V : Type) := {
  ec_get : KT * option DKT → bool → S → res (option V * S);
  ec_set : KT * option DKT → V → S → res S;
  ec_del_multi : KT → S → res S;
  ec_clear : S → res S;
  (** All entries satisfy a predicate. *)
  ec_all : (KT * option DKT → V → Prop) → S → Prop;
  ec_get_law G k update s : ec_all G s →
    ∃ o s', ec_get k update s = Ok (o, s') ∧ ec_all G s' ∧ ∀ v, o = Some v → G k v;
  ec_set_law (G : KT * option DKT → V → Prop) k v s : ec_all G s → G k v → ∃ s', ec_set k v s = Ok s' ∧ ec_all G s';
  ec_del_multi_law G k s : ec_all G s → ∃ s', ec_del_multi k s = Ok s' ∧ ec_all (λ k' v, G k' v ∧ k'.1 ≠ k) s';
  ec_clear_law G s : ec_all G s → ∃ s', ec_clear s = Ok s' ∧ ec_all (λ _ _, False) s';
  ec_all_mono (G G' : KT * option DKT → V → Prop) s : (∀ k v, G k v → G' k v) → ec_all G s → ec_all G' s
}.

Section cache.
Context {S KT DKT DV : Type} `{Countable KT} `{Countable DKT} {EC : EntryCache S KT DKT (dc_value DKT DV)}.

Record DictionaryEntry := mkDictEntry { de_full : bool; known_absent : gset DKT; de_value : gmap DKT DV }.

Record DictionaryCache := mkDictCache { dc_cache : S; sequence : Z; dc_thread : option nat }.

(** [__init__], with the [LruCache] it makes. *)
Definition dc_init (cache : S) : DictionaryCache := mkDictCache cache 0 None.

Definition with_entries (s : S) (c : DictionaryCache) : DictionaryCache := mkDictCache s (sequence c) (dc_thread c).

(** [me] is the current thread. *)
Definition check_thread (me : nat) (c : DictionaryCache) : res DictionaryCache :=
  match dc_thread c with
  | None => Ok (mkDictCache (dc_cache c) (sequence c) (Some me))
  | Some expected_thread => if Nat.eqb expected_thread me then Ok c else Raise ValueError
  end.

Definition _get_full_dict (key : KT) (c : DictionaryCache) : res (DictionaryEntry * DictionaryCache) :=
  '(entry, s) ← ec_get (key, None) true (dc_cache c);
  match entry with
  | Some (FullDict d) => Ok (mkDictEntry true ∅ d, with_entries s c)
  | Some (PerKeyValue _) => Raise AssertionError
  | None => Ok (mkDictEntry false ∅ ∅, with_entries s c)
  end.

(** The locals of [get], with the cache. *)
Record dc_search := mkSearch { ds_values : gmap DKT DV; ds_absent : gset DKT; ds_missing : list DKT; ds_cache : S }.

Definition find_dict_key (key : KT) (st : dc_search) (dict_key : DKT) : res dc_search :=
  '(entry, s) ← ec_get (key, Some dict_key) true (ds_cache st);
  match entry with
  | None => Ok (mkSearch (ds_values st) (ds_absent st) (ds_missing st ++ [dict_key]) s)
  | Some (PerKeyValue None) => Ok (mkSearch (ds_values st) ({[dict_key]} ∪ ds_absent st) (ds_missing st) s)
  | Some (PerKeyValue (Some v)) => Ok (mkSearch (<[dict_key := v]> (ds_values st)) (ds_absent st) (ds_missing st) s)
  | Some (FullDict _) => Raise AssertionError
  end.

(** A missing key, from the whole dict. *)
Definition add_dict_key (key : KT) (entry : gmap DKT DV) (st : gmap DKT DV * S) (dict_key : DKT) : res (gmap DKT DV * S) :=
  s ← ec_set (key, Some dict_key) (PerKeyValue (entry !! dict_key)) st.2;
  Ok (match entry !! dict_key with Some v => <[dict_key := v]> st.1 | None => st.1 end, s).

Definition dc_get (key : KT) (dict_keys : option (list DKT)) (c : DictionaryCache) : res (DictionaryEntry * DictionaryCache) :=
  match dict_keys with
  | None => _get_full_dict key c
  | Some dict_keys =>
      st ← foldM (find_dict_key key) (mkSearch ∅ ∅ [] (dc_cache c)) dict_keys;
      match ds_missing st with
      | [] => Ok (mkDictEntry false (ds_absent st) (ds_values st), with_entries (ds_cache st) c)
      | missing =>
          '(entry, s) ← ec_get (key, None) false (ds_cache st);
          match entry with
          | None => Ok (mkDictEntry false (ds_absent st) (ds_values st), with_entries s c)
          | Some (PerKeyValue _) => Raise AssertionError
          | Some (FullDict d) =>
              '(values, s) ← foldM (add_dict_key key d) (ds_values st, s) missing;
              Ok (mkDictEntry true ∅ values, with_entries s c)
          end
      end
  end.

Definition dc_invalidate (me : nat) (key : KT) (c : DictionaryCache) : res DictionaryCache :=
  c ← check_thread me c;
  s ← ec_del_multi key (dc_cache c);
  Ok (mkDictCache s (sequence c + 1) (dc_thread c)).

Definition dc_invalidate_all (me : nat) (c : DictionaryCache) : res DictionaryCache :=
  c ← check_thread me c;
  s ← ec_clear (dc_cache c);
  Ok (mkDictCache s (sequence c + 1) (dc_thread c)).

Definition _update_subset (key : KT) (value : gmap DKT DV) (fetched_keys : list DKT) (s : S) : res S :=
  s ← foldM (λ s kv, ec_set (key, Some kv.1) (PerKeyValue (Some kv.2)) s) s (map_to_list value);
  foldM (λ s dict_key, if decide (is_Some (value !! dict_key)) then Ok s else ec_set (key, Some dict_key) (PerKeyValue None) s)
    s fetched_keys.

Definition dc_update (me : nat) (seq : Z) (key : KT) (value : gmap DKT DV) (fetched_keys : option (list DKT))
    (c : DictionaryCache) : res DictionaryCache :=
  c ← check_thread me c;
  if sequence c =? seq then
    s ← match fetched_keys with
        | None => ec_set (key, None) (FullDict value) (dc_cache c)
        | Some fetched_keys => _update_subset key value fetched_keys (dc_cache c)
        end;
    Ok (with_entries s c)
  else Ok c.

(** ** Single operations *)

(** An entry agrees with the dicts [db]. *)
Definition dict_entry_ok (db : KT → gmap DKT DV) (k : KT * option DKT) (v : dc_value DKT DV) : Prop :=
  match k.2, v with
  | Some dict_key, PerKeyValue o => db k.1 !! dict_key = o
  | None, FullDict d => db k.1 = d
  | _, _ => False
  end.

(** An answer of [get] agrees with the dict. *)
Definition answer_ok (d : gmap DKT DV) (dict_keys : option (list DKT)) (e : DictionaryEntry) : Prop :=
  de_value e ⊆ d ∧ (∀ k, k ∈ known_absent e → d !! k = None) ∧
  match dict_keys with
  | None => if de_full e then de_value e = d else de_value e = ∅
  | Some l => dom (de_value e) ⊆ list_to_set l ∧ (de_full e = true → ∀ k, k ∈ l → de_value e !! k = d !! k)
  end.

(** Entries are of the type of their keys, and those of keys that are not stale agree. *)
Definition good_entry (stale : KT → Prop) (db : KT → gmap DKT DV) (k : KT * option DKT) (v : dc_value DKT DV) : Prop :=
  match k.2, v with Some _, PerKeyValue _ | None, FullDict _ => True | _, _ => False end ∧ (¬ stale k.1 → dict_entry_ok db k v).

(** The search after the keys [seen]. *)
Record search_ok (stale : KT → Prop) (db : KT → gmap DKT DV) (key : KT) (seen : list DKT) (st : dc_search) : Prop := mkSearchOk {
  so_cache : ec_all (good_entry stale db) (ds_cache st);
  so_missing k : k ∈ ds_missing st → k ∈ seen;
  so_values k : is_Some (ds_values st !! k) → k ∈ seen;
  so_right k v : ¬ stale key → ds_values st !! k = Some v → db key !! k = Some v;
  so_absent k : ¬ stale key → k ∈ ds_absent st → db key !! k = None;
  so_all k : k ∈ seen → k ∈ ds_missing st ∨ is_Some (ds_values st !! k) ∨ k ∈ ds_absent st
}.

Lemma find_step stale db key seen st x : search_ok stale db key seen st →
  ∃ st', find_dict_key key st x = Ok st' ∧ search_ok stale db key (seen ++ [x]) st'.
Proof.
  intros [Hs Hm Hv Hr Ha Hall]. destruct (ec_get_law (good_entry stale db) (key, Some x) true (ds_cache st) Hs) as (o & s & E & Hs' & Ho).
  unfold find_dict_key. rewrite E. cbn [mbind res_bind].
  assert (∀ k, k ∈ seen ++ [x] ↔ k ∈ seen ∨ k = x) as Hin by (intros k; by rewrite elem_of_app, list_elem_of_singleton).
  destruct o as [[o|d]|]; [|by destruct (Ho _ eq_refl)|].
  - assert (¬ stale key → db key !! x = o) as Hx by (intros Hn; by apply (Ho _ eq_refl)).
    destruct o as [v|]; (eexists; split; [done|]); split; cbn; try setoid_rewrite Hin; auto.
    + intros k. rewrite lookup_insert_is_Some'. intros [<-|?]; auto.
    + intros k w Hn [[<- <-]|[_ ?]]%lookup_insert_Some; auto.
    + intros k. rewrite lookup_insert_is_Some'. intros [?| ->]; [|auto]. destruct (Hall k) as [?|[?|?]]; auto.
    + intros k Hn [->%elem_of_singleton|?]%elem_of_union; auto.
    + intros k. rewrite elem_of_union, elem_of_singleton. intros [?| ->]; [|auto]. destruct (Hall k) as [?|[?|?]]; auto.
  - eexists. split; [done|]. split; cbn; try setoid_rewrite Hin; auto.
    + intros k [?| ->%list_elem_of_singleton]%elem_of_app; auto.
    + intros k. rewrite elem_of_app, list_elem_of_singleton. intros [?| ->]; [|auto]. destruct (Hall k) as [?|[?|?]]; auto.
Qed.

Lemma dc_get_spec stale db key dict_keys c : ec_all (good_entry stale db) (dc_cache c) →
  ∃ e s, dc_get key dict_keys c = Ok (e, with_entries s c) ∧ ec_all (good_entry stale db) s ∧ (¬ stale key → answer_ok (db key) dict_keys e).
Proof.
  intros Hc. unfold dc_get. destruct dict_keys as [l|].
  - destruct (foldM_total_prefix (search_ok stale db key) (find_dict_key key) (mkSearch ∅ ∅ [] (dc_cache c)) l) as (st & -> & [Hs Hm Hv Hr Ha Hall]).
    2: { intros pre x _ s _. apply find_step. }
    { split; cbn; [done|done|..].
      - intros k. rewrite lookup_empty. by intros [? ?].
      - intros k v _. by rewrite lookup_empty.
      - intros k _ Hk. by apply elem_of_empty in Hk.
      - intros k Hk. by apply elem_of_nil in Hk. }
    cbn [mbind res_bind].
    assert (¬ stale key → answer_ok (db key) (Some l) (mkDictEntry false (ds_absent st) (ds_values st))) as Hpart.
    { intros Hn. split_and!; cbn; [apply map_subseteq_spec; eauto|eauto| |done].
      intros k Hk%elem_of_dom. rewrite elem_of_list_to_set. auto. }
    destruct (ds_missing st) as [|x missing] eqn:Em; [eauto 6|].
    destruct (ec_get_law (good_entry stale db) (key, None) false (ds_cache st) Hs) as (o & s & -> & Hs' & Ho). cbn [mbind res_bind].
    destruct o as [[o|d]|]; [by destruct (Ho _ eq_refl)| |eauto 6].
    destruct (foldM_total_prefix (λ pre (vs : gmap DKT DV * S), ec_all (good_entry stale db) vs.2 ∧
        (∀ k, is_Some (vs.1 !! k) → k ∈ l ∨ k ∈ pre) ∧
        (¬ stale key → (∀ k v, vs.1 !! k = Some v → db key !! k = Some v) ∧
           ∀ k, k ∈ pre ∨ is_Some (ds_values st !! k) → vs.1 !! k = db key !! k))
      (add_dict_key key d) (ds_values st, s) (x :: missing)) as ((values & s2) & -> & (H1 & H2 & H3)).
    2: { intros pre y _ [vs s1] _ (B1 & B2 & B3). unfold add_dict_key. cbn [fst snd] in *.
      assert (¬ stale key → db key = d) as Hd by (intros Hn; by apply (Ho _ eq_refl)).
      destruct (ec_set_law (good_entry stale db) (key, Some y) (PerKeyValue (d !! y)) s1 B1) as (s3 & -> & B1').
      { split; [done|]. intros Hn. cbn in Hn |- *. by rewrite (Hd Hn). }
      cbn [mbind res_bind]. eexists. split; [done|]. cbn [fst snd]. split; [done|]. split.
      - intros k. destruct (d !! y) eqn:Ey; [rewrite lookup_insert_is_Some'|]; set_solver.
      - intros Hn. destruct (B3 Hn) as [C1 C2]. rewrite (Hd Hn) in *. destruct (d !! y) as [v|] eqn:Ey.
        + split; [intros k w [[<- <-]|[_ ?]]%lookup_insert_Some; auto|]. intros k Hk. destruct (decide (k = y)) as [->|Hne].
          * by rewrite lookup_insert_eq.
          * rewrite lookup_insert_ne by done. apply C2. set_solver.
        + split; [done|]. intros k Hk. destruct (decide (k = y)) as [->|Hne]; [|apply C2; set_solver].
          rewrite Ey. apply eq_None_not_Some. intros [w Hw]. specialize (C1 y w Hw). congruence. }
    { cbn. split_and!; [done|intros k Hk; left; auto|]. intros Hn. split; [eauto|].
      intros k [?%elem_of_nil|[v Hk]]; [done|]. rewrite Hk. symmetry. eauto. }
    cbn [mbind res_bind fst snd] in *. eexists _, s2. split; [done|]. split; [done|]. intros Hn.
    destruct (H3 Hn) as [C1 C2]. split_and!; cbn.
    + by apply map_subseteq_spec.
    + by intros k ?%elem_of_empty.
    + intros k Hk%elem_of_dom. rewrite elem_of_list_to_set. destruct (H2 k Hk); [done|]. by apply Hm.
    + intros _ k Hk. destruct (Hall k Hk) as [?|[?|Habs]]; [apply C2; by left|apply C2; by right|].
      rewrite (Ha k Hn Habs). apply eq_None_not_Some. intros [v Hk']. specialize (C1 k v Hk'). rewrite (Ha k Hn Habs) in C1. done.
  - unfold _get_full_dict. destruct (ec_get_law (good_entry stale db) (key, None) true (dc_cache c) Hc) as (o & s & -> & Hs & Ho). cbn [mbind res_bind].
    destruct o as [[o|d]|]; [by destruct (Ho _ eq_refl)| |].
    + eexists _, s. split; [done|]. split; [done|]. intros Hn. assert (db key = d) as -> by (by apply (Ho _ eq_refl)).
      split_and!; cbn; [done|by intros k ?%elem_of_empty|done].
    + eexists _, s. split; [done|]. split; [done|]. intros Hn. split_and!; cbn; [apply map_empty_subseteq|by intros k ?%elem_of_empty|done].
Qed.

(** What a query for some keys of a dict finds. *)
Definition selected_keys (d : gmap DKT DV) (fetched_keys : option (list DKT)) : gmap DKT DV :=
  match fetched_keys with None => d | Some l => filter (λ kv, kv.1 ∈ l) d end.

Definition thread_ok (me : nat) (c : DictionaryCache) : Prop := dc_thread c = None ∨ dc_thread c = Some me.

Lemma check_thread_ok me c : thread_ok me c → check_thread me c = Ok (mkDictCache (dc_cache c) (sequence c) (Some me)).
Proof. destruct c as [s q t]. unfold check_thread, thread_ok. cbn. intros [-> | ->]; [done|]. by rewrite Nat.eqb_refl. Qed.

Lemma update_subset_spec stale db key value l s : ec_all (good_entry stale db) s → (¬ stale key → value = selected_keys (db key) (Some l)) →
  ∃ s', _update_subset key value l s = Ok s' ∧ ec_all (good_entry stale db) s'.
Proof.
  intros Hs Hv. unfold _update_subset.
  assert (∀ k, ¬ stale key → k ∈ l → value !! k = db key !! k) as Hin.
  { intros k Hn Hk. rewrite (Hv Hn). cbn. destruct (db key !! k) as [v|] eqn:Ek.
    - by apply map_lookup_filter_Some.
    - apply map_lookup_filter_None. by left. }
  destruct (foldM_total (ec_all (good_entry stale db)) (λ s (kv : DKT * DV), ec_set (key, Some kv.1) (PerKeyValue (Some kv.2)) s) s (map_to_list value))
    as (s1 & -> & H1); [done| |].
  { intros s' [k v] Hk Hs'. apply (ec_set_law (good_entry stale db)); [done|]. split; [done|]. cbn. intros Hn.
    apply elem_of_map_to_list in Hk. rewrite (Hv Hn) in Hk. by apply map_lookup_filter_Some in Hk as [? _]. }
  cbn [mbind res_bind]. apply foldM_total; [done|]. intros s' k Hk Hs'. case_decide as Hd; [eauto|].
  apply (ec_set_law (good_entry stale db)); [done|]. split; [done|]. cbn. intros Hn. rewrite <-(Hin k Hn Hk).
  by apply eq_None_not_Some.
Qed.

Lemma dc_update_spec stale db me seq key value fetched c : ec_all (good_entry stale db) (dc_cache c) → thread_ok me c →
  (sequence c = seq → ¬ stale key → value = selected_keys (db key) fetched) →
  ∃ s, dc_update me seq key value fetched c = Ok (mkDictCache s (sequence c) (Some me)) ∧ ec_all (good_entry stale db) s.
Proof.
  intros Hc Ht Hv. unfold dc_update. rewrite (check_thread_ok me c Ht). cbn [mbind res_bind sequence dc_cache].
  destruct (Z.eqb_spec (sequence c) seq) as [Hq|Hq]; [|eauto]. specialize (Hv Hq).
  assert (∃ s, match fetched with None => ec_set (key, None) (FullDict value) (dc_cache c)
    | Some fetched_keys => _update_subset key value fetched_keys (dc_cache c) end = Ok s ∧ ec_all (good_entry stale db) s) as (s & -> & Hs); [|eauto].
  destruct fetched as [l|]; [by apply update_subset_spec|]. apply (ec_set_law (good_entry stale db)); [done|]. split; [done|].
  cbn. intros Hn. by rewrite (Hv Hn).
Qed.

(** ** Reads, changes and invalidations *)

(** A read of the database: it takes the sequence number, runs its query, and
    puts the result in the cache. *)
Record dc_read := mkRead { rd_key : KT; rd_fetched : option (list DKT); rd_seq : Z; rd_value : option (gmap DKT DV) }.

(** [w_pending] are the keys of the changes whose invalidation is still to run. *)
Record world := mkWorld { w_db : KT → gmap DKT DV; w_cache : DictionaryCache; w_pending : list KT; w_reads : gmap nat dc_read }.

Inductive dc_action :=
  | DGet (key : KT) (dict_keys : option (list DKT))
  | DStart (i : nat) (key : KT) (fetched_keys : option (list DKT))
  | DSelect (i : nat)
  | DFinish (i : nat)
  | DChange (key : KT) (d : gmap DKT DV)
  | DInvalidate (i : nat)
  | DInvalidateAll.

Definition main_thread : nat := 0.

Definition world_cache (c : DictionaryCache) (w : world) : world := mkWorld (w_db w) c (w_pending w) (w_reads w).
Definition world_reads (rs : gmap nat dc_read) (w : world) : world := mkWorld (w_db w) (w_cache w) (w_pending w) rs.

(** What an action does, when it can happen. *)
Definition dc_do (a : dc_action) (w : world) : option (res world) :=
  match a with
  | DGet key dict_keys => Some (r ← dc_get key dict_keys (w_cache w); Ok (world_cache r.2 w))
  | DStart i key fetched =>
      Some (Ok (world_reads (<[i := mkRead key fetched (sequence (w_cache w)) None]> (w_reads w)) w))
  | DSelect i =>
      r ← w_reads w !! i;
      match rd_value r with
      | None => Some (Ok (world_reads (<[i := mkRead (rd_key r) (rd_fetched r) (rd_seq r)
                                            (Some (selected_keys (w_db w (rd_key r)) (rd_fetched r)))]> (w_reads w)) w))
      | Some _ => None
      end
  | DFinish i =>
      r ← w_reads w !! i;
      value ← rd_value r;
      Some (c ← dc_update main_thread (rd_seq r) (rd_key r) value (rd_fetched r) (w_cache w);
            Ok (mkWorld (w_db w) c (w_pending w) (delete i (w_reads w))))
  | DChange key d =>
      Some (Ok (mkWorld (λ k, if decide (k = key) then d else w_db w k) (w_cache w) (key :: w_pending w) (w_reads w)))
  | DInvalidate i =>
      key ← w_pending w !! i;
      Some (c ← dc_invalidate main_thread key (w_cache w);
            Ok (mkWorld (w_db w) c (delete i (w_pending w)) (w_reads w)))
  | DInvalidateAll => Some (c ← dc_invalidate_all main_thread (w_cache w); Ok (world_cache c w))
  end.

Inductive dc_step : world → world → Prop :=
  | dc_step_do a w w' : dc_do a w = Some (Ok w') → dc_step w w'.

Record world_ok (w : world) : Prop := mkWorldOk {
  wo_cache : ec_all (good_entry (λ k, k ∈ w_pending w) (w_db w)) (dc_cache (w_cache w));
  wo_thread : thread_ok main_thread (w_cache w);
  wo_seq i r : w_reads w !! i = Some r → rd_seq r ≤ sequence (w_cache w);
  wo_value i r v : w_reads w !! i = Some r → rd_value r = Some v → rd_seq r = sequence (w_cache w) →
    rd_key r ∉ w_pending w → v = selected_keys (w_db w (rd_key r)) (rd_fetched r)
}.

Lemma do_ok a w r : world_ok w → dc_do a w = Some r → ∃ w', r = Ok w' ∧ world_ok w'.
Proof.
  intros [Hc Ht Hq Hv] Ha. destruct a as [key keys|i key fetched|i|i|key d|i|]; cbn in Ha.
  - injection Ha as <-. destruct (dc_get_spec _ _ key keys _ Hc) as (e & s & -> & Hs & _). cbn [mbind res_bind]. eexists. split; [done|].
    by split.
  - injection Ha as <-. eexists. split; [done|]. split; cbn; [done|done|..].
    + intros j x [[<- <-]|[_ Hx]]%lookup_insert_Some; [cbn; lia|by eapply Hq].
    + intros j x v [[<- <-]|[_ Hx]]%lookup_insert_Some; [done|by eapply Hv].
  - destruct (w_reads w !! i) as [x|] eqn:Ei; [cbn in Ha|done]. destruct (rd_value x) eqn:Ex; [done|]. injection Ha as <-.
    eexists. split; [done|]. split; cbn; [done|done|..].
    + intros j y [[<- <-]|[_ Hy]]%lookup_insert_Some; [exact (Hq i x Ei)|by eapply Hq].
    + intros j y v [[<- <-]|[_ Hy]]%lookup_insert_Some; [|by eapply Hv]. cbn. by intros [= <-] _ _.
  - destruct (w_reads w !! i) as [x|] eqn:Ei; [cbn in Ha|done]. destruct (rd_value x) as [v|] eqn:Ex; [cbn in Ha|done]. injection Ha as <-.
    destruct (dc_update_spec _ _ main_thread (rd_seq x) (rd_key x) v (rd_fetched x) _ Hc Ht) as (s & -> & Hs).
    { intros Hs Hn. by apply (Hv i x). }
    cbn [mbind res_bind]. eexists. split; [done|]. split; cbn; [done|by right|..].
    + intros j y [_ Hy]%lookup_delete_Some. by eapply Hq.
    + intros j y v' [_ Hy]%lookup_delete_Some. by eapply Hv.
  - injection Ha as <-. eexists. split; [done|]. split; cbn; [|done|done|].
    + eapply ec_all_mono; [|exact Hc]. intros [k o] x [Hx Hg]. split; [done|]. cbn in *. intros Hn.
      unfold dict_entry_ok in *. cbn in *. destruct (decide (k = key)) as [->|Hne]; [by destruct Hn; left|]. apply Hg. intros ?. apply Hn. by right.
    + intros j y v Hy Hyv Hs Hn. destruct (decide (rd_key y = key)) as [Ek|Hne]; [by destruct Hn; rewrite Ek; left|].
      apply (Hv j y v); auto. intros ?. apply Hn. by right.
  - destruct (w_pending w !! i) as [key|] eqn:Ei; [cbn in Ha|done]. injection Ha as <-. unfold dc_invalidate.
    rewrite (check_thread_ok _ _ Ht). cbn [mbind res_bind dc_cache sequence dc_thread].
    destruct (ec_del_multi_law _ key _ Hc) as (s & -> & Hs). cbn [mbind res_bind]. eexists. split; [done|].
    assert (∀ k, k ≠ key → k ∈ w_pending w → k ∈ delete i (w_pending w)) as Hin.
    { intros k Hne Hk. rewrite (delete_Permutation _ _ _ Ei) in Hk. by apply elem_of_cons in Hk as [->|?]. }
    split; cbn; [|by right|..].
    + eapply ec_all_mono; [|exact Hs]. intros k x [[Hx Hg] Hne]. split; [done|]. intros Hn. apply Hg. intros Hk. by apply Hn, Hin.
    + intros j y Hy. specialize (Hq j y Hy). lia.
    + intros j y v Hy _ Hs'. specialize (Hq j y Hy). lia.
  - injection Ha as <-. unfold dc_invalidate_all. rewrite (check_thread_ok _ _ Ht). cbn [mbind res_bind dc_cache sequence dc_thread].
    destruct (ec_clear_law _ _ Hc) as (s & -> & Hs). cbn [mbind res_bind]. eexists. split; [done|]. split; cbn; [|by right|..].
    + eapply ec_all_mono; [|exact Hs]. done.
    + intros j y Hy. specialize (Hq j y Hy). lia.
    + intros j y v Hy _ Hs'. specialize (Hq j y Hy). lia.
Qed.

(** At the start the cache is empty and nothing runs. *)
Definition dc_world (db : KT → gmap DKT DV) (s : S) : world := mkWorld db (dc_init s) [] ∅.

(** C40: Whatever reads of the database, changes, invalidations and evictions run
    interleaved, no operation of a DictionaryCache fails, and for a key with no invalidation
    still to run get answers what the database has: the values it returns and the keys it
    says are absent are right, and a full answer is complete. Proved against an interface of
    LruCache, which the modelled LruCache over a TreeCache discharges. *)
Theorem dictionary_cache_coherent db0 s0 w : ec_all (λ _ _, False) s0 → rtc dc_step (dc_world db0 s0) w →
  (∀ a r, dc_do a w = Some r → ∃ w', r = Ok w') ∧
  (∀ key dict_keys, key ∉ w_pending w →
     ∃ e c, dc_get key dict_keys (w_cache w) = Ok (e, c) ∧ answer_ok (w_db w key) dict_keys e).
Proof.
  intros Hs Hr. assert (world_ok w) as Hw.
  { assert (∀ w0 w, rtc dc_step w0 w → world_ok w0 → world_ok w) as Hpres.
    { induction 1 as [|w0 w1 w2 [a v0 v1 Ha] _ IH]; [done|]. intros Hw. apply IH. by destruct (do_ok _ _ _ Hw Ha) as (? & [= <-] & ?). }
    apply (Hpres _ _ Hr). split; cbn; [|by left|done|done]. eapply ec_all_mono; [|exact Hs]. done. }
  split.
  - intros a r Ha. destruct (do_ok a w r Hw Ha) as (w' & -> & _). eauto.
  - intros key keys Hn. destruct (dc_get_spec _ _ key keys _ (wo_cache _ Hw)) as (e & s & -> & _ & He). eauto.
Qed.
End cache.

(** ** The interface from [LruCache] over a tree *)

Section lru.
Context {KT DKT DV : Type} `{Countable KT} `{Countable DKT} (py_ne : dc_value DKT DV → dc_value DKT DV → bool).

(** The keys of the tree: [(key, dict_key)] and [(key, _FullCacheKey.KEY)]. *)
Abbreviation tree_part := (KT + option DKT)%type.
Definition tree_key (k : KT * option DKT) : list tree_part := [inl k.1; inr k.2].

#[export] Instance tree_type : CacheType (list tree_part) nat := tree_cache_type tree_part nat.
#[export] Instance tree_laws : CacheLaws tree_type := tree_cache_laws tree_part nat 1.

Abbreviation dict_lru := (LruCache (list tree_part) (dc_value DKT DV) Empty_set).
Abbreviation sizes := (Some (value_len (DKT := DKT) (DV := DV))).

Definition lru_all (G : KT * option DKT → dc_value DKT DV → Prop) (c : dict_lru) : Prop :=
  ∃ a, represents sizes None c a ∧ 0 ≤ a_max a ∧ ∀ e, e ∈ a_entries a → ∃ k, e_key e = tree_key k ∧ G k (e_value e).

Lemma sizes_nonneg f v : sizes = Some f → 0 ≤ f v.
Proof. intros [= <-]. destruct v; cbn; lia. Qed.

Lemma tree_key_inj k k' : tree_key k = tree_key k' → k = k'.
Proof. destruct k, k'. by intros [= -> ->]. Qed.

Lemma elem_of_fit (e : @Entry (list tree_part) (dc_value DKT DV) Empty_set) room l : e ∈ fit sizes room l → e ∈ l.
Proof.
  revert room. induction l as [|x l IH]; intros room; cbn; [done|]. destruct (_ <=? _); [|by intros ?%elem_of_nil].
  intros [->|?]%elem_of_cons; [left|right; eauto].
Qed.

Lemma lru_get_all G k update c : lru_all G c → ∃ o c', cache_get (tree_key k) [] update c = Ok (o, c') ∧ lru_all G c' ∧ ∀ v, o = Some v → G k v.
Proof.
  intros (a & Ha & Hm & Hg). destruct (get_represents sizes None id sizes_nonneg c a (tree_key k) [] update Ha ltac:(done)) as (c' & -> & Hc').
  eexists _, c'. split; [done|]. unfold a_get in *.
  destruct (a_find (tree_key k) a) as [e|] eqn:Ef; cbn [fst snd] in *; [|split; [by exists a|done]].
  assert (e ∈ a_entries a ∧ e_key e = tree_key k) as [He Hk].
  { unfold a_find in Ef. apply head_Some_elem_of in Ef. apply list_elem_of_filter in Ef as [? ?]. done. }
  assert (G k (e_value e)) as Hgk.
  { destruct (Hg e He) as (k' & Hk' & ?). rewrite Hk in Hk'. by apply tree_key_inj in Hk' as ->. }
  split; [|by intros v [= <-]]. eexists. split; [exact Hc'|]. split; [done|]. intros x. cbn [a_entries a_with]. destruct update.
  - intros [->|Hx]%elem_of_cons; [by exists k|]. apply Hg. by apply list_elem_of_filter in Hx as [_ ?].
  - intros Hx. apply list_elem_of_fmap in Hx as (y & -> & Hy). case_decide; [by exists k|by apply Hg].
Qed.

Lemma lru_set_all (G : KT * option DKT → dc_value DKT DV → Prop) k v c : lru_all G c → G k v →
  ∃ c', cache_set sizes None py_ne id (tree_key k) v [] c = Ok c' ∧ lru_all G c'.
Proof.
  intros (a & Ha & Hm & Hg) Hv.
  destruct (set_represents sizes None py_ne id sizes_nonneg c a (tree_key k) v [] Ha ltac:(done) Hm ltac:(done)) as (c' & -> & Hc').
  exists c'. split; [done|]. eexists. split; [exact Hc'|]. unfold a_set, a_shrink, a_drop.
  destruct (a_find (tree_key k) a) as [e|] eqn:Ef; cbn [a_max a_with a_entries]; (split; [done|]); intros x Hx; apply elem_of_fit in Hx.
  - apply elem_of_cons in Hx as [->|Hx]; [by exists k|]. apply Hg. by apply list_elem_of_filter in Hx as [_ ?].
  - apply elem_of_cons in Hx as [->|Hx]; [by exists k|]. by apply Hg.
Qed.

Lemma lru_del_all G key c : lru_all G c →
  ∃ c', cache_del_multi sizes None [inl key] c = Ok c' ∧ lru_all (λ k' v, G k' v ∧ k'.1 ≠ key) c'.
Proof.
  intros (a & Ha & Hm & Hg). destruct (del_multi_represents sizes None sizes_nonneg c a [inl key] Ha) as (c' & -> & Hc').
  { split; [done|cbn; lia]. }
  exists c'. split; [done|]. eexists. split; [exact Hc'|]. split; [done|]. intros e He. cbn in He.
  apply list_elem_of_filter in He as [Hu He]. destruct (Hg e He) as (k & Hk & HG). exists k. split_and!; [done|done|]. intros <-.
  apply Hu. rewrite Hk. by exists [inr k.2].
Qed.

Lemma lru_clear_all G c : lru_all G c → ∃ c', cache_clear sizes c = Ok c' ∧ lru_all (λ _ _, False) c'.
Proof.
  intros (a & Ha & Hm & Hg). destruct (clear_represents sizes None sizes_nonneg c a Ha) as (c' & -> & Hc').
  exists c'. split; [done|]. eexists. split; [exact Hc'|]. split; [done|]. intros e He. cbn in He.
  apply list_elem_of_filter in He as [Hn _]. by destruct Hn.
Qed.

(** The cache [__init__] makes is an [EntryCache]. *)
Definition lru_entry_cache : EntryCache dict_lru KT DKT (dc_value DKT DV).
Proof.
  refine {| ec_get k update := cache_get (tree_key k) [] update;
            ec_set k v := cache_set sizes None py_ne id (tree_key k) v [];
            ec_del_multi key := cache_del_multi sizes None [inl key];
            ec_clear := cache_clear sizes;
            ec_all := lru_all |}.
  - exact lru_get_all.
  - exact lru_set_all.
  - exact lru_del_all.
  - exact lru_clear_all.
  - intros G G' c Hmono (a & Ha & Hm & Hg). exists a. split_and!; [done..|]. intros e He. destruct (Hg e He) as (k & ? & ?). eauto.
Defined.

Lemma lru_init_all max_entries : 0 ≤ max_entries → lru_all (λ _ _, False) (lru_init max_entries None None).
Proof.
  intros Hm. exists (mkAbs max_entries max_entries [] []). split_and!; [exact (init_represents sizes None sizes_nonneg max_entries None None)|done|by intros e ?%elem_of_nil].
Qed.
End lru.

(** ** At a concrete cache *)

Module dc_samples.
Definition distinct (v v' : dc_value string Z) : bool := true.
Instance string_cache : EntryCache (LruCache (list (string + option string)) (dc_value string Z) Empty_set) string string (dc_value string Z) :=
  lru_entry_cache distinct.
Abbreviation small_cache := (lru_init 3 None None : LruCache (list (string + option string)) (dc_value string Z) Empty_set).

Definition first_dict : gmap string Z := {["x" := 1]}.
Definition second_dict : gmap string Z := {["x" := 2; "y" := 3]}.
Definition start := dc_world (λ k : string, if String.eqb k "a" then first_dict else ∅) small_cache.

Fixpoint dc_play (l : list dc_action) (w : world) : option world :=
  match l with
  | [] => Some w
  | a :: l => match dc_do a w with Some (Ok w') => dc_play l w' | _ => None end
  end.

Lemma dc_play_reach l w w' : dc_play l w = Some w' → rtc dc_step w w'.
Proof.
  revert w. induction l as [|a l IH]; cbn; intros w; [by intros [= ->]|].
  destruct (dc_do a w) as [[w1|]|] eqn:Ha; try done. intros Hl. eapply rtc_l; [by econstructor|by apply IH].
Qed.

(** A read that began before a change ends after its invalidation. *)
Definition race : list (@dc_action string string Z _ _) :=
  [DStart 0 "a" None; DSelect 0; DChange "a" second_dict; DInvalidate 0; DFinish 0; DStart 1 "a" (Some ["x"; "z"]); DSelect 1; DFinish 1].
Definition after_race : world := default start (dc_play race start).

Lemma dictionary_cache_coherent_witness :
  ∃ e c, dc_get "a" (Some ["x"; "z"]) (w_cache after_race) = Ok (e, c) ∧ answer_ok second_dict (Some ["x"; "z"]) e.
Proof.
  destruct (dictionary_cache_coherent (λ k : string, if String.eqb k "a" then first_dict else ∅) small_cache after_race) as [_ Hget].
  - by apply lru_init_all.
  - by apply (dc_play_reach race).
  - by apply (Hget "a" (Some ["x"; "z"])), not_elem_of_nil.
Defined.

(** The old dict was not kept; what was read after the change is there. *)
Example race_answer :
  (λ r, (de_full r.1, known_absent r.1, de_value r.1)) <$> dc_get "a" (Some ["x"; "z"]) (w_cache after_race) = Ok (false, {["z"]}, {["x" := 2]}).
Proof. by vm_compute. Qed.
End dc_samples.
