(* ===== verification/WheelTimer.v ===== *)
(** * Wheel timers: [synapse/util/wheel_timer.py]

    A timer keeps the objects to return in buckets of [bucket_size]
    milliseconds, each with the key after which it is due. Keys are quotients
    [int(x / bucket_size)]: the division of floats is exact enough for the
    integers below 2^52 (times in milliseconds), where it rounds to the
    quotient. The theorem says when an inserted object comes back: never
    before its time, and by the end of the bucket after it. *)

From S2P Require Import Prelude.

Section WheelTimer.
Context {T : Type} `{EqDecision T} `{Countable T}.

Record _Entry := mkEntry {
  end_key : Z;
  elements_of : gset T
}.

Record WheelTimer := mkTimer {
  bucket_size : Z;
  entries : list _Entry
}.

Definition wt_init (bucket_size : Z) : WheelTimer := mkTimer bucket_size [].

(** [int(x / self.bucket_size)] *)
Definition key_of (w : WheelTimer) (x : Z) : Z := Z.quot x (bucket_size w).

(** [entries[i].elements.add(obj)] *)
Definition add_at (i : nat) (obj : T) (es : list _Entry) : res (list _Entry) :=
  match es !! i with
  | Some e => Ok (<[i := mkEntry (end_key e) ({[obj]} ∪ elements_of e)]> es)
  | None => Raise IndexError
  end.

(** [_Entry(key) for key in range(first, last + 1)] *)
Definition empty_entries (first last : Z) : list _Entry :=
  (λ i : nat, mkEntry (first + Z.of_nat i) ∅) <$> seq 0 (Z.to_nat (last + 1 - first)).

Definition wt_insert (now : Z) (obj : T) (then_ : Z) (w : WheelTimer) : res WheelTimer :=
  let then_key := key_of w then_ + 1 in
  let now_key := key_of w now in
  let extend last_key :=
    let then_key := Z.max last_key then_key in
    let es := entries w ++ empty_entries last_key then_key in
    es ← add_at (length es - 1) obj es; Ok (mkTimer (bucket_size w) es) in
  match entries w, last (entries w) with
  | first :: _, Some final =>
      let min_key := end_key first in
      if then_key <=? end_key final
      then es ← add_at (Z.to_nat (Z.max min_key then_key - min_key)) obj (entries w);
           Ok (mkTimer (bucket_size w) es)
      else extend (end_key final + 1)
  | _, _ => extend (now_key + 1)
  end.

(** [while self.entries and self.entries[0].end_key <= now_key] *)
Fixpoint fetch_loop (now_key : Z) (es : list _Entry) (ret : list T) : list T * list _Entry :=
  match es with
  | e :: es' =>
      if end_key e <=? now_key
      then fetch_loop now_key es' (ret ++ elements (elements_of e))
      else (ret, es)
  | [] => (ret, [])
  end.

Definition wt_fetch (now : Z) (w : WheelTimer) : list T * WheelTimer :=
  let '(ret, es) := fetch_loop (key_of w now) (entries w) [] in
  (ret, mkTimer (bucket_size w) es).

Definition wt_len (w : WheelTimer) : Z :=
  foldr Z.add 0 ((λ e, Z.of_nat (size (elements_of e))) <$> entries w).

(** ** What is scheduled, and when *)

(** The object [o] is in the bucket of key [k]. *)
Definition scheduled (w : WheelTimer) (o : T) (k : Z) : Prop :=
  ∃ e, e ∈ entries w ∧ end_key e = k ∧ o ∈ elements_of e.

(** The keys of the buckets are consecutive. *)
Fixpoint consecutive (k : Z) (es : list _Entry) : Prop :=
  match es with
  | [] => True
  | e :: es => end_key e = k ∧ consecutive (k + 1) es
  end.

(** The first key a new object may get at the time [now]. *)
Definition front_key (w : WheelTimer) (now : Z) : Z :=
  match entries w with e :: _ => end_key e | [] => key_of w now + 1 end.

(** Well formed at the time [now]: a fetch has emptied no bucket too many. *)
Definition timer_wf (w : WheelTimer) (now : Z) : Prop :=
  0 < bucket_size w ∧ consecutive (front_key w now) (entries w) ∧
  front_key w now ≤ key_of w now + 1.

(** *** Buckets *)

Lemma consecutive_lookup k es i e :
  consecutive k es → es !! i = Some e → end_key e = k + Z.of_nat i.
Proof.
  revert k i. induction es as [|e' es IH]; intros k i; [done|]. intros [He Hes].
  destruct i as [|i]; cbn [lookup list_lookup]; [intros [= <-]; lia|].
  intros Hi. rewrite (IH _ _ Hes Hi). lia.
Qed.

Lemma consecutive_app k es es' :
  consecutive k (es ++ es') ↔ consecutive k es ∧ consecutive (k + Z.of_nat (length es)) es'.
Proof.
  revert k. induction es as [|e es IH]; intros k; cbn.
  - rewrite Z.add_0_r. tauto.
  - rewrite IH. replace (k + 1 + Z.of_nat (length es)) with (k + Z.of_nat (S (length es))) by lia.
    tauto.
Qed.

Lemma consecutive_last k es e :
  consecutive k es → last es = Some e → end_key e = k + Z.of_nat (length es) - 1.
Proof.
  intros Hc Hl. rewrite last_lookup in Hl. rewrite (consecutive_lookup _ _ _ _ Hc Hl).
  destruct es; [done|]. cbn. lia.
Qed.

Lemma empty_consecutive first last : consecutive first (empty_entries first last).
Proof.
  unfold empty_entries. rewrite <-(Z.add_0_r first) at 1. change 0 with (Z.of_nat 0).
  generalize 0%nat (Z.to_nat (last + 1 - first)). intros i n. revert i.
  induction n as [|n IH]; intros i; cbn; [done|]. split; [done|].
  replace (first + Z.of_nat i + 1) with (first + Z.of_nat (S i)) by lia. apply IH.
Qed.

Lemma elem_of_empty_entries first last e : e ∈ empty_entries first last → elements_of e = ∅.
Proof. unfold empty_entries. by intros (i & -> & _)%list_elem_of_fmap. Qed.

(** Adding an object changes one bucket. *)
Lemma add_at_spec i obj k es :
  consecutive k es → (i < length es)%nat → ∃ es', add_at i obj es = Ok es' ∧
    consecutive k es' ∧ length es' = length es ∧
    ∀ o k', (∃ e, e ∈ es' ∧ end_key e = k' ∧ o ∈ elements_of e) ↔
            (∃ e, e ∈ es ∧ end_key e = k' ∧ o ∈ elements_of e) ∨ (o = obj ∧ k' = k + Z.of_nat i).
Proof.
  intros Hc Hi. unfold add_at. destruct (lookup_lt_is_Some_2 _ _ Hi) as [e He]. rewrite He.
  apply list_elem_of_split_length in He as (l1 & l2 & -> & ->).
  eexists; split; [done|].
  replace (length l1) with (length l1 + 0)%nat by lia. rewrite insert_app_r.
  cbn [insert list_insert]. apply consecutive_app in Hc as [Hc1 [He Hc2]].
  rewrite !length_app. split; [apply consecutive_app; cbn; auto|]. split; [done|].
  intros o k'. setoid_rewrite elem_of_app. setoid_rewrite elem_of_cons. split.
  - intros (e' & [H1|[->|H2]] & Hk & Ho); [left; eauto 6| |left; eauto 6].
    cbn in Hk, Ho. apply elem_of_union in Ho as [Ho%elem_of_singleton|Ho]; [|left; eauto 6].
    right. split; [done|]. lia.
  - intros [(e' & [H1|[->|H2]] & Hk & Ho)|[-> ->]]; [eauto 6| |eauto 6|].
    + eexists. split; [right; left; done|]. cbn. set_solver.
    + eexists. split; [right; left; done|]. cbn. split; [lia|]. set_solver.
Qed.

(** *** The operations *)

Lemma key_of_mono w x y : 0 < bucket_size w → x ≤ y → key_of w x ≤ key_of w y.
Proof. intros Hb Hxy. by apply Z.quot_le_mono. Qed.

Lemma front_of_consecutive b k es now :
  (0 < length es)%nat → consecutive k es → front_key (mkTimer b es) now = k.
Proof. destruct es as [|e es]; cbn; [lia|]. by intros _ [-> _]. Qed.

(** The bucket an object goes to. *)
Definition bucket_for (w : WheelTimer) (now then_ : Z) : Z :=
  Z.max (key_of w then_ + 1) (front_key w now).

Lemma wt_insert_spec now obj then_ w :
  timer_wf w now → ∃ w', wt_insert now obj then_ w = Ok w' ∧ timer_wf w' now ∧
    bucket_size w' = bucket_size w ∧
    (∀ o k, scheduled w' o k ↔ scheduled w o k ∨ (o = obj ∧ k = bucket_for w now then_)).
Proof.
  intros (Hb & Hc & Hf). unfold wt_insert.
  assert (∀ last_key,
    last_key = front_key w now + Z.of_nat (length (entries w)) →
    ((entries w = [] ∨ last_key < key_of w then_ + 1 + 1)) →
    ∃ w', (let then_key := Z.max last_key (key_of w then_ + 1) in
      let es := entries w ++ empty_entries last_key then_key in
      es ← add_at (length es - 1) obj es; Ok (mkTimer (bucket_size w) es)) = Ok w' ∧
    timer_wf w' now ∧ bucket_size w' = bucket_size w ∧
    (∀ o k, scheduled w' o k ↔ scheduled w o k ∨ (o = obj ∧ k = bucket_for w now then_)))
    as Hext.
  { intros last_key Hlast Hne. cbv zeta. set (tk := Z.max last_key (key_of w then_ + 1)).
    set (es := entries w ++ empty_entries last_key tk).
    assert (consecutive (front_key w now) es) as Hes.
    { apply consecutive_app. split; [done|]. rewrite <-Hlast. apply empty_consecutive. }
    assert (length es = length (entries w) + Z.to_nat (tk + 1 - last_key))%nat as Hlen.
    { unfold es, empty_entries. by rewrite length_app, length_fmap, length_seq. }
    assert (tk = Z.max last_key (key_of w then_ + 1)) as Htk by done.
    assert (front_key w now + Z.of_nat (length es - 1) = bucket_for w now then_) as Hlk.
    { unfold bucket_for. destruct Hne as [Hnil|Hne]; [|lia].
      apply (f_equal length) in Hnil. cbn in Hnil. lia. }
    destruct (add_at_spec (length es - 1) obj _ es Hes ltac:(lia)) as (es' & -> & Hc' & Hl & Hel).
    eexists; split; [done|].
    assert (front_key (mkTimer (bucket_size w) es') now = front_key w now) as Hfr.
    { apply front_of_consecutive; [lia|done]. }
    split; [by split; [done|]; rewrite Hfr|]. split; [done|].
    intros o k. unfold scheduled. cbn [entries]. rewrite Hel, Hlk. unfold es.
    setoid_rewrite elem_of_app. clear -H. split; [|intros [(e & ? & ? & ?)|?]; eauto 6].
    intros [(e & [He|He] & Hk & Ho)|?]; [eauto 6| |eauto].
    apply elem_of_empty_entries in He. rewrite He in Ho. set_solver. }
  destruct (entries w) as [|e es] eqn:Ees; [apply Hext; [|by left]|].
  { unfold front_key. rewrite Ees. cbn. lia. }
  rewrite <-Ees in *. destruct (last (entries w)) as [f|] eqn:El; [|by rewrite Ees, last_None in El].
  pose proof (consecutive_last _ _ _ Hc El) as Hfk.
  assert (front_key w now = end_key e) as Hfe by (unfold front_key; by rewrite Ees).
  destruct (Z.leb_spec (key_of w then_ + 1) (end_key f)) as [Hle|Hgt].
  - assert (1 ≤ length (entries w))%nat by (rewrite Ees; cbn; lia).
    destruct (add_at_spec (Z.to_nat (Z.max (end_key e) (key_of w then_ + 1) - end_key e)) obj
      _ (entries w) Hc ltac:(lia)) as (es' & -> & Hc' & Hl & Hel).
    eexists; split; [done|].
    assert (front_key (mkTimer (bucket_size w) es') now = front_key w now) as Hfr.
    { apply front_of_consecutive; [lia|done]. }
    split; [split; [done|]; by rewrite Hfr|]. split; [done|].
    intros o k. unfold scheduled. cbn [entries]. rewrite Hel. unfold bucket_for.
    replace (front_key w now + Z.of_nat (Z.to_nat (Z.max (end_key e) (key_of w then_ + 1) - end_key e)))
      with (Z.max (key_of w then_ + 1) (front_key w now)) by lia. done.
  - apply Hext; [lia|]. right. lia.
Qed.

Lemma fetch_loop_spec nk k es ret : consecutive k es →
  let r := fetch_loop nk es ret in
  (∀ o, o ∈ r.1 ↔ o ∈ ret ∨ ∃ e, e ∈ es ∧ end_key e ≤ nk ∧ o ∈ elements_of e) ∧
  (∀ e, e ∈ r.2 ↔ e ∈ es ∧ nk < end_key e) ∧
  match r.2 with [] => True | e :: _ => end_key e = Z.max k (nk + 1) ∧ consecutive (end_key e) r.2 end.
Proof.
  revert k ret. induction es as [|e es IH]; intros k ret; cbn [fetch_loop].
  { intros _. cbn. set_solver. }
  intros [He Hes]. destruct (Z.leb_spec (end_key e) nk) as [Hle|Hgt].
  - destruct (IH (k + 1) (ret ++ elements (elements_of e)) Hes) as (H1 & H2 & H3). cbv zeta.
    split_and!.
    + intros o. rewrite H1, elem_of_app, elem_of_elements. setoid_rewrite elem_of_cons. clear -Hle. split.
      * intros [[?|?]|(e' & ? & ? & ?)]; eauto 7.
      * intros [?|(e' & [->|?] & ? & ?)]; eauto 7.
    + intros e'. rewrite H2, elem_of_cons. split; [tauto|]. intros [[->|?] ?]; [lia|done].
    + destruct (fetch_loop _ _ _).2 as [|e' r]; [done|]. destruct H3 as [-> H3]. split; [lia|done].
  - cbn. split_and!.
    + intros o. split; [by left|]. intros [?|(e' & [->|Hin]%elem_of_cons & Hk & _)]; [done|lia|].
      apply list_elem_of_lookup in Hin as [i Hi]. rewrite (consecutive_lookup _ _ _ _ Hes Hi) in Hk. lia.
    + intros e'. split; [|tauto]. intros Hin. split; [done|].
      apply elem_of_cons in Hin as [->|Hin]; [lia|].
      apply list_elem_of_lookup in Hin as [i Hi]. rewrite (consecutive_lookup _ _ _ _ Hes Hi). lia.
    + lia.
    + done.
    + by rewrite He.
Qed.

Lemma wt_fetch_spec now now' w : now ≤ now' → timer_wf w now →
  timer_wf (wt_fetch now' w).2 now' ∧
  bucket_size (wt_fetch now' w).2 = bucket_size w ∧
  (∀ o, o ∈ (wt_fetch now' w).1 ↔ ∃ k, scheduled w o k ∧ k ≤ key_of w now') ∧
  (∀ o k, scheduled (wt_fetch now' w).2 o k ↔ scheduled w o k ∧ key_of w now' < k).
Proof.
  intros Hn (Hb & Hc & Hf). unfold wt_fetch, scheduled.
  pose proof (fetch_loop_spec (key_of w now') _ _ [] Hc) as (H1 & H2 & H3).
  pose proof (key_of_mono w _ _ Hb Hn) as Hmono.
  destruct (fetch_loop (key_of w now') (entries w) []) as [ret es]. cbn in *. split_and!.
  - split; [done|]. cbn [entries]. unfold front_key. cbn [entries].
    destruct es as [|e es]; cbn in H3 |- *; [unfold key_of; cbn; lia|].
    destruct H3 as [He [_ H3]]. unfold key_of in *. cbn in *. split; [done|]. lia.
  - done.
  - intros o. rewrite H1. set_solver.
  - intros o k. setoid_rewrite H2. clear. split.
    + intros (e & [? ?] & <- & ?). eauto 6.
    + intros [(e & ? & <- & ?) ?]. eauto 6.
Qed.

Lemma timer_wf_later w now now' : now ≤ now' → timer_wf w now → timer_wf w now'.
Proof.
  intros Hn (Hb & Hc & Hf). pose proof (key_of_mono w _ _ Hb Hn). unfold timer_wf, front_key in *.
  destruct (entries w) as [|e es]; [split_and!; done || lia|]. split_and!; done || lia.
Qed.

Lemma wt_init_wf b now : 0 < b → timer_wf (wt_init b) now.
Proof. intros. unfold timer_wf, front_key. cbn. split_and!; done || lia. Qed.

(** ** Histories of a timer *)

Inductive timer_op :=
  | TInsert (now : Z) (obj : T) (then_ : Z)
  | TFetch (now : Z).

Definition op_time (op : timer_op) : Z :=
  match op with TInsert now _ _ => now | TFetch now => now end.

Definition timer_step (w : WheelTimer) (op : timer_op) : res WheelTimer :=
  match op with
  | TInsert now obj then_ => wt_insert now obj then_ w
  | TFetch now => Ok (wt_fetch now w).2
  end.

Definition timer_run (b : Z) (ops : list timer_op) : res WheelTimer :=
  foldM timer_step (wt_init b) ops.

(** The clock never goes back. *)
Definition clocked (ops : list timer_op) : Prop := StronglySorted Z.le (op_time <$> ops).

(** The object comes back from one of the fetches of [mid], which follow [pre]. *)
Definition returned_by (b : Z) (pre mid : list timer_op) (o : T) : Prop :=
  ∃ q1 t q2 w, mid = q1 ++ TFetch t :: q2 ∧ timer_run b (pre ++ q1) = Ok w ∧ o ∈ (wt_fetch t w).1.

(** What a timer knows of its history. *)
Record timer_inv (b : Z) (ops : list timer_op) (w : WheelTimer) : Prop := mkTimerInv {
  ti_wf t : (∀ op, op ∈ ops → op_time op ≤ t) → timer_wf w t;
  ti_bucket : bucket_size w = b;
  ti_sound o k : scheduled w o k →
    ∃ now then_, TInsert now o then_ ∈ ops ∧ Z.quot then_ b + 1 ≤ k;
  ti_complete p1 now o then_ p2 : ops = p1 ++ TInsert now o then_ :: p2 →
    (∃ k, scheduled w o k ∧ k ≤ Z.max (Z.quot then_ b) (Z.quot now b) + 1) ∨
    returned_by b (p1 ++ [TInsert now o then_]) p2 o
}.

Lemma clocked_snoc ops op : clocked (ops ++ [op]) →
  clocked ops ∧ (∀ op', op' ∈ ops → op_time op' ≤ op_time op).
Proof.
  unfold clocked. intros Hs. rewrite fmap_app in Hs. split; [by eapply StronglySorted_app_1_l|].
  intros op' Hin. eapply (StronglySorted_app_1_elem_of Z.le); [done|by apply list_elem_of_fmap_2|].
  by apply list_elem_of_singleton.
Qed.

Lemma snoc_split {A} (l : list A) x p1 y p2 : l ++ [x] = p1 ++ y :: p2 →
  (p1 = l ∧ y = x ∧ p2 = []) ∨ ∃ p2', p2 = p2' ++ [x] ∧ l = p1 ++ y :: p2'.
Proof.
  intros H'. destruct p2 as [|z p2 _] using rev_ind.
  - apply app_inj_tail in H' as [-> ->]. by left.
  - right. exists p2. change (p1 ++ y :: p2 ++ [z]) with (p1 ++ ((y :: p2) ++ [z])) in H'.
    rewrite app_assoc in H'. apply app_inj_tail in H' as [-> ->]. done.
Qed.

Lemma timer_step_inv b ops op w : 0 < b → clocked (ops ++ [op]) →
  timer_run b ops = Ok w → timer_inv b ops w →
  ∃ w', timer_step w op = Ok w' ∧ timer_inv b (ops ++ [op]) w'.
Proof.
  intros Hb Hcl Hrun [Hwf Hbs Hso Hco]. apply clocked_snoc in Hcl as (_ & Hle).
  specialize (Hwf _ Hle). destruct op as [now obj then_|now]; cbn [timer_step op_time] in *.
  - destruct (wt_insert_spec now obj then_ w Hwf) as (w' & -> & Hwf' & Hbs' & Hsch).
    eexists; split; [done|]. destruct Hwf as (Hb' & Hc & Hf).
    unfold bucket_for, key_of in *. rewrite Hbs in *. split.
    + intros t Ht. eapply timer_wf_later, Hwf'. apply (Ht (TInsert now obj then_)).
      apply elem_of_app. right. by left.
    + congruence.
    + intros o k [Hk|[-> ->]]%Hsch.
      * destruct (Hso _ _ Hk) as (n & th & Hin & ?). exists n, th. rewrite elem_of_app. auto.
      * exists now, then_. rewrite elem_of_app. split; [right; by left|]. lia.
    + intros p1 n o th p2 [(-> & [= -> -> ->] & ->)|(p2' & -> & Hops)]%snoc_split.
      * left. eexists. split; [apply Hsch; right; split; reflexivity|]. lia.
      * destruct (Hco _ _ _ _ _ Hops) as [(k & Hk & ?)|(q1 & t & q2 & w0 & -> & ? & ?)].
        { left. exists k. split; [by apply Hsch; left|done]. }
        { right. exists q1, t, (q2 ++ [TInsert now obj then_]), w0.
          by rewrite <-app_assoc. }
  - destruct (wt_fetch_spec now now w ltac:(lia) Hwf) as (Hwf' & Hbs' & Hret & Hsch).
    eexists; split; [done|]. split.
    + intros t Ht. eapply timer_wf_later, Hwf'. apply (Ht (TFetch now)).
      apply elem_of_app. right. by left.
    + congruence.
    + intros o k [Hk _]%Hsch. destruct (Hso _ _ Hk) as (n & th & Hin & ?).
      exists n, th. rewrite elem_of_app. auto.
    + intros p1 n o th p2 [(_ & [=] & _)|(p2' & -> & Hops)]%snoc_split.
      destruct (Hco _ _ _ _ _ Hops) as [(k & Hk & Hmax)|(q1 & t & q2 & w0 & -> & ? & ?)].
      * destruct (Z.le_gt_cases k (key_of w now)) as [Hdue|Hlater].
        { right. exists p2', now, [], w. rewrite <-app_assoc. cbn.
          rewrite <-Hops. split; [done|]. split; [done|]. apply Hret. eauto. }
        { left. exists k. split; [by apply Hsch|done]. }
      * right. exists q1, t, (q2 ++ [TFetch now]), w0. by rewrite <-app_assoc.
Qed.

Lemma timer_run_inv b ops : 0 < b → clocked ops →
  ∃ w, timer_run b ops = Ok w ∧ timer_inv b ops w.
Proof.
  intros Hb. induction ops as [|op ops IH] using rev_ind; intros Hcl.
  - exists (wt_init b). split; [done|]. split; [intros; by apply wt_init_wf|done| |].
    + intros o k (e & He & _). by apply elem_of_nil in He.
    + by intros [] ? ? ? ?.
  - destruct (IH (proj1 (clocked_snoc _ _ Hcl))) as (w & Hw & Hinv).
    destruct (timer_step_inv _ _ _ _ Hb Hcl Hw Hinv) as (w' & Hstep & Hinv').
    exists w'. split; [|done]. unfold timer_run in *. rewrite foldM_app, Hw. cbn.
    by rewrite Hstep.
Qed.

(** A wheel timer used with a clock that does not go back never raises; it returns an
    object only after the time it was inserted for, and any fetch in a later bucket than
    both that time and the insertion returns it, unless an earlier fetch has. *)
Theorem wheel_timer_on_time b pre t : 0 < b → clocked (pre ++ [TFetch t]) →
  ∃ w, timer_run b pre = Ok w ∧
  (∀ o, o ∈ (wt_fetch t w).1 → ∃ now then_, TInsert now o then_ ∈ pre ∧ then_ < t) ∧
  (∀ p1 now o then_ p2, pre = p1 ++ TInsert now o then_ :: p2 →
     Z.quot then_ b < Z.quot t b → Z.quot now b < Z.quot t b →
     o ∈ (wt_fetch t w).1 ∨ returned_by b (p1 ++ [TInsert now o then_]) p2 o).
Proof.
  intros Hb Hcl. apply clocked_snoc in Hcl as (Hcl & Hle). cbn [op_time] in *.
  destruct (timer_run_inv b pre Hb Hcl) as (w & Hw & [Hwf Hbs Hso Hco]).
  exists w. split; [done|]. specialize (Hwf _ Hle).
  destruct (wt_fetch_spec t t w ltac:(lia) Hwf) as (_ & _ & Hret & _).
  unfold key_of in Hret. rewrite Hbs in Hret. split.
  - intros o (k & Hk & Hkt)%Hret. destruct (Hso _ _ Hk) as (now & then_ & Hin & Hthen).
    exists now, then_. split; [done|]. apply Z.nle_gt. intros Hge.
    pose proof (Z.quot_le_mono _ _ _ Hb Hge). lia.
  - intros p1 now o then_ p2 Hpre Ht Hn.
    destruct (Hco _ _ _ _ _ Hpre) as [(k & Hk & Hmax)|Hr]; [left|by right].
    apply Hret. exists k. split; [done|]. lia.
Qed.

End WheelTimer.
Arguments WheelTimer T {_ _}.
Arguments _Entry T {_ _}.
Arguments timer_op T : clear implicits.
