(* ===== verification/PresenceStore.v ===== *)
(** * The presence table: [synapse/api/presence.py] and
    [synapse/storage/databases/main/presence.py]

    The states of users and devices, and the table the states of users are
    persisted in. The table is a list of rows; an update deletes the older
    rows of its users and inserts one row per state. The theorem shows that
    it then is a map from users to their last persisted state. *)

From S2P Require Import Prelude.

Module PresenceState.
Definition OFFLINE : string := "offline".
Definition UNAVAILABLE : string := "unavailable".
Definition ONLINE : string := "online".
Definition BUSY : string := "org.matrix.msc3026.busy".
End PresenceState.

(** ** [synapse/api/presence.py] *)

Record UserDevicePresenceState := mkDevice {
  dev_user_id : string;
  dev_device_id : option string;
  dev_state : string;
  dev_last_active_ts : Z;
  dev_last_sync_ts : Z
}.

Definition default_device (user_id : string) (device_id : option string) : UserDevicePresenceState :=
  mkDevice user_id device_id PresenceState.OFFLINE 0 0.

(** [device_state.state = s], and the same for the two times. *)
Definition set_dev_state (s : string) (d : UserDevicePresenceState) : UserDevicePresenceState :=
  mkDevice (dev_user_id d) (dev_device_id d) s (dev_last_active_ts d) (dev_last_sync_ts d).
Definition set_dev_active (t : Z) (d : UserDevicePresenceState) : UserDevicePresenceState :=
  mkDevice (dev_user_id d) (dev_device_id d) (dev_state d) t (dev_last_sync_ts d).
Definition set_dev_sync (t : Z) (d : UserDevicePresenceState) : UserDevicePresenceState :=
  mkDevice (dev_user_id d) (dev_device_id d) (dev_state d) (dev_last_active_ts d) t.

Record UserPresenceState := mkUser {
  user_id : string;
  state : string;
  last_active_ts : Z;
  last_federation_update_ts : Z;
  last_user_sync_ts : Z;
  status_msg : option string;
  currently_active : bool
}.

#[global] Instance UserPresenceState_eq_dec : EqDecision UserPresenceState.
Proof. solve_decision. Defined.

Definition default_state (user_id : string) : UserPresenceState :=
  mkUser user_id PresenceState.OFFLINE 0 0 0 None false.

(** [copy_and_replace], for each keyword it is called with. *)
Definition replace_state (s : string) (u : UserPresenceState) : UserPresenceState :=
  mkUser (user_id u) s (last_active_ts u) (last_federation_update_ts u) (last_user_sync_ts u)
    (status_msg u) (currently_active u).
Definition replace_active_ts (t : Z) (u : UserPresenceState) : UserPresenceState :=
  mkUser (user_id u) (state u) t (last_federation_update_ts u) (last_user_sync_ts u)
    (status_msg u) (currently_active u).
Definition replace_federation_ts (t : Z) (u : UserPresenceState) : UserPresenceState :=
  mkUser (user_id u) (state u) (last_active_ts u) t (last_user_sync_ts u)
    (status_msg u) (currently_active u).
Definition replace_sync_ts (t : Z) (u : UserPresenceState) : UserPresenceState :=
  mkUser (user_id u) (state u) (last_active_ts u) (last_federation_update_ts u) t
    (status_msg u) (currently_active u).
Definition replace_status_msg (m : option string) (u : UserPresenceState) : UserPresenceState :=
  mkUser (user_id u) (state u) (last_active_ts u) (last_federation_update_ts u)
    (last_user_sync_ts u) m (currently_active u).
Definition replace_currently_active (b : bool) (u : UserPresenceState) : UserPresenceState :=
  mkUser (user_id u) (state u) (last_active_ts u) (last_federation_update_ts u)
    (last_user_sync_ts u) (status_msg u) b.

(** ** The table [presence_stream]

    A row is a stream id with the columns of a state. [presence_id] is the
    last id the id generator handed out. *)

Record PresenceStore := mkStore {
  presence_stream : list (Z * UserPresenceState);
  presence_id : Z
}.

(** [batch_iter(l, size)] *)
Fixpoint batch_iter_fuel {A} (fuel : nat) (size : nat) (l : list A) : list (list A) :=
  match fuel, l with
  | S fuel, _ :: _ => take size l :: batch_iter_fuel fuel size (drop size l)
  | _, _ => []
  end.
Definition batch_iter {A} (l : list A) (size : nat) : list (list A) :=
  batch_iter_fuel (length l) size l.

(** [DELETE FROM presence_stream WHERE stream_id < ? AND user_id IN ...] *)
Definition delete_rows (stream_id : Z) (users : list string) (rows : list (Z * UserPresenceState)) :
    list (Z * UserPresenceState) :=
  filter (λ r, ¬ (r.1 < stream_id ∧ user_id r.2 ∈ users)) rows.

(** The deletes use the [stream_id] the first loop ended with. *)
Definition _update_presence_txn (stream_orderings : list Z) (presence_states : list UserPresenceState)
    (rows : list (Z * UserPresenceState)) : list (Z * UserPresenceState) :=
  let new_rows := zip stream_orderings presence_states in
  let stream_id := match last new_rows with Some r => r.1 | None => 0 end in
  foldl (λ rows states, delete_rows stream_id (user_id <$> states) rows) rows
    (batch_iter presence_states 50)
  ++ new_rows.

Definition update_presence (presence_states : list UserPresenceState) (s : PresenceStore) :
    PresenceStore :=
  let n := length presence_states in
  let stream_orderings := (λ i, presence_id s + Z.of_nat i) <$> seq 1 n in
  mkStore (_update_presence_txn stream_orderings presence_states (presence_stream s))
    (presence_id s + Z.of_nat n).

Definition get_presence_for_users (user_ids : list string) (s : PresenceStore) :
    StrMap UserPresenceState :=
  foldl (λ m r, <[user_id r.2 := r.2]> m) ∅
    (filter (λ r, user_id r.2 ∈ user_ids) (presence_stream s)).

Definition _get_active_presence (s : PresenceStore) : list UserPresenceState :=
  snd <$> filter (λ r, state r.2 ≠ PresenceState.OFFLINE) (presence_stream s).

(** ** The table as a map *)

(** One row per user, with the ids handed out. *)
Definition store_wf (s : PresenceStore) : Prop :=
  NoDup ((λ r, user_id r.2) <$> presence_stream s) ∧
  ∀ r, r ∈ presence_stream s → r.1 ≤ presence_id s.

(** The state of a user that the table holds. *)
Definition persisted (s : PresenceStore) (u : string) (st : UserPresenceState) : Prop :=
  user_id st = u ∧ ∃ i, (i, st) ∈ presence_stream s.

Lemma batch_iter_concat_fuel {A} fuel size (l : list A) :
  (0 < size)%nat → (length l ≤ fuel)%nat → concat (batch_iter_fuel fuel size l) = l.
Proof.
  intros Hs. revert l. induction fuel as [|fuel IH]; intros [|x l] Hf; try done; [cbn in Hf; lia|].
  cbn [batch_iter_fuel concat]. rewrite IH; [apply take_drop|].
  rewrite length_drop. cbn in *. lia.
Qed.

Lemma batch_iter_concat {A} (l : list A) size :
  (0 < size)%nat → concat (batch_iter l size) = l.
Proof. intros. by apply batch_iter_concat_fuel. Qed.

(** Deleting batch by batch deletes the rows of all the users. *)
Lemma delete_batches id bs rows r :
  r ∈ foldl (λ rows states, delete_rows id (user_id <$> states) rows) rows bs ↔
  r ∈ rows ∧ ¬ (r.1 < id ∧ user_id r.2 ∈ user_id <$> concat bs).
Proof.
  revert rows. induction bs as [|b bs IH]; intros rows; cbn [foldl concat].
  - cbn. rewrite elem_of_nil. tauto.
  - rewrite IH. unfold delete_rows at 1. rewrite list_elem_of_filter, fmap_app, elem_of_app. tauto.
Qed.

Lemma delete_batches_sublist id bs rows :
  foldl (λ rows states, delete_rows id (user_id <$> states) rows) rows bs `sublist_of` rows.
Proof.
  revert rows. induction bs as [|b bs IH]; intros rows; cbn [foldl]; [done|].
  etrans; [apply IH|]. apply sublist_filter.
Qed.

Lemma zip_seq_fst (f : nat → Z) (l : list UserPresenceState) r :
  r ∈ zip (f <$> seq 1 (length l)) l → ∃ i, r.1 = f i ∧ (1 ≤ i ≤ length l)%nat.
Proof.
  intros Hr. assert (r.1 ∈ (zip (f <$> seq 1 (length l)) l).*1) as H1 by by apply list_elem_of_fmap_2.
  rewrite fst_zip in H1 by (rewrite length_fmap, length_seq; lia).
  apply list_elem_of_fmap in H1 as (i & -> & Hi%elem_of_seq). exists i. split; [done|]. lia.
Qed.

Lemma update_rows s states : store_wf s →
  let s' := update_presence states s in
  (∀ r, r ∈ presence_stream s' →
     (r ∈ presence_stream s ∧ user_id r.2 ∉ user_id <$> states) ∨
     (r.2 ∈ states ∧ presence_id s < r.1 ≤ presence_id s')) ∧
  (∀ r, r ∈ presence_stream s → user_id r.2 ∉ user_id <$> states → r ∈ presence_stream s') ∧
  (∀ st, st ∈ states → ∃ i, (i, st) ∈ presence_stream s').
Proof.
  intros [_ Hid]. cbn [update_presence presence_stream presence_id]. unfold _update_presence_txn.
  set (ids := (λ i, presence_id s + Z.of_nat i) <$> seq 1 (length states)).
  assert ((zip ids states).*2 = states) as Hsnd.
  { apply snd_zip. unfold ids. rewrite length_fmap, length_seq. lia. }
  setoid_rewrite elem_of_app. setoid_rewrite delete_batches. rewrite batch_iter_concat by lia.
  split_and!.
  - intros r [[Hr Hn]|Hr].
    + left. split; [done|]. intros Hu. apply Hn. split; [|done].
      destruct (last (zip ids states)) as [x|] eqn:El.
      * apply last_Some_elem_of, zip_seq_fst in El as (i & -> & Hi). specialize (Hid _ Hr). lia.
      * apply last_None in El. rewrite El in Hsnd. cbn in Hsnd. subst states.
        by apply elem_of_nil in Hu.
    + right. split; [rewrite <-Hsnd; by apply list_elem_of_fmap_2|].
      apply zip_seq_fst in Hr as (i & -> & Hi). lia.
  - intros r Hr Hu. left. split; [done|]. tauto.
  - intros st Hst. rewrite <-Hsnd in Hst. apply list_elem_of_fmap in Hst as ([i st'] & -> & Hi).
    exists i. by right.
Qed.

Lemma update_presence_wf s states :
  store_wf s → NoDup (user_id <$> states) → store_wf (update_presence states s).
Proof.
  intros Hwf Hnd. pose proof (update_rows s states Hwf) as (Hrows & _ & _).
  split; [|intros r [[Hr _]|[_ ?]]%Hrows; [|lia]; destruct Hwf as [_ Hid]; cbn; specialize (Hid _ Hr); lia].
  cbn [update_presence presence_stream]. unfold _update_presence_txn.
  set (ids := (λ i, presence_id s + Z.of_nat i) <$> seq 1 (length states)).
  rewrite fmap_app. apply NoDup_app.
  assert (((λ r, user_id r.2) <$> zip ids states) = user_id <$> states) as ->.
  { change (λ r : Z * UserPresenceState, user_id r.2) with (user_id ∘ @snd Z UserPresenceState).
    rewrite list_fmap_compose, snd_zip; [done|]. unfold ids. rewrite length_fmap, length_seq. lia. }
  split_and!; [| |done].
  - eapply sublist_NoDup; [|apply fmap_sublist, delete_batches_sublist]. apply Hwf.
  - intros u Hu Hin. apply list_elem_of_fmap in Hu as (r & -> & Hr).
    destruct (Hrows r) as [[_ Hn]|[_ Hlt]].
    + cbn [update_presence presence_stream]. unfold _update_presence_txn. apply elem_of_app. by left.
    + by apply Hn.
    + apply delete_batches in Hr as [Hr _]. destruct Hwf as [_ Hid]. specialize (Hid _ Hr). lia.
Qed.

Lemma NoDup_fmap_inj_on {A B} (f : A → B) (l : list A) x y :
  NoDup (f <$> l) → x ∈ l → y ∈ l → f x = f y → x = y.
Proof.
  intros Hnd [i Hi]%list_elem_of_lookup [j Hj]%list_elem_of_lookup Hf.
  cut (i = j); [intros ->; congruence|]. eapply (NoDup_lookup (f <$> l)); [done|..];
    rewrite list_lookup_fmap; [by rewrite Hi|by rewrite Hj, Hf].
Qed.

Lemma persisted_functional s u st st' :
  store_wf s → persisted s u st → persisted s u st' → st = st'.
Proof.
  intros [Hnd _] [H1 [i Hi]] [H2 [j Hj]].
  assert (((i, st) : Z * UserPresenceState) = (j, st')) as [= _ ->]; [|done].
  eapply (NoDup_fmap_inj_on (λ r, user_id r.2)); eauto. cbn. congruence.
Qed.

Lemma update_presence_persisted s states u st : store_wf s →
  persisted (update_presence states s) u st ↔
  (user_id st = u ∧ st ∈ states) ∨ ((u ∉ user_id <$> states) ∧ persisted s u st).
Proof.
  intros Hwf. destruct (update_rows s states Hwf) as (H1 & H2 & H3). unfold persisted. split.
  - intros [<- [i [[Hi Hn]|[Hi _]]%H1]]; [right; split; [done|]; eauto|by left].
  - intros [[<- Hst]|[Hu [<- [i Hi]]]].
    + split; [done|]. by apply H3.
    + split; [done|]. exists i. by apply (H2 (i, st)).
Qed.

Lemma get_presence_lookup s users u st : store_wf s →
  get_presence_for_users users s !! u = Some st ↔ u ∈ users ∧ persisted s u st.
Proof.
  intros [Hnd _]. unfold get_presence_for_users, persisted.
  assert (NoDup ((λ r, user_id r.2) <$> filter (λ r, user_id r.2 ∈ users) (presence_stream s))) as Hnd'.
  { eapply sublist_NoDup; [exact Hnd|]. apply fmap_sublist, sublist_filter. }
  transitivity (∃ r, r ∈ filter (λ r, user_id r.2 ∈ users) (presence_stream s) ∧ user_id r.2 = u ∧ r.2 = st).
  - generalize dependent (filter (λ r : Z * UserPresenceState, user_id r.2 ∈ users) (presence_stream s)).
    intros rows Hnd'. induction rows as [|r rows IH] using rev_ind.
    { cbn. rewrite lookup_empty. split; [done|]. intros (r & Hr & _). by apply elem_of_nil in Hr. }
    rewrite fmap_app in Hnd'. apply NoDup_app in Hnd' as (Hnd1 & Hdis & _). specialize (IH Hnd1).
    rewrite foldl_app. cbn [foldl]. rewrite lookup_insert_Some, IH. setoid_rewrite elem_of_app.
    setoid_rewrite list_elem_of_singleton. split.
    + intros [[<- <-]|[Hne (r' & ? & ? & ?)]]; eauto 6.
    + intros (r' & [Hr| ->] & <- & <-); [|by left]. right. split; [|eauto].
      intros Heq. apply (Hdis (user_id r'.2)); [by apply (list_elem_of_fmap_2 (λ r, user_id r.2))|].
      cbn. rewrite Heq. by left.
  - setoid_rewrite list_elem_of_filter. split.
    + intros ([i st'] & [Hu Hr] & <- & <-). cbn in *. eauto.
    + intros [Hu [<- [i Hi]]]. by exists (i, st).
Qed.

Lemma elem_of_active_presence s st :
  st ∈ _get_active_presence s ↔ state st ≠ PresenceState.OFFLINE ∧ persisted s (user_id st) st.
Proof.
  unfold _get_active_presence, persisted. rewrite list_elem_of_fmap. setoid_rewrite list_elem_of_filter.
  split; [intros ([i st'] & -> & ? & ?); eauto|]. intros [? [_ [i ?]]]. exists (i, st). eauto.
Qed.
