(* ===== verification/Presence.v ===== *)
(** * Presence: [synapse/handlers/presence.py]

    [PresenceHandler], the part of the server that decides whether users are
    online. It keeps the state of each user, the states of the devices of the
    local ones, the timers after which a user must be looked at again, and who
    is syncing, on this process and on others. A handler runs to its end
    before the next one starts: the awaits in it are not interleaved with
    other handlers. A handler that raises keeps what it has done so far, so
    each is a function from a state to a result and a state. *)

From S2P Require Import Prelude PyJson PyStr RoomVersions Identifiers WheelTimer PresenceStore.
From Stdlib Require Import Ascii.

(** ** Constants *)

Definition LAST_ACTIVE_GRANULARITY : Z := 60 * 1000.
Definition SYNC_ONLINE_TIMEOUT : Z := 30 * 1000.
Definition BUSY_ONLINE_TIMEOUT : Z := 60 * 60 * 1000.
Definition IDLE_TIMER : Z := 5 * 60 * 1000.
Definition FEDERATION_TIMEOUT : Z := 30 * 60 * 1000.
Definition FEDERATION_PING_INTERVAL : Z := 25 * 60 * 1000.
Definition EXTERNAL_PROCESS_EXPIRY : Z := 5 * 60 * 1000.

Abbreviation Devices := (gmap (option string) UserDevicePresenceState).
Abbreviation UserDevice := (string * option string)%type.

(** ** Pure functions on states *)

(** [PRESENCE_BY_PRIORITY[s]] *)
Definition PRESENCE_BY_PRIORITY (s : string) : res Z :=
  if decide (s = PresenceState.BUSY) then Ok 4
  else if decide (s = PresenceState.ONLINE) then Ok 3
  else if decide (s = PresenceState.UNAVAILABLE) then Ok 2
  else if decide (s = PresenceState.OFFLINE) then Ok 1
  else Raise KeyError.

(** [(a, b) > (c, d)] *)
Definition pair_gt (p q : Z * Z) : bool :=
  (q.1 <? p.1) || ((p.1 =? q.1) && (q.2 <? p.2)).

Definition combine_step (acc : string * Z) (device_state : UserDevicePresenceState) :
    res (string * Z) :=
  let '(presence, last_active_ts) := acc in
  p ← PRESENCE_BY_PRIORITY (dev_state device_state);
  q ← PRESENCE_BY_PRIORITY presence;
  Ok (if pair_gt (p, dev_last_active_ts device_state) (q, last_active_ts)
      then (dev_state device_state, dev_last_active_ts device_state) else acc).

Definition _combine_device_states (device_states : list UserDevicePresenceState) : res string :=
  r ← foldM combine_step (PresenceState.OFFLINE, -1) device_states; Ok r.1.

(** [devices.values()] *)
Definition device_values (devices : Devices) : list UserDevicePresenceState :=
  (map_to_list devices).*2.

Definition should_notify (old_state new_state : UserPresenceState) (is_mine : bool) : bool :=
  if decide (old_state = new_state) then false
  else if decide (status_msg old_state ≠ status_msg new_state) then true
  else if decide (state old_state ≠ state new_state) then true
  else if decide (state old_state = PresenceState.ONLINE) then
    if negb (Bool.eqb (currently_active new_state) (currently_active old_state)) then true
    else if (LAST_ACTIVE_GRANULARITY <? last_active_ts new_state - last_active_ts old_state)
            && negb (currently_active new_state) then true
    else false
  else if LAST_ACTIVE_GRANULARITY <? last_active_ts new_state - last_active_ts old_state then true
  else false.

(** The body of the loop over the devices: the device after it, and whether it
    has changed and whether it goes offline. *)
Definition check_device (user_id : string) (syncing_device_ids : gset UserDevice) (now : Z)
    (device_id : option string) (device_state : UserDevicePresenceState) :
    UserDevicePresenceState * bool * bool :=
  let idle := bool_decide (dev_state device_state = PresenceState.ONLINE)
              && (IDLE_TIMER <? now - dev_last_active_ts device_state) in
  let device_state := if idle then set_dev_state PresenceState.UNAVAILABLE device_state
                      else device_state in
  let offline :=
    if decide ((user_id, device_id) ∈ syncing_device_ids) then false else
    let sync_or_active := Z.max (dev_last_sync_ts device_state) (dev_last_active_ts device_state) in
    let online_timeout := if decide (dev_state device_state = PresenceState.BUSY)
                          then BUSY_ONLINE_TIMEOUT else SYNC_ONLINE_TIMEOUT in
    online_timeout <? now - sync_or_active in
  (device_state, idle || offline, offline).

(** The loop, and the removal of the devices that went offline. *)
Definition check_devices (user_id : string) (syncing_device_ids : gset UserDevice) (now : Z)
    (user_devices : Devices) : Devices * bool :=
  let checked := map_imap (λ device_id d, Some (check_device user_id syncing_device_ids now device_id d))
                          user_devices in
  (omap (λ r : UserDevicePresenceState * bool * bool, if r.2 then None else Some r.1.1) checked,
   existsb (λ r : option string * (UserDevicePresenceState * bool * bool), r.2.1.2)
     (map_to_list checked)).

Definition handle_timeout (st : UserPresenceState) (is_mine : bool)
    (syncing_device_ids : gset UserDevice) (user_devices : Devices) (now : Z) :
    res (option UserPresenceState * Devices) :=
  if decide (state st = PresenceState.OFFLINE) then Ok (None, user_devices) else
  if is_mine then
    let '(user_devices, device_changed) :=
      check_devices (user_id st) syncing_device_ids now user_devices in
    '(st, changed) ←
      (if device_changed then
         new_presence ← _combine_device_states (device_values user_devices);
         Ok (if decide (new_presence ≠ state st) then (replace_state new_presence st, true)
             else (st, false))
       else Ok (st, false));
    let changed := changed || (LAST_ACTIVE_GRANULARITY <? now - last_active_ts st) in
    let changed := changed || (FEDERATION_PING_INTERVAL <? now - last_federation_update_ts st) in
    Ok (if changed then Some st else None, user_devices)
  else
    if FEDERATION_TIMEOUT <? now - last_federation_update_ts st
    then Ok (Some (replace_state PresenceState.OFFLINE st), user_devices)
    else Ok (None, user_devices).

(** [d[state.user_id] = state] for a dict of states, in insertion order. *)
Fixpoint put_user (st : UserPresenceState) (l : list UserPresenceState) : list UserPresenceState :=
  match l with
  | [] => [st]
  | s :: l => if decide (user_id s = user_id st) then st :: l else s :: put_user st l
  end.

(** The loop of [handle_timeouts]: the changes, and the devices, which
    [handle_timeout] updates in place. *)
Definition timeouts_step (is_mine_fn : string → bool) (syncing_user_devices : gset UserDevice) (now : Z)
    (acc : list UserPresenceState * StrMap Devices) (st : UserPresenceState) :
    res (list UserPresenceState * StrMap Devices) :=
  let '(changes, user_to_devices) := acc in
  let u := user_id st in
  '(new_state, devices) ← handle_timeout st (is_mine_fn u) syncing_user_devices
    (default ∅ (user_to_devices !! u)) now;
  Ok (match new_state with Some s => put_user s changes | None => changes end,
      match user_to_devices !! u with
      | Some _ => <[u := devices]> user_to_devices
      | None => user_to_devices
      end).

Definition handle_timeouts (user_states : list UserPresenceState) (is_mine_fn : string → bool)
    (syncing_user_devices : gset UserDevice) (user_to_devices : StrMap Devices) (now : Z) :
    res (list UserPresenceState * StrMap Devices) :=
  foldM (timeouts_step is_mine_fn syncing_user_devices now) ([], user_to_devices) user_states.

(** [if b: wheel_timer.insert(now=now, obj=user_id, then=then_)] *)
Definition insert_if (b : bool) (now : Z) (user_id : string) (then_ : Z)
    (wheel_timer : WheelTimer string) : res (WheelTimer string) :=
  if b then wt_insert now user_id then_ wheel_timer else Ok wheel_timer.

Definition handle_update (prev_state new_state : UserPresenceState) (is_mine : bool)
    (wheel_timer : WheelTimer string) (now : Z) (persist : bool) :
    res (UserPresenceState * bool * bool * WheelTimer string) :=
  let u := user_id new_state in
  '(new_state, federation_ping, wheel_timer) ←
    (if is_mine then
       '(new_state, wheel_timer) ←
         (if decide (state new_state = PresenceState.ONLINE) then
            wheel_timer ← insert_if (negb persist) now u (last_active_ts new_state + IDLE_TIMER)
              wheel_timer;
            let active := now - last_active_ts new_state <? LAST_ACTIVE_GRANULARITY in
            let new_state := replace_currently_active active new_state in
            wheel_timer ← insert_if (active && negb persist) now u
              (last_active_ts new_state + LAST_ACTIVE_GRANULARITY) wheel_timer;
            Ok (new_state, wheel_timer)
          else Ok (new_state, wheel_timer));
       '(new_state, federation_ping, wheel_timer) ←
         (if decide (state new_state ≠ PresenceState.OFFLINE) then
            wheel_timer ← insert_if (negb persist) now u
              (last_user_sync_ts new_state + SYNC_ONLINE_TIMEOUT) wheel_timer;
            Ok (if FEDERATION_PING_INTERVAL <? now - last_federation_update_ts new_state
                then (replace_federation_ts now new_state, true, wheel_timer)
                else (new_state, false, wheel_timer))
          else Ok (new_state, false, wheel_timer));
       wheel_timer ← insert_if (bool_decide (state new_state = PresenceState.BUSY) && negb persist)
         now u (last_user_sync_ts new_state + BUSY_ONLINE_TIMEOUT) wheel_timer;
       Ok (new_state, federation_ping, wheel_timer)
     else
       wheel_timer ← insert_if (negb persist) now u
         (last_federation_update_ts new_state + FEDERATION_TIMEOUT) wheel_timer;
       Ok (new_state, false, wheel_timer));
  if should_notify prev_state new_state is_mine
  then Ok (replace_federation_ts now new_state, true, federation_ping, wheel_timer)
  else Ok (new_state, false, federation_ping, wheel_timer).

(** ** The handler *)

Record PresenceConfig := mkPresenceConfig {
  server_name : string;
  presence_enabled : bool;
  track_presence : bool;
  msc3026_enabled : bool
}.

(** What leaves the handler: states persisted and sent to clients and servers,
    and states sent to other servers only, to keep them alive there. *)
Inductive presence_effect :=
  | Notify (states : list UserPresenceState)
  | FederationPing (states : list UserPresenceState).

Record PresenceHandler := mkPresence {
  user_to_current_state : StrMap UserPresenceState;
  _user_to_device_to_current_state : StrMap Devices;
  wheel_timer : WheelTimer string;
  unpersisted_users_changes : StrSet;
  _user_device_to_num_current_syncs : gmap UserDevice Z;
  external_process_to_current_syncs : StrMap (gset UserDevice);
  external_process_last_updated_ms : StrMap Z;
  presence_db : PresenceStore;
  sent : list presence_effect
}.

(** Computations on the handler: what was done is kept when one raises. *)
Definition PM (A : Type) : Type := PresenceHandler → res A * PresenceHandler.
#[global] Instance PM_ret : MRet PM := λ A a h, (Ok a, h).
#[global] Instance PM_bind : MBind PM := λ A B f m h,
  match m h with (Ok a, h') => f a h' | (Raise e, h') => (Raise e, h') end.

Definition get_h {A} (f : PresenceHandler → A) : PM A := λ h, (Ok (f h), h).
Definition modify_h (f : PresenceHandler → PresenceHandler) : PM unit := λ h, (Ok tt, f h).
Definition skip : PM unit := mret tt.
Definition lift_h {A} (m : res A) : PM A := λ h, (m, h).

Fixpoint foldP {A S} (f : S → A → PM S) (s : S) (l : list A) : PM S :=
  match l with
  | [] => mret s
  | x :: l => s' ← f s x; foldP f s' l
  end.

(** Assignments to the attributes. *)
Definition set_current (f : StrMap UserPresenceState → StrMap UserPresenceState) (h : PresenceHandler) :=
  mkPresence (f (user_to_current_state h)) (_user_to_device_to_current_state h) (wheel_timer h)
    (unpersisted_users_changes h) (_user_device_to_num_current_syncs h)
    (external_process_to_current_syncs h) (external_process_last_updated_ms h) (presence_db h) (sent h).
Definition set_devices (f : StrMap Devices → StrMap Devices) (h : PresenceHandler) :=
  mkPresence (user_to_current_state h) (f (_user_to_device_to_current_state h)) (wheel_timer h)
    (unpersisted_users_changes h) (_user_device_to_num_current_syncs h)
    (external_process_to_current_syncs h) (external_process_last_updated_ms h) (presence_db h) (sent h).
Definition set_timer (w : WheelTimer string) (h : PresenceHandler) :=
  mkPresence (user_to_current_state h) (_user_to_device_to_current_state h) w
    (unpersisted_users_changes h) (_user_device_to_num_current_syncs h)
    (external_process_to_current_syncs h) (external_process_last_updated_ms h) (presence_db h) (sent h).
Definition set_unpersisted (f : StrSet → StrSet) (h : PresenceHandler) :=
  mkPresence (user_to_current_state h) (_user_to_device_to_current_state h) (wheel_timer h)
    (f (unpersisted_users_changes h)) (_user_device_to_num_current_syncs h)
    (external_process_to_current_syncs h) (external_process_last_updated_ms h) (presence_db h) (sent h).
Definition set_syncs (f : gmap UserDevice Z → gmap UserDevice Z) (h : PresenceHandler) :=
  mkPresence (user_to_current_state h) (_user_to_device_to_current_state h) (wheel_timer h)
    (unpersisted_users_changes h) (f (_user_device_to_num_current_syncs h))
    (external_process_to_current_syncs h) (external_process_last_updated_ms h) (presence_db h) (sent h).
Definition set_external (f : StrMap (gset UserDevice) → StrMap (gset UserDevice))
    (g : StrMap Z → StrMap Z) (h : PresenceHandler) :=
  mkPresence (user_to_current_state h) (_user_to_device_to_current_state h) (wheel_timer h)
    (unpersisted_users_changes h) (_user_device_to_num_current_syncs h)
    (f (external_process_to_current_syncs h)) (g (external_process_last_updated_ms h))
    (presence_db h) (sent h).
Definition set_db (f : PresenceStore → PresenceStore) (e : list presence_effect) (h : PresenceHandler) :=
  mkPresence (user_to_current_state h) (_user_to_device_to_current_state h) (wheel_timer h)
    (unpersisted_users_changes h) (_user_device_to_num_current_syncs h)
    (external_process_to_current_syncs h) (external_process_last_updated_ms h)
    (f (presence_db h)) (sent h ++ e).

Section Handler.
Context (hs : PresenceConfig).

(** [HomeServer.is_mine_id] *)
Definition is_mine_id (user_id : string) : bool :=
  match str_find ":" user_id with
  | None => false
  | Some i => String.eqb (str_drop (S i) user_id) (server_name hs)
  end.

Definition VALID_PRESENCE : list string :=
  [PresenceState.ONLINE; PresenceState.UNAVAILABLE; PresenceState.OFFLINE]
  ++ (if msc3026_enabled hs then [PresenceState.BUSY] else []).

(** *** Construction *)

(** The pseudo-device and the timers of a state found in the database. *)
Definition init_user (now : Z) (acc : StrMap Devices * WheelTimer string) (st : UserPresenceState) :
    res (StrMap Devices * WheelTimer string) :=
  let '(devices, w) := acc in
  let devices := <[user_id st :=
    {[None := mkDevice (user_id st) None (state st) (last_active_ts st) (last_user_sync_ts st)]}]> devices in
  w ← wt_insert now (user_id st) (last_active_ts st + IDLE_TIMER) w;
  w ← wt_insert now (user_id st) (last_user_sync_ts st + SYNC_ONLINE_TIMEOUT) w;
  w ← (if is_mine_id (user_id st)
       then wt_insert now (user_id st) (last_federation_update_ts st + FEDERATION_PING_INTERVAL) w
       else wt_insert now (user_id st) (last_federation_update_ts st + FEDERATION_TIMEOUT) w);
  Ok (devices, w).

(** [PresenceHandler.__init__] *)
Definition presence_init (now : Z) (db : PresenceStore) : res PresenceHandler :=
  let current : StrMap UserPresenceState :=
    foldl (λ m st, <[user_id st := st]> m) ∅ (_get_active_presence db) in
  '(devices, w) ← (if track_presence hs
                   then foldM (init_user now) (∅, wt_init 5000) (map_to_list current).*2
                   else Ok (∅, wt_init 5000));
  Ok (mkPresence current devices w ∅ ∅ ∅ ∅ db []).

(** *** States of users *)

Definition current_state_for_users (user_ids : list string) : PM (StrMap UserPresenceState) :=
  mem ← get_h user_to_current_state;
  db ← get_h presence_db;
  let states : StrMap UserPresenceState :=
    filter (λ kv : string * UserPresenceState, kv.1 ∈ user_ids) mem in
  let missing := filter (λ u, mem !! u = None) user_ids in
  let found := get_presence_for_users missing db in
  let created : StrMap UserPresenceState :=
    list_to_map ((λ u, (u, default_state u)) <$> filter (λ u, found !! u = None) missing) in
  modify_h (set_current (λ mem, created ∪ mem));;
  mret (created ∪ (found ∪ states)).

Definition current_state_for_user (user_id : string) : PM UserPresenceState :=
  r ← current_state_for_users [user_id];
  lift_h (match r !! user_id with Some st => Ok st | None => Raise KeyError end).

(** The states of [get_states]: of the users asked for. *)
Definition get_states (target_user_ids : list string) : PM (list UserPresenceState) :=
  updates_d ← current_state_for_users target_user_ids;
  let updates := (map_to_list updates_d).*2 in
  mret (updates ++ (default_state <$>
    elements ((list_to_set target_user_ids : StrSet) ∖ list_to_set (user_id <$> updates)))).

(** *** Updates *)

Definition _persist_and_notify (states : list UserPresenceState) : PM unit :=
  modify_h (set_db (update_presence states) [Notify states]).

(** The loop of [_update_states]: the changes to notify about, and those to
    ping other servers about. *)
Definition update_one (now : Z) (force_notify : bool)
    (acc : list UserPresenceState * list UserPresenceState) (new_state : UserPresenceState) :
    PM (list UserPresenceState * list UserPresenceState) :=
  let '(to_notify, to_federation_ping) := acc in
  let u := user_id new_state in
  mem ← get_h user_to_current_state;
  w ← get_h wheel_timer;
  let prev_state := default (default_state u) (mem !! u) in
  '(new_state, notify, ping, w) ← lift_h
     (handle_update prev_state new_state (is_mine_id u) w now (negb (track_presence hs)));
  modify_h (set_timer w);;
  modify_h (set_current <[u := new_state]>);;
  mret (if force_notify || notify then (put_user new_state to_notify, to_federation_ping)
        else if (ping : bool) then (to_notify, put_user new_state to_federation_ping)
        else (to_notify, to_federation_ping)).

Definition _update_states (now : Z) (new_states : list UserPresenceState) (force_notify : bool) :
    PM unit :=
  if negb (presence_enabled hs) then skip else
  let new_states := foldl (λ d st, put_user st d) [] new_states in
  '(to_notify, to_federation_ping) ← foldP (update_one now force_notify) ([], []) new_states;
  (if decide (to_notify = []) then skip else _persist_and_notify to_notify);;
  modify_h (set_unpersisted (λ s,
    (s ∪ list_to_set (user_id <$> new_states)) ∖ list_to_set (user_id <$> to_notify)));;
  let to_federation_ping :=
    filter (λ st, user_id st ∉ (user_id <$> to_notify)) to_federation_ping in
  if decide (to_federation_ping = []) then skip
  else modify_h (set_db id [FederationPing to_federation_ping]).

(** *** Timeouts *)

Definition expired_processes (now : Z) (last_updated : StrMap Z) : list string :=
  (map_to_list (filter (λ kv : string * Z, EXTERNAL_PROCESS_EXPIRY < now - kv.2) last_updated)).*1.

(** The syncs in progress, here and on other processes. *)
Definition syncing_user_devices (h : PresenceHandler) : gset UserDevice :=
  dom (filter (λ kv : UserDevice * Z, kv.2 ≠ 0) (_user_device_to_num_current_syncs h)) ∪
  ⋃ (map_to_list (external_process_to_current_syncs h)).*2.

Definition _handle_timeouts (now : Z) : PM unit :=
  w ← get_h wheel_timer;
  let '(due, w) := wt_fetch now w in
  modify_h (set_timer w);;
  last_updated ← get_h external_process_last_updated_ms;
  external ← get_h external_process_to_current_syncs;
  let expired := expired_processes now last_updated in
  let users_to_check : StrSet :=
    list_to_set due ∪
    ⋃ ((λ p, set_map fst (default ∅ (external !! p) : gset UserDevice)) <$> expired) in
  modify_h (set_external (λ m, foldr delete m expired) (λ m, foldr delete m expired));;
  mem ← get_h user_to_current_state;
  let states := (λ u, default (default_state u) (mem !! u)) <$> elements users_to_check in
  syncing ← get_h syncing_user_devices;
  devices ← get_h _user_to_device_to_current_state;
  '(changes, devices) ← lift_h (handle_timeouts states is_mine_id syncing devices now);
  modify_h (set_devices (λ _, devices));;
  _update_states now changes false.

(** *** Activity and syncs *)

(** [devices.setdefault(device_id, UserDevicePresenceState.default(...))] in
    [_user_to_device_to_current_state.setdefault(user_id, {})], updated by [f]. *)
Definition update_device (u : string) (device_id : option string)
    (f : UserDevicePresenceState → UserDevicePresenceState) (m : StrMap Devices) : StrMap Devices :=
  let devices := default ∅ (m !! u) in
  <[u := <[device_id := f (default (default_device u device_id) (devices !! device_id))]> devices]> m.

Definition devices_of (h : PresenceHandler) (u : string) : Devices :=
  default ∅ (_user_to_device_to_current_state h !! u).

Definition bump_device (now : Z) (d : UserDevicePresenceState) : UserDevicePresenceState :=
  let d := set_dev_active now d in
  if decide (dev_state d = PresenceState.UNAVAILABLE) then set_dev_state PresenceState.ONLINE d else d.

Definition bump_presence_active_time (now : Z) (u : string) (device_id : option string) : PM unit :=
  if negb (track_presence hs) then skip else
  modify_h (set_devices (update_device u device_id (bump_device now)));;
  devices ← get_h (λ h, devices_of h u);
  prev_state ← current_state_for_user u;
  presence ← lift_h (_combine_device_states (device_values devices));
  _update_states now [replace_state presence (replace_active_ts now prev_state)] false.

Definition presence_set_state (now : Z) (u : string) (device_id : option string)
    (presence : string) (status_msg : option string) (force_notify is_sync : bool) : PM unit :=
  if decide (presence ∉ VALID_PRESENCE)
  then lift_h (Raise (SynapseError 400 "Invalid presence state" Codes.UNKNOWN)) else
  if negb (track_presence hs) then skip else
  prev_state ← current_state_for_user u;
  let presence := if decide (state prev_state = PresenceState.BUSY ∧ is_sync = true)
                  then PresenceState.BUSY else presence in
  modify_h (set_devices (update_device u device_id (λ d,
    let d := set_dev_active now (set_dev_state presence d) in
    if is_sync then set_dev_sync now d else d)));;
  devices ← get_h (λ h, devices_of h u);
  presence ← lift_h (_combine_device_states (device_values devices));
  let new_state := replace_state presence prev_state in
  let new_state :=
    if decide (presence = PresenceState.ONLINE ∨ presence = PresenceState.BUSY)
    then replace_active_ts now new_state else new_state in
  let new_state := if is_sync then replace_sync_ts now new_state
                   else replace_status_msg status_msg new_state in
  _update_states now [new_state] force_notify.

(** [user_syncing]: whether a context manager that ends the sync is returned. *)
Definition user_syncing (now : Z) (u : string) (device_id : option string) (affect_presence : bool)
    (presence_state : string) : PM bool :=
  if negb affect_presence || negb (track_presence hs) then mret false else
  modify_h (set_syncs (λ m, <[(u, device_id) := default 0 (m !! (u, device_id)) + 1]> m));;
  lift_h (from_string UserID_SIGIL u);;
  presence_set_state now u device_id presence_state None false true;;
  mret true.

(** [_end]: any exception is logged. *)
Definition sync_end (now : Z) (u : string) (device_id : option string) : PM unit := λ h,
  let '(_, h') :=
    (syncs ← get_h _user_device_to_num_current_syncs;
     match syncs !! (u, device_id) with
     | None => lift_h (Raise KeyError)
     | Some n =>
         modify_h (set_syncs <[(u, device_id) := n - 1]>);;
         prev_state ← current_state_for_user u;
         _update_states now [replace_sync_ts now prev_state] false
     end) h in
  (Ok tt, h').

Definition update_external_syncs_row (now : Z) (process_id u : string) (device_id : option string)
    (is_syncing : bool) (sync_time_msec : Z) : PM unit :=
  prev_state ← current_state_for_user u;
  external ← get_h external_process_to_current_syncs;
  let process_presence : gset UserDevice := default ∅ (external !! process_id) in
  modify_h (set_external <[process_id := process_presence]> id);;
  (if is_syncing then
     if decide ((u, device_id) ∉ process_presence)
     then modify_h (set_external <[process_id := {[(u, device_id)]} ∪ process_presence]> id)
     else skip
   else if decide ((u, device_id) ∈ process_presence) then
     modify_h (set_devices (update_device u device_id (set_dev_sync sync_time_msec)));;
     _update_states now [replace_sync_ts sync_time_msec prev_state] false;;
     modify_h (set_external <[process_id := process_presence ∖ {[(u, device_id)]}]> id)
   else skip);;
  modify_h (set_external id <[process_id := now]>).

Definition update_external_syncs_clear (now : Z) (process_id : string) : PM unit :=
  external ← get_h external_process_to_current_syncs;
  let process_presence : gset UserDevice := default ∅ (external !! process_id) in
  modify_h (set_external (delete process_id) id);;
  modify_h (set_devices (λ m, foldl (λ m ud, update_device ud.1 ud.2 (set_dev_sync now) m) m
    (elements process_presence)));;
  let updated_users : StrSet := set_map fst process_presence in
  prev_states ← current_state_for_users (elements updated_users);
  _update_states now (replace_sync_ts now <$> (map_to_list prev_states).*2) false;;
  modify_h (set_external id (delete process_id)).

(** *** Federation *)

(** An entry of the [push] list of an [m.presence] EDU, with the types the
    specification gives its fields. *)
Record push := mkPush {
  push_user_id : option string;
  push_presence : option string;
  push_last_active_ago : option Z;
  push_status_msg : option string;
  push_currently_active : bool
}.

(** [not s] for an optional string *)
Definition falsy (s : option string) : bool :=
  match s with None => true | Some s => String.eqb s "" end.

Definition incoming_push (now : Z) (origin : string) (updates : list UserPresenceState) (p : push) :
    PM (list UserPresenceState) :=
  match push_user_id p with
  | None => mret updates
  | Some u =>
      if String.eqb u "" then mret updates else
      domain ← lift_h (get_domain_from_id u);
      if negb (String.eqb domain origin) then mret updates else
      if falsy (push_presence p) then mret updates else
      prev_state ← current_state_for_user u;
      let new_state := replace_federation_ts now (replace_state (default "" (push_presence p)) prev_state) in
      let new_state := match push_last_active_ago p with
                       | Some ago => replace_active_ts (now - ago) new_state
                       | None => new_state
                       end in
      let new_state := replace_currently_active (push_currently_active p)
                         (replace_status_msg (push_status_msg p) new_state) in
      mret (updates ++ [new_state])
  end.

Definition incoming_presence (now : Z) (origin : string) (pushes : list push) : PM unit :=
  if negb (track_presence hs) then skip else
  updates ← foldP (incoming_push now origin) [] pushes;
  if decide (updates = []) then skip else _update_states now updates false.

(** *** Persistence *)

(** [[self.user_to_current_state[u] for u in users]] *)
Definition states_of (h : PresenceHandler) (users : StrSet) : res (list UserPresenceState) :=
  traverse (λ u, match user_to_current_state h !! u with
                 | Some st => Ok st
                 | None => Raise KeyError
                 end) (elements users).

Definition _persist_unpersisted_changes : PM unit :=
  unpersisted ← get_h unpersisted_users_changes;
  modify_h (set_unpersisted (λ _, ∅));;
  if decide (unpersisted = ∅) then skip else
  h ← get_h id;
  states ← lift_h (states_of h unpersisted);
  modify_h (set_db (update_presence states) []).

(** [db_is_running]: [self.store.db_pool.is_running()]. *)
Definition _on_shutdown (db_is_running : bool) : PM unit :=
  if negb db_is_running then skip else
  unpersisted ← get_h unpersisted_users_changes;
  if decide (unpersisted = ∅) then skip else
  h ← get_h id;
  states ← lift_h (states_of h unpersisted);
  modify_h (set_db (update_presence states) []).

End Handler.
