(* ===== verification/PresenceProps.v ===== *)
(** * Properties of presence

    What [handle_update] and [handle_timeout] do with a state, and an
    invariant of the handler that all its operations keep: the state of a
    local user is that of the device with the highest priority, whatever is
    not in the database is noted as unpersisted, and every user that must not
    stay online for ever has a timer. *)

From S2P Require Import Prelude PyJson Identifiers WheelTimer PresenceStore Presence.

(** ** The state of a user from its devices *)

Definition valid_states : list string :=
  [PresenceState.BUSY; PresenceState.ONLINE; PresenceState.UNAVAILABLE; PresenceState.OFFLINE].

Definition priority (s : string) : Z := match PRESENCE_BY_PRIORITY s with Ok p => p | Raise _ => 0 end.

(** The state with the highest priority among those of the devices, offline
    without any. *)
Record combined (ds : list UserDevicePresenceState) (s : string) : Prop := mkCombined {
  cb_highest d : d ∈ ds → priority (dev_state d) ≤ priority s;
  cb_from : s = PresenceState.OFFLINE ∨ ∃ d, d ∈ ds ∧ dev_state d = s
}.

Lemma priority_valid s : s ∈ valid_states → PRESENCE_BY_PRIORITY s = Ok (priority s) ∧ 1 ≤ priority s.
Proof.
  unfold valid_states. intros H. repeat (apply elem_of_cons in H as [->|H]); [..|by apply elem_of_nil in H];
    vm_compute; done.
Qed.

Lemma priority_inj s s' : s ∈ valid_states → s' ∈ valid_states → priority s = priority s' → s = s'.
Proof.
  unfold valid_states. rewrite !elem_of_cons, !elem_of_nil. intros Hs Hs'.
  destruct_or! Hs; destruct_or! Hs'; subst; done.
Qed.

Definition all_valid (ds : list UserDevicePresenceState) : Prop :=
  ∀ d, d ∈ ds → dev_state d ∈ valid_states.

Lemma combined_valid ds s : all_valid ds → combined ds s → s ∈ valid_states.
Proof. intros Hv [_ [->|(d & Hd & <-)]]; [unfold valid_states; set_solver|by apply Hv]. Qed.

Lemma combined_unique ds s s' : all_valid ds → combined ds s → combined ds s' → s = s'.
Proof.
  intros Hv Hc Hc'. pose proof (combined_valid _ _ Hv Hc) as Hs. pose proof (combined_valid _ _ Hv Hc') as Hs'.
  apply priority_inj; [done..|]. destruct (priority_valid _ Hs) as [_ H1], (priority_valid _ Hs') as [_ H1'].
  destruct Hc as [Hh Hf], Hc' as [Hh' Hf']. apply Z.le_antisymm.
  - destruct Hf as [->|(d & Hd & <-)]; [by vm_compute in H1' |- *|by apply Hh'].
  - destruct Hf' as [->|(d & Hd & <-)]; [by vm_compute in H1 |- *|by apply Hh].
Qed.

Lemma combine_spec ds : all_valid ds → ∃ s, _combine_device_states ds = Ok s ∧ combined ds s.
Proof.
  intros Hv. unfold _combine_device_states.
  destruct (foldM_total_prefix (λ pre (acc : string * Z), combined pre acc.1) combine_step
    (PresenceState.OFFLINE, -1) ds) as ([s t] & -> & Hc); [..|by exists s].
  - split; [intros d Hd; by apply elem_of_nil in Hd|by left].
  - intros pre d post [s t] -> [Hh Hf]. cbn [fst] in *.
    assert (s ∈ valid_states) as Hs.
    { apply (combined_valid pre); [|by split]. intros d' Hd'. apply Hv. set_solver. }
    assert (dev_state d ∈ valid_states) as Hd by (apply Hv; set_solver).
    destruct (priority_valid _ Hs) as [Es ?], (priority_valid _ Hd) as [Ed ?].
    unfold combine_step. rewrite Es, Ed. cbn. eexists; split; [reflexivity|].
    destruct (pair_gt _ _) eqn:Eg; unfold pair_gt in Eg; cbn [fst snd] in *.
    + apply orb_true_iff in Eg. rewrite andb_true_iff, !Z.ltb_lt, Z.eqb_eq in Eg. split.
      * intros d' [Hd'| ->%list_elem_of_singleton]%elem_of_app; [|done]. specialize (Hh _ Hd'). lia.
      * right. exists d. split; [|done]. apply elem_of_app. right. by left.
    + apply orb_false_iff in Eg as [Eg _]. apply Z.ltb_ge in Eg. split.
      * intros d' [Hd'| ->%list_elem_of_singleton]%elem_of_app; [by apply Hh|done].
      * destruct Hf as [|(d' & ? & ?)]; [by left|]. right. exists d'. set_solver.
Qed.

Lemma combine_eq ds s : all_valid ds → combined ds s → _combine_device_states ds = Ok s.
Proof.
  intros Hv Hc. destruct (combine_spec ds Hv) as (s' & -> & Hc'). by rewrite (combined_unique _ _ _ Hv Hc Hc').
Qed.

(** An offline device adds nothing. *)
Lemma combined_offline ds ds' s : all_valid ds' → combined ds s →
  (∀ d, d ∈ ds → ∃ d', d' ∈ ds' ∧ dev_state d' = dev_state d) →
  (∀ d', d' ∈ ds' → dev_state d' = PresenceState.OFFLINE ∨ ∃ d, d ∈ ds ∧ dev_state d = dev_state d') →
  combined ds' s.
Proof.
  intros Hv [Hh Hf] H1 H2. split.
  - intros d' Hd'. destruct (H2 _ Hd') as [Hoff|(d & Hd & <-)]; [|by apply Hh].
    rewrite Hoff. destruct Hf as [->|(d & Hd & <-)]; [done|].
    destruct (H1 _ Hd) as (d'' & Hd'' & <-). by destruct (priority_valid _ (Hv _ Hd'')).
  - destruct Hf as [|(d & Hd & <-)]; [by left|]. right. by apply H1.
Qed.

(** ** Dicts of states *)

Lemma put_user_elem st l x : x ∈ put_user st l → x = st ∨ x ∈ l.
Proof.
  induction l as [|s l IH]; cbn [put_user]; [set_solver|]. case_decide; [set_solver|].
  intros [->|Hx]%elem_of_cons; [right; by left|]. destruct (IH Hx); [by left|right; by right].
Qed.

Lemma put_user_in st l : st ∈ put_user st l.
Proof. induction l as [|s l IH]; cbn [put_user]; [by left|]. case_decide; [by left|by right]. Qed.

Lemma put_user_users st l u : u ∈ user_id <$> put_user st l ↔ u = user_id st ∨ u ∈ user_id <$> l.
Proof.
  induction l as [|s l IH]; cbn [put_user].
  - cbn. rewrite list_elem_of_singleton, elem_of_nil. tauto.
  - case_decide as Hs; cbn; rewrite !elem_of_cons; [rewrite Hs; tauto|]. rewrite IH. tauto.
Qed.

Lemma put_user_nodup st l : NoDup (user_id <$> l) → NoDup (user_id <$> put_user st l).
Proof.
  induction l as [|s l IH]; cbn [put_user]; intros Hnd; [by apply NoDup_singleton|].
  cbn in Hnd. apply NoDup_cons in Hnd as [Hs Hl]. case_decide as Heq; cbn; apply NoDup_cons.
  - by rewrite <-Heq.
  - split; [|by apply IH]. rewrite put_user_users. intros [?|?]; congruence.
Qed.

Lemma put_user_fresh st l : (user_id st ∉ user_id <$> l) → put_user st l = l ++ [st].
Proof.
  induction l as [|s l IH]; cbn [put_user]; intros Hn; [done|].
  cbn in Hn. rewrite elem_of_cons in Hn. rewrite decide_False by (intros Heq; apply Hn; by left).
  cbn. rewrite IH; [done|]. tauto.
Qed.

(** The last state given for each user. *)
Definition put_users (l : list UserPresenceState) : list UserPresenceState :=
  foldl (λ d st, put_user st d) [] l.

Lemma put_users_spec l :
  NoDup (user_id <$> put_users l) ∧ (∀ x, x ∈ put_users l → x ∈ l) ∧
  (∀ u, u ∈ user_id <$> put_users l ↔ u ∈ user_id <$> l).
Proof.
  unfold put_users. induction l as [|st l (Hnd & Hin & Hu)] using rev_ind.
  { split_and!; [constructor|done|done]. }
  rewrite foldl_app. cbn [foldl]. split_and!.
  - by apply put_user_nodup.
  - intros x [->|Hx]%put_user_elem; rewrite elem_of_app; [right; by left|left; by apply Hin].
  - intros u. rewrite put_user_users, Hu, fmap_app, elem_of_app. cbn. rewrite list_elem_of_singleton. tauto.
Qed.

Lemma put_users_nodup l : NoDup (user_id <$> l) → put_users l = l.
Proof.
  unfold put_users. induction l as [|st l IH] using rev_ind; [done|]. intros Hnd.
  rewrite fmap_app in Hnd. apply NoDup_app in Hnd as (Hl & Hd & _).
  rewrite foldl_app. cbn [foldl]. rewrite IH by done. apply put_user_fresh.
  intros Hin. apply (Hd _ Hin). by left.
Qed.

(** ** [handle_update] *)

(** The state that is kept differs from the new one in when it was sent and
    whether the user is active now. *)
Definition same_presence (st st' : UserPresenceState) : Prop :=
  user_id st' = user_id st ∧ state st' = state st ∧ last_active_ts st' = last_active_ts st ∧
  last_user_sync_ts st' = last_user_sync_ts st ∧ status_msg st' = status_msg st.

(** A timer for the user at [then_], set at the time [now]. *)
Definition has_timer (w : WheelTimer string) (now : Z) (u : string) (then_ : Z) : Prop :=
  ∃ k, scheduled w u k ∧ key_of w then_ + 1 ≤ k ≤ Z.max (key_of w then_) (key_of w now) + 1.

(** Timers that were set stay, and only those of one user are added. *)
Record timer_adds (now : Z) (u : string) (w w' : WheelTimer string) : Prop := mkTimerAdds {
  ta_wf : timer_wf w' now;
  ta_bucket : bucket_size w' = bucket_size w;
  ta_keeps o k : scheduled w o k → scheduled w' o k;
  ta_only o k : scheduled w' o k → scheduled w o k ∨ o = u
}.

Lemma timer_adds_refl now u w : timer_wf w now → timer_adds now u w w.
Proof. split; auto. Qed.

Lemma timer_adds_trans now u w1 w2 w3 :
  timer_adds now u w1 w2 → timer_adds now u w2 w3 → timer_adds now u w1 w3.
Proof.
  intros [_ B1 K1 O1] [W B2 K2 O2]. split; [done|congruence|by eauto|].
  intros o k [H|H]%O2; [by apply O1|by right].
Qed.

Lemma has_timer_adds now u w w' u' t : timer_adds now u w w' → has_timer w now u' t → has_timer w' now u' t.
Proof.
  intros [_ Hb Hk _] (k & Hs & Hr). exists k. split; [by apply Hk|]. unfold key_of in *. by rewrite Hb.
Qed.

Lemma insert_if_spec b now u t w : timer_wf w now →
  ∃ w', insert_if b now u t w = Ok w' ∧ timer_adds now u w w' ∧ (b = true → has_timer w' now u t).
Proof.
  intros Hw. destruct b; cbn [insert_if]; [|exists w; split; [done|]; split; [by apply timer_adds_refl|done]].
  destruct (wt_insert_spec now u t w Hw) as (w' & -> & Hw' & Hb & Hs). exists w'. split; [done|]. split.
  - split; [done|done| |].
    + intros o k Ho. apply Hs. by left.
    + intros o k [?|[-> _]]%Hs; [by left|by right].
  - intros _. exists (bucket_for w now t). split; [apply Hs; by right|].
    unfold bucket_for, key_of in *. rewrite Hb. destruct Hw as (_ & _ & Hf). unfold key_of in Hf. lia.
Qed.

Record updated (prev new : UserPresenceState) (is_mine : bool) (w : WheelTimer string) (now : Z)
    (st : UserPresenceState) (notify : bool) (w' : WheelTimer string) : Prop := mkUpdated {
  up_same : same_presence new st;
  up_fed : last_federation_update_ts st = last_federation_update_ts new ∨ last_federation_update_ts st = now;
  up_adds : timer_adds now (user_id new) w w';
  up_idle : is_mine = true → state new = PresenceState.ONLINE →
    has_timer w' now (user_id new) (last_active_ts new + IDLE_TIMER);
  up_remote : is_mine = false →
    has_timer w' now (user_id new) (last_federation_update_ts new + FEDERATION_TIMEOUT);
  up_quiet : notify = false → state st = state prev ∧ status_msg st = status_msg prev
}.

Lemma should_notify_false old new m : should_notify old new m = false →
  state new = state old ∧ status_msg new = status_msg old.
Proof.
  unfold should_notify. case_decide as H1; [by subst|]. case_decide as H2; [done|].
  case_decide as H3; [done|]. intros _.
  destruct (decide (state old = state new)); [|done].
  by destruct (decide (status_msg old = status_msg new)).
Qed.

(** One timer more. *)
Lemma insert_if_adds b now u t w0 w : timer_adds now u w0 w →
  ∃ w', insert_if b now u t w = Ok w' ∧ timer_adds now u w0 w' ∧ timer_adds now u w w' ∧
        (b = true → has_timer w' now u t).
Proof.
  intros Ha. destruct (insert_if_spec b now u t w (ta_wf _ _ _ _ Ha)) as (w' & -> & Ha' & Hb).
  exists w'. split_and!; [done|by eapply timer_adds_trans|done|done].
Qed.

(** The timers set for a local user that is online. *)
Lemma handle_update_online now u w st : timer_wf w now → ∃ st1 w1,
  (if decide (state st = PresenceState.ONLINE) then
     w ← insert_if (negb false) now u (last_active_ts st + IDLE_TIMER) w;
     let active := now - last_active_ts st <? LAST_ACTIVE_GRANULARITY in
     let st := replace_currently_active active st in
     w ← insert_if (active && negb false) now u (last_active_ts st + LAST_ACTIVE_GRANULARITY) w;
     Ok (st, w)
   else Ok (st, w)) = Ok (st1, w1) ∧
  same_presence st st1 ∧ last_federation_update_ts st1 = last_federation_update_ts st ∧
  timer_adds now u w w1 ∧
  (state st = PresenceState.ONLINE → has_timer w1 now u (last_active_ts st + IDLE_TIMER)).
Proof.
  intros Hw. case_decide as Hon; [|exists st, w; split_and!; try done; by apply timer_adds_refl].
  destruct (insert_if_adds (negb false) now u (last_active_ts st + IDLE_TIMER) w w) as (w1 & -> & A1 & _ & T1);
    [by apply timer_adds_refl|]. cbn [mbind res_bind]. cbv zeta.
  destruct (insert_if_adds ((now - last_active_ts st <? LAST_ACTIVE_GRANULARITY) && negb false) now u
    (last_active_ts st + LAST_ACTIVE_GRANULARITY) w w1 A1) as (w2 & E2 & A2 & A12 & _).
  cbn [last_active_ts replace_currently_active]. rewrite E2. cbn. do 2 eexists. split; [done|].
  split_and!; try done. intros _. eapply has_timer_adds; [exact A12|]. by apply T1.
Qed.

(** The timer of a user that is not offline, and the ping. *)
Lemma handle_update_federate now u w0 w st : timer_adds now u w0 w → ∃ st1 ping w1,
  (if decide (state st ≠ PresenceState.OFFLINE) then
     w ← insert_if (negb false) now u (last_user_sync_ts st + SYNC_ONLINE_TIMEOUT) w;
     Ok (if FEDERATION_PING_INTERVAL <? now - last_federation_update_ts st
         then (replace_federation_ts now st, true, w) else (st, false, w))
   else Ok (st, false, w)) = Ok (st1, ping, w1) ∧
  same_presence st st1 ∧
  (last_federation_update_ts st1 = last_federation_update_ts st ∨ last_federation_update_ts st1 = now) ∧
  timer_adds now u w0 w1 ∧ timer_adds now u w w1.
Proof.
  intros Ha. case_decide as Hoff.
  - destruct (insert_if_adds (negb false) now u (last_user_sync_ts st + SYNC_ONLINE_TIMEOUT) w0 w Ha)
      as (w1 & -> & A1 & A12 & _). cbn [mbind res_bind].
    destruct (FEDERATION_PING_INTERVAL <? _); do 3 eexists; (split; [done|]); split_and!; try done;
      [by right|by left].
  - exists st, false, w. split_and!; try done; [by left|]. apply timer_adds_refl, Ha.
Qed.

(** The end of [handle_update]. *)
Lemma handle_update_notify prev new m w now st1 (ping : bool) w1 :
  same_presence new st1 →
  (last_federation_update_ts st1 = last_federation_update_ts new ∨ last_federation_update_ts st1 = now) →
  timer_adds now (user_id new) w w1 →
  (m = true → state new = PresenceState.ONLINE →
     has_timer w1 now (user_id new) (last_active_ts new + IDLE_TIMER)) →
  (m = false → has_timer w1 now (user_id new) (last_federation_update_ts new + FEDERATION_TIMEOUT)) →
  ∃ st notify ping' w',
    (if should_notify prev st1 m then Ok (replace_federation_ts now st1, true, ping, w1)
     else Ok (st1, false, ping, w1)) = Ok (st, notify, ping', w') ∧
    updated prev new m w now st notify w'.
Proof.
  intros Hsame Hfed Hadd Hidle Hrem. destruct (should_notify prev st1 m) eqn:En.
  - exists (replace_federation_ts now st1), true, ping, w1. split; [done|].
    split; [exact Hsame|by right|done|done|done|done].
  - exists st1, false, ping, w1. split; [done|]. split; try done. intros _. by apply should_notify_false in En.
Qed.

Lemma handle_update_spec prev new m w now : timer_wf w now →
  ∃ st notify ping w', handle_update prev new m w now false = Ok (st, notify, ping, w') ∧
    updated prev new m w now st notify w'.
Proof.
  intros Hw. unfold handle_update. cbv zeta. destruct m.
  - destruct (handle_update_online now (user_id new) w new Hw) as (st1 & w1 & E1 & S1 & F1 & A1 & T1).
    cbv zeta in E1. rewrite E1. cbn [mbind res_bind].
    destruct (handle_update_federate now (user_id new) w w1 st1 A1) as (st2 & ping & w2 & E2 & S2 & F2 & A2 & A12).
    rewrite E2. cbn [mbind res_bind].
    destruct (insert_if_adds (bool_decide (state st2 = PresenceState.BUSY) && negb false) now (user_id new)
      (last_user_sync_ts st2 + BUSY_ONLINE_TIMEOUT) w w2 A2) as (w3 & -> & A3 & A23 & _).
    cbn [mbind res_bind]. apply handle_update_notify; [| |done| |done].
    + destruct S1 as (?&?&?&?&?), S2 as (?&?&?&?&?). unfold same_presence; split_and!; congruence.
    + by rewrite F1 in F2.
    + intros _ Hon. eapply has_timer_adds; [exact A23|]. eapply has_timer_adds; [exact A12|]. by apply T1.
  - destruct (insert_if_adds (negb false) now (user_id new) (last_federation_update_ts new + FEDERATION_TIMEOUT) w w)
      as (w1 & E1 & A1 & _ & T1); [by apply timer_adds_refl|].
    rewrite E1. cbn [mbind res_bind].
    apply handle_update_notify; [by unfold same_presence|by left|done|done|by intros _; apply T1].
Qed.

(** ** [handle_timeout] *)

Lemma replace_same_state st : replace_state (state st) st = st.
Proof. by destruct st. Qed.

Lemma check_devices_lookup u sy now ds d dev' :
  (check_devices u sy now ds).1 !! d = Some dev' ↔
  ∃ dev, ds !! d = Some dev ∧ (check_device u sy now d dev).2 = false ∧
         (check_device u sy now d dev).1.1 = dev'.
Proof.
  cbn [check_devices fst]. rewrite lookup_omap_Some. setoid_rewrite map_lookup_imap. split.
  - intros (r & Hr & Hl). apply bind_Some in Hl as (dev & Hd & [= <-]). exists dev.
    destruct (check_device u sy now d dev).2 eqn:E; [done|]. by simplify_eq.
  - intros (dev & Hd & Hoff & Hdev). exists (check_device u sy now d dev). rewrite Hd.
    by rewrite Hoff, Hdev.
Qed.

Lemma check_devices_changed u sy now ds :
  (check_devices u sy now ds).2 = true ↔
  ∃ d dev, ds !! d = Some dev ∧ (check_device u sy now d dev).1.2 = true.
Proof.
  cbn [check_devices snd]. rewrite existsb_exists. split.
  - intros ([d r] & Hin & Hr). apply list_elem_of_In, elem_of_map_to_list in Hin.
    rewrite map_lookup_imap in Hin. apply bind_Some in Hin as (dev & Hd & [= <-]). eauto.
  - intros (d & dev & Hd & Hr). exists (d, check_device u sy now d dev). split; [|done].
    apply list_elem_of_In, elem_of_map_to_list. by rewrite map_lookup_imap, Hd.
Qed.

(** What happens to a device: it idles, or stays as it is. *)
Lemma check_device_cases u sy now d dev :
  let r := check_device u sy now d dev in
  let idle := dev_state dev = PresenceState.ONLINE ∧ IDLE_TIMER < now - dev_last_active_ts dev in
  (idle ∧ r.1.1 = set_dev_state PresenceState.UNAVAILABLE dev ∧ r.1.2 = true ∨
   ¬ idle ∧ r.1.1 = dev ∧ r.1.2 = r.2) ∧
  ((u, d) ∈ sy → r.2 = false).
Proof.
  unfold check_device. cbv zeta. cbn [fst snd]. split; [|by intros; rewrite decide_True].
  destruct (bool_decide _ && _) eqn:Ei.
  - apply andb_true_iff in Ei as [?%bool_decide_eq_true_1 ?%Z.ltb_lt]. left. split_and!; done.
  - right. split; [|by destruct dev]. intros [H1 H2]. rewrite bool_decide_true in Ei by done.
    cbn in Ei. apply Z.ltb_ge in Ei. lia.
Qed.

Lemma elem_of_device_values ds dev : dev ∈ device_values ds ↔ ∃ d, ds !! d = Some dev.
Proof.
  unfold device_values. rewrite list_elem_of_fmap. setoid_rewrite <-elem_of_map_to_list. split.
  - intros ([d dev'] & -> & Hin). eauto.
  - intros [d Hd]. by exists (d, dev).
Qed.

Lemma check_devices_valid u sy now ds :
  all_valid (device_values ds) → all_valid (device_values (check_devices u sy now ds).1).
Proof.
  intros Hv dev' [d Hd]%elem_of_device_values. apply check_devices_lookup in Hd as (dev & Hd & _ & <-).
  destruct (check_device_cases u sy now d dev) as [[(_ & -> & _)|(_ & -> & _)] _].
  - unfold valid_states. cbn. set_solver.
  - apply Hv, elem_of_device_values. eauto.
Qed.

Lemma check_devices_same u sy now ds :
  (check_devices u sy now ds).2 = false → (check_devices u sy now ds).1 = ds.
Proof.
  intros Hf. assert (∀ d dev, ds !! d = Some dev → (check_device u sy now d dev).1.2 = false) as Hn.
  { intros d dev Hd. apply not_true_iff_false. intros Ht.
    assert ((check_devices u sy now ds).2 = true) by (apply check_devices_changed; eauto). congruence. }
  apply map_eq. intros d. apply option_eq. intros dev'. rewrite check_devices_lookup. split.
  - intros (dev & Hd & _ & <-). specialize (Hn _ _ Hd).
    by destruct (check_device_cases u sy now d dev) as [[(_ & _ & ?)|(_ & -> & _)] _]; [congruence|].
  - intros Hd. exists dev'. split; [done|]. specialize (Hn _ _ Hd).
    by destruct (check_device_cases u sy now d dev') as [[(_ & _ & ?)|(_ & -> & <-)] _]; [congruence|].
Qed.

(** The new state of a local user, and of its devices. *)
Record timed_out (st : UserPresenceState) (sy : gset UserDevice) (ds : Devices) (now : Z)
    (r : option UserPresenceState) (ds' : Devices) : Prop := mkTimedOut {
  to_devices : ds' = (check_devices (user_id st) sy now ds).1;
  to_state : ∃ s, combined (device_values ds') s ∧
    match r with
    | Some st' => st' = replace_state s st
    | None => s = state st ∧ now - last_active_ts st ≤ LAST_ACTIVE_GRANULARITY
    end
}.

Lemma handle_timeout_local st sy ds now :
  all_valid (device_values ds) → combined (device_values ds) (state st) →
  state st ≠ PresenceState.OFFLINE →
  ∃ r ds', handle_timeout st true sy ds now = Ok (r, ds') ∧ timed_out st sy ds now r ds'.
Proof.
  intros Hv Hc Hoff. unfold handle_timeout. rewrite decide_False by done.
  pose proof (check_devices_valid (user_id st) sy now ds Hv) as Hv'.
  pose proof (check_devices_same (user_id st) sy now ds) as Hsame.
  destruct (check_devices (user_id st) sy now ds) as [ds' changed] eqn:Ecd. cbn [fst snd] in *.
  assert (∃ s st' c, combined (device_values ds') s ∧ st' = replace_state s st ∧
    (c = false → s = state st) ∧
    (if changed then
       new_presence ← _combine_device_states (device_values ds');
       Ok (if decide (new_presence ≠ state st) then (replace_state new_presence st, true) else (st, false))
     else Ok (st, false)) = Ok (st', c)) as (s & st' & c & Hcs & -> & Hsm & ->).
  { destruct changed.
    - destruct (combine_spec _ Hv') as (s & -> & Hcs). exists s. cbn. case_decide as Hd.
      + exists (replace_state s st), true. done.
      + assert (s = state st) as -> by (by destruct (decide (s = state st))). exists st, false.
        by rewrite replace_same_state.
    - rewrite Hsame by done. exists (state st), st, false. by rewrite replace_same_state. }
  cbn [mbind res_bind]. cbn [last_active_ts last_federation_update_ts replace_state].
  destruct (LAST_ACTIVE_GRANULARITY <? now - last_active_ts st) eqn:El;
    [|apply Z.ltb_ge in El; destruct c; [|destruct (FEDERATION_PING_INTERVAL <? _)]];
    rewrite ?orb_true_r; cbn [orb]; do 2 eexists; (split; [reflexivity|]); split; try (by rewrite Ecd); eauto.
Qed.

Lemma handle_timeout_remote st sy ds now :
  ∃ r, handle_timeout st false sy ds now = Ok (r, ds) ∧
  match r with
  | Some st' => st' = replace_state PresenceState.OFFLINE st
  | None => state st = PresenceState.OFFLINE ∨ now - last_federation_update_ts st ≤ FEDERATION_TIMEOUT
  end.
Proof.
  unfold handle_timeout. case_decide; [exists None; split; [done|by left]|].
  destruct (Z.ltb_spec FEDERATION_TIMEOUT (now - last_federation_update_ts st)); eexists; (split; [done|]);
    [done|by right].
Qed.
