(* ===== verification/PresenceInv.v ===== *)
(** * The invariant of the presence handler

    [base_inv] is what holds of the whole state, [user_ok] what holds of each
    user. [_update_states] re-establishes [user_ok] for the users it is given
    states of; every operation ends with it. *)

From S2P Require Import Prelude PyJson Identifiers WheelTimer PresenceStore Presence PresenceProps.

(** ** Loops *)

Lemma foldP_total_prefix {A S} (P : list A → S → PresenceHandler → Prop) (f : S → A → PM S) s l h :
  P [] s h →
  (∀ pre x post s h, l = pre ++ x :: post → P pre s h →
     ∃ s' h', f s x h = (Ok s', h') ∧ P (pre ++ [x]) s' h') →
  ∃ s' h', foldP f s l h = (Ok s', h') ∧ P l s' h'.
Proof.
  intros H0 Hstep. cut (∀ post pre s1 h1, l = pre ++ post → P pre s1 h1 →
    ∃ s' h', foldP f s1 post h1 = (Ok s', h') ∧ P l s' h').
  { intros Hcut. by apply (Hcut l []). }
  induction post as [|x post IH]; intros pre s1 h1 -> HP; cbn [foldP].
  - rewrite app_nil_r. exists s1, h1. done.
  - destruct (Hstep pre x post s1 h1 eq_refl HP) as (s2 & h2 & E & HP2).
    destruct (IH (pre ++ [x]) s2 h2) as (s' & h' & E' & HP'); [by rewrite <-(assoc_L (++))|done|].
    exists s', h'. split; [|done]. unfold mbind, PM_bind. by rewrite E.
Qed.

(** ** The invariant *)

Section Invariant.
Context (hs : PresenceConfig).
Implicit Types (h : PresenceHandler) (u : string) (now : Z).

(** The state of a user, as the timers and the updates see it. *)
Definition cur h u : UserPresenceState := default (default_state u) (user_to_current_state h !! u).

Record base_inv now h : Prop := mkBaseInv {
  bi_epoch : 0 ≤ now;
  bi_timer : timer_wf (wheel_timer h) now;
  bi_bucket : bucket_size (wheel_timer h) = 5000;
  bi_ids u st : user_to_current_state h !! u = Some st → user_id st = u;
  bi_store : store_wf (presence_db h);
  bi_cold u st : user_to_current_state h !! u = None → persisted (presence_db h) u st →
    state st = PresenceState.OFFLINE;
  bi_persisted u st : user_to_current_state h !! u = Some st → u ∉ unpersisted_users_changes h →
    persisted (presence_db h) u st ∨
    (st = default_state u ∧ ∀ st', ¬ persisted (presence_db h) u st');
  bi_unpersisted u : u ∈ unpersisted_users_changes h → is_Some (user_to_current_state h !! u);
  bi_valid u : is_mine_id hs u = true → all_valid (device_values (devices_of h u));
  bi_clock u d dev : is_mine_id hs u = true → devices_of h u !! d = Some dev →
    dev_state dev = PresenceState.ONLINE → dev_last_active_ts dev ≤ now;
  bi_rows u st : is_mine_id hs u = true →
    user_to_current_state h !! u = Some st ∨ persisted (presence_db h) u st →
    state st ∈ valid_states ∧ last_active_ts st ≤ now;
  bi_external p s ud : external_process_to_current_syncs h !! p = Some s → ud ∈ s →
    is_mine_id hs ud.1 = true
}.

(** A state for a local user that agrees with its devices. *)
Definition agrees h (st : UserPresenceState) : Prop :=
  combined (device_values (devices_of h (user_id st))) (state st) ∧
  ∀ d dev, devices_of h (user_id st) !! d = Some dev → dev_state dev = PresenceState.ONLINE →
    dev_last_active_ts dev ≤ last_active_ts st.

(** The timer a user needs. *)
Definition timed now (w : WheelTimer string) (st : UserPresenceState) : Prop :=
  if is_mine_id hs (user_id st)
  then state st = PresenceState.ONLINE → has_timer w now (user_id st) (last_active_ts st + IDLE_TIMER)
  else state st ≠ PresenceState.OFFLINE →
    has_timer w now (user_id st) (last_federation_update_ts st + FEDERATION_TIMEOUT).

Definition user_ok now h u : Prop :=
  (is_mine_id hs u = true → agrees h (cur h u)) ∧ timed now (wheel_timer h) (cur h u).

Definition presence_inv now h : Prop := base_inv now h ∧ ∀ u, user_ok now h u.

(** A state that may be given to [_update_states]. *)
Definition good now h (st : UserPresenceState) : Prop :=
  if is_mine_id hs (user_id st) then agrees h st ∧ last_active_ts st ≤ now
  else last_federation_update_ts st = now ∨ state st = PresenceState.OFFLINE.

(** What [_update_states] leaves alone. *)
Definition same_rest h h' : Prop :=
  _user_to_device_to_current_state h' = _user_to_device_to_current_state h ∧
  _user_device_to_num_current_syncs h' = _user_device_to_num_current_syncs h ∧
  external_process_to_current_syncs h' = external_process_to_current_syncs h ∧
  external_process_last_updated_ms h' = external_process_last_updated_ms h.

Lemma agrees_rest h h' st : same_rest h h' → agrees h st → agrees h' st.
Proof. intros (Hd & _) Ha. unfold agrees, devices_of in *. by rewrite Hd. Qed.

Lemma agrees_same h st st' : same_presence st st' → agrees h st → agrees h st'.
Proof. intros (E1 & E2 & E3 & _) Ha. unfold agrees in *. by rewrite E1, E2, E3. Qed.

Lemma timed_adds now u w w' st : timer_adds now u w w' → timed now w st → timed now w' st.
Proof.
  intros Ha. unfold timed. case_match; intros Ht Hs; eapply has_timer_adds; eauto.
Qed.

(** ** [_update_states] *)

Hypothesis enabled : presence_enabled hs = true.
Hypothesis tracked : track_presence hs = true.

(** The loop has processed the states [pre] of [h0]. *)
Record loop_inv now h0 (pre : list UserPresenceState)
    (acc : list UserPresenceState * list UserPresenceState) h : Prop := mkLoopInv {
  li_rest : same_rest h0 h;
  li_db : presence_db h = presence_db h0;
  li_unpersisted : unpersisted_users_changes h = unpersisted_users_changes h0;
  li_timer : timer_wf (wheel_timer h) now;
  li_bucket : bucket_size (wheel_timer h) = bucket_size (wheel_timer h0);
  li_others u : (u ∉ user_id <$> pre) → user_to_current_state h !! u = user_to_current_state h0 !! u;
  li_timers st : timed now (wheel_timer h0) st → timed now (wheel_timer h) st;
  li_done st : st ∈ pre → ∃ st', user_to_current_state h !! user_id st = Some st' ∧
    same_presence st st' ∧ (good now h0 st → timed now (wheel_timer h) st');
  li_nodup : NoDup (user_id <$> acc.1);
  li_notify st : st ∈ acc.1 → user_to_current_state h !! user_id st = Some st ∧ user_id st ∈ user_id <$> pre
}.

Lemma update_one_spec now force h0 pre st post acc h :
  NoDup (user_id <$> pre ++ st :: post) → loop_inv now h0 pre acc h →
  ∃ acc' h', update_one hs now force acc st h = (Ok acc', h') ∧ loop_inv now h0 (pre ++ [st]) acc' h'.
Proof.
  intros Hnd Hl. destruct acc as [to_notify pings].
  rewrite fmap_app in Hnd. apply NoDup_app in Hnd as (_ & Hdis & _).
  assert (∀ x, x ∈ pre → user_id x ≠ user_id st) as Hne.
  { intros x Hx Heq. apply (Hdis (user_id x)); [by apply list_elem_of_fmap_2|]. rewrite Heq. by left. }
  set (prev := default (default_state (user_id st)) (user_to_current_state h !! user_id st)).
  destruct (handle_update_spec prev st (is_mine_id hs (user_id st)) (wheel_timer h) now
    (li_timer _ _ _ _ _ Hl)) as (st' & notify & ping & w' & E & Hup).
  unfold update_one, mbind, PM_bind, get_h, lift_h, modify_h, mret, PM_ret. cbn [negb].
  rewrite tracked. cbn [negb]. fold prev. rewrite E. cbv zeta. do 2 eexists. split; [reflexivity|].
  destruct (up_same _ _ _ _ _ _ _ _ Hup) as (Hid & Hst & Hac & _).
  pose proof (up_adds _ _ _ _ _ _ _ _ Hup) as Hadds.
  set (acc' := if force || notify then _ else _).
  assert (acc'.1 = to_notify ∨ acc'.1 = put_user st' to_notify) as Hacc.
  { unfold acc'. destruct (force || notify); [by right|]. destruct ping; by left. }
  destruct Hl as [Hr Hdb Hun Htw Hb Hot Hti Hdo Hnn Hno]. split; cbn.
  - exact Hr.
  - done.
  - done.
  - apply Hadds.
  - rewrite (ta_bucket _ _ _ _ Hadds). done.
  - intros u Hu. rewrite fmap_app, elem_of_app in Hu. cbn in Hu. rewrite list_elem_of_singleton in Hu.
    rewrite lookup_insert_ne by (intros <-; tauto). apply Hot. tauto.
  - intros x Hx. eapply timed_adds; [exact Hadds|]. by apply Hti.
  - intros x [Hx| ->%list_elem_of_singleton]%elem_of_app.
    + destruct (Hdo _ Hx) as (x' & Hx' & Hs & Hg). exists x'.
      rewrite lookup_insert_ne by (intros Heq; by apply (Hne _ Hx)). split_and!; [done..|].
      intros Hgood. eapply timed_adds; [exact Hadds|]. by apply Hg.
    + exists st'. rewrite lookup_insert_eq. split_and!; [done|by apply Hup|].
      unfold good, timed. rewrite Hid, Hst, Hac. destruct (is_mine_id hs (user_id st)) eqn:Em.
      * intros _. by apply Hup.
      * intros Hgood Hoff. pose proof (up_remote _ _ _ _ _ _ _ _ Hup eq_refl) as Ht.
        destruct (up_fed _ _ _ _ _ _ _ _ Hup) as [->| ->]; [done|].
        destruct Hgood as [<-|]; [done|done].
  - destruct Hacc as [-> | ->]; [done|by apply put_user_nodup].
  - intros x Hx. rewrite fmap_app, elem_of_app. cbn. rewrite list_elem_of_singleton.
    assert (x = st' ∨ x ∈ to_notify) as [->|Hx'].
    { destruct Hacc as [Ha|Ha]; rewrite Ha in Hx; [by right|by apply put_user_elem]. }
    + rewrite Hid, lookup_insert_eq. auto.
    + destruct (Hno _ Hx') as [Hm Hu]. rewrite lookup_insert_ne; [auto|].
      apply list_elem_of_fmap in Hu as (y & -> & Hy). intros Heq. by apply (Hne _ Hy).
Qed.

(** The result of an update, on every user. *)
Record update_result now h (ns : list UserPresenceState) h' : Prop := mkUpdateResult {
  ur_inv : presence_inv now h';
  ur_rest : same_rest h h';
  ur_others u : (u ∉ user_id <$> ns) → cur h' u = cur h u;
  ur_done u : u ∈ user_id <$> ns →
    ∃ st, st ∈ ns ∧ user_id st = u ∧ same_presence st (cur h' u)
}.

(** The loop, from the state [h] on. *)
Lemma update_loop now h ns force : timer_wf (wheel_timer h) now → ∃ to_notify pings h1,
  foldP (update_one hs now force) ([], []) (put_users ns) h = (Ok (to_notify, pings), h1) ∧
  loop_inv now h (put_users ns) (to_notify, pings) h1.
Proof.
  intros Hw. destruct (put_users_spec ns) as (Hnd & _ & _).
  destruct (foldP_total_prefix (loop_inv now h) (update_one hs now force) ([], []) (put_users ns) h)
    as ([to_notify pings] & h1 & E & Hl); [..|eauto].
  - split; try done; [|constructor|]; intros x Hx; by apply elem_of_nil in Hx.
  - intros pre x post acc h' Heq HP. eapply update_one_spec; [by rewrite <-Heq|done].
Qed.

(** The database after it. *)
Definition notified_db (to_notify : list UserPresenceState) (db : PresenceStore) : PresenceStore :=
  if decide (to_notify = []) then db else update_presence to_notify db.

Lemma notified_db_persisted to_notify db u st : store_wf db →
  persisted (notified_db to_notify db) u st ↔
  (user_id st = u ∧ st ∈ to_notify) ∨ ((u ∉ user_id <$> to_notify) ∧ persisted db u st).
Proof.
  intros Hwf. unfold notified_db. case_decide as Hn; [|by apply update_presence_persisted].
  rewrite Hn. cbn. rewrite !elem_of_nil. tauto.
Qed.

Lemma update_states_eq now h ns force to_notify pings h1 :
  foldP (update_one hs now force) ([], []) (put_users ns) h = (Ok (to_notify, pings), h1) →
  ∃ e, _update_states hs now ns force h =
    (Ok tt, set_db (notified_db to_notify) e (set_unpersisted (λ s,
      (s ∪ list_to_set (user_id <$> put_users ns)) ∖ list_to_set (user_id <$> to_notify)) h1)).
Proof.
  intros E. unfold _update_states. rewrite enabled. cbn [negb]. fold (put_users ns).
  exists ((if decide (to_notify = []) then [] else [Notify to_notify]) ++
          (if decide (filter (λ st, user_id st ∉ user_id <$> to_notify) pings = []) then []
           else [FederationPing (filter (λ st, user_id st ∉ user_id <$> to_notify) pings)])).
  unfold mbind at 1, PM_bind. rewrite E.
  unfold skip, _persist_and_notify, modify_h, mbind, mret, PM_ret, PM_bind, set_db, set_unpersisted, notified_db.
  destruct h1. repeat case_decide; cbn; rewrite ?app_nil_r, <-?app_assoc; done.
Qed.

Section UpdateResult.
Context (now : Z) (h h1 : PresenceHandler) (ns to_notify pings : list UserPresenceState)
  (e : list presence_effect).
Hypothesis base : base_inv now h.
Hypothesis others : ∀ u, (u ∉ user_id <$> ns) → user_ok now h u.
Hypothesis all_good : ∀ st, st ∈ ns → good now h st.
Hypothesis loop : loop_inv now h (put_users ns) (to_notify, pings) h1.

Let h' : PresenceHandler :=
  set_db (notified_db to_notify) e (set_unpersisted (λ s,
    (s ∪ list_to_set (user_id <$> put_users ns)) ∖ list_to_set (user_id <$> to_notify)) h1).

(** A user is updated or left alone. *)
Lemma update_cases u :
  (∃ st st', st ∈ ns ∧ user_id st = u ∧ u ∈ user_id <$> put_users ns ∧
     user_to_current_state h' !! u = Some st' ∧ same_presence st st' ∧ timed now (wheel_timer h') st') ∨
  ((u ∉ user_id <$> put_users ns) ∧ (u ∉ user_id <$> ns) ∧ (u ∉ user_id <$> to_notify) ∧
     user_to_current_state h' !! u = user_to_current_state h !! u).
Proof.
  destruct (put_users_spec ns) as (_ & Hin & Hus). destruct (decide (u ∈ user_id <$> put_users ns)) as [Hi|Hi].
  - left. pose proof Hi as Hi'. apply list_elem_of_fmap in Hi' as (x & -> & Hx).
    destruct (li_done _ _ _ _ _ loop _ Hx) as (x' & Hx' & Hs & Ht).
    exists x, x'. split_and!; eauto.
  - right. split_and!; [done|by rewrite <-Hus| |by apply loop].
    intros (x & -> & Hx)%list_elem_of_fmap. by apply Hi, (li_notify _ _ _ _ _ loop).
Qed.

Lemma update_base : base_inv now h'.
Proof.
  destruct base as [Bep Btw Bb Bid Bst Bco Bpe Bun Bva Bcl Bro Bex].
  destruct loop as [Hr Hdb Hun Htw Hb _ _ _ Hnn Hno]. cbn [fst] in Hnn, Hno. split.
  - done.
  - done.
  - cbn. congruence.
  - intros u st. destruct (update_cases u) as [(x & x' & _ & <- & _ & -> & (Hid & _) & _)|(_ & _ & _ & ->)].
    + intros [= <-]. done.
    + apply Bid.
  - cbn. rewrite Hdb. unfold notified_db. case_decide; [done|by apply update_presence_wf].
  - intros u st Hu Hp. destruct (update_cases u) as [(x & x' & _ & _ & _ & E & _)|(_ & _ & Hn & E)]; [congruence|].
    cbn in Hp. rewrite Hdb in Hp. apply notified_db_persisted in Hp as [[<- Hx]|[_ Hp]]; [|by apply (Bco u); congruence|done].
    destruct Hn. by apply list_elem_of_fmap_2.
  - intros u st Hu. cbn [h' set_db set_unpersisted unpersisted_users_changes presence_db].
    rewrite Hun, Hdb, elem_of_difference, elem_of_union, !elem_of_list_to_set. intros Hnot.
    pose proof (λ u st, notified_db_persisted to_notify _ u st Bst) as Hper.
    setoid_rewrite Hper. clear Hper. destruct (decide (u ∈ user_id <$> to_notify)) as [Hi|Hi].
    + left. left. apply list_elem_of_fmap in Hi as (x & -> & Hx).
      destruct (Hno _ Hx) as [Hm _]. cbn in Hu. rewrite Hm in Hu. by simplify_eq.
    + destruct (update_cases u) as [(x & x' & _ & _ & Hi' & _)|(_ & _ & _ & E)]; [tauto|].
      rewrite E in Hu. destruct (Bpe _ _ Hu ltac:(tauto)) as [Hp|[-> Hp]]; [left; by right|].
      right. split; [done|]. intros st' [[<- Hst]|[_ Hst]]; [|by apply (Hp st')].
      apply Hi. by apply list_elem_of_fmap_2.
  - intros u. destruct (update_cases u) as [(x & x' & _ & _ & _ & -> & _)|(Hn & _ & _ & ->)]; [eauto|].
    cbn. rewrite Hun, elem_of_difference, elem_of_union, !elem_of_list_to_set.
    intros [[Hu|Hu] _]; [by apply Bun|done].
  - intros u Hu. destruct Hr as (Hd & _). unfold devices_of. cbn. rewrite Hd. by apply Bva.
  - intros u d dev. destruct Hr as (Hd & _). unfold devices_of. cbn. rewrite Hd. apply Bcl.
  - assert (∀ u st, is_mine_id hs u = true → user_to_current_state h' !! u = Some st →
      state st ∈ valid_states ∧ last_active_ts st ≤ now) as Hmem.
    { intros u st Hm. destruct (update_cases u) as [(x & x' & Hx & <- & _ & -> & (_ & Hs & Hl & _) & _)|(_ & _ & _ & ->)];
        [|by intros Hu; apply (Bro u); [|left]].
      intros [= <-]. rewrite Hs, Hl. pose proof (all_good _ Hx) as Hg. unfold good in Hg. rewrite Hm in Hg.
      destruct Hg as [[Hc _] Hle]. split; [|done]. eapply combined_valid, Hc. by apply Bva. }
    intros u st Hm [Hu|Hp]; [by apply (Hmem u)|]. cbn in Hp. rewrite Hdb in Hp.
    apply notified_db_persisted in Hp as [[<- Hx]|[_ Hp]]; [|by apply (Bro u); [|right]|done].
    apply (Hmem (user_id st)); [done|]. cbn. by apply Hno.
  - destruct Hr as (_ & _ & He & _). cbn. rewrite He. apply Bex.
Qed.

Lemma update_users u : user_ok now h' u.
Proof.
  pose proof (li_rest _ _ _ _ _ loop) as Hr. unfold user_ok, cur.
  destruct (update_cases u) as [(x & x' & Hx & <- & _ & -> & Hs & Ht)|(_ & Hn & _ & E)].
  - cbn [default]. split; [|done]. intros Hm. apply (agrees_rest h); [done|]. apply (agrees_same _ _ _ Hs).
    pose proof (all_good _ Hx) as Hg. unfold good in Hg. rewrite Hm in Hg. apply Hg.
  - rewrite E. destruct (others u Hn) as [Ha Ht]. split; [|by apply (li_timers _ _ _ _ _ loop)].
    intros Hm. apply (agrees_rest h); [done|]. by apply Ha.
Qed.

Lemma update_result_holds : update_result now h ns h'.
Proof.
  split.
  - split; [apply update_base|apply update_users].
  - apply (li_rest _ _ _ _ _ loop).
  - intros u Hu. unfold cur. destruct (update_cases u) as [(x & x' & Hx & <- & _)|(_ & _ & _ & ->)]; [|done].
    destruct Hu. by apply list_elem_of_fmap_2.
  - intros u Hu. unfold cur. destruct (update_cases u) as [(x & x' & Hx & <- & _ & -> & Hs & _)|(_ & Hn & _)]; [|done].
    eauto.
Qed.
End UpdateResult.

Lemma update_states_spec now h ns force :
  base_inv now h → (∀ u, (u ∉ user_id <$> ns) → user_ok now h u) →
  (∀ st, st ∈ ns → good now h st) →
  ∃ h', _update_states hs now ns force h = (Ok tt, h') ∧ update_result now h ns h'.
Proof.
  intros Hb Ho Hg. destruct (update_loop now h ns force (bi_timer _ _ Hb)) as (to_notify & pings & h1 & E & Hl).
  destruct (update_states_eq _ _ _ _ _ _ _ E) as (e & ->). eexists. split; [done|].
  by eapply update_result_holds.
Qed.

End Invariant.
