(* ===== verification/PresenceOps.v ===== *)
(** * The operations of the presence handler keep its invariant *)

From S2P Require Import Prelude PyJson Identifiers WheelTimer PresenceStore Presence PresenceProps PresenceInv.

Section Operations.
Context (hs : PresenceConfig).
Hypothesis enabled : presence_enabled hs = true.
Hypothesis tracked : track_presence hs = true.
Implicit Types (h : PresenceHandler) (u : string) (now : Z).

Abbreviation base_inv := (base_inv hs).
Abbreviation user_ok := (user_ok hs).
Abbreviation presence_inv := (presence_inv hs).

(** ** Time passes *)

Lemma has_timer_later w now now' u t :
  0 < bucket_size w → now ≤ now' → has_timer w now u t → has_timer w now' u t.
Proof.
  intros Hb Hn (k & Hs & Hk). exists k. split; [done|]. pose proof (key_of_mono w _ _ Hb Hn). lia.
Qed.

Lemma presence_inv_later now now' h : now ≤ now' → presence_inv now h → presence_inv now' h.
Proof.
  intros Hn [[Bep Btw Bb Bid Bst Bco Bpe Bun Bva Bcl Bro Bex] Hu]. split.
  - split; try done; [lia|by eapply timer_wf_later|..].
    + intros u d dev Hm Hd Ho. specialize (Bcl u d dev Hm Hd Ho). lia.
    + intros u st Hm Hrw. destruct (Bro u st Hm Hrw). split; [done|lia].
  - intros u. destruct (Hu u) as [Ha Ht]. split; [done|]. unfold timed in *.
    case_match; intros Hs; (eapply has_timer_later; [lia|done|by apply Ht]).
Qed.

(** ** Reading the states of users *)

(** The state of a user in memory, or in the database, or by default. *)
Definition known_state h u (st : UserPresenceState) : Prop :=
  match user_to_current_state h !! u with
  | Some st' => st = st'
  | None => persisted (presence_db h) u st ∨
            st = default_state u ∧ ∀ st', ¬ persisted (presence_db h) u st'
  end.

(** What is known of a user whose state is read. *)
Definition read_state now h u (st : UserPresenceState) : Prop :=
  user_id st = u ∧ state st = state (cur h u) ∧
  (last_active_ts st = last_active_ts (cur h u) ∨ state st = PresenceState.OFFLINE) ∧
  (is_mine_id hs u = true → last_active_ts st ≤ now) ∧ known_state h u st.

Record read_result h h' : Prop := mkReadResult {
  rr_rest : same_rest h h';
  rr_timer : wheel_timer h' = wheel_timer h;
  rr_cur u : cur h' u = cur h u;
  rr_base now : base_inv now h → base_inv now h'
}.

Lemma read_user_ok h h' now u : read_result h h' → user_ok now h u → user_ok now h' u.
Proof.
  intros [Hr Hw Hc _] [Ha Ht]. unfold PresenceInv.user_ok. rewrite Hc, Hw. split; [|done].
  intros Hm. apply (agrees_rest h); [done|]. by apply Ha.
Qed.

Section Read.
Context (now : Z) (h : PresenceHandler) (ids : list string).
Hypothesis base : base_inv now h.

Let mem := user_to_current_state h.
Let missing := filter (λ u, mem !! u = None) ids.
Let found := get_presence_for_users missing (presence_db h).
Let created : StrMap UserPresenceState :=
  list_to_map ((λ u, (u, default_state u)) <$> filter (λ u, found !! u = None) missing).

Lemma created_lookup u st :
  created !! u = Some st ↔ st = default_state u ∧ u ∈ ids ∧ mem !! u = None ∧ found !! u = None.
Proof.
  unfold created. rewrite <-elem_of_list_to_map'.
  - rewrite list_elem_of_fmap. setoid_rewrite list_elem_of_filter. unfold missing.
    setoid_rewrite list_elem_of_filter. split; [intros (? & [= -> ->] & ? & ? & ?); done|].
    intros (-> & ? & ? & ?). eauto 6.
  - intros st'. rewrite !list_elem_of_fmap. intros (? & [= -> ->] & _) (? & [= -> ->] & _). done.
Qed.

Lemma found_lookup u st :
  found !! u = Some st ↔ u ∈ ids ∧ mem !! u = None ∧ persisted (presence_db h) u st.
Proof.
  unfold found. rewrite get_presence_lookup by apply base. unfold missing. rewrite list_elem_of_filter. tauto.
Qed.

Lemma created_union u :
  (created ∪ mem) !! u = mem !! u ∨
  (created ∪ mem) !! u = Some (default_state u) ∧ mem !! u = None ∧ ∀ st, ¬ persisted (presence_db h) u st.
Proof.
  destruct (created !! u) as [st|] eqn:E; [right|left; by rewrite lookup_union, E, (left_id_L None _)].
  rewrite (lookup_union_Some_l _ _ _ _ E). apply created_lookup in E as (-> & Hi & Hm & Hf).
  split_and!; [done..|]. intros st Hp.
  assert (found !! u = Some st) by by apply found_lookup. congruence.
Qed.

Lemma read_base now' : base_inv now' h → base_inv now' (set_current (λ m, created ∪ m) h).
Proof.
  intros [Bep Btw Bb Bid Bst Bco Bpe Bun Bva Bcl Bro Bex]. split; try done; cbn; fold mem.
  - intros u st. destruct (created_union u) as [->|(-> & _)]; [apply Bid|]. by intros [= <-].
  - intros u st. destruct (created_union u) as [->|(-> & _)]; [apply Bco|done].
  - intros u st. destruct (created_union u) as [->|(-> & _ & Hp)]; [apply Bpe|].
    intros [= <-] _. by right.
  - intros u Hu. destruct (Bun u Hu) as [st Hst]. destruct (created_union u) as [->|(_ & Hm & _)]; [eauto|].
    unfold mem in Hm. congruence.
  - intros u st Hm. destruct (created_union u) as [->|(-> & _)]; [by apply Bro|].
    intros [[= <-]|Hp]; [|by apply (Bro u); [|right]]. split; [|done]. unfold valid_states. cbn. set_solver.
Qed.

Lemma read_cur u : cur (set_current (λ m, created ∪ m) h) u = cur h u.
Proof.
  unfold cur. cbn. fold mem. destruct (created_union u) as [->|(-> & Hm & _)]; [done|].
  by rewrite Hm.
Qed.

Lemma current_states_spec : ∃ r h',
  current_state_for_users ids h = (Ok r, h') ∧ read_result h h' ∧
  (∀ u, is_Some (r !! u) ↔ u ∈ ids) ∧ (∀ u st, r !! u = Some st → read_state now h u st).
Proof.
  exists (created ∪ (found ∪ filter (λ kv : string * UserPresenceState, kv.1 ∈ ids) mem)).
  exists (set_current (λ m, created ∪ m) h). split; [done|]. split.
  { split; [done|done|apply read_cur|apply read_base]. }
  assert (∀ u st, (created ∪ (found ∪ filter (λ kv : string * UserPresenceState, kv.1 ∈ ids) mem)) !! u
    = Some st → u ∈ ids ∧ read_state now h u st) as Hr.
  { intros u st. unfold read_state, cur. fold mem. rewrite lookup_union_Some_raw.
    pose proof (bi_epoch _ _ _ base). pose proof (bi_rows _ _ _ base u st) as Hrow.
    unfold known_state. fold mem. intros [Hcr|[_ Hu]].
    { destruct (created_union u) as [Hn|(_ & Hm & Hp)].
      - rewrite (lookup_union_Some_l _ _ _ _ Hcr) in Hn. apply created_lookup in Hcr as (_ & _ & Hm & _). congruence.
      - apply created_lookup in Hcr as (-> & Hi & _). rewrite Hm. split_and!; auto. }
    apply lookup_union_Some_raw in Hu as [(Hi & Hm & Hp)%found_lookup|[_ (Hu & Hi)%map_lookup_filter_Some]].
    - rewrite Hm. pose proof (bi_cold _ _ _ base _ _ Hm Hp). split_and!; auto; [by destruct Hp|].
      intros Hmine. apply Hrow; auto.
    - rewrite Hu. pose proof (bi_ids _ _ _ base _ _ Hu). split_and!; auto. intros Hmine. apply Hrow; auto. }
  split; [|by intros u st [_ ?]%Hr]. intros u. split; [by intros [st [? _]%Hr]|]. intros Hi.
  destruct (created !! u) eqn:Ec; [by eexists; apply lookup_union_Some_l|].
  rewrite lookup_union_r by done. destruct (found !! u) eqn:Ef; [by eexists; apply lookup_union_Some_l|].
  rewrite lookup_union_r by done. destruct (mem !! u) as [st|] eqn:Em.
  { exists st. by apply map_lookup_filter_Some. }
  exfalso. assert (created !! u = Some (default_state u)) by by apply created_lookup. congruence.
Qed.
End Read.

Lemma current_state_spec now h u : base_inv now h → ∃ st h',
  current_state_for_user u h = (Ok st, h') ∧ read_result h h' ∧ read_state now h u st.
Proof.
  intros Hb. destruct (current_states_spec now h [u] Hb) as (r & h' & E & Hr & Hd & Hs).
  destruct (proj2 (Hd u)) as [st Hst]; [by left|]. exists st, h'. split; [|eauto].
  unfold current_state_for_user, mbind, PM_bind, lift_h. by rewrite E, Hst.
Qed.

(** ** Devices *)

Lemma devices_of_update h u d f u' :
  devices_of (set_devices (update_device u d f) h) u' =
  if decide (u' = u) then <[d := f (default (default_device u d) (devices_of h u !! d))]> (devices_of h u)
  else devices_of h u'.
Proof.
  unfold devices_of at 1, update_device. cbn. case_decide as Hu.
  - subst. by rewrite lookup_insert_eq.
  - by rewrite lookup_insert_ne.
Qed.

(** Changing the devices of a local user breaks nothing but its own state. *)
Lemma set_devices_base now h u g :
  is_mine_id hs u = true → base_inv now h →
  (∀ u', u' ≠ u → devices_of (set_devices g h) u' = devices_of h u') →
  (∀ d dev, devices_of (set_devices g h) u !! d = Some dev →
     dev_state dev ∈ valid_states ∧ (dev_state dev = PresenceState.ONLINE → dev_last_active_ts dev ≤ now)) →
  base_inv now (set_devices g h).
Proof.
  intros Hm [Bep Btw Bb Bid Bst Bco Bpe Bun Bva Bcl Bro Bex] Ho Hd. split; try done.
  - intros u' Hm'. destruct (decide (u' = u)) as [->|Hne]; [|rewrite Ho by done; by apply Bva].
    intros dev [d Hdev]%elem_of_device_values. by apply (Hd d).
  - intros u' d dev Hm'. destruct (decide (u' = u)) as [->|Hne]; [|rewrite Ho by done; by apply Bcl].
    intros Hdev. by apply (Hd d).
Qed.

Lemma cur_id now h u : base_inv now h → user_id (cur h u) = u.
Proof.
  intros Hb. unfold cur. destruct (user_to_current_state h !! u) eqn:E; [|done]. by apply (bi_ids _ _ _ Hb).
Qed.

Lemma set_devices_ok now h g u :
  base_inv now h → devices_of (set_devices g h) u = devices_of h u →
  user_ok now h u → user_ok now (set_devices g h) u.
Proof.
  intros Hb Hd [Ha Ht]. split; [|done]. intros Hm. specialize (Ha Hm). unfold agrees in *.
  change (cur (set_devices g h) u) with (cur h u). rewrite (cur_id _ _ _ Hb) in *. by rewrite Hd.
Qed.

(** The state that was read agrees with the devices. *)
Lemma read_agrees now h h' u st : base_inv now h → read_result h h' → user_ok now h u →
  is_mine_id hs u = true → read_state now h u st → agrees h' st.
Proof.
  intros Hb Hr [Ha _] Hm (Hid & Hs & Hl & _). apply (agrees_rest h); [apply Hr|].
  destruct (Ha Hm) as [Hc Hon]. unfold agrees in *. rewrite (cur_id _ _ _ Hb) in Hc, Hon.
  rewrite Hid, Hs in *. split; [done|]. intros d dev Hd Ho. specialize (Hon _ _ Hd Ho).
  destruct Hl as [-> | Hoff]; [done|]. exfalso. rewrite Hoff in Hc.
  assert (dev ∈ device_values (devices_of h u)) as Hin by (apply elem_of_device_values; eauto).
  pose proof (cb_highest _ _ Hc _ Hin) as Hp. rewrite Ho in Hp. by vm_compute in Hp.
Qed.

(** Changing when a device synced, or adding an offline one, changes no state. *)
Lemma agrees_sync now h u d t st : base_inv now h → user_id st = u → is_mine_id hs u = true →
  agrees h st → agrees (set_devices (update_device u d (set_dev_sync t)) h) st.
Proof.
  intros Hb Hid Hm [Hc Ho]. pose proof (bi_valid _ _ _ Hb _ Hm) as Hv.
  unfold agrees in *. rewrite Hid, devices_of_update, decide_True in * by done.
  set (dev0 := default (default_device u d) (devices_of h u !! d)).
  assert (dev_state dev0 = PresenceState.OFFLINE ∨ devices_of h u !! d = Some dev0) as Hd0.
  { unfold dev0. destruct (devices_of h u !! d); [by right|by left]. }
  split.
  - eapply combined_offline; [|exact Hc|..].
    + intros dev' [d' Hd']%elem_of_device_values. rewrite lookup_insert_Some in Hd'.
      destruct Hd' as [[<- <-]|[_ Hd']]; [|apply Hv, elem_of_device_values; eauto].
      cbn. destruct Hd0 as [-> |Hd0]; [unfold valid_states; set_solver|]. apply Hv, elem_of_device_values. eauto.
    + intros dev [d' Hd']%elem_of_device_values. destruct (decide (d' = d)) as [->|Hne].
      * exists (set_dev_sync t dev0). split; [apply elem_of_device_values; exists d; apply lookup_insert_eq|].
        cbn. unfold dev0. by rewrite Hd'.
      * exists dev. split; [|done]. apply elem_of_device_values. exists d'. by rewrite lookup_insert_ne.
    + intros dev' [d' Hd']%elem_of_device_values. rewrite lookup_insert_Some in Hd'.
      destruct Hd' as [[<- <-]|[_ Hd']]; [|right; exists dev'; split; [apply elem_of_device_values; eauto|done]].
      cbn. destruct Hd0 as [?|Hd0]; [by left|]. right. exists dev0. split; [apply elem_of_device_values; eauto|done].
  - intros d' dev. rewrite lookup_insert_Some. intros [[<- <-]|[_ Hd']]; [|by eapply Ho].
    cbn. intros Hon. destruct Hd0 as [Hoff|Hd0]; [by rewrite Hoff in Hon|]. by eapply Ho.
Qed.

(** A device after an operation of its user. *)
Lemma touch_base now h u d f : is_mine_id hs u = true → base_inv now h →
  (∀ dev, dev_state dev ∈ valid_states → dev_state (f dev) ∈ valid_states) →
  (∀ dev, (dev_state dev = PresenceState.ONLINE → dev_last_active_ts dev ≤ now) →
     dev_state (f dev) = PresenceState.ONLINE → dev_last_active_ts (f dev) ≤ now) →
  base_inv now (set_devices (update_device u d f) h).
Proof.
  intros Hm Hb Hv Hl. eapply set_devices_base; [done|done|..].
  - intros u' Hne. by rewrite devices_of_update, decide_False.
  - intros d' dev. rewrite devices_of_update, decide_True by done. rewrite lookup_insert_Some.
    intros [[<- <-]|[_ Hd']].
    + destruct (devices_of h u !! d) as [dev|] eqn:E; cbn [default].
      * split; [apply Hv, (bi_valid _ _ _ Hb _ Hm), elem_of_device_values; eauto|].
        apply Hl. by apply (bi_clock _ _ _ Hb u d).
      * split; [apply Hv; unfold valid_states; cbn; set_solver|]. by apply Hl.
    + split; [apply (bi_valid _ _ _ Hb _ Hm), elem_of_device_values; eauto|]. by apply (bi_clock _ _ _ Hb u d').
Qed.

Lemma touch_others now h u d f u' : base_inv now h → u' ≠ u → user_ok now h u' →
  user_ok now (set_devices (update_device u d f) h) u'.
Proof. intros Hb Hne. apply (set_devices_ok now); [done|]. by rewrite devices_of_update, decide_False. Qed.

(** The devices a state is computed from agree with it. *)
Lemma new_state_agrees now h u st : base_inv now h → is_mine_id hs u = true → user_id st = u →
  combined (device_values (devices_of h u)) (state st) →
  (state st = PresenceState.ONLINE ∨ state st = PresenceState.BUSY → last_active_ts st = now) →
  agrees h st.
Proof.
  intros Hb Hm <- Hc Hn. split; [done|]. intros d dev Hd Ho.
  pose proof (bi_clock _ _ _ Hb _ _ _ Hm Hd Ho) as Hle. rewrite Hn; [done|].
  pose proof (combined_valid _ _ (bi_valid _ _ _ Hb _ Hm) Hc) as Hv.
  assert (dev ∈ device_values (devices_of h (user_id st))) as Hin by (apply elem_of_device_values; eauto).
  pose proof (cb_highest _ _ Hc _ Hin) as Hp. rewrite Ho in Hp. revert Hv Hp. unfold valid_states.
  rewrite !elem_of_cons, elem_of_nil. intros [->|[->|[->|[->|[]]]]] Hp; [by right|by left|by vm_compute in Hp..].
Qed.

(** One update of a local user ends an operation. *)
Lemma update_one_user now h u st force :
  base_inv now h → is_mine_id hs u = true → user_id st = u → agrees h st → last_active_ts st ≤ now →
  (∀ u', u' ≠ u → user_ok now h u') →
  ∃ h', _update_states hs now [st] force h = (Ok tt, h') ∧ update_result hs now h [st] h'.
Proof.
  intros Hb Hm Hid Ha Hle Ho. apply (update_states_spec hs enabled tracked); [done|..].
  - intros u' Hu'. apply Ho. intros ->. apply Hu'. cbn. rewrite Hid. by left.
  - intros st' ->%list_elem_of_singleton. unfold good. by rewrite Hid, Hm.
Qed.

(** ** Activity *)

Lemma read_all now h h' : read_result h h' → presence_inv now h → presence_inv now h'.
Proof. intros Hr [Hb Hu]. split; [by apply Hr|]. intros u. by eapply read_user_ok. Qed.

Lemma bump_inv now h u d : is_mine_id hs u = true → presence_inv now h →
  presence_inv now (bump_presence_active_time hs now u d h).2.
Proof.
  intros Hm [Hb Hu]. unfold bump_presence_active_time. rewrite tracked. cbn [negb].
  unfold mbind, PM_bind, modify_h, get_h.
  set (h1 := set_devices (update_device u d (bump_device now)) h).
  assert (base_inv now h1) as Hb1.
  { apply touch_base; [done..| |]; intros dev; unfold bump_device; case_decide; cbn; auto; try lia.
    unfold valid_states. set_solver. }
  destruct (current_state_spec now h1 u Hb1) as (prev & h2 & -> & Hr & Hid & _).
  destruct (combine_spec _ (bi_valid _ _ _ Hb1 _ Hm)) as (s & Ec & Hc). unfold lift_h. rewrite Ec.
  destruct (update_one_user now h2 u (replace_state s (replace_active_ts now prev)) false)
    as (h3 & -> & Hres); [by apply Hr|done|done|..|apply Hres].
  - eapply (new_state_agrees now); [by apply Hr|done|done| |done].
    destruct Hr as [(Hd & _) _ _ _]. unfold devices_of. by rewrite Hd.
  - cbn. lia.
  - intros u' Hne. eapply read_user_ok; [done|]. by apply touch_others.
Qed.

Lemma set_state_inv now h u d p msg force sync : is_mine_id hs u = true → presence_inv now h →
  presence_inv now (presence_set_state hs now u d p msg force sync h).2.
Proof.
  intros Hm [Hb Hu]. unfold presence_set_state. case_decide as Hp; [done|]. rewrite tracked. cbn [negb].
  assert (p ∈ valid_states) as Hpv.
  { destruct (decide (p ∈ VALID_PRESENCE hs)) as [H|]; [|done]. revert H. unfold VALID_PRESENCE, valid_states.
    rewrite elem_of_app. destruct (msc3026_enabled hs); set_solver. }
  unfold mbind, PM_bind, modify_h, get_h.
  destruct (current_state_spec now h u Hb) as (prev & h1 & -> & Hr & Hid & _ & _ & Hle & _).
  set (p' := if decide _ then PresenceState.BUSY else p).
  set (f := λ dev, _). set (h2 := set_devices (update_device u d f) h1).
  assert (base_inv now h2) as Hb2.
  { apply touch_base; [done|by apply Hr|..]; intros dev; unfold f; destruct sync; cbn; try lia;
      intros _; unfold p'; case_decide; try done; unfold valid_states; set_solver. }
  destruct (combine_spec _ (bi_valid _ _ _ Hb2 _ Hm)) as (s & Ec & Hc). unfold lift_h. rewrite Ec.
  set (st1 := if decide (s = _ ∨ _) then _ else _). set (st := if sync then _ else _).
  assert (user_id st = u ∧ state st = s ∧
    (s = PresenceState.ONLINE ∨ s = PresenceState.BUSY → last_active_ts st = now) ∧
    last_active_ts st ≤ now) as (E1 & E2 & E3 & E4).
  { specialize (Hle Hm). unfold st, st1. destruct sync; case_decide; cbn; split_and!; done || lia. }
  destruct (update_one_user now h2 u st force) as (h3 & -> & Hres); [done..| |done| |apply Hres].
  - eapply (new_state_agrees now); rewrite ?E2; done.
  - intros u' Hne. apply touch_others; [by apply Hr|done|]. by eapply read_user_ok.
Qed.

Lemma set_syncs_inv now h f : presence_inv now h → presence_inv now (set_syncs f h).
Proof. intros [[] Hu]. split; [split; done|exact Hu]. Qed.

Lemma user_syncing_inv now h u d a p : is_mine_id hs u = true → presence_inv now h →
  presence_inv now (user_syncing hs now u d a p h).2.
Proof.
  intros Hm Hi. unfold user_syncing. destruct (negb a || negb _); [done|].
  unfold mbind, PM_bind, modify_h, lift_h.
  set (h1 := set_syncs _ h). assert (presence_inv now h1) as Hi1 by by apply set_syncs_inv.
  destruct (from_string UserID_SIGIL u); [|done].
  pose proof (set_state_inv now h1 u d p None false true Hm Hi1) as Hs.
  by destruct (presence_set_state hs now u d p None false true h1) as [[] h2].
Qed.

(** A state whose sync time alone changes. *)
Lemma sync_update now h u t : presence_inv now h → is_mine_id hs u = true → ∃ st h1 h2,
  current_state_for_user u h = (Ok st, h1) ∧ read_result h h1 ∧ read_state now h u st ∧
  _update_states hs now [replace_sync_ts t st] false h1 = (Ok tt, h2) ∧
  update_result hs now h1 [replace_sync_ts t st] h2.
Proof.
  intros [Hb Hu] Hm. destruct (current_state_spec now h u Hb) as (st & h1 & E & Hr & Hs).
  destruct (update_one_user now h1 u (replace_sync_ts t st) false) as (h2 & E2 & Hres); [by apply Hr|done|..].
  - by destruct Hs.
  - exact (read_agrees now h h1 u st Hb Hr (Hu u) Hm Hs).
  - by apply Hs.
  - intros u' _. by eapply read_user_ok.
  - exists st, h1, h2. done.
Qed.

Lemma sync_end_inv now h u d : is_mine_id hs u = true → presence_inv now h →
  presence_inv now (sync_end hs now u d h).2.
Proof.
  intros Hm Hi. unfold sync_end, mbind, PM_bind, get_h, modify_h, lift_h.
  destruct (_ !! (u, d)) as [n|]; [|done].
  set (h1 := set_syncs _ h). assert (presence_inv now h1) as Hi1 by by apply set_syncs_inv.
  destruct (sync_update now h1 u now Hi1 Hm) as (st & h2 & h3 & -> & _ & _ & -> & Hres). apply Hres.
Qed.

(** ** Other processes *)

Lemma set_external_inv now h f g : presence_inv now h →
  (∀ p s ud, f (external_process_to_current_syncs h) !! p = Some s → ud ∈ s → is_mine_id hs ud.1 = true) →
  presence_inv now (set_external f g h).
Proof. intros [[] Hu] He. split; [split; done|exact Hu]. Qed.

(** The syncs of one process, with those of local users only. *)
Lemma insert_external_inv now h p s g : presence_inv now h →
  (∀ ud, ud ∈ s → is_mine_id hs ud.1 = true) →
  presence_inv now (set_external <[p := s]> g h).
Proof.
  intros Hi Hs. apply set_external_inv; [done|]. intros p' s' ud.
  rewrite lookup_insert_Some. intros [[<- <-]|[_ Hp]]; [apply Hs|]. by apply (bi_external _ _ _ (proj1 Hi) p').
Qed.

Lemma process_syncs_mine now h p ud : base_inv now h →
  ud ∈ (default ∅ (external_process_to_current_syncs h !! p) : gset UserDevice) → is_mine_id hs ud.1 = true.
Proof.
  intros Hb. destruct (external_process_to_current_syncs h !! p) as [s|] eqn:E; cbn; [|set_solver].
  by apply (bi_external _ _ _ Hb p).
Qed.

Lemma set_dev_sync_inv now h u d t : is_mine_id hs u = true → presence_inv now h →
  presence_inv now (set_devices (update_device u d (set_dev_sync t)) h).
Proof.
  intros Hm [Hb Hu]. split; [by apply touch_base|]. intros u'. destruct (decide (u' = u)) as [->|Hne].
  - destruct (Hu u) as [Ha Ht]. split; [|done]. intros _. change (cur (set_devices _ h) u) with (cur h u).
    apply (agrees_sync now); [done|by eapply cur_id|done|by apply Ha].
  - by apply touch_others.
Qed.

(** A row is processed: what is known of the process afterwards. *)
Lemma external_row_spec now h p u d b t : is_mine_id hs u = true → presence_inv now h →
  let pp := default ∅ (external_process_to_current_syncs h !! p) : gset UserDevice in
  ∃ h', update_external_syncs_row hs now p u d b t h = (Ok tt, h') ∧ presence_inv now h' ∧
    external_process_to_current_syncs h' =
    <[p := if b then {[(u, d)]} ∪ pp else pp ∖ {[(u, d)]}]> (external_process_to_current_syncs h).
Proof.
  intros Hm Hi. pose proof Hi as [Hb Hu]. unfold update_external_syncs_row, mbind, PM_bind, modify_h, get_h.
  destruct (current_state_spec now h u Hb) as (st & h1 & -> & Hr & Hs).
  pose proof (rr_rest _ _ Hr) as (_ & _ & He1 & _). rewrite <-He1.
  set (pp := default ∅ (external_process_to_current_syncs h1 !! p) : gset UserDevice).
  pose proof (read_all _ _ _ Hr Hi) as Hi1.
  assert (∀ ud, ud ∈ pp → is_mine_id hs ud.1 = true) as Hpp.
  { intros ud. apply (process_syncs_mine now h1). apply Hi1. }
  set (h2 := set_external _ _ h1).
  assert (presence_inv now h2) as Hi2 by by apply insert_external_inv.
  assert (∀ h', presence_inv now h' → presence_inv now (set_external id <[p := now]> h')) as Hend.
  { intros h' Hi'. apply set_external_inv; [done|]. by apply (bi_external _ _ _ (proj1 Hi')). }
  destruct b.
  - case_decide as Hd; eexists; (split; [done|]); cbn.
    + split; [|by rewrite insert_insert_eq]. apply Hend, insert_external_inv; [done|].
      intros ud [->%elem_of_singleton|?]%elem_of_union; [done|by apply Hpp].
    + split; [by apply Hend|]. f_equal. set_solver.
  - case_decide as Hd; [|eexists; split; [done|]; cbn; split; [by apply Hend|]; f_equal; set_solver].
    set (h3 := set_devices _ h2).
    assert (presence_inv now h3) as Hi3 by by apply set_dev_sync_inv.
    destruct (update_one_user now h3 u (replace_sync_ts t st) false) as (h4 & -> & Hres);
      [apply Hi3|done|by destruct Hs| |by apply Hs|by intros; apply Hi3|].
    + apply (agrees_sync now h2 u d t (replace_sync_ts t st)); [apply Hi2|by destruct Hs|done|].
      exact (read_agrees now h h1 u st Hb Hr (Hu u) Hm Hs).
    + eexists. split; [done|]. split.
      * apply Hend, insert_external_inv; [apply Hres|]. intros ud [? _]%elem_of_difference. by apply Hpp.
      * destruct (ur_rest _ _ _ _ _ Hres) as (_ & _ & He4 & _). cbn. rewrite He4. cbn. by rewrite insert_insert_eq.
Qed.

Lemma external_row_inv now h p u d b t : is_mine_id hs u = true → presence_inv now h →
  presence_inv now (update_external_syncs_row hs now p u d b t h).2.
Proof. intros Hm Hi. by destruct (external_row_spec now h p u d b t Hm Hi) as (h' & -> & Hi' & _). Qed.

Lemma external_clear_inv now h p : presence_inv now h →
  presence_inv now (update_external_syncs_clear hs now p h).2.
Proof.
  intros Hi. unfold update_external_syncs_clear, mbind, PM_bind, modify_h, get_h.
  set (pp := default ∅ (external_process_to_current_syncs h !! p) : gset UserDevice).
  assert (∀ ud, ud ∈ pp → is_mine_id hs ud.1 = true) as Hpp.
  { intros ud. apply (process_syncs_mine now h). apply Hi. }
  set (h1 := set_external (delete p) id h).
  assert (presence_inv now h1) as Hi1.
  { apply set_external_inv; [done|]. intros p' s ud. rewrite lookup_delete_Some. intros [_ ?].
    by apply (bi_external _ _ _ (proj1 Hi) p'). }
  assert (∀ l, (∀ ud, ud ∈ l → is_mine_id hs ud.1 = true) → presence_inv now
    (set_devices (λ m, foldl (λ m ud, update_device ud.1 ud.2 (set_dev_sync now) m) m l) h1)) as Hfold.
  { intros l. induction l as [|ud l IH] using rev_ind; intros Hl.
    - by destruct h1.
    - replace (set_devices _ h1) with (set_devices (update_device ud.1 ud.2 (set_dev_sync now))
        (set_devices (λ m, foldl (λ m ud, update_device ud.1 ud.2 (set_dev_sync now) m) m l) h1));
        [|unfold set_devices; cbn; by rewrite foldl_app].
      apply set_dev_sync_inv; [apply Hl; set_solver|]. apply IH. set_solver. }
  specialize (Hfold (elements pp)). set (h2 := set_devices _ h1) in *.
  assert (presence_inv now h2) as Hi2. { apply Hfold. intros ud ?%elem_of_elements. by apply Hpp. }
  destruct (current_states_spec now h2 (elements (set_map fst pp : StrSet)) (proj1 Hi2))
    as (r & h3 & -> & Hr & Hd & Hs).
  destruct (update_states_spec hs enabled tracked now h3 (replace_sync_ts now <$> (map_to_list r).*2) false)
    as (h4 & -> & Hres).
  - apply Hr, Hi2.
  - intros u _. eapply read_user_ok; [done|]. apply Hi2.
  - intros st (st0 & -> & ([u st1] & -> & Hin)%list_elem_of_fmap)%list_elem_of_fmap.
    apply elem_of_map_to_list in Hin. cbn [snd].
    pose proof (Hs _ _ Hin) as Hrs. assert (is_mine_id hs u = true) as Hm.
    { assert (is_Some (r !! u)) as Hu by eauto. apply Hd in Hu.
      apply elem_of_elements, elem_of_map in Hu as (ud & -> & Hud). by apply Hpp. }
    unfold good. cbn [user_id replace_sync_ts]. destruct Hrs as (Hid & ?). rewrite Hid, Hm.
    split; [|by apply (Hs _ _ Hin)].
    exact (read_agrees now h2 h3 u st1 (proj1 Hi2) Hr (proj2 Hi2 u) Hm (Hs _ _ Hin)).
  - apply set_external_inv; [apply Hres|]. apply (bi_external _ _ _ (proj1 (ur_inv _ _ _ _ _ Hres))).
Qed.

(** ** Federation *)

Lemma domain_not_mine origin u : get_domain_from_id u = Ok origin → origin ≠ server_name hs →
  is_mine_id hs u = false.
Proof.
  unfold get_domain_from_id, is_mine_id. destruct (str_find _ u); [|done]. intros [= ->] Hne.
  by apply String.eqb_neq.
Qed.

(** The updates collected so far: of remote users, received now. *)
Definition collected now (updates : list UserPresenceState) : Prop :=
  ∀ st, st ∈ updates → is_mine_id hs (user_id st) = false ∧ last_federation_update_ts st = now.

Lemma incoming_push_spec now origin updates p h : origin ≠ server_name hs →
  presence_inv now h → collected now updates →
  presence_inv now (incoming_push now origin updates p h).2 ∧
  ∀ updates', (incoming_push now origin updates p h).1 = Ok updates' → collected now updates'.
Proof.
  intros Ho Hi Hc. unfold incoming_push, mbind, PM_bind, lift_h.
  assert (presence_inv now h ∧ ∀ updates', Ok updates = Ok updates' → collected now updates') as Hskip.
  { split; [done|]. by intros ? [= <-]. }
  destruct (push_user_id p) as [u|]; [|done]. destruct (String.eqb u ""); [done|].
  destruct (get_domain_from_id u) as [dom|] eqn:Ed; [|done].
  destruct (String.eqb dom origin) eqn:Eo; [|done]. apply String.eqb_eq in Eo as ->. cbn [negb].
  destruct (falsy (push_presence p)); [done|].
  destruct (current_state_spec now h u (proj1 Hi)) as (st & h1 & -> & Hr & Hid & _).
  split; [by eapply read_all|]. intros updates'. unfold mret, PM_ret. cbn [fst]. intros [= <-].
  intros st' [Hst'| ->%list_elem_of_singleton]%elem_of_app; [by apply Hc|].
  destruct (push_last_active_ago p); cbn; rewrite Hid; (split; [by eapply domain_not_mine|done]).
Qed.

Lemma incoming_inv now h origin pushes : origin ≠ server_name hs → presence_inv now h →
  presence_inv now (incoming_presence hs now origin pushes h).2.
Proof.
  intros Ho Hi. unfold incoming_presence. rewrite tracked. cbn [negb].
  assert (∀ l updates h', presence_inv now h' → collected now updates →
    presence_inv now (foldP (incoming_push now origin) updates l h').2 ∧
    ∀ updates', (foldP (incoming_push now origin) updates l h').1 = Ok updates' → collected now updates') as Hf.
  { induction l as [|p l IH]; intros updates h' Hi' Hc; cbn [foldP].
    - split; [done|]. by intros ? [= <-].
    - destruct (incoming_push_spec now origin updates p h' Ho Hi' Hc) as [H1 H2].
      unfold mbind, PM_bind. destruct (incoming_push now origin updates p h') as [[up|] h1]; [|done].
      apply IH; [done|]. by apply H2. }
  destruct (Hf pushes [] h Hi) as [H1 H2]; [by intros st ?%elem_of_nil|].
  unfold mbind, PM_bind. destruct (foldP _ [] pushes h) as [[up|] h1]; cbn [fst snd] in *; [|done].
  case_decide; [done|].
  destruct (update_states_spec hs enabled tracked now h1 up false) as (h2 & -> & Hres);
    [apply H1|intros; apply H1| |apply Hres].
  intros st Hst. destruct (H2 _ eq_refl st Hst) as [Hm Hfed]. unfold good. rewrite Hm. by left.
Qed.

(** ** Persistence *)

Lemma states_of_spec now h : base_inv now h → ∃ l,
  states_of h (unpersisted_users_changes h) = Ok l ∧ user_id <$> l = elements (unpersisted_users_changes h) ∧
  ∀ st, st ∈ l → user_to_current_state h !! user_id st = Some st.
Proof.
  intros Hb. unfold states_of.
  assert (∀ us, (∀ u, u ∈ us → is_Some (user_to_current_state h !! u)) → ∃ l,
    traverse (λ u, match user_to_current_state h !! u with Some st => Ok st | None => Raise KeyError end) us
    = Ok l ∧ user_id <$> l = us ∧ ∀ st, st ∈ l → user_to_current_state h !! user_id st = Some st) as Ht.
  { induction us as [|u us IH]; intros Hus; [exists []; set_solver|]. cbn [traverse].
    destruct (Hus u ltac:(left)) as [st Hst]. rewrite Hst.
    destruct IH as (l & -> & Hl & Hin); [set_solver|]. exists (st :: l). split; [done|].
    pose proof (bi_ids _ _ _ Hb _ _ Hst) as Hid. cbn. rewrite Hid, Hl. split; [done|].
    intros st' [->|?]%elem_of_cons; [by rewrite Hid|by apply Hin]. }
  apply Ht. intros u ?%elem_of_elements. by apply (bi_unpersisted _ _ _ Hb).
Qed.

(** Everything is in the database. *)
Definition all_persisted h : Prop := ∀ u st, user_to_current_state h !! u = Some st →
  persisted (presence_db h) u st ∨ (st = default_state u ∧ ∀ st', ¬ persisted (presence_db h) u st').

Lemma flush_spec now h l f : base_inv now h →
  user_id <$> l = elements (unpersisted_users_changes h) →
  (∀ st, st ∈ l → user_to_current_state h !! user_id st = Some st) →
  (∀ X, f X ⊆ X) →
  let h' := set_db (update_presence l) [] (set_unpersisted f h) in base_inv now h' ∧ all_persisted h'.
Proof.
  intros Hb Hl Hin Hf. pose proof Hb as [Bep Btw Bb Bid Bst Bco Bpe Bun Bva Bcl Bro Bex].
  assert (all_persisted (set_db (update_presence l) [] (set_unpersisted f h))) as Hall.
  { intros u st Hu. cbn in *. setoid_rewrite update_presence_persisted; [|done..].
    destruct (decide (u ∈ unpersisted_users_changes h)) as [Hu'|Hu'].
    - left. left. apply elem_of_elements in Hu'. rewrite <-Hl in Hu'. apply list_elem_of_fmap in Hu' as (x & -> & Hx).
      rewrite (Hin _ Hx) in Hu. by simplify_eq.
    - assert (u ∉ user_id <$> l) as Hn by by rewrite Hl, elem_of_elements.
      destruct (Bpe _ _ Hu Hu') as [Hp|[-> Hp]]; [left; by right|]. right. split; [done|].
      intros st' [[Hid Hst]|[_ Hst]]; [|by apply (Hp st')]. apply Hn. rewrite <-Hid. by apply list_elem_of_fmap_2. }
  split; [|done]. split; try done.
  - cbn. apply update_presence_wf; [done|]. rewrite Hl. apply NoDup_elements.
  - intros u st Hu. cbn in *. rewrite update_presence_persisted by done. intros [[<- Hst]|[_ Hp]]; [|by apply (Bco u)].
    rewrite (Hin _ Hst) in Hu. done.
  - intros u st Hu _. by apply Hall.
  - intros u Hu. cbn in *. apply Bun. by apply Hf.
  - intros u st Hm. cbn. rewrite update_presence_persisted by done. intros [Hu|[[<- Hst]|[_ Hp]]]; apply (Bro _ st Hm); auto.
Qed.

Lemma persist_inv now h : presence_inv now h → presence_inv now (_persist_unpersisted_changes h).2.
Proof.
  intros [Hb Hu]. unfold _persist_unpersisted_changes, mbind, PM_bind, get_h, modify_h, lift_h.
  case_decide as He.
  - replace (set_unpersisted (λ _, ∅) h) with h; [done|]. by destruct h; cbn in *; subst.
  - change (states_of (id (set_unpersisted (λ _, ∅) h)) (unpersisted_users_changes h))
      with (states_of h (unpersisted_users_changes h)).
    destruct (states_of_spec now h Hb) as (l & -> & Hl & Hin).
    destruct (flush_spec now h l (λ _, ∅) Hb Hl Hin) as [Hb' _]; [set_solver|]. split; [exact Hb'|exact Hu].
Qed.

(** Nothing is left to persist after a shutdown. *)
Lemma on_shutdown_spec now h : base_inv now h → ∃ h', _on_shutdown true h = (Ok tt, h') ∧
  base_inv now h' ∧ all_persisted h' ∧ user_to_current_state h' = user_to_current_state h ∧
  ∀ u st, user_to_current_state h !! u = None → persisted (presence_db h') u st ↔ persisted (presence_db h) u st.
Proof.
  intros Hb. unfold _on_shutdown. cbn [negb]. unfold mbind, PM_bind, get_h, modify_h, lift_h. case_decide as He.
  - exists h. split_and!; try done. intros u st Hu. apply (bi_persisted _ _ _ Hb); [done|].
    rewrite He. apply not_elem_of_empty.
  - cbn [id]. destruct (states_of_spec now h Hb) as (l & -> & Hl & Hin).
    destruct (flush_spec now h l id Hb Hl Hin) as [Hb' Hall]; [done|].
    replace (set_unpersisted id h) with h in * by by destruct h.
    eexists. split_and!; [done..|]. intros u st Hu. cbn. rewrite update_presence_persisted by apply Hb.
    assert (u ∉ user_id <$> l).
    { rewrite Hl, elem_of_elements. intros Hx. destruct (bi_unpersisted _ _ _ Hb _ Hx). congruence. }
    split; [|by right]. intros [[<- Hst]|[_ ?]]; [|done]. rewrite (Hin _ Hst) in Hu. done.
Qed.

End Operations.
