(* ===== verification/PresenceTimeouts.v ===== *)
(** * Presence over time

    [_handle_timeouts] keeps the invariant too, so it holds of every state the
    handler reaches. From it follow the theorems on what users see: nobody
    stays online for ever, a device that syncs is not timed out, and a restart
    forgets nothing. *)

From S2P Require Import Prelude PyJson Identifiers WheelTimer PresenceStore Presence PresenceProps PresenceInv PresenceOps.

(** ** [handle_timeouts] *)

Section Timeouts.
Context (hs : PresenceConfig).

Abbreviation mine := (is_mine_id hs).

(** The check of one user. *)
Definition check_user (sy : gset UserDevice) (devs : StrMap Devices) (now : Z) (st : UserPresenceState) :=
  handle_timeout st (mine (user_id st)) sy (default ∅ (devs !! user_id st)) now.

(** What the check of a user needs to go through. *)
Definition checkable (devs : StrMap Devices) (st : UserPresenceState) : Prop :=
  mine (user_id st) = true →
  all_valid (device_values (default ∅ (devs !! user_id st))) ∧
  combined (device_values (default ∅ (devs !! user_id st))) (state st).

Lemma check_devices_empty u sy now : (check_devices u sy now ∅).1 = ∅.
Proof. done. Qed.

Lemma check_user_total sy devs now st : checkable devs st → ∃ r ds,
  check_user sy devs now st = Ok (r, ds) ∧ (∀ st', r = Some st' → user_id st' = user_id st) ∧
  (devs !! user_id st = None → ds = ∅).
Proof.
  intros Hc. unfold check_user. destruct (mine (user_id st)) eqn:Em.
  - destruct (Hc Em) as [Hv Hs]. destruct (decide (state st = PresenceState.OFFLINE)) as [Ho|Ho].
    + exists None, (default ∅ (devs !! user_id st)). split_and!; [|done|by intros ->].
      unfold handle_timeout. by rewrite decide_True.
    + destruct (handle_timeout_local st sy _ now Hv Hs Ho) as (r & ds & -> & [Hd (s & _ & Hr)]).
      exists r, ds. split_and!; [done| |].
      * by intros st' ->; subst.
      * intros Hn. rewrite Hd, Hn. apply check_devices_empty.
  - destruct (handle_timeout_remote st sy (default ∅ (devs !! user_id st)) now) as (r & -> & Hr).
    do 2 eexists. split_and!; [done| |by intros ->]. by intros st' ->; subst.
Qed.

Record timeouts_result (sy : gset UserDevice) (devs : StrMap Devices) (now : Z)
    (states changes : list UserPresenceState) (devs' : StrMap Devices) : Prop := mkTimeoutsResult {
  tr_nodup : NoDup (user_id <$> changes);
  tr_others u : (u ∉ user_id <$> states) → devs' !! u = devs !! u ∧ (u ∉ user_id <$> changes);
  tr_checked st : st ∈ states → ∃ r ds, check_user sy devs now st = Ok (r, ds) ∧
    default ∅ (devs' !! user_id st) = ds ∧
    match r with Some st' => st' ∈ changes | None => user_id st ∉ user_id <$> changes end;
  tr_changes st' : st' ∈ changes → ∃ st ds, st ∈ states ∧ user_id st' = user_id st ∧
    check_user sy devs now st = Ok (Some st', ds)
}.

Lemma handle_timeouts_spec sy devs now states :
  NoDup (user_id <$> states) → (∀ st, st ∈ states → checkable devs st) →
  ∃ changes devs', handle_timeouts states mine sy devs now = Ok (changes, devs') ∧
    timeouts_result sy devs now states changes devs'.
Proof.
  intros Hnd Hck. unfold handle_timeouts.
  destruct (foldM_total_prefix (λ pre (acc : list UserPresenceState * StrMap Devices),
    timeouts_result sy devs now pre acc.1 acc.2) (timeouts_step mine sy now) ([], devs) states)
    as ([changes devs'] & -> & Hr); [..|by exists changes, devs'].
  { split; cbn; [constructor|intros; split; [done|apply not_elem_of_nil]|..]; by intros ? ?%elem_of_nil. }
  intros pre st post [changes devs1] -> [Rn Ro Rc Rh]. cbn [fst snd] in *. unfold timeouts_step. cbv zeta.
  rewrite fmap_app in Hnd. apply NoDup_app in Hnd as (_ & Hdis & _).
  assert (user_id st ∉ user_id <$> pre) as Hst by (intros Hin; apply (Hdis _ Hin); left).
  destruct (Ro _ Hst) as [Hd Hnc]. rewrite Hd.
  destruct (check_user_total sy devs now st) as (r & ds & E & Hid & Hnone); [apply Hck; set_solver|].
  pose proof E as E'. unfold check_user in E'. rewrite E'. cbn [mbind res_bind].
  eexists; split; [done|]. cbn [fst snd].
  set (devs2 := match devs !! user_id st with Some _ => _ | None => _ end).
  assert (∀ u, u ≠ user_id st → devs2 !! u = devs1 !! u) as Hne.
  { intros u Hu. unfold devs2. destruct (devs !! user_id st); [by rewrite lookup_insert_ne|done]. }
  assert (default ∅ (devs2 !! user_id st) = ds) as Hds.
  { unfold devs2. destruct (devs !! user_id st) eqn:Eu; [by rewrite lookup_insert_eq|].
    rewrite Hd. cbn. symmetry. by apply Hnone. }
  set (changes' := match r with Some s => put_user s changes | None => changes end).
  assert (∀ u, u ∈ user_id <$> changes' ↔ u ∈ user_id <$> changes ∨ (is_Some r ∧ u = user_id st)) as Hcu.
  { intros u. unfold changes'. destruct r as [s|]; [|by rewrite is_Some_alt; naive_solver].
    rewrite put_user_users, (Hid s eq_refl). split; [intros [?|?]; eauto|intros [?|[_ ?]]; auto]. }
  split.
  - unfold changes'. destruct r; [by apply put_user_nodup|done].
  - intros u Hu. rewrite fmap_app, elem_of_app in Hu. cbn in Hu. rewrite list_elem_of_singleton in Hu.
    destruct (Ro u ltac:(tauto)) as [<- ?]. rewrite Hne, Hcu by tauto. split; [done|tauto].
  - intros x [Hx| ->%list_elem_of_singleton]%elem_of_app.
    + assert (user_id x ≠ user_id st) as Hxs.
      { intros Heq. apply Hst. rewrite <-Heq. by apply list_elem_of_fmap_2. }
      destruct (Rc x Hx) as (r' & ds' & Ex & Hdx & Hrx). exists r', ds'. rewrite Hne by done.
      split_and!; [done..|]. destruct r' as [s'|]; [|rewrite Hcu; tauto].
      unfold changes'. destruct r as [s|]; [|done]. rewrite put_user_fresh; [by apply elem_of_app; left|].
      by rewrite (Hid s eq_refl).
    + exists r, ds. split_and!; [done..|]. unfold changes'. destruct r as [s|]; [apply put_user_in|done].
  - intros x Hx. assert (x ∈ changes ∨ r = Some x) as [Hx'| ->].
    { unfold changes' in Hx. destruct r; [|by left]. apply put_user_elem in Hx as [->|?]; auto. }
    + destruct (Rh x Hx') as (y & ds' & Hy & ? & ?). exists y, ds'. split_and!; [|done..].
      apply elem_of_app. by left.
    + exists st, ds. split_and!; [apply elem_of_app; right; by left|by apply Hid|done].
Qed.

(** What the check of a local user does, whatever its state. *)
Record check_local (devs : StrMap Devices) (now : Z) (st : UserPresenceState)
    (r : option UserPresenceState) (ds : Devices) : Prop := mkCheckLocal {
  cl_valid : all_valid (device_values ds);
  cl_online d dev : ds !! d = Some dev → dev_state dev = PresenceState.ONLINE →
    default ∅ (devs !! user_id st) !! d = Some dev ∧
    (state st = PresenceState.OFFLINE ∨ now - dev_last_active_ts dev ≤ IDLE_TIMER);
  cl_state : ∃ s, combined (device_values ds) s ∧
    match r with
    | Some st' => st' = replace_state s st
    | None => s = state st ∧ (state st = PresenceState.OFFLINE ∨
                              now - last_active_ts st ≤ LAST_ACTIVE_GRANULARITY)
    end
}.

Lemma check_user_local sy devs now st r ds : mine (user_id st) = true → checkable devs st →
  check_user sy devs now st = Ok (r, ds) → check_local devs now st r ds.
Proof.
  intros Hm Hc. destruct (Hc Hm) as [Hv Hs]. unfold check_user. rewrite Hm.
  destruct (decide (state st = PresenceState.OFFLINE)) as [Ho|Ho].
  - unfold handle_timeout. rewrite decide_True by done. intros [= <- <-]. split; [done|auto|].
    exists (state st). auto.
  - destruct (handle_timeout_local st sy _ now Hv Hs Ho) as (r' & ds' & -> & [-> (s & Hcs & Hr)]).
    intros [= <- <-]. split; [by apply check_devices_valid| |].
    + intros d dev Hd Hon. apply check_devices_lookup in Hd as (dev0 & Hd & _ & Hdev).
      destruct (check_device_cases (user_id st) sy now d dev0) as [[(_ & E & _)|(Hidle & E & _)] _];
        rewrite E in Hdev; subst dev; [done|]. split; [done|]. right. apply Z.nlt_ge. tauto.
    + exists s. split; [done|]. destruct r'; [done|]. destruct Hr. auto.
Qed.

Lemma check_user_remote sy devs now st r ds : mine (user_id st) = false →
  check_user sy devs now st = Ok (r, ds) → ds = default ∅ (devs !! user_id st) ∧
  match r with
  | Some st' => st' = replace_state PresenceState.OFFLINE st
  | None => state st = PresenceState.OFFLINE ∨ now - last_federation_update_ts st ≤ FEDERATION_TIMEOUT
  end.
Proof.
  intros Hm. unfold check_user. rewrite Hm.
  destruct (handle_timeout_remote st sy (default ∅ (devs !! user_id st)) now) as (r' & -> & Hr).
  by intros [= <- <-].
Qed.

(** ** The timers that are not due *)

(** When the timer a user needs is due. *)
Definition deadline (st : UserPresenceState) : Z :=
  if mine (user_id st) then last_active_ts st + IDLE_TIMER
  else last_federation_update_ts st + FEDERATION_TIMEOUT.

Lemma has_timer_fetch now now' w u t : now ≤ now' → timer_wf w now → has_timer w now u t →
  (u ∉ (wt_fetch now' w).1) ∨ now' ≤ t → has_timer (wt_fetch now' w).2 now' u t.
Proof.
  intros Hn Hw (k & Hs & Hk) Hor. destruct (wt_fetch_spec now now' w Hn Hw) as (_ & Hb & Hret & Hsch).
  assert (0 < bucket_size w) as Hb0 by apply Hw. pose proof (key_of_mono w _ _ Hb0 Hn).
  exists k. unfold key_of in *. rewrite Hb. split; [|lia]. apply Hsch. split; [done|].
  destruct Hor as [Hnot|Hle].
  - apply Z.nle_gt. intros Hdue. apply Hnot, Hret. eauto.
  - pose proof (Z.quot_le_mono _ _ _ Hb0 Hle). lia.
Qed.

Lemma timed_fetch now now' w st : now ≤ now' → timer_wf w now → timed hs now w st →
  (user_id st ∉ (wt_fetch now' w).1) ∨ now' ≤ deadline st → timed hs now' (wt_fetch now' w).2 st.
Proof.
  intros Hn Hw Ht Hor. unfold timed, deadline in *.
  case_match; intros Hs; (eapply has_timer_fetch; [done|done|by apply Ht|done]).
Qed.

(** ** [_handle_timeouts] *)

Hypothesis enabled : presence_enabled hs = true.
Hypothesis tracked : track_presence hs = true.
Implicit Types (h : PresenceHandler) (u : string) (now : Z).

(** The users that are looked at, and the state they are looked at in. *)
Definition checked_users now h : StrSet :=
  list_to_set (wt_fetch now (wheel_timer h)).1 ∪
  ⋃ ((λ p, set_map fst (default ∅ (external_process_to_current_syncs h !! p) : gset UserDevice)) <$>
     expired_processes now (external_process_last_updated_ms h)).

Definition fetched now h : PresenceHandler :=
  let expired := expired_processes now (external_process_last_updated_ms h) in
  set_external (λ m, foldr delete m expired) (λ m, foldr delete m expired)
    (set_timer (wt_fetch now (wheel_timer h)).2 h).

Definition checked_states now h : list UserPresenceState := cur h <$> elements (checked_users now h).

Lemma handle_timeouts_eq now h :
  _handle_timeouts hs now h =
  ('(changes, devices) ← lift_h (handle_timeouts (checked_states now h) mine
     (syncing_user_devices (fetched now h)) (_user_to_device_to_current_state h) now);
   modify_h (set_devices (λ _, devices));;
   _update_states hs now changes false) (fetched now h).
Proof.
  unfold _handle_timeouts, checked_states, checked_users, fetched, mbind, PM_bind, get_h, modify_h.
  destruct (wt_fetch now (wheel_timer h)) as [due w]. done.
Qed.

Lemma lookup_foldr_delete {V} (l : list string) (m : StrMap V) p v :
  foldr delete m l !! p = Some v → m !! p = Some v.
Proof. induction l as [|x l IH]; cbn; [done|]. rewrite lookup_delete_Some. tauto. Qed.

Lemma fetched_base now now' h : now ≤ now' → base_inv hs now h → base_inv hs now' (fetched now' h).
Proof.
  intros Hn [Bep Btw Bb Bid Bst Bco Bpe Bun Bva Bcl Bro Bex].
  destruct (wt_fetch_spec now now' (wheel_timer h) Hn Btw) as (Hw & Hb & _). split; try done.
  - lia.
  - cbn. congruence.
  - intros u d dev Hm Hd Ho. specialize (Bcl u d dev Hm Hd Ho). lia.
  - intros u st Hm Hrw. destruct (Bro u st Hm Hrw). split; [done|lia].
  - intros p s ud Hp. cbn in Hp. apply lookup_foldr_delete in Hp. by apply (Bex p).
Qed.

Lemma checked_states_users now now' h : base_inv hs now h →
  user_id <$> checked_states now' h = elements (checked_users now' h).
Proof.
  intros Hb. unfold checked_states. rewrite <-list_fmap_compose.
  transitivity (id <$> elements (checked_users now' h)); [|apply list_fmap_id].
  apply list_fmap_ext. intros _ u _. cbn. by eapply cur_id.
Qed.

Lemma elem_of_checked now now' h st : base_inv hs now h → st ∈ checked_states now' h →
  st = cur h (user_id st) ∧ user_id st ∈ checked_users now' h.
Proof.
  intros Hb (u & -> & Hu%elem_of_elements)%list_elem_of_fmap. by rewrite (cur_id _ _ _ _ Hb).
Qed.

(** The result, for each user. *)
Record timeouts_effect now h h' : Prop := mkTimeoutsEffect {
  te_inv : presence_inv hs now h';
  te_others u : u ∉ checked_users now h → cur h' u = cur h u ∧ devices_of h' u = devices_of h u;
  te_checked u : u ∈ checked_users now h → ∃ r ds,
    check_user (syncing_user_devices (fetched now h)) (_user_to_device_to_current_state h) now (cur h u)
      = Ok (r, ds) ∧
    devices_of h' u = ds ∧
    match r with Some st' => same_presence st' (cur h' u) | None => cur h' u = cur h u end
}.

Section Effect.
Context (now now' : Z) (h : PresenceHandler) (changes : list UserPresenceState) (devs' : StrMap Devices).
Hypothesis later : now ≤ now'.
Hypothesis inv : presence_inv hs now h.
Hypothesis result : timeouts_result (syncing_user_devices (fetched now' h))
  (_user_to_device_to_current_state h) now' (checked_states now' h) changes devs'.

Let h3 := set_devices (λ _, devs') (fetched now' h).

Lemma cur_checkable u : checkable (_user_to_device_to_current_state h) (cur h u).
Proof.
  destruct inv as [Hb Hu]. unfold checkable. rewrite (cur_id _ _ _ _ Hb). intros Hm.
  split; [by apply (bi_valid _ _ _ Hb)|]. destruct (Hu u) as [Ha _]. destruct (Ha Hm) as [Hc _].
  by rewrite (cur_id _ _ _ _ Hb) in Hc.
Qed.

Lemma cur_active u : mine u = true → last_active_ts (cur h u) ≤ now'.
Proof.
  intros Hm. destruct inv as [Hb _]. pose proof (bi_epoch _ _ _ Hb). unfold cur.
  destruct (user_to_current_state h !! u) as [st|] eqn:E; cbn; [|lia].
  destruct (bi_rows _ _ _ Hb u st Hm); [by left|lia].
Qed.

(** A user is left alone or checked. *)
Lemma checked_cases u :
  ((u ∉ checked_users now' h) ∧ (u ∉ user_id <$> changes) ∧ devices_of h3 u = devices_of h u) ∨
  (u ∈ checked_users now' h ∧ ∃ r ds,
     check_user (syncing_user_devices (fetched now' h)) (_user_to_device_to_current_state h) now' (cur h u)
       = Ok (r, ds) ∧ devices_of h3 u = ds ∧
     match r with Some st' => st' ∈ changes | None => u ∉ user_id <$> changes end).
Proof.
  destruct inv as [Hb _]. destruct (decide (u ∈ checked_users now' h)) as [Hc|Hc]; [right|left].
  - split; [done|]. destruct (tr_checked _ _ _ _ _ _ result (cur h u)) as (r & ds & E & Hd & Hr).
    { by apply list_elem_of_fmap_2, elem_of_elements. }
    rewrite (cur_id _ _ _ _ Hb) in Hd, Hr. exists r, ds. done.
  - destruct (tr_others _ _ _ _ _ _ result u) as [Hd Hn].
    { by rewrite (checked_states_users now), elem_of_elements. }
    split_and!; [done..|]. unfold devices_of. cbn. by rewrite Hd.
Qed.

Lemma checked_devices u d dev : mine u = true → devices_of h3 u !! d = Some dev →
  dev_state dev ∈ valid_states ∧
  (dev_state dev = PresenceState.ONLINE → devices_of h u !! d = Some dev).
Proof.
  intros Hm. destruct inv as [Hb _]. destruct (checked_cases u) as [(_ & _ & ->)|(_ & r & ds & E & -> & _)].
  - intros Hd. split; [|done]. apply (bi_valid _ _ _ Hb _ Hm), elem_of_device_values. eauto.
  - intros Hd. apply check_user_local in E as [Hv Ho _]; [|by rewrite (cur_id _ _ _ _ Hb)|apply cur_checkable].
    split; [apply Hv, elem_of_device_values; eauto|]. intros Hon. destruct (Ho _ _ Hd Hon) as [Hd' _].
    by rewrite (cur_id _ _ _ _ Hb) in Hd'.
Qed.

Lemma checked_base : base_inv hs now' h3.
Proof.
  destruct inv as [Hb _]. destruct (fetched_base _ _ _ later Hb) as [Bep Btw Bb Bid Bst Bco Bpe Bun _ _ Bro Bex].
  split; try done.
  - intros u Hm dev [d Hd]%elem_of_device_values. by apply (checked_devices u d dev).
  - intros u d dev Hm Hd Ho. destruct (checked_devices u d dev Hm Hd) as [_ Hd0].
    pose proof (bi_clock _ _ _ Hb u d dev Hm (Hd0 Ho) Ho). lia.
Qed.

(** The new state of a local user agrees with its devices. *)
Lemma checked_agrees u st s : mine u = true → user_id st = u → state st = s →
  last_active_ts st = last_active_ts (cur h u) → combined (device_values (devices_of h3 u)) s → agrees h3 st.
Proof.
  intros Hm Hid <- Hl Hc. unfold agrees. rewrite Hid, Hl. split; [done|]. intros d dev Hd Ho.
  destruct (checked_devices u d dev Hm Hd) as [_ Hd0]. destruct inv as [Hb Hu]. destruct (Hu u) as [Ha _].
  destruct (Ha Hm) as [_ Hon]. rewrite (cur_id _ _ _ _ Hb) in Hon. by apply (Hon d dev); [apply Hd0|].
Qed.

Lemma checked_user_ok u : (u ∉ user_id <$> changes) → user_ok hs now' h3 u.
Proof.
  intros Hn. destruct inv as [Hb Hu]. destruct (Hu u) as [Ha Ht].
  pose proof (cur_id _ _ _ u Hb) as Hid. pose proof (bi_timer _ _ _ Hb) as Hw.
  unfold user_ok. change (cur h3 u) with (cur h u).
  change (wheel_timer h3) with (wt_fetch now' (wheel_timer h)).2.
  destruct (checked_cases u) as [(Hc & _ & Hd)|(Hc & r & ds & E & Hd & Hr)].
  - split.
    + intros Hm. eapply checked_agrees; [done|done|done|done|]. rewrite Hd.
      destruct (Ha Hm) as [Hcs _]. by rewrite Hid in Hcs.
    + eapply timed_fetch; [done..|]. left. rewrite Hid. unfold checked_users in Hc. set_solver.
  - assert (r = None) as ->.
    { destruct r as [st'|]; [|done]. destruct Hn. pose proof E as E'.
      destruct (mine u) eqn:Hm.
      - apply check_user_local in E' as [_ _ (s & _ & ->)]; [|by rewrite Hid|apply cur_checkable].
        apply list_elem_of_fmap. by exists (replace_state s (cur h u)).
      - apply check_user_remote in E' as [_ ->]; [|by rewrite Hid].
        apply list_elem_of_fmap. by exists (replace_state PresenceState.OFFLINE (cur h u)). }
    destruct (mine u) eqn:Hm.
    + apply check_user_local in E as [_ _ (s & Hcs & -> & Hl)]; [|by rewrite Hid|apply cur_checkable]. split.
      * intros _. eapply checked_agrees; [done|done|done|done|]. by rewrite Hd.
      * destruct Hl as [Hoff|Hl]; [unfold timed; rewrite Hid, Hm, Hoff; done|].
        eapply timed_fetch; [done..|]. right. unfold deadline. rewrite Hid, Hm.
        unfold LAST_ACTIVE_GRANULARITY, IDLE_TIMER in *. lia.
    + split; [done|]. apply check_user_remote in E as [_ [Hoff|Hl]]; [unfold timed; by rewrite Hid, Hm, Hoff| |by rewrite Hid].
      eapply timed_fetch; [done..|]. right. unfold deadline. rewrite Hid, Hm. lia.
Qed.

Lemma checked_good st' : st' ∈ changes → good hs now' h3 st'.
Proof.
  intros Hc. destruct inv as [Hb _].
  destruct (tr_changes _ _ _ _ _ _ result _ Hc) as (st & ds & Hst & Hid' & E).
  destruct (elem_of_checked _ _ _ _ Hb Hst) as [Hst' Hin]. unfold good. rewrite Hid'.
  destruct (mine (user_id st)) eqn:Hm.
  - pose proof E as E'. apply check_user_local in E' as [_ _ (s & Hcs & ->)]; [|done|rewrite Hst'; apply cur_checkable].
    split; [|cbn; rewrite Hst'; by apply cur_active].
    eapply checked_agrees; [exact Hm|done|done|by rewrite <-Hst'|]. cbn.
    destruct (checked_cases (user_id st)) as [(? & _)|(_ & r & ds' & E' & -> & _)]; [done|].
    rewrite <-Hst', E in E'. by simplify_eq.
  - apply check_user_remote in E as [_ ->]; [|done]. by right.
Qed.
End Effect.

Lemma handle_timeouts_effect now now' h : now ≤ now' → presence_inv hs now h →
  ∃ h', _handle_timeouts hs now' h = (Ok tt, h') ∧ timeouts_effect now' h h'.
Proof.
  intros Hn Hi. pose proof Hi as [Hb Hu].
  destruct (handle_timeouts_spec (syncing_user_devices (fetched now' h)) (_user_to_device_to_current_state h)
    now' (checked_states now' h)) as (changes & devs' & E & Hr).
  { rewrite (checked_states_users now) by done. apply NoDup_elements. }
  { intros st Hst. destruct (elem_of_checked _ _ _ _ Hb Hst) as [-> _]. by eapply cur_checkable. }
  rewrite handle_timeouts_eq. unfold mbind, PM_bind, lift_h, modify_h. rewrite E.
  destruct (update_states_spec hs enabled tracked now' (set_devices (λ _, devs') (fetched now' h)) changes false)
    as (h' & -> & [Hui Hur Huo Hud]);
    [by eapply checked_base|intros; by eapply checked_user_ok|intros; by eapply checked_good|].
  exists h'. split; [done|].
  assert (∀ u, devices_of h' u = devices_of (set_devices (λ _, devs') (fetched now' h)) u) as Hd'.
  { intros u. destruct Hur as (Hd & _). unfold devices_of. by rewrite Hd. }
  split; [done|..]; intros u Hc;
    destruct (checked_cases now now' h changes devs' Hi Hr u) as [(Hc' & Hnot & Hd)|(Hc' & r & ds & Ec & Hd & Hm)]; try done.
  - rewrite Hd', Hd, Huo by done. done.
  - exists r, ds. rewrite Hd'. split_and!; [done..|]. destruct r as [st'|]; [|by rewrite Huo].
    assert (user_id st' = u) as Hid.
    { destruct (check_user_total (syncing_user_devices (fetched now' h)) (_user_to_device_to_current_state h)
        now' (cur h u) ltac:(by eapply cur_checkable)) as (r' & ds'' & E'' & Hid & _).
      rewrite Ec in E''. simplify_eq. rewrite (Hid _ eq_refl). by eapply cur_id. }
    destruct (Hud u) as (st & Hst & Hid' & Hs).
    { rewrite <-Hid. by apply list_elem_of_fmap_2. }
    assert (st = st') as ->; [|done].
    eapply (NoDup_fmap_inj_on user_id changes); [apply Hr|done|done|congruence].
Qed.

Lemma timeouts_inv now now' h : now ≤ now' → presence_inv hs now h →
  presence_inv hs now' (_handle_timeouts hs now' h).2.
Proof.
  intros Hn Hi. destruct (handle_timeouts_effect now now' h Hn Hi) as (h' & -> & He). apply He.
Qed.
End Timeouts.
