(* ===== verification/PresenceTheorems.v ===== *)
(** * What presence promises

    The events the handler is given, the states it reaches, and the theorems
    on them. *)

From S2P Require Import Prelude PyJson Identifiers WheelTimer PresenceStore Presence PresenceProps PresenceInv PresenceOps PresenceTimeouts.

Section Theorems.
Context (hs : PresenceConfig).
Hypothesis enabled : presence_enabled hs = true.
Hypothesis tracked : track_presence hs = true.
Implicit Types (h : PresenceHandler) (u : string) (now : Z).

(** ** Start up *)

(** The rows of local users that the handler can have written. *)
Definition db_ok now (db : PresenceStore) : Prop :=
  0 ≤ now ∧ store_wf db ∧ ∀ u st, persisted db u st → is_mine_id hs u = true →
    state st ∈ valid_states ∧ last_active_ts st ≤ now.

(** The loop has processed the states [pre]. *)
Record init_inv now (pre : list UserPresenceState) (acc : StrMap Devices * WheelTimer string) : Prop := mkInitInv {
  ii_timer : timer_wf acc.2 now;
  ii_bucket : bucket_size acc.2 = 5000;
  ii_timed st : st ∈ pre → timed hs now acc.2 st;
  ii_devices u ds : acc.1 !! u = Some ds → ∃ st, st ∈ pre ∧ user_id st = u ∧
    ds = {[None := mkDevice (user_id st) None (state st) (last_active_ts st) (last_user_sync_ts st)]};
  ii_all st : st ∈ pre → is_Some (acc.1 !! user_id st)
}.

Lemma init_user_spec now pre st acc : init_inv now pre acc →
  ∃ acc', init_user hs now acc st = Ok acc' ∧ init_inv now (pre ++ [st]) acc'.
Proof.
  intros [It Ib Itd Id Ia]. destruct acc as [devs w]. cbn [fst snd] in *. unfold init_user.
  destruct (insert_if_adds true now (user_id st) (last_active_ts st + IDLE_TIMER) w w (timer_adds_refl _ _ _ It))
    as (w1 & E1 & A1 & _ & T1).
  destruct (insert_if_adds true now (user_id st) (last_user_sync_ts st + SYNC_ONLINE_TIMEOUT) w w1 A1)
    as (w2 & E2 & A2 & A12 & _).
  set (t := if is_mine_id hs (user_id st) then last_federation_update_ts st + FEDERATION_PING_INTERVAL
            else last_federation_update_ts st + FEDERATION_TIMEOUT).
  destruct (insert_if_adds true now (user_id st) t w w2 A2) as (w3 & E3 & A3 & A23 & T3).
  cbn [insert_if] in *. rewrite E1. cbn [mbind res_bind]. rewrite E2. cbn [mbind res_bind].
  replace (if is_mine_id hs (user_id st) then _ else _) with (Ok w3 : res (WheelTimer string));
    [|rewrite <-E3; unfold t; by destruct (is_mine_id hs (user_id st))].
  cbn [mbind res_bind]. eexists; split; [done|]. split; cbn [fst snd].
  - apply A3.
  - rewrite (ta_bucket _ _ _ _ A3). done.
  - intros x [Hx| ->%list_elem_of_singleton]%elem_of_app; [by eapply timed_adds; [exact A3|apply Itd]|].
    unfold timed, t in *. destruct (is_mine_id hs (user_id st)); intros _; [|by apply T3].
    eapply has_timer_adds; [exact A23|]. eapply has_timer_adds; [exact A12|]. by apply T1.
  - intros u ds. rewrite lookup_insert_Some. intros [[<- <-]|[_ Hu]].
    + exists st. split_and!; [apply elem_of_app; right; by left|done|done].
    + destruct (Id _ _ Hu) as (x & ? & ? & ?). exists x. split_and!; [apply elem_of_app; by left|done|done].
  - intros x [Hx| ->%list_elem_of_singleton]%elem_of_app; [|rewrite lookup_insert_eq; eauto].
    rewrite lookup_insert_is_Some. destruct (decide (user_id st = user_id x)); auto.
Qed.

(** The states in memory at the start: those that are not offline. *)
Definition startup (db : PresenceStore) : StrMap UserPresenceState :=
  foldl (λ m st, <[user_id st := st]> m) ∅ (_get_active_presence db).

Lemma insert_all_lookup (l : list UserPresenceState) u st : NoDup (user_id <$> l) →
  foldl (λ m st, <[user_id st := st]> m) (∅ : StrMap UserPresenceState) l !! u = Some st ↔
  st ∈ l ∧ user_id st = u.
Proof.
  induction l as [|x l IH] using rev_ind; intros Hnd.
  { cbn. rewrite elem_of_nil, lookup_empty. split; [done|by intros []]. }
  rewrite fmap_app in Hnd. apply NoDup_app in Hnd as (Hnd & Hdis & _).
  rewrite foldl_app. cbn [foldl]. rewrite lookup_insert_Some, IH by done.
  rewrite elem_of_app, list_elem_of_singleton. split.
  - intros [[<- <-]|[? [? ?]]]; auto.
  - intros [[Hst| ->] <-]; [|by left]. right. split; [|done]. intros Heq.
    apply (Hdis (user_id st)); [by apply list_elem_of_fmap_2|]. rewrite <-Heq. by left.
Qed.

Lemma startup_lookup (db : PresenceStore) u st : store_wf db →
  startup db !! u = Some st ↔ persisted db u st ∧ state st ≠ PresenceState.OFFLINE.
Proof.
  intros Hwf. unfold startup. rewrite insert_all_lookup.
  - rewrite elem_of_active_presence. unfold persisted. split.
    + intros [[? [? ?]] <-]. done.
    + intros [[<- ?] ?]. done.
  - unfold _get_active_presence. rewrite <-list_fmap_compose.
    eapply sublist_NoDup; [apply Hwf|]. apply fmap_sublist, sublist_filter.
Qed.

Lemma startup_values (db : PresenceStore) st : store_wf db →
  st ∈ (map_to_list (startup db)).*2 ↔ startup db !! user_id st = Some st.
Proof.
  intros Hwf. rewrite list_elem_of_fmap. split.
  - intros ([u st'] & -> & Hu%elem_of_map_to_list). cbn.
    pose proof Hu as [[-> _] _]%startup_lookup; done.
  - intros Hu. exists (user_id st, st). split; [done|]. by apply elem_of_map_to_list.
Qed.

Lemma presence_init_eq now db : ∃ devs w,
  presence_init hs now db = Ok (mkPresence (startup db) devs w ∅ ∅ ∅ ∅ db []) ∧
  init_inv now (map_to_list (startup db)).*2 (devs, w).
Proof.
  destruct (foldM_total_prefix (init_inv now) (init_user hs now) (∅, wt_init 5000) (map_to_list (startup db)).*2)
    as ([devs w] & E & Hi).
  { split; cbn; [by apply wt_init_wf|done|by intros ? ?%elem_of_nil|by intros|by intros ? ?%elem_of_nil]. }
  { intros pre x post acc _ Hi. by apply init_user_spec. }
  exists devs, w. split; [|done]. unfold presence_init. rewrite tracked. fold (startup db). by rewrite E.
Qed.

(** The pseudo-device of a user. *)
Definition pseudo_device u (st : UserPresenceState) : UserDevicePresenceState :=
  mkDevice u None (state st) (last_active_ts st) (last_user_sync_ts st).

Lemma init_devices now db devs w u : store_wf db → init_inv now (map_to_list (startup db)).*2 (devs, w) →
  (default ∅ (devs !! u) = ∅ ∧ startup db !! u = None) ∨
  ∃ st, startup db !! u = Some st ∧ user_id st = u ∧ default ∅ (devs !! u) = {[None := pseudo_device u st]}.
Proof.
  intros Hwf [_ _ _ Id Ia]. cbn [fst snd] in *. destruct (devs !! u) as [ds|] eqn:Ed; cbn [default].
  - right. destruct (Id _ _ Ed) as (st & Hs & <- & ->). exists st. by rewrite startup_values in Hs.
  - left. split; [done|]. destruct (startup db !! u) as [st|] eqn:Ec; [|done].
    pose proof Ec as [[Hid _] _]%startup_lookup; [|done]. subst u.
    apply startup_values in Ec; [|done]. destruct (Ia _ Ec). congruence.
Qed.

Lemma pseudo_device_agrees (st : UserPresenceState) u :
  combined (device_values {[None := pseudo_device u st]}) (state st).
Proof.
  assert (∀ dev, dev ∈ device_values {[None := pseudo_device u st]} ↔ dev = pseudo_device u st) as Hone.
  { intros dev. rewrite elem_of_device_values. split; [by intros [? [_ ?]%lookup_singleton_Some]|].
    intros ->. exists None. apply lookup_singleton_eq. }
  split; [by intros dev ->%Hone|]. right. eexists. split; [by apply Hone|done].
Qed.

Lemma presence_init_inv now db h : db_ok now db → presence_init hs now db = Ok h → presence_inv hs now h.
Proof.
  intros (Hep & Hwf & Hloc). destruct (presence_init_eq now db) as (devs & w & -> & Hi).
  intros [= <-]. set (h := mkPresence _ _ _ _ _ _ _ _ _).
  pose proof (λ u, init_devices now db devs w u Hwf Hi) as Hdev. destruct Hi as [It Ib Itd _ _].
  assert (∀ u d dev, is_mine_id hs u = true → devices_of h u !! d = Some dev →
    dev_state dev ∈ valid_states ∧ dev_last_active_ts dev ≤ now) as Hvalid.
  { intros u d dev Hm Hd. unfold devices_of in Hd. cbn in Hd.
    destruct (Hdev u) as [[He _]|(st & Hu & _ & He)]; rewrite He in Hd; [done|].
    apply lookup_singleton_Some in Hd as [_ <-]. apply startup_lookup in Hu as [Hp _]; [|done]. by eapply Hloc. }
  split; [split; cbn; try done|].
  - by intros u st [[? _] _]%startup_lookup.
  - intros u st Hu Hp. destruct (decide (state st = PresenceState.OFFLINE)); [done|].
    assert (startup db !! u = Some st) by by apply startup_lookup. congruence.
  - intros u st Hu _. left. by apply startup_lookup in Hu as [? _].
  - intros u Hm dev [d Hd]%elem_of_device_values. by eapply Hvalid.
  - intros u d dev Hm Hd _. by eapply Hvalid.
  - intros u st Hm [[Hu _]%startup_lookup|Hu]; [by eapply Hloc|done|by eapply Hloc].
  - intros u. unfold user_ok, cur, agrees, devices_of. cbn. destruct (Hdev u) as [[He Hc]|(st & Hu & Hid & He)].
    + rewrite Hc. cbn. rewrite He. split; [|unfold timed; by case_match].
      intros _. split; [|done]. split; [by intros ? ?%elem_of_nil|by left].
    + rewrite Hu. cbn. rewrite Hid, He. split; [|apply Itd, startup_values; [done|by rewrite Hid]].
      intros _. split; [apply pseudo_device_agrees|]. by intros d dev [_ <-]%lookup_singleton_Some _.
Qed.

(** ** Events *)

Inductive presence_event :=
  | SetState (u : string) (d : option string) (presence : string) (msg : option string) (force : bool)
  | Syncing (u : string) (d : option string) (affect : bool) (presence : string)
  | SyncEnd (u : string) (d : option string)
  | Active (u : string) (d : option string)
  | ExternalRow (p u : string) (d : option string) (is_syncing : bool) (t : Z)
  | ExternalClear (p : string)
  | Incoming (origin : string) (pushes : list push)
  | Timeouts
  | Persist.

Definition presence_step now (ev : presence_event) h : PresenceHandler :=
  match ev with
  | SetState u d p msg force => (presence_set_state hs now u d p msg force false h).2
  | Syncing u d affect p => (user_syncing hs now u d affect p h).2
  | SyncEnd u d => (sync_end hs now u d h).2
  | Active u d => (bump_presence_active_time hs now u d h).2
  | ExternalRow p u d b t => (update_external_syncs_row hs now p u d b t h).2
  | ExternalClear p => (update_external_syncs_clear hs now p h).2
  | Incoming origin pushes => (incoming_presence hs now origin pushes h).2
  | Timeouts => (_handle_timeouts hs now h).2
  | Persist => (_persist_unpersisted_changes h).2
  end.

(** Clients of this server are its users, and other servers are not this one. *)
Definition event_ok (ev : presence_event) : Prop :=
  match ev with
  | SetState u _ _ _ _ | Syncing u _ _ _ | SyncEnd u _ | Active u _ | ExternalRow _ u _ _ _ =>
      is_mine_id hs u = true
  | Incoming origin _ => origin ≠ server_name hs
  | ExternalClear _ | Timeouts | Persist => True
  end.

(** The states reached from a start at the time [now0], with the time of the
    last event. *)
Inductive reachable (now0 : Z) (db : PresenceStore) : Z → PresenceHandler → Prop :=
  | reach_init h : presence_init hs now0 db = Ok h → reachable now0 db now0 h
  | reach_step now now' ev h :
      reachable now0 db now h → now ≤ now' → event_ok ev →
      reachable now0 db now' (presence_step now' ev h).

Lemma presence_step_inv now now' ev h : now ≤ now' → event_ok ev → presence_inv hs now h →
  presence_inv hs now' (presence_step now' ev h).
Proof.
  intros Hn He Hi0. pose proof (presence_inv_later hs now now' h Hn Hi0) as Hi. destruct ev; cbn in *.
  - by apply set_state_inv.
  - by apply user_syncing_inv.
  - by apply sync_end_inv.
  - by apply bump_inv.
  - by apply external_row_inv.
  - by apply external_clear_inv.
  - by apply incoming_inv.
  - by eapply timeouts_inv.
  - by apply persist_inv.
Qed.

Lemma reachable_inv now0 db now h : db_ok now0 db → reachable now0 db now h → presence_inv hs now h.
Proof.
  intros Hdb. induction 1 as [h E|now now' ev h _ IH Hn He].
  - by eapply presence_init_inv.
  - by eapply presence_step_inv.
Qed.

(** ** The theorems *)

(** In every reachable state the presence of a local user is what
    _combine_device_states gives for its devices: the state with the highest priority among
    them, offline without any. *)
Theorem presence_is_best_device now0 db now h u : db_ok now0 db → reachable now0 db now h →
  is_mine_id hs u = true →
  _combine_device_states (device_values (devices_of h u)) = Ok (state (cur h u)) ∧
  (∀ d dev, devices_of h u !! d = Some dev → priority (dev_state dev) ≤ priority (state (cur h u))) ∧
  (state (cur h u) = PresenceState.OFFLINE ∨
   ∃ d dev, devices_of h u !! d = Some dev ∧ dev_state dev = state (cur h u)).
Proof.
  intros Hdb Hr Hm. destruct (reachable_inv now0 db now h Hdb Hr) as [Hb Hu].
  destruct (Hu u) as [Ha _]. destruct (Ha Hm) as [Hc _]. rewrite (cur_id hs now h u Hb) in Hc.
  split; [by apply combine_eq; [apply (bi_valid _ _ _ Hb)|]|]. destruct Hc as [Hh Hf]. split.
  - intros d dev Hd. apply Hh, elem_of_device_values. eauto.
  - destruct Hf as [->|(dev & [d Hd]%elem_of_device_values & <-)]; [by left|right; eauto].
Qed.

(** A user with a timer that is due is looked at. *)
Lemma due_checked now t h u then_ : presence_inv hs now h → now ≤ t →
  has_timer (wheel_timer h) now u then_ → Z.quot then_ 5000 < Z.quot t 5000 → Z.quot now 5000 < Z.quot t 5000 →
  u ∈ checked_users t h.
Proof.
  intros [Hb _] Hn (k & Hs & Hk) Hthen Hnow. unfold checked_users. apply elem_of_union_l, elem_of_list_to_set.
  destruct (wt_fetch_spec now t (wheel_timer h) Hn (bi_timer _ _ _ Hb)) as (_ & _ & Hret & _).
  apply Hret. exists k. split; [done|]. unfold key_of in *. rewrite (bi_bucket _ _ _ Hb) in *. lia.
Qed.

Lemma idle_local now t h h' u : presence_inv hs now h → now ≤ t → timeouts_effect hs t h h' →
  is_mine_id hs u = true → IDLE_TIMER < t - last_active_ts (cur h u) →
  u ∈ checked_users t h → state (cur h' u) ≠ PresenceState.ONLINE.
Proof.
  intros Hi Hn He Hm Hidle Hc Hon. pose proof Hi as [Hb Hu].
  pose proof (te_inv _ _ _ _ He) as [Hb' Hu'].
  destruct (Hu' u) as [Ha' _]. destruct (Ha' Hm) as [[_ Hf] _]. rewrite (cur_id hs t h' u Hb'), Hon in Hf.
  destruct Hf as [|(dev & [d Hd]%elem_of_device_values & Hdev)]; [done|].
  destruct (te_checked _ _ _ _ He u Hc) as (r & ds & E & Hds & _). rewrite Hds in Hd.
  apply check_user_local in E as [_ Ho _]; [|by rewrite (cur_id hs now h u Hb)|by eapply cur_checkable].
  destruct (Ho _ _ Hd Hdev) as [Hd0 Hact]. rewrite (cur_id hs now h u Hb) in Hd0.
  destruct (Hu u) as [Ha _]. destruct (Ha Hm) as [Hcs Hle]. rewrite (cur_id hs now h u Hb) in Hcs, Hle.
  specialize (Hle _ _ Hd0 Hdev). destruct Hact as [Hoff|Hact]; [|lia]. rewrite Hoff in Hcs.
  assert (dev ∈ device_values (devices_of h u)) as Hin by (apply elem_of_device_values; eauto).
  pose proof (cb_highest _ _ Hcs _ Hin) as Hp. rewrite Hdev in Hp. by vm_compute in Hp.
Qed.

(** C28: In every state the presence handler reaches, _handle_timeouts run after the idle
    time of a local user (or the federation timeout of a remote one) and a bucket of the
    timer leaves the user not online (the remote one offline): every user that could stay
    online has a timer, whatever happened to it. Presence is enabled and tracked, the table
    at the start is well-formed, and the clock does not go back. *)
Theorem nobody_stays_online now0 db now h t u : db_ok now0 db → reachable now0 db now h → now ≤ t →
  Z.quot now 5000 < Z.quot t 5000 →
  let deadline := if is_mine_id hs u then last_active_ts (cur h u) + IDLE_TIMER
                  else last_federation_update_ts (cur h u) + FEDERATION_TIMEOUT in
  Z.quot deadline 5000 < Z.quot t 5000 →
  ∃ h', _handle_timeouts hs t h = (Ok tt, h') ∧
    if is_mine_id hs u then state (cur h' u) ≠ PresenceState.ONLINE
    else state (cur h' u) = PresenceState.OFFLINE.
Proof.
  intros Hdb Hr Hn Hq deadline Hd. pose proof (reachable_inv now0 db now h Hdb Hr) as Hi. pose proof Hi as [Hb Hu].
  destruct (handle_timeouts_effect hs enabled tracked now t h Hn Hi) as (h' & E & He). exists h'. split; [done|].
  assert (deadline < t) as Hlt.
  { apply Z.nle_gt. intros Hge. pose proof (Z.quot_le_mono _ _ 5000 ltac:(lia) Hge). lia. }
  destruct (Hu u) as [_ Ht]. unfold timed in Ht. rewrite (cur_id hs now h u Hb) in Ht.
  destruct (decide (u ∈ checked_users t h)) as [Hc|Hc].
  - destruct (is_mine_id hs u) eqn:Hm; [eapply (idle_local now t h h'); try done; lia|].
    destruct (te_checked _ _ _ _ He u Hc) as (r & ds & Ec & _ & Hcur).
    apply check_user_remote in Ec as [_ Hst]; [|by rewrite (cur_id hs now h u Hb)].
    destruct r as [st'|]; [subst st'; by destruct Hcur as (_ & -> & _)|]. rewrite Hcur.
    destruct Hst; [done|]. lia.
  - destruct (te_others _ _ _ _ He u Hc) as [-> _]. destruct (is_mine_id hs u) eqn:Hm.
    + intros Hon. apply Hc. eapply due_checked; eauto.
    + destruct (decide (state (cur h u) = PresenceState.OFFLINE)) as [|Hoff]; [done|].
      destruct Hc. eapply due_checked; eauto.
Qed.

(** A sync in progress at the time [t]: on this process, or on another that
    has been heard of lately. *)
Definition is_syncing t h (ud : UserDevice) : Prop :=
  (∃ n, _user_device_to_num_current_syncs h !! ud = Some n ∧ n ≠ 0) ∨
  ∃ p s, external_process_to_current_syncs h !! p = Some s ∧ ud ∈ s ∧
    ∀ last, external_process_last_updated_ms h !! p = Some last → t - last ≤ EXTERNAL_PROCESS_EXPIRY.

Lemma is_syncing_fetched t h ud : is_syncing t h ud → ud ∈ syncing_user_devices (fetched t h).
Proof.
  intros [(n & Hn & Hne)|(p & s & Hp & Hs & Hl)]; unfold syncing_user_devices.
  - apply elem_of_union_l, elem_of_dom. exists n. by apply map_lookup_filter_Some.
  - apply elem_of_union_r, elem_of_union_list. exists s. split; [|done]. apply list_elem_of_fmap.
    exists (p, s). split; [done|]. apply elem_of_map_to_list. unfold fetched. cbn.
    assert (p ∉ expired_processes t (external_process_last_updated_ms h)) as Hne.
    { unfold expired_processes. intros ([p' last] & -> & [Hlast Hx]%elem_of_map_to_list%map_lookup_filter_Some)%list_elem_of_fmap.
      cbn in *. specialize (Hl _ Hlast). lia. }
    induction (expired_processes t (external_process_last_updated_ms h)) as [|x l IH]; [done|]. cbn.
    rewrite lookup_delete_ne by set_solver. apply IH. set_solver.
Qed.

(** In every reachable state, _handle_timeouts keeps a device of a local user that is
    syncing (here, or on a process heard of within the expiry time) and is not offline: at
    most it goes from online to unavailable when idle, and the user does not go offline. *)
Theorem syncing_user_not_timed_out now0 db now h t u d dev : db_ok now0 db → reachable now0 db now h → now ≤ t →
  is_mine_id hs u = true → is_syncing t h (u, d) →
  devices_of h u !! d = Some dev → dev_state dev ≠ PresenceState.OFFLINE →
  ∃ h', _handle_timeouts hs t h = (Ok tt, h') ∧
    (devices_of h' u !! d = Some dev ∨
     dev_state dev = PresenceState.ONLINE ∧ IDLE_TIMER < t - dev_last_active_ts dev ∧
     devices_of h' u !! d = Some (set_dev_state PresenceState.UNAVAILABLE dev)) ∧
    state (cur h' u) ≠ PresenceState.OFFLINE.
Proof.
  intros Hdb Hr Hn Hm Hs Hd Hoff. pose proof (reachable_inv now0 db now h Hdb Hr) as Hi. pose proof Hi as [Hb Hu].
  destruct (handle_timeouts_effect hs enabled tracked now t h Hn Hi) as (h' & E & He). exists h'. split; [done|].
  assert (devices_of h' u !! d = Some dev ∨
     dev_state dev = PresenceState.ONLINE ∧ IDLE_TIMER < t - dev_last_active_ts dev ∧
     devices_of h' u !! d = Some (set_dev_state PresenceState.UNAVAILABLE dev)) as Hdev.
  { destruct (decide (u ∈ checked_users t h)) as [Hc|Hc]; [|left; by destruct (te_others _ _ _ _ He u Hc) as [_ ->]].
    destruct (te_checked _ _ _ _ He u Hc) as (r & ds & Ec & -> & _). unfold check_user in Ec.
    rewrite (cur_id hs now h u Hb), Hm in Ec. fold (devices_of h u) in Ec.
    destruct (decide (state (cur h u) = PresenceState.OFFLINE)) as [Ho|Ho].
    { unfold handle_timeout in Ec. rewrite decide_True in Ec by done. simplify_eq. by left. }
    destruct (Hu u) as [Ha _]. destruct (Ha Hm) as [Hcs _]. rewrite (cur_id hs now h u Hb) in Hcs.
    destruct (handle_timeout_local (cur h u) (syncing_user_devices (fetched t h)) (devices_of h u) t
      (bi_valid _ _ _ Hb _ Hm) Hcs Ho) as (r' & ds' & E' & [Hds' _]). rewrite Ec in E'. simplify_eq.
    rewrite (cur_id hs now h u Hb).
    destruct (check_device_cases u (syncing_user_devices (fetched t h)) t d dev) as [Hcase Hsync].
    specialize (Hsync (is_syncing_fetched _ _ _ Hs)).
    destruct Hcase as [([H1 H2] & H3 & _)|(_ & H3 & _)]; [right; split_and!; [done..|]|left];
      apply check_devices_lookup; exists dev; done. }
  split; [done|]. intros Ho. pose proof (te_inv _ _ _ _ He) as [Hb' Hu'].
  destruct (Hu' u) as [Ha' _]. destruct (Ha' Hm) as [Hcs _]. rewrite (cur_id hs t h' u Hb'), Ho in Hcs.
  assert (∃ dev', devices_of h' u !! d = Some dev' ∧ dev_state dev' ≠ PresenceState.OFFLINE) as (dev' & Hd' & Hne).
  { destruct Hdev as [?|(_ & _ & ?)]; eexists; split; done. }
  assert (dev' ∈ device_values (devices_of h' u)) as Hin by (apply elem_of_device_values; eauto).
  pose proof (cb_highest _ _ Hcs _ Hin) as Hp.
  apply Hne, priority_inj; [by apply (bi_valid _ _ _ Hb' _ Hm)|unfold valid_states; set_solver|].
  destruct (priority_valid _ (bi_valid _ _ _ Hb' _ Hm _ Hin)) as [_ H1]. vm_compute (priority PresenceState.OFFLINE) in Hp |- *. lia.
Qed.

(** C29: From every reachable state, shutting down while the database pool runs and starting
    again on the same database succeeds, and then current_state_for_user gives for every
    user what it gave before: all changes that were not notified about were noted and are
    persisted. When the pool has stopped, shutting down writes nothing. Presence is enabled
    and tracked, the table at the start is well-formed, and the clock does not go back. *)
Theorem restart_keeps_presence now0 db now h t : db_ok now0 db → reachable now0 db now h → now ≤ t →
  _on_shutdown false h = (Ok tt, h) ∧
  ∃ h1 h2, _on_shutdown true h = (Ok tt, h1) ∧ presence_init hs t (presence_db h1) = Ok h2 ∧
    db_ok t (presence_db h1) ∧
    ∀ u, (current_state_for_user u h2).1 = (current_state_for_user u h).1 ∧ is_ok (current_state_for_user u h2).1 = true.
Proof.
  intros Hdb Hr Hn. split; [done|]. pose proof (reachable_inv now0 db now h Hdb Hr) as [Hb Hu].
  destruct (on_shutdown_spec hs enabled tracked now h Hb) as (h1 & E1 & Hb1 & Hall & Hmem & Hcold).
  destruct (presence_init_eq t (presence_db h1)) as (devs & w & E2 & _).
  exists h1. eexists. split; [done|]. split; [done|].
  assert (store_wf (presence_db h1)) as Hwf by apply Hb1.
  assert (db_ok t (presence_db h1)) as Hdb1.
  { split_and!; [pose proof (bi_epoch _ _ _ Hb); lia|done|].
    intros u st Hp Hm. destruct (bi_rows _ _ _ Hb1 u st Hm) as [? ?]; [by right|]. split; [done|lia]. }
  split; [done|]. intros u. set (h2 := mkPresence _ _ _ _ _ _ _ _ _) in *.
  pose proof (presence_init_inv t _ h2 Hdb1 E2) as [Hb2 _].
  destruct (current_state_spec hs enabled tracked t h2 u Hb2) as (st2 & h2' & -> & _ & _ & _ & _ & _ & Hk2).
  destruct (current_state_spec hs enabled tracked now h u Hb) as (st & h' & -> & _ & _ & _ & _ & _ & Hk).
  cbn [fst is_ok]. split; [|done]. f_equal. revert Hk Hk2. unfold known_state. cbn.
  destruct (startup (presence_db h1) !! u) as [x|] eqn:Es.
  - intros Hk ->. apply startup_lookup in Es as [Hp Hoff]; [|done].
    destruct (user_to_current_state h !! u) as [y|] eqn:Em; [subst y|].
    + rewrite <-Hmem in Em. destruct (Hall _ _ Em) as [Hp'|[_ Hno]]; [by eapply persisted_functional|by destruct (Hno x)].
    + rewrite Hcold in Hp by done. pose proof (bi_cold _ _ _ Hb u x Em Hp). done.
  - assert (∀ x, persisted (presence_db h1) u x → state x = PresenceState.OFFLINE) as Hoff.
    { intros x Hp. destruct (decide (state x = PresenceState.OFFLINE)); [done|].
      assert (startup (presence_db h1) !! u = Some x) by by apply startup_lookup. congruence. }
    intros Hk Hk2. assert (persisted (presence_db h1) u st ∨ st = default_state u ∧ ∀ x, ¬ persisted (presence_db h1) u x) as Hk1.
    { destruct (user_to_current_state h !! u) as [y|] eqn:Em.
      - subst y. rewrite <-Hmem in Em. by apply Hall.
      - destruct Hk as [Hp|[? Hp]]; [left; by apply Hcold|right]. split; [done|]. intros x. by rewrite Hcold. }
    destruct Hk1 as [Hp1|[-> Hp1]], Hk2 as [Hp2|[-> Hp2]]; [by eapply persisted_functional|by destruct (Hp2 st)|by destruct (Hp1 st2)|done].
Qed.
End Theorems.
