(* ===== verification/Commands.v ===== *)
(** * Replication commands: [synapse/replication/tcp/commands.py]

    The commands the processes of a server send each other, one per line: the
    name of the command, a space, and what the command's [to_line] gives. The
    theorem is the round trip through the wire, with what it needs of the
    fields. The JSON encoder and decoder are parameters. *)

From S2P Require Import Prelude PyJson PyStr.
From Stdlib Require Import Ascii.

(** ** [s.split(c, n)] *)

Fixpoint str_splitn (c : ascii) (n : nat) (s : string) : list string :=
  match n with
  | O => [s]
  | S n => match str_split1 c s with
           | Some (p, rest) => p :: str_splitn c n rest
           | None => [s]
           end
  end.

Lemma str_split1_none c s : none_of (Ascii.eqb c) s → str_split1 c s = None.
Proof. induction s as [|d s IH]; cbn; [done|]. rewrite none_of_cons. intros [-> Hs]. by rewrite IH. Qed.

(** All fields but the last are free of the separator. *)
Lemma str_splitn_join c l s :
  Forall (none_of (Ascii.eqb c)) l →
  str_splitn c (length l) (str_join c (l ++ [s])) = l ++ [s].
Proof.
  induction 1 as [|p l Hp Hl IH]; [done|]. cbn [length str_splitn app].
  replace (str_join c (p :: l ++ [s])) with (String.append p (String c (str_join c (l ++ [s]))));
    [|by destruct l].
  by rewrite str_split1_append, IH.
Qed.

(** ** Commands *)

Inductive Command :=
  | ServerCommand (data : string)
  | RdataCommand (stream_name instance_name : string) (token : option Z) (row : json)
  | PositionCommand (stream_name instance_name : string) (prev_token new_token : Z)
  | ErrorCommand (data : string)
  | PingCommand (data : string)
  | NameCommand (data : string)
  | ReplicateCommand
  | UserSyncCommand (instance_id user_id : string) (device_id : option string) (is_syncing : bool)
      (last_sync_ms : Z)
  | FederationAckCommand (instance_name : string) (token : Z)
  | UserIpCommand (user_id : string) (access_token ip user_agent device_id last_seen : json)
  | RemoteServerUpCommand (data : string)
  | ClearUserSyncsCommand (instance_id : string)
  | LockReleasedCommand (instance_name lock_name lock_key : json)
  | NewActiveTaskCommand (data : string).

Definition NAME (cmd : Command) : string :=
  match cmd with
  | ServerCommand _ => "SERVER"
  | RdataCommand _ _ _ _ => "RDATA"
  | PositionCommand _ _ _ _ => "POSITION"
  | ErrorCommand _ => "ERROR"
  | PingCommand _ => "PING"
  | NameCommand _ => "NAME"
  | ReplicateCommand => "REPLICATE"
  | UserSyncCommand _ _ _ _ _ => "USER_SYNC"
  | FederationAckCommand _ _ => "FEDERATION_ACK"
  | UserIpCommand _ _ _ _ _ _ => "USER_IP"
  | RemoteServerUpCommand _ => "REMOTE_SERVER_UP"
  | ClearUserSyncsCommand _ => "CLEAR_USER_SYNC"
  | LockReleasedCommand _ _ _ => "LOCK_RELEASED"
  | NewActiveTaskCommand _ => "NEW_ACTIVE_TASK"
  end.

Definition VALID_SERVER_COMMANDS : list string :=
  ["SERVER"; "RDATA"; "POSITION"; "ERROR"; "PING"; "REMOTE_SERVER_UP"; "LOCK_RELEASED"].
Definition VALID_CLIENT_COMMANDS : list string :=
  ["NAME"; "REPLICATE"; "PING"; "USER_SYNC"; "CLEAR_USER_SYNC"; "FEDERATION_ACK"; "USER_IP"; "ERROR";
   "REMOTE_SERVER_UP"; "LOCK_RELEASED"].

Section Wire.
(** [json_encoder.encode] and [json_decoder.decode] *)
Context (json_encode : json → string) (json_decode : string → res json).

Definition to_line (cmd : Command) : string :=
  match cmd with
  | ServerCommand data | ErrorCommand data | PingCommand data | NameCommand data
  | RemoteServerUpCommand data | NewActiveTaskCommand data => data
  | RdataCommand stream_name instance_name token row =>
      str_join " " [stream_name; instance_name;
                    match token with Some t => py_str_int t | None => "batch" end; json_encode row]
  | PositionCommand stream_name instance_name prev_token new_token =>
      str_join " " [stream_name; instance_name; py_str_int prev_token; py_str_int new_token]
  | ReplicateCommand => ""
  | UserSyncCommand instance_id user_id device_id is_syncing last_sync_ms =>
      str_join " " [instance_id; user_id; default "None" device_id;
                    (if is_syncing then "start" else "end"); py_str_int last_sync_ms]
  | FederationAckCommand instance_name token => str_join " " [instance_name; py_str_int token]
  | UserIpCommand user_id access_token ip user_agent device_id last_seen =>
      str_join " " [user_id; json_encode (JList [access_token; ip; user_agent; device_id; last_seen])]
  | ClearUserSyncsCommand instance_id => instance_id
  | LockReleasedCommand instance_name lock_name lock_key =>
      json_encode (JList [instance_name; lock_name; lock_key])
  end.

Definition from_line_RDATA (line : string) : res Command :=
  match str_splitn " " 3 line with
  | [stream_name; instance_name; token; row_json] =>
      token ← (if String.eqb token "batch" then Ok None else Some <$> py_int_of_str token);
      row ← json_decode row_json;
      Ok (RdataCommand stream_name instance_name token row)
  | _ => Raise ValueError
  end.

Definition from_line_POSITION (line : string) : res Command :=
  match str_splitn " " 3 line with
  | [stream_name; instance_name; prev_token; new_token] =>
      prev_token ← py_int_of_str prev_token; new_token ← py_int_of_str new_token;
      Ok (PositionCommand stream_name instance_name prev_token new_token)
  | _ => Raise ValueError
  end.

Definition from_line_USER_SYNC (line : string) : res Command :=
  match str_splitn " " 4 line with
  | [instance_id; user_id; device_id; state; last_sync_ms] =>
      let device_id := if String.eqb device_id "None" then None else Some device_id in
      raise_if (negb (existsb (String.eqb state) ["start"; "end"]))
        (PlainException "Invalid USER_SYNC state %r");;
      last_sync_ms ← py_int_of_str last_sync_ms;
      Ok (UserSyncCommand instance_id user_id device_id (String.eqb state "start") last_sync_ms)
  | _ => Raise ValueError
  end.

Definition from_line_FEDERATION_ACK (line : string) : res Command :=
  match str_split " " line with
  | [instance_name; token] => token ← py_int_of_str token; Ok (FederationAckCommand instance_name token)
  | _ => Raise ValueError
  end.

Definition from_line_USER_IP (line : string) : res Command :=
  match str_splitn " " 1 line with
  | [user_id; jsn] =>
      v ← json_decode jsn; l ← py_list v;
      match l with
      | [access_token; ip; user_agent; device_id; last_seen] =>
          Ok (UserIpCommand user_id access_token ip user_agent device_id last_seen)
      | _ => Raise ValueError
      end
  | _ => Raise ValueError
  end.

Definition from_line_LOCK_RELEASED (line : string) : res Command :=
  v ← json_decode line; l ← py_list v;
  match l with
  | [instance_name; lock_name; lock_key] => Ok (LockReleasedCommand instance_name lock_name lock_key)
  | _ => Raise ValueError
  end.

(** [COMMAND_MAP[cmd_name].from_line] *)
Definition COMMAND_MAP : list (string * (string → res Command)) :=
  [("SERVER", λ line, Ok (ServerCommand line)); ("RDATA", from_line_RDATA);
   ("POSITION", from_line_POSITION); ("ERROR", λ line, Ok (ErrorCommand line));
   ("PING", λ line, Ok (PingCommand line)); ("NAME", λ line, Ok (NameCommand line));
   ("REPLICATE", λ _, Ok ReplicateCommand); ("USER_SYNC", from_line_USER_SYNC);
   ("FEDERATION_ACK", from_line_FEDERATION_ACK); ("USER_IP", from_line_USER_IP);
   ("REMOTE_SERVER_UP", λ line, Ok (RemoteServerUpCommand line));
   ("CLEAR_USER_SYNC", λ line, Ok (ClearUserSyncsCommand line));
   ("LOCK_RELEASED", from_line_LOCK_RELEASED);
   ("NEW_ACTIVE_TASK", λ line, Ok (NewActiveTaskCommand line))].

Fixpoint command_class (cmd_name : string) (l : list (string * (string → res Command))) :
    res (string → res Command) :=
  match l with
  | [] => Raise KeyError
  | (n, f) :: l => if String.eqb n cmd_name then Ok f else command_class cmd_name l
  end.

Definition parse_command_from_line (line : string) : res Command :=
  let '(cmd_name, rest_of_line) :=
    match str_find " " line with
    | Some idx => (str_take idx line, str_drop (S idx) line)
    | None => (line, "")
    end in
  from_line ← command_class cmd_name COMMAND_MAP; from_line rest_of_line.

(** The line [send_command] writes. *)
Definition command_line (cmd : Command) : string :=
  String.append (NAME cmd) (String " " (to_line cmd)).

(** ** The round trip *)

Abbreviation no_space := (none_of (Ascii.eqb " ")).

(** What the fields of a command must be like to survive the wire. *)
Definition wire_ok (cmd : Command) : Prop :=
  match cmd with
  | RdataCommand stream_name instance_name _ row =>
      no_space stream_name ∧ no_space instance_name ∧ json_decode (json_encode row) = Ok row
  | PositionCommand stream_name instance_name _ _ => no_space stream_name ∧ no_space instance_name
  | UserSyncCommand instance_id user_id device_id _ _ =>
      no_space instance_id ∧ no_space user_id ∧
      match device_id with Some d => no_space d ∧ d ≠ "None" | None => True end
  | FederationAckCommand instance_name _ => no_space instance_name
  | UserIpCommand user_id access_token ip user_agent device_id last_seen =>
      no_space user_id ∧
      let v := JList [access_token; ip; user_agent; device_id; last_seen] in
      json_decode (json_encode v) = Ok v
  | LockReleasedCommand instance_name lock_name lock_key =>
      let v := JList [instance_name; lock_name; lock_key] in json_decode (json_encode v) = Ok v
  | _ => True
  end.

Lemma int_no_space n : no_space (py_str_int n).
Proof. by apply py_str_int_none. Qed.

Lemma bool_none_of f s : forallb (λ c, negb (f c)) (str_chars s) = true → none_of f s.
Proof.
  unfold none_of. intros Hs. apply Forall_forall. intros c Hc. rewrite forallb_forall in Hs.
  apply negb_true_iff, Hs. by apply list_elem_of_In.
Qed.

Lemma batch_not_int t : String.eqb (py_str_int t) "batch" = false.
Proof.
  apply String.eqb_neq. intros Heq. pose proof (int_of_str_int t) as Hi. rewrite Heq in Hi. done.
Qed.

Lemma from_line_rdata s i t row : no_space s → no_space i → json_decode (json_encode row) = Ok row →
  from_line_RDATA (to_line (RdataCommand s i t row)) = Ok (RdataCommand s i t row).
Proof.
  intros Hs Hi Hj. unfold from_line_RDATA. cbn [to_line].
  set (tok := match t with Some t => py_str_int t | None => "batch" end).
  assert (no_space tok) by (destruct t; [apply int_no_space|by apply bool_none_of]).
  assert (str_splitn " " 3 (str_join " " [s; i; tok; json_encode row]) = [s; i; tok; json_encode row]) as ->
    by (apply (str_splitn_join " " [s; i; tok]); by repeat constructor).
  unfold tok. destruct t as [t|]; [rewrite batch_not_int, int_of_str_int|]; cbn; by rewrite Hj.
Qed.

Lemma from_line_position s i p n : no_space s → no_space i →
  from_line_POSITION (to_line (PositionCommand s i p n)) = Ok (PositionCommand s i p n).
Proof.
  intros Hs Hi. unfold from_line_POSITION. cbn [to_line]. pose proof (int_no_space p).
  assert (str_splitn " " 3 (str_join " " [s; i; py_str_int p; py_str_int n])
    = [s; i; py_str_int p; py_str_int n]) as ->
    by (apply (str_splitn_join " " [s; i; py_str_int p]); by repeat constructor).
  by rewrite !int_of_str_int.
Qed.

Lemma from_line_user_sync i u d b t : wire_ok (UserSyncCommand i u d b t) →
  from_line_USER_SYNC (to_line (UserSyncCommand i u d b t)) = Ok (UserSyncCommand i u d b t).
Proof.
  intros (Hi & Hu & Hd). unfold from_line_USER_SYNC. cbn [to_line].
  set (st := if b then "start" else "end").
  assert (no_space (default "None" d)) by (destruct d as [d|]; [by destruct Hd|by apply bool_none_of]).
  assert (no_space st) by (by unfold st; destruct b; apply bool_none_of).
  assert (str_splitn " " 4 (str_join " " [i; u; default "None" d; st; py_str_int t])
    = [i; u; default "None" d; st; py_str_int t]) as ->
    by (apply (str_splitn_join " " [i; u; default "None" d; st]); by repeat constructor).
  cbv beta iota zeta. rewrite int_of_str_int. destruct d as [d|]; cbn [default from_option id]; [|by unfold st; destruct b].
  destruct Hd as [_ Hd]. apply String.eqb_neq in Hd. rewrite Hd. by unfold st; destruct b.
Qed.

Lemma from_line_user_ip u a b c d e : wire_ok (UserIpCommand u a b c d e) →
  from_line_USER_IP (to_line (UserIpCommand u a b c d e)) = Ok (UserIpCommand u a b c d e).
Proof.
  intros [Hu Hj]. unfold from_line_USER_IP. cbn [to_line]. cbv zeta in Hj.
  set (j := json_encode _) in *.
  assert (str_splitn " " 1 (str_join " " [u; j]) = [u; j]) as ->
    by (apply (str_splitn_join " " [u]); by repeat constructor).
  by rewrite Hj.
Qed.

(** C32: Every replication command whose text fields before the last contain no space, whose
    device id is not the text None and whose JSON reads back is parsed from its line to
    itself. *)
Theorem command_roundtrip cmd : wire_ok cmd → parse_command_from_line (command_line cmd) = Ok cmd.
Proof.
  intros Hok. unfold parse_command_from_line, command_line.
  rewrite (str_find_append " " (NAME cmd)) by (by destruct cmd).
  rewrite str_take_append, str_drop_append.
  destruct cmd; cbn [NAME command_class COMMAND_MAP String.eqb Ascii.eqb Bool.eqb mbind res_bind]; try done.
  - destruct Hok as (? & ? & ?). by apply from_line_rdata.
  - destruct Hok as (? & ?). by apply from_line_position.
  - by apply from_line_user_sync.
  - cbn. unfold from_line_FEDERATION_ACK.
    rewrite str_split_append, str_split_none by (done || apply int_no_space). by rewrite int_of_str_int.
  - by apply from_line_user_ip.
  - cbn in *. unfold from_line_LOCK_RELEASED. by rewrite Hok.
Qed.
End Wire.
