(* ===== verification/PresenceQueue.v ===== *)
(** * The queue of presence updates for federation senders

    [PresenceFederationQueue] of [synapse/handlers/presence.py]: the process
    that writes presence queues the updates that other processes must send to
    other servers, and they fetch them by position. The theorem shows that
    fetching page by page gives every row in the range once, in order, as long
    as it is kept, and that what was queued in the last five minutes is. *)

From S2P Require Import Prelude WheelTimer PresenceStore Presence.

Record queue_entry := mkQueueEntry {
  q_time : Z;
  q_stream_id : Z;
  q_destinations : list string;
  q_user_ids : StrSet
}.

Record PresenceFederationQueue := mkFederationQueue {
  _queue : list queue_entry;
  _next_id : Z;
  _current_tokens : StrMap Z
}.

Definition _KEEP_ITEMS_IN_QUEUE_FOR_MS : Z := 5 * 60 * 1000.

Definition queue_init : PresenceFederationQueue := mkFederationQueue [] 1 ∅.

(** [bisect(l, x)], where [below e] says that [x < e]. *)
Fixpoint bisect_loop {A} (fuel : nat) (below : A → bool) (l : list A) (lo hi : nat) : nat :=
  match fuel with
  | O => lo
  | S fuel =>
      if (lo <? hi)%nat then
        let mid := ((lo + hi) / 2)%nat in
        match l !! mid with
        | Some e => if below e then bisect_loop fuel below l lo mid
                    else bisect_loop fuel below l (S mid) hi
        | None => lo
        end
      else lo
  end.
Definition bisect {A} (below : A → bool) (l : list A) : nat :=
  bisect_loop (S (length l)) below l 0 (length l).

(** The entries are compared with the 1-tuple of the time: it is below those of
    that time. *)
Definition _clear_queue (now : Z) (q : PresenceFederationQueue) : PresenceFederationQueue :=
  let clear_before := now - _KEEP_ITEMS_IN_QUEUE_FOR_MS in
  let index := bisect (λ e, clear_before <=? q_time e) (_queue q) in
  mkFederationQueue (drop index (_queue q)) (_next_id q) (_current_tokens q).

(** What goes to the federation sender of this process, and the queue. *)
Definition send_presence_to_destinations (presence_writer federation queue_presence_updates : bool)
    (now : Z) (states : list UserPresenceState) (destinations : list string)
    (q : PresenceFederationQueue) :
    res (list (list UserPresenceState * list string) * PresenceFederationQueue) :=
  raise_if (negb presence_writer) AssertionError;;
  if bool_decide (states = []) || bool_decide (destinations = []) then Ok ([], q) else
  let sent := if federation then [(states, destinations)] else [] in
  if negb queue_presence_updates then Ok (sent, q) else
  let e := mkQueueEntry now (_next_id q) destinations (list_to_set (user_id <$> states)) in
  Ok (sent, mkFederationQueue (_queue q ++ [e]) (_next_id q + 1) (_current_tokens q)).

Definition queue_get_current_token (own_name instance_name : string) (q : PresenceFederationQueue) : Z :=
  if String.eqb instance_name own_name then _next_id q - 1
  else default 0 (_current_tokens q !! instance_name).

(** [l[i:]] *)
Definition slice_from {A} (i : Z) (l : list A) : list A :=
  if i <? 0 then drop (Z.to_nat (Z.max 0 (Z.of_nat (length l) + i))) l else drop (Z.to_nat i) l.

(** The rows of an entry. *)
Definition entry_rows (e : queue_entry) : list (Z * (string * string)) :=
  destination ← q_destinations e;
  (λ user_id, (q_stream_id e, (destination, user_id))) <$> elements (q_user_ids e).

Fixpoint rows_loop (from_token upto_token target_row_count : Z) (es : list queue_entry)
    (to_send : list (Z * (string * string))) (new_id : Z) : list (Z * (string * string)) * Z * bool :=
  match es with
  | [] => (to_send, new_id, false)
  | e :: es =>
      if q_stream_id e <=? from_token
      then rows_loop from_token upto_token target_row_count es to_send new_id
      else if upto_token <? q_stream_id e then (to_send, new_id, false)
      else
        let to_send := to_send ++ entry_rows e in
        if target_row_count <? Z.of_nat (length to_send) then (to_send, q_stream_id e, true)
        else rows_loop from_token upto_token target_row_count es to_send (q_stream_id e)
  end.

(** The rows, the token they go up to, and whether there are more. *)
Definition get_replication_rows (from_token upto_token target_row_count : Z)
    (q : PresenceFederationQueue) : list (Z * (string * string)) * Z * bool :=
  if from_token =? _next_id q - 1 then ([], upto_token, false) else
  let start_idx := Z.max (from_token + 1 - _next_id q) (- Z.of_nat (length (_queue q))) in
  rows_loop from_token upto_token target_row_count (slice_from start_idx (_queue q)) [] upto_token.

(** [hosts_to_users.setdefault(row.destination, set()).add(row.user_id)] *)
Definition add_host_user (m : StrMap StrSet) (row : string * string) : StrMap StrSet :=
  <[row.1 := {[row.2]} ∪ default ∅ (m !! row.1)]> m.

(** On a federation sender: the states to send, per host. *)
Definition process_federation_rows (federation : bool) (instance_name : string) (token : Z)
    (rows : list (string * string)) (q : PresenceFederationQueue) :
    PM (list (list UserPresenceState * list string) * PresenceFederationQueue) :=
  let q := mkFederationQueue (_queue q) (_next_id q) (<[instance_name := token]> (_current_tokens q)) in
  if negb federation then mret ([], q) else
  let hosts_to_users := foldl add_host_user ∅ rows in
  sent ← foldP (λ sent (hu : string * StrSet),
    states ← current_state_for_users (elements hu.2);
    mret (sent ++ [((map_to_list states).*2, [hu.1])])) [] (map_to_list hosts_to_users);
  mret (sent, q).

(** ** Fetching page by page

    A process that fetches asks again from the new token while the answer is
    limited. *)
Fixpoint fetch_pages (fuel : nat) (from_token upto_token target_row_count : Z)
    (q : PresenceFederationQueue) : option (list (Z * (string * string))) :=
  match fuel with
  | O => None
  | S fuel =>
      let '(rows, new_id, limited) := get_replication_rows from_token upto_token target_row_count q in
      if limited then app rows <$> fetch_pages fuel new_id upto_token target_row_count q
      else Some rows
  end.

(** ** [bisect] *)

Lemma bisect_spec {A} (below : A → bool) (l : list A) :
  (∀ i j e f, (i ≤ j)%nat → l !! i = Some e → l !! j = Some f → below e = true → below f = true) →
  (bisect below l ≤ length l)%nat ∧
  (∀ i e, (i < bisect below l)%nat → l !! i = Some e → below e = false) ∧
  (∀ i e, (bisect below l ≤ i)%nat → l !! i = Some e → below e = true).
Proof.
  intros Hm. unfold bisect.
  cut (∀ fuel lo hi, (lo ≤ hi ≤ length l)%nat → (hi - lo < fuel)%nat →
    (∀ i e, (i < lo)%nat → l !! i = Some e → below e = false) →
    (∀ i e, (hi ≤ i)%nat → l !! i = Some e → below e = true) →
    let k := bisect_loop fuel below l lo hi in (k ≤ length l)%nat ∧
    (∀ i e, (i < k)%nat → l !! i = Some e → below e = false) ∧
    (∀ i e, (k ≤ i)%nat → l !! i = Some e → below e = true)).
  { intros Hcut. apply Hcut; [lia|lia|intros; lia|].
    intros i e Hi He. apply lookup_lt_Some in He. lia. }
  induction fuel as [|fuel IH]; intros lo hi Hb Hf Hlo Hhi; [lia|]. cbn [bisect_loop].
  destruct (Nat.ltb_spec lo hi) as [Hlt|Hge].
  - set (mid := ((lo + hi) / 2)%nat).
    assert (lo ≤ mid < hi)%nat as Hmid.
    { unfold mid. split; [apply Nat.div_le_lower_bound; lia|apply Nat.Div0.div_lt_upper_bound; lia]. }
    destruct (lookup_lt_is_Some_2 l mid) as [e He]; [lia|]. rewrite He.
    destruct (below e) eqn:Eb; apply IH; try lia; try done.
    + intros i f Hi Hf'. by apply (Hm mid i e f).
    + intros i f Hi Hf'. destruct (below f) eqn:Ef; [|done].
      rewrite (Hm i mid f e ltac:(lia) Hf' He Ef) in Eb. done.
  - split; [lia|]. split; [done|]. intros i e Hi. apply Hhi. lia.
Qed.

(** ** The queue as the end of a log *)

(** The entries have the times of a clock and consecutive ids up to the next one. *)
Record queue_wf (q : PresenceFederationQueue) : Prop := mkQueueWf {
  qw_ids i e : _queue q !! i = Some e →
    q_stream_id e = _next_id q - Z.of_nat (length (_queue q)) + Z.of_nat i;
  qw_times i j e f : (i ≤ j)%nat → _queue q !! i = Some e → _queue q !! j = Some f → q_time e ≤ q_time f
}.

(** The entries in a range of ids. *)
Definition in_range (from upto : Z) (es : list queue_entry) : list queue_entry :=
  filter (λ e, from < q_stream_id e ≤ upto) es.

Definition all_rows (es : list queue_entry) : list (Z * (string * string)) := es ≫= entry_rows.

(** The loop sends the rows of the entries up to the new id, and stops early
    only when it has sent more than the target. *)
Lemma rows_loop_spec from upto target es k to_send new_id :
  (∀ i e, es !! i = Some e → q_stream_id e = k + Z.of_nat i) →
  let r := rows_loop from upto target es to_send new_id in
  (r.2 = false → r.1.1 = to_send ++ all_rows (in_range from upto es)) ∧
  (r.2 = true → from < r.1.2 ∧ k ≤ r.1.2 ≤ upto ∧ (∃ e, e ∈ es ∧ q_stream_id e = r.1.2) ∧
     r.1.1 = to_send ++ all_rows (in_range from r.1.2 es)).
Proof.
  revert k to_send new_id. induction es as [|e es IH]; intros k to_send new_id Hid; cbn [rows_loop].
  { split; [intros _; by rewrite app_nil_r|done]. }
  pose proof (Hid 0%nat e eq_refl) as He.
  assert (∀ i f, es !! i = Some f → q_stream_id f = k + 1 + Z.of_nat i) as Hid'.
  { intros i f Hf. rewrite (Hid (S i) f Hf). lia. }
  assert (∀ f, f ∈ es → k < q_stream_id f) as Hgt.
  { intros f [i Hf]%list_elem_of_lookup. rewrite (Hid' i f Hf). lia. }
  assert (∀ hi, ¬ (from < q_stream_id e ≤ hi) → in_range from hi (e :: es) = in_range from hi es) as Hskip.
  { intros hi Hn. unfold in_range. by rewrite filter_cons_False. }
  assert (∀ hi, from < q_stream_id e ≤ hi → in_range from hi (e :: es) = e :: in_range from hi es) as Htake.
  { intros hi Hy. unfold in_range. by rewrite filter_cons_True. }
  destruct (Z.leb_spec (q_stream_id e) from) as [Hle|Hlt].
  - destruct (IH (k + 1) to_send new_id Hid') as [H1 H2]. split.
    + intros Hr. rewrite Hskip by lia. by apply H1.
    + intros Hr. destruct (H2 Hr) as (? & ? & (f & ? & ?) & ->). split_and!; [lia..| |by rewrite Hskip by lia].
      exists f. split; [by right|done].
  - destruct (Z.ltb_spec upto (q_stream_id e)) as [Hup|Hup].
    { split; [|done]. intros _. cbn [fst]. rewrite Hskip by lia. unfold in_range.
      rewrite filter_none; [by rewrite app_nil_r|]. intros f Hf. specialize (Hgt f Hf). lia. }
    destruct (target <? _) eqn:Et; cbn [fst snd].
    + split; [done|]. intros _. split_and!; [lia..|exists e; split; [by left|done]|].
      rewrite Htake by lia. unfold in_range.
      rewrite filter_none; [|intros f Hf; specialize (Hgt f Hf); lia].
      unfold all_rows. cbn. by rewrite app_nil_r.
    + destruct (IH (k + 1) (to_send ++ entry_rows e) (q_stream_id e) Hid') as [H1 H2]. split.
      * intros Hr. rewrite H1 by done. rewrite Htake by lia. unfold all_rows. cbn. by rewrite <-app_assoc.
      * intros Hr. destruct (H2 Hr) as (? & ? & (f & ? & ?) & ->).
        split_and!; [lia..|exists f; split; [by right|done]|]. rewrite Htake by lia.
        unfold all_rows. cbn. by rewrite <-app_assoc.
Qed.

(** The slice leaves out only entries up to the token. *)
Lemma slice_range from q : queue_wf q →
  let es := slice_from (Z.max (from + 1 - _next_id q) (- Z.of_nat (length (_queue q)))) (_queue q) in
  (∀ upto, in_range from upto es = in_range from upto (_queue q)) ∧
  (∀ e, e ∈ es → e ∈ _queue q) ∧
  ∃ k, ∀ i e, es !! i = Some e → q_stream_id e = k + Z.of_nat i.
Proof.
  intros [Hid _]. cbv zeta. set (n := length (_queue q)).
  assert (∃ d, slice_from (Z.max (from + 1 - _next_id q) (- Z.of_nat n)) (_queue q) = drop d (_queue q) ∧
    ∀ i e, (i < d)%nat → _queue q !! i = Some e → q_stream_id e ≤ from) as (d & -> & Hd).
  { unfold slice_from. fold n. case_match eqn:Es.
    - apply Z.ltb_lt in Es. eexists. split; [done|]. intros i e Hi He. rewrite (Hid i e He). lia.
    - apply Z.ltb_ge in Es. eexists. split; [done|]. intros i e Hi He.
      rewrite (Hid i e He). apply lookup_lt_Some in He. fold n in He. lia. }
  split_and!.
  - intros upto. unfold in_range. rewrite <-(take_drop d (_queue q)) at 2. rewrite filter_app.
    rewrite (filter_none _ (take d (_queue q))); [done|].
    intros e [i He]%list_elem_of_lookup. apply lookup_take_Some in He as [He Hi]. specialize (Hd i e Hi He). lia.
  - intros e [i He]%list_elem_of_lookup. rewrite lookup_drop in He. by eapply list_elem_of_lookup_2.
  - exists (_next_id q - Z.of_nat n + Z.of_nat d). intros i e He. rewrite lookup_drop in He.
    rewrite (Hid _ _ He). fold n. lia.
Qed.


(** One page. *)
Lemma get_rows_spec from upto target q : queue_wf q →
  let r := get_replication_rows from upto target q in
  (r.2 = false → r.1.1 = all_rows (in_range from upto (_queue q))) ∧
  (r.2 = true → from < r.1.2 ≤ upto ∧ (∃ e, e ∈ _queue q ∧ q_stream_id e = r.1.2) ∧
     r.1.1 = all_rows (in_range from r.1.2 (_queue q))).
Proof.
  intros Hq. unfold get_replication_rows. destruct (Z.eqb_spec from (_next_id q - 1)) as [->|Hne].
  - split; [|done]. intros _. cbn [fst]. unfold in_range. rewrite filter_none; [done|].
    intros e [i He]%list_elem_of_lookup. rewrite (qw_ids _ Hq i e He). apply lookup_lt_Some in He. lia.
  - destruct (slice_range from q Hq) as (Hr & Hin & k & Hid). cbv zeta in *.
    destruct (rows_loop_spec from upto target _ k [] upto Hid) as [H1 H2]. rewrite !Hr in H1. split; [exact H1|].
    intros Ht. destruct (H2 Ht) as (? & ? & (e & He & ?) & Hrows). rewrite Hr in Hrows.
    split_and!; [lia..| |done]. exists e. auto.
Qed.

(** Ranges that follow each other. *)
Lemma in_range_split from mid upto es k :
  (∀ i e, es !! i = Some e → q_stream_id e = k + Z.of_nat i) → from ≤ mid ≤ upto →
  in_range from upto es = in_range from mid es ++ in_range mid upto es.
Proof.
  intros Hid Hm. revert k Hid. induction es as [|e es IH]; intros k Hid; [done|].
  pose proof (Hid 0%nat e eq_refl) as He.
  assert (∀ i f, es !! i = Some f → q_stream_id f = k + 1 + Z.of_nat i) as Hid'.
  { intros i f Hf. rewrite (Hid (S i) f Hf). lia. }
  specialize (IH _ Hid'). unfold in_range in *. rewrite !filter_cons.
  destruct (decide (q_stream_id e ≤ mid)) as [Hle|Hgt].
  - rewrite (decide_False (P := mid < q_stream_id e ≤ upto)) by lia.
    repeat case_decide; try lia; by rewrite IH.
  - rewrite (decide_False (P := from < q_stream_id e ≤ mid)) by lia.
    rewrite (filter_none (λ e0, from < q_stream_id e0 ≤ mid) es) in *.
    + repeat case_decide; try lia; by rewrite IH.
    + intros f [i Hf]%list_elem_of_lookup. rewrite (Hid' i f Hf). lia.
    + intros f [i Hf]%list_elem_of_lookup. rewrite (Hid' i f Hf). lia.
Qed.

(** Enough pages give everything. *)
Lemma fetch_pages_spec q target upto from fuel : queue_wf q →
  (length (in_range from upto (_queue q)) < fuel)%nat →
  fetch_pages fuel from upto target q = Some (all_rows (in_range from upto (_queue q))).
Proof.
  intros Hq. revert from. induction fuel as [|fuel IH]; intros from Hf; [lia|]. cbn [fetch_pages].
  destruct (get_rows_spec from upto target q Hq) as [H1 H2].
  destruct (get_replication_rows from upto target q) as [[rows new_id] limited]. cbn [fst snd] in *.
  destruct limited; [|by rewrite H1]. destruct (H2 eq_refl) as (Hlt & (e & He & Hid) & ->).
  assert (in_range from upto (_queue q) = in_range from new_id (_queue q) ++ in_range new_id upto (_queue q)) as Hs.
  { apply (in_range_split _ _ _ _ (_next_id q - Z.of_nat (length (_queue q)))); [apply Hq|lia]. }
  assert (e ∈ in_range from new_id (_queue q)) as Hin by (apply list_elem_of_filter; split; [lia|done]).
  rewrite IH.
  - cbn. f_equal. rewrite Hs. unfold all_rows. by rewrite bind_app.
  - rewrite Hs, length_app in Hf. destruct (in_range from new_id (_queue q)); [by apply elem_of_nil in Hin|].
    cbn in Hf. lia.
Qed.

(** ** Histories *)

Inductive queue_op :=
  | QSend (now : Z) (states : list UserPresenceState) (destinations : list string)
  | QClear (now : Z).

Definition queue_op_time (op : queue_op) : Z := match op with QSend now _ _ | QClear now => now end.

(** On the process that writes presence, with another that sends. *)
Definition queue_step (q : PresenceFederationQueue) (op : queue_op) : res PresenceFederationQueue :=
  match op with
  | QSend now states destinations =>
      snd <$> send_presence_to_destinations true false true now states destinations q
  | QClear now => Ok (_clear_queue now q)
  end.

Definition queue_run (ops : list queue_op) : res PresenceFederationQueue := foldM queue_step queue_init ops.

(** Everything that was sent: the sends that have states and destinations, with
    the positions they got. *)
Definition log_op (log : list queue_entry) (op : queue_op) : list queue_entry :=
  match op with
  | QSend now states destinations =>
      if bool_decide (states = []) || bool_decide (destinations = []) then log
      else log ++ [mkQueueEntry now (Z.of_nat (length log) + 1) destinations (list_to_set (user_id <$> states))]
  | QClear _ => log
  end.
Definition sent_log (ops : list queue_op) : list queue_entry := foldl log_op [] ops.

Definition queue_clocked (ops : list queue_op) : Prop := StronglySorted Z.le (queue_op_time <$> ops).

(** The queue is the end of the log. *)
Record queue_inv (ops : list queue_op) (q : PresenceFederationQueue) : Prop := mkQueueInv {
  qi_next : _next_id q = Z.of_nat (length (sent_log ops)) + 1;
  qi_suffix : ∃ dropped, sent_log ops = dropped ++ _queue q ∧
    ∀ t e, (∀ op, op ∈ ops → queue_op_time op ≤ t) → e ∈ dropped → q_time e < t - _KEEP_ITEMS_IN_QUEUE_FOR_MS;
  qi_ids i e : sent_log ops !! i = Some e → q_stream_id e = Z.of_nat i + 1;
  qi_sorted i j e f : (i ≤ j)%nat → sent_log ops !! i = Some e → sent_log ops !! j = Some f → q_time e ≤ q_time f;
  qi_past e : e ∈ sent_log ops → ∃ op, op ∈ ops ∧ q_time e = queue_op_time op
}.

Lemma queue_inv_wf ops q : queue_inv ops q → queue_wf q.
Proof.
  intros [Hn (dropped & Hlog & _) Hid Hs _].
  assert (∀ i e, _queue q !! i = Some e → sent_log ops !! (length dropped + i)%nat = Some e) as Hl.
  { intros i e He. rewrite Hlog, lookup_app_r by lia. by replace (length dropped + i - length dropped)%nat with i by lia. }
  split.
  - intros i e He. rewrite (Hid _ _ (Hl _ _ He)), Hn, Hlog, length_app. lia.
  - intros i j e f Hij He Hf. eapply (Hs (length dropped + i)%nat (length dropped + j)%nat); [lia|by apply Hl..].
Qed.

Lemma send_inv ops q now states destinations : queue_clocked (ops ++ [QSend now states destinations]) →
  queue_inv ops q →
  ∃ q', queue_step q (QSend now states destinations) = Ok q' ∧ queue_inv (ops ++ [QSend now states destinations]) q'.
Proof.
  intros Hc [Hn (dropped & Hlog & Hold) Hid Hs Hp]. cbn [queue_step]. unfold send_presence_to_destinations.
  assert (sent_log (ops ++ [QSend now states destinations]) = log_op (sent_log ops) (QSend now states destinations)) as Hlog'.
  { unfold sent_log. by rewrite foldl_app. }
  assert (∀ op, op ∈ ops → queue_op_time op ≤ now) as Hpast.
  { intros op Hop. unfold queue_clocked in Hc. rewrite fmap_app in Hc.
    eapply (StronglySorted_app_1_elem_of Z.le); [done|by apply list_elem_of_fmap_2|by left]. }
  assert (∀ t e, (∀ op, op ∈ ops ++ [QSend now states destinations] → queue_op_time op ≤ t) → e ∈ dropped →
    q_time e < t - _KEEP_ITEMS_IN_QUEUE_FOR_MS) as Hold'.
  { intros t e Ht. apply Hold. intros op Hop. apply Ht, elem_of_app. by left. }
  assert (∀ e, e ∈ sent_log ops → ∃ op, op ∈ ops ++ [QSend now states destinations] ∧ q_time e = queue_op_time op) as Hp'.
  { intros e He. destruct (Hp e He) as (op & ? & ?). exists op. split; [apply elem_of_app; by left|done]. }
  cbn [raise_if negb mbind res_bind fmap res_fmap]. unfold log_op in Hlog'.
  destruct (bool_decide (states = []) || bool_decide (destinations = [])) eqn:Ee.
  { exists q. split; [done|]. split; rewrite Hlog'; eauto. }
  eexists; split; [done|]. set (e := mkQueueEntry now (_next_id q) destinations (list_to_set (user_id <$> states))).
  rewrite <-Hn in Hlog'. fold e in Hlog'. split; cbn; rewrite Hlog'.
  - rewrite length_app. cbn. lia.
  - exists dropped. split; [by rewrite Hlog, <-app_assoc|done].
  - intros i f Hf. apply lookup_snoc_Some in Hf as [[_ Hf]|[-> <-]]; [by apply Hid|cbn; lia].
  - intros i j f g Hij Hf Hg. apply lookup_snoc_Some in Hf as [[Hi Hf]|[-> <-]], Hg as [[Hj Hg]|[-> <-]].
    + by apply (Hs i j).
    + cbn. destruct (Hp f (list_elem_of_lookup_2 _ _ _ Hf)) as (op & Hop & ->). by apply Hpast.
    + lia.
    + done.
  - intros f [Hf| ->%list_elem_of_singleton]%elem_of_app; [by apply Hp'|].
    exists (QSend now states destinations). split; [apply elem_of_app; right; by left|done].
Qed.

Lemma clear_inv ops q now : queue_clocked (ops ++ [QClear now]) → queue_inv ops q →
  queue_inv (ops ++ [QClear now]) (_clear_queue now q).
Proof.
  intros Hc Hq. pose proof (queue_inv_wf _ _ Hq) as [_ Htimes]. destruct Hq as [Hn (dropped & Hlog & Hold) Hid Hs Hp].
  assert (sent_log (ops ++ [QClear now]) = sent_log ops) as Hlog' by (unfold sent_log; by rewrite foldl_app).
  set (below := λ e, now - _KEEP_ITEMS_IN_QUEUE_FOR_MS <=? q_time e).
  destruct (bisect_spec below (_queue q)) as (_ & Hbefore & _).
  { unfold below. intros i j e f Hij He Hf. rewrite !Z.leb_le. specialize (Htimes i j e f Hij He Hf). lia. }
  split; rewrite ?Hlog'; try done.
  - exists (dropped ++ take (bisect below (_queue q)) (_queue q)). split.
    + rewrite Hlog, <-app_assoc. cbn [_clear_queue _queue]. fold below. by rewrite take_drop.
    + intros t e Ht [He|He]%elem_of_app.
      * apply Hold; [|done]. intros op Hop. apply Ht, elem_of_app. by left.
      * apply list_elem_of_lookup in He as [i He]. apply lookup_take_Some in He as [He Hi].
        specialize (Hbefore i e Hi He). unfold below in Hbefore. apply Z.leb_gt in Hbefore.
        specialize (Ht (QClear now) ltac:(apply elem_of_app; right; by left)). cbn in Ht. lia.
  - intros e He. destruct (Hp e He) as (op & ? & ?). exists op. split; [apply elem_of_app; by left|done].
Qed.

Lemma queue_run_inv ops : queue_clocked ops → ∃ q, queue_run ops = Ok q ∧ queue_inv ops q.
Proof.
  induction ops as [|op ops IH] using rev_ind; intros Hc.
  { exists queue_init. split; [done|]. split; try done; [exists []; split; [done|]|]; by intros ? ?%elem_of_nil || (intros ? ? ? ?%elem_of_nil). }
  destruct IH as (q & Hq & Hi); [unfold queue_clocked in *; rewrite fmap_app in Hc; by eapply StronglySorted_app_1_l|].
  assert (∃ q', queue_step q op = Ok q' ∧ queue_inv (ops ++ [op]) q') as (q' & Hs & Hi').
  { destruct op as [now states destinations|now]; [by apply send_inv|].
    eexists. split; [done|by apply clear_inv]. }
  exists q'. split; [|done]. unfold queue_run in *. rewrite foldM_app, Hq. cbn. by rewrite Hs.
Qed.

(** C31: After any sequence of sends and clearings (with a clock that does not go back) the
    queue is the end of everything that was sent, and what is gone was sent over five
    minutes ago; fetching from any position, page by page with any page size, ends and gives
    exactly the rows in the range once each, in order. *)
Theorem federation_queue_delivers ops : queue_clocked ops → ∃ q dropped,
  queue_run ops = Ok q ∧ sent_log ops = dropped ++ _queue q ∧
  (∀ t e, (∀ op, op ∈ ops → queue_op_time op ≤ t) → e ∈ dropped → q_time e < t - _KEEP_ITEMS_IN_QUEUE_FOR_MS) ∧
  (∀ from upto target,
     fetch_pages (S (length (_queue q))) from upto target q = Some (all_rows (in_range from upto (_queue q)))).
Proof.
  intros Hc. destruct (queue_run_inv ops Hc) as (q & Hq & Hi). pose proof (queue_inv_wf _ _ Hi) as Hwf.
  destruct Hi as [_ (dropped & Hlog & Hold) _ _ _]. exists q, dropped. split_and!; [done..|].
  intros from upto target. apply fetch_pages_spec; [done|]. unfold in_range.
  pose proof (length_filter (λ e, from < q_stream_id e ≤ upto) (_queue q)). lia.
Qed.
