(* ===== verification/PresenceWorker.v ===== *)
(** * Presence on other processes

    [WorkerPresenceHandler] of [synapse/handlers/presence.py]: a process that
    serves syncs counts the ones in progress per device and tells the process
    that writes presence when the first starts and, after a delay, when the
    last has ended. The commands reach the writer in order. The theorem shows
    that what the writer knows, with the commands on their way, is what the
    worker tracks. *)

From S2P Require Import Prelude PyJson Identifiers Commands WheelTimer PresenceStore Presence PresenceProps PresenceInv PresenceOps PresenceTimeouts PresenceTheorems.

Definition UPDATE_SYNCING_USERS_MS : Z := 10 * 1000.

Record WorkerPresenceHandler := mkWorker {
  instance_id : string;
  worker_current_state : StrMap UserPresenceState;
  worker_num_current_syncs : gmap UserDevice Z;
  _user_devices_going_offline : gmap UserDevice Z
}.

(** What a worker asks the writer to do at once, by HTTP. *)
Inductive proxied :=
  | ProxySetState (u : string) (d : option string) (presence : string) (msg : option string)
      (force_notify is_sync : bool)
  | ProxyBump (u : string) (d : option string).

Section Worker.
Context (hs : PresenceConfig).
Implicit Types (w : WorkerPresenceHandler).

Definition set_worker_syncs (m : gmap UserDevice Z) w :=
  mkWorker (instance_id w) (worker_current_state w) m (_user_devices_going_offline w).
Definition set_going_offline (m : gmap UserDevice Z) w :=
  mkWorker (instance_id w) (worker_current_state w) (worker_num_current_syncs w) m.

Definition worker_on_shutdown w : list Command :=
  if track_presence hs then [ClearUserSyncsCommand (instance_id w)] else [].

Definition send_user_sync (u : string) (d : option string) (is_syncing : bool) (last_sync_ms : Z) w :
    list Command :=
  if track_presence hs then [UserSyncCommand (instance_id w) u d is_syncing last_sync_ms] else [].

(** [pop((user_id, device_id), None)], and [not going_offline]. *)
Definition mark_as_coming_online (now : Z) (u : string) (d : option string) w :
    WorkerPresenceHandler * list Command :=
  let going_offline := _user_devices_going_offline w !! (u, d) in
  (set_going_offline (delete (u, d) (_user_devices_going_offline w)) w,
   if default 0 going_offline =? 0 then send_user_sync u d true now w else []).

Definition mark_as_going_offline (now : Z) (u : string) (d : option string) w : WorkerPresenceHandler :=
  set_going_offline (<[(u, d) := now]> (_user_devices_going_offline w)) w.

Definition stop_syncing_step (now : Z) (acc : WorkerPresenceHandler * list Command)
    (x : UserDevice * Z) : WorkerPresenceHandler * list Command :=
  let '(w, cmds) := acc in
  let '((u, d), last_sync_ms) := x in
  if UPDATE_SYNCING_USERS_MS <? now - last_sync_ms
  then (set_going_offline (delete (u, d) (_user_devices_going_offline w)) w,
        cmds ++ send_user_sync u d false last_sync_ms w)
  else (w, cmds).

Definition send_stop_syncing (now : Z) w : WorkerPresenceHandler * list Command :=
  foldl (stop_syncing_step now) (w, []) (map_to_list (_user_devices_going_offline w)).

Definition worker_set_state (u : string) (d : option string) (presence : string) (msg : option string)
    (force_notify is_sync : bool) : res (list proxied) :=
  if decide (presence ∉ VALID_PRESENCE hs)
  then Raise (SynapseError 400 "Invalid presence state" RoomVersions.Codes.UNKNOWN) else
  if negb (track_presence hs) then Ok [] else Ok [ProxySetState u d presence msg force_notify is_sync].

Definition worker_bump (u : string) (d : option string) : list proxied :=
  if negb (track_presence hs) then [] else [ProxyBump u d].

(** The sync starts: the call of the writer has returned. *)
Definition worker_user_syncing (now : Z) (u : string) (d : option string) (affect_presence : bool)
    (presence_state : string) w : res (WorkerPresenceHandler * list Command * list proxied) :=
  if negb affect_presence || negb (track_presence hs) then Ok (w, [], []) else
  from_string UserID_SIGIL u;;
  calls ← worker_set_state u d presence_state None false true;
  let n := default 0 (worker_num_current_syncs w !! (u, d)) + 1 in
  let w := set_worker_syncs (<[(u, d) := n]> (worker_num_current_syncs w)) w in
  let '(w, cmds) := if n =? 1 then mark_as_coming_online now u d w else (w, []) in
  Ok (w, cmds, calls).

(** [_end] of its context manager. *)
Definition worker_sync_end (now : Z) (u : string) (d : option string) w : WorkerPresenceHandler :=
  match worker_num_current_syncs w !! (u, d) with
  | None => w
  | Some n =>
      let w := set_worker_syncs (<[(u, d) := n - 1]> (worker_num_current_syncs w)) w in
      if n - 1 =? 0 then mark_as_going_offline now u d w else w
  end.

Definition get_currently_syncing_users_for_replication w : list UserDevice :=
  (map_to_list (filter (λ kv : UserDevice * Z, 0 < kv.2) (worker_num_current_syncs w))).*1.

(** [ReplicationCommandHandler.new_connection]: the other end is told. *)
Definition new_connection (now : Z) w : list Command :=
  (λ ud : UserDevice, UserSyncCommand (instance_id w) ud.1 ud.2 true now) <$>
  get_currently_syncing_users_for_replication w.

(** [process_replication_rows]: the states to notify about. *)
Definition replicate_state (acc : WorkerPresenceHandler * list UserPresenceState) (st : UserPresenceState) :
    WorkerPresenceHandler * list UserPresenceState :=
  let '(w, to_notify) := acc in
  let old_state := worker_current_state w !! user_id st in
  (mkWorker (instance_id w) (<[user_id st := st]> (worker_current_state w)) (worker_num_current_syncs w)
     (_user_devices_going_offline w),
   match old_state with
   | None => to_notify ++ [st]
   | Some old => if should_notify old st (is_mine_id hs (user_id st)) then to_notify ++ [st] else to_notify
   end).

Definition worker_process_replication_rows (rows : list UserPresenceState) w :
    WorkerPresenceHandler * list UserPresenceState :=
  foldl replicate_state (w, []) rows.

(** ** The writer's side

    [ReplicationCommandHandler.on_USER_SYNC] and [on_CLEAR_USER_SYNC], on the
    process that writes presence. *)
Definition on_command (now : Z) (cmd : Command) : PM unit :=
  match cmd with
  | UserSyncCommand p u d is_syncing last_sync_ms => update_external_syncs_row hs now p u d is_syncing last_sync_ms
  | ClearUserSyncsCommand p => update_external_syncs_clear hs now p
  | _ => skip
  end.

(** ** Frames

    Most operations leave what the writer knows of other processes alone. *)

Definition keeps_external {A} (m : PM A) : Prop :=
  ∀ h, external_process_to_current_syncs (m h).2 = external_process_to_current_syncs h.

Lemma keeps_ret {A} (a : A) : keeps_external (mret a).
Proof. done. Qed.
Lemma keeps_get {A} (f : PresenceHandler → A) : keeps_external (get_h f).
Proof. done. Qed.
Lemma keeps_lift {A} (m : res A) : keeps_external (lift_h m).
Proof. done. Qed.
Lemma keeps_bind {A B} (m : PM A) (f : A → PM B) :
  keeps_external m → (∀ a, keeps_external (f a)) → keeps_external (m ≫= f).
Proof.
  intros Hm Hf h. specialize (Hm h). unfold mbind, PM_bind. destruct (m h) as [[a|e] h']; [|done].
  rewrite Hf. exact Hm.
Qed.
Lemma keeps_modify f : (∀ h, external_process_to_current_syncs (f h) = external_process_to_current_syncs h) →
  keeps_external (modify_h f).
Proof. intros Hf h. apply Hf. Qed.
Lemma keeps_foldP {A S} (f : S → A → PM S) s l : (∀ s x, keeps_external (f s x)) → keeps_external (foldP f s l).
Proof. intros Hf. revert s. induction l; intros s; cbn [foldP]; [done|]. by apply keeps_bind. Qed.

Create HintDb keeps.

(** Follow the structure of a handler. *)
Ltac keeps :=
  repeat first
    [ apply keeps_ret | apply keeps_get | apply keeps_lift
    | apply keeps_bind; [|intros]
    | apply keeps_modify; done
    | apply keeps_foldP; intros
    | solve [auto with keeps]
    | progress cbv zeta
    | case_match
    | case_decide ].

Lemma keeps_read us : keeps_external (current_state_for_users us).
Proof. unfold current_state_for_users. keeps. Qed.
Lemma keeps_read_one u : keeps_external (current_state_for_user u).
Proof. unfold current_state_for_user. keeps. Qed.
Lemma keeps_update now ns force : keeps_external (_update_states hs now ns force).
Proof. unfold _update_states, update_one, skip, _persist_and_notify. keeps. Qed.
#[local] Hint Resolve keeps_read keeps_read_one keeps_update : keeps.

Lemma keeps_bump now u d : keeps_external (bump_presence_active_time hs now u d).
Proof. unfold bump_presence_active_time, skip. keeps. Qed.
Lemma keeps_set_state now u d p m f s : keeps_external (presence_set_state hs now u d p m f s).
Proof. unfold presence_set_state, skip. keeps. Qed.
#[local] Hint Resolve keeps_set_state : keeps.
Lemma keeps_syncing now u d a p : keeps_external (user_syncing hs now u d a p).
Proof. unfold user_syncing. keeps. Qed.
Lemma keeps_incoming now o ps : keeps_external (incoming_presence hs now o ps).
Proof. unfold incoming_presence, incoming_push, skip. keeps. Qed.
Lemma keeps_persist : keeps_external _persist_unpersisted_changes.
Proof. unfold _persist_unpersisted_changes, skip. keeps. Qed.

(** ** A worker and the writer *)

Hypothesis enabled : presence_enabled hs = true.
Hypothesis tracking : track_presence hs = true.
Context (p : string).
Implicit Types (h : PresenceHandler) (ud : UserDevice).

(** A device that the worker has announced and not taken back. *)
Definition tracked w ud : Prop :=
  (∃ n, worker_num_current_syncs w !! ud = Some n ∧ 0 < n) ∨ is_Some (_user_devices_going_offline w !! ud).

(** What a command does to the set of syncing devices of its process. *)
Definition apply_command (s : gset UserDevice) (cmd : Command) : gset UserDevice :=
  match cmd with
  | UserSyncCommand _ u d is_syncing _ => if is_syncing then {[(u, d)]} ∪ s else s ∖ {[(u, d)]}
  | ClearUserSyncsCommand _ => ∅
  | _ => s
  end.

Definition known_syncs h : gset UserDevice := default ∅ (external_process_to_current_syncs h !! p).

(** The worker, the commands on their way, the writer, and whether the
    worker's process still runs. *)
Record system := mkSystem {
  sys_worker : WorkerPresenceHandler;
  sys_channel : list Command;
  sys_writer : PresenceHandler;
  sys_running : bool
}.

(** Events of the writer that do not concern the worker's process: no rows
    of it, and it has been heard of within the expiry time. *)
Definition leaves_process now (ev : presence_event) h : Prop :=
  match ev with
  | ExternalRow p' _ _ _ _ | ExternalClear p' => p' ≠ p
  | Timeouts => ∀ last, external_process_last_updated_ms h !! p = Some last →
      now - last ≤ EXTERNAL_PROCESS_EXPIRY
  | _ => True
  end.

(** A process that has shut down does nothing any more. *)
Inductive sys_step (now : Z) : system → system → Prop :=
  | step_start w ch h u d presence w' cmds calls :
      is_mine_id hs u = true →
      worker_user_syncing now u d true presence w = Ok (w', cmds, calls) →
      sys_step now (mkSystem w ch h true)
        (mkSystem w' (ch ++ cmds) (presence_set_state hs now u d presence None false true h).2 true)
  | step_end w ch h u d n :
      worker_num_current_syncs w !! (u, d) = Some n → 0 < n →
      sys_step now (mkSystem w ch h true) (mkSystem (worker_sync_end now u d w) ch h true)
  | step_stop w ch h :
      sys_step now (mkSystem w ch h true)
        (mkSystem (send_stop_syncing now w).1 (ch ++ (send_stop_syncing now w).2) h true)
  | step_deliver w cmd ch h running :
      sys_step now (mkSystem w (cmd :: ch) h running) (mkSystem w ch (on_command now cmd h).2 running)
  | step_writer w ch h ev running :
      event_ok hs ev → leaves_process now ev h →
      sys_step now (mkSystem w ch h running) (mkSystem w ch (presence_step hs now ev h) running)
  | step_shutdown w ch h :
      sys_step now (mkSystem w ch h true) (mkSystem w (ch ++ worker_on_shutdown w) h false).

Inductive sys_reachable (now0 : Z) (db : PresenceStore) : Z → system → Prop :=
  | sys_start h : presence_init hs now0 db = Ok h →
      sys_reachable now0 db now0 (mkSystem (mkWorker p ∅ ∅ ∅) [] h true)
  | sys_next now now' s s' : sys_reachable now0 db now s → now ≤ now' → sys_step now' s s' →
      sys_reachable now0 db now' s'.

Record worker_wf w : Prop := mkWorkerWf {
  ww_id : instance_id w = p;
  ww_count ud n : worker_num_current_syncs w !! ud = Some n → 0 ≤ n;
  ww_going ud t : _user_devices_going_offline w !! ud = Some t →
    t ≠ 0 ∧ worker_num_current_syncs w !! ud = Some 0;
  ww_mine ud : is_Some (worker_num_current_syncs w !! ud) → is_mine_id hs ud.1 = true
}.

(** The commands of the worker, about users of this server. *)
Definition own_command (cmd : Command) : Prop :=
  match cmd with
  | UserSyncCommand p' u _ _ _ => p' = p ∧ is_mine_id hs u = true
  | ClearUserSyncsCommand p' => p' = p
  | _ => False
  end.

Record sys_inv now (s : system) : Prop := mkSysInv {
  si_writer : presence_inv hs now (sys_writer s);
  si_worker : worker_wf (sys_worker s);
  si_channel : Forall own_command (sys_channel s);
  si_syncs ud : ud ∈ foldl apply_command (known_syncs (sys_writer s)) (sys_channel s) ↔
    sys_running s = true ∧ tracked (sys_worker s) ud
}.

(** *** The worker's steps *)

(** The worker's new commands account for the change in what it tracks. *)
Definition accounts w w' (cmds : list Command) : Prop :=
  worker_wf w' ∧ Forall own_command cmds ∧
  ∀ s : gset UserDevice, (∀ ud, ud ∈ s ↔ tracked w ud) → ∀ ud, ud ∈ foldl apply_command s cmds ↔ tracked w' ud.

Lemma syncing_accounts now u d a presence w w' cmds calls : 0 < now → is_mine_id hs u = true →
  worker_wf w → worker_user_syncing now u d a presence w = Ok (w', cmds, calls) → accounts w w' cmds.
Proof.
  intros Hnow Hm [Wi Wc Wg Wm]. unfold worker_user_syncing.
  destruct (negb a || negb (track_presence hs)); [by intros [= <- <- <-]|].
  intros H. inv_bind H. cbv zeta in H.
  set (n := default 0 (worker_num_current_syncs w !! (u, d)) + 1) in *.
  set (w1 := set_worker_syncs _ w) in *.
  assert (0 < n) as Hn.
  { unfold n. destruct (worker_num_current_syncs w !! (u, d)) as [k|] eqn:Ek; cbn; [|lia].
    specialize (Wc _ _ Ek). lia. }
  assert (∀ ud, is_Some (worker_num_current_syncs w1 !! ud) → is_mine_id hs ud.1 = true) as Wm'.
  { intros ud. cbn. rewrite lookup_insert_is_Some'. intros [<-|?]; [done|by apply Wm]. }
  assert (∀ ud k, worker_num_current_syncs w1 !! ud = Some k → 0 ≤ k) as Wc'.
  { intros ud k. cbn. rewrite lookup_insert_Some. intros [[_ <-]|[_ ?]]; [lia|by eapply Wc]. }
  destruct (Z.eqb_spec n 1) as [Hn1|Hn1].
  - unfold mark_as_coming_online in H. simplify_eq.
    split; [|split].
    + split; [done|exact Wc'| |exact Wm']. intros ud t. cbn. rewrite lookup_delete_Some. intros [Hne Hg].
      destruct (Wg _ _ Hg) as [? Hz]. split; [done|]. by rewrite lookup_insert_ne.
    + destruct (_ =? 0); [|done]. unfold send_user_sync. rewrite tracking. by repeat constructor.
    + intros s Hs ud.
      assert (tracked (set_going_offline (delete (u, d) (_user_devices_going_offline w1)) w1) ud ↔
        ud = (u, d) ∨ tracked w ud) as ->.
      { unfold tracked. cbn. destruct (decide (ud = (u, d))) as [->|Hne].
        - rewrite lookup_insert_eq. split; [by left|]. intros _. left. eauto.
        - rewrite lookup_insert_ne, lookup_delete_ne by done. split; [by right|]. by intros [?|?]. }
      cbn [_user_devices_going_offline w1 set_worker_syncs].
      destruct (_user_devices_going_offline w !! (u, d)) as [t|] eqn:Eg; cbn [default].
      * destruct (Wg _ _ Eg) as [Ht _]. apply Z.eqb_neq in Ht. cbn. rewrite Ht. cbn. rewrite Hs.
        split; [by right|]. intros [->|?]; [|done]. right. by rewrite Eg.
      * cbn. unfold send_user_sync. rewrite tracking. cbn. by rewrite elem_of_union, elem_of_singleton, Hs.
  - simplify_eq. assert (∃ k, worker_num_current_syncs w !! (u, d) = Some k ∧ 0 < k) as (k & Ek & Hk).
    { unfold n in *. destruct (worker_num_current_syncs w !! (u, d)) as [k|]; cbn in *; [|lia]. exists k. split; [done|lia]. }
    split; [|split; [done|]].
    + split; [done|exact Wc'| |exact Wm']. intros ud t Hg. destruct (Wg _ _ Hg) as [? Hz]. split; [done|].
      cbn. rewrite lookup_insert_ne; [done|]. intros <-. assert (k = 0) by congruence. lia.
    + intros s Hs ud. cbn. rewrite Hs. unfold tracked. cbn. destruct (decide (ud = (u, d))) as [->|Hne].
      * rewrite lookup_insert_eq. split; intros _; left; eauto.
      * by rewrite lookup_insert_ne.
Qed.

Lemma end_accounts now u d n w : 0 < now → worker_num_current_syncs w !! (u, d) = Some n → 0 < n →
  worker_wf w → accounts w (worker_sync_end now u d w) [].
Proof.
  intros Hnow En Hn [Wi Wc Wg Wm]. unfold worker_sync_end. rewrite En.
  set (w1 := set_worker_syncs _ w).
  assert (∀ ud, is_Some (worker_num_current_syncs w1 !! ud) → is_mine_id hs ud.1 = true) as Wm'.
  { intros ud. cbn. rewrite lookup_insert_is_Some'. intros [<-|?]; apply Wm; eauto. }
  assert (∀ ud k, worker_num_current_syncs w1 !! ud = Some k → 0 ≤ k) as Wc'.
  { intros ud k. cbn. rewrite lookup_insert_Some. intros [[_ <-]|[_ ?]]; [lia|by eapply Wc]. }
  destruct (Z.eqb_spec (n - 1) 0) as [Hz|Hz].
  - split; [|split; [done|]].
    + split; [done|exact Wc'| |exact Wm']. intros ud t. cbn. rewrite !lookup_insert_Some.
      intros [[<- <-]|[Hne Hg]]; [split; [lia|left; split; [done|lia]]|].
      destruct (Wg _ _ Hg). split; [done|]. by right.
    + intros s Hs ud. cbn. rewrite Hs. unfold tracked. cbn. destruct (decide (ud = (u, d))) as [->|Hne].
      * rewrite !lookup_insert_eq. split; intros _; [right; eauto|left; eauto].
      * by rewrite !lookup_insert_ne.
  - split; [|split; [done|]].
    + split; [done|exact Wc'| |exact Wm']. intros ud t Hg. destruct (Wg _ _ Hg) as [? Hz']. split; [done|].
      cbn. rewrite lookup_insert_ne; [done|]. intros <-. assert (n = 0) by congruence. lia.
    + intros s Hs ud. cbn. rewrite Hs. unfold tracked. cbn. destruct (decide (ud = (u, d))) as [->|Hne].
      * rewrite lookup_insert_eq. split; intros _; left; [exists (n - 1)|exists n]; split; done || lia.
      * by rewrite lookup_insert_ne.
Qed.

Lemma stop_accounts now w : worker_wf w →
  accounts w (send_stop_syncing now w).1 (send_stop_syncing now w).2.
Proof.
  intros Hw. unfold send_stop_syncing.
  cut (∀ l acc, (∀ x, x ∈ l → worker_num_current_syncs acc.1 !! x.1 = Some 0) → accounts w acc.1 acc.2 →
    let r := foldl (stop_syncing_step now) acc l in accounts w r.1 r.2).
  { intros Hcut. apply Hcut; [|split; [done|split; [constructor|done]]].
    intros [ud t] Hx%elem_of_map_to_list. by apply (ww_going _ Hw) in Hx as [_ ?]. }
  induction l as [|[[u d] t] l IH]; intros [w1 cmds] Hz Ha; cbn [foldl]; [done|].
  assert (worker_num_current_syncs w1 !! (u, d) = Some 0) as H0 by by apply (Hz ((u, d), t)); left.
  apply IH; unfold stop_syncing_step; destruct (_ <? _); cbn [fst snd] in *; try done;
    try (intros x Hx; by apply Hz; right).
  destruct Ha as ([Wi Wc Wg Wm] & Hown & Hacc). split; [|split].
  - split; [done|done| |done]. intros ud t'. cbn. rewrite lookup_delete_Some. intros [_ Hg]. by apply Wg.
  - apply Forall_app. split; [done|]. unfold send_user_sync. rewrite tracking. repeat constructor; [done|].
    apply (Wm (u, d)). eauto.
  - intros s Hs ud. rewrite foldl_app. unfold send_user_sync. rewrite tracking. cbn [foldl apply_command].
    rewrite elem_of_difference, elem_of_singleton, (Hacc s Hs). unfold tracked. cbn.
    destruct (decide (ud = (u, d))) as [->|Hne].
    + rewrite lookup_delete_eq, H0. split; [by intros [_ []]|]. intros [(n & [= <-] & ?)|[? ?]]; [lia|done].
    + rewrite lookup_delete_ne by done. tauto.
Qed.

(** *** The writer's steps *)

Lemma clear_external now h p' :
  external_process_to_current_syncs (update_external_syncs_clear hs now p' h).2 =
  delete p' (external_process_to_current_syncs h).
Proof.
  unfold update_external_syncs_clear, mbind at 1 2, PM_bind, get_h, modify_h at 1.
  set (h1 := set_external (delete p') id h).
  change (delete p' (external_process_to_current_syncs h)) with (external_process_to_current_syncs h1).
  generalize h1. intros h2. set (pp := default ∅ _). revert h2.
  match goal with |- ∀ h2, external_process_to_current_syncs (?m h2).2 = _ => change (keeps_external m) end.
  keeps.
Qed.

Lemma deliver_command now cmd h : own_command cmd → presence_inv hs now h →
  presence_inv hs now (on_command now cmd h).2 ∧
  known_syncs (on_command now cmd h).2 = apply_command (known_syncs h) cmd.
Proof.
  intros Hc Hi. destruct cmd; cbn [on_command own_command apply_command] in *; try done.
  - destruct Hc as [-> Hm].
    destruct (external_row_spec hs enabled tracking now h p user_id device_id is_syncing last_sync_ms Hm Hi)
      as (h' & -> & Hi' & He). split; [done|]. unfold known_syncs. cbn [snd]. rewrite He, lookup_insert_eq. done.
  - subst. split; [by apply external_clear_inv|]. unfold known_syncs. by rewrite clear_external, lookup_delete_eq.
Qed.

Lemma timeouts_external now h :
  external_process_to_current_syncs (_handle_timeouts hs now h).2 =
  foldr delete (external_process_to_current_syncs h)
    (expired_processes now (external_process_last_updated_ms h)).
Proof.
  rewrite handle_timeouts_eq.
  change (foldr delete (external_process_to_current_syncs h)
    (expired_processes now (external_process_last_updated_ms h)))
    with (external_process_to_current_syncs (fetched now h)).
  generalize (fetched now h) at 2 3. intros h2. revert h2.
  match goal with |- ∀ h2, external_process_to_current_syncs (?m h2).2 = _ => change (keeps_external m) end.
  keeps.
Qed.

Lemma foldr_delete_ne {V} (l : list string) (m : StrMap V) q : q ∉ l → foldr delete m l !! q = m !! q.
Proof.
  induction l as [|x l IH]; cbn; [done|]. rewrite elem_of_cons. intros Hq.
  rewrite lookup_delete_ne by (intros ->; tauto). apply IH. tauto.
Qed.

(** Events that leave the process alone leave what is known of it. *)
Lemma writer_keeps now ev h : event_ok hs ev → leaves_process now ev h → presence_inv hs now h →
  known_syncs (presence_step hs now ev h) = known_syncs h.
Proof.
  intros He Hl Hi. unfold known_syncs. destruct ev; cbn [presence_step event_ok leaves_process] in *.
  - by rewrite keeps_set_state.
  - by rewrite keeps_syncing.
  - assert (keeps_external (sync_end hs now u d)) as ->; [|done].
    intros h'. unfold sync_end.
    match goal with |- context [?m h'] =>
      assert (keeps_external m) as Hk by (unfold mbind at 1; keeps); specialize (Hk h'); by destruct (m h') end.
  - by rewrite keeps_bump.
  - destruct (external_row_spec hs enabled tracking now h p0 u d is_syncing t He Hi) as (h' & -> & _ & Hx).
    cbn [snd]. by rewrite Hx, lookup_insert_ne.
  - by rewrite clear_external, lookup_delete_ne.
  - by rewrite keeps_incoming.
  - rewrite timeouts_external, foldr_delete_ne; [done|]. unfold expired_processes.
    intros ([p' last] & -> & [Hlast Hx]%elem_of_map_to_list%map_lookup_filter_Some)%list_elem_of_fmap.
    cbn in *. specialize (Hl _ Hlast). lia.
  - by rewrite keeps_persist.
Qed.

(** *** The system *)

(** Commands added at the end of the channel. *)
Lemma worker_step now w w' cmds ch h h' :
  accounts w w' cmds → presence_inv hs now h' → known_syncs h' = known_syncs h →
  sys_inv now (mkSystem w ch h true) → sys_inv now (mkSystem w' (ch ++ cmds) h' true).
Proof.
  intros (Hwf & Hown & Hacc) Hi Hk [_ _ Hch Hs]. cbn in *. split; cbn; [done|done|by apply Forall_app|].
  intros ud. rewrite foldl_app, Hk, (Hacc _ (λ ud, iff_trans (Hs ud) (conj (@proj2 _ _) (conj eq_refl)))). tauto.
Qed.

Lemma shutdown_step now w ch h :
  sys_inv now (mkSystem w ch h true) → sys_inv now (mkSystem w (ch ++ worker_on_shutdown w) h false).
Proof.
  intros [Hi Hw Hch _]. cbn in *. unfold worker_on_shutdown. rewrite tracking, (ww_id _ Hw).
  split; cbn; [done|done|by apply Forall_app; repeat constructor|].
  intros ud. rewrite foldl_app. cbn. set_solver.
Qed.

Lemma sys_step_inv now s s' : 0 < now → sys_inv now s → sys_step now s s' → sys_inv now s'.
Proof.
  intros Hnow Hs Hst. pose proof Hs as [Hi Hw Hch Hsy].
  destruct Hst as [w ch h u d presence w' cmds calls Hm E|w ch h u d n En Hn|w ch h|w cmd ch h r|w ch h ev r He Hl|w ch h];
    cbn in *.
  - eapply worker_step; [by eapply syncing_accounts|by apply set_state_inv| |exact Hs].
    unfold known_syncs. by rewrite keeps_set_state.
  - rewrite <-(app_nil_r ch). eapply worker_step; [by eapply end_accounts|done|done|exact Hs].
  - eapply worker_step; [by apply stop_accounts|done|done|exact Hs].
  - inversion_clear Hch as [|? ? Hc Hch']. destruct (deliver_command now cmd h Hc Hi) as [Hi' Hk].
    split; cbn; [done..|]. by rewrite Hk.
  - split; cbn; [by eapply (presence_step_inv hs enabled tracking now)|done|done|].
    intros ud. by rewrite writer_keeps.
  - by apply shutdown_step.
Qed.

Lemma sys_reachable_inv now0 db now s : 0 < now0 → db_ok hs now0 db → sys_reachable now0 db now s →
  now0 ≤ now ∧ sys_inv now s.
Proof.
  intros Hpos Hdb. induction 1 as [h E|now now' s s' _ [Hle IH] Hn Hst].
  - split; [lia|]. split; cbn; [by eapply presence_init_inv| |constructor|].
    + split; [done|by intros ? ?|by intros ? ?|by intros ? []].
    + intros ud. pose proof (presence_init_eq hs tracking now0 db) as (devs & w & E' & _).
      rewrite E in E'. simplify_eq. split; [unfold known_syncs; cbn; set_solver|]. by intros [_ [(n & ? & _)|[? ?]]].
  - split; [lia|]. eapply sys_step_inv; [lia| |done]. destruct IH as [Hi Hw Hc Hs].
    split; [by eapply presence_inv_later|done..].
Qed.

(** C30: In every state of a worker, its channel and the presence writer that their steps
    reach, the devices the writer knows of, once the commands on their way have arrived, are
    exactly those that sync on the running worker or have stopped there without the worker
    having said so, and none once it has shut down; with an empty channel a device that
    syncs on the running worker counts as syncing at the writer. The channel delivers every
    command in order, the writer's checks for dead processes find the worker alive, a worker
    that has shut down does nothing more; presence is enabled and tracked, the table at the
    start is well-formed, and the clock does not go back. *)
Theorem worker_syncs_known now0 db now s : 0 < now0 → db_ok hs now0 db → sys_reachable now0 db now s →
  (∀ ud, ud ∈ foldl apply_command (known_syncs (sys_writer s)) (sys_channel s) ↔
     sys_running s = true ∧ tracked (sys_worker s) ud) ∧
  (sys_channel s = [] → sys_running s = true → ∀ ud t n, worker_num_current_syncs (sys_worker s) !! ud = Some n → 0 < n →
     (∀ last, external_process_last_updated_ms (sys_writer s) !! p = Some last → t - last ≤ EXTERNAL_PROCESS_EXPIRY) →
     is_syncing t (sys_writer s) ud).
Proof.
  intros Hpos Hdb Hr. destruct (sys_reachable_inv now0 db now s Hpos Hdb Hr) as (_ & [Hi Hw Hc Hs]).
  split; [exact Hs|]. intros Hnil Hrun ud t n Hn Hgt Hl. right. rewrite Hnil in Hs.
  assert (ud ∈ known_syncs (sys_writer s)) as Hin by (apply Hs; split; [done|left; eauto]).
  unfold known_syncs in Hin. destruct (external_process_to_current_syncs (sys_writer s) !! p) as [x|] eqn:E;
    [|cbn in Hin; set_solver]. exists p, x. done.
Qed.
End Worker.
