(* ===== verification/ChainIndex.v ===== *)
(** * Paths over links between chains

    A link is followed from its number or a later one of its chain. The two
    searches of [ChainLinks] end and agree with the paths so defined. *)

From S2P Require Import Prelude ChainLinks.
From stdpp Require Import relations.
#[local] Open Scope Z_scope.

(** ** Paths *)

(** From a chain and number to a chain and number, by one link. *)
Abbreviation Links := (Coord → Coord → Prop).

Definition hop (L : Links) (x y : Coord) : Prop := ∃ ss, L (x.1, ss) y ∧ ss ≤ x.2.

(** [y] is at or below a number that [x] leads to. *)
Definition path (L : Links) (x y : Coord) : Prop := ∃ s, rtc (hop L) x (y.1, s) ∧ y.2 ≤ s.

Lemma hop_up L c s s' y : s ≤ s' → hop L (c, s) y → hop L (c, s') y.
Proof. intros Hs (ss & ? & ?). exists ss. cbn in *. split; [done|lia]. Qed.

Lemma path_refl L x : path L x x.
Proof. exists x.2. destruct x; cbn. split; [done|lia]. Qed.

Lemma path_same L c s s' : s' ≤ s → path L (c, s) (c, s').
Proof. intros. exists s. done. Qed.

Lemma path_up L c s s' y : s ≤ s' → path L (c, s) y → path L (c, s') y.
Proof.
  intros Hs (t & Hp & Ht). inversion Hp as [x Hx|x z z' Hh Hr]; simplify_eq.
  - destruct y as [cy sy]. cbn in *. simplify_eq. exists s'. split; [done|cbn; lia].
  - exists t. split; [|done]. by eapply rtc_l; [eapply hop_up|].
Qed.

Lemma path_trans L x y z : path L x y → path L y z → path L x z.
Proof.
  intros (s & Hp & Hs) Hq. destruct y as [cy sy]. cbn in *.
  apply (path_up L cy sy s) in Hq as (t & Hq & Ht); [|done]. exists t. split; [by etrans|done].
Qed.

Lemma path_link L x y : L x y → path L x y.
Proof.
  intros H. exists y.2. split; [|lia]. apply rtc_once. exists x.2. destruct x, y. cbn. split; [done|lia].
Qed.

#[export] Instance path_preorder L : PreOrder (path L).
Proof. split; [intros x; apply path_refl|intros x y z; apply path_trans]. Qed.

Lemma path_mono (L L' : Links) x y :
  (∀ a b, L a b → path L' a b) → path L x y → path L' x y.
Proof.
  intros HL (s & Hp & Hs). trans (y.1, s); [|destruct y; by apply path_same]. clear Hs.
  induction Hp as [|a b z (ss & Hl & Hle) _ IH]; [done|].
  etrans; [|exact IH]. destruct a as [ca sa]. cbn in *. eapply path_up; [exact Hle|by apply HL].
Qed.

(** ** The links of a map *)

Definition lm_link (m : LinkMap) : Links := λ x y,
  default ∅ (default ∅ (maps m !! x.1) !! y.1) !! x.2 = Some y.2.

Lemma elem_of_targets from_src tc ss ts :
  (tc, (ss, ts)) ∈ targets_of from_src ↔ default ∅ (from_src !! tc) !! ss = Some ts.
Proof.
  unfold targets_of. rewrite list_elem_of_bind. split.
  - intros ([tc' links] & Hin & Hl%elem_of_map_to_list). apply list_elem_of_fmap in Hin as ([ss' ts'] & [= -> -> ->] & Hin).
    apply elem_of_map_to_list in Hin. by rewrite Hl.
  - destruct (from_src !! tc) as [links|] eqn:E; [|done]. intros Hs. exists (tc, links).
    split; [|by apply elem_of_map_to_list]. apply list_elem_of_fmap. exists (ss, ts).
    split; [done|by apply elem_of_map_to_list].
Qed.

Lemma elem_of_links_from m c tc ss ts : (tc, (ss, ts)) ∈ links_from m c ↔ lm_link m (c, ss) (tc, ts).
Proof. apply elem_of_targets. Qed.

Lemma elem_of_all_links m x y : (x, y) ∈ all_links m ↔ lm_link m x y.
Proof.
  destruct x as [c ss], y as [tc ts]. unfold all_links. rewrite list_elem_of_bind. split.
  - intros ([sc from_src] & Hin & Hm%elem_of_map_to_list).
    apply list_elem_of_fmap in Hin as ([tc' [ss' ts']] & [= -> -> -> ->] & Hin).
    apply elem_of_targets in Hin. unfold lm_link. cbn. by rewrite Hm.
  - unfold lm_link. cbn. destruct (maps m !! c) as [from_src|] eqn:E; [|done]. intros Hl.
    exists (c, from_src). split; [|by apply elem_of_map_to_list]. apply list_elem_of_fmap.
    exists (tc, (ss, ts)). split; [done|by apply elem_of_targets].
Qed.

(** No more links leave one chain than there are. *)
Lemma links_from_length m c : (length (links_from m c) ≤ length (all_links m))%nat.
Proof.
  unfold links_from, all_links. destruct (maps m !! c) as [from_src|] eqn:E; [|cbn; unfold targets_of; rewrite map_to_list_empty; cbn; lia].
  apply elem_of_map_to_list, list_elem_of_split in E as (l1 & l2 & ->).
  rewrite bind_app, bind_cons, !length_app, length_fmap. cbn. lia.
Qed.

(** ** [exists_path_from] *)

(** Numbers that a search can still improve on. *)
Definition improving (visited : gmap Z Z) (x : Coord) : Prop := default 0 (visited !! x.1) < x.2.
#[global] Instance improving_dec visited x : Decision (improving visited x).
Proof. unfold improving. apply _. Defined.

Definition left_to_improve (U : gset Coord) (visited : gmap Z Z) : nat := size (filter (improving visited) U).

Lemma left_to_improve_le U v v' : (∀ c, default 0 (v !! c) ≤ default 0 (v' !! c)) →
  (left_to_improve U v' ≤ left_to_improve U v)%nat.
Proof.
  intros Hle. apply subseteq_size. intros x. rewrite !elem_of_filter. unfold improving.
  specialize (Hle x.1). intros [? ?]. split; [lia|done].
Qed.

Lemma left_to_improve_lt U v v' x : (∀ c, default 0 (v !! c) ≤ default 0 (v' !! c)) →
  x ∈ U → improving v x → ¬ improving v' x → (left_to_improve U v' < left_to_improve U v)%nat.
Proof.
  intros Hle Hx Hi Hn. apply subset_size, strict_spec_alt. split.
  - intros y. rewrite !elem_of_filter. unfold improving. specialize (Hle y.1). intros [? ?]. split; [lia|done].
  - intros Heq. apply Hn. assert (x ∈ filter (improving v') U) as [? _]%elem_of_filter; [|done].
    rewrite Heq. by apply elem_of_filter.
Qed.

(** What following the links of one chain does. *)
Lemma follow_links_spec tc0 ts0 seq visited links search :
  match follow_links tc0 ts0 seq visited links search with
  | None => ∃ ss ts, (tc0, (ss, ts)) ∈ links ∧ ss ≤ seq ∧ ts0 ≤ ts
  | Some search' => ∃ pushed, search' = pushed ++ search ∧ (length pushed ≤ length links)%nat ∧
      (∀ c s, (c, s) ∈ pushed → ∃ ss, (c, (ss, s)) ∈ links ∧ ss ≤ seq ∧ c ≠ tc0 ∧ improving visited (c, s)) ∧
      (∀ c ss s, (c, (ss, s)) ∈ links → ss ≤ seq → improving visited (c, s) →
         (c, s) ∈ pushed ∨ (c = tc0 ∧ s < ts0))
  end.
Proof.
  revert search. induction links as [|[tc [ss ts]] links IH]; intros search; cbn [follow_links].
  { exists []. split_and!; [done|cbn; lia|by intros ? ? ?%elem_of_nil|by intros ? ? ? ?%elem_of_nil]. }
  destruct (Z.leb_spec ts (default 0 (visited !! tc))) as [Hv|Hv];
    [|destruct (Z.leb_spec ss seq) as [Hs|Hs];
      [destruct (Z.eqb_spec tc tc0) as [->|Hne]; [destruct (Z.leb_spec ts0 ts) as [Ht|Ht]|]|]].
  2: { exists ss, ts. split_and!; [by left|lia|lia]. }
  all: specialize (IH search) as IH1; try specialize (IH ((tc, ts) :: search)) as IH2.
  3: clear IH1; rename IH2 into IH1.
  all: clear IH; destruct (follow_links _ _ _ _ _ _) as [search'|];
    [|destruct IH1 as (ss' & ts' & ? & ?); exists ss', ts'; split; [by right|done]].
  all: destruct IH1 as (pushed & -> & Hlen & Hin & Hall).
  3: exists (pushed ++ [(tc, ts)]); rewrite <-app_assoc, length_app.
  3: split_and!; [done|cbn; lia| |].
  3: { intros c s [Hc|[= -> ->]%list_elem_of_singleton]%elem_of_app.
       - destruct (Hin c s Hc) as (ss' & ? & ?). exists ss'. split; [by right|done].
       - exists ss. split_and!; [by left|lia|done|done]. }
  3: { intros c ss' s [[= -> -> ->]|Hc]%elem_of_cons Hs' Hi.
       - left. apply elem_of_app. right. by left.
       - destruct (Hall c ss' s Hc Hs' Hi) as [?|?]; [left; apply elem_of_app; by left|by right]. }
  all: exists pushed; split_and!; [done|cbn; lia|intros c s Hc; destruct (Hin c s Hc) as (ss' & ? & ?);
    exists ss'; split; [by right|done]|].
  all: intros c ss' s [[= -> -> ->]|Hc]%elem_of_cons Hs' Hi; [unfold improving in Hi; cbn in Hi|by eapply Hall].
  - lia.
  - right. split; [done|lia].
  - lia.
Qed.

Section search.
Context (m : LinkMap) (x0 : Coord) (tc0 ts0 : Z).
Abbreviation L := (lm_link m).
Hypothesis positive : ∀ x y, L x y → 0 < y.2.
Hypothesis no_return : ∀ c s s', rtc (hop L) (c, s) (c, s') → s' ≤ s.
Hypothesis src_positive : 0 < x0.2.
Hypothesis src_target : x0.1 ≠ tc0.

(** What the search has dealt with, or will. *)
Definition handled (visited : gmap Z Z) (search : list Coord) (y : Coord) : Prop :=
  ¬ improving visited y ∨ (y.1 = tc0 ∧ y.2 < ts0) ∨ ∃ s, (y.1, s) ∈ search ∧ y.2 ≤ s.

Definition universe : gset Coord := {[x0]} ∪ list_to_set (all_links m).*2.

Lemma universe_positive y : y ∈ universe → 0 < y.2.
Proof.
  intros [->%elem_of_singleton|Hy%elem_of_list_to_set]%elem_of_union; [done|].
  apply list_elem_of_fmap in Hy as ([a b] & -> & Hab%elem_of_all_links). by apply positive in Hab.
Qed.

Record search_inv (visited : gmap Z Z) (search : list Coord) : Prop := mkSearchInv {
  sv_search y : y ∈ search → rtc (hop L) x0 y ∧ y ∈ universe ∧ y.1 ≠ tc0;
  sv_visited c v : visited !! c = Some v → rtc (hop L) x0 (c, v) ∧ c ≠ tc0;
  sv_closed c v y : visited !! c = Some v → hop L (c, v) y → handled visited search y;
  sv_source : handled visited search x0
}.

(** The end of the search: all paths stay below what was visited. *)
Lemma search_done visited : search_inv visited [] → ¬ path L x0 (tc0, ts0).
Proof.
  intros [_ Hv Hc Hs] (s & Hp & Hle). cbn in *.
  assert (∀ y, handled visited [] y → ¬ improving visited y ∨ (y.1 = tc0 ∧ y.2 < ts0)) as Hh.
  { intros y [?|[?|(s' & ?%elem_of_nil & _)]]; auto; done. }
  assert (visited !! tc0 = None) as Htc.
  { destruct (visited !! tc0) as [v|] eqn:E; [|done]. by destruct (Hv _ _ E). }
  cut (∀ y, rtc (hop L) x0 y → ¬ improving visited y ∧ y.1 ≠ tc0 ∧ is_Some (visited !! y.1) ∨
    ∃ t, t < ts0 ∧ rtc (hop L) (tc0, t) y).
  { intros Hcut. destruct (Hcut _ Hp) as [(_ & ? & _)|(t & Ht & Hr)]; [done|].
    apply no_return in Hr. lia. }
  apply (rtc_ind_r (λ y, ¬ improving visited y ∧ y.1 ≠ tc0 ∧ is_Some (visited !! y.1) ∨
    ∃ t, t < ts0 ∧ rtc (hop L) (tc0, t) y)).
  - left. destruct (Hh _ Hs) as [Hi|[? _]]; [|done]. split_and!; [done|done|].
    unfold improving in Hi. destruct (visited !! x0.1); [eauto|cbn in Hi; lia].
  - intros y z _ Hhop [(Hi & Hne & [v Hy])|(t & Ht & Hr)]; [|right; exists t; split; [done|by eapply rtc_r]].
    assert (hop L (y.1, v) z) as Hz.
    { destruct y as [cy sy]. unfold improving in Hi. cbn in *. rewrite Hy in Hi. cbn in Hi.
      eapply hop_up; [|exact Hhop]. lia. }
    assert (0 < z.2) as Hpos by (destruct Hhop as (ss & Hl & _); by eapply positive).
    destruct (decide (z.1 = tc0)) as [Hzt|Hzt].
    + right. exists z.2. split; [|destruct z; cbn in *; subst; done].
      destruct (Hh _ (Hc _ _ _ Hy Hz)) as [Hi'|[_ ?]]; [|done].
      unfold improving in Hi'. rewrite Hzt, Htc in Hi'. cbn in Hi'. lia.
    + left. destruct (Hh _ (Hc _ _ _ Hy Hz)) as [Hi'|[? _]]; [|done]. split_and!; [done|done|].
      unfold improving in Hi'. destruct (visited !! z.1); [eauto|cbn in Hi'; lia].
Qed.

Definition top_flag (visited : gmap Z Z) (search : list Coord) : nat :=
  match search with
  | [] => 0
  | y :: _ => if decide (improving visited y) then 0 else 1
  end.

Definition potential (visited : gmap Z Z) (search : list Coord) : nat :=
  length search + length (all_links m) * (2 * left_to_improve universe visited + top_flag visited search).

Lemma visit_le (visited : gmap Z Z) c s c' :
  default 0 (visited !! c') ≤ default 0 (<[c := Z.max s (default 0 (visited !! c))]> visited !! c').
Proof.
  destruct (decide (c' = c)) as [->|]; [rewrite lookup_insert_eq; cbn; lia|by rewrite lookup_insert_ne].
Qed.

Lemma visit_potential (visited : gmap Z Z) c s search pushed :
  (c, s) ∈ universe → (length pushed ≤ length (all_links m))%nat →
  let visited' := <[c := Z.max s (default 0 (visited !! c))]> visited in
  (∀ y, y ∈ pushed → improving visited' y) →
  (potential visited' (pushed ++ search) < potential visited ((c, s) :: search))%nat.
Proof.
  intros Hu Hlen visited' Hp. unfold potential. rewrite length_app. cbn [length].
  pose proof (left_to_improve_le universe visited visited' (visit_le visited c s)) as Hle.
  set (a := left_to_improve universe visited) in *. set (a' := left_to_improve universe visited') in *.
  assert (top_flag visited' (pushed ++ search) ≤ 1)%nat as Hf.
  { unfold top_flag. destruct (pushed ++ search); [lia|]. case_decide; lia. }
  destruct (decide (improving visited (c, s))) as [Hi|Hi].
  - assert (a' < a)%nat.
    { apply (left_to_improve_lt _ _ _ (c, s)); [apply visit_le|done|done|].
      unfold improving, visited'. cbn. rewrite lookup_insert_eq. cbn. lia. }
    unfold top_flag at 2. rewrite decide_True by done. nia.
  - unfold top_flag at 2. rewrite decide_False by done. destruct pushed as [|y pushed]; cbn [app length] in *.
    + nia.
    + unfold top_flag. rewrite decide_True by (apply Hp; by left). nia.
Qed.

Lemma visit_inv (visited : gmap Z Z) c s search pushed :
  let visited' := <[c := Z.max s (default 0 (visited !! c))]> visited in
  search_inv visited ((c, s) :: search) →
  (∀ c' s', (c', s') ∈ pushed → ∃ ss, (c', (ss, s')) ∈ links_from m c ∧ ss ≤ s ∧ c' ≠ tc0 ∧ improving visited' (c', s')) →
  (∀ c' ss s', (c', (ss, s')) ∈ links_from m c → ss ≤ s → improving visited' (c', s') →
    (c', s') ∈ pushed ∨ (c' = tc0 ∧ s' < ts0)) →
  search_inv visited' (pushed ++ search).
Proof.
  intros visited' [Hs Hv Hc Hx] Hin Hall.
  destruct (Hs (c, s)) as (Hr & Hu & Hne); [by left|].
  pose proof (universe_positive _ Hu) as Hpos. cbn in Hpos.
  assert (∀ y, handled visited ((c, s) :: search) y → handled visited' (pushed ++ search) y) as Hh.
  { intros y [Hi|[?|(s' & [[= ? ->]|Hin']%elem_of_cons & Hle)]].
    - left. pose proof (visit_le visited c s y.1). unfold improving, visited' in *. lia.
    - right; by left.
    - left. unfold improving, visited'. subst c. rewrite lookup_insert_eq. cbn. lia.
    - right; right. exists s'. split; [apply elem_of_app; by right|done]. }
  split.
  - intros y [Hy|Hy]%elem_of_app; [|apply Hs; by right]. destruct y as [c' s'].
    destruct (Hin c' s' Hy) as (ss & Hl & Hss & Hct & _). rewrite elem_of_links_from in Hl.
    split_and!; [eapply rtc_r; [exact Hr|]; by exists ss| |done].
    unfold universe. apply elem_of_union. right. apply elem_of_list_to_set, list_elem_of_fmap.
    exists ((c, ss), (c', s')). split; [done|by apply elem_of_all_links].
  - intros c' v. unfold visited'. rewrite lookup_insert_Some. intros [[<- <-]|[_ ?]]; [|by apply Hv].
    split; [|done]. destruct (visited !! c) as [v|] eqn:E; cbn.
    + destruct (Hv _ _ E) as [Hrv _]. by destruct (Z.max_spec s v) as [[_ ->]|[_ ->]].
    + by rewrite Z.max_l by lia.
  - intros c' v y. unfold visited' at 1. rewrite lookup_insert_Some.
    intros [[<- <-]|[_ Hv']] (ss & Hl & Hss); [|apply Hh; eapply Hc; [done|by exists ss]]. cbn in *.
    destruct (decide (ss ≤ s)) as [Hle|Hle].
    + destruct y as [cy sy]. destruct (decide (improving visited' (cy, sy))) as [Hi|Hi]; [|by left].
      destruct (Hall cy ss sy) as [Hy|?]; [by apply elem_of_links_from|done|done| |right; by left].
      right; right. exists sy. split; [apply elem_of_app; by left|done].
    + destruct (visited !! c) as [v|] eqn:E; cbn in *; [|lia].
      apply Hh. eapply Hc; [exact E|]. exists ss. split; [done|cbn; lia].
  - by apply Hh.
Qed.

Lemma path_loop_spec fuel visited search : search_inv visited search → (potential visited search ≤ fuel)%nat →
  ∃ b, path_loop fuel m tc0 ts0 visited search = Ok b ∧ (b = true ↔ path L x0 (tc0, ts0)).
Proof.
  revert visited search. induction fuel as [|fuel IH]; intros visited [|[c s] search] Hi Hf; cbn [path_loop].
  1,3: exists false; split; [done|]; split; [done|]; intros Hp; by destruct (search_done visited Hi).
  { unfold potential in Hf. cbn in Hf. lia. }
  pose proof (follow_links_spec tc0 ts0 s (<[c:=Z.max s (default 0 (visited !! c))]> visited) (links_from m c) search) as Hl.
  destruct (sv_search _ _ Hi (c, s)) as (Hr & Hu & Hne); [by left|].
  destruct (follow_links _ _ _ _ _ _) as [search'|].
  - destruct Hl as (pushed & -> & Hlen & Hin & Hall). apply IH; [by apply visit_inv|].
    pose proof (links_from_length m c).
    pose proof (visit_potential visited c s search pushed Hu) as Hpot. cbv zeta in Hpot.
    apply Nat.lt_succ_r. eapply Nat.lt_le_trans; [apply Hpot; [lia|]|done].
    intros [c' s'] Hy. by destruct (Hin c' s' Hy) as (? & _ & _ & _ & ?).
  - exists true. split; [done|]. split; [intros _|done]. destruct Hl as (ss & ts & Hl%elem_of_links_from & Hs & Ht).
    exists ts. split; [|done]. eapply rtc_r; [exact Hr|]. by exists ss.
Qed.
End search.

Lemma exists_path_from_spec m x y :
  (∀ a b, lm_link m a b → 0 < b.2) →
  (∀ c s s', rtc (hop (lm_link m)) (c, s) (c, s') → s' ≤ s) → 0 < x.2 →
  ∃ b, exists_path_from x y m = Ok b ∧ (b = true ↔ path (lm_link m) x y).
Proof.
  intros Hp Hr Hx. destruct x as [c s], y as [c' s']. unfold exists_path_from.
  destruct (Z.eqb_spec c c') as [->|Hne].
  - eexists. split; [done|]. rewrite Z.leb_le. split; [intros; by apply path_same|].
    intros (t & Ht & Hle). apply Hr in Ht. cbn in *. lia.
  - apply (path_loop_spec m (c, s) c' s' Hp Hr Hx Hne).
    + split.
      * intros y ->%list_elem_of_singleton. split_and!; [done|unfold universe; set_solver|done].
      * intros ? ?. by rewrite lookup_empty.
      * intros ? ? ?. by rewrite lookup_empty.
      * right; right. exists s. split; [by left|done].
    + unfold potential, path_fuel. cbn [length top_flag]. rewrite decide_True by (unfold improving; rewrite lookup_empty; done).
      assert (left_to_improve (universe m (c, s)) ∅ ≤ S (length (all_links m)))%nat; [|nia].
      unfold left_to_improve, universe.
      etrans; [apply (subseteq_size _ ({[(c, s)]} ∪ list_to_set (all_links m).*2)); set_solver|].
      rewrite <-list_to_set_cons. etrans; [apply size_list_to_set_le|]. cbn. by rewrite length_fmap.
Qed.

(** ** [_materialize] *)

Definition cl_link (links : ChainLinks) : Links := λ x y, (x.2, y) ∈ default [] (links !! x.1).

(** [y] is at or below what was reached of its chain. *)
Definition covers (mat : gmap Z Z) (y : Coord) : Prop := y.2 ≤ default 0 (mat !! y.1).

Definition mat_le (mat mat' : gmap Z Z) : Prop := ∀ c, default 0 (mat !! c) ≤ default 0 (mat' !! c).

#[export] Instance mat_le_preorder : PreOrder mat_le.
Proof. split; [by intros m c|]. intros m1 m2 m3 H1 H2 c. specialize (H1 c); specialize (H2 c); lia. Qed.

Lemma covers_le mat mat' y : mat_le mat mat' → covers mat y → covers mat' y.
Proof. intros Hle Hc. unfold covers in *. specialize (Hle y.1). lia. Qed.

Definition closed_at (L : Links) (mat : gmap Z Z) (x : Coord) : Prop := ∀ y, hop L x y → covers mat y.

Lemma closed_at_le L mat mat' x : mat_le mat mat' → closed_at L mat x → closed_at L mat' x.
Proof. intros Hle Hc y Hy. by eapply covers_le, Hc. Qed.

Definition link_targets (links : ChainLinks) : gset Coord := list_to_set (link_rows links).*2.

Lemma elem_of_link_targets links x y : cl_link links x y → y ∈ link_targets links.
Proof.
  intros H. apply elem_of_list_to_set, list_elem_of_fmap. exists (x.2, y). split; [done|].
  unfold link_rows. apply list_elem_of_bind. unfold cl_link in H.
  destruct (links !! x.1) as [l|] eqn:E; [|by apply elem_of_nil in H].
  exists (x.1, l). split; [done|by apply elem_of_map_to_list].
Qed.

(** The loop over the links of one chain: what it pushes, and what it makes
    of the map. *)
Lemma materialize_links_spec (U : gset Coord) s l stack mat : (∀ x, x ∈ l → x.2 ∈ U) →
  let r := foldl (materialize_link s) (stack, mat) l in
  ∃ pushed, r.1 = pushed ++ stack ∧ mat_le mat r.2 ∧
    (left_to_improve U r.2 + length pushed ≤ left_to_improve U mat)%nat ∧
    (∀ y, y ∈ pushed → ∃ ss, (ss, y) ∈ l ∧ ss ≤ s) ∧
    (∀ c v, r.2 !! c = Some v → mat !! c = Some v ∨ (c, v) ∈ pushed) ∧
    (∀ ss y, (ss, y) ∈ l → ss ≤ s → covers r.2 y).
Proof.
  revert stack mat. induction l as [|[ss [c v]] l IH]; intros stack mat HU; cbn [foldl].
  { exists []. split_and!; [done|done|cbn; lia|by intros ? ?%elem_of_nil|by left|by intros ? ? ?%elem_of_nil]. }
  assert (∀ x, x ∈ l → x.2 ∈ U) as HU' by (intros; apply HU; by right).
  assert (materialize_link s (stack, mat) (ss, (c, v)) = if s <? ss then (stack, mat)
    else if default 0 (mat !! c) <? v then ((c, v) :: stack, <[c := v]> mat) else (stack, mat)) as -> by done.
  destruct (Z.ltb_spec s ss) as [Hs|Hs];
    [|destruct (Z.ltb_spec (default 0 (mat !! c)) v) as [Hv|Hv]].
  2: destruct (IH ((c, v) :: stack) (<[c := v]> mat) HU') as (pushed & Hr & Hle & Hl & Hin & Hm & Hc).
  1,3: destruct (IH stack mat HU') as (pushed & Hr & Hle & Hl & Hin & Hm & Hc).
  1,2: exists pushed; split_and!; [done|done|done|intros y Hy; destruct (Hin y Hy) as (ss' & ? & ?);
    exists ss'; split; [by right|done]|done|].
  1,2: intros ss' y [[= -> ->]|Hy]%elem_of_cons Hs'; [|by eapply Hc].
  - lia.
  - eapply covers_le; [exact Hle|]. unfold covers. cbn. lia.
  - assert (mat_le mat (<[c := v]> mat)) as Hins.
    { intros c'. destruct (decide (c' = c)) as [->|]; [rewrite lookup_insert_eq; cbn; lia|by rewrite lookup_insert_ne]. }
    exists (pushed ++ [(c, v)]). split_and!.
    + by rewrite Hr, <-app_assoc.
    + by etrans.
    + rewrite length_app. cbn [length].
      assert (left_to_improve U (<[c := v]> mat) < left_to_improve U mat)%nat; [|lia].
      apply (left_to_improve_lt _ _ _ (c, v)); [done|apply (HU (ss, (c, v))); by left|done|].
      unfold improving. cbn. rewrite lookup_insert_eq. cbn. lia.
    + intros y [Hy| ->%list_elem_of_singleton]%elem_of_app.
      * destruct (Hin y Hy) as (ss' & ? & ?). exists ss'. split; [by right|done].
      * exists ss. split; [by left|lia].
    + intros c' v' Hv'. destruct (Hm c' v' Hv') as [Hi|Hi]; [|right; apply elem_of_app; by left].
      apply lookup_insert_Some in Hi as [[-> ->]|[_ Hi]]; [right; apply elem_of_app; right; by left|by left].
    + intros ss' y [[= -> ->]|Hy]%elem_of_cons Hs'; [|by eapply Hc].
      eapply covers_le; [exact Hle|]. unfold covers. cbn. rewrite lookup_insert_eq. cbn. lia.
Qed.

Record materialized_by (L : Links) (xs : list Coord) (mat mat' : gmap Z Z) : Prop := mkMaterialized {
  mb_le : mat_le mat mat';
  mb_sound c v : mat' !! c = Some v → mat !! c = Some v ∨ ∃ x, x ∈ xs ∧ tc (hop L) x (c, v);
  mb_start x : x ∈ xs → closed_at L mat' x;
  mb_closed c v : mat' !! c = Some v → mat !! c = Some v ∨ closed_at L mat' (c, v)
}.

Lemma materialize_loop_spec links fuel stack mat :
  (length stack + left_to_improve (link_targets links) mat ≤ fuel)%nat →
  ∃ mat', materialize_loop fuel links stack mat = Ok mat' ∧ materialized_by (cl_link links) stack mat mat'.
Proof.
  revert stack mat. induction fuel as [|fuel IH]; intros [|[c s] stack] mat Hf; cbn [materialize_loop].
  1,3: exists mat; split; [done|]; split; [done|by left|by intros ? ?%elem_of_nil|by left].
  { cbn in Hf. lia. }
  pose proof (materialize_links_spec (link_targets links) s (default [] (links !! c)) stack mat) as Hl.
  cbv zeta in Hl. destruct (foldl _ _ _) as [stack' mat1]. destruct Hl as (pushed & Hst & Hle & Hm & Hin & Hmat & Hc).
  { intros [ss y] Hy. by apply (elem_of_link_targets links (c, ss) y). }
  cbn in *. subst stack'.
  destruct (IH (pushed ++ stack) mat1) as (mat' & Hok & [Ble Bs Bst Bc]); [rewrite length_app; lia|].
  assert (∀ y, y ∈ pushed → hop (cl_link links) (c, s) y) as Hhop.
  { intros y Hy. destruct (Hin y Hy) as (ss & ? & ?). by exists ss. }
  exists mat'. split; [done|]. split.
  - by etrans.
  - intros c' v Hv. destruct (Bs _ _ Hv) as [Hv1|(x & [Hx|Hx]%elem_of_app & Ht)].
    + destruct (Hmat _ _ Hv1) as [?|Hp]; [by left|]. right. exists (c, s). split; [by left|]. by apply tc_once, Hhop.
    + right. exists (c, s). split; [by left|]. by eapply tc_l; [apply Hhop|].
    + right. exists x. split; [by right|done].
  - intros x [->|Hx]%elem_of_cons; [|apply Bst, elem_of_app; by right].
    intros y (ss & Hy & Hs). eapply covers_le; [exact Ble|]. by eapply Hc.
  - intros c' v Hv. destruct (Bc _ _ Hv) as [Hv1|?]; [|by right].
    destruct (Hmat _ _ Hv1) as [?|Hp]; [by left|]. right. apply Bst, elem_of_app. by left.
Qed.

Lemma materialize_spec c s links mat :
  ∃ mat', _materialize c s links mat = Ok mat' ∧ materialized_by (cl_link links) [(c, s)] mat mat'.
Proof.
  apply materialize_loop_spec. cbn [length].
  assert (left_to_improve (link_targets links) mat ≤ length (link_rows links))%nat; [|lia].
  unfold left_to_improve, link_targets.
  etrans; [apply (subseteq_size _ (list_to_set (link_rows links).*2)); set_solver|].
  etrans; [apply size_list_to_set_le|]. by rewrite length_fmap.
Qed.

(** ** What a chain cover index means

    Chains are lines of the auth graph, links are edges of it, and every auth
    event can be reached from the event. Then an event is in the auth chain of
    another exactly when there is a path over links. *)

Section index.
(** Which events are auth events of which, without cycles. *)
Context (auth : string → string → Prop) (depth : string → nat).
Hypothesis acyclic : ∀ e a, auth e a → (depth a < depth e)%nat.

Record chains_ok (K : StrMap Coord) : Prop := mkChainsOk {
  co_inj a b x : K !! a = Some x → K !! b = Some x → a = b;
  co_pos e x : K !! e = Some x → 0 < x.2;
  co_down e c s : K !! e = Some (c, s) → 1 < s → ∃ p, K !! p = Some (c, s - 1) ∧ auth e p
}.

Definition links_ok (K : StrMap Coord) (L : Links) : Prop := ∀ x y, L x y →
  ∃ a b, K !! a = Some x ∧ K !! b = Some y ∧ auth a b ∧ x.1 ≠ y.1.

(** The auth events of [e] are indexed, and reached. *)
Definition reaches_auth (K : StrMap Coord) (L : Links) (e : string) : Prop :=
  ∀ x a, K !! e = Some x → auth e a → ∃ y, K !! a = Some y ∧ path L x y.

Record cover (K : StrMap Coord) (L : Links) : Prop := mkCover {
  cv_chains : chains_ok K;
  cv_links : links_ok K L;
  cv_auth e : reaches_auth K L e
}.

Lemma rtc_depth a b : rtc auth a b → (depth b ≤ depth a)%nat.
Proof. induction 1 as [|a b c H _ IH]; [done|]. apply acyclic in H. lia. Qed.

Lemma tc_depth a b : tc auth a b → (depth b < depth a)%nat.
Proof. induction 1 as [a b H|a b c H _ IH]; apply acyclic in H; lia. Qed.

Lemma auth_antisym a b : rtc auth a b → rtc auth b a → a = b.
Proof.
  intros [->|(c & Ha & Hc)]%rtc_inv Hb; [done|].
  apply acyclic in Ha. apply rtc_depth in Hc, Hb. lia.
Qed.

Section chains.
Context (K : StrMap Coord) (L : Links).
Hypothesis Kok : chains_ok K.
Hypothesis Lok : links_ok K L.

(** Down a chain. *)
Lemma chain_down e c s s' : K !! e = Some (c, s) → 0 < s' ≤ s →
  ∃ p, K !! p = Some (c, s') ∧ rtc auth e p.
Proof.
  intros He Hs. remember (Z.to_nat (s - s')) as n eqn:Hn. revert e s He Hs Hn.
  induction n as [|n IH]; intros e s He Hs Hn.
  - exists e. replace s' with s by lia. done.
  - destruct (co_down _ Kok e c s He) as (p & Hp & Ha); [lia|].
    destruct (IH p (s - 1)) as (q & Hq & Hr); [done|lia|lia|].
    exists q. split; [done|]. by eapply rtc_l.
Qed.

Lemma chain_order a b c s s' : K !! a = Some (c, s) → K !! b = Some (c, s') → s' ≤ s → rtc auth a b.
Proof.
  intros Ha Hb Hs. pose proof (co_pos _ Kok _ _ Hb). cbn in *.
  destruct (chain_down a c s s' Ha) as (p & Hp & Hr); [lia|].
  by rewrite (co_inj _ Kok _ _ _ Hb Hp).
Qed.

(** Links lead down the auth graph. *)
Lemma hop_sound e x y : K !! e = Some x → hop L x y → ∃ b, K !! b = Some y ∧ tc auth e b.
Proof.
  intros He (ss & Hl & Hs). destruct (Lok _ _ Hl) as (a & b & Ha & Hb & Hab & _).
  exists b. split; [done|]. destruct x as [c s]. cbn in *.
  eapply tc_rtc_l; [by eapply chain_order|]. by apply tc_once.
Qed.

Lemma hops_sound e x y : K !! e = Some x → rtc (hop L) x y → ∃ b, K !! b = Some y ∧ rtc auth e b.
Proof.
  intros He Hr. revert e He. induction Hr as [u|u v w Hh Hr IH]; intros e He; [by exists e|].
  destruct (hop_sound e u v He Hh) as (b & Hb & Ht). destruct (IH b Hb) as (b' & ? & ?).
  exists b'. split; [done|]. etrans; [by apply tc_rtc|done].
Qed.

Lemma path_sound a b x y : K !! a = Some x → K !! b = Some y → path L x y → rtc auth a b.
Proof.
  intros Ha Hb (s & Hr & Hs). destruct (hops_sound a x _ Ha Hr) as (b' & Hb' & Hab').
  etrans; [exact Hab'|]. destruct y as [c s']. by eapply chain_order.
Qed.

(** What a path over links leads to is strictly below, or lower in the chain. *)
Lemma hops_return c s s' : rtc (hop L) (c, s) (c, s') → s' ≤ s.
Proof.
  intros Hr. apply rtc_inv in Hr as [[= ->]|(y & (ss & Hl & Hs) & Hr)]; [lia|]. cbn in *.
  destruct (Lok _ _ Hl) as (a & b & Ha & Hb & Hab & _).
  destruct (hops_sound b y _ Hb Hr) as (d & Hd & Hbd).
  destruct (decide (s' ≤ s)) as [?|Hn]; [done|].
  assert (rtc auth d a) as Hda by (eapply chain_order; [done|done|lia]).
  apply acyclic in Hab. apply rtc_depth in Hbd, Hda. lia.
Qed.

Lemma link_positive x y : L x y → 0 < y.2.
Proof. intros Hl. destruct (Lok _ _ Hl) as (a & b & _ & Hb & _). by apply (co_pos _ Kok b). Qed.

Lemma same_chain_auth e a c s s' : K !! e = Some (c, s) → K !! a = Some (c, s') → auth e a → s' < s.
Proof.
  intros He Ha Hauth. destruct (decide (s' < s)) as [?|Hn]; [done|].
  assert (rtc auth a e) as Hr by (eapply chain_order; [done|done|lia]).
  apply acyclic in Hauth. apply rtc_depth in Hr. lia.
Qed.
End chains.

Lemma cover_closed K L e x b : cover K L → K !! e = Some x → rtc auth e b → is_Some (K !! b).
Proof.
  intros Hc He Hr. revert x He. induction Hr as [e|e a b Ha _ IH]; intros x He; [by rewrite He|].
  destruct (cv_auth _ _ Hc e x a He Ha) as (y & Hy & _). by eapply IH.
Qed.

Lemma path_complete K L a b x y : cover K L → K !! a = Some x → K !! b = Some y → rtc auth a b → path L x y.
Proof.
  intros Hc Ha Hb Hr. revert x Ha. induction Hr as [a|a d b Hd _ IH]; intros x Ha.
  - simplify_eq. apply path_refl.
  - destruct (cv_auth _ _ Hc a x d Ha Hd) as (z & Hz & Hp). etrans; [exact Hp|by apply IH].
Qed.

(** Reachability in the index is reachability in the auth graph. *)
Lemma cover_path K L a b x y : cover K L → K !! a = Some x → K !! b = Some y → (path L x y ↔ rtc auth a b).
Proof.
  intros Hc Ha Hb. split.
  - apply (path_sound K L (cv_chains _ _ Hc) (cv_links _ _ Hc) a b x y Ha Hb).
  - by apply (path_complete K L a b x y).
Qed.
End index.

(** Only the auth events of the indexed events matter. *)
Lemma cover_ext (auth1 auth2 : string → string → Prop) K L :
  (∀ e a, is_Some (K !! e) → auth1 e a ↔ auth2 e a) → cover auth1 K L → cover auth2 K L.
Proof.
  intros Hiff [[Hi Hp Hd] Hl Ha]. split; [split|..].
  - exact Hi.
  - exact Hp.
  - intros e c s He Hs. destruct (Hd e c s He Hs) as (p & ? & ?). exists p. split; [done|]. apply Hiff; eauto.
  - intros x y (a & b & ? & ? & ? & ?)%Hl. exists a, b. split_and!; try done. apply Hiff; eauto.
  - intros e x a He Hea. apply (Ha e x a He), Hiff; eauto.
Qed.

Lemma cover_links_ext auth K (L L' : Links) : (∀ x y, L x y ↔ L' x y) → cover auth K L → cover auth K L'.
Proof.
  intros Hiff [Hk Hl Ha]. split; [done| |].
  - intros x y Hxy%Hiff. by apply Hl.
  - intros e x a He Hea. destruct (Ha e x a He Hea) as (y & Hy & Hp). exists y. split; [done|].
    eapply path_mono; [|exact Hp]. intros b c Hbc. by apply path_link, Hiff.
Qed.
