(* ===== verification/ChainCover.v ===== *)
(** * The chain cover index

    [synapse/storage/databases/main/events.py] gives each state event that is
    persisted a chain and a number, and links between the chains, from which
    [synapse/storage/databases/main/event_federation.py] answers which events
    are in the auth chains of others. The tables are a record; a query is the
    filter its SQL describes. *)

From S2P Require Import Prelude PyOrd PresenceStore ChainLinks.
#[local] Open Scope Z_scope.

Abbreviation TypeKey := (string * string)%type.

(** ** The tables *)

Record AuthTables := mkTables {
  t_events : StrMap TypeKey;              (** events joined with state_events: type and state_key *)
  t_event_auth : list (string * string);  (** event_auth: event_id and auth_id *)
  t_chains : StrMap Coord;                (** event_auth_chains, by event_id *)
  t_links : list (Coord * Coord);         (** event_auth_chain_links *)
  t_to_calculate : StrMap (string * TypeKey);
    (** event_auth_chain_to_calculate, by event_id: room_id, type and state_key *)
  t_chain_id : Z                          (** the sequence of chain ids *)
}.

(** [simple_select_onecol_txn(txn, "event_auth", {"event_id": event_id}, "auth_id")] *)
Definition select_auth (db : AuthTables) (event_id : string) : list string :=
  (filter (λ r : string * string, r.1 = event_id) (t_event_auth db)).*2.

Definition set_to_calculate (m : StrMap (string * TypeKey)) (db : AuthTables) : AuthTables :=
  mkTables (t_events db) (t_event_auth db) (t_chains db) (t_links db) m (t_chain_id db).

(** [SequenceGenerator.get_next_mult_txn] *)
Definition get_next_mult_txn (n : nat) (db : AuthTables) : list Z * AuthTables :=
  ((λ i, t_chain_id db + 1 + Z.of_nat i) <$> seq 0 n,
   mkTables (t_events db) (t_event_auth db) (t_chains db) (t_links db) (t_to_calculate db)
     (t_chain_id db + Z.of_nat n)).

(** ** [sorted_topologically] *)

(** [for edge in set(edges)] *)
Definition topo_edge (node : string) (st : StrMap Z * StrMap StrSet) (edge : string) :
    StrMap Z * StrMap StrSet :=
  let '(degree_map, reverse_graph) := st in
  (if degree_map !! edge is Some _ then <[node := default 0 (degree_map !! node) + 1]> degree_map
   else degree_map,
   <[edge := {[node]} ∪ default ∅ (reverse_graph !! edge)]> reverse_graph).

Definition topo_node (node : string) (edges : list string) (st : StrMap Z * StrMap StrSet) :
    StrMap Z * StrMap StrSet :=
  if st.1 !! node is Some _ then
    let '(degree_map, reverse_graph) := foldl (topo_edge node) st (elements (list_to_set edges : StrSet)) in
    (degree_map, <[node := default ∅ (reverse_graph !! node)]> reverse_graph)
  else st.

(** [for edge in reverse_graph.get(node, [])] *)
Definition topo_visit (st : StrMap Z * list string) (edge : string) : StrMap Z * list string :=
  let '(degree_map, zero_degree) := st in
  match degree_map !! edge with
  | Some d => (<[edge := d - 1]> degree_map, if d - 1 =? 0 then heappush zero_degree edge else zero_degree)
  | None => st
  end.

Fixpoint topo_loop (fuel : nat) (reverse_graph : StrMap StrSet) (degree_map : StrMap Z)
    (zero_degree : list string) : res (list string) :=
  match heappop zero_degree with
  | None => Ok []
  | Some (node, zero_degree) =>
      match fuel with
      | O => Raise OutOfFuel
      | S fuel =>
          let '(degree_map, zero_degree) :=
            foldl topo_visit (degree_map, zero_degree) (elements (default ∅ (reverse_graph !! node))) in
          rest ← topo_loop fuel reverse_graph degree_map zero_degree; Ok (node :: rest)
      end
  end.

Definition sorted_topologically (nodes : StrSet) (graph : StrMap (list string)) : res (list string) :=
  let '(degree_map, reverse_graph) := map_fold topo_node (gset_to_gmap 0 nodes, ∅) graph in
  let zero_degree := (filter (λ kv : string * Z, kv.2 = 0) (map_to_list degree_map)).*1 in
  topo_loop (size nodes) reverse_graph degree_map zero_degree.

(** ** [_get_chain_links] *)

(** The recursive query for the chains that links lead to: what one more round
    of its union adds. *)
Definition link_round (rows : list (Coord * Coord)) (chains : gset Z) : gset Z :=
  chains ∪ list_to_set ((λ r, r.2.1) <$> filter (λ r : Coord * Coord, r.1.1 ∈ chains) rows).
Definition link_closure (rows : list (Coord * Coord)) (batch : gset Z) : gset Z :=
  Nat.iter (length rows) (link_round rows)
    (list_to_set ((λ r, r.1.1) <$> filter (λ r : Coord * Coord, r.1.1 ∈ batch) rows)).

(** [links.setdefault(origin_chain_id, []).append(...)] *)
Definition group_row (links : ChainLinks) (r : Coord * Coord) : ChainLinks :=
  <[r.1.1 := default [] (links !! r.1.1) ++ [(r.1.2, r.2)]]> links.

Definition select_links (rows : list (Coord * Coord)) (batch : gset Z) : ChainLinks :=
  foldl group_row ∅ (filter (λ r : Coord * Coord, r.1.1 ∈ link_closure rows batch) rows).

Fixpoint chain_links_loop (fuel : nat) (rows : list (Coord * Coord)) (chains_to_fetch : gset Z) :
    res (list ChainLinks) :=
  if decide (chains_to_fetch = ∅) then Ok [] else
  match fuel with
  | O => Raise OutOfFuel
  | S fuel =>
      let batch2 : gset Z := list_to_set (take 1000 (elements chains_to_fetch)) in
      let chains_to_fetch := chains_to_fetch ∖ batch2 in
      let links := select_links rows batch2 in
      rest ← chain_links_loop fuel rows (chains_to_fetch ∖ dom links); Ok (links :: rest)
  end.

(** The dicts it yields; a round takes at least one chain. *)
Definition _get_chain_links (db : AuthTables) (chains_to_fetch : gset Z) : res (list ChainLinks) :=
  chain_links_loop (size chains_to_fetch) (t_links db) chains_to_fetch.

(** ** [_allocate_chain_ids] *)

(** A chain id of the table, or an [object()] that stands for a new one. *)
Inductive ChainRef := Existing (chain_id : Z) | Temporary (n : nat).

#[global] Instance ChainRef_eq_dec : EqDecision ChainRef.
Proof. solve_decision. Defined.
#[global] Instance ChainRef_countable : Countable ChainRef.
Proof.
  refine (inj_countable' (λ r, match r with Existing c => inl c | Temporary n => inr n end)
    (λ s, match s with inl c => Existing c | inr n => Temporary n end) _). by intros [].
Defined.

(** The first auth event of the same type and state key. *)
Definition tree_parent (event_to_types : StrMap TypeKey) (event_to_auth_chain : StrMap (list string))
    (event_id : string) : option string :=
  head (filter (λ auth_id, event_to_types !! event_id = event_to_types !! auth_id)
          (default [] (event_to_auth_chain !! event_id))).

(** [SELECT chain_id, MAX(sequence_number) ... GROUP BY chain_id] *)
Definition add_max (chains : gset Z) (_ : string) (x : Coord) (m : gmap ChainRef Z) : gmap ChainRef Z :=
  if decide (x.1 ∈ chains)
  then <[Existing x.1 := match m !! Existing x.1 with Some s => Z.max s x.2 | None => x.2 end]> m
  else m.

Record allocation := mkAllocation {
  new_chain_tuples : StrMap (ChainRef * Z);
  chain_to_max_seq_no : gmap ChainRef Z;
  unallocated : nat
}.

(** The chain and number of the auth event to follow. *)
Definition existing_tuple (chain_map : StrMap Coord) (st : allocation) (auth_event_id : option string) :
    res (option (ChainRef * Z)) :=
  match auth_event_id with
  | None => Ok None
  | Some auth_id =>
      match new_chain_tuples st !! auth_id with
      | Some x => Ok (Some x)
      | None => match chain_map !! auth_id with
                | Some x => Ok (Some (Existing x.1, x.2))
                | None => Raise KeyError
                end
      end
  end.

(** The next number of its chain, unless it is taken. *)
Definition next_tuple (st : allocation) (existing_chain_id : option (ChainRef * Z)) :
    res (option (ChainRef * Z)) :=
  match existing_chain_id with
  | None => Ok None
  | Some x =>
      match chain_to_max_seq_no st !! x.1 with
      | Some max_seq_no => Ok (if max_seq_no <? x.2 + 1 then Some (x.1, x.2 + 1) else None)
      | None => Raise KeyError
      end
  end.

Definition put_tuple (event_id : string) (new_chain_tuple : option (ChainRef * Z)) (st : allocation) : allocation :=
  let x := default (Temporary (unallocated st), 1) new_chain_tuple in
  mkAllocation (<[event_id := x]> (new_chain_tuples st)) (<[x.1 := x.2]> (chain_to_max_seq_no st))
    (if new_chain_tuple is Some _ then unallocated st else S (unallocated st)).

Definition allocate_event (chain_map : StrMap Coord) (st : allocation) (node : string * option string) :
    res allocation :=
  existing_chain_id ← existing_tuple chain_map st node.2;
  new_chain_tuple ← next_tuple st existing_chain_id;
  Ok (put_tuple node.1 new_chain_tuple st).

Section Allocate.
(** The order in which the set of the [object()]s is iterated over. *)
Context (object_order : nat → list nat).

Definition allocated_map (n : nat) (ids : list Z) (existing_chains : gset Z) : gmap ChainRef Z :=
  list_to_map ((λ c, (Existing c, c)) <$> elements existing_chains) ∪
  list_to_map (zip (Temporary <$> object_order n) ids).

Definition tree_chain (chain_map : StrMap Coord) (node : string * option string) : option Z :=
  match node.2 with
  | Some auth_id => fst <$> chain_map !! auth_id
  | None => None
  end.

Definition real_tuple (chain_id_to_allocated_map : gmap ChainRef Z) (t : string * (ChainRef * Z)) :
    res (string * Coord) :=
  match chain_id_to_allocated_map !! t.2.1 with
  | Some c => Ok (t.1, (c, t.2.2))
  | None => Raise KeyError
  end.

Definition _allocate_chain_ids (event_to_types : StrMap TypeKey)
    (event_to_auth_chain : StrMap (list string)) (events_to_calc_chain_id_for : StrSet)
    (chain_map : StrMap Coord) (db : AuthTables) : res (StrMap Coord * AuthTables) :=
  order ← sorted_topologically events_to_calc_chain_id_for event_to_auth_chain;
  let tree := (λ e, (e, tree_parent event_to_types event_to_auth_chain e)) <$> order in
  let existing_chains : gset Z :=
    list_to_set (omap (tree_chain chain_map) tree) in
  let chain_to_max_seq_no := map_fold (add_max existing_chains) ∅ (t_chains db) in
  st ← foldM (allocate_event chain_map) (mkAllocation ∅ chain_to_max_seq_no 0) tree;
  let '(newly_allocated_chain_ids, db) := get_next_mult_txn (unallocated st) db in
  let chain_id_to_allocated_map :=
    allocated_map (unallocated st) newly_allocated_chain_ids existing_chains in
  tuples ← traverse (real_tuple chain_id_to_allocated_map) (map_to_list (new_chain_tuples st));
  Ok (list_to_map tuples, db).

(** ** [_calculate_chain_cover_index] *)

Record NewEventChainLinks := mkNewLinks {
  n_coord : Coord;   (** chain_id and sequence_number *)
  n_links : list Coord
}.

(** Its local variables. *)
Record calculation := mkCalculation {
  event_to_types : StrMap TypeKey;
  event_to_auth_chain : StrMap (list string);
  chain_map : StrMap Coord;
  events_to_calc : StrSet
}.

(** An event of which the auth events come from the database. *)
Definition calc_event (db : AuthTables) (event_id : string) (tk : TypeKey) (st : calculation) : calculation :=
  mkCalculation (<[event_id := tk]> (event_to_types st))
    (<[event_id := select_auth db event_id]> (event_to_auth_chain st)) (chain_map st)
    ({[event_id]} ∪ events_to_calc st).

Definition missing_auth (st : calculation) : StrSet :=
  list_to_set (filter (λ a, a ∉ events_to_calc st) ((map_to_list (event_to_auth_chain st)).*2 ≫= id)).

(** A row of the query for missing events. *)
Definition fetch_row (db : AuthTables) (acc : calculation * StrSet) (row : string * TypeKey) :
    calculation * StrSet :=
  let '(st, missing) := acc in
  let '(auth_id, tk) := row in
  match t_chains db !! auth_id with
  | None =>
      let st := calc_event db auth_id tk st in
      (st, missing ∪ list_to_set (filter (λ e, event_to_types st !! e = None) (select_auth db auth_id)))
  | Some x =>
      (mkCalculation (<[auth_id := tk]> (event_to_types st)) (event_to_auth_chain st)
         (<[auth_id := x]> (chain_map st)) (events_to_calc st), missing)
  end.

Fixpoint fetch_missing (fuel : nat) (db : AuthTables) (st : calculation) (missing : StrSet) : res calculation :=
  if decide (missing = ∅) then Ok st else
  match fuel with
  | O => Raise OutOfFuel
  | S fuel =>
      let rows := map_to_list (filter (λ kv : string * TypeKey, kv.1 ∈ missing) (t_events db)) in
      let '(st, missing) := foldl (fetch_row db) (st, ∅) rows in
      fetch_missing fuel db st missing
  end.

(** The events whose auth events are not all there are left for later. *)
Definition check_event (event_to_room_id : StrMap string) (st : calculation)
    (acc : StrSet * StrMap (string * TypeKey)) (event_id : string) :
    res (StrSet * StrMap (string * TypeKey)) :=
  let '(events, to_calculate) := acc in
  if existsb (λ a, bool_decide (chain_map st !! a = None) && bool_decide (a ∉ events))
       (default [] (event_to_auth_chain st !! event_id))
  then
    let room_id := default "" (event_to_room_id !! event_id) in
    if decide (room_id = "") then Ok (events ∖ {[event_id]}, to_calculate) else
    match event_to_types st !! event_id with
    | None => Raise KeyError
    | Some tk => Ok (events ∖ {[event_id]}, <[event_id := (room_id, tk)]> to_calculate)
    end
  else Ok (events, to_calculate).

Definition coord_of (chain_map : StrMap Coord) (event_id : string) : res Coord :=
  match chain_map !! event_id with Some x => Ok x | None => Raise KeyError end.

Definition load_link (m : LinkMap) (l : Coord * Coord) : res LinkMap := snd <$> add_link l.1 l.2 false m.

Definition load_links (m : LinkMap) (links : ChainLinks) : res LinkMap :=
  foldM load_link m ('(c, l) ← map_to_list links; (λ x : Z * Coord, ((c, x.1), x.2)) <$> l).

(** [itertools.permutations(l, r=2)] *)
Definition permutations2 (l : list string) : list (string * string) :=
  concat (imap (λ i x, pair x <$> delete i l) l).

Definition reduce_pair (chain_map : StrMap Coord) (m : LinkMap) (reduction : StrSet)
    (p : string * string) : res StrSet :=
  x ← coord_of chain_map p.1; y ← coord_of chain_map p.2;
  b ← exists_path_from x y m;
  Ok (if (b : bool) then reduction ∖ {[p.2]} else reduction).

Definition link_to (chain_map : StrMap Coord) (x : Coord) (acc : list Coord * LinkMap) (auth_id : string) :
    res (list Coord * LinkMap) :=
  y ← coord_of chain_map auth_id;
  r ← add_link x y true acc.2;
  Ok (acc.1 ++ [y], r.2).

(** The links of one event. *)
Definition event_links (event_to_auth_chain : StrMap (list string)) (chain_map : StrMap Coord)
    (acc : StrMap NewEventChainLinks * LinkMap) (event_id : string) :
    res (StrMap NewEventChainLinks * LinkMap) :=
  let '(to_return, m) := acc in
  x ← coord_of chain_map event_id;
  let auth_events := default [] (event_to_auth_chain !! event_id) in
  coords ← traverse (coord_of chain_map) auth_events;
  let reduction : StrSet :=
    list_to_set ((filter (λ ay : string * Coord, ay.2.1 ≠ x.1) (zip auth_events coords)).*1) in
  reduction ← foldM (reduce_pair chain_map m) reduction (permutations2 auth_events);
  '(links, m) ← foldM (link_to chain_map x) ([], m) (elements reduction);
  Ok (<[event_id := mkNewLinks x links]> to_return, m).

Definition new_link_map (db : AuthTables) (chain_map : StrMap Coord) : res LinkMap :=
  all ← _get_chain_links db (list_to_set ((map_to_list chain_map).*2.*1));
  foldM load_links empty_link_map all.

(** The rows of [event_auth_chain_to_calculate] for the rooms. *)
Definition calculate_rows (db : AuthTables) (rooms : list string) : list (string * (string * TypeKey)) :=
  map_to_list (filter (λ kv : string * (string * TypeKey), kv.2.1 ∈ rooms) (t_to_calculate db)).

(** The number of rounds is at most that of the events to find, and one. *)
Definition _calculate_chain_cover_index (event_to_room_id : StrMap string) (event_to_types0 : StrMap TypeKey)
    (event_to_auth_chain0 : StrMap (list string)) (db : AuthTables) :
    res (StrMap NewEventChainLinks * AuthTables) :=
  let st := mkCalculation event_to_types0 event_to_auth_chain0 ∅ (dom event_to_room_id) in
  let st := foldl (λ st r, calc_event db r.1 r.2.2 st) st (calculate_rows db (map_to_list event_to_room_id).*2) in
  st ← fetch_missing (S (S (size (t_events db)))) db st (missing_auth st);
  order ← sorted_topologically (dom (event_to_auth_chain st)) (event_to_auth_chain st);
  '(events, to_calculate) ← foldM (check_event event_to_room_id st) (events_to_calc st, t_to_calculate db) order;
  let db := set_to_calculate to_calculate db in
  if decide (events = ∅) then Ok (∅, db) else
  '(new_tuples, db) ← _allocate_chain_ids (event_to_types st) (event_to_auth_chain st) events (chain_map st) db;
  let chain_map := new_tuples ∪ chain_map st in
  m ← new_link_map db chain_map;
  order ← sorted_topologically events (event_to_auth_chain st);
  '(to_return, _) ← foldM (event_links (event_to_auth_chain st) chain_map)
    ((λ x, mkNewLinks x []) <$> new_tuples, m) order;
  Ok (to_return, db).

(** ** Persisting *)

(** The tables have unique indexes. *)
Definition _persist_chain_cover_index (new_event_links : StrMap NewEventChainLinks) (db : AuthTables) :
    res AuthTables :=
  let chains := (n_coord <$> new_event_links) ∪ t_chains db in
  raise_if (existsb (λ e, bool_decide (is_Some (t_chains db !! e))) (map_to_list new_event_links).*1
            || bool_decide (¬ NoDup (map_to_list chains).*2))
    (PlainException "IntegrityError");;
  Ok (mkTables (t_events db) (t_event_auth db) chains
        (t_links db ++ ('(_, n) ← map_to_list new_event_links; pair (n_coord n) <$> n_links n))
        (filter (λ kv : string * (string * TypeKey), new_event_links !! kv.1 = None) (t_to_calculate db))
        (t_chain_id db)).

(** What is read of an event. *)
Record PersistedEvent := mkPersisted {
  p_event_id : string;
  p_room_id : string;
  p_type : string;
  p_state_key : option string;
  p_auth_event_ids : list string;
  p_outlier : bool
}.

Definition p_is_state (e : PersistedEvent) : bool := if p_state_key e is Some _ then true else false.

(** [calculate_chain_cover_index_for_events]: the state events, each once. *)
Definition unique_state_event (acc : list PersistedEvent * StrSet) (e : PersistedEvent) :
    list PersistedEvent * StrSet :=
  if negb (p_is_state e) || bool_decide (p_event_id e ∈ acc.2) then acc
  else (acc.1 ++ [e], {[p_event_id e]} ∪ acc.2).

(** [row is None or row[1] is False], of the room's [has_auth_chain_index]. *)
Definition no_chain_index (row : option (option bool)) : bool :=
  match row with
  | None | Some (Some false) => true
  | Some (Some true) | Some None => false
  end.

Definition calculate_chain_cover_index_for_events (row : option (option bool))
    (events : list PersistedEvent) (db : AuthTables) : res (StrMap NewEventChainLinks * AuthTables) :=
  let state_events := (foldl unique_state_event ([], ∅) events).1 in
  if decide (state_events = []) then Ok (∅, db) else
  if no_chain_index row then Ok (∅, db) else
  let state_events := filter (λ e, t_chains db !! p_event_id e = None) state_events in
  if decide (state_events = []) then Ok (∅, db) else
  _calculate_chain_cover_index
    (list_to_map ((λ e, (p_event_id e, p_room_id e)) <$> state_events))
    (list_to_map ((λ e, (p_event_id e, (p_type e, default "" (p_state_key e)))) <$> state_events))
    (list_to_map ((λ e, (p_event_id e, p_auth_event_ids e)) <$> state_events)) db.

(** An [OrderedDict] of events by their ids. *)
Definition drop_duplicate (seen : list PersistedEvent) (e : PersistedEvent) : list PersistedEvent :=
  match list_find (λ e', p_event_id e' = p_event_id e) seen with
  | None => seen ++ [e]
  | Some (i, prev) => if negb (p_outlier e) && p_outlier prev then delete i seen ++ [e] else seen
  end.

(** The events not in the table yet; of them only the state events matter here. *)
Definition _filter_events_and_contexts_for_duplicates (events : list PersistedEvent) : list PersistedEvent :=
  foldl drop_duplicate [] events.

Definition _update_outliers_txn (events : list PersistedEvent) (db : AuthTables) : list PersistedEvent :=
  filter (λ e, t_events db !! p_event_id e = None) events.

Definition store_event (m : StrMap TypeKey) (e : PersistedEvent) : StrMap TypeKey :=
  if p_state_key e is Some state_key then <[p_event_id e := (p_type e, state_key)]> m else m.

Definition _store_event_txn (events : list PersistedEvent) (db : AuthTables) : AuthTables :=
  mkTables (foldl store_event (t_events db) events) (t_event_auth db) (t_chains db) (t_links db)
    (t_to_calculate db) (t_chain_id db).

Definition _persist_event_auth_chain_txn (events : list PersistedEvent)
    (new_event_links : StrMap NewEventChainLinks) (db : AuthTables) : res AuthTables :=
  db ← (if decide (new_event_links = ∅) then Ok db else _persist_chain_cover_index new_event_links db);
  Ok (mkTables (t_events db)
        (t_event_auth db ++
         (e ← filter (λ e, p_is_state e = true) events; pair (p_event_id e) <$> p_auth_event_ids e))
        (t_chains db) (t_links db) (t_to_calculate db) (t_chain_id db)).

(** What [_persist_events_txn] does to these tables. *)
Definition _persist_events_txn (events : list PersistedEvent) (new_event_links : StrMap NewEventChainLinks)
    (db : AuthTables) : res AuthTables :=
  let events := _update_outliers_txn (_filter_events_and_contexts_for_duplicates events) db in
  _persist_event_auth_chain_txn events new_event_links (_store_event_txn events db).

(** A batch of events: the index is calculated in a transaction of its own,
    then the events are persisted in another. The queue in front of this
    handles one batch of a room at a time, so that nothing of the room comes
    between the two; that either transaction fails is not modelled. *)
Definition persist_batch (row : option (option bool)) (events : list PersistedEvent) (db : AuthTables) :
    res AuthTables :=
  '(new_event_links, db) ← calculate_chain_cover_index_for_events row events db;
  _persist_events_txn events new_event_links db.
End Allocate.
