(* ===== verification/ChainQuery.v ===== *)
(** * Auth chains from the chain cover index

    The readers of the index in
    [synapse/storage/databases/main/event_federation.py]: the auth chain of a
    set of events, and the difference of the auth chains of state sets, with
    the events that are not indexed yet handled apart. *)

From S2P Require Import Prelude PyOrd ChainLinks ChainCover.
#[local] Open Scope Z_scope.

Definition _NoChainCoverIndex : exn := PlainException "Unexpectedly no chain cover for events in %s".

(** [chains[chain_id] = max(seq_no, chains.get(chain_id, 0))] *)
Definition max_seq (chains : gmap Z Z) (x : Coord) : gmap Z Z :=
  <[x.1 := Z.max x.2 (default 0 (chains !! x.1))]> chains.

(** [SELECT ... FROM event_auth_chains WHERE event_id IN ...] *)
Definition fetch_chain_info (db : AuthTables) (events : StrSet) : StrMap Coord :=
  filter (λ kv : string * Coord, kv.1 ∈ events) (t_chains db).

(** [for chain_id in links: ...] *)
Definition materialize_from (links : ChainLinks) (start : gmap Z Z) (chains : gmap Z Z) (c : Z) : res (gmap Z Z) :=
  match start !! c with
  | None => Ok chains
  | Some s => _materialize c s links chains
  end.

(** ** [_get_auth_chain_ids_using_cover_index_txn] *)

(** Here the chains to start from are those of the given events. *)
Definition chains_of_events (event_chains : gmap Z Z) (chains : gmap Z Z) (links : ChainLinks) : res (gmap Z Z) :=
  foldM (materialize_from links event_chains) chains (map_to_list links).*1.

Definition add_initial_chain (chains : gmap Z Z) (x : Coord) : gmap Z Z :=
  if x.2 =? 1 then chains else <[x.1 := Z.max (x.2 - 1) (default 0 (chains !! x.1))]> chains.

(** The events of the chains up to the numbers. *)
Definition events_up_to (db : AuthTables) (chains : gmap Z Z) : StrSet :=
  list_to_set ((c ← map_to_list chains;
    filter (λ kv : string * Coord, kv.2.1 = c.1 ∧ kv.2.2 ≤ c.2) (map_to_list (t_chains db))).*1).

Definition _get_auth_chain_ids_using_cover_index_txn (event_ids : list string) (include_given : bool)
    (db : AuthTables) : res StrSet :=
  let initial_events : StrSet := list_to_set event_ids in
  let info := fetch_chain_info db initial_events in
  let event_chains := foldl max_seq ∅ (map_to_list info).*2 in
  raise_if (bool_decide (initial_events ∖ dom info ≠ ∅)) _NoChainCoverIndex;;
  all ← _get_chain_links db (dom event_chains);
  chains ← foldM (chains_of_events event_chains) ∅ all;
  let chains := foldl add_initial_chain chains (map_to_list event_chains) in
  Ok ((if include_given then initial_events else ∅) ∪ events_up_to db chains).

(** ** Events without an index *)

(** The rows of the query, by event: its auth events. *)
Definition unindexed_auth (db : AuthTables) (room_id : string) : StrMap StrSet :=
  map_imap (λ event_id _, Some (list_to_set (select_auth db event_id)))
    (filter (λ kv : string * (string * TypeKey), kv.2.1 = room_id) (t_to_calculate db)).

Fixpoint partial_chain (fuel : nat) (event_to_auth_ids : StrMap StrSet) (processing to_add : StrSet) : res StrSet :=
  match elements processing with
  | [] => Ok to_add
  | auth_id :: _ =>
      match fuel with
      | O => Raise OutOfFuel
      | S fuel =>
          let processing := processing ∖ {[auth_id]} in
          let to_add := {[auth_id]} ∪ to_add in
          let processing := match event_to_auth_ids !! auth_id with
                            | None => processing
                            | Some sub_auth_ids => processing ∪ (sub_auth_ids ∖ to_add)
                            end in
          partial_chain fuel event_to_auth_ids processing to_add
      end
  end.

(** Every auth event is popped at most once. *)
Definition partial_auth_chain (event_to_auth_ids : StrMap StrSet) (auth_ids : StrSet) : res StrSet :=
  partial_chain (size (⋃ (map_to_list event_to_auth_ids).*2)) event_to_auth_ids auth_ids ∅.

(** One unindexed event in one state set: the set becomes its indexed part. *)
Definition replace_unindexed (indexed : StrSet) (acc : StrSet * StrSet) (c : string * StrSet) : StrSet * StrSet :=
  let '(state_set, unindexed_state_set) := acc in
  let '(event_id, auth_chain) := c in
  if decide (event_id ∉ state_set) then acc
  else ((state_set ∖ {[event_id]} ∖ auth_chain) ∪ (auth_chain ∩ indexed),
        {[event_id]} ∪ unindexed_state_set ∪ (auth_chain ∖ indexed)).

Definition set_union (l : list StrSet) : StrSet := ⋃ l.
Definition set_intersection (l : list StrSet) : StrSet :=
  match l with [] => ∅ | x :: l => foldl (∩) x l end.

(** The state sets, which it changes, and the difference of the unindexed events. *)
Definition _fixup_auth_chain_difference_sets (room_id : string) (state_sets : list StrSet)
    (events_missing_chain_info events_that_have_chain_index : StrSet) (db : AuthTables) :
    res (StrSet * list StrSet) :=
  let event_to_auth_ids := unindexed_auth db room_id in
  let indexed : StrSet := events_that_have_chain_index ∪
    filter (λ a, is_Some (t_chains db !! a)) (⋃ (map_to_list event_to_auth_ids).*2) in
  raise_if (bool_decide (events_missing_chain_info ∖ dom event_to_auth_ids ≠ ∅)) _NoChainCoverIndex;;
  partial ← traverse (λ kv : string * StrSet, c ← partial_auth_chain event_to_auth_ids kv.2; Ok (kv.1, c))
    (filter (λ kv : string * StrSet, kv.1 ∈ set_union state_sets) (map_to_list event_to_auth_ids));
  let replaced := (λ state_set, foldl (replace_unindexed indexed) (state_set, ∅) partial) <$> state_sets in
  let unindexed_state_sets := replaced.*2 in
  Ok (set_union unindexed_state_sets ∖ set_intersection unindexed_state_sets, replaced.*1).

(** ** [_get_auth_chain_difference_using_cover_index_txn] *)

Definition add_state_id (chain_info : StrMap Coord) (chains : gmap Z Z) (state_id : string) : res (gmap Z Z) :=
  x ← coord_of chain_info state_id; Ok (max_seq chains x).

(** Here the chains to start from are the ones found so far. *)
Definition materialize_here (links : ChainLinks) (chains : gmap Z Z) (c : Z) : res (gmap Z Z) :=
  materialize_from links chains chains c.
Definition materialize_set (links : ChainLinks) (chains : gmap Z Z) : res (gmap Z Z) :=
  foldM (materialize_here links) chains (map_to_list links).*1.
Definition materialize_sets (set_to_chain : list (gmap Z Z)) (links : ChainLinks) : res (list (gmap Z Z)) :=
  traverse (materialize_set links) set_to_chain.

Fixpoint fill_gap (chain_to_event : gmap Coord string) (c : Z) (seqs : list Z) (result : StrSet) : StrSet * bool :=
  match seqs with
  | [] => (result, false)
  | s :: seqs =>
      match chain_to_event !! (c, s) with
      | Some e => fill_gap chain_to_event c seqs ({[e]} ∪ result)
      | None => (result, true)
      end
  end.

Definition seqs_of (set_to_chain : list (gmap Z Z)) (c : Z) : list Z :=
  (λ chains : gmap Z Z, default 0 (chains !! c)) <$> set_to_chain.
Definition min_seq_no (set_to_chain : list (gmap Z Z)) (c : Z) : Z :=
  match seqs_of set_to_chain c with [] => 0 | s :: l => foldl Z.min s l end.
Definition max_seq_no (set_to_chain : list (gmap Z Z)) (c : Z) : Z :=
  match seqs_of set_to_chain c with [] => 0 | s :: l => foldl Z.max s l end.

Definition py_range (lo hi : Z) : list Z := (λ i, lo + Z.of_nat i) <$> seq 0 (Z.to_nat (hi - lo)).

(** One chain: what is found at once, and whether the rest must be fetched. *)
Definition chain_gap (set_to_chain : list (gmap Z Z)) (chain_to_event : gmap Coord string)
    (acc : StrSet * list (Z * Coord)) (c : Z) : StrSet * list (Z * Coord) :=
  let '(result, gaps) := acc in
  let lo := min_seq_no set_to_chain c in
  let hi := max_seq_no set_to_chain c in
  if lo <? hi then
    let '(result, gap) := fill_gap chain_to_event c (py_range (lo + 1) (hi + 1)) result in
    (result, if (gap : bool) then gaps ++ [(c, (lo, hi))] else gaps)
  else acc.

Definition fetch_gap (db : AuthTables) (g : Z * Coord) : list string :=
  (filter (λ kv : string * Coord, kv.2.1 = g.1 ∧ g.2.1 < kv.2.2 ∧ kv.2.2 ≤ g.2.2) (map_to_list (t_chains db))).*1.

(** The difference for state sets of indexed events, added to the result. *)
Definition indexed_difference (state_sets : list StrSet) (chain_info : StrMap Coord) (result : StrSet)
    (db : AuthTables) : res StrSet :=
  set_to_chain ← traverse (λ s : StrSet, foldM (add_state_id chain_info) ∅ (elements s)) state_sets;
  let seen_chains : gset Z := list_to_set (map_to_list chain_info).*2.*1 in
  all ← _get_chain_links db seen_chains;
  set_to_chain ← foldM materialize_sets set_to_chain all;
  let seen_chains := seen_chains ∪ ⋃ ((λ chains : gmap Z Z, dom chains) <$> set_to_chain) in
  let chain_to_event : gmap Coord string := list_to_map ((λ kv, (kv.2, kv.1)) <$> map_to_list chain_info) in
  let '(result, chain_to_gap) := foldl (chain_gap set_to_chain chain_to_event) (result, []) (elements seen_chains) in
  Ok (result ∪ list_to_set (chain_to_gap ≫= fetch_gap db)).

Definition _get_auth_chain_difference_using_cover_index_txn (room_id : string) (state_sets : list StrSet)
    (db : AuthTables) : res StrSet :=
  raise_if (bool_decide (state_sets = [])) IndexError;;
  let initial_events := set_union state_sets in
  let chain_info := fetch_chain_info db initial_events in
  let missing := initial_events ∖ dom chain_info in
  if decide (missing = ∅) then indexed_difference state_sets chain_info ∅ db else
  '(result, state_sets) ← _fixup_auth_chain_difference_sets room_id state_sets missing (dom chain_info) db;
  let chain_info := fetch_chain_info db (set_union state_sets ∖ initial_events) ∪ chain_info in
  indexed_difference state_sets chain_info result db.
