(* ===== verification/ChainQueryProps.v ===== *)
(** * The readers of the chain cover index are right

    On tables whose index is a cover of the auth graph, the auth chains and the
    difference of auth chains read from the index are those of the graph. *)

From S2P Require Import Prelude PyOrd ChainLinks ChainIndex ChainCover ChainQuery.
From stdpp Require Import relations.
#[local] Open Scope Z_scope.

(** ** Fetching links *)

Section closure.
Context (rows : list (Coord * Coord)).

Definition row_targets : gset Z := list_to_set ((λ r, r.2.1) <$> rows).

Lemma elem_of_link_round X c :
  c ∈ link_round rows X ↔ c ∈ X ∨ ∃ x y, (x, y) ∈ rows ∧ x.1 ∈ X ∧ y.1 = c.
Proof.
  unfold link_round. rewrite elem_of_union, elem_of_list_to_set, list_elem_of_fmap. apply or_iff_compat_l. split.
  - intros ([x y] & -> & [? ?]%list_elem_of_filter). eauto.
  - intros (x & y & ? & ? & <-). exists (x, y). by rewrite list_elem_of_filter.
Qed.

Lemma link_round_grows X : X ⊆ link_round rows X.
Proof. intros c Hc. apply elem_of_link_round. by left. Qed.

Lemma link_round_targets X : link_round rows X ⊆ X ∪ row_targets.
Proof.
  intros c [?|(x & y & Hr & _ & <-)]%elem_of_link_round; [set_solver|].
  apply elem_of_union_r, elem_of_list_to_set, list_elem_of_fmap. by exists (x, y).
Qed.

(** A round that adds nothing is the last; the others add a target. *)
Lemma rounds_progress n X :
  let Y := Nat.iter n (link_round rows) X in
  link_round rows Y = Y ∨ (n ≤ size (Y ∩ row_targets))%nat.
Proof.
  induction n as [|n IH]; [right; lia|]. cbv zeta in *. rewrite Nat.iter_succ.
  set (Y := Nat.iter n (link_round rows) X) in *.
  destruct (decide (link_round rows Y = Y)) as [E|Hne]; [left; by rewrite !E|].
  destruct IH as [?|IH]; [done|]. right.
  assert (Y ∩ row_targets ⊂ link_round rows Y ∩ row_targets) as Hs.
  { pose proof (link_round_grows Y) as Hg. apply strict_spec_alt. split; [set_solver|]. intros Heq.
    apply Hne, set_eq. intros c. split; [|apply Hg]. intros Hc.
    pose proof (link_round_targets Y c Hc) as [?|Ht]%elem_of_union; [done|].
    assert (c ∈ Y ∩ row_targets); [|set_solver]. rewrite Heq. set_solver. }
  apply subset_size in Hs. lia.
Qed.

Lemma rounds_start n X : X ⊆ Nat.iter n (link_round rows) X.
Proof. induction n as [|n IH]; [done|]. rewrite Nat.iter_succ. etrans; [exact IH|apply link_round_grows]. Qed.

Lemma closure_fixed X : link_round rows (Nat.iter (length rows) (link_round rows) X) = Nat.iter (length rows) (link_round rows) X.
Proof.
  destruct (rounds_progress (length rows) X) as [?|Hs]; [done|].
  set (Y := Nat.iter (length rows) (link_round rows) X) in *.
  assert (size row_targets ≤ length rows)%nat as Ht.
  { unfold row_targets. etrans; [apply size_list_to_set_le|]. by rewrite length_fmap. }
  assert (row_targets ⊆ Y) as Hsub.
  { assert (Y ∩ row_targets = row_targets) as <-; [|set_solver].
    destruct (decide (Y ∩ row_targets = row_targets)) as [?|Hne]; [done|].
    assert (Y ∩ row_targets ⊂ row_targets) as Hlt%subset_size; [|lia].
    apply strict_spec_alt. split; [set_solver|done]. }
  apply set_eq. intros c. split; [|apply link_round_grows].
  intros [?|?]%link_round_targets%elem_of_union; [done|by apply Hsub].
Qed.

Lemma link_closure_closed batch x y : (x, y) ∈ rows → x.1 ∈ link_closure rows batch → y.1 ∈ link_closure rows batch.
Proof.
  intros Hr Hx. unfold link_closure. rewrite <-closure_fixed. apply elem_of_link_round. right. eauto.
Qed.

Lemma link_closure_start batch x y : (x, y) ∈ rows → x.1 ∈ batch → x.1 ∈ link_closure rows batch.
Proof.
  intros Hr Hx. apply rounds_start, elem_of_list_to_set, list_elem_of_fmap. exists (x, y).
  by rewrite list_elem_of_filter.
Qed.

Lemma group_rows l links x y :
  cl_link (foldl group_row links l) x y ↔ cl_link links x y ∨ (x, y) ∈ l.
Proof.
  revert links. induction l as [|[[c s] z] l IH]; intros links; cbn [foldl].
  { rewrite elem_of_nil. tauto. }
  rewrite IH, elem_of_cons. unfold group_row, cl_link. cbn. destruct x as [c' s']. cbn.
  destruct (decide (c' = c)) as [->|Hne].
  - rewrite lookup_insert_eq. cbn. rewrite elem_of_app, list_elem_of_singleton.
    split; [intros [[?|[= -> ->]]|?]; tauto|]. intros [?|[[= -> ->]|?]]; tauto.
  - rewrite lookup_insert_ne by done. split; [tauto|]. intros [?|[[=]|?]]; [tauto|done|tauto].
Qed.

Lemma group_rows_dom l links c : (∀ x, links !! c ≠ Some x) ∨ (∃ x, cl_link links (c, x.1) x.2) →
  is_Some (foldl group_row links l !! c) → ∃ s y, cl_link (foldl group_row links l) (c, s) y.
Proof.
  revert links. induction l as [|[[c' s'] z] l IH]; intros links Hl [x Hx]; cbn [foldl] in *.
  - destruct Hl as [Hn|[[s y] ?]]; [by apply Hn in Hx|eauto].
  - apply IH; [|eauto]. unfold group_row. cbn. destruct (decide (c = c')) as [->|Hne].
    + right. exists (s', z). unfold cl_link. cbn. rewrite lookup_insert_eq. cbn. apply elem_of_app. right. by left.
    + destruct Hl as [Hl|Hl]; [left|right]; [by rewrite lookup_insert_ne|].
      destruct Hl as [y Hl]. exists y. unfold cl_link in *. cbn in *. by rewrite lookup_insert_ne.
Qed.

(** A dict of links: rows of the table, all those of its chains, and with
    the chains they lead to. *)
Record batch_ok (links : ChainLinks) : Prop := mkBatchOk {
  bo_rows x y : cl_link links x y → (x, y) ∈ rows;
  bo_all x y : is_Some (links !! x.1) → (x, y) ∈ rows → cl_link links x y;
  bo_closed x y s z : cl_link links x y → ((y.1, s), z) ∈ rows → cl_link links (y.1, s) z
}.

Lemma select_links_spec batch x y :
  cl_link (select_links rows batch) x y ↔ (x, y) ∈ rows ∧ x.1 ∈ link_closure rows batch.
Proof.
  unfold select_links. rewrite group_rows, list_elem_of_filter. unfold cl_link at 1. rewrite lookup_empty. cbn.
  rewrite elem_of_nil. tauto.
Qed.

Lemma select_links_ok batch : batch_ok (select_links rows batch).
Proof.
  split.
  - by intros x y [? _]%select_links_spec.
  - intros x y Hx Hr. apply select_links_spec. split; [done|].
    destruct (group_rows_dom (filter (λ r : Coord * Coord, r.1.1 ∈ link_closure rows batch) rows) ∅ x.1)
      as (s & z & Hl); [left; by intros ?; rewrite lookup_empty|exact Hx|].
    by apply select_links_spec in Hl as [_ ?].
  - intros x y s z [Hr Hx]%select_links_spec Hz. apply select_links_spec. split; [done|].
    by apply (link_closure_closed batch x y).
Qed.

Lemma cl_link_dom links x y : cl_link links x y → is_Some (links !! x.1).
Proof. unfold cl_link. destruct (links !! x.1); [eauto|]. by intros ?%elem_of_nil. Qed.

(** The dicts together have the links of all the chains asked for. *)
Definition fetched_from (chains : gset Z) (all : list ChainLinks) : Prop :=
  ∀ x y, (x, y) ∈ rows → x.1 ∈ chains → ∃ links, links ∈ all ∧ cl_link links x y.

Lemma chain_links_loop_spec fuel chains : (size chains ≤ fuel)%nat →
  ∃ all, chain_links_loop fuel rows chains = Ok all ∧ Forall batch_ok all ∧ fetched_from chains all.
Proof.
  revert chains. induction fuel as [|fuel IH]; intros chains Hf; cbn [chain_links_loop];
    destruct (decide (chains = ∅)) as [->|Hne].
  1,3: exists []; split_and!; [done|constructor|]; intros x y _ ?%elem_of_empty; done.
  { destruct Hne. apply leibniz_equiv, size_empty_iff. lia. }
  set (batch := list_to_set (take 1000 (elements chains)) : gset Z).
  set (links := select_links rows batch).
  destruct (IH (chains ∖ batch ∖ dom links)) as (all & -> & Hok & Hall).
  - assert (chains ∖ batch ∖ dom links ⊂ chains) as Hlt%subset_size; [|lia].
    apply strict_spec_alt. split; [set_solver|]. intros Heq.
    destruct (elements chains) as [|c l] eqn:E; [by apply elements_empty_inv, leibniz_equiv in E|].
    assert (c ∈ chains) as Hc by (apply elem_of_elements; rewrite E; by left).
    rewrite <-Heq in Hc. assert (c ∈ batch); [|set_solver].
    unfold batch. apply elem_of_list_to_set. by left.
  - exists (links :: all). split_and!; [done|constructor; [apply select_links_ok|done]|].
    intros x y Hr Hx. destruct (decide (x.1 ∈ batch)) as [Hb|Hb].
    { exists links. split; [by left|]. apply select_links_spec. split; [done|]. by eapply link_closure_start. }
    destruct (decide (x.1 ∈ dom links)) as [Hd|Hd].
    { exists links. split; [by left|]. apply select_links_ok; [by apply elem_of_dom|done]. }
    destruct (Hall x y Hr) as (l & ? & ?); [set_solver|]. exists l. split; [by right|done].
Qed.
End closure.

Lemma get_chain_links_spec db chains :
  ∃ all, _get_chain_links db chains = Ok all ∧ Forall (batch_ok (t_links db)) all ∧
    fetched_from (t_links db) chains all.
Proof. by apply chain_links_loop_spec. Qed.

(** ** Materializing over the dicts *)

Definition row_link (rows : list (Coord * Coord)) : Links := λ x y, (x, y) ∈ rows.

Section materialize.
Context (rows : list (Coord * Coord)).
Abbreviation L := (row_link rows).

Lemma batch_hops links x y : batch_ok rows links → rtc (hop (cl_link links)) x y → rtc (hop L) x y.
Proof.
  intros Hb. apply rtc_subrel. intros a b (ss & Hl & Hs). exists ss. split; [by apply (bo_rows _ _ Hb)|done].
Qed.

Lemma batch_hops_tc links x y : batch_ok rows links → tc (hop (cl_link links)) x y → tc (hop L) x y.
Proof.
  intros Hb Ht. induction Ht as [a b (ss & Hl & Hs)|a b c (ss & Hl & Hs) _ IH]; [apply tc_once|eapply tc_l; [|exact IH]];
    exists ss; (split; [by apply (bo_rows _ _ Hb)|done]).
Qed.

(** A chain of the dict has all its links there, and so has a chain they lead to. *)
Lemma batch_closed_at links mat c s : batch_ok rows links → is_Some (links !! c) →
  closed_at (cl_link links) mat (c, s) → closed_at L mat (c, s).
Proof.
  intros Hb Hc Hcl y (ss & Hl & Hs). apply Hcl. exists ss. split; [|done]. by apply (bo_all _ _ Hb).
Qed.

Lemma batch_target_closed links mat x c v : batch_ok rows links → tc (hop (cl_link links)) x (c, v) →
  closed_at (cl_link links) mat (c, v) → closed_at L mat (c, v).
Proof.
  intros Hb Ht Hcl y (ss & Hl & Hs). apply Hcl. exists ss. split; [|done].
  assert (∃ z, cl_link links z (c, v)) as [z Hz].
  { clear -Ht. remember (c, v) as w eqn:Ew. induction Ht as [a b (s' & ? & _)|]; subst; eauto. }
  by apply (bo_closed _ _ Hb z (c, v)).
Qed.

(** *** For a state set *)

Section one_set.
Context (X : list Coord) (mat0 : gmap Z Z).

(** After the dicts [done] and the chains [pre] of the next. *)
Record set_inv (dne : list ChainLinks) (pre : list Z) (mat : gmap Z Z) : Prop := mkSetInv {
  st_sound c v : mat !! c = Some v → ∃ x, x ∈ X ∧ rtc (hop L) x (c, v);
  st_start x : x ∈ X → covers mat x;
  st_closed c v : mat !! c = Some v → closed_at L mat (c, v) ∨
    (is_Some (mat0 !! c) ∧ (∀ links, links ∈ dne → links !! c = None) ∧ c ∉ pre)
}.

Lemma materialize_here_spec dne pre links mat c : batch_ok rows links → is_Some (links !! c) →
  set_inv dne pre mat → ∃ mat', materialize_here links mat c = Ok mat' ∧ set_inv dne (pre ++ [c]) mat'.
Proof.
  intros Hb Hc [Hs Hst Hcl]. unfold materialize_here, materialize_from.
  assert (∀ c' (P : Prop), (P ∧ c' ∉ pre) → c' ≠ c → P ∧ (c' ∉ pre ++ [c])) as Hpre.
  { intros c' P [? ?] ?. split; [done|]. rewrite elem_of_app, list_elem_of_singleton. tauto. }
  destruct (mat !! c) as [s|] eqn:E.
  - destruct (materialize_spec c s links mat) as (mat' & -> & [Ble Bs Bst Bc]). exists mat'. split; [done|].
    assert (∀ c' v, mat' !! c' = Some v → mat !! c' = Some v ∨ tc (hop (cl_link links)) (c, s) (c', v)) as Hnew.
    { intros c' v Hv. destruct (Bs _ _ Hv) as [?|(x & ->%list_elem_of_singleton & ?)]; [by left|by right]. }
    split.
    + intros c' v Hv. destruct (Hnew _ _ Hv) as [?|Ht]; [by apply Hs|].
      destruct (Hs _ _ E) as (x & Hx & Hr). exists x. split; [done|]. etrans; [exact Hr|].
      by apply tc_rtc, batch_hops_tc with links.
    + intros x Hx. eapply covers_le; [exact Ble|by apply Hst].
    + intros c' v Hv. destruct (Bc _ _ Hv) as [Hold|Hcl'].
      * destruct (decide (c' = c)) as [->|Hne].
        { left. simplify_eq. apply (batch_closed_at links); [done|done|]. apply Bst. by left. }
        destruct (Hcl _ _ Hold) as [?|(? & ? & ?)]; [left; by eapply closed_at_le|right].
        split_and!; [done|done|]. by apply (Hpre c' True).
      * destruct (Hnew _ _ Hv) as [Hold|Ht]; [|left; by eapply batch_target_closed].
        destruct (decide (c' = c)) as [->|Hne].
        { left. simplify_eq. by apply (batch_closed_at links). }
        destruct (Hcl _ _ Hold) as [?|(? & ? & ?)]; [left; by eapply closed_at_le|right].
        split_and!; [done|done|]. by apply (Hpre c' True).
  - exists mat. split; [done|]. split; [done|done|]. intros c' v Hv.
    destruct (Hcl _ _ Hv) as [?|(? & ? & ?)]; [by left|right]. split_and!; [done|done|].
    apply (Hpre c' True); [done|]. by intros ->; simplify_eq.
Qed.

Lemma materialize_set_spec dne links mat : batch_ok rows links → set_inv dne [] mat →
  ∃ mat', materialize_set links mat = Ok mat' ∧ set_inv (dne ++ [links]) [] mat'.
Proof.
  intros Hb Hi. unfold materialize_set.
  destruct (foldM_total_prefix (set_inv dne) (materialize_here links) mat (map_to_list links).*1 Hi)
    as (mat' & Hok & [Hs Hst Hcl]).
  - intros pre c post mat1 Hl Hi1. apply materialize_here_spec; [done| |done].
    assert (c ∈ (map_to_list links).*1) as Hc by (rewrite Hl; apply elem_of_app; right; by left).
    apply list_elem_of_fmap in Hc as ([c' l] & -> & Hin). apply elem_of_map_to_list in Hin. eauto.
  - exists mat'. split; [done|]. split; [done|done|]. intros c v Hv.
    destruct (Hcl _ _ Hv) as [?|(H0 & Hd & Hn)]; [by left|right]. split_and!; [done| |by apply not_elem_of_nil].
    intros l [?| ->%list_elem_of_singleton]%elem_of_app; [by apply Hd|].
    destruct (links !! c) as [x|] eqn:E; [|done]. destruct Hn. apply list_elem_of_fmap.
    exists (c, x). split; [done|by apply elem_of_map_to_list].
Qed.

(** At the end the map covers what the set leads to. *)
Lemma set_inv_covers all chains mat y : set_inv all [] mat → fetched_from rows chains all →
  (∀ c, is_Some (mat0 !! c) → c ∈ chains) → (∀ x, x ∈ X → 0 < x.2) → (∀ x y, L x y → 0 < y.2) → 0 < y.2 →
  covers mat y ↔ ∃ x, x ∈ X ∧ path L x y.
Proof.
  intros [Hs Hst Hcl] Hf H0 HX HL Hy. split.
  - unfold covers. destruct (mat !! y.1) as [v|] eqn:E; cbn; [|lia]. intros Hv.
    destruct (Hs _ _ E) as (x & Hx & Hr). exists x. split; [done|]. by exists v.
  - intros (x & Hx & s & Hr & Hle).
    assert (∀ z, rtc (hop L) x z → 0 < z.2 ∧ covers mat z) as Hcov.
    { apply rtc_ind_r; [split; [by apply HX|by apply Hst]|].
      intros z w _ Hzw [Hz Hc]. assert (0 < w.2) by (destruct Hzw as (ss & ? & _); by eapply HL).
      split; [done|]. unfold covers in Hc. destruct (mat !! z.1) as [v|] eqn:E; cbn in Hc; [|lia].
      destruct z as [cz sz]. cbn in *. apply (hop_up _ cz sz v) in Hzw; [|lia].
      destruct (Hcl _ _ E) as [Hc'|(Hm & Hd & _)]; [by apply Hc'|].
      destruct Hzw as (ss & Hl & _). cbn in Hl. destruct (Hf _ _ Hl) as (links & Hin & Hlk); [cbn; auto|].
      apply cl_link_dom in Hlk as [? Hlk]. cbn in Hlk. by rewrite (Hd _ Hin) in Hlk. }
    destruct (Hcov _ Hr) as [_ Hc]. unfold covers in *. cbn in *. lia.
Qed.
End one_set.
End materialize.

(** ** The numbers a set starts from *)

Lemma max_seq_fold xs m :
  (∀ x, x ∈ xs → 0 < x.2) →
  let m' := foldl max_seq m xs in
  mat_le m m' ∧ (∀ x, x ∈ xs → covers m' x) ∧
  (∀ c v, m' !! c = Some v → m !! c = Some v ∨ (c, v) ∈ xs) ∧
  (∀ c, is_Some (m' !! c) ↔ is_Some (m !! c) ∨ ∃ x, x ∈ xs ∧ x.1 = c).
Proof.
  revert m. induction xs as [|x xs IH]; intros m Hp; cbn [foldl].
  { split_and!; [done|by intros ? ?%elem_of_nil|by left|]. intros c. split; [by left|]. by intros [?|(? & ?%elem_of_nil & _)]. }
  destruct (IH (max_seq m x)) as (Hle & Hc & Hs & Hd); [intros; apply Hp; by right|].
  assert (mat_le m (max_seq m x)) as Hle0.
  { intros c. unfold max_seq. destruct (decide (c = x.1)) as [->|]; [rewrite lookup_insert_eq; cbn; lia|by rewrite lookup_insert_ne]. }
  split_and!.
  - by etrans.
  - intros y [->|Hy]%elem_of_cons; [|by apply Hc]. eapply covers_le; [exact Hle|].
    unfold covers, max_seq. rewrite lookup_insert_eq. cbn. lia.
  - intros c v Hv. destruct (Hs c v Hv) as [Hm|?]; [|right; by right].
    unfold max_seq in Hm. apply lookup_insert_Some in Hm as [[<- <-]|[_ ?]]; [|by left].
    specialize (Hp x ltac:(left)). destruct (m !! x.1) as [v|] eqn:E; cbn.
    + destruct (Z.max_spec x.2 v) as [[_ ->]|[_ ->]]; [by left|right]. destruct x. by left.
    + rewrite Z.max_l by lia. right. destruct x. by left.
  - intros c. rewrite Hd. unfold max_seq. rewrite lookup_insert_is_Some'. setoid_rewrite elem_of_cons. naive_solver.
Qed.

(** ** The gaps *)

Section gaps.
Context (K info : StrMap Coord) (db : AuthTables).
Hypothesis chains_K : t_chains db = K.
Hypothesis K_inj : ∀ a b x, K !! a = Some x → K !! b = Some x → a = b.
Hypothesis K_pos : ∀ e x, K !! e = Some x → 0 < x.2.
Hypothesis info_K : info ⊆ K.

Abbreviation c2e := (list_to_map ((λ kv : string * Coord, (kv.2, kv.1)) <$> map_to_list info) : gmap Coord string).

Lemma chain_to_event_lookup x e : c2e !! x = Some e ↔ info !! e = Some x.
Proof.
  assert (∀ a b y, info !! a = Some y → info !! b = Some y → a = b) as Hinj.
  { intros a b y Ha Hb. eapply K_inj; by eapply lookup_weaken. }
  rewrite <-elem_of_list_to_map.
  - rewrite list_elem_of_fmap. split.
    + intros ([e' y] & [= -> ->] & Hin). by apply elem_of_map_to_list.
    + intros He. exists (e, x). split; [done|by apply elem_of_map_to_list].
  - rewrite <-list_fmap_compose. unfold compose. cbn. apply NoDup_fmap_2_strong; [|apply NoDup_map_to_list].
    intros [a x'] [b y'] Ha%elem_of_map_to_list Hb%elem_of_map_to_list. cbn. intros ->. by rewrite (Hinj a b y' Ha Hb).
Qed.

Lemma elem_of_py_range lo hi s : s ∈ py_range lo hi ↔ lo ≤ s < hi.
Proof.
  unfold py_range. rewrite list_elem_of_fmap. split.
  - intros (i & -> & Hi%elem_of_seq). lia.
  - intros Hs. exists (Z.to_nat (s - lo)). rewrite elem_of_seq. lia.
Qed.

Lemma fill_gap_spec c seqs result e :
  let r := fill_gap c2e c seqs result in
  (e ∈ r.1 → e ∈ result ∨ ∃ s, s ∈ seqs ∧ K !! e = Some (c, s)) ∧ result ⊆ r.1 ∧
  (r.2 = false → ∀ s, s ∈ seqs → K !! e = Some (c, s) → e ∈ r.1).
Proof.
  revert result. induction seqs as [|s seqs IH]; intros result; cbn [fill_gap].
  { split_and!; [by left|done|by intros _ ? ?%elem_of_nil]. }
  destruct (c2e !! (c, s)) as [e'|] eqn:E; [|split_and!; [by left|done|done]].
  apply chain_to_event_lookup in E. pose proof (lookup_weaken _ _ _ _ E info_K) as E'.
  destruct (IH ({[e']} ∪ result)) as (H1 & H2 & H3). split_and!.
  - intros [[->%elem_of_singleton|?]%elem_of_union|(s' & ? & ?)]%H1; [right|by left|right].
    + exists s. split; [by left|done].
    + exists s'. split; [by right|done].
  - set_solver.
  - intros Hf s' [->|Hs']%elem_of_cons Hs; [|by eapply H3]. rewrite (K_inj _ _ _ Hs E'). set_solver.
Qed.

(** The event is in a gap. *)
Definition in_gap (sets : list (gmap Z Z)) (x : Coord) : Prop :=
  min_seq_no sets x.1 < x.2 ≤ max_seq_no sets x.1.

Lemma chain_gaps_spec sets cs result gaps e :
  let r := foldl (chain_gap sets c2e) (result, gaps) cs in
  (e ∈ r.1 ∨ e ∈ r.2 ≫= fetch_gap db) ↔
  (e ∈ result ∨ e ∈ gaps ≫= fetch_gap db) ∨ ∃ x, K !! e = Some x ∧ x.1 ∈ cs ∧ in_gap sets x.
Proof.
  revert result gaps. induction cs as [|c cs IH]; intros result gaps; cbn [foldl].
  { cbn. setoid_rewrite elem_of_nil. naive_solver. }
  cbv zeta. setoid_rewrite elem_of_cons. unfold chain_gap at 2 4.
  assert (∀ x, in_gap sets x → min_seq_no sets x.1 < max_seq_no sets x.1) as Hlt by (unfold in_gap; lia).
  destruct (Z.ltb_spec (min_seq_no sets c) (max_seq_no sets c)) as [Hc|Hc].
  - pose proof (fill_gap_spec c (py_range (min_seq_no sets c + 1) (max_seq_no sets c + 1)) result e) as Hf.
    destruct (fill_gap _ _ _ _) as [result' gap]. cbn in Hf. destruct Hf as (F1 & F2 & F3). rewrite IH.
    setoid_rewrite elem_of_py_range in F1. setoid_rewrite elem_of_py_range in F3.
    assert (e ∈ fetch_gap db (c, (min_seq_no sets c, max_seq_no sets c)) ↔
      ∃ x, K !! e = Some x ∧ x.1 = c ∧ in_gap sets x) as Hg.
    { unfold fetch_gap. rewrite list_elem_of_fmap. split.
      - intros ([e' x] & -> & [Hx Hin]%list_elem_of_filter). apply elem_of_map_to_list in Hin. cbn in *.
        exists x. rewrite <-chains_K. split_and!; [done|tauto|]. unfold in_gap. destruct Hx as (-> & ?). lia.
      - intros (x & Hx & Hxc & Hi). exists (e, x). split; [done|]. rewrite list_elem_of_filter.
        rewrite elem_of_map_to_list, chains_K. unfold in_gap in Hi. rewrite Hxc in Hi. cbn. split; [lia|done]. }
    assert (∀ s, K !! e = Some (c, s) → min_seq_no sets c + 1 ≤ s < max_seq_no sets c + 1 →
      ∃ x, K !! e = Some x ∧ x.1 = c ∧ in_gap sets x) as Hin.
    { intros s He Hs. exists (c, s). split_and!; [done|done|]. unfold in_gap. cbn. lia. }
    destruct gap.
    + rewrite bind_app. cbn. rewrite app_nil_r, elem_of_app, Hg. clear IH. split.
      * intros [[H1|[?|(x & ? & ? & ?)]]|(x & ? & ? & ?)]; [|auto|eauto 6|eauto 7].
        destruct (F1 H1) as [?|(s & ? & He)]; [auto|]. destruct (Hin s He) as (x & ? & ? & ?); [lia|]. eauto 7.
      * intros [[?|?]|(x & ? & [Hxc|?] & ?)]; [auto|auto|left; right; right; eauto|eauto 6].
    + clear IH. split.
      * intros [[H1|?]|(x & ? & ? & ?)]; [|auto|eauto 7].
        destruct (F1 H1) as [?|(s & ? & He)]; [auto|]. destruct (Hin s He) as (x & ? & ? & ?); [lia|]. eauto 7.
      * intros [[?|?]|([c' s] & He & [Hxc|?] & Hi)]; [auto|auto|left; left|eauto 6].
        cbn in Hxc. subst c'. apply (F3 eq_refl s); [unfold in_gap in Hi; cbn in Hi; lia|done].
  - rewrite IH. split; [|intros [?|(x & ? & [Hxc|?] & Hi)]; eauto 7].
    + intros [?|(x & ? & ? & ?)]; eauto 7.
    + apply Hlt in Hi. rewrite Hxc in Hi. lia.
Qed.
End gaps.

Lemma foldl_min_lt (l : list Z) z s : foldl Z.min z l < s ↔ ∃ y, y ∈ z :: l ∧ y < s.
Proof.
  revert z. induction l as [|y l IH]; intros z; cbn [foldl].
  - setoid_rewrite list_elem_of_singleton. naive_solver.
  - rewrite IH. repeat setoid_rewrite elem_of_cons. split.
    + intros (w & [->|Hw] & Hs); [|exists w; naive_solver].
      destruct (Z.min_spec z y) as [[_ E]|[_ E]]; rewrite E in Hs; naive_solver.
    + intros (w & [->|[->|Hw]] & Hs); [exists (Z.min z y); split; [by left|lia]..|exists w; naive_solver].
Qed.

Lemma foldl_max_le (l : list Z) z s : s ≤ foldl Z.max z l ↔ ∃ y, y ∈ z :: l ∧ s ≤ y.
Proof.
  revert z. induction l as [|y l IH]; intros z; cbn [foldl].
  - setoid_rewrite list_elem_of_singleton. naive_solver.
  - rewrite IH. repeat setoid_rewrite elem_of_cons. split.
    + intros (w & [->|Hw] & Hs); [|exists w; naive_solver].
      destruct (Z.max_spec z y) as [[_ E]|[_ E]]; rewrite E in Hs; naive_solver.
    + intros (w & [->|[->|Hw]] & Hs); [exists (Z.max z y); split; [by left|lia]..|exists w; naive_solver].
Qed.

Lemma in_gap_covers sets x : sets ≠ [] →
  in_gap sets x ↔ (∃ m, m ∈ sets ∧ covers m x) ∧ (∃ m, m ∈ sets ∧ ¬ covers m x).
Proof.
  intros Hne. unfold in_gap, min_seq_no, max_seq_no, covers.
  assert (∀ P : Z → Prop, (∃ y, y ∈ seqs_of sets x.1 ∧ P y) ↔ ∃ m, m ∈ sets ∧ P (default 0 (m !! x.1))) as Hs.
  { intros P. unfold seqs_of. setoid_rewrite list_elem_of_fmap. naive_solver. }
  destruct (seqs_of sets x.1) as [|z l] eqn:E.
  { unfold seqs_of in E. by apply fmap_nil_inv in E. }
  rewrite foldl_min_lt, foldl_max_le, (Hs (λ y, y < x.2)), (Hs (λ y, x.2 ≤ y)).
  setoid_rewrite <-Z.nle_gt. tauto.
Qed.

(** ** The difference for indexed events *)

Definition auth_diff (auth : string → string → Prop) (sets : list StrSet) (x : string) : Prop :=
  (∃ S, S ∈ sets ∧ ∃ v, v ∈ S ∧ rtc auth v x) ∧ (∃ S, S ∈ sets ∧ ¬ ∃ v, v ∈ S ∧ rtc auth v x).

Lemma traverse_total {A B} (f : A → res B) (P : A → B → Prop) l :
  (∀ x, x ∈ l → ∃ y, f x = Ok y ∧ P x y) → ∃ k, traverse f l = Ok k ∧ Forall2 P l k.
Proof.
  induction l as [|x l IH]; intros H; cbn; [by exists []|].
  destruct (H x ltac:(left)) as (y & -> & Hy). destruct IH as (k & -> & Hk); [intros; apply H; by right|].
  exists (y :: k). split; [done|by constructor].
Qed.

Section difference.
Context (auth : string → string → Prop) (db : AuthTables).
Abbreviation K := (t_chains db).
Abbreviation L := (row_link (t_links db)).
Hypothesis Hcover : cover auth K L.

Lemma add_state_ids_spec (info : StrMap Coord) (S : StrSet) : info ⊆ K → (∀ v, v ∈ S → is_Some (info !! v)) →
  ∃ X mat0, foldM (add_state_id info) ∅ (elements S) = Ok mat0 ∧ set_inv (t_links db) X mat0 [] [] mat0 ∧
    (∀ x, x ∈ X ↔ ∃ v, v ∈ S ∧ K !! v = Some x) ∧
    (∀ c, is_Some (mat0 !! c) → ∃ v x, info !! v = Some x ∧ x.1 = c).
Proof.
  intros Hsub HS. set (X := omap (λ v, info !! v) (elements S)).
  assert (∀ x, x ∈ X ↔ ∃ v, v ∈ S ∧ K !! v = Some x) as HX.
  { intros x. unfold X. rewrite list_elem_of_omap. setoid_rewrite elem_of_elements. split.
    - intros (v & ? & ?). exists v. split; [done|by eapply lookup_weaken].
    - intros (v & Hv & Hx). exists v. split; [done|]. destruct (HS v Hv) as [y Hy].
      rewrite Hy. f_equal. pose proof (lookup_weaken _ _ _ _ Hy Hsub). congruence. }
  assert (∀ l m, (∀ v, v ∈ l → is_Some (info !! v)) →
    foldM (add_state_id info) m l = Ok (foldl max_seq m (omap (λ v, info !! v) l))) as Hfold.
  { induction l as [|v l IH]; intros m Hl; [done|]. cbn. destruct (Hl v ltac:(left)) as [x Hx].
    rewrite Hx. assert (add_state_id info m v = Ok (max_seq m x)) as -> by (unfold add_state_id, coord_of; by rewrite Hx).
    cbn. apply IH. intros; apply Hl. by right. }
  destruct (max_seq_fold X ∅) as (_ & Hc & Hs & Hd).
  { intros x (v & _ & Hv)%HX. by apply (co_pos _ _ (cv_chains _ _ _ Hcover) v). }
  exists X, (foldl max_seq ∅ X). split_and!; [by apply Hfold; intros v ?%elem_of_elements; apply HS| |done|].
  - split; [|done|].
    + intros c v Hv. destruct (Hs c v Hv) as [?|?]; [done|]. by exists (c, v).
    + intros c v Hv. right. split_and!; [by rewrite Hv|by intros ? ?%elem_of_nil|by apply not_elem_of_nil].
  - intros c [[? ?]|(x & Hx & <-)]%Hd; [done|]. unfold X in Hx. apply list_elem_of_omap in Hx as (v & _ & Hv). eauto.
Qed.

Lemma materialize_sets_spec Xs mats0 all mats :
  Forall (batch_ok (t_links db)) all →
  Forall2 (λ Xm mat, set_inv (t_links db) Xm.1 Xm.2 [] [] mat) (zip Xs mats0) mats →
  ∃ mats', foldM materialize_sets mats all = Ok mats' ∧
    Forall2 (λ Xm mat, set_inv (t_links db) Xm.1 Xm.2 all [] mat) (zip Xs mats0) mats'.
Proof.
  intros Hall H0. rewrite Forall_forall in Hall.
  apply (foldM_total_prefix (λ dne mats, Forall2 (λ Xm mat, set_inv (t_links db) Xm.1 Xm.2 dne [] mat) (zip Xs mats0) mats));
    [done|].
  intros pre links post mats1 Hl Hi. unfold materialize_sets.
  assert (batch_ok (t_links db) links) as Hb by (apply Hall; rewrite Hl; apply elem_of_app; right; by left).
  clear Hl H0. induction Hi as [|Xm mat Xms mats1 Hm _ IH]; [by exists []|].
  destruct (materialize_set_spec (t_links db) Xm.1 Xm.2 pre links mat Hb Hm) as (mat' & E & Hm').
  destruct IH as (mats' & E' & Hms'). exists (mat' :: mats'). cbn. rewrite E. cbn. rewrite E'. split; [done|by constructor].
Qed.

Lemma indexed_difference_spec sets info result :
  sets ≠ [] → info ⊆ K → (∀ S v, S ∈ sets → v ∈ S → is_Some (info !! v)) →
  ∃ D, indexed_difference sets info result db = Ok D ∧ ∀ e, e ∈ D ↔ e ∈ result ∨ auth_diff auth sets e.
Proof.
  intros Hne Hsub Hin. unfold indexed_difference.
  pose proof (cv_chains _ _ _ Hcover) as Kok. pose proof (cv_links _ _ _ Hcover) as Lok.
  (* the starting numbers *)
  set (P := λ (S : StrSet) (mat0 : gmap Z Z), ∃ X, set_inv (t_links db) X mat0 [] [] mat0 ∧
    (∀ x, x ∈ X ↔ ∃ v, v ∈ S ∧ K !! v = Some x) ∧
    (∀ c, is_Some (mat0 !! c) → ∃ v x, info !! v = Some x ∧ x.1 = c)).
  destruct (traverse_total (λ s : StrSet, foldM (add_state_id info) ∅ (elements s)) P sets) as (mats0 & -> & Hm0).
  { intros S HS. destruct (add_state_ids_spec info S Hsub) as (X & mat0 & ? & ? & ? & ?); [by intros; apply (Hin S)|].
    exists mat0. split; [done|]. by exists X. }
  cbn [mbind res_bind].
  set (seen := list_to_set (map_to_list info).*2.*1 : gset Z).
  destruct (get_chain_links_spec db seen) as (all & -> & Hall & Hfetch). cbn [mbind res_bind].
  assert (∃ Xs, length Xs = length mats0 ∧
    Forall2 (λ Xm mat, set_inv (t_links db) Xm.1 Xm.2 [] [] mat) (zip Xs mats0) mats0 ∧
    Forall2 (λ S X, ∀ x, x ∈ X ↔ ∃ v, v ∈ S ∧ K !! v = Some x) sets Xs ∧
    Forall (λ mat0 : gmap Z Z, ∀ c, is_Some (mat0 !! c) → c ∈ seen) mats0) as (Xs & Hlen & Hi & HX & Hseen).
  { clear -Hm0. induction Hm0 as [|S mat0 sets mats0 (X & H1 & H2 & H3) _ (Xs & IHl & IH1 & IH2 & IH3)].
    - exists []. split_and!; done || constructor.
    - exists (X :: Xs). split_and!; [cbn; lia|by constructor|by constructor|]. constructor; [|done].
      intros c Hc. destruct (H3 c Hc) as (v & x & Hv & <-). apply elem_of_list_to_set, list_elem_of_fmap.
      exists x. split; [done|]. apply list_elem_of_fmap. exists (v, x). split; [done|by apply elem_of_map_to_list]. }
  destruct (materialize_sets_spec Xs mats0 all mats0 Hall Hi) as (mats & -> & Hmats). cbn [mbind res_bind].
  (* what each map covers *)
  assert (Forall2 (λ S mat, ∀ e x, K !! e = Some x → covers mat x ↔ ∃ v, v ∈ S ∧ rtc auth v e) sets mats) as Hcov.
  { clear -Hmats HX Hseen Hfetch Hcover Kok Lok Hlen Hin Hsub. revert mats0 mats Hlen Hmats Hseen.
    induction HX as [|S X sets Xs HX _ IH]; intros mats0 mats Hlen Hmats Hseen.
    { cbn in Hmats. inversion_clear Hmats. constructor. }
    destruct mats0 as [|mat0 mats0]; [done|]. cbn in Hmats. inversion_clear Hmats as [|? mat ? mats' Hm Hms].
    inversion_clear Hseen as [|? ? Hs0 Hss].
    constructor; [|eapply IH; [intros; eapply Hin; [by right|done]|cbn in Hlen; by injection Hlen|done|done]].
    intros e x He. cbn in Hm.
    rewrite (set_inv_covers (t_links db) X mat0 all seen mat x Hm Hfetch Hs0); cycle 1.
    - intros y (v & _ & Hv)%HX. by apply (co_pos _ _ Kok v).
    - intros y z Hyz. by apply (link_positive auth K L Kok Lok y z).
    - by apply (co_pos _ _ Kok e).
    - split.
      + intros (y & (v & Hv & Hy)%HX & Hp). exists v. split; [done|]. by apply (cover_path auth K L v e y x Hcover Hy He).
      + intros (v & Hv & Hr). destruct (Hin S v ltac:(left) Hv) as [y Hy].
        pose proof (lookup_weaken _ _ _ _ Hy Hsub) as Hy'. exists y. split; [apply HX; eauto|].
        by apply (cover_path auth K L v e y x Hcover Hy' He). }
  assert (mats ≠ []) as Hne' by (intros ->; by inversion Hcov).
  set (seen' := seen ∪ _). set (c2e := list_to_map _).
  pose proof (λ e, chain_gaps_spec K info db eq_refl (co_inj _ _ Kok) (co_pos _ _ Kok) Hsub mats (elements seen') result [] e) as Hg.
  cbv zeta in Hg. fold c2e in Hg. destruct (foldl (chain_gap mats c2e) (result, []) (elements seen')) as [result' gaps] eqn:Eg.
  eexists. split; [done|]. intros e. rewrite elem_of_union, elem_of_list_to_set. specialize (Hg e). cbn [fst snd] in Hg.
  rewrite Hg. clear Hg Eg. cbn. rewrite elem_of_nil.
  assert ((∃ x, K !! e = Some x ∧ x.1 ∈ elements seen' ∧ in_gap mats x) ↔ auth_diff auth sets e) as ->; [|tauto].
  assert (∀ Q : Prop → Prop, (∀ A B, A ↔ B → Q A → Q B) → ∀ x, K !! e = Some x →
    (∃ m, m ∈ mats ∧ Q (covers m x)) ↔ (∃ S, S ∈ sets ∧ Q (∃ v, v ∈ S ∧ rtc auth v e))) as Htrans.
  { intros Q HQ x He. split.
    - intros (m & Hm & Hq). apply list_elem_of_lookup in Hm as [i Hm].
      destruct (Forall2_lookup_r _ _ _ _ _ Hcov Hm) as (S & HS & Hiff). exists S.
      split; [by eapply list_elem_of_lookup_2|]. by eapply HQ; [apply Hiff|].
    - intros (S & HS & Hq). apply list_elem_of_lookup in HS as [i HS].
      destruct (Forall2_lookup_l _ _ _ _ _ Hcov HS) as (m & Hm & Hiff). exists m.
      split; [by eapply list_elem_of_lookup_2|]. eapply HQ; [symmetry; by apply Hiff|done]. }
  unfold auth_diff. split.
  - intros (x & He & _ & [H1 H2]%in_gap_covers); [|done].
    split; [by apply (Htrans id ltac:(naive_solver) x He)|by apply (Htrans not ltac:(naive_solver) x He)].
  - intros [(S & HS & v & Hv & Hr) H2]. destruct (Hin S v HS Hv) as [y Hy].
    pose proof (lookup_weaken _ _ _ _ Hy Hsub) as Hy'.
    destruct (cover_closed auth K L v y e Hcover Hy' Hr) as [x He]. exists x.
    assert (in_gap mats x) as Hgap.
    { apply in_gap_covers; [done|]. split; [apply (Htrans id ltac:(naive_solver) x He); exists S; split; [done|by exists v]|by apply (Htrans not ltac:(naive_solver) x He)]. }
    split_and!; [done| |done]. apply elem_of_elements, elem_of_union_r, elem_of_union_list.
    apply in_gap_covers in Hgap as [(m & Hm & Hc) _]; [|done]. exists (dom m).
    split; [by apply (list_elem_of_fmap_2 (λ chains : gmap Z Z, dom chains))|]. apply elem_of_dom.
    pose proof (co_pos _ _ Kok e x He). unfold covers in Hc. destruct (m !! x.1); [eauto|cbn in Hc; lia].
Qed.
End difference.
