(* ===== verification/ChainFixup.v ===== *)
(** * State sets with events that are not indexed

    [_fixup_auth_chain_difference_sets] splits the auth chain difference into
    that of the unindexed events, which it finds by a search, and that of state
    sets of indexed events. Together with the index this gives the difference
    of the auth chains of any state sets of the room. *)

From S2P Require Import Prelude PyOrd ChainLinks ChainIndex ChainCover ChainQuery ChainQueryProps.
From stdpp Require Import relations.
#[local] Open Scope Z_scope.

(** ** The search for partial auth chains *)

Section partial.
Context (m : StrMap StrSet).

(** [z] is an auth event of the unindexed event [y]. *)
Definition ustep (y z : string) : Prop := ∃ A, m !! y = Some A ∧ z ∈ A.

Abbreviation univ := (⋃ (map_to_list m).*2).

Lemma ustep_univ y z : ustep y z → z ∈ univ.
Proof.
  intros (A & HA & Hz). apply elem_of_union_list. exists A. split; [|done].
  apply list_elem_of_fmap. exists (y, A). split; [done|by apply elem_of_map_to_list].
Qed.

Lemma partial_chain_spec fuel processing to_add :
  processing ⊆ univ → to_add ⊆ univ → processing ## to_add →
  (∀ y z, y ∈ to_add → ustep y z → z ∈ to_add ∪ processing) →
  (size (univ ∖ to_add) ≤ fuel)%nat →
  ∃ C, partial_chain fuel m processing to_add = Ok C ∧
    ∀ x, x ∈ C ↔ x ∈ to_add ∨ ∃ p, p ∈ processing ∧ rtc ustep p x.
Proof.
  revert processing to_add. induction fuel as [|fuel IH]; intros processing to_add Hp Ha Hd Hc Hf;
    cbn [partial_chain]; destruct (elements processing) as [|a l] eqn:E.
  1,3: apply elements_empty_inv, leibniz_equiv in E; subst processing; exists to_add; split; [done|];
    intros x; (split; [by left|]); intros [?|(p & ?%elem_of_empty & _)]; done.
  all: assert (a ∈ processing) as Hin by (apply elem_of_elements; rewrite E; by left).
  { apply Nat.le_0_r, size_empty_inv in Hf. set_solver. }
  set (to_add' := {[a]} ∪ to_add).
  set (processing' := match m !! a with None => processing ∖ {[a]}
                      | Some sub => processing ∖ {[a]} ∪ (sub ∖ to_add') end).
  assert (∀ z, z ∈ processing' ↔ (z ∈ processing ∧ z ≠ a) ∨ (ustep a z ∧ z ∉ to_add')) as Hp'.
  { intros z. unfold processing', ustep. destruct (m !! a) as [sub|] eqn:Ea.
    - rewrite elem_of_union, !elem_of_difference, elem_of_singleton. naive_solver.
    - rewrite elem_of_difference, elem_of_singleton. naive_solver. }
  assert (∀ z, z ∈ to_add' ↔ z = a ∨ z ∈ to_add) as Ha' by (intros z; unfold to_add'; set_solver).
  destruct (IH processing' to_add') as (C & HC & Hx).
  - intros z [[? _]|[?%ustep_univ _]]%Hp'; [by apply Hp|done].
  - intros z [->|?]%Ha'; [by apply Hp|by apply Ha].
  - intros z [[Hz ?]|[_ Hz]]%Hp' Hz'; [|done]. apply Ha' in Hz' as [?|?]; [done|set_solver].
  - intros y z Hy Hyz. destruct (decide (z ∈ to_add')) as [?|Hn]; [set_solver|].
    apply elem_of_union_r, Hp'. apply Ha' in Hy as [->|Hy]; [by right|]. left.
    destruct (proj1 (elem_of_union _ _ _) (Hc y z Hy Hyz)) as [?|?]; [by destruct Hn; apply Ha'; right|].
    split; [done|]. intros ->. by apply Hn, Ha'; left.
  - assert (univ ∖ to_add' ⊂ univ ∖ to_add) as Hlt%subset_size; [|lia].
    apply strict_spec_alt. split; [set_solver|]. intros Heq.
    assert (a ∈ univ ∖ to_add) as Hau by (apply elem_of_difference; split; [by apply Hp|set_solver]).
    rewrite <-Heq in Hau. apply elem_of_difference in Hau as [_ Hau]. by apply Hau, Ha'; left.
  - exists C. split; [exact HC|]. intros x. rewrite Hx, Ha'. clear HC Hx IH Hf. split.
    + intros [[->|?]|(p & [[? ?]|[? _]]%Hp' & Hr)]; [right; by exists a|by left|right; by exists p|].
      right. exists a. split; [done|]. by eapply rtc_l.
    + intros [?|(p & Hpp & Hr)]; [auto|].
      assert (∀ y, rtc ustep p y → y ∈ to_add' ∨ ∃ q, q ∈ processing' ∧ rtc ustep q y) as Hcut.
      { apply rtc_ind_r.
        - destruct (decide (p = a)) as [->|?]; [left; apply Ha'; by left|right]. exists p. split; [apply Hp'; auto|done].
        - intros y z _ Hyz [Hy|(q & ? & ?)]; [|right; exists q; split; [done|by eapply rtc_r]].
          destruct (decide (z ∈ to_add')) as [?|Hn]; [by left|]. right. exists z. split; [|done]. apply Hp'.
          apply Ha' in Hy as [->|Hy]; [by right|left].
          destruct (proj1 (elem_of_union _ _ _) (Hc y z Hy Hyz)) as [?|?]; [by destruct Hn; apply Ha'; right|].
          split; [done|]. intros ->. by apply Hn, Ha'; left. }
      destruct (Hcut x Hr) as [?%Ha'|?]; auto.
Qed.

Lemma partial_auth_chain_spec e A : m !! e = Some A →
  ∃ C, partial_auth_chain m A = Ok C ∧ ∀ x, x ∈ C ↔ tc ustep e x.
Proof.
  intros He. destruct (partial_chain_spec (size univ) A ∅) as (C & HC & Hx).
  - intros z Hz. apply (ustep_univ e). by exists A.
  - set_solver.
  - set_solver.
  - set_solver.
  - apply subseteq_size. set_solver.
  - exists C. split; [done|]. intros x. rewrite Hx. split.
    + intros [?%elem_of_empty|(p & Hp & Hr)]; [done|]. eapply tc_rtc_r; [|exact Hr]. apply tc_once. by exists A.
    + intros Ht. right. apply tc_rtc in Ht as Hr. inversion Ht as [? ? (A' & ? & ?)|? y ? (A' & ? & ?) Hy]; simplify_eq.
      * by exists x.
      * exists y. split; [done|by apply tc_rtc].
Qed.
End partial.

(** ** Splitting a state set *)

Section split.
Context (m : StrMap StrSet) (indexed S : StrSet).
Hypothesis unindexed : ∀ e, is_Some (m !! e) → e ∉ indexed.

Record split_inv (pre : list string) (cur U : StrSet) : Prop := mkSplitInv {
  sp_from x : x ∈ cur → x ∈ S ∨ (x ∈ indexed ∧ ∃ v, v ∈ S ∧ is_Some (m !! v) ∧ tc (ustep m) v x);
  sp_kept x : x ∈ S → x ∈ cur ∨ x ∈ U;
  sp_indexed x : x ∈ S → x ∈ indexed → x ∈ cur;
  sp_sound x : x ∈ U → (x ∉ indexed) ∧ ∃ v, v ∈ S ∧ is_Some (m !! v) ∧ rtc (ustep m) v x;
  sp_closed x z : x ∈ U → ustep m x z → z ∈ U ∨ (z ∈ indexed ∧ z ∈ cur);
  sp_gone e : e ∈ pre → (e ∉ indexed) ∧ (e ∉ cur)
}.

Lemma replace_unindexed_spec pre cur U e C : is_Some (m !! e) → (∀ x, x ∈ C ↔ tc (ustep m) e x) →
  split_inv pre cur U →
  let r := replace_unindexed indexed (cur, U) (e, C) in split_inv (pre ++ [e]) r.1 r.2.
Proof.
  intros Hm HC [Hf Hk Hi Hs Hc Hg]. cbn [replace_unindexed]. specialize (unindexed e Hm) as Hu.
  destruct (decide (e ∉ cur)) as [He|He].
  { split; cbn; auto. intros x [?| ->%list_elem_of_singleton]%elem_of_app; auto. }
  assert (e ∈ S) as HeS.
  { destruct (decide (e ∈ cur)) as [Hin|]; [|done]. by destruct (Hf e Hin) as [?|[? _]]. }
  split; cbn [fst snd].
  - intros x. rewrite elem_of_union, !elem_of_difference, elem_of_intersection.
    intros [[[? _] _]|[Hx ?]]; [auto|]. right. split; [done|]. exists e. split_and!; [done|done|by apply HC].
  - intros x Hx. rewrite !elem_of_union, !elem_of_difference, elem_of_intersection, !elem_of_singleton.
    destruct (Hk x Hx) as [?|?]; [|tauto]. destruct (decide (x = e)), (decide (x ∈ C)), (decide (x ∈ indexed)); tauto.
  - intros x Hx Hxi. specialize (Hi x Hx Hxi).
    rewrite !elem_of_union, !elem_of_difference, elem_of_intersection, elem_of_singleton.
    destruct (decide (x ∈ C)); [tauto|]. left. split_and!; [done| |done]. by intros ->.
  - intros x. rewrite !elem_of_union, elem_of_difference, elem_of_singleton. intros [[->|?]|[Hx ?]]; [|by apply Hs|].
    + split; [done|]. by exists e.
    + split; [done|]. exists e. split_and!; [done|done|]. by apply tc_rtc, HC.
  - intros x z Hx Hz.
    assert (z ∈ C ∨ z ∈ U ∨ (z ∈ indexed ∧ z ∈ cur)) as Hz'.
    { rewrite !elem_of_union, elem_of_difference, elem_of_singleton in Hx. destruct Hx as [[->|Hx]|[Hx _]].
      - left. apply HC. by apply tc_once.
      - right. by apply (Hc x z).
      - left. apply HC. apply HC in Hx. by eapply tc_r. }
    rewrite !elem_of_union, !elem_of_difference, elem_of_intersection, !elem_of_singleton.
    destruct (decide (z ∈ indexed)) as [Hzi|Hzi], (decide (z ∈ C)), (decide (z = e)) as [->|]; tauto.
  - intros x Hx. rewrite elem_of_union, !elem_of_difference, elem_of_intersection, elem_of_singleton.
    apply elem_of_app in Hx as [Hx| ->%list_elem_of_singleton]; [|tauto]. destruct (Hg x Hx). tauto.
Qed.

(** All unindexed events of the set have been replaced. *)
Lemma replace_all_spec (l : list (string * StrSet)) :
  (∀ e C, (e, C) ∈ l → is_Some (m !! e) ∧ ∀ x, x ∈ C ↔ tc (ustep m) e x) →
  let r := foldl (replace_unindexed indexed) (S, ∅) l in split_inv l.*1 r.1 r.2.
Proof.
  intros Hl. cut (∀ post pre cur U, l = pre ++ post → split_inv pre.*1 cur U →
    let r := foldl (replace_unindexed indexed) (cur, U) post in split_inv l.*1 r.1 r.2).
  { intros Hcut. apply (Hcut l []); [done|]. split; [by left|by left|done|by intros ? ?%elem_of_empty|by intros ? ? ?%elem_of_empty|by intros ? ?%elem_of_nil]. }
  induction post as [|[e C] post IH]; intros pre cur U E Hi; cbn [foldl]; [by rewrite E, app_nil_r|].
  destruct (Hl e C) as [He HC]; [rewrite E; apply elem_of_app; right; by left|].
  pose proof (replace_unindexed_spec _ _ _ e C He HC Hi) as Hi'. cbv zeta in Hi'.
  destruct (replace_unindexed indexed (cur, U) (e, C)) as [cur' U'].
  apply (IH (pre ++ [(e, C)])); [by rewrite <-app_assoc|]. by rewrite fmap_app.
Qed.
End split.

(** ** The difference of any state sets *)

Section fixup.
Context (auth : string → string → Prop) (db : AuthTables) (room_id : string).
Abbreviation K := (t_chains db).
Abbreviation L := (row_link (t_links db)).
Hypothesis Hcover : cover auth K L.
Hypothesis Hauth : ∀ e a, auth e a ↔ (e, a) ∈ t_event_auth db.

(** The event waits for its auth events. *)
Definition waiting (e : string) : Prop := ∃ tk, t_to_calculate db !! e = Some (room_id, tk).

(** Waiting events are not indexed, and their auth events are indexed, wait
    too, or are not known. *)
Hypothesis waiting_unindexed : ∀ e, waiting e → K !! e = None.
Hypothesis waiting_auth : ∀ e a, waiting e → auth e a →
  is_Some (K !! a) ∨ waiting a ∨ ∀ b, ¬ auth a b.

Abbreviation m := (unindexed_auth db room_id).

Lemma unindexed_auth_lookup e A : m !! e = Some A ↔ waiting e ∧ A = list_to_set (select_auth db e).
Proof.
  unfold unindexed_auth, waiting. rewrite map_lookup_imap.
  destruct (filter (λ kv : string * (string * TypeKey), kv.2.1 = room_id) (t_to_calculate db) !! e) as [[r tk]|] eqn:E; cbn.
  - apply map_lookup_filter_Some in E as [E Hr]. cbn in Hr. subst r. naive_solver.
  - rewrite map_lookup_filter_None in E. split; [done|]. intros [[tk Htk] _]. destruct E as [E|E]; [congruence|].
    by specialize (E _ Htk).
Qed.

Lemma elem_of_select_auth e a : a ∈ select_auth db e ↔ auth e a.
Proof.
  unfold select_auth. rewrite Hauth, list_elem_of_fmap. split.
  - intros ([e' a'] & -> & [Hr Hin]%list_elem_of_filter). cbn in *. by subst.
  - intros Hin. exists (e, a). by rewrite list_elem_of_filter.
Qed.

Lemma ustep_spec e a : ustep m e a ↔ waiting e ∧ auth e a.
Proof.
  unfold ustep. setoid_rewrite unindexed_auth_lookup. split.
  - intros (A & [Hw ->] & Ha). split; [done|]. by apply elem_of_select_auth, (elem_of_list_to_set (C := StrSet)).
  - intros [Hw Ha]. eexists. split; [done|]. by apply elem_of_list_to_set, elem_of_select_auth.
Qed.

Lemma waiting_lookup e : is_Some (m !! e) ↔ waiting e.
Proof.
  split; [by intros [A [? _]%unindexed_auth_lookup]|]. intros Hw. eexists. by apply unindexed_auth_lookup.
Qed.

Lemma usteps_auth e x : rtc (ustep m) e x → rtc auth e x.
Proof. apply rtc_subrel. by intros a b [_ ?]%ustep_spec. Qed.

(** What a split set reaches. *)
Lemma split_reaches S indexed cur U pre :
  (∀ v, v ∈ S → is_Some (K !! v) ∨ waiting v) →
  (∀ x, x ∈ S ∨ (∃ y, ustep m y x) → x ∈ indexed ↔ is_Some (K !! x)) →
  (∀ e, e ∈ S → waiting e → e ∈ pre) →
  split_inv m indexed S pre cur U →
  (∀ x, x ∈ cur → is_Some (K !! x)) ∧
  (∀ x, x ∈ U ↔ K !! x = None ∧ ∃ v, v ∈ S ∧ rtc auth v x) ∧
  (∀ x, is_Some (K !! x) → (∃ v, v ∈ cur ∧ rtc auth v x) ↔ ∃ v, v ∈ S ∧ rtc auth v x).
Proof.
  intros HS Hidx Hpre [Hf Hk Hi Hs Hc Hg].
  assert (∀ v x, tc (ustep m) v x → ∃ y, ustep m y x) as Hlast.
  { intros v x Ht. apply tc_nsteps in Ht as (n & Hn & Ht). destruct n; [lia|].
    apply nsteps_inv_r in Ht as (y & _ & ?). eauto. }
  assert (∀ x, is_Some (K !! x) ∨ K !! x = None) as HK by (intros x; destruct (K !! x); eauto).
  (* an unindexed event of the set, or found from one *)
  assert (∀ x, x ∈ U → K !! x = None ∧ ∀ b, auth x b → waiting x) as HU.
  { intros x Hx. destruct (Hs x Hx) as (Hn & v & Hv & Hw%waiting_lookup & Hr).
    apply rtc_inv_r in Hr as [->|(y & _ & Hy)]; [split; [by apply waiting_unindexed|done]|].
    assert (K !! x = None) as Hnone.
    { destruct (HK x) as [Hx'|?]; [|done]. destruct Hn. apply Hidx; eauto. }
    split; [done|]. intros b Hb. apply ustep_spec in Hy as [Hwy Hy].
    destruct (waiting_auth y x Hwy Hy) as [[? ?]|[?|Hno]]; [congruence|done|by destruct (Hno b)]. }
  assert (∀ x, x ∈ S → K !! x = None → x ∈ U) as HSU.
  { intros x Hx Hn. destruct (Hk x Hx) as [Hcur|?]; [|done]. destruct (HS x Hx) as [[? ?]|Hw]; [congruence|].
    by destruct (Hg x (Hpre x Hx Hw)). }
  (* walking from an unindexed event *)
  assert (∀ y x, y ∈ U → rtc auth y x → x ∈ U ∨ ∃ z, z ∈ cur ∧ z ∈ indexed ∧ rtc auth z x) as Hwalk.
  { intros y x Hy Hr. revert Hy. induction Hr as [y|y z x Hyz Hr IH]; intros Hy; [by left|].
    destruct (HU y Hy) as [_ Hw]. destruct (Hc y z Hy) as [?|[? ?]]; [apply ustep_spec; eauto|by apply IH|].
    right. by exists z. }
  split_and!.
  - intros x Hx. destruct (Hf x Hx) as [HxS|(Hxi & v & _ & _ & Ht)].
    + destruct (HS x HxS) as [?|Hw]; [done|]. by destruct (Hg x (Hpre x HxS Hw)).
    + apply Hidx; [right; by eapply Hlast|done].
  - intros x. split.
    + intros Hx. split; [by apply HU|]. destruct (Hs x Hx) as (_ & v & ? & _ & ?). exists v.
      split; [done|by apply usteps_auth].
    + intros (Hn & v & Hv & Hr). destruct (HK v) as [[y Hy]|Hvn].
      { destruct (cover_closed auth K L v y x Hcover Hy Hr). congruence. }
      destruct (Hwalk v x (HSU v Hv Hvn) Hr) as [?|(z & Hz & Hzi & Hzr)]; [done|].
      assert (is_Some (K !! z)) as [y Hy].
      { destruct (Hf z Hz) as [?|(_ & w & _ & _ & Ht)]; apply Hidx; eauto. }
      destruct (cover_closed auth K L z y x Hcover Hy Hzr). congruence.
  - intros x Hx. split.
    + intros (v & Hv & Hr). destruct (Hf v Hv) as [?|(_ & w & Hw & _ & Ht)]; [eauto|].
      exists w. split; [done|]. etrans; [by apply usteps_auth, tc_rtc|done].
    + intros (v & Hv & Hr). destruct (HK v) as [Hvi|Hvn].
      { exists v. split; [apply Hi; [done|]; apply Hidx; auto|done]. }
      destruct (Hwalk v x (HSU v Hv Hvn) Hr) as [Hxu|(z & ? & _ & ?)]; [|eauto].
      destruct (HU x Hxu) as [? _]. destruct Hx. congruence.
Qed.

Lemma list_find_not {A} (l : list A) (P : A → Prop) `{!∀ x, Decision (P x)} :
  (∀ x, x ∈ l → P x) ∨ ∃ x, x ∈ l ∧ ¬ P x.
Proof.
  destruct (decide (Forall P l)) as [Hl|Hl]; [left; by apply Forall_forall|right].
  apply not_Forall_Exists, Exists_exists in Hl; [done|apply _].
Qed.

Lemma elem_of_set_intersection (l : list StrSet) x : l ≠ [] → x ∈ set_intersection l ↔ ∀ A, A ∈ l → x ∈ A.
Proof.
  destruct l as [|B l]; [done|]. intros _. cbn [set_intersection].
  assert (∀ B, x ∈ foldl (∩) B l ↔ x ∈ B ∧ ∀ A, A ∈ l → x ∈ A) as ->.
  { induction l as [|A l IH]; intros B'; cbn [foldl].
    - split; [|by intros [? _]]. intros ?. split; [done|]. by intros ? ?%elem_of_nil.
    - rewrite IH, elem_of_intersection. setoid_rewrite elem_of_cons. naive_solver. }
  setoid_rewrite elem_of_cons. naive_solver.
Qed.

Lemma elem_of_set_union (l : list StrSet) x : x ∈ set_union l ↔ ∃ A, A ∈ l ∧ x ∈ A.
Proof. apply elem_of_union_list. Qed.

(** The chains of the waiting events of the sets. *)
Lemma partial_chains_spec (sets : list StrSet) :
  ∃ l, traverse (λ kv : string * StrSet, c ← partial_auth_chain m kv.2; Ok (kv.1, c))
      (filter (λ kv : string * StrSet, kv.1 ∈ set_union sets) (map_to_list m)) = Ok l ∧
    (∀ e C, (e, C) ∈ l → is_Some (m !! e) ∧ ∀ x, x ∈ C ↔ tc (ustep m) e x) ∧
    (∀ e, e ∈ set_union sets → waiting e → e ∈ l.*1).
Proof.
  destruct (traverse_total (λ kv : string * StrSet, c ← partial_auth_chain m kv.2; Ok (kv.1, c))
    (λ (kv eC : string * StrSet), eC.1 = kv.1 ∧ is_Some (m !! eC.1) ∧ ∀ x, x ∈ eC.2 ↔ tc (ustep m) eC.1 x)
    (filter (λ kv : string * StrSet, kv.1 ∈ set_union sets) (map_to_list m))) as (l & Hl & HF).
  - intros [e A] [_ Hin%elem_of_map_to_list]%list_elem_of_filter. cbn.
    destruct (partial_auth_chain_spec m e A Hin) as (C & -> & HC). exists (e, C). cbn. eauto.
  - exists l. split_and!; [done| |].
    + intros e C Hin. apply list_elem_of_lookup in Hin as [i Hin].
      destruct (Forall2_lookup_r _ _ _ _ _ HF Hin) as (kv & _ & _ & ?). done.
    + intros e He Hw. apply waiting_lookup in Hw as [A HA].
      assert ((e, A) ∈ filter (λ kv : string * StrSet, kv.1 ∈ set_union sets) (map_to_list m)) as Hin.
      { rewrite list_elem_of_filter, elem_of_map_to_list. done. }
      apply list_elem_of_lookup in Hin as [i Hin].
      destruct (Forall2_lookup_l _ _ _ _ _ HF Hin) as ([e' C] & Hi & He' & _). cbn in He'. subst e'.
      apply list_elem_of_fmap. exists (e, C). split; [done|by eapply list_elem_of_lookup_2].
Qed.

Lemma fixup_spec sets missing : sets ≠ [] →
  (∀ S v, S ∈ sets → v ∈ S → is_Some (K !! v) ∨ waiting v) →
  (∀ v, v ∈ missing → waiting v) →
  ∃ R sets', _fixup_auth_chain_difference_sets room_id sets missing (dom (fetch_chain_info db (set_union sets))) db
      = Ok (R, sets') ∧ sets' ≠ [] ∧
    (∀ S v, S ∈ sets' → v ∈ S → is_Some (K !! v)) ∧
    ∀ x, x ∈ R ∨ auth_diff auth sets' x ↔ auth_diff auth sets x.
Proof.
  intros Hne HS Hmiss. unfold _fixup_auth_chain_difference_sets.
  set (indexed := dom _ ∪ _ : StrSet).
  assert (∀ x, x ∈ indexed → is_Some (K !! x)) as Hidx1.
  { intros x. unfold indexed, fetch_chain_info. rewrite elem_of_union, elem_of_dom, elem_of_filter.
    intros [[y [? _]%map_lookup_filter_Some]|[? _]]; [eauto|done]. }
  assert (∀ x, (∃ S, S ∈ sets ∧ x ∈ S) ∨ (∃ y, ustep m y x) → x ∈ indexed ↔ is_Some (K !! x)) as Hidx.
  { intros x Hx. split; [apply Hidx1|]. unfold indexed, fetch_chain_info.
    rewrite elem_of_union, elem_of_dom, elem_of_filter. intros [y Hy]. destruct Hx as [Hx|[z Hz]]; [left|right; split; [eauto|by eapply ustep_univ]].
    exists y. apply map_lookup_filter_Some. split; [done|]. by apply elem_of_set_union. }
  destruct (partial_chains_spec sets) as (l & Hl & HlC & Hlw).
  rewrite bool_decide_eq_false_2.
  2: { intros Hn. apply Hn. apply set_eq. intros v. rewrite elem_of_difference, elem_of_dom, waiting_lookup.
       split; [|by intros ?%elem_of_empty]. intros [Hv Hw]. by destruct Hw; apply Hmiss. }
  rewrite Hl. cbn [raise_if mbind res_bind].
  set (f := λ S, foldl (replace_unindexed indexed) (S, ∅) l).
  assert (∀ S, S ∈ sets → (∀ x, x ∈ (f S).1 → is_Some (K !! x)) ∧
    (∀ x, x ∈ (f S).2 ↔ K !! x = None ∧ ∃ v, v ∈ S ∧ rtc auth v x) ∧
    (∀ x, is_Some (K !! x) → (∃ v, v ∈ (f S).1 ∧ rtc auth v x) ↔ ∃ v, v ∈ S ∧ rtc auth v x)) as Hf.
  { intros S HSin. apply (split_reaches S indexed (f S).1 (f S).2 l.*1).
    - intros v Hv. by apply (HS S).
    - intros x Hx. apply Hidx. destruct Hx; [left; eauto|by right].
    - intros e He Hw. apply Hlw; [apply elem_of_set_union; eauto|done].
    - apply replace_all_spec; [|done]. intros e [y Hy]%waiting_lookup He%Hidx1.
      rewrite (waiting_unindexed e) in He; [by destruct He|by exists y]. }
  exists (set_union (f <$> sets).*2 ∖ set_intersection (f <$> sets).*2), (f <$> sets).*1.
  split_and!; [done|by destruct sets| |].
  - intros S' v HS' Hv. rewrite <-list_fmap_compose in HS'. apply list_elem_of_fmap in HS' as (S & -> & HSin).
    by apply (Hf S).
  - intros x. assert (∀ g : StrSet → StrSet, (∃ A, A ∈ (g <$> sets) ∧ x ∈ A) ↔ ∃ S, S ∈ sets ∧ x ∈ g S) as Hex.
    { intros g. setoid_rewrite list_elem_of_fmap. naive_solver. }
    rewrite <-!list_fmap_compose, elem_of_difference, elem_of_set_union, elem_of_set_intersection by (by destruct sets).
    rewrite (Hex (snd ∘ f)). unfold auth_diff. cbn.
    assert (∀ P : StrSet → Prop, (∃ A, A ∈ (fst ∘ f <$> sets) ∧ P A) ↔ ∃ S, S ∈ sets ∧ P (f S).1) as Hfst.
    { intros P. setoid_rewrite list_elem_of_fmap. naive_solver. }
    rewrite (Hfst (λ A, ∃ v, v ∈ A ∧ rtc auth v x)), (Hfst (λ A, ¬ ∃ v, v ∈ A ∧ rtc auth v x)).
    assert (∀ S, S ∈ sets → (∃ v, v ∈ (f S).1 ∧ rtc auth v x) → is_Some (K !! x)) as Hreach.
    { intros S HSin (v & Hv & Hr). destruct (Hf S HSin) as (H1 & _ & _). destruct (H1 v Hv) as [y Hy].
      by apply (cover_closed auth K L v y x Hcover Hy Hr). }
    destruct (decide (is_Some (K !! x))) as [Hx|Hx].
    + assert (∀ S, S ∈ sets → x ∈ (f S).2 → False) as Hno.
      { intros S HSin Hxu. destruct (Hf S HSin) as (_ & H2 & _). apply H2 in Hxu as [Hn _]. rewrite Hn in Hx. by destruct Hx. }
      split.
      * intros [[(S & ? & ?) _]|[(S & HSin & H1) (S' & HS' & H2)]]; [by destruct (Hno S)|].
        split; [exists S|exists S']; (split; [done|]); [by apply (Hf S)|by rewrite <-(proj2 (proj2 (Hf S' HS')) x Hx)].
      * intros [(S & HSin & H1) (S' & HS' & H2)]. right.
        split; [exists S|exists S']; (split; [done|]); [by apply (Hf S)|by rewrite (proj2 (proj2 (Hf S' HS')) x Hx)].
    + assert (∀ S, S ∈ sets → x ∈ (f S).2 ↔ ∃ v, v ∈ S ∧ rtc auth v x) as Hu.
      { intros S HSin. destruct (Hf S HSin) as (_ & H2 & _). rewrite H2, eq_None_not_Some. tauto. }
      split.
      * intros [[(S & HSin & H1) H2]|[(S & HSin & H1) _]]; [|by destruct Hx; eapply Hreach].
        split; [exists S; split; [done|by apply Hu]|].
        destruct (list_find_not sets (λ S, x ∈ (f S).2)) as [Hall|(S' & HS' & Hn)].
        { destruct H2. intros A HA. apply list_elem_of_fmap in HA as (S' & -> & HS'). by apply Hall. }
        exists S'. split; [done|]. by rewrite <-Hu.
      * intros [(S & HSin & H1) (S' & HS' & H2)]. left. split; [exists S; split; [done|by apply Hu]|].
        intros Hall. apply H2, Hu; [done|]. apply Hall. by apply (list_elem_of_fmap_2 (snd ∘ f)).
Qed.

Lemma fetch_chain_info_sub X : fetch_chain_info db X ⊆ K.
Proof. apply map_filter_subseteq. Qed.

Lemma fetch_chain_info_is_Some X v : is_Some (fetch_chain_info db X !! v) ↔ v ∈ X ∧ is_Some (K !! v).
Proof.
  unfold fetch_chain_info. split.
  - intros [x [? ?]%map_lookup_filter_Some]. eauto.
  - intros [? [x ?]]. exists x. by apply map_lookup_filter_Some.
Qed.

Lemma difference_correct sets : sets ≠ [] →
  (∀ S v, S ∈ sets → v ∈ S → is_Some (K !! v) ∨ waiting v) →
  ∃ D, _get_auth_chain_difference_using_cover_index_txn room_id sets db = Ok D ∧
    ∀ x, x ∈ D ↔ auth_diff auth sets x.
Proof.
  intros Hne HS. unfold _get_auth_chain_difference_using_cover_index_txn.
  rewrite bool_decide_eq_false_2 by done. cbn [raise_if mbind res_bind].
  set (info := fetch_chain_info db (set_union sets)). case_decide as Hm.
  - destruct (indexed_difference_spec auth db Hcover sets info ∅ Hne) as (D & HD & Hx).
    + apply fetch_chain_info_sub.
    + intros S v HSin Hv. assert (v ∈ set_union sets) by (apply elem_of_set_union; eauto).
      destruct (decide (is_Some (info !! v))) as [?|Hn]; [done|].
      rewrite <-elem_of_dom in Hn. assert (v ∈ set_union sets ∖ dom info) as Hv'; [|rewrite Hm in Hv'; by apply elem_of_empty in Hv'].
      by apply elem_of_difference.
    + exists D. split; [done|]. intros x. rewrite Hx, elem_of_empty. tauto.
  - destruct (fixup_spec sets (set_union sets ∖ dom info) Hne HS) as (R & sets' & Hfix & Hne' & Hin & Hx).
    { intros v [[S [HSin Hv]]%elem_of_set_union Hn]%elem_of_difference.
      destruct (HS S v HSin Hv) as [Hi|?]; [|done]. destruct Hn. apply elem_of_dom, fetch_chain_info_is_Some.
      split; [apply elem_of_set_union; eauto|done]. }
    fold info in Hfix. rewrite Hfix. cbn [mbind res_bind].
    set (info' := fetch_chain_info db _ ∪ info).
    destruct (indexed_difference_spec auth db Hcover sets' info' R Hne') as (D & HD & HDx).
    + apply map_union_least; apply fetch_chain_info_sub.
    + intros S v HSin Hv. destruct (Hin S v HSin Hv) as [y Hy]. unfold info', info.
      rewrite lookup_union_is_Some, !fetch_chain_info_is_Some, elem_of_difference, Hy.
      destruct (decide (v ∈ set_union sets)) as [?|?]; [right; eauto|left]. split; [|eauto]. split; [|done].
      apply elem_of_set_union. eauto.
    + exists D. split; [done|]. intros x. by rewrite HDx, Hx.
Qed.
End fixup.

(** ** Auth chains from the index

    [_get_auth_chain_ids_using_cover_index_txn] gives the auth chain of the
    events: what is reached from them by at least one step, with the events
    themselves if asked. *)

Section ids.
Context (auth : string → string → Prop) (db : AuthTables).
Abbreviation K := (t_chains db).
Abbreviation L := (row_link (t_links db)).
Hypothesis Hcover : cover auth K L.
Context (starts : gmap Z Z).

(** After the dicts [dne] and the chains [pre] of the next. *)
Record ids_inv (dne : list ChainLinks) (pre : list Z) (mat : gmap Z Z) : Prop := mkIdsInv {
  ii_sound c v : mat !! c = Some v → ∃ c0 s0, starts !! c0 = Some s0 ∧ tc (hop L) (c0, s0) (c, v);
  ii_closed c v : mat !! c = Some v → closed_at L mat (c, v);
  ii_start c s : starts !! c = Some s → closed_at L mat (c, s) ∨
    ((∀ links, links ∈ dne → links !! c = None) ∧ c ∉ pre)
}.

Lemma materialize_from_spec dne pre links mat c : batch_ok (t_links db) links → is_Some (links !! c) →
  ids_inv dne pre mat → ∃ mat', materialize_from links starts mat c = Ok mat' ∧ ids_inv dne (pre ++ [c]) mat'.
Proof.
  intros Hb Hc [Hs Hcl Hst]. unfold materialize_from. destruct (starts !! c) as [s|] eqn:E.
  - destruct (materialize_spec c s links mat) as (mat' & -> & [Ble Bs Bst Bc]). exists mat'. split; [done|].
    assert (∀ c' v, mat' !! c' = Some v → mat !! c' = Some v ∨ tc (hop (cl_link links)) (c, s) (c', v)) as Hnew.
    { intros c' v Hv. destruct (Bs _ _ Hv) as [?|(x & ->%list_elem_of_singleton & ?)]; [by left|by right]. }
    split.
    + intros c' v Hv. destruct (Hnew _ _ Hv) as [?|Ht]; [by apply Hs|].
      exists c, s. split; [done|]. by apply batch_hops_tc with links.
    + intros c' v Hv. destruct (Bc _ _ Hv) as [Hold|Hcl']; [eapply closed_at_le; [exact Ble|by apply Hcl]|].
      destruct (Hnew _ _ Hv) as [Hold|Ht]; [eapply closed_at_le; [exact Ble|by apply Hcl]|by eapply batch_target_closed].
    + intros c' s' Hs'. destruct (decide (c' = c)) as [->|Hne].
      { left. simplify_eq. apply (batch_closed_at (t_links db) links); [done|done|]. apply Bst. by left. }
      destruct (Hst _ _ Hs') as [?|[? ?]]; [left; by eapply closed_at_le|right]. split; [done|].
      rewrite elem_of_app, list_elem_of_singleton. tauto.
  - exists mat. split; [done|]. split; [done|done|]. intros c' s' Hs'.
    destruct (Hst _ _ Hs') as [?|[? ?]]; [by left|right]. split; [done|].
    rewrite elem_of_app, list_elem_of_singleton. intros [?| ->]; [done|congruence].
Qed.

Lemma chains_of_events_spec dne links mat : batch_ok (t_links db) links → ids_inv dne [] mat →
  ∃ mat', chains_of_events starts mat links = Ok mat' ∧ ids_inv (dne ++ [links]) [] mat'.
Proof.
  intros Hb Hi. unfold chains_of_events.
  destruct (foldM_total_prefix (ids_inv dne) (materialize_from links starts) mat (map_to_list links).*1 Hi)
    as (mat' & Hok & [Hs Hcl Hst]).
  - intros pre c post mat1 Hl Hi1. apply materialize_from_spec; [done| |done].
    assert (c ∈ (map_to_list links).*1) as Hc by (rewrite Hl; apply elem_of_app; right; by left).
    apply list_elem_of_fmap in Hc as ([c' l] & -> & Hin). apply elem_of_map_to_list in Hin. eauto.
  - exists mat'. split; [done|]. split; [done|done|]. intros c s Hc.
    destruct (Hst _ _ Hc) as [?|[Hd Hn]]; [by left|right]. split; [|by apply not_elem_of_nil].
    intros l [?| ->%list_elem_of_singleton]%elem_of_app; [by apply Hd|].
    destruct (links !! c) as [x|] eqn:E; [|done]. destruct Hn. apply list_elem_of_fmap.
    exists (c, x). split; [done|by apply elem_of_map_to_list].
Qed.

(** At the end: what one link or more leads to. *)
Lemma ids_inv_covers all mat y : ids_inv all [] mat → fetched_from (t_links db) (dom starts) all →
  (∀ x y, L x y → 0 < y.2) → 0 < y.2 →
  covers mat y ↔ ∃ c0 s0 s, starts !! c0 = Some s0 ∧ tc (hop L) (c0, s0) (y.1, s) ∧ y.2 ≤ s.
Proof.
  intros [Hs Hcl Hst] Hf HL Hy. split.
  - unfold covers. destruct (mat !! y.1) as [v|] eqn:E; cbn; [|lia]. intros Hv.
    destruct (Hs _ _ E) as (c0 & s0 & ? & ?). exists c0, s0, v. done.
  - intros (c0 & s0 & s & H0 & Ht & Hle).
    assert (closed_at L mat (c0, s0)) as Hc0.
    { destruct (Hst _ _ H0) as [?|[Hd _]]; [done|]. intros z (ss & Hl & _). cbn in Hl.
      destruct (Hf _ _ Hl) as (links & Hin & Hlk); [apply elem_of_dom; cbn; eauto|].
      apply cl_link_dom in Hlk as [? Hlk]. cbn in Hlk. by rewrite (Hd _ Hin) in Hlk. }
    assert (∀ z, tc (hop L) (c0, s0) z → 0 < z.2 ∧ covers mat z) as Hcov.
    { apply tc_ind_r.
      - intros z Hz. split; [destruct Hz as (ss & ? & _); by eapply HL|by apply Hc0].
      - intros z w _ Hzw [Hz Hc]. split; [destruct Hzw as (ss & ? & _); by eapply HL|].
        unfold covers in Hc. destruct (mat !! z.1) as [v|] eqn:E; cbn in Hc; [|lia].
        destruct z as [cz sz]. cbn in *. apply (hop_up _ cz sz v) in Hzw; [|lia]. by apply (Hcl _ _ E). }
    destruct (Hcov _ Ht) as [_ Hc]. unfold covers in *. cbn in *. lia.
Qed.

(** Adding the chains of the events themselves, below the events. *)
Lemma add_initial_covers l mat y : NoDup l.*1 → (∀ x, x ∈ l → 0 < x.2) → 0 < y.2 →
  covers (foldl add_initial_chain mat l) y ↔ covers mat y ∨ ∃ s, (y.1, s) ∈ l ∧ y.2 < s.
Proof.
  intros Hnd Hp Hy. revert mat. induction l as [|x l IH]; intros mat; cbn [foldl].
  { setoid_rewrite elem_of_nil. naive_solver. }
  inversion_clear Hnd as [|? ? Hx Hnd']. rewrite IH; [|done|intros; apply Hp; by right].
  setoid_rewrite elem_of_cons. specialize (Hp x ltac:(left)).
  assert (covers (add_initial_chain mat x) y ↔ covers mat y ∨ (x.1 = y.1 ∧ y.2 < x.2)) as ->.
  { unfold covers, add_initial_chain. destruct (Z.eqb_spec x.2 1) as [E|E]; [split; [by left|intros [?|[_ ?]]; [done|lia]]|].
    destruct (decide (y.1 = x.1)) as [Hxy|Hne]; [rewrite Hxy, lookup_insert_eq; cbn; lia|].
    rewrite lookup_insert_ne by done. split; [by left|]. intros [?|[? _]]; [done|congruence]. }
  destruct x as [cx sx]. cbn. split; [|naive_solver]. intros [[?|[-> ?]]|?]; naive_solver.
Qed.

Lemma elem_of_events_up_to chains e : e ∈ events_up_to db chains ↔ ∃ x v, K !! e = Some x ∧ chains !! x.1 = Some v ∧ x.2 ≤ v.
Proof.
  unfold events_up_to. rewrite elem_of_list_to_set, list_elem_of_fmap. split.
  - intros ([e' x] & -> & Hin). apply list_elem_of_bind in Hin as ([c v] & [Hf Hin]%list_elem_of_filter & Hc).
    cbn in *. destruct Hf as [<- ?]. exists x, v. by rewrite <-!elem_of_map_to_list.
  - intros (x & v & He & Hc & Hle). exists (e, x). split; [done|]. apply list_elem_of_bind. exists (x.1, v).
    rewrite list_elem_of_filter, !elem_of_map_to_list. done.
Qed.
End ids.

Section result.
Context (auth : string → string → Prop) (depth : string → nat) (db : AuthTables).
Abbreviation K := (t_chains db).
Abbreviation L := (row_link (t_links db)).
Hypothesis acyclic : ∀ e a, auth e a → (depth a < depth e)%nat.
Hypothesis Hcover : cover auth K L.

(** The highest event of each chain leads to what all of them do. *)
Lemma starts_reach (ids : list string) (starts : gmap Z Z) e x :
  (∀ c s, starts !! c = Some s → ∃ v, v ∈ ids ∧ K !! v = Some (c, s)) →
  (∀ v y, v ∈ ids → K !! v = Some y → covers starts y) →
  K !! e = Some x →
  (∃ c0 s0 s, starts !! c0 = Some s0 ∧ tc (hop L) (c0, s0) (x.1, s) ∧ x.2 ≤ s) ∨ (∃ s, starts !! x.1 = Some s ∧ x.2 < s) ↔
  ∃ v, v ∈ ids ∧ (∃ y, K !! v = Some y) ∧ tc auth v e.
Proof.
  intros Hs Hc He. pose proof (cv_chains _ _ _ Hcover) as Kok. pose proof (cv_links _ _ _ Hcover) as Lok. split.
  - intros [(c0 & s0 & s & H0 & Ht & Hle)|(s & H0 & Hlt)]; destruct (Hs _ _ H0) as (v & Hv & Hy);
      exists v; (split_and!; [done|eauto|]).
    + inversion Ht as [? ? Hh|? z ? Hh Ht']; simplify_eq;
        destruct (hop_sound auth K L Kok Lok v _ _ Hy Hh) as (b & Hb & Hvb); (eapply tc_rtc_r; [exact Hvb|]).
      * destruct x as [cx sx]. by apply (chain_order auth K Kok b e cx s sx).
      * apply (path_sound auth K L Kok Lok b e z x Hb He). exists s. split; [by apply tc_rtc|done].
    + destruct x as [cx sx]. cbn in *.
      assert (rtc auth v e) as [->|?]%rtc_tc by (by apply (chain_order auth K Kok v e cx s sx); [| |lia]); [|done].
      assert ((cx, s) = (cx, sx)) as [= ->] by congruence. lia.
  - intros (v & Hv & [y Hy] & Ht). specialize (Hc v y Hv Hy). pose proof (co_pos _ _ Kok v y Hy) as Hpos.
    unfold covers in Hc. destruct (starts !! y.1) as [s0|] eqn:E0; cbn in Hc; [|lia].
    destruct (path_complete auth K L v e y x Hcover Hy He (tc_rtc _ _ Ht)) as (s & Hr & Hle).
    apply rtc_tc in Hr as [->|Htc].
    + right. cbn in *. exists s0. split; [done|]. cbn in *.
      assert (x.2 ≠ s) as Hne; [|lia]. intros <-.
      assert (v = e) as -> by (apply (co_inj _ _ Kok v e x); [rewrite Hy; by destruct x|done]).
      apply (tc_depth auth depth acyclic) in Ht. lia.
    + left. exists y.1, s0, s. split_and!; [done| |done]. destruct y as [cy sy]. cbn in *.
      inversion Htc as [? ? Hh|? z ? Hh Ht']; simplify_eq.
      * apply tc_once. by eapply hop_up.
      * eapply tc_l; [by eapply hop_up|done].
Qed.

Lemma auth_chain_ids_correct (ids : list string) include_given : (∀ v, v ∈ ids → is_Some (K !! v)) →
  ∃ D, _get_auth_chain_ids_using_cover_index_txn ids include_given db = Ok D ∧
    ∀ x, x ∈ D ↔ (include_given = true ∧ x ∈ ids) ∨ ∃ v, v ∈ ids ∧ tc auth v x.
Proof.
  intros Hids. unfold _get_auth_chain_ids_using_cover_index_txn.
  pose proof (cv_chains _ _ _ Hcover) as Kok. pose proof (cv_links _ _ _ Hcover) as Lok.
  set (info := fetch_chain_info db (list_to_set ids)). set (starts := foldl max_seq ∅ (map_to_list info).*2).
  assert (∀ x, x ∈ (map_to_list info).*2 ↔ ∃ v, v ∈ ids ∧ K !! v = Some x) as Hinfo.
  { intros x. rewrite list_elem_of_fmap. unfold info, fetch_chain_info. split.
    - intros ([v y] & -> & [Hy Hv]%elem_of_map_to_list%map_lookup_filter_Some). exists v.
      split; [by apply (elem_of_list_to_set (C := StrSet))|done].
    - intros (v & Hv & Hx). exists (v, x). split; [done|]. apply elem_of_map_to_list, map_lookup_filter_Some.
      split; [done|]. by apply elem_of_list_to_set. }
  destruct (max_seq_fold (map_to_list info).*2 ∅) as (_ & Hcov & Hs & Hd).
  { intros x (v & _ & Hv)%Hinfo. by apply (co_pos _ _ Kok v). }
  fold starts in Hcov, Hs, Hd.
  rewrite bool_decide_eq_false_2.
  2: { intros Hn. apply Hn, set_eq. intros v. unfold info. rewrite elem_of_difference, elem_of_dom, elem_of_list_to_set, fetch_chain_info_is_Some.
       split; [|by intros ?%elem_of_empty]. intros [Hv Hx]. destruct Hx. split; [by apply elem_of_list_to_set|by apply Hids]. }
  cbn [raise_if mbind res_bind].
  destruct (get_chain_links_spec db (dom starts)) as (all & -> & Hall & Hfetch). cbn [mbind res_bind].
  destruct (foldM_total_prefix (λ dne mat, ids_inv db starts dne [] mat) (chains_of_events starts) ∅ all)
    as (mat & -> & Hmat).
  { split; [done|done|]. intros c s Hc. right. split; [by intros ? ?%elem_of_nil|by apply not_elem_of_nil]. }
  { intros pre links post mat E Hi. apply chains_of_events_spec; [|done].
    rewrite Forall_forall in Hall. apply Hall. rewrite E. apply elem_of_app. right. by left. }
  cbn [mbind res_bind]. eexists. split; [done|]. intros e. rewrite elem_of_union.
  assert (e ∈ (if include_given then list_to_set ids else ∅ : StrSet) ↔ include_given = true ∧ e ∈ ids) as ->.
  { destruct include_given; [rewrite elem_of_list_to_set; tauto|]. split; [by intros ?%elem_of_empty|by intros [? _]]. }
  apply or_iff_compat_l.
  assert (∀ x, x ∈ map_to_list starts → 0 < x.2) as Hpos.
  { intros [c s] Hx%elem_of_map_to_list. destruct (Hs c s Hx) as [?|(v & _ & Hv)%Hinfo]; [done|]. by apply (co_pos _ _ Kok v). }
  assert (∀ x, K !! e = Some x →
    covers (foldl add_initial_chain mat (map_to_list starts)) x ↔ ∃ v, v ∈ ids ∧ tc auth v e) as Hiff.
  { intros x He. pose proof (co_pos _ _ Kok e x He) as Hx.
    rewrite add_initial_covers by (done || apply NoDup_fst_map_to_list).
    rewrite (ids_inv_covers db starts all mat x Hmat Hfetch); [|intros y z; apply (link_positive auth K L Kok Lok)|done].
    setoid_rewrite elem_of_map_to_list. rewrite (starts_reach ids starts e x); [|..|done].
    - split; [intros (v & ? & _ & ?); eauto|]. intros (v & Hv & ?). destruct (Hids v Hv) as [y ?]. eauto 6.
    - intros c s Hc. destruct (Hs c s Hc) as [?|?%Hinfo]; [done|done].
    - intros v y Hv Hy. apply Hcov, Hinfo. eauto. }
  rewrite elem_of_events_up_to. split.
  - intros (x & v & He & Hv & Hle). apply (Hiff x He). unfold covers. rewrite Hv. done.
  - intros (v & Hv & Ht). destruct (Hids v Hv) as [y Hy].
    destruct (cover_closed auth K L v y e Hcover Hy (tc_rtc _ _ Ht)) as [x He].
    pose proof (proj2 (Hiff x He) (ex_intro _ v (conj Hv Ht))) as Hc. pose proof (co_pos _ _ Kok e x He).
    unfold covers in Hc. exists x. destruct (foldl _ _ _ !! x.1) as [w|]; cbn in Hc; [eauto|lia].
Qed.
End result.

(** An event without a chain is refused. *)
Lemma auth_chain_ids_missing (ids : list string) include_given db : (∃ v, v ∈ ids ∧ t_chains db !! v = None) →
  _get_auth_chain_ids_using_cover_index_txn ids include_given db = Raise _NoChainCoverIndex.
Proof.
  intros (v & Hv & Hn). unfold _get_auth_chain_ids_using_cover_index_txn. rewrite bool_decide_eq_true_2; [done|].
  intros Hemp. assert (v ∈ (∅ : StrSet)) as ?%elem_of_empty; [|done]. rewrite <-Hemp. apply elem_of_difference.
  split; [by apply elem_of_list_to_set|]. unfold fetch_chain_info. rewrite elem_of_dom. intros [x [Hx _]%map_lookup_filter_Some]. congruence.
Qed.
