(* ===== verification/ChainTopo.v ===== *)
(** * [sorted_topologically] of [synapse/util/iterutils.py]

    It yields nodes once each, after the nodes they refer to, and all of them
    when the graph has no cycle. *)

From S2P Require Import Prelude PyOrd ChainLinks ChainCover TopoSort.
#[local] Open Scope Z_scope.

Lemma size_disjoint (X Y : StrSet) : X ## Y → size (X ∪ Y) = (size X + size Y)%nat.
Proof. apply size_union. Qed.

Section topo.
Context (nodes : StrSet) (graph : StrMap (list string)).

(** The edges between the nodes. *)
Definition node_edges (g : StrMap (list string)) (n : string) : StrSet :=
  list_to_set (default [] (g !! n)) ∩ nodes.
Definition node_graph : Graph := map_imap (λ n _, Some (node_edges graph n)) (gset_to_gmap tt nodes).

Lemma node_graph_lookup n es : node_graph !! n = Some es ↔ n ∈ nodes ∧ es = node_edges graph n.
Proof.
  unfold node_graph. rewrite map_lookup_imap, lookup_gset_to_gmap. destruct (decide (n ∈ nodes)) as [Hn|Hn].
  - rewrite option_guard_True by done. cbn. naive_solver.
  - rewrite option_guard_False by done. cbn. naive_solver.
Qed.

(** ** The degrees and the reversed graph *)

Definition degrees_of (g : StrMap (list string)) (dm : StrMap Z) : Prop :=
  ∀ n, dm !! n = if decide (n ∈ nodes) then Some (Z.of_nat (size (node_edges g n))) else None.
Definition reverse_of (g : StrMap (list string)) (rg : StrMap StrSet) : Prop :=
  ∀ e n, n ∈ default ∅ (rg !! e) ↔ n ∈ nodes ∧ e ∈ default [] (g !! n).

Lemma topo_edges_spec node l dm rg : NoDup l → node ∈ nodes → (∀ n, is_Some (dm !! n) ↔ n ∈ nodes) →
  let r := foldl (topo_edge node) (dm, rg) l in
  (∀ n, r.1 !! n = if decide (n = node) then Some (default 0 (dm !! node) + Z.of_nat (size (list_to_set l ∩ nodes)))
                   else dm !! n) ∧
  (∀ e n, n ∈ default ∅ (r.2 !! e) ↔ n ∈ default ∅ (rg !! e) ∨ (n = node ∧ e ∈ l)).
Proof.
  intros Hnd Hnode. revert dm rg. induction Hnd as [|e l He Hnd IH]; intros dm rg Hdm; cbn [foldl].
  { split; [|setoid_rewrite elem_of_nil; naive_solver]. intros n. cbn [fst]. case_decide; [subst n|done].
    destruct (Hdm node) as [_ [d Hd]]; [done|]. rewrite Hd. cbn.
    rewrite intersection_empty_l_L, size_empty. f_equal. lia. }
  set (dm1 := (topo_edge node (dm, rg) e).1). set (rg1 := (topo_edge node (dm, rg) e).2).
  assert (∀ n, dm1 !! n = if decide (n = node) then
      Some (default 0 (dm !! node) + Z.of_nat (size ({[e]} ∩ nodes))) else dm !! n) as Hdm1.
  { intros n. unfold dm1, topo_edge. destruct (Hdm node) as [_ [d Hd]]; [done|]. cbn [fst].
    destruct (dm !! e) as [d'|] eqn:Ee.
    - assert (e ∈ nodes) by (apply Hdm; eauto). rewrite Hd.
      assert (({[e]} : StrSet) ∩ nodes = {[e]}) as -> by set_solver. rewrite size_singleton.
      case_decide; [subst; by rewrite lookup_insert_eq|by rewrite lookup_insert_ne].
    - assert (e ∉ nodes) by (rewrite <-Hdm, Ee; by intros [? ?]).
      assert (({[e]} : StrSet) ∩ nodes = ∅) as -> by set_solver. rewrite size_empty.
      case_decide; [subst; rewrite Hd; cbn; f_equal; lia|done]. }
  assert (∀ e' n, n ∈ default ∅ (rg1 !! e') ↔ n ∈ default ∅ (rg !! e') ∨ (n = node ∧ e' = e)) as Hrg1.
  { intros e' n. unfold rg1, topo_edge. cbn [snd]. destruct (decide (e' = e)) as [->|Hne].
    - rewrite lookup_insert_eq. cbn. set_solver.
    - rewrite lookup_insert_ne by done. naive_solver. }
  destruct (IH dm1 rg1) as [Hr1 Hr2].
  { intros n. rewrite Hdm1. case_decide; [|apply Hdm]. subst. split; eauto. }
  replace (topo_edge node (dm, rg) e) with (dm1, rg1) by done. split.
  - intros n. rewrite Hr1. case_decide; [|rewrite Hdm1; by rewrite decide_False].
    f_equal. rewrite Hdm1, decide_True by done. cbn [default from_option id].
    rewrite list_to_set_cons, intersection_union_r_L, size_disjoint; [lia|set_solver].
  - intros e' n. rewrite Hr2, Hrg1, elem_of_cons. naive_solver.
Qed.

Lemma topo_fold_spec : let r := map_fold topo_node (gset_to_gmap 0 nodes, ∅) graph in
  degrees_of graph r.1 ∧ reverse_of graph r.2.
Proof.
  apply (map_fold_weak_ind (λ r g, degrees_of g r.1 ∧ reverse_of g r.2)).
  { split.
    - intros n. cbn [fst]. rewrite lookup_gset_to_gmap. unfold node_edges. rewrite lookup_empty. cbn.
      rewrite intersection_empty_l_L, size_empty. case_decide; [by rewrite option_guard_True|by rewrite option_guard_False].
    - intros e n. cbn. rewrite !lookup_empty. cbn. set_solver. }
  intros node edges g [dm rg] Hnew [Hd Hr]. unfold reverse_of in Hr. cbn [fst snd] in *. unfold topo_node. cbn [fst].
  assert (∀ n, default [] (<[node := edges]> g !! n) = if decide (n = node) then edges else default [] (g !! n)) as Hg.
  { intros n. case_decide; [subst; by rewrite lookup_insert_eq|by rewrite lookup_insert_ne]. }
  assert (node_edges g node = ∅) as Hne0 by (unfold node_edges; rewrite Hnew; cbn; set_solver).
  rewrite (Hd node). case_decide as Hnode.
  - destruct (topo_edges_spec node (elements (list_to_set edges : StrSet)) dm rg (NoDup_elements _) Hnode) as [H1 H2].
    { intros n. rewrite Hd. case_decide; split; try done; eauto; by intros [? ?]. }
    rewrite list_to_set_elements_L in H1. destruct (foldl _ _ _) as [dm' rg'] eqn:E. cbn [fst snd] in *. split.
    + intros n. rewrite H1. unfold node_edges. rewrite Hg. destruct (decide (n = node)) as [->|Hne]; [|apply Hd].
      rewrite Hd, !decide_True by done. rewrite Hne0, size_empty. f_equal.
    + intros e n. rewrite Hg. assert (default ∅ (<[node := default ∅ (rg' !! node)]> rg' !! e) = default ∅ (rg' !! e)) as ->.
      { destruct (decide (e = node)) as [->|]; [by rewrite lookup_insert_eq|by rewrite lookup_insert_ne]. }
      rewrite H2, Hr, elem_of_elements, elem_of_list_to_set. case_decide as Hn; [subst n; rewrite Hnew; cbn; set_solver|].
      naive_solver.
  - split.
    + intros n. rewrite Hd. case_decide; [|done]. unfold node_edges. rewrite Hg, decide_False; [done|naive_solver].
    + intros e n. rewrite Hr, Hg. case_decide; [naive_solver|done].
Qed.

(** ** The loop *)

Record topo_inv (done : list string) (dm : StrMap Z) (heap : list string) : Prop := mkTopoInv {
  ti_dm n : dm !! n = (λ es, Z.of_nat (size (es ∖ list_to_set done))) <$> node_graph !! n;
  ti_heap n : n ∈ heap ↔ available node_graph done n;
  ti_nodup : NoDup heap;
  ti_closed n : n ∈ done → ∃ es, node_graph !! n = Some es ∧ ∀ e, e ∈ es → e ∈ done;
  ti_done : NoDup done
}.

(** While the nodes that refer to [node] are visited, [pre] having been. *)
Record topo_visit_inv (done : list string) (node : string) (pre : list string) (st : StrMap Z * list string) : Prop := {
  tv_dm n : st.1 !! n =
    (λ es, Z.of_nat (size (es ∖ list_to_set (if decide (n ∈ pre) then done ++ [node] else done)))) <$> node_graph !! n;
  tv_heap n : n ∈ st.2 ↔ (n ≠ node ∧ available node_graph done n) ∨ (n ∈ pre ∧ available node_graph (done ++ [node]) n);
  tv_nodup : NoDup st.2
}.

Lemma topo_visit_step done node pre p st :
  (∀ n, n ∈ done → ∃ es, node_graph !! n = Some es ∧ ∀ e, e ∈ es → e ∈ done) →
  available node_graph done node → references node_graph p node → p ∉ pre →
  topo_visit_inv done node pre st → topo_visit_inv done node (pre ++ [p]) (topo_visit st p).
Proof.
  intros Hclosed Hnode Hp Hpre [Hdm Hheap Hnd].
  pose proof (parent_fresh _ done node p Hclosed Hnode Hp) as Hfresh.
  destruct Hp as (es & Hes & Hin). destruct st as [dm heap]; cbn in *. unfold topo_visit.
  rewrite (Hdm p), Hes, decide_False by done. cbn [fmap option_fmap option_map].
  assert (node ∉ done) as Hnd' by apply Hnode.
  set (out := es ∖ list_to_set (done ++ [node])).
  assert (Z.of_nat (size (es ∖ list_to_set done)) - 1 = Z.of_nat (size out)) as ->.
  { assert (es ∖ list_to_set done = {[node]} ∪ out) as ->.
    { unfold out. rewrite list_to_set_app_L. apply set_eq. intros x.
      destruct (decide (x = node)) as [->|]; set_solver. }
    rewrite size_disjoint, size_singleton; [lia|]. unfold out. rewrite list_to_set_app_L. set_solver. }
  assert (available node_graph (done ++ [node]) p ↔ out = ∅) as Hav.
  { unfold out, available. split.
    - intros (_ & es' & ? & Hsub). simplify_eq. apply set_eq. set_solver.
    - intros He. split; [done|]. exists es. split; [done|]. intros e He'.
      destruct (decide (e ∈ done ++ [node])) as [?|Hn]; [done|].
      assert (e ∈ es ∖ list_to_set (done ++ [node])) as Hx by set_solver. rewrite He in Hx. set_solver. }
  assert (∀ n, <[p := Z.of_nat (size out)]> dm !! n = (λ es, Z.of_nat (size (es ∖ list_to_set
    (if decide (n ∈ pre ++ [p]) then done ++ [node] else done)))) <$> node_graph !! n) as Hdm'.
  { intros n. destruct (decide (n = p)) as [->|Hne].
    - rewrite lookup_insert_eq, Hes, decide_True by set_solver. done.
    - rewrite lookup_insert_ne, Hdm by done.
      by destruct (decide (n ∈ pre)), (decide (n ∈ pre ++ [p])); set_solver. }
  destruct (Z.eqb_spec (Z.of_nat (size out)) 0) as [Ho|Ho].
  - assert (out = ∅) as Hout by (apply leibniz_equiv, size_empty_iff; lia).
    split; cbn [fst snd]; [done| |].
    + intros n. unfold heappush. rewrite elem_of_cons, Hheap, elem_of_app, list_elem_of_singleton. split; [|naive_solver].
      intros [->|?]; [|tauto]. right. tauto.
    + constructor; [|done]. rewrite Hheap. intros [[_ Ha]|[? _]]; [|done].
      destruct Ha as (_ & es' & ? & Hsub). simplify_eq. by apply Hnd', Hsub.
  - assert (out ≠ ∅) as Hout by (intros Hout; rewrite Hout, size_empty in Ho; done).
    split; cbn [fst snd]; [done| |done].
    intros n. rewrite Hheap, elem_of_app, list_elem_of_singleton.
    split; [naive_solver|]. intros [?|[[?| ->] ?]]; tauto.
Qed.

Lemma topo_visits_spec done dm heap node heap' parents :
  topo_inv done dm heap → heap ≡ₚ node :: heap' →
  (∀ p, p ∈ parents ↔ references node_graph p node) → NoDup parents →
  let st := foldl topo_visit (dm, heap') parents in topo_inv (done ++ [node]) st.1 st.2.
Proof.
  intros [Hdm Hheap Hnd Hclosed Hdone] Hp Hpar Hndp.
  assert (available node_graph done node) as Hnode by (apply Hheap; rewrite Hp; left).
  assert (topo_visit_inv done node [] (dm, heap')) as H0.
  { rewrite Hp in Hnd. apply NoDup_cons in Hnd as [Hn Hnd']. split; cbn; [by intros n; rewrite decide_False by set_solver| |done].
    intros n. specialize (Hheap n). rewrite Hp, elem_of_cons in Hheap. split.
    - intros Hin. left. split; [by intros ->|]. by apply Hheap; right.
    - intros [[Hne Ha]|[?%elem_of_nil _]]; [|done]. apply Hheap in Ha as [?|?]; done. }
  assert (∀ post pre st, parents = pre ++ post → topo_visit_inv done node pre st →
    topo_visit_inv done node parents (foldl topo_visit st post)) as Hfold.
  { induction post as [|p post IH]; intros pre st E Hi; cbn [foldl]; [by rewrite E, app_nil_r|].
    apply (IH (pre ++ [p])); [by rewrite <-app_assoc|]. apply topo_visit_step; [done|done| | |done].
    - apply Hpar. rewrite E. apply elem_of_app. right. by left.
    - rewrite E in Hndp. apply NoDup_app in Hndp as (_ & Hd & _). intros Hin. by apply (Hd p Hin); left. }
  destruct (Hfold parents [] _ eq_refl H0) as [Vdm Vheap Vnd]. cbv zeta. split; [| |done| |].
  - intros n. rewrite Vdm. destruct (node_graph !! n) as [es|] eqn:E; [|done]. cbn [fmap option_fmap option_map].
    case_decide as Hn; [done|]. do 3 f_equal. rewrite list_to_set_app_L. cbn [list_to_set].
    assert (node ∉ es) by (intros ?; apply Hn, Hpar; by exists es). set_solver.
  - intros n. rewrite Vheap. split.
    + intros [[Hne Ha]|[_ ?]]; [|done]. by apply available_snoc.
    + intros Ha. destruct (decide (n ∈ parents)) as [?|Hn]; [by right|left].
      by apply (available_unsnoc node_graph done node n); [|rewrite <-Hpar].
  - intros n [Hn| ->%list_elem_of_singleton]%elem_of_app.
    + destruct (Hclosed n Hn) as (es & ? & ?). exists es. set_solver.
    + destruct Hnode as (_ & es & ? & ?). exists es. set_solver.
  - apply NoDup_app. split; [done|]. split; [|apply NoDup_singleton]. destruct Hnode. set_solver.
Qed.

(** What remains to be output after [done]. *)
Definition topo_after (done l : list string) : Prop :=
  (∀ pre n post, l = pre ++ n :: post → available node_graph (done ++ pre) n) ∧
  ∀ n, ¬ available node_graph (done ++ l) n.

Lemma topo_loop_spec fuel rg done dm heap : reverse_of graph rg →
  topo_inv done dm heap → (size nodes ≤ fuel + length done)%nat →
  ∃ l, topo_loop fuel rg dm heap = Ok l ∧ topo_after done l.
Proof.
  intros Hrg. revert done dm heap. induction fuel as [|fuel IH]; intros done dm heap Hinv Hfuel; cbn [topo_loop];
    destruct (heappop heap) as [[node heap']|] eqn:Epop.
  2,4: exists []; split; [done|]; split; [by intros []|]; intros n Hn; rewrite app_nil_r in Hn;
    destruct heap; [|done]; by apply (elem_of_nil n), (ti_heap _ _ _ Hinv).
  all: apply heappop_Some in Epop as [Hp _].
  all: pose proof (topo_visits_spec done dm heap node heap' (elements (default ∅ (rg !! node))) Hinv Hp) as Hinv'.
  all: cbv zeta in Hinv'; destruct (foldl topo_visit _ _) as [dm' heap''].
  all: assert (∀ p, p ∈ elements (default ∅ (rg !! node)) ↔ references node_graph p node) as Hpar.
  1,3: intros p; rewrite elem_of_elements, (Hrg node p); unfold references; setoid_rewrite node_graph_lookup;
    unfold node_edges;
    assert (node ∈ nodes) by (assert (available node_graph done node) as (_ & es & [? _]%node_graph_lookup & _)
      by (apply (ti_heap _ _ _ Hinv); rewrite Hp; left); done);
    (split; [intros [? ?]; eexists; split; [done|]; apply elem_of_intersection; split; [by apply elem_of_list_to_set|done]
            |intros (es & [? ->] & [?%elem_of_list_to_set _]%elem_of_intersection); done]).
  all: specialize (Hinv' Hpar (NoDup_elements _)); cbn [fst snd] in Hinv'.
  - assert (length (done ++ [node]) ≤ size nodes)%nat as Hb.
    { destruct Hinv' as [_ _ _ Hcl Hd]. rewrite <-(size_list_to_set (C := StrSet) _ Hd). apply subseteq_size.
      intros n Hn%elem_of_list_to_set. by destruct (Hcl n Hn) as (es & [? _]%node_graph_lookup & _). }
    rewrite length_app in Hb. cbn in Hb. lia.
  - destruct (IH _ _ _ Hinv') as (l & -> & Hg & Hc); [rewrite length_app; cbn; lia|].
    exists (node :: l). split; [done|]. split.
    + intros [|a pre] n post E; injection E as -> E; rewrite ?app_nil_r.
      * apply (ti_heap _ _ _ Hinv). rewrite Hp. left.
      * specialize (Hg pre n post E). by rewrite <-app_assoc in Hg.
    + intros n. specialize (Hc n). by rewrite <-app_assoc in Hc.
Qed.

Lemma sorted_topologically_spec : ∃ l, sorted_topologically nodes graph = Ok l ∧ NoDup l ∧
  (∀ n, n ∈ l → n ∈ nodes) ∧
  (∀ pre n post a, l = pre ++ n :: post → a ∈ default [] (graph !! n) → a ∈ nodes → a ∈ pre) ∧
  (∀ depth : string → nat, (∀ n a, n ∈ nodes → a ∈ default [] (graph !! n) → a ∈ nodes → (depth a < depth n)%nat) →
     ∀ n, n ∈ nodes → n ∈ l).
Proof.
  unfold sorted_topologically. pose proof topo_fold_spec as [Hd Hr]. destruct (map_fold _ _ _) as [dm rg]. cbn [fst snd] in *.
  set (heap := (filter (λ kv : string * Z, kv.2 = 0) (map_to_list dm)).*1).
  assert (∀ n, n ∈ heap ↔ dm !! n = Some 0) as Hheap.
  { intros n. unfold heap. rewrite list_elem_of_fmap. split.
    - intros ([n' z] & -> & [Hz Hin]%list_elem_of_filter). cbn in *. subst. by apply elem_of_map_to_list.
    - intros Hn. exists (n, 0). split; [done|]. by rewrite list_elem_of_filter, elem_of_map_to_list. }
  destruct (topo_loop_spec (size nodes) rg [] dm heap Hr) as (l & -> & Hg & Hc); [|cbn; lia|].
  - split; [| | |by intros ? ?%elem_of_nil|constructor].
    + intros n. rewrite Hd. unfold node_graph. rewrite map_lookup_imap, lookup_gset_to_gmap.
      case_decide; [rewrite option_guard_True by done|by rewrite option_guard_False]. cbn. by rewrite difference_empty_L.
    + intros n. rewrite Hheap, Hd. unfold available. setoid_rewrite node_graph_lookup. split.
      * case_decide as Hn; [|done]. intros [= Hz]. split; [apply not_elem_of_nil|]. eexists. split; [done|].
        assert (node_edges graph n = ∅) as -> by (apply leibniz_equiv, size_empty_iff; lia). set_solver.
      * intros (_ & es & [Hn ->] & Hsub). rewrite decide_True by done.
        assert (node_edges graph n = ∅) as -> by (apply set_eq; intros x; split; [intros ?%Hsub%elem_of_nil; done|set_solver]).
        by rewrite size_empty.
    + apply (sublist_NoDup _ (map_to_list dm).*1); [apply NoDup_fst_map_to_list|]. apply fmap_sublist, sublist_filter.
  - exists l. cbn in Hg, Hc. split_and!; [done| | | |].
    + cut (∀ post pre, l = pre ++ post → NoDup pre → NoDup l).
      { intros Hcut. apply (Hcut l []); [done|constructor]. }
      induction post as [|n post IH]; intros pre E Hnd; [by rewrite E, app_nil_r|].
      apply (IH (pre ++ [n])); [by rewrite E, <-app_assoc|]. apply NoDup_app. split; [done|].
      split; [|apply NoDup_singleton]. destruct (Hg pre n post E) as [? _]. set_solver.
    + intros n (pre & post & E)%list_elem_of_split. by destruct (Hg pre n post E) as (_ & es & [? _]%node_graph_lookup & _).
    + intros pre n post a E Ha Hn. destruct (Hg pre n post E) as (_ & es & [_ ->]%node_graph_lookup & Hsub). apply Hsub.
      unfold node_edges. by apply elem_of_intersection; split; [apply elem_of_list_to_set|].
    + intros depth Hdepth n. remember (depth n) as k eqn:Ek. revert n Ek.
      induction (lt_wf k) as [k _ IH]. intros n -> Hn. destruct (decide (n ∈ l)) as [?|Hnl]; [done|].
      destruct (Hc n). split; [done|]. exists (node_edges graph n). split; [by apply node_graph_lookup|].
      intros e He. unfold node_edges in He. apply elem_of_intersection in He as [He%elem_of_list_to_set Hen]. by apply (IH (depth e)); [apply Hdepth| |].
Qed.
End topo.
