(* ===== verification/ChainAllocate.v ===== *)
(** * The allocation of chains and numbers

    [_allocate_chain_ids] gives every event a chain and a number of its own; a
    number above one follows on from an auth event. *)

From S2P Require Import Prelude PyOrd ChainLinks ChainIndex ChainCover ChainTopo.
From stdpp Require Import relations.
#[local] Open Scope Z_scope.

(** The highest number of each chain asked for. *)
Lemma max_fold_spec (chains : gset Z) (K : StrMap Coord) : let M := map_fold (add_max chains) ∅ K in
  (∀ e c s, K !! e = Some (c, s) → c ∈ chains → ∃ mx, M !! Existing c = Some mx ∧ s ≤ mx) ∧
  (∀ i, M !! Temporary i = None).
Proof.
  apply (map_fold_weak_ind (λ M K,
    (∀ e c s, K !! e = Some (c, s) → c ∈ chains → ∃ mx, M !! Existing c = Some mx ∧ s ≤ mx) ∧
    (∀ i, M !! Temporary i = None))).
  { split; [|done]. intros e c s. by rewrite lookup_empty. }
  intros e [c s] K' M Hnew [IH1 IH2]. unfold add_max. cbn [fst snd]. case_decide as Hc.
  - split; [|intros i; by rewrite lookup_insert_ne].
    intros e' c' s' [[<- [= <- <-]]|[Hne Hk]]%lookup_insert_Some Hc'.
    + rewrite lookup_insert_eq. eexists. split; [done|]. destruct (M !! Existing c); lia.
    + destruct (IH1 e' c' s' Hk Hc') as (mx & HM & Hle). destruct (decide (c' = c)) as [->|Hcc].
      * rewrite lookup_insert_eq, HM. eexists. split; [done|]. lia.
      * rewrite lookup_insert_ne by congruence. eauto.
  - split; [|done]. intros e' c' s' [[<- [= <- <-]]|[Hne Hk]]%lookup_insert_Some Hc'; [done|by eapply IH1].
Qed.

Section allocate.
Context (auth : string → string → Prop) (K cm : StrMap Coord) (N : StrSet) (existing : gset Z).
Hypothesis Kok : chains_ok auth K.
Hypothesis cm_K : cm ⊆ K.
Hypothesis N_new : ∀ e, e ∈ N → K !! e = None.

Record alloc_inv (pre : list string) (st : allocation) : Prop := mkAllocInv {
  al_dom e : is_Some (new_chain_tuples st !! e) ↔ e ∈ pre;
  al_ref e r s : new_chain_tuples st !! e = Some (r, s) →
    0 < s ∧ match r with Existing c => c ∈ existing | Temporary i => (i < unallocated st)%nat end;
  al_max e r s : new_chain_tuples st !! e = Some (r, s) → ∃ mx, chain_to_max_seq_no st !! r = Some mx ∧ s ≤ mx;
  al_old e c s : K !! e = Some (c, s) → c ∈ existing → ∃ mx, chain_to_max_seq_no st !! Existing c = Some mx ∧ s ≤ mx;
  al_temp i : is_Some (chain_to_max_seq_no st !! Temporary i) → (i < unallocated st)%nat;
  al_inj a b x : new_chain_tuples st !! a = Some x → new_chain_tuples st !! b = Some x → a = b;
  al_new a b c s : new_chain_tuples st !! a = Some (Existing c, s) → K !! b ≠ Some (c, s);
  al_down e r s : new_chain_tuples st !! e = Some (r, s) → 1 < s → ∃ p, auth e p ∧
    (new_chain_tuples st !! p = Some (r, s - 1) ∨ ∃ c, r = Existing c ∧ K !! p = Some (c, s - 1))
}.

(** An event that gets the chain [r] and number [s], which are free. *)
Lemma put_tuple_inv pre st e t :
  e ∉ pre → let x := default (Temporary (unallocated st), 1) t in
  alloc_inv pre st → 0 < x.2 →
  (∀ y, t = Some y → ∃ p mx, auth e p ∧ chain_to_max_seq_no st !! y.1 = Some mx ∧ mx < y.2 ∧
     match y.1 with Existing c => c ∈ existing | Temporary i => (i < unallocated st)%nat end ∧
     (new_chain_tuples st !! p = Some (y.1, y.2 - 1) ∨ ∃ c, y.1 = Existing c ∧ K !! p = Some (c, y.2 - 1))) →
  alloc_inv (pre ++ [e]) (put_tuple e t st).
Proof.
  intros Hpre x [Hd Hr Hm Ho Ht Hi Hn Hdn] Hpos Hy. set (n' := if t is Some _ then unallocated st else S (unallocated st)).
  assert (unallocated st ≤ n')%nat as Hle by (unfold n'; destruct t; lia).
  assert (new_chain_tuples st !! e = None) as He by (rewrite eq_None_not_Some, Hd; done).
  assert (match x.1 with Existing c => c ∈ existing | Temporary i => (i < n')%nat end) as Hx.
  { unfold x, n'. destruct t as [y|]; cbn; [|lia]. destruct (Hy y eq_refl) as (p & mx & _ & _ & _ & H & _). done. }
  (* the number is above all of its chain *)
  assert (∀ mx, chain_to_max_seq_no st !! x.1 = Some mx → mx < x.2) as Habove.
  { intros mx Hmx. unfold x in *. destruct t as [y|]; cbn in *.
    - destruct (Hy y eq_refl) as (p & mx' & _ & Hmx' & ? & _). congruence.
    - specialize (Ht (unallocated st) (ex_intro _ mx Hmx)). lia. }
  assert (∀ a, new_chain_tuples st !! a ≠ Some x) as Hfresh.
  { intros a Ha. destruct x as [r s]. destruct (Hm a r s Ha) as (mx & Hmx & ?). specialize (Habove mx Hmx). cbn in *. lia. }
  split; cbn [put_tuple new_chain_tuples chain_to_max_seq_no unallocated]; fold x; fold n'.
  - intros a. rewrite lookup_insert_is_Some', Hd, elem_of_app, list_elem_of_singleton. naive_solver.
  - intros a r s [[<- E]|[_ Ha]]%lookup_insert_Some; [rewrite E in *; done|].
    destruct (Hr a r s Ha) as [? Hrf]. split; [done|]. destruct r; [done|lia].
  - intros a r s [[<- E]|[_ Ha]]%lookup_insert_Some.
    { rewrite E. cbn. rewrite lookup_insert_eq. eexists. split; [done|lia]. }
    destruct (Hm a r s Ha) as (mx & Hmx & ?). destruct (decide (r = x.1)) as [->|Hne].
    + rewrite lookup_insert_eq. eexists. split; [done|]. specialize (Habove mx Hmx). lia.
    + rewrite lookup_insert_ne by done. eauto.
  - intros a c s Ha Hc. destruct (Ho a c s Ha Hc) as (mx & Hmx & ?). destruct (decide (Existing c = x.1)) as [E|Hne].
    + rewrite E, lookup_insert_eq. eexists. split; [done|]. rewrite E in Hmx. specialize (Habove mx Hmx). lia.
    + rewrite lookup_insert_ne by done. eauto.
  - intros i. rewrite lookup_insert_is_Some'. intros [E|Hi']; [by rewrite E in Hx|]. specialize (Ht i Hi'). lia.
  - intros a b y [[<- <-]|[_ Ha]]%lookup_insert_Some [[<- E]|[_ Hb]]%lookup_insert_Some; [done|by destruct (Hfresh b)|by destruct (Hfresh a); rewrite E|by eapply Hi].
  - intros a b c s [[<- E]|[_ Ha]]%lookup_insert_Some Hb; [|by eapply Hn].
    rewrite E in Hx, Habove. cbn in Hx, Habove. destruct (Ho b c s Hb Hx) as (mx & Hmx & ?).
    specialize (Habove mx Hmx). lia.
  - intros a r s [[<- E]|[Hne Ha]]%lookup_insert_Some Hs.
    + destruct t as [y|]; [|unfold x in E; cbn in E; simplify_eq; lia]. unfold x in E. cbn in E. subst y.
      destruct (Hy _ eq_refl) as (p & mx & Hp & _ & _ & _ & Hpx). exists p. split; [done|]. cbn in Hpx.
      destruct Hpx as [Hpx|?]; [left|by right]. rewrite lookup_insert_ne; [done|]. intros <-. congruence.
    + destruct (Hdn a r s Ha Hs) as (p & Hp & Hpx). exists p. split; [done|].
      destruct Hpx as [Hpx|?]; [left|by right]. rewrite lookup_insert_ne; [done|]. intros <-. congruence.
Qed.

Lemma allocate_event_spec pre st e parent : e ∉ pre →
  (∀ a, parent = Some a → auth e a ∧ (a ∈ pre ∨ ∃ c s, cm !! a = Some (c, s) ∧ c ∈ existing)) →
  (∀ a, a ∈ pre → a ∈ N) →
  alloc_inv pre st → ∃ st', allocate_event cm st (e, parent) = Ok st' ∧ alloc_inv (pre ++ [e]) st'.
Proof.
  intros Hpre Hpar HN Hi. unfold allocate_event. cbn [fst snd].
  destruct parent as [a|]; cbn [existing_tuple].
  2: { cbn. eexists. split; [done|]. apply put_tuple_inv; [done|done|cbn; lia|done]. }
  destruct (Hpar a eq_refl) as [Ha Hor].
  assert (∃ y, existing_tuple cm st (Some a) = Ok (Some y) ∧ 0 < y.2 ∧
    (∃ mx, chain_to_max_seq_no st !! y.1 = Some mx) ∧
    match y.1 with Existing c => c ∈ existing | Temporary i => (i < unallocated st)%nat end ∧
    (new_chain_tuples st !! a = Some y ∨ ∃ c, y.1 = Existing c ∧ K !! a = Some (c, y.2))) as (y & Ey & Hpos & [mx Hmx] & Hy & Hay).
  { cbn [existing_tuple]. destruct (new_chain_tuples st !! a) as [[r s]|] eqn:E.
    - exists (r, s). destruct (al_ref _ _ Hi a r s E) as [? ?]. destruct (al_max _ _ Hi a r s E) as (mx & ? & _).
      split_and!; [done|done|by exists mx|done|by left].
    - destruct Hor as [Hap|(c & s & Hc & Hce)]; [apply (al_dom _ _ Hi) in Hap as [? ?]; congruence|].
      rewrite Hc. exists (Existing c, s). pose proof (lookup_weaken _ _ _ _ Hc cm_K) as HK. cbn.
      destruct (al_old _ _ Hi a c s HK Hce) as (mx & ? & _). pose proof (co_pos _ _ Kok a _ HK).
      split_and!; [done|done|by exists mx|done|]. right. by exists c. }
  cbn [existing_tuple] in Ey. rewrite Ey. cbn [mbind res_bind next_tuple]. rewrite Hmx. cbn [mbind res_bind].
  eexists. split; [done|]. destruct (Z.ltb_spec mx (y.2 + 1)) as [Hlt|Hge].
  - apply put_tuple_inv; [done|done|cbn; lia|]. intros y' [= <-]. cbn. exists a, mx.
    replace (y.2 + 1 - 1) with y.2 by lia. split_and!; [done|done|lia|done|].
    destruct Hay as [Hay|?]; [left; rewrite Hay; by destruct y|by right].
  - apply put_tuple_inv; [done|done|cbn; lia|done].
Qed.
End allocate.

(** ** The chain ids *)

Section ids.
Context (object_order : nat → list nat).
Hypothesis object_order_perm : ∀ n, object_order n ≡ₚ seq 0 n.

Lemma allocated_existing n ids (existing : gset Z) c : c ∈ existing →
  allocated_map object_order n ids existing !! Existing c = Some c.
Proof.
  intros Hc. unfold allocated_map. apply lookup_union_Some_l.
  rewrite <-elem_of_list_to_map.
  - apply list_elem_of_fmap. exists c. split; [done|by apply elem_of_elements].
  - rewrite <-list_fmap_compose. unfold compose. cbn. apply NoDup_fmap_2; [by intros ? ? [=]|apply NoDup_elements].
Qed.

(** New chains get ids from the sequence, each its own. *)
Lemma allocated_temporary n db (existing : gset Z) i : (i < n)%nat →
  ∃ j, (j < n)%nat ∧ object_order n !! j = Some i ∧
    allocated_map object_order n (get_next_mult_txn n db).1 existing !! Temporary i = Some (t_chain_id db + 1 + Z.of_nat j).
Proof.
  intros Hi. assert (i ∈ object_order n) as [j Hj]%list_elem_of_lookup by (rewrite object_order_perm; apply elem_of_seq; lia).
  assert (length (object_order n) = n) as Hlen by (rewrite object_order_perm; apply length_seq).
  pose proof (lookup_lt_Some _ _ _ Hj). exists j. split_and!; [lia|done|].
  unfold allocated_map. rewrite lookup_union_r.
  2: { apply not_elem_of_list_to_map. rewrite <-list_fmap_compose. intros (c & [=] & _)%list_elem_of_fmap. }
  rewrite <-elem_of_list_to_map.
  - apply list_elem_of_lookup. exists j. apply lookup_zip_Some. split; [by rewrite list_lookup_fmap, Hj|].
    cbn [fst get_next_mult_txn]. rewrite list_lookup_fmap, lookup_seq_lt by lia. done.
  - rewrite fst_zip; [|cbn; rewrite !length_fmap, length_seq; lia].
    apply NoDup_fmap_2; [by intros ? ? [=]|]. rewrite object_order_perm. apply NoDup_seq.
Qed.

Section result.
Context (auth : string → string → Prop) (depth : string → nat) (types : StrMap TypeKey) (auths : StrMap (list string)).
Context (N : StrSet) (cm : StrMap Coord) (db : AuthTables).
Abbreviation K := (t_chains db).
Hypothesis Kok : chains_ok auth K.
Hypothesis Hcm : cm ⊆ K.
Hypothesis HN : ∀ e, e ∈ N → K !! e = None.
Hypothesis Hauths : ∀ e a, e ∈ N → a ∈ default [] (auths !! e) → auth e a ∧ (a ∈ N ∨ is_Some (cm !! a)).
Hypothesis Hids : ∀ e x, K !! e = Some x → x.1 ≤ t_chain_id db.

Lemma allocate_tree_spec order existing :
  let tree := (λ e, (e, tree_parent types auths e)) <$> order in
  NoDup order → (∀ n, n ∈ order → n ∈ N) →
  (∀ pre n post a, order = pre ++ n :: post → a ∈ default [] (auths !! n) → a ∈ N → a ∈ pre) →
  existing = list_to_set (omap (tree_chain cm) tree) →
  ∃ st, foldM (allocate_event cm) (mkAllocation ∅ (map_fold (add_max existing) ∅ K) 0) tree = Ok st ∧
    alloc_inv auth K existing order st.
Proof.
  intros tree Hnd Hsub Hord Hex. destruct (max_fold_spec existing K) as [Hmax Htemp].
  set (M := map_fold (add_max existing) ∅ K) in *.
  destruct (foldM_total_prefix (λ pre st, alloc_inv auth K existing pre.*1 st) (allocate_event cm) (mkAllocation ∅ M 0) tree)
      as (st & Hok & Hi).
    - split; cbn [new_chain_tuples chain_to_max_seq_no unallocated].
      + intros e. rewrite lookup_empty. split; [by intros [? ?]|by intros ?%elem_of_nil].
      + intros ? ? ?. by rewrite lookup_empty.
      + intros ? ? ?. by rewrite lookup_empty.
      + done.
      + intros i. rewrite Htemp. by intros [? ?].
      + intros ? ? ?. by rewrite lookup_empty.
      + intros ? ? ? ?. by rewrite lookup_empty.
      + intros ? ? ?. by rewrite lookup_empty.
    - intros pre [e parent] post st E Hi. rewrite fmap_app.
      assert (∃ pre' post', order = pre' ++ e :: post' ∧ pre = (λ e, (e, tree_parent types auths e)) <$> pre' ∧
        parent = tree_parent types auths e) as (pre' & post' & Eo & -> & ->).
      { unfold tree in E. apply fmap_app_inv in E as (pre' & l & -> & El & ->). destruct l as [|e' l]; [done|].
        cbn in El. simplify_eq. eauto. }
      rewrite <-list_fmap_compose in *. cbn [fst]. unfold compose in *. rewrite list_fmap_id in *.
      rewrite Eo in Hnd. apply NoDup_app in Hnd as (_ & Hd & Hnd'). apply NoDup_cons in Hnd' as [Hne _].
      apply (allocate_event_spec auth K cm N existing Kok Hcm).
      + intros Hin. by apply (Hd e Hin); left.
      + intros a Ha. unfold tree_parent in Ha.
        assert (a ∈ default [] (auths !! e)) as Hae.
        { apply head_Some in Ha as [l Hl]. assert (a ∈ filter (λ a, types !! e = types !! a) (default [] (auths !! e))) as Hin
            by (rewrite Hl; by left). by apply list_elem_of_filter in Hin as [_ ?]. }
        assert (e ∈ N) as HeN by (apply Hsub; rewrite Eo; apply elem_of_app; right; by left).
        destruct (Hauths e a HeN Hae) as [? Hor]. split; [done|].
        destruct (decide (a ∈ N)) as [HaN|HaN]; [left; by eapply Hord|right].
        destruct Hor as [?|[[c s] Hc]]; [done|]. exists c, s. split; [done|].
        rewrite Hex. apply elem_of_list_to_set, list_elem_of_omap. exists (e, tree_parent types auths e).
        split; [unfold tree; apply list_elem_of_fmap; exists e; split; [done|rewrite Eo; apply elem_of_app; right; by left]|].
        unfold tree_chain. cbn [snd]. unfold tree_parent. rewrite Ha. by rewrite Hc.
      + intros a Ha. apply Hsub. rewrite Eo. apply elem_of_app. by left.
      + exact Hi.
    - exists st. split; [done|]. unfold tree in Hi. rewrite <-list_fmap_compose in Hi. unfold compose in Hi. cbn in Hi.
      by rewrite list_fmap_id in Hi.
Qed.

(** With their ids, the new chains are as the old ones. *)
Lemma real_tuples_spec order existing st (rho : ChainRef → Z) :
  alloc_inv auth K existing order st → (∀ e, e ∈ order ↔ e ∈ N) →
  (∀ c, c ∈ existing → rho (Existing c) = c ∧ c ≤ t_chain_id db) →
  (∀ i, (i < unallocated st)%nat → t_chain_id db < rho (Temporary i) ≤ t_chain_id db + Z.of_nat (unallocated st)) →
  (∀ i j, (i < unallocated st)%nat → (j < unallocated st)%nat → rho (Temporary i) = rho (Temporary j) → i = j) →
  let new := (λ x : ChainRef * Z, (rho x.1, x.2)) <$> new_chain_tuples st in
  (∀ e, is_Some (new !! e) ↔ e ∈ N) ∧ chains_ok auth (new ∪ K) ∧
  (∀ e x, (new ∪ K) !! e = Some x → x.1 ≤ t_chain_id db + Z.of_nat (unallocated st)).
Proof.
  intros [Hd Hr Hm Ho Ht Hi Hn Hdn] HoN Hex Htmp Hinj new.
  assert (∀ e y, new !! e = Some y ↔ ∃ r s, new_chain_tuples st !! e = Some (r, s) ∧ y = (rho r, s)) as Hnew.
  { intros e y. unfold new. rewrite lookup_fmap_Some. split; [intros ([r s] & <- & ?); eauto|].
    intros (r & s & ? & ->). by exists (r, s). }
  assert (∀ e, is_Some (new !! e) ↔ e ∈ N) as Hdom by (intros e; unfold new; by rewrite lookup_fmap, fmap_is_Some, Hd, HoN).
  assert (∀ e y, (new ∪ K) !! e = Some y ↔ new !! e = Some y ∨ K !! e = Some y) as Hun.
  { intros e y. rewrite lookup_union_Some_raw. split; [tauto|]. intros [?|Hk]; [by left|].
    destruct (new !! e) as [z|] eqn:E; [|by right]. rewrite (HN e) in Hk; [done|]. apply Hdom. eauto. }
  assert (∀ e r s, new_chain_tuples st !! e = Some (r, s) → rho r ≤ t_chain_id db + Z.of_nat (unallocated st)) as Hbound.
  { intros e r s He. destruct (Hr e r s He) as [_ Href]. destruct r as [c|i]; [|apply Htmp; done].
    destruct (Hex c Href) as [-> ?]. lia. }
  assert (∀ a b r s r' s', new_chain_tuples st !! a = Some (r, s) → new_chain_tuples st !! b = Some (r', s') →
    rho r = rho r' → r = r') as Hrho.
  { intros a b r s r' s' Ha Hb E. destruct (Hr a r s Ha) as [_ H1], (Hr b r' s' Hb) as [_ H2]. destruct r as [c|i], r' as [c'|i'].
    - destruct (Hex c H1), (Hex c' H2). f_equal. lia.
    - destruct (Hex c H1). specialize (Htmp i' H2). lia.
    - destruct (Hex c' H2). specialize (Htmp i H1). lia.
    - f_equal. by apply Hinj. }
  assert (∀ a b y, new !! a = Some y → K !! b ≠ Some y) as Hdisj.
  { intros a b y (r & s & Ha & ->)%Hnew Hb. destruct (Hr a r s Ha) as [_ Href]. destruct r as [c|i].
    - destruct (Hex c Href) as [E _]. rewrite E in Hb. by eapply Hn.
    - specialize (Hids b _ Hb). specialize (Htmp i Href). cbn in *. lia. }
  split_and!; [done| |].
  - split.
    + intros a b x [Ha|Ha]%Hun [Hb|Hb]%Hun; [|by destruct (Hdisj a b x)|by destruct (Hdisj b a x)|by eapply (co_inj _ _ Kok)].
      apply Hnew in Ha as (r & s & Ha & ->). apply Hnew in Hb as (r' & s' & Hb & [= Er Es]).
      assert (r = r') as <- by (by eapply Hrho). subst s'. by eapply Hi.
    + intros e x [(r & s & He & ->)%Hnew|He]%Hun; [by destruct (Hr e r s He)|by apply (co_pos _ _ Kok e)].
    + intros e c s [(r & s' & He & [= -> ->])%Hnew|He]%Hun Hs.
      * destruct (Hdn e r s' He Hs) as (p & Hp & Hpx). exists p. split; [|done]. apply Hun.
        destruct Hpx as [Hpx|(c' & -> & Hpx)]; [left; apply Hnew; eauto|right].
        destruct (Hr e _ _ He) as [_ Href]. by destruct (Hex c' Href) as [-> _].
      * destruct (co_down _ _ Kok e c s He Hs) as (p & Hp & ?). exists p. split; [apply Hun; by right|done].
  - intros e x [(r & s & He & ->)%Hnew|He]%Hun; [by apply (Hbound e r s)|]. specialize (Hids e x He). lia.
Qed.

Lemma allocate_chain_ids_spec :
  (∀ e a, auth e a → (depth a < depth e)%nat) →
  ∃ new n, _allocate_chain_ids object_order types auths N cm db = Ok (new, (get_next_mult_txn n db).2) ∧
    (∀ e, is_Some (new !! e) ↔ e ∈ N) ∧ chains_ok auth (new ∪ K) ∧
    (∀ e x, (new ∪ K) !! e = Some x → x.1 ≤ t_chain_id db + Z.of_nat n).
Proof.
  intros Hac. unfold _allocate_chain_ids.
  destruct (sorted_topologically_spec N auths) as (order & -> & Hnd & Hsub & Hord & Hcomp). cbn [mbind res_bind].
  set (tree := (λ e, (e, tree_parent types auths e)) <$> order).
  set (existing := list_to_set (omap (tree_chain cm) tree) : gset Z).
  destruct (allocate_tree_spec order existing Hnd Hsub Hord eq_refl) as (st & Hok & Hst). fold tree in Hok.
  rewrite Hok. cbn [mbind res_bind]. clear Hok.
  set (n := unallocated st). set (am := allocated_map object_order n (get_next_mult_txn n db).1 existing).
  set (rho := λ r, default 0 (am !! r)).
  assert (∀ c, c ∈ existing → am !! Existing c = Some c) as Hex by (intros; by apply allocated_existing).
  assert (∀ i, (i < n)%nat → ∃ j, (j < n)%nat ∧ object_order n !! j = Some i ∧ am !! Temporary i = Some (t_chain_id db + 1 + Z.of_nat j))
    as Htmp by (intros; by apply allocated_temporary).
  exists ((λ x : ChainRef * Z, (rho x.1, x.2)) <$> new_chain_tuples st), n. split.
  - assert (get_next_mult_txn n db = ((get_next_mult_txn n db).1, (get_next_mult_txn n db).2)) as -> by done.
    cbv beta iota zeta. fold am.
    assert (traverse (real_tuple am) (map_to_list (new_chain_tuples st)) =
      Ok (prod_map id (λ x : ChainRef * Z, (rho x.1, x.2)) <$> map_to_list (new_chain_tuples st))) as ->.
    { apply traverse_Ok, Forall2_fmap_r, Forall_Forall2_diag, Forall_forall.
      intros [e [r s]] He%elem_of_map_to_list. unfold real_tuple. cbn [fst snd prod_map].
      destruct (al_ref _ _ _ _ _ Hst e r s He) as [_ Href]. unfold rho. destruct r as [c|i]; cbn.
      - by rewrite (Hex c Href).
      - destruct (Htmp i Href) as (j & _ & _ & ->). done. }
    cbn [mbind res_bind]. do 2 f_equal. rewrite list_to_map_fmap, list_to_map_to_list. done.
  - apply (real_tuples_spec order existing st rho Hst).
    + intros e. split; [apply Hsub|]. apply (Hcomp depth). intros n' a Hn' Ha _. by apply Hac, Hauths.
    + intros c Hc. unfold rho. rewrite (Hex c Hc). split; [done|].
      apply elem_of_list_to_set, list_elem_of_omap in Hc as ([e [a|]] & _ & Hc); [|done]. unfold tree_chain in Hc. cbn in Hc.
      apply fmap_Some in Hc as ([c' s] & Hc & ->). cbn. by apply (Hids a (c', s)), (lookup_weaken cm).
    + intros i Hi. unfold rho. destruct (Htmp i Hi) as (j & ? & _ & ->). cbn. fold n. lia.
    + intros i i' Hi Hi' E. unfold rho in E. destruct (Htmp i Hi) as (j & _ & Hj & E1), (Htmp i' Hi') as (j' & _ & Hj' & E2).
      rewrite E1, E2 in E. cbn in E. assert (j = j') as -> by lia. congruence.
Qed.
End result.
End ids.
