(* ===== verification/ChainLinking.v ===== *)
(** * The links of new events

    The loop that links each new event to its auth events leaves out those that
    other auth events lead to; all of them are reached all the same. *)

From S2P Require Import Prelude PyOrd ChainLinks ChainIndex ChainCover ChainQueryProps.
From stdpp Require Import relations.
#[local] Open Scope Z_scope.

(** ** The link map *)

Lemma add_link_spec x y new m : x.1 ≠ y.1 →
  ∃ b m', add_link x y new m = Ok (b, m') ∧ ∀ u v, lm_link m' u v → lm_link m u v ∨ (u = x ∧ v = y).
Proof.
  intros Hne. destruct x as [cx sx], y as [cy sy]. cbn in Hne. unfold add_link.
  destruct (Z.eqb_spec cx cy) as [?|_]; [done|]. cbn [raise_if mbind res_bind].
  set (from_src := default ∅ (maps m !! cx)). set (cur := default ∅ (from_src !! cy)).
  destruct (new && existsb (crosses sx sy) (map_to_list cur)); eexists _, _; (split; [done|]);
    intros [cu su] [cv sv]; unfold lm_link; cbn [maps fst snd]; destruct (decide (cu = cx)) as [->|Hu];
    [|rewrite lookup_insert_ne by done; by left| |rewrite lookup_insert_ne by done; by left];
    rewrite lookup_insert_eq; cbn [default from_option id]; fold from_src;
    (destruct (decide (cv = cy)) as [->|Hv]; [|rewrite lookup_insert_ne by done; by left]);
    rewrite lookup_insert_eq; cbn [default from_option id]; fold cur.
  - by left.
  - intros [[-> ->]|[_ ?]]%lookup_insert_Some; [by right|by left].
Qed.

Lemma load_links_spec rows m links : batch_ok rows links → (∀ x y, (x, y) ∈ rows → x.1 ≠ y.1) →
  (∀ x y, lm_link m x y → (x, y) ∈ rows) →
  ∃ m', load_links m links = Ok m' ∧ ∀ x y, lm_link m' x y → (x, y) ∈ rows.
Proof.
  intros Hb Hne Hm. unfold load_links. apply (foldM_total (λ m, ∀ x y, lm_link m x y → (x, y) ∈ rows)); [done|].
  intros m1 [x y] Hin Hm1. apply list_elem_of_bind in Hin as ([c l] & Hin & Hl%elem_of_map_to_list).
  apply list_elem_of_fmap in Hin as ([s z] & [= -> ->] & Hz). cbn [fst snd].
  assert (((c, s), z) ∈ rows) as Hr.
  { apply (bo_rows _ _ Hb). unfold cl_link. cbn. by rewrite Hl. }
  destruct (add_link_spec (c, s) z false m1 (Hne _ _ Hr)) as (b & m' & E & Hm'). unfold load_link. cbn [fst snd].
  rewrite E. cbn. exists m'. split; [done|]. intros u v [?|[-> ->]]%Hm'; [by apply Hm1|done].
Qed.

Lemma new_link_map_spec db cm : (∀ x y, (x, y) ∈ t_links db → x.1 ≠ y.1) →
  ∃ m, new_link_map db cm = Ok m ∧ ∀ x y, lm_link m x y → (x, y) ∈ t_links db.
Proof.
  intros Hne. unfold new_link_map.
  destruct (get_chain_links_spec db (list_to_set ((map_to_list cm).*2.*1))) as (all & -> & Hall & _). cbn [mbind res_bind].
  apply (foldM_total (λ m, ∀ x y, lm_link m x y → (x, y) ∈ t_links db)).
  - intros [cx sx] [cy sy]. unfold lm_link. cbn. by rewrite !lookup_empty.
  - intros m links Hin Hm. rewrite Forall_forall in Hall. by apply (load_links_spec (t_links db)); [apply Hall| |].
Qed.

(** ** One event *)

Lemma elem_of_permutations2 (l : list string) x y : NoDup l → (x, y) ∈ permutations2 l → x ∈ l ∧ y ∈ l ∧ x ≠ y.
Proof.
  intros Hnd. unfold permutations2. rewrite list_elem_of_In, in_concat. intros (k & Hk & Hin).
  apply list_elem_of_In in Hk, Hin. apply list_elem_of_lookup in Hk as [i Hk]. rewrite list_lookup_imap in Hk.
  apply fmap_Some in Hk as (x' & Hx & ->). apply list_elem_of_fmap in Hin as (y' & [= -> ->] & Hy).
  apply list_elem_of_lookup in Hy as [j Hy].
  assert (∃ j', j' ≠ i ∧ l !! j' = Some y') as (j' & Hne & Hj').
  { destruct (decide (j < i)%nat).
    - exists j. split; [lia|]. by rewrite list_lookup_delete_lt in Hy.
    - exists (S j). split; [lia|]. by rewrite list_lookup_delete_ge in Hy by lia. }
  split_and!; [by eapply list_elem_of_lookup_2|by eapply list_elem_of_lookup_2|].
  intros ->. by apply Hne, (NoDup_lookup l j' i y').
Qed.

Section event.
Context (auth : string → string → Prop) (depth : string → nat) (K cm : StrMap Coord).
Hypothesis acyclic : ∀ e a, auth e a → (depth a < depth e)%nat.
Hypothesis Kok : chains_ok auth K.
Hypothesis cm_K : cm ⊆ K.

Lemma coord_of_cm a x : cm !! a = Some x → coord_of cm a = Ok x ∧ K !! a = Some x.
Proof. intros Ha. split; [unfold coord_of; by rewrite Ha|by eapply lookup_weaken]. Qed.

(** What is left out is reached from another auth event. *)
Lemma reduce_spec m (l : list string) red0 : links_ok auth K (lm_link m) → NoDup l →
  (∀ a, a ∈ l → is_Some (cm !! a)) →
  ∃ red, foldM (reduce_pair cm m) red0 (permutations2 l) = Ok red ∧ red ⊆ red0 ∧
    ∀ a, a ∈ red0 → a ∉ red → ∃ a' x' x, a' ∈ l ∧ a' ≠ a ∧ K !! a' = Some x' ∧ K !! a = Some x ∧ path (lm_link m) x' x.
Proof.
  intros Lok Hnd Hl.
  apply (foldM_total (λ red : StrSet, red ⊆ red0 ∧ ∀ a, a ∈ red0 → a ∉ red → ∃ a' x' x, a' ∈ l ∧ a' ≠ a ∧
    K !! a' = Some x' ∧ K !! a = Some x ∧ path (lm_link m) x' x)); [split; [done|]; by intros a ? ?|].
  intros red [p q] (Hp & Hq & Hne)%elem_of_permutations2 [Hsub Hred]; [|done].
  destruct (Hl p Hp) as [x Hx], (Hl q Hq) as [y Hy].
  destruct (coord_of_cm p x Hx) as [Ex Kx], (coord_of_cm q y Hy) as [Ey Ky].
  destruct (exists_path_from_spec m x y) as (b & Eb & Hb).
  { intros u v. apply (link_positive auth K _ Kok Lok). }
  { apply (hops_return auth depth acyclic K _ Kok Lok). }
  { by apply (co_pos _ _ Kok p). }
  unfold reduce_pair. cbn [fst snd]. rewrite Ex. cbn [mbind res_bind]. rewrite Ey. cbn [mbind res_bind]. rewrite Eb.
  eexists. split; [done|]. destruct b; [|done]. split; [set_solver|].
  intros a Ha Hn. destruct (decide (a = q)) as [->|Haq]; [|apply Hred; [done|set_solver]].
  exists p, x, y. split_and!; try done. by apply Hb.
Qed.

Definition with_links (L : Links) (x : Coord) (ys : list Coord) : Links := λ u v, L u v ∨ (u = x ∧ v ∈ ys).

Lemma link_to_spec m x (red : list string) : (∀ a, a ∈ red → ∃ y, cm !! a = Some y ∧ y.1 ≠ x.1) →
  ∃ ys m', foldM (link_to cm x) ([], m) red = Ok (ys, m') ∧
    (∀ y, y ∈ ys ↔ ∃ a, a ∈ red ∧ cm !! a = Some y) ∧
    ∀ u v, lm_link m' u v → with_links (lm_link m) x ys u v.
Proof.
  intros Hred.
  destruct (foldM_total_prefix (λ pre (acc : list Coord * LinkMap),
    (∀ y, y ∈ acc.1 ↔ ∃ a, a ∈ pre ∧ cm !! a = Some y) ∧
    ∀ u v, lm_link acc.2 u v → with_links (lm_link m) x acc.1 u v) (link_to cm x) ([], m) red) as ([ys m'] & Hok & H1 & H2).
  - split; cbn; [|by left]. intros y. rewrite elem_of_nil. split; [done|]. by intros (a & ?%elem_of_nil & _).
  - intros pre a post [ys m1] E [H1 H2]. destruct (Hred a) as (y & Hy & Hne); [rewrite E; apply elem_of_app; right; by left|].
    unfold link_to. destruct (coord_of_cm a y Hy) as [-> _]. cbn [mbind res_bind fst snd].
    destruct (add_link_spec x y true m1) as (b & m2 & -> & Hm2); [done|]. cbn [mbind res_bind fst snd].
    eexists. split; [done|]. cbn in *. split.
    + intros z. rewrite elem_of_app, list_elem_of_singleton, H1. setoid_rewrite elem_of_app. setoid_rewrite list_elem_of_singleton. naive_solver.
    + intros u v [Hl|[-> ->]]%Hm2; [destruct (H2 u v Hl) as [?|[-> ?]]; [by left|right]|right]; (split; [done|]);
        apply elem_of_app; [by left|right; by left].
  - eauto.
Qed.

Lemma event_links_spec auths ret m e x : links_ok auth K (lm_link m) →
  cm !! e = Some x → NoDup (default [] (auths !! e)) →
  (∀ a, a ∈ default [] (auths !! e) → auth e a ∧ is_Some (cm !! a)) →
  ∃ ys m', event_links auths cm (ret, m) e = Ok (<[e := mkNewLinks x ys]> ret, m') ∧
    (∀ y, y ∈ ys → ∃ a, auth e a ∧ K !! a = Some y ∧ x.1 ≠ y.1) ∧
    (∀ u v, lm_link m' u v → with_links (lm_link m) x ys u v) ∧
    (∀ a y, a ∈ default [] (auths !! e) → K !! a = Some y → path (with_links (lm_link m) x ys) x y).
Proof.
  intros Lok He Hnd Hl. set (l := default [] (auths !! e)) in *. unfold event_links.
  destruct (coord_of_cm e x He) as [-> Ke]. cbn [mbind res_bind]. fold l.
  assert (traverse (coord_of cm) l = Ok ((λ a, default (0, 0) (cm !! a)) <$> l)) as ->.
  { apply traverse_Ok, Forall2_fmap_r, Forall_Forall2_diag, Forall_forall. intros a Ha.
    destruct (Hl a Ha) as [_ [y Hy]]. unfold compose, coord_of. by rewrite Hy. }
  cbn [mbind res_bind].
  set (red0 := list_to_set _ : StrSet).
  assert (∀ a, a ∈ red0 ↔ a ∈ l ∧ ∃ y, cm !! a = Some y ∧ y.1 ≠ x.1) as Hred0.
  { intros a. unfold red0. rewrite elem_of_list_to_set, list_elem_of_fmap. split.
    - intros ([a' y] & -> & [Hy Hin]%list_elem_of_filter). apply list_elem_of_lookup in Hin as [i Hin].
      apply lookup_zip_Some in Hin as [Hi1 Hi2]. rewrite list_lookup_fmap, Hi1 in Hi2. cbn in *. simplify_eq.
      assert (a' ∈ l) as Ha by (by eapply list_elem_of_lookup_2). split; [done|].
      destruct (Hl a' Ha) as [_ [y Hy']]. rewrite Hy' in *. eauto.
    - intros (Ha & y & Hy & Hne). exists (a, y). split; [done|]. apply list_elem_of_filter. split; [done|].
      apply list_elem_of_lookup in Ha as [i Hi]. apply list_elem_of_lookup. exists i. apply lookup_zip_Some.
      split; [done|]. by rewrite list_lookup_fmap, Hi; cbn; rewrite Hy. }
  destruct (reduce_spec m l red0 Lok Hnd) as (red & -> & Hsub & Hout); [by intros; apply Hl|]. cbn [mbind res_bind].
  destruct (link_to_spec m x (elements red)) as (ys & m' & -> & Hys & Hm').
  { intros a Ha%elem_of_elements. by apply Hsub, Hred0 in Ha as [_ ?]. }
  cbn [mbind res_bind]. exists ys, m'. split_and!; [done| |done|].
  - intros y (a & Ha%elem_of_elements & Hy)%Hys. apply Hsub, Hred0 in Ha as (Hal & y' & Hy' & Hne). assert (y' = y) as -> by congruence.
    exists a. destruct (Hl a Hal) as [? _]. destruct (coord_of_cm a y Hy). done.
  - intros a y Ha Hy. remember (depth e - depth a)%nat as k eqn:Ek. revert a y Ha Hy Ek.
    induction (lt_wf k) as [k _ IH]. intros a y Ha Hy ->. destruct (Hl a Ha) as [Hae [y' Hy']].
    destruct (coord_of_cm a y' Hy') as [_ Ky']. simplify_eq.
    destruct (decide (y.1 = x.1)) as [Hsame|Hdiff].
    { destruct x as [cx sx], y as [cy sy]. cbn in Hsame. subst cy. apply path_same.
      pose proof (same_chain_auth auth depth acyclic K Kok e a cx sx sy Ke Hy Hae). lia. }
    assert (a ∈ red0) as Har by (apply Hred0; eauto).
    destruct (decide (a ∈ red)) as [Hin|Hn].
    { apply path_link. right. split; [done|]. apply Hys. exists a. by rewrite elem_of_elements. }
    destruct (Hout a Har Hn) as (a' & u & v & Ha' & Hne & Hu & Hv & Hp). assert (v = y) as -> by congruence.
    destruct (Hl a' Ha') as [Hae' _].
    assert (depth a < depth a')%nat as Hlt.
    { pose proof (path_sound auth K _ Kok Lok a' a u y Hu Hv Hp) as [->|Ht]%rtc_tc; [done|]. by apply (tc_depth auth depth acyclic). }
    pose proof (acyclic e a' Hae'). trans u; [eapply (IH (depth e - depth a')%nat); [lia|exact Ha'|exact Hu|done]|].
    eapply path_mono; [|exact Hp]. intros b c Hbc. apply path_link. by left.
Qed.
End event.

(** ** All new events *)

Definition new_links (ret : StrMap NewEventChainLinks) : Links := λ x y,
  ∃ e n, ret !! e = Some n ∧ n_coord n = x ∧ y ∈ n_links n.
Definition joined_links (rows : list (Coord * Coord)) (ret : StrMap NewEventChainLinks) : Links := λ x y,
  row_link rows x y ∨ new_links ret x y.

Section events.
Context (auth : string → string → Prop) (depth : string → nat) (K cm new : StrMap Coord).
Context (rows : list (Coord * Coord)) (auths : StrMap (list string)).
Hypothesis acyclic : ∀ e a, auth e a → (depth a < depth e)%nat.
Hypothesis Kok : chains_ok auth K.
Hypothesis cm_K : cm ⊆ K.
Hypothesis new_cm : new ⊆ cm.
Hypothesis rows_ok : links_ok auth K (row_link rows).
Hypothesis auths_ok : ∀ e, is_Some (new !! e) → NoDup (default [] (auths !! e)) ∧
  (∀ a, a ∈ default [] (auths !! e) ↔ auth e a) ∧ (∀ a, auth e a → is_Some (cm !! a)).

Record link_inv (pre : list string) (acc : StrMap NewEventChainLinks * LinkMap) : Prop := mkLinkInv {
  li_coord : n_coord <$> acc.1 = new;
  li_rest e n : acc.1 !! e = Some n → e ∉ pre → n_links n = [];
  li_links : links_ok auth K (joined_links rows acc.1);
  li_map x y : lm_link acc.2 x y → joined_links rows acc.1 x y;
  li_auth e : e ∈ pre → reaches_auth auth K (joined_links rows acc.1) e
}.

Lemma link_event_inv pre e acc : is_Some (new !! e) → e ∉ pre → link_inv pre acc →
  ∃ acc', event_links auths cm acc e = Ok acc' ∧ link_inv (pre ++ [e]) acc'.
Proof.
  intros He Hpre [Hco Hre Hli Hma Hau]. destruct acc as [ret m]. cbn [fst snd] in *.
  destruct (auths_ok e He) as (Hnd & Hiff & Hcm). destruct He as [x Hx].
  assert (∃ n, ret !! e = Some n ∧ n_coord n = x) as (n & Hn & Hnx).
  { rewrite <-Hco, lookup_fmap in Hx. apply fmap_Some in Hx as (n & ? & ->). eauto. }
  destruct (event_links_spec auth depth K cm acyclic Kok cm_K auths ret m e x) as (ys & m' & Hok & Hys & Hm' & Hp).
  { intros u v Huv%Hma. by apply Hli. }
  { by eapply lookup_weaken. }
  { done. }
  { intros a Ha. split; [by apply Hiff|]. by apply Hcm, Hiff. }
  eexists. split; [done|]. set (ret' := <[e := mkNewLinks x ys]> ret).
  assert (∀ u v, joined_links rows ret u v → joined_links rows ret' u v) as Hmono.
  { intros u v [?|(e' & n' & He' & Hu & Hv)]; [by left|right]. exists e', n'. split; [|done]. unfold ret'.
    rewrite lookup_insert_ne; [done|]. intros <-. assert (n' = n) as -> by congruence. rewrite (Hre e n Hn Hpre) in Hv. by apply elem_of_nil in Hv. }
  assert (∀ u v, joined_links rows ret' u v → joined_links rows ret u v ∨ (u = x ∧ v ∈ ys)) as Hinv.
  { intros u v [?|(e' & n' & He' & Hu & Hv)]; [left; by left|]. apply lookup_insert_Some in He' as [[<- <-]|[_ He']].
    - right. by cbn in *.
    - left. right. by exists e', n'. }
  assert (∀ y, y ∈ ys → joined_links rows ret' x y) as Hnew.
  { intros y Hy. right. exists e, (mkNewLinks x ys). split; [apply lookup_insert_eq|done]. }
  split; cbn [fst snd].
  - unfold ret'. rewrite fmap_insert, Hco. cbn. by apply insert_id.
  - intros e' n' [[<- <-]|[Hne He']]%lookup_insert_Some Hnin; (rewrite elem_of_app, list_elem_of_singleton in Hnin).
    + tauto.
    + apply (Hre e' n' He'). tauto.
  - intros u v [Hl|[-> Hv]]%Hinv; [by apply Hli|]. destruct (Hys v Hv) as (a & Ha & HKa & Hne). exists e, a.
    split_and!; [|done|done|done]. eapply lookup_weaken; [|exact cm_K]. by eapply lookup_weaken.
  - intros u v [Hl|[-> Hv]]%Hm'; [by apply Hmono, Hma|by apply Hnew].
  - intros e' [Hin| ->%list_elem_of_singleton]%elem_of_app z a Hz Ha.
    + destruct (Hau e' Hin z a Hz Ha) as (y & Hy & Hpa). exists y. split; [done|]. eapply path_mono; [|exact Hpa].
      intros b c Hbc. by apply path_link, Hmono.
    + assert (z = x) as ->.
      { assert (K !! e = Some x) by (eapply lookup_weaken; [|exact cm_K]; by eapply lookup_weaken). congruence. }
      destruct (Hcm a Ha) as [y Hy]. pose proof (lookup_weaken _ _ _ _ Hy cm_K) as HKy. exists y. split; [done|].
      eapply path_mono; [|apply (Hp a y); [by apply Hiff|done]]. intros b c [Hbc|[-> Hc]]; apply path_link; [by apply Hmono, Hma|by apply Hnew].
Qed.

Lemma link_events_spec order m : NoDup order → (∀ e, e ∈ order → is_Some (new !! e)) →
  (∀ x y, lm_link m x y → row_link rows x y) →
  ∃ ret m', foldM (event_links auths cm) ((λ x, mkNewLinks x []) <$> new, m) order = Ok (ret, m') ∧
    n_coord <$> ret = new ∧ links_ok auth K (joined_links rows ret) ∧
    ∀ e, e ∈ order → reaches_auth auth K (joined_links rows ret) e.
Proof.
  intros Hnd Hnew Hm.
  assert (∀ x y, joined_links rows ((λ x, mkNewLinks x []) <$> new) x y → row_link rows x y) as Hstart.
  { intros x y [?|(e & n & He & _ & Hy)]; [done|]. rewrite lookup_fmap in He. apply fmap_Some in He as (z & _ & ->).
    by apply elem_of_nil in Hy. }
  destruct (foldM_total_prefix link_inv (event_links auths cm) ((λ x, mkNewLinks x []) <$> new, m) order)
    as ([ret m'] & Hok & [Hco _ Hli _ Hau]).
  - split; cbn [fst snd].
    + rewrite <-map_fmap_compose. apply map_fmap_id.
    + intros e n. rewrite lookup_fmap. by intros (z & _ & ->)%fmap_Some.
    + intros x y ?%Hstart. by apply rows_ok.
    + intros x y ?. left. by apply Hm.
    + by intros e ?%elem_of_nil.
  - intros pre e post acc E Hi. apply link_event_inv; [..|done].
    + apply Hnew. rewrite E. apply elem_of_app. right. by left.
    + rewrite E in Hnd. apply NoDup_app in Hnd as (_ & Hnd & _). intros Hin. by apply (Hnd e Hin); left.
  - exists ret, m'. by split_and!.
Qed.
End events.
