(* ===== verification/ChainFetch.v ===== *)
(** * Which events can be indexed

    The first half of [_calculate_chain_cover_index]: it adds the events that
    were left for later, fetches the auth events it has not got, and leaves out
    the events whose auth chains are not all there. *)

From S2P Require Import Prelude PyOrd ChainLinks ChainIndex ChainCover ChainFixup ChainTopo.
From stdpp Require Import relations.
#[local] Open Scope Z_scope.

Section fetch.
(** The auth events with those of the events being persisted, which are [B]. *)
Context (auth : string → string → Prop) (types : string → TypeKey) (B : StrSet) (db : AuthTables).
Abbreviation K := (t_chains db).
Abbreviation stored e := (is_Some (t_events db !! e)).
Hypothesis stored_auth : ∀ e a, stored e → auth e a ↔ (e, a) ∈ t_event_auth db.
Hypothesis stored_types : ∀ e tk, t_events db !! e = Some tk → tk = types e.
Hypothesis stored_nodup : ∀ e, NoDup (select_auth db e).

Record calc_inv (st : calculation) : Prop := mkCalcInv {
  ci_dom e : is_Some (event_to_auth_chain st !! e) ↔ e ∈ events_to_calc st;
  ci_new e : e ∈ events_to_calc st → K !! e = None;
  ci_auth e l : event_to_auth_chain st !! e = Some l → NoDup l ∧ ∀ a, a ∈ l ↔ auth e a;
  ci_map : chain_map st ⊆ K;
  ci_types e : is_Some (event_to_types st !! e) ↔ e ∈ events_to_calc st ∨ is_Some (chain_map st !! e);
  ci_tk e tk : event_to_types st !! e = Some tk → tk = types e;
  ci_known e : e ∈ events_to_calc st → e ∈ B ∨ stored e;
  ci_batch e : e ∈ B → e ∈ events_to_calc st
}.

Lemma select_auth_spec e : stored e → NoDup (select_auth db e) ∧ ∀ a, a ∈ select_auth db e ↔ auth e a.
Proof.
  intros He. split; [apply stored_nodup|]. intros a. rewrite (stored_auth e a He). unfold select_auth.
  rewrite list_elem_of_fmap. split.
  - intros ([e' a'] & -> & [Hr Hin]%list_elem_of_filter). cbn in *. by subst.
  - intros Hin. exists (e, a). by rewrite list_elem_of_filter.
Qed.

Lemma calc_event_inv e tk st : stored e → tk = types e → K !! e = None → calc_inv st → calc_inv (calc_event db e tk st).
Proof.
  intros He Htk Hk [Hd Hn Ha Hm Ht Htks Hkn Hb]. split; cbn [calc_event event_to_types event_to_auth_chain chain_map events_to_calc].
  - intros e'. rewrite lookup_insert_is_Some', Hd. set_solver.
  - intros e' [->%elem_of_singleton|?]%elem_of_union; [done|by apply Hn].
  - intros e' l [[<- <-]|[_ ?]]%lookup_insert_Some; [by apply select_auth_spec|by apply Ha].
  - done.
  - intros e'. rewrite lookup_insert_is_Some', Ht. set_solver.
  - intros e' tk' [[<- <-]|[_ ?]]%lookup_insert_Some; [done|by apply Htks].
  - intros e' [->%elem_of_singleton|?]%elem_of_union; [by right|by apply Hkn].
  - intros e' ?%Hb. set_solver.
Qed.

(** The auth events that are neither at hand nor asked for are unknown. *)
Definition asked (st : calculation) (missing : StrSet) : Prop := ∀ e a, e ∈ events_to_calc st → auth e a →
  is_Some (event_to_types st !! a) ∨ a ∈ missing ∨ ¬ stored a.

(** One row, while [missing] is rebuilt as [missing']. *)
Record fetch_inv (missing : StrSet) (pre : list string) (st : calculation) (missing' : StrSet) : Prop := mkFetchInv {
  fi_calc : calc_inv st;
  fi_asked e a : e ∈ events_to_calc st → auth e a →
    is_Some (event_to_types st !! a) ∨ (a ∈ missing ∧ a ∉ pre) ∨ a ∈ missing' ∨ ¬ stored a;
  fi_pre e : e ∈ pre → is_Some (event_to_types st !! e)
}.

Lemma fetch_row_inv missing pre st missing' e tk : t_events db !! e = Some tk →
  fetch_inv missing pre st missing' →
  let r := fetch_row db (st, missing') (e, tk) in fetch_inv missing (pre ++ [e]) r.1 r.2.
Proof.
  intros He [Hc Hask Hpre]. cbn [fetch_row]. assert (stored e) as Hs by eauto.
  assert (∀ a, a ∉ pre ++ [e] ↔ (a ∉ pre) ∧ a ≠ e) as Happ by (intros a; rewrite elem_of_app, list_elem_of_singleton; tauto).
  destruct (K !! e) as [x|] eqn:Ek; cbn [fst snd].
  - destruct Hc as [Hd Hn Ha Hm Ht Htks Hkn Hb]. split.
    + split; cbn [event_to_types event_to_auth_chain chain_map events_to_calc]; try done.
      * apply insert_subseteq_l; done.
      * intros e'. rewrite !lookup_insert_is_Some', Ht. naive_solver.
      * intros e' tk' [[<- <-]|[_ ?]]%lookup_insert_Some; [by apply stored_types|by apply Htks].
    + intros e' a He' Hae. cbn [event_to_types events_to_calc] in *. rewrite lookup_insert_is_Some', Happ.
      destruct (decide (a = e)) as [->|Hne]; [left; by left|]. destruct (Hask e' a He' Hae) as [?|[[? ?]|[?|?]]]; tauto.
    + intros e' [?| ->%list_elem_of_singleton]%elem_of_app; cbn; rewrite lookup_insert_is_Some'; [right; by apply Hpre|by left].
  - split; [apply calc_event_inv; eauto| |].
    + intros e' a He' Hae. cbn [calc_event event_to_types events_to_calc] in *. rewrite Happ.
      destruct (decide (is_Some (<[e:=tk]> (event_to_types st) !! a))) as [?|Hno]; [by left|right].
      assert (a ≠ e ∧ ¬ is_Some (event_to_types st !! a)) as [Hne Hno'] by (rewrite lookup_insert_is_Some' in Hno; naive_solver).
      apply elem_of_union in He' as [->%elem_of_singleton|He'].
      * right; left. apply elem_of_union_r, elem_of_list_to_set, list_elem_of_filter.
        split; [by apply eq_None_not_Some|]. by apply select_auth_spec.
      * destruct (Hask e' a He' Hae) as [?|[[? ?]|[?|?]]]; [done|by left|right; left; set_solver|by right; right].
    + intros e' [?| ->%list_elem_of_singleton]%elem_of_app; cbn; rewrite lookup_insert_is_Some'; [right; by apply Hpre|by left].
Qed.

Lemma fetch_rows_inv missing st rows : (∀ e tk, (e, tk) ∈ rows → t_events db !! e = Some tk) →
  calc_inv st → asked st missing →
  let r := foldl (fetch_row db) (st, ∅) rows in fetch_inv missing rows.*1 r.1 r.2.
Proof.
  intros Hrows Hc Hask. cut (∀ post pre st missing', rows = pre ++ post → fetch_inv missing pre.*1 st missing' →
    let r := foldl (fetch_row db) (st, missing') post in fetch_inv missing rows.*1 r.1 r.2).
  { intros Hcut. apply (Hcut rows []); [done|]. split; [done| |by intros ? ?%elem_of_nil].
    intros e a He Ha. destruct (Hask e a He Ha) as [?|[?|?]]; [by left|right; left; split; [done|apply not_elem_of_nil]|tauto]. }
  induction post as [|[e tk] post IH]; intros pre st' missing' E Hi; cbn [foldl]; [by rewrite E, app_nil_r|].
  pose proof (fetch_row_inv missing pre.*1 st' missing' e tk) as Hrow. cbv zeta in Hrow.
  destruct (fetch_row db (st', missing') (e, tk)) as [st'' missing''].
  apply (IH (pre ++ [(e, tk)])); [by rewrite <-app_assoc|]. rewrite fmap_app. apply Hrow; [|done].
  apply Hrows. rewrite E. apply elem_of_app. right. by left.
Qed.

(** *** The rounds end *)

Definition untyped (st : calculation) : StrSet := filter (λ e, event_to_types st !! e = None) (dom (t_events db)).
Definition fetch_rank (st : calculation) (missing : StrSet) : nat :=
  size (untyped st) + (if decide (missing = ∅) then 0 else if decide (missing ∩ dom (t_events db) = ∅) then 1 else 2).

(** Types are only added. *)
Lemma fetch_rows_types rows st missing' e : is_Some (event_to_types st !! e) →
  is_Some (event_to_types (foldl (fetch_row db) (st, missing') rows).1 !! e).
Proof.
  revert st missing'. induction rows as [|[a tk] rows IH]; intros st missing' He; [done|]. cbn [foldl fetch_row].
  destruct (K !! a); apply IH; cbn; rewrite lookup_insert_is_Some'; by right.
Qed.

(** What is asked for next is an auth event, untyped when it was asked for. *)
Lemma fetch_rows_missing rows st missing' a : a ∈ (foldl (fetch_row db) (st, missing') rows).2 →
  a ∈ missing' ∨ (event_to_types st !! a = None ∧ ∃ e tk, (e, tk) ∈ rows ∧ K !! e = None ∧ a ∈ select_auth db e).
Proof.
  revert st missing'. induction rows as [|[e tk] rows IH]; intros st missing' Ha; [by left|]. cbn [foldl fetch_row] in Ha.
  destruct (K !! e) as [x|] eqn:Ek; apply IH in Ha as [Ha|(Hn & e' & tk' & ? & ? & ?)].
  - by left.
  - right. cbn in Hn. apply lookup_insert_None in Hn as [? _]. split; [done|]. exists e', tk'. split; [by right|done].
  - apply elem_of_union in Ha as [?|Ha]; [by left|right]. apply elem_of_list_to_set, list_elem_of_filter in Ha as [Hn Ha].
    cbn in Hn. apply lookup_insert_None in Hn as [? _]. split; [done|]. exists e, tk. split; [by left|done].
  - right. cbn in Hn. apply lookup_insert_None in Hn as [? _]. split; [done|]. exists e', tk'. split; [by right|done].
Qed.

Lemma fetch_round st missing : calc_inv st → asked st missing → missing ≠ ∅ →
  let rows := map_to_list (filter (λ kv : string * TypeKey, kv.1 ∈ missing) (t_events db)) in
  let r := foldl (fetch_row db) (st, ∅) rows in
  calc_inv r.1 ∧ asked r.1 r.2 ∧ (fetch_rank r.1 r.2 < fetch_rank st missing)%nat.
Proof.
  intros Hc Hask Hne rows r.
  assert (∀ e tk, (e, tk) ∈ rows ↔ e ∈ missing ∧ t_events db !! e = Some tk) as Hrows.
  { intros e tk. unfold rows. rewrite elem_of_map_to_list, map_lookup_filter_Some. tauto. }
  pose proof (fetch_rows_inv missing st rows ltac:(by intros ? ? [_ ?]%Hrows) Hc Hask) as [Rc Ra Rp]. fold r in Rc, Ra, Rp.
  assert (∀ e, e ∈ rows.*1 ↔ e ∈ missing ∧ stored e) as Hrows1.
  { intros e. rewrite list_elem_of_fmap. split; [by intros ([e' tk] & -> & [? ?]%Hrows); eauto|].
    intros [? [tk ?]]. exists (e, tk). split; [done|]. by apply Hrows. }
  assert (untyped r.1 ⊆ untyped st) as Hsub.
  { intros e. unfold untyped. rewrite !elem_of_filter. intros [Hn ?]. split; [|done].
    destruct (event_to_types st !! e) eqn:E; [|done].
    destruct (fetch_rows_types rows st ∅ e) as [tk' Htk']; [eauto|]. fold r in Htk'. congruence. }
  split_and!; [done| |].
  - intros e a He Ha. destruct (Ra e a He Ha) as [?|[[? Hn]|[?|?]]]; [by left| |tauto|tauto].
    destruct (decide (stored a)) as [?|?]; [|tauto]. destruct Hn. by apply Hrows1.
  - unfold fetch_rank. rewrite (decide_False (P := missing = ∅)) by done.
    destruct (decide (missing ∩ dom (t_events db) = ∅)) as [Hnone|Hsome].
    { assert (rows = []) as Er.
      { destruct rows as [|[e tk] rows']; [done|]. assert ((e, tk) ∈ (e, tk) :: rows') as [? ?]%Hrows by (by left).
        assert (e ∈ missing ∩ dom (t_events db)) as He; [|rewrite Hnone in He; by apply elem_of_empty in He].
        apply elem_of_intersection. split; [done|]. apply elem_of_dom. eauto. }
      unfold r. rewrite Er. cbn [foldl fst snd]. rewrite decide_True by done. lia. }
    destruct (decide (untyped r.1 = untyped st)) as [Eq|Hlt].
    + rewrite Eq. assert (r.2 ∩ dom (t_events db) = ∅) as ->; [|rewrite (decide_True (P := ∅ = ∅)) by done; case_decide; lia].
      apply set_eq. intros a. split; [|by intros ?%elem_of_empty].
      intros [Ha Hst%elem_of_dom]%elem_of_intersection. exfalso.
      apply fetch_rows_missing in Ha as [?%elem_of_empty|(Hn & e & tk & [Hem He]%Hrows & Hk & Hae)]; [done|].
      (* the event asked about was at hand already *)
      assert (∀ b, b ∈ missing → stored b → is_Some (event_to_types st !! b)) as Htyped.
      { intros b Hb Hbs. destruct (event_to_types st !! b) eqn:Eb; [eauto|].
        assert (b ∈ untyped r.1) as Hbu by (rewrite Eq; unfold untyped; rewrite elem_of_filter, elem_of_dom; done).
        unfold untyped in Hbu. apply elem_of_filter in Hbu as [Hbn _].
        destruct (Rp b) as [? ?]; [by apply Hrows1|]. congruence. }
      assert (e ∈ events_to_calc st) as Hec.
      { assert (is_Some (event_to_types st !! e)) as [?|Hcm]%(ci_types _ Hc) by (apply Htyped; eauto); [done|].
        destruct Hcm as [y Hy]. pose proof (lookup_weaken _ _ _ _ Hy (ci_map _ Hc)). congruence. }
      apply select_auth_spec in Hae; [|eauto].
      destruct (Hask e a Hec Hae) as [[? ?]|[Ham|?]]; [congruence| |done].
      destruct (Htyped a Ham Hst). congruence.
    + assert (untyped r.1 ⊂ untyped st) as Hs%subset_size by (apply strict_spec_alt; done).
      repeat case_decide; lia.
Qed.

Lemma fetch_missing_spec fuel st missing : (fetch_rank st missing ≤ fuel)%nat → calc_inv st → asked st missing →
  ∃ st', fetch_missing fuel db st missing = Ok st' ∧ calc_inv st' ∧ asked st' ∅.
Proof.
  revert st missing. induction fuel as [|fuel IH]; intros st missing Hf Hc Ha; cbn [fetch_missing];
    destruct (decide (missing = ∅)) as [->|Hne].
  1,3: by exists st.
  { unfold fetch_rank in Hf. rewrite decide_False in Hf by done. case_decide; lia. }
  pose proof (fetch_round st missing Hc Ha Hne) as (H1 & H2 & H3). cbv zeta in H1, H2, H3.
  destruct (foldl _ _ _) as [st' missing']. apply IH; [cbn in *; lia|done|done].
Qed.
End fetch.

(** ** The events left for later

    The loop over the events in order of their auth events that leaves out the
    events whose auth chains are not all there. *)

Section check.
Context (auth : string → string → Prop) (types : string → TypeKey) (depth : string → nat) (B : StrSet) (db : AuthTables).
Context (rooms : StrMap string) (st : calculation) (T : StrMap (string * TypeKey)).
Abbreviation E := (events_to_calc st).
Hypothesis acyclic : ∀ e a, auth e a → (depth a < depth e)%nat.
Hypothesis st_ok : calc_inv auth types B db st.
Hypothesis rooms_dom : dom rooms ⊆ B.
Hypothesis rooms_full : ∀ e r, rooms !! e = Some r → r ≠ "".

(** The auth events of [e] are indexed or will be. *)
Definition ready (events : StrSet) (e : string) : Prop :=
  ∀ a, auth e a → is_Some (chain_map st !! a) ∨ a ∈ events.

(** The row of an event left for later. *)
Definition left_row (events : StrSet) (e : string) : option (string * TypeKey) :=
  if decide (e ∈ events) then T !! e else
  match rooms !! e, event_to_types st !! e with
  | Some r, Some tk => Some (r, tk)
  | _, _ => T !! e
  end.

Record check_inv (pre : list string) (acc : StrSet * StrMap (string * TypeKey)) : Prop := mkCheckInv {
  ck_sub e : e ∈ acc.1 → e ∈ E;
  ck_rest e : e ∈ E → e ∉ pre → e ∈ acc.1;
  ck_ready e : e ∈ pre → e ∈ acc.1 ↔ ready acc.1 e;
  ck_rows e : acc.2 !! e = if decide (e ∈ pre) then left_row acc.1 e else T !! e
}.

Lemma ready_spec events e l : event_to_auth_chain st !! e = Some l →
  existsb (λ a, bool_decide (chain_map st !! a = None) && bool_decide (a ∉ events)) l = false ↔ ready events e.
Proof.
  intros Hl. destruct (ci_auth _ _ _ _ _ st_ok e l Hl) as [_ Ha]. rewrite <-not_true_iff_false, existsb_exists. split.
  - intros Hno a Hea%Ha. destruct (chain_map st !! a) eqn:Ec; [eauto|right]. apply dec_stable. intros Hnin. apply Hno.
    exists a. rewrite <-list_elem_of_In, Ec. by rewrite bool_decide_eq_true_2, bool_decide_eq_true_2.
  - intros Hr (a & Hin%list_elem_of_In & [H1%bool_decide_eq_true H2%bool_decide_eq_true]%andb_true_iff).
    destruct (Hr a) as [[? ?]|?]; [by apply Ha|congruence|done].
Qed.

Lemma check_event_inv pre e post acc (order : list string) : order = pre ++ e :: post → NoDup order →
  (∀ n, n ∈ order → n ∈ E) →
  (∀ pre n post a, order = pre ++ n :: post → auth n a → a ∈ E → a ∈ pre) →
  check_inv pre acc → ∃ acc', check_event rooms st acc e = Ok acc' ∧ check_inv (pre ++ [e]) acc'.
Proof.
  intros Eo Hnd Hsub Hord [Hs Hr Hrd Hrow]. destruct acc as [events rows]. cbn [fst snd] in *.
  assert (e ∈ order) as Hein by (rewrite Eo; apply elem_of_app; right; by left).
  pose proof (Hsub e Hein) as HeE.
  destruct (proj2 (ci_dom _ _ _ _ _ st_ok e) HeE) as [l Hl]. unfold check_event. rewrite Hl. cbn [default from_option id].
  assert (e ∉ pre) as Hepre.
  { intros Hin. rewrite Eo in Hnd. apply NoDup_app in Hnd as (_ & Hnd & _). by apply (Hnd e Hin); left. }
  (* a later event is no auth event of an earlier one *)
  assert (∀ n, n ∈ pre → auth n e → False) as Hlate.
  { intros n Hn Hne. apply list_elem_of_split in Hn as (p1 & p2 & ->).
    apply Hepre, elem_of_app. left. apply (Hord p1 n (p2 ++ e :: post)); [|done|done].
    by rewrite Eo, <-app_assoc. }
  assert (∀ events', (∀ x, x ≠ e → x ∈ events' ↔ x ∈ events) → ∀ n, n ∈ pre ++ [e] → ready events' n ↔ ready events n) as Hsame.
  { intros events' Hev n Hn. unfold ready. split; intros Hx a Ha; destruct (decide (a = e)) as [->|Hne].
    - exfalso. apply elem_of_app in Hn as [Hn| ->%list_elem_of_singleton]; [by eapply Hlate|apply acyclic in Ha; lia].
    - rewrite <-Hev by done. by apply Hx.
    - exfalso. apply elem_of_app in Hn as [Hn| ->%list_elem_of_singleton]; [by eapply Hlate|apply acyclic in Ha; lia].
    - rewrite Hev by done. by apply Hx. }
  assert (∀ n, n ∈ pre ++ [e] ↔ n ∈ pre ∨ n = e) as Hpre by (intros n; rewrite elem_of_app, list_elem_of_singleton; done).
  destruct (existsb _ l) eqn:Ex.
  - assert (¬ ready events e) as Hnr by (intros Hre%(ready_spec events e l Hl); congruence).
    assert (∀ x, x ∈ events ∖ {[e]} ↔ x ∈ events ∧ x ≠ e) as Hdiff by (intros x; set_solver).
    assert (∀ rows', (∀ x, x ≠ e → rows' !! x = rows !! x) → rows' !! e = left_row (events ∖ {[e]}) e →
      check_inv (pre ++ [e]) (events ∖ {[e]}, rows')) as Hcut.
    { intros rows' Hother Hself. split; cbn [fst snd].
      - intros x [? _]%Hdiff. by apply Hs.
      - intros x Hx Hn. apply Hdiff. split; [apply Hr; [done|]|]; intros Hc; apply Hn, Hpre; [by left|by right].
      - intros x Hx. rewrite Hdiff, (Hsame (events ∖ {[e]})) by (done || intros y Hy; rewrite Hdiff; tauto).
        apply Hpre in Hx as [Hx| ->]; [|naive_solver]. rewrite <-(Hrd x Hx). split; [tauto|]. split; [done|]. by intros ->.
      - intros x. destruct (decide (x = e)) as [->|Hne].
        + rewrite Hself, decide_True; [done|]. apply Hpre. by right.
        + rewrite Hother, Hrow by done. destruct (decide (x ∈ pre)) as [Hin|Hnin].
          * rewrite decide_True by (apply Hpre; by left). unfold left_row.
            destruct (decide (x ∈ events)); [rewrite decide_True by (by apply Hdiff)|rewrite decide_False by (rewrite Hdiff; tauto)]; done.
          * rewrite decide_False; [done|]. rewrite Hpre. tauto. }
    assert (left_row (events ∖ {[e]}) e = match rooms !! e, event_to_types st !! e with
      Some r, Some tk => Some (r, tk) | _, _ => T !! e end) as Eleft.
    { unfold left_row. rewrite decide_False; [done|]. rewrite Hdiff. tauto. }
    assert (is_Some (event_to_types st !! e)) as [tk Htk] by (apply (ci_types _ _ _ _ _ st_ok); by left).
    destruct (rooms !! e) as [r|] eqn:Er; cbn [default from_option id].
    + rewrite decide_False by (by eapply rooms_full). rewrite Htk in *. eexists. split; [done|]. apply Hcut.
      * intros x Hx. by rewrite lookup_insert_ne.
      * by rewrite lookup_insert_eq, Eleft.
    + rewrite decide_True by done. eexists. split; [done|]. apply Hcut; [done|].
      rewrite Hrow, decide_False by done. by rewrite Eleft.
  - exists (events, rows). split; [done|]. assert (ready events e) as Hre.
    { by apply (ready_spec events e l Hl). }
    split; cbn [fst snd].
    + exact Hs.
    + intros x Hx Hn. apply Hr; [done|]. rewrite Hpre in Hn. tauto.
    + intros x [Hx| ->]%Hpre; [by apply Hrd|]. split; [done|]. intros _. by apply Hr.
    + intros x. rewrite Hrow. destruct (decide (x = e)) as [->|Hne].
      * rewrite decide_False by done. rewrite decide_True by (apply Hpre; by right).
        unfold left_row. rewrite decide_True; [done|]. by apply Hr.
      * destruct (decide (x ∈ pre)); [rewrite decide_True by (apply Hpre; by left)|rewrite decide_False by (rewrite Hpre; tauto)]; done.
Qed.

(** The events kept are those of which all auth events are kept or indexed. *)
Lemma check_events_spec : ∃ order events rows,
  sorted_topologically (dom (event_to_auth_chain st)) (event_to_auth_chain st) = Ok order ∧
  foldM (check_event rooms st) (E, T) order = Ok (events, rows) ∧
  (∀ e, e ∈ events ↔ e ∈ E ∧ ready events e) ∧
  (∀ e, rows !! e = left_row events e).
Proof.
  destruct (sorted_topologically_spec (dom (event_to_auth_chain st)) (event_to_auth_chain st))
    as (order & Eo & Hnd & Hsub & Hord & Hcomp).
  assert (∀ e, e ∈ dom (event_to_auth_chain st) ↔ e ∈ E) as Hdom.
  { intros e. rewrite elem_of_dom. apply (ci_dom _ _ _ _ _ st_ok). }
  assert (∀ n a, n ∈ E → a ∈ default [] (event_to_auth_chain st !! n) ↔ auth n a) as Hau.
  { intros n a Hn. destruct (proj2 (ci_dom _ _ _ _ _ st_ok n) Hn) as [l Hl]. rewrite Hl.
    by apply (ci_auth _ _ _ _ _ st_ok n l Hl). }
  assert (∀ n, n ∈ order ↔ n ∈ E) as HorderE.
  { intros n. rewrite <-Hdom. split; [apply Hsub|]. apply (Hcomp depth). intros n' a Hn' Ha _.
    apply acyclic, Hau; [by apply Hdom|done]. }
  destruct (foldM_total_prefix check_inv (check_event rooms st) (E, T) order) as ([events rows] & Hok & [Hs Hr Hrd Hrow]).
  - split; cbn [fst snd]; [done|done|by intros ? ?%elem_of_nil|]. intros e. by rewrite decide_False by apply not_elem_of_nil.
  - intros pre x post acc E1 Hinv. apply (check_event_inv pre x post acc order); try done.
    + intros n. apply HorderE.
    + intros p n q a E2 Ha HaE. apply (Hord p n q a E2); [|by apply Hdom]. apply Hau; [|done].
      apply HorderE. rewrite E2. apply elem_of_app. right. by left.
  - exists order, events, rows. split_and!; [done|done| |]; cbn [fst snd] in *.
    + intros e. split.
      * intros He. pose proof (Hs e He) as HE. split; [done|]. apply Hrd; [by apply HorderE|done].
      * intros [HE Hre]. by apply Hrd; [apply HorderE|].
    + intros e. rewrite Hrow. case_decide as Hin; [done|]. rewrite HorderE in Hin. unfold left_row. case_decide; [done|].
      destruct (rooms !! e) eqn:Er; [|done]. exfalso. apply Hin, (ci_batch _ _ _ _ _ st_ok), rooms_dom, elem_of_dom. eauto.
Qed.
End check.
