(* ===== verification/ChainBuild.v ===== *)
(** * Building the index

    Whatever batches of events are persisted, in whatever order, the tables hold
    a chain cover index of the events whose auth chains are all there, and the
    other events wait. *)

From S2P Require Import Prelude PyOrd ChainLinks ChainIndex ChainCover ChainQueryProps ChainTopo ChainAllocate ChainLinking ChainFetch.
From stdpp Require Import relations.
#[local] Open Scope Z_scope.

(** ** The events *)

(** An event id is a hash of the event: it determines the room, the type and
    state key and the auth events, and there are no cycles. *)
Class EventGraph := mkEventGraph {
  g_room : string → string;
  g_state : string → bool;      (** is it a state event *)
  g_types : string → TypeKey;   (** of a state event *)
  g_auth : string → list string;
  g_depth : string → nat
}.
Class EventGraphLaws `{EventGraph} : Prop := mkEventGraphLaws {
  g_room_full e : g_room e ≠ "";
  g_auth_nodup e : NoDup (g_auth e);
  g_auth_room e a : a ∈ g_auth e → g_room a = g_room e;
  g_acyclic e a : a ∈ g_auth e → (g_depth a < g_depth e)%nat
}.

Definition auth_edge `{EventGraph} (e a : string) : Prop := a ∈ g_auth e.

(** ** The tables *)

Abbreviation stored db e := (is_Some (t_events db !! e)).

Record tables_ok `{EventGraph} (db : AuthTables) : Prop := mkTablesOk {
  ok_cover : cover auth_edge (t_chains db) (row_link (t_links db));
  ok_ids e x : t_chains db !! e = Some x → x.1 ≤ t_chain_id db;
  ok_chains e : is_Some (t_chains db !! e) → stored db e;
  ok_types e tk : t_events db !! e = Some tk → tk = g_types e;
  ok_auth e : stored db e → select_auth db e ≡ₚ g_auth e;
  ok_no_auth e : ¬ stored db e → select_auth db e = [];
  ok_calc e r : t_to_calculate db !! e = Some r →
    r = (g_room e, g_types e) ∧ stored db e ∧ t_chains db !! e = None;
  (** an event waits when an event of its auth chain is not there *)
  ok_wait e : stored db e → t_chains db !! e = None →
    is_Some (t_to_calculate db !! e) ∧ ∃ a, rtc auth_edge e a ∧ ¬ stored db a
}.

(** ** The calculation *)

(** What it returns for the new events [B]. *)
Record calculated `{EventGraph} (B : StrSet) (db : AuthTables) (nl : StrMap NewEventChainLinks)
    (db' : AuthTables) : Prop := mkCalculated {
  cd_events : t_events db' = t_events db;
  cd_event_auth : t_event_auth db' = t_event_auth db;
  cd_chains : t_chains db' = t_chains db;
  cd_links : t_links db' = t_links db;
  cd_new e : is_Some (nl !! e) → t_chains db !! e = None ∧ (e ∈ B ∨ stored db e);
  cd_cover : cover auth_edge ((n_coord <$> nl) ∪ t_chains db) (joined_links (t_links db) nl);
  cd_ids e x : ((n_coord <$> nl) ∪ t_chains db) !! e = Some x → x.1 ≤ t_chain_id db';
  cd_calc e r : t_to_calculate db' !! e = Some r →
    t_to_calculate db !! e = Some r ∨ (e ∈ B ∧ r = (g_room e, g_types e));
  cd_keep e : is_Some (t_to_calculate db !! e) → is_Some (t_to_calculate db' !! e);
  cd_left e : e ∈ B → nl !! e = None → is_Some (t_to_calculate db' !! e);
  (** an event that is left out lacks an event of its auth chain *)
  cd_lacks e : e ∈ B ∨ (is_Some (t_to_calculate db !! e) ∧ ∃ b, b ∈ B ∧ g_room b = g_room e) → nl !! e = None →
    ∃ a, rtc auth_edge e a ∧ (a ∉ B) ∧ ¬ stored db a
}.

Section build.
Context `{Laws : EventGraphLaws}.

Lemma joined_links_empty rows x y : joined_links rows ∅ x y ↔ row_link rows x y.
Proof. split; [|by left]. intros [?|(e & n & He & _)]; [done|by rewrite lookup_empty in He]. Qed.

Lemma cover_none rows K : cover auth_edge K (row_link rows) →
  cover auth_edge ((n_coord <$> (∅ : StrMap NewEventChainLinks)) ∪ K) (joined_links rows ∅).
Proof.
  rewrite fmap_empty, (left_id_L ∅ (∪)). apply cover_links_ext. intros x y. by rewrite joined_links_empty.
Qed.

(** Nothing to do. *)
Lemma calculated_none db : tables_ok db → calculated ∅ db ∅ db.
Proof.
  intros [Hc Hi _ _ _ _ _ _]. split; try done.
  - intros e [? He]. by rewrite lookup_empty in He.
  - by apply cover_none.
  - intros e x. rewrite fmap_empty, (left_id_L ∅ (∪)). apply Hi.
  - intros e r Hr. by left.
  - intros e [?%elem_of_empty|(_ & b & ?%elem_of_empty & _)]; done.
Qed.

Section calculate.
Context (object_order : nat → list nat).
Hypothesis object_order_perm : ∀ n, object_order n ≡ₚ seq 0 n.
Context (db : AuthTables) (rooms : StrMap string) (types : StrMap TypeKey) (auths : StrMap (list string)).
Hypothesis db_ok : tables_ok db.
Hypothesis rooms_ok : ∀ e r, rooms !! e = Some r → r = g_room e ∧ t_chains db !! e = None.
Hypothesis types_ok : ∀ e, types !! e = (λ _, g_types e) <$> rooms !! e.
Hypothesis auths_ok : ∀ e, auths !! e = (λ _, g_auth e) <$> rooms !! e.

Abbreviation K := (t_chains db).
Abbreviation B0 := (dom rooms).
Abbreviation rows := (calculate_rows db (map_to_list rooms).*2).
Abbreviation B := (B0 ∪ list_to_set rows.*1 : StrSet).
Abbreviation start := (mkCalculation types auths ∅ (dom rooms)).
Abbreviation started := (foldl (λ st r, calc_event db r.1 r.2.2 st) start rows).

Lemma elem_of_rows e r : (e, r) ∈ rows ↔
  t_to_calculate db !! e = Some r ∧ ∃ b, b ∈ B0 ∧ g_room b = g_room e.
Proof.
  unfold calculate_rows. rewrite elem_of_map_to_list, map_lookup_filter_Some. cbn [fst snd].
  assert (∀ x, x ∈ (map_to_list rooms).*2 ↔ ∃ b, b ∈ B0 ∧ g_room b = x) as Hx.
  { intros x. rewrite list_elem_of_fmap. split.
    - intros ([b r'] & -> & Hb%elem_of_map_to_list). exists b. rewrite elem_of_dom. destruct (rooms_ok b r' Hb). split; [eauto|done].
    - intros (b & [r' Hb]%elem_of_dom & <-). exists (b, r'). rewrite elem_of_map_to_list. by destruct (rooms_ok b r' Hb) as [-> _]. }
  rewrite Hx. split; intros [Hr Hb]; (split; [done|]); by destruct (ok_calc _ db_ok e r Hr) as [-> _].
Qed.

Lemma auth_rows : (∀ e a, stored db e → auth_edge e a ↔ (e, a) ∈ t_event_auth db) ∧ ∀ e, NoDup (select_auth db e).
Proof.
  split.
  - intros e a He. unfold auth_edge. rewrite <-(ok_auth _ db_ok e He). unfold select_auth. rewrite list_elem_of_fmap. split.
    + intros ([e' a'] & -> & [Hr Hin]%list_elem_of_filter). cbn in *. by subst.
    + intros Hin. exists (e, a). by rewrite list_elem_of_filter.
  - intros e. destruct (decide (stored db e)) as [He|He].
    + rewrite (ok_auth _ db_ok e He). apply g_auth_nodup.
    + rewrite (ok_no_auth _ db_ok e He). constructor.
Qed.

Lemma started_inv : calc_inv auth_edge g_types B db started.
Proof.
  destruct auth_rows as [Ha Hn].
  cut (∀ post pre st, rows = pre ++ post → calc_inv auth_edge g_types (B0 ∪ list_to_set pre.*1) db st →
    calc_inv auth_edge g_types B db (foldl (λ st r, calc_event db r.1 r.2.2 st) st post)).
  { intros Hcut. apply (Hcut rows []); [done|]. split; cbn [event_to_types event_to_auth_chain chain_map events_to_calc].
    - intros e. rewrite auths_ok, fmap_is_Some. by rewrite elem_of_dom.
    - intros e [r He]%elem_of_dom. by destruct (rooms_ok e r He).
    - intros e l. rewrite auths_ok. intros (r & _ & ->)%fmap_Some. split; [apply g_auth_nodup|done].
    - apply map_empty_subseteq.
    - intros e. rewrite types_ok, fmap_is_Some, elem_of_dom, lookup_empty. split; [by left|]. by intros [?|[? ?]].
    - intros e tk. rewrite types_ok. by intros (r & _ & ->)%fmap_Some.
    - intros e He. left. by apply elem_of_union_l.
    - cbn. intros e. by rewrite (right_id_L ∅ (∪)). }
  induction post as [|[e r] post IH]; intros pre st E Hi; cbn [foldl]; [by rewrite E, app_nil_r|].
  apply (IH (pre ++ [(e, r)])); [by rewrite <-app_assoc|]. cbn [fst snd].
  assert ((e, r) ∈ rows) as [Hr _]%elem_of_rows by (rewrite E; apply elem_of_app; right; by left).
  destruct (ok_calc _ db_ok e r Hr) as (-> & Hst & Hk).
  destruct (calc_event_inv auth_edge g_types (B0 ∪ list_to_set pre.*1) db Ha (ok_types _ db_ok) Hn e (g_types e) st Hst eq_refl Hk Hi) as [H1 H2 H3 H4 H5 H6 H7 H8].
  split; try done.
  - intros x [Hx|?]%H7; [|by right]. left. rewrite fmap_app, list_to_set_app_L. set_solver.
  - intros x. rewrite fmap_app, list_to_set_app_L. cbn. intros Hx.
    assert (x ∈ B0 ∪ list_to_set pre.*1 ∨ x = e) as [?%H8| ->] by set_solver; [done|]. cbn. set_solver.
Qed.

Lemma started_asked : asked auth_edge db started (missing_auth started).
Proof.
  intros e a He Ha. pose proof started_inv as Hi.
  destruct (decide (a ∈ events_to_calc started)) as [Hin|Hn].
  { left. apply (ci_types _ _ _ _ _ Hi). by left. }
  right. left. unfold missing_auth. apply elem_of_list_to_set, list_elem_of_filter. split; [done|].
  destruct (proj2 (ci_dom _ _ _ _ _ Hi e) He) as [l Hl]. apply list_elem_of_bind. exists l.
  split; [by apply (ci_auth _ _ _ _ _ Hi e l Hl)|]. apply list_elem_of_fmap. exists (e, l). by rewrite elem_of_map_to_list.
Qed.

Lemma fetched : ∃ st, fetch_missing (S (S (size (t_events db)))) db started (missing_auth started) = Ok st ∧
  calc_inv auth_edge g_types B db st ∧ asked auth_edge db st ∅.
Proof.
  destruct auth_rows as [Ha Hn]. apply (fetch_missing_spec auth_edge g_types B db Ha (ok_types _ db_ok) Hn);
    [|apply started_inv|apply started_asked].
  unfold fetch_rank. assert (size (untyped db started) ≤ size (t_events db))%nat.
  { rewrite <-size_dom. apply subseteq_size. unfold untyped. by intros x [_ ?]%elem_of_filter. }
  repeat case_decide; lia.
Qed.

(** The auth events of the kept events. *)
Lemma kept_auth st (events : StrSet) : calc_inv auth_edge g_types B db st →
  (∀ e, e ∈ events ↔ e ∈ events_to_calc st ∧ ready auth_edge st events e) → ∀ e, e ∈ events →
  NoDup (default [] (event_to_auth_chain st !! e)) ∧
  (∀ a, a ∈ default [] (event_to_auth_chain st !! e) ↔ auth_edge e a) ∧
  (∀ a, auth_edge e a → a ∈ events ∨ is_Some (chain_map st !! a)).
Proof.
  intros Hi Hev e [He Hr]%Hev. destruct (proj2 (ci_dom _ _ _ _ _ Hi e) He) as [l Hl]. rewrite Hl. cbn.
  destruct (ci_auth _ _ _ _ _ Hi e l Hl) as [Hnd Hl']. split_and!; [done|done|]. intros a Ha. destruct (Hr a Ha); auto.
Qed.

(** An event that is not kept lacks an event of its auth chain. *)
Lemma dropped_lacks st (events : StrSet) : calc_inv auth_edge g_types B db st → asked auth_edge db st ∅ →
  (∀ e, e ∈ events ↔ e ∈ events_to_calc st ∧ ready auth_edge st events e) →
  ∀ e, e ∈ events_to_calc st → e ∉ events → ∃ a, rtc auth_edge e a ∧ (a ∉ B) ∧ ¬ stored db a.
Proof.
  intros Hi Has Hev e. remember (g_depth e) as d eqn:Ed. revert e Ed.
  induction (lt_wf d) as [d _ IH]. intros e -> He Hn.
  destruct (decide (Exists (λ a, chain_map st !! a = None ∧ a ∉ events) (g_auth e))) as [Hex|Hno].
  - apply Exists_exists in Hex as (a & Ha & Hc & Hna).
    assert (a ∈ events_to_calc st → ∃ b, rtc auth_edge e b ∧ (b ∉ B) ∧ ¬ stored db b) as Hcalc.
    { intros Hac. destruct (IH (g_depth a)) with a as (b & Hb & ?); [by apply g_acyclic|done|done|done|].
      exists b. split; [by eapply rtc_l|done]. }
    destruct (Has e a He Ha) as [[?|[? ?]]%(ci_types _ _ _ _ _ Hi)|[?%elem_of_empty|Hs]]; [auto|congruence|done|].
    destruct (decide (a ∈ B)) as [?|?]; [by apply Hcalc, (ci_batch _ _ _ _ _ Hi)|].
    exists a. split; [by apply rtc_once|done].
  - destruct Hn. apply Hev. split; [done|]. intros a Ha. destruct (chain_map st !! a) eqn:Ec; [eauto|right].
    apply dec_stable. intros Hna. apply Hno, Exists_exists. by exists a.
Qed.

Lemma calculated_rows st (events : StrSet) T nl cid : calc_inv auth_edge g_types B db st → asked auth_edge db st ∅ →
  (∀ e, e ∈ events ↔ e ∈ events_to_calc st ∧ ready auth_edge st events e) →
  (∀ e, T !! e = left_row rooms st (t_to_calculate db) events e) →
  (∀ e, is_Some (nl !! e) ↔ e ∈ events) →
  cover auth_edge ((n_coord <$> nl) ∪ K) (joined_links (t_links db) nl) →
  (∀ e x, ((n_coord <$> nl) ∪ K) !! e = Some x → x.1 ≤ cid) →
  calculated B0 db nl (mkTables (t_events db) (t_event_auth db) K (t_links db) T cid).
Proof.
  intros Hi Has Hev HT Hnl Hcov Hids.
  assert (∀ e, e ∈ B → e ∈ B0 ∨ stored db e) as HB.
  { intros e [?|He]%elem_of_union; [by left|right]. apply elem_of_list_to_set, list_elem_of_fmap in He as ([e' r] & -> & [Hr _]%elem_of_rows).
    by apply (ok_calc _ db_ok e' r). }
  split; cbn [t_events t_event_auth t_chains t_links t_to_calculate t_chain_id]; try done.
  - intros e [He _]%Hnl%Hev. split; [by apply (ci_new _ _ _ _ _ Hi)|].
    destruct (ci_known _ _ _ _ _ Hi e He) as [?%HB|?]; [done|by right].
  - intros e r. rewrite HT. unfold left_row. case_decide as He; [by left|].
    destruct (rooms !! e) as [ro|] eqn:Er; [|by left]. destruct (event_to_types st !! e) as [tk|] eqn:Etk; [|by left].
    intros [= <-]. right. split; [apply elem_of_dom; eauto|]. destruct (rooms_ok e ro Er) as [-> _].
    by rewrite (ci_tk _ _ _ _ _ Hi e tk Etk).
  - intros e He. rewrite HT. unfold left_row. case_decide; [done|]. repeat case_match; [eauto|done|done].
  - intros e He Hn. rewrite HT. unfold left_row. rewrite decide_False.
    + pose proof He as [r Hr]%elem_of_dom. rewrite Hr.
      assert (is_Some (event_to_types st !! e)) as [tk ->]; [|eauto]. apply (ci_types _ _ _ _ _ Hi). left.
      apply (ci_batch _ _ _ _ _ Hi). by apply elem_of_union_l.
    + rewrite <-Hnl, Hn. by intros [? ?].
  - intros e He Hn. destruct (dropped_lacks st events Hi Has Hev e) as (a & Ha & HnB & Hns).
    + apply (ci_batch _ _ _ _ _ Hi). destruct He as [He|([r Hr] & Hb)]; [by apply elem_of_union_l|].
      apply elem_of_union_r, elem_of_list_to_set, list_elem_of_fmap. exists (e, r). split; [done|]. by apply elem_of_rows.
    + rewrite <-Hnl, Hn. by intros [? ?].
    + exists a. split_and!; [done| |done]. intros ?. by apply HnB, elem_of_union_l.
Qed.

Lemma calculate_spec : ∃ nl db', _calculate_chain_cover_index object_order rooms types auths db = Ok (nl, db') ∧
  calculated B0 db nl db'.
Proof.
  unfold _calculate_chain_cover_index. destruct fetched as (st & -> & Hi & Has). cbn [mbind res_bind].
  destruct (check_events_spec auth_edge g_types g_depth B db rooms st (t_to_calculate db) g_acyclic Hi)
    as (order & events & T & -> & Ef & Hev & HT).
  { apply union_subseteq_l. }
  { intros e r Hr. destruct (rooms_ok e r Hr) as [-> _]. apply g_room_full. }
  cbn [mbind res_bind]. rewrite Ef. cbn [mbind res_bind]. clear Ef order. pose proof (kept_auth st events Hi Hev) as Hkept.
  destruct (ok_cover _ db_ok) as [Kok Lok Aok] eqn:Ecov. clear Ecov.
  case_decide as Hemp.
  { eexists _, _. split; [done|]. apply (calculated_rows st events); try done.
    - intros e. rewrite Hemp, lookup_empty. split; [by intros [? ?]|by intros ?%elem_of_empty].
    - by apply cover_none.
    - intros e x. rewrite fmap_empty, (left_id_L ∅ (∪)). apply (ok_ids _ db_ok). }
  clear Hemp. set (db1 := set_to_calculate T db).
  destruct (allocate_chain_ids_spec object_order object_order_perm auth_edge g_depth (event_to_types st)
    (event_to_auth_chain st) events (chain_map st) db1 Kok) as (new & n & -> & Hdom & Hch & Hids).
  { apply (ci_map _ _ _ _ _ Hi). }
  { intros e [He _]%Hev. by apply (ci_new _ _ _ _ _ Hi). }
  { intros e a He Ha. destruct (Hkept e He) as (_ & H1 & H2). split; [by apply H1|]. by apply H2, H1. }
  { apply (ok_ids _ db_ok). }
  { apply g_acyclic. }
  cbn [mbind res_bind]. set (db2 := (get_next_mult_txn n db1).2). set (cm := new ∪ chain_map st).
  change (t_chains db1) with K in *.
  assert (map_disjoint new K) as Hdisj.
  { apply map_disjoint_spec. intros e x y Hx Hy. assert (e ∈ events) as [He _]%Hev by (apply Hdom; eauto).
    rewrite (ci_new _ _ _ _ _ Hi e He) in Hy. done. }
  assert (cm ⊆ new ∪ K) as Hcm by (apply map_union_mono_l, (ci_map _ _ _ _ _ Hi)).
  assert (links_ok auth_edge (new ∪ K) (row_link (t_links db))) as Lok'.
  { intros x y (a & b & Ha & Hb & ? & ?)%Lok. exists a, b. split_and!; try done; by apply lookup_union_Some_r. }
  destruct (new_link_map_spec db2 cm) as (m & -> & Hm).
  { intros x y Hxy. by destruct (Lok x y Hxy) as (a & b & _ & _ & _ & ?). }
  cbn [mbind res_bind].
  destruct (sorted_topologically_spec events (event_to_auth_chain st)) as (order' & -> & Hnd & Hsub & _ & Hcomp).
  cbn [mbind res_bind].
  destruct (link_events_spec auth_edge g_depth (new ∪ K) cm new (t_links db) (event_to_auth_chain st) g_acyclic Hch Hcm)
    with order' m as (ret & m' & -> & Hco & Hli & Hau).
  { apply map_union_subseteq_l. }
  { done. }
  { intros e He%Hdom. destruct (Hkept e He) as (H1 & H2 & H3). split_and!; [done|done|]. intros a Ha.
    unfold cm. rewrite lookup_union_is_Some, Hdom. by apply H3. }
  { done. }
  { intros e He. by apply Hdom, Hsub. }
  { exact Hm. }
  cbn [mbind res_bind]. eexists _, _. split; [done|].
  apply (calculated_rows st events T ret (t_chain_id db + Z.of_nat n)); try done; rewrite ?Hco.
  - intros e. rewrite <-Hdom, <-Hco, lookup_fmap, fmap_is_Some. done.
  - split; [done|done|]. intros e x a He Ha. destruct (decide (e ∈ events)) as [Hin|Hnin].
    + apply (Hau e); [|done|done]. apply (Hcomp g_depth); [|done]. intros e' a' He' Ha' _.
      apply g_acyclic. by apply (Hkept e' He').
    + assert (K !! e = Some x) as HKe.
      { apply lookup_union_Some_raw in He as [He|[_ ?]]; [|done]. destruct Hnin. apply Hdom. eauto. }
      destruct (Aok e x a HKe Ha) as (y & Hy & Hp). exists y. split; [by apply lookup_union_Some_r|].
      eapply path_mono; [|exact Hp]. intros b c Hbc. apply path_link. by left.
  - exact Hids.
Qed.
End calculate.
End build.
