(* ===== verification/ChainPersist.v ===== *)
(** * Persisting batches of events

    From the tables before a batch to those after it, and what the queries
    answer from tables filled so. *)

From S2P Require Import Prelude PyOrd ChainLinks ChainIndex ChainCover ChainQuery ChainQueryProps ChainFixup ChainLinking ChainBuild.
From stdpp Require Import relations.
#[local] Open Scope Z_scope.

(** ** Duplicates *)

Abbreviation ids l := (p_event_id <$> l).

Lemma unique_events_spec events : let u := (foldl unique_state_event ([], ∅) events).1 in
  NoDup (ids u) ∧ (∀ e, e ∈ u → e ∈ events ∧ p_is_state e = true) ∧
  (∀ e, e ∈ events → p_is_state e = true → p_event_id e ∈ ids u).
Proof.
  cut (let r := foldl unique_state_event ([], ∅) events in NoDup (ids r.1) ∧ (∀ i, i ∈ r.2 ↔ i ∈ ids r.1) ∧
    (∀ e, e ∈ r.1 → e ∈ events ∧ p_is_state e = true) ∧ (∀ e, e ∈ events → p_is_state e = true → p_event_id e ∈ ids r.1)).
  { cbv zeta. tauto. }
  induction events as [|e events IH] using rev_ind.
  { cbn. split_and!; [constructor|set_solver|by intros ? ?%elem_of_nil|by intros ? ?%elem_of_nil]. }
  rewrite foldl_app. cbn [foldl]. destruct (foldl _ _ events) as [u seen]. cbn [fst snd] in *. destruct IH as (H1 & H2 & H3 & H4).
  unfold unique_state_event. cbn [fst snd]. destruct (p_is_state e) eqn:Es; cbn [negb orb].
  2: { cbn [fst snd]. split_and!; [done|done|by intros x [? ?]%H3; split; [apply elem_of_app; left|]|].
       intros x [?|Hx%list_elem_of_singleton]%elem_of_app Hs; [by apply H4|congruence]. }
  case_bool_decide as Hin; cbn [fst snd].
  - split_and!; [done|done|by intros x [? ?]%H3; split; [apply elem_of_app; left|]|].
    intros x [?| ->%list_elem_of_singleton]%elem_of_app Hs; [by apply H4|by apply H2].
  - rewrite fmap_app. cbn. split_and!.
    + apply NoDup_app. split_and!; [done| |apply NoDup_singleton]. intros x Hx ->%list_elem_of_singleton. by apply Hin, H2.
    + intros i. rewrite elem_of_union, elem_of_singleton, elem_of_app, list_elem_of_singleton, H2. tauto.
    + intros x [Hx| ->%list_elem_of_singleton]%elem_of_app; [destruct (H3 x Hx)|]; (split; [apply elem_of_app|done]);
        [by left|right; by left].
    + intros x [?| ->%list_elem_of_singleton]%elem_of_app Hs; apply elem_of_app; [left; by apply H4|right; by left].
Qed.

Lemma drop_duplicates_spec events : let d := _filter_events_and_contexts_for_duplicates events in
  NoDup (ids d) ∧ (∀ e, e ∈ d → e ∈ events) ∧ (∀ e, e ∈ events → p_event_id e ∈ ids d).
Proof.
  unfold _filter_events_and_contexts_for_duplicates. induction events as [|e events IH] using rev_ind.
  { cbn. split_and!; [constructor|by intros ? ?%elem_of_nil|by intros ? ?%elem_of_nil]. }
  rewrite foldl_app. cbn [foldl]. destruct IH as (H1 & H2 & H3). set (d := foldl drop_duplicate [] events) in *.
  unfold drop_duplicate. destruct (list_find _ d) as [[i prev]|] eqn:Ef.
  - apply list_find_Some in Ef as (Hi & Hid & _).
    destruct (negb (p_outlier e) && p_outlier prev).
    + assert (d ≡ₚ prev :: delete i d) as Hp by (by apply delete_Permutation).
      assert (ids (delete i d ++ [e]) ≡ₚ ids d) as Hids.
      { rewrite fmap_app. cbn. rewrite (Permutation_app_comm _ [_]). cbn. rewrite <-Hid. rewrite Hp at 2. done. }
      rewrite Hids. split_and!; [done| |].
      * intros x [Hx| ->%list_elem_of_singleton]%elem_of_app; apply elem_of_app; [left|right; by left].
        apply H2. rewrite Hp. by right.
      * intros x [Hx| ->%list_elem_of_singleton]%elem_of_app; rewrite Hids; [by apply H3|].
        rewrite <-Hid. apply list_elem_of_fmap_2. by eapply list_elem_of_lookup_2.
    + split_and!; [done|intros x Hx; apply elem_of_app; left; by apply H2|].
      intros x [Hx| ->%list_elem_of_singleton]%elem_of_app; [by apply H3|].
      rewrite <-Hid. apply list_elem_of_fmap_2. by eapply list_elem_of_lookup_2.
  - apply list_find_None in Ef. rewrite Forall_forall in Ef. rewrite fmap_app. cbn. split_and!.
    + apply NoDup_app. split_and!; [done| |apply NoDup_singleton]. intros x (y & -> & Hy)%list_elem_of_fmap Hx%list_elem_of_singleton.
      by apply (Ef y Hy).
    + intros x [Hx| ->%list_elem_of_singleton]%elem_of_app; apply elem_of_app; [left; by apply H2|right; by left].
    + intros x [Hx| ->%list_elem_of_singleton]%elem_of_app; apply elem_of_app; [left; by apply H3|right; by left].
Qed.

(** ** A batch *)

Record event_ok `{EventGraph} (p : PersistedEvent) : Prop := mkEventOk {
  ev_room : p_room_id p = g_room (p_event_id p);
  ev_auth : p_auth_event_ids p = g_auth (p_event_id p);
  ev_state : p_is_state p = g_state (p_event_id p);
  ev_types k : p_state_key p = Some k → (p_type p, k) = g_types (p_event_id p)
}.

Definition state_ids (l : list PersistedEvent) : list string := ids (filter (λ p, p_is_state p = true) l).

Lemma elem_of_state_ids l i : i ∈ state_ids l ↔ ∃ p, p ∈ l ∧ p_is_state p = true ∧ p_event_id p = i.
Proof. unfold state_ids. rewrite list_elem_of_fmap. setoid_rewrite list_elem_of_filter. naive_solver. Qed.

Lemma ids_map_lookup {A} (f : PersistedEvent → A) (F : string → A) (l : list PersistedEvent) i :
  (∀ p, p ∈ l → f p = F (p_event_id p)) →
  (list_to_map ((λ p, (p_event_id p, f p)) <$> l) : StrMap A) !! i = if decide (i ∈ ids l) then Some (F i) else None.
Proof.
  intros Hf. induction l as [|p l IH]; cbn; [done|].
  destruct (decide (p_event_id p = i)) as [<-|Hne].
  - rewrite lookup_insert_eq, decide_True by left. by rewrite Hf by left.
  - rewrite lookup_insert_ne by done. rewrite IH by (intros; apply Hf; by right). apply decide_ext. rewrite elem_of_cons. naive_solver.
Qed.

Section batch.
Context `{Laws : EventGraphLaws}.
Context (object_order : nat → list nat).
Hypothesis object_order_perm : ∀ n, object_order n ≡ₚ seq 0 n.

Lemma state_types p : event_ok p → p_is_state p = true → (p_type p, default "" (p_state_key p)) = g_types (p_event_id p).
Proof. intros Hp. unfold p_is_state. destruct (p_state_key p) as [k|] eqn:E; [|done]. intros _. by apply (ev_types _ Hp). Qed.

Lemma calculate_for_events_spec row events db : no_chain_index row = false → tables_ok db →
  (∀ p, p ∈ events → event_ok p) →
  ∃ nl db' B, calculate_chain_cover_index_for_events object_order row events db = Ok (nl, db') ∧
    calculated B db nl db' ∧ ∀ i, i ∈ B ↔ i ∈ state_ids events ∧ t_chains db !! i = None.
Proof.
  intros Hrow Hok Hev. unfold calculate_chain_cover_index_for_events. rewrite Hrow.
  destruct (unique_events_spec events) as (Hnd & Hsub & Hall). cbv zeta in *. set (u := (foldl _ _ events).1) in *.
  assert (∀ i, i ∈ ids u ↔ i ∈ state_ids events) as Hu.
  { intros i. rewrite elem_of_state_ids, list_elem_of_fmap. split.
    - intros (p & -> & Hp). destruct (Hsub p Hp). by exists p.
    - intros (p & Hp & Hs & <-). by apply list_elem_of_fmap, Hall. }
  set (l := filter (λ e, t_chains db !! p_event_id e = None) u).
  assert (∀ i, i ∈ ids l ↔ i ∈ state_ids events ∧ t_chains db !! i = None) as Hl.
  { intros i. rewrite <-Hu, !list_elem_of_fmap. unfold l. setoid_rewrite list_elem_of_filter. naive_solver. }
  assert (∀ p, p ∈ l → event_ok p ∧ p_is_state p = true) as Hlok.
  { intros p [_ Hp]%list_elem_of_filter. destruct (Hsub p Hp). auto. }
  assert (l = [] → ∃ nl db' B, Ok (∅, db) = Ok (nl, db') ∧ calculated B db nl db' ∧
    ∀ i, i ∈ B ↔ i ∈ state_ids events ∧ t_chains db !! i = None) as Hnone.
  { intros El. exists ∅, db, ∅. split_and!; [done|by apply calculated_none|]. intros i. rewrite <-Hl, El. cbn. set_solver. }
  case_decide as Hu0; [apply Hnone; unfold l; by rewrite Hu0|]. case_decide as Hl0; [by apply Hnone|]. clear Hnone.
  set (rooms := list_to_map ((λ e, (p_event_id e, p_room_id e)) <$> l) : StrMap string).
  assert (∀ i, rooms !! i = if decide (i ∈ ids l) then Some (g_room i) else None) as Hrooms.
  { intros i. apply (ids_map_lookup p_room_id g_room). intros p Hp. apply (ev_room p), Hlok, Hp. }
  destruct (calculate_spec object_order object_order_perm db rooms
    (list_to_map ((λ e, (p_event_id e, (p_type e, default "" (p_state_key e)))) <$> l))
    (list_to_map ((λ e, (p_event_id e, p_auth_event_ids e)) <$> l)) Hok) as (nl & db' & Hc & Hcalc).
  - intros i r. rewrite Hrooms. case_decide as Hi; [|done]. intros [= <-]. split; [done|]. by apply Hl.
  - intros i. rewrite Hrooms, (ids_map_lookup (λ e, (p_type e, default "" (p_state_key e))) g_types).
    + by case_decide.
    + intros p Hp. destruct (Hlok p Hp). by apply state_types.
  - intros i. rewrite Hrooms, (ids_map_lookup p_auth_event_ids g_auth).
    + by case_decide.
    + intros p Hp. apply (ev_auth p), Hlok, Hp.
  - exists nl, db', (dom rooms). split_and!; [exact Hc|done|]. intros i. rewrite <-Hl, elem_of_dom, Hrooms.
    case_decide; [by split; eauto|]. by split; [intros [? ?]|].
Qed.

Lemma store_events_spec (l : list PersistedEvent) m i : (∀ p, p ∈ l → event_ok p) →
  foldl store_event m l !! i = if decide (i ∈ state_ids l) then Some (g_types i) else m !! i.
Proof.
  induction l as [|p l IH] using rev_ind; intros Hl; [done|]. rewrite foldl_app. cbn [foldl].
  assert (∀ p, p ∈ l → event_ok p) as Hl' by (intros q Hq; apply Hl, elem_of_app; by left).
  assert (event_ok p) as Hp by (apply Hl, elem_of_app; right; by left).
  assert (i ∈ state_ids (l ++ [p]) ↔ i ∈ state_ids l ∨ (p_is_state p = true ∧ p_event_id p = i)) as Hiff.
  { rewrite !elem_of_state_ids. setoid_rewrite elem_of_app. setoid_rewrite list_elem_of_singleton. naive_solver. }
  specialize (IH Hl'). set (m' := foldl store_event m l) in *. unfold store_event.
  destruct (p_state_key p) as [k|] eqn:Ek.
  - assert (p_is_state p = true) as Hs by (unfold p_is_state; by rewrite Ek).
    destruct (decide (p_event_id p = i)) as [<-|Hne].
    + rewrite lookup_insert_eq, (ev_types p Hp k Ek), decide_True; [done|]. apply Hiff. by right.
    + rewrite lookup_insert_ne, IH by done. apply decide_ext. rewrite Hiff. naive_solver.
  - assert (p_is_state p = false) as Hs by (unfold p_is_state; by rewrite Ek).
    rewrite IH. apply decide_ext. rewrite Hiff, Hs. naive_solver.
Qed.

Lemma pair_rows (i j : string) (l : list string) :
  (filter (λ r : string * string, r.1 = i) (pair j <$> l)).*2 = if decide (j = i) then l else [].
Proof.
  induction l as [|a l IH]; cbn [fmap list_fmap]; [by case_decide|]. rewrite filter_cons. cbn [fst].
  case_decide; cbn [fmap list_fmap]; by rewrite IH.
Qed.

Lemma new_auth_rows (l : list PersistedEvent) i : NoDup (ids l) → (∀ p, p ∈ l → event_ok p) →
  (filter (λ r : string * string, r.1 = i) (e ← filter (λ e, p_is_state e = true) l; pair (p_event_id e) <$> p_auth_event_ids e)).*2
  = if decide (i ∈ state_ids l) then g_auth i else [].
Proof.
  unfold state_ids. induction l as [|p l IH]; intros Hnd Hl; [done|]. cbn [fmap list_fmap] in Hnd. apply NoDup_cons in Hnd as [Hn Hnd].
  rewrite filter_cons. destruct (decide (p_is_state p = true)) as [Hs|Hs]; [|apply IH; [done|intros; apply Hl; by right]].
  cbn [mbind list_bind]. rewrite filter_app, fmap_app, IH, pair_rows by (try done; intros; apply Hl; by right).
  rewrite (ev_auth p) by (apply Hl; by left). cbn [fmap list_fmap].
  destruct (decide (p_event_id p = i)) as [<-|Hne].
  - rewrite (decide_False (P := p_event_id p ∈ _)).
    2: { intros (q & E & [_ Hq]%list_elem_of_filter)%list_elem_of_fmap. apply Hn, list_elem_of_fmap. eauto. }
    rewrite decide_True by left. by rewrite app_nil_r.
  - apply decide_ext. rewrite elem_of_cons. naive_solver.
Qed.

(** ** The tables after a batch *)

(** The index tables with the new rows. *)
Definition with_index (nl : StrMap NewEventChainLinks) (db : AuthTables) : AuthTables :=
  mkTables (t_events db) (t_event_auth db) ((n_coord <$> nl) ∪ t_chains db)
    (t_links db ++ ('(_, n) ← map_to_list nl; pair (n_coord n) <$> n_links n))
    (filter (λ kv : string * (string * TypeKey), nl !! kv.1 = None) (t_to_calculate db)) (t_chain_id db).

Lemma persist_index_spec nl db : chains_ok auth_edge ((n_coord <$> nl) ∪ t_chains db) →
  (∀ e, is_Some (nl !! e) → t_chains db !! e = None) →
  (if decide (nl = ∅) then Ok db else _persist_chain_cover_index nl db) = Ok (with_index nl db).
Proof.
  intros Hok Hnew. case_decide as Hnl.
  - subst nl. unfold with_index. rewrite fmap_empty, (left_id_L ∅ (∪)), map_to_list_empty. cbn [mbind list_bind].
    rewrite app_nil_r, map_filter_id by (intros; apply lookup_empty). by destruct db.
  - unfold _persist_chain_cover_index. fold (with_index nl db).
    assert (existsb (λ e, bool_decide (is_Some (t_chains db !! e))) (map_to_list nl).*1 = false) as ->.
    { apply not_true_iff_false. rewrite existsb_exists.
      intros (e & Hin%list_elem_of_In & Hs%bool_decide_eq_true). apply list_elem_of_fmap in Hin as ([e' n] & -> & Hin%elem_of_map_to_list).
      cbn in Hs. rewrite (Hnew e') in Hs by eauto. by destruct Hs. }
    rewrite bool_decide_eq_false_2; [done|]. intros Hn. apply Hn. apply NoDup_fmap_2_strong; [|apply NoDup_map_to_list].
    intros [a x] [b y] Ha%elem_of_map_to_list Hb%elem_of_map_to_list E. cbn in E. subst y.
    by rewrite (co_inj _ _ Hok a b x Ha Hb).
Qed.

Lemma with_index_links nl db x y : row_link (t_links (with_index nl db)) x y ↔ joined_links (t_links db) nl x y.
Proof.
  unfold row_link, with_index, joined_links, new_links. cbn [t_links]. rewrite elem_of_app. apply or_iff_compat_l.
  rewrite list_elem_of_bind. split.
  - intros ([e n] & Hin & Hn%elem_of_map_to_list). apply list_elem_of_fmap in Hin as (z & [= -> ->] & Hz). by exists e, n.
  - intros (e & n & Hn & <- & Hy). exists (e, n). rewrite elem_of_map_to_list. split; [|done]. by apply list_elem_of_fmap_2.
Qed.

(** The events that are stored. *)
Lemma fresh_events_spec events db : (∀ p, p ∈ events → event_ok p) →
  let l := _update_outliers_txn (_filter_events_and_contexts_for_duplicates events) db in
  NoDup (ids l) ∧ (∀ p, p ∈ l → event_ok p) ∧ ∀ i, i ∈ state_ids l ↔ i ∈ state_ids events ∧ ¬ stored db i.
Proof.
  intros Hev. destruct (drop_duplicates_spec events) as (Hnd & Hsub & Hall). cbv zeta in *.
  set (d := _filter_events_and_contexts_for_duplicates events) in *. unfold _update_outliers_txn.
  assert (∀ p, p ∈ filter (λ e, t_events db !! p_event_id e = None) d → event_ok p) as Hl.
  { intros p [_ Hp]%list_elem_of_filter. by apply Hev, Hsub. }
  split_and!; [|done|].
  - eapply sublist_NoDup; [exact Hnd|]. apply fmap_sublist, sublist_filter.
  - intros i. rewrite !elem_of_state_ids. setoid_rewrite list_elem_of_filter. setoid_rewrite <-eq_None_not_Some. split.
    + intros (p & [Hn Hp] & Hs & <-). split; [exists p; auto|done].
    + intros [(p & Hp & Hs & <-) Hn]. pose proof (Hall p Hp) as (q & E & Hq)%list_elem_of_fmap. exists q. rewrite <-E.
      split_and!; [done|done| |done]. rewrite (ev_state q), <-E, <-(ev_state p) by auto. done.
Qed.

Lemma room_rtc e a : rtc auth_edge e a → g_room a = g_room e.
Proof. induction 1 as [|e b a Hb _ IH]; [done|]. rewrite IH. by apply g_auth_room. Qed.

Section after.
Context (db db1 : AuthTables) (events : list PersistedEvent) (nl : StrMap NewEventChainLinks) (B : StrSet).
Hypothesis db_ok : tables_ok db.
Hypothesis calc_ok : calculated B db nl db1.
Hypothesis events_ok : ∀ p, p ∈ events → event_ok p.
Hypothesis B_spec : ∀ i, i ∈ B ↔ i ∈ state_ids events ∧ t_chains db !! i = None.

Abbreviation fresh := (_update_outliers_txn (_filter_events_and_contexts_for_duplicates events) db1).
Abbreviation db2 := (with_index nl (_store_event_txn fresh db1)).
Abbreviation db3 := (mkTables (t_events db2)
  (t_event_auth db2 ++ (e ← filter (λ e, p_is_state e = true) fresh; pair (p_event_id e) <$> p_auth_event_ids e))
  (t_chains db2) (t_links db2) (t_to_calculate db2) (t_chain_id db2)).

Lemma elem_of_fresh i : i ∈ state_ids fresh ↔ i ∈ state_ids events ∧ ¬ stored db i.
Proof. rewrite <-(cd_events _ _ _ _ calc_ok). by apply fresh_events_spec. Qed.

Lemma stored_after i : t_events db3 !! i = if decide (i ∈ state_ids fresh) then Some (g_types i) else t_events db !! i.
Proof.
  cbn [t_events with_index _store_event_txn]. rewrite store_events_spec by (by apply fresh_events_spec).
  by rewrite (cd_events _ _ _ _ calc_ok).
Qed.

Lemma stored_after_iff i : stored db3 i ↔ stored db i ∨ i ∈ state_ids events.
Proof.
  rewrite stored_after. case_decide as Hi; rewrite elem_of_fresh in Hi.
  - split; [right; by apply Hi|eauto].
  - split; [by left|]. intros [?|Hs]; [done|]. destruct (decide (stored db i)) as [?|Hn]; [done|by destruct Hi].
Qed.

Lemma auth_after i : select_auth db3 i = select_auth db i ++ if decide (i ∈ state_ids fresh) then g_auth i else [].
Proof.
  unfold select_auth. cbn [t_event_auth with_index _store_event_txn].
  rewrite filter_app, fmap_app, new_auth_rows by (by apply fresh_events_spec). by rewrite (cd_event_auth _ _ _ _ calc_ok).
Qed.

Lemma chains_after : t_chains db3 = (n_coord <$> nl) ∪ t_chains db.
Proof. cbn [t_chains with_index _store_event_txn]. by rewrite (cd_chains _ _ _ _ calc_ok). Qed.

Lemma unindexed_after i : t_chains db3 !! i = None → nl !! i = None ∧ t_chains db !! i = None.
Proof. rewrite chains_after. intros [Hn ?]%lookup_union_None. split; [|done]. by rewrite lookup_fmap, fmap_None in Hn. Qed.

Lemma calc_after i r : t_to_calculate db3 !! i = Some r ↔ t_to_calculate db1 !! i = Some r ∧ nl !! i = None.
Proof. cbn [t_to_calculate with_index _store_event_txn]. by rewrite map_lookup_filter_Some. Qed.

(** An event that still waits lacks an event. *)
Lemma lacks_after e : stored db3 e → t_chains db3 !! e = None → ∃ a, rtc auth_edge e a ∧ ¬ stored db3 a.
Proof.
  intros Hst [Hnl Hk]%unindexed_after.
  assert (∀ a, (a ∉ B) → ¬ stored db a → ¬ stored db3 a) as Hno.
  { intros a HaB Hns [?|Hin]%stored_after_iff; [done|]. apply HaB, B_spec. split; [done|].
    apply eq_None_not_Some. intros ?%(ok_chains _ db_ok). done. }
  assert (e ∈ B ∨ (is_Some (t_to_calculate db !! e) ∧ ∃ b, b ∈ B ∧ g_room b = g_room e) →
    ∃ a, rtc auth_edge e a ∧ ¬ stored db3 a) as Hlack.
  { intros He. destruct (cd_lacks _ _ _ _ calc_ok e He Hnl) as (a & ? & ? & ?). exists a. split; [done|by apply Hno]. }
  destruct (decide (e ∈ B)) as [?|HnB]; [by apply Hlack; left|].
  apply stored_after_iff in Hst as [Hst|Hin]; [|by destruct HnB; apply B_spec].
  destruct (ok_wait _ db_ok e Hst Hk) as (Hw & a & Ha & Hns).
  destruct (decide (a ∈ B)) as [HaB|HaB]; [|exists a; split; [done|by apply Hno]].
  apply Hlack. right. split; [done|]. exists a. split; [done|]. by apply room_rtc.
Qed.

Lemma tables_after : tables_ok db3.
Proof.
  split.
  - rewrite chains_after. eapply cover_links_ext; [|apply (cd_cover _ _ _ _ calc_ok)].
    intros x y. rewrite <-(cd_links _ _ _ _ calc_ok). symmetry. apply (with_index_links nl (_store_event_txn fresh db1)).
  - intros e x. rewrite chains_after. apply (cd_ids _ _ _ _ calc_ok).
  - intros e. rewrite chains_after, stored_after_iff, lookup_union_is_Some, lookup_fmap, fmap_is_Some. intros [He|He].
    + destruct (cd_new _ _ _ _ calc_ok e He) as [_ [[? _]%B_spec|?]]; auto.
    + left. by apply (ok_chains _ db_ok).
  - intros e tk. rewrite stored_after. case_decide; [by intros [= <-]|apply (ok_types _ db_ok)].
  - intros e Hst. rewrite auth_after. case_decide as Hf; pose proof Hf as Hf'; rewrite elem_of_fresh in Hf'.
    + by rewrite (ok_no_auth _ db_ok) by apply Hf'.
    + rewrite app_nil_r. apply (ok_auth _ db_ok). rewrite stored_after in Hst. by rewrite decide_False in Hst.
  - intros e Hst. rewrite auth_after. rewrite stored_after_iff in Hst.
    rewrite (ok_no_auth _ db_ok) by tauto. rewrite decide_False; [done|]. rewrite elem_of_fresh. tauto.
  - intros e r [Hr Hnl]%calc_after.
    assert (t_chains db !! e = None → t_chains db3 !! e = None) as Hk.
    { intros Hk. rewrite chains_after. apply lookup_union_None. by rewrite lookup_fmap, Hnl. }
    rewrite stored_after_iff. destruct (cd_calc _ _ _ _ calc_ok e r Hr) as [(? & ? & ?)%(ok_calc _ db_ok)|[[? ?]%B_spec ?]]; auto.
  - intros e Hst Hk. split; [|by apply lacks_after]. apply unindexed_after in Hk as [Hnl Hk].
    assert (is_Some (t_to_calculate db1 !! e)) as [r Hr]; [|exists r; by apply calc_after].
    apply stored_after_iff in Hst as [Hst|Hin].
    + by apply (cd_keep _ _ _ _ calc_ok), (ok_wait _ db_ok).
    + apply (cd_left _ _ _ _ calc_ok); [by apply B_spec|done].
Qed.

Lemma persist_events_spec : _persist_events_txn events nl db1 = Ok db3.
Proof.
  unfold _persist_events_txn, _persist_event_auth_chain_txn. rewrite persist_index_spec; [done| |].
  - cbn [t_chains _store_event_txn]. rewrite (cd_chains _ _ _ _ calc_ok). apply (cv_chains _ _ _ (cd_cover _ _ _ _ calc_ok)).
  - intros e He. cbn [t_chains _store_event_txn]. rewrite (cd_chains _ _ _ _ calc_ok). by apply (cd_new _ _ _ _ calc_ok).
Qed.
End after.

Lemma persist_batch_spec row events db : no_chain_index row = false → tables_ok db →
  (∀ p, p ∈ events → event_ok p) →
  ∃ db', persist_batch object_order row events db = Ok db' ∧ tables_ok db' ∧
    ∀ e, stored db' e ↔ stored db e ∨ e ∈ state_ids events.
Proof.
  intros Hrow Hok Hev. unfold persist_batch.
  destruct (calculate_for_events_spec row events db Hrow Hok Hev) as (nl & db1 & B & -> & Hcalc & HB). cbn [mbind res_bind].
  rewrite (persist_events_spec db db1 events nl B Hcalc). eexists. split_and!; [done| |].
  - by apply (tables_after db db1 events nl B).
  - by apply (stored_after_iff db db1 events nl B).
Qed.
End batch.
