(* ===== verification/ChainSearch.v ===== *)
(** * Auth chains by searching

    Where a room has no chain cover index, or an event is not in it,
    [synapse/storage/databases/main/event_federation.py] walks the auth graph
    itself. The table [events] gives the depth of each event that is there; the
    cache of auth events is a map, to which an eviction would make no other
    difference than a query. *)

From S2P Require Import Prelude PyOrd PresenceStore ChainLinks ChainCover ChainQuery.
#[local] Open Scope Z_scope.

Abbreviation AuthCache := (StrMap (list (string * Z))).

(** [SELECT a.event_id, auth_id, depth FROM event_auth AS a INNER JOIN events ...] *)
Definition auth_row (depths : StrMap Z) (to_fetch : list string) (r : string * string) : option (string * (string * Z)) :=
  if decide (r.1 ∈ to_fetch) then (λ d, (r.1, (r.2, d))) <$> depths !! r.2 else None.
Definition select_auth_depths (db : AuthTables) (depths : StrMap Z) (to_fetch : list string) :
    list (string * (string * Z)) := omap (auth_row depths to_fetch) (t_event_auth db).

(** [to_cache.setdefault(event_id, []).append(...)], of events not in the cache. *)
Definition cache_row (cache : AuthCache) (r : string * (string * Z)) : AuthCache :=
  <[r.1 := default [] (cache !! r.1) ++ [r.2]]> cache.

Definition cached_auth (cache : AuthCache) (event_id : string) : list (string * (string * Z)) :=
  match cache !! event_id with Some res => pair event_id <$> res | None => [] end.

(** The auth events of a chunk, from the cache or the database. *)
Definition fetch_chunk (db : AuthTables) (depths : StrMap Z) (cache : AuthCache) (chunk : list string) :
    list (string * (string * Z)) * AuthCache :=
  let to_fetch := filter (λ e, cache !! e = None) chunk in
  let fetched := select_auth_depths db depths to_fetch in
  ((chunk ≫= cached_auth cache) ++ fetched, foldl cache_row cache fetched).

(** ** [_get_auth_chain_ids_txn] *)

Definition front_chunk (db : AuthTables) (depths : StrMap Z) (acc : StrSet * AuthCache) (chunk : list string) :
    StrSet * AuthCache :=
  let '(found, cache) := fetch_chunk db depths acc.2 chunk in
  (acc.1 ∪ list_to_set ((λ r : string * (string * Z), r.2.1) <$> found), cache).

Fixpoint front_loop (fuel : nat) (db : AuthTables) (depths : StrMap Z) (front results : StrSet) (cache : AuthCache) :
    res (StrSet * AuthCache) :=
  if decide (front = ∅) then Ok (results, cache) else
  match fuel with
  | O => Raise OutOfFuel
  | S fuel =>
      let '(new_front, cache) := foldl (front_chunk db depths) (∅, cache) (batch_iter (elements front) 100) in
      let front := new_front ∖ results in
      front_loop fuel db depths front (results ∪ front) cache
  end.

(** Every round but the last finds an event. *)
Definition _get_auth_chain_ids_txn (event_ids : list string) (include_given : bool) (db : AuthTables)
    (depths : StrMap Z) (cache : AuthCache) : res (StrSet * AuthCache) :=
  front_loop (S (size depths)) db depths (list_to_set event_ids)
    (if include_given then list_to_set event_ids else ∅) cache.

(** ** [_get_auth_chain_difference_txn] *)

Record walk := mkWalk {
  w_search : list (Z * string);
  w_missing : StrMap (gset nat);   (** event_to_missing_sets *)
  w_auth : StrMap StrSet           (** event_to_auth_events *)
}.

(** [event_to_missing_sets[a_id].intersection_update(event_to_missing_sets[event_id])] *)
Definition mark (event_id : string) (missing : StrMap (gset nat)) (a_id : string) : res (StrMap (gset nat)) :=
  match missing !! a_id, missing !! event_id with
  | Some sets, Some sets' => Ok (<[a_id := sets ∩ sets']> missing)
  | _, _ => Raise KeyError
  end.

(** Mark all ancestors, level by level. *)
Fixpoint mark_ancestors (fuel : nat) (auth : StrMap StrSet) (event_id : string) (a_ids : StrSet)
    (missing : StrMap (gset nat)) : res (StrMap (gset nat)) :=
  if decide (a_ids = ∅) then Ok missing else
  match fuel with
  | O => Raise OutOfFuel
  | S fuel =>
      missing ← foldM (mark event_id) missing (elements a_ids);
      mark_ancestors fuel auth event_id (⋃ ((λ a_id, default ∅ (auth !! a_id)) <$> elements a_ids)) missing
  end.

(** One auth event of one event. *)
Definition visit_auth (n : nat) (w : walk) (r : string * (string * Z)) : res walk :=
  let '(event_id, (auth_event_id, auth_event_depth)) := r in
  let auth := <[event_id := {[auth_event_id]} ∪ default ∅ (w_auth w !! event_id)]> (w_auth w) in
  '(search, missing) ←
    match w_missing w !! auth_event_id with
    | None => Ok (w_search w ++ [(auth_event_depth, auth_event_id)],
                  <[auth_event_id := list_to_set (seq 0 n)]> (w_missing w))
    | Some _ =>
        missing ← mark_ancestors (S (size auth)) auth event_id (default ∅ (auth !! auth_event_id)) (w_missing w);
        Ok (w_search w, missing)
    end;
  missing ← mark event_id missing auth_event_id;
  Ok (mkWalk search missing auth).

(** [all(not event_to_missing_sets[eid] for _, eid in search)] *)
Fixpoint all_reached (missing : StrMap (gset nat)) (search : list (Z * string)) : res bool :=
  match search with
  | [] => Ok true
  | (_, eid) :: search =>
      match missing !! eid with
      | None => Raise KeyError
      | Some sets => if decide (sets = ∅) then all_reached missing search else Ok false
      end
  end.

Definition sort_search (search : list (Z * string)) : list (Z * string) := py_sort id search.

Fixpoint walk_loop (fuel : nat) (n : nat) (db : AuthTables) (depths : StrMap Z) (w : walk) (cache : AuthCache) :
    res (walk * AuthCache) :=
  if decide (w_search w = []) then Ok (w, cache) else
  stop ← all_reached (w_missing w) (w_search w);
  if (stop : bool) then Ok (w, cache) else
  match fuel with
  | O => Raise OutOfFuel
  | S fuel =>
      let k := (length (w_search w) - 100)%nat in
      let '(found, cache) := fetch_chunk db depths cache (drop k (w_search w)).*2 in
      w ← foldM (visit_auth n) (mkWalk (take k (w_search w)) (w_missing w) (w_auth w)) found;
      walk_loop fuel n db depths (mkWalk (sort_search (w_search w)) (w_missing w) (w_auth w)) cache
  end.

Definition missing_sets (state_sets : list StrSet) (event_id : string) : gset nat :=
  list_to_set ((filter (λ ia : nat * StrSet, event_id ∉ ia.2) (imap pair state_sets)).*1).

Definition start_walk (state_sets : list StrSet) (depths : StrMap Z) : walk :=
  let initial_events := set_union state_sets in
  mkWalk
    (sort_search (omap (λ e, (λ d, (d, e)) <$> depths !! e) (elements initial_events)))
    (set_to_map (λ e, (e, missing_sets state_sets e)) initial_events) ∅.

(** An event is searched from once. *)
Definition _get_auth_chain_difference_txn (state_sets : list StrSet) (db : AuthTables) (depths : StrMap Z)
    (cache : AuthCache) : res (StrSet * AuthCache) :=
  raise_if (bool_decide (state_sets = [])) IndexError;;
  '(w, cache) ← walk_loop (S (size depths)) (length state_sets) db depths (start_walk state_sets depths) cache;
  Ok (dom (filter (λ kv : string * gset nat, kv.2 ≠ ∅) (w_missing w)), cache).

(** ** The entry points *)

(** The row of the room: [room[1]] is [has_auth_chain_index]. *)
Definition has_index (room : option (option bool)) : res bool :=
  match room with None => Raise TypeError | Some b => Ok (default false b) end.

(** [except _NoChainCoverIndex], which is raised again but in tests. *)
Definition with_fallback {A} (tests_allow_no_chain_cover_index : bool) (r fallback : res A) : res A :=
  match r with
  | Raise e => if bool_decide (e = _NoChainCoverIndex) && tests_allow_no_chain_cover_index then fallback else r
  | Ok _ => r
  end.

Definition get_auth_chain_ids (tests_allow : bool) (room : option (option bool)) (event_ids : list string)
    (include_given : bool) (db : AuthTables) (depths : StrMap Z) (cache : AuthCache) : res (StrSet * AuthCache) :=
  indexed ← has_index room;
  let search := _get_auth_chain_ids_txn event_ids include_given db depths cache in
  if (indexed : bool)
  then with_fallback tests_allow (D ← _get_auth_chain_ids_using_cover_index_txn event_ids include_given db; Ok (D, cache)) search
  else search.

Definition store_get_auth_chain_difference (tests_allow : bool) (room : option (option bool)) (room_id : string)
    (state_sets : list StrSet) (db : AuthTables) (depths : StrMap Z) (cache : AuthCache) : res (StrSet * AuthCache) :=
  indexed ← has_index room;
  let search := _get_auth_chain_difference_txn state_sets db depths cache in
  if (indexed : bool)
  then with_fallback tests_allow (D ← _get_auth_chain_difference_using_cover_index_txn room_id state_sets db; Ok (D, cache)) search
  else search.
