(* ===== verification/ChainWalk.v ===== *)
(** * The searches of the auth graph

    [_get_auth_chain_ids_txn] is exact. [_get_auth_chain_difference_txn] finds
    every event of the difference, but may stop before it has found that an
    event is reached by all state sets. *)

From S2P Require Import Prelude PyOrd PresenceStore ChainLinks ChainCover ChainQuery ChainQueryProps ChainSearch.
From stdpp Require Import relations.
#[local] Open Scope Z_scope.

Section search.
Context (db : AuthTables) (depths : StrMap Z).

(** The auth events that are there. *)
Definition found_edge (e a : string) : Prop := (e, a) ∈ t_event_auth db ∧ is_Some (depths !! a).

(** The cache holds what the query would give. *)
Definition cache_ok (cache : AuthCache) : Prop := ∀ e l, cache !! e = Some l →
  ∀ a d, (a, d) ∈ l ↔ found_edge e a ∧ depths !! a = Some d.

Lemma cache_ok_empty : cache_ok ∅.
Proof. intros e l Hl. by apply lookup_empty_Some in Hl. Qed.

(** ** Fetching *)

Lemma cache_rows_lookup rows cache e :
  foldl cache_row cache rows !! e =
  match filter (λ r : string * (string * Z), r.1 = e) rows with
  | [] => cache !! e
  | l => Some (default [] (cache !! e) ++ l.*2)
  end.
Proof.
  revert cache. induction rows as [|[e' x] rows IH]; intros cache; [done|]. cbn [foldl]. rewrite IH, filter_cons. cbn [fst].
  unfold cache_row. cbn [fst snd]. destruct (decide (e' = e)) as [->|Hne].
  - rewrite lookup_insert_eq. destruct (filter _ rows); [done|]. cbn. by rewrite <-app_assoc.
  - by rewrite lookup_insert_ne.
Qed.

Lemma elem_of_select_auth_depths to_fetch e a d :
  (e, (a, d)) ∈ select_auth_depths db depths to_fetch ↔ e ∈ to_fetch ∧ found_edge e a ∧ depths !! a = Some d.
Proof.
  unfold select_auth_depths, found_edge. rewrite list_elem_of_omap. split.
  - intros ([e' a'] & Hin & Hr). unfold auth_row in Hr. cbn in Hr. case_decide as He; [|done].
    apply fmap_Some in Hr as (d' & Hd & [= -> -> ->]). eauto.
  - intros (He & [Hin _] & Hd). exists (e, a). split; [done|]. unfold auth_row. cbn. rewrite decide_True by done. by rewrite Hd.
Qed.

Lemma fetch_chunk_spec cache chunk : cache_ok cache → let r := fetch_chunk db depths cache chunk in
  (∀ e a d, (e, (a, d)) ∈ r.1 ↔ e ∈ chunk ∧ found_edge e a ∧ depths !! a = Some d) ∧ cache_ok r.2.
Proof.
  intros Hc. unfold fetch_chunk. set (to_fetch := filter _ chunk). cbn [fst snd].
  assert (∀ e, e ∈ to_fetch ↔ e ∈ chunk ∧ cache !! e = None) as Hf by (intros e; unfold to_fetch; rewrite list_elem_of_filter; tauto).
  split.
  - intros e a d. rewrite elem_of_app, elem_of_select_auth_depths, Hf, list_elem_of_bind.
    assert ((∃ y, (e, (a, d)) ∈ cached_auth cache y ∧ y ∈ chunk) ↔
      e ∈ chunk ∧ is_Some (cache !! e) ∧ found_edge e a ∧ depths !! a = Some d) as ->.
    { unfold cached_auth. split.
      - intros (y & Hin & Hy). destruct (cache !! y) as [l|] eqn:E; [|by apply elem_of_nil in Hin].
        apply list_elem_of_fmap in Hin as ([a' d'] & [= -> -> ->] & Hin). rewrite E. split; [done|]. split; [eauto|]. by apply (Hc y l E).
      - intros (He & [l Hl] & Ha). exists e. split; [|done]. rewrite Hl. apply list_elem_of_fmap_2. by apply (Hc e l Hl). }
    destruct (cache !! e) as [l|]; split.
    + intros [(? & _ & ?)|[[_ ?] _]]; done.
    + intros (? & ?). left. eauto.
    + intros [(_ & [? ?] & _)|[[? _] ?]]; done.
    + intros (? & ?). right. done.
  - intros e l. rewrite cache_rows_lookup. destruct (filter (λ r : string * (string * Z), r.1 = e) _) as [|r rs] eqn:E; [exact (Hc e l)|]. intros [= <-].
    assert (∀ x, x ∈ r :: rs ↔ x.1 = e ∧ x ∈ select_auth_depths db depths to_fetch) as Hin by (intros x; by rewrite <-E, list_elem_of_filter).
    assert (e ∈ to_fetch) as [_ He]%Hf.
    { destruct r as [e' [a d]]. assert ((e', (a, d)) ∈ (e', (a, d)) :: rs) as [Ee Hr]%Hin by left. cbn in Ee. subst e'.
      by apply elem_of_select_auth_depths in Hr as [? _]. }
    rewrite He. intros a d. change (r.2 :: list_fmap _ _ snd rs) with (snd <$> (r :: rs)). cbn [default from_option id].
    rewrite app_nil_l, list_elem_of_fmap. split.
    + intros ([e' [a' d']] & [= <- <-] & [Ee Hr]%Hin). cbn in Ee. subst e'. by apply elem_of_select_auth_depths in Hr as [_ ?].
    + intros Ha. exists (e, (a, d)). split; [done|]. apply Hin. split; [done|]. apply elem_of_select_auth_depths.
      split; [|done]. assert (r ∈ r :: rs) as [Ee Hr]%Hin by left. destruct r as [e' [a' d']]. cbn in Ee. subst e'.
      by apply elem_of_select_auth_depths in Hr as [? _].
Qed.

(** ** One auth chain *)

Lemma front_chunks_spec chunks new cache : cache_ok cache → let r := foldl (front_chunk db depths) (new, cache) chunks in
  (∀ a, a ∈ r.1 ↔ a ∈ new ∨ ∃ e, e ∈ concat chunks ∧ found_edge e a) ∧ cache_ok r.2.
Proof.
  revert new cache. induction chunks as [|chunk chunks IH]; intros new cache Hc; cbn [foldl].
  { split; [|done]. intros a. split; [by left|]. intros [?|(e & ?%elem_of_nil & _)]; done. }
  unfold front_chunk at 2 4. cbn [fst snd]. pose proof (fetch_chunk_spec cache chunk Hc) as [Hf Hc'].
  destruct (fetch_chunk db depths cache chunk) as [found cache']. cbn [fst snd] in *.
  destruct (IH (new ∪ list_to_set ((λ r : string * (string * Z), r.2.1) <$> found)) cache' Hc') as [IH1 IH2]. split; [|done].
  intros a. rewrite IH1, elem_of_union, elem_of_list_to_set, list_elem_of_fmap. cbn [concat]. setoid_rewrite elem_of_app.
  assert ((∃ y : string * (string * Z), a = y.2.1 ∧ y ∈ found) ↔ ∃ e, e ∈ chunk ∧ found_edge e a) as ->; [|naive_solver].
  split.
  - intros ([e [a' d]] & -> & Hin%Hf). naive_solver.
  - intros (e & He & Ha). pose proof Ha as [_ [d Hd]]. exists (e, (a, d)). split; [done|]. by apply Hf.
Qed.

Lemma front_loop_spec fuel (given front results : StrSet) (include_given : bool) cache :
  cache_ok cache →
  (∀ x, x ∈ results → (include_given = true ∧ x ∈ given) ∨ ∃ v, v ∈ given ∧ tc found_edge v x) →
  (∀ x, x ∈ front → ∃ v, v ∈ given ∧ rtc found_edge v x) →
  (include_given = true → given ⊆ results) →
  (∀ x a, x ∈ given ∨ x ∈ results → x ∉ front → found_edge x a → a ∈ results) →
  (size (dom depths ∖ results) + (if decide (front = ∅) then 0 else 1) ≤ fuel)%nat →
  ∃ D cache', front_loop fuel db depths front results cache = Ok (D, cache') ∧ cache_ok cache' ∧
    ∀ x, x ∈ D ↔ (include_given = true ∧ x ∈ given) ∨ ∃ v, v ∈ given ∧ tc found_edge v x.
Proof.
  revert front results cache. induction fuel as [|fuel IH]; intros front results cache Hc HR HF Hg Hexp Hfuel; cbn [front_loop];
    destruct (decide (front = ∅)) as [->|Hne].
  1,3: exists results, cache; (split_and!; [done|done|]); intros x; (split; [apply HR|]); intros [[Hi ?]|(v & Hv & Ht)];
    [by apply Hg|]; revert x Ht; apply tc_ind_r;
    [intros y Hy; apply (Hexp v); [by left|by apply not_elem_of_empty|done]
    |intros y z _ Hyz Hy; apply (Hexp y); [by right|by apply not_elem_of_empty|done]].
  { lia. }
  pose proof (front_chunks_spec (batch_iter (elements front) 100) ∅ cache Hc) as [Hnew Hc'].
  destruct (foldl _ _ _) as [new cache']. cbn [fst snd] in *. rewrite batch_iter_concat in Hnew by lia.
  assert (∀ a, a ∈ new ↔ ∃ e, e ∈ front ∧ found_edge e a) as Hnew'.
  { intros a. rewrite Hnew. setoid_rewrite elem_of_elements. split; [intros [?%elem_of_empty|?]; done|by right]. }
  apply IH; [done|..].
  - intros x [Hx|[(e & He & Hex)%Hnew' _]%elem_of_difference]%elem_of_union; [by apply HR|]. right.
    destruct (HF e He) as (v & Hv & Hr). exists v. split; [done|]. eapply tc_rtc_l; [exact Hr|by apply tc_once].
  - intros x [(e & He & Hex)%Hnew' _]%elem_of_difference. destruct (HF e He) as (v & Hv & Hr). exists v. split; [done|]. by eapply rtc_r.
  - intros Hi. specialize (Hg Hi). set_solver.
  - intros x a Hx Hn Hxa. apply elem_of_union. destruct (decide (a ∈ results)) as [?|Hna]; [by left|right].
    apply elem_of_difference. split; [|done]. apply Hnew'. exists x. split; [|done].
    apply dec_stable. intros Hnf. apply Hna. apply (Hexp x); [|done|done]. destruct Hx as [?|Hx]; [by left|]. right.
    apply elem_of_union in Hx as [?|?]; done.
  - destruct (decide (new ∖ results = ∅)) as [He|Hne'].
    + rewrite He, (right_id_L ∅ (∪)). lia.
    + assert (size (dom depths ∖ (results ∪ new ∖ results)) < size (dom depths ∖ results))%nat; [|lia].
      apply subset_size, strict_spec_alt. split; [set_solver|]. intros Heq. apply set_choose_L in Hne' as [a Ha].
      pose proof Ha as [(e & _ & [_ Hd])%Hnew' Hna]%elem_of_difference.
      assert (a ∈ dom depths ∖ results) as Hin by (apply elem_of_difference; split; [by apply elem_of_dom|done]).
      rewrite <-Heq in Hin. set_solver.
Qed.

Lemma auth_chain_ids_search (ids : list string) include_given cache : cache_ok cache →
  ∃ D cache', _get_auth_chain_ids_txn ids include_given db depths cache = Ok (D, cache') ∧ cache_ok cache' ∧
    ∀ x, x ∈ D ↔ (include_given = true ∧ x ∈ ids) ∨ ∃ v, v ∈ ids ∧ tc found_edge v x.
Proof.
  intros Hc. unfold _get_auth_chain_ids_txn.
  destruct (front_loop_spec (S (size depths)) (list_to_set ids) (list_to_set ids)
    (if include_given then list_to_set ids else ∅) include_given cache) as (D & cache' & E & Hc' & HD).
  - done.
  - destruct include_given; [by left|by intros x ?%elem_of_empty].
  - intros x Hx. exists x. by split.
  - by intros ->.
  - intros x a [Hx|Hx] Hn; [done|]. destruct include_given; [done|by apply elem_of_empty in Hx].
  - assert (size (dom depths ∖ (if include_given then list_to_set ids else ∅)) ≤ size depths)%nat.
    { rewrite <-size_dom. apply subseteq_size. set_solver. }
    case_decide; lia.
  - exists D, cache'. split_and!; [done|done|]. intros x. rewrite HD. by setoid_rewrite elem_of_list_to_set.
Qed.
End search.

(** ** The walk for the auth chain difference

    What [_get_auth_chain_difference_txn] has found at any point: a set that is
    not missing from an event reaches it, and what an event is known to be
    reached by is passed on to its auth events. *)

(** ** Marking ancestors *)

(** [missing] with what is missing from [e], which is [M], passed on to some events. *)
Record marked (M : gset nat) (P : string → Prop) (missing missing' : StrMap (gset nat)) : Prop := mkMarked {
  mk_dom x : is_Some (missing' !! x) ↔ is_Some (missing !! x);
  mk_val x N N' : missing !! x = Some N → missing' !! x = Some N' → N' = N ∨ (P x ∧ N' = N ∩ M);
  mk_all x N' : P x → missing' !! x = Some N' → N' ⊆ M
}.

Lemma marked_none M missing : marked M (λ _, False) missing missing.
Proof. split; [done| |done]. intros x N N' ? ?. left. congruence. Qed.

Lemma marked_step M P x missing missing' N : marked M P missing missing' → missing' !! x = Some N →
  marked M (λ y, P y ∨ y = x) missing (<[x := N ∩ M]> missing').
Proof.
  intros [Hd Hv Ha] Hx. split.
  - intros y. rewrite lookup_insert_is_Some', <-Hd. split; [|by right]. intros [<-|?]; [eauto|done].
  - intros y N0 N' Hy [[<- <-]|[Hne HN']]%lookup_insert_Some.
    + destruct (Hv x N0 N Hy Hx) as [->|[? ->]]; right; (split; [by right|set_solver]).
    + destruct (Hv y N0 N' Hy HN') as [?|[? ?]]; [by left|right; split; [by left|done]].
  - intros y N' Hp [[<- <-]|[Hne HN']]%lookup_insert_Some; [set_solver|]. destruct Hp as [?|?]; [by eapply Ha|done].
Qed.

Lemma marked_weaken M P Q missing missing' : (∀ x, P x ↔ Q x) → marked M P missing missing' → marked M Q missing missing'.
Proof.
  intros Hiff [Hd Hv Ha]. split; [done| |].
  - intros x N N' H1 H2. rewrite <-Hiff. by eapply Hv.
  - intros x N'. rewrite <-Hiff. apply Ha.
Qed.

Lemma marked_trans M P Q m1 m2 m3 : marked M P m1 m2 → marked M Q m2 m3 → marked M (λ x, P x ∨ Q x) m1 m3.
Proof.
  intros [Hd1 Hv1 Ha1] [Hd2 Hv2 Ha2]. split.
  - intros x. by rewrite Hd2, Hd1.
  - intros x N N'' H1 H3. assert (is_Some (m2 !! x)) as [N' H2] by (apply Hd2; eauto).
    destruct (Hv1 x N N' H1 H2) as [->|[? ->]], (Hv2 x _ N'' H2 H3) as [->|[? ->]]; [by left|right..];
      (split; [tauto|set_solver]).
  - intros x N'' [Hp|Hq] H3; [|by eapply Ha2]. assert (is_Some (m2 !! x)) as [N' H2] by (apply Hd2; eauto).
    specialize (Ha1 x N' Hp H2). destruct (Hv2 x N' N'' H2 H3) as [->|[_ ->]]; set_solver.
Qed.

Lemma mark_spec e M missing a N : missing !! e = Some M → missing !! a = Some N →
  mark e missing a = Ok (<[a := N ∩ M]> missing).
Proof. intros He Ha. unfold mark. by rewrite Ha, He. Qed.

Lemma mark_level e M missing (l : list string) : missing !! e = Some M → e ∉ l → (∀ a, a ∈ l → is_Some (missing !! a)) →
  ∃ missing', foldM (mark e) missing l = Ok missing' ∧ marked M (λ x, x ∈ l) missing missing' ∧ missing' !! e = Some M.
Proof.
  intros He Hn Hl.
  destruct (foldM_total_prefix (λ pre missing', marked M (λ x, x ∈ pre) missing missing' ∧ missing' !! e = Some M)
    (mark e) missing l) as (m' & Hok & Hm & He').
  - split; [|done]. eapply marked_weaken; [|apply marked_none]. intros x. rewrite elem_of_nil. tauto.
  - intros pre a post m1 E [Hm He1]. assert (a ∈ l) as Hal by (rewrite E; apply elem_of_app; right; by left).
    destruct (proj2 (mk_dom _ _ _ _ Hm a) (Hl a Hal)) as [N HN].
    rewrite (mark_spec e M m1 a N He1 HN). eexists. split; [done|]. split.
    + eapply marked_weaken; [|by apply marked_step]. intros x. cbn. rewrite elem_of_app, list_elem_of_singleton. done.
    + rewrite lookup_insert_ne; [done|]. by intros ->.
  - eauto.
Qed.

Section mark.
Context (auth : StrMap StrSet) (rank : string → nat).
Definition walked (x y : string) : Prop := ∃ A, auth !! x = Some A ∧ y ∈ A.
Hypothesis walked_rank : ∀ x y, walked x y → (rank y < rank x)%nat.

Lemma walked_rtc_rank x y : rtc walked x y → (rank y ≤ rank x)%nat.
Proof. induction 1 as [|x y z Hxy _ IH]; [done|]. apply walked_rank in Hxy. lia. Qed.

Lemma mark_ancestors_spec fuel e M (A : StrSet) missing :
  missing !! e = Some M →
  (∀ a x, a ∈ A → rtc walked a x → x ≠ e ∧ is_Some (missing !! x)) →
  (∀ a, a ∈ A → (size (filter (λ k, (rank k ≤ rank a)%nat) (dom auth)) < fuel)%nat) →
  ∃ missing', mark_ancestors fuel auth e A missing = Ok missing' ∧
    marked M (λ x, ∃ a, a ∈ A ∧ rtc walked a x) missing missing' ∧ missing' !! e = Some M.
Proof.
  revert A missing. induction fuel as [|fuel IH]; intros A missing He HA Hf; cbn [mark_ancestors];
    destruct (decide (A = ∅)) as [->|Hne].
  1,3: exists missing; (split_and!; [done| |done]); (eapply marked_weaken; [|apply marked_none]); intros x;
    split; [done|by intros (a & ?%elem_of_empty & _)].
  { apply set_choose_L in Hne as [a Ha]. specialize (Hf a Ha). lia. }
  destruct (mark_level e M missing (elements A) He) as (m1 & -> & Hm1 & He1).
  { rewrite elem_of_elements. intros Hin. by destruct (HA e e Hin (rtc_refl _ _)). }
  { intros a Ha%elem_of_elements. by destruct (HA a a Ha (rtc_refl _ _)). }
  cbn [mbind res_bind]. set (A' := ⋃ _).
  assert (∀ y, y ∈ A' ↔ ∃ a, a ∈ A ∧ walked a y) as HA'.
  { intros y. unfold A', walked. rewrite elem_of_union_list. setoid_rewrite list_elem_of_fmap. setoid_rewrite elem_of_elements. split.
    - intros (X & (a & -> & Ha) & Hy). exists a. split; [done|]. destruct (auth !! a) as [S|]; cbn in Hy; [eauto|set_solver].
    - intros (a & Ha & S & HS & Hy). exists S. split; [exists a; by rewrite HS|done]. }
  destruct (IH A' m1 He1) as (m2 & -> & Hm2 & He2).
  - intros y x (a & Ha & Hay)%HA' Hyx. destruct (HA a x Ha) as [Hx ?]; [by eapply rtc_l|]. split; [done|]. by apply (mk_dom _ _ _ _ Hm1).
  - intros y (a & Ha & Hay)%HA'. specialize (Hf a Ha). pose proof (walked_rank a y Hay) as Hr.
    assert (size (filter (λ k, (rank k ≤ rank y)%nat) (dom auth)) < size (filter (λ k, (rank k ≤ rank a)%nat) (dom auth)))%nat; [|lia].
    apply subset_size, strict_spec_alt. split.
    + intros k. rewrite !elem_of_filter. intros [? ?]. split; [lia|done].
    + intros Heq. assert (a ∈ filter (λ k, (rank k ≤ rank a)%nat) (dom auth)) as Hin.
      { apply elem_of_filter. split; [done|]. destruct Hay as (S & HS & _). apply elem_of_dom. eauto. }
      rewrite <-Heq in Hin. apply elem_of_filter in Hin as [? _]. lia.
  - exists m2. split_and!; [done| |done]. eapply marked_weaken; [|exact (marked_trans M _ _ _ _ _ Hm1 Hm2)].
    intros x. cbv beta. rewrite elem_of_elements. split.
    + intros [?|(y & (a & Ha & Hay)%HA' & Hyx)]; [by exists x|]. exists a. split; [done|]. by eapply rtc_l.
    + intros (a & Ha & [->|(y & Hay & Hyx)]%rtc_inv); [by left|]. right. exists y. split; [|done]. apply HA'. eauto.
Qed.
End mark.

(** ** The walk *)

Section walk.
Context (db : AuthTables) (depths : StrMap Z) (rank : string → nat) (sets : list StrSet).
Abbreviation edge := (found_edge db depths).
Abbreviation n := (length sets).
Hypothesis edge_rank : ∀ e a, edge e a → (rank a < rank e)%nat.
Hypothesis edge_stored : ∀ e a, edge e a → is_Some (depths !! e).

Definition reached (i : nat) (x : string) : Prop := ∃ S v, sets !! i = Some S ∧ v ∈ S ∧ rtc edge v x.

Lemma reached_edge i x y : reached i x → edge x y → reached i y.
Proof. intros (S & v & HS & Hv & Hr) Hxy. exists S, v. split_and!; [done|done|]. by eapply rtc_r. Qed.

Lemma reached_rtc i x y : reached i x → rtc edge x y → reached i y.
Proof. intros (S & v & HS & Hv & Hr) Hxy. exists S, v. split_and!; [done|done|]. by etrans. Qed.

Record walk_inv (w : walk) : Prop := mkWalkInv {
  wi_sound x M i : w_missing w !! x = Some M → (i < n)%nat → i ∉ M → reached i x;
  wi_range x M i : w_missing w !! x = Some M → i ∈ M → (i < n)%nat;
  wi_some x : is_Some (w_missing w !! x) → ∃ i, reached i x;
  wi_auth x y : walked (w_auth w) x y → edge x y ∧
    ∃ M M', w_missing w !! x = Some M ∧ w_missing w !! y = Some M' ∧ M' ⊆ M;
  wi_given i S v : sets !! i = Some S → v ∈ S → ∃ M, w_missing w !! v = Some M ∧ i ∉ M;
  wi_nodup : NoDup (w_search w).*2;
  wi_search d e : (d, e) ∈ w_search w → depths !! e = Some d ∧ is_Some (w_missing w !! e)
}.

(** The events searched from, but for those of [chunk]. *)
Definition expanded (chunk : list string) (w : walk) : Prop := ∀ x y, is_Some (w_missing w !! x) →
  x ∉ (w_search w).*2 → x ∉ chunk → edge x y → walked (w_auth w) x y.

Lemma walked_insert (auth : StrMap StrSet) e a x y :
  walked (<[e := {[a]} ∪ default ∅ (auth !! e)]> auth) x y ↔ walked auth x y ∨ (x = e ∧ y = a).
Proof.
  unfold walked. split.
  - intros (A & [[<- <-]|[_ HA]]%lookup_insert_Some & Hy); [|left; eauto].
    apply elem_of_union in Hy as [->%elem_of_singleton|Hy]; [by right|left]. destruct (auth !! e); cbn in Hy; [eauto|set_solver].
  - intros [(A & HA & Hy)|[-> ->]].
    + destruct (decide (x = e)) as [->|Hne]; [|exists A; by rewrite lookup_insert_ne].
      eexists. rewrite lookup_insert_eq. split; [done|]. rewrite HA. cbn. set_solver.
    + eexists. rewrite lookup_insert_eq. split; [done|]. set_solver.
Qed.

(** What is passed on from [e] to what is below its auth event [a]. *)
Lemma marked_inv (w : walk) e a Me m' : walk_inv w → edge e a → w_missing w !! e = Some Me → m' !! e = Some Me →
  is_Some (w_missing w !! a) →
  marked Me (λ x, rtc (walked (<[e := {[a]} ∪ default ∅ (w_auth w !! e)]> (w_auth w))) a x) (w_missing w) m' →
  walk_inv (mkWalk (w_search w) m' (<[e := {[a]} ∪ default ∅ (w_auth w !! e)]> (w_auth w))).
Proof.
  intros [Hs Hr Hso Hau Hgi Hnd Hse] Hea He He' Ha Hm. set (auth' := <[e := _]> (w_auth w)) in *.
  assert (∀ x y, walked auth' x y → edge x y) as Hedge.
  { intros x y [Hxy|[-> ->]]%walked_insert; [by apply Hau in Hxy as [? _]|done]. }
  assert (∀ x N', m' !! x = Some N' → ∃ N, w_missing w !! x = Some N ∧
    (N' = N ∨ (rtc (walked auth') a x ∧ N' = N ∩ Me))) as Hback.
  { intros x N' Hx. assert (is_Some (w_missing w !! x)) as [N HN] by (apply (mk_dom _ _ _ _ Hm); eauto).
    exists N. split; [done|]. by apply (mk_val _ _ _ _ Hm x N N'). }
  split; cbn [w_search w_missing w_auth].
  - intros x N' i (N & HN & Hcase)%Hback Hi Hni. destruct (decide (i ∈ N)) as [Hin|Hnin]; [|by eapply Hs].
    destruct Hcase as [->|[Hax ->]]; [done|]. assert (i ∉ Me) as Hme by set_solver.
    apply (reached_rtc i e x); [by eapply Hs|]. eapply rtc_l; [exact Hea|]. by eapply rtc_subrel; [|exact Hax].
  - intros x N' i (N & HN & Hcase)%Hback Hi. apply (Hr x N); [done|]. destruct Hcase as [->|[_ ->]]; set_solver.
  - intros x Hx. by apply Hso, (mk_dom _ _ _ _ Hm).
  - intros x y Hxy. split; [by apply Hedge|].
    assert (∃ N1 N2, w_missing w !! x = Some N1 ∧ w_missing w !! y = Some N2 ∧ (N2 ⊆ N1 ∨ (x = e ∧ y = a))) as (N1 & N2 & H1 & H2 & Hsub).
    { apply walked_insert in Hxy as [(_ & N1 & N2 & ? & ? & ?)%Hau|[-> ->]]; [exists N1, N2; eauto|].
      destruct Ha as [Na Ha]. exists Me, Na. eauto. }
    destruct (proj2 (mk_dom _ _ _ _ Hm x) ltac:(eauto)) as [N1' H1'], (proj2 (mk_dom _ _ _ _ Hm y) ltac:(eauto)) as [N2' H2'].
    exists N1', N2'. split_and!; [done|done|].
    destruct Hsub as [Hsub|[-> ->]].
    + assert (N2' ⊆ N2) as Hle by (destruct (mk_val _ _ _ _ Hm y N2 N2' H2 H2') as [->|[_ ->]]; set_solver).
      destruct (mk_val _ _ _ _ Hm x N1 N1' H1 H1') as [->|[Hax ->]]; [set_solver|].
      pose proof (mk_all _ _ _ _ Hm y N2' (rtc_r _ _ _ Hax Hxy) H2'). set_solver.
    + assert (N1' = Me) as -> by congruence. by apply (mk_all _ _ _ _ Hm a N2' (rtc_refl _ _)).
  - intros i S v HS Hv. destruct (Hgi i S v HS Hv) as (M & HM & Hi).
    destruct (proj2 (mk_dom _ _ _ _ Hm v) ltac:(eauto)) as [N' HN']. exists N'. split; [done|].
    destruct (mk_val _ _ _ _ Hm v M N' HM HN') as [->|[_ ->]]; set_solver.
  - done.
  - intros d x Hin. destruct (Hse d x Hin) as [? ?]. split; [done|]. by apply (mk_dom _ _ _ _ Hm).
Qed.

Lemma visit_auth_inv w e a d chunk : walk_inv w → edge e a → depths !! a = Some d → is_Some (w_missing w !! e) →
  expanded chunk w →
  ∃ w', visit_auth n w (e, (a, d)) = Ok w' ∧ walk_inv w' ∧ expanded chunk w' ∧
    (∀ x y, walked (w_auth w') x y ↔ walked (w_auth w) x y ∨ (x = e ∧ y = a)) ∧
    (∀ x, is_Some (w_missing w !! x) → is_Some (w_missing w' !! x)) ∧
    (∀ x, is_Some (w_missing w !! x) → x ∈ (w_search w').*2 → x ∈ (w_search w).*2).
Proof.
  intros Hw Hea Hd [Me He] Hexp. unfold visit_auth. set (auth' := <[e := _]> (w_auth w)).
  assert (a ≠ e) as Hne by (intros ->; apply edge_rank in Hea; lia).
  assert (∀ x y, walked auth' x y → (rank y < rank x)%nat) as Hrank.
  { intros x y [Hxy|[-> ->]]%walked_insert; apply edge_rank; [by apply (wi_auth _ Hw)|done]. }
  destruct (w_missing w !! a) as [Na|] eqn:Ea.
  - (* seen before *)
    assert (∀ y x, walked auth' a y → rtc (walked auth') y x → x ≠ e ∧ is_Some (w_missing w !! x)) as Hbelow.
    { intros y x Hay Hyx. split.
      - intros ->. apply Hrank in Hay. apply (walked_rtc_rank auth' rank Hrank) in Hyx. apply edge_rank in Hea. lia.
      - assert (rtc (walked auth') a x ∧ x ≠ a) as [Hax Hxa].
        { split; [by eapply rtc_l|]. intros ->. apply Hrank in Hay. apply (walked_rtc_rank auth' rank Hrank) in Hyx. lia. }
        apply rtc_inv_r in Hax as [->|(z & _ & Hzx)]; [done|]. apply walked_insert in Hzx as [Hzx|[-> ->]]; [|done].
        destruct (wi_auth _ Hw z x Hzx) as (_ & M & M' & _ & ? & _). eauto. }
    destruct (mark_ancestors_spec auth' rank Hrank (S (size auth')) e Me (default ∅ (auth' !! a)) (w_missing w) He)
      as (m1 & -> & Hm1 & He1).
    { intros y x Hy. apply Hbelow. unfold walked. destruct (auth' !! a) as [A|]; cbn in Hy; [eauto|set_solver]. }
    { intros y _. apply Nat.lt_succ_r. rewrite <-size_dom. apply subseteq_size. intros k. by intros [_ ?]%elem_of_filter. }
    cbn [mbind res_bind]. destruct (proj2 (mk_dom _ _ _ _ Hm1 a) ltac:(eauto)) as [Na1 Ha1].
    rewrite (mark_spec e Me m1 a Na1 He1 Ha1). cbn [mbind res_bind].
    assert (walk_inv (mkWalk (w_search w) (<[a := Na1 ∩ Me]> m1) auth')) as Hw'.
    { apply (marked_inv w e a Me); [done|done|done|by rewrite lookup_insert_ne|eauto|].
      eapply marked_weaken; [|by apply marked_step]. intros x. cbn. split.
      - intros [(y & Hy & Hyx)| ->]; [|done]. eapply rtc_l; [|exact Hyx]. unfold walked.
        destruct (auth' !! a) as [A|] eqn:EA; cbn in Hy; [eauto|set_solver].
      - intros [->|(y & (A & HA & Hy) & Hyx)]%rtc_inv; [by right|left]. exists y. fold auth' in HA. rewrite HA. done. }
    eexists. split; [done|]. split_and!; [done| | | |done]; cbn [w_search w_missing w_auth].
    + intros x y Hx Hns Hnc Hxy. apply walked_insert. left. apply (Hexp x y); [|done|done|done].
      cbn in Hx. rewrite lookup_insert_is_Some', (mk_dom _ _ _ _ Hm1) in Hx. destruct Hx as [<-|?]; eauto.
    + intros x y. apply walked_insert.
    + intros x Hx. rewrite lookup_insert_is_Some', (mk_dom _ _ _ _ Hm1). by right.
  - (* new *)
    cbn [mbind res_bind]. rewrite (mark_spec e Me _ a (list_to_set (seq 0 n))).
    2: by rewrite lookup_insert_ne. 2: by rewrite lookup_insert_eq.
    cbn [mbind res_bind]. rewrite insert_insert_eq. eexists. split; [done|].
    destruct Hw as [Hs Hr Hso Hau Hgi Hnd Hse].
    assert (∀ x, is_Some (w_missing w !! x) → x ≠ a) as Hold by (intros x [? ?] ->; congruence).
    assert (a ∉ (w_search w).*2) as Hnin.
    { intros ([d' a'] & -> & Hin)%list_elem_of_fmap. destruct (Hse d' a' Hin) as [_ ?]. by destruct (Hold a'). }
    split_and!; [split|..]; cbn [w_search w_missing w_auth].
    + intros x M i [[<- <-]|[_ Hx]]%lookup_insert_Some Hi Hn; [|by eapply Hs].
      apply (reached_edge i e a); [|done]. apply (Hs e Me); [done|done|]. intros Hin. apply Hn, elem_of_intersection. split; [|done].
      apply elem_of_list_to_set, elem_of_seq. lia.
    + intros x M i [[<- <-]|[_ Hx]]%lookup_insert_Some Hi; [|by eapply Hr]. apply elem_of_intersection in Hi as [_ Hi]. by apply (Hr e Me).
    + intros x. rewrite lookup_insert_is_Some'. intros [<-|Hx]; [|by apply Hso]. destruct (Hso e) as [i Hi]; [eauto|].
      exists i. by eapply reached_edge.
    + intros x y Hxy. apply walked_insert in Hxy as [Hxy|[-> ->]].
      * destruct (Hau x y Hxy) as (? & M & M' & HM & HM' & ?). split; [done|]. exists M, M'.
        split_and!; [| |done]; (rewrite lookup_insert_ne; [done|]); apply not_eq_sym, Hold; eauto.
      * split; [done|]. exists Me, (list_to_set (seq 0 n) ∩ Me). rewrite lookup_insert_ne, lookup_insert_eq by done. split_and!; [done|done|set_solver].
    + intros i S v HS Hv. destruct (Hgi i S v HS Hv) as (M & HM & ?). exists M. rewrite lookup_insert_ne; [done|]. apply not_eq_sym, Hold. eauto.
    + rewrite fmap_app. apply NoDup_app. split_and!; [done| |apply NoDup_singleton]. intros x Hx ->%list_elem_of_singleton. done.
    + intros d' x [Hin|[= -> ->]%list_elem_of_singleton]%elem_of_app; rewrite lookup_insert_is_Some'; [|auto].
      destruct (Hse d' x Hin). auto.
    + intros x y Hx Hns Hnc Hxy. cbn [w_search w_missing w_auth] in *. apply walked_insert. left.
      rewrite fmap_app, elem_of_app in Hns. rewrite lookup_insert_is_Some' in Hx.
      apply (Hexp x y); [|tauto|done|done]. destruct Hx as [<-|?]; [|done]. destruct Hns. right. by left.
    + intros x y. apply walked_insert.
    + intros x Hx. rewrite lookup_insert_is_Some'. by right.
    + intros x Hx. rewrite fmap_app, elem_of_app. intros [?|Hxa]; [done|]. apply list_elem_of_singleton in Hxa. by destruct (Hold x Hx).
Qed.

(** A chunk of the search. *)
Lemma visit_chunk (w : walk) (chunk : list string) found : walk_inv w → expanded chunk w →
  (∀ e a d, (e, (a, d)) ∈ found ↔ e ∈ chunk ∧ edge e a ∧ depths !! a = Some d) →
  (∀ e, e ∈ chunk → is_Some (w_missing w !! e)) →
  ∃ w', foldM (visit_auth n) w found = Ok w' ∧ walk_inv w' ∧ expanded [] w' ∧
    (∀ x, is_Some (w_missing w !! x) → is_Some (w_missing w' !! x)) ∧
    (∀ x, is_Some (w_missing w !! x) → x ∈ (w_search w').*2 → x ∈ (w_search w).*2).
Proof.
  intros Hw Hexp Hfound Hchunk.
  destruct (foldM_total_prefix (λ pre w', walk_inv w' ∧ expanded chunk w' ∧
    (∀ e a d, (e, (a, d)) ∈ pre → walked (w_auth w') e a) ∧
    (∀ x, is_Some (w_missing w !! x) → is_Some (w_missing w' !! x)) ∧
    (∀ x, is_Some (w_missing w !! x) → x ∈ (w_search w').*2 → x ∈ (w_search w).*2)) (visit_auth n) w found)
    as (w' & Hok & Hw' & Hexp' & Hpre & Hmi & Hse).
  - split_and!; try done. by intros e a d ?%elem_of_nil.
  - intros pre [e [a d]] post w1 E (Hw1 & Hexp1 & Hpre1 & Hmi1 & Hse1).
    assert ((e, (a, d)) ∈ found) as (He & Hea & Hd)%Hfound by (rewrite E; apply elem_of_app; right; by left).
    destruct (visit_auth_inv w1 e a d chunk Hw1 Hea Hd) as (w2 & -> & Hw2 & Hexp2 & Hau & Hmi2 & Hse2); [by apply Hmi1, Hchunk|done|].
    exists w2. split; [done|]. split_and!; [done|done| |by eauto|].
    + intros e' a' d' [?|[= -> -> ->]%list_elem_of_singleton]%elem_of_app; apply Hau; [left; eauto|by right].
    + intros x Hx Hin. apply Hse1; [done|]. apply Hse2; [by apply Hmi1|done].
  - exists w'. split_and!; try done. intros x y Hx Hns _ Hxy. destruct (decide (x ∈ chunk)) as [Hc|Hc]; [|by apply Hexp'].
    pose proof Hxy as [_ [d Hd]]. apply (Hpre x y d), Hfound. done.
Qed.

Lemma all_reached_spec (w : walk) : walk_inv w → ∃ b, all_reached (w_missing w) (w_search w) = Ok b ∧
  (b = true → ∀ e, e ∈ (w_search w).*2 → w_missing w !! e = Some ∅).
Proof.
  intros Hw. pose proof (wi_search _ Hw) as Hse. revert Hse. generalize (w_search w). clear Hw.
  induction l as [|[d e] l IH]; intros Hse; cbn [all_reached]; [exists true; split; [done|by intros _ e ?%elem_of_nil]|].
  destruct (Hse d e ltac:(left)) as [_ [M HM]]. rewrite HM. case_decide as HM0; [|by exists false].
  destruct IH as (b & Hb & Hall); [intros; apply Hse; by right|]. exists b. split; [done|]. intros Hbt e' [Heq|Hin]%elem_of_cons; [cbn in Heq; subst e'; by rewrite HM, HM0|by apply Hall].
Qed.

(** What the walk knows at its end. *)
Definition walk_done (w : walk) : Prop := walk_inv w ∧ expanded [] w ∧
  ∀ e, e ∈ (w_search w).*2 → w_missing w !! e = Some ∅.

Definition unsearched (w : walk) : StrSet :=
  filter (λ e, w_missing w !! e = None ∨ e ∈ (w_search w).*2) (dom depths).

Lemma walk_loop_spec fuel w cache : walk_inv w → expanded [] w → cache_ok db depths cache →
  (size (unsearched w) < fuel)%nat →
  ∃ w' cache', walk_loop fuel n db depths w cache = Ok (w', cache') ∧ walk_done w' ∧ cache_ok db depths cache'.
Proof.
  revert w cache. induction fuel as [|fuel IH]; intros w cache Hw Hexp Hc Hf; [lia|]. cbn [walk_loop].
  case_decide as Hs.
  { exists w, cache. split; [done|]. split; [|done]. split_and!; [done|done|]. rewrite Hs. by intros e ?%elem_of_nil. }
  destruct (all_reached_spec w Hw) as (b & -> & Hb). cbn [mbind res_bind]. destruct b.
  { exists w, cache. split; [done|]. split; [|done]. split_and!; [done|done|by apply Hb]. }
  set (k := (length (w_search w) - 100)%nat).
  pose proof (fetch_chunk_spec db depths cache (drop k (w_search w)).*2 Hc) as [Hfound Hc'].
  destruct (fetch_chunk db depths cache _) as [found cache']. cbn [fst snd] in *.
  assert (w_search w = take k (w_search w) ++ drop k (w_search w)) as Esplit by (by rewrite take_drop).
  assert (∀ x, x ∈ w_search w ↔ x ∈ take k (w_search w) ∨ x ∈ drop k (w_search w)) as Hin.
  { intros x. rewrite <-elem_of_app. by rewrite <-Esplit. }
  assert (∀ x, x ∈ (w_search w).*2 ↔ x ∈ (take k (w_search w)).*2 ∨ x ∈ (drop k (w_search w)).*2) as Hin2.
  { intros x. rewrite <-elem_of_app, <-fmap_app. by rewrite <-Esplit. }
  destruct Hw as [H1 H2 H3 H4 H5 H6 H7].
  assert (∀ e, e ∈ (drop k (w_search w)).*2 → is_Some (depths !! e) ∧ is_Some (w_missing w !! e)) as Hchunk.
  { intros e ([d e'] & -> & Hd)%list_elem_of_fmap. destruct (H7 d e') as [? ?]; [apply Hin; by right|eauto]. }
  assert (∀ x, x ∈ (drop k (w_search w)).*2 → x ∉ (take k (w_search w)).*2) as Hdisj.
  { intros x Hx Hx'. rewrite Esplit, fmap_app in H6. apply NoDup_app in H6 as (_ & H6 & _). by apply (H6 x). }
  destruct (visit_chunk (mkWalk (take k (w_search w)) (w_missing w) (w_auth w)) (drop k (w_search w)).*2 found)
    as (w1 & -> & Hw1 & Hexp1 & Hmi & Hse).
  - split; cbn [w_search w_missing w_auth]; try done.
    + rewrite Esplit, fmap_app in H6. by apply NoDup_app in H6 as [? _].
    + intros d e He. apply H7, Hin. by left.
  - intros x y Hx Hns Hnc Hxy. cbn [w_search w_missing w_auth] in *. apply (Hexp x y Hx); [|by apply not_elem_of_nil|done].
    rewrite Hin2. tauto.
  - exact Hfound.
  - intros e He. by apply Hchunk.
  - cbn [mbind res_bind]. cbn [w_search w_missing w_auth] in Hmi, Hse. destruct Hw1 as [K1 K2 K3 K4 K5 K6 K7].
    assert (sort_search (w_search w1) ≡ₚ w_search w1) as Hp by apply py_sort_perm.
    apply IH; [split; cbn [w_search w_missing w_auth]; try done| |done|].
    + by rewrite Hp.
    + intros d e. rewrite Hp. apply K7.
    + intros x y Hx Hns. cbn [w_search w_missing w_auth] in *. rewrite Hp in Hns. by apply Hexp1.
    + eapply Nat.lt_le_trans; [|apply Nat.lt_succ_r; exact Hf]. apply subset_size, strict_spec_alt. unfold unsearched. cbn [w_search w_missing w_auth]. split.
      * intros x. rewrite !elem_of_filter, Hp. intros [Hx ?]. split; [|done].
        destruct (w_missing w !! x) eqn:Ex; [right|by left]. apply Hin2. left. apply Hse; [eauto|].
        destruct Hx as [Hx|?]; [|done]. destruct (Hmi x ltac:(eauto)). congruence.
      * intros Heq. destruct (drop k (w_search w)) as [|[d e] l] eqn:Ed.
        { apply (f_equal length) in Ed. rewrite length_drop in Ed. cbn in Ed. unfold k in Ed. destruct (w_search w); [done|]. cbn in Ed. lia. }
        assert (e ∈ ((d, e) :: l).*2) as He by left. destruct (Hchunk e He) as [Hde Hme].
        assert (e ∈ filter (λ e, w_missing w !! e = None ∨ e ∈ (w_search w).*2) (dom depths)) as Hmem.
        { apply elem_of_filter. split; [right; apply Hin2; by right|by apply elem_of_dom]. }
        rewrite <-Heq in Hmem. apply elem_of_filter in Hmem as [[Hn|Hn] _].
        -- destruct (Hmi e Hme). congruence.
        -- rewrite Hp in Hn. by apply (Hdisj e He), Hse.
Qed.
End walk.

(** ** The difference *)

Section difference.
Context (db : AuthTables) (depths : StrMap Z) (rank : string → nat) (sets : list StrSet).
Abbreviation edge := (found_edge db depths).
Hypothesis edge_rank : ∀ e a, edge e a → (rank a < rank e)%nat.
Hypothesis edge_stored : ∀ e a, edge e a → is_Some (depths !! e).

Lemma elem_of_missing_sets e i : i ∈ missing_sets sets e ↔ ∃ S, sets !! i = Some S ∧ e ∉ S.
Proof.
  unfold missing_sets. rewrite elem_of_list_to_set, list_elem_of_fmap. split.
  - intros ([i' S] & -> & [Hn Hin]%list_elem_of_filter). cbn in *. apply list_elem_of_lookup in Hin as [j Hin].
    rewrite list_lookup_imap in Hin. apply fmap_Some in Hin as (S' & HS & [= -> ->]). eauto.
  - intros (S & HS & Hn). exists (i, S). split; [done|]. apply list_elem_of_filter. split; [done|].
    apply list_elem_of_lookup. exists i. by rewrite list_lookup_imap, HS.
Qed.

Lemma start_missing e : w_missing (start_walk sets depths) !! e =
  if decide (e ∈ set_union sets) then Some (missing_sets sets e) else None.
Proof.
  unfold start_walk. cbn [w_missing]. case_decide as He.
  - apply lookup_set_to_map; [done|]. by exists e.
  - apply eq_None_not_Some. intros [M HM]. apply lookup_set_to_map in HM as (e' & He' & [= -> _]); done.
Qed.

Lemma start_search d e : (d, e) ∈ w_search (start_walk sets depths) ↔ e ∈ set_union sets ∧ depths !! e = Some d.
Proof.
  unfold start_walk, sort_search. cbn [w_search]. rewrite (py_sort_perm (A := Z * string)), list_elem_of_omap.
  setoid_rewrite elem_of_elements. split.
  - intros (e' & He & (d' & Hd & [= -> ->])%fmap_Some). done.
  - intros [He Hd]. exists e. by rewrite Hd.
Qed.

Lemma start_inv : walk_inv db depths sets (start_walk sets depths) ∧ expanded db depths [] (start_walk sets depths).
Proof.
  split; [split|].
  - intros e M i. rewrite start_missing. case_decide; [|done]. intros [= <-] Hi Hn.
    destruct (lookup_lt_is_Some_2 sets i Hi) as [S HS]. exists S, e. split_and!; [done| |done].
    apply dec_stable. intros Hns. apply Hn, elem_of_missing_sets. eauto.
  - intros e M i. rewrite start_missing. case_decide; [|done]. intros [= <-] (S & HS & _)%elem_of_missing_sets.
    by eapply lookup_lt_Some.
  - intros e. rewrite start_missing. case_decide as He; [|by intros [? ?]]. intros _.
    unfold set_union in He. apply elem_of_union_list in He as (S & [i HS]%list_elem_of_lookup & He). exists i, S, e. done.
  - intros x y (A & HA & _). unfold start_walk in HA. cbn [w_auth] in HA. by apply lookup_empty_Some in HA.
  - intros i S v HS Hv. exists (missing_sets sets v). rewrite start_missing, decide_True.
    + split; [done|]. intros (S' & HS' & ?)%elem_of_missing_sets. congruence.
    + unfold set_union. apply elem_of_union_list. exists S. split; [by eapply list_elem_of_lookup_2|done].
  - unfold start_walk, sort_search. cbn [w_search]. rewrite (py_sort_perm (A := Z * string)).
    generalize (NoDup_elements (set_union sets)). induction (elements (set_union sets)) as [|e l IH]; intros Hnd; [constructor|].
    apply NoDup_cons in Hnd as [Hn Hnd]. cbn. destruct (depths !! e) as [d|]; cbn; [|by apply IH].
    apply NoDup_cons. split; [|by apply IH].
    intros ([d' e'] & -> & (x & Hx & (? & _ & [= -> ->])%fmap_Some)%list_elem_of_omap)%list_elem_of_fmap. done.
  - intros d e [He Hd]%start_search. rewrite start_missing, decide_True by done. eauto.
  - intros x y Hx Hns _ Hxy. exfalso. apply Hns. rewrite start_missing in Hx. case_decide as He; [|by destruct Hx].
    destruct (edge_stored x y Hxy) as [d Hd]. apply list_elem_of_fmap. exists (d, x). split; [done|]. by apply start_search.
Qed.

(** A walk that has ended knows of every event of the difference, and that
    some set reaches whatever it knows of; when nothing is left to search it
    knows just which sets do. *)
Lemma done_missing w x : walk_done db depths sets w →
  auth_diff edge sets x → ∃ M, w_missing w !! x = Some M ∧ M ≠ ∅.
Proof.
  intros ([Hs Hr Hso Hau Hgi _ Hse] & Hexp & Hleft) [(S & HS & v & Hv & Hvx) (S' & HS' & Hno)].
  apply list_elem_of_lookup in HS as [i HS], HS' as [j HS'].
  assert (∀ y, rtc edge y x → ¬ reached db depths sets j y) as Hnj.
  { intros y Hyx (S0 & u & HS0 & Hu & Huy). assert (S0 = S') as -> by congruence. apply Hno. exists u. split; [done|]. by etrans. }
  pose proof (lookup_lt_Some _ _ _ HS') as Hj.
  assert (is_Some (w_missing w !! x)) as [M HM].
  { destruct (Hgi i S v HS Hv) as (Mv & HMv & _). assert (is_Some (w_missing w !! v)) as Hkv by eauto. clear HMv Hv Hgi.
    induction Hvx as [v|v y x Hvy Hyx IH]; [done|]. apply IH; [done|by intros z Hz; apply Hnj|].
    assert (v ∉ (w_search w).*2) as Hns.
    { intros Hin. apply (Hnj v); [by eapply rtc_l|]. apply (Hs v ∅); [by apply Hleft|done|set_solver]. }
    destruct (Hau v y) as (_ & ? & M' & _ & ? & _); [|eauto]. apply Hexp; [done|done|by apply not_elem_of_nil|done]. }
  exists M. split; [done|]. intros ->. apply (Hnj x); [done|]. by apply (Hs x ∅); [done|done|set_solver].
Qed.

Lemma done_exact w x M : walk_done db depths sets w → w_search w = [] →
  w_missing w !! x = Some M → M ≠ ∅ → auth_diff edge sets x.
Proof.
  intros ([Hs Hr Hso Hau Hgi _ Hse] & Hexp & _) Hempty HM Hne.
  apply set_choose_L in Hne as [j Hj]. pose proof (Hr x M j HM Hj) as Hlt.
  destruct (lookup_lt_is_Some_2 sets j Hlt) as [S HS]. destruct (Hso x) as (i & S' & v & HS' & Hv & Hvx); [eauto|]. split.
  - exists S'. split; [by eapply list_elem_of_lookup_2|eauto].
  - exists S. split; [by eapply list_elem_of_lookup_2|]. intros (u & Hu & Hux).
    destruct (Hgi j S u HS Hu) as (Mu & HMu & Hju).
    assert (∃ M', w_missing w !! x = Some M' ∧ M' ⊆ Mu) as (M' & HM' & Hsub); [|set_solver].
    clear Hu Hju. revert u Hux Mu HMu. clear -Hau Hexp Hempty.
    induction 1 as [u|u y x Huy _ IH]; intros Mu HMu; [eauto|].
    destruct (Hau u y) as (_ & M1 & M2 & H1 & H2 & ?).
    { apply Hexp; [eauto|rewrite Hempty; apply not_elem_of_nil|apply not_elem_of_nil|done]. }
    destruct (IH M2 H2) as (M' & ? & ?). exists M'. split; [done|]. assert (M1 = Mu) by congruence. set_solver.
Qed.

Lemma difference_search_spec cache : sets ≠ [] → cache_ok db depths cache →
  ∃ D cache', _get_auth_chain_difference_txn sets db depths cache = Ok (D, cache') ∧ cache_ok db depths cache' ∧
    (∀ x, auth_diff edge sets x → x ∈ D) ∧ (∀ x, x ∈ D → ∃ S v, S ∈ sets ∧ v ∈ S ∧ rtc edge v x).
Proof.
  intros Hne Hc. unfold _get_auth_chain_difference_txn. rewrite bool_decide_eq_false_2 by done. cbn [raise_if mbind res_bind].
  destruct start_inv as [Hi Hexp].
  destruct (walk_loop_spec db depths rank sets edge_rank edge_stored (S (size depths)) (start_walk sets depths) cache Hi Hexp Hc)
    as (w & cache' & -> & Hdone & Hc').
  { apply Nat.lt_succ_r. rewrite <-size_dom. apply subseteq_size. unfold unsearched. by intros x [_ ?]%elem_of_filter. }
  cbn [mbind res_bind]. eexists _, cache'. split; [done|]. split_and!; [done| |].
  - intros x (M & HM & Hn)%(done_missing w x Hdone). apply elem_of_dom. exists M. by apply map_lookup_filter_Some.
  - intros x [M [HM _]%map_lookup_filter_Some]%elem_of_dom. destruct Hdone as [Hw _].
    destruct (wi_some _ _ _ _ Hw x) as (i & S & v & HS & Hv & Hvx); [eauto|]. exists S, v. split_and!; [|done|done].
    by eapply list_elem_of_lookup_2.
Qed.
End difference.
