(* ===== verification/ChainTheorems.v ===== *)
(** * The chain cover index, from end to end

    Batches of events are persisted into empty tables; the queries then answer
    from the index what a search of the auth graph would. *)

From S2P Require Import Prelude PyOrd ChainLinks ChainIndex ChainCover ChainQuery ChainQueryProps ChainFixup ChainBuild ChainPersist ChainSearch ChainWalk.
From stdpp Require Import relations.
#[local] Open Scope Z_scope.

Definition empty_tables : AuthTables := mkTables ∅ [] ∅ [] ∅ 0.

Definition persist_batches (object_order : nat → list nat) (batches : list (list PersistedEvent)) : res AuthTables :=
  foldM (λ db events, persist_batch object_order (Some (Some true)) events db) empty_tables batches.

Section tables.
Context `{Laws : EventGraphLaws}.

Lemma empty_tables_ok : tables_ok empty_tables.
Proof.
  split; cbn [empty_tables t_events t_event_auth t_chains t_links t_to_calculate t_chain_id]; try (by intros ? ? ?%lookup_empty_Some).
  - split; [split|..]; try (by intros ? ? ? ?%lookup_empty_Some).
    + by intros ? ? ?%lookup_empty_Some.
    + by intros x y ?%elem_of_nil.
  - by intros e [? ?%lookup_empty_Some].
  - by intros e [? ?%lookup_empty_Some].
  - done.
  - by intros e [? ?%lookup_empty_Some].
Qed.

(** The events that are indexed are those whose auth chains are stored. *)
Lemma indexed_iff db e : tables_ok db →
  is_Some (t_chains db !! e) ↔ ∀ a, rtc auth_edge e a → stored db a.
Proof.
  intros Hok. split.
  - intros [x He] a Ha. apply (ok_chains _ Hok). by eapply cover_closed; [apply (ok_cover _ Hok)| |].
  - intros Hall. destruct (t_chains db !! e) eqn:E; [eauto|].
    destruct (ok_wait _ Hok e) as (_ & a & Ha & Hn); [by apply Hall|done|]. by destruct Hn; apply Hall.
Qed.

(** The auth events that the tables know of. *)
Definition known_edge (db : AuthTables) (e a : string) : Prop := stored db e ∧ auth_edge e a.

Lemma known_edge_rows db e a : tables_ok db → known_edge db e a ↔ (e, a) ∈ t_event_auth db.
Proof.
  intros Hok. assert ((e, a) ∈ t_event_auth db ↔ a ∈ select_auth db e) as ->.
  { unfold select_auth. rewrite list_elem_of_fmap. split.
    - intros Hin. exists (e, a). by rewrite list_elem_of_filter.
    - intros ([e' a'] & -> & [Hr Hin]%list_elem_of_filter). cbn in *. by subst. }
  unfold known_edge, auth_edge. destruct (decide (stored db e)) as [He|He].
  - rewrite (ok_auth _ Hok e He). tauto.
  - rewrite (ok_no_auth _ Hok e He), elem_of_nil. tauto.
Qed.

Lemma known_cover db : tables_ok db → cover (known_edge db) (t_chains db) (row_link (t_links db)).
Proof.
  intros Hok. eapply cover_ext; [|apply (ok_cover _ Hok)]. intros e a He%(ok_chains _ Hok). unfold known_edge. tauto.
Qed.

Lemma tables_difference db room sets : tables_ok db → sets ≠ [] →
  (∀ S v, S ∈ sets → v ∈ S → stored db v ∧ g_room v = room) →
  ∃ D, _get_auth_chain_difference_using_cover_index_txn room sets db = Ok D ∧
    ∀ x, x ∈ D ↔ auth_diff (known_edge db) sets x.
Proof.
  intros Hok Hne Hsets.
  assert (∀ e, stored db e → g_room e = room → is_Some (t_chains db !! e) ∨ waiting db room e) as Hwait.
  { intros e He Hr. destruct (t_chains db !! e) as [x|] eqn:E; [left; eauto|right].
    destruct (ok_wait _ Hok e He E) as [[r Hw] _]. destruct (ok_calc _ Hok e r Hw) as [-> _]. exists (g_types e). by rewrite <-Hr. }
  apply difference_correct; [by apply known_cover|by intros; apply known_edge_rows| | |done|].
  - intros e [tk Hw]. by apply (ok_calc _ Hok e _ Hw).
  - intros e a [tk Hw] [_ Ha]. destruct (ok_calc _ Hok e _ Hw) as ([= Hr _] & He & _).
    destruct (decide (stored db a)) as [Hs|Hs]; [|right; right; by intros b [? _]].
    destruct (Hwait a Hs) as [?|?]; [|by left|by right; left]. rewrite (g_auth_room e a Ha). done.
  - intros S v HS Hv. destruct (Hsets S v HS Hv). by apply Hwait.
Qed.
End tables.

Lemma batches_spec `{Laws : EventGraphLaws} object_order batches :
  (∀ n, object_order n ≡ₚ seq 0 n) → (∀ b p, b ∈ batches → p ∈ b → event_ok p) →
  ∃ db, persist_batches object_order batches = Ok db ∧ tables_ok db ∧
    ∀ e, stored db e ↔ e ∈ state_ids (concat batches).
Proof.
  intros Hperm Hev. unfold persist_batches.
  apply (foldM_total_prefix (λ pre db, tables_ok db ∧ ∀ e, stored db e ↔ e ∈ state_ids (concat pre))).
  - split; [apply empty_tables_ok|]. intros e. cbn. rewrite elem_of_nil. split; [by intros [? ?%lookup_empty_Some]|done].
  - intros pre b post db E [Hok Hst].
    destruct (persist_batch_spec object_order Hperm (Some (Some true)) b db eq_refl Hok) as (db' & -> & Hok' & Hst').
    { intros p Hp. apply (Hev b); [rewrite E; apply elem_of_app; right; by left|done]. }
    exists db'. split_and!; [done|done|]. intros e. rewrite Hst', Hst, concat_app, !elem_of_state_ids. cbn [concat].
    rewrite app_nil_r. setoid_rewrite elem_of_app. naive_solver.
Qed.

(** C10: Whatever batches of state events are persisted into empty tables, in whatever
    order, persisting succeeds (no missing key, no violated unique index, every loop ends)
    and the tables hold a chain cover index: each event has a chain and a number of its own,
    a number above one follows an auth event, links go from events to auth events in other
    chains, and the auth events of an indexed event are indexed and reached over links. The
    indexed events are exactly those all of whose auth chain has been persisted, and the
    others wait. Assumed of the events: an id determines the event, no event names an auth
    event twice or one of another room, and auth events have no cycles. The calculation for
    a batch and its persisting run one after the other and both commit. *)
Theorem persisted_events_indexed `{Laws : EventGraphLaws} object_order batches :
  (∀ n, object_order n ≡ₚ seq 0 n) → (∀ b p, b ∈ batches → p ∈ b → event_ok p) →
  ∃ db, persist_batches object_order batches = Ok db ∧
    cover auth_edge (t_chains db) (row_link (t_links db)) ∧
    (∀ e, is_Some (t_chains db !! e) ↔ ∀ a, rtc auth_edge e a → a ∈ state_ids (concat batches)) ∧
    (∀ e, is_Some (t_to_calculate db !! e) ↔ e ∈ state_ids (concat batches) ∧ t_chains db !! e = None).
Proof.
  intros Hperm Hev. destruct (batches_spec object_order batches Hperm Hev) as (db & Hrun & Hok & Hst).
  exists db. split_and!; [done|apply (ok_cover _ Hok)| |].
  - intros e. rewrite indexed_iff by done. by setoid_rewrite Hst.
  - intros e. rewrite <-Hst. split.
    + intros [r Hr]. by destruct (ok_calc _ Hok e r Hr) as (_ & ? & ?).
    + intros [? ?]. by apply (ok_wait _ Hok).
Qed.

(** The auth events that a search finds are those of the graph, where they are there. *)
Lemma found_edge_iff `{Laws : EventGraphLaws} db depths e a : tables_ok db →
  found_edge db depths e a ↔ known_edge db e a ∧ is_Some (depths !! a).
Proof. intros Hok. unfold found_edge. by rewrite <-known_edge_rows. Qed.

Lemma found_edge_tc `{Laws : EventGraphLaws} db depths v x : tables_ok db →
  (∀ e, stored db e → is_Some (depths !! e)) → (∀ a, rtc auth_edge v a → stored db a) →
  tc (found_edge db depths) v x ↔ tc auth_edge v x.
Proof.
  intros Hok Hd Hall. split.
  - clear Hall. assert (∀ e a, found_edge db depths e a → auth_edge e a) as He by (by intros e a [[_ ?] _]%(found_edge_iff db depths e a Hok)).
    induction 1 as [v x Hvx|v y x Hvy _ IH]; [by apply tc_once, He|]. eapply tc_l; [by apply He|done].
  - intros Ht. induction Ht as [v x Hvx|v y x Hvy Ht IH].
    + apply tc_once, found_edge_iff; [done|]. split; [split; [by apply Hall|done]|]. apply Hd, Hall. by apply rtc_once.
    + eapply tc_l; [|apply IH; intros a Ha; apply Hall; by eapply rtc_l].
      apply found_edge_iff; [done|]. split; [split; [by apply Hall|done]|]. apply Hd, Hall. by apply rtc_once.
Qed.

(** C11: In a room with a chain cover index the store's auth chain difference, read off the
    index with a search for the events that are not indexed yet, is that of the auth graph:
    for any non-empty list of sets of persisted events of the room it returns the events
    that are in, or in the auth chain of an event of, some set but not all of them. The
    tables are those of batches persisted from empty tables, of events none of which names
    an auth event twice or one of another room, without cycles. *)
Theorem cover_index_difference `{Laws : EventGraphLaws} object_order batches tests_allow room sets depths cache :
  (∀ n, object_order n ≡ₚ seq 0 n) → (∀ b p, b ∈ batches → p ∈ b → event_ok p) → sets ≠ [] →
  (∀ S v, S ∈ sets → v ∈ S → v ∈ state_ids (concat batches) ∧ g_room v = room) →
  let edge e a := e ∈ state_ids (concat batches) ∧ a ∈ g_auth e in
  ∃ D, (db ← persist_batches object_order batches;
        store_get_auth_chain_difference tests_allow (Some (Some true)) room sets db depths cache) = Ok (D, cache) ∧
    ∀ x, x ∈ D ↔ (∃ S, S ∈ sets ∧ ∃ v, v ∈ S ∧ rtc edge v x) ∧ (∃ S, S ∈ sets ∧ ¬ ∃ v, v ∈ S ∧ rtc edge v x).
Proof.
  intros Hperm Hev Hne Hsets edge. destruct (batches_spec object_order batches Hperm Hev) as (db & -> & Hok & Hst).
  unfold store_get_auth_chain_difference. cbn [mbind res_bind has_index default from_option id].
  destruct (tables_difference db room sets Hok Hne) as (D & -> & Hx).
  { intros S v HS Hv. rewrite Hst. by apply (Hsets S). }
  exists D. split; [done|]. intros x. rewrite Hx.
  assert (∀ v x, rtc (known_edge db) v x ↔ rtc edge v x) as Hrtc.
  { intros v y. split; apply rtc_subrel; intros a b [? ?]; (split; [by apply Hst|done]). }
  unfold auth_diff. by setoid_rewrite Hrtc.
Qed.

(** C12: For events whose auth chains are all persisted the store's get_auth_chain_ids gives
    the events below them in the auth graph (and the given events when they are asked for),
    alike from the chain cover index and by searching; when part of an auth chain is not
    there the query on the index refuses. The tables are those of batches persisted from
    empty tables, of events none of which names an auth event twice or one of another room,
    without cycles, each with a depth; the cache of auth events agrees with the tables, as
    an empty one does and as the queries leave it (it stops agreeing when an auth event is
    persisted after the cache was filled). *)
Theorem cover_index_auth_chain `{Laws : EventGraphLaws} object_order batches include_given (ids : list string) depths :
  (∀ n, object_order n ≡ₚ seq 0 n) → (∀ b p, b ∈ batches → p ∈ b → event_ok p) →
  (∀ e, e ∈ state_ids (concat batches) → is_Some (depths !! e)) →
  ∃ db, persist_batches object_order batches = Ok db ∧ cache_ok db depths ∅ ∧
  ∀ cache, cache_ok db depths cache →
  ((∀ v a, v ∈ ids → rtc auth_edge v a → a ∈ state_ids (concat batches)) →
   ∀ tests_allow indexed, ∃ D cache', get_auth_chain_ids tests_allow (Some indexed) ids include_given db depths cache = Ok (D, cache') ∧
     cache_ok db depths cache' ∧
     ∀ x, x ∈ D ↔ (include_given = true ∧ x ∈ ids) ∨ ∃ v, v ∈ ids ∧ tc auth_edge v x) ∧
  (∀ v a, v ∈ ids → rtc auth_edge v a → (a ∉ state_ids (concat batches)) →
   get_auth_chain_ids false (Some (Some true)) ids include_given db depths cache = Raise _NoChainCoverIndex).
Proof.
  intros Hperm Hev Hd. destruct (batches_spec object_order batches Hperm Hev) as (db & Erun & Hok & Hst).
  exists db. split; [done|]. split; [apply cache_ok_empty|]. intros cache Hc. unfold get_auth_chain_ids. cbn [mbind res_bind has_index]. split.
  - intros Hids tests_allow indexed. destruct (default false indexed).
    + destruct (auth_chain_ids_correct auth_edge g_depth db g_acyclic (ok_cover _ Hok) ids include_given) as (D & -> & HD).
      { intros v Hv. apply indexed_iff; [done|]. setoid_rewrite Hst. intros a. by apply Hids. }
      by exists D, cache.
    + destruct (auth_chain_ids_search db depths ids include_given cache Hc) as (D & cache' & -> & Hc' & HD).
      exists D, cache'. split_and!; [done|done|]. intros x. rewrite HD. apply or_iff_compat_l.
      assert (∀ v, v ∈ ids → tc (found_edge db depths) v x ↔ tc auth_edge v x) as Htc.
      { intros v Hv. apply found_edge_tc; [done|by intros e ?%Hst; apply Hd|]. intros a Ha. by apply Hst, (Hids v). }
      split; intros (v & Hv & Ht); exists v; (split; [done|]); by apply Htc.
  - intros v a Hv Ha Hn. cbn [default from_option id]. rewrite auth_chain_ids_missing; [done|]. exists v. split; [done|].
    apply eq_None_not_Some. rewrite indexed_iff by done. setoid_rewrite Hst. intros Hall. by apply Hn, Hall.
Qed.

(** C13: In a room without a chain cover index the search for the auth chain difference
    ends, returns every event that is in the auth chains of some set but not all (over the
    auth events that are there), and nothing that no set reaches. It may return more: it
    stops early, before it has found all the sets that reach an event. The tables are those
    of batches persisted from empty tables, of events none of which names an auth event
    twice or one of another room, without cycles, each with a depth; the cache of auth
    events agrees with the tables, as an empty one does and as the queries leave it (it
    stops agreeing when an auth event is persisted after the cache was filled). *)
Theorem search_difference_covers `{Laws : EventGraphLaws} object_order batches room (sets : list StrSet) depths :
  (∀ n, object_order n ≡ₚ seq 0 n) → (∀ b p, b ∈ batches → p ∈ b → event_ok p) →
  (∀ e, e ∈ state_ids (concat batches) → is_Some (depths !! e)) → sets ≠ [] →
  ∃ db, persist_batches object_order batches = Ok db ∧ cache_ok db depths ∅ ∧
  ∀ tests_allow cache, cache_ok db depths cache →
  let edge e a := e ∈ state_ids (concat batches) ∧ a ∈ g_auth e ∧ is_Some (depths !! a) in
  ∃ D cache', store_get_auth_chain_difference tests_allow (Some (Some false)) room sets db depths cache = Ok (D, cache') ∧
    cache_ok db depths cache' ∧
    (∀ x, (∃ S, S ∈ sets ∧ ∃ v, v ∈ S ∧ rtc edge v x) → (∃ S, S ∈ sets ∧ ¬ ∃ v, v ∈ S ∧ rtc edge v x) → x ∈ D) ∧
    (∀ x, x ∈ D → ∃ S v, S ∈ sets ∧ v ∈ S ∧ rtc edge v x).
Proof.
  intros Hperm Hev Hd Hne. destruct (batches_spec object_order batches Hperm Hev) as (db & Erun & Hok & Hst).
  exists db. split; [done|]. split; [apply cache_ok_empty|]. intros tests_allow cache Hc edge. unfold store_get_auth_chain_difference. cbn [mbind res_bind has_index default from_option id].
  assert (∀ e a, found_edge db depths e a ↔ edge e a) as Hedge.
  { intros e a. rewrite found_edge_iff by done. unfold known_edge, auth_edge, edge. rewrite Hst. tauto. }
  destruct (difference_search_spec db depths g_depth sets) with cache as (D & cache' & -> & Hc' & Hin & Hout).
  { intros e a (_ & ? & _)%Hedge. by apply g_acyclic. }
  { intros e a (? & _)%Hedge. by apply Hd. }
  { done. }
  { done. }
  assert (∀ v x, rtc (found_edge db depths) v x ↔ rtc edge v x) as Hrtc by (intros v x; split; apply rtc_subrel; by intros a b ?%Hedge).
  exists D, cache'. split_and!; [done|done| |].
  - intros x H1 H2. apply Hin. unfold auth_diff. setoid_rewrite Hrtc. done.
  - intros x Hx. setoid_rewrite <-Hrtc. by apply Hout.
Qed.
