(* ===== verification/Linearizer.v ===== *)
(** * [Linearizer] of [synapse/util/async_helpers.py]

    A limit on how many tasks run at once for a key. The entries of the dict
    are objects that the tasks keep hold of, so they live in a store of their
    own. A task is named by the order in which it asked for the lock, and its
    deferred by the task; firing the deferred runs the task on to its next
    [await], within [_release_lock]. *)

From S2P Require Import Prelude.
From stdpp Require Import relations.
#[local] Open Scope Z_scope.

Record _LinearizerEntry := mkEntry {
  e_count : Z;               (** the number of things executing *)
  e_deferreds : list nat     (** those blocked from executing, in order *)
}.

(** Where a task is in [queue]: at [await new_defer], at [sleep(0)], or in the
    body of the [async with]. *)
Inductive lin_phase := LWaiting | LSleeping | LHolding.

#[global] Instance lin_phase_eq_dec : EqDecision lin_phase.
Proof. solve_decision. Defined.

Record lin_task := mkLinTask { lt_key : string; lt_entry : nat; lt_phase : lin_phase }.

Record Linearizer := mkLinearizer {
  max_count : Z;
  key_to_defer : StrMap nat;             (** the entry of each key *)
  lin_entries : gmap nat _LinearizerEntry;
  lin_next_entry : nat;
  lin_tasks : gmap nat lin_task;
  lin_next_task : nat
}.

Definition lin_init (max_count : Z) : Linearizer := mkLinearizer max_count ∅ ∅ 0 ∅ 0.

Definition set_entry (r : nat) (e : _LinearizerEntry) (s : Linearizer) : Linearizer :=
  mkLinearizer (max_count s) (key_to_defer s) (<[r := e]> (lin_entries s)) (lin_next_entry s) (lin_tasks s) (lin_next_task s).
Definition set_tasks (ts : gmap nat lin_task) (s : Linearizer) : Linearizer :=
  mkLinearizer (max_count s) (key_to_defer s) (lin_entries s) (lin_next_entry s) ts (lin_next_task s).

Definition is_queued (key : string) (s : Linearizer) : bool :=
  match key_to_defer s !! key with
  | None => false
  | Some r => match lin_entries s !! r with Some e => bool_decide (e_deferreds e ≠ []) | None => false end
  end.

(** [self.key_to_defer.setdefault(key, _LinearizerEntry(0, OrderedDict()))] *)
Definition default_entry (key : string) (s : Linearizer) : nat * Linearizer :=
  match key_to_defer s !! key with
  | Some r => (r, s)
  | None =>
      let r := lin_next_entry s in
      (r, mkLinearizer (max_count s) (<[key := r]> (key_to_defer s)) (<[r := mkEntry 0 []]> (lin_entries s)) (S r)
            (lin_tasks s) (lin_next_task s))
  end.

(** An attribute of an object that is not there cannot be read. *)
Definition get_entry (r : nat) (s : Linearizer) : res _LinearizerEntry :=
  match lin_entries s !! r with Some e => Ok e | None => Raise (AttributeError "entry") end.

(** A new task, up to its first [await]. *)
Definition _acquire_lock (key : string) (s : Linearizer) : res Linearizer :=
  let t := lin_next_task s in
  let '(r, s) := default_entry key s in
  entry ← get_entry r s;
  let '(entry, phase) :=
    if e_count entry <? max_count s then (mkEntry (e_count entry + 1) (e_deferreds entry), LHolding)
    else (mkEntry (e_count entry) (e_deferreds entry ++ [t]), LWaiting) in
  Ok (mkLinearizer (max_count s) (key_to_defer s) (<[r := entry]> (lin_entries s)) (lin_next_entry s)
        (<[t := mkLinTask key r phase]> (lin_tasks s)) (S t)).

(** [next_def.callback(None)]: the task runs on from [await new_defer] to [sleep(0)]. *)
Definition lin_callback (d : nat) (s : Linearizer) : res Linearizer :=
  match lin_tasks s !! d with
  | None => Ok s
  | Some t =>
      entry ← get_entry (lt_entry t) s;
      Ok (set_tasks (<[d := mkLinTask (lt_key t) (lt_entry t) LSleeping]> (lin_tasks s))
            (set_entry (lt_entry t) (mkEntry (e_count entry + 1) (e_deferreds entry)) s))
  end.

Definition _release_lock (key : string) (r : nat) (s : Linearizer) : res Linearizer :=
  entry ← get_entry r s;
  let count := e_count entry - 1 in
  match e_deferreds entry with
  | next_def :: deferreds => lin_callback next_def (set_entry r (mkEntry count deferreds) s)
  | [] =>
      let s := set_entry r (mkEntry count []) s in
      if count =? 0 then
        match key_to_defer s !! key with
        | None => Raise KeyError
        | Some _ => Ok (mkLinearizer (max_count s) (delete key (key_to_defer s)) (lin_entries s) (lin_next_entry s)
                          (lin_tasks s) (lin_next_task s))
        end
      else Ok s
  end.

(** ** The tasks *)

Inductive lin_action :=
  | LAcquire (key : string)   (** [async with linearizer.queue(key)] *)
  | LWake (t : nat)           (** the [sleep(0)] is over *)
  | LRelease (t : nat)        (** the body ends, also by an exception *)
  | LCancel (t : nat).        (** the task is cancelled at its [await] *)

(** What an action does, when it can happen. *)
Definition lin_do (a : lin_action) (s : Linearizer) : option (res Linearizer) :=
  match a with
  | LAcquire key => Some (_acquire_lock key s)
  | LWake t =>
      match lin_tasks s !! t with
      | Some (mkLinTask key r LSleeping) => Some (Ok (set_tasks (<[t := mkLinTask key r LHolding]> (lin_tasks s)) s))
      | _ => None
      end
  | LRelease t =>
      match lin_tasks s !! t with
      | Some (mkLinTask key r LHolding) => Some (_release_lock key r (set_tasks (delete t (lin_tasks s)) s))
      | _ => None
      end
  | LCancel t =>
      match lin_tasks s !! t with
      | Some (mkLinTask key r LWaiting) =>
          Some (entry ← get_entry r s;
                raise_if (bool_decide (t ∉ e_deferreds entry)) KeyError;;
                Ok (set_tasks (delete t (lin_tasks s))
                      (set_entry r (mkEntry (e_count entry) (filter (λ d, d ≠ t) (e_deferreds entry))) s)))
      | Some (mkLinTask key r LSleeping) => Some (_release_lock key r (set_tasks (delete t (lin_tasks s)) s))
      | _ => None
      end
  end.

Inductive lin_step : Linearizer → Linearizer → Prop :=
  | lin_step_do a s s' : lin_do a s = Some (Ok s') → lin_step s s'.

(** ** What a [Linearizer] promises

    At most [max_count] tasks run for a key, those that wait go first come
    first served, and no task waits while there is room. *)

(** ** One entry and the tasks of its key *)

Definition active (m : gmap nat lin_task) : gmap nat lin_task := filter (λ kv : nat * lin_task, lt_phase kv.2 ≠ LWaiting) m.

Record entry_ok (max : Z) (m : gmap nat lin_task) (e : _LinearizerEntry) : Prop := mkEntryOk {
  eo_count : e_count e = Z.of_nat (size (active m));
  eo_wait t : t ∈ e_deferreds e ↔ ∃ x, m !! t = Some x ∧ lt_phase x = LWaiting;
  eo_order : StronglySorted lt (e_deferreds e);
  eo_max : e_count e ≤ max;
  eo_full : e_deferreds e ≠ [] → e_count e = max
}.

Lemma active_insert_new m t x : m !! t = None → lt_phase x ≠ LWaiting → size (active (<[t := x]> m)) = S (size (active m)).
Proof.
  intros Ht Hx. unfold active. rewrite map_filter_insert_True by done. rewrite map_size_insert_None; [done|].
  apply map_lookup_filter_None. by left.
Qed.

Lemma active_insert_waiting m t x : m !! t = None → lt_phase x = LWaiting → active (<[t := x]> m) = active m.
Proof.
  intros Ht Hx. unfold active. rewrite map_filter_insert_False by (intros Hn; by apply Hn).
  f_equal. by apply delete_id.
Qed.

Lemma active_delete_active m t x : m !! t = Some x → lt_phase x ≠ LWaiting → size (active m) = S (size (active (delete t m))).
Proof.
  intros Ht Hx. unfold active. rewrite map_filter_delete.
  assert (filter (λ kv : nat * lin_task, lt_phase kv.2 ≠ LWaiting) m !! t = Some x) as Hl by (by apply map_lookup_filter_Some).
  set (f := filter _ m) in *. rewrite <-(insert_delete_id f t x Hl) at 1. by rewrite map_size_insert_None by apply lookup_delete_eq.
Qed.

Lemma active_delete_waiting m t x : m !! t = Some x → lt_phase x = LWaiting → active (delete t m) = active m.
Proof.
  intros Ht Hx. unfold active. rewrite map_filter_delete. apply delete_id. apply map_lookup_filter_None. right.
  intros y Hy Hn. cbn in Hn. assert (y = x) as -> by congruence. done.
Qed.

Lemma active_change m t x y : m !! t = Some x → lt_phase x ≠ LWaiting → lt_phase y ≠ LWaiting →
  size (active (<[t := y]> m)) = size (active m).
Proof.
  intros Ht Hx Hy. rewrite (active_delete_active m t x Ht Hx).
  rewrite <-insert_delete_eq. apply active_insert_new; [apply lookup_delete_eq|done].
Qed.

Lemma entry_enters max m e t x : entry_ok max m e → m !! t = None → lt_phase x ≠ LWaiting → e_count e < max →
  entry_ok max (<[t := x]> m) (mkEntry (e_count e + 1) (e_deferreds e)).
Proof.
  intros [Hc Hw Ho Hm Hf] Ht Hx Hlt. split; cbn [e_count e_deferreds].
  - rewrite active_insert_new by done. lia.
  - intros t'. rewrite Hw. split.
    + intros (y & Hy & ?). exists y. rewrite lookup_insert_ne; [done|]. intros ->. congruence.
    + intros (y & [[<- <-]|[_ Hy]]%lookup_insert_Some & Hp); [done|eauto].
  - done.
  - lia.
  - intros Hne. specialize (Hf Hne). lia.
Qed.

Lemma entry_queues max m e t x : entry_ok max m e → m !! t = None → lt_phase x = LWaiting → max ≤ e_count e →
  (∀ d, d ∈ e_deferreds e → (d < t)%nat) →
  entry_ok max (<[t := x]> m) (mkEntry (e_count e) (e_deferreds e ++ [t])).
Proof.
  intros [Hc Hw Ho Hm Hf] Ht Hx Hle Hlast. split; cbn [e_count e_deferreds].
  - by rewrite active_insert_waiting.
  - intros t'. rewrite elem_of_app, list_elem_of_singleton, Hw. split.
    + intros [(y & Hy & ?)| ->]; [|exists x; by rewrite lookup_insert_eq]. exists y. rewrite lookup_insert_ne; [done|]. intros ->. congruence.
    + intros (y & [[<- <-]|[_ Hy]]%lookup_insert_Some & Hp); [by right|left; eauto].
  - clear -Ho Hlast. induction Ho as [|d l Hd IH Hall]; cbn; [repeat constructor|]. constructor.
    + apply IH. intros d' ?. apply Hlast. by right.
    + apply Forall_app. split; [done|]. repeat constructor. apply Hlast. left.
  - done.
  - intros _. lia.
Qed.

Lemma entry_wakes max m e t x y : entry_ok max m e → m !! t = Some x → lt_phase x ≠ LWaiting → lt_phase y ≠ LWaiting →
  entry_ok max (<[t := y]> m) e.
Proof.
  intros [Hc Hw Ho Hm Hf] Ht Hx Hy. split; try done.
  - by rewrite (active_change m t x y).
  - intros t'. rewrite Hw. split.
    + intros (z & Hz & Hp). exists z. rewrite lookup_insert_ne; [done|]. intros ->. congruence.
    + intros (z & [[<- <-]|[_ Hz]]%lookup_insert_Some & Hp); [done|eauto].
Qed.

(** The one in front of the queue takes the place of one that leaves. *)
Lemma entry_passes max m e t x d y l : entry_ok max m e → m !! t = Some x → lt_phase x ≠ LWaiting →
  e_deferreds e = d :: l → lt_phase y ≠ LWaiting →
  entry_ok max (<[d := y]> (delete t m)) (mkEntry (e_count e) l).
Proof.
  intros [Hc Hw Ho Hm Hf] Ht Hx El Hy. rewrite El in *.
  destruct (proj1 (Hw d) ltac:(left)) as (z & Hz & Hzp). assert (d ≠ t) as Hdt by (intros ->; congruence).
  apply StronglySorted_inv in Ho as [Ho Hall]. rewrite Forall_forall in Hall.
  split; cbn [e_count e_deferreds].
  - rewrite Hc, (active_delete_active m t x Ht Hx).
    assert (delete t m !! d = Some z) as Hd by (by rewrite lookup_delete_ne).
    rewrite <-(active_delete_waiting (delete t m) d z Hd Hzp).
    rewrite <-insert_delete_eq. rewrite active_insert_new; [done|apply lookup_delete_eq|done].
  - intros t'. split.
    + intros Hin. destruct (proj1 (Hw t') ltac:(by right)) as (u & Hu & Hup). exists u.
      assert (d < t')%nat by (by apply Hall).
      rewrite lookup_insert_ne by lia. rewrite lookup_delete_ne; [done|]. intros ->. congruence.
    + intros (u & [[<- <-]|[Hne [_ Hu]%lookup_delete_Some]]%lookup_insert_Some & Hup); [done|].
      assert (t' ∈ d :: l) as Hin by (apply Hw; eauto). apply elem_of_cons in Hin as [->|?]; done.
  - done.
  - done.
  - intros _. by apply Hf.
Qed.

Lemma entry_leaves max m e t x : entry_ok max m e → m !! t = Some x → lt_phase x ≠ LWaiting → e_deferreds e = [] →
  entry_ok max (delete t m) (mkEntry (e_count e - 1) []).
Proof.
  intros [Hc Hw Ho Hm Hf] Ht Hx El. rewrite El in *. split; cbn [e_count e_deferreds].
  - rewrite Hc, (active_delete_active m t x Ht Hx). lia.
  - intros t'. rewrite Hw. split.
    + intros (y & Hy & ?). exists y. rewrite lookup_delete_ne; [done|]. intros ->. congruence.
    + intros (y & [_ Hy]%lookup_delete_Some & ?). eauto.
  - done.
  - lia.
  - done.
Qed.

Lemma entry_gives_up max m e t x : entry_ok max m e → m !! t = Some x → lt_phase x = LWaiting →
  entry_ok max (delete t m) (mkEntry (e_count e) (filter (λ d, d ≠ t) (e_deferreds e))).
Proof.
  intros [Hc Hw Ho Hm Hf] Ht Hx. split; cbn [e_count e_deferreds].
  - by rewrite (active_delete_waiting m t x Ht Hx).
  - intros t'. rewrite list_elem_of_filter, Hw. split.
    + intros (Hne & y & Hy & ?). exists y. by rewrite lookup_delete_ne.
    + intros (y & [Hne Hy]%lookup_delete_Some & ?). split; [done|eauto].
  - clear -Ho. induction Ho as [|d l Hd IH Hall]; [constructor|]. rewrite filter_cons. case_decide; [|done]. constructor; [done|].
    rewrite Forall_forall in *. intros y [_ Hy]%list_elem_of_filter. by apply Hall.
  - done.
  - intros Hne. apply Hf. intros El. by rewrite El in Hne.
Qed.

(** ** The whole linearizer *)

Definition tasks_of (k : string) (ts : gmap nat lin_task) : gmap nat lin_task := filter (λ kv : nat * lin_task, lt_key kv.2 = k) ts.

Lemma tasks_of_lookup k ts t x : tasks_of k ts !! t = Some x ↔ ts !! t = Some x ∧ lt_key x = k.
Proof. unfold tasks_of. by rewrite map_lookup_filter_Some. Qed.

Lemma tasks_of_insert k ts t x : lt_key x = k → tasks_of k (<[t := x]> ts) = <[t := x]> (tasks_of k ts).
Proof. intros Hx. unfold tasks_of. by rewrite map_filter_insert_True. Qed.

Lemma tasks_of_insert_other k k' ts t x : lt_key x = k → k' ≠ k → (∀ y, ts !! t = Some y → lt_key y = k) →
  tasks_of k' (<[t := x]> ts) = tasks_of k' ts.
Proof.
  intros Hx Hne Hy. apply map_eq. intros u. apply option_eq. intros z. rewrite !tasks_of_lookup. split.
  - intros [[[<- <-]|[_ Hz]]%lookup_insert_Some Hk]; [congruence|done].
  - intros [Hz Hk]. split; [|done]. rewrite lookup_insert_ne; [done|]. intros ->. specialize (Hy z Hz). congruence.
Qed.

Lemma tasks_of_delete k ts t : tasks_of k (delete t ts) = delete t (tasks_of k ts).
Proof. unfold tasks_of. apply map_filter_delete. Qed.

Lemma tasks_of_delete_other k k' ts t : k' ≠ k → (∀ y, ts !! t = Some y → lt_key y = k) →
  tasks_of k' (delete t ts) = tasks_of k' ts.
Proof.
  intros Hne Hy. rewrite tasks_of_delete. apply delete_id. apply eq_None_not_Some. intros [z [Hz Hk]%tasks_of_lookup].
  specialize (Hy z Hz). congruence.
Qed.

Record lin_inv (s : Linearizer) : Prop := mkLinInv {
  lv_entry k r : key_to_defer s !! k = Some r →
    ∃ e, lin_entries s !! r = Some e ∧ entry_ok (max_count s) (tasks_of k (lin_tasks s)) e ∧ 0 < e_count e;
  lv_inj k k' r : key_to_defer s !! k = Some r → key_to_defer s !! k' = Some r → k = k';
  lv_ref k r : key_to_defer s !! k = Some r → (r < lin_next_entry s)%nat;
  lv_task t x : lin_tasks s !! t = Some x → (t < lin_next_task s)%nat ∧ key_to_defer s !! lt_key x = Some (lt_entry x)
}.

(** A step touches one key, and its entry [r]. *)
Lemma change_key (s : Linearizer) k r e' ts' nt' : lin_inv s →
  key_to_defer s !! k = Some r →
  (∀ k', k' ≠ k → tasks_of k' ts' = tasks_of k' (lin_tasks s)) →
  entry_ok (max_count s) (tasks_of k ts') e' → 0 < e_count e' →
  (∀ t x, ts' !! t = Some x → (t < nt')%nat ∧ key_to_defer s !! lt_key x = Some (lt_entry x)) →
  lin_inv (mkLinearizer (max_count s) (key_to_defer s) (<[r := e']> (lin_entries s)) (lin_next_entry s) ts' nt').
Proof.
  intros [He Hi Hr Ht] Hk Hother Hok Hpos Hts. split; cbn; [|done|done|done].
  intros k' r' Hk'. destruct (decide (k' = k)) as [->|Hne].
  - assert (r' = r) as -> by congruence. exists e'. by rewrite lookup_insert_eq.
  - destruct (He k' r' Hk') as (e & Hl & ? & ?). exists e. rewrite lookup_insert_ne by (intros ->; by apply Hne, (Hi k' k r')).
    by rewrite Hother.
Qed.

(** A key that nobody uses any more. *)
Lemma remove_key (s : Linearizer) k r e' ts' : lin_inv s → key_to_defer s !! k = Some r →
  (∀ k', k' ≠ k → tasks_of k' ts' = tasks_of k' (lin_tasks s)) →
  entry_ok (max_count s) (tasks_of k ts') e' → e_count e' = 0 → e_deferreds e' = [] →
  (∀ t x, ts' !! t = Some x → (t < lin_next_task s)%nat ∧ key_to_defer s !! lt_key x = Some (lt_entry x)) →
  lin_inv (mkLinearizer (max_count s) (delete k (key_to_defer s)) (<[r := e']> (lin_entries s)) (lin_next_entry s) ts' (lin_next_task s)).
Proof.
  intros [He Hi Hr Ht] Hk Hother Hok Hc Hd Hts. split; cbn.
  - intros k' r' [Hne Hk']%lookup_delete_Some. destruct (He k' r' Hk') as (e & Hl & ? & ?). exists e.
    rewrite lookup_insert_ne by (intros ->; by apply Hne, (Hi k k' r')). by rewrite Hother.
  - intros k1 k2 r' [_ H1]%lookup_delete_Some [_ H2]%lookup_delete_Some. by eapply Hi.
  - intros k' r' [_ H1]%lookup_delete_Some. by eapply Hr.
  - intros t x Hx. destruct (Hts t x Hx) as [Hlt Hkx]. split; [done|]. rewrite lookup_delete_ne; [done|]. intros Hkx'.
    assert (tasks_of k ts' !! t = Some x) as Hm by (by apply tasks_of_lookup).
    destruct (decide (lt_phase x = LWaiting)) as [Hp|Hp].
    + assert (t ∈ e_deferreds e') as Hin by (apply (eo_wait _ _ _ Hok); eauto). rewrite Hd in Hin. by apply elem_of_nil in Hin.
    + pose proof (eo_count _ _ _ Hok). rewrite (active_delete_active _ t x Hm Hp) in *. lia.
Qed.

Lemma lin_init_inv n : lin_inv (lin_init n).
Proof. split; cbn; by intros *; rewrite lookup_empty. Qed.

Lemma waiting_before s k r e : lin_inv s → key_to_defer s !! k = Some r → entry_ok (max_count s) (tasks_of k (lin_tasks s)) e →
  ∀ d, d ∈ e_deferreds e → (d < lin_next_task s)%nat.
Proof.
  intros Hs Hk Hok d (x & [Hx _]%tasks_of_lookup & _)%(eo_wait _ _ _ Hok). by destruct (lv_task _ Hs d x Hx).
Qed.

Section steps.
Context (s : Linearizer).
Hypothesis s_inv : lin_inv s.

(** A task asks for the lock. *)
Lemma acquire_spec key : 0 < max_count s → ∃ s', _acquire_lock key s = Ok s' ∧ lin_inv s' ∧ max_count s' = max_count s ∧
  lin_next_task s' = S (lin_next_task s) ∧
  ∃ r phase, lin_tasks s' = <[lin_next_task s := mkLinTask key r phase]> (lin_tasks s) ∧ phase ≠ LSleeping ∧
    (phase = LHolding ↔ (Z.of_nat (size (active (tasks_of key (lin_tasks s)))) < max_count s)).
Proof.
  intros max_pos. set (t := lin_next_task s). unfold _acquire_lock. fold t.
  assert (lin_tasks s !! t = None) as Hfresh.
  { apply eq_None_not_Some. intros [x Hx]. destruct (lv_task _ s_inv t x Hx) as [? _]. unfold t in *. lia. }
  assert (∀ k, tasks_of k (lin_tasks s) !! t = None) as Hfresh'.
  { intros k. apply eq_None_not_Some. intros [x [Hx _]%tasks_of_lookup]. congruence. }
  assert (∀ r' phase k', k' ≠ key → tasks_of k' (<[t := mkLinTask key r' phase]> (lin_tasks s)) = tasks_of k' (lin_tasks s)) as Hother.
  { intros r' phase k' Hne. apply (tasks_of_insert_other key); [done|done|]. intros y Hy. congruence. }
  unfold default_entry. destruct (key_to_defer s !! key) as [r|] eqn:Ek.
  - destruct (lv_entry _ s_inv key r Ek) as (e & Hl & Hok & Hpos). unfold get_entry. rewrite Hl. cbn [mbind res_bind].
    rewrite <-(eo_count _ _ _ Hok). destruct (Z.ltb_spec (e_count e) (max_count s)) as [Hlt|Hge]; eexists; (split; [done|]); cbn.
    + split; [|split_and!; [done|done|exists r, LHolding; split_and!; [done|done|tauto]]].
      apply (change_key s key); [done|done|by apply Hother| |cbn; lia|].
      * rewrite tasks_of_insert by done. by apply entry_enters.
      * intros u x [[<- <-]|[_ Hx]]%lookup_insert_Some; [split; [unfold t; lia|done]|].
        destruct (lv_task _ s_inv u x Hx). split; [lia|done].
    + split; [|split_and!; [done|done|exists r, LWaiting; split_and!; [done|done|split; [done|lia]]]].
      apply (change_key s key); [done|done|by apply Hother| |cbn; lia|].
      * rewrite tasks_of_insert by done. apply entry_queues; try done. by eapply waiting_before.
      * intros u x [[<- <-]|[_ Hx]]%lookup_insert_Some; [split; [unfold t; lia|done]|].
        destruct (lv_task _ s_inv u x Hx). split; [lia|done].
  - set (r := lin_next_entry s). cbn. unfold get_entry. cbn. rewrite lookup_insert_eq. cbn.
    assert (tasks_of key (lin_tasks s) = ∅) as Hnone.
    { apply map_empty. intros u. apply eq_None_not_Some. intros [x [Hx Hkx]%tasks_of_lookup].
      destruct (lv_task _ s_inv u x Hx). congruence. }
    assert (size (active (tasks_of key (lin_tasks s))) = 0%nat) as Hz by (rewrite Hnone; unfold active; by rewrite map_filter_empty, map_size_empty).
    rewrite Hz. destruct (Z.ltb_spec 0 (max_count s)) as [_|?]; [|lia]. eexists. split; [done|]. cbn.
    split; [|split_and!; [done|done|exists r, LHolding; split_and!; [done|done|tauto]]].
    rewrite insert_insert_eq. destruct s_inv as [He Hi Hr Ht]. split; cbn.
    + intros k' r' [[<- <-]|[Hne Hk']]%lookup_insert_Some.
      * exists (mkEntry 1 []). rewrite lookup_insert_eq. split_and!; [done| |done]. rewrite tasks_of_insert by done.
        apply (entry_enters _ _ (mkEntry 0 [])); [|done|done|cbn; lia]. rewrite Hnone. split; cbn; try done.
        -- intros d. rewrite elem_of_nil. split; [done|]. intros (x & Hx & _). by rewrite lookup_empty in Hx.
        -- constructor.
        -- lia.
      * destruct (He k' r' Hk') as (e & Hl & ? & ?). exists e. specialize (Hr k' r' Hk').
        rewrite lookup_insert_ne by (unfold r; lia). by rewrite Hother.
    + intros k1 k2 r' [[<- <-]|[_ H1]]%lookup_insert_Some [[<- E]|[_ H2]]%lookup_insert_Some; [done| | |by eapply Hi].
      * specialize (Hr _ _ H2). unfold r in *. lia.
      * specialize (Hr _ _ H1). unfold r in *. lia.
    + intros k' r' [[<- <-]|[_ H1]]%lookup_insert_Some; [unfold r; lia|]. specialize (Hr _ _ H1). unfold r. lia.
    + intros u x [[<- <-]|[_ Hx]]%lookup_insert_Some; cbn; [rewrite lookup_insert_eq; split; [unfold t; lia|done]|].
      destruct (Ht u x Hx) as [? Hk']. split; [unfold t; lia|]. rewrite lookup_insert_ne; [done|]. intros ->. congruence.
Qed.

(** The tasks that wait for a key. *)
Definition waiting_tasks (k : string) (ts : gmap nat lin_task) : gset nat :=
  dom (filter (λ kv : nat * lin_task, lt_key kv.2 = k ∧ lt_phase kv.2 = LWaiting) ts).

Lemma elem_of_waiting k ts t : t ∈ waiting_tasks k ts ↔ ∃ x, ts !! t = Some x ∧ lt_key x = k ∧ lt_phase x = LWaiting.
Proof. unfold waiting_tasks. rewrite elem_of_dom. unfold is_Some. by setoid_rewrite map_lookup_filter_Some. Qed.

Lemma waiting_queue k r e t : key_to_defer s !! k = Some r → lin_entries s !! r = Some e → t ∈ e_deferreds e ↔ t ∈ waiting_tasks k (lin_tasks s).
Proof.
  intros Hk Hl. destruct (lv_entry _ s_inv k r Hk) as (e' & Hl' & Hok & _). assert (e' = e) as -> by congruence.
  rewrite (eo_wait _ _ _ Hok), elem_of_waiting. setoid_rewrite tasks_of_lookup. naive_solver.
Qed.

(** A task that ran leaves, and the first that waits goes on. *)
Lemma release_spec t k r phase : lin_tasks s !! t = Some (mkLinTask k r phase) → phase ≠ LWaiting →
  ∃ s', _release_lock k r (set_tasks (delete t (lin_tasks s)) s) = Ok s' ∧ lin_inv s' ∧ max_count s' = max_count s ∧
    lin_next_task s' = lin_next_task s ∧
    ((waiting_tasks k (lin_tasks s) = ∅ ∧ lin_tasks s' = delete t (lin_tasks s)) ∨
     ∃ d, d ∈ waiting_tasks k (lin_tasks s) ∧ (∀ u, u ∈ waiting_tasks k (lin_tasks s) → (d ≤ u)%nat) ∧
       lin_tasks s' = <[d := mkLinTask k r LSleeping]> (delete t (lin_tasks s))).
Proof.
  intros Ht Hp. destruct (lv_task _ s_inv t _ Ht) as [Hlt Hk]. cbn in Hk.
  destruct (lv_entry _ s_inv k r Hk) as (e & Hl & Hok & Hpos).
  assert (tasks_of k (lin_tasks s) !! t = Some (mkLinTask k r phase)) as Hm by (by apply tasks_of_lookup).
  assert (∀ k', k' ≠ k → tasks_of k' (delete t (lin_tasks s)) = tasks_of k' (lin_tasks s)) as Hother.
  { intros k' Hne. apply (tasks_of_delete_other k); [done|]. intros y Hy. assert (y = mkLinTask k r phase) as -> by congruence. done. }
  assert (∀ u x, delete t (lin_tasks s) !! u = Some x → (u < lin_next_task s)%nat ∧ key_to_defer s !! lt_key x = Some (lt_entry x)) as Hts.
  { intros u x [_ Hx]%lookup_delete_Some. by apply (lv_task _ s_inv). }
  unfold _release_lock, get_entry. cbn [lin_entries set_tasks]. rewrite Hl. cbn [mbind res_bind].
  destruct (e_deferreds e) as [|d l] eqn:Ed.
  - assert (waiting_tasks k (lin_tasks s) = ∅) as Hw.
    { apply set_eq. intros u. rewrite <-(waiting_queue k r e u Hk Hl), Ed, elem_of_nil. set_solver. }
    pose proof (entry_leaves _ _ e t _ Hok Hm Hp Ed) as Hok'. rewrite <-tasks_of_delete in Hok'.
    destruct (Z.eqb_spec (e_count e - 1) 0) as [Hz|Hz].
    + cbn [key_to_defer set_entry set_tasks]. rewrite Hk. eexists. split; [done|]. cbn.
      split; [|split_and!; [done|done|by left]]. by apply (remove_key s).
    + eexists. split; [done|]. unfold set_entry. cbn. split; [|split_and!; [done|done|by left]].
      apply (change_key s k); try done. cbn. lia.
  - assert (d ∈ waiting_tasks k (lin_tasks s)) as Hd by (rewrite <-(waiting_queue k r e d Hk Hl), Ed; left).
    apply elem_of_waiting in Hd as ([kd rd pd] & Hxd & Hkd & Hpd). cbn in Hkd, Hpd. subst kd pd.
    assert (rd = r) as -> by (destruct (lv_task _ s_inv d _ Hxd) as [_ Hrd]; cbn in Hrd; congruence).
    assert (d ≠ t) as Hdt by (intros ->; congruence).
    pose proof (entry_passes _ _ e t _ d (mkLinTask k r LSleeping) l Hok Hm Hp Ed ltac:(done)) as Hok'.
    rewrite <-tasks_of_delete, <-tasks_of_insert in Hok' by done.
    unfold lin_callback. cbn [lin_tasks set_entry set_tasks]. rewrite lookup_delete_ne, Hxd by done. cbn [lt_entry lt_key].
    unfold get_entry. cbn [lin_entries set_entry set_tasks]. rewrite lookup_insert_eq. cbn [mbind res_bind e_count e_deferreds].
    replace (e_count e - 1 + 1) with (e_count e) by lia.
    eexists. split; [done|]. unfold set_entry, set_tasks. cbn. rewrite insert_insert_eq. split.
    + apply (change_key s k); try done.
      * intros k' Hne. rewrite (tasks_of_insert_other k); [by apply Hother|done|done|].
        intros y [_ Hy]%lookup_delete_Some. assert (y = mkLinTask k r LWaiting) as -> by congruence. done.
      * intros u x [[<- <-]|[_ Hx]]%lookup_insert_Some; [|by apply Hts]. cbn. split; [|done]. by destruct (lv_task _ s_inv d _ Hxd).
    + split_and!; [done|done|right]. exists d. split_and!; [rewrite <-(waiting_queue k r e d Hk Hl), Ed; left| |done].
      intros u. rewrite <-(waiting_queue k r e u Hk Hl), Ed. intros [->|Hu]%elem_of_cons; [done|].
      pose proof (eo_order _ _ _ Hok) as Ho. rewrite Ed in Ho. apply StronglySorted_inv in Ho as [_ Hall].
      rewrite Forall_forall in Hall. specialize (Hall u Hu). lia.
Qed.

(** A task that waits is cancelled. *)
Lemma give_up_spec t k r : lin_tasks s !! t = Some (mkLinTask k r LWaiting) →
  ∃ s', lin_do (LCancel t) s = Some (Ok s') ∧ lin_inv s' ∧ max_count s' = max_count s ∧
    lin_next_task s' = lin_next_task s ∧ lin_tasks s' = delete t (lin_tasks s).
Proof.
  intros Ht. destruct (lv_task _ s_inv t _ Ht) as [Hlt Hk]. cbn in Hk.
  destruct (lv_entry _ s_inv k r Hk) as (e & Hl & Hok & Hpos).
  assert (tasks_of k (lin_tasks s) !! t = Some (mkLinTask k r LWaiting)) as Hm by (by apply tasks_of_lookup).
  cbn [lin_do]. rewrite Ht. unfold get_entry. rewrite Hl. cbn [mbind res_bind].
  rewrite bool_decide_eq_false_2.
  2: { intros Hn. apply Hn, (eo_wait _ _ _ Hok). eauto. }
  cbn [raise_if mbind res_bind]. eexists. split; [done|]. unfold set_tasks, set_entry. cbn. split; [|done].
  apply (change_key s k); try done.
  - intros k' Hne. apply (tasks_of_delete_other k); [done|]. intros y Hy. assert (y = mkLinTask k r LWaiting) as -> by congruence. done.
  - rewrite tasks_of_delete. by eapply entry_gives_up.
  - intros u x [_ Hx]%lookup_delete_Some. by apply (lv_task _ s_inv).
Qed.

Lemma wake_spec t k r : lin_tasks s !! t = Some (mkLinTask k r LSleeping) →
  lin_inv (set_tasks (<[t := mkLinTask k r LHolding]> (lin_tasks s)) s).
Proof.
  intros Ht. destruct (lv_task _ s_inv t _ Ht) as [Hlt Hk]. cbn in Hk.
  destruct (lv_entry _ s_inv k r Hk) as (e & Hl & Hok & Hpos).
  assert (tasks_of k (lin_tasks s) !! t = Some (mkLinTask k r LSleeping)) as Hm by (by apply tasks_of_lookup).
  unfold set_tasks. rewrite <-(insert_id (lin_entries s) r e Hl). apply (change_key s k); try done.
  - intros k' Hne. apply (tasks_of_insert_other k); [done|done|]. intros y Hy. assert (y = mkLinTask k r LSleeping) as -> by congruence. done.
  - rewrite tasks_of_insert by done. by eapply entry_wakes.
  - intros u x [[<- <-]|[_ Hx]]%lookup_insert_Some; [done|]. by apply (lv_task _ s_inv).
Qed.
End steps.

(** ** Every step *)

(** The action ends the run of a task of the key. *)
Definition frees (key : string) (a : lin_action) (s : Linearizer) : bool :=
  match a with
  | LRelease t | LCancel t =>
      match lin_tasks s !! t with
      | Some x => bool_decide (lt_key x = key ∧ lt_phase x ≠ LWaiting)
      | None => false
      end
  | _ => false
  end.

(** What a step does to the tasks that wait. *)
Record step_ok (a : lin_action) (s s' : Linearizer) : Prop := mkStepOk {
  so_inv : lin_inv s';
  so_max : max_count s' = max_count s;
  so_next : (lin_next_task s ≤ lin_next_task s')%nat;
  (** only a new task starts to wait *)
  so_wait k t : t ∈ waiting_tasks k (lin_tasks s') → t ∈ waiting_tasks k (lin_tasks s) ∨ t = lin_next_task s;
  (** a task that goes on was the first *)
  so_first k t x : t ∈ waiting_tasks k (lin_tasks s) → lin_tasks s' !! t = Some x → lt_phase x ≠ LWaiting →
    ∀ u, u ∈ waiting_tasks k (lin_tasks s) → (t ≤ u)%nat;
  (** a task that does not wait finds nobody waiting *)
  so_new x : lin_tasks s' !! lin_next_task s = Some x → lt_phase x ≠ LWaiting → waiting_tasks (lt_key x) (lin_tasks s) = ∅;
  (** a task that ends lets the first go on *)
  so_frees k : frees k a s = true → waiting_tasks k (lin_tasks s) ≠ ∅ →
    ∃ d, d ∈ waiting_tasks k (lin_tasks s) ∧ (d ∉ waiting_tasks k (lin_tasks s')) ∧
      ∀ u, u ∈ waiting_tasks k (lin_tasks s) → (d ≤ u)%nat
}.

Lemma full_queue s k : lin_inv s → waiting_tasks k (lin_tasks s) ≠ ∅ →
  Z.of_nat (size (active (tasks_of k (lin_tasks s)))) = max_count s.
Proof.
  intros Hs [t Ht]%set_choose_L. pose proof Ht as (x & Hx & Hk & Hp)%elem_of_waiting.
  destruct (lv_task _ Hs t x Hx) as [_ Hkey]. rewrite Hk in Hkey. destruct (lv_entry _ Hs k _ Hkey) as (e & Hl & Hok & _).
  rewrite <-(eo_count _ _ _ Hok). apply (eo_full _ _ _ Hok). intros El.
  apply (waiting_queue s Hs k _ e t Hkey Hl) in Ht. rewrite El in Ht. by apply elem_of_nil in Ht.
Qed.

Lemma fresh_task s : lin_inv s → lin_tasks s !! lin_next_task s = None.
Proof. intros Hs. apply eq_None_not_Some. intros [x Hx]. destruct (lv_task _ Hs _ x Hx). lia. Qed.

Lemma acquire_step s key : lin_inv s → 0 < max_count s →
  ∃ s', lin_do (LAcquire key) s = Some (Ok s') ∧ step_ok (LAcquire key) s s'.
Proof.
  intros Hs Hmax. destruct (acquire_spec s Hs key Hmax) as (s' & E & Hs' & Hm & Hn & r & phase & Hts & Hns & Hiff).
  exists s'. cbn [lin_do]. rewrite E. split; [done|]. pose proof (fresh_task s Hs) as Hf. split; [done|done|lia|..].
  - intros k t. rewrite !elem_of_waiting, Hts. intros (x & [[<- <-]|[_ Hx]]%lookup_insert_Some & ?); [by right|left; eauto].
  - intros k t x (y & Hy & _ & Hyp)%elem_of_waiting. rewrite Hts, lookup_insert_ne by (intros <-; congruence). congruence.
  - intros x. rewrite Hts, lookup_insert_eq. intros [= <-] Hp. cbn in *. apply dec_stable. intros Hw%(full_queue s key Hs).
    assert (phase = LHolding) as Hh by (by destruct phase). apply Hiff in Hh. lia.
  - done.
Qed.

(** A task that ran ends. *)
Lemma release_step s t k r phase a : lin_inv s → lin_tasks s !! t = Some (mkLinTask k r phase) → phase ≠ LWaiting →
  lin_do a s = Some (_release_lock k r (set_tasks (delete t (lin_tasks s)) s)) →
  (∀ k', frees k' a s = true → k' = k) →
  ∃ s', lin_do a s = Some (Ok s') ∧ step_ok a s s'.
Proof.
  intros Hs Ht Hp Ha Hfr. destruct (release_spec s Hs t k r phase Ht Hp) as (s' & E & Hs' & Hm & Hn & Hts).
  exists s'. rewrite Ha, E. split; [done|]. pose proof (fresh_task s Hs) as Hf.
  split; [done|done|lia|..].
  - intros k' u. rewrite !elem_of_waiting. intros (x & Hx & Hk & Hxp). left. exists x. split; [|done].
    destruct Hts as [[_ Hts]|(d & _ & _ & Hts)]; rewrite Hts in Hx.
    + by apply lookup_delete_Some in Hx as [_ ?].
    + apply lookup_insert_Some in Hx as [[<- <-]|[_ Hx]]; [done|]. by apply lookup_delete_Some in Hx as [_ ?].
  - intros k' u x Hu Hx Hxp. pose proof Hu as (y & Hy & Hk & Hyp)%elem_of_waiting.
    destruct Hts as [[_ Hts]|(d & Hd & Hmin & Hts)]; rewrite Hts in Hx.
    + apply lookup_delete_Some in Hx as [_ Hx]. congruence.
    + apply lookup_insert_Some in Hx as [[<- <-]|[_ Hx]]; [|apply lookup_delete_Some in Hx as [_ Hx]; congruence].
      assert (k' = k) as -> by (apply elem_of_waiting in Hd as (z & Hz & <- & _); congruence). done.
  - intros x. destruct Hts as [[_ Hts]|(d & Hd & _ & Hts)]; rewrite Hts.
    + intros [_ Hx]%lookup_delete_Some. congruence.
    + intros [[Ed _]|[_ [_ Hx]%lookup_delete_Some]]%lookup_insert_Some; [|congruence].
      apply elem_of_waiting in Hd as (z & Hz & _). congruence.
  - intros k' ->%Hfr Hne. destruct Hts as [[He _]|(d & Hd & Hmin & Hts)]; [done|]. exists d. split_and!; [done| |done].
    rewrite elem_of_waiting, Hts. intros (x & Hx & _ & Hxp). rewrite lookup_insert_eq in Hx. simplify_eq.
Qed.

Lemma step_spec a s r : lin_inv s → 0 < max_count s → lin_do a s = Some r → ∃ s', r = Ok s' ∧ step_ok a s s'.
Proof.
  intros Hs Hmax Ha. destruct a as [key|t|t|t].
  - destruct (acquire_step s key Hs Hmax) as (s' & E & ?). exists s'. split; [congruence|done].
  - pose proof Ha as Hdo. cbn [lin_do] in Ha. destruct (lin_tasks s !! t) as [[k r' [| |]]|] eqn:Ht; try done. injection Ha as <-.
    eexists. split; [done|]. pose proof (wake_spec s Hs t k r' Ht) as Hs'. pose proof (fresh_task s Hs) as Hf. split; [done|done|done|..]; cbn.
    + intros k' u. rewrite !elem_of_waiting. intros (x & [[<- <-]|[_ Hx]]%lookup_insert_Some & ? & ?); [done|left; eauto].
    + intros k' u x (y & Hy & _ & Hyp)%elem_of_waiting [[<- <-]|[_ Hx]]%lookup_insert_Some; [|congruence].
      rewrite Ht in Hy. by injection Hy as <-.
    + intros x [[Et _]|[_ Hx]]%lookup_insert_Some; congruence.
    + done.
  - pose proof Ha as Hdo. cbn [lin_do] in Ha. destruct (lin_tasks s !! t) as [[k r' [| |]]|] eqn:Ht; try done.
    destruct (release_step s t k r' LHolding (LRelease t) Hs Ht) as (s' & E & ?); [done|congruence| |exists s'; split; [congruence|done]].
    intros k'. cbn. rewrite Ht. intros [? _]%bool_decide_eq_true. done.
  - pose proof Ha as Hdo. cbn [lin_do] in Ha. destruct (lin_tasks s !! t) as [[k r' [| |]]|] eqn:Ht; try done.
    + destruct (give_up_spec s Hs t k r' Ht) as (s' & E & Hs' & Hm & Hn & Hts). exists s'. split; [congruence|].
      pose proof (fresh_task s Hs) as Hf. split; [done|done|lia|..].
      * intros k' u. rewrite !elem_of_waiting, Hts. intros (x & [_ Hx]%lookup_delete_Some & ?). left. eauto.
      * intros k' u x (y & Hy & _ & Hyp)%elem_of_waiting. rewrite Hts. intros [_ Hx]%lookup_delete_Some. congruence.
      * intros x. rewrite Hts. intros [_ Hx]%lookup_delete_Some. congruence.
      * intros k'. cbn. rewrite Ht. by intros [_ ?]%bool_decide_eq_true.
    + destruct (release_step s t k r' LSleeping (LCancel t) Hs Ht) as (s' & E & ?); [done|congruence| |exists s'; split; [congruence|done]].
      intros k'. cbn. rewrite Ht. intros [? _]%bool_decide_eq_true. done.
Qed.

(** ** The theorems *)

Abbreviation lin_reach n := (rtc lin_step (lin_init n)).

Lemma reach_inv n s : 0 < n → lin_reach n s → lin_inv s ∧ max_count s = n.
Proof.
  intros Hn Hr. assert (∀ s0 s, rtc lin_step s0 s → lin_inv s0 ∧ max_count s0 = n → lin_inv s ∧ max_count s = n) as Hpres.
  { induction 1 as [|s0 s1 s2 [a s0' s1' Ha] _ IH]; [done|]. intros [Hs Hm]. apply IH.
    destruct (step_spec a s0' (Ok s1') Hs) as (s' & [= <-] & Hok); [lia|done|].
    split; [apply (so_inv _ _ _ Hok)|]. by rewrite (so_max _ _ _ Hok). }
  apply (Hpres (lin_init n)); [done|]. split; [apply lin_init_inv|done].
Qed.

(** C33: Whatever tasks ask for, release and give up the lock of a Linearizer with a
    positive max_count, at most max_count of them run for a key; a task waits only when the
    key is full; the dict holds exactly the keys that have tasks, and is_queued tells when
    one waits; no operation fails, the task that is woken is the one that waited longest,
    and a new task never overtakes a waiting one. *)
Theorem linearizer_limits_fairly n s : 0 < n → lin_reach n s →
  (∀ key, Z.of_nat (size (active (tasks_of key (lin_tasks s)))) ≤ n) ∧
  (∀ key, waiting_tasks key (lin_tasks s) ≠ ∅ → Z.of_nat (size (active (tasks_of key (lin_tasks s)))) = n) ∧
  (∀ key, is_Some (key_to_defer s !! key) ↔ tasks_of key (lin_tasks s) ≠ ∅) ∧
  (∀ key, is_queued key s = true ↔ waiting_tasks key (lin_tasks s) ≠ ∅) ∧
  (∀ a r, lin_do a s = Some r → ∃ s', r = Ok s' ∧
     (∀ key t x, t ∈ waiting_tasks key (lin_tasks s) → lin_tasks s' !! t = Some x → lt_phase x ≠ LWaiting →
        ∀ u, u ∈ waiting_tasks key (lin_tasks s) → (t ≤ u)%nat) ∧
     (∀ x, lin_tasks s' !! lin_next_task s = Some x → lt_phase x ≠ LWaiting → waiting_tasks (lt_key x) (lin_tasks s) = ∅)).
Proof.
  intros Hn Hr. destruct (reach_inv n s Hn Hr) as [Hs Hm]. split_and!.
  - intros key. destruct (key_to_defer s !! key) as [r|] eqn:Ek.
    + destruct (lv_entry _ Hs key r Ek) as (e & _ & Hok & _). rewrite <-(eo_count _ _ _ Hok), <-Hm. apply (eo_max _ _ _ Hok).
    + assert (tasks_of key (lin_tasks s) = ∅) as ->; [|unfold active; rewrite map_filter_empty, map_size_empty; lia].
      apply map_empty. intros t. apply eq_None_not_Some. intros [x [Hx <-]%tasks_of_lookup]. destruct (lv_task _ Hs t x Hx). congruence.
  - intros key Hw. rewrite <-Hm. by apply full_queue.
  - intros key. split.
    + intros [r Hk] He. destruct (lv_entry _ Hs key r Hk) as (e & _ & Hok & Hpos). rewrite He in Hok.
      pose proof (eo_count _ _ _ Hok) as Hc. unfold active in Hc. rewrite map_filter_empty, map_size_empty in Hc. lia.
    + intros (t & x & [Hx <-]%tasks_of_lookup)%map_choose. destruct (lv_task _ Hs t x Hx). eauto.
  - intros key. unfold is_queued. destruct (key_to_defer s !! key) as [r|] eqn:Ek.
    + destruct (lv_entry _ Hs key r Ek) as (e & Hl & _). rewrite Hl, bool_decide_eq_true. split; intros Hne He; apply Hne.
      * destruct (e_deferreds e) as [|d l] eqn:Ed; [done|]. assert (d ∈ e_deferreds e) as Hd by (rewrite Ed; left).
        apply (waiting_queue s Hs key r e d Ek Hl) in Hd. rewrite He in Hd. by apply elem_of_empty in Hd.
      * apply set_eq. intros t. rewrite <-(waiting_queue s Hs key r e t Ek Hl), He, elem_of_nil. set_solver.
    + split; [done|]. intros [t (x & Hx & <- & _)%elem_of_waiting]%set_choose_L. destruct (lv_task _ Hs t x Hx). congruence.
  - intros a r Ha. destruct (step_spec a s r Hs) as (s' & -> & Hok); [lia|done|]. exists s'.
    split_and!; [done|apply (so_first _ _ _ Hok)|apply (so_new _ _ _ Hok)].
Qed.

(** A run, with the number of tasks of the key that end in it. *)
Inductive lin_run (key : string) : nat → Linearizer → Linearizer → Prop :=
  | lin_run_nil s : lin_run key 0 s s
  | lin_run_step a n s s' s'' : lin_do a s = Some (Ok s') → lin_run key n s' s'' →
      lin_run key ((if frees key a s then 1 else 0) + n) s s''.

Definition ahead (key : string) (t : nat) (s : Linearizer) : nat :=
  size (filter (λ u, (u < t)%nat) (waiting_tasks key (lin_tasks s))).

(** C34: While a task waits for a key of a Linearizer (with a positive max_count), the tasks
    of the key that end are at most as many as were waiting ahead of it. *)
Theorem linearizer_bounded_wait n s key t k s' : 0 < n → lin_reach n s →
  t ∈ waiting_tasks key (lin_tasks s) → lin_run key k s s' → t ∈ waiting_tasks key (lin_tasks s') → (k ≤ ahead key t s)%nat.
Proof.
  intros Hn Hr Ht Hrun. destruct (reach_inv n s Hn Hr) as [Hs Hm]. assert (0 < max_count s) as Hmax by lia. clear Hn Hr Hm.
  assert (t < lin_next_task s)%nat as Hold.
  { apply elem_of_waiting in Ht as (x & Hx & _). by destruct (lv_task _ Hs t x Hx). }
  clear Ht. revert Hs Hmax Hold. induction Hrun as [s|a k s s1 s2 Ha Hrun IH]; intros Hs Hmax Hold Ht; [lia|].
  destruct (step_spec a s (Ok s1) Hs Hmax Ha) as (? & [= <-] & Hok).
  assert (k ≤ ahead key t s1)%nat as Hk.
  { apply IH; [apply (so_inv _ _ _ Hok)|rewrite (so_max _ _ _ Hok); done| |done]. pose proof (so_next _ _ _ Hok). lia. }
  assert (∀ u, u ∈ filter (λ u, (u < t)%nat) (waiting_tasks key (lin_tasks s1)) →
    u ∈ filter (λ u, (u < t)%nat) (waiting_tasks key (lin_tasks s))) as Hsub.
  { intros u [Hlt Hu]%elem_of_filter. apply elem_of_filter. split; [done|]. destruct (so_wait _ _ _ Hok key u Hu); [done|lia]. }
  destruct (frees key a s) eqn:Hf; [|pose proof (subseteq_size _ _ Hsub); unfold ahead in *; lia].
  (* the task waited all along *)
  assert (t ∈ waiting_tasks key (lin_tasks s1)) as Ht1.
  { clear -Hrun Ht Hok Hold Hmax. assert (t < lin_next_task s1)%nat as Hlt by (pose proof (so_next _ _ _ Hok); lia).
    pose proof (so_inv _ _ _ Hok) as Hs1. assert (0 < max_count s1) as Hm1 by (by rewrite (so_max _ _ _ Hok)).
    clear Hok Hold Hmax s. induction Hrun as [s1|b k s1 s2 s3 Hb _ IH]; [done|].
    destruct (step_spec b s1 (Ok s2) Hs1 Hm1 Hb) as (? & [= <-] & Hok).
    destruct (so_wait _ _ _ Hok key t) as [?|?]; [|done|lia]. apply IH; [done| | |].
    - pose proof (so_next _ _ _ Hok). lia.
    - apply (so_inv _ _ _ Hok).
    - by rewrite (so_max _ _ _ Hok). }
  assert (t ∈ waiting_tasks key (lin_tasks s)) as Ht0 by (destruct (so_wait _ _ _ Hok key t Ht1); [done|lia]).
  destruct (so_frees _ _ _ Hok key Hf) as (d & Hd & Hd1 & Hmin); [set_solver|].
  assert (d < t)%nat as Hdt by (specialize (Hmin t Ht0); assert (d ≠ t) by (intros ->; done); lia).
  assert (filter (λ u, (u < t)%nat) (waiting_tasks key (lin_tasks s1)) ⊂ filter (λ u, (u < t)%nat) (waiting_tasks key (lin_tasks s))) as Hss.
  { apply strict_spec_alt. split; [exact Hsub|]. intros Heq. apply Hd1.
    assert (d ∈ filter (λ u, (u < t)%nat) (waiting_tasks key (lin_tasks s))) as Hin by (by apply elem_of_filter).
    rewrite <-Heq in Hin. by apply elem_of_filter in Hin as [_ ?]. }
  apply subset_size in Hss. unfold ahead in *. lia.
Qed.
