(* ===== verification/ReadWriteLock.v ===== *)
(** * [ReadWriteLock] of [synapse/util/async_helpers.py]

    A task that asks for the lock gets a deferred that fires when it has done
    with it, and waits for the deferreds of others. Firing a deferred runs the
    tasks that wait for it before the firing task goes on; here each of these
    is a step of its own, so that every order of them is covered. A task is
    named by the order in which it asked for the lock, and its deferred by the
    task. *)

From S2P Require Import Prelude.
From stdpp Require Import relations.
#[local] Open Scope Z_scope.

Inductive rw_kind := RRead | RWrite.

(** At its [await], there with a cancellation to be delivered once it is over,
    in the body of the [async with], past [new_defer.callback(None)], and over. *)
Inductive rw_phase := RWaiting | RCancelled | RHolding | RReleasing | RDone.

#[global] Instance rw_kind_eq_dec : EqDecision rw_kind.
Proof. solve_decision. Defined.
#[global] Instance rw_phase_eq_dec : EqDecision rw_phase.
Proof. solve_decision. Defined.

Record rw_task := mkRwTask {
  rt_key : string;
  rt_kind : rw_kind;
  rt_wait : gset nat;     (** the deferreds it waits for *)
  rt_phase : rw_phase
}.

Record ReadWriteLock := mkRwLock {
  key_to_current_readers : StrMap (gset nat);
  key_to_current_writer : StrMap nat;
  rw_called : gset nat;   (** the deferreds that have fired *)
  rw_tasks : gmap nat rw_task;
  rw_next : nat
}.

Definition rw_init : ReadWriteLock := mkRwLock ∅ ∅ ∅ ∅ 0.

Definition curr_readers (key : string) (s : ReadWriteLock) : gset nat := default ∅ (key_to_current_readers s !! key).
Definition curr_writer (key : string) (s : ReadWriteLock) : gset nat :=
  match key_to_current_writer s !! key with Some w => {[w]} | None => ∅ end.

(** [read], up to its [await]. *)
Definition rw_read (key : string) (s : ReadWriteLock) : ReadWriteLock :=
  let new_defer := rw_next s in
  mkRwLock (<[key := {[new_defer]} ∪ curr_readers key s]> (key_to_current_readers s)) (key_to_current_writer s) (rw_called s)
    (<[new_defer := mkRwTask key RRead (curr_writer key s)
                      (if key_to_current_writer s !! key is Some _ then RWaiting else RHolding)]> (rw_tasks s)) (S new_defer).

(** [write], up to its [await]. *)
Definition rw_write (key : string) (s : ReadWriteLock) : ReadWriteLock :=
  let new_defer := rw_next s in
  let to_wait_on := curr_readers key s ∪ curr_writer key s in
  mkRwLock (if key_to_current_readers s !! key is Some _ then <[key := ∅]> (key_to_current_readers s) else key_to_current_readers s)
    (<[key := new_defer]> (key_to_current_writer s)) (rw_called s)
    (<[new_defer := mkRwTask key RWrite to_wait_on RWaiting]> (rw_tasks s)) (S new_defer).

Definition set_phase (t : nat) (x : rw_task) (p : rw_phase) (s : ReadWriteLock) : ReadWriteLock :=
  mkRwLock (key_to_current_readers s) (key_to_current_writer s) (rw_called s)
    (<[t := mkRwTask (rt_key x) (rt_kind x) (rt_wait x) p]> (rw_tasks s)) (rw_next s).

(** [new_defer.callback(None)] *)
Definition rw_callback (t : nat) (x : rw_task) (s : ReadWriteLock) : ReadWriteLock :=
  let s := set_phase t x RReleasing s in
  mkRwLock (key_to_current_readers s) (key_to_current_writer s) ({[t]} ∪ rw_called s) (rw_tasks s) (rw_next s).

(** What follows it. *)
Definition rw_finish (t : nat) (x : rw_task) (s : ReadWriteLock) : ReadWriteLock :=
  let s := set_phase t x RDone s in
  match rt_kind x with
  | RRead =>
      mkRwLock (match key_to_current_readers s !! rt_key x with
                | Some readers => <[rt_key x := readers ∖ {[t]}]> (key_to_current_readers s)
                | None => key_to_current_readers s
                end) (key_to_current_writer s) (rw_called s) (rw_tasks s) (rw_next s)
  | RWrite =>
      mkRwLock (key_to_current_readers s)
        (if decide (key_to_current_writer s !! rt_key x = Some t)
         then delete (rt_key x) (key_to_current_writer s) else key_to_current_writer s)
        (rw_called s) (rw_tasks s) (rw_next s)
  end.

Inductive rw_action :=
  | RwStart (kind : rw_kind) (key : string)
  | RwResume (t : nat)     (** what it waits for has fired *)
  | RwRelease (t : nat)    (** the body ends, also by an exception *)
  | RwCancel (t : nat)     (** the task is cancelled at its [await] *)
  | RwFinish (t : nat).    (** the end of [finally] *)

(** What an action does, when it can happen. A reader stops waiting when it is
    cancelled ([stop_cancellation]), a writer when it would have the lock
    ([delay_cancellation]). *)
Definition rw_do (a : rw_action) (s : ReadWriteLock) : option ReadWriteLock :=
  match a with
  | RwStart RRead key => Some (rw_read key s)
  | RwStart RWrite key => Some (rw_write key s)
  | RwResume t =>
      x ← rw_tasks s !! t;
      if decide (rt_wait x ⊆ rw_called s) then
        match rt_phase x with
        | RWaiting => Some (set_phase t x RHolding s)
        | RCancelled => Some (rw_callback t x s)
        | _ => None
        end
      else None
  | RwRelease t =>
      x ← rw_tasks s !! t;
      if decide (rt_phase x = RHolding) then Some (rw_callback t x s) else None
  | RwCancel t =>
      x ← rw_tasks s !! t;
      if decide (rt_phase x = RWaiting) then
        match rt_kind x with
        | RRead => Some (rw_callback t x s)
        | RWrite => Some (set_phase t x RCancelled s)
        end
      else None
  | RwFinish t =>
      x ← rw_tasks s !! t;
      if decide (rt_phase x = RReleasing) then Some (rw_finish t x s) else None
  end.

Inductive rw_step : ReadWriteLock → ReadWriteLock → Prop :=
  | rw_step_do a s s' : rw_do a s = Some s' → rw_step s s'.

(** ** The invariant *)

Definition is_writer (s : ReadWriteLock) (k : string) (t : nat) : Prop :=
  ∃ x, rw_tasks s !! t = Some x ∧ rt_key x = k ∧ rt_kind x = RWrite.

Record rw_inv (s : ReadWriteLock) : Prop := mkRwInv {
  ri_next t x : rw_tasks s !! t = Some x → (t < rw_next s)%nat;
  ri_called t x : rw_tasks s !! t = Some x → t ∈ rw_called s ↔ rt_phase x = RReleasing ∨ rt_phase x = RDone;
  ri_fired t : t ∈ rw_called s → (t < rw_next s)%nat;
  (** what a task waits for was there before it *)
  ri_before t x u : rw_tasks s !! t = Some x → u ∈ rt_wait x →
    (u < t)%nat ∧ ∃ y, rw_tasks s !! u = Some y ∧ rt_key y = rt_key x;
  ri_holding t x : rw_tasks s !! t = Some x → rt_phase x = RHolding → rt_wait x ⊆ rw_called s;
  ri_writer t x : rw_tasks s !! t = Some x → rt_kind x = RWrite → t ∈ rw_called s → rt_wait x ⊆ rw_called s;
  (** a writer waits for all that came before it, a reader for the writers *)
  ri_write t x u y : rw_tasks s !! t = Some x → rt_kind x = RWrite → rw_tasks s !! u = Some y → rt_key y = rt_key x →
    (u < t)%nat → u ∈ rw_called s ∨ u ∈ rt_wait x ∨ ∃ w, w ∈ rt_wait x ∧ is_writer s (rt_key x) w ∧ (u < w)%nat;
  ri_read t x u : rw_tasks s !! t = Some x → rt_kind x = RRead → is_writer s (rt_key x) u →
    (u < t)%nat → u ∈ rw_called s ∨ ∃ w, w ∈ rt_wait x ∧ is_writer s (rt_key x) w ∧ (u ≤ w)%nat;
  (** the current writer is the latest *)
  ri_current k w : key_to_current_writer s !! k = Some w → ∃ x, rw_tasks s !! w = Some x ∧ rt_key x = k ∧ rt_kind x = RWrite ∧ rt_phase x ≠ RDone;
  ri_latest k u : is_writer s k u → u ∈ rw_called s ∨ ∃ w, key_to_current_writer s !! k = Some w ∧ (u ≤ w)%nat;
  (** the current readers are those no writer waits for yet *)
  ri_readers k u : u ∈ curr_readers k s → ∃ x, rw_tasks s !! u = Some x ∧ rt_key x = k;
  ri_reader u x : rw_tasks s !! u = Some x → rt_kind x = RRead → u ∈ rw_called s ∨
    u ∈ curr_readers (rt_key x) s ∨ ∃ w, key_to_current_writer s !! rt_key x = Some w ∧ (u < w)%nat
}.

Section inv.
Context (s : ReadWriteLock).
Hypothesis s_inv : rw_inv s.

(** When a writer need not wait any more, all before it have done. *)
Lemma writer_after_all t x u y : rw_tasks s !! t = Some x → rt_kind x = RWrite → rt_wait x ⊆ rw_called s →
  rw_tasks s !! u = Some y → rt_key y = rt_key x → (u < t)%nat → u ∈ rw_called s.
Proof.
  revert x. induction (lt_wf t) as [t _ IH]. intros x Ht Hk Hw Hu Hkey Hlt.
  destruct (ri_write _ s_inv t x u y Ht Hk Hu Hkey Hlt) as [?|[?|(w & Hin & (z & Hz & Hkz & Hzw) & Hlt')]]; [done|by apply Hw|].
  destruct (ri_before _ s_inv t x w Ht Hin) as [Hwt _].
  apply (IH w Hwt z Hz Hzw); [|done|congruence|done]. apply (ri_writer _ s_inv w z Hz Hzw). by apply Hw.
Qed.

(** A reader that need not wait comes after all writers before it. *)
Lemma reader_after_writers t x u : rw_tasks s !! t = Some x → rt_kind x = RRead → rt_wait x ⊆ rw_called s →
  is_writer s (rt_key x) u → (u < t)%nat → u ∈ rw_called s.
Proof.
  intros Ht Hk Hw Hu Hlt. destruct (ri_read _ s_inv t x u Ht Hk Hu Hlt) as [?|(w & Hin & (z & Hz & Hkz & Hzw) & Hle)]; [done|].
  destruct (decide (u = w)) as [->|Hne]; [by apply Hw|]. destruct Hu as (y & Hy & Hky & _).
  apply (writer_after_all w z u y Hz Hzw); [|done|congruence|lia]. apply (ri_writer _ s_inv w z Hz Hzw). by apply Hw.
Qed.
End inv.

(** ** What a [ReadWriteLock] promises

    A writer has the lock alone, nobody overtakes a writer, and there is no
    deadlock. *)

Lemma rw_init_inv : rw_inv rw_init.
Proof.
  assert (∀ k u, ¬ is_writer rw_init k u) as Hw by (intros k u (x & Hx & _); unfold rw_init in Hx; cbn in Hx; by rewrite lookup_empty in Hx).
  split; unfold rw_init, curr_readers; cbn; try (by intros *; rewrite lookup_empty).
  - intros t Ht. by apply elem_of_empty in Ht.
  - intros k u Hu. by apply Hw in Hu.
Qed.

(** A task moves on; its deferred may fire. *)
Lemma phase_inv s t x p (called : gset nat) : rw_inv s → rw_tasks s !! t = Some x →
  rw_called s ⊆ called → (∀ u, u ∈ called → u ∈ rw_called s ∨ u = t) →
  (t ∈ called ↔ p = RReleasing ∨ p = RDone) →
  (p = RHolding → rt_wait x ⊆ called) → (rt_kind x = RWrite → t ∈ called → rt_wait x ⊆ called) →
  (p = RDone → key_to_current_writer s !! rt_key x ≠ Some t) →
  rw_inv (mkRwLock (key_to_current_readers s) (key_to_current_writer s) called
    (<[t := mkRwTask (rt_key x) (rt_kind x) (rt_wait x) p]> (rw_tasks s)) (rw_next s)).
Proof.
  intros [H1 H2 H0 H3 H4 H5 H6 H7 H8 H9 H10 H11] Ht Hsub Hnew Hcall Hhold Hwrite Hdone.
  set (s' := mkRwLock _ _ _ _ _).
  assert (∀ u y, rw_tasks s' !! u = Some y → (t = u ∧ mkRwTask (rt_key x) (rt_kind x) (rt_wait x) p = y) ∨ (t ≠ u ∧ rw_tasks s !! u = Some y)) as Hins
    by (intros u y; apply lookup_insert_Some).
  assert (∀ u y, rw_tasks s' !! u = Some y → ∃ z, rw_tasks s !! u = Some z ∧ rt_key y = rt_key z ∧ rt_kind y = rt_kind z ∧
    rt_wait y = rt_wait z ∧ (u = t ∨ y = z)) as Hback.
  { intros u y [[<- <-]|[_ Hy]]%Hins; [exists x; split_and!; auto|exists y; split_and!; auto]. }
  assert (∀ u z, rw_tasks s !! u = Some z → ∃ y, rw_tasks s' !! u = Some y ∧ rt_key y = rt_key z ∧ rt_kind y = rt_kind z ∧
    rt_wait y = rt_wait z ∧ (u = t ∨ y = z)) as Hforth.
  { intros u z Hz. destruct (decide (u = t)) as [->|Hne].
    - assert (z = x) as -> by congruence. eexists. unfold s'. cbn. rewrite lookup_insert_eq. split_and!; auto.
    - exists z. unfold s'. cbn. rewrite lookup_insert_ne by done. split_and!; auto. }
  assert (∀ k u, is_writer s' k u ↔ is_writer s k u) as Hw.
  { intros k u. split.
    - intros (y & (z & Hz & Ek & Ekd & _)%Hback & ? & ?). exists z. split_and!; congruence.
    - intros (z & (y & Hy & Ek & Ekd & _)%Hforth & ? & ?). exists y. split_and!; congruence. }
  split.
  - intros u y (z & Hz & _)%Hback. by eapply H1.
  - intros u y [[<- <-]|[Hne Hy]]%Hins; [done|]. cbn. rewrite <-(H2 u y Hy). split; [|by apply Hsub].
    intros [?|?]%Hnew; [done|congruence].
  - intros u [?| ->]%Hnew; [by apply H0|by eapply H1].
  - intros u y v (z & Hz & Ek & _ & Ew & _)%Hback Hv. rewrite Ew in Hv. destruct (H3 u z v Hz Hv) as (? & v' & Hv' & ?).
    split; [done|]. apply Hforth in Hv' as (y' & Hy' & ? & _). exists y'. split; congruence.
  - intros u y [[<- <-]|[Hne Hy]]%Hins; [done|]. intros Hp. cbn. etrans; [by eapply H4|exact Hsub].
  - intros u y [[<- <-]|[Hne Hy]]%Hins Hk; [by apply Hwrite|]. cbn. intros [Hu|?]%Hnew; [|congruence]. etrans; [by eapply H5|done].
  - intros u y v y' (z & Hz & Ek & Ekd & Ew & _)%Hback Hk (z' & Hz' & Ek' & _)%Hback Hkey Hlt. rewrite Ek, Ew. setoid_rewrite Hw.
    destruct (H6 u z v z' Hz) as [?|?]; [congruence|done|congruence|done|left; by apply Hsub|by right].
  - intros u y v (z & Hz & Ek & Ekd & Ew & _)%Hback Hk. rewrite Ek, Ew. setoid_rewrite Hw. intros Hv Hlt.
    destruct (H7 u z v Hz) as [?|?]; [congruence|done|done|left; by apply Hsub|by right].
  - intros k w Hk. destruct (H8 k w Hk) as (z & Hz & Hkz & Hkd & Hp). apply Hforth in Hz as Hy. destruct Hy as (y & Hy & Ek & Ekd & _ & Hor).
    exists y. split_and!; [done|congruence|congruence|]. destruct Hor as [-> | ->]; [|done].
    unfold s' in Hy. cbn in Hy. rewrite lookup_insert_eq in Hy. injection Hy as <-. cbn. intros Hd. apply (Hdone Hd).
    assert (z = x) as -> by congruence. by rewrite Hkz.
  - intros k u Hu%Hw. destruct (H9 k u Hu) as [?|?]; [left; by apply Hsub|by right].
  - intros k u Hu. destruct (H10 k u Hu) as (z & (y & Hy & Ek & _)%Hforth & ?). exists y. split; [done|congruence].
  - intros u y (z & Hz & Ek & Ekd & _)%Hback Hk. rewrite Ek. destruct (H11 u z Hz) as [?|?]; [congruence|left; by apply Hsub|by right].
Qed.

(** A new task. *)
Lemma rw_start_inv s key kind (readers : StrMap (gset nat)) (writers : StrMap nat) (wait : gset nat) p :
  rw_inv s → let t := rw_next s in let x := mkRwTask key kind wait p in
  (∀ u, u ∈ wait ↔ u ∈ curr_writer key s ∨ (kind = RWrite ∧ u ∈ curr_readers key s)) →
  (p = RWaiting ∨ (p = RHolding ∧ wait = ∅)) →
  (∀ k, k ≠ key → readers !! k = key_to_current_readers s !! k ∧ writers !! k = key_to_current_writer s !! k) →
  match kind with
  | RRead => readers !! key = Some ({[t]} ∪ curr_readers key s) ∧ writers !! key = key_to_current_writer s !! key
  | RWrite => default ∅ (readers !! key) = (∅ : gset nat) ∧ writers !! key = Some t
  end →
  rw_inv (mkRwLock readers writers (rw_called s) (<[t := x]> (rw_tasks s)) (S t)).
Proof.
  intros Hs t x Hwait Hp Hother Hmaps. pose proof Hs as [H1 H2 H0 H3 H4 H5 H6 H7 H8 H9 H10 H11].
  set (s' := mkRwLock _ _ _ _ _).
  assert (∀ u y, rw_tasks s' !! u = Some y → (t = u ∧ x = y) ∨ (t ≠ u ∧ rw_tasks s !! u = Some y)) as Hins
    by (intros u y; apply lookup_insert_Some).
  assert (rw_tasks s !! t = None) as Hfresh by (apply eq_None_not_Some; intros [y Hy]; specialize (H1 t y Hy); unfold t in *; lia).
  assert (∀ u y, rw_tasks s !! u = Some y → rw_tasks s' !! u = Some y ∧ u ≠ t) as Hold.
  { intros u y Hy. assert (u ≠ t) by (intros ->; congruence). split; [|done]. unfold s'. cbn. by rewrite lookup_insert_ne. }
  assert (∀ k u, is_writer s k u → is_writer s' k u) as Hw1.
  { intros k u (y & Hy & ?). exists y. by destruct (Hold u y Hy). }
  assert (∀ k u, is_writer s' k u → is_writer s k u ∨ (u = t ∧ k = key ∧ kind = RWrite)) as Hw2.
  { intros k u (y & [[<- <-]|[_ Hy]]%Hins & Hk & Hkd); [by right|left; by exists y]. }
  assert (t ∉ rw_called s) as Hnc by (intros Hc%H0; unfold t in *; lia).
  assert (∀ w, w ∈ curr_writer key s → key_to_current_writer s !! key = Some w) as Hcw.
  { intros w. unfold curr_writer. destruct (key_to_current_writer s !! key); set_solver. }
  assert (∀ w, key_to_current_writer s !! key = Some w → w ∈ wait) as Hcw'.
  { intros w Hw. apply Hwait. left. unfold curr_writer. rewrite Hw. set_solver. }
  assert (∀ u, u ∈ wait → ∃ y, rw_tasks s !! u = Some y ∧ rt_key y = key) as Hwt.
  { intros u [Hu%Hcw|[_ Hu]]%Hwait; [destruct (H8 key u Hu) as (y & ? & ? & _); eauto|by apply H10]. }
  assert (∀ w, key_to_current_writer s !! key = Some w → is_writer s' key w) as Hcur.
  { intros w Hw. apply Hw1. destruct (H8 key w Hw) as (y & ? & ? & ? & _). by exists y. }
  assert (∀ k w, key_to_current_writer s !! k = Some w → ∃ w', writers !! k = Some w' ∧ (w ≤ w')%nat) as Hlater.
  { intros k w Hk. destruct (decide (k = key)) as [->|Hne]; [|exists w; destruct (Hother k Hne) as [_ ->]; done].
    destruct kind; destruct Hmaps as [_ ->]; [by exists w|]. exists t. split; [done|]. destruct (H8 key w Hk) as (y & Hy & _). specialize (H1 w y Hy). unfold t. lia. }
  split.
  - intros u y [[<- <-]|[_ Hy]]%Hins; cbn; [lia|]. specialize (H1 u y Hy). unfold t. lia.
  - intros u y [[<- <-]|[_ Hy]]%Hins; [|by apply H2]. cbn. split; [done|destruct Hp as [->|[-> _]]; intros [?|?]; done].
  - intros u Hu%H0. cbn. lia.
  - intros u y v [[<- <-]|[_ Hy]]%Hins.
    + cbn. intros (y & Hy & Hk)%Hwt. split; [by eapply H1|]. exists y. by destruct (Hold v y Hy).
    + intros Hv. destruct (H3 u y v Hy Hv) as (? & z & Hz & ?). split; [done|]. exists z. by destruct (Hold v z Hz).
  - intros u y [[<- <-]|[_ Hy]]%Hins; [|by intros; eapply H4]. cbn. intros Hph. destruct Hp as [?|[_ ->]]; [congruence|set_solver].
  - intros u y [[<- <-]|[_ Hy]]%Hins; [|by apply H5]. done.
  - intros u y v z [[<- <-]|[_ Hy]]%Hins Hk.
    + cbn in *. subst kind. intros [[<- <-]|[_ Hz]]%Hins Hkz Hlt; [lia|].
      destruct (rt_kind z) eqn:Ekz.
      * destruct (H11 v z Hz Ekz) as [?|[Hin|(w & Hw & ?)]]; [by left| |]; rewrite Hkz in *.
        -- right. left. apply Hwait. by right.
        -- right. right. exists w. eauto.
      * destruct (H9 key v) as [?|(w & Hw & ?)]; [by exists z|by left|]. right.
        destruct (decide (v = w)) as [->|?]; [left; eauto|]. right. exists w. split_and!; [eauto|eauto|lia].
    + intros [[<- <-]|[_ Hz]]%Hins Hkz Hlt; [specialize (H1 u y Hy); unfold t in *; lia|].
      destruct (H6 u y v z Hy Hk Hz Hkz Hlt) as [?|[?|(w & ? & ? & ?)]]; [by left|by right; left|]. right. right. exists w. eauto.
  - intros u y v [[<- <-]|[_ Hy]]%Hins Hk.
    + cbn in *. subst kind. intros [Hv|(-> & _ & ?)]%Hw2 Hlt; [|done].
      destruct (H9 key v Hv) as [?|(w & Hw & ?)]; [by left|]. right. exists w. eauto.
    + intros [Hv|(-> & _ & _)]%Hw2 Hlt; [|specialize (H1 u y Hy); unfold t in *; lia].
      destruct (H7 u y v Hy Hk Hv Hlt) as [?|(w & ? & ? & ?)]; [by left|]. right. exists w. eauto.
  - intros k w Hkw. destruct (decide (k = key)) as [->|Hne].
    + destruct kind; destruct Hmaps as [_ Hm]; cbn in Hkw; rewrite Hm in Hkw.
      * destruct (H8 key w Hkw) as (y & Hy & ?). exists y. by destruct (Hold w y Hy).
      * injection Hkw as <-. exists x. unfold s', x. cbn. rewrite lookup_insert_eq. split_and!; [done..|].
        destruct Hp as [->|[-> _]]; done.
    + destruct (Hother k Hne) as [_ Hm]. cbn in Hkw. rewrite Hm in Hkw. destruct (H8 k w Hkw) as (y & Hy & ?). exists y. by destruct (Hold w y Hy).
  - intros k u [Hu|(-> & -> & ->)]%Hw2.
    + destruct (H9 k u Hu) as [?|(w & Hw & ?)]; [by left|]. right. destruct (Hlater k w Hw) as (w' & ? & ?). exists w'. split; [done|lia].
    + right. exists t. destruct Hmaps as [_ Hm]. by split.
  - intros k u Hu. destruct (decide (k = key)) as [->|Hne].
    + unfold curr_readers in Hu. cbn in Hu. destruct kind; destruct Hmaps as [Hm _]; rewrite Hm in Hu; cbn in Hu; [|by apply elem_of_empty in Hu].
      apply elem_of_union in Hu as [->%elem_of_singleton|Hu].
      * exists x. unfold s'. cbn. by rewrite lookup_insert_eq.
      * destruct (H10 key u Hu) as (y & Hy & ?). exists y. by destruct (Hold u y Hy).
    + unfold curr_readers in Hu. cbn in Hu. destruct (Hother k Hne) as [Hm _]. rewrite Hm in Hu.
      destruct (H10 k u Hu) as (y & Hy & ?). exists y. by destruct (Hold u y Hy).
  - intros u y [[<- <-]|[_ Hy]]%Hins Hk.
    + cbn in *. subst kind. right. left. unfold curr_readers. cbn. destruct Hmaps as [-> _]. cbn. set_solver.
    + destruct (H11 u y Hy Hk) as [?|[Hin|(w & Hw & ?)]]; [by left| |].
      * destruct (decide (rt_key y = key)) as [Ek|Hne].
        -- rewrite Ek in *. destruct kind; destruct Hmaps as [Hm1 Hm2].
           ++ right. left. unfold curr_readers at 1. cbn. rewrite Hm1. cbn. set_solver.
           ++ right. right. exists t. split; [done|]. by eapply H1.
        -- right. left. unfold curr_readers. cbn. by destruct (Hother _ Hne) as [-> _].
      * right. right. destruct (Hlater _ w Hw) as (w' & ? & ?). exists w'. split; [done|lia].
Qed.

(** A task whose deferred has fired takes itself off the maps. *)
Lemma leave_inv s t x : rw_inv s → rw_tasks s !! t = Some x → t ∈ rw_called s →
  let left := rw_finish t x s in
  rw_inv (mkRwLock (key_to_current_readers left) (key_to_current_writer left) (rw_called s) (rw_tasks s) (rw_next s)) ∧
  key_to_current_writer left !! rt_key x ≠ Some t.
Proof.
  intros Hs Ht Hc. pose proof Hs as [H1 H2 H0 H3 H4 H5 H6 H7 H8 H9 H10 H11]. unfold rw_finish. destruct (rt_kind x) eqn:Ek; cbn.
  - assert (∀ k u, u ≠ t → u ∈ curr_readers k s ↔ u ∈ default ∅ (match key_to_current_readers s !! rt_key x with
      | Some readers => <[rt_key x := readers ∖ {[t]}]> (key_to_current_readers s) | None => key_to_current_readers s end !! k)) as Hr.
    { intros k u Hne. unfold curr_readers. destruct (key_to_current_readers s !! rt_key x) as [readers|] eqn:Er; [|done].
      destruct (decide (k = rt_key x)) as [->|?]; [rewrite lookup_insert_eq, Er; cbn; set_solver|by rewrite lookup_insert_ne]. }
    split; [|intros Hw; destruct (H8 _ _ Hw) as (y & ? & _ & ? & _); congruence].
    split; unfold curr_readers; cbn; try done.
    + intros k u Hu. destruct (decide (u = t)) as [->|Hne]; [|apply H10; by apply Hr].
      apply H10. revert Hu. unfold curr_readers. destruct (key_to_current_readers s !! rt_key x) as [readers|] eqn:Er; [|done].
      destruct (decide (k = rt_key x)) as [->|?]; [rewrite lookup_insert_eq; cbn; set_solver|by rewrite lookup_insert_ne].
    + intros u y Hu Hk. destruct (decide (u = t)) as [->|Hne]; [by left|]. rewrite <-Hr by done. by apply H11.
  - destruct (decide (key_to_current_writer s !! rt_key x = Some t)) as [Hcur|Hcur]; [|done].
    split; [|by rewrite lookup_delete_eq].
    assert (∀ u y, rw_tasks s !! u = Some y → rt_key y = rt_key x → (u ≤ t)%nat → u ∈ rw_called s) as Hall.
    { intros u y Hu Hkey Hle. destruct (decide (u = t)) as [->|Hne]; [done|].
      apply (writer_after_all s Hs t x u y); try done; [by apply (H5 t x)|lia]. }
    split; cbn; try done.
    + intros k w [_ Hw]%lookup_delete_Some. by apply H8.
    + intros k u Hu. destruct (H9 k u Hu) as [?|(w & Hw & Hle)]; [by left|].
      destruct (decide (k = rt_key x)) as [->|?]; [|right; exists w; by rewrite lookup_delete_ne].
      left. destruct Hu as (y & Hy & Hk & _). assert (w = t) as -> by congruence. by apply (Hall u y).
    + intros u y Hu Hk. destruct (H11 u y Hu Hk) as [?|[?|(w & Hw & Hlt)]]; [by left|by right; left|].
      destruct (decide (rt_key y = rt_key x)) as [Ey|?]; [|right; right; exists w; by rewrite lookup_delete_ne].
      left. rewrite Ey in Hw. assert (w = t) as -> by congruence. apply (Hall u y); [done..|lia].
Qed.

Lemma callback_inv s t x : rw_inv s → rw_tasks s !! t = Some x → (rt_kind x = RWrite → rt_wait x ⊆ rw_called s) →
  rw_inv (rw_callback t x s).
Proof.
  intros Hs Ht Hw. apply (phase_inv s t x RReleasing ({[t]} ∪ rw_called s)); try done.
  - set_solver.
  - set_solver.
  - split; [by left|set_solver].
  - intros Hk _. etrans; [by apply Hw|set_solver].
Qed.

Lemma wait_inv s t x p : rw_inv s → rw_tasks s !! t = Some x → rt_phase x = RWaiting →
  p = RCancelled ∨ (p = RHolding ∧ rt_wait x ⊆ rw_called s) → rw_inv (set_phase t x p s).
Proof.
  intros Hs Ht Hx Hp. pose proof (ri_called _ Hs t x Ht) as Hc. apply (phase_inv s t x p (rw_called s)); try done.
  - by left.
  - rewrite Hc, Hx. destruct Hp as [->|[-> _]]; naive_solver.
  - intros ->. by destruct Hp as [?|[_ ?]].
  - intros _ [?|?]%Hc; congruence.
  - intros ->. by destruct Hp as [?|[? _]].
Qed.

Lemma rw_step_inv a s s' : rw_inv s → rw_do a s = Some s' → rw_inv s'.
Proof.
  intros Hs Ha. destruct a as [[] key|t|t|t|t]; cbn in Ha;
    try (destruct (rw_tasks s !! t) as [x|] eqn:Ht; [cbn in Ha|done]; case_decide as Hd; [|done]).
  - injection Ha as <-. unfold rw_read. apply rw_start_inv; [done|..].
    + intros u. split; [by left|]. by intros [?|[? _]].
    + unfold curr_writer. destruct (key_to_current_writer s !! key); auto.
    + intros k Hne. by rewrite lookup_insert_ne.
    + by rewrite lookup_insert_eq.
  - injection Ha as <-. unfold rw_write. apply rw_start_inv; [done|..].
    + intros u. rewrite elem_of_union. naive_solver.
    + by left.
    + intros k Hne. rewrite (lookup_insert_ne (key_to_current_writer s)) by done. split; [|done].
      destruct (key_to_current_readers s !! key); [by rewrite lookup_insert_ne|done].
    + rewrite lookup_insert_eq. split; [|done].
      destruct (key_to_current_readers s !! key) eqn:Er; [by rewrite lookup_insert_eq|by rewrite Er].
  - destruct (rt_phase x) eqn:Ep; try done; injection Ha as <-.
    + apply wait_inv; auto.
    + by apply callback_inv.
  - injection Ha as <-. apply callback_inv; [done|done|]. intros _. by apply (ri_holding _ Hs t x).
  - destruct (rt_kind x) eqn:Ek; injection Ha as <-; [apply callback_inv; [done|done|congruence]|apply wait_inv; auto].
  - injection Ha as <-. pose proof (ri_called _ Hs t x Ht) as Hc. assert (t ∈ rw_called s) as Hin by (apply Hc; by left).
    destruct (leave_inv s t x Hs Ht Hin) as [Hi Hn].
    assert (rw_inv (mkRwLock (key_to_current_readers (rw_finish t x s)) (key_to_current_writer (rw_finish t x s)) (rw_called s)
      (<[t := mkRwTask (rt_key x) (rt_kind x) (rt_wait x) RDone]> (rw_tasks s)) (rw_next s))) as Hf.
    { refine (phase_inv _ t x RDone (rw_called s) Hi _ _ _ _ _ _ _); try done.
      - by left.
      - split; [by right|done].
      - intros Hk _. by apply (ri_writer _ Hs t x). }
    revert Hf. clear. by destruct x as [? [] ? ?].
Qed.

(** ** The theorems *)

Abbreviation rw_reach := (rtc rw_step rw_init).

Lemma rw_reach_inv s : rw_reach s → rw_inv s.
Proof.
  assert (∀ s0 s, rtc rw_step s0 s → rw_inv s0 → rw_inv s) as Hpres.
  { induction 1 as [|s0 s1 s2 [a s0' s1' Ha] _ IH]; [done|]. intros Hi. apply IH. by eapply rw_step_inv. }
  intros Hr. by apply (Hpres rw_init), rw_init_inv.
Qed.

Definition fired (x : rw_task) : bool := match rt_phase x with RReleasing | RDone => true | _ => false end.

Lemma fired_called s t x : rw_inv s → rw_tasks s !! t = Some x → fired x = true ↔ t ∈ rw_called s.
Proof. intros Hs Ht. rewrite (ri_called _ Hs t x Ht). unfold fired. destruct (rt_phase x); naive_solver. Qed.

(** One that may go on has overtaken at most readers, as a reader. *)
Lemma overtakes s t x u y : rw_inv s → rw_tasks s !! t = Some x → rt_wait x ⊆ rw_called s →
  rw_tasks s !! u = Some y → rt_key y = rt_key x → (u < t)%nat → fired y = false → rt_kind x = RRead ∧ rt_kind y = RRead.
Proof.
  intros Hs Ht Hw Hu Hk Hlt Hf.
  assert (u ∉ rw_called s) as Hn by (rewrite <-(fired_called s u y Hs Hu); by rewrite Hf).
  destruct (rt_kind x) eqn:Ex; [|by destruct Hn; apply (writer_after_all s Hs t x u y)]. split; [done|].
  destruct (rt_kind y) eqn:Ey; [done|]. destruct Hn. apply (reader_after_writers s Hs t x u); try done. by exists y.
Qed.

(** The first of a key that has not fired is not held up. *)
Lemma first_goes s t x : rw_inv s → rw_tasks s !! t = Some x → fired x = false →
  ∃ u y, (u ≤ t)%nat ∧ rw_tasks s !! u = Some y ∧ rt_key y = rt_key x ∧ fired y = false ∧ rt_wait y ⊆ rw_called s.
Proof.
  intros Hs. revert x. induction (lt_wf t) as [t _ IH]. intros x Ht Hf.
  destruct (decide (rt_wait x ⊆ rw_called s)) as [?|Hn]; [by exists t, x|].
  assert (∃ v, v ∈ rt_wait x ∖ rw_called s) as [v [Hv Hvc]%elem_of_difference].
  { apply set_choose_L. intros He. apply Hn. set_solver. }
  destruct (ri_before _ Hs t x v Ht Hv) as (Hlt & z & Hz & Hkz).
  destruct (IH v Hlt z Hz) as (u & y & ? & ? & ? & ? & ?).
  { apply not_true_is_false. by rewrite (fired_called s v z Hs Hz). }
  exists u, y. split_and!; try done; [lia|congruence].
Qed.

(** C35: Of the tasks that hold a ReadWriteLock for a key at once none is a writer unless it
    is alone; nobody gets the lock before an earlier task that still waits, other than a
    reader before a reader; the current writer of a key is a writer of the key that has not
    ended. This includes cancelled tasks and every order in which waiting tasks go on. *)
Theorem rw_lock_exclusive s : rtc rw_step rw_init s →
  (∀ t x u y, rw_tasks s !! t = Some x → rw_tasks s !! u = Some y → rt_key x = rt_key y → t ≠ u →
     rt_phase x = RHolding → rt_phase y = RHolding → rt_kind x = RRead ∧ rt_kind y = RRead) ∧
  (∀ t x u y, rw_tasks s !! t = Some x → rw_tasks s !! u = Some y → rt_key x = rt_key y → (u < t)%nat →
     rt_phase x = RHolding → rt_phase y = RWaiting ∨ rt_phase y = RCancelled → rt_kind x = RRead ∧ rt_kind y = RRead) ∧
  (∀ k w, key_to_current_writer s !! k = Some w →
     ∃ x, rw_tasks s !! w = Some x ∧ rt_key x = k ∧ rt_kind x = RWrite ∧ rt_phase x ≠ RDone).
Proof.
  intros Hs%rw_reach_inv.
  assert (∀ t x u y, rw_tasks s !! t = Some x → rw_tasks s !! u = Some y → rt_key x = rt_key y → (u < t)%nat →
     rt_phase x = RHolding → fired y = false → rt_kind x = RRead ∧ rt_kind y = RRead) as Hov.
  { intros t x u y Ht Hu Hk Hlt Hp Hf. eapply overtakes; try done. by apply (ri_holding _ Hs t x). }
  assert (∀ y, rt_phase y = RHolding → fired y = false) as Hh by (intros y Hy; unfold fired; by rewrite Hy).
  split_and!.
  - intros t x u y Ht Hu Hk Hne Hx Hy. destruct (Nat.lt_total u t) as [Hlt|[?|Hlt]]; [|done|].
    + apply (Hov t x u y); auto.
    + apply and_comm. apply (Hov u y t x); auto.
  - intros t x u y Ht Hu Hk Hlt Hx Hy. apply (Hov t x u y); auto. unfold fired. by destruct Hy as [-> | ->].
  - apply (ri_current _ Hs).
Qed.

(** ** No task is held up for ever *)

(** The steps that bring no new task. *)
Inductive rw_move : ReadWriteLock → ReadWriteLock → Prop :=
  | rw_move_do a s s' : rw_do a s = Some s' → (∀ kind key, a ≠ RwStart kind key) → rw_move s s'.

(** The most steps a task has left. *)
Definition steps_left (s : ReadWriteLock) (t : nat) : nat :=
  match rw_tasks s !! t with
  | Some x => match rt_phase x with RWaiting => 3 | RCancelled | RHolding => 2 | RReleasing => 1 | RDone => 0 end
  | None => 0
  end.

Definition all_steps_left (s : ReadWriteLock) : nat := sum_list_with (steps_left s) (seq 0 (rw_next s)).

Lemma sum_with_lt {A} (f g : A → nat) l j : (∀ i, (f i ≤ g i)%nat) → j ∈ l → (f j < g j)%nat →
  (sum_list_with f l < sum_list_with g l)%nat.
Proof.
  intros Hle Hj Hlt. assert (∀ l, (sum_list_with f l ≤ sum_list_with g l)%nat) as Hall.
  { intros l0. induction l0 as [|i l' IH]; cbn; [lia|]. specialize (Hle i). lia. }
  induction Hj as [i|i k l Hj IH]; cbn; [specialize (Hall l); lia|specialize (Hle k); specialize (IH Hlt); lia].
Qed.

Lemma set_phase_left s t x p (readers : StrMap (gset nat)) (writers : StrMap nat) called : rw_inv s → rw_tasks s !! t = Some x →
  let s' := mkRwLock readers writers called (<[t := mkRwTask (rt_key x) (rt_kind x) (rt_wait x) p]> (rw_tasks s)) (rw_next s) in
  (steps_left s' t < steps_left s t)%nat → (all_steps_left s' < all_steps_left s)%nat.
Proof.
  intros Hs Ht s' Hlt. apply (sum_with_lt _ _ _ t); [|apply elem_of_seq; pose proof (ri_next _ Hs t x Ht); cbn; lia|done].
  intros u. destruct (decide (u = t)) as [->|Hne]; [lia|]. unfold steps_left, s'. cbn. by rewrite lookup_insert_ne.
Qed.

Ltac phase_left s t x p Ht Hp :=
  refine (set_phase_left s t x p _ _ _ _ Ht _); [done|unfold steps_left; cbn; rewrite lookup_insert_eq, Ht; cbn; rewrite Hp; lia].

Lemma move_left s s' : rw_inv s → rw_move s s' → (all_steps_left s' < all_steps_left s)%nat.
Proof.
  intros Hs Hm. revert Hs. destruct Hm as [a s s' Ha Hn]. intros Hs. destruct a as [kind key|t|t|t|t]; [by destruct (Hn kind key)|..];
    cbn in Ha; (destruct (rw_tasks s !! t) as [x|] eqn:Ht; [cbn in Ha|done]); (case_decide as Hd; [|done]).
  - destruct (rt_phase x) eqn:Ep; try done; injection Ha as <-.
    + phase_left s t x RHolding Ht Ep.
    + phase_left s t x RReleasing Ht Ep.
  - injection Ha as <-. phase_left s t x RReleasing Ht Hd.
  - destruct (rt_kind x); injection Ha as <-; [phase_left s t x RReleasing Ht Hd|phase_left s t x RCancelled Ht Hd].
  - injection Ha as <-. unfold rw_finish. destruct (rt_kind x); phase_left s t x RDone Ht Hd.
Qed.

(** C36: A ReadWriteLock has no deadlock: when no new tasks come, every run ends, within
    three steps for each task, and when nothing can go on all tasks have ended and no writer
    is left. *)
Theorem rw_lock_drains s n s' : rtc rw_step rw_init s → nsteps rw_move n s s' →
  (n ≤ 3 * rw_next s)%nat ∧
  ((∀ s'', ¬ rw_move s' s'') → (∀ t x, rw_tasks s' !! t = Some x → rt_phase x = RDone) ∧ key_to_current_writer s' = ∅).
Proof.
  intros Hs%rw_reach_inv Hn. assert (rw_inv s' ∧ (n + all_steps_left s' ≤ all_steps_left s)%nat) as [Hs' Hleft].
  { induction Hn as [|n s s1 s2 Hm _ IH]; [split; [done|lia]|].
    assert (rw_inv s1) as Hs1 by (destruct Hm as [a s s1 Ha _]; by eapply rw_step_inv).
    destruct (IH Hs1). split; [done|]. pose proof (move_left s s1 Hs Hm). lia. }
  split.
  - assert (∀ l, (sum_list_with (steps_left s) l ≤ 3 * length l)%nat) as Hb.
    { induction l as [|i l IH]; cbn; [lia|]. assert (steps_left s i ≤ 3)%nat; [|lia].
      unfold steps_left. destruct (rw_tasks s !! i) as [x|]; [destruct (rt_phase x)|]; lia. }
    specialize (Hb (seq 0 (rw_next s))). rewrite length_seq in Hb. unfold all_steps_left in Hleft at 2. lia.
  - intros Hstop. assert (∀ a s'', rw_do a s' = Some s'' → ∃ kind key, a = RwStart kind key) as Hno.
    { intros a s'' Ha. destruct a as [kind key|t|t|t|t]; [eauto|..]; destruct (Hstop s''); by eapply rw_move_do. }
    assert (∀ t x, rw_tasks s' !! t = Some x → fired x = true) as Hfired.
    { intros t x Ht. destruct (fired x) eqn:Ef; [done|].
      destruct (first_goes s' t x Hs' Ht Ef) as (u & y & _ & Hu & _ & Hf & Hw).
      assert (∃ a s'', rw_do a s' = Some s'' ∧ ∀ kind key, a ≠ RwStart kind key) as (a & s'' & Ha & Hne);
        [|destruct (Hno a s'' Ha) as (? & ? & ?); by destruct (Hne x0 x1)].
      destruct (rt_phase y) eqn:Ep; unfold fired in Hf; rewrite Ep in Hf; try done.
      - exists (RwResume u). cbn. rewrite Hu. cbn. rewrite decide_True by done. rewrite Ep. eauto.
      - exists (RwResume u). cbn. rewrite Hu. cbn. rewrite decide_True by done. rewrite Ep. eauto.
      - exists (RwRelease u). cbn. rewrite Hu. cbn. rewrite decide_True by done. eauto. }
    assert (∀ t x, rw_tasks s' !! t = Some x → rt_phase x = RDone) as Hdone.
    { intros t x Ht. pose proof (Hfired t x Ht) as Hf. unfold fired in Hf. destruct (rt_phase x) eqn:Ep; try done.
      destruct (Hno (RwFinish t) (rw_finish t x s')) as (? & ? & ?); [|done]. cbn. rewrite Ht. cbn. by rewrite decide_True. }
    split; [done|]. apply map_empty. intros k. apply eq_None_not_Some. intros [w Hw].
    destruct (ri_current _ Hs' k w Hw) as (x & Hx & _ & _ & Hp). by apply Hp, (Hdone w).
Qed.

(** The set of readers of a key is never dropped, though it is empty. *)
Lemma readers_kept a s s' k : rw_do a s = Some s' → is_Some (key_to_current_readers s !! k) → is_Some (key_to_current_readers s' !! k).
Proof.
  intros Ha Hk. destruct a as [[] key|t|t|t|t]; cbn in Ha;
    try (destruct (rw_tasks s !! t) as [x|] eqn:Ht; [cbn in Ha|done]; case_decide as Hd; [|done]).
  - injection Ha as <-. unfold rw_read. cbn. apply lookup_insert_is_Some'. by right.
  - injection Ha as <-. unfold rw_write. cbn. destruct (key_to_current_readers s !! key) eqn:Er; [|done]. apply lookup_insert_is_Some'. by right.
  - by destruct (rt_phase x); try done; injection Ha as <-.
  - by injection Ha as <-.
  - by destruct (rt_kind x); injection Ha as <-.
  - injection Ha as <-. unfold rw_finish. destruct (rt_kind x); [|done]. cbn.
    destruct (key_to_current_readers s !! rt_key x) eqn:Er; [|done]. apply lookup_insert_is_Some'. by right.
Qed.
