(* ===== verification/Filtering.v ===== *)
(** * Filtering of events for clients

    [synapse/api/filtering.py], with the query of
    [storage/databases/main/relations.py] it uses and the table of filters of
    [storage/databases/main/filtering.py]. A filter is JSON a client wrote; the
    attributes of [Filter] are the values found there, of whatever type, since
    [/messages] uses filters that were not checked. *)

From S2P Require Import Prelude PyJson PyDict RoomVersions Identifiers Event EventUtils PresenceStore.
From Stdlib Require Import Ascii.
#[local] Open Scope Z_scope.

(** ** Python's operations on JSON values *)

(** [a == b] *)
Fixpoint py_eq (a b : json) : bool :=
  match a, b with
  | JList l, JList m =>
      (fix go l m := match l, m with
                     | [], [] => true
                     | x :: l, y :: m => py_eq x y && go l m
                     | _, _ => false
                     end) l m
  | JObj d, JObj e =>
      Nat.eqb (length d) (length e) &&
      (fix go d := match d with
                   | [] => true
                   | (k, x) :: d => match obj_get k e with Some y => py_eq x y | None => false end && go d
                   end) d
  | _, _ => py_eq_scalar a b
  end.

(** [v in labels], for any two values. *)
Definition label_in (v labels : json) : res bool :=
  match labels with
  | JList l => Ok (existsb (py_eq v) l)
  | JObj d => if is_hashable v then Ok (match v with JStr s => obj_in s d | _ => false end) else Raise TypeError
  | JStr s => match v with JStr p => Ok (str_contains p s) | _ => Raise TypeError end
  | _ => Raise TypeError
  end.

(** [any(map(f, l))] *)
Fixpoint any_match (f : json → res bool) (l : list json) : res bool :=
  match l with
  | [] => Ok false
  | v :: l => b ← f v; if (b : bool) then Ok true else any_match f l
  end.

(** [[x for x in l if f(x)]] *)
Fixpoint filter_res {A} (f : A → res bool) (l : list A) : res (list A) :=
  match l with
  | [] => Ok []
  | x :: l => b ← f x; r ← filter_res f l; Ok (if (b : bool) then x :: r else r)
  end.

(** ** The schemas *)

(** The forms of schema the module writes; [$ref]s are replaced by what they
    refer to. Additional properties are allowed. *)
#[warnings="-register-all"]
Inductive schema :=
  | SType (type : string)
  | SEnum (type : string) (enum : list string)
  | SFormat (type format : string)
  | SArray (items : schema)
  | SObject (properties : list (string * schema)).

Definition str_array : schema := SArray (SType "string").
Definition USER_ID_ARRAY_SCHEMA : schema := SArray (SFormat "string" "matrix_user_id").
Definition ROOM_ID_ARRAY_SCHEMA : schema := SArray (SFormat "string" "matrix_room_id").

Definition FILTER_SCHEMA : schema := SObject [
  ("limit", SType "number");
  ("senders", USER_ID_ARRAY_SCHEMA);
  ("not_senders", USER_ID_ARRAY_SCHEMA);
  ("types", str_array);
  ("not_types", str_array);
  ("org.matrix.msc3874.rel_types", str_array);
  ("org.matrix.msc3874.not_rel_types", str_array)].

Definition ROOM_EVENT_FILTER_SCHEMA : schema := SObject [
  ("limit", SType "number");
  ("senders", USER_ID_ARRAY_SCHEMA);
  ("not_senders", USER_ID_ARRAY_SCHEMA);
  ("types", str_array);
  ("not_types", str_array);
  ("rooms", ROOM_ID_ARRAY_SCHEMA);
  ("not_rooms", ROOM_ID_ARRAY_SCHEMA);
  ("contains_url", SType "boolean");
  ("lazy_load_members", SType "boolean");
  ("include_redundant_members", SType "boolean");
  ("unread_thread_notifications", SType "boolean");
  ("org.matrix.msc3773.unread_thread_notifications", SType "boolean");
  ("org.matrix.labels", str_array);
  ("org.matrix.not_labels", str_array);
  ("related_by_senders", str_array);
  ("related_by_rel_types", str_array)].

Definition ROOM_FILTER_SCHEMA : schema := SObject [
  ("not_rooms", ROOM_ID_ARRAY_SCHEMA);
  ("rooms", ROOM_ID_ARRAY_SCHEMA);
  ("ephemeral", ROOM_EVENT_FILTER_SCHEMA);
  ("include_leave", SType "boolean");
  ("state", ROOM_EVENT_FILTER_SCHEMA);
  ("timeline", ROOM_EVENT_FILTER_SCHEMA);
  ("account_data", ROOM_EVENT_FILTER_SCHEMA)].

Definition USER_FILTER_SCHEMA : schema := SObject [
  ("presence", FILTER_SCHEMA);
  ("account_data", FILTER_SCHEMA);
  ("room", ROOM_FILTER_SCHEMA);
  ("event_format", SEnum "string" ["client"; "federation"]);
  ("event_fields", str_array)].

Section formats.
Context `{Netaddr}.

Definition matrix_room_id_validator (room_id : json) : bool :=
  match room_id with JStr s => is_valid RoomID_SIGIL s | _ => false end.
Definition matrix_user_id_validator (user_id : json) : bool :=
  match user_id with JStr s => is_valid UserID_SIGIL s | _ => false end.

Definition check_format (format : string) (v : json) : bool :=
  if String.eqb format "matrix_user_id" then matrix_user_id_validator v
  else if String.eqb format "matrix_room_id" then matrix_room_id_validator v
  else true.

Definition has_type (type : string) (v : json) : bool :=
  match v with
  | JBool _ => String.eqb type "boolean"
  | JInt _ => String.eqb type "number" || String.eqb type "integer"
  | JFloat _ => String.eqb type "number"
  | JStr _ => String.eqb type "string"
  | JList _ => String.eqb type "array"
  | JObj _ => String.eqb type "object"
  | JNull => String.eqb type "null"
  end.

(** What JSON Schema says of these forms. *)
Fixpoint conforms (s : schema) (v : json) : bool :=
  match s with
  | SType t => has_type t v
  | SEnum t l => has_type t v && existsb (λ x, py_eq v (JStr x)) l
  | SFormat t f => has_type t v && check_format f v
  | SArray items => match v with JList l => forallb (conforms items) l | _ => false end
  | SObject properties =>
      match v with
      | JObj d =>
          (fix go ps := match ps with
                        | [] => true
                        | (k, p) :: ps => match obj_get k d with Some w => conforms p w | None => true end && go ps
                        end) properties
      | _ => false
      end
  end.

(** [jsonschema.validate], with the text of its [ValidationError]. *)
Class JsonSchema := {
  validate : json → schema → option string;
  validate_spec v s : validate v s = None ↔ conforms s v = true
}.

Definition check_valid_filter `{JsonSchema} (user_filter_json : json) : res unit :=
  match validate user_filter_json USER_FILTER_SCHEMA with
  | None => Ok tt
  | Some e => Raise (SynapseError 400 e Codes.UNKNOWN)
  end.
End formats.

(** ** [Filter] *)

(** [hs.config.experimental] *)
Record FilterConfig := mkFilterConfig { msc3773_enabled : bool; msc3874_enabled : bool }.

Record Filter := mkFilter {
  f_json : jobj;
  f_limit : json;
  f_lazy_load_members : json;
  f_include_redundant_members : json;
  f_unread_thread_notifications : json;
  f_types : json;
  f_not_types : json;
  f_rooms : json;
  f_not_rooms : json;
  f_senders : json;
  f_not_senders : json;
  f_contains_url : json;
  f_labels : json;
  f_not_labels : json;
  f_related_by_senders : json;
  f_related_by_rel_types : json;
  f_rel_types : json;
  f_not_rel_types : json
}.

Definition Filter_init (c : FilterConfig) (filter_json : json) : res Filter :=
  match filter_json with
  | JObj d =>
      let get k v := obj_get_default k v d in
      let unread := get "unread_thread_notifications" (JBool false) in
      Ok {| f_json := d;
            f_limit := get "limit" (JInt 10);
            f_lazy_load_members := get "lazy_load_members" (JBool false);
            f_include_redundant_members := get "include_redundant_members" (JBool false);
            f_unread_thread_notifications :=
              if negb (truthy unread) && msc3773_enabled c
              then get "org.matrix.msc3773.unread_thread_notifications" (JBool false) else unread;
            f_types := get "types" JNull;
            f_not_types := get "not_types" (JList []);
            f_rooms := get "rooms" JNull;
            f_not_rooms := get "not_rooms" (JList []);
            f_senders := get "senders" JNull;
            f_not_senders := get "not_senders" (JList []);
            f_contains_url := get "contains_url" JNull;
            f_labels := get "org.matrix.labels" JNull;
            f_not_labels := get "org.matrix.not_labels" (JList []);
            f_related_by_senders := get "related_by_senders" JNull;
            f_related_by_rel_types := get "related_by_rel_types" JNull;
            f_rel_types := if msc3874_enabled c then get "org.matrix.msc3874.rel_types" JNull else JNull;
            f_not_rel_types := if msc3874_enabled c then get "org.matrix.msc3874.not_rel_types" (JList []) else JList [] |}
  | _ => Raise (AttributeError "get")
  end.

(** [v == []] *)
Definition is_empty_list (v : json) : bool := match v with JList [] => true | _ => false end.

Definition filters_all (allowed disallowed : json) : res bool :=
  if is_empty_list allowed then Ok true else py_in (JStr "*") disallowed.
Definition filters_all_types (f : Filter) : res bool := filters_all (f_types f) (f_not_types f).
Definition filters_all_senders (f : Filter) : res bool := filters_all (f_senders f) (f_not_senders f).
Definition filters_all_rooms (f : Filter) : res bool := filters_all (f_rooms f) (f_not_rooms f).

(** What is filtered. *)
Inductive FilterEvent :=
  | FEvent (e : EventBase)
  | FPresence (s : UserPresenceState)
  | FDict (d : jobj).

(** [event.get(key)] of an event or a dict. *)
Definition event_get (key : string) (event : EventBase) : option json :=
  if String.eqb key "content" then Some (JObj (content event))
  else if String.eqb key "sender" then Some (JStr (sender event))
  else if String.eqb key "room_id" then JStr <$> ev_room_id event
  else if String.eqb key "type" then Some (JStr (ev_type event))
  else None.

Definition _matches_wildcard (actual_value filter_value : json) : res bool :=
  match filter_value with
  | JStr v =>
      Ok (match str_last v, actual_value with
          | Some "*"%char, JStr a => str_startswith (str_take (String.length v - 1) v) a
          | _, _ => py_eq actual_value filter_value
          end)
  | _ => Raise (AttributeError "endswith")
  end.

(** The names of [field_matchers]. *)
Inductive field := rooms_field | senders_field | types_field | labels_field | rel_types_field.

Definition allowed_values (name : field) (f : Filter) : json :=
  match name with
  | rooms_field => f_rooms f
  | senders_field => f_senders f
  | types_field => f_types f
  | labels_field => f_labels f
  | rel_types_field => f_rel_types f
  end.
Definition disallowed_values (name : field) (f : Filter) : json :=
  match name with
  | rooms_field => f_not_rooms f
  | senders_field => f_not_senders f
  | types_field => f_not_types f
  | labels_field => f_not_labels f
  | rel_types_field => f_not_rel_types f
  end.

Fixpoint _check_fields (f : Filter) (field_matchers : list (field * (json → res bool))) : res bool :=
  match field_matchers with
  | [] => Ok true
  | (name, match_func) :: rest =>
      disallowed ← py_list (disallowed_values name f);
      b ← any_match match_func disallowed;
      if (b : bool) then Ok false
      else
        match allowed_values name f with
        | JNull => _check_fields f rest
        | v =>
            allowed ← py_list v;
            b ← any_match match_func allowed;
            if (b : bool) then _check_fields f rest else Ok false
        end
  end.

(** [_check] of what is not presence, given its fields and the type of its relation. *)
Definition check_event_fields (f : Filter) (get : string → option json) (rel_type : json) : res bool :=
  let content := match get "content" with Some (JObj d) => d | _ => [] end in
  let sender := default JNull (get "sender") in
  let sender := if truthy sender then sender else default JNull (obj_get "user_id" content) in
  let room_id := default JNull (get "room_id") in
  let ev_type := default JNull (get "type") in
  let labels := obj_get_default "org.matrix.labels" (JList []) content in
  result ← _check_fields f
    [(rooms_field, λ v, Ok (py_eq room_id v));
     (senders_field, λ v, Ok (py_eq sender v));
     (types_field, λ v, _matches_wildcard ev_type v);
     (labels_field, λ v, label_in v labels);
     (rel_types_field, λ v, Ok (py_eq rel_type v))];
  if (result : bool) then
    match f_contains_url f with
    | JNull => Ok true
    | contains_url_filter =>
        let contains_url := match obj_get "url" content with Some (JStr _) => true | _ => false end in
        Ok (py_eq contains_url_filter (JBool contains_url))
    end
  else Ok false.

Definition _check (f : Filter) (event : FilterEvent) : res bool :=
  match event with
  | FPresence s =>
      _check_fields f
        [(senders_field, λ v, Ok (py_eq (JStr (PresenceStore.user_id s)) v));
         (types_field, λ v, Ok (py_eq (JStr "m.presence") v))]
  | FEvent e =>
      check_event_fields f (λ k, event_get k e)
        (match relation_from_event e with Some relation => JStr (rel_type relation) | None => JNull end)
  | FDict d => check_event_fields f (λ k, obj_get k d) JNull
  end.

(** [set(v)], for the strings in it. *)
Definition str_set (v : json) : res (list json) :=
  l ← py_list v; if forallb is_hashable l then Ok l else Raise TypeError.

Definition filter_rooms (f : Filter) (room_ids : StrSet) : res StrSet :=
  disallowed_rooms ← str_set (f_not_rooms f);
  let room_ids := filter (λ r, existsb (py_eq (JStr r)) disallowed_rooms = false) room_ids in
  match f_rooms f with
  | JNull => Ok room_ids
  | v =>
      allowed_rooms ← str_set v;
      Ok (filter (λ r, existsb (py_eq (JStr r)) allowed_rooms = true) room_ids)
  end.

(** A row of [event_relations] joined with [events]. *)
Record relation_row := mkRelation { relates_to_id : string; relation_sender : string; relation_type : string }.

(** The parameters of an [IN] list on a text column, on PostgreSQL. *)
Fixpoint sql_strings (l : list json) : res (list string) :=
  match l with
  | [] => Ok []
  | JStr s :: l => r ← sql_strings l; Ok (s :: r)
  | JNull :: l => sql_strings l
  | _ :: _ => Raise (PlainException "ProgrammingError")
  end.

Definition in_clause (v : json) (column : relation_row → string) (rows : list relation_row) : res (list relation_row) :=
  if truthy v then l ← py_list v; l ← sql_strings l; Ok (List.filter (λ r, bool_decide (column r ∈ l)) rows) else Ok rows.

Definition events_have_relations (db : list relation_row) (parent_ids : list string)
    (relation_senders relation_types : json) : res (list string) :=
  if negb (truthy relation_senders) && negb (truthy relation_types) then Ok parent_ids
  else
    let rows := List.filter (λ r, bool_decide (relates_to_id r ∈ parent_ids)) db in
    rows ← in_clause relation_senders relation_sender rows;
    rows ← in_clause relation_types relation_type rows;
    Ok (map relates_to_id rows).

Definition base_id (event : FilterEvent) : option string := match event with FEvent e => Some (event_id e) | _ => None end.

Definition _check_event_relations (db : list relation_row) (f : Filter) (events : list FilterEvent) : res (list FilterEvent) :=
  event_ids_to_keep ← events_have_relations db (omap base_id events) (f_related_by_senders f) (f_related_by_rel_types f);
  Ok (List.filter (λ event, match base_id event with Some i => bool_decide (i ∈ event_ids_to_keep) | None => true end) events).

Definition filter_events (db : list relation_row) (f : Filter) (events : list FilterEvent) : res (list FilterEvent) :=
  result ← filter_res (_check f) events;
  if truthy (f_related_by_senders f) || truthy (f_related_by_rel_types f)
  then _check_event_relations db f result else Ok result.

(** The list of rooms is one object, in the JSON of both filters. *)
Definition set_rooms (v : json) (f : Filter) : Filter :=
  mkFilter (dict_set "rooms" v (f_json f)) (f_limit f) (f_lazy_load_members f) (f_include_redundant_members f)
    (f_unread_thread_notifications f) (f_types f) (f_not_types f) v (f_not_rooms f) (f_senders f) (f_not_senders f)
    (f_contains_url f) (f_labels f) (f_not_labels f) (f_related_by_senders f) (f_related_by_rel_types f)
    (f_rel_types f) (f_not_rel_types f).

(** The new filter, and what the old one has become. *)
Definition with_room_ids (c : FilterConfig) (room_ids : list string) (f : Filter) : res (Filter * Filter) :=
  newFilter ← Filter_init c (JObj (f_json f));
  match f_rooms newFilter with
  | JList l => let v := JList (l ++ (JStr <$> room_ids)) in Ok (set_rooms v newFilter, set_rooms v f)
  | _ => Raise TypeError
  end.

(** ** [FilterCollection] *)

Record FilterCollection := mkCollection {
  _filter_json : jobj;
  _room_filter : Filter;
  _room_timeline_filter : Filter;
  _room_state_filter : Filter;
  _room_ephemeral_filter : Filter;
  _room_account_data_filter : Filter;
  _presence_filter : Filter;
  _global_account_data_filter : Filter;
  include_leave : json;
  fc_event_fields : json;
  fc_event_format : json
}.

Definition FilterCollection_init (c : FilterConfig) (filter_json : json) : res FilterCollection :=
  match filter_json with
  | JObj d =>
      let empty := JObj [] in
      room_filter_json ← py_items (obj_get_default "room" empty d);
      room ← Filter_init c (JObj (List.filter (λ kv, existsb (String.eqb kv.1) ["rooms"; "not_rooms"]) room_filter_json));
      timeline ← Filter_init c (obj_get_default "timeline" empty room_filter_json);
      state ← Filter_init c (obj_get_default "state" empty room_filter_json);
      ephemeral ← Filter_init c (obj_get_default "ephemeral" empty room_filter_json);
      account_data ← Filter_init c (obj_get_default "account_data" empty room_filter_json);
      presence ← Filter_init c (obj_get_default "presence" empty d);
      global_account_data ← Filter_init c (obj_get_default "account_data" empty d);
      Ok {| _filter_json := d; _room_filter := room; _room_timeline_filter := timeline; _room_state_filter := state;
            _room_ephemeral_filter := ephemeral; _room_account_data_filter := account_data; _presence_filter := presence;
            _global_account_data_filter := global_account_data;
            include_leave := obj_get_default "include_leave" (JBool false) room_filter_json;
            fc_event_fields := obj_get_default "event_fields" (JList []) d;
            fc_event_format := obj_get_default "event_format" (JStr "client") d |}
  | _ => Raise (AttributeError "get")
  end.

Definition get_filter_json (fc : FilterCollection) : jobj := _filter_json fc.
Definition timeline_limit (fc : FilterCollection) : json := f_limit (_room_timeline_filter fc).
Definition presence_limit (fc : FilterCollection) : json := f_limit (_presence_filter fc).
Definition ephemeral_limit (fc : FilterCollection) : json := f_limit (_room_ephemeral_filter fc).
Definition lazy_load_members (fc : FilterCollection) : json := f_lazy_load_members (_room_state_filter fc).
Definition include_redundant_members (fc : FilterCollection) : json := f_include_redundant_members (_room_state_filter fc).
Definition unread_thread_notifications (fc : FilterCollection) : json :=
  f_unread_thread_notifications (_room_timeline_filter fc).

Section collection.
Context (db : list relation_row) (fc : FilterCollection).

Definition filter_presence (presence_states : list UserPresenceState) : res (list FilterEvent) :=
  filter_events db (_presence_filter fc) (FPresence <$> presence_states).
Definition filter_global_account_data (events : list jobj) : res (list FilterEvent) :=
  filter_events db (_global_account_data_filter fc) (FDict <$> events).

(** [await f.filter(await self._room_filter.filter(events))] *)
Definition filter_in_rooms (f : Filter) (events : list FilterEvent) : res (list FilterEvent) :=
  events ← filter_events db (_room_filter fc) events; filter_events db f events.
Definition filter_room_state (events : list EventBase) : res (list FilterEvent) :=
  filter_in_rooms (_room_state_filter fc) (FEvent <$> events).
Definition filter_room_timeline (events : list EventBase) : res (list FilterEvent) :=
  filter_in_rooms (_room_timeline_filter fc) (FEvent <$> events).
Definition filter_room_ephemeral (events : list jobj) : res (list FilterEvent) :=
  filter_in_rooms (_room_ephemeral_filter fc) (FDict <$> events).
Definition filter_room_account_data (events : list jobj) : res (list FilterEvent) :=
  filter_in_rooms (_room_account_data_filter fc) (FDict <$> events).
End collection.

(** [a or b] *)
Definition res_or (a b : res bool) : res bool := x ← a; if (x : bool) then Ok true else b.

Definition blocks_all_rooms (fc : FilterCollection) : res bool := filters_all_rooms (_room_filter fc).
Definition blocks_all_presence (fc : FilterCollection) : res bool :=
  res_or (filters_all_types (_presence_filter fc)) (filters_all_senders (_presence_filter fc)).
Definition blocks_all_global_account_data (fc : FilterCollection) : res bool :=
  res_or (filters_all_types (_global_account_data_filter fc)) (filters_all_senders (_global_account_data_filter fc)).
Definition blocks_all_in_room (f : Filter) : res bool :=
  res_or (filters_all_types f) (res_or (filters_all_senders f) (filters_all_rooms f)).
Definition blocks_all_room_ephemeral (fc : FilterCollection) : res bool := blocks_all_in_room (_room_ephemeral_filter fc).
Definition blocks_all_room_account_data (fc : FilterCollection) : res bool := blocks_all_in_room (_room_account_data_filter fc).
Definition blocks_all_room_timeline (fc : FilterCollection) : res bool := blocks_all_in_room (_room_timeline_filter fc).

(** ** The table of filters *)

(** [encode_canonical_json] and the JSON decoder: what is decoded equals what
    was encoded, as Python compares values. *)
Class FilterJson := {
  encode_canonical_json : json → res string;
  db_to_json : string → res json;
  decode_encode j s : encode_canonical_json j = Ok s → ∃ j', db_to_json s = Ok j' ∧ py_eq j j' = true
}.

(** A row of [user_filters]. *)
Record user_filter_row := mkUserFilter { full_user_id : string; uf_user_id : string; uf_id : Z; uf_json : string }.

(** [SELECT MAX(filter_id)] *)
Definition max_filter_id (l : list Z) : option Z :=
  match l with [] => None | x :: l => Some (foldr Z.max x l) end.

Section store.
Context `{FilterJson}.

(** [_do_txn] on the table it sees: the id, and the row it inserts. *)
Definition _do_txn (user_id : DomainSpecificString) (def_json : string) (rows : list user_filter_row) : Z * option user_filter_row :=
  let user := to_string UserID_SIGIL user_id in
  match List.find (λ r, String.eqb (full_user_id r) user && String.eqb (uf_json r) def_json) rows with
  | Some r => (uf_id r, None)
  | None =>
      let ids := map uf_id (List.filter (λ r, String.eqb (full_user_id r) user) rows) in
      let id := match max_filter_id ids with None => 0 | Some m => m + 1 end in
      (id, Some (mkUserFilter user (localpart user_id) id def_json))
  end.

(** The insertion, on the table as it is when the transaction commits: the
    unique index refuses a second row for a user and an id. *)
Definition commit_row (row : option user_filter_row) (rows : list user_filter_row) : option (list user_filter_row) :=
  match row with
  | None => Some rows
  | Some r =>
      if existsb (λ r', String.eqb (full_user_id r') (full_user_id r) && (uf_id r' =? uf_id r)) rows then None
      else Some (rows ++ [r])
  end.

(** The attempts that remain: for each, the table its transaction sees and the
    one it commits to. *)
Fixpoint add_attempts (user_id : DomainSpecificString) (def_json : string) (tries : nat)
    (tables : nat → list user_filter_row * list user_filter_row) : res (Z * list user_filter_row) :=
  match tries with
  | O => Raise (SynapseError 500 "Couldn't generate a filter ID." Codes.UNKNOWN)
  | S tries =>
      let '(id, row) := _do_txn user_id def_json (tables 0%nat).1 in
      match commit_row row (tables 0%nat).2 with
      | Some rows => Ok (id, rows)
      | None => add_attempts user_id def_json tries (λ i, tables (S i))
      end
  end.

Definition store_add_user_filter (user_id : DomainSpecificString) (user_filter : json)
    (tables : nat → list user_filter_row * list user_filter_row) : res (Z * list user_filter_row) :=
  def_json ← encode_canonical_json user_filter;
  add_attempts user_id def_json 5 tables.

Definition store_get_user_filter (user_id : DomainSpecificString) (filter_id : Z + string) (rows : list user_filter_row) : res json :=
  id ← match filter_id with
       | inl z => Ok z
       | inr s => match py_int_of_str s with
                  | Raise ValueError => Raise (SynapseError 400 "Invalid filter ID" Codes.INVALID_PARAM)
                  | r => r
                  end
       end;
  match List.find (λ r, String.eqb (full_user_id r) (to_string UserID_SIGIL user_id) && (uf_id r =? id)) rows with
  | Some r => db_to_json (uf_json r)
  | None => Raise (SynapseError 404 "No row found" Codes.UNKNOWN)
  end.

(** [Filtering.add_user_filter], [Filtering.get_user_filter] *)
Definition add_user_filter `{Netaddr} `{!JsonSchema} (user_id : DomainSpecificString) (user_filter : json)
    (tables : nat → list user_filter_row * list user_filter_row) : res (Z * list user_filter_row) :=
  check_valid_filter user_filter;; store_add_user_filter user_id user_filter tables.

Definition get_user_filter (c : FilterConfig) (user_id : DomainSpecificString) (filter_id : Z + string)
    (rows : list user_filter_row) : res FilterCollection :=
  result ← store_get_user_filter user_id filter_id rows; FilterCollection_init c result.
End store.
