(* ===== verification/FilteringProps.v ===== *)
(** * What filters select

    A filter that passes the schema never fails on events, selects the events
    its fields describe, and blocks all of a kind only when it would select
    none. *)

From S2P Require Import Prelude PyJson PyDict RoomVersions Identifiers Event EventUtils PresenceStore Filtering.
From Stdlib Require Import Ascii.
#[local] Open Scope Z_scope.

(** ** Well-typed filters *)

Definition strings (v : json) : Prop := ∃ l, v = JList (JStr <$> l).
Definition opt_strings (v : json) : Prop := v = JNull ∨ strings v.

Definition as_string (v : json) : option string := match v with JStr s => Some s | _ => None end.
Definition string_list (v : json) : list string := match v with JList l => omap as_string l | _ => [] end.

Lemma string_list_strs l : string_list (JList (JStr <$> l)) = l.
Proof. cbn. induction l as [|s l IH]; [done|]. cbn. f_equal. exact IH. Qed.

Record well_typed (f : Filter) : Prop := mkWellTyped {
  wt_allowed name : opt_strings (allowed_values name f);
  wt_disallowed name : strings (disallowed_values name f);
  wt_no_star : JStr "*" ∉ match f_not_senders f with JList l => l | _ => [] end;
  wt_no_star_room : JStr "*" ∉ match f_not_rooms f with JList l => l | _ => [] end;
  wt_contains_url : f_contains_url f = JNull ∨ ∃ b, f_contains_url f = JBool b;
  wt_related_by_senders : opt_strings (f_related_by_senders f);
  wt_related_by_rel_types : opt_strings (f_related_by_rel_types f)
}.

(** ** What a filter describes *)

(** A trailing star stands for any ending. *)
Definition glob (pattern a : string) : Prop := pattern = a ∨ ∃ p s, pattern = String.append p "*" ∧ a = String.append p s.

Definition lists_ok (disallowed allowed : json) (P : string → Prop) : Prop :=
  (∀ v, v ∈ string_list disallowed → ¬ P v) ∧ (allowed ≠ JNull → ∃ v, v ∈ string_list allowed ∧ P v).
Definition field_ok (f : Filter) (name : field) : (string → Prop) → Prop :=
  lists_ok (disallowed_values name f) (allowed_values name f).

Definition event_content (get : string → option json) : jobj := match get "content" with Some (JObj d) => d | _ => [] end.
Definition event_sender (get : string → option json) : json :=
  let sender := default JNull (get "sender") in
  if truthy sender then sender else default JNull (obj_get "user_id" (event_content get)).
Definition event_labels (get : string → option json) : json :=
  obj_get_default "org.matrix.labels" (JList []) (event_content get).
Definition has_url (content : jobj) : bool := match obj_get "url" content with Some (JStr _) => true | _ => false end.

Definition selects_fields (f : Filter) (get : string → option json) (rel : json) : Prop :=
  lists_ok (f_not_rooms f) (f_rooms f) (λ v, get "room_id" = Some (JStr v)) ∧
  lists_ok (f_not_senders f) (f_senders f) (λ v, event_sender get = JStr v) ∧
  lists_ok (f_not_types f) (f_types f) (λ v, ∃ a, get "type" = Some (JStr a) ∧ glob v a) ∧
  lists_ok (f_not_labels f) (f_labels f) (λ v, label_in (JStr v) (event_labels get) = Ok true) ∧
  lists_ok (f_not_rel_types f) (f_rel_types f) (λ v, rel = JStr v) ∧
  (∀ b, f_contains_url f = JBool b → has_url (event_content get) = b).

Definition fields_of (e : FilterEvent) : string → option json :=
  match e with FEvent e => λ k, event_get k e | FDict d => λ k, obj_get k d | FPresence _ => λ _, None end.
Definition relation_of (e : FilterEvent) : json :=
  match e with
  | FEvent e => match relation_from_event e with Some relation => JStr (rel_type relation) | None => JNull end
  | _ => JNull
  end.

Definition selects (f : Filter) (e : FilterEvent) : Prop :=
  match e with
  | FPresence s => lists_ok (f_not_senders f) (f_senders f) (λ v, v = PresenceStore.user_id s) ∧
      lists_ok (f_not_types f) (f_types f) (λ v, v = "m.presence")
  | _ => selects_fields f (fields_of e) (relation_of e)
  end.

(** Some event relates to it, from the senders and of the types asked for. *)
Definition related (db : list relation_row) (f : Filter) (e : FilterEvent) : Prop :=
  let senders := string_list (f_related_by_senders f) in
  let types := string_list (f_related_by_rel_types f) in
  match base_id e with
  | Some i => (senders = [] ∧ types = []) ∨
      ∃ r, r ∈ db ∧ relates_to_id r = i ∧ (senders ≠ [] → relation_sender r ∈ senders) ∧ (types ≠ [] → relation_type r ∈ types)
  | None => True
  end.

(** Python can look for a label in the labels. *)
Definition labels_ok (e : FilterEvent) : Prop :=
  match event_labels (fields_of e) with JList _ | JObj _ | JStr _ => True | _ => False end.

(** ** Matching *)

Lemma py_eq_str_l s v : py_eq (JStr s) v = true ↔ v = JStr s.
Proof. destruct v; cbn; try (split; [done|congruence]). rewrite String.eqb_eq. split; [by intros ->|by intros [= ->]]. Qed.

Lemma py_eq_str_r v s : py_eq v (JStr s) = true ↔ v = JStr s.
Proof. destruct v; cbn; try (split; [done|congruence]). rewrite String.eqb_eq. split; [by intros ->|by intros [= ->]]. Qed.

Lemma str_startswith_spec p a : str_startswith p a = true ↔ ∃ s, a = String.append p s.
Proof.
  revert a. induction p as [|c p IH]; intros a; cbn; [split; eauto|]. destruct a as [|d a].
  - split; [done|]. by intros [s ?].
  - rewrite andb_true_iff, IH, Ascii.eqb_eq. split.
    + intros [-> [s ->]]. by exists s.
    + intros [s [= -> ->]]. eauto.
Qed.

Lemma str_last_star v : str_last v = Some "*"%char → v = String.append (str_take (String.length v - 1) v) "*".
Proof.
  unfold str_last. induction v as [|c v IH]; [done|]. cbn [str_chars String.length]. rewrite Nat.sub_succ, Nat.sub_0_r.
  destruct v as [|d v]; [by intros [= ->]|]. intros Hl. cbn [String.length]. cbn [str_take].
  specialize (IH Hl). cbn [String.length] in IH. rewrite Nat.sub_succ, Nat.sub_0_r in IH. rewrite append_cons. by f_equal.
Qed.

Lemma str_last_append p : str_last (String.append p "*") = Some "*"%char.
Proof.
  unfold str_last. induction p as [|c p IH]; [done|]. rewrite append_cons. cbn [str_chars].
  destruct (str_chars (String.append p "*")) eqn:E; [by destruct p|]. exact IH.
Qed.

Lemma matches_wildcard_spec ev_type v : ∃ b, _matches_wildcard (default JNull ev_type) (JStr v) = Ok b ∧
  (b = true ↔ ∃ a, ev_type = Some (JStr a) ∧ glob v a).
Proof.
  unfold _matches_wildcard. eexists. split; [done|].
  assert (∀ p, v = String.append p "*" → str_take (String.length v - 1) v = p) as Hp.
  { intros p ->. induction p as [|c p IH]; [done|]. rewrite append_cons. cbn [String.length]. rewrite Nat.sub_succ, Nat.sub_0_r.
    destruct (String.length (String.append p "*")) eqn:E; [by destruct p|]. cbn [str_take]. f_equal.
    rewrite Nat.sub_succ, Nat.sub_0_r in IH. exact IH. }
  assert (py_eq (default JNull ev_type) (JStr v) = true ↔ ev_type = Some (JStr v)) as Heq.
  { rewrite py_eq_str_r. destruct ev_type; cbn; split; congruence. }
  assert (str_last v = Some "*"%char → ∀ a, str_startswith (str_take (String.length v - 1) v) a = true ↔ glob v a) as Hstar.
  { intros Hl a. rewrite str_startswith_spec. apply str_last_star in Hl. set (p := str_take _ v) in *. split.
    - intros [s ->]. right. by exists p, s.
    - intros [<-|(q & s & Hv & ->)]; [by exists "*"|]. specialize (Hp q Hv). exists s. congruence. }
  destruct (decide (str_last v = Some "*"%char)) as [Hl|Hl].
  - rewrite Hl. destruct ev_type as [[| | | |a| |]|]; cbn [default]; try (split; [done|by intros (a & [=] & _)]).
    + rewrite (Hstar Hl a). split; [eauto|]. by intros (? & [= ->] & ?).
  - trans (ev_type = Some (JStr v)).
    + rewrite <-Heq. destruct (str_last v) as [c|]; [|done]. destruct (decide (c = "*"%char)) as [->|Hne]; [done|].
      by destruct c as [[] [] [] [] [] [] [] []].
    + split; [intros ->; exists v; split; [done|by left]|]. intros (a & -> & [->|(p & s & -> & _)]); [done|].
      by rewrite str_last_append in Hl.
Qed.

(** A matcher decides [P] on strings. *)
Definition decides (m : json → res bool) (P : string → Prop) : Prop := ∀ v, ∃ b, m (JStr v) = Ok b ∧ (b = true ↔ P v).

Lemma any_match_spec m P l : decides m P → ∃ b, any_match m (JStr <$> l) = Ok b ∧ (b = true ↔ ∃ v, v ∈ l ∧ P v).
Proof.
  intros Hm. induction l as [|v l (b & Hb & IH)]; cbn.
  - exists false. split; [done|]. split; [done|]. by intros (v & ?%elem_of_nil & _).
  - destruct (Hm v) as (b' & -> & Hv). cbn. destruct b'.
    + exists true. split; [done|]. split; [|done]. intros _. exists v. split; [left|by apply Hv].
    + exists b. split; [exact Hb|]. rewrite IH. split.
      * intros (w & ? & ?). exists w. split; [by right|done].
      * intros (w & [->|?]%elem_of_cons & HP); [by apply Hv in HP|eauto].
Qed.

Lemma check_fields_cons f name m rest P Q : well_typed f → decides m P →
  (∃ b, _check_fields f rest = Ok b ∧ (b = true ↔ Q)) →
  ∃ b, _check_fields f ((name, m) :: rest) = Ok b ∧ (b = true ↔ field_ok f name P ∧ Q).
Proof.
  intros Hf Hm (b & Hb & HQ). cbn [_check_fields]. unfold field_ok, lists_ok. destruct (wt_disallowed _ Hf name) as [dis Hdis].
  rewrite Hdis. cbn [py_list mbind res_bind]. rewrite string_list_strs.
  destruct (any_match_spec m P dis Hm) as (b1 & -> & H1). cbn [mbind res_bind]. destruct b1.
  { exists false. split; [done|]. split; [done|]. intros [[Hno _] _]. destruct (proj1 H1 eq_refl) as (v & Hv & HP). by destruct (Hno v Hv). }
  assert (∀ v, v ∈ dis → ¬ P v) as Hno by (intros v Hv HP; enough (false = true) by done; apply H1; eauto).
  destruct (wt_allowed _ Hf name) as [->|[l ->]].
  - exists b. split; [done|]. rewrite HQ. split; [|by intros [_ ?]]. intros ?. split; [|done]. split; [done|]. done.
  - cbn [py_list mbind res_bind]. rewrite string_list_strs. destruct (any_match_spec m P l Hm) as (b2 & -> & H2). cbn [mbind res_bind].
    destruct b2.
    + exists b. split; [done|]. rewrite HQ. split; [|by intros [_ ?]]. intros ?. split; [|done]. split; [done|]. intros _. by apply H2.
    + exists false. split; [done|]. split; [done|]. intros [[_ Hy] _]. apply H2. by apply Hy.
Qed.

Lemma check_fields_nil f : ∃ b, _check_fields f [] = Ok b ∧ (b = true ↔ True).
Proof. by exists true. Qed.

Lemma check_event_fields_spec f get rel : well_typed f →
  match event_labels get with JList _ | JObj _ | JStr _ => True | _ => False end → rel = JNull ∨ (∃ r, rel = JStr r) →
  ∃ b, check_event_fields f get rel = Ok b ∧ (b = true ↔ selects_fields f get rel).
Proof.
  intros Hf Hl Hr. unfold check_event_fields. fold (event_content get).
  change (obj_get_default "org.matrix.labels" (JList []) (event_content get)) with (event_labels get).
  set (sender := if truthy _ then _ else _). change sender with (event_sender get). clear sender.
  match goal with |- context [_check_fields f ?l] => set (ms := l) end.
  assert (∃ b, _check_fields f ms = Ok b ∧ (b = true ↔
    field_ok f rooms_field (λ v, get "room_id" = Some (JStr v)) ∧ field_ok f senders_field (λ v, event_sender get = JStr v) ∧
    field_ok f types_field (λ v, ∃ a, get "type" = Some (JStr a) ∧ glob v a) ∧
    field_ok f labels_field (λ v, label_in (JStr v) (event_labels get) = Ok true) ∧
    field_ok f rel_types_field (λ v, rel = JStr v) ∧ True)) as (b & -> & Hb).
  { apply check_fields_cons; [done| |apply check_fields_cons; [done| |apply check_fields_cons; [done| |
      apply check_fields_cons; [done| |apply check_fields_cons; [done| |apply check_fields_nil]]]]]; intros v.
    - eexists. split; [done|]. rewrite py_eq_str_r. destruct (get "room_id"); cbn; split; congruence.
    - eexists. split; [done|]. by rewrite py_eq_str_r.
    - apply matches_wildcard_spec.
    - assert (∃ b, label_in (JStr v) (event_labels get) = Ok b) as [b Hb] by (destruct (event_labels get); cbn; eauto; done).
      exists b. split; [done|]. rewrite Hb. split; congruence.
    - eexists. split; [done|]. by rewrite py_eq_str_r. }
  cbn [mbind res_bind]. unfold selects_fields. destruct b.
  - destruct (proj1 Hb eq_refl) as (H1 & H2 & H3 & H4 & H5 & _).
    destruct (wt_contains_url _ Hf) as [-> |[u ->]].
    + exists true. split; [done|]. split; [|done]. intros _. by split_and!.
    + eexists. split; [done|]. fold (has_url (event_content get)). cbn.
        split; [|intros (_ & _ & _ & _ & _ & Hu); rewrite (Hu u eq_refl); by destruct u].
        intros Hu. split_and!; try done. intros b [= <-]. by destruct (has_url (event_content get)), u.
  - exists false. split; [done|]. split; [done|]. intros (H1 & H2 & H3 & H4 & H5 & _). by apply Hb; split_and!.
Qed.

Lemma check_spec f e : well_typed f → labels_ok e → ∃ b, _check f e = Ok b ∧ (b = true ↔ selects f e).
Proof.
  intros Hf Hl. destruct e as [e|s|d]; cbn [_check selects].
  - apply check_event_fields_spec; [done|done|]. cbn. destruct (relation_from_event e); eauto.
  - match goal with |- context [_check_fields f ?l] => set (ms := l) end.
    assert (∃ b, _check_fields f ms = Ok b ∧ (b = true ↔ field_ok f senders_field (λ v, v = PresenceStore.user_id s) ∧
      field_ok f types_field (λ v, v = "m.presence") ∧ True)) as (b & -> & Hb).
    { apply check_fields_cons; [done| |apply check_fields_cons; [done| |apply check_fields_nil]]; intros v;
        (eexists; split; [done|]; rewrite py_eq_str_r; split; congruence). }
    exists b. split; [done|]. rewrite Hb. unfold field_ok. cbn [disallowed_values allowed_values]. tauto.
  - apply check_event_fields_spec; [done|done|]. by left.
Qed.

(** ** Filtering a list *)

Lemma filter_res_spec {A} (m : A → res bool) (P : A → Prop) l :
  (∀ x, x ∈ l → ∃ b, m x = Ok b ∧ (b = true ↔ P x)) →
  ∃ p, filter_res m l = Ok (List.filter p l) ∧ ∀ x, x ∈ l → p x = true ↔ P x.
Proof.
  intros Hm. exists (λ x, match m x with Ok b => b | Raise _ => false end). split.
  - induction l as [|x l IH]; [done|]. cbn [filter_res List.filter]. destruct (Hm x) as (b & -> & _); [left|].
    cbn [mbind res_bind]. rewrite IH; [done|]. intros y Hy. apply Hm. by right.
  - intros x Hx. destruct (Hm x Hx) as (b & -> & Hb). done.
Qed.

Lemma sql_strings_strs l : sql_strings (JStr <$> l) = Ok l.
Proof. induction l as [|s l IH]; [done|]. rewrite fmap_cons. cbn [sql_strings]. by rewrite IH. Qed.

Lemma truthy_strings v : opt_strings v → truthy v = true ↔ string_list v ≠ [].
Proof. intros [->|[l ->]]; [done|]. rewrite string_list_strs. by destruct l. Qed.

Lemma in_clause_spec v column rows : opt_strings v →
  ∃ rows', in_clause v column rows = Ok rows' ∧
  ∀ r, r ∈ rows' ↔ r ∈ rows ∧ (string_list v ≠ [] → column r ∈ string_list v).
Proof.
  intros Hv. unfold in_clause. destruct (truthy v) eqn:Ht.
  - destruct Hv as [->|[l ->]]; [done|]. cbn [py_list mbind res_bind]. rewrite sql_strings_strs. cbn [mbind res_bind].
    eexists. split; [done|]. intros r. rewrite string_list_strs. rewrite list_elem_of_In, filter_In, <-list_elem_of_In, bool_decide_eq_true.
    apply and_iff_compat_l. split; [by intros Hc _|]. intros Hc. apply Hc. by destruct l.
  - eexists. split; [done|]. intros r. split; [|by intros [? _]]. intros Hr. split; [done|].
    intros Hne. apply truthy_strings in Hne; [congruence|done].
Qed.

Lemma events_have_relations_spec db ids f : well_typed f →
  truthy (f_related_by_senders f) || truthy (f_related_by_rel_types f) = true →
  ∃ keep, events_have_relations db ids (f_related_by_senders f) (f_related_by_rel_types f) = Ok keep ∧
  ∀ e i, base_id e = Some i → i ∈ ids → i ∈ keep ↔ related db f e.
Proof.
  intros Hf Ht. unfold events_have_relations. rewrite <-negb_orb, Ht. cbn [negb].
  set (rows := List.filter _ db).
  destruct (in_clause_spec _ relation_sender rows (wt_related_by_senders _ Hf)) as (rows1 & -> & H1). cbn [mbind res_bind].
  destruct (in_clause_spec _ relation_type rows1 (wt_related_by_rel_types _ Hf)) as (rows2 & -> & H2). cbn [mbind res_bind].
  eexists. split; [done|]. intros e i He Hi. unfold related. rewrite He.
  assert (∀ r, r ∈ rows ↔ r ∈ db ∧ relates_to_id r ∈ ids) as H0.
  { intros r. unfold rows. by rewrite list_elem_of_In, filter_In, <-list_elem_of_In, bool_decide_eq_true. }
  rewrite list_elem_of_In, in_map_iff. setoid_rewrite <-list_elem_of_In. split.
  - intros (r & <- & Hr). right. apply H2 in Hr as [[[Hr _]%H0 ?]%H1 ?]. eauto 6.
  - intros [[Hs Hr]|(r & Hr & <- & Hs & Htr)].
    + apply orb_true_iff in Ht as [Ht|Ht]; (apply truthy_strings in Ht; [done|]); apply Hf.
    + exists r. split; [done|]. apply H2. split; [|done]. apply H1. split; [|done]. by apply H0.
Qed.

Lemma list_filter_filter {A} (p q : A → bool) l : List.filter q (List.filter p l) = List.filter (λ x, p x && q x) l.
Proof. induction l as [|x l IH]; cbn; [done|]. destruct (p x); cbn; [|done]. destruct (q x); by rewrite IH. Qed.

(** Exactly the events the filter describes, in order. *)
Lemma filter_events_spec db f events : well_typed f → (∀ e, e ∈ events → labels_ok e) →
  ∃ p, filter_events db f events = Ok (List.filter p events) ∧
  ∀ e, e ∈ events → p e = true ↔ selects f e ∧ related db f e.
Proof.
  intros Hf Hl. unfold filter_events.
  destruct (filter_res_spec (_check f) (selects f) events) as (p & -> & Hp); [intros e He; by apply check_spec, Hl|].
  cbn [mbind res_bind].
  destruct (truthy (f_related_by_senders f) || truthy (f_related_by_rel_types f)) eqn:Ht.
  - unfold _check_event_relations.
    destruct (events_have_relations_spec db (omap base_id (List.filter p events)) f Hf Ht) as (keep & -> & Hk). cbn [mbind res_bind].
    rewrite list_filter_filter. eexists. split; [done|]. intros e He. rewrite andb_true_iff, (Hp e He).
    split; intros [Hs Hr]; (split; [done|]).
    + destruct (base_id e) as [i|] eqn:Ei; [|unfold related; by rewrite Ei]. apply bool_decide_eq_true in Hr. apply (Hk e i Ei); [|done].
      apply list_elem_of_omap. exists e. split; [|done]. apply list_elem_of_In, filter_In. split; [by apply list_elem_of_In|by apply Hp].
    + destruct (base_id e) as [i|] eqn:Ei; [|done]. apply bool_decide_eq_true. apply (Hk e i Ei); [|done].
      apply list_elem_of_omap. exists e. split; [|done]. apply list_elem_of_In, filter_In. split; [by apply list_elem_of_In|by apply Hp].
  - exists p. split; [done|]. intros e He. rewrite (Hp e He). split; [|by intros [? _]]. intros Hs. split; [done|].
    unfold related. destruct (base_id e); [|done]. left. apply orb_false_iff in Ht as [Ht1 Ht2].
    assert (∀ v, opt_strings v → truthy v = false → string_list v = []) as Hn.
    { intros v [->|[[|x l] ->]]; [done|done|by rewrite string_list_strs]. }
    split; apply Hn; try done; apply Hf.
Qed.

(** ** Filters that pass the schema *)

Lemma obj_get_list_filter (q : string → bool) d k :
  obj_get k (List.filter (λ kv, q kv.1) d) = if q k then obj_get k d else None.
Proof.
  induction d as [|[k0 v0] d IH]; cbn; [by destruct (q k)|].
  destruct (q k0) eqn:Hq; cbn; rewrite IH; destruct (String.eqb_spec k k0) as [->|Hne]; try done; by rewrite Hq.
Qed.

(** The keys of lists of strings. *)
Definition list_keys : list string :=
  ["types"; "not_types"; "rooms"; "not_rooms"; "senders"; "not_senders"; "org.matrix.labels"; "org.matrix.not_labels";
   "related_by_senders"; "related_by_rel_types"].

Record typed_json (d : jobj) : Prop := mkTypedJson {
  tj_lists k v : k ∈ list_keys → obj_get k d = Some v → strings v;
  tj_url v : obj_get "contains_url" d = Some v → ∃ b, v = JBool b;
  tj_no_star k l : k = "not_senders" ∨ k = "not_rooms" → obj_get k d = Some (JList l) → JStr "*" ∉ l
}.

Lemma typed_json_nil : typed_json [].
Proof. by split. Qed.

Lemma Filter_init_typed c d : msc3874_enabled c = false → typed_json d →
  ∃ f, Filter_init c (JObj d) = Ok f ∧ well_typed f ∧ f_json f = d.
Proof.
  intros Hc [Hl Hu Hs]. eexists. split; [done|]. split; [|done].
  assert (∀ k, k ∈ list_keys → opt_strings (obj_get_default k JNull d) ∧ strings (obj_get_default k (JList []) d)) as Hk.
  { intros k Hk. unfold obj_get_default. destruct (obj_get k d) as [v|] eqn:Ev; [|split; [by left|by exists []]].
    specialize (Hl k v Hk Ev). by split; [right|]. }
  split.
  - intros name. destruct name; cbn; [apply Hk; unfold list_keys; set_solver..|]. rewrite Hc. by left.
  - intros name. destruct name; cbn; [apply Hk; unfold list_keys; set_solver..|]. rewrite Hc. by exists [].
  - cbn. unfold obj_get_default. destruct (obj_get "not_senders" d) as [v|] eqn:Ev; [|apply not_elem_of_nil].
    destruct v; try apply not_elem_of_nil. eapply Hs; [by left|done].
  - cbn. unfold obj_get_default. destruct (obj_get "not_rooms" d) as [v|] eqn:Ev; [|apply not_elem_of_nil].
    destruct v; try apply not_elem_of_nil. eapply Hs; [by right|done].
  - cbn. unfold obj_get_default. destruct (obj_get "contains_url" d) as [v|] eqn:Ev; [|by left]. right. by apply Hu.
  - cbn. apply Hk. unfold list_keys. set_solver.
  - cbn. apply Hk. unfold list_keys. set_solver.
Qed.

(** A schema has the property. *)
Ltac in_schema := cbn; repeat first [apply list_elem_of_here|apply list_elem_of_further].

Section conforms.
Context `{Netaddr}.

Definition properties (s : schema) : list (string * schema) := match s with SObject ps => ps | _ => [] end.

Lemma conforms_property s d k p w : conforms s (JObj d) = true → (k, p) ∈ properties s → obj_get k d = Some w → conforms p w = true.
Proof.
  intros Hc Hp Hw. destruct s as [| | | |ps]; try by apply elem_of_nil in Hp. cbn in Hc, Hp. induction ps as [|[k' p'] ps IH]; [by apply elem_of_nil in Hp|].
  apply andb_true_iff in Hc as [H1 H2]. apply elem_of_cons in Hp as [[= -> ->]|Hp]; [by rewrite Hw in H1|by apply IH].
Qed.

Lemma conforms_strings s v : (∀ x, conforms s x = true → ∃ t, x = JStr t) → conforms (SArray s) v = true → strings v.
Proof.
  intros Hs. destruct v as [| | | | |l|]; try done. cbn. intros Hl. induction l as [|x l IH]; [by exists []|]. cbn in Hl.
  apply andb_true_iff in Hl as [Hx Hl]. destruct (IH Hl) as [l' [= El]]. destruct (Hs x Hx) as [t Et].
  exists (t :: l'). by rewrite Et, El.
Qed.

Lemma conforms_string x : conforms (SType "string") x = true → ∃ t, x = JStr t.
Proof. destruct x; try done. eauto. Qed.
Lemma conforms_format f x : conforms (SFormat "string" f) x = true → ∃ t, x = JStr t.
Proof. destruct x; try done. eauto. Qed.
Lemma conforms_boolean x : conforms (SType "boolean") x = true → ∃ b, x = JBool b.
Proof. destruct x; try done. eauto. Qed.

Lemma ids_no_star format l : format = "matrix_user_id" ∨ format = "matrix_room_id" →
  conforms (SArray (SFormat "string" format)) (JList l) = true → JStr "*" ∉ l.
Proof.
  intros Hf Hc Hin. cbn in Hc. rewrite forallb_forall in Hc. apply list_elem_of_In in Hin. specialize (Hc _ Hin).
  by destruct Hf as [-> | ->].
Qed.

Lemma room_event_typed d : conforms ROOM_EVENT_FILTER_SCHEMA (JObj d) = true → typed_json d.
Proof.
  intros Hc. split.
  - intros k v Hk Hv. unfold list_keys in Hk. repeat (apply elem_of_cons in Hk as [->|Hk]); [..|by apply elem_of_nil in Hk];
      (eapply conforms_strings; [|eapply (conforms_property _ _ _ _ _ Hc); [|exact Hv]; in_schema]);
      intros x Hx; first [exact (conforms_string x Hx)|exact (conforms_format _ x Hx)].
  - intros v Hv. apply conforms_boolean. eapply (conforms_property _ _ _ _ _ Hc); [|exact Hv]. in_schema.
  - intros k l [-> | ->] Hl.
    + apply (ids_no_star "matrix_user_id"); [by left|]. eapply (conforms_property _ _ _ _ _ Hc); [|exact Hl]. in_schema.
    + apply (ids_no_star "matrix_room_id"); [by right|]. eapply (conforms_property _ _ _ _ _ Hc); [|exact Hl]. in_schema.
Qed.

Lemma default_object s d k t : conforms s (JObj d) = true → (k, t) ∈ properties s → t = SObject (properties t) →
  ∃ e, obj_get_default k (JObj []) d = JObj e ∧ conforms t (JObj e) = true.
Proof.
  intros Hc Hp Ht. unfold obj_get_default. destruct (obj_get k d) as [v|] eqn:Ev.
  - pose proof (conforms_property _ _ _ _ _ Hc Hp Ev) as Hv. rewrite Ht in Hv. destruct v as [| | | | | |e]; try done.
    exists e. by rewrite Ht.
  - exists []. split; [done|]. rewrite Ht. cbn. generalize (properties t). clear.
    induction l as [|[k p] qs IH]; [done|exact IH].
Qed.

Lemma default_conforms s d k p v0 : conforms s (JObj d) = true → (k, p) ∈ properties s → conforms p v0 = true →
  conforms p (obj_get_default k v0 d) = true.
Proof.
  intros Hc Hp Hv. unfold obj_get_default. destruct (obj_get k d) as [v|] eqn:Ev; [|done].
  exact (conforms_property _ _ _ _ _ Hc Hp Ev).
Qed.

Lemma room_typed d : conforms ROOM_FILTER_SCHEMA (JObj d) = true →
  typed_json (List.filter (λ kv, existsb (String.eqb kv.1) ["rooms"; "not_rooms"]) d).
Proof.
  intros Hc.
  assert (∀ k v, obj_get k (List.filter (λ kv, existsb (String.eqb kv.1) ["rooms"; "not_rooms"]) d) = Some v →
    (k = "rooms" ∨ k = "not_rooms") ∧ conforms ROOM_ID_ARRAY_SCHEMA v = true) as Hk.
  { intros k v. rewrite (obj_get_list_filter (λ k, existsb (String.eqb k) ["rooms"; "not_rooms"])). destruct (existsb _ _) eqn:Ek; [|done].
    intros Hv. assert (k = "rooms" ∨ k = "not_rooms") as Hor.
    { cbn in Ek. rewrite orb_false_r, orb_true_iff, !String.eqb_eq in Ek. done. }
    split; [done|]. eapply (conforms_property _ _ _ _ _ Hc); [|exact Hv]. destruct Hor as [-> | ->]; in_schema. }
  split.
  - intros k v _ Hv. apply Hk in Hv as [_ Hv]. eapply conforms_strings; [|exact Hv]. apply conforms_format.
  - intros v Hv. apply Hk in Hv as [[?|?] _]; done.
  - intros k l _ Hl. apply Hk in Hl as [_ Hl]. apply (ids_no_star "matrix_room_id"); [by right|exact Hl].
Qed.

(** What the sync handler reads of a filter has the type it expects. *)
Definition number (v : json) : Prop := has_type "number" v = true.
Definition boolean (v : json) : Prop := ∃ b, v = JBool b.

Record valid_collection (fc : FilterCollection) : Prop := mkValidCollection {
  vc_filters f : f ∈ [_room_filter fc; _room_timeline_filter fc; _room_state_filter fc; _room_ephemeral_filter fc;
                      _room_account_data_filter fc] → well_typed f;
  vc_others f : f ∈ [_presence_filter fc; _global_account_data_filter fc] →
    strings (f_not_types f) ∧ strings (f_not_senders f);
  vc_room : f_related_by_senders (_room_filter fc) = JNull ∧ f_related_by_rel_types (_room_filter fc) = JNull;
  vc_limits : number (timeline_limit fc) ∧ number (ephemeral_limit fc) ∧ number (presence_limit fc);
  vc_members : boolean (lazy_load_members fc) ∧ boolean (include_redundant_members fc) ∧ boolean (unread_thread_notifications fc);
  vc_include_leave : boolean (include_leave fc);
  vc_event_fields : strings (fc_event_fields fc);
  vc_event_format : fc_event_format fc = JStr "client" ∨ fc_event_format fc = JStr "federation"
}.

Lemma filter_attributes c d f : conforms ROOM_EVENT_FILTER_SCHEMA (JObj d) = true → Filter_init c (JObj d) = Ok f →
  number (f_limit f) ∧ boolean (f_lazy_load_members f) ∧ boolean (f_include_redundant_members f) ∧ boolean (f_unread_thread_notifications f).
Proof.
  intros Hc [= <-]. cbn. split_and!.
  - apply (default_conforms _ _ _ (SType "number") _ Hc); [in_schema|done].
  - apply conforms_boolean, (default_conforms _ _ _ _ _ Hc); [in_schema|done].
  - apply conforms_boolean, (default_conforms _ _ _ _ _ Hc); [in_schema|done].
  - destruct (negb _ && _); apply conforms_boolean, (default_conforms _ _ _ _ _ Hc); try done; in_schema.
Qed.

Lemma collection_valid c j : msc3874_enabled c = false → conforms USER_FILTER_SCHEMA j = true →
  ∃ fc, FilterCollection_init c j = Ok fc ∧ valid_collection fc.
Proof.
  intros Hm Hc. destruct j as [| | | | | |d]; [discriminate Hc..|]. unfold FilterCollection_init.
  destruct (default_object _ d "room" ROOM_FILTER_SCHEMA Hc ltac:(in_schema) eq_refl) as (r & -> & Hr). cbn [py_items mbind res_bind].
  destruct (Filter_init_typed c _ Hm (room_typed r Hr)) as (room & Eroom & Hroom & _). rewrite Eroom. cbn [mbind res_bind].
  destruct (default_object _ r "timeline" ROOM_EVENT_FILTER_SCHEMA Hr ltac:(in_schema) eq_refl) as (d1 & -> & H1).
  destruct (default_object _ r "state" ROOM_EVENT_FILTER_SCHEMA Hr ltac:(in_schema) eq_refl) as (d2 & -> & H2).
  destruct (default_object _ r "ephemeral" ROOM_EVENT_FILTER_SCHEMA Hr ltac:(in_schema) eq_refl) as (d3 & -> & H3).
  destruct (default_object _ r "account_data" ROOM_EVENT_FILTER_SCHEMA Hr ltac:(in_schema) eq_refl) as (d4 & -> & H4).
  destruct (default_object _ d "presence" FILTER_SCHEMA Hc ltac:(in_schema) eq_refl) as (d5 & -> & H5).
  destruct (default_object _ d "account_data" FILTER_SCHEMA Hc ltac:(in_schema) eq_refl) as (d6 & -> & H6).
  destruct (Filter_init_typed c d1 Hm (room_event_typed d1 H1)) as (f1 & E1 & T1 & _). rewrite E1. cbn [mbind res_bind].
  destruct (Filter_init_typed c d2 Hm (room_event_typed d2 H2)) as (f2 & E2 & T2 & _). rewrite E2. cbn [mbind res_bind].
  destruct (Filter_init_typed c d3 Hm (room_event_typed d3 H3)) as (f3 & E3 & T3 & _). rewrite E3. cbn [mbind res_bind].
  destruct (Filter_init_typed c d4 Hm (room_event_typed d4 H4)) as (f4 & E4 & T4 & _). rewrite E4. cbn [mbind res_bind].
  eexists. split; [done|].
  destruct (filter_attributes c d1 f1 H1 E1) as (L1 & _ & _ & U1). destruct (filter_attributes c d2 f2 H2 E2) as (_ & M2 & N2 & _).
  destruct (filter_attributes c d3 f3 H3 E3) as (L3 & _).
  split; cbn.
  - intros f Hf. repeat (apply elem_of_cons in Hf as [->|Hf]; [done|]). by apply elem_of_nil in Hf.
  - assert (∀ d', conforms FILTER_SCHEMA (JObj d') = true →
      strings (obj_get_default "not_types" (JList []) d') ∧ strings (obj_get_default "not_senders" (JList []) d')) as Hs.
    { intros d' Hd. split.
      - eapply conforms_strings; [apply conforms_string|]. apply (default_conforms _ _ _ _ _ Hd); [in_schema|done].
      - eapply conforms_strings; [apply conforms_format|]. apply (default_conforms _ _ _ _ _ Hd); [in_schema|done]. }
    intros f Hf. repeat (apply elem_of_cons in Hf as [->|Hf]; [by apply Hs|]). by apply elem_of_nil in Hf.
  - injection Eroom as <-. cbn. unfold obj_get_default.
    by rewrite !(obj_get_list_filter (λ k, existsb (String.eqb k) ["rooms"; "not_rooms"])).
  - split_and!; [done|done|]. apply (default_conforms _ _ _ (SType "number") _ H5); [in_schema|done].
  - done.
  - apply conforms_boolean, (default_conforms _ _ _ _ _ Hr); [in_schema|done].
  - eapply conforms_strings; [apply conforms_string|]. apply (default_conforms _ _ _ _ _ Hc); [in_schema|done].
  - assert (conforms (SEnum "string" ["client"; "federation"]) (obj_get_default "event_format" (JStr "client") d) = true) as He.
    { apply (default_conforms _ _ _ _ _ Hc); [in_schema|done]. }
    cbn [conforms] in He. apply andb_true_iff in He as [_ He]. cbn [existsb] in He.
    rewrite orb_false_r, orb_true_iff, !py_eq_str_r in He. done.
Qed.
End conforms.

(** ** The theorems *)

Definition chosen (db : list relation_row) (room f : Filter) (events out : list FilterEvent) : Prop :=
  ∃ p, out = List.filter p events ∧ ∀ e, e ∈ events → p e = true ↔ selects room e ∧ selects f e ∧ related db f e.

Lemma filter_in_rooms_spec db fc f events : valid_collection fc → well_typed f → (∀ e, e ∈ events → labels_ok e) →
  ∃ out, filter_in_rooms db fc f events = Ok out ∧ chosen db (_room_filter fc) f events out.
Proof.
  intros Hfc Hf Hl. unfold filter_in_rooms.
  destruct (filter_events_spec db (_room_filter fc) events) as (p & -> & Hp); [apply (vc_filters _ Hfc); left|done|]. cbn [mbind res_bind].
  assert (∀ e, e ∈ List.filter p events ↔ e ∈ events ∧ p e = true) as Hin by (intros e; by rewrite !list_elem_of_In, filter_In).
  destruct (filter_events_spec db f (List.filter p events)) as (q & -> & Hq); [done|intros e He; apply Hl; by apply Hin|].
  eexists. split; [done|]. exists (λ e, p e && q e). rewrite list_filter_filter. split; [done|]. intros e He.
  rewrite andb_true_iff. rewrite (Hp e He). destruct (vc_room _ Hfc) as [R1 R2].
  assert (related db (_room_filter fc) e) as Hrel by (unfold related; rewrite R1, R2; destruct (base_id e); [by left|done]).
  split.
  - intros [[Hs _] Hqe]. split; [done|]. apply Hq; [|done]. apply Hin. split; [done|]. by apply Hp.
  - intros [Hs Hx]. split; [done|]. apply Hq; [|done]. apply Hin. split; [done|]. by apply Hp.
Qed.

Lemma filters_all_ok allowed disallowed : strings disallowed → ∃ b, filters_all allowed disallowed = Ok b ∧
  (b = true → is_empty_list allowed = true ∨ "*" ∈ string_list disallowed).
Proof.
  intros [l ->]. unfold filters_all. destruct (is_empty_list allowed) eqn:Ea; [exists true; split; [done|by left]|].
  cbn [py_in]. eexists. split; [done|]. intros Hb. right. rewrite string_list_strs. apply existsb_exists in Hb as (x & Hx & He).
  apply list_elem_of_In in Hx. apply list_elem_of_fmap in Hx as (s & -> & Hs). cbn [py_eq_scalar] in He. apply String.eqb_eq in He. by subst s.
Qed.

(** A filter that allows no value of a field selects nothing. *)
Lemma field_blocked f name P : is_empty_list (allowed_values name f) = true → ¬ field_ok f name P.
Proof.
  intros He [_ Hy]. destruct (allowed_values name f) as [| | | | |[|x l]|]; try done.
  destruct Hy as (v & Hv & _); [done|]. by apply elem_of_nil in Hv.
Qed.

Lemma no_star_string v : strings v → JStr "*" ∉ match v with JList l => l | _ => [] end → "*" ∉ string_list v.
Proof. intros [l ->] Hn Hin. apply Hn. rewrite string_list_strs in Hin. apply list_elem_of_fmap. eauto. Qed.

Definition has_type_field (e : FilterEvent) : Prop := ∃ a, fields_of e "type" = Some (JStr a).

Lemma blocks_all_in_room_sound f : well_typed f → ∃ b, blocks_all_in_room f = Ok b ∧
  (b = true → ∀ e, has_type_field e → ¬ selects f e).
Proof.
  intros Hf. unfold blocks_all_in_room.
  destruct (filters_all_ok (f_types f) (f_not_types f) (wt_disallowed _ Hf types_field)) as (b1 & E1 & H1).
  destruct (filters_all_ok (f_senders f) (f_not_senders f) (wt_disallowed _ Hf senders_field)) as (b2 & E2 & H2).
  destruct (filters_all_ok (f_rooms f) (f_not_rooms f) (wt_disallowed _ Hf rooms_field)) as (b3 & E3 & H3).
  unfold filters_all_types, filters_all_senders, filters_all_rooms. rewrite E1, E2, E3. unfold res_or. cbn [mbind res_bind].
  assert ((if b1 then Ok true else if b2 then Ok true else Ok b3) = Ok (b1 || b2 || b3)) as -> by (by destruct b1, b2).
  eexists. split; [done|]. intros Hb e [a Ha] Hs.
  assert (selects_fields f (fields_of e) (relation_of e)) as (S1 & S2 & S3 & _) by (by destruct e).
  apply orb_true_iff in Hb as [Hb| ->]; [apply orb_true_iff in Hb as [-> | ->]|].
  - destruct (H1 eq_refl) as [He|Hin]; [by eapply (field_blocked f types_field); [|exact S3]|].
    destruct S3 as [Hno _]. apply (Hno "*" Hin). exists a. split; [done|]. right. by exists "", a.
  - destruct (H2 eq_refl) as [He|Hin]; [by eapply (field_blocked f senders_field); [|exact S2]|].
    by apply (no_star_string _ (wt_disallowed _ Hf senders_field) (wt_no_star _ Hf)).
  - destruct (H3 eq_refl) as [He|Hin]; [by eapply (field_blocked f rooms_field); [|exact S1]|].
    by apply (no_star_string _ (wt_disallowed _ Hf rooms_field) (wt_no_star_room _ Hf)).
Qed.

Lemma blocks_all_rooms_sound f : well_typed f → ∃ b, filters_all_rooms f = Ok b ∧
  (b = true → ∀ e, has_type_field e → ¬ selects f e).
Proof.
  intros Hf. destruct (filters_all_ok (f_rooms f) (f_not_rooms f) (wt_disallowed _ Hf rooms_field)) as (b3 & E3 & H3).
  exists b3. split; [done|]. intros -> e [a Ha] Hs.
  assert (selects_fields f (fields_of e) (relation_of e)) as (S1 & _) by (by destruct e).
  destruct (H3 eq_refl) as [He|Hin]; [by eapply (field_blocked f rooms_field); [|exact S1]|].
  by apply (no_star_string _ (wt_disallowed _ Hf rooms_field) (wt_no_star_room _ Hf)).
Qed.

Lemma chosen_none db room f events out : chosen db room f events out →
  (∀ e, e ∈ events → ¬ (selects room e ∧ selects f e)) → out = [].
Proof.
  intros (p & -> & Hp) Hno. induction events as [|e events IH]; [done|]. cbn.
  assert (p e = false) as ->.
  { apply not_true_is_false. rewrite (Hp e) by left. intros (? & ? & _). apply (Hno e); [left|done]. }
  apply IH; [intros x Hx; apply Hp; by right|intros x Hx; apply Hno; by right].
Qed.

Section theorems.
Context `{Netaddr} `{!JsonSchema} (c : FilterConfig) (db : list relation_row).

Lemma checked_collection j : msc3874_enabled c = false → check_valid_filter j = Ok tt →
  ∃ fc, FilterCollection_init c j = Ok fc ∧ valid_collection fc.
Proof.
  intros Hm Hc. apply collection_valid; [done|]. apply validate_spec. unfold check_valid_filter in Hc.
  by destruct (validate j USER_FILTER_SCHEMA).
Qed.

(** C37: With the experimental MSC3874 off, check_valid_filter accepts exactly what the
    schema does, with a 400 error when it refuses. From a filter it accepts the
    FilterCollection is built; the limits are numbers (perhaps floats), the flags of the
    state and timeline filters booleans, event_fields strings, event_format one of its two
    names; the lists of the five filters for rooms (of rooms, timeline, state, ephemeral and
    account data) are lists of strings, and so are not_types and not_senders of the filters
    for presence and global account data; none of the six blocks_all checks fails. The other
    fields of the last two filters are not checked. *)
Theorem valid_filter_typed j : msc3874_enabled c = false →
  match check_valid_filter j with
  | Ok _ => conforms USER_FILTER_SCHEMA j = true ∧
      ∃ fc, FilterCollection_init c j = Ok fc ∧ valid_collection fc ∧
      ∀ blocks, blocks ∈ [blocks_all_rooms; blocks_all_presence; blocks_all_global_account_data;
                          blocks_all_room_timeline; blocks_all_room_ephemeral; blocks_all_room_account_data] →
        ∃ b, blocks fc = Ok b
  | Raise e => conforms USER_FILTER_SCHEMA j = false ∧ ∃ msg, e = SynapseError 400 msg Codes.UNKNOWN
  end.
Proof.
  intros Hm. destruct (check_valid_filter j) as [[]|e] eqn:Hc.
  - split.
    { apply validate_spec. unfold check_valid_filter in Hc. by destruct (validate j USER_FILTER_SCHEMA). }
    destruct (checked_collection j Hm Hc) as (fc & Hfc & Hv). exists fc. split_and!; [done|done|]. intros blocks Hb.
    assert (∀ f, f ∈ [_room_filter fc; _room_timeline_filter fc; _room_state_filter fc; _room_ephemeral_filter fc;
      _room_account_data_filter fc] → (∃ b, blocks_all_in_room f = Ok b) ∧ ∃ b, filters_all_rooms f = Ok b) as Hok.
    { intros f Hf%(vc_filters _ Hv). destruct (blocks_all_in_room_sound f Hf) as (b1 & ? & _).
      destruct (blocks_all_rooms_sound f Hf) as (b2 & ? & _). eauto. }
    assert (∀ f, f ∈ [_presence_filter fc; _global_account_data_filter fc] →
      ∃ b, res_or (filters_all_types f) (filters_all_senders f) = Ok b) as Hok'.
    { intros f [Ht Hs]%(vc_others _ Hv). unfold filters_all_types, filters_all_senders.
      destruct (filters_all_ok (f_types f) _ Ht) as ([] & -> & _); [by exists true|].
      destruct (filters_all_ok (f_senders f) _ Hs) as (b & -> & _). by exists b. }
    repeat (apply elem_of_cons in Hb as [->|Hb]); [..|by apply elem_of_nil in Hb];
      first [apply Hok; in_schema|apply Hok'; in_schema].
  - unfold check_valid_filter in Hc. destruct (validate j USER_FILTER_SCHEMA) as [msg|] eqn:Ev; [|done]. injection Hc as <-.
    split; [|eauto]. apply not_true_is_false. rewrite <-validate_spec. congruence.
Qed.

(** C38: With the experimental MSC3874 off and an accepted filter the four room filters
    never fail on events whose labels, if any, can be searched (are a list, an object or a
    string), and return, in order, exactly the events that match both the filter of rooms
    and that of the kind: no excluded value of a field matches and, where a list of included
    values is given, one of them does (an empty list selects nothing), a trailing star of a
    type stands for any ending, the content has a url or not as asked, and some event of the
    asked senders and types relates to it. *)
Theorem valid_filter_selects j fc : msc3874_enabled c = false → check_valid_filter j = Ok tt → FilterCollection_init c j = Ok fc →
  (∀ events, (∀ e, e ∈ events → labels_ok (FEvent e)) →
     (∃ out, filter_room_timeline db fc events = Ok out ∧ chosen db (_room_filter fc) (_room_timeline_filter fc) (FEvent <$> events) out) ∧
     (∃ out, filter_room_state db fc events = Ok out ∧ chosen db (_room_filter fc) (_room_state_filter fc) (FEvent <$> events) out)) ∧
  (∀ events, (∀ d, d ∈ events → labels_ok (FDict d)) →
     (∃ out, filter_room_ephemeral db fc events = Ok out ∧ chosen db (_room_filter fc) (_room_ephemeral_filter fc) (FDict <$> events) out) ∧
     (∃ out, filter_room_account_data db fc events = Ok out ∧
        chosen db (_room_filter fc) (_room_account_data_filter fc) (FDict <$> events) out)).
Proof.
  intros Hm Hc Hfc. destruct (checked_collection j Hm Hc) as (fc' & Hfc' & Hv). assert (fc' = fc) as -> by congruence.
  split; intros events Hl; split; apply filter_in_rooms_spec; try done;
    first [apply (vc_filters _ Hv); in_schema|intros e He; apply list_elem_of_fmap in He as (x & -> & Hx); by apply Hl].
Qed.

(** C39: With the experimental MSC3874 off, when blocks_all_rooms or the blocks_all check of
    a kind of room event answers yes for an accepted filter, so that sync does not even
    fetch these events, filtering them would have left none: for events whose labels, if
    any, can be searched (are a list, an object or a string) and, of ephemeral events and
    account data, that have a type that is a string (not_types with a star does not exclude
    one without). *)
Theorem blocked_means_none j fc : msc3874_enabled c = false → check_valid_filter j = Ok tt → FilterCollection_init c j = Ok fc →
  (∀ events, (∀ e, e ∈ events → labels_ok (FEvent e)) →
     (blocks_all_rooms fc = Ok true ∨ blocks_all_room_timeline fc = Ok true → filter_room_timeline db fc events = Ok []) ∧
     (blocks_all_rooms fc = Ok true → filter_room_state db fc events = Ok [])) ∧
  (∀ events, (∀ d, d ∈ events → labels_ok (FDict d) ∧ has_type_field (FDict d)) →
     (blocks_all_rooms fc = Ok true ∨ blocks_all_room_ephemeral fc = Ok true → filter_room_ephemeral db fc events = Ok []) ∧
     (blocks_all_rooms fc = Ok true ∨ blocks_all_room_account_data fc = Ok true → filter_room_account_data db fc events = Ok [])).
Proof.
  intros Hm Hc Hfc. destruct (checked_collection j Hm Hc) as (fc' & Hfc' & Hv). assert (fc' = fc) as -> by congruence. clear Hfc'.
  assert (∀ f events, well_typed f → (∀ e, e ∈ events → labels_ok e ∧ has_type_field e) →
    blocks_all_rooms fc = Ok true ∨ blocks_all_in_room f = Ok true → filter_in_rooms db fc f events = Ok []) as Hnone.
  { intros f events Hf Hl Hb. destruct (filter_in_rooms_spec db fc f events) as (out & -> & Hout); [done|done|apply Hl|].
    f_equal. apply (chosen_none _ _ _ _ _ Hout). intros e He [S1 S2]. destruct (Hl e He) as [_ Ht]. destruct Hb as [Hb|Hb].
    - destruct (blocks_all_rooms_sound (_room_filter fc)) as (b & Eb & Hbs); [apply (vc_filters _ Hv); in_schema|].
      unfold blocks_all_rooms in Hb. apply (Hbs ltac:(congruence) e Ht S1).
    - destruct (blocks_all_in_room_sound f Hf) as (b & Eb & Hbs). apply (Hbs ltac:(congruence) e Ht S2). }
  assert (∀ e, has_type_field (FEvent e)) as Hty by (intros e; by exists (ev_type e)).
  split; intros events Hl; split; intros Hb; apply Hnone; try (apply (vc_filters _ Hv); in_schema); auto;
    intros e He; apply list_elem_of_fmap in He as (x & -> & Hx); auto.
Qed.

(** The filter of rooms agrees with that of events. *)
Lemma filter_rooms_spec f room_ids : well_typed f →
  ∃ out, filter_rooms f room_ids = Ok out ∧ ∀ r, r ∈ out ↔ r ∈ room_ids ∧ field_ok f rooms_field (λ v, v = r).
Proof.
  intros Hf. unfold filter_rooms, str_set, field_ok, lists_ok. destruct (wt_disallowed _ Hf rooms_field) as [dis Hd].
  cbn [disallowed_values allowed_values] in *. rewrite Hd. cbn [py_list mbind res_bind].
  assert (∀ l : list string, forallb is_hashable (JStr <$> l) = true) as Hh.
  { intros l. apply forallb_forall. intros x Hx%list_elem_of_In. by apply list_elem_of_fmap in Hx as (s & -> & _). }
  assert (∀ l r, existsb (py_eq (JStr r)) (JStr <$> l) = true ↔ r ∈ l) as He.
  { intros l r. rewrite existsb_exists. setoid_rewrite py_eq_str_l. split.
    - intros (x & Hx%list_elem_of_In & ->). apply list_elem_of_fmap in Hx as (s & [= ->] & Hs). done.
    - intros Hr. exists (JStr r). split; [|done]. apply list_elem_of_In, list_elem_of_fmap. eauto. }
  rewrite Hh. cbn [mbind res_bind]. rewrite string_list_strs.
  assert (∀ r, existsb (py_eq (JStr r)) (JStr <$> dis) = false ↔ ∀ v, v ∈ dis → v ≠ r) as Hf'.
  { intros r. rewrite <-not_true_iff_false, He. split; [by intros Hn v Hv ->|]. intros Hn Hr. by apply (Hn r). }
  destruct (wt_allowed _ Hf rooms_field) as [Ea|[l Ea]]; cbn in Ea; rewrite Ea.
  - eexists. split; [done|]. intros r. rewrite elem_of_filter, Hf'. tauto.
  - cbn [py_list mbind res_bind]. rewrite Hh, string_list_strs. eexists. split; [done|]. intros r.
    rewrite !elem_of_filter, Hf', He. split; [intros (? & ? & ?)|intros (? & ? & Hy)].
    + split; [done|]. split; [done|]. eauto.
    + destruct Hy as (v & ? & ->); [done|]. done.
Qed.
End theorems.

(** ** The table of filters *)

Definition row_key (r : user_filter_row) : string * Z := (full_user_id r, uf_id r).

Lemma max_filter_id_le l x : x ∈ l → ∃ m, max_filter_id l = Some m ∧ x ≤ m.
Proof.
  destruct l as [|y l]; [by intros ?%elem_of_nil|]. intros Hx. exists (foldr Z.max y l). split; [done|].
  assert (y ≤ foldr Z.max y l ∧ ∀ z, z ∈ l → z ≤ foldr Z.max y l) as [Hy Hl].
  { clear Hx x. induction l as [|z l [IH1 IH2]]; cbn; [split; [lia|by intros ? ?%elem_of_nil]|].
    split; [lia|]. intros w [->|Hw]%elem_of_cons; [lia|]. specialize (IH2 w Hw). lia. }
  apply elem_of_cons in Hx as [->|Hx]; [done|by apply Hl].
Qed.

Section store.
Context `{FilterJson} (user : DomainSpecificString) (def_json : string).
Let name := to_string UserID_SIGIL user.

(** The row a transaction that commits leaves for the filter. *)
Lemma txn_row seen rows id row rows' : _do_txn user def_json seen = (id, row) → (∀ r, r ∈ seen → r ∈ rows) →
  NoDup (row_key <$> rows) → commit_row row rows = Some rows' →
  rows `prefix_of` rows' ∧ NoDup (row_key <$> rows') ∧ ∃ r, r ∈ rows' ∧ full_user_id r = name ∧ uf_id r = id ∧ uf_json r = def_json.
Proof.
  unfold _do_txn. fold name. intros Ht Hsub Hnd Hc.
  destruct (List.find _ seen) as [r|] eqn:Ef; injection Ht as <- <-.
  - apply find_some in Ef as [Hin [Hu Hj]%andb_true_iff]. injection Hc as <-. split; [done|]. split; [done|].
    exists r. apply String.eqb_eq in Hu, Hj. split_and!; [|done..]. by apply Hsub, list_elem_of_In.
  - cbn in Hc. destruct (existsb _ rows) eqn:Ee; [done|]. injection Hc as <-. split; [by eexists|]. split.
    + rewrite fmap_app. apply NoDup_app. split; [done|]. split; [|apply NoDup_singleton].
      intros k Hk ->%list_elem_of_singleton. apply list_elem_of_fmap in Hk as (r & Ek & Hr).
      apply not_true_iff_false in Ee. apply Ee, existsb_exists. exists r. split; [by apply list_elem_of_In|].
      unfold row_key in Ek. cbn in Ek. injection Ek as E1 E2. cbn. apply andb_true_iff. split; [by apply String.eqb_eq|by apply Z.eqb_eq].
    + eexists. split; [apply elem_of_app; right; by apply list_elem_of_singleton|done].
Qed.

Lemma txn_conflict seen rows id row : _do_txn user def_json seen = (id, row) → commit_row row rows = None →
  ∃ r, r ∈ rows ∧ (r ∉ seen) ∧ full_user_id r = name.
Proof.
  unfold _do_txn. fold name. intros Ht Hc. destruct (List.find _ seen) as [r|] eqn:Ef; injection Ht as <- <-; [done|].
  cbn in Hc. destruct (existsb _ rows) eqn:Ee; [|done]. apply existsb_exists in Ee as (r & Hr & [Hu Hi]%andb_true_iff).
  apply String.eqb_eq in Hu. apply Z.eqb_eq in Hi. exists r. split_and!; [by apply list_elem_of_In| |done]. intros Hs.
  destruct (max_filter_id_le (map uf_id (List.filter (λ r, String.eqb (full_user_id r) name) seen)) (uf_id r)) as (m & Em & Hle).
  { apply list_elem_of_In, in_map, filter_In. split; [by apply list_elem_of_In|]. by apply String.eqb_eq. }
  rewrite Em in Hi. lia.
Qed.

Lemma attempts_spec tries tables : (∀ i r, r ∈ (tables i).1 → r ∈ (tables i).2) → (∀ i, NoDup (row_key <$> (tables i).2)) →
  match add_attempts user def_json tries tables with
  | Ok (id, rows) => ∃ i, (i < tries)%nat ∧ (tables i).2 `prefix_of` rows ∧ NoDup (row_key <$> rows) ∧
      ∃ r, r ∈ rows ∧ full_user_id r = name ∧ uf_id r = id ∧ uf_json r = def_json
  | Raise e => e = SynapseError 500 "Couldn't generate a filter ID." Codes.UNKNOWN ∧
      ∀ i, (i < tries)%nat → ∃ r, r ∈ (tables i).2 ∧ (r ∉ (tables i).1) ∧ full_user_id r = name
  end.
Proof.
  revert tables. induction tries as [|tries IH]; intros tables Hsub Hnd; cbn; [split; [done|lia]|].
  destruct (_do_txn user def_json (tables 0%nat).1) as [id row] eqn:Et.
  destruct (commit_row row (tables 0%nat).2) as [rows|] eqn:Ec.
  - exists 0%nat. split; [lia|]. apply (txn_row (tables 0%nat).1 _ id row); auto.
  - specialize (IH (λ i, tables (S i)) (λ i, Hsub (S i)) (λ i, Hnd (S i))). cbn in IH.
    destruct (add_attempts user def_json tries (λ i, tables (S i))) as [[id' rows]|e].
    + destruct IH as (i & Hi & ?). exists (S i). split; [lia|done].
    + destruct IH as [-> IH]. split; [done|]. intros [|i] Hi; [by eapply txn_conflict|apply IH; lia].
Qed.
End store.

Lemma find_row rows r : NoDup (row_key <$> rows) → r ∈ rows →
  List.find (λ r', String.eqb (full_user_id r') (full_user_id r) && (uf_id r' =? uf_id r)) rows = Some r.
Proof.
  intros Hnd Hr. destruct (List.find _ rows) as [r'|] eqn:Ef.
  - apply find_some in Ef as [Hin [Hu Hi]%andb_true_iff]. apply String.eqb_eq in Hu. apply Z.eqb_eq in Hi.
    apply list_elem_of_In in Hin. apply list_elem_of_lookup in Hr as [i Hi1], Hin as [k Hk1]. f_equal.
    assert (i = k) as ->; [|congruence]. apply (NoDup_lookup _ _ _ (row_key r) Hnd); rewrite list_lookup_fmap.
    + by rewrite Hi1.
    + rewrite Hk1. cbn. unfold row_key. congruence.
  - pose proof (find_none _ _ Ef r) as Hn. cbn in Hn. rewrite String.eqb_refl, Z.eqb_refl in Hn.
    by specialize (Hn ltac:(by apply list_elem_of_In)).
Qed.

(** Whatever other filters are stored at the same time, a filter that is added
    is found under the id that is returned, no row is lost or shadowed, and
    adding it again adds nothing; adding fails only when in each of the five
    attempts another filter of the user was stored meanwhile. *)
Theorem user_filter_roundtrip `{FilterJson} user user_filter def_json tables : encode_canonical_json user_filter = Ok def_json →
  (∀ i r, r ∈ (tables i).1 → r ∈ (tables i).2) → (∀ i, NoDup (row_key <$> (tables i).2)) →
  match store_add_user_filter user user_filter tables with
  | Ok (id, rows) =>
      (∃ i, (i < 5)%nat ∧ (tables i).2 `prefix_of` rows) ∧ NoDup (row_key <$> rows) ∧
      (∃ j, store_get_user_filter user (inl id) rows = Ok j ∧ py_eq user_filter j = true) ∧
      (∃ id', store_add_user_filter user user_filter (λ _, (rows, rows)) = Ok (id', rows))
  | Raise e => e = SynapseError 500 "Couldn't generate a filter ID." Codes.UNKNOWN ∧
      ∀ i, (i < 5)%nat → ∃ r, r ∈ (tables i).2 ∧ (r ∉ (tables i).1) ∧ full_user_id r = to_string UserID_SIGIL user
  end.
Proof.
  intros He Hsub Hnd. unfold store_add_user_filter. rewrite He. cbn [mbind res_bind].
  pose proof (attempts_spec user def_json 5 tables Hsub Hnd) as Ha.
  destruct (add_attempts user def_json 5 tables) as [[id rows]|e]; [|done].
  destruct Ha as (i & Hi & Hp & Hnd' & r & Hr & Hu & Hid & Hj). split_and!; [eauto|done|..].
  - unfold store_get_user_filter. cbn [mbind res_bind]. rewrite <-Hu, <-Hid, (find_row rows r Hnd' Hr), Hj. by apply decode_encode.
  - cbn. unfold _do_txn. destruct (List.find _ rows) as [r'|] eqn:Ef; [by eexists|].
    pose proof (find_none _ _ Ef r) as Hn. cbn in Hn. rewrite Hu, Hj, !String.eqb_refl in Hn.
    by specialize (Hn ltac:(by apply list_elem_of_In)).
Qed.

(** ** At concrete filters *)

Module samples.
Instance no_ipv6 : Netaddr := λ _, false.
#[refine] Instance conforming : JsonSchema := {| validate v s := if conforms s v then None else Some "does not conform" |}.
Proof. intros v s. by destruct (conforms s v). Defined.
(** It writes the empty filter only. *)
#[refine] Instance empty_json : FilterJson := {|
  encode_canonical_json j := match j with JObj [] => Ok "{}" | _ => Raise ValueError end;
  db_to_json s := if String.eqb s "{}" then Ok (JObj []) else Raise ValueError |}.
Proof. intros j w. destruct j as [| | | | | |[|]]; try done. intros [= <-]. by exists (JObj []). Defined.

Definition stable : FilterConfig := mkFilterConfig false false.
Definition obj1 (k : string) (v : json) : json := JObj [(k, v)].

(** What one user sends of the types of rooms, but no redactions. *)
Definition messages : json := obj1 "room" (obj1 "timeline"
  (JObj [("types", JList [JStr "m.room.*"]); ("not_types", JList [JStr "m.room.redaction"]); ("senders", JList [JStr "@u:a"])])).
(** No rooms at all. *)
Definition no_rooms : json := obj1 "room" (obj1 "rooms" (JList [])).

Definition collection (j : json) : FilterCollection :=
  match FilterCollection_init stable j with
  | Ok fc => fc
  | Raise _ =>
      let f := mkFilter [] JNull JNull JNull JNull JNull JNull JNull JNull JNull JNull JNull JNull JNull JNull JNull JNull JNull in
      mkCollection [] f f f f f f f JNull JNull JNull
  end.

Definition message (typ user : string) (content : jobj) : EventBase :=
  mkEvent "$e" typ user (Some "!r:a") None content 1 0 [] [] ∅ None RoomVersions.RoomVersions.V10 None JNull.

Lemma valid_filter_typed_witness : ∃ fc, FilterCollection_init stable messages = Ok fc ∧ valid_collection fc.
Proof.
  pose proof (valid_filter_typed stable messages eq_refl) as Hv. change (check_valid_filter messages) with (Ok tt) in Hv.
  destruct Hv as (_ & fc & ? & ? & _). eauto.
Defined.

Lemma valid_filter_selects_witness : ∃ out,
  filter_room_timeline [] (collection messages) [message "m.room.topic" "@u:a" []; message "m.room.redaction" "@u:a" []] = Ok out.
Proof.
  destruct (valid_filter_selects stable [] messages (collection messages) eq_refl ltac:(by vm_compute) ltac:(by vm_compute)) as [He _].
  destruct (He [message "m.room.topic" "@u:a" []; message "m.room.redaction" "@u:a" []]) as [(out & Hout & _) _]; [|by exists out].
  intros e He'. repeat (apply elem_of_cons in He' as [->|He']; [done|]). by apply elem_of_nil in He'.
Defined.

Lemma blocked_means_none_witness : filter_room_state [] (collection no_rooms) [message "m.room.topic" "@u:a" []] = Ok [].
Proof.
  destruct (blocked_means_none stable [] no_rooms (collection no_rooms) eq_refl ltac:(by vm_compute) ltac:(by vm_compute)) as [He _].
  apply (He [message "m.room.topic" "@u:a" []]); [|done].
  intros e He'. apply list_elem_of_singleton in He' as ->. done.
Defined.

(** Another filter of the user is stored while this one is added. *)
Definition other_filter : user_filter_row := mkUserFilter "@u:a" "u" 0 "other".

Lemma user_filter_roundtrip_witness : ∃ rows,
  store_add_user_filter {| localpart := "u"; domain := "a" |} (JObj []) (λ i, (if Nat.eqb i 0 then [] else [other_filter], [other_filter])) =
    Ok (1, rows) ∧ NoDup (row_key <$> rows).
Proof.
  set (tables := λ i, (if Nat.eqb i 0 then [] else [other_filter], [other_filter])).
  pose proof (user_filter_roundtrip {| localpart := "u"; domain := "a" |} (JObj []) "{}" tables eq_refl) as Hr.
  set (r := store_add_user_filter _ _ tables) in *.
  assert (r = Ok (1, [other_filter; mkUserFilter "@u:a" "u" 1 "{}"])) as E by (by vm_compute).
  rewrite E in Hr. eexists. split; [exact E|]. apply Hr.
  - intros [|i] x; cbn; [by intros ?%elem_of_nil|done].
  - intros i. cbn. apply NoDup_singleton.
Defined.

(** ** What the schema lets through *)

(** The fields of the filter for global account data that [FILTER_SCHEMA] does not have. *)
Example unchecked_account_data_filter :
  let j := obj1 "account_data" (obj1 "rooms" (JInt 5)) in
  check_valid_filter j = Ok tt ∧ filter_global_account_data [] (collection j) [[("type", JStr "t")]] = Raise TypeError.
Proof. split; by vm_compute. Qed.

(** A message whose labels are a number, and a filter for labels. *)
Example bad_labels_fail :
  let j := obj1 "room" (obj1 "timeline" (obj1 "org.matrix.labels" (JList [JStr "l"]))) in
  check_valid_filter j = Ok tt ∧
  filter_room_timeline [] (collection j) [message "m.room.message" "@v:b" [("org.matrix.labels", JInt 5)]] = Raise TypeError.
Proof. split; by vm_compute. Qed.

(** Wildcards do not match presence, other than in [blocks_all_presence]. *)
Example presence_wildcards :
  let only := collection (obj1 "presence" (obj1 "types" (JList [JStr "m.*"]))) in
  let none := collection (obj1 "presence" (obj1 "not_types" (JList [JStr "*"]))) in
  filter_presence [] only [default_state "@u:a"] = Ok [] ∧
  blocks_all_presence none = Ok true ∧ filter_presence [] none [default_state "@u:a"] = Ok [FPresence (default_state "@u:a")].
Proof. split_and!; by vm_compute. Qed.

(** The limit of a timeline need not be an integer. *)
Example float_limit :
  let half := JFloat (SpecFloat.S754_finite false 3 (-1)) in
  let j := obj1 "room" (obj1 "timeline" (obj1 "limit" half)) in
  check_valid_filter j = Ok tt ∧ timeline_limit (collection j) = half.
Proof. split; by vm_compute. Qed.

(** The rooms are added to the old filter as well. *)
Example with_room_ids_shares_list :
  (λ fs, (f_rooms fs.1, f_rooms fs.2)) <$> (f ← Filter_init stable (obj1 "rooms" (JList [JStr "!r:a"])); with_room_ids stable ["!s:a"] f) =
  Ok (JList [JStr "!r:a"; JStr "!s:a"], JList [JStr "!r:a"; JStr "!s:a"]).
Proof. by vm_compute. Qed.

(** With MSC3874 the types of relations of a room event filter are not checked. *)
Example unchecked_rel_types :
  let j := obj1 "room" (obj1 "timeline" (obj1 "org.matrix.msc3874.rel_types" (JInt 5))) in
  check_valid_filter j = Ok tt ∧
  (fc ← FilterCollection_init (mkFilterConfig false true) j; filter_room_timeline [] fc [message "m.room.message" "@v:b" []]) = Raise TypeError.
Proof. split; by vm_compute. Qed.
End samples.
