(* ===== verification/Samples.v ===== *)
(** * A sample room

    Concrete data on which the theorems of the development are applied: the
    events of a small version 10 room, a store that holds them, and concrete
    functions for the third-party libraries the model takes as parameters.
    Alice creates the room and makes it public, Bob joins; they then set the
    topic concurrently. *)

From S2P Require Import Prelude PyJson RoomVersions Identifiers Event EventAuth TopoSort StateResV2.
From S2P Require Import StateResV2Props.

(** The hypotheses are equations between closed terms. *)
Ltac by_eval :=
  lazymatch goal with
  | |- _ = ?r => vm_cast_no_check (eq_refl r)
  end.

Definition alice := "@alice:hs".
Definition bob := "@bob:hs".
Definition room := "!r:hs".

(** ** Third-party code *)

(** No host name of the sample is an IPv6 literal. *)
Definition sample_netaddr : Netaddr := λ _, false.

(** A signature is valid when it is of the server that signs. *)
Definition sample_signedjson : SignedJson := {|
  VerifyKey := string;
  encode_canonical_json v := match v with JStr s => s | _ => "" end;
  decode_base64 v := match v with JStr s => Ok s | _ => Raise TypeError end;
  decode_verify_key_bytes _ k := Ok k;
  verify_signed_json _ server k :=
    if String.eqb server k then Ok tt else Raise SignatureVerifyException
|}.

(** ** Events *)

Definition sample_event (id typ snd : string) (sk : option string) (c : jobj) (depth : Z)
    (auth : list string) : EventBase := {|
  event_id := id; ev_type := typ; sender := snd; ev_room_id := Some room; ev_state_key := sk;
  content := c; Event.depth := depth; origin_server_ts := depth; prev_event_ids := [];
  auth_event_ids := auth; signatures := ∅; ev_redacts := None;
  Event.room_version := RoomVersions.V10; rejected_reason := None; ev_pdu_json := JNull
|}.

Definition member_event (id snd target m : string) (depth : Z) (auth : list string) : EventBase :=
  sample_event id EventTypes.Member snd (Some target) [("membership", JStr m)] depth auth.

Definition topic_event (id snd topic : string) (depth : Z) (auth : list string) : EventBase :=
  sample_event id "m.room.topic" snd (Some "") [("topic", JStr topic)] depth auth.

Definition power_event (id snd : string) (users : jobj) (depth : Z) (auth : list string) :
    EventBase :=
  sample_event id EventTypes.PowerLevels snd (Some "")
    [("users", JObj users); ("users_default", JInt 0); ("state_default", JInt 50)] depth auth.

Definition create_room :=
  sample_event "$create" EventTypes.Create alice (Some "") [("creator", JStr alice)] 1 [].
Definition alice_join := member_event "$alice" alice alice Membership.JOIN 2 ["$create"].
Definition levels := power_event "$levels" alice [(alice, JInt 100); (bob, JInt 50)] 3
  ["$create"; "$alice"].
Definition public_room := sample_event "$public" EventTypes.JoinRules alice (Some "")
  [("join_rule", JStr JoinRules.PUBLIC)] 4 ["$create"; "$alice"; "$levels"].
Definition bob_join := member_event "$bob" bob bob Membership.JOIN 5
  ["$create"; "$levels"; "$public"].
Definition bob_leave := member_event "$bob_leave" bob bob Membership.LEAVE 6
  ["$create"; "$levels"; "$bob"].

Definition alice_topic := topic_event "$topic_alice" alice "a" 6 ["$create"; "$levels"; "$alice"].
Definition bob_topic := topic_event "$topic_bob" bob "b" 7 ["$create"; "$levels"; "$bob"].

(** Bob lowers his own level; Alice kicks Bob. *)
Definition levels' := power_event "$levels2" bob [(alice, JInt 100); (bob, JInt 10)] 6
  ["$create"; "$levels"; "$bob"].
Definition kick_bob := member_event "$kick" alice bob Membership.LEAVE 6
  ["$create"; "$levels"; "$alice"; "$bob"].

Definition room_state : list EventBase := [create_room; alice_join; levels; public_room; bob_join].
Definition sample_events : list EventBase :=
  room_state ++ [bob_leave; alice_topic; bob_topic; levels'; kick_bob].

Definition state_map_of (l : list EventBase) : StateMap EventBase :=
  foldl (λ m e, <[(ev_type e, default "" (ev_state_key e)) := e]> m) ∅ l.
Definition state_ids_of (l : list EventBase) : StateMap string := event_id <$> state_map_of l.
Definition event_map_of (l : list EventBase) : EventMap := foldr (λ e, <[event_id e := e]>) ∅ l.

(** ** The store *)

Definition sample_store_events : EventMap := event_map_of sample_events.

(** The auth chain of a set of events, to the depth of the sample room. *)
Fixpoint sample_chain (n : nat) (ids : StrSet) : StrSet :=
  match n with
  | O => ids
  | S n =>
      sample_chain n (ids ∪ ⋃ (map (λ i,
        match sample_store_events !! i with
        | Some e => list_to_set (auth_event_ids e)
        | None => ∅
        end) (elements ids)))
  end.

Definition sample_difference (sets : list StrSet) : StrSet :=
  let chains := map (sample_chain 8) sets in
  ⋃ chains ∖ foldr (∩) (⋃ chains) chains.

Definition sample_store : StateResolutionStore := {|
  get_events ids := list_to_map (omap (λ i, (λ e, (i, e)) <$> sample_store_events !! i) ids);
  get_auth_chain_difference _ sets := sample_difference sets
|}.

Lemma sample_get_events ids i :
  @get_events sample_store ids !! i = if decide (i ∈ ids) then sample_store_events !! i else None.
Proof.
  cbn [get_events sample_store]. induction ids as [|j ids IH]; [done|]. cbn [omap list_omap].
  destruct (decide (i = j)) as [->|Hne].
  - rewrite decide_True by (by left). destruct (sample_store_events !! j) eqn:E; cbn.
    + by rewrite lookup_insert_eq.
    + etrans; [exact IH|]. by case_decide.
  - rewrite (decide_ext _ (i ∈ ids)) by (rewrite elem_of_cons; naive_solver).
    destruct (sample_store_events !! j); cbn; [|done]. by rewrite lookup_insert_ne.
Qed.

(** Auth events are less deep than the events that cite them. *)
Definition sample_depth (i : string) : nat :=
  Z.to_nat (default 0 (Event.depth <$> sample_store_events !! i)).

Lemma event_map_of_lookup l i e : event_map_of l !! i = Some e → e ∈ l ∧ event_id e = i.
Proof.
  induction l as [|e' l IH]; [done|]. cbn. rewrite lookup_insert_Some.
  intros [[<- <-]|[_ [? ?]%IH]]; [by split; [left|]|]. split; [by right|done].
Qed.

Lemma sample_depth_auth i e a :
  sample_store_events !! i = Some e → a ∈ auth_event_ids e → (sample_depth a < sample_depth i)%nat.
Proof.
  intros [He <-]%event_map_of_lookup Ha. revert e He a Ha. rewrite <-Forall_forall.
  assert (Forall (λ e, Forall (λ a, (sample_depth a < sample_depth (event_id e))%nat)
    (auth_event_ids e)) sample_events) as Hall
    by (apply (bool_decide_unpack _); vm_compute; exact I).
  eapply Forall_impl; [exact Hall|]. intros e He. by apply Forall_forall.
Qed.

Lemma sample_depth_bound i : (sample_depth i < 8)%nat.
Proof.
  unfold sample_depth. destruct (sample_store_events !! i) as [e|] eqn:E; [|cbn; lia].
  apply event_map_of_lookup in E as [He _]. revert e He. rewrite <-Forall_forall.
  apply (bool_decide_unpack _). vm_compute. exact I.
Qed.

Definition sample_laws : @StoreLaws sample_store :=
  {| store_db i := sample_store_events !! i; get_events_lookup := sample_get_events |}.

(** ** The store's auth chain difference *)

(** [i] cites [a] as an auth event. *)
Definition sample_auth (i a : string) : Prop :=
  ∃ e, sample_store_events !! i = Some e ∧ a ∈ auth_event_ids e.

Lemma sample_auth_steps m v x : nsteps sample_auth m v x → (m ≤ sample_depth v)%nat.
Proof.
  induction 1 as [|m v w x (e & He & Hw) _ IH]; [lia|].
  pose proof (sample_depth_auth v e w He Hw). lia.
Qed.

Lemma sample_chain_spec n ids x :
  x ∈ sample_chain n ids ↔ ∃ v m, v ∈ ids ∧ (m ≤ n)%nat ∧ nsteps sample_auth m v x.
Proof.
  revert ids. induction n as [|n IH]; intros ids; cbn [sample_chain].
  - split; [intros Hx; exists x, 0%nat; by repeat constructor|].
    intros (v & m & Hv & Hm & Hs). assert (m = 0%nat) as -> by lia. by inversion Hs; subst.
  - rewrite IH. split.
    + intros (v & m & [Hv|Hv]%elem_of_union & Hm & Hs); [exists v, m; auto with lia|].
      apply elem_of_union_list in Hv as (X & (w & -> & Hw)%list_elem_of_fmap & Hv).
      exists w, (S m). split_and!; [by apply elem_of_elements|lia|].
      destruct (sample_store_events !! w) as [e|] eqn:E; [|set_solver].
      apply elem_of_list_to_set in Hv. apply nsteps_l with v; [by exists e|done].
    + intros (v & m & Hv & Hm & Hs). destruct m as [|m].
      { exists v, 0%nat. split_and!; [set_solver|lia|done]. }
      inversion Hs as [|? ? w ? (e & He & Hw) Hs']; subst. exists w, m.
      split_and!; [|lia|done]. apply elem_of_union_r, elem_of_union_list.
      exists (list_to_set (auth_event_ids e)). split; [|by apply elem_of_list_to_set].
      apply list_elem_of_fmap. exists v. rewrite He. split; [done|by apply elem_of_elements].
Qed.

Lemma sample_chain_rtc ids x : x ∈ sample_chain 8 ids ↔ ∃ v, v ∈ ids ∧ rtc sample_auth v x.
Proof.
  rewrite sample_chain_spec. split.
  - intros (v & m & Hv & _ & Hs). exists v. split; [done|]. by eapply rtc_nsteps_2.
  - intros (v & Hv & [m Hs]%rtc_nsteps). exists v, m. split_and!; [done| |done].
    pose proof (sample_auth_steps _ _ _ Hs). pose proof (sample_depth_bound v). lia.
Qed.

Lemma sample_difference_spec (sets : list StrSet) x :
  x ∈ sample_difference sets ↔
  (∃ S, S ∈ sets ∧ ∃ v, v ∈ S ∧ rtc sample_auth v x) ∧
  (∃ S, S ∈ sets ∧ ¬ ∃ v, v ∈ S ∧ rtc sample_auth v x).
Proof.
  unfold sample_difference. setoid_rewrite <-sample_chain_rtc.
  assert (∀ (U : StrSet) chains, x ∈ foldr (∩) U chains ↔ x ∈ U ∧ Forall (λ C, x ∈ C) chains) as Hi.
  { intros U chains. induction chains as [|C chains IH]; cbn; [by rewrite Forall_nil; tauto|].
    rewrite elem_of_intersection, IH, Forall_cons. tauto. }
  rewrite elem_of_difference, Hi, elem_of_union_list, Forall_fmap.
  setoid_rewrite list_elem_of_fmap. split.
  - intros [(C & (S & -> & HS) & Hx) Hn]. split; [by exists S|].
    destruct (decide (Forall (λ C, x ∈ sample_chain 8 C) sets)) as [|Hf].
    { destruct Hn. split; [|done]. exists (sample_chain 8 S). split; [by exists S|done]. }
    apply not_Forall_Exists in Hf; [|apply _]. by apply Exists_exists in Hf.
  - intros [(S & HS & Hx) (S' & HS' & Hx')].
    split; [exists (sample_chain 8 S); split; [by exists S|done]|].
    intros [_ Hall]. rewrite Forall_forall in Hall. by apply Hx', Hall.
Qed.

Lemma sample_difference_perm sets sets' :
  sets ≡ₚ sets' → sample_difference sets = sample_difference sets'.
Proof.
  intros Hp. apply leibniz_equiv. intros x. rewrite !sample_difference_spec. by setoid_rewrite Hp.
Qed.

(** ** Three forks of the room *)

Definition forks : list (StateMap string) :=
  [state_ids_of (room_state ++ [kick_bob]); state_ids_of (room_state ++ [levels']);
   state_ids_of (room_state ++ [bob_topic])].

(** ** Two orders of visiting a set *)

Definition canonical_order : SetOrder :=
  {| iter_set A _ _ X := elements X; iter_set_perm A _ _ X := Permutation_refl (elements X) |}.

Definition reversed_order : SetOrder :=
  {| iter_set A _ _ X := reverse (elements X); iter_set_perm A _ _ X := reverse_Permutation (elements X) |}.

#[export] Existing Instances sample_netaddr sample_signedjson sample_store sample_laws canonical_order.
