(* ===== verification/Witnesses.v ===== *)
(** * The theorems on concrete data

    Each theorem with hypotheses, applied to the sample room of [Samples] or
    to another concrete input: the hypotheses hold there, by evaluation of
    the definitions. *)

From S2P Require Import Prelude PyOrd PyJson RoomVersions Identifiers Event EventAuth.
From S2P Require Import EventAuthProps StateFilter TopoSort StateResV2 StateResV2Props.
From S2P Require Import StateResV2Sort StateResV2AuthDiff StateResV2Resolve StateResV1.
From S2P Require Import StateResV1Props StreamChangeCache StreamChangeCacheProps Samples.

(** The event cache a computation that succeeds ends with. *)
Definition cache_after {A} (r : res (A * EventMap)) : EventMap :=
  match r with Ok (_, em) => em | Raise _ => ∅ end.

Abbreviation room_dict := (state_map_of room_state).

(** ** Event authorisation *)

Lemma power_levels_no_escalation_witness : ∃ old new,
  get_user_power_level alice room_dict = Ok old ∧
  get_user_power_level alice (<[(EventTypes.PowerLevels, "") := levels']> room_dict) = Ok new ∧
  new ≤ Z.max (Z.max 0 50) (Z.max old 0) ∧
  (alice ≠ bob → is_Some (obj_get alice [(alice, JInt 100); (bob, JInt 50)]) → 50 ≤ old → new = old).
Proof.
  exact (power_levels_no_escalation RoomVersions.V10 levels' room_dict levels 50
    [(alice, JInt 100); (bob, JInt 50)] (Some 0) ltac:(by_eval) ltac:(by_eval) ltac:(by_eval) ltac:(by_eval)
    ltac:(by_eval) ltac:(by_eval) ltac:(by_eval) alice).
Defined.

Lemma accepted_join_authorised_witness :
  state_key bob_join = Ok bob ∧ ¬ member_is room_dict bob Membership.BAN ∧
  (join_rule_of room_dict = JStr JoinRules.PUBLIC ∨
   member_is room_dict bob Membership.JOIN ∨ member_is room_dict bob Membership.INVITE ∨
   (join_rule_of room_dict = JStr JoinRules.RESTRICTED ∨
    join_rule_of room_dict = JStr JoinRules.KNOCK_RESTRICTED) ∧
   authorised_by_member bob_join room_dict).
Proof. apply (accepted_join_authorised bob_join room_state room_dict false); by_eval. Defined.

Lemma accepted_removal_outranks_target_witness :
  member_is room_dict alice Membership.JOIN ∧
  ∃ level target_level needed,
    get_user_power_level alice room_dict = Ok level ∧
    get_user_power_level bob room_dict = Ok target_level ∧
    get_named_level room_dict "kick" 50 = Ok needed ∧
    needed ≤ level ∧ target_level < level ∧
    (member_is room_dict bob Membership.BAN →
     ∃ ban_level, get_named_level room_dict "ban" 50 = Ok ban_level ∧ ban_level ≤ level).
Proof.
  apply (accepted_removal_outranks_target kick_bob room_state room_dict false bob Membership.LEAVE);
    try by_eval. by right.
Defined.

Lemma accepted_message_witness :
  member_is room_dict bob Membership.JOIN ∧
  ∃ level needed, get_user_power_level bob room_dict = Ok level ∧
    get_send_level "m.room.topic" (Some "") (get_power_level_event room_dict) = Ok needed ∧
    needed ≤ level ∧
    (∀ sk, Some "" = Some sk → str_startswith "@" sk = true →
      msc3757_enabled RoomVersions.V10 = false → sk = bob).
Proof.
  apply (accepted_message_sender_joined_with_power bob_topic room_state room_dict false); try by_eval;
    [by apply (bool_decide_unpack _)|done].
Defined.

Lemma power_levels_change_rule_witness : ∃ o n,
  level_at (JObj [(alice, JInt 100); (bob, JInt 50)]) (JStr bob) = Ok o ∧
  level_at (JObj [(alice, JInt 100); (bob, JInt 10)]) (JStr bob) = Ok n ∧
  level_change_allowed false 50 o n.
Proof.
  apply (power_levels_change_rule RoomVersions.V10 levels' room_dict "" levels 50
    ltac:(by_eval) ltac:(by_eval) ltac:(by_eval) ltac:(by_eval) (Some "users")); try by_eval. by left.
Defined.

Lemma auth_types_sufficient_witness :
  check_state_dependent_auth_rules alice_topic
    (filter (λ e, default ("", "") (auth_key e) ∈
       ({[(EventTypes.PowerLevels, ""); (EventTypes.Member, alice); (EventTypes.Create, "")]}
          : StateKeys)) room_state) =
  check_state_dependent_auth_rules alice_topic room_state.
Proof.
  apply auth_types_sufficient; [|done| |by_eval].
  - by apply room_version_wf_of_list, (bool_decide_unpack _).
  - by repeat constructor.
Defined.

Lemma state_independent_rules_accept_witness : ∃ dict,
  auth_events_ok sample_store_events room
    {[(EventTypes.PowerLevels, ""); (EventTypes.Member, bob); (EventTypes.Create, "")]}
    ["$create"; "$levels"; "$bob"] dict ∧
  ∃ create, dict !! (EventTypes.Create, "") = Some create ∧ create ≠ "".
Proof.
  apply (state_independent_rules_accept (λ _, Ok sample_store_events) bob_topic None);
    try by_eval. done.
Defined.

Lemma validate_missing_room_id_witness :
  let event := mkEvent "$e" "m.x" alice None None [] 1 1 [] [] ∅ None RoomVersions.V10 None JNull in
  validate_event_for_room_version event = Raise (AttributeError "room_id") ∨
  ∃ msg up, validate_event_for_room_version event = Raise (EventSizeError msg up).
Proof. by apply validate_missing_room_id. Defined.

(** ** State resolution, version 2 *)

(** Alice's kick, Bob's change of levels and Bob's topic conflict: the kick
    is applied first and denies the other two. *)
Lemma resolve_sound_witness :
  let rs := state_ids_of (room_state ++ [kick_bob]) in
  ∃ D, ((∃ i, conflicted_id forks i) → _get_auth_chain_difference 30 room forks ∅ = Ok D) ∧
    resolves RoomVersions.V10 ∅ forks D rs ∧ (∀ rs', resolves RoomVersions.V10 ∅ forks D rs' → rs' = rs) ∧
    (∀ k i, rs !! k = Some i → agreed forks k i ∨ ∃ e, view ∅ i = Some e ∧
       type_and_key e = Ok k ∧ rejected_reason e = None ∧ ev_room_id e = Some room).
Proof.
  apply (resolve_sound 30 room RoomVersions.V10 forks ∅ _
    (cache_after (StateResV2.resolve_events_with_store 30 room RoomVersions.V10 forks ∅))).
  by_eval.
Defined.

Lemma resolve_terminates_witness : ∃ k, ∀ fuel, (k ≤ fuel)%nat →
  real_exn (StateResV2.resolve_events_with_store fuel room RoomVersions.V10 forks ∅).
Proof.
  apply (resolve_terminates room RoomVersions.V10 forks ∅ sample_depth 8).
  - by intros [].
  - by intros n k.
  - intros o s k. cbn. by destruct (String.eqb s k).
  - by intros i e.
  - apply sample_depth_bound.
  - intros i e a He Ha _. by eapply sample_depth_auth.
Defined.

(** The other run visits every set in the opposite order. *)
Lemma resolve_order_independent_witness :
  match StateResV2.resolve_events_with_store (Order := reversed_order) 30 room RoomVersions.V10
          (reverse forks) ∅ with
  | Ok (rs', _) => rs' = state_ids_of (room_state ++ [kick_bob])
  | Raise ex => ex = OutOfFuel
  end.
Proof.
  apply (resolve_order_independent canonical_order reversed_order 30 room RoomVersions.V10 forks
    (reverse forks) ∅ _
    (cache_after (StateResV2.resolve_events_with_store 30 room RoomVersions.V10 forks ∅))).
  - apply sample_difference_perm.
  - by rewrite reverse_Permutation.
  - by_eval.
Defined.

(** The three conflicting events are not in the store yet. *)
Definition new_events : list EventBase := [kick_bob; levels'; bob_topic].

Lemma auth_chain_difference_correct_witness : ∃ k D,
  (∀ fuel, (k ≤ fuel)%nat →
     _get_auth_chain_difference fuel room forks (event_map_of new_events) = Ok D) ∧
  ∀ x, x ∈ D ↔ (∃ s, s ∈ forks ∧ in_chain (event_map_of new_events) s x) ∧
               (∃ s, s ∈ forks ∧ ¬ in_chain (event_map_of new_events) s x).
Proof.
  assert (Forall (λ e, Forall (λ a, event_map_of new_events !! a = None) (auth_event_ids e))
    sample_events) as Hnone.
  { unfold sample_events, room_state. repeat constructor. }
  assert (∀ i e, event_map_of new_events !! i = Some e → sample_store_events !! i = Some e) as Hsub.
  { intros i e [He <-]%event_map_of_lookup. revert e He. apply Forall_forall. by repeat constructor. }
  apply (auth_chain_difference_correct (event_map_of new_events) sample_depth).
  - by intros i e [_ ?]%event_map_of_lookup.
  - intros i e a He%Hsub Ha _. by eapply sample_depth_auth.
  - intros i e a _ [He _]%event_map_of_lookup Ha. rewrite Forall_forall in Hnone.
    specialize (Hnone e He). rewrite Forall_forall in Hnone. by apply Hnone.
  - apply sample_difference_spec.
  - done.
Defined.

(** A diamond. *)
Definition diamond : Graph :=
  <["d" := {["b"; "c"]}]> (<["c" := {["a"]}]> (<["b" := {["a"]}]> (<["a" := ∅]> ∅))).

Lemma topological_sort_greedy_witness : ∃ l,
  lexicographical_topological_sort (λ n, Ok n) diamond = Ok l ∧ lex_topological id diamond l ∧
  NoDup l ∧ (∀ n, n ∈ l ↔ grounded diamond n) ∧ (∀ l', lex_topological id diamond l' → l' = l).
Proof. by apply (topological_sort_greedy (λ n, Ok n) id diamond). Defined.

Lemma topological_sort_dag_witness : ∃ l,
  lexicographical_topological_sort (λ n, Ok n) diamond = Ok l ∧
  l ≡ₚ (map_to_list diamond).*1 ∧
  (∀ pre m post n, l = pre ++ m :: post → references diamond m n → n ∈ pre).
Proof.
  apply (topological_sort_dag (λ n, Ok n) id diamond
    (λ n, if String.eqb n "a" then 0 else if String.eqb n "d" then 2 else 1)%nat); [done|].
  intros m n (es & Hes & Hn). unfold diamond in *. rewrite !lookup_insert_Some in Hes.
  destruct Hes as [[<- <-]|[_ [[<- <-]|[_ [[<- <-]|[_ [[<- <-]|[_ Hes]]]]]]]]; [..|done].
  - apply elem_of_union in Hn as [->%elem_of_singleton| ->%elem_of_singleton]; split; cbn; eauto; lia.
  - apply elem_of_singleton in Hn as ->. split; cbn; eauto; lia.
  - apply elem_of_singleton in Hn as ->. split; cbn; eauto; lia.
  - set_solver.
Defined.

Lemma power_sort_spec_witness :
  let fcs : StrSet := {["$kick"; "$levels2"; "$topic_bob"; "$bob"]} in
  let l := ["$bob"; "$kick"; "$levels2"] in
  NoDup l ∧ (∀ n, n ∈ l → n ∈ fcs ∨ n ∈ ["$kick"; "$levels2"]) ∧
  (∀ pre n post, l = pre ++ n :: post →
     (∀ a, a ∈ conflicted_auth ∅ fcs n → a ∈ pre) ∧
     (∀ m, m ∈ post → (∀ a, a ∈ conflicted_auth ∅ fcs m → a ∈ pre) →
        py_leb (power_order ∅ n) (power_order ∅ m) = true)) ∧
  (∀ depth : string → nat,
     (∀ i a, a ∈ conflicted_auth ∅ fcs i → (depth a < depth i)%nat) →
     ∀ i, i ∈ ["$kick"; "$levels2"] → i ∈ l).
Proof.
  intros fcs l. apply (power_sort_spec 30 room _ _ _ _ (cache_after
    (_reverse_topological_power_sort 30 room ["$kick"; "$levels2"] fcs ∅))).
  by_eval.
Defined.

Lemma mainline_sort_spec_witness :
  let ids := ["$topic_bob"; "$public"; "$topic_alice"] in
  let l := ["$public"; "$topic_alice"; "$topic_bob"] in
  l ≡ₚ ids ∧
  (ids ≠ [] → ∃ mainline (key : string → Z * Z * string),
     pl_chain sample_store_events (Some "$levels2") mainline ∧
     (∀ i, i ∈ ids → order_entry sample_store_events mainline i (key i)) ∧
     StronglySorted (key_le key) l) ∧
  (∀ fuel' ids' l' em'', ids ≡ₚ ids' →
     _mainline_sort fuel' room ids' (Some "$levels2") sample_store_events = Ok (l', em'') → l' = l).
Proof.
  intros ids l. apply (mainline_sort_spec 30 room _ _ _ _ (cache_after
    (_mainline_sort 30 room ids (Some "$levels2") sample_store_events))).
  by_eval.
Defined.

(** ** State resolution, version 1 *)

Definition topic_forks : list (StateMap string) :=
  [state_ids_of (room_state ++ [alice_topic]); state_ids_of (room_state ++ [bob_topic])].

(** A store that returns an event for every id it is asked for. *)
Definition sample_factory (ids : StrSet) : EventMap :=
  set_to_map (λ i, (i, default (topic_event i alice "" 9 []) (sample_store_events !! i))) ids.

Lemma sample_factory_lookup (X : StrSet) i :
  sample_factory X !! i =
  if decide (i ∈ X) then Some (default (topic_event i alice "" 9 []) (sample_store_events !! i))
  else None.
Proof.
  unfold sample_factory. case_decide as Hi.
  - apply lookup_set_to_map; [naive_solver|]. by exists i.
  - apply eq_None_not_Some. intros [e He]. apply lookup_set_to_map in He; naive_solver.
Qed.

Lemma sample_factory_id (X : StrSet) i e : sample_factory X !! i = Some e → event_id e = i.
Proof.
  rewrite sample_factory_lookup. case_decide; [|done]. intros [= <-].
  destruct (sample_store_events !! i) as [e|] eqn:E; [|done]. by apply event_map_of_lookup in E as [_ ?].
Qed.

Lemma v1_resolve_spec_witness :
  let rs := state_ids_of (room_state ++ [bob_topic]) in
  (∀ k v, unanimous topic_forks k v → rs !! k = Some v) ∧
  (∀ k v, rs !! k = Some v → ∃ s, s ∈ topic_forks ∧ s !! k = Some v) ∧
  ((∀ (X : StrSet) i, i ∈ X → is_Some (sample_factory X !! i)) →
   ∀ k s, s ∈ topic_forks → is_Some (s !! k) → is_Some (rs !! k)).
Proof.
  apply (v1_resolve_spec room RoomVersions.V1 topic_forks None sample_factory).
  - apply sample_factory_id.
  - done.
  - by_eval.
Defined.

Lemma v1_seperate_spec_witness :
  let u := state_ids_of room_state in
  let c : StateMap StrSet := {[("m.room.topic", "") := {["$topic_alice"; "$topic_bob"]}]} in
  (∀ k v, u !! k = Some v ↔ unanimous topic_forks k v) ∧
  (∀ k X, c !! k = Some X → ∀ v, v ∈ X ↔ ∃ s, s ∈ topic_forks ∧ s !! k = Some v) ∧
  (∀ k, is_Some (c !! k) ↔ ∃ s s' v w, s ∈ topic_forks ∧ s' ∈ topic_forks ∧
     s !! k = Some v ∧ s' !! k = Some w ∧ v ≠ w).
Proof. apply v1_seperate_spec. by_eval. Defined.

Lemma v1_normal_choice_witness :
  let events := [bob_topic; alice_topic] in
  _ordered_events events ≡ₚ events ∧ StronglySorted (key_le key_func) (_ordered_events events) ∧
  ∃ e pre post, _resolve_normal_events events room_dict = Ok e ∧
    _ordered_events events = pre ++ e :: post ∧ Forall (denied room_dict) pre ∧
    (passes room_dict e ∨ post = [] ∧ denied room_dict e).
Proof.
  apply v1_normal_choice; [done|]. intros e He. left. exists false. revert e He.
  apply Forall_forall. repeat constructor; by_eval.
Defined.

(** ** The stream change cache *)

(** Two entities change, the cache is shrunk to one position, then everything
    changes. *)
Definition sample_ops : list op :=
  [Changed "user1" 5; Resize (λ n, n / 2); Changed "user2" 6; AllChanged 7; Changed "user1" 8].

Lemma stream_cache_run_witness : ∃ c c' : StreamChangeCache (ZMap StrSet),
  init 2 2 None [("user2", 3)] = Ok c ∧ foldM run_op c sample_ops = Ok c' ∧
  represents (foldl log_op [("user2", 3)] sample_ops) c' ∧ bounded c'.
Proof.
  apply stream_cache_run; [lia|done|]. cbn. split_and!; try done.
  - intros n Hn. apply Z.div_pos; lia.
  - intros e q. rewrite !elem_of_cons, elem_of_nil. intros H. destruct_or! H; by simplify_eq.
Defined.

Definition sample_log := [("user1", 5); ("user2", 6)].
Definition sample_cache : StreamChangeCache (ZMap StrSet) :=
  mkCache 10 10 (<[5 := {["user1"]}]> (<[6 := {["user2"]}]> ∅))
    (<["user1" := 5]> (<["user2" := 6]> ∅)) 4.

Lemma sample_cache_represents : represents sample_log sample_cache.
Proof.
  destruct (empty_represents (D := ZMap StrSet) 4 10 ltac:(lia)) as [Hr Hb].
  destruct (run_ops_spec [] _ [Changed "user1" 5; Changed "user2" 6] Hr Hb) as (c & Hc & Hr' & _);
    [done|].
  replace sample_cache with c; [done|]. apply (inj Ok). rewrite <-Hc. by_eval.
Qed.

Lemma stream_cache_queries_witness :
  (∀ e, has_entity_changed sample_cache e 5 = true ↔ 5 < 4 ∨ changed_since sample_log e 5) ∧
  (has_any_entity_changed sample_cache 5 = true ↔ 5 < 4 ∨ ∃ e, changed_since sample_log e 5) ∧
  (∀ l, get_all_entities_changed sample_cache 5 = Some l →
     NoDup l ∧ (∀ e, e ∈ l ↔ changed_since sample_log e 5) ∧
     (∀ i j e e' k k', (i < j)%nat → l !! i = Some e → l !! j = Some e' →
        get_max_pos_of_last_change sample_cache e = Some k →
        get_max_pos_of_last_change sample_cache e' = Some k' → k ≤ k')).
Proof. apply (stream_cache_queries sample_log sample_cache 5), sample_cache_represents. Defined.

Lemma get_entities_changed_spec_witness :
  let r := get_entities_changed sample_cache true ["user1"; "user2"; "user3"] 5 1 in
  (∀ e, e ∈ r → e ∈ ["user1"; "user2"; "user3"]) ∧
  (∀ e, e ∈ ["user1"; "user2"; "user3"] → changed_since sample_log e 5 → e ∈ r) ∧
  (4 ≤ 5 → -1 ≤ 5 → sd_map (_cache sample_cache) ≠ ∅ →
   ∀ e, e ∈ r → changed_since sample_log e 5).
Proof.
  apply (get_entities_changed_spec sample_log sample_cache), sample_cache_represents.
Defined.

(** ** State filters *)

(** Everything but other users' memberships; and all topics. *)
Definition own_member : StateFilter := mkStateFilter {[EventTypes.Member := Some {[alice]}]} true.
Definition topics : StateFilter := mkStateFilter {["m.room.topic" := None]} false.

Lemma approx_difference_spec_witness :
  (∀ t, keys_for (approx_difference own_member topics) t =
        keys_difference (keys_for own_member t) (keys_for topics t)) ∧
  (∀ k, contains own_member k = true → contains topics k = false →
        contains (approx_difference own_member topics) k = true) ∧
  (∀ k, contains (approx_difference own_member topics) k = true → contains own_member k = true).
Proof. apply approx_difference_spec; apply mkStateFilter_canonical. Defined.

Lemma recompose_decompose_witness :
  let '((all, ex), (wl, ck)) := _decompose_into_four_parts own_member in
  _recompose_from_four_parts all ex wl ck = own_member.
Proof. apply recompose_decompose, mkStateFilter_canonical. Defined.

Lemma make_sql_filter_clause_spec_witness :
  (is_full own_member = false →
   (make_sql_filter_clause own_member).1 = render_sql (sql_of_filter own_member)) ∧
  (∀ row, sql_selects (make_sql_filter_clause own_member).1 (sql_of_filter own_member)
            (make_sql_filter_clause own_member).2 row = Some (contains own_member row)).
Proof. apply make_sql_filter_clause_spec, mkStateFilter_canonical. Defined.

Lemma return_expanded_spec_witness :
  (∀ k, contains topics k = true → contains (return_expanded topics) k = true) ∧
  (∀ u, contains (return_expanded topics) (EventTypes.Member, u) =
        contains topics (EventTypes.Member, u)) ∧
  (non_member_wildcard topics →
     ∀ t s, t ≠ EventTypes.Member → contains (return_expanded topics) (t, s) = true) ∧
  (¬ non_member_wildcard topics → ∀ k, contains (return_expanded topics) k = contains topics k).
Proof. apply return_expanded_spec, mkStateFilter_canonical. Defined.
