(* ===== verification/StreamWitnesses.v ===== *)
(** * The theorems on streams at concrete inputs

    Concrete sorted containers and a concrete table of writer names, a stream
    with two writers, and each theorem with hypotheses applied to them. *)

From S2P Require Import Prelude PyOrd IdGenerators IdGeneratorsProps StreamTokens.
From S2P Require Import StreamTokensProps.

(** ** Sorted containers *)

Definition items (s : ZSet) : list Z := py_sort id (elements s).

Lemma elem_of_items s x : x ∈ items s ↔ x ∈ s.
Proof. unfold items. by rewrite py_sort_perm, elem_of_elements. Qed.

Lemma items_sorted s : StronglySorted Z.lt (items s).
Proof.
  assert (NoDup (items s)) as Hnd by (unfold items; rewrite py_sort_perm; apply NoDup_elements).
  revert Hnd. pose proof (py_sort_sorted id (elements s)) as Hs. fold (items s) in Hs.
  induction Hs as [|x l _ IH Hx]; intros Hnd; constructor; inversion Hnd; subst; [auto|].
  rewrite Forall_forall in *. intros y Hy. specialize (Hx y Hy). unfold key_le in Hx. cbn in Hx.
  destruct (decide (x = y)) as [->|]; [done|lia].
Qed.

#[export] Program Instance gset_SortedSet : SortedSet ZSet := {|
  ss_new := ∅;
  ss_items := items;
  ss_update l s := list_to_set l ∪ s;
  ss_difference_update l s := s ∖ list_to_set l
|}.
Next Obligation. done. Qed.
Next Obligation. apply items_sorted. Qed.
Next Obligation. intros l s x. rewrite !elem_of_items. set_solver. Qed.
Next Obligation. intros l s x. rewrite !elem_of_items. set_solver. Qed.

Fixpoint remove_one (x : Z) (l : list Z) : option (list Z) :=
  match l with
  | [] => None
  | y :: l => if decide (x = y) then Some l else cons y <$> remove_one x l
  end.

Lemma remove_one_Some x l l' : remove_one x l = Some l' → l ≡ₚ x :: l'.
Proof.
  revert l'. induction l as [|y l IH]; cbn; intros l' Hl; [done|].
  case_decide; simplify_eq; [done|]. apply fmap_Some in Hl as (k & Hk & ->).
  rewrite (IH _ Hk). constructor.
Qed.

Lemma remove_one_None x l : remove_one x l = None ↔ x ∉ l.
Proof.
  induction l as [|y l IH]; cbn; [set_solver|]. rewrite not_elem_of_cons, <-IH.
  case_decide; [naive_solver|]. rewrite fmap_None. naive_solver.
Qed.

#[export] Program Instance list_SortedList : SortedList (list Z) := {|
  sl_new := [];
  sl_items := py_sort id;
  sl_add x l := x :: l;
  sl_remove := remove_one
|}.
Next Obligation. done. Qed.
Next Obligation.
  intros l. pose proof (py_sort_sorted id l) as Hs. induction Hs as [|x l' _ IH Hx]; constructor; [done|].
  eapply Forall_impl; [done|]. intros y Hy. unfold key_le in Hy. cbn in Hy. lia.
Qed.
Next Obligation. intros x l. by rewrite !py_sort_perm. Qed.
Next Obligation. intros x l l' Hl. rewrite !py_sort_perm. by apply remove_one_Some. Qed.
Next Obligation. intros x l. rewrite py_sort_perm. apply remove_one_None. Qed.

(** ** A stream with two writers

    This process is [a], with the stream at 9; writer [b] has position 7 and
    has not finished id 9. *)

Definition tables : StreamTables := {|
  db_stream_positions := [("a", 5); ("b", 7)];
  db_last_value := Some 9;
  db_max_ids := [8];
  db_rows_from := λ m, filter (λ r, m ≤ r.2) [(Some "a", 5); (Some "b", 6); (Some "b", 7); (Some "a", 8)]
|}.

Definition generator : MultiWriterIdGenerator ZSet (list Z) := init "a" ["a"; "b"] true tables.


(** One call of [get_next]: id 10 is fetched and noted. *)
Definition after_begin := (fetch_begin generator).2.
Definition after_record : MultiWriterIdGenerator ZSet (list Z) :=
  match fetch_record [10] after_begin with Ok g => g | Raise _ => after_begin end.

Lemma generator_steps :
  rtc step (mkSys generator 9 [] [(9, "b")]) (mkSys after_record 10 [(8, Recorded)] [(9, "b")]).
Proof.
  eapply rtc_l; [by apply step_begin; vm_compute|].
  eapply rtc_l; [apply (step_sequence _ 9 10 [] [] _ _ [10])|].
  { split_and!; [apply NoDup_singleton|done|]. repeat constructor; lia. }
  eapply rtc_l; [apply (step_record _ 10 [] [] _ 8 [10]); vm_compute; reflexivity|].
  vm_compute. reflexivity.
Qed.


Lemma stream_tokens_monotone_witness :
  _return_factor generator * get_current_token generator ≤
    _return_factor after_record * get_current_token after_record ∧
  ∀ w, _return_factor generator * get_current_token_for_writer w generator ≤
       _return_factor after_record * get_current_token_for_writer w after_record.
Proof. exact (stream_tokens_monotone _ _ generator_steps). Defined.

(** ** Tokens *)

Definition vector (n a : Z) : MultiWriterStreamToken :=
  {| stream := n; instance_map := {["a" := a]} |}.

Lemma vector_valid n a : n < a → valid (vector n a).
Proof. intros Hlt i p Hp. cbn in *. apply lookup_singleton_Some in Hp. lia. Qed.

Lemma token_order_lattice_witness :
  (is_before_or_eq (vector 3 5) (vector 4 6) = true ↔
     3 ≤ 4 ∧ ∀ i, get_stream_pos_for_instance (vector 3 5) i ≤
                  get_stream_pos_for_instance (vector 4 6) i) ∧
  (is_before_or_eq (vector 3 5) (vector 4 6) = true →
   is_before_or_eq (vector 4 6) (vector 3 5) = true → vector 3 5 = vector 4 6) ∧
  ∃ c, copy_and_advance (vector 3 5) (vector 4 6) = Ok c ∧ valid c ∧
    is_before_or_eq (vector 3 5) c = true ∧ is_before_or_eq (vector 4 6) c = true ∧
    ∀ d, is_before_or_eq (vector 3 5) d = true → is_before_or_eq (vector 4 6) d = true →
         is_before_or_eq c d = true.
Proof. apply (token_order_lattice (vector 3 5) (vector 4 6)); by apply vector_valid. Defined.

Definition token (n a : Z) : StreamToken :=
  {| room_key := {| room_base := vector n a; topological := None |}; presence_key := 1;
     typing_key := 2; receipt_key := vector 3 4; account_data_key := 5; push_rules_key := 6;
     to_device_key := 7; device_list_key := 8; groups_key := 0; un_partial_stated_rooms_key := 9 |}.

Lemma stream_advance_forward_witness :
  stream_is_before_or_eq (token 3 5) (token 4 6) = true ∧ stream_valid (token 4 6) ∧
  ∀ k, k ≠ ROOM → get_field (token 4 6) k = get_field (token 3 5) k.
Proof.
  apply (stream_advance_forward (token 3 5) ROOM
    (RoomKey {| room_base := vector 4 6; topological := None |})).
  - split; by apply vector_valid.
  - by apply vector_valid.
  - vm_compute. reflexivity.
Defined.

(** Writer names numbered by their encoding. *)
Definition numbered : InstanceStore := {|
  get_id_for_instance n := Zpos (encode n);
  get_name_from_instance_id z :=
    match decode (Z.to_pos z) with Some n => Ok n | None => Raise ValueError end
|}.
#[export] Existing Instance numbered.

Lemma stream_token_roundtrip_witness :
  room_parse (room_to_string (room_key (token 4 6)) [("a", 6)]) = Ok (room_key (token 4 6)) ∧
  parse (to_string (vector 3 4) [("a", 4)]) = Ok (vector 3 4) ∧
  stream_from_string (stream_to_string (token 4 6) [("a", 6)] [("a", 4)]) = Ok (token 4 6) ∧
  ∀ n, sliding_from_string
         (sliding_to_string {| stream_token := token 4 6; connection_position := n |}
            [("a", 6)] [("a", 4)]) =
       Ok {| stream_token := token 4 6; connection_position := n |}.
Proof.
  apply (stream_token_roundtrip (token 4 6)).
  - intros n. unfold get_name_from_instance_id, get_id_for_instance, numbered.
    cbn [Z.to_pos]. by rewrite decode_encode.
  - split; [by apply vector_valid|done].
  - by apply vector_valid.
  - cbn. lia.
  - vm_compute. reflexivity.
  - vm_compute. reflexivity.
Defined.
