(* ===== verification/EventWitnesses.v ===== *)
(** * The theorems on event dicts at concrete inputs *)

From S2P Require Import Prelude PyJson PyDict RoomVersions Event EventAuth EventUtils.
From S2P Require Import PyStr EventUtilsProps FrozenEvent RedactionProps RedactionAuth Samples.
From Stdlib Require Import Ascii.

(** ** Third-party code *)

(** A hash that is its argument, and signatures that name the signer. *)
Definition sample_crypto : EventCrypto := {|
  SigningKey := string;
  sha256 s := s;
  encode_base64 _ s := s;
  sign_json d name key := dict_set "signatures" (JObj [(name, JObj [(key, JStr "sig")])]) d
|}.
#[export] Existing Instance sample_crypto.

(** ** Redaction *)

(** A member event of a version 11 room, as it comes over federation. *)
Definition member_dict : jobj :=
  [("type", JStr EventTypes.Member); ("sender", JStr alice); ("room_id", JStr room);
   ("state_key", JStr alice); ("depth", JInt 2); ("origin_server_ts", JInt 2);
   ("prev_events", JList [JStr "$create"]); ("auth_events", JList [JStr "$create"]);
   ("hashes", JObj [("sha256", JStr "h")]);
   ("content", JObj [("membership", JStr Membership.JOIN); ("displayname", JStr "Alice")]);
   ("origin", JStr "hs"); ("signatures", JObj [("hs", JObj [("ed25519:1", JStr "s")])]);
   ("unsigned", JObj [("age_ts", JInt 1); ("prev_content", JObj [])])].

Definition get_ok {A} (default : A) (r : res A) : A := match r with Ok a => a | Raise _ => default end.

Definition no_event : FrozenEvent :=
  mkFrozen RoomVersions.V11 [] [] None [] (mkMetadata [] None None false).
Definition member_frozen : FrozenEvent :=
  get_ok no_event (make_event_from_dict member_dict RoomVersions.V11 [] None).
Definition member_redacted : FrozenEvent := get_ok no_event (prune_event member_frozen).

(** The redacted event has lost the display name. *)
Lemma member_redacted_content :
  obj_get "content" (fe_dict member_redacted) = Some (JObj [("membership", JStr Membership.JOIN)]).
Proof. reflexivity. Qed.

Lemma redaction_keeps_identity_witness :
  frozen_event_id member_redacted = frozen_event_id member_frozen ∧
  (∀ k, k ∈ identity_keys → obj_get k (fe_dict member_redacted) = obj_get k (fe_dict member_frozen)) ∧
  fe_signatures member_redacted = fe_signatures member_frozen ∧
  prune_event member_redacted = Ok member_redacted ∧
  (obj_in "content" member_dict = true → ∀ name key,
     compute_event_signature RoomVersions.V11 (get_dict member_redacted) name key =
     compute_event_signature RoomVersions.V11 (get_dict member_frozen) name key).
Proof. apply (redaction_keeps_identity member_dict RoomVersions.V11 [] None); by_eval. Defined.

(** The sample room in version 11, where create events have no creator. *)
Definition in_v11 (e : EventBase) : EventBase :=
  mkEvent (event_id e) (ev_type e) (sender e) (ev_room_id e) (ev_state_key e)
    (dict_set "note" (JStr "dropped by a redaction") (content e)) (depth e) (origin_server_ts e)
    (prev_event_ids e) (auth_event_ids e) (signatures e) (ev_redacts e) RoomVersions.V11
    (rejected_reason e) (ev_pdu_json e).

Lemma redacted_state_same_rules_witness :
  check_state_dependent_auth_rules (in_v11 bob_topic)
    (map (redact_some (λ e, negb (String.eqb (ev_type e) EventTypes.Create))) (map in_v11 room_state)) =
  check_state_dependent_auth_rules (in_v11 bob_topic) (map in_v11 room_state).
Proof.
  apply (redacted_state_same_rules RoomVersions.V11); [by_eval|by repeat constructor|done|by_eval].
Defined.

(** ** Power levels *)

Definition string_levels : jobj :=
  [("users", JObj [(alice, JStr "100"); (bob, JInt 50)]); ("users_default", JStr " 5 ")].
Definition int_levels : jobj :=
  [("users", JObj [(alice, JInt 100); (bob, JInt 50)]); ("users_default", JInt 5)].

Lemma fixup_keeps_levels_witness :
  copy_and_fixup_power_levels_contents (JObj int_levels) = Ok int_levels ∧
  let levels c : StateMap EventBase := <[(EventTypes.PowerLevels, "") := with_content c levels]> ∅ in
  (∀ u, get_user_power_level u (levels int_levels) = get_user_power_level u (levels string_levels)) ∧
  (∀ name def, get_named_level (levels int_levels) name def = get_named_level (levels string_levels) name def) ∧
  (∀ t sk, get_send_level t sk (get_power_level_event (levels int_levels)) =
           get_send_level t sk (get_power_level_event (levels string_levels))).
Proof.
  apply (fixup_keeps_levels string_levels int_levels); [|by_eval]. split.
  - by apply (bool_decide_unpack _).
  - intros k h [[= -> ->]|[[=]|[]%not_elem_of_nil]%elem_of_cons]%elem_of_cons. by apply (bool_decide_unpack _).
Defined.

(** ** Selecting fields *)

Lemma only_fields_spec_witness :
  ∃ out, only_fields member_dict (map (λ p, str_join "."%char (map escape_field p)) [["content"; "membership"]]) = Ok out ∧
    (∀ p v, p ∈ [["content"; "membership"]] → json_get (JObj member_dict) p = Some v →
       json_get (JObj out) p = Some v) ∧
    (∀ p v, p ≠ [] → json_get (JObj out) p = Some v → covered member_dict [["content"; "membership"]] p v).
Proof. apply only_fields_spec; [done|]. by repeat constructor. Defined.
