(* ===== verification/VisibilityWitnesses.v ===== *)
(** * The theorems on visibility at concrete inputs *)

From S2P Require Import Prelude PyJson PyDict RoomVersions Event StateFilter EventUtils FrozenEvent.
From S2P Require Import RedactionProps Visibility VisibilityProps ServerVisibility ServerVisibilityProps Samples.
From S2P Require Import EventWitnesses.

(** A message of the erased user bob in a room whose history joined users see. *)
Definition message_dict : jobj :=
  [("type", JStr "m.room.message"); ("sender", JStr bob); ("room_id", JStr room);
   ("depth", JInt 3); ("origin_server_ts", JInt 3);
   ("prev_events", JList [JStr "$member"]); ("auth_events", JList [JStr "$create"]);
   ("hashes", JObj [("sha256", JStr "h")]); ("content", JObj [("body", JStr "hello")]);
   ("signatures", JObj []); ("unsigned", JObj [])].
Definition visibility_dict : jobj :=
  [("type", JStr EventTypes.RoomHistoryVisibility); ("sender", JStr alice); ("room_id", JStr room);
   ("state_key", JStr ""); ("depth", JInt 3); ("origin_server_ts", JInt 3);
   ("prev_events", JList [JStr "$member"]); ("auth_events", JList [JStr "$create"]);
   ("hashes", JObj [("sha256", JStr "h")]);
   ("content", JObj [("history_visibility", JStr HistoryVisibility.JOINED)]);
   ("signatures", JObj []); ("unsigned", JObj [])].
Definition frozen (d : jobj) : FrozenEvent := get_ok no_event (make_event_from_dict d RoomVersions.V11 [] None).

Definition joined_state : StateMap FrozenEvent :=
  <[(EventTypes.Member, alice) := frozen member_dict]> {[ _HISTORY_VIS_KEY := frozen visibility_dict ]}.

Definition client_store : ClientStore := {|
  event_id_to_state _ := Some joined_state;
  ignore_list := ∅;
  erased_senders u := String.eqb u bob;
  retention_policies _ := None;
  clock_msec := 10
|}.

Definition timeline : list FrozenEvent := [frozen member_dict; frozen message_dict].
Definition seen_by (user : string) : list FrozenEvent :=
  get_ok [] (filter_events_for_client client_store user timeline false ∅ true).

(** Alice, who is joined, sees both events; bob, who is not, sees neither. *)
Lemma seen_lengths : length (seen_by alice) = 2%nat ∧ length (seen_by bob) = O.
Proof. split; by_eval. Qed.


Definition stored (i : string) : option FrozenEvent :=
  if String.eqb i "$member" then Some (frozen member_dict)
  else if String.eqb i "$visibility" then Some (frozen visibility_dict) else None.
Definition stored_state : StateMap string :=
  <[(EventTypes.Member, alice) := "$member"]> {[ _HISTORY_VIS_KEY := "$visibility" ]}.

Lemma event_for_clients_agrees_witness :
  alice ∈ ({[alice]} : StrSet) ↔ is_Some (Some (frozen message_dict)).
Proof.
  apply (event_for_clients_agrees [alice; bob] (frozen message_dict) stored stored_state joined_state ∅ None 10 false true);
    try by_eval; by apply (bool_decide_unpack _).
Defined.

(** Servers: the state after every event is the one above. *)
Definition server_store : ServerStore := {|
  users_erased u := String.eqb u bob;
  is_partial_state_room _ := true;
  state_ids_after _ :=
    Ok [((EventTypes.Member, alice), "$member"); ((EventTypes.RoomHistoryVisibility, ""), "$visibility")];
  get_event := stored
|}.

(** Alice's server sees bob's message, another server its redaction. *)
Definition message : FrozenEvent := frozen message_dict.
Definition message_redacted : FrozenEvent := get_ok no_event (prune_event message).

Lemma other_server_sees :
  filter_events_for_server server_store "other" "hs" [message] true false true = Ok [message_redacted].
Proof. by_eval. Qed.

Lemma server_sees_what_it_may_witness :
  ∃ parts, [message] = mjoin parts ∧
    Forall2 (λ e part,
      (visible_to_server server_store "hs" "hs" false true e ∧ part = [e]) ∨
      (¬ visible_to_server server_store "hs" "hs" false true e ∧
       (if true then ∃ e', prune_event e = Ok e' ∧ part = [e'] else part = []))) [message] parts.
Proof.
  apply (server_sees_what_it_may server_store "hs" "hs" [message] true false true).
  - by intros e e' i ->%list_elem_of_singleton ->%list_elem_of_singleton.
  - intros i i' s s' k k' x [= <-] [= <-] Hk Hk'. rewrite !elem_of_cons, elem_of_nil in Hk, Hk'.
    destruct Hk as [[= -> ->]|[[= -> ->]|[]]], Hk' as [[= ->]|[[= ->]|[]]]; done.
  - by_eval.
Defined.
