(* ===== verification/CacheWitnesses.v ===== *)
(** * The theorems on caches at concrete inputs *)

From S2P Require Import Prelude LinkedList LruCache LruCacheProps TreeCache TreeCacheProps.

(** A plain dict and a tree of depth two. *)
Definition plain : CacheType string nat := dict_cache_type string nat.
Definition plain_laws : CacheLaws plain := dict_cache_laws string nat.
Definition pairs : CacheType (list string) nat := tree_cache_type string nat.
Definition pairs_laws : CacheLaws pairs := tree_cache_laws string nat 1.

(** Callbacks are numbers. *)
Definition sample_ops : list (@LruOp (list string) Z nat) :=
  [OSet ["a"; "1"] 1 [7%nat]; OSet ["a"; "2"] 2 []; OGet ["a"; "1"] [8%nat; 7%nat] true;
   OSet ["b"; "1"] 3 [9%nat]; OContains ["a"; "2"]; OSetDefault ["b"; "1"] 4; OResize (λ _, 3);
   OSet ["b"; "2"] 5 []; ODelMulti ["b"]; OPop ["a"; "1"]; OClear].

Lemma lru_cache_refines_list_witness :
  let r := a_run (CL := pairs_laws) None None (λ x y, negb (x =? y)) (λ l, l) sample_ops (mkAbs 2 2 [] []) in
  ∃ c', lru_run (CT := pairs) None None (λ x y, negb (x =? y)) (λ l, l) sample_ops (lru_init 2 None None) = Ok (r.1, c') ∧
    represents (CL := pairs_laws) None None c' r.2 ∧ cache_len (CT := pairs) None c' ≤ max_size c'.
Proof.
  apply (lru_cache_refines_list (CT := pairs) (CL := pairs_laws) None None (λ x y, negb (x =? y)) (λ l, l) 2 None None sample_ops).
  - done.
  - done.
  - repeat split; cbn; (done || lia || congruence).
Defined.

(** The least recently used entry went, its key is not in the cache; the entry
    of the first key was read and stayed until it was popped. *)
Lemma sample_outputs :
  (a_run (CL := pairs_laws) None None (λ x y, negb (x =? y)) (λ l, l) sample_ops (mkAbs 2 2 [] [])).1 =
  [RNone; RNone; RValue (Some 1); RNone; RBool false; RValue (Some 3); RNone; RNone; RNone;
   RValue (Some 1); RNone].
Proof. vm_compute. reflexivity. Qed.

(** A value that replaces one with another index key is missed by the index:
    the entry survives the invalidation of its index key. *)
Definition by_value : option (string → string → string) := Some (λ _ v, v).
Definition stale_ops : list (@LruOp string string nat) :=
  [OSet "event" "room1" []; OSet "event" "room2" []; OInvalidate "room2"; OContains "event"].

Lemma stale_index :
  ∃ c, lru_run (CT := plain) None by_value (λ x y, negb (String.eqb x y)) (λ l, l) stale_ops (lru_init 10 None None) =
    Ok ([RNone; RNone; RNone; RBool true], c).
Proof. eexists. vm_compute. reflexivity. Qed.

(** A key set again is counted again. *)
Lemma set_again_size :
  ∃ c, (c ← tc_set ["a"] 1 (tc_new : TreeCache string Z); tc_set ["a"] 2 c) = Ok c ∧
    TreeCache.size c = 2 ∧ tc_items c = [(["a"], 2)].
Proof. eexists. vm_compute. done. Qed.
