(* ===== verification/PresenceWitnesses.v ===== *)
(** * The theorems on presence, on concrete data

    A wheel timer with one object; a user that syncs, is active and goes idle;
    a server that is restarted; and a busy user whom no timer watches. *)

From S2P Require Import Prelude PyJson Identifiers WheelTimer PresenceStore Presence PresenceProps PresenceInv PresenceOps PresenceTimeouts PresenceTheorems Samples.

(** ** Wheel timers *)

Definition timer_ops : list (timer_op string) := [TInsert 1000 "a" 12000; TFetch 14000].

Lemma wheel_timer_on_time_witness : ∃ w, timer_run 5000 timer_ops = Ok w ∧
  (∀ o, o ∈ (wt_fetch 16000 w).1 → ∃ now then_, TInsert now o then_ ∈ timer_ops ∧ then_ < 16000) ∧
  (∀ p1 now o then_ p2, timer_ops = p1 ++ TInsert now o then_ :: p2 →
     Z.quot then_ 5000 < Z.quot 16000 5000 → Z.quot now 5000 < Z.quot 16000 5000 →
     o ∈ (wt_fetch 16000 w).1 ∨ returned_by 5000 (p1 ++ [TInsert now o then_]) p2 o).
Proof.
  apply (wheel_timer_on_time (T := string) 5000 timer_ops 16000); [lia|].
  repeat constructor; cbn; lia.
Defined.

(** The object is not there at 14 s, and is at 16 s. *)
Lemma timer_returns :
  (w ← timer_run 5000 [TInsert 1000 "a" 12000]; Ok (wt_fetch 14000 w).1) = Ok [] ∧
  (w ← timer_run 5000 timer_ops; Ok (wt_fetch 16000 w).1) = Ok ["a"].
Proof. split; by_eval. Qed.

(** ** A server with one user *)

Definition config : PresenceConfig := mkPresenceConfig "hs" true true true.
Definition ann : string := "@ann:hs".
Definition start_time : Z := 10000000.

Definition no_handler : PresenceHandler := mkPresence ∅ ∅ (wt_init 5000) ∅ ∅ ∅ ∅ (mkStore [] 0) [].
Definition started : PresenceHandler :=
  match presence_init config start_time (mkStore [] 0) with Ok h => h | Raise _ => no_handler end.

Lemma empty_db_ok : db_ok config start_time (mkStore [] 0).
Proof.
  split; [done|]. split; [split; [constructor|by intros ? ?%elem_of_nil]|].
  intros u st [_ [i Hi]]. by apply elem_of_nil in Hi.
Qed.

(** Ann starts a sync from her phone, and is active ten seconds later. *)
Definition synced : PresenceHandler :=
  presence_step config (start_time + 1000) (Syncing ann (Some "phone") true PresenceState.ONLINE) started.
Definition active : PresenceHandler :=
  presence_step config (start_time + 11000) (Active ann (Some "phone")) synced.

Lemma active_reachable : reachable config start_time (mkStore [] 0) (start_time + 11000) active.
Proof.
  eapply (reach_step _ _ _ (start_time + 1000)); [|done|done].
  eapply (reach_step _ _ _ start_time); [|done|done]. by constructor.
Qed.

Lemma presence_is_best_device_witness :
  _combine_device_states (device_values (devices_of active ann)) = Ok (state (cur active ann)) ∧
  (∀ d dev, devices_of active ann !! d = Some dev →
     priority (dev_state dev) ≤ priority (state (cur active ann))) ∧
  (state (cur active ann) = PresenceState.OFFLINE ∨
   ∃ d dev, devices_of active ann !! d = Some dev ∧ dev_state dev = state (cur active ann)).
Proof.
  exact (presence_is_best_device config eq_refl eq_refl start_time (mkStore [] 0) _ active ann
    empty_db_ok active_reachable eq_refl).
Defined.

Lemma nobody_stays_online_witness :
  state (cur active ann) = PresenceState.ONLINE ∧
  ∃ h', _handle_timeouts config (start_time + 400000) active = (Ok tt, h') ∧
        state (cur h' ann) ≠ PresenceState.ONLINE.
Proof.
  split; [by_eval|].
  exact (nobody_stays_online config eq_refl eq_refl start_time (mkStore [] 0) _ active (start_time + 400000)
    ann empty_db_ok active_reachable ltac:(done) ltac:(done) ltac:(done)).
Defined.

Lemma syncing_user_not_timed_out_witness :
  let dev := mkDevice ann (Some "phone") PresenceState.ONLINE (start_time + 11000) (start_time + 1000) in
  ∃ h', _handle_timeouts config (start_time + 400000) active = (Ok tt, h') ∧
    (devices_of h' ann !! Some "phone" = Some dev ∨
     dev_state dev = PresenceState.ONLINE ∧ IDLE_TIMER < start_time + 400000 - dev_last_active_ts dev ∧
     devices_of h' ann !! Some "phone" = Some (set_dev_state PresenceState.UNAVAILABLE dev)) ∧
    state (cur h' ann) ≠ PresenceState.OFFLINE.
Proof.
  apply (syncing_user_not_timed_out config eq_refl eq_refl start_time (mkStore [] 0) (start_time + 11000)
    active (start_time + 400000) ann (Some "phone")).
  - apply empty_db_ok.
  - apply active_reachable.
  - done.
  - done.
  - left. exists 1. split; [by_eval|done].
  - by_eval.
  - done.
Defined.

Lemma restart_keeps_presence_witness :
  _on_shutdown false active = (Ok tt, active) ∧
  ∃ h1 h2, _on_shutdown true active = (Ok tt, h1) ∧ presence_init config (start_time + 20000) (presence_db h1) = Ok h2 ∧
    db_ok config (start_time + 20000) (presence_db h1) ∧
    ∀ u, (current_state_for_user u h2).1 = (current_state_for_user u active).1 ∧
         is_ok (current_state_for_user u h2).1 = true.
Proof.
  exact (restart_keeps_presence config eq_refl eq_refl start_time (mkStore [] 0) _ active (start_time + 20000)
    empty_db_ok active_reachable ltac:(done)).
Defined.

(** ** A busy user that no timer watches

    Ann has not synced for an hour and sets herself busy. The timers set for
    her are those of her last sync, which are past: the next check takes them,
    finds nothing to do, and sets no other. *)

Definition busy_user : PresenceHandler :=
  presence_step config (start_time + 1000)
    (SetState ann (Some "phone") PresenceState.BUSY None false) started.
Definition busy_checked : PresenceHandler := presence_step config (start_time + 6000) Timeouts busy_user.

(** Nothing is due, and nothing ever will be. *)
Definition unwatched (h : PresenceHandler) : Prop :=
  entries (wheel_timer h) = [] ∧ external_process_last_updated_ms h = ∅.

Lemma unwatched_timeouts t h : unwatched h →
  unwatched (presence_step config t Timeouts h) ∧
  user_to_current_state (presence_step config t Timeouts h) = user_to_current_state h.
Proof.
  intros [Hw He]. cbn [presence_step]. rewrite handle_timeouts_eq.
  assert (checked_states t h = []) as ->.
  { unfold checked_states, checked_users, wt_fetch, expired_processes. by rewrite Hw, He. }
  unfold unwatched, fetched, wt_fetch, expired_processes. rewrite Hw, He. done.
Qed.

Lemma busy_for_ever ts :
  state (cur (foldl (λ h t, presence_step config t Timeouts h) busy_checked ts) ann) = PresenceState.BUSY.
Proof.
  assert (∀ h, unwatched h → state (cur h ann) = PresenceState.BUSY →
    state (cur (foldl (λ h t, presence_step config t Timeouts h) h ts) ann) = PresenceState.BUSY) as Hgen.
  { induction ts as [|t ts IH]; intros h Hu Hs; [done|]. cbn [foldl].
    destruct (unwatched_timeouts t h Hu) as [Hu' Hm]. apply IH; [done|]. unfold cur in *. by rewrite Hm. }
  apply Hgen; [split; by_eval|by_eval].
Qed.

(** ** A time from another server

    The other server says that its user will be active in five million
    milliseconds. The time is kept, and the next start of this server fills
    the buckets up to it: the number of buckets is chosen by the other server. *)

Definition eve_push : push := mkPush (Some "@eve:other") (Some PresenceState.ONLINE) (Some (-5000000)) None false.
Definition told : PresenceHandler :=
  presence_step config (start_time + 1000) (Incoming "other" [eve_push]) started.

Lemma remote_time_fills_timer :
  match presence_init config (start_time + 2000) (presence_db told) with
  | Ok h => length (entries (wheel_timer h))
  | Raise _ => 0%nat
  end = 1061%nat.
Proof. by_eval. Qed.
