(* ===== verification/ReplicationWitnesses.v ===== *)
(** * The theorems on replication, on concrete data

    Commands that survive the wire and device ids that do not; a queue of
    presence updates fetched in two pages; a worker whose sync reaches the
    writer, and one that is taken for dead in the middle of a sync. *)

From S2P Require Import Prelude PyJson PyStr Identifiers Commands WheelTimer PresenceStore Presence PresenceProps PresenceInv PresenceOps PresenceTimeouts PresenceTheorems PresenceQueue PresenceWorker Samples PresenceWitnesses.

(** ** Commands *)

(** Enough of JSON for one row. *)
Definition encode_row (v : json) : string := match v with JInt 7 => "7" | _ => "null" end.
Definition decode_row (s : string) : res json := if String.eqb s "7" then Ok (JInt 7) else Ok JNull.

Definition rdata_7 : Command := RdataCommand "typing" "master" (Some (-54)) (JInt 7).

Lemma command_roundtrip_witness :
  command_line encode_row rdata_7 = "RDATA typing master -54 7" ∧
  parse_command_from_line decode_row (command_line encode_row rdata_7) = Ok rdata_7.
Proof.
  split; [by_eval|]. apply (command_roundtrip encode_row decode_row rdata_7).
  split; [by apply bool_none_of|]. split; [by apply bool_none_of|]. by_eval.
Defined.

(** A device called None is read as no device, and a device id with a space
    makes the other end raise. *)
Lemma device_ids_on_wire :
  parse_command_from_line decode_row
    (command_line encode_row (UserSyncCommand "w1" ann (Some "None") true 5)) =
    Ok (UserSyncCommand "w1" ann None true 5) ∧
  parse_command_from_line decode_row
    (command_line encode_row (UserSyncCommand "w1" ann (Some "my phone") true 5)) =
    Raise (PlainException "Invalid USER_SYNC state %r").
Proof. split; by_eval. Qed.

(** ** The queue *)

Definition ann_online : UserPresenceState := default_state ann.
Definition sends : list queue_op :=
  [QSend 1000 [ann_online] ["a"; "b"]; QSend 2000 [] ["a"]; QSend 3000 [ann_online] ["c"]; QClear 302000].

Lemma federation_queue_delivers_witness : ∃ q dropped,
  queue_run sends = Ok q ∧ sent_log sends = dropped ++ _queue q ∧
  (∀ t e, (∀ op, op ∈ sends → queue_op_time op ≤ t) → e ∈ dropped → q_time e < t - _KEEP_ITEMS_IN_QUEUE_FOR_MS) ∧
  (∀ from upto target,
     fetch_pages (S (length (_queue q))) from upto target q = Some (all_rows (in_range from upto (_queue q)))).
Proof. apply (federation_queue_delivers sends). repeat constructor; cbn; lia. Defined.

(** Before the old entry is cleared, two pages of at most one row over. *)
Lemma fetched_rows :
  (q ← queue_run (take 3 sends); Ok (fetch_pages 3 0 2 1 q)) =
    Ok (Some [(1, ("a", ann)); (1, ("b", ann)); (2, ("c", ann))]) ∧
  (q ← queue_run sends; Ok (fetch_pages 2 0 2 1 q)) = Ok (Some [(2, ("c", ann))]).
Proof. split; by_eval. Qed.

(** ** A worker *)

Definition idle_worker : WorkerPresenceHandler := mkWorker "w1" ∅ ∅ ∅.
Definition busy_worker : WorkerPresenceHandler := mkWorker "w1" ∅ {[(ann, Some "phone") := 1]} ∅.
Definition start_command (t : Z) : Command := UserSyncCommand "w1" ann (Some "phone") true t.

Definition writer_1 : PresenceHandler :=
  (presence_set_state config (start_time + 1000) ann (Some "phone") PresenceState.ONLINE None false true started).2.
Definition writer_2 : PresenceHandler :=
  (on_command config (start_time + 1500) (start_command (start_time + 1000)) writer_1).2.
Definition worker_system : system := mkSystem busy_worker [] writer_2 true.

Lemma worker_starts :
  worker_user_syncing config (start_time + 1000) ann (Some "phone") true PresenceState.ONLINE idle_worker =
  Ok (busy_worker, [start_command (start_time + 1000)],
      [ProxySetState ann (Some "phone") PresenceState.ONLINE None false true]).
Proof. by_eval. Qed.

Lemma worker_system_reachable :
  sys_reachable config "w1" start_time (mkStore [] 0) (start_time + 1500) worker_system.
Proof.
  eapply (sys_next _ _ _ _ (start_time + 1000)); [|done|apply step_deliver].
  eapply (sys_next _ _ _ _ start_time); [by apply sys_start with (h := started)|done|].
  apply (step_start config "w1" (start_time + 1000) idle_worker [] started ann (Some "phone")
    PresenceState.ONLINE busy_worker _ _ eq_refl worker_starts).
Qed.

Lemma worker_syncs_known_witness :
  (∀ ud, ud ∈ foldl apply_command (known_syncs "w1" writer_2) [] ↔ true = true ∧ tracked busy_worker ud) ∧
  is_syncing (start_time + 200000) writer_2 (ann, Some "phone").
Proof.
  destruct (worker_syncs_known config eq_refl eq_refl "w1" start_time (mkStore [] 0) (start_time + 1500)
    worker_system ltac:(done) empty_db_ok worker_system_reachable) as [H1 H2].
  split; [exact H1|]. apply (H2 eq_refl eq_refl _ _ 1); [by_eval|done|].
  intros last. assert (external_process_last_updated_ms writer_2 !! "w1" = Some (start_time + 1500)) as E by by_eval.
  cbn [sys_writer worker_system]. rewrite E. intros [= <-]. done.
Defined.

(** A worker sends nothing while its syncs go on, so the writer forgets them
    when it has heard of no other sync for five minutes. *)
Lemma worker_taken_for_dead :
  known_syncs "w1" (presence_step config (start_time + 302000) Timeouts writer_2) = ∅ ∧
  tracked busy_worker (ann, Some "phone").
Proof. split; [by_eval|left; exists 1; split; [by_eval|done]]. Qed.
