(* ===== verification/ChainWitnesses.v ===== *)
(** * Chain cover index: sample runs

    A room whose events arrive in four batches; the event [X] arrives before
    the events of its auth chain. *)

From S2P Require Import Prelude PyOrd ChainLinks ChainIndex ChainCover ChainQuery ChainQueryProps ChainBuild ChainPersist ChainSearch ChainWalk ChainTheorems.
From stdpp Require Import relations.
#[local] Open Scope Z_scope.

Definition chain_event (i t k : string) (auth : list string) : PersistedEvent := mkPersisted i "!r" t (Some k) auth false.

Definition batch_x : list PersistedEvent := [chain_event "X" "m.room.member" "x" ["C"; "U"]].
Definition batch_create : list PersistedEvent :=
  [chain_event "C" "m.room.create" "" [];
   chain_event "J" "m.room.member" "a" ["C"];
   chain_event "P" "m.room.power_levels" "" ["C"; "J"];
   chain_event "R" "m.room.join_rules" "" ["C"; "P"; "J"]].
Definition batch_later : list PersistedEvent :=
  [chain_event "J2" "m.room.member" "a" ["C"; "P"; "J"];
   chain_event "K" "m.room.member" "b" ["C"; "P"; "R"];
   mkPersisted "M" "!r" "m.room.message" None ["C"; "P"; "J2"] false;
   chain_event "P2" "m.room.power_levels" "" ["C"; "J2"; "P"]].
Definition batch_u : list PersistedEvent := [chain_event "U" "m.room.member" "u" ["C"]].

Definition sample_events : list PersistedEvent := batch_x ++ batch_create ++ batch_later ++ batch_u.
Definition sample_event (i : string) : option PersistedEvent := snd <$> list_find (λ p, p_event_id p = i) sample_events.

(** The position in an order of the events that respects their auth events. *)
Definition sample_depth (i : string) : nat :=
  default 0%nat (fst <$> list_find (λ j, j = i) ["none"; "C"; "J"; "P"; "R"; "U"; "X"; "J2"; "K"; "M"; "P2"]).

#[local] Instance sample_graph : EventGraph := {|
  g_room _ := "!r";
  g_state i := if sample_event i is Some p then p_is_state p else false;
  g_types i := if sample_event i is Some p then (p_type p, default "" (p_state_key p)) else ("", "");
  g_auth i := if sample_event i is Some p then p_auth_event_ids p else [];
  g_depth := sample_depth
|}.

Lemma sample_event_in i p : sample_event i = Some p → p ∈ sample_events ∧ p_event_id p = i.
Proof.
  unfold sample_event. intros ([j q] & Hq & ->)%fmap_Some. apply list_find_Some in Hq as (Hj & Hi & _).
  split; [by eapply list_elem_of_lookup_2|done].
Qed.

#[local] Instance sample_laws : EventGraphLaws.
Proof.
  assert (Forall (λ p, NoDup (p_auth_event_ids p) ∧
    Forall (λ a, (sample_depth a < sample_depth (p_event_id p))%nat) (p_auth_event_ids p)) sample_events) as Hall
    by (apply (bool_decide_unpack _); vm_compute; exact I).
  rewrite Forall_forall in Hall. split; cbn [sample_graph g_room g_auth g_depth].
  - done.
  - intros e. destruct (sample_event e) as [p|] eqn:E; [|constructor]. apply sample_event_in in E as [Hp _]. by apply Hall.
  - done.
  - intros e a Ha. destruct (sample_event e) as [p|] eqn:E; [|by apply elem_of_nil in Ha].
    apply sample_event_in in E as [Hp <-]. destruct (Hall p Hp) as [_ Hd]. rewrite Forall_forall in Hd. by apply Hd.
Qed.

Lemma sample_event_ok p : p ∈ sample_events → event_ok p.
Proof.
  assert (Forall (λ p, sample_event (p_event_id p) = Some p ∧ p_room_id p = "!r") sample_events) as Hall.
  { repeat (apply Forall_cons; split; [split; reflexivity|]). by apply Forall_nil. }
  rewrite Forall_forall in Hall. intros Hp. destruct (Hall p Hp) as [E Hr].
  split; cbn [sample_graph g_room g_auth g_state g_types]; rewrite ?E; [done|done|done|]. by intros k ->.
Qed.

Lemma sample_batches_ok (batches : list (list PersistedEvent)) b p :
  batches ⊆ [batch_x; batch_create; batch_later; batch_u] → b ∈ batches → p ∈ b → event_ok p.
Proof.
  intros Hsub Hb%Hsub Hp. apply sample_event_ok. unfold sample_events. rewrite !elem_of_app.
  rewrite !elem_of_cons, elem_of_nil in Hb. naive_solver.
Qed.

(** The chains after the four batches. *)
Example sample_chains :
  match persist_batches (seq 0) [batch_x; batch_create; batch_later; batch_u] with
  | Ok db => (λ e, t_chains db !! e) <$> ["C"; "J"; "J2"; "P"; "P2"; "R"; "K"; "U"; "X"; "M"] =
      [Some (1, 1); Some (2, 1); Some (2, 2); Some (3, 1); Some (3, 2); Some (4, 1); Some (5, 1); Some (6, 1); Some (7, 1); None]
  | Raise _ => False
  end.
Proof. vm_compute. reflexivity. Qed.

(** The event [X] waits until [U] has come; the difference finds it all the same. *)
Example sample_difference :
  (db ← persist_batches (seq 0) [batch_x; batch_create; batch_later];
   D ← _get_auth_chain_difference_using_cover_index_txn "!r" [{["K"; "X"]}; {["P2"]}] db;
   Ok (elements D, t_chains db !! "X")) =
  Ok (elements ({["K"; "R"; "P2"; "J2"; "X"; "U"]} : StrSet), None).
Proof. vm_compute. reflexivity. Qed.

Lemma persisted_events_indexed_witness :
  ∃ db, persist_batches (seq 0) [batch_x; batch_create; batch_later] = Ok db ∧
    cover auth_edge (t_chains db) (row_link (t_links db)) ∧ t_chains db !! "X" = None.
Proof.
  destruct (persisted_events_indexed (seq 0) [batch_x; batch_create; batch_later]) as (db & Hrun & Hcover & Hidx & _).
  - done.
  - intros b p. apply sample_batches_ok. set_solver.
  - exists db. split_and!; [exact Hrun|exact Hcover|]. apply eq_None_not_Some. rewrite Hidx. intros Hall.
    assert ("U" ∈ state_ids (concat [batch_x; batch_create; batch_later])) as Hin.
    { apply Hall, rtc_once. unfold auth_edge. cbn. right. left. }
    revert Hin. apply (bool_decide_unpack _). vm_compute. exact I.
Defined.

(** The depths of the events in the table. *)
Definition sample_depths : StrMap Z :=
  list_to_map ((λ p, (p_event_id p, Z.of_nat (sample_depth (p_event_id p)))) <$> sample_events).

Lemma sample_batch (b : list (list PersistedEvent)) : b ⊆ [batch_x; batch_create; batch_later; batch_u] →
  ∀ e, e ∈ state_ids (concat b) → is_Some (sample_depths !! e).
Proof.
  intros Hsub e (p & Hp & _ & <-)%elem_of_state_ids.
  assert (p ∈ sample_events) as Hin.
  { apply list_elem_of_In, in_concat in Hp as (l & Hl%list_elem_of_In%Hsub & Hpl%list_elem_of_In).
    unfold sample_events. rewrite !elem_of_app. rewrite !elem_of_cons, elem_of_nil in Hl. naive_solver. }
  clear Hp. revert p Hin. change (∀ p, p ∈ sample_events → is_Some (sample_depths !! p_event_id p)). apply Forall_forall. apply (bool_decide_unpack _). vm_compute. exact I.
Qed.

Lemma cover_index_difference_witness :
  ∃ D, (db ← persist_batches (seq 0) [batch_x; batch_create; batch_later];
        store_get_auth_chain_difference false (Some (Some true)) "!r" [{["K"; "X"]}; {["P2"]}] db ∅ ∅) = Ok (D, ∅) ∧ "X" ∈ D.
Proof.
  destruct (cover_index_difference (seq 0) [batch_x; batch_create; batch_later] false "!r" [{["K"; "X"]}; {["P2"]}] ∅ ∅)
    as (D & HD & Hx).
  - done.
  - intros b p. apply sample_batches_ok. set_solver.
  - done.
  - intros S v HS Hv. split; [|reflexivity].
    assert (v ∈ ({["K"; "X"; "P2"]} : StrSet)) as Hv'.
    { rewrite !elem_of_cons, elem_of_nil in HS. destruct HS as [->|[->|[]]]; set_solver. }
    clear HS Hv. revert v Hv'. change (set_Forall (λ v, v ∈ state_ids (concat [batch_x; batch_create; batch_later])) ({["K"; "X"; "P2"]} : StrSet)).
    apply (bool_decide_unpack _). vm_compute. exact I.
  - exists D. split; [exact HD|].
    assert (match (db ← persist_batches (seq 0) [batch_x; batch_create; batch_later];
        store_get_auth_chain_difference false (Some (Some true)) "!r" [{["K"; "X"]}; {["P2"]}] db ∅ ∅) with
      Ok (D, _) => bool_decide ("X" ∈ D) | Raise _ => false end = true) as Hb by (vm_compute; reflexivity).
    rewrite HD in Hb. by apply bool_decide_eq_true in Hb.
Defined.

Lemma cover_index_auth_chain_witness :
  (∃ db, persist_batches (seq 0) [batch_create; batch_later; batch_u] = Ok db ∧
    ∃ D cache', get_auth_chain_ids false (Some (Some false)) ["P2"] false db sample_depths ∅ = Ok (D, cache') ∧ "J" ∈ D) ∧
  (∃ db, persist_batches (seq 0) [batch_x; batch_create] = Ok db ∧
    get_auth_chain_ids false (Some (Some true)) ["X"] false db sample_depths ∅ = Raise _NoChainCoverIndex).
Proof.
  split.
  - destruct (cover_index_auth_chain (seq 0) [batch_create; batch_later; batch_u] false ["P2"] sample_depths) as (db & Hdb & _ & H).
    + done.
    + intros b p. apply sample_batches_ok. set_solver.
    + apply sample_batch. set_solver.
    + exists db. split; [exact Hdb|]. pose proof (H ∅ (cache_ok_empty db sample_depths)) as [H' _].
      destruct (H') with false (Some false) as (D & cache' & HD & _ & Hx).
      * clear Hdb H H'. intros v a ->%list_elem_of_singleton Ha.
        assert (∀ e a, e ∈ state_ids (concat [batch_create; batch_later; batch_u]) → auth_edge e a →
          a ∈ state_ids (concat [batch_create; batch_later; batch_u])) as Hclosed.
        { cut (Forall (λ e, Forall (λ a, a ∈ state_ids (concat [batch_create; batch_later; batch_u])) (g_auth e))
            (state_ids (concat [batch_create; batch_later; batch_u]))); [|apply (bool_decide_unpack _); vm_compute; exact I].
          rewrite Forall_forall. intros Hf e b He Hb. specialize (Hf e He). rewrite Forall_forall in Hf. by apply Hf. }
        assert ("P2" ∈ state_ids (concat [batch_create; batch_later; batch_u])) as Hin
          by (apply (bool_decide_unpack _); vm_compute; exact I).
        revert Hin. induction Ha as [|e b a Hb _ IH]; [done|]. intros He. by apply IH, (Hclosed e).
      * exists D, cache'. split; [exact HD|]. apply Hx. right. exists "P2". split; [left|].
        apply (tc_l _ _ "J2"); [|apply tc_once]; vm_compute; [right; left|right; right; left].
  - destruct (cover_index_auth_chain (seq 0) [batch_x; batch_create] false ["X"] sample_depths) as (db & Hdb & _ & H).
    + done.
    + intros b p. apply sample_batches_ok. set_solver.
    + apply sample_batch. set_solver.
    + exists db. split; [exact Hdb|]. pose proof (H ∅ (cache_ok_empty db sample_depths)) as [_ H'].
      apply H' with "X" "U".
      * left.
      * apply rtc_once. vm_compute. right. left.
      * apply (bool_decide_unpack _). vm_compute. exact I.
Defined.

Lemma search_difference_covers_witness :
  ∃ db, persist_batches (seq 0) [batch_create; batch_later] = Ok db ∧
    ∃ D cache', store_get_auth_chain_difference false (Some (Some false)) "!r" [{["K"]}; {["P2"]}] db sample_depths ∅ = Ok (D, cache') ∧
      ∀ x, x ∈ D → ∃ S v, S ∈ [{["K"]}; {["P2"]} : StrSet] ∧ v ∈ S.
Proof.
  destruct (search_difference_covers (seq 0) [batch_create; batch_later] "!r" [{["K"]}; {["P2"]}] sample_depths) as (db & Hdb & _ & H).
  - done.
  - intros b p. apply sample_batches_ok. set_solver.
  - apply sample_batch. set_solver.
  - done.
  - exists db. split; [exact Hdb|]. pose proof (H false ∅ (cache_ok_empty db sample_depths)) as (D & cache' & HD & _ & _ & Hout).
    exists D, cache'. split; [exact HD|]. intros x (S & v & HS & Hv & _)%Hout. exists S, v. split; [exact HS|exact Hv].
Defined.

(** ** Where the code falls short *)

(** An auth event that is named twice is reached from itself: its link is left out. *)
Example duplicate_auth_event_unlinked :
  (db ← persist_batches (seq 0) [batch_create; [chain_event "D" "m.room.member" "d" ["C"; "C"]]];
   Ok (t_chains db !! "D", filter (λ r : Coord * Coord, Some r.1 = t_chains db !! "D") (t_links db))) =
  Ok (Some (5, 1), []).
Proof. vm_compute. reflexivity. Qed.

(** When the transaction that persists the event fails after its index has been
    calculated, the event is left to be calculated with no auth events, and the
    next attempt to persist it indexes it so. *)
Example failed_persist_unlinked :
  ('(_, db) ← calculate_chain_cover_index_for_events (seq 0) (Some (Some true)) batch_x empty_tables;
   db ← persist_batch (seq 0) (Some (Some true)) batch_x db;
   Ok (t_chains db !! "X", t_links db, select_auth db "X")) =
  Ok (Some (1, 1), [], ["C"; "U"]).
Proof. vm_compute. reflexivity. Qed.

(** The state sets are changed in place, so that a second attempt at the
    transaction finds no unindexed events. *)
Example retried_difference_loses_events :
  (db ← persist_batches (seq 0) [batch_x; batch_create; batch_later];
   let sets : list StrSet := [{["K"; "X"]}; {["P2"]}] in
   r ← _fixup_auth_chain_difference_sets "!r" sets {["X"]} (dom (fetch_chain_info db (set_union sets))) db;
   D1 ← _get_auth_chain_difference_using_cover_index_txn "!r" sets db;
   D2 ← _get_auth_chain_difference_using_cover_index_txn "!r" r.2 db;
   Ok (elements (D1 ∖ D2))) = Ok (elements ({["X"; "U"]} : StrSet)).
Proof. vm_compute. reflexivity. Qed.

(** The search stops once every event it has still to expand is reached by all
    sets. Here [s] is one, and its auth event [d], which it has expanded before
    and knows to be reached from [B] alone, is reached from [A] by [s] only: [d]
    is returned though both sets reach it. *)
Definition early_stop_auth : list (string * list string) :=
  [("A", ["c"; "x"]); ("B", ["c"; "d"; "y"]); ("x", ["c"; "s"]); ("y", ["c"; "s"]); ("s", ["c"; "d"]); ("d", ["c"])].
Definition early_stop_tables : AuthTables :=
  mkTables ∅ ('(e, l) ← early_stop_auth; pair e <$> l) ∅ [] ∅ 0.
Definition early_stop_depths : StrMap Z := list_to_map [("c", 1); ("d", 2); ("s", 3); ("x", 4); ("y", 4); ("A", 5); ("B", 5)].

Example search_stops_early :
  (r ← _get_auth_chain_difference_txn [{["A"]}; {["B"]}] early_stop_tables early_stop_depths ∅;
   a ← _get_auth_chain_ids_txn ["A"] false early_stop_tables early_stop_depths ∅;
   b ← _get_auth_chain_ids_txn ["B"] false early_stop_tables early_stop_depths ∅;
   Ok (bool_decide ("d" ∈ r.1), bool_decide ("d" ∈ a.1), bool_decide ("d" ∈ b.1))) = Ok (true, true, true).
Proof. vm_compute. reflexivity. Qed.

(** An auth event that arrives after the auth events of an event have been
    cached is not found from that event. *)
Example cache_keeps_old_auth_events :
  (let db := mkTables ∅ [("e", "a"); ("e", "b")] ∅ [] ∅ 0 in
   r ← _get_auth_chain_ids_txn ["e"] false db {["e" := 3; "a" := 1]} ∅;
   r' ← _get_auth_chain_ids_txn ["e"] false db {["e" := 3; "a" := 1; "b" := 2]} r.2;
   Ok (elements r'.1)) = Ok ["a"].
Proof. vm_compute. reflexivity. Qed.
