(* ===== verification/LockWitnesses.v ===== *)
(** * The theorems on locks at concrete runs *)

From S2P Require Import Prelude Linearizer ReadWriteLock.
From stdpp Require Import relations.
#[local] Open Scope Z_scope.

Fixpoint lin_play (l : list lin_action) (s : Linearizer) : option Linearizer :=
  match l with
  | [] => Some s
  | a :: l => match lin_do a s with Some (Ok s') => lin_play l s' | _ => None end
  end.

Lemma lin_play_reach l s s' : lin_play l s = Some s' → rtc lin_step s s'.
Proof.
  revert s. induction l as [|a l IH]; cbn; intros s; [by intros [= ->]|].
  destruct (lin_do a s) as [[s1|]|] eqn:Ha; try done. intros Hl. eapply rtc_l; [by econstructor|by apply IH].
Qed.

Fixpoint rw_play (l : list rw_action) (s : ReadWriteLock) : option ReadWriteLock :=
  match l with
  | [] => Some s
  | a :: l => match rw_do a s with Some s' => rw_play l s' | _ => None end
  end.

Lemma rw_play_reach l s s' : rw_play l s = Some s' → rtc rw_step s s'.
Proof.
  revert s. induction l as [|a l IH]; cbn; intros s; [by intros [= ->]|].
  destruct (rw_do a s) as [s1|] eqn:Ha; [|done]. intros Hl. eapply rtc_l; [by econstructor|by apply IH].
Qed.

(** Three tasks for a key that has room for one: the second waits for the
    first, the third for the second. *)
Definition three_tasks : Linearizer := default (lin_init 1) (lin_play [LAcquire "k"; LAcquire "k"; LAcquire "k"] (lin_init 1)).
Definition first_done : Linearizer := default (lin_init 1) (lin_play [LRelease 0; LWake 1] three_tasks).

Lemma three_tasks_reach : rtc lin_step (lin_init 1) three_tasks.
Proof. by apply (lin_play_reach [LAcquire "k"; LAcquire "k"; LAcquire "k"]). Qed.

Lemma linearizer_limits_fairly_witness :
  size (active (tasks_of "k" (lin_tasks three_tasks))) = 1%nat ∧ is_queued "k" three_tasks = true ∧
  (∃ s', lin_do (LRelease 0) three_tasks = Some (Ok s')).
Proof.
  destruct (linearizer_limits_fairly 1 three_tasks ltac:(lia) three_tasks_reach) as (_ & Hfull & _ & Hq & Hdo).
  assert (waiting_tasks "k" (lin_tasks three_tasks) ≠ ∅) as Hw.
  { intros He. assert (1%nat ∈ waiting_tasks "k" (lin_tasks three_tasks)) as Hin; [|rewrite He in Hin; by apply elem_of_empty in Hin].
    apply elem_of_waiting. by eexists (mkLinTask "k" 0 LWaiting). }
  split_and!.
  - specialize (Hfull "k" Hw). lia.
  - by apply Hq.
  - destruct (lin_do (LRelease 0) three_tasks) as [r|] eqn:Hr; [|by vm_compute in Hr].
    destruct (Hdo _ _ Hr) as (s' & -> & _). by exists s'.
Defined.

Lemma linearizer_bounded_wait_witness : (1 ≤ ahead "k" 2 three_tasks)%nat.
Proof.
  apply (linearizer_bounded_wait 1 three_tasks "k" 2 1 first_done); [lia|exact three_tasks_reach|..].
  - apply elem_of_waiting. by exists (mkLinTask "k" 0 LWaiting).
  - set (s1 := default (lin_init 1) (lin_play [LRelease 0] three_tasks)).
    change 1%nat with ((if frees "k" (LRelease 0) three_tasks then 1 else 0) + ((if frees "k" (LWake 1) s1 then 1 else 0) + 0))%nat.
    apply (lin_run_step "k" (LRelease 0) _ _ s1); [by vm_compute|].
    apply (lin_run_step "k" (LWake 1) 0 _ first_done); [by vm_compute|apply lin_run_nil].
  - apply elem_of_waiting. by exists (mkLinTask "k" 0 LWaiting).
Defined.

(** Two readers, and a writer that waits for them. *)
Definition two_readers : ReadWriteLock :=
  default rw_init (rw_play [RwStart RRead "k"; RwStart RRead "k"; RwStart RWrite "k"] rw_init).

Lemma two_readers_reach : rtc rw_step rw_init two_readers.
Proof. by apply (rw_play_reach [RwStart RRead "k"; RwStart RRead "k"; RwStart RWrite "k"]). Qed.

Lemma rw_lock_exclusive_witness : ¬ ∃ x, rw_tasks two_readers !! 2%nat = Some x ∧ rt_kind x = RWrite ∧ rt_phase x = RHolding.
Proof.
  intros (x & Hx & Hk & Hp). destruct (rw_lock_exclusive two_readers two_readers_reach) as (H & _).
  destruct (H 2%nat x 0%nat (mkRwTask "k" RRead ∅ RHolding)) as [? _]; try done; [|congruence].
  by vm_compute in Hx; injection Hx as <-.
Defined.

Lemma rw_lock_drains_witness : (3 ≤ 3 * rw_next two_readers)%nat.
Proof.
  set (s1 := default rw_init (rw_do (RwRelease 0) two_readers)).
  set (s2 := default rw_init (rw_do (RwRelease 1) s1)).
  set (s3 := default rw_init (rw_do (RwResume 2) s2)).
  apply (rw_lock_drains two_readers 3 s3 two_readers_reach).
  apply (nsteps_l _ _ _ s1); [by apply (rw_move_do (RwRelease 0))|].
  apply (nsteps_l _ _ _ s2); [by apply (rw_move_do (RwRelease 1))|].
  apply (nsteps_l _ _ _ s3); [by apply (rw_move_do (RwResume 2))|]. apply nsteps_O.
Defined.

(** When all have done, the set of readers of the key stays, empty. *)
Example readers_leak :
  (λ s, (key_to_current_readers s, key_to_current_writer s)) <$> rw_play [RwStart RRead "k"; RwRelease 0; RwFinish 0] rw_init =
  Some ({["k" := ∅]}, ∅).
Proof. by vm_compute. Qed.
